(* ===== verification/_CoqProject ===== *)
-Q . S2P
Prelude.v
Ids.v
Order.v
Models.v
GraphDomain.v
GraphTables.v
Fixtures.v
GraphPath.v
GraphMutate.v
GraphProjection.v
GraphStore.v
GraphOutbox.v
GraphRefresh.v
GraphInvariant.v
GraphPreserve.v
GraphReach.v
GraphSync.v
GraphDrain.v
GraphConverge.v
GraphObserve.v
GraphLimits.v
Frames.v
Governor.v
Text.v
Catalog.v
KeyedIndex.v
CatalogSpec.v
CatalogFixtures.v
Content.v
ContentText.v
ContentSpec.v
ContentGuarantees.v
ContentFixtures.v
DurableJson.v
Generations.v
GenerationsSpec.v
Projector.v
ProjectorSpec.v
ProjectorRun.v
GenerationsBuild.v
GenerationsFixtures.v
GenerationsLimits.v
ContentProject.v
ContentProjectSpec.v
ContentProjectFixtures.v
Search.v
SearchSpec.v
Agent.v
AgentSpec.v
ContentAgent.v
Usn.v
Platform.v
Journal.v
JournalSpec.v
JournalFixtures.v
JournalStream.v
Crawl.v
CrawlSpec.v
FolderScan.v
FolderScanSpec.v
FolderSync.v
FolderSyncSpec.v
FolderFixtures.v
FolderCli.v
Broker.v
BrokerSpec.v
BrokerClient.v
BrokerLink.v
JournalLimits.v
Observation.v
ObservationSpec.v
ObservationLink.v
Scheduler.v
SchedulerSpec.v
Mcp.v
McpSpec.v
Desktop.v
DesktopSpec.v
Pipe.v
PipeSpec.v
