(* ===== verification/Prelude.v ===== *)
(** * LocalSearch: a verification of its core

    LocalSearch indexes the files of a machine and answers searches over names, paths and text.  A
    filesystem provider observes volumes (directory scans, the NTFS change journal) and hands
    batches of mutations to the _filesystem graph_, a SQLite database of volumes, file objects and
    namespace links.  In the same transaction the graph keeps a _desired catalog_, one document per
    link with a resolvable path, and appends every change of it to a sequenced _outbox_.  The
    _projection worker_ replays the outbox into generations of a full-text index; the _agent_
    answers requests from the active generation and verifies and ranks what retrieval finds.  The
    _content index_ is a second consumer of the outbox: it reads the text of the files below folders
    the user opted in, builds generations of it that survive crashes, and follows the outbox.  A
    _resource governor_ decides how much of the background work is admitted.  A privileged _broker_
    reads the journal on behalf of the agent; agent and broker speak length-prefixed JSON frames.
    The commands of the content index keep a graph and a content index of folders the user selected.
    An _MCP adapter_ and a _desktop client_ are clients of the agent.

    ** Files and the code they model (paths below [src/crates/])

    - [Prelude]: results, the state-and-error monad [M] with its inversion tactic [minv], machine
      integers, ordered table scans ([rows]) and lemmas the files share.
    - [Ids], [Models]: [core/src/ids.rs], [core/src/models.rs] and the provider records of
      [platform-core/src/filesystem.rs].  An identifier is the number its sixteen bytes denote.
    - The graph, [filesystem-graph/src]: [GraphDomain] (domain.rs, error.rs), [GraphTables]
      (migrations.rs; the database is a record of finite maps, constraints are checks of the
      writes), and store.rs split by concern: [GraphPath] (path resolution), [GraphMutate]
      (mutations and refresh queues), [GraphProjection] (desired catalog and outbox), [GraphStore]
      (batches and observation scans), [GraphOutbox] (consumers and pruning), [GraphRefresh]
      (deferred refresh, statistics, audit).  Every public operation is one transaction: its Rocq
      function returns a value and a new database, or an error and no change.
    - Theorems on the graph: [GraphInvariant], [GraphPreserve], [GraphReach], [GraphSync],
      [GraphDrain], [GraphConverge], [GraphObserve], [GraphLimits]; data for witnesses in
      [Fixtures].
    - [Text], [Catalog], [CatalogSpec], [CatalogFixtures]: [catalog-index/src/index.rs];
      [KeyedIndex]: what an index keyed by document identifier owes the engine, shared with the
      content index.
    - [Projector], [ProjectorSpec], [ProjectorRun]: [catalog-index/src/projector.rs].  A computation
      of the worker returns its result with the world it leaves behind, since a failing step does
      not undo the earlier ones.
    - The content index, [content-index/src/lib.rs]: [Content] and [ContentText] (policy, bounded
      reading, build, synchronisation, delta, search), [DurableJson] (state files in two slots),
      [Generations] (the generation manager; every write may be torn, every removal may stop half
      way, and the process may die after a commit), [ContentProject] (the projection worker, the
      graph as a source of documents, readers that follow the active generation).  Theorems in
      [ContentSpec], [ContentGuarantees], [GenerationsSpec], [GenerationsBuild], [GenerationsLimits],
      [ContentProjectSpec]; data in [ContentFixtures], [GenerationsFixtures],
      [ContentProjectFixtures].
    - [Search], [SearchSpec]: [search_impl] of [agent/src/service.rs] and what it calls.
    - [Agent], [AgentSpec]: the rest of [agent/src/service.rs], opening, requests from authorization
      to response, maintenance passes; the content side is the class [ContentPort], which
      [ContentAgent] fills with the content index.
    - [Scheduler], [SchedulerSpec]: the scheduler thread of [agent/src/bin/localsearch-agent.rs],
      whose rounds compose governor, observation and maintenance.
    - [Governor]: [resource-governor/src/lib.rs] and [platform-core/src/resources.rs].
    - [Frames]: [agent-api/src/codec.rs], [agent-api/src/contract.rs], [broker-api/src/lib.rs].
    - [Order], [Platform]: bisection and sorted vectors as the provider keeps them; the error kinds
      and records of [platform-core].
    - The Windows provider, [windows-fs/src]: [Usn] (record.rs), [Journal] (checkpoint.rs, journal.rs
      and the change reader of provider.rs), [Crawl] (snapshots of provider.rs).  What the operating
      system answers is an argument: a journal is read through [journal_env], a directory tree is a
      [scan_env].  Theorems in [JournalSpec], [JournalStream], [JournalLimits], [CrawlSpec]; data in
      [JournalFixtures].
    - The broker: [Broker], [BrokerSpec] ([fs-service/src/lib.rs]; a scan worker is a component of
      the state that takes turns with the requests), [BrokerClient] ([broker-client/src/lib.rs],
      over any transport), [BrokerLink] (the client over the service).
    - [Observation], [ObservationSpec], [ObservationLink]: [agent/src/observation.rs], against the
      class [ObservationSource] of sources, and over the broker-backed source.
    - The commands of the content index, [content-index/src/main.rs]: [FolderScan] (a selected folder
      is scanned into the graph, or revoked), [FolderSync] (folder-sync, projection, rebuild, garbage
      collection, reset, compaction, watch), [FolderCli] (options and dispatch).  Theorems in
      [FolderScanSpec], [FolderSyncSpec]; data and limits in [FolderFixtures].
    - [Mcp], [McpSpec]: [mcp-adapter/src] (protocol.rs, adapter.rs, stdio.rs); a worker thread of the
      server takes turns with the reader of standard input.
    - [Desktop], [DesktopSpec]: [desktop/src/client.rs], where any number of
      searches take turns at the slot of the active one, and the activation metrics of
      [desktop/src/tauri_app.rs].
    - [Pipe], [PipeSpec]: [local-transport/src/windows_pipe.rs]; the read and write loops of both ends
      of a pipe take turns, at which the operating system decides what is transferred or fails.

    ** What is taken from other crates

    - [StoreEnv] with [StoreLaws]: the JSON codec of documents and mutations, SHA-256 and Unicode
      lower-casing.  The laws say that decoding inverts encoding and that digests of different
      inputs differ where the code relies on it; [Fixtures] gives an instance.
    - [TextEnv] with [TextLaws]: the Unicode tables behind normalisation.
    - [Tantivy] with [TantivyLaws]: the search engine's documented behaviour (writers, deletes,
      commits, merges, term and phrase queries, the default tokenizer); [CatalogFixtures] gives an
      instance.  Every call of the engine may fail.
    - [ContentEnv]: the hash of a text and the decoding of stored documents; the filesystem a
      reader of sources sees is a [SourceFs], which may change from one file to the next.
    - [JsonEnv], [JsonCodec] with their laws: the JSON of state files.  A truncated document does
      not parse; [GenerationsFixtures] gives an instance.
    - [GenEnv]: what clock, disk, writes, creations and removals answer at each step of the
      generation manager.  Theorems hold for every such environment.
    - [ContentPort] with [ContentLaws]: what the agent needs of the content index, a projection that
      changes the graph by acknowledgements only; [ContentAgent.workspace_content_laws] discharges it.
    - The JSON codecs of a frame and of a journal checkpoint are parameters of their theorems.
    - The transport of the broker client is an argument; [BrokerLink.direct] is the one that calls
      the service.  The MCP adapter and the desktop client reach the agent through an argument too;
      [McpSpec.agent_at] and [DesktopSpec.to_agent] are the agent itself.
    - [McpEnv]: the text of JSON values, the JSON of payloads, the tool manifest and the version.

    ** What the theorems show

    - The store ([GraphReach], [GraphSync]): every database the public operations can reach
      satisfies the schema and the invariants on top of it; one synchronisation cannot fail and
      makes a desired row describe the graph; after a batch every link it touched is synchronised,
      and no other link falls behind except through the two deferred refresh queues.
    - Deferred work ([GraphDrain], [GraphObserve]): bounded refresh and finalization calls complete;
      a finished observation scan leaves exactly the links and objects that the scan saw.
    - The outbox contract ([GraphConverge]): a consumer that replays the outbox over its index holds
      the desired catalog, before and after every operation of the store, pruning included.
      [CatalogSpec] shows that the writer implements that index, and [ProjectorRun] that the worker
      is such a consumer: no failure loses a change, and with enough budget a run converges, if the
      generation in use opens or no refresh is due (see [rebuild_during_refresh_stays_stale]).
    - Search ([CatalogSpec], [SearchSpec]): what each retrieval mode selects, and that the hits of a
      request are verified, distinct, ranked, bounded and complete within the candidate budget.
    - The agent ([AgentSpec], [SchedulerSpec]): requests need their grant, an opened agent shows only
      documents of the desired catalog it last published, a maintenance pass without backlog has
      published the current one; rounds and requests in any order keep the catalog on track.
    - Content ([ContentGuarantees]): deltas are all or nothing; every indexed text was read by an
      operation of the history from a file that was then below an opted-in root; an entry keeps its
      name and path while its source fingerprint or text hash stays; searches are exact.
    - Content generations ([DurableJson], [GenerationsSpec], [GenerationsBuild]): a state file reads
      as its old or its new value whatever happens to a write; readers are served validated
      generations only, and never lose the active one; garbage collection spares what is live; a
      build interrupted anywhere, removals included, ends with the text of the catalog.
    - Content projection ([ContentProjectSpec]): wherever a run stops and however files change, what
      the unread outbox does not mention has a text that was read for the version the catalog
      describes, or for one with the same source fingerprint; after a run without backlog this is so
      for the whole catalog.
    - The governor ([Governor]): it fails closed without telemetry, yields to interactive requests,
      relaxes only after hysteresis and cooldown, and does resume work.
    - Input from outside ([Ids], [Models], [Frames], [Usn]): parsers accept exactly what they should,
      round trips, and no input makes the journal decoder panic: it cuts a page into its records
      without gap or overlap.
    - Observation ([JournalStream], [CrawlSpec]): reading changes cuts the journal's event stream
      without loss or repetition for every budget, draining terminates, a link keeps its identity
      across renames; a snapshot emits exactly the readable tree, and its checkpoint covers what
      happens during the crawl.
    - The broker ([BrokerSpec], [BrokerLink]): bounded state in every interleaving, pages that are
      the provider's events in order, and a client over the broker that behaves as the provider does.
    - The controller ([ObservationSpec]): it changes the graph by store transactions only, applies a
      page together with its checkpoint, turns gaps into reconciliation, and serves every volume.
    - Selected folders ([FolderScanSpec], [FolderSyncSpec]): a complete scan leaves the links it saw
      and no document of its folder that it did not see, and every link it saw has its document if no
      folder was renamed ([steady]; [FolderFixtures.renamed_folder_loses_entries] shows what happens
      otherwise); nothing of other folders changes, a revoked folder leaves no document, whatever
      fails the consumers of the graph stay on track, and a folder-sync that succeeds follows the
      selection.
    - The MCP adapter ([McpSpec]): lines are read as they are however they are buffered, every request
      to the agent satisfies its contract, tools are listed as granted, and every request read is
      answered exactly once unless it is cancelled.
    - The desktop client ([DesktopSpec]): a superseded search never shows a result, the latest one
      does, and an action is taken only on an item as the graph has it then.
    - The local transport ([PipeSpec]): a client that gets a response gets the answer of the service to
      exactly its request, from a server that verified it, in every interleaving; without failures
      both ends finish within a number of turns given by the bytes.
    - Some theorems record behaviour that falls short of the design: histories that leave an
      out-of-date document with nothing pending ([GraphLimits],
      [ProjectorRun.rebuild_during_refresh_stays_stale]), substring queries with punctuation
      ([CatalogSpec.substring_punctuation_unmatched]), a checkpoint that outgrows the broker
      ([JournalLimits]), a restarted client ([BrokerLink.restarted_client_rejected]), an abandoned
      scan ([ObservationSpec.refused_page_abandons_scan]), an unreadable checkpoint behind the
      broker ([ObservationLink.unreadable_checkpoint_stuck]), a content backlog that cannot be read
      ([SchedulerSpec.content_backlog_failure_stops_maintenance]), a torn first record or a
      replayed page in the generation manager ([GenerationsLimits]), a replaced file, a renamed
      folder or a torn manifest in a selected folder ([FolderFixtures]), a status call without arguments
      ([McpSpec.status_needs_arguments]), and a refused search that stays in the slot
      ([DesktopSpec.refused_search_keeps_slot]).

    ** Bounds and fuel

    Integers that come from columns or the wire are [Z] (or [N]) with their width in the invariants;
    saturating, checked and wrapping arithmetic is written out.  Path resolution recurses on the
    depth limit it is given and has no other fuel.  [next_unused] has one step more than there are
    directories; [rebuild_pages] one step more than there are documents, each page moves the cursor;
    [run_loop] recurses on the batch limit of the code; [decode_records] has one step per byte and
    each record takes sixty.  Running out of fuel is an error of its own, and the theorems show that
    it does not occur.  [follow] needs one call more than [calls_left] and [client_scan] two more
    than there are events; both are shown to be enough.  [resume_loop] and [project_loop] recurse on
    the batch limits of the code, [find_generation_id] on its ten thousand suffixes, [catalog_iter]
    has one step more than there are documents, [reclaim_loop] one per page to reclaim; [watch]
    takes its number of rounds.  [read_lines] needs one step more than there are bytes.  The servers
    are runs over lists of events; [McpSpec.requests_answered_once],
    [DesktopSpec.latest_search_returns] and [PipeSpec.exchange_completes] give the number of turns.  The completion theorems of
    [GraphDrain] and [GraphObserve] give the number of calls.

    ** What is simplified

    A transaction of SQLite is one step that commits or leaves the database alone.  The failures of
    creating the directory of a catalog generation are one failure of [catalog_create].  A read of a
    scan page takes what the worker has queued in one step.  The queues of a pipe are unbounded, and a
    turn moves any number of bytes, as over a bounded buffer.

    ** What is not modelled

    Opening and configuring SQLite, migrations, WAL maintenance; the Windows API (the calls behind
    [journal_env], [scan_env], [os_answer] and the resource probe) and process control, which are
    calls of the operating system; poisoned locks; printed summaries, progress and
    the waiting between rounds of watch; failing standard streams of the MCP server; the window, the
    hotkey and the commands of the desktop shell that only forward to the client; benchmarks, test
    fixtures and the exploratory spikes, which the shipped program does not link. *)
From stdpp Require Import base list gmap sorting strings.

(** * Results *)

Inductive result (E A : Type) : Type :=
| Ok (a : A)
| Err (e : E).
Arguments Ok {E A} a.
Arguments Err {E A} e.

Global Instance result_eq_dec {E A} `{EqDecision E, EqDecision A} : EqDecision (result E A).
Proof. solve_decision. Defined.

Global Instance Ok_inj {E A} : Inj (=) (=) (@Ok E A).
Proof. by intros a b [= ->]. Qed.

Definition is_ok {E A} (r : result E A) : bool :=
  match r with Ok _ => true | Err _ => false end.

(** [Result::ok]. *)
Definition ok_value {E A} (r : result E A) : option A :=
  match r with Ok a => Some a | Err _ => None end.

Lemma ok_value_Some {E A} (r : result E A) a : ok_value r = Some a → r = Ok a.
Proof. destruct r; simpl; congruence. Qed.

Definition is_err {E A} (r : result E A) : bool := negb (is_ok r).

Global Instance result_ret {E} : MRet (result E) := λ A a, Ok a.
Global Instance result_bind {E} : MBind (result E) := λ A B f m,
  match m with Ok a => f a | Err e => Err e end.
Global Instance result_fmap {E} : FMap (result E) := λ A B f m,
  match m with Ok a => Ok (f a) | Err e => Err e end.

(** [Option::ok_or]. *)
Definition ok_or {E A} (o : option A) (e : E) : result E A :=
  match o with Some a => Ok a | None => Err e end.

(** [Result::map_err]. *)
Definition map_err {E F A} (f : E → F) (r : result E A) : result F A :=
  match r with Ok a => Ok a | Err e => Err (f e) end.

(** Guard: [if !cond { return Err(e) }]. *)
Definition ensure {E} (b : bool) (e : E) : result E unit :=
  if b then Ok tt else Err e.

(** * State and error

    A transactional computation: reads and rewrites a state and either commits a value with the
    new state or fails with no state at all, which is how a rolled-back transaction behaves. *)
Definition M (S E A : Type) : Type := S → result E (A * S).

Global Instance M_ret {S E} : MRet (M S E) := λ A a s, Ok (a, s).
Global Instance M_bind {S E} : MBind (M S E) := λ A B f m s,
  match m s with Ok (a, s') => f a s' | Err e => Err e end.

Definition fail {S E A} (e : E) : M S E A := λ _, Err e.
Definition get_state {S E} : M S E S := λ s, Ok (s, s).
Definition modify {S E} (f : S → S) : M S E unit := λ s, Ok (tt, f s).
(** A read that may fail. *)
Definition gets {S E A} (f : S → result E A) : M S E A := λ s,
  match f s with Ok a => Ok (a, s) | Err e => Err e end.
Definition lift {S E A} (r : result E A) : M S E A := λ s,
  match r with Ok a => Ok (a, s) | Err e => Err e end.
Definition guard_m {S E} (b : bool) (e : E) : M S E unit := lift (ensure b e).

(** [for x in xs { f(x)?; }]. *)
Fixpoint for_each {S E A} (xs : list A) (f : A → M S E unit) : M S E unit :=
  match xs with
  | [] => mret tt
  | x :: xs => f x ;; for_each xs f
  end.

(** [let mut n = 0; for x in xs { n += f(x)?; }]. *)
Fixpoint sum_each {S E A} (xs : list A) (f : A → M S E Z) : M S E Z :=
  match xs with
  | [] => mret 0%Z
  | x :: xs => n ← f x; m ← sum_each xs f; mret (n + m)%Z
  end.

(** Operations whose effects stay when they fail: a service that answers with an error has still
    seen the request. *)
Definition St (S E A : Type) : Type := S → result E A * S.
Global Instance St_ret {S E} : MRet (St S E) := λ A a s, (Ok a, s).
Global Instance St_bind {S E} : MBind (St S E) := λ A B f m s,
  match m s with (Ok a, s) => f a s | (Err e, s) => (Err e, s) end.
Global Instance St_fmap {S E} : FMap (St S E) := λ A B f m s, ((m s).1 ≫= λ a, Ok (f a), (m s).2).
Definition st_fail {S E A} (e : E) : St S E A := λ s, (Err e, s).
Definition st_lift {S E A} (r : result E A) : St S E A := λ s, (r, s).

(** The state after running an operation: a failed transaction leaves the state untouched. *)
Definition commit {S E A} (m : M S E A) (s : S) : S :=
  match m s with Ok (_, s') => s' | Err _ => s end.

(** * Machine integers *)

Definition u8_max : Z := 2 ^ 8 - 1.
Definition u16_max : Z := 2 ^ 16 - 1.
Definition u32_max : Z := 2 ^ 32 - 1.
Definition u64_max : Z := 2 ^ 64 - 1.
Definition i64_max : Z := 2 ^ 63 - 1.
Definition i64_min : Z := - 2 ^ 63.

Definition in_u64 (z : Z) : Prop := (0 ≤ z ≤ u64_max)%Z.
Definition in_i64 (z : Z) : Prop := (i64_min ≤ z ≤ i64_max)%Z.

(** [i64::checked_add] and [u64::checked_add]. *)
Definition i64_checked_add (a b : Z) : option Z :=
  if decide (in_i64 (a + b)) then Some (a + b)%Z else None.
Definition u64_checked_add (a b : Z) : option Z :=
  if decide (in_u64 (a + b)) then Some (a + b)%Z else None.
(** [u64::try_from(i64)] and [i64::try_from(u64)]. *)
Definition u64_try_from (z : Z) : option Z := if decide (in_u64 z) then Some z else None.
Definition i64_try_from (z : Z) : option Z := if decide (in_i64 z) then Some z else None.
(** Saturating arithmetic at a given unsigned width. *)
Definition saturating_add (max a b : Z) : Z := Z.min max (a + b).
Definition saturating_sub (a b : Z) : Z := Z.max 0 (a - b).
Definition saturating_mul (max a b : Z) : Z := Z.min max (a * b).

(** * Tables

    A table is a finite map from its primary key.  [rows] is an ordered scan: the rows a
    [WHERE] clause keeps, in the order an [ORDER BY] clause asks for; [limit] is [LIMIT n]. *)
Section tables.
Context {K : Type} `{Countable K} {V : Type}.

Definition rows (R : relation (K * V)) `{!RelDecision R} (p : K * V → bool) (m : gmap K V)
  : list (K * V) :=
  merge_sort R (filter (λ r, p r = true) (map_to_list m)).

Definition limit {A} (n : Z) (l : list A) : list A := take (Z.to_nat n) l.

(** [SELECT EXISTS(SELECT 1 FROM m WHERE p)]. *)
Definition exists_row (p : K * V → bool) (m : gmap K V) : bool :=
  existsb p (map_to_list m).

(** [SELECT count( * ) FROM m WHERE p]. *)
Definition count_rows (p : K * V → bool) (m : gmap K V) : Z :=
  Z.of_nat (length (filter (λ r, p r = true) (map_to_list m))).
End tables.

(** [ORDER BY] the primary key, when the key is an identifier or a sequence number. *)
Definition by_key_N {V} : relation (N * V) := λ x y, (x.1 ≤ y.1)%N.
Definition by_key_Z {V} : relation (Z * V) := λ x y, (x.1 ≤ y.1)%Z.
Global Instance by_key_N_dec {V} : RelDecision (@by_key_N V).
Proof. intros x y. unfold by_key_N. apply _. Defined.
Global Instance by_key_Z_dec {V} : RelDecision (@by_key_Z V).
Proof. intros x y. unfold by_key_Z. apply _. Defined.
Global Instance by_key_N_total {V} : Total (@by_key_N V).
Proof. intros x y. unfold by_key_N. lia. Qed.
Global Instance by_key_Z_total {V} : Total (@by_key_Z V).
Proof. intros x y. unfold by_key_Z. lia. Qed.
Global Instance by_key_N_trans {V} : Transitive (@by_key_N V).
Proof. intros x y z. unfold by_key_N. lia. Qed.
Global Instance by_key_Z_trans {V} : Transitive (@by_key_Z V).
Proof. intros x y z. unfold by_key_Z. lia. Qed.

(** [ORDER BY generation, key]. *)
Definition by_gen_key {K V} (gen : V → Z) (key : K → N) : relation (K * V) := λ x y,
  (gen x.2 < gen y.2)%Z ∨ (gen x.2 = gen y.2 ∧ (key x.1 ≤ key y.1)%N).
Global Instance by_gen_key_dec {K V} gen key : RelDecision (@by_gen_key K V gen key).
Proof. intros x y. unfold by_gen_key. apply _. Defined.
Global Instance by_gen_key_total {K V} gen key : Total (@by_gen_key K V gen key).
Proof. intros x y. unfold by_gen_key. lia. Qed.
Global Instance by_gen_key_trans {K V} gen key : Transitive (@by_gen_key K V gen key).
Proof. intros x y z. unfold by_gen_key. lia. Qed.

(** The ascending iteration order of a [BTreeSet] of identifiers. *)
Definition btree_elements (s : gset N) : list N := merge_sort N.le (elements s).

(** Largest key of a table, or 0 when it is empty. *)
Definition max_key {V} (m : gmap Z V) : Z := foldr (λ r acc, Z.max r.1 acc) 0%Z (map_to_list m).

(** * Program logic for [M]

    Partial-correctness triples: a failing run rolls back, so only committing runs matter. *)
Definition triple {S E A} (P : S → Prop) (m : M S E A) (Q : A → S → Prop) : Prop :=
  ∀ s a s', P s → m s = Ok (a, s') → Q a s'.

(** A computation that keeps an invariant whatever it returns. *)
Definition keeps {S E A} (I : S → Prop) (m : M S E A) : Prop := triple I m (λ _, I).

Create HintDb logic.

Section triples.
Context {S E : Type}.
Implicit Types P I : S → Prop.

Lemma triple_ret {A} P (a : A) (Q : A → S → Prop) :
  (∀ s, P s → Q a s) → triple (E:=E) P (mret a) Q.
Proof. intros HQ s a' s' HP Heq. injection Heq as <- <-. auto. Qed.

Lemma triple_bind {A B} P (m : M S E A) (f : A → M S E B) (R : A → S → Prop) Q :
  triple P m R → (∀ a, triple (R a) (f a) Q) → triple P (m ≫= f) Q.
Proof.
  intros Hm Hf s b s'' HP. unfold mbind, M_bind.
  destruct (m s) as [[a s']|e] eqn:Em; [|done].
  intros Hfa. eapply Hf; [|exact Hfa]. by eapply Hm.
Qed.

Lemma triple_conseq {A} P P' (m : M S E A) (Q Q' : A → S → Prop) :
  triple P' m Q' → (∀ s, P s → P' s) → (∀ a s, Q' a s → Q a s) → triple P m Q.
Proof. intros Hm HP HQ s a s' Hs Heq. eapply HQ, Hm; [by apply HP|exact Heq]. Qed.

Lemma triple_fail {A} P (e : E) (Q : A → S → Prop) : triple P (fail e) Q.
Proof. intros s a s' _ Heq. discriminate Heq. Qed.

Lemma triple_modify P (f : S → S) (Q : unit → S → Prop) :
  (∀ s, P s → Q tt (f s)) → triple (E:=E) P (modify f) Q.
Proof. intros HQ s [] s' HP Heq. injection Heq as <-. auto. Qed.

Lemma triple_gets {A} P (f : S → result E A) (Q : A → S → Prop) :
  (∀ s a, P s → f s = Ok a → Q a s) → triple P (gets f) Q.
Proof.
  intros HQ s a s' HP. unfold gets. destruct (f s) as [a0|] eqn:Ef; [|done].
  intros [= <- <-]. eauto.
Qed.

Lemma triple_lift {A} P (r : result E A) (Q : A → S → Prop) :
  (∀ s a, P s → r = Ok a → Q a s) → triple P (lift r) Q.
Proof.
  intros HQ s a s' HP. unfold lift. destruct r as [a0|] eqn:Ef; [|done].
  intros [= <- <-]. eauto.
Qed.

Lemma triple_guard P b (e : E) (Q : unit → S → Prop) :
  (∀ s, P s → b = true → Q tt s) → triple P (guard_m b e) Q.
Proof.
  intros HQ. apply triple_lift. intros s [] HP. destruct b; [|done]. auto.
Qed.

Lemma triple_if {A} P (b : bool) (m1 m2 : M S E A) Q :
  (b = true → triple P m1 Q) → (b = false → triple P m2 Q) →
  triple P (if b then m1 else m2) Q.
Proof. destruct b; auto. Qed.

Lemma triple_for_each {A} I (xs : list A) (f : A → M S E unit) :
  (∀ x, x ∈ xs → keeps I (f x)) → keeps I (for_each xs f).
Proof.
  induction xs as [|x xs IH]; intros Hf; simpl.
  - by apply triple_ret.
  - eapply triple_bind; [apply Hf; set_solver|].
    intros []. apply IH. set_solver.
Qed.

Lemma triple_sum_each {A} I (xs : list A) (f : A → M S E Z) :
  (∀ x, x ∈ xs → keeps I (f x)) → keeps I (sum_each xs f).
Proof.
  induction xs as [|x xs IH]; intros Hf; simpl.
  - by apply triple_ret.
  - eapply triple_bind; [apply Hf; set_solver|]. intros n.
    eapply triple_bind; [apply IH; set_solver|]. intros k. by apply triple_ret.
Qed.

(** Loop rules whose assertion names the elements still to be visited. *)
Lemma triple_for_each_rest {A} (I : list A → S → Prop) (xs : list A) (f : A → M S E unit) :
  (∀ x xs, triple (I (x :: xs)) (f x) (λ _, I xs)) → triple (I xs) (for_each xs f) (λ _, I []).
Proof.
  intros Hf. induction xs as [|x xs IH]; simpl; [by apply triple_ret|].
  eapply triple_bind; [apply Hf|]. intros []. exact IH.
Qed.

Lemma triple_sum_each_rest {A} (I : list A → S → Prop) (xs : list A) (f : A → M S E Z) :
  (∀ x xs, triple (I (x :: xs)) (f x) (λ _, I xs)) → triple (I xs) (sum_each xs f) (λ _, I []).
Proof.
  intros Hf. induction xs as [|x xs IH]; simpl; [by apply triple_ret|].
  eapply triple_bind; [apply Hf|]. intros n. eapply triple_bind; [apply IH|]. intros k.
  by apply triple_ret.
Qed.

(** Loops relate their end states by any preorder their body respects. *)
Lemma for_each_rel {A} (R : relation S) `{!PreOrder R} (xs : list A) (f : A → M S E unit) s u s' :
  (∀ x s u s', x ∈ xs → f x s = Ok (u, s') → R s s') → for_each xs f s = Ok (u, s') → R s s'.
Proof.
  intros Hf Hrun. refine (triple_for_each (R s) xs f _ s u s' _ Hrun); [|done].
  intros x Hx s1 [] s2 H1 H2. transitivity s1; [done|]. by eapply Hf.
Qed.

Lemma sum_each_rel {A} (R : relation S) `{!PreOrder R} (xs : list A) (f : A → M S E Z) s n s' :
  (∀ x s n s', x ∈ xs → f x s = Ok (n, s') → R s s') → sum_each xs f s = Ok (n, s') → R s s'.
Proof.
  intros Hf Hrun. refine (triple_sum_each (R s) xs f _ s n s' _ Hrun); [|done].
  intros x Hx s1 k s2 H1 H2. transitivity s1; [done|]. by eapply Hf.
Qed.

Lemma keeps_commit {A} I (m : M S E A) s : keeps I m → I s → I (commit m s).
Proof.
  intros Hm HI. unfold commit. destruct (m s) as [[a s']|e] eqn:Em; [|done].
  by eapply Hm.
Qed.

Lemma commit_err {A} (m : M S E A) s e : m s = Err e → commit m s = s.
Proof. unfold commit. by intros ->. Qed.
End triples.

#[export] Hint Resolve triple_fail : logic.

(** Inversion of a committing run, one constructor of the monad at a time. *)
Section runs.
Context {S E : Type}.
Implicit Types s : S.

Lemma M_bind_Ok {A B} (m : M S E A) (f : A → M S E B) s b s'' :
  (m ≫= f) s = Ok (b, s'') ↔ ∃ a s', m s = Ok (a, s') ∧ f a s' = Ok (b, s'').
Proof.
  unfold mbind, M_bind. destruct (m s) as [[a s']|e]; naive_solver.
Qed.
Lemma M_bind_Err {A B} (m : M S E A) (f : A → M S E B) s e :
  (m ≫= f) s = Err e ↔ m s = Err e ∨ ∃ a s', m s = Ok (a, s') ∧ f a s' = Err e.
Proof.
  unfold mbind, M_bind. destruct (m s) as [[a s']|e']; naive_solver.
Qed.
Lemma M_ret_Ok {A} (a b : A) s s' :
  (mret a : M S E A) s = Ok (b, s') ↔ b = a ∧ s' = s.
Proof. unfold mret, M_ret. naive_solver. Qed.
Lemma get_state_Ok s a s' : (get_state : M S E S) s = Ok (a, s') ↔ a = s ∧ s' = s.
Proof. unfold get_state. naive_solver. Qed.
Lemma modify_Ok (f : S → S) s u s' : (modify f : M S E unit) s = Ok (u, s') ↔ u = tt ∧ s' = f s.
Proof. unfold modify. naive_solver. Qed.
Lemma gets_Ok {A} (f : S → result E A) s a s' : gets f s = Ok (a, s') ↔ f s = Ok a ∧ s' = s.
Proof. unfold gets. destruct (f s); naive_solver. Qed.
Lemma lift_Ok {A} (r : result E A) s a s' : lift r s = Ok (a, s') ↔ r = Ok a ∧ s' = s.
Proof. unfold lift. destruct r; naive_solver. Qed.
Lemma guard_Ok b (e : E) s u s' : guard_m b e s = Ok (u, s') ↔ b = true ∧ u = tt ∧ s' = s.
Proof. unfold guard_m, lift. destruct b; simpl; naive_solver. Qed.
End runs.

Lemma result_bind_Ok {E A B} (r : result E A) (f : A → result E B) b :
  (r ≫= f) = Ok b ↔ ∃ a, r = Ok a ∧ f a = Ok b.
Proof. unfold mbind, result_bind. destruct r; naive_solver. Qed.

Lemma result_bind_Err {E A B} (r : result E A) (f : A → result E B) e :
  (r ≫= f) = Err e ↔ r = Err e ∨ ∃ a, r = Ok a ∧ f a = Err e.
Proof. unfold mbind, result_bind. destruct r; naive_solver. Qed.

Lemma map_err_Err {E F A} (f : E → F) (r : result E A) e :
  map_err f r = Err e ↔ ∃ e', r = Err e' ∧ e = f e'.
Proof. destruct r; simpl; naive_solver. Qed.

Lemma ensure_true {X} (b : bool) (e : X) u : ensure b e = Ok u ↔ b = true.
Proof. destruct b, u; simpl; naive_solver. Qed.

Lemma st_bind_inv {S X A C} (k : St S X A) (f : A → St S X C) s r s' :
  (k ≫= f) s = (r, s') →
  (∃ e, k s = (Err e, s') ∧ r = Err e) ∨ ∃ a s1, k s = (Ok a, s1) ∧ f a s1 = (r, s').
Proof.
  unfold mbind, St_bind. destruct (k s) as [[a|e] s1]; [right; eauto|]. intros [= <- <-]. left. eauto.
Qed.

Lemma st_bind_Ok {S X A C} (k : St S X A) (f : A → St S X C) s c s' :
  (k ≫= f) s = (Ok c, s') ↔ ∃ a s1, k s = (Ok a, s1) ∧ f a s1 = (Ok c, s').
Proof. unfold mbind, St_bind. destruct (k s) as [[a|e] s1]; naive_solver. Qed.
Lemma st_lift_Ok {S X A} (r : result X A) (s : S) a s' : st_lift r s = (Ok a, s') ↔ r = Ok a ∧ s' = s.
Proof. unfold st_lift. naive_solver. Qed.
Lemma st_ret_Ok {S X A} (a b : A) (s s' : S) : (mret a : St S X A) s = (Ok b, s') ↔ b = a ∧ s' = s.
Proof. unfold mret, St_ret. naive_solver. Qed.

Lemma map_err_Ok {X Y A} (f : X → Y) (r : result X A) a : map_err f r = Ok a ↔ r = Ok a.
Proof. destruct r; simpl; split; congruence. Qed.
Lemma ok_or_Ok {X A} (o : option A) (e : X) a : ok_or o e = Ok a ↔ o = Some a.
Proof. destruct o; simpl; naive_solver. Qed.

(** [minv] inverts every hypothesis that says a monadic program committed. *)
Ltac minv1 :=
  match goal with
  | H : (mbind _ _) _ = Ok (_, _) |- _ =>
      apply M_bind_Ok in H;
      let a := fresh "x" in let s := fresh "s" in let Hm := fresh "Hrun" in
      destruct H as (a & s & Hm & H)
  | H : (mret _) _ = Ok (_, _) |- _ =>
      apply M_ret_Ok in H; let H1 := fresh in let H2 := fresh in destruct H as [H1 H2]; subst
  | H : get_state _ = Ok (_, _) |- _ =>
      apply get_state_Ok in H; let H1 := fresh in let H2 := fresh in destruct H as [H1 H2]; subst
  | H : modify _ _ = Ok (_, _) |- _ =>
      apply modify_Ok in H; let H1 := fresh in let H2 := fresh in destruct H as [H1 H2]; subst
  | H : gets _ _ = Ok (_, _) |- _ =>
      apply gets_Ok in H; let H2 := fresh in destruct H as [H H2]; subst
  | H : lift _ _ = Ok (_, _) |- _ =>
      apply lift_Ok in H; let H2 := fresh in destruct H as [H H2]; subst
  | H : guard_m _ _ _ = Ok (_, _) |- _ =>
      apply guard_Ok in H; let H1 := fresh in let H2 := fresh in destruct H as [H [H1 H2]]; subst
  | H : fail _ _ = Ok _ |- _ => discriminate H
  | H : Err _ = Ok _ |- _ => discriminate H
  | H : ok_or _ _ = Ok _ |- _ => apply ok_or_Ok in H
  | H : bool_decide _ = true |- _ => apply bool_decide_eq_true in H
  | H : (mbind _ _) = Ok _ |- _ =>
      apply result_bind_Ok in H;
      let a := fresh "x" in let Hm := fresh "Hres" in destruct H as (a & Hm & H)
  end.
Ltac minv := repeat minv1.

(** * Facts about ordered scans *)
Section rows_facts.
Context {K : Type} `{Countable K} {V : Type}.
Implicit Types (m : gmap K V) (p : K * V → bool).

Lemma elem_of_rows R `{!RelDecision R} p m k v :
  (k, v) ∈ rows R p m ↔ m !! k = Some v ∧ p (k, v) = true.
Proof.
  unfold rows. rewrite merge_sort_Permutation, list_elem_of_filter, elem_of_map_to_list. tauto.
Qed.

Lemma rows_NoDup_keys R `{!RelDecision R} p m : NoDup (rows R p m).*1.
Proof.
  unfold rows. rewrite merge_sort_Permutation.
  assert (NoDup (map_to_list m).*1) as Hnd by apply NoDup_fst_map_to_list.
  revert Hnd. generalize (map_to_list m). intros l.
  induction l as [|[k v] l IH]; csimpl; [done|]. rewrite NoDup_cons. intros [Hk Hl].
  rewrite filter_cons. case_decide; csimpl; [|auto]. apply NoDup_cons. split; [|auto].
  intros Hin. apply Hk. apply list_elem_of_fmap in Hin as ([k' v'] & -> & Hin).
  apply list_elem_of_filter in Hin as [_ Hin]. apply list_elem_of_fmap. by exists (k', v').
Qed.

Lemma rows_sorted R `{!RelDecision R} `{!Total R} `{!Transitive R} p m :
  StronglySorted R (rows R p m).
Proof. apply StronglySorted_merge_sort; apply _. Qed.

Lemma rows_nil R `{!RelDecision R} p m :
  rows R p m = [] ↔ ∀ k v, m !! k = Some v → p (k, v) = false.
Proof.
  split.
  - intros Hnil k v Hk. destruct (p (k, v)) eqn:Hp; [|done].
    assert ((k, v) ∈ rows R p m) as Hin by (by apply elem_of_rows).
    rewrite Hnil in Hin. by apply elem_of_nil in Hin.
  - intros Hall. destruct (rows R p m) as [|[k v] l] eqn:Hr; [done|].
    assert ((k, v) ∈ rows R p m) as Hin by (rewrite Hr; left).
    apply elem_of_rows in Hin as [Hk Hp]. rewrite Hall in Hp; done.
Qed.

(** The first row of a scan ordered by key. *)
Lemma rows_head R `{!RelDecision R} `{!Total R} `{!Transitive R} p m k v :
  (∀ x y, R x y → R y x → x.1 = y.1) →
  m !! k = Some v → p (k, v) = true →
  (∀ k' v', m !! k' = Some v' → p (k', v') = true → R (k, v) (k', v')) →
  ∃ rest, rows R p m = (k, v) :: rest.
Proof.
  intros Hanti Hk Hp Hmin. assert ((k, v) ∈ rows R p m) as Hin by (by apply elem_of_rows).
  pose proof (rows_sorted R p m) as Hs. destruct (rows R p m) as [|[k' v'] rest] eqn:Hr;
    [by apply elem_of_nil in Hin|].
  assert (m !! k' = Some v' ∧ p (k', v') = true) as [Hk' Hp'].
  { apply (elem_of_rows R). rewrite Hr. left. }
  exists rest. f_equal. assert (k' = k) as ->; [|congruence].
  apply elem_of_cons in Hin as [Heq|Hin]; [by injection Heq|].
  apply (Hanti (k', v') (k, v)); [|by apply Hmin].
  apply StronglySorted_inv in Hs as [_ Hs]. by eapply Forall_forall in Hs.
Qed.

Lemma rows_first R `{!RelDecision R} `{!Total R} `{!Transitive R} p m k v rest :
  rows R p m = (k, v) :: rest →
  m !! k = Some v ∧ p (k, v) = true ∧
  ∀ k' v', m !! k' = Some v' → p (k', v') = true → R (k, v) (k', v').
Proof.
  intros Hr. pose proof (rows_sorted R p m) as Hs. rewrite Hr in Hs.
  assert (m !! k = Some v ∧ p (k, v) = true) as [Hk Hp].
  { apply (elem_of_rows R). rewrite Hr. left. }
  split; [done|]. split; [done|]. intros k' v' Hk' Hp'.
  assert ((k', v') ∈ rows R p m) as Hin by (by apply elem_of_rows). rewrite Hr in Hin.
  apply elem_of_cons in Hin as [->|Hin]; [by destruct (total R (k, v) (k, v))|].
  apply StronglySorted_inv in Hs as [_ Hs]. by eapply Forall_forall in Hs.
Qed.

(** A scan is determined by its rows when the order is by key. *)
Lemma rows_unique R `{!RelDecision R} `{!Total R} `{!Transitive R} p m l :
  (∀ x y, R x y → R y x → x.1 = y.1) → StronglySorted R l → NoDup l →
  (∀ k v, (k, v) ∈ l ↔ m !! k = Some v ∧ p (k, v) = true) → rows R p m = l.
Proof.
  intros Hanti Hs Hnd Hin. apply (StronglySorted_unique_strong R).
  - intros [k1 v1] [k2 v2] [H1 _]%elem_of_rows [H2 _]%Hin H12 H21.
    assert (k1 = k2) as -> by apply (Hanti _ _ H12 H21). congruence.
  - by apply rows_sorted.
  - done.
  - apply NoDup_Permutation; [|done|].
    + eapply NoDup_fmap_1, (rows_NoDup_keys R).
    + intros [k v]. by rewrite (elem_of_rows R), Hin.
Qed.

(** What follows a page of a scan is the scan that starts after the last row of the page. *)
Lemma rows_rest R `{!RelDecision R} `{!Total R} `{!Transitive R} p p' m l1 l2 x :
  (∀ x y, R x y → R y x → x.1 = y.1) → rows R p m = l1 ++ l2 → last l1 = Some x →
  (∀ k v, m !! k = Some v → p' (k, v) = true ↔ p (k, v) = true ∧ ¬ R (k, v) x) →
  rows R p' m = l2.
Proof.
  intros Hanti Hrows Hlast Hp'.
  pose proof (rows_sorted R p m) as Hs. pose proof (NoDup_fmap_1 _ _ (rows_NoDup_keys R p m)) as Hnd.
  assert (∀ k v, (k, v) ∈ l1 ++ l2 ↔ m !! k = Some v ∧ p (k, v) = true) as Hin.
  { intros k v. rewrite <-Hrows. apply elem_of_rows. }
  rewrite Hrows in Hs, Hnd. apply last_Some in Hlast as [pre ->].
  apply StronglySorted_app in Hs as (Hord & Hs1 & Hs2).
  apply StronglySorted_app in Hs1 as (Hord1 & _ & _). apply NoDup_app in Hnd as (_ & Hdis & Hnd).
  assert (x ∈ pre ++ [x]) as Hx by (apply elem_of_app; right; left).
  apply rows_unique; [apply _|apply _|done|done|done|]. intros k v. split.
  - intros Hkv. assert ((k, v) ∈ (pre ++ [x]) ++ l2) as [Hk Hp]%Hin by (apply elem_of_app; by right).
    split; [done|]. apply Hp'; [done|]. split; [done|]. intros Hr.
    pose proof (Hanti _ _ Hr (Hord _ _ Hx Hkv)) as Hkey. destruct x as [kx vx]. simpl in Hkey. subst.
    assert (m !! kx = Some vx) by (eapply Hin, elem_of_app; left; exact Hx). simplify_eq.
    by destruct (Hdis _ Hx).
  - intros [Hk Hp]. apply Hp' in Hp as [Hp Hr]; [|done].
    assert ((k, v) ∈ (pre ++ [x]) ++ l2) as Hkv by (by apply Hin).
    apply elem_of_app in Hkv as [[Hkv|Heq%list_elem_of_singleton]%elem_of_app|]; [| |done].
    + destruct Hr. apply Hord1; [done|left].
    + subst x. destruct Hr. by destruct (total R (k, v) (k, v)).
Qed.

Lemma exists_row_true p m :
  exists_row p m = true ↔ ∃ k v, m !! k = Some v ∧ p (k, v) = true.
Proof.
  unfold exists_row. rewrite existsb_exists. split.
  - intros ([k v] & Hin & Hp). apply list_elem_of_In, elem_of_map_to_list in Hin. eauto.
  - intros (k & v & Hin & Hp). exists (k, v). split; [|done].
    by apply list_elem_of_In, elem_of_map_to_list.
Qed.

Lemma exists_row_false p m :
  exists_row p m = false ↔ ∀ k v, m !! k = Some v → p (k, v) = false.
Proof.
  rewrite <-not_true_iff_false, exists_row_true. split.
  - intros Hn k v Hk. apply not_true_iff_false. naive_solver.
  - intros Hall (k & v & Hk & Hp). by rewrite Hall in Hp.
Qed.

Lemma count_rows_zero p m :
  count_rows p m = 0%Z ↔ ∀ k v, m !! k = Some v → p (k, v) = false.
Proof.
  unfold count_rows. split.
  - intros Hz k v Hk. destruct (p (k, v)) eqn:Hp; [|done].
    assert ((k, v) ∈ filter (λ r, p r = true) (map_to_list m)) as Hin.
    { apply list_elem_of_filter. split; [done|]. by apply elem_of_map_to_list. }
    destruct (filter _ _); [by apply elem_of_nil in Hin|]. simpl in Hz. lia.
  - intros Hall. destruct (filter _ _) as [|[k v] l] eqn:Hf; [done|].
    assert ((k, v) ∈ filter (λ r, p r = true) (map_to_list m)) as Hin by (rewrite Hf; left).
    apply list_elem_of_filter in Hin as [Hp Hin]. apply elem_of_map_to_list in Hin.
    rewrite Hall in Hp; done.
Qed.
End rows_facts.

Lemma elem_of_limit {A} (n : Z) (l : list A) x : x ∈ limit n l → x ∈ l.
Proof. unfold limit. intros Hx. by eapply elem_of_take in Hx as (i & Hi%list_elem_of_lookup_2 & _). Qed.

Lemma limit_length {A} (n : Z) (l : list A) :
  (0 ≤ n)%Z → (Z.of_nat (length (limit n l)) ≤ n)%Z.
Proof. intros Hn. unfold limit. rewrite length_take. lia. Qed.

(** A page shorter than its limit holds the whole scan. *)
Lemma limit_short {A} (n : Z) (l : list A) :
  (Z.of_nat (length (limit n l)) < n)%Z → limit n l = l.
Proof. unfold limit. rewrite length_take. intros Hlt. apply take_ge. lia. Qed.

Lemma elem_of_btree_elements (s : gset N) x : x ∈ btree_elements s ↔ x ∈ s.
Proof. unfold btree_elements. by rewrite merge_sort_Permutation, elem_of_elements. Qed.

Lemma btree_elements_NoDup (s : gset N) : NoDup (btree_elements s).
Proof. unfold btree_elements. rewrite merge_sort_Permutation. apply NoDup_elements. Qed.

Lemma max_key_ge {V} (m : gmap Z V) k v : m !! k = Some v → (k ≤ max_key m)%Z.
Proof.
  intros Hk. apply elem_of_map_to_list in Hk. unfold max_key. revert Hk.
  induction (map_to_list m) as [|[k' v'] l IH]; intros Hin; [by apply elem_of_nil in Hin|].
  simpl. apply elem_of_cons in Hin as [[= <- <-]|Hin]; [lia|]. apply IH in Hin. lia.
Qed.

Lemma max_key_fresh {V} (m : gmap Z V) : m !! (max_key m + 1)%Z = None.
Proof. destruct (m !! _) eqn:Hk; [|done]. apply max_key_ge in Hk. lia. Qed.

Lemma max_key_le {V} (m : gmap Z V) b :
  (0 ≤ b)%Z → (∀ k v, m !! k = Some v → (k ≤ b)%Z) → (max_key m ≤ b)%Z.
Proof.
  intros Hb Hall. assert (∀ k v, (k, v) ∈ map_to_list m → (k ≤ b)%Z) as Hl.
  { intros k v Hin%elem_of_map_to_list. eauto. }
  unfold max_key. clear Hall. induction (map_to_list m) as [|[k v] l IH]; simpl; [done|].
  pose proof (Hl k v (list_elem_of_here _ _)). assert (∀ k v, (k, v) ∈ l → (k ≤ b)%Z) as Hl'.
  { intros k' v' Hin. eapply Hl. by right. }
  specialize (IH Hl'). lia.
Qed.

(** Pages of an ascending scan of identifiers. *)
Lemma page_upto (n : Z) (l : list N) c x :
  StronglySorted N.le l → NoDup l → last (limit n l) = Some c →
  x ∈ l → (x ∈ limit n l ↔ (x ≤ c)%N).
Proof.
  unfold limit. intros Hs Hnd Hlast Hx. rewrite <-(take_drop (Z.to_nat n) l) in Hs, Hnd, Hx.
  apply last_Some in Hlast as [pre Hpre]. rewrite Hpre in *.
  apply NoDup_app in Hnd as (_ & Hdis & _).
  assert (∀ y, y ∈ pre ++ [c] → (y ≤ c)%N) as Hle.
  { intros y [Hy| ->%list_elem_of_singleton]%elem_of_app; [|done].
    rewrite <-app_assoc in Hs. apply StronglySorted_app in Hs as (Hs & _ & _).
    apply Hs; [done|]. left. }
  split; [apply Hle|]. intros Hxc. apply elem_of_app in Hx as [Hx|Hx]; [done|].
  apply StronglySorted_app in Hs as (Hs & _ & _).
  assert (c ≤ x)%N by (apply Hs; [apply elem_of_app; right; left|done]).
  assert (x = c) as -> by lia. apply elem_of_app. right. left.
Qed.

Lemma limit_last {A} (n : Z) (l : list A) :
  (0 < n)%Z → ¬ (Z.of_nat (length (limit n l)) < n)%Z → ∃ c, last (limit n l) = Some c ∧ c ∈ limit n l.
Proof.
  intros Hn Hlen. destruct (last (limit n l)) as [c|] eqn:Hl; [exists c; split; [done|]|].
  - apply last_Some in Hl as [pre ->]. apply elem_of_app. right. left.
  - apply last_None in Hl. rewrite Hl in Hlen. simpl in Hlen. lia.
Qed.

Lemma NoDup_length_lt {A} (l k : list A) x :
  NoDup k → (∀ y, y ∈ k → y ∈ l) → x ∈ l → x ∉ k → length k < length l.
Proof.
  intros Hk Hsub Hx Hn. assert (x :: k ⊆+ l) as Hs.
  { apply NoDup_submseteq; [by apply NoDup_cons|]. intros y [->|Hy]%elem_of_cons; auto. }
  apply submseteq_length in Hs. simpl in Hs. lia.
Qed.

(** A page of an ordered scan is closed under going back. *)
Lemma limit_prefix {A} (R : relation A) (n : Z) (l : list A) x y :
  StronglySorted R l → x ∈ l → y ∈ limit n l → x ∈ limit n l ∨ R y x.
Proof.
  unfold limit. intros Hs Hx Hy. rewrite <-(take_drop (Z.to_nat n) l) in Hs, Hx.
  apply StronglySorted_app in Hs as (Hs & _ & _). apply elem_of_app in Hx as [Hx|Hx]; [by left|right].
  by apply Hs.
Qed.

(** A strictly ascending list without gaps counts up from its head. *)
Lemma gapless_lookup (l : list Z) x i y :
  StronglySorted Z.le l → NoDup l →
  (∀ a b c, a ∈ l → b ∈ l → (a ≤ c ≤ b)%Z → c ∈ l) →
  head l = Some x → l !! i = Some y → y = (x + Z.of_nat i)%Z.
Proof.
  revert x i. induction l as [|z l IH]; intros x i Hs Hnd Hgap Hx Hy; [done|].
  simpl in Hx. simplify_eq. destruct i as [|i]; simpl in Hy; [simplify_eq; lia|].
  apply StronglySorted_inv in Hs as [Hs Hle]. apply NoDup_cons in Hnd as [Hn Hnd].
  rewrite Forall_forall in Hle. destruct l as [|w l]; [done|].
  assert (x ≤ w)%Z as Hxw by (apply Hle; left). assert (x ≠ w) as Hne by (intros ->; apply Hn; left).
  assert (w = x + 1)%Z as Hw.
  { assert (x + 1 ∈ x :: w :: l)%Z as Hin by (apply (Hgap x w); [left|right; left|lia]).
    apply elem_of_cons in Hin as [?|Hin]; [lia|]. apply elem_of_cons in Hin as [?|Hin]; [lia|].
    apply StronglySorted_inv in Hs as [_ Hw]. rewrite Forall_forall in Hw. apply Hw in Hin. lia. }
  rewrite (IH w i); try done; [lia|]. intros a b c Ha Hb Hc.
  assert (c ∈ x :: w :: l) as Hin by (eapply (Hgap a b); [by right|by right|done]).
  apply elem_of_cons in Hin as [->|Hin]; [|done].
  assert (a ≠ x) by (intros ->; done). apply Hle in Ha. lia.
Qed.

(** A filter that keeps everything. *)
Lemma filter_all {A} (P : A → Prop) `{!∀ x, Decision (P x)} (l : list A) :
  Forall P l → filter P l = l.
Proof. induction 1 as [|x l Hx _ IH]; [done|]. by rewrite filter_cons_True, IH. Qed.

(** A filter that keeps nothing. *)
Lemma filter_none {A} (P : A → Prop) `{!∀ x, Decision (P x)} (l : list A) :
  Forall (λ x, ¬ P x) l → filter P l = [].
Proof. induction 1 as [|x l Hx _ IH]; [done|]. by rewrite filter_cons_False. Qed.
