(* ===== verification/Ids.v ===== *)
(** Canonical 128-bit identifiers ([crates/core/src/ids.rs]).

    The five identifier types share one representation, sixteen bytes in network order, and one
    textual form, a type prefix followed by 32 hexadecimal digits.  An identifier is modelled by
    the integer its bytes denote ([as_u128]); [lex_be_bytes] shows that the byte order SQLite
    and [BTreeSet] use is the numeric order, which is what the table scans of the graph rely on. *)
From Stdlib Require Import Ascii String.
From stdpp Require Import base list strings numbers.
From S2P Require Import Prelude.
Local Open Scope N_scope.

Definition HEX_LENGTH : nat := 32.

(** The rows of [define_id128!]: kind and prefix of an identifier type. *)
Record id_type := IdType { id_kind : string; id_prefix : string }.

Definition MachineId : id_type := IdType "machine ID" "machine:".
Definition VolumeId : id_type := IdType "volume ID" "volume:".
Definition FileId128 : id_type := IdType "file ID" "file:".
Definition FileLinkId : id_type := IdType "file-link ID" "link:".
Definition DocumentId : id_type := IdType "document ID" "document:".
Definition id_types : list id_type := [MachineId; VolumeId; FileId128; FileLinkId; DocumentId].

Inductive IdParseError :=
| InvalidPrefix (kind expected : string)
| InvalidLength (kind : string) (expected actual : nat)
| InvalidHex (kind : string) (offset : nat) (byte : N).

Definition in_u128 (id : N) : Prop := id < 2 ^ 128.
Global Instance in_u128_dec id : Decision (in_u128 id).
Proof. unfold in_u128. apply _. Defined.

(** [u128::to_be_bytes], at any number of bytes, and [u128::from_be_bytes]. *)
Fixpoint to_be_bytes (n : nat) (v : N) : list N :=
  match n with
  | O => []
  | S n => (v / 256 ^ N.of_nat n) mod 256 :: to_be_bytes n v
  end.

Definition from_be_bytes (bytes : list N) : N := foldl (λ acc b, acc * 256 + b) 0 bytes.

Definition as_bytes (id : N) : list N := to_be_bytes 16 id.

(** [{byte:02x}]: two lower-case hexadecimal digits, as byte codes. *)
Definition hex_digit (n : N) : N := if n <? 10 then 48 + n else 97 + (n - 10).
Definition hex_byte (b : N) : list N := [hex_digit (b / 16); hex_digit (b mod 16)].

(** Bytes of a Rust string, and the string of a byte sequence. *)
Definition str_bytes (s : string) : list N := N_of_ascii <$> list_ascii_of_string s.
Definition bytes_str (l : list N) : string := string_of_list_ascii (ascii_of_N <$> l).

(** [impl fmt::Display]. *)
Definition display (t : id_type) (id : N) : list N :=
  str_bytes (id_prefix t) ++ (as_bytes id ≫= hex_byte).

Definition hex_nibble (byte : N) : option N :=
  if (48 <=? byte) && (byte <=? 57) then Some (byte - 48)
  else if (97 <=? byte) && (byte <=? 102) then Some (byte - 97 + 10)
  else if (65 <=? byte) && (byte <=? 70) then Some (byte - 65 + 10)
  else None.

(** [str::strip_prefix], on bytes. *)
Fixpoint strip_prefix (prefix input : list N) : option (list N) :=
  match prefix, input with
  | [], _ => Some input
  | p :: ps, b :: bs => if p =? b then strip_prefix ps bs else None
  | _ :: _, [] => None
  end.

(** The decoding loop of [parse_id], two payload bytes per output byte. *)
Fixpoint decode_pairs (kind : string) (offset : nat) (encoded : list N)
  : result IdParseError (list N) :=
  match encoded with
  | h :: l :: rest =>
      high ← ok_or (hex_nibble h) (InvalidHex kind offset h);
      low ← ok_or (hex_nibble l) (InvalidHex kind (S offset) l);
      tail ← decode_pairs kind (S (S offset)) rest;
      mret (N.lor (N.shiftl high 4) low :: tail)
  | _ => Ok []
  end.

Definition parse_id (t : id_type) (input : list N) : result IdParseError (list N) :=
  payload ← ok_or (strip_prefix (str_bytes (id_prefix t)) input)
                  (InvalidPrefix (id_kind t) (id_prefix t));
  if decide (length payload = HEX_LENGTH) then decode_pairs (id_kind t) 0 payload
  else Err (InvalidLength (id_kind t) HEX_LENGTH (length payload)).

(** [impl FromStr], with the identifier as its integer. *)
Definition from_str (t : id_type) (input : list N) : result IdParseError N :=
  from_be_bytes <$> parse_id t input.

(** ASCII lower case of one hexadecimal digit byte. *)
Definition lower_hex (b : N) : N := if (65 <=? b) && (b <=? 70) then b + 32 else b.

(** Lexicographic comparison of byte strings ([memcmp] on equal lengths). *)
Fixpoint lex_compare (a b : list N) : comparison :=
  match a, b with
  | x :: a, y :: b => match x ?= y with Eq => lex_compare a b | c => c end
  | [], [] => Eq
  | [], _ => Lt
  | _, [] => Gt
  end.

(** * Bytes *)

Lemma to_be_bytes_length n v : length (to_be_bytes n v) = n.
Proof. induction n; simpl; auto. Qed.

Lemma to_be_bytes_bound n v : Forall (λ b, b < 256) (to_be_bytes n v).
Proof. induction n; simpl; constructor; [apply N.mod_lt; lia|done]. Qed.

Lemma foldl_be acc l :
  foldl (λ acc b, acc * 256 + b) acc l = acc * 256 ^ N.of_nat (length l) + from_be_bytes l.
Proof.
  unfold from_be_bytes. revert acc. induction l as [|b l IH]; intros acc; cbn [foldl length].
  - rewrite N.mul_1_r. lia.
  - rewrite IH, (IH (0 * 256 + b)), Nat2N.inj_succ, N.pow_succ_r'. lia.
Qed.

Lemma from_be_bytes_cons b l :
  from_be_bytes (b :: l) = b * 256 ^ N.of_nat (length l) + from_be_bytes l.
Proof. unfold from_be_bytes at 1. cbn [foldl]. rewrite foldl_be. lia. Qed.

Lemma pow256_pos n : 0 < 256 ^ n.
Proof. apply N.neq_0_lt_0, N.pow_nonzero. lia. Qed.

Lemma from_to_be_bytes n v : from_be_bytes (to_be_bytes n v) = v mod 256 ^ N.of_nat n.
Proof.
  induction n as [|n IH]; [cbn; by rewrite N.mod_1_r|].
  cbn [to_be_bytes]. rewrite from_be_bytes_cons, to_be_bytes_length, IH, Nat2N.inj_succ,
    N.pow_succ_r'. pose proof (pow256_pos (N.of_nat n)) as Hp.
  rewrite (N.mul_comm 256), N.Div0.mod_mul_r. lia.
Qed.

Lemma from_be_bytes_bound l :
  Forall (λ b, b < 256) l → from_be_bytes l < 256 ^ N.of_nat (length l).
Proof.
  induction 1 as [|b l Hb Hl IH]; [cbn; lia|]. rewrite from_be_bytes_cons. cbn [length].
  rewrite Nat2N.inj_succ, N.pow_succ_r'. pose proof (pow256_pos (N.of_nat (length l))). nia.
Qed.

Lemma to_be_bytes_shift n m v :
  to_be_bytes n (m * 256 ^ N.of_nat n + v) = to_be_bytes n v.
Proof.
  assert (∀ k, (k ≤ n)%nat → to_be_bytes k (m * 256 ^ N.of_nat n + v) = to_be_bytes k v) as Hk;
    [|by apply Hk].
  induction k as [|k IH]; intros Hle; [done|]. cbn [to_be_bytes]. f_equal; [|apply IH; lia].
  pose proof (pow256_pos (N.of_nat k)).
  replace (256 ^ N.of_nat n) with (256 ^ N.of_nat (n - S k) * 256 * 256 ^ N.of_nat k).
  2:{ replace (N.of_nat n) with (N.of_nat (n - S k) + 1 + N.of_nat k) by lia.
      rewrite !N.pow_add_r. lia. }
  rewrite !N.mul_assoc, N.div_add_l by lia.
  rewrite N.add_comm, N.Div0.mod_add. done.
Qed.

Lemma to_from_be_bytes l :
  Forall (λ b, b < 256) l → to_be_bytes (length l) (from_be_bytes l) = l.
Proof.
  induction 1 as [|b l Hb Hl IH]; [done|]. cbn [length to_be_bytes].
  rewrite from_be_bytes_cons, to_be_bytes_shift, IH. f_equal.
  pose proof (from_be_bytes_bound _ Hl) as Hlt.
  rewrite N.div_add_l, (N.div_small _ _ Hlt), N.add_0_r by (pose proof (pow256_pos (N.of_nat (length l))); lia).
  by apply N.mod_small.
Qed.

Lemma as_u128_from_u128 id : in_u128 id → from_be_bytes (as_bytes id) = id.
Proof.
  intros Hid. unfold as_bytes. rewrite from_to_be_bytes. apply N.mod_small.
  change (256 ^ N.of_nat 16) with (2 ^ 128). done.
Qed.

(** * Hexadecimal digits *)

Lemma hex_nibble_digit n : n < 16 → hex_nibble (hex_digit n) = Some n.
Proof.
  intros Hn. unfold hex_digit, hex_nibble.
  destruct (N.ltb_spec n 10).
  - rewrite (proj2 (N.leb_le _ _)), (proj2 (N.leb_le _ _)) by lia. simpl. f_equal. lia.
  - replace (97 + (n - 10) <=? 57) with false by (symmetry; apply N.leb_gt; lia).
    rewrite andb_false_r.
    rewrite (proj2 (N.leb_le _ _)), (proj2 (N.leb_le _ _)) by lia. simpl. f_equal. lia.
Qed.

Lemma hex_nibble_Some b n : hex_nibble b = Some n → n < 16 ∧ hex_digit n = lower_hex b.
Proof.
  unfold hex_nibble, hex_digit, lower_hex.
  destruct ((48 <=? b) && (b <=? 57)) eqn:H1;
    [|destruct ((97 <=? b) && (b <=? 102)) eqn:H2;
      [|destruct ((65 <=? b) && (b <=? 70)) eqn:H3; [|done]]].
  all: intros [= <-].
  all: repeat match goal with H : _ && _ = true |- _ => apply andb_true_iff in H as [H%N.leb_le ?%N.leb_le] end.
  all: repeat match goal with |- context [?x <? ?y] => destruct (N.ltb_spec x y); try lia end.
  - destruct (N.leb_spec 65 b); [lia|]. simpl. lia.
  - destruct (N.leb_spec 65 b), (N.leb_spec b 70); simpl; lia.
Qed.

Lemma nibbles_lor h l : h < 16 → l < 16 → N.lor (N.shiftl h 4) l = h * 16 + l.
Proof.
  intros Hh Hl.
  assert (N.lor (N.shiftl h 4) l = N.shiftl h 4 + l) as ->;
    [|rewrite N.shiftl_mul_pow2; done].
  rewrite <-N.lxor_lor, <-N.add_nocarry_lxor; [done| |].
  all: apply N.bits_inj; intros i; rewrite N.land_spec, N.bits_0.
  all: destruct (N.lt_ge_cases i 4) as [Hi|Hi]; [rewrite N.shiftl_spec_low by done; done|].
  all: replace (N.testbit l i) with false; [apply andb_false_r|].
  all: symmetry; destruct (N.eq_dec l 0) as [->|]; [apply N.bits_0|].
  all: apply N.bits_above_log2; apply N.log2_lt_pow2; [lia|].
  all: apply N.lt_le_trans with (2 ^ 4); [lia|]; apply N.pow_le_mono_r; lia.
Qed.

Lemma decode_pairs_hex kind off bytes :
  Forall (λ b, b < 256) bytes → decode_pairs kind off (bytes ≫= hex_byte) = Ok bytes.
Proof.
  intros Hb. revert off. induction Hb as [|b bytes Hb Hbs IH]; intros off; [done|].
  csimpl. unfold hex_byte at 1. csimpl.
  assert (b / 16 < 16) by (apply N.Div0.div_lt_upper_bound; lia).
  assert (b mod 16 < 16) by (apply N.mod_lt; lia).
  rewrite !hex_nibble_digit by done. csimpl. rewrite IH. csimpl.
  rewrite nibbles_lor by done. do 2 f_equal. pose proof (N.div_mod b 16). lia.
Qed.

Lemma decode_pairs_Ok kind off n payload bytes :
  length payload = (2 * n)%nat → decode_pairs kind off payload = Ok bytes →
  length bytes = n ∧ Forall (λ b, b < 256) bytes ∧ bytes ≫= hex_byte = lower_hex <$> payload.
Proof.
  revert off payload bytes. induction n as [|n IH]; intros off payload bytes Hlen.
  { destruct payload; [|done]. by intros [= <-]. }
  destruct payload as [|h [|l payload]]; [done|simpl in Hlen; lia|]. csimpl.
  destruct (hex_nibble h) as [hi|] eqn:Hh; csimpl; [|done].
  destruct (hex_nibble l) as [lo|] eqn:Hl; csimpl; [|done].
  destruct (decode_pairs _ _ payload) as [tl|] eqn:Ht; csimpl; [|done].
  intros [= <-]. apply IH in Ht as (Hlt & Hbt & Heq); [|simpl in Hlen; lia].
  apply hex_nibble_Some in Hh as [Hhi Hdh]. apply hex_nibble_Some in Hl as [Hlo Hdl].
  rewrite nibbles_lor by done. split; [simpl; lia|]. split; [constructor; [lia|done]|].
  csimpl. rewrite Heq. unfold hex_byte.
  rewrite N.div_add_l, (N.div_small lo), N.add_0_r by lia.
  rewrite N.add_comm, N.Div0.mod_add, N.mod_small by lia. by rewrite Hdh, Hdl.
Qed.

Lemma strip_prefix_app p s : strip_prefix p (p ++ s) = Some s.
Proof. induction p as [|b p IH]; simpl; [done|]. by rewrite N.eqb_refl. Qed.

Lemma strip_prefix_Some p s rest : strip_prefix p s = Some rest → s = p ++ rest.
Proof.
  revert s. induction p as [|b p IH]; intros s; simpl; [by intros [= <-]|].
  destruct s as [|c s]; [done|]. destruct (N.eqb_spec b c) as [->|]; [|done].
  intros Hs. by rewrite (IH _ Hs).
Qed.

Lemma hex_bytes_length l : length (l ≫= hex_byte) = (2 * length l)%nat.
Proof. induction l as [|b l IH]; csimpl; [done|]. rewrite IH. lia. Qed.

Lemma digit_lt p qa ra a qb rb b :
  a = p * qa + ra → b = p * qb + rb → ra < p → qa < qb → a < b.
Proof.
  intros -> -> Hr Hq. apply N.lt_le_trans with (p * (qa + 1)).
  - rewrite N.mul_add_distr_l. lia.
  - apply N.le_trans with (p * qb); [|lia]. apply N.mul_le_mono_l. lia.
Qed.

Lemma lex_compare_lt n a b :
  a < 256 ^ N.of_nat n → b < 256 ^ N.of_nat n →
  lex_compare (to_be_bytes n a) (to_be_bytes n b) = (a ?= b).
Proof.
  revert a b. induction n as [|n IH]; intros a b Ha Hb.
  { change (256 ^ N.of_nat 0) with 1 in *. cbn. symmetry. apply N.compare_eq_iff. lia. }
  rewrite Nat2N.inj_succ, N.pow_succ_r' in Ha, Hb. cbn [to_be_bytes lex_compare].
  pose proof (pow256_pos (N.of_nat n)) as Hp. set (p := 256 ^ N.of_nat n) in *.
  rewrite !N.mod_small by (apply N.Div0.div_lt_upper_bound; lia).
  assert (p ≠ 0) as Hp0 by lia.
  pose proof (N.div_mod a p Hp0) as Da. pose proof (N.div_mod b p Hp0) as Db.
  pose proof (N.mod_lt a p Hp0) as Ma. pose proof (N.mod_lt b p Hp0) as Mb.
  destruct (N.compare_spec (a / p) (b / p)) as [Heq|Hlt|Hgt].
  - replace (to_be_bytes n a) with (to_be_bytes n (a mod p)).
    2:{ rewrite <-(to_be_bytes_shift n (a / p)). f_equal. fold p. lia. }
    replace (to_be_bytes n b) with (to_be_bytes n (b mod p)).
    2:{ rewrite <-(to_be_bytes_shift n (b / p)). f_equal. fold p. lia. }
    rewrite IH by (apply N.mod_lt; lia).
    destruct (N.compare_spec (a mod p) (b mod p)), (N.compare_spec a b); try done; nia.
  - symmetry. apply N.compare_lt_iff. by apply (digit_lt p (a / p) (a mod p) a (b / p) (b mod p) b).
  - symmetry. apply N.compare_gt_iff. by apply (digit_lt p (b / p) (b mod p) b (a / p) (a mod p) a).
Qed.

Lemma parse_id_app t payload :
  length payload = HEX_LENGTH →
  parse_id t (str_bytes (id_prefix t) ++ payload) = decode_pairs (id_kind t) 0 payload.
Proof.
  intros Hlen. unfold parse_id. rewrite strip_prefix_app. unfold mbind, result_bind.
  cbn [ok_or]. by rewrite decide_True.
Qed.

Lemma from_str_display t id : in_u128 id → from_str t (display t id) = Ok id.
Proof.
  intros Hid. unfold from_str, display. rewrite parse_id_app.
  - rewrite decode_pairs_hex by apply to_be_bytes_bound. csimpl. f_equal.
    by apply as_u128_from_u128.
  - rewrite hex_bytes_length. unfold as_bytes. by rewrite to_be_bytes_length.
Qed.

Lemma display_inj t a b : in_u128 a → in_u128 b → display t a = display t b → a = b.
Proof.
  intros Ha Hb Heq. apply (f_equal (from_str t)) in Heq.
  rewrite !from_str_display in Heq by done. by injection Heq.
Qed.

(** * Properties *)

(** Identifier text round trip: the printed form of a 128-bit identifier parses back to the
    same identifier, for each of the five identifier types. *)
Theorem id_display_parse (t : id_type) (id : N) :
  in_u128 id → from_str t (display t id) = Ok id.
Proof. apply from_str_display. Qed.

Lemma id_display_parse_witness :
  in_u128 42 ∧ from_str VolumeId (display VolumeId 42) = Ok 42.
Proof. split; [done|]. apply (id_display_parse VolumeId 42). done. Defined.

(** An accepted text is the type's prefix followed by exactly
    32 hexadecimal digits which, lower-cased, are the canonical text of the parsed identifier;
    the identifier fits 128 bits. *)
Theorem id_parse_sound (t : id_type) (input : list N) (id : N) :
  from_str t input = Ok id →
  in_u128 id ∧ ∃ payload, input = str_bytes (id_prefix t) ++ payload
    ∧ length payload = HEX_LENGTH
    ∧ str_bytes (id_prefix t) ++ (lower_hex <$> payload) = display t id.
Proof.
  unfold from_str, parse_id.
  destruct (strip_prefix _ input) as [payload|] eqn:Hs; csimpl; [|done].
  case_decide as Hlen; [|done].
  destruct (decode_pairs _ _ payload) as [bytes|] eqn:Hd; csimpl; [|done].
  intros [= <-]. apply strip_prefix_Some in Hs.
  apply (decode_pairs_Ok _ _ 16) in Hd as (Hn & Hb & Heq); [|done].
  split.
  - pose proof (from_be_bytes_bound _ Hb) as Hlt. rewrite Hn in Hlt. exact Hlt.
  - exists payload. split; [done|]. split; [done|]. unfold display, as_bytes.
    rewrite <-Hn, to_from_be_bytes by done. by rewrite Heq.
Qed.

Lemma id_parse_sound_witness :
  ∃ input id, from_str FileLinkId input = Ok id ∧ in_u128 id.
Proof.
  exists (str_bytes "link:000000000000000000000000000000AF"), 175.
  split; [vm_compute; reflexivity|].
  apply (id_parse_sound FileLinkId (str_bytes "link:000000000000000000000000000000AF") 175).
  vm_compute. reflexivity.
Defined.

(** Identifier types are separate: the text of an identifier of one type is rejected, with
    the prefix error of the expected type, by the parser of every other type. *)
Theorem id_types_disjoint (t t' : id_type) (id : N) :
  t ∈ id_types → t' ∈ id_types → t ≠ t' →
  from_str t' (display t id) = Err (InvalidPrefix (id_kind t') (id_prefix t')).
Proof.
  intros Ht Ht' Hne. unfold from_str, parse_id, display.
  repeat (apply elem_of_cons in Ht as [->|Ht]; [|]); try by apply elem_of_nil in Ht.
  all: repeat (apply elem_of_cons in Ht' as [->|Ht']; [|]); try by apply elem_of_nil in Ht'.
  all: first [done | reflexivity].
Qed.

Lemma id_types_disjoint_witness :
  from_str FileLinkId (display VolumeId 7)
  = Err (InvalidPrefix (id_kind FileLinkId) (id_prefix FileLinkId)).
Proof.
  apply (id_types_disjoint VolumeId FileLinkId 7); [| |discriminate].
  - right. left.
  - right. right. right. left.
Defined.

(** Identifier order: comparing the stored byte strings of two identifiers, as SQLite and
    [BTreeSet] do, is comparing their 128-bit values. *)
Theorem lex_be_bytes (a b : N) :
  in_u128 a → in_u128 b → lex_compare (as_bytes a) (as_bytes b) = (a ?= b).
Proof. intros Ha Hb. by apply lex_compare_lt. Qed.

Lemma lex_be_bytes_witness : lex_compare (as_bytes 255) (as_bytes 256) = Lt.
Proof. apply (lex_be_bytes 255 256); done. Defined.
