(* ===== verification/Order.v ===== *)
(** Comparison functions, and vectors kept sorted by a key.

    [cmp_ok] says that a comparison decides a total preorder; ranking and the journal checkpoints
    compare by such functions.  [binary_search_by] is the algorithm of [slice::binary_search_by];
    on a strictly sorted vector it finds the entry with a key or the place to insert it, so that
    [sv_upsert] and [sv_remove] are the updates of a finite map. *)
From stdpp Require Import base numbers list sorting.
From S2P Require Import Prelude Ids.

(** ** Comparisons *)

(** [Ordering::then_with]. *)
Definition then_with (c d : comparison) : comparison := match c with Eq => d | _ => c end.

(** A comparison function that decides a total preorder. *)
Record cmp_ok {A} (cmp : A → A → comparison) : Prop := {
  cmp_opp x y : cmp y x = CompOpp (cmp x y);
  cmp_eq x y z : cmp x y = Eq → cmp x z = cmp y z;
  cmp_lt x y z : cmp x y = Lt → cmp y z = Lt → cmp x z = Lt }.

Lemma cmp_ok_map {A B} (f : A → B) cmp : cmp_ok cmp → cmp_ok (λ x y, cmp (f x) (f y)).
Proof. intros [Ho He Hl]. split; intros; [apply Ho|by apply He|by eapply Hl]. Qed.

Lemma cmp_ok_then {A} (c d : A → A → comparison) :
  cmp_ok c → cmp_ok d → cmp_ok (λ x y, then_with (c x y) (d x y)).
Proof.
  intros [Ho He Hl] [Ho' He' Hl']. unfold then_with. split.
  - intros x y. rewrite (Ho x y), (Ho' x y). by destruct (c x y).
  - intros x y z. destruct (c x y) eqn:Hc; try done. intros Hd.
    by rewrite (He x y z Hc), (He' x y z Hd).
  - intros x y z. destruct (c x y) eqn:Hxy, (c y z) eqn:Hyz; try done.
    + rewrite (He x y z Hxy), Hyz. apply Hl'.
    + intros _ _. by rewrite (He x y z Hxy), Hyz.
    + intros _ _. assert (c z y = Eq) as Hzy by (by rewrite Ho, Hyz).
      assert (c x z = Lt) as ->; [|done]. rewrite Ho, (He z y x Hzy), Ho, Hxy. done.
    + intros _ _. by rewrite (Hl x y z Hxy Hyz).
Qed.

Lemma cmp_ok_Z : cmp_ok Z.compare.
Proof.
  split; [intros; apply Z.compare_antisym| |].
  - by intros x y z ->%Z.compare_eq.
  - intros x y z. rewrite !Z.compare_lt_iff. lia.
Qed.

Lemma cmp_ok_N : cmp_ok N.compare.
Proof.
  split; [intros; apply N.compare_antisym| |].
  - by intros x y z ->%N.compare_eq.
  - intros x y z. rewrite !N.compare_lt_iff. lia.
Qed.

Lemma lex_compare_eq a b : lex_compare a b = Eq → a = b.
Proof.
  revert b. induction a as [|x a IH]; intros [|y b]; simpl; try done.
  destruct (x ?= y)%N eqn:Hc; try done. apply N.compare_eq in Hc as ->. by intros ->%IH.
Qed.

Lemma cmp_ok_lex : cmp_ok lex_compare.
Proof.
  split.
  - intros a. induction a as [|x a IH]; intros [|y b]; simpl; try done.
    rewrite (N.compare_antisym x y). destruct (x ?= y)%N; simpl; auto.
  - by intros a b c ->%lex_compare_eq.
  - intros a. induction a as [|x a IH]; intros [|y b] [|z c]; simpl; try done.
    destruct (x ?= y)%N eqn:Hxy; try done; destruct (y ?= z)%N eqn:Hyz; try done.
    + apply N.compare_eq in Hxy as ->. rewrite Hyz. apply IH.
    + apply N.compare_eq in Hxy as ->. by rewrite Hyz.
    + apply N.compare_eq in Hyz as ->. by rewrite Hxy.
    + intros _ _. by rewrite (cmp_lt _ cmp_ok_N x y z Hxy Hyz).
Qed.

(** [Iterator::cmp]: lists compared element by element. *)
Fixpoint list_compare {A} (cmp : A → A → comparison) (a b : list A) : comparison :=
  match a, b with
  | [], [] => Eq
  | [], _ :: _ => Lt
  | _ :: _, [] => Gt
  | x :: a, y :: b => then_with (cmp x y) (list_compare cmp a b)
  end.

Lemma cmp_ok_list {A} (cmp : A → A → comparison) : cmp_ok cmp → cmp_ok (list_compare cmp).
Proof.
  intros Hc. split.
  - intros a. induction a as [|x a IH]; intros [|y b]; simpl; try done. unfold then_with.
    rewrite (cmp_opp _ Hc x y), IH. by destruct (cmp x y).
  - intros a. induction a as [|x a IH]; intros [|y b] [|z c]; simpl; try done. unfold then_with.
    destruct (cmp x y) eqn:Hxy; try done. intros Hab. by rewrite (cmp_eq _ Hc x y z Hxy), (IH b c Hab).
  - intros a. induction a as [|x a IH]; intros [|y b] [|z c]; simpl; try done. unfold then_with.
    destruct (cmp x y) eqn:Hxy; try done.
    + rewrite (cmp_eq _ Hc x y z Hxy). destruct (cmp y z); try done. apply IH.
    + destruct (cmp y z) eqn:Hyz; try done; intros _ _.
      * assert (cmp z y = Eq) as Hzy by (by rewrite (cmp_opp _ Hc y z), Hyz).
        by rewrite (cmp_opp _ Hc z x), (cmp_eq _ Hc z y x Hzy), (cmp_opp _ Hc x y), Hxy.
      * by rewrite (cmp_lt _ Hc x y z Hxy Hyz).
Qed.

Lemma list_compare_eq {A} (cmp : A → A → comparison) a b :
  (∀ x y, cmp x y = Eq → x = y) → list_compare cmp a b = Eq → a = b.
Proof.
  intros Hc. revert b. induction a as [|x a IH]; intros [|y b]; simpl; try done. unfold then_with.
  destruct (cmp x y) eqn:Hxy; try done. apply Hc in Hxy as ->. by intros ->%IH.
Qed.

(** ** Binary search *)

(** The loop of [slice::binary_search_by]: [size] halves until one candidate is left. *)
Fixpoint bsearch_base {A} (f : A → comparison) (v : list A) (fuel base size : nat) : nat :=
  match fuel with
  | O => base
  | S fuel =>
      if 1 <? size then
        let half := size / 2 in
        let mid := base + half in
        bsearch_base f v fuel (match f <$> v !! mid with Some Gt => base | _ => mid end) (size - half)
      else base
  end.

(** The index of a match, or the index to insert at. *)
Definition binary_search_by {A} (f : A → comparison) (v : list A) : result nat nat :=
  match v with
  | [] => Err 0
  | _ =>
      let base := bsearch_base f v (length v) 0 (length v) in
      match f <$> v !! base with
      | Some Eq => Ok base
      | Some Lt => Err (S base)
      | _ => Err base
      end
  end.

Section bsearch.
Context {A : Type} (f : A → comparison) (v : list A).

(** [f] goes from [Lt] over [Eq] to [Gt] along the vector. *)
Definition ascending : Prop := ∀ i j a b,
  v !! i = Some a → v !! j = Some b → i ≤ j → (f a = Gt → f b = Gt) ∧ (f b = Lt → f a = Lt).

Lemma bsearch_base_ok fuel base size :
  ascending → 1 ≤ size ≤ S fuel → base + size ≤ length v →
  (∀ i a, v !! i = Some a → base + size ≤ i → f a = Gt) →
  (base = 0 ∨ ∀ a, v !! base = Some a → f a ≠ Gt) →
  let b := bsearch_base f v fuel base size in
  b < length v ∧ (∀ i a, v !! i = Some a → b < i → f a = Gt) ∧
  (b = 0 ∨ ∀ a, v !! b = Some a → f a ≠ Gt).
Proof.
  intros Hasc. revert base size. induction fuel as [|fuel IH]; intros base size Hs Hl Hgt Hb; cbn [bsearch_base].
  { split; [lia|]. split; [|done]. intros i a Hi Hlt. eapply Hgt; [done|lia]. }
  destruct (Nat.ltb_spec 1 size) as [Hsz|Hsz].
  2: { split; [lia|]. split; [|done]. intros i a Hi Hlt. eapply Hgt; [done|lia]. }
  pose proof (Nat.div_str_pos size 2). pose proof (Nat.div_lt size 2).
  assert (2 * (size / 2) ≤ size) by (apply Nat.Div0.mul_div_le).
  destruct (lookup_lt_is_Some_2 v (base + size / 2)) as [m Hm]; [lia|]. rewrite Hm. cbn [fmap option_fmap option_map].
  apply IH; destruct (f m) eqn:Hfm; try lia.
  - intros i a Hi Hlt. eapply Hgt; [done|lia].
  - intros i a Hi Hlt. eapply Hgt; [done|lia].
  - intros i a Hi Hlt. destruct (Hasc _ _ _ _ Hm Hi) as [Hup _]; [lia|by apply Hup].
  - right. intros a Ha. rewrite Hm in Ha. simplify_eq. congruence.
  - right. intros a Ha. rewrite Hm in Ha. simplify_eq. congruence.
  - done.
Qed.

Lemma binary_search_by_ok :
  ascending →
  match binary_search_by f v with
  | Ok i => ∃ a, v !! i = Some a ∧ f a = Eq
  | Err i => i ≤ length v ∧ (∀ a, a ∈ take i v → f a = Lt) ∧ (∀ a, a ∈ drop i v → f a = Gt)
  end.
Proof.
  intros Hasc. destruct (decide (v = [])) as [->|Hne].
  { simpl. split; [lia|]. split; intros a Ha; by apply not_elem_of_nil in Ha. }
  assert (1 ≤ length v) as Hlen by (destruct v; [done|simpl; lia]).
  destruct (bsearch_base_ok (length v) 0 (length v) Hasc) as (Hb & Hgt & Hle); [lia|lia| |by left|].
  { intros i a Hi%lookup_lt_Some Hge. lia. }
  assert (binary_search_by f v = match f <$> v !! bsearch_base f v (length v) 0 (length v) with
    | Some Eq => Ok (bsearch_base f v (length v) 0 (length v))
    | Some Lt => Err (S (bsearch_base f v (length v) 0 (length v)))
    | _ => Err (bsearch_base f v (length v) 0 (length v)) end) as -> by (by destruct v).
  revert Hb Hgt Hle. generalize (bsearch_base f v (length v) 0 (length v)). intros b Hb Hgt Hle.
  destruct (lookup_lt_is_Some_2 v b Hb) as [a Ha]. rewrite Ha. cbn [fmap option_fmap option_map].
  destruct (f a) eqn:Hfa; [by exists a| |]; (split; [lia|]); split; intros x Hx;
    apply list_elem_of_lookup in Hx as [i Hi].
  - apply lookup_take_Some in Hi as [Hi Hlt]. destruct (Hasc _ _ _ _ Hi Ha) as [_ Hd]; [lia|by apply Hd].
  - rewrite lookup_drop in Hi. eapply Hgt; [done|lia].
  - apply lookup_take_Some in Hi as [_ Hlt]. destruct Hle as [->|Hle]; [lia|]. by destruct (Hle a Ha).
  - rewrite lookup_drop in Hi. destruct (decide (i = 0)) as [->|]; [|eapply Hgt; [done|lia]].
    rewrite Nat.add_0_r, Ha in Hi. by simplify_eq.
Qed.
End bsearch.

(** ** Sorted vectors as maps *)

Section sorted_vector.
Context {K A : Type} (key : A → K) (cmp : K → K → comparison).
Implicit Types (v : list A).

Definition sv_sorted v : Prop := StronglySorted (λ a b, cmp (key a) (key b) = Lt) v.

Definition sv_search (k : K) v : result nat nat := binary_search_by (λ a, cmp (key a) k) v.

Definition sv_get (k : K) v : option A :=
  match sv_search k v with Ok i => v !! i | Err _ => None end.

(** Update the entry in place, or insert a new one where it belongs. *)
Definition sv_upsert (k : K) (upd : A → A) (new : A) v : list A :=
  match sv_search k v with
  | Ok i => alter upd i v
  | Err i => take i v ++ new :: drop i v
  end.

Definition sv_remove (k : K) v : list A :=
  match sv_search k v with Ok i => delete i v | Err _ => v end.

Context (Hcmp : cmp_ok cmp) (Heq : ∀ x y, cmp x y = Eq → x = y).

Lemma cmp_refl x : cmp x x = Eq.
Proof using Hcmp. pose proof (cmp_opp _ Hcmp x x) as H. by destruct (cmp x x). Qed.

Lemma cmp_eq_iff x y : cmp x y = Eq ↔ x = y.
Proof using Hcmp Heq. split; [apply Heq|intros ->; apply cmp_refl]. Qed.

Lemma cmp_gt_lt x y : cmp x y = Gt ↔ cmp y x = Lt.
Proof using Hcmp. rewrite (cmp_opp _ Hcmp x y). by destruct (cmp x y). Qed.

Lemma sv_sorted_ascending k v : sv_sorted v → ascending (λ a, cmp (key a) k) v.
Proof using Hcmp Heq.
  intros Hs i j a b Hi Hj Hij. destruct (decide (i = j)) as [->|Hne]; [by simplify_eq|].
  assert (cmp (key a) (key b) = Lt) as Hab.
  { rewrite <-(take_drop_middle v i a Hi) in Hs. apply StronglySorted_app in Hs as (_ & _ & Hs).
    apply StronglySorted_inv in Hs as [_ Hs]. rewrite Forall_forall in Hs. apply Hs.
    apply list_elem_of_lookup. exists (j - S i). rewrite lookup_drop. by replace (S i + (j - S i)) with j by lia. }
  split; [|intros Hbk; by eapply (cmp_lt _ Hcmp)].
  rewrite !cmp_gt_lt. intros Hka. by eapply (cmp_lt _ Hcmp).
Qed.

Lemma sv_search_ok k v :
  sv_sorted v →
  match sv_search k v with
  | Ok i => ∃ a, v !! i = Some a ∧ key a = k
  | Err i => i ≤ length v ∧ (∀ a, a ∈ take i v → cmp (key a) k = Lt)
             ∧ (∀ a, a ∈ drop i v → cmp k (key a) = Lt)
  end.
Proof using Hcmp Heq.
  intros Hs. pose proof (binary_search_by_ok _ v (sv_sorted_ascending k v Hs)) as H. unfold sv_search.
  destruct (binary_search_by _ v) as [i|i].
  - destruct H as (a & Ha & He). exists a. by rewrite <-cmp_eq_iff.
  - destruct H as (Hi & Hlt & Hgt). split; [done|]. split; [done|]. intros a Ha. by apply cmp_gt_lt, Hgt.
Qed.

Lemma sv_key_unique v a b : sv_sorted v → a ∈ v → b ∈ v → key a = key b → a = b.
Proof using Hcmp.
  induction 1 as [|x v Hs IH Hx]; [by intros ?%not_elem_of_nil|].
  rewrite Forall_forall in Hx.
  assert (∀ y, y ∈ v → key x ≠ key y) as Hne.
  { intros y Hy Hk. pose proof (Hx y Hy) as Hlt. rewrite Hk, cmp_refl in Hlt. done. }
  intros [->|Ha]%elem_of_cons [->|Hb]%elem_of_cons Hk; [done|by destruct (Hne b)|by destruct (Hne a)|auto].
Qed.

Lemma sv_get_Some k v a : sv_sorted v → sv_get k v = Some a ↔ a ∈ v ∧ key a = k.
Proof using Hcmp Heq.
  intros Hs. unfold sv_get. pose proof (sv_search_ok k v Hs) as H. destruct (sv_search k v) as [i|i].
  - destruct H as (b & Hb & <-). rewrite Hb. apply list_elem_of_lookup_2 in Hb. split.
    + by intros [= ->].
    + intros [Ha Hk]. f_equal. by apply (sv_key_unique v).
  - destruct H as (_ & Hlt & Hgt). split; [done|]. intros [Ha <-]. exfalso.
    rewrite <-(take_drop i v) in Ha.
    apply elem_of_app in Ha as [Ha|Ha]; [apply Hlt in Ha|apply Hgt in Ha]; by rewrite cmp_refl in Ha.
Qed.

Lemma sv_get_None k v : sv_sorted v → sv_get k v = None ↔ ∀ a, a ∈ v → key a ≠ k.
Proof using Hcmp Heq.
  intros Hs. rewrite eq_None_not_Some. split.
  - intros Hn a Ha Hk. apply Hn. exists a. by apply sv_get_Some.
  - intros Hall [a [Ha Hk]%sv_get_Some]; [|done]. by eapply Hall.
Qed.

Lemma sv_sorted_sublist v v' : v' `sublist_of` v → sv_sorted v → sv_sorted v'.
Proof.
  unfold sv_sorted. induction 1 as [|x l1 l2 Hsub IH|x l1 l2 Hsub IH]; intros Hs; [done|..];
    apply StronglySorted_inv in Hs as [Hs Hx]; [|auto].
  constructor; [auto|]. rewrite Forall_forall in Hx |- *. intros y Hy. apply Hx. by eapply elem_of_sublist.
Qed.

Lemma sv_remove_sorted k v : sv_sorted v → sv_sorted (sv_remove k v).
Proof.
  intros Hs. unfold sv_remove. destruct (sv_search k v) as [i|]; [|done].
  eapply sv_sorted_sublist; [apply sublist_delete|done].
Qed.

(** Splitting at an entry. *)
Lemma sv_split_at v i a :
  sv_sorted v → v !! i = Some a →
  v = take i v ++ a :: drop (S i) v ∧
  (∀ x, x ∈ take i v ++ drop (S i) v → key x ≠ key a).
Proof using Hcmp.
  intros Hs Ha. pose proof (take_drop_middle v i a Ha) as Hv. split; [done|].
  rewrite <-Hv in Hs. apply StronglySorted_app in Hs as (Hlt & _ & Hs).
  apply StronglySorted_inv in Hs as [_ Hgt]. rewrite Forall_forall in Hgt.
  intros x [Hx|Hx]%elem_of_app Hk.
  - pose proof (Hlt x a Hx (list_elem_of_here _ _)) as H. by rewrite Hk, cmp_refl in H.
  - pose proof (Hgt x Hx) as H. by rewrite Hk, cmp_refl in H.
Qed.

Lemma elem_of_sv_remove k v x : sv_sorted v → x ∈ sv_remove k v ↔ x ∈ v ∧ key x ≠ k.
Proof using Hcmp Heq.
  intros Hs. unfold sv_remove. pose proof (sv_search_ok k v Hs) as H. destruct (sv_search k v) as [i|i].
  - destruct H as (a & Ha & <-). destruct (sv_split_at v i a Hs Ha) as [Hv Hne].
    rewrite delete_take_drop. split.
    + intros Hx. split; [|by apply Hne]. rewrite Hv.
      apply elem_of_app in Hx as [?|?]; apply elem_of_app; [by left|right; by right].
    + intros [Hx Hk]. rewrite Hv in Hx. apply elem_of_app in Hx as [?|[->|?]%elem_of_cons];
        apply elem_of_app; [by left|done|by right].
  - destruct H as (_ & Hlt & Hgt). split; [|tauto]. intros Hx. split; [done|]. intros <-.
    rewrite <-(take_drop i v) in Hx.
    apply elem_of_app in Hx as [Hx|Hx]; [apply Hlt in Hx|apply Hgt in Hx]; by rewrite cmp_refl in Hx.
Qed.

Section upsert.
Context (k : K) (upd : A → A) (new : A) (Hnew : key new = k) (Hupd : ∀ a, key a = k → upd a = new).

Lemma sv_upsert_split v :
  sv_sorted v → ∃ l r, sv_upsert k upd new v = l ++ new :: r
    ∧ sv_sorted (l ++ r) ∧ (∀ x, x ∈ l ++ r ↔ x ∈ v ∧ key x ≠ k)
    ∧ (∀ x, x ∈ l → cmp (key x) k = Lt) ∧ (∀ x, x ∈ r → cmp k (key x) = Lt).
Proof using Hcmp Heq Hupd.
  intros Hs. unfold sv_upsert. pose proof (sv_search_ok k v Hs) as H.
  pose proof (λ x, elem_of_sv_remove k v x Hs) as Hrem. pose proof (sv_remove_sorted k v Hs) as Hsr.
  unfold sv_remove in Hrem, Hsr. destruct (sv_search k v) as [i|i].
  - destruct H as (a & Ha & Hk). rewrite delete_take_drop in Hrem, Hsr.
    exists (take i v), (drop (S i) v). rewrite <-(take_drop_middle v i a Ha) in Hs.
    apply StronglySorted_app in Hs as (Hlt & _ & [_ Hgt]%StronglySorted_inv). rewrite Forall_forall in Hgt.
    split_and!; [|done|done| |].
    + rewrite <-(Hupd a Hk). rewrite <-(take_drop_middle v i a Ha) at 1.
      rewrite alter_app_r_alt by (rewrite length_take; lia).
      rewrite length_take. apply lookup_lt_Some in Ha. by replace (i - i `min` length v) with 0 by lia.
    + intros x Hx. rewrite <-Hk. apply Hlt; [done|left].
    + intros x Hx. rewrite <-Hk. by apply Hgt.
  - destruct H as (_ & Hlt & Hgt). exists (take i v), (drop i v). by rewrite take_drop.
Qed.

Lemma sv_upsert_sorted v : sv_sorted v → sv_sorted (sv_upsert k upd new v).
Proof using Hcmp Heq Hupd Hnew.
  intros Hs. destruct (sv_upsert_split v Hs) as (l & r & -> & Hlr & _ & Hl & Hr).
  apply StronglySorted_app in Hlr as (Hcross & Hsl & Hsr). apply StronglySorted_app.
  split_and!; [|done|].
  - intros x y Hx [->|Hy]%elem_of_cons; [rewrite Hnew|]; auto.
  - constructor; [done|]. apply Forall_forall. intros y Hy. rewrite Hnew. auto.
Qed.

Lemma elem_of_sv_upsert v x :
  sv_sorted v → x ∈ sv_upsert k upd new v ↔ x = new ∨ x ∈ v ∧ key x ≠ k.
Proof using Hcmp Heq Hupd.
  intros Hs. destruct (sv_upsert_split v Hs) as (l & r & -> & _ & Hlr & _).
  rewrite <-Hlr, !elem_of_app, elem_of_cons. tauto.
Qed.
End upsert.

(** The updates are those of a map. *)
Lemma sv_get_upsert k upd new v j :
  key new = k → (∀ a, key a = k → upd a = new) → sv_sorted v →
  sv_get j (sv_upsert k upd new v) = match cmp j k with Eq => Some new | _ => sv_get j v end.
Proof using Hcmp Heq.
  intros Hnew Hupd Hs. apply option_eq. intros x.
  rewrite sv_get_Some, elem_of_sv_upsert by (done || by apply sv_upsert_sorted).
  destruct (cmp j k) eqn:Hjk.
  - apply Heq in Hjk as ->. split; [|intros [= ->]; auto]. by intros [[->|[_ ?]] ?].
  - rewrite sv_get_Some by done. split; [|intros [? <-]; split; [right; split; [done|]|done]].
    + intros [[->|[? _]] Hk]; [|done]. by rewrite <-Hk, Hnew, cmp_refl in Hjk.
    + intros Hk. by rewrite Hk, cmp_refl in Hjk.
  - rewrite sv_get_Some by done. split; [|intros [? <-]; split; [right; split; [done|]|done]].
    + intros [[->|[? _]] Hk]; [|done]. by rewrite <-Hk, Hnew, cmp_refl in Hjk.
    + intros Hk. by rewrite Hk, cmp_refl in Hjk.
Qed.

Lemma sv_get_remove k v j :
  sv_sorted v → sv_get j (sv_remove k v) = match cmp j k with Eq => None | _ => sv_get j v end.
Proof using Hcmp Heq.
  intros Hs. apply option_eq. intros x.
  rewrite sv_get_Some, elem_of_sv_remove by (done || by apply sv_remove_sorted).
  destruct (cmp j k) eqn:Hjk.
  - apply Heq in Hjk as ->. split; [by intros [[_ ?] ?]|done].
  - rewrite sv_get_Some by done. split; [tauto|]. intros [? <-]. split; [split; [done|]|done].
    intros Hk. by rewrite Hk, cmp_refl in Hjk.
  - rewrite sv_get_Some by done. split; [tauto|]. intros [? <-]. split; [split; [done|]|done].
    intros Hk. by rewrite Hk, cmp_refl in Hjk.
Qed.
End sorted_vector.

(** ** Sorting by a comparison *)
Section sort_by.
Context {K A : Type} (key : A → K) (cmp : K → K → comparison) (R : relation A) `{!RelDecision R}.
Context (Hcmp : cmp_ok cmp) (HR : ∀ a b, R a b ↔ cmp (key a) (key b) ≠ Gt).

Lemma sort_by_total : Total R.
Proof using Hcmp HR.
  intros a b. rewrite !HR, (cmp_opp _ Hcmp (key a) (key b)). destruct (cmp (key a) (key b)); auto.
Qed.

Lemma sort_by_trans : Transitive R.
Proof using Hcmp HR.
  intros a b c. rewrite !HR. destruct (cmp (key a) (key b)) eqn:Hab; [|intros _|done].
  - by rewrite (cmp_eq _ Hcmp _ _ (key c) Hab).
  - destruct (cmp (key b) (key c)) eqn:Hbc; [intros _|intros _|done].
    + assert (cmp (key c) (key b) = Eq) as Hcb by (by rewrite (cmp_opp _ Hcmp (key b)), Hbc).
      by rewrite (cmp_opp _ Hcmp (key c)), (cmp_eq _ Hcmp _ _ (key a) Hcb), <-(cmp_opp _ Hcmp), Hab.
    + by rewrite (cmp_lt _ Hcmp _ _ _ Hab Hbc).
Qed.

(** Sorting a strictly sorted vector changes nothing. *)
Lemma merge_sort_sv_sorted v : sv_sorted key cmp v → merge_sort R v = v.
Proof using Hcmp HR.
  pose proof sort_by_total. pose proof sort_by_trans. intros Hs.
  apply (StronglySorted_unique_strong R); [|apply StronglySorted_merge_sort; apply _| |apply merge_sort_Permutation].
  - intros a b Ha Hb Hab Hba. rewrite merge_sort_Permutation in Ha.
    assert (¬ (cmp (key a) (key b) = Lt) ∧ ¬ (cmp (key b) (key a) = Lt)) as [H1 H2].
    { rewrite HR in Hab, Hba. rewrite (cmp_opp _ Hcmp (key a)) in Hba |- *.
      destruct (cmp (key a) (key b)); naive_solver. }
    clear -Hs Ha Hb H1 H2. induction Hs as [|x v Hs IH Hx]; [by apply not_elem_of_nil in Ha|].
    rewrite Forall_forall in Hx.
    apply elem_of_cons in Ha as [->|Ha], Hb as [->|Hb]; auto; exfalso; auto.
  - induction Hs as [|x v Hs IH Hx]; constructor; [done|].
    eapply Forall_impl; [exact Hx|]. intros b Hlt. apply HR. by rewrite Hlt.
Qed.
End sort_by.
