(* ===== verification/Models.v ===== *)
(** Canonical domain model ([crates/core/src/models.rs], [ids.rs]) and the platform-neutral
    provider types ([crates/platform-core/src/filesystem.rs]): file keys, metadata, observations,
    catalog documents, index mutations, the consecutive mutation batch, and search requests.

    Identifiers are the integers of [Ids]; u64 and i64 quantities are [Z]. *)
From stdpp Require Import base strings numbers gmap list.
From S2P Require Import Prelude.

Abbreviation volume_id := N (only parsing).
Abbreviation file_id := N (only parsing).
Abbreviation link_id := N (only parsing).
Abbreviation document_id := N (only parsing).

(** * Identity *)

(** [FileKey]: a physical object on a volume. *)
Record FileKey := MkFileKey { fk_volume : volume_id; fk_file : file_id }.

Global Instance FileKey_eq_dec : EqDecision FileKey.
Proof. solve_decision. Defined.
Global Instance FileKey_countable : Countable FileKey.
Proof.
  apply (inj_countable' (λ k, (fk_volume k, fk_file k)) (λ p, MkFileKey p.1 p.2)). by intros [].
Defined.

(** [CatalogIdentity]. *)
Record CatalogIdentity := MkCatalogIdentity {
  ci_object_key : FileKey;
  ci_file_link_id : link_id;
  ci_document_id : document_id }.
Global Instance CatalogIdentity_eq_dec : EqDecision CatalogIdentity.
Proof. solve_decision. Defined.

(** * Metadata and observations *)

Inductive FileKind := KFile | KDirectory | KSymlink | KSpecial | KOther.
Global Instance FileKind_eq_dec : EqDecision FileKind.
Proof. solve_decision. Defined.

Inductive Availability := AOnline | AOffline | AUnknown.
Global Instance Availability_eq_dec : EqDecision Availability.
Proof. solve_decision. Defined.

Record FileMetadata := MkFileMetadata {
  m_kind : FileKind;
  m_size : Z;                          (* u64 *)
  m_created_at : option Z;             (* i64 *)
  m_modified_at : option Z;            (* i64 *)
  m_hidden : bool;
  m_availability : Availability }.
Global Instance FileMetadata_eq_dec : EqDecision FileMetadata.
Proof. solve_decision. Defined.

Record FileObjectSnapshot := MkFileObjectSnapshot {
  fo_object_key : FileKey;
  fo_metadata : FileMetadata }.

Record FileLinkSnapshot := MkFileLinkSnapshot {
  fl_file_link_id : link_id;
  fl_object_key : FileKey;
  fl_parent_key : option FileKey;
  fl_name : string }.

Inductive ReconciliationReason :=
| SourceHistoryUnavailable | EventOverflow | InconsistentSnapshot | ProviderRequested.

Inductive FilesystemEvent :=
| ObjectObserved (object : FileObjectSnapshot)
| LinkObserved (link : FileLinkSnapshot)
| LinkRemoved (file_link_id : link_id) (object_key : FileKey)
| ObjectRemoved (object_key : FileKey)
| ReconciliationRequired (volume : volume_id) (reason : ReconciliationReason).

(** * Provider types *)

Record VolumeDescriptor := MkVolumeDescriptor {
  vd_volume_id : volume_id;
  vd_display_name : option string;
  vd_mount_points : list string;
  vd_filesystem : option string;
  vd_removable : bool;
  vd_local : bool }.

Record ProviderCheckpoint := MkProviderCheckpoint {
  pc_provider_id : string;
  pc_format_version : Z;               (* u32 *)
  pc_volume_id : volume_id;
  pc_opaque : list N }.
Global Instance ProviderCheckpoint_eq_dec : EqDecision ProviderCheckpoint.
Proof. solve_decision. Defined.

(** * Catalog projection *)

Record CatalogDocument := MkCatalogDocument {
  cd_identity : CatalogIdentity;
  cd_document_version : Z;             (* u64 *)
  cd_name : string;
  cd_resolved_path : string;
  cd_extension : option string;
  cd_metadata : FileMetadata }.
Global Instance CatalogDocument_eq_dec : EqDecision CatalogDocument.
Proof. solve_decision. Defined.

Inductive IndexMutation :=
| Upsert (document : CatalogDocument)
| Delete (id : document_id) (version : Z).
Global Instance IndexMutation_eq_dec : EqDecision IndexMutation.
Proof. solve_decision. Defined.

Record SequencedMutation := MkSequencedMutation {
  sm_sequence : Z;                     (* u64 *)
  sm_mutation : IndexMutation }.

Record MutationBatch := MkMutationBatch { mb_mutations : list SequencedMutation }.

Inductive DomainError := InvalidRequest (reason : string).

(** The loop of [MutationBatch::validate]. *)
Fixpoint validate_from (expected : Z) (ms : list SequencedMutation) : result DomainError unit :=
  match ms with
  | [] => Ok tt
  | m :: ms =>
      if decide (sm_sequence m = expected) then
        next ← ok_or (u64_checked_add expected 1) (InvalidRequest "mutation sequence overflow");
        validate_from next ms
      else Err (InvalidRequest "mutation batch sequences must be strictly consecutive")
  end.

Definition MutationBatch_validate (b : MutationBatch) : result DomainError unit :=
  match mb_mutations b with
  | [] => Err (InvalidRequest "mutation batch must not be empty")
  | first :: _ => validate_from (sm_sequence first) (mb_mutations b)
  end.

Definition first_sequence (b : MutationBatch) : option Z :=
  sm_sequence <$> head (mb_mutations b).

Definition last_sequence (b : MutationBatch) : option Z :=
  sm_sequence <$> last (mb_mutations b).

(** * Search requests and responses *)

Inductive SearchScope := ScopeAll | ScopeFiles | ScopeFolders.

Record SearchFilter := MkSearchFilter {
  sf_extensions : list string;
  sf_directory_prefix : option string;
  sf_minimum_size : option Z;
  sf_maximum_size : option Z }.

Record SearchRequest := MkSearchRequest {
  sq_query : string;
  sq_scope : SearchScope;
  sq_filters : SearchFilter;
  sq_top_k : Z }.                      (* u16 *)

Inductive MatchType := ExactName | PrefixName | TokenName | SubstringName | PathMatch.

Record SearchHit := MkSearchHit {
  sh_document_id : document_id;
  sh_object_key : FileKey;
  sh_file_link_id : link_id;
  sh_name : string;
  sh_resolved_path : string;
  sh_extension : option string;
  sh_kind : FileKind;
  sh_size : Z;                         (* u64 *)
  sh_modified_at_unix_ms : option Z;   (* i64 *)
  sh_availability : Availability;
  sh_match_type : MatchType;
  sh_rank : Z;                         (* u32 *)
  sh_ranking_version : Z }.            (* u32 *)

Record SearchResponse := MkSearchResponse {
  sr_index_generation : Z;             (* u64 *)
  sr_took_micros : Z;                  (* u64 *)
  sr_hits : list SearchHit }.

(** * Properties *)

Lemma u64_checked_add_Some a b c : u64_checked_add a b = Some c ↔ c = (a + b)%Z ∧ in_u64 (a + b).
Proof. unfold u64_checked_add. case_decide; naive_solver. Qed.

Lemma validate_from_ok expected ms :
  in_u64 expected → Forall (λ m, in_u64 (sm_sequence m)) ms →
  validate_from expected ms = Ok tt ↔
  (∀ i m, ms !! i = Some m → sm_sequence m = (expected + Z.of_nat i)%Z) ∧
  (expected + Z.of_nat (length ms) ≤ u64_max)%Z.
Proof.
  revert expected. induction ms as [|m ms IH]; intros expected He Hms; simpl.
  { split; [|done]. intros _. split; [intros i m Hm; by rewrite lookup_nil in Hm|]. unfold in_u64 in *. lia. }
  apply Forall_cons in Hms as [Hm Hms]. case_decide as Heq.
  - unfold mbind, result_bind.
    destruct (u64_checked_add expected 1) as [nx|] eqn:Hadd; cbn [ok_or].
    + apply u64_checked_add_Some in Hadd as [-> Hin]. rewrite IH by done. split.
      * intros [Hseq Hlen]. split; [|lia]. intros [|i] x Hx; simpl in Hx.
        { injection Hx as <-. lia. } { rewrite (Hseq _ _ Hx). lia. }
      * intros [Hseq Hlen]. split; [|lia]. intros i x Hx. rewrite (Hseq (S i) x Hx). lia.
    + split; [done|]. intros [_ Hlen]. unfold u64_checked_add, in_u64 in *. case_decide; [done|]. lia.
  - split; [done|]. intros [Hseq _]. specialize (Hseq 0 m eq_refl). lia.
Qed.

(** Mutation batches are consecutive: a batch of u64 sequence numbers validates exactly when
    it is non-empty, its i-th sequence is the first plus i, and one past its last sequence still
    fits u64. *)
Theorem mutation_batch_validate_iff (b : MutationBatch) :
  Forall (λ m, in_u64 (sm_sequence m)) (mb_mutations b) →
  MutationBatch_validate b = Ok tt ↔
  ∃ first, first_sequence b = Some first
    ∧ (∀ i m, mb_mutations b !! i = Some m → sm_sequence m = (first + Z.of_nat i)%Z)
    ∧ (first + Z.of_nat (length (mb_mutations b)) ≤ u64_max)%Z.
Proof.
  intros Hb. unfold MutationBatch_validate, first_sequence.
  destruct (mb_mutations b) as [|m ms] eqn:Hms.
  - split; [done|]. by intros (? & ? & _).
  - rewrite validate_from_ok; [|by apply Forall_cons in Hb as [? _]|done]. simpl. naive_solver.
Qed.

Lemma mutation_batch_validate_iff_witness :
  let b := MkMutationBatch [MkSequencedMutation 7 (Delete 1%N 0); MkSequencedMutation 8 (Delete 2%N 0)] in
  MutationBatch_validate b = Ok tt.
Proof.
  apply mutation_batch_validate_iff.
  - repeat constructor; unfold in_u64, u64_max; simpl; lia.
  - exists 7%Z. split; [done|]. split; [|vm_compute; discriminate].
    intros [|[|i]] m Hm; simpl in Hm; [injection Hm as <-|injection Hm as <-|discriminate]; reflexivity.
Defined.
