(* ===== verification/GraphDomain.v ===== *)
(** Domain of the durable filesystem graph ([crates/filesystem-graph/src/domain.rs],
    [error.rs]) and the integer codes its columns use ([store.rs], from line 2567).

    Holds the graph mutations a provider batch carries, the batch validation, the error type,
    the result records of the store operations, and the column codes with their round trips. *)
From stdpp Require Import base strings numbers gmap list.
From S2P Require Import Prelude Models.

(** * Errors *)

(** The uniqueness, foreign-key and check constraints of the schema ([migrations.rs]) that a
    statement of the store can violate. *)
Inductive Constraint :=
| FkObjectVolume            (* graph_file_objects.volume_id -> graph_volumes *)
| FkLinkObject              (* graph_file_links -> graph_file_objects *)
| FkJobObject               (* graph_path_refresh_jobs -> graph_file_objects *)
| FkVolumeJob               (* graph_volume_projection_refresh_jobs -> graph_volumes *)
| FkCheckpointVolume        (* graph_provider_checkpoints -> graph_volumes *)
| FkSessionVolume           (* graph_volume_observation_sessions -> graph_volumes *)
| FkDocumentObject          (* graph_catalog_documents -> graph_file_objects *)
| OneExactNamePerParent     (* unique index on (parent, name) *)
| OneExactRootNamePerVolume (* unique index on (volume, name) of root links *).

(** The [rusqlite::Error] values the store can produce on an accessible database. *)
Inductive SqliteError :=
| ConstraintViolation (c : Constraint)
| QueryReturnedNoRows
| IntegralValueOutOfRange (column : nat) (value : Z)
| DatabaseFull
| IntegerOverflow
| FromSqlConversionFailure (column : nat).

Inductive GraphError :=
| Sqlite (e : SqliteError)
| Serialization
| InvalidBatch (reason : string)
| Invariant (reason : string)
| LinkNotFound (id : link_id)
| MissingParent (object : FileKey)
| AmbiguousParent (object : FileKey)
| ParentCycle (object : FileKey)
| TraversalBoundary (id : link_id)
| DepthLimit (limit : Z)
| NumericRange (field : string).

(** * Lifecycle states *)

Inductive VolumeState := VOnline | VOffline | VNeedsReconciliation.
Global Instance VolumeState_eq_dec : EqDecision VolumeState.
Proof. solve_decision. Defined.

Inductive ObservationScanMode := ScanInitial | ScanReconcile.
Global Instance ObservationScanMode_eq_dec : EqDecision ObservationScanMode.
Proof. solve_decision. Defined.

Inductive ObservationScanPhase := Scanning | SweepingLinks | SweepingObjects.
Global Instance ObservationScanPhase_eq_dec : EqDecision ObservationScanPhase.
Proof. solve_decision. Defined.

Record ObservationSession := MkObservationSession {
  os_volume_id : volume_id;
  os_scan_generation : Z;              (* u64 *)
  os_mode : ObservationScanMode;
  os_phase : ObservationScanPhase }.

Record ObservationFinalizeSummary := MkObservationFinalizeSummary {
  of_stale_links_removed : Z;
  of_stale_objects_tombstoned : Z;
  of_completed : bool }.
Definition ObservationFinalizeSummary_default := MkObservationFinalizeSummary 0 0 false.

(** [impl From<Availability> for VolumeState]. *)
Definition VolumeState_from_availability (a : Availability) : VolumeState :=
  match a with
  | AOnline => VOnline
  | AOffline => VOffline
  | AUnknown => VNeedsReconciliation
  end.

(** * Mutations *)

Inductive GraphMutation :=
| UpsertVolume (descriptor : VolumeDescriptor)
| SetVolumeState (v : volume_id) (state : VolumeState)
| UpsertObject (object : FileObjectSnapshot)
| UpsertLink (link : FileLinkSnapshot) (traversal_boundary : bool)
| RemoveLink (id : link_id) (object_key : FileKey)
| TombstoneObject (object_key : FileKey)
| RequireReconciliation (v : volume_id) (reason : ReconciliationReason).

(** [impl From<FilesystemEvent> for GraphMutation]. *)
Definition GraphMutation_from_event (e : FilesystemEvent) : GraphMutation :=
  match e with
  | ObjectObserved object => UpsertObject object
  | LinkObserved link => UpsertLink link false
  | LinkRemoved id key => RemoveLink id key
  | ObjectRemoved key => TombstoneObject key
  | ReconciliationRequired v reason => RequireReconciliation v reason
  end.

Record GraphMutationBatch := MkGraphMutationBatch {
  gb_volume_id : volume_id;
  gb_checkpoint : ProviderCheckpoint;
  gb_mutations : list GraphMutation }.

(** [GraphMutationBatch::from_events]. *)
Definition from_events (v : volume_id) (checkpoint : ProviderCheckpoint)
  (events : list FilesystemEvent) : GraphMutationBatch :=
  MkGraphMutationBatch v checkpoint (GraphMutation_from_event <$> events).

(** [validate_mutation_volume]: the link case is rejected first when the link crosses volumes. *)
Definition mutation_volume (m : GraphMutation) : result GraphError volume_id :=
  match m with
  | UpsertVolume d => Ok (vd_volume_id d)
  | SetVolumeState v _ | RequireReconciliation v _ => Ok v
  | UpsertObject o => Ok (fk_volume (fo_object_key o))
  | UpsertLink l _ =>
      match fl_parent_key l with
      | Some p =>
          if decide (fk_volume p = fk_volume (fl_object_key l)) then Ok (fk_volume (fl_object_key l))
          else Err (InvalidBatch "a filesystem link cannot cross volumes")
      | None => Ok (fk_volume (fl_object_key l))
      end
  | RemoveLink _ k | TombstoneObject k => Ok (fk_volume k)
  end.

Definition validate_mutation_volume (m : GraphMutation) (expected : volume_id)
  : result GraphError unit :=
  actual ← mutation_volume m;
  if decide (actual = expected) then Ok tt
  else Err (InvalidBatch "mutation volume does not match batch volume").

Fixpoint validate_mutations (ms : list GraphMutation) (expected : volume_id)
  : result GraphError unit :=
  match ms with
  | [] => Ok tt
  | m :: ms => validate_mutation_volume m expected ;; validate_mutations ms expected
  end.

(** [GraphMutationBatch::validate]. *)
Definition batch_validate (b : GraphMutationBatch) : result GraphError unit :=
  if decide (pc_volume_id (gb_checkpoint b) = gb_volume_id b)
  then validate_mutations (gb_mutations b) (gb_volume_id b)
  else Err (InvalidBatch "checkpoint volume does not match mutation batch").

(** * Results *)

(** [ResolvedPath::display]: components joined by a slash. *)
Record ResolvedPath := MkResolvedPath { rp_components : list string }.
Fixpoint join_slash (cs : list string) : string :=
  match cs with
  | [] => ""
  | [c] => c
  | c :: cs => c +:+ "/" +:+ join_slash cs
  end.
Definition ResolvedPath_display (p : ResolvedPath) : string := join_slash (rp_components p).

Record PathRefreshJob := MkPathRefreshJob {
  prj_job_id : Z;
  prj_volume_id : volume_id;
  prj_root_object : FileKey;
  prj_enqueued_generation : Z }.

Record ApplySummary := MkApplySummary {
  as_mutations : Z;
  as_generation : Z;
  as_refresh_jobs_enqueued : Z;
  as_outbox_mutations_appended : Z }.

Record ProjectorCheckpoint := MkProjectorCheckpoint {
  pj_consumer_id : string;
  pj_last_sequence : Z;
  pj_index_generation : Z }.

Record ProjectionRefreshSummary := MkProjectionRefreshSummary {
  pr_links_scanned : Z;
  pr_outbox_mutations_appended : Z;
  pr_job_completed : bool }.
Definition ProjectionRefreshSummary_default := MkProjectionRefreshSummary 0 0 false.

Record GraphStats := MkGraphStats {
  gs_volumes : Z;
  gs_live_objects : Z;
  gs_live_files : Z;
  gs_live_file_bytes : Z;
  gs_tombstoned_objects : Z;
  gs_links : Z;
  gs_pending_refresh_jobs : Z }.

Record OutboxMaintenanceSummary := MkOutboxMaintenanceSummary {
  om_safe_through_sequence : option Z;
  om_deleted_rows : Z;
  om_backlog_remaining : bool }.
Definition OutboxMaintenanceSummary_default := MkOutboxMaintenanceSummary None 0 false.

Record DesiredPayloadMaintenanceSummary := MkDesiredPayloadMaintenanceSummary {
  dm_rewritten_rows : Z;
  dm_backlog_remaining : bool }.

Inductive GraphIntegrityIssue :=
| OrphanObject (object_key : FileKey)
| MissingParentIssue (id : link_id) (parent_key : FileKey).

(** * Column codes *)

Definition file_kind_code (k : FileKind) : Z :=
  match k with KFile => 0 | KDirectory => 1 | KSymlink => 2 | KSpecial => 3 | KOther => 4 end.

Definition file_kind_from_code (code : Z) : result GraphError FileKind :=
  match code with
  | 0%Z => Ok KFile
  | 1%Z => Ok KDirectory
  | 2%Z => Ok KSymlink
  | 3%Z => Ok KSpecial
  | 4%Z => Ok KOther
  | _ => Err (Sqlite (IntegralValueOutOfRange 0 code))
  end.

Definition availability_code (a : Availability) : Z :=
  match a with AOnline => 0 | AOffline => 1 | AUnknown => 2 end.

Definition availability_from_code (code : Z) : result GraphError Availability :=
  match code with
  | 0%Z => Ok AOnline
  | 1%Z => Ok AOffline
  | 2%Z => Ok AUnknown
  | _ => Err (Sqlite (IntegralValueOutOfRange 0 code))
  end.

Definition volume_state_code (s : VolumeState) : Z :=
  match s with VOnline => 0 | VOffline => 1 | VNeedsReconciliation => 2 end.

Definition volume_state_from_code (code : Z) : result GraphError VolumeState :=
  match code with
  | 0%Z => Ok VOnline
  | 1%Z => Ok VOffline
  | 2%Z => Ok VNeedsReconciliation
  | _ => Err (Sqlite (IntegralValueOutOfRange 0 code))
  end.

Definition observation_scan_mode_code (m : ObservationScanMode) : Z :=
  match m with ScanInitial => 0 | ScanReconcile => 1 end.

Definition observation_scan_mode_from_code (code : Z) : result GraphError ObservationScanMode :=
  match code with
  | 0%Z => Ok ScanInitial
  | 1%Z => Ok ScanReconcile
  | _ => Err (Sqlite (IntegralValueOutOfRange 0 code))
  end.

Definition observation_scan_phase_from_code (code : Z) : result GraphError ObservationScanPhase :=
  match code with
  | 0%Z => Ok Scanning
  | 1%Z => Ok SweepingLinks
  | 2%Z => Ok SweepingObjects
  | _ => Err (Sqlite (IntegralValueOutOfRange 0 code))
  end.

Definition reconciliation_reason_code (r : ReconciliationReason) : Z :=
  match r with
  | SourceHistoryUnavailable => 0
  | EventOverflow => 1
  | InconsistentSnapshot => 2
  | ProviderRequested => 3
  end.

(** [require_single_update]. *)
Definition require_single_update (updated : Z) (message : string) : result GraphError unit :=
  if decide (updated = 1%Z) then Ok tt else Err (Invariant message).

(** [nonnegative_u64]. *)
Definition nonnegative_u64 (value : Z) (field : string) : result GraphError Z :=
  ok_or (u64_try_from value) (NumericRange field).

(** * Lemmas *)

Lemma file_kind_roundtrip k : file_kind_from_code (file_kind_code k) = Ok k.
Proof. by destruct k. Qed.
Lemma availability_roundtrip a : availability_from_code (availability_code a) = Ok a.
Proof. by destruct a. Qed.
Lemma volume_state_roundtrip s : volume_state_from_code (volume_state_code s) = Ok s.
Proof. by destruct s. Qed.
Lemma scan_mode_roundtrip m :
  observation_scan_mode_from_code (observation_scan_mode_code m) = Ok m.
Proof. by destruct m. Qed.

(** What a mutation touches, as the volumes of all the identities it names. *)
Definition mutation_keys (m : GraphMutation) : list FileKey :=
  match m with
  | UpsertObject o => [fo_object_key o]
  | UpsertLink l _ => fl_object_key l :: option_list (fl_parent_key l)
  | RemoveLink _ k | TombstoneObject k => [k]
  | _ => []
  end.

Lemma validate_mutation_volume_ok m v :
  validate_mutation_volume m v = Ok tt ↔
  Forall (λ k, fk_volume k = v) (mutation_keys m) ∧
  match m with
  | UpsertVolume d => vd_volume_id d = v
  | SetVolumeState v' _ | RequireReconciliation v' _ => v' = v
  | _ => True
  end.
Proof.
  unfold validate_mutation_volume, mbind, result_bind.
  destruct m as [d|v' s|o|l b|i k|k|v' r]; simpl; try (case_decide; naive_solver).
  all: rewrite ?Forall_cons, ?Forall_nil; try (case_decide; naive_solver).
  destruct (fl_parent_key l) as [p|]; simpl; rewrite ?Forall_cons, ?Forall_nil;
    repeat case_decide; naive_solver congruence.
Qed.
