(* ===== verification/GraphTables.v ===== *)
(** The SQLite database behind the filesystem graph ([crates/filesystem-graph/src/migrations.rs])
    as a record of finite maps, one per table, keyed by the table's primary key.

    Identifier columns hold identifiers (the schema checks that they are 16 bytes), boolean
    columns booleans, and enumerations their integer code.  What the store takes from other
    crates, JSON text, the SHA-256 digest and Unicode lower-casing, is the class [StoreEnv];
    [StoreLaws] states the documented behaviour that some theorems rely on. *)
From stdpp Require Import base strings numbers gmap list.
From S2P Require Import Prelude Models GraphDomain.

(** * Interfaces of the crates the store calls *)

(** The content of a document that is fingerprinted: everything but its version. *)
Definition CatalogContent : Type :=
  CatalogIdentity * string * string * option string * FileMetadata.

Class StoreEnv := {
  (** TEXT payloads produced by [serde_json::to_string]; the empty string is [json_empty]. *)
  Json : Type;
  json_empty : Json;
  mount_points_to_json : list string → Json;
  mutation_to_json : IndexMutation → Json;
  mutation_from_json : Json → option IndexMutation;
  document_to_json : CatalogDocument → Json;
  document_from_json : Json → option CatalogDocument;
  (** [Sha256::digest(serde_json::to_vec(content))]. *)
  Digest : Type;
  Digest_eq_dec :: EqDecision Digest;
  content_digest : CatalogContent → Digest;
  (** [str::to_lowercase]. *)
  to_lowercase : string → string }.

(** Documented behaviour: serde round trips, and a content digest without collisions. *)
Class StoreLaws (E : StoreEnv) := {
  mutation_json_roundtrip m : mutation_from_json (mutation_to_json m) = Some m;
  document_json_roundtrip d : document_from_json (document_to_json d) = Some d;
  content_digest_inj :: Inj (=) (=) content_digest }.

(** * Rows *)

Section tables.
Context `{E : StoreEnv}.

(** [graph_volumes]. *)
Record volume_row := VolumeRow {
  v_display_name : option string;
  v_mount_points_json : Json;
  v_filesystem : option string;
  v_removable : bool;
  v_local : bool;
  v_state : Z;
  v_reconciliation_reason : option Z;
  v_generation : Z }.

(** [graph_provider_checkpoints]. *)
Record checkpoint_row := CheckpointRow {
  c_provider_id : string;
  c_format_version : Z;
  c_opaque : list N }.

(** [graph_file_objects]. *)
Record object_row := ObjectRow {
  o_kind : Z;
  o_size : Z;
  o_created_at : option Z;
  o_modified_at : option Z;
  o_hidden : bool;
  o_availability : Z;
  o_tombstoned : bool;
  o_observation_generation : Z }.

(** [graph_file_links]. *)
Record link_row := LinkRow {
  l_object : FileKey;
  l_parent : option FileKey;
  l_name : string;
  l_traversal_boundary : bool;
  l_observation_generation : Z }.

(** [graph_path_refresh_jobs]. *)
Record path_job_row := PathJobRow {
  pj_root : FileKey;
  pj_enqueued_generation : Z;
  pj_state : Z;
  pj_cursor : option link_id }.

(** [graph_catalog_documents]. *)
Record document_row := DocumentRow {
  d_object : FileKey;
  d_file_link_id : link_id;
  d_version : Z;
  d_json : Json;
  d_path : option string;
  d_fingerprint : option Digest }.

(** [graph_projection_outbox]. *)
Record outbox_row := OutboxRow {
  x_document_id : document_id;
  x_document_version : Z;
  x_mutation_json : Json }.

(** [graph_projection_consumers]. *)
Record consumer_row := ConsumerRow {
  k_last_sequence : Z;
  k_index_generation : Z }.

(** [graph_volume_projection_refresh_jobs]. *)
Record volume_job_row := VolumeJobRow {
  vj_enqueued_generation : Z;
  vj_cursor : option link_id;
  vj_state : Z }.

(** [graph_volume_observation_sessions]. *)
Record session_row := SessionRow {
  s_scan_generation : Z;
  s_scan_mode : Z;
  s_phase : Z;
  s_final_provider_id : option string;
  s_final_format_version : option Z;
  s_final_checkpoint : option (list N) }.

(** The database; [outbox_seq] is the row [sqlite_sequence] keeps for the AUTOINCREMENT outbox. *)
Record db := Db {
  volumes : gmap volume_id volume_row;
  checkpoints : gmap volume_id checkpoint_row;
  objects : gmap FileKey object_row;
  links : gmap link_id link_row;
  path_jobs : gmap Z path_job_row;
  documents : gmap document_id document_row;
  outbox : gmap Z outbox_row;
  outbox_seq : option Z;
  consumers : gmap string consumer_row;
  volume_jobs : gmap volume_id volume_job_row;
  sessions : gmap volume_id session_row }.

Definition empty_db : db := Db ∅ ∅ ∅ ∅ ∅ ∅ ∅ None ∅ ∅ ∅.

Definition set_volumes (x : gmap volume_id volume_row) (g : db) : db :=
  Db x (checkpoints g) (objects g) (links g) (path_jobs g) (documents g) (outbox g)
     (outbox_seq g) (consumers g) (volume_jobs g) (sessions g).
Definition set_checkpoints (x : gmap volume_id checkpoint_row) (g : db) : db :=
  Db (volumes g) x (objects g) (links g) (path_jobs g) (documents g) (outbox g)
     (outbox_seq g) (consumers g) (volume_jobs g) (sessions g).
Definition set_objects (x : gmap FileKey object_row) (g : db) : db :=
  Db (volumes g) (checkpoints g) x (links g) (path_jobs g) (documents g) (outbox g)
     (outbox_seq g) (consumers g) (volume_jobs g) (sessions g).
Definition set_links (x : gmap link_id link_row) (g : db) : db :=
  Db (volumes g) (checkpoints g) (objects g) x (path_jobs g) (documents g) (outbox g)
     (outbox_seq g) (consumers g) (volume_jobs g) (sessions g).
Definition set_path_jobs (x : gmap Z path_job_row) (g : db) : db :=
  Db (volumes g) (checkpoints g) (objects g) (links g) x (documents g) (outbox g)
     (outbox_seq g) (consumers g) (volume_jobs g) (sessions g).
Definition set_documents (x : gmap document_id document_row) (g : db) : db :=
  Db (volumes g) (checkpoints g) (objects g) (links g) (path_jobs g) x (outbox g)
     (outbox_seq g) (consumers g) (volume_jobs g) (sessions g).
Definition set_outbox (x : gmap Z outbox_row) (seq : option Z) (g : db) : db :=
  Db (volumes g) (checkpoints g) (objects g) (links g) (path_jobs g) (documents g) x
     seq (consumers g) (volume_jobs g) (sessions g).
Definition set_consumers (x : gmap string consumer_row) (g : db) : db :=
  Db (volumes g) (checkpoints g) (objects g) (links g) (path_jobs g) (documents g) (outbox g)
     (outbox_seq g) x (volume_jobs g) (sessions g).
Definition set_volume_jobs (x : gmap volume_id volume_job_row) (g : db) : db :=
  Db (volumes g) (checkpoints g) (objects g) (links g) (path_jobs g) (documents g) (outbox g)
     (outbox_seq g) (consumers g) x (sessions g).
Definition set_sessions (x : gmap volume_id session_row) (g : db) : db :=
  Db (volumes g) (checkpoints g) (objects g) (links g) (path_jobs g) (documents g) (outbox g)
     (outbox_seq g) (consumers g) (volume_jobs g) x.

(** A statement or transaction on the database. *)
Definition GM (A : Type) : Type := M db GraphError A.

(** * Statements used in more than one place *)

(** A foreign key that must resolve. *)
Definition check_fk (c : Constraint) (holds : db → bool) : GM unit :=
  gets (λ g, ensure (holds g) (Sqlite (ConstraintViolation c))).

Definition volume_exists (v : volume_id) (g : db) : bool :=
  bool_decide (is_Some (volumes g !! v)).
Definition object_exists (k : FileKey) (g : db) : bool :=
  bool_decide (is_Some (objects g !! k)).

(** [UPDATE graph_volumes SET ... WHERE volume_id = ?], returning the number of rows changed. *)
Definition update_volume (v : volume_id) (f : volume_row → volume_row) : GM Z := λ g,
  match volumes g !! v with
  | Some r => Ok (1%Z, set_volumes (<[v := f r]> (volumes g)) g)
  | None => Ok (0%Z, g)
  end.

Definition set_generation (n : Z) (r : volume_row) : volume_row :=
  VolumeRow (v_display_name r) (v_mount_points_json r) (v_filesystem r) (v_removable r)
    (v_local r) (v_state r) (v_reconciliation_reason r) n.
Definition set_state (s : Z) (r : volume_row) : volume_row :=
  VolumeRow (v_display_name r) (v_mount_points_json r) (v_filesystem r) (v_removable r)
    (v_local r) s (v_reconciliation_reason r) (v_generation r).
Definition set_reason (reason : option Z) (r : volume_row) : volume_row :=
  VolumeRow (v_display_name r) (v_mount_points_json r) (v_filesystem r) (v_removable r)
    (v_local r) (v_state r) reason (v_generation r).

(** [UPDATE graph_file_objects SET tombstoned = ? WHERE ...]. *)
Definition set_tombstoned (b : bool) (r : object_row) : object_row :=
  ObjectRow (o_kind r) (o_size r) (o_created_at r) (o_modified_at r) (o_hidden r)
    (o_availability r) b (o_observation_generation r).
Definition update_tombstoned (k : FileKey) (b : bool) : GM Z := λ g,
  match objects g !! k with
  | Some r => Ok (1%Z, set_objects (<[k := set_tombstoned b r]> (objects g)) g)
  | None => Ok (0%Z, g)
  end.

(** Links whose object is [k], and how many there are. *)
Definition object_is (k : FileKey) (r : link_id * link_row) : bool := bool_decide (l_object r.2 = k).
Definition link_count (k : FileKey) (g : db) : Z := count_rows (object_is k) (links g).

(** [INSERT INTO graph_provider_checkpoints ... ON CONFLICT DO UPDATE]. *)
Definition put_checkpoint (v : volume_id) (row : checkpoint_row) : GM unit :=
  check_fk FkCheckpointVolume (volume_exists v) ;;
  modify (λ g, set_checkpoints (<[v := row]> (checkpoints g)) g).

(** [SELECT generation FROM graph_volumes WHERE volume_id = ?], with and without [.optional()]. *)
Definition generation_or_zero (v : volume_id) (g : db) : Z :=
  match volumes g !! v with Some r => v_generation r | None => 0 end.
Definition generation_row (v : volume_id) (g : db) : result GraphError Z :=
  match volumes g !! v with
  | Some r => Ok (v_generation r)
  | None => Err (Sqlite QueryReturnedNoRows)
  end.
End tables.

(** * Inversion of committing statements *)

Section statements.
Context `{E : StoreEnv}.

Lemma check_fk_Ok c (p : db → bool) g u g' :
  check_fk c p g = Ok (u, g') ↔ p g = true ∧ u = tt ∧ g' = g.
Proof. unfold check_fk, gets. destruct (p g); simpl; naive_solver. Qed.

Lemma volume_exists_true v g : volume_exists v g = true ↔ is_Some (volumes g !! v).
Proof. apply bool_decide_eq_true. Qed.

Lemma object_exists_true k g : object_exists k g = true ↔ is_Some (objects g !! k).
Proof. apply bool_decide_eq_true. Qed.

Lemma update_volume_Ok v f g n g' :
  update_volume v f g = Ok (n, g') ↔
  (∃ r, volumes g !! v = Some r ∧ n = 1%Z ∧ g' = set_volumes (<[v := f r]> (volumes g)) g) ∨
  (volumes g !! v = None ∧ n = 0%Z ∧ g' = g).
Proof. unfold update_volume. destruct (volumes g !! v); naive_solver. Qed.

Lemma update_tombstoned_Ok k b g n g' :
  update_tombstoned k b g = Ok (n, g') ↔
  (∃ r, objects g !! k = Some r ∧ n = 1%Z ∧
        g' = set_objects (<[k := set_tombstoned b r]> (objects g)) g) ∨
  (objects g !! k = None ∧ n = 0%Z ∧ g' = g).
Proof. unfold update_tombstoned. destruct (objects g !! k); naive_solver. Qed.

Lemma require_single_update_Ok n msg u : require_single_update n msg = Ok u ↔ n = 1%Z ∧ u = tt.
Proof. unfold require_single_update. case_decide; destruct u; naive_solver. Qed.
End statements.

(** [minv] with the foreign-key checks of the schema. *)
Ltac ginv1 :=
  match goal with
  | H : check_fk _ _ _ = Ok (_, _) |- _ =>
      apply check_fk_Ok in H; let H1 := fresh in let H2 := fresh in destruct H as [H [H1 H2]]; subst
  | H : volume_exists _ _ = true |- _ => apply volume_exists_true in H
  | H : object_exists _ _ = true |- _ => apply object_exists_true in H
  | H : require_single_update _ _ = Ok _ |- _ =>
      apply require_single_update_Ok in H; let H1 := fresh in destruct H as [H H1]; subst
  | _ => minv1
  end.
Ltac ginv := repeat ginv1.
