(* ===== verification/Fixtures.v ===== *)
(** Concrete data for witnesses: an implementation of [StoreEnv] that satisfies [StoreLaws], and
    identifiers of one small volume. *)
From Stdlib Require Import Ascii String.
From stdpp Require Import base strings numbers gmap list.
From S2P Require Import Prelude Models GraphDomain GraphTables.

(** JSON text as the value it denotes. *)
Inductive text :=
| TEmpty
| TMounts (l : list string)
| TMutation (m : IndexMutation)
| TDocument (d : CatalogDocument).

Definition ascii_lower (c : ascii) : ascii :=
  let n := N_of_ascii c in
  if ((65 <=? n) && (n <=? 90))%N then ascii_of_N (n + 32) else c.

Global Instance fixture_env : StoreEnv := {|
  Json := text;
  json_empty := TEmpty;
  mount_points_to_json := TMounts;
  mutation_to_json := TMutation;
  mutation_from_json t := match t with TMutation m => Some m | _ => None end;
  document_to_json := TDocument;
  document_from_json t := match t with TDocument d => Some d | _ => None end;
  Digest := CatalogContent;
  Digest_eq_dec := _;
  content_digest c := c;
  to_lowercase s := string_of_list_ascii (ascii_lower <$> list_ascii_of_string s) |}.

Global Instance fixture_laws : StoreLaws fixture_env.
Proof. split; [done|done|]. by intros c c' H. Qed.

Definition vol : volume_id := 1%N.
Definition key (n : N) : FileKey := MkFileKey vol n.

Definition descriptor : VolumeDescriptor :=
  MkVolumeDescriptor vol (Some "disk") ["C:"] (Some "ntfs") false true.

Definition checkpoint_at (n : N) : ProviderCheckpoint :=
  MkProviderCheckpoint "provider" 1 vol [n].

Definition dir_meta : FileMetadata := MkFileMetadata KDirectory 0 None None false AOnline.
Definition file_meta (size : Z) : FileMetadata := MkFileMetadata KFile size None None false AOnline.

Definition observe_dir (n : N) : FilesystemEvent :=
  ObjectObserved (MkFileObjectSnapshot (key n) dir_meta).
Definition observe_file (n : N) (size : Z) : FilesystemEvent :=
  ObjectObserved (MkFileObjectSnapshot (key n) (file_meta size)).
Definition observe_link (id : link_id) (n : N) (parent : option N) (name : string)
  : FilesystemEvent :=
  LinkObserved (MkFileLinkSnapshot id (key n) (key <$> parent) name).
