(* ===== verification/GraphPath.v ===== *)
(** Path resolution over the namespace links ([store.rs]: [resolve_path],
    [resolve_path_connection], [load_link], [load_only_link_for_object]).

    The walk is modelled literally; its specification is [parent_chain], the chain of unique
    parent links from a link up to a provider root. *)
From stdpp Require Import base strings numbers gmap list sorting.
From S2P Require Import Prelude Models GraphDomain GraphTables Fixtures.

Section path.
Context `{E : StoreEnv}.
Implicit Types (g : db) (id : link_id) (k : FileKey).

Record StoredLink := MkStoredLink {
  sl_file_link_id : link_id;
  sl_object_key : FileKey;
  sl_parent_key : option FileKey;
  sl_name : string;
  sl_traversal_boundary : bool }.

Definition stored_link_from_row id (r : link_row) : StoredLink :=
  MkStoredLink id (l_object r) (l_parent r) (l_name r) (l_traversal_boundary r).

Definition load_link g id : option StoredLink := stored_link_from_row id <$> links g !! id.

(** [ORDER BY file_link_id LIMIT 2]: none, exactly one, or ambiguous. *)
Definition load_only_link_for_object g k : result GraphError StoredLink :=
  match limit 2 (rows by_key_N (object_is k) (links g)) with
  | [] => Err (MissingParent k)
  | [(id, r)] => Ok (stored_link_from_row id r)
  | _ => Err (AmbiguousParent k)
  end.

(** The [loop] of [resolve_path_connection].  [remaining] is [depth_limit - components.len()],
    so running out of it is the code's depth check and not an artificial bound. *)
Fixpoint resolve_loop g (depth_limit remaining : nat) (current : StoredLink) (is_target : bool)
  (components : list string) (seen : gset FileKey) : result GraphError ResolvedPath :=
  match remaining with
  | O => Err (DepthLimit (Z.of_nat depth_limit))
  | S remaining =>
      if sl_traversal_boundary current && negb is_target
      then Err (TraversalBoundary (sl_file_link_id current))
      else
        let components := components ++ [sl_name current] in
        match sl_parent_key current with
        | None => Ok (MkResolvedPath (reverse components))
        | Some parent =>
            if decide (parent ∈ seen) then Err (ParentCycle parent)
            else
              next ← load_only_link_for_object g parent;
              resolve_loop g depth_limit remaining next false components ({[parent]} ∪ seen)
        end
  end.

Definition resolve_path_connection g id (depth_limit : nat) : result GraphError ResolvedPath :=
  if decide (depth_limit = 0) then Err (DepthLimit 0)
  else
    current ← ok_or (load_link g id) (LinkNotFound id);
    resolve_loop g depth_limit depth_limit current true [] ∅.

(** [FilesystemGraph::resolve_path]. *)
Definition resolve_path g id (depth_limit : nat) : result GraphError ResolvedPath :=
  if decide (depth_limit = 0) then Err (DepthLimit 0)
  else resolve_path_connection g id depth_limit.

(** * Specification *)

(** [l] is the only namespace link of object [k]. *)
Definition only_link g k (l : StoredLink) : Prop :=
  load_link g (sl_file_link_id l) = Some l ∧ sl_object_key l = k ∧
  ∀ id r, links g !! id = Some r → l_object r = k → id = sl_file_link_id l.

Inductive parent_chain g : StoredLink → list StoredLink → Prop :=
| chain_root l : sl_parent_key l = None → parent_chain g l [l]
| chain_step l p l' ls :
    sl_parent_key l = Some p → only_link g p l' → parent_chain g l' ls →
    parent_chain g l (l :: ls).

(** * Lemmas *)

Lemma load_link_Some g id l :
  load_link g id = Some l ↔ ∃ r, links g !! id = Some r ∧ l = stored_link_from_row id r.
Proof. unfold load_link. rewrite fmap_Some. naive_solver. Qed.

Lemma load_link_id g id l : load_link g id = Some l → sl_file_link_id l = id.
Proof. intros (r & _ & ->)%load_link_Some. done. Qed.

Lemma elem_of_object_rows g k id r :
  (id, r) ∈ rows by_key_N (object_is k) (links g) ↔ links g !! id = Some r ∧ l_object r = k.
Proof. rewrite elem_of_rows. unfold object_is. by rewrite bool_decide_eq_true. Qed.

Lemma load_only_link_Ok g k l : load_only_link_for_object g k = Ok l ↔ only_link g k l.
Proof.
  unfold load_only_link_for_object, only_link, limit.
  destruct (rows by_key_N (object_is k) (links g)) as [|[i r] [|[i' r'] t]] eqn:Hrows; simpl.
  - split; [done|]. intros ((r & Hr & ->)%load_link_Some & <- & _).
    assert ((sl_file_link_id l, r) ∈ rows by_key_N (object_is (l_object r)) (links g)) as Hin.
    { apply elem_of_object_rows. done. }
    simpl in Hrows, Hin. rewrite Hrows in Hin. by apply elem_of_nil in Hin.
  - assert (links g !! i = Some r ∧ l_object r = k) as [Hi Hk].
    { apply elem_of_object_rows. rewrite Hrows. left. }
    assert (∀ id r0, links g !! id = Some r0 → l_object r0 = k → id = i) as Huniq.
    { intros id r0 Hid Hr0. assert ((id, r0) ∈ [(i, r)]) as Hin
        by (rewrite <-Hrows; by apply elem_of_object_rows). set_solver. }
    split.
    + intros [= <-]. split; [by apply load_link_Some; eauto|]. done.
    + intros ((r0 & Hr0 & Heq)%load_link_Some & Hobj & _). f_equal.
      rewrite Heq in Hobj |- *. simpl in Hobj.
      assert (sl_file_link_id l = i) as Hid by eauto. rewrite Hid in *.
      rewrite Hi in Hr0. by injection Hr0 as ->.
  - split; [done|]. intros (_ & _ & Huniq).
    pose proof (rows_NoDup_keys by_key_N (object_is k) (links g)) as Hnd.
    rewrite Hrows in Hnd. csimpl in *. apply NoDup_cons in Hnd as [Hni _].
    assert (i = sl_file_link_id l).
    { apply (Huniq i r); apply (elem_of_object_rows g k i r); rewrite Hrows; left. }
    assert (i' = sl_file_link_id l).
    { apply (Huniq i' r'); apply (elem_of_object_rows g k i' r'); rewrite Hrows; right; left. }
    exfalso. apply Hni. subst. left.
Qed.

Lemma only_link_inj g k l l' : only_link g k l → only_link g k l' → l = l'.
Proof. intros H1%load_only_link_Ok H2%load_only_link_Ok. congruence. Qed.

Lemma parent_chain_inj g l c c' : parent_chain g l c → parent_chain g l c' → c = c'.
Proof.
  intros Hc. revert c'. induction Hc as [l Hn|l p l' ls Hp Ho Hc IH]; intros c' Hc'.
  - inversion Hc'; simplify_eq; done.
  - inversion Hc' as [|? p' l'' ls' Hp' Ho' Hc'']; simplify_eq.
    f_equal. apply IH. by rewrite (only_link_inj _ _ _ _ Ho Ho').
Qed.

(** Every link strictly below the head of a chain has a strictly shorter chain. *)
Lemma parent_chain_tail g l c l' :
  parent_chain g l c → l' ∈ tail c → ∃ c', parent_chain g l' c' ∧ length c' < length c.
Proof.
  intros Hc. revert l'. induction Hc as [l Hn|l p l1 ls Hp Ho Hc IH]; intros l' Hin; simpl in Hin.
  - by apply elem_of_nil in Hin.
  - inversion Hc as [? Hn|? p' l2 ls' Hp' Ho' Hc']; subst.
    + apply list_elem_of_singleton in Hin as ->. exists [l1]. simpl. split; [done|lia].
    + apply elem_of_cons in Hin as [->|Hin].
      * exists (l1 :: ls'). simpl. split; [done|lia].
      * destruct (IH l' Hin) as (c' & Hc'' & Hlt). exists c'. simpl in *. split; [done|lia].
Qed.

Lemma parent_chain_only g l c x :
  parent_chain g l c → x ∈ tail c → only_link g (sl_object_key x) x.
Proof.
  intros Hc. revert x. induction Hc as [l Hn|l p l1 ls Hp Ho Hc IH]; intros x Hx; simpl in Hx.
  - by apply elem_of_nil in Hx.
  - assert (only_link g (sl_object_key l1) l1) as Hl1.
    { destruct Ho as (? & Hobj & ?). by rewrite Hobj. }
    inversion Hc; subst; [by apply list_elem_of_singleton in Hx as ->|].
    apply elem_of_cons in Hx as [->|Hx]; [done|]. by apply IH.
Qed.

(** Two links of a chain below its head never name the same object. *)
Lemma parent_chain_acyclic g l c x :
  parent_chain g l c → only_link g (sl_object_key l) l → x ∈ tail c →
  sl_object_key x ≠ sl_object_key l.
Proof.
  intros Hc Ho Hx Heq. pose proof (parent_chain_only _ _ _ _ Hc Hx) as Hox. rewrite Heq in Hox.
  rewrite (only_link_inj _ _ _ _ Hox Ho) in Hx.
  destruct (parent_chain_tail _ _ _ _ Hc Hx) as (c' & Hc' & Hlt).
  rewrite (parent_chain_inj _ _ _ _ Hc Hc') in Hlt. lia.
Qed.

(** The walk from [l] with a chain [c] left to go: what it computes, whatever was seen before,
    as long as nothing on the chain was. *)
Lemma resolve_loop_chain g depth remaining l (is_target : bool) comps seen c :
  parent_chain g l c → length c ≤ remaining →
  Forall (λ l, sl_traversal_boundary l = false) (if is_target then tail c else c) →
  (∀ x, x ∈ tail c → sl_object_key x ∉ seen) →
  resolve_loop g depth remaining l is_target comps seen
  = Ok (MkResolvedPath (reverse (comps ++ (sl_name <$> c)))).
Proof.
  intros Hc. revert remaining is_target comps seen.
  induction Hc as [l Hn|l p l1 ls Hp Ho Hc IH]; intros rem tgt comps seen Hlen Hb Hseen;
    (destruct rem as [|rem]; [simpl in Hlen; lia|]); simpl.
  - assert (sl_traversal_boundary l && negb tgt = false) as ->.
    { destruct tgt; [apply andb_false_r|]. apply Forall_cons in Hb as [-> _]. done. }
    by rewrite Hn.
  - assert (sl_traversal_boundary l && negb tgt = false) as ->.
    { destruct tgt; [apply andb_false_r|]. apply Forall_cons in Hb as [-> _]. done. }
    assert (Forall (λ l, sl_traversal_boundary l = false) ls) as Hb'.
    { destruct tgt; [done|]. by apply Forall_cons in Hb as [_ ?]. }
    rewrite Hp. assert (l1 ∈ ls) as Hl1 by (inversion Hc; left).
    assert (sl_object_key l1 = p) as Hobj by apply Ho.
    rewrite decide_False by (rewrite <-Hobj; apply Hseen; simpl; done).
    apply load_only_link_Ok in Ho as Hload. unfold mbind, result_bind. rewrite Hload.
    rewrite IH; [|simpl in Hlen; lia|done|].
    + by rewrite <-app_assoc.
    + intros x Hx. assert (x ∈ ls) as Hxl by (destruct ls; simpl in *; [done|by right]).
      apply not_elem_of_union. split; [|by apply Hseen].
      rewrite elem_of_singleton, <-Hobj. eapply parent_chain_acyclic; [done| |done].
      destruct Ho as (? & Hk & ?). by rewrite Hk.
Qed.

Lemma resolve_loop_Ok g depth remaining l is_target comps seen path :
  resolve_loop g depth remaining l is_target comps seen = Ok path →
  ∃ c, parent_chain g l c ∧ length c ≤ remaining
    ∧ Forall (λ l, sl_traversal_boundary l = false) (if is_target then tail c else c)
    ∧ path = MkResolvedPath (reverse (comps ++ (sl_name <$> c))).
Proof.
  revert l is_target comps seen. induction remaining as [|rem IH]; intros l tgt comps seen; simpl;
    [done|].
  destruct (sl_traversal_boundary l && negb tgt) eqn:Hb; [done|].
  assert (∀ c, Forall (λ l, sl_traversal_boundary l = false) c →
    Forall (λ l, sl_traversal_boundary l = false) (if tgt then c else l :: c)) as Hhead.
  { intros c Hc. destruct tgt; [done|]. constructor; [|done]. by rewrite andb_true_r in Hb. }
  destruct (sl_parent_key l) as [p|] eqn:Hp.
  - case_decide; [done|]. unfold mbind, result_bind.
    destruct (load_only_link_for_object g p) as [l1|] eqn:Hl1; [|done].
    intros (c & Hc & Hlen & Hbs & ->)%IH. apply load_only_link_Ok in Hl1.
    exists (l :: c). split; [by econstructor|]. split; [simpl; lia|].
    split; [destruct tgt; by apply (Hhead c)|]. csimpl. by rewrite <-app_assoc.
  - intros [= <-]. exists [l]. split; [by constructor|]. split; [simpl; lia|].
    split; [|done]. destruct tgt; apply (Hhead []); constructor.
Qed.

Lemma resolve_loop_no_cycle g depth remaining l is_target comps seen c p :
  parent_chain g l c → (∀ x, x ∈ tail c → sl_object_key x ∉ seen) →
  resolve_loop g depth remaining l is_target comps seen ≠ Err (ParentCycle p).
Proof.
  intros Hc. revert remaining is_target comps seen.
  induction Hc as [l Hn|l q l1 ls Hq Ho Hc IH]; intros rem tgt comps seen Hseen;
    (destruct rem as [|rem]; [done|]); simpl; (destruct (_ && _); [done|]).
  - by rewrite Hn.
  - rewrite Hq. assert (sl_object_key l1 = q) as Hobj by apply Ho.
    assert (l1 ∈ ls) as Hl1 by (inversion Hc; left).
    rewrite decide_False by (rewrite <-Hobj; by apply Hseen).
    apply load_only_link_Ok in Ho as Hload. unfold mbind, result_bind. rewrite Hload.
    apply IH. intros x Hx. assert (x ∈ ls) as Hxl by (destruct ls; simpl in *; [done|by right]).
    apply not_elem_of_union. split; [|by apply Hseen].
    rewrite elem_of_singleton, <-Hobj. eapply parent_chain_acyclic; [done| |done].
    destruct Ho as (? & Hk & ?). by rewrite Hk.
Qed.

Lemma parent_chain_nonempty g l c : parent_chain g l c → 0 < length c.
Proof. inversion 1; simpl; lia. Qed.

(** Resolution reads the link table only. *)
Lemma load_only_link_links g g' k :
  links g = links g' → load_only_link_for_object g k = load_only_link_for_object g' k.
Proof. unfold load_only_link_for_object. by intros ->. Qed.

Lemma resolve_loop_links g g' depth remaining l is_target comps seen :
  links g = links g' →
  resolve_loop g depth remaining l is_target comps seen
  = resolve_loop g' depth remaining l is_target comps seen.
Proof.
  intros Hl. revert l is_target comps seen. induction remaining as [|rem IH]; intros; simpl; [done|].
  destruct (_ && _); [done|]. destruct (sl_parent_key l); [|done]. case_decide; [done|].
  rewrite (load_only_link_links g g') by done. unfold mbind, result_bind.
  destruct (load_only_link_for_object g' _); [|done]. apply IH.
Qed.

Lemma resolve_path_links g g' id depth :
  links g = links g' → resolve_path_connection g id depth = resolve_path_connection g' id depth.
Proof.
  intros Hl. unfold resolve_path_connection, load_link. rewrite Hl.
  case_decide; [done|]. unfold mbind, result_bind.
  destruct (ok_or _ _); [|done]. by apply resolve_loop_links.
Qed.

(** * Properties *)

(** C38 (path resolution is exact): resolving a link within a depth limit succeeds exactly when the
    walk over unique parent links reaches a provider root within the limit and crosses no
    traversal boundary above the link itself; the result is the names on that walk, root first.
    In particular the cycle check never rejects a link that has such a walk. *)
Theorem resolve_path_spec (g : db) (id : link_id) (n : nat) (path : ResolvedPath) :
  resolve_path g id n = Ok path ↔
  ∃ l c, load_link g id = Some l ∧ parent_chain g l c ∧ length c ≤ n
    ∧ Forall (λ l, sl_traversal_boundary l = false) (tail c)
    ∧ path = MkResolvedPath (reverse (sl_name <$> c)).
Proof.
  unfold resolve_path, resolve_path_connection, mbind, result_bind. split.
  - case_decide; [done|]. destruct (load_link g id) as [l|] eqn:Hl; simpl; [|done].
    intros (c & Hc & Hlen & Hb & ->)%resolve_loop_Ok. exists l, c. done.
  - intros (l & c & Hl & Hc & Hlen & Hb & ->). pose proof (parent_chain_nonempty _ _ _ Hc).
    rewrite !decide_False by lia. rewrite Hl. simpl.
    rewrite (resolve_loop_chain g n n l true [] ∅ c); try done.
Qed.

(** Cycles are real: a parent-cycle error means that the link has no walk to a root at all,
    whatever the depth limit. *)
Theorem resolve_path_cycle (g : db) (id : link_id) (n : nat) (k : FileKey) (l : StoredLink) :
  resolve_path g id n = Err (ParentCycle k) → load_link g id = Some l →
  ∀ c, ¬ parent_chain g l c.
Proof.
  unfold resolve_path, resolve_path_connection, mbind, result_bind. case_decide; [done|].
  intros Hres Hl c Hc. rewrite Hl in Hres. simpl in Hres. revert Hres.
  eapply resolve_loop_no_cycle; [done|]. intros x _. set_solver.
Qed.
End path.

(** Two directories that are each other's parent. *)
Definition cyclic_links : gmap link_id link_row :=
  {[ 10%N := LinkRow (key 1) (Some (key 2)) "a" false 1;
     20%N := LinkRow (key 2) (Some (key 1)) "b" false 1 ]}.

Lemma resolve_path_cycle_witness :
  let g := set_links cyclic_links empty_db in
  let l := MkStoredLink 10 (key 1) (Some (key 2)) "a" false in
  resolve_path g 10%N 512 = Err (ParentCycle (key 2)) ∧ ∀ c, ¬ parent_chain g l c.
Proof.
  split; [vm_compute; reflexivity|].
  apply (resolve_path_cycle (set_links cyclic_links empty_db) 10%N 512 (key 2)).
  - vm_compute. reflexivity.
  - vm_compute. reflexivity.
Defined.
