(* ===== verification/GraphMutate.v ===== *)
(** Graph mutations inside a transaction ([store.rs] from [apply_mutation] to [is_directory]):
    volume, object and link upserts, link removal, tombstones, and the two refresh queues.

    Each statement is a step of the transaction monad [GM]; a constraint of the schema that the
    statement can violate is an explicit check, so that a failing statement rolls back. *)
From stdpp Require Import base strings numbers gmap list sorting.
From S2P Require Import Prelude Models GraphDomain GraphTables.

Section mutate.
Context `{E : StoreEnv}.
Implicit Types (g : db) (id : link_id) (k : FileKey) (v : volume_id) (generation : Z).

(** ** Volumes and objects *)

Definition upsert_volume (d : VolumeDescriptor) : GM unit :=
  modify (λ g,
    let generation := generation_or_zero (vd_volume_id d) g in
    set_volumes (<[vd_volume_id d :=
      VolumeRow (vd_display_name d) (mount_points_to_json (vd_mount_points d)) (vd_filesystem d)
        (vd_removable d) (vd_local d) (volume_state_code VOnline) None generation]> (volumes g)) g).

Definition upsert_object (o : FileObjectSnapshot) generation : GM unit :=
  let m := fo_metadata o in
  size ← lift (ok_or (i64_try_from (m_size m)) (NumericRange "file size"));
  check_fk FkObjectVolume (volume_exists (fk_volume (fo_object_key o))) ;;
  modify (λ g, set_objects (<[fo_object_key o :=
    ObjectRow (file_kind_code (m_kind m)) size (m_created_at m) (m_modified_at m) (m_hidden m)
      (availability_code (m_availability m)) false generation]> (objects g)) g).

(** ** Refresh queues *)

(** A pending path job for the same directory object. *)
Definition pending_for k (r : Z * path_job_row) : bool :=
  bool_decide (pj_root r.2 = k ∧ pj_state r.2 = 0%Z).

(** [INSERT OR IGNORE INTO graph_path_refresh_jobs]: ignored when the unique index on pending
    jobs of a root already has one.  The new rowid is one past the largest. *)
Definition enqueue_refresh k generation : GM Z :=
  g ← get_state;
  if exists_row (pending_for k) (path_jobs g) then mret 0%Z
  else
    check_fk FkJobObject (object_exists k) ;;
    modify (λ g, set_path_jobs
      (<[(max_key (path_jobs g) + 1)%Z := PathJobRow k generation 0 None]> (path_jobs g)) g) ;;
    mret 1%Z.

(** [INSERT ... ON CONFLICT DO UPDATE]: a newer transition restarts the scan from the beginning. *)
Definition enqueue_volume_projection_refresh v generation : GM Z :=
  check_fk FkVolumeJob (volume_exists v) ;;
  modify (λ g, set_volume_jobs (<[v := VolumeJobRow generation None 0]> (volume_jobs g)) g) ;;
  mret 1%Z.

(** ** Links *)

Definition is_directory g k : result GraphError bool :=
  r ← ok_or (objects g !! k) (Invariant "directory check references unknown object");
  mret (bool_decide (o_kind r = file_kind_code KDirectory)).

Definition remove_link_internal id (expected : FileKey) generation (refresh_directory_paths : bool)
  : GM Z :=
  g ← get_state;
  match links g !! id with
  | None => mret 0%Z
  | Some row =>
      guard_m (bool_decide (l_object row = expected))
        (Invariant "link removal object identity does not match durable state") ;;
      directory ← gets (λ g, is_directory g expected);
      modify (λ g, set_links (delete id (links g)) g) ;;
      remaining ← gets (λ g, Ok (link_count expected g));
      (if decide (remaining = 0%Z) then update_tombstoned expected true else mret 0%Z) ;;
      if directory && refresh_directory_paths then enqueue_refresh expected generation
      else mret 0%Z
  end.

Definition remove_link id expected generation : GM Z :=
  remove_link_internal id expected generation true.

(** The scan generation of a volume whose session is still scanning. *)
Definition scan_cutoff g v : option Z :=
  match sessions g !! v with
  | Some s => if decide (s_phase s = 0%Z) then Some (s_scan_generation s) else None
  | None => None
  end.

(** Another link occupies the namespace slot of [link]: same parent and name, or for a root link
    same volume and name. *)
Definition same_slot (link : FileLinkSnapshot) (r : link_id * link_row) : bool :=
  bool_decide (r.1 ≠ fl_file_link_id link) &&
  bool_decide (l_name r.2 = fl_name link) &&
  match fl_parent_key link with
  | Some p => bool_decide (l_parent r.2 = Some p)
  | None => bool_decide (l_parent r.2 = None) &&
            bool_decide (fk_volume (l_object r.2) = fk_volume (fl_object_key link))
  end.

Definition stale_observation_link_conflicts g (link : FileLinkSnapshot) : list (link_id * FileKey) :=
  match scan_cutoff g (fk_volume (fl_object_key link)) with
  | None => []
  | Some cutoff =>
      let rebound :=
        match links g !! fl_file_link_id link with
        | Some row =>
            if decide (l_object row ≠ fl_object_key link ∧ (l_observation_generation row < cutoff)%Z)
            then [(fl_file_link_id link, l_object row)] else []
        | None => []
        end in
      let occupied :=
        match rows by_key_N (λ r, same_slot link r &&
                bool_decide (l_observation_generation r.2 < cutoff)%Z) (links g) with
        | (other, row) :: _ => [(other, l_object row)]
        | [] => []
        end in
      rebound ++ occupied
  end.

(** The two unique indexes on the namespace. *)
Definition slot_constraint (link : FileLinkSnapshot) : Constraint :=
  match fl_parent_key link with
  | Some _ => OneExactNamePerParent
  | None => OneExactRootNamePerVolume
  end.

Definition upsert_link (link : FileLinkSnapshot) (traversal_boundary : bool) generation : GM Z :=
  let id := fl_file_link_id link in
  let k := fl_object_key link in
  g ← get_state;
  guard_m (object_exists k g) (Invariant "link observation precedes its physical object") ;;
  for_each (stale_observation_link_conflicts g link)
    (λ c, remove_link_internal c.1 c.2 generation false ;; mret tt) ;;
  g ← get_state;
  refresh_jobs ← match links g !! id with
    | None => mret 0%Z
    | Some old =>
        guard_m (bool_decide (l_object old = k))
          (Invariant "a file-link ID cannot be rebound to another object") ;;
        (if bool_decide (l_parent old ≠ fl_parent_key link ∨ l_name old ≠ fl_name link) then
           directory ← gets (λ g, is_directory g k);
           if directory : bool then enqueue_refresh k generation else mret 0%Z
         else mret 0%Z)
    end;
  check_fk FkLinkObject (object_exists k) ;;
  check_fk (slot_constraint link) (λ g, negb (exists_row (same_slot link) (links g))) ;;
  modify (λ g, set_links (<[id := LinkRow k (fl_parent_key link) (fl_name link)
                                    traversal_boundary generation]> (links g)) g) ;;
  update_tombstoned k false ;;
  mret refresh_jobs.

Definition tombstone_object k : GM unit :=
  count ← gets (λ g, Ok (link_count k g));
  guard_m (bool_decide (count = 0%Z))
    (Invariant "object cannot be tombstoned while namespace links remain") ;;
  updated ← update_tombstoned k true;
  lift (require_single_update updated "object tombstone references an unknown object").

(** ** Dispatch *)

Definition apply_mutation (m : GraphMutation) generation : GM Z :=
  match m with
  | UpsertVolume d => upsert_volume d ;; mret 0%Z
  | SetVolumeState v s =>
      updated ← update_volume v (set_state (volume_state_code s));
      lift (require_single_update updated "volume state update references an unknown volume") ;;
      enqueue_volume_projection_refresh v generation
  | UpsertObject o => upsert_object o generation ;; mret 0%Z
  | UpsertLink l b => upsert_link l b generation
  | RemoveLink id k => remove_link id k generation
  | TombstoneObject k => tombstone_object k ;; mret 0%Z
  | RequireReconciliation v reason =>
      updated ← update_volume v (λ r,
        set_reason (Some (reconciliation_reason_code reason))
          (set_state (volume_state_code VNeedsReconciliation) r));
      lift (require_single_update updated "reconciliation references an unknown volume") ;;
      enqueue_volume_projection_refresh v generation
  end.

Definition collect_object_link_ids g k : gset link_id :=
  list_to_set (rows by_key_N (object_is k) (links g)).*1.

(** The links whose catalog documents a mutation can change, read before it is applied. *)
Definition collect_affected_links g (m : GraphMutation) : gset link_id :=
  match m with
  | UpsertLink link _ =>
      {[fl_file_link_id link]} ∪ list_to_set (stale_observation_link_conflicts g link).*1
  | RemoveLink id _ => {[id]}
  | UpsertObject o => collect_object_link_ids g (fo_object_key o)
  | TombstoneObject k =>
      collect_object_link_ids g k ∪
      list_to_set ((λ r, d_file_link_id r.2) <$>
        rows by_key_N (λ r, bool_decide (d_object r.2 = k)) (documents g))
  | SetVolumeState _ _ | RequireReconciliation _ _ | UpsertVolume _ => ∅
  end.

(** * What a committing run did *)

Definition link_row_of (link : FileLinkSnapshot) (boundary : bool) generation : link_row :=
  LinkRow (fl_object_key link) (fl_parent_key link) (fl_name link) boundary generation.

Lemma enqueue_refresh_Ok k generation g n g' :
  enqueue_refresh k generation g = Ok (n, g') →
  (g' = g ∧ n = 0%Z) ∨
  (n = 1%Z ∧ exists_row (pending_for k) (path_jobs g) = false ∧ is_Some (objects g !! k) ∧
   g' = set_path_jobs (<[(max_key (path_jobs g) + 1)%Z := PathJobRow k generation 0 None]>
          (path_jobs g)) g).
Proof.
  unfold enqueue_refresh. intros Hrun. ginv.
  destruct (exists_row _ _) eqn:Hex; ginv; [by left|]. by right.
Qed.

Lemma remove_link_internal_Ok id k generation refresh g n g' :
  remove_link_internal id k generation refresh g = Ok (n, g') →
  (links g !! id = None ∧ g' = g ∧ n = 0%Z) ∨
  ∃ row b g1 g2, links g !! id = Some row ∧ l_object row = k ∧ is_directory g k = Ok b
    ∧ g1 = set_links (delete id (links g)) g
    ∧ ((link_count k g1 = 0%Z ∧ ∃ m, update_tombstoned k true g1 = Ok (m, g2)) ∨
       (link_count k g1 ≠ 0%Z ∧ g2 = g1))
    ∧ (if b && refresh then enqueue_refresh k generation g2 = Ok (n, g') else n = 0%Z ∧ g' = g2).
Proof.
  unfold remove_link_internal. intros Hrun. ginv.
  destruct (links g !! id) as [row|] eqn:Hrow; ginv; [|by left].
  right. simplify_eq. do 4 eexists. split_and!; [done|done|done|done| |].
  - case_decide; ginv; [left|right]; eauto.
  - destruct (_ && refresh); ginv; done.
Qed.

Lemma upsert_link_Ok link boundary generation g n g' :
  upsert_link link boundary generation g = Ok (n, g') →
  ∃ g1 g2 m, is_Some (objects g !! fl_object_key link)
    ∧ for_each (stale_observation_link_conflicts g link)
        (λ c, remove_link_internal c.1 c.2 generation false ;; mret tt) g = Ok (tt, g1)
    ∧ (∀ old, links g1 !! fl_file_link_id link = Some old → l_object old = fl_object_key link)
    ∧ ((g2 = g1 ∧ n = 0%Z) ∨ enqueue_refresh (fl_object_key link) generation g1 = Ok (n, g2))
    ∧ is_Some (objects g2 !! fl_object_key link)
    ∧ exists_row (same_slot link) (links g2) = false
    ∧ update_tombstoned (fl_object_key link) false
        (set_links (<[fl_file_link_id link := link_row_of link boundary generation]> (links g2)) g2)
      = Ok (m, g').
Proof.
  unfold upsert_link. intros Hrun. ginv.
  match goal with H : for_each _ _ _ = Ok (?u, _) |- _ => destruct u end.
  match goal with H : negb _ = true |- _ => apply negb_true_iff in H end.
  do 3 eexists. split_and!; [done|done| | |done|done|done].
  - intros old Hold. rewrite Hold in *. by ginv.
  - destruct (links _ !! fl_file_link_id link) as [old|]; ginv; [|by left].
    case_bool_decide; ginv; [|by left]. case_match; ginv; [by right|by left].
Qed.

Lemma tombstone_object_Ok k g u g' :
  tombstone_object k g = Ok (u, g') → link_count k g = 0%Z ∧ update_tombstoned k true g = Ok (1%Z, g').
Proof.
  unfold tombstone_object. intros Hrun. ginv. simplify_eq. split; [done|].
  match goal with H : update_tombstoned _ _ _ = Ok (?x, _) |- _ => by replace x with 1%Z in H end.
Qed.
End mutate.
