(* ===== verification/GraphProjection.v ===== *)
(** The transactional catalog projection ([store.rs] from [sync_catalog_projection] to
    [catalog_content_fingerprint]): building a document from the graph, the compact desired row,
    the projection outbox, and reading desired documents back. *)
From Stdlib Require Import Ascii String.
From stdpp Require Import base strings numbers gmap list sorting.
From S2P Require Import Prelude Models GraphDomain GraphTables GraphPath.

Section projection.
Context `{E : StoreEnv}.
Implicit Types (g : db) (id : link_id) (k : FileKey) (v : volume_id) (generation : Z).

Inductive ProjectionOutboxMode := Durable | Rebuildable.

(** ** Building a document *)

(** [name.rsplit_once('.')], keeping the part after the last dot. *)
Fixpoint after_last_dot (l : list ascii) : option (list ascii) :=
  match l with
  | [] => None
  | c :: l =>
      match after_last_dot l with
      | Some e => Some e
      | None => if decide (c = "."%char) then Some l else None
      end
  end.

Definition extension_for_name (name : string) : option string :=
  match after_last_dot (list_ascii_of_string name) with
  | Some ((_ :: _) as e) => Some (to_lowercase (string_of_list_ascii e))
  | _ => None
  end.

Definition document_id_for_link id : document_id := id.

(** Columns of an object as metadata; the column numbers are those of the query. *)
Definition metadata_from_row (size_column : nat) (r : object_row) : result GraphError FileMetadata :=
  kind ← file_kind_from_code (o_kind r);
  size ← ok_or (u64_try_from (o_size r))
               (Sqlite (IntegralValueOutOfRange size_column (o_size r)));
  availability ← availability_from_code (o_availability r);
  mret (MkFileMetadata kind size (o_created_at r) (o_modified_at r) (o_hidden r) availability).

Definition load_object_metadata g k : result GraphError FileMetadata :=
  match objects g !! k with
  | Some r =>
      if o_tombstoned r then Err (Invariant "catalog link references a missing object")
      else metadata_from_row 1 r
  | None => Err (Invariant "catalog link references a missing object")
  end.

Definition volume_state_of g v : result GraphError VolumeState :=
  match volumes g !! v with
  | Some r => volume_state_from_code (v_state r)
  | None => Err (Invariant "catalog object references a missing volume")
  end.

(** The volume state overrides the object's own availability. *)
Definition effective_availability (s : VolumeState) (m : FileMetadata) : FileMetadata :=
  let availability :=
    match s with
    | VOnline => m_availability m
    | VOffline => AOffline
    | VNeedsReconciliation => AUnknown
    end in
  MkFileMetadata (m_kind m) (m_size m) (m_created_at m) (m_modified_at m) (m_hidden m) availability.

(** The depth limit [build_catalog_document] passes to the path walk. *)
Definition PATH_DEPTH : nat := 512.

Definition build_catalog_document g (link : StoredLink) (version : Z)
  : result GraphError CatalogDocument :=
  let k := sl_object_key link in
  metadata ← load_object_metadata g k;
  state ← volume_state_of g (fk_volume k);
  path ← resolve_path_connection g (sl_file_link_id link) PATH_DEPTH;
  mret (MkCatalogDocument
    (MkCatalogIdentity k (sl_file_link_id link) (document_id_for_link (sl_file_link_id link)))
    version (sl_name link) (ResolvedPath_display path) (extension_for_name (sl_name link))
    (effective_availability state metadata)).

(** ** Content comparison *)

Definition document_content (d : CatalogDocument) : CatalogContent :=
  (cd_identity d, cd_name d, cd_resolved_path d, cd_extension d, cd_metadata d).

Definition catalog_content_equal (a b : CatalogDocument) : bool :=
  bool_decide (cd_identity a = cd_identity b) && bool_decide (cd_name a = cd_name b) &&
  bool_decide (cd_resolved_path a = cd_resolved_path b) &&
  bool_decide (cd_extension a = cd_extension b) && bool_decide (cd_metadata a = cd_metadata b).

Definition catalog_content_fingerprint (d : CatalogDocument) : Digest :=
  content_digest (document_content d).

(** ** Outbox *)

(** The AUTOINCREMENT key: one past both the largest row and the high-water mark. *)
Definition next_sequence g : Z := (Z.max (max_key (outbox g)) (default 0 (outbox_seq g)) + 1)%Z.

Definition append_outbox (doc : document_id) (version : Z) (m : IndexMutation) : GM unit :=
  stored ← lift (ok_or (i64_try_from version) (NumericRange "document version"));
  g ← get_state;
  guard_m (bool_decide (next_sequence g ≤ i64_max)%Z) (Sqlite DatabaseFull) ;;
  modify (λ g, set_outbox
    (<[next_sequence g := OutboxRow doc stored (mutation_to_json m)]> (outbox g))
    (Some (next_sequence g)) g).

(** ** Desired state *)

Definition outbox_count (mode : ProjectionOutboxMode) : Z :=
  match mode with Durable => 1 | Rebuildable => 0 end.

Definition delete_catalog_projection (doc : document_id) (version : Z)
  (mode : ProjectionOutboxMode) : GM Z :=
  g ← get_state;
  match documents g !! doc with
  | None => mret 0%Z
  | Some _ =>
      match mode with
      | Durable => append_outbox doc version (Delete doc version)
      | Rebuildable => mret tt
      end ;;
      modify (λ g, set_documents (delete doc (documents g)) g) ;;
      mret (outbox_count mode)
  end.

(** Errors of [build_catalog_document] that make the link unsearchable rather than fail. *)
Definition unsearchable (e : GraphError) : bool :=
  match e with
  | MissingParent _ | AmbiguousParent _ | ParentCycle _ | TraversalBoundary _ | DepthLimit _ => true
  | _ => false
  end.

Definition content_unchanged (previous : option document_row) (document : CatalogDocument)
  : result GraphError bool :=
  match previous with
  | None => Ok false
  | Some r =>
      match d_fingerprint r with
      | Some f => Ok (bool_decide (f = catalog_content_fingerprint document))
      | None =>
          old ← ok_or (document_from_json (d_json r)) Serialization;
          mret (catalog_content_equal old document)
      end
  end.

Definition sync_catalog_projection id generation (mode : ProjectionOutboxMode) : GM Z :=
  let doc := document_id_for_link id in
  version ← lift (ok_or (u64_try_from generation) (NumericRange "document version"));
  g ← get_state;
  match load_link g id with
  | None => delete_catalog_projection doc version mode
  | Some link =>
      match build_catalog_document g link version with
      | Err e => if unsearchable e then delete_catalog_projection doc version mode else fail e
      | Ok document =>
          unchanged ← lift (content_unchanged (documents g !! doc) document);
          if unchanged : bool then mret 0%Z
          else
            check_fk FkDocumentObject (object_exists (sl_object_key link)) ;;
            modify (λ g, set_documents (<[doc :=
              DocumentRow (sl_object_key link) id generation json_empty
                (Some (cd_resolved_path document))
                (Some (catalog_content_fingerprint document))]> (documents g)) g) ;;
            match mode with
            | Durable => append_outbox doc version (Upsert document) ;; mret 1%Z
            | Rebuildable => mret 0%Z
            end
      end
  end.

(** ** Reading desired documents back *)

(** One row of the four-table join: the desired row, its link, its object, its volume. *)
Record StoredCatalogProjection := MkStoredCatalogProjection {
  sp_document_id : document_id;
  sp_row : document_row;
  sp_link : link_row;
  sp_object : object_row;
  sp_volume : volume_row }.

Definition join_document g (r : document_id * document_row) : option StoredCatalogProjection :=
  l ← links g !! d_file_link_id r.2;
  o ← objects g !! d_object r.2;
  v ← volumes g !! fk_volume (d_object r.2);
  Some (MkStoredCatalogProjection r.1 r.2 l o v).

(** [stored_catalog_projection_from_row] followed by [StoredCatalogProjection::into_document]. *)
Definition into_document (p : StoredCatalogProjection) : result GraphError CatalogDocument :=
  version ← ok_or (u64_try_from (d_version (sp_row p)))
                  (Sqlite (IntegralValueOutOfRange 4 (d_version (sp_row p))));
  metadata ← metadata_from_row 9 (sp_object p);
  state ← volume_state_from_code (v_state (sp_volume p));
  match d_path (sp_row p) with
  | None => ok_or (document_from_json (d_json (sp_row p))) Serialization
  | Some path =>
      mret (MkCatalogDocument
        (MkCatalogIdentity (d_object (sp_row p)) (d_file_link_id (sp_row p)) (sp_document_id p))
        version (l_name (sp_link p)) path (extension_for_name (l_name (sp_link p)))
        (effective_availability state metadata))
  end.

Fixpoint into_documents (ps : list StoredCatalogProjection)
  : result GraphError (list CatalogDocument) :=
  match ps with
  | [] => Ok []
  | p :: ps => d ← into_document p; ds ← into_documents ps; mret (d :: ds)
  end.

(** [JOIN ... WHERE d.document_id > after ORDER BY d.document_id]. *)
Definition joined_after g (after : option document_id) : list StoredCatalogProjection :=
  omap (join_document g)
    (rows by_key_N (λ r, match after with
                         | Some cursor => bool_decide (cursor < r.1)%N
                         | None => true
                         end) (documents g)).

Definition desired_catalog_documents g : result GraphError (list CatalogDocument) :=
  into_documents (joined_after g None).

Definition desired_catalog_page g (after : option document_id) (lim : Z)
  : result GraphError (list CatalogDocument) :=
  into_documents (limit lim (joined_after g after)).

Definition desired_catalog_document g (doc : document_id)
  : result GraphError (option CatalogDocument) :=
  match (r ← documents g !! doc; join_document g (doc, r)) with
  | None => Ok None
  | Some p => d ← into_document p; mret (Some d)
  end.

(** [ORDER BY file_link_id] over desired rows. *)
Definition by_doc_link : relation (document_id * document_row) := λ x y,
  (d_file_link_id x.2 ≤ d_file_link_id y.2)%N.
Global Instance by_doc_link_dec : RelDecision by_doc_link.
Proof. intros x y. unfold by_doc_link. apply _. Defined.
Global Instance by_doc_link_total : Total by_doc_link.
Proof. intros x y. unfold by_doc_link. lia. Qed.
Global Instance by_doc_link_trans : Transitive by_doc_link.
Proof. intros x y z. unfold by_doc_link. lia. Qed.

Definition desired_catalog_identities g v : list (link_id * FileKey) :=
  (λ r, (d_file_link_id r.2, d_object r.2)) <$>
    rows by_doc_link (λ r, bool_decide (fk_volume (d_object r.2) = v)) (documents g).

(** * What a committing run did *)

(** The document the graph asks for at a link: none when the link is gone or unsearchable. *)
Definition desired_document g id (version : Z) : option CatalogDocument :=
  link ← load_link g id;
  match build_catalog_document g link version with Ok d => Some d | Err _ => None end.

(** Its content, which does not depend on the version. *)
Definition wanted g id : option CatalogContent := document_content <$> desired_document g id 0.

(** The compact row that is stored for a document. *)
Definition compact_document_row (d : CatalogDocument) generation : document_row :=
  DocumentRow (ci_object_key (cd_identity d)) (ci_file_link_id (cd_identity d)) generation json_empty
    (Some (cd_resolved_path d)) (Some (catalog_content_fingerprint d)).

(** The outbox after one projection change, which only the durable mode records. *)
Definition emitted (mode : ProjectionOutboxMode) (doc : document_id) (version : Z)
  (m : IndexMutation) g : db :=
  match mode with
  | Durable => set_outbox (<[next_sequence g := OutboxRow doc version (mutation_to_json m)]> (outbox g))
                 (Some (next_sequence g)) g
  | Rebuildable => g
  end.

Definition emits (mode : ProjectionOutboxMode) (version : Z) g : Prop :=
  mode = Durable → in_i64 version ∧ (next_sequence g ≤ i64_max)%Z.

Lemma i64_try_from_Some z y : i64_try_from z = Some y ↔ y = z ∧ in_i64 z.
Proof. unfold i64_try_from. case_decide; naive_solver. Qed.
Lemma u64_try_from_Some z y : u64_try_from z = Some y ↔ y = z ∧ in_u64 z.
Proof. unfold u64_try_from. case_decide; naive_solver. Qed.

Lemma append_outbox_Ok doc version m g u g' :
  append_outbox doc version m g = Ok (u, g') →
  emits Durable version g ∧ g' = emitted Durable doc version m g.
Proof.
  unfold append_outbox. intros Hrun. ginv.
  match goal with H : i64_try_from _ = Some _ |- _ => apply i64_try_from_Some in H as [-> ?] end.
  by split.
Qed.

Lemma delete_catalog_projection_Ok doc version mode g n g' :
  delete_catalog_projection doc version mode g = Ok (n, g') →
  (documents g !! doc = None ∧ n = 0%Z ∧ g' = g) ∨
  (is_Some (documents g !! doc) ∧ n = outbox_count mode ∧ emits mode version g ∧
   g' = set_documents (delete doc (documents g)) (emitted mode doc version (Delete doc version) g)).
Proof.
  unfold delete_catalog_projection. intros Hrun. ginv.
  destruct (documents g !! doc) as [r|] eqn:Hd; ginv; [|by left].
  right. split; [done|]. split; [done|]. destruct mode; ginv.
  - match goal with H : append_outbox _ _ _ _ = _ |- _ => apply append_outbox_Ok in H as [? ->] end.
    by split.
  - by split.
Qed.

Lemma build_version g link version d :
  build_catalog_document g link 0 = Ok d →
  ∃ d', build_catalog_document g link version = Ok d' ∧ document_content d' = document_content d.
Proof.
  unfold build_catalog_document. intros Hb. minv.
  rewrite Hres, Hres0, Hres1. simpl in *. unfold mret, result_ret in *. simplify_eq.
  eexists. split; [done|]. done.
Qed.
Lemma build_version_back g link version d :
  build_catalog_document g link version = Ok d →
  ∃ d', build_catalog_document g link 0 = Ok d' ∧ document_content d' = document_content d.
Proof.
  unfold build_catalog_document. intros Hb. minv.
  rewrite Hres, Hres0, Hres1. simpl in *. unfold mret, result_ret in *. simplify_eq.
  eexists. split; [done|]. done.
Qed.

Lemma wanted_version g id version : document_content <$> desired_document g id version = wanted g id.
Proof.
  unfold wanted, desired_document. destruct (load_link g id) as [link|]; [|done]. simpl.
  destruct (build_catalog_document g link version) as [d|e] eqn:Hb.
  - destruct (build_version_back _ _ _ _ Hb) as (d' & -> & Heq). simpl. by rewrite Heq.
  - destruct (build_catalog_document g link 0) as [d|e'] eqn:Hb0; [|done].
    destruct (build_version _ _ version _ Hb0) as (d' & Hb' & _). congruence.
Qed.

(** Identity, version and stored columns of a built document. *)
Lemma desired_document_Some g id version d :
  desired_document g id version = Some d →
  ∃ l, links g !! id = Some l ∧ cd_identity d = MkCatalogIdentity (l_object l) id id
    ∧ cd_document_version d = version ∧ is_Some (objects g !! l_object l).
Proof.
  unfold desired_document, load_link. destruct (links g !! id) as [l|]; simpl; [|done].
  destruct (build_catalog_document g _ version) as [d'|] eqn:Hb; [|done]. intros [= <-].
  unfold build_catalog_document in Hb. minv. unfold load_object_metadata in Hres. simpl in *.
  unfold mret, result_ret in Hb. simplify_eq. exists l. do 3 (split; [done|]).
  by destruct (objects g !! l_object l).
Qed.

(** The four outcomes of synchronising one link. *)
Inductive sync_outcome g id generation (mode : ProjectionOutboxMode) : Z → db → Prop :=
| sync_absent :
    desired_document g id generation = None → documents g !! id = None →
    sync_outcome g id generation mode 0 g
| sync_deleted r :
    desired_document g id generation = None → documents g !! id = Some r → emits mode generation g →
    sync_outcome g id generation mode (outbox_count mode)
      (set_documents (delete id (documents g)) (emitted mode id generation (Delete id generation) g))
| sync_unchanged d r :
    desired_document g id generation = Some d → documents g !! id = Some r →
    content_unchanged (Some r) d = Ok true →
    sync_outcome g id generation mode 0 g
| sync_upserted d :
    desired_document g id generation = Some d →
    content_unchanged (documents g !! id) d = Ok false → emits mode generation g →
    sync_outcome g id generation mode (outbox_count mode)
      (set_documents (<[id := compact_document_row d generation]> (documents g))
        (emitted mode id generation (Upsert d) g)).

Lemma sync_catalog_projection_Ok id generation mode g n g' :
  sync_catalog_projection id generation mode g = Ok (n, g') →
  in_u64 generation ∧ sync_outcome g id generation mode n g'.
Proof.
  unfold sync_catalog_projection. intros Hrun. ginv.
  match goal with H : u64_try_from _ = Some _ |- _ => apply u64_try_from_Some in H as [-> Hu] end.
  split; [exact Hu|].
  assert (∀ g', desired_document g id generation = None →
    delete_catalog_projection (document_id_for_link id) generation mode g = Ok (n, g') →
    sync_outcome g id generation mode n g') as Hdel.
  { intros g0 Hno [(Hd & -> & ->)|([r Hd] & -> & Hem & ->)]%delete_catalog_projection_Ok;
      [by apply sync_absent|by eapply sync_deleted]. }
  assert (desired_document g id generation = link ← load_link g id;
    match build_catalog_document g link generation with Ok d => Some d | Err _ => None end)
    as Hdes by done.
  destruct (load_link g id) as [link|] eqn:Hlink; simpl in Hdes; [|by apply Hdel].
  destruct (build_catalog_document g link generation) as [d|e] eqn:Hb.
  2:{ destruct (unsearchable e); ginv; by apply Hdel. }
  ginv. change (document_id_for_link id) with id in *.
  match goal with H : content_unchanged _ _ = Ok ?b |- _ => destruct b end; ginv.
  - destruct (documents g !! id) as [r|] eqn:Hd; [|done]. by eapply sync_unchanged.
  - assert (DocumentRow (sl_object_key link) id generation json_empty
      (Some (cd_resolved_path d)) (Some (catalog_content_fingerprint d))
      = compact_document_row d generation) as Hrow.
    { destruct (desired_document_Some _ _ _ _ Hdes) as (l & Hl & Hid & _).
      unfold load_link in Hlink. rewrite Hl in Hlink. simplify_eq/=.
      unfold compact_document_row. by rewrite Hid. }
    rewrite Hrow in *. destruct mode; ginv.
    + match goal with H : append_outbox _ _ _ _ = _ |- _ => apply append_outbox_Ok in H as [Hem ->] end.
      by apply (sync_upserted g id generation Durable).
    + by apply (sync_upserted g id generation Rebuildable).
Qed.
End projection.
