(* ===== verification/GraphStore.v ===== *)
(** Batch ingestion and full-volume observation ([store.rs]: [apply_batch], [ingest_snapshot],
    [begin_observation_scan] .. [finalize_observation_scan] and the sweeps they use).

    Every public operation is one transaction: it either commits the value and database it
    returns or, on an error, nothing. *)
From stdpp Require Import base strings numbers gmap list sorting.
From S2P Require Import Prelude Models GraphDomain GraphTables GraphPath GraphMutate.
From S2P Require Import GraphProjection.

Section store.
Context `{E : StoreEnv}.
Implicit Types (g : db) (id : link_id) (k : FileKey) (v : volume_id) (generation : Z).

(** ** Batches *)

Definition projection_consumers_exist g : bool := bool_decide (consumers g ≠ ∅).

(** [FilesystemGraph::has_projection_consumers]. *)
Definition has_projection_consumers g : bool := projection_consumers_exist g.

(** [u64::try_from(generation)] on the summary of a committed batch cannot fail, because the schema
    keeps generations non-negative; the summary carries the generation itself.

    The mutation loop: affected links are read before each mutation is applied. *)
Fixpoint apply_mutations (ms : list GraphMutation) generation (affected : gset link_id)
  : GM (Z * gset link_id) :=
  match ms with
  | [] => mret (0%Z, affected)
  | m :: ms =>
      g ← get_state;
      jobs ← apply_mutation m generation;
      rest ← apply_mutations ms generation (affected ∪ collect_affected_links g m);
      mret ((jobs + rest.1)%Z, rest.2)
  end.

Definition apply_batch_with_outbox_mode (b : GraphMutationBatch) (mode : ProjectionOutboxMode)
  : GM ApplySummary :=
  let v := gb_volume_id b in
  let cp := gb_checkpoint b in
  lift (batch_validate b) ;;
  g ← get_state;
  guard_m match mode with Rebuildable => negb (projection_consumers_exist g) | Durable => true end
    (Invariant "rebuildable graph batch requires zero projection consumers") ;;
  generation ← lift (ok_or (i64_checked_add (generation_or_zero v g) 1)
                           (NumericRange "graph generation"));
  applied ← apply_mutations (gb_mutations b) generation ∅;
  appended ← sum_each (btree_elements applied.2)
               (λ id, sync_catalog_projection id generation mode);
  updated ← update_volume v (set_generation generation);
  guard_m (bool_decide (updated = 1%Z))
    (Invariant "batch must upsert its volume before graph observations") ;;
  put_checkpoint v (CheckpointRow (pc_provider_id cp) (pc_format_version cp) (pc_opaque cp)) ;;
  mret (MkApplySummary (Z.of_nat (length (gb_mutations b))) generation applied.1 appended).

Definition apply_batch (b : GraphMutationBatch) : GM ApplySummary :=
  apply_batch_with_outbox_mode b Durable.

Definition apply_rebuildable_batch (b : GraphMutationBatch) : GM ApplySummary :=
  apply_batch_with_outbox_mode b Rebuildable.

Definition ingest_snapshot (d : VolumeDescriptor) (checkpoint : ProviderCheckpoint)
  (events : list FilesystemEvent) : GM ApplySummary :=
  apply_batch (MkGraphMutationBatch (vd_volume_id d) checkpoint
    (UpsertVolume d :: (GraphMutation_from_event <$> events))).

(** [FilesystemGraph::checkpoint]. *)
Definition checkpoint g v : option ProviderCheckpoint :=
  (λ r, MkProviderCheckpoint (c_provider_id r) (c_format_version r) v (c_opaque r))
    <$> checkpoints g !! v.

(** [FilesystemGraph::volume_state]. *)
Definition volume_state g v : result GraphError (option VolumeState) :=
  match volumes g !! v with
  | Some r => s ← volume_state_from_code (v_state r); mret (Some s)
  | None => Ok None
  end.

(** ** Observation sessions *)

Definition observation_session g v : result GraphError (option ObservationSession) :=
  match sessions g !! v with
  | None => Ok None
  | Some r =>
      generation ← ok_or (u64_try_from (s_scan_generation r)) (Sqlite (FromSqlConversionFailure 0));
      mode ← observation_scan_mode_from_code (s_scan_mode r);
      phase ← observation_scan_phase_from_code (s_phase r);
      mret (Some (MkObservationSession v generation mode phase))
  end.

Definition begin_observation_scan (d : VolumeDescriptor) (mode : ObservationScanMode)
  (reason : ReconciliationReason) : GM ObservationSession :=
  let v := vd_volume_id d in
  g ← get_state;
  scan_generation ← lift (ok_or (i64_checked_add (generation_or_zero v g) 1)
                                (NumericRange "observation scan generation"));
  upsert_volume d ;;
  update_volume v (λ r, set_generation scan_generation
    (set_reason (Some (reconciliation_reason_code reason))
      (set_state (volume_state_code VNeedsReconciliation) r))) ;;
  enqueue_volume_projection_refresh v scan_generation ;;
  check_fk FkSessionVolume (volume_exists v) ;;
  modify (λ g, set_sessions (<[v := SessionRow scan_generation (observation_scan_mode_code mode) 0
                                      None None None]> (sessions g)) g) ;;
  mret (MkObservationSession v scan_generation mode Scanning).

(** [u64::to_be_bytes]. *)
Definition u64_be_bytes (n : Z) : list N :=
  (λ i, Z.to_N ((n / 2 ^ (8 * Z.of_nat (7 - i))) mod 256)) <$> seq 0 8.

Definition observation_scan_checkpoint (s : ObservationSession) : ProviderCheckpoint :=
  MkProviderCheckpoint "localsearch-observation-scan" 1 (os_volume_id s)
    (u64_be_bytes (os_scan_generation s)).

Definition apply_observation_scan_page v (events : list FilesystemEvent) : GM ApplySummary :=
  found ← gets (λ g, observation_session g v);
  session ← lift (ok_or found (Invariant "observation scan page has no durable session"));
  guard_m (bool_decide (os_phase session = Scanning))
    (Invariant "observation scan page arrived after finalization started") ;;
  match events with
  | [] => mret (MkApplySummary 0 (os_scan_generation session) 0 0)
  | _ => apply_batch (from_events v (observation_scan_checkpoint session) events)
  end.

Definition stage_session (cp : ProviderCheckpoint) (r : session_row) : session_row :=
  SessionRow (s_scan_generation r) (s_scan_mode r) 1 (Some (pc_provider_id cp))
    (Some (pc_format_version cp)) (Some (pc_opaque cp)).

Definition stage_observation_checkpoint v (cp : ProviderCheckpoint) : GM unit :=
  guard_m (bool_decide (pc_volume_id cp = v))
    (InvalidBatch "observation checkpoint crosses volumes") ;;
  g ← get_state;
  changed ← match sessions g !! v with
    | Some r =>
        if decide (s_phase r = 0%Z) then
          modify (λ g, set_sessions (<[v := stage_session cp r]> (sessions g)) g) ;; mret 1%Z
        else mret 0%Z
    | None => mret 0%Z
    end;
  lift (require_single_update changed "observation checkpoint has no scanning session").

(** ** Finalization *)

(** [ORDER BY observation_generation, file_link_id LIMIT]. *)
Definition stale_links g v (scan_generation : Z) : list (link_id * link_row) :=
  rows (by_gen_key l_observation_generation id)
    (λ r, bool_decide (fk_volume (l_object r.2) = v ∧
                       (l_observation_generation r.2 < scan_generation)%Z)) (links g).

Definition set_phase (p : Z) (r : session_row) : session_row :=
  SessionRow (s_scan_generation r) (s_scan_mode r) p (s_final_provider_id r)
    (s_final_format_version r) (s_final_checkpoint r).

Definition sweep_stale_observation_links v (scan_generation generation maximum_rows : Z) : GM Z :=
  g ← get_state;
  let page := limit maximum_rows (stale_links g v scan_generation) in
  for_each page (λ r,
    remove_link_internal r.1 (MkFileKey v (fk_file (l_object r.2))) generation false ;;
    sync_catalog_projection r.1 generation Durable ;; mret tt) ;;
  (if decide (Z.of_nat (length page) < maximum_rows)%Z
   then modify (λ g, set_sessions (alter (set_phase 2) v (sessions g)) g)
   else mret tt) ;;
  mret (Z.of_nat (length page)).

Definition stale_objects g v (scan_generation : Z) : list (FileKey * object_row) :=
  rows (by_gen_key o_observation_generation fk_file)
    (λ r, bool_decide (fk_volume r.1 = v ∧ o_tombstoned r.2 = false ∧
                       (o_observation_generation r.2 < scan_generation)%Z) &&
          negb (exists_row (object_is r.1) (links g))) (objects g).

Definition sweep_stale_observation_objects v (scan_generation maximum_rows : Z) : GM (Z * bool) :=
  g ← get_state;
  let page := limit maximum_rows (stale_objects g v scan_generation) in
  for_each page (λ r, update_tombstoned r.1 true ;; mret tt) ;;
  mret (Z.of_nat (length page), bool_decide (Z.of_nat (length page) < maximum_rows)%Z).

Definition activate_observation_checkpoint v generation (provider_id : option string)
  (format_version : option Z) (opaque : option (list N)) : GM unit :=
  provider ← lift (ok_or provider_id (Invariant "final observation provider is missing"));
  version ← lift (ok_or format_version (Invariant "final observation format is missing"));
  payload ← lift (ok_or opaque (Invariant "final observation checkpoint is missing"));
  put_checkpoint v (CheckpointRow provider version payload) ;;
  update_volume v (λ r, set_generation generation
    (set_reason None (set_state (volume_state_code VOnline) r))) ;;
  enqueue_volume_projection_refresh v generation ;;
  modify (λ g, set_sessions (delete v (sessions g)) g).

Definition finalize_observation_scan v (maximum_rows : Z) : GM ObservationFinalizeSummary :=
  if decide (maximum_rows = 0%Z) then mret ObservationFinalizeSummary_default
  else
    g ← get_state;
    session ← lift (ok_or (sessions g !! v)
                          (Invariant "observation finalization has no durable session"));
    guard_m (bool_decide (s_phase session ≠ 0%Z))
      (Invariant "observation finalization started before provider checkpoint") ;;
    current ← gets (generation_row v);
    generation ← lift (ok_or (i64_checked_add current 1)
                             (NumericRange "observation finalization generation"));
    summary ←
      (if decide (s_phase session = 1%Z) then
         removed ← sweep_stale_observation_links v (s_scan_generation session) generation maximum_rows;
         mret (MkObservationFinalizeSummary removed 0 false)
       else
         swept ← sweep_stale_observation_objects v (s_scan_generation session) maximum_rows;
         if swept.2 : bool then
           activate_observation_checkpoint v generation (s_final_provider_id session)
             (s_final_format_version session) (s_final_checkpoint session) ;;
           mret (MkObservationFinalizeSummary 0 swept.1 true)
         else mret (MkObservationFinalizeSummary 0 swept.1 false));
    (if of_completed summary then mret 0%Z else update_volume v (set_generation generation)) ;;
    mret summary.

(** * What a committing run did *)

Definition checkpoint_row_of (cp : ProviderCheckpoint) : checkpoint_row :=
  CheckpointRow (pc_provider_id cp) (pc_format_version cp) (pc_opaque cp).

(** The last two statements of a batch: the volume's new generation and its checkpoint. *)
Definition advance_volume v generation (row : volume_row) (cp : checkpoint_row) g : db :=
  set_checkpoints (<[v := cp]> (checkpoints g))
    (set_volumes (<[v := set_generation generation row]> (volumes g)) g).

Lemma put_checkpoint_Ok v row g u g' :
  put_checkpoint v row g = Ok (u, g') →
  is_Some (volumes g !! v) ∧ g' = set_checkpoints (<[v := row]> (checkpoints g)) g.
Proof. unfold put_checkpoint. intros Hrun. by ginv. Qed.

Lemma i64_checked_add_Some a b y : i64_checked_add a b = Some y ↔ y = (a + b)%Z ∧ in_i64 (a + b).
Proof. unfold i64_checked_add. case_decide; naive_solver. Qed.

Lemma apply_batch_Ok b mode g sum g' :
  apply_batch_with_outbox_mode b mode g = Ok (sum, g') →
  let v := gb_volume_id b in
  let generation := (generation_or_zero v g + 1)%Z in
  ∃ jobs A g1 g2 n row,
    batch_validate b = Ok tt ∧ (mode = Rebuildable → consumers g = ∅) ∧ in_i64 generation
    ∧ apply_mutations (gb_mutations b) generation ∅ g = Ok ((jobs, A), g1)
    ∧ sum_each (btree_elements A) (λ id, sync_catalog_projection id generation mode) g1 = Ok (n, g2)
    ∧ volumes g2 !! v = Some row
    ∧ g' = advance_volume v generation row (checkpoint_row_of (gb_checkpoint b)) g2
    ∧ sum = MkApplySummary (Z.of_nat (length (gb_mutations b))) generation jobs n.
Proof.
  unfold apply_batch_with_outbox_mode. intros Hrun. ginv.
  match goal with H : i64_checked_add _ _ = Some _ |- _ =>
    apply i64_checked_add_Some in H as [-> Hi] end.
  match goal with H : update_volume _ _ _ = _ |- _ =>
    apply update_volume_Ok in H as [(row & Hrow & -> & ->)|(_ & -> & _)]; [|done] end.
  match goal with H : put_checkpoint _ _ _ = _ |- _ => apply put_checkpoint_Ok in H as [_ ->] end.
  match goal with H : apply_mutations _ _ _ _ = Ok (?r, _) |- _ => destruct r as [jobs A] end.
  match goal with H : batch_validate _ = Ok ?u |- _ => destruct u end.
  do 6 eexists. split_and!; try done. intros ->. simpl in *.
  match goal with H : negb (projection_consumers_exist _) = true |- _ =>
    apply negb_true_iff, bool_decide_eq_false in H; by apply dec_stable in H end.
Qed.
End store.
