(* ===== verification/GraphOutbox.v ===== *)
(** Projection consumers and outbox maintenance ([store.rs]: [read_outbox] ..
    [compact_legacy_desired_payloads_bounded]). *)
From stdpp Require Import base strings numbers gmap list sorting.
From S2P Require Import Prelude Models GraphDomain GraphTables GraphProjection GraphStore.

Section outbox.
Context `{E : StoreEnv}.
Implicit Types (g : db) (consumer : string).

(** ** Reading *)

Definition decode_outbox_row (r : Z * outbox_row) : result GraphError SequencedMutation :=
  sequence ← ok_or (u64_try_from r.1) (NumericRange "outbox sequence");
  mutation ← ok_or (mutation_from_json (x_mutation_json r.2)) Serialization;
  mret (MkSequencedMutation sequence mutation).

Fixpoint decode_outbox_rows (rs : list (Z * outbox_row)) : result GraphError (list SequencedMutation) :=
  match rs with
  | [] => Ok []
  | r :: rs => m ← decode_outbox_row r; ms ← decode_outbox_rows rs; mret (m :: ms)
  end.

(** [WHERE sequence > ?1 ORDER BY sequence]. *)
Definition outbox_after g (after : Z) : list (Z * outbox_row) :=
  rows by_key_Z (λ r, bool_decide (after < r.1)%Z) (outbox g).

Definition read_outbox g (sequence : option Z) (lim : Z) : result GraphError MutationBatch :=
  after ← ok_or (i64_try_from (default 0%Z sequence)) (NumericRange "outbox cursor");
  ms ← decode_outbox_rows (limit lim (outbox_after g after));
  mret (MkMutationBatch ms).

(** [coalesce(max(last_sequence), 0)] over consumers. *)
Definition max_consumer_sequence g : Z :=
  foldr (λ r acc, Z.max (k_last_sequence r.2) acc) 0%Z (map_to_list (consumers g)).

Definition latest_outbox_sequence g : result GraphError Z :=
  ok_or (u64_try_from (Z.max (max_key (outbox g))
           (Z.max (max_consumer_sequence g) (default 0%Z (outbox_seq g)))))
        (NumericRange "outbox sequence").

Definition projector_checkpoint g consumer : result GraphError (option ProjectorCheckpoint) :=
  match consumers g !! consumer with
  | None => Ok None
  | Some r =>
      last ← ok_or (u64_try_from (k_last_sequence r)) (NumericRange "projector sequence");
      gen ← ok_or (u64_try_from (k_index_generation r)) (NumericRange "index generation");
      mret (Some (MkProjectorCheckpoint consumer last gen))
  end.

(** ** Acknowledgement *)

Definition acknowledge_projection consumer (last_sequence index_generation : Z) : GM unit :=
  latest ← gets latest_outbox_sequence;
  guard_m (negb (bool_decide (latest < last_sequence)%Z))
    (Invariant "projector checkpoint cannot advance beyond durable outbox") ;;
  current ← gets (λ g, projector_checkpoint g consumer);
  guard_m match current with
          | Some c => negb (bool_decide (last_sequence < pj_last_sequence c)%Z)
          | None => true
          end (Invariant "projector checkpoint cannot move backwards") ;;
  last ← lift (ok_or (i64_try_from last_sequence) (NumericRange "projector sequence"));
  gen ← lift (ok_or (i64_try_from index_generation) (NumericRange "index generation"));
  modify (λ g, set_consumers (<[consumer := ConsumerRow last gen]> (consumers g)) g).

Definition reset_projection_consumer consumer : GM bool :=
  g ← get_state;
  modify (λ g, set_consumers (delete consumer (consumers g)) g) ;;
  mret (bool_decide (is_Some (consumers g !! consumer))).

(** ** Maintenance *)

(** [SELECT min(last_sequence) FROM graph_projection_consumers]: NULL without consumers. *)
Definition min_consumer_sequence g : option Z :=
  match k_last_sequence <$> (map_to_list (consumers g)).*2 with
  | [] => None
  | s :: ss => Some (foldr Z.min s ss)
  end.

(** [DELETE FROM graph_projection_outbox WHERE sequence <= ?1]. *)
Definition keep_after (bound : Z) (m : gmap Z outbox_row) : gmap Z outbox_row :=
  filter (λ r, (bound < r.1)%Z) m.

Definition at_most (bound : Z) (r : Z * outbox_row) : bool := bool_decide (r.1 ≤ bound)%Z.

Definition prune_consumed_outbox : GM Z :=
  g ← get_state;
  match min_consumer_sequence g with
  | None => mret 0%Z
  | Some minimum =>
      modify (λ g, set_outbox (keep_after minimum (outbox g)) (outbox_seq g) g) ;;
      mret (count_rows (at_most minimum) (outbox g))
  end.

Definition consumed_outbox_maintenance_pending g : bool :=
  match min_consumer_sequence g with
  | None => false
  | Some minimum => exists_row (at_most minimum) (outbox g)
  end.

Definition legacy_desired_payload_maintenance_pending g : bool :=
  exists_row (λ r, bool_decide (d_path r.2 = None)) (documents g).

(** The largest sequence that may be discarded. *)
Definition safe_through g (allow_without_consumers : bool) : option Z :=
  match min_consumer_sequence g with
  | Some minimum => Some minimum
  | None => if allow_without_consumers then outbox_seq g else None
  end.

Definition prune_rebuildable_outbox_bounded (maximum_rows : Z) (allow_without_consumers : bool)
  : GM OutboxMaintenanceSummary :=
  guard_m (negb (bool_decide (maximum_rows = 0 ∨ 100000 < maximum_rows)%Z))
    (InvalidBatch "outbox maintenance bound must be between 1 and 100000") ;;
  g ← get_state;
  match safe_through g allow_without_consumers with
  | None => mret OutboxMaintenanceSummary_default
  | Some safe =>
      let page := limit maximum_rows (rows by_key_Z (at_most safe) (outbox g)) in
      modify (λ g, set_outbox (foldr delete (outbox g) page.*1) (outbox_seq g) g) ;;
      g' ← get_state;
      safe' ← lift (ok_or (u64_try_from safe) (NumericRange "outbox maintenance cursor"));
      mret (MkOutboxMaintenanceSummary (Some safe') (Z.of_nat (length page))
              (exists_row (at_most safe) (outbox g')))
  end.

(** One rewritten legacy row. *)
Definition compact_row (document : CatalogDocument) (r : document_row) : document_row :=
  match d_path r with
  | None => DocumentRow (d_object r) (d_file_link_id r) (d_version r) json_empty
              (Some (cd_resolved_path document)) (Some (catalog_content_fingerprint document))
  | Some _ => r
  end.

Definition compact_legacy_desired_payloads_bounded (maximum_rows : Z)
  : GM DesiredPayloadMaintenanceSummary :=
  guard_m (negb (bool_decide (maximum_rows = 0 ∨ 100000 < maximum_rows)%Z))
    (InvalidBatch "desired payload maintenance bound must be between 1 and 100000") ;;
  g ← get_state;
  let page := limit maximum_rows
    (rows by_key_N (λ r, bool_decide (d_path r.2 = None)) (documents g)) in
  for_each page (λ r,
    document ← lift (ok_or (document_from_json (d_json r.2)) Serialization);
    modify (λ g, set_documents (alter (compact_row document) r.1 (documents g)) g)) ;;
  g' ← get_state;
  mret (MkDesiredPayloadMaintenanceSummary (Z.of_nat (length page))
          (legacy_desired_payload_maintenance_pending g')).
End outbox.
