(* ===== verification/GraphRefresh.v ===== *)
(** Deferred projection refresh, queue inspection, statistics and integrity audit ([store.rs]:
    [pending_refresh_jobs] .. [audit_integrity]). *)
From stdpp Require Import base strings numbers gmap list sorting.
From S2P Require Import Prelude Models GraphDomain GraphTables GraphProjection GraphStore.

Section refresh.
Context `{E : StoreEnv}.
Implicit Types (g : db) (v : volume_id).

(** ** Path refresh *)

Definition pending_path_jobs g : list (Z * path_job_row) :=
  rows by_key_Z (λ r, bool_decide (pj_state r.2 = 0%Z)) (path_jobs g).

Fixpoint decode_jobs (rs : list (Z * path_job_row)) : result GraphError (list PathRefreshJob) :=
  match rs with
  | [] => Ok []
  | r :: rs =>
      generation ← ok_or (u64_try_from (pj_enqueued_generation r.2))
                         (Sqlite (FromSqlConversionFailure 3));
      js ← decode_jobs rs;
      mret (MkPathRefreshJob r.1 (fk_volume (pj_root r.2)) (pj_root r.2) generation :: js)
  end.

Definition pending_refresh_jobs g (lim : Z) : result GraphError (list PathRefreshJob) :=
  decode_jobs (limit lim (pending_path_jobs g)).

(** Strictly after the durable cursor, or everything. *)
Definition after_cursor (cursor : option N) (n : N) : bool :=
  match cursor with Some c => bool_decide (c < n)%N | None => true end.

Definition volume_links_after g v (cursor : option link_id) : list link_id :=
  (rows by_key_N (λ r, bool_decide (fk_volume (l_object r.2) = v) && after_cursor cursor r.1)
     (links g)).*1.

Definition set_job_state (s : Z) (r : path_job_row) : path_job_row :=
  PathJobRow (pj_root r) (pj_enqueued_generation r) s (pj_cursor r).
Definition set_job_cursor (c : link_id) (r : path_job_row) : path_job_row :=
  PathJobRow (pj_root r) (pj_enqueued_generation r) (pj_state r) (Some c).

Definition refresh_projection_paths (maximum_links : Z) : GM ProjectionRefreshSummary :=
  if decide (maximum_links = 0%Z) then mret ProjectionRefreshSummary_default
  else
    g ← get_state;
    match pending_path_jobs g with
    | [] => mret ProjectionRefreshSummary_default
    | (job, row) :: _ =>
        let v := fk_volume (pj_root row) in
        generation ← gets (generation_row v);
        let page := limit maximum_links (volume_links_after g v (pj_cursor row)) in
        appended ← sum_each page (λ id, sync_catalog_projection id generation Durable);
        let complete := bool_decide (Z.of_nat (length page) < maximum_links)%Z in
        (if complete then
           modify (λ g, set_path_jobs (alter (set_job_state 2) job (path_jobs g)) g)
         else match last page with
              | Some c => modify (λ g, set_path_jobs (alter (set_job_cursor c) job (path_jobs g)) g)
              | None => mret tt
              end) ;;
        mret (MkProjectionRefreshSummary (Z.of_nat (length page)) appended complete)
    end.

(** ** Volume refresh *)

Definition pending_volume_jobs g : list (volume_id * volume_job_row) :=
  rows by_key_N (λ r, bool_decide (vj_state r.2 = 0%Z)) (volume_jobs g).

Definition volume_documents_after g v (cursor : option link_id) : list link_id :=
  (λ r, d_file_link_id r.2) <$>
    rows by_doc_link (λ r, bool_decide (fk_volume (d_object r.2) = v) &&
                           after_cursor cursor (d_file_link_id r.2)) (documents g).

Definition set_volume_job_state (s : Z) (r : volume_job_row) : volume_job_row :=
  VolumeJobRow (vj_enqueued_generation r) (vj_cursor r) s.
Definition set_volume_job_cursor (c : link_id) (r : volume_job_row) : volume_job_row :=
  VolumeJobRow (vj_enqueued_generation r) (Some c) (vj_state r).

Definition refresh_volume_projection (maximum_links : Z) : GM ProjectionRefreshSummary :=
  if decide (maximum_links = 0%Z) then mret ProjectionRefreshSummary_default
  else
    g ← get_state;
    match pending_volume_jobs g with
    | [] => mret ProjectionRefreshSummary_default
    | (v, row) :: _ =>
        generation ← gets (generation_row v);
        let page := limit maximum_links (volume_documents_after g v (vj_cursor row)) in
        appended ← sum_each page (λ id, sync_catalog_projection id generation Durable);
        let complete := bool_decide (Z.of_nat (length page) < maximum_links)%Z in
        (if complete then
           modify (λ g, set_volume_jobs (alter (set_volume_job_state 2) v (volume_jobs g)) g)
         else match last page with
              | Some c =>
                  modify (λ g, set_volume_jobs (alter (set_volume_job_cursor c) v (volume_jobs g)) g)
              | None => mret tt
              end) ;;
        mret (MkProjectionRefreshSummary (Z.of_nat (length page)) appended complete)
    end.

Definition projection_refresh_maintenance_pending g : bool :=
  exists_row (λ r, bool_decide (pj_state r.2 = 0%Z)) (path_jobs g) ||
  exists_row (λ r, bool_decide (vj_state r.2 = 0%Z)) (volume_jobs g).

Definition complete_refresh_job (job : Z) : GM bool :=
  g ← get_state;
  match path_jobs g !! job with
  | Some r =>
      if decide (pj_state r = 0%Z) then
        modify (λ g, set_path_jobs (<[job := set_job_state 2 r]> (path_jobs g)) g) ;; mret true
      else mret false
  | None => mret false
  end.

(** ** Statistics and audit *)

Definition sum_sizes (p : FileKey * object_row → bool) g : Z :=
  foldr (λ r acc, if p r then (o_size r.2 + acc)%Z else acc) 0%Z (map_to_list (objects g)).

Definition live (r : FileKey * object_row) : bool := negb (o_tombstoned r.2).
Definition live_file (r : FileKey * object_row) : bool := live r && bool_decide (o_kind r.2 = 0%Z).

(** [sum(size)] fails on 64-bit overflow. *)
Definition sqlite_sum (n : Z) : result GraphError Z :=
  ok_or (i64_try_from n) (Sqlite IntegerOverflow).

Definition stats g : result GraphError GraphStats :=
  bytes ← sqlite_sum (sum_sizes live_file g);
  live_objects ← nonnegative_u64 (count_rows live (objects g)) "live object count";
  live_files ← nonnegative_u64 (count_rows live_file (objects g)) "live file count";
  live_bytes ← nonnegative_u64 bytes "live file bytes";
  tombstoned ← nonnegative_u64 (count_rows (λ r, o_tombstoned r.2) (objects g))
                 "tombstoned object count";
  mret (MkGraphStats (Z.of_nat (size (volumes g))) live_objects live_files live_bytes tombstoned
    (Z.of_nat (size (links g)))
    (count_rows (λ r, bool_decide (pj_state r.2 = 0%Z)) (path_jobs g) +
     count_rows (λ r, bool_decide (vj_state r.2 = 0%Z)) (volume_jobs g))%Z).

(** Primary-key order of [graph_file_objects]. *)
Definition by_file_key : relation (FileKey * object_row) := λ x y,
  (fk_volume x.1 < fk_volume y.1)%N ∨
  (fk_volume x.1 = fk_volume y.1 ∧ (fk_file x.1 ≤ fk_file y.1)%N).
Global Instance by_file_key_dec : RelDecision by_file_key.
Proof. intros x y. unfold by_file_key. apply _. Defined.

Definition orphan_objects g : list GraphIntegrityIssue :=
  (λ r, OrphanObject r.1) <$>
    rows by_file_key (λ r, live r && negb (exists_row (object_is r.1) (links g))) (objects g).

Definition missing_parents g : list GraphIntegrityIssue :=
  omap (λ r, MissingParentIssue r.1 <$> l_parent r.2)
    (rows by_key_N (λ r, match l_parent r.2 with
                         | Some p => negb (object_exists p g)
                         | None => false
                         end) (links g)).

Definition audit_integrity g (lim : Z) : list GraphIntegrityIssue :=
  limit lim (orphan_objects g ++ missing_parents g).
End refresh.
