(* ===== verification/GraphInvariant.v ===== *)
(** Well-formedness of the durable graph and its preservation by every mutation.

    [graph_wf] collects the schema constraints (foreign keys, checks, unique indexes) and the
    invariants the store code maintains on top of them: a linked object is never tombstoned, at
    most one pending path job per directory, outbox keys below the high-water mark.
    [docs_linked S] relates desired documents to links, except for the links in [S], whose
    documents a transaction still has to synchronise. *)
From stdpp Require Import base strings numbers gmap list sorting.
From S2P Require Import Prelude Ids Models GraphDomain GraphTables Fixtures GraphPath GraphMutate.
From S2P Require Import GraphProjection GraphStore.

Section invariant.
Context `{E : StoreEnv}.
Implicit Types (g : db) (id : link_id) (k : FileKey) (v : volume_id) (generation : Z).

(** The namespace slot a link occupies: its parent, or its volume for a root link, and its name. *)
Definition slot (l : link_row) : (FileKey + volume_id) * string :=
  (match l_parent l with Some p => inl p | None => inr (fk_volume (l_object l)) end, l_name l).

Definition object_row_ok (r : object_row) : Prop :=
  (0 ≤ o_kind r ≤ 4 ∧ 0 ≤ o_size r ≤ i64_max ∧ 0 ≤ o_availability r ≤ 2)%Z.

Definition volume_row_ok (r : volume_row) : Prop :=
  (0 ≤ v_state r ≤ 2 ∧ 0 ≤ v_generation r ≤ i64_max)%Z.

Definition session_row_ok (r : session_row) : Prop :=
  (0 ≤ s_scan_mode r ≤ 1 ∧ 0 ≤ s_scan_generation r ≤ i64_max ∧
   ((s_phase r = 0 ∧ s_final_provider_id r = None ∧ s_final_format_version r = None
      ∧ s_final_checkpoint r = None) ∨
    ((s_phase r = 1 ∨ s_phase r = 2) ∧ is_Some (s_final_provider_id r)
      ∧ is_Some (s_final_format_version r) ∧ is_Some (s_final_checkpoint r))))%Z.

(** The document a desired row stands for: a compact row keeps its path and fingerprint, a row
    written before the compact format the whole document. *)
Definition row_describes (r : document_row) (doc : CatalogDocument) : Prop :=
  cd_identity doc = MkCatalogIdentity (d_object r) (d_file_link_id r) (d_file_link_id r)
  ∧ cd_document_version doc = d_version r
  ∧ ((d_path r = Some (cd_resolved_path doc) ∧
      d_fingerprint r = Some (catalog_content_fingerprint doc)) ∨
     (d_path r = None ∧ d_fingerprint r = None ∧ document_from_json (d_json r) = Some doc)).

Definition document_row_ok (r : document_row) : Prop :=
  ((0 ≤ d_version r ≤ i64_max)%Z ∧ in_u128 (d_file_link_id r)) ∧ ∃ doc, row_describes r doc.

(** What the catalog writer requires of a mutation: the document identifier of an upsert is the
    link identifier, and identifiers have 128 bits. *)
Definition canonical_mutation (m : IndexMutation) : Prop :=
  match m with
  | Upsert doc =>
      ci_document_id (cd_identity doc) = ci_file_link_id (cd_identity doc)
      ∧ in_u128 (ci_document_id (cd_identity doc))
  | Delete id _ => in_u128 id
  end.

Definition outbox_row_ok (r : outbox_row) : Prop :=
  ∃ m, mutation_from_json (x_mutation_json r) = Some m ∧ canonical_mutation m.

(** The AUTOINCREMENT high-water mark. *)
Definition high_water g : Z := default 0%Z (outbox_seq g).

Record graph_wf g : Prop := {
  gw_object_volume k r : objects g !! k = Some r → is_Some (volumes g !! fk_volume k);
  gw_object_row k r : objects g !! k = Some r → object_row_ok r;
  gw_volume_row v r : volumes g !! v = Some r → volume_row_ok r;
  gw_link_live id l : links g !! id = Some l →
    ∃ r, objects g !! l_object l = Some r ∧ o_tombstoned r = false;
  gw_link_id id l : links g !! id = Some l → in_u128 id;
  gw_link_slot id1 id2 l1 l2 : links g !! id1 = Some l1 → links g !! id2 = Some l2 →
    slot l1 = slot l2 → id1 = id2;
  gw_link_volume id l p : links g !! id = Some l → l_parent l = Some p →
    fk_volume p = fk_volume (l_object l);
  gw_job_root j r : path_jobs g !! j = Some r → is_Some (objects g !! pj_root r);
  gw_job_pending j1 j2 r1 r2 : path_jobs g !! j1 = Some r1 → path_jobs g !! j2 = Some r2 →
    pj_state r1 = 0%Z → pj_state r2 = 0%Z → pj_root r1 = pj_root r2 → j1 = j2;
  gw_checkpoint v r : checkpoints g !! v = Some r → is_Some (volumes g !! v);
  gw_volume_job v r : volume_jobs g !! v = Some r → is_Some (volumes g !! v);
  gw_session v r : sessions g !! v = Some r → is_Some (volumes g !! v) ∧ session_row_ok r;
  gw_document d r : documents g !! d = Some r →
    d_file_link_id r = d ∧ is_Some (objects g !! d_object r) ∧ document_row_ok r;
  gw_outbox s r : outbox g !! s = Some r →
    (0 < s ≤ high_water g)%Z ∧ outbox_row_ok r;
  gw_outbox_gapless s s' r : outbox g !! s = Some r → (s ≤ s' ≤ high_water g)%Z →
    is_Some (outbox g !! s');
  gw_high_water : (0 ≤ high_water g ≤ i64_max)%Z;
  gw_consumer c r : consumers g !! c = Some r →
    (0 ≤ k_last_sequence r ≤ high_water g ∧ 0 ≤ k_index_generation r ≤ i64_max)%Z }.

Definition docs_linked (S : gset link_id) g : Prop :=
  ∀ d r, documents g !! d = Some r → d ∉ S →
  ∃ l, links g !! d = Some l ∧ l_object l = d_object r.

(** The invariant of a database between transactions. *)
Definition store_wf g : Prop := graph_wf g ∧ docs_linked ∅ g.

(** * Scalars *)

Lemma file_kind_code_range x : (0 ≤ file_kind_code x ≤ 4)%Z.
Proof. by destruct x. Qed.
Lemma availability_code_range x : (0 ≤ availability_code x ≤ 2)%Z.
Proof. by destruct x. Qed.
Lemma volume_state_code_range x : (0 ≤ volume_state_code x ≤ 2)%Z.
Proof. by destruct x. Qed.
Lemma scan_mode_code_range x : (0 ≤ observation_scan_mode_code x ≤ 1)%Z.
Proof. by destruct x. Qed.

Lemma generation_or_zero_range g v : graph_wf g → (0 ≤ generation_or_zero v g ≤ i64_max)%Z.
Proof.
  intros Hwf. unfold generation_or_zero. destruct (volumes g !! v) as [r|] eqn:Hv; [|done].
  by apply (gw_volume_row _ Hwf) in Hv as [_ ?].
Qed.

Lemma next_generation_range g v n :
  graph_wf g → i64_checked_add (generation_or_zero v g) 1 = Some n → (1 ≤ n ≤ i64_max)%Z.
Proof.
  intros Hwf [-> [_ Hhi]]%i64_checked_add_Some. pose proof (generation_or_zero_range g v Hwf). lia.
Qed.

(** * The empty database *)

Lemma graph_wf_empty : graph_wf empty_db.
Proof. by split; intros *; simpl; rewrite ?lookup_empty. Qed.

Lemma docs_linked_empty S : docs_linked S empty_db.
Proof. intros d r Hd. simpl in Hd. by rewrite lookup_empty in Hd. Qed.

(** * One table at a time *)

Lemma wf_set_volumes g vs :
  graph_wf g → (∀ v, is_Some (volumes g !! v) → is_Some (vs !! v)) →
  (∀ v r, vs !! v = Some r → volume_row_ok r) → graph_wf (set_volumes vs g).
Proof.
  intros [] Hdom Hrow. split; simpl; try done; intros; eauto.
  match goal with H : sessions g !! _ = Some _ |- _ => apply gw_session0 in H as [? ?] end. eauto.
Qed.

Lemma wf_set_objects g os :
  graph_wf g → (∀ k, is_Some (objects g !! k) → is_Some (os !! k)) →
  (∀ k r, os !! k = Some r → object_row_ok r ∧ is_Some (volumes g !! fk_volume k)) →
  (∀ id l, links g !! id = Some l → ∃ r, os !! l_object l = Some r ∧ o_tombstoned r = false) →
  graph_wf (set_objects os g).
Proof.
  intros [] Hdom Hrow Hlive. split; simpl; try done; intros; eauto; try by eapply Hrow.
  match goal with H : documents g !! _ = Some _ |- _ => apply gw_document0 in H as (? & ? & ?) end.
  eauto.
Qed.

Lemma wf_set_links g ls :
  graph_wf g →
  (∀ id l, ls !! id = Some l → ∃ r, objects g !! l_object l = Some r ∧ o_tombstoned r = false) →
  (∀ id l, ls !! id = Some l → in_u128 id) →
  (∀ id1 id2 l1 l2, ls !! id1 = Some l1 → ls !! id2 = Some l2 → slot l1 = slot l2 → id1 = id2) →
  (∀ id l p, ls !! id = Some l → l_parent l = Some p → fk_volume p = fk_volume (l_object l)) →
  graph_wf (set_links ls g).
Proof. intros []. by split. Qed.

Lemma wf_set_path_jobs g js :
  graph_wf g → (∀ j r, js !! j = Some r → is_Some (objects g !! pj_root r)) →
  (∀ j1 j2 r1 r2, js !! j1 = Some r1 → js !! j2 = Some r2 → pj_state r1 = 0%Z →
     pj_state r2 = 0%Z → pj_root r1 = pj_root r2 → j1 = j2) →
  graph_wf (set_path_jobs js g).
Proof. intros []. by split. Qed.

Lemma wf_set_documents g ds :
  graph_wf g →
  (∀ d r, ds !! d = Some r →
     d_file_link_id r = d ∧ is_Some (objects g !! d_object r) ∧ document_row_ok r) →
  graph_wf (set_documents ds g).
Proof. intros []. by split. Qed.

Lemma wf_set_outbox g xs seq :
  graph_wf g →
  (∀ s r, xs !! s = Some r →
     (0 < s ≤ default 0 seq)%Z ∧ outbox_row_ok r) →
  (∀ s s' r, xs !! s = Some r → (s ≤ s' ≤ default 0 seq)%Z → is_Some (xs !! s')) →
  (high_water g ≤ default 0 seq ≤ i64_max)%Z → graph_wf (set_outbox xs seq g).
Proof.
  intros [] Hx Hgap Hseq. split; try done; unfold high_water in *; simpl; [lia|].
  intros c r Hc. apply gw_consumer0 in Hc. lia.
Qed.

Lemma wf_set_consumers g cs :
  graph_wf g →
  (∀ c r, cs !! c = Some r →
    (0 ≤ k_last_sequence r ≤ high_water g ∧ 0 ≤ k_index_generation r ≤ i64_max)%Z) →
  graph_wf (set_consumers cs g).
Proof. intros []. by split. Qed.

Lemma wf_set_volume_jobs g js :
  graph_wf g → (∀ v r, js !! v = Some r → is_Some (volumes g !! v)) →
  graph_wf (set_volume_jobs js g).
Proof. intros []. by split. Qed.

Lemma wf_set_sessions g ss :
  graph_wf g → (∀ v r, ss !! v = Some r → is_Some (volumes g !! v) ∧ session_row_ok r) →
  graph_wf (set_sessions ss g).
Proof. intros []. by split. Qed.

Lemma wf_set_checkpoints g cs :
  graph_wf g → (∀ v r, cs !! v = Some r → is_Some (volumes g !! v)) →
  graph_wf (set_checkpoints cs g).
Proof. intros []. by split. Qed.

(** * Statements *)

Lemma upsert_volume_wf d : keeps graph_wf (upsert_volume d).
Proof.
  apply triple_modify. intros g Hwf. apply wf_set_volumes; [done| |].
  - intros v Hv. destruct (decide (v = vd_volume_id d)) as [->|]; simplify_map_eq; eauto.
  - intros v r. rewrite lookup_insert_Some. intros [[<- <-]|[_ Hv]];
      [|by eapply gw_volume_row]. split; [apply volume_state_code_range|].
    by apply generation_or_zero_range.
Qed.

Lemma update_volume_wf v f :
  (∀ r, volume_row_ok r → volume_row_ok (f r)) → keeps graph_wf (update_volume v f).
Proof.
  intros Hf g n g' Hwf. unfold update_volume. destruct (volumes g !! v) as [r|] eqn:Hv.
  - intros [= <- <-]. apply wf_set_volumes; [done| |].
    + intros v' Hv'. destruct (decide (v' = v)) as [->|]; simplify_map_eq; eauto.
    + intros v' r'. rewrite lookup_insert_Some. intros [[<- <-]|[_ Hv']]; [|by eapply gw_volume_row].
      apply Hf. by eapply gw_volume_row.
  - by intros [= <- <-].
Qed.

Lemma upsert_object_wf o generation :
  in_u64 (m_size (fo_metadata o)) → keeps graph_wf (upsert_object o generation).
Proof.
  intros Hsize g [] g' Hwf Hrun. unfold upsert_object in Hrun. ginv.
  apply i64_try_from_Some in Hrun0 as [-> Hs].
  apply wf_set_objects; [done| | |].
  - intros k Hk. destruct (decide (k = fo_object_key o)) as [->|]; simplify_map_eq; eauto.
  - intros k r. rewrite lookup_insert_Some. intros [[<- <-]|[_ Hk]].
    + split; [|done]. pose proof (file_kind_code_range (m_kind (fo_metadata o))).
      pose proof (availability_code_range (m_availability (fo_metadata o))).
      unfold object_row_ok, in_i64, in_u64 in *. simpl. lia.
    + split; [by eapply gw_object_row|by eapply gw_object_volume].
  - intros id l Hl. apply (gw_link_live _ Hwf) in Hl as (r & Hr & Ht).
    destruct (decide (fo_object_key o = l_object l)) as [<-|]; simplify_map_eq; eauto.
Qed.

Lemma enqueue_refresh_wf k generation : keeps graph_wf (enqueue_refresh k generation).
Proof.
  intros g n g' Hwf Hrun. unfold enqueue_refresh in Hrun. ginv.
  destruct (exists_row (pending_for k) (path_jobs g)) eqn:Hex; ginv; [done|].
  rewrite exists_row_false in Hex. apply wf_set_path_jobs; [done| |].
  - intros j r. rewrite lookup_insert_Some. intros [[<- <-]|[_ Hj]]; [done|]. by eapply gw_job_root.
  - assert (∀ j r, path_jobs g !! j = Some r → pj_state r = 0%Z → pj_root r ≠ k) as Hno.
    { intros j r Hj Hs Hk. apply Hex in Hj. unfold pending_for in Hj.
      rewrite bool_decide_eq_false in Hj. auto. }
    intros j1 j2 r1 r2. rewrite !lookup_insert_Some.
    intros [[<- <-]|[_ H1]] [[<- <-]|[_ H2]]; simpl; try done; intros Hs1 Hs2 Hroot.
    + by destruct (Hno _ _ H2).
    + by destruct (Hno _ _ H1).
    + by eapply gw_job_pending.
Qed.

Lemma enqueue_volume_refresh_wf v generation :
  keeps graph_wf (enqueue_volume_projection_refresh v generation).
Proof.
  intros g n g' Hwf Hrun. unfold enqueue_volume_projection_refresh in Hrun. ginv.
  apply wf_set_volume_jobs; [done|]. intros v' r. rewrite lookup_insert_Some.
  intros [[<- <-]|[_ Hv]]; [done|]. by eapply gw_volume_job.
Qed.

Lemma object_row_ok_tombstoned b r : object_row_ok r → object_row_ok (set_tombstoned b r).
Proof. done. Qed.

(** Setting a tombstone flag is safe when clearing it, or when no link names the object. *)
Lemma update_tombstoned_wf k b g n g' :
  graph_wf g → (b = true → ∀ id l, links g !! id = Some l → l_object l ≠ k) →
  update_tombstoned k b g = Ok (n, g') → graph_wf g'.
Proof.
  intros Hwf Hb [(r & Hr & -> & ->)|(_ & _ & ->)]%update_tombstoned_Ok; [|done].
  apply wf_set_objects; [done| | |].
  - intros k' Hk'. destruct (decide (k' = k)) as [->|]; simplify_map_eq; eauto.
  - intros k' r'. rewrite lookup_insert_Some. intros [[<- <-]|[_ Hk']].
    + split; [apply object_row_ok_tombstoned; by eapply gw_object_row|by eapply gw_object_volume].
    + split; [by eapply gw_object_row|by eapply gw_object_volume].
  - intros id l Hl. destruct (gw_link_live _ Hwf _ _ Hl) as (r' & Hr' & Ht).
    destruct (decide (k = l_object l)) as [->|]; simplify_map_eq; eauto.
    destruct b; [|eauto]. by destruct (Hb eq_refl _ _ Hl).
Qed.

Lemma link_count_zero k g :
  link_count k g = 0%Z ↔ ∀ id l, links g !! id = Some l → l_object l ≠ k.
Proof.
  unfold link_count. rewrite count_rows_zero. unfold object_is. simpl.
  split; intros H id l Hl; specialize (H id l Hl);
    rewrite ?bool_decide_eq_false in *; done.
Qed.

Lemma wf_delete_link g id : graph_wf g → graph_wf (set_links (delete id (links g)) g).
Proof.
  intros Hwf. apply wf_set_links; [done| | | |].
  - intros id' l [_ Hl]%lookup_delete_Some. by eapply gw_link_live.
  - intros id' l [_ Hl]%lookup_delete_Some. by eapply gw_link_id.
  - intros id1 id2 l1 l2 [_ H1]%lookup_delete_Some [_ H2]%lookup_delete_Some.
    by eapply gw_link_slot.
  - intros id' l p [_ Hl]%lookup_delete_Some. by eapply gw_link_volume.
Qed.

Lemma remove_link_internal_wf id k generation refresh :
  keeps graph_wf (remove_link_internal id k generation refresh).
Proof.
  intros g n g' Hwf [(_ & -> & _)|(row & b & g1 & g2 & Hrow & <- & _ & -> & Htomb & Hq)]%
    remove_link_internal_Ok; [done|].
  apply wf_delete_link with (id := id) in Hwf.
  assert (graph_wf g2) as Hwf2.
  { destruct Htomb as [(Hz & m & Hm)|[_ ->]]; [|done]. rewrite link_count_zero in Hz.
    eapply update_tombstoned_wf; [exact Hwf|intros _; exact Hz|exact Hm]. }
  destruct (b && refresh); [by eapply enqueue_refresh_wf|by destruct Hq as [_ ->]].
Qed.

Lemma same_slot_true link id l :
  same_slot link (id, l) = true ↔
  id ≠ fl_file_link_id link ∧
  slot l = slot (LinkRow (fl_object_key link) (fl_parent_key link) (fl_name link) false 0).
Proof.
  unfold same_slot, slot. simpl. rewrite !andb_true_iff, !bool_decide_eq_true.
  destruct (fl_parent_key link) as [p|]; rewrite ?andb_true_iff, ?bool_decide_eq_true;
    destruct (l_parent l) as [q|]; split; intros; destruct_and?; split_and?; congruence.
Qed.

(** The insertion step of [upsert_link]: the link row and the cleared tombstone together. *)
Lemma insert_link_wf link boundary generation g n g' :
  graph_wf g → in_u128 (fl_file_link_id link) → is_Some (objects g !! fl_object_key link) →
  (∀ p, fl_parent_key link = Some p → fk_volume p = fk_volume (fl_object_key link)) →
  exists_row (same_slot link) (links g) = false →
  update_tombstoned (fl_object_key link) false
    (set_links (<[fl_file_link_id link := link_row_of link boundary generation]> (links g)) g)
  = Ok (n, g') →
  graph_wf g'.
Proof.
  intros Hwf Hu Ho Hp Hslot [(r & Hr & -> & ->)|(Hn & _)]%update_tombstoned_Ok;
    [|simpl in Hn; destruct Ho; congruence].
  simpl in Hr.
  assert (graph_wf (set_objects (<[fl_object_key link := set_tombstoned false r]> (objects g)) g))
    as Hwf1.
  { eapply (update_tombstoned_wf (fl_object_key link) false g 1); [done|done|].
    apply update_tombstoned_Ok. left. eauto. }
  rewrite exists_row_false in Hslot.
  assert (∀ id l, links g !! id = Some l → id ≠ fl_file_link_id link →
    slot l ≠ slot (link_row_of link boundary generation))
    as Hfree.
  { intros id l Hl Hne Heq. apply Hslot in Hl.
    assert (same_slot link (id, l) = true) as Ht; [by apply same_slot_true|congruence]. }
  refine (wf_set_links _ (<[fl_file_link_id link := link_row_of link boundary generation]>
    (links g)) Hwf1 _ _ _ _).
  - intros id l. rewrite lookup_insert_Some. intros [[<- <-]|[_ Hl]]; simpl.
    + exists (set_tombstoned false r). by rewrite lookup_insert_eq.
    + destruct (gw_link_live _ Hwf1 _ _ Hl) as (r' & Hr' & Ht). eauto.
  - intros id l. rewrite lookup_insert_Some. intros [[<- <-]|[_ Hl]]; [done|by eapply gw_link_id].
  - intros id1 id2 l1 l2. rewrite !lookup_insert_Some.
    intros [[<- <-]|[Hne1 H1]] [[<- <-]|[Hne2 H2]] Hs; [done| | |by eapply gw_link_slot].
    + exfalso. eapply Hfree; [exact H2|done|done].
    + exfalso. eapply Hfree; [exact H1|done|done].
  - intros id l p. rewrite lookup_insert_Some. intros [[<- <-]|[_ Hl]]; simpl; [apply Hp|].
    by eapply gw_link_volume.
Qed.

Lemma remove_links_wf cs generation :
  keeps graph_wf (for_each cs (λ c : link_id * FileKey,
    remove_link_internal c.1 c.2 generation false ;; mret tt)).
Proof.
  apply triple_for_each. intros c _ g [] g' Hwf Hrem. ginv. by eapply remove_link_internal_wf.
Qed.

Lemma upsert_link_wf link boundary generation :
  in_u128 (fl_file_link_id link) →
  (∀ p, fl_parent_key link = Some p → fk_volume p = fk_volume (fl_object_key link)) →
  keeps graph_wf (upsert_link link boundary generation).
Proof.
  intros Hu Hp g n g' Hwf (g1 & g2 & m & _ & Hrem & _ & Hq & Hobj & Hslot & Hins)%upsert_link_Ok.
  apply remove_links_wf in Hrem; [|done].
  assert (graph_wf g2) as Hwf2.
  { destruct Hq as [[-> _]|Hq]; [done|]. by eapply enqueue_refresh_wf. }
  by eapply insert_link_wf.
Qed.

Lemma tombstone_object_wf k : keeps graph_wf (tombstone_object k).
Proof.
  intros g [] g' Hwf [Hz Hup]%tombstone_object_Ok. rewrite link_count_zero in Hz.
  eapply update_tombstoned_wf; [exact Hwf|intros _; exact Hz|exact Hup].
Qed.

(** What Rust's types guarantee about a mutation: sizes are u64, link identifiers have 128 bits. *)
Definition mutation_typed (m : GraphMutation) : Prop :=
  match m with
  | UpsertObject o => in_u64 (m_size (fo_metadata o))
  | UpsertLink l _ => in_u128 (fl_file_link_id l)
  | _ => True
  end.

Lemma apply_mutation_wf m v generation :
  validate_mutation_volume m v = Ok tt → mutation_typed m →
  keeps graph_wf (apply_mutation m generation).
Proof.
  intros [Hkeys _]%validate_mutation_volume_ok Hty g n g' Hwf Hrun.
  destruct m as [d|v' st|o|l b|id k|k|v' reason]; simpl in Hrun.
  - ginv. by eapply upsert_volume_wf.
  - ginv. eapply enqueue_volume_refresh_wf; [|done]. eapply update_volume_wf; [|done..].
    intros r [_ ?]. split; [apply volume_state_code_range|done].
  - ginv. by eapply upsert_object_wf.
  - eapply upsert_link_wf; [done| |done..]. intros p Hpk. simpl in Hkeys. rewrite Hpk in Hkeys.
    apply Forall_cons in Hkeys as [-> Hkeys]. by apply Forall_cons in Hkeys as [-> _].
  - by eapply remove_link_internal_wf.
  - ginv. by eapply tombstone_object_wf.
  - ginv. eapply enqueue_volume_refresh_wf; [|done]. eapply update_volume_wf; [|done..].
    intros r [_ ?]. split; [simpl; lia|done].
Qed.

(** * Projection *)

(** AUTOINCREMENT hands out the high-water mark plus one. *)
Lemma next_sequence_eq g : graph_wf g → next_sequence g = (high_water g + 1)%Z.
Proof.
  intros Hwf. unfold next_sequence. change (default 0%Z (outbox_seq g)) with (high_water g).
  assert (max_key (outbox g) ≤ high_water g)%Z; [|lia].
  apply max_key_le; [apply (gw_high_water _ Hwf)|]. intros s r Hs.
  apply (gw_outbox _ Hwf) in Hs. lia.
Qed.

Lemma emitted_wf `{!StoreLaws E} mode doc version m g :
  graph_wf g → canonical_mutation m → emits mode version g →
  graph_wf (emitted mode doc version m g).
Proof.
  intros Hwf Hm Hem. destruct mode; [|done]. destruct (Hem eq_refl) as [_ Hmax]. simpl.
  rewrite next_sequence_eq in * by done. pose proof (gw_high_water _ Hwf).
  apply wf_set_outbox; [done| | |simpl; lia].
  - intros s r. rewrite lookup_insert_Some. intros [[<- <-]|[_ Hs]]; simpl.
    + split; [lia|]. exists m. split; [apply mutation_json_roundtrip|done].
    + apply (gw_outbox _ Hwf) in Hs as [? ?]. split; [lia|done].
  - intros s s' r Hs Hle. simpl in Hle. destruct (decide (s' = high_water g + 1)%Z) as [->|];
      [by rewrite lookup_insert_eq|]. rewrite lookup_insert_ne by done.
    apply lookup_insert_Some in Hs as [[<- _]|[_ Hs]]; [lia|].
    eapply (gw_outbox_gapless _ Hwf); [exact Hs|lia].
Qed.

Lemma compact_row_describes d generation id k :
  cd_identity d = MkCatalogIdentity k id id → cd_document_version d = generation →
  row_describes (compact_document_row d generation) d.
Proof. intros Hid Hv. unfold row_describes, compact_document_row. simpl. rewrite Hid. auto. Qed.

Lemma sync_catalog_projection_wf `{!StoreLaws E} id generation mode :
  (generation ≤ i64_max)%Z → keeps graph_wf (sync_catalog_projection id generation mode).
Proof.
  intros Hgen g n g' Hwf [Hu Hout]%sync_catalog_projection_Ok. destruct Hout; try done.
  - assert (in_u128 id) as Hid.
    { destruct (gw_document _ Hwf _ _ H0) as (<- & _ & [[_ Hb] _]). exact Hb. }
    apply (emitted_wf mode id generation (Delete id generation)) in Hwf; [|done..].
    apply wf_set_documents; [done|]. intros d' r' [_ Hd]%lookup_delete_Some.
    apply (gw_document _ Hwf). by destruct mode.
  - destruct (desired_document_Some _ _ _ _ H) as (l & Hl & Hid & Hv & Hobj).
    pose proof (gw_link_id _ Hwf _ _ Hl) as Hu128.
    apply (emitted_wf mode id generation (Upsert d)) in Hwf; [|by simpl; rewrite Hid|done].
    apply wf_set_documents; [done|]. intros d' r'. rewrite lookup_insert_Some.
    intros [[<- <-]|[_ Hd]]; [|apply (gw_document _ Hwf); by destruct mode].
    simpl. rewrite Hid. simpl. split; [done|]. split; [by destruct mode|].
    split; [unfold in_u64 in Hu; simpl; rewrite Hid; split; [lia|done]|]. exists d. by eapply compact_row_describes.
Qed.

(** What a projection step leaves alone. *)
Definition same_graph g g' : Prop :=
  volumes g' = volumes g ∧ objects g' = objects g ∧ links g' = links g ∧ consumers g' = consumers g
  ∧ checkpoints g' = checkpoints g ∧ sessions g' = sessions g ∧ path_jobs g' = path_jobs g
  ∧ volume_jobs g' = volume_jobs g.

Lemma sync_same_graph id generation mode g n g' :
  sync_catalog_projection id generation mode g = Ok (n, g') → same_graph g g'.
Proof. intros [_ Hout]%sync_catalog_projection_Ok. by destruct Hout, mode. Qed.

Lemma sync_documents_ne id generation mode g n g' d :
  sync_catalog_projection id generation mode g = Ok (n, g') → d ≠ id →
  documents g' !! d = documents g !! d.
Proof.
  intros [_ Hout]%sync_catalog_projection_Ok Hne. destruct Hout; try done; simpl.
  - by rewrite lookup_delete_ne.
  - by rewrite lookup_insert_ne.
Qed.

(** Equal content under either representation of a row. *)
Lemma content_unchanged_describes `{!StoreLaws E} r d b :
  document_row_ok r → content_unchanged (Some r) d = Ok b →
  ∃ old, row_describes r old ∧ (b = true ↔ document_content old = document_content d).
Proof.
  intros [_ (old & Hid & Hv & [[Hp Hf]|(Hp & Hf & Hj)])]; simpl; rewrite Hf.
  - intros [= <-]. exists old. split; [by repeat split; auto|].
    rewrite bool_decide_eq_true. unfold catalog_content_fingerprint. split; [|by intros ->].
    intros Heq. by apply content_digest_inj in Heq.
  - rewrite Hj. unfold mbind, mret, result_ret. simpl. intros [= <-].
    exists old. split; [repeat split; auto|].
    unfold catalog_content_equal, document_content.
    rewrite !andb_true_iff, !bool_decide_eq_true. split; [intros; destruct_and?; congruence|].
    intros [=]. auto.
Qed.

(** Synchronising a link re-establishes the link of its own document. *)
Lemma sync_docs_linked `{!StoreLaws E} id generation mode S :
  triple (λ g, graph_wf g ∧ docs_linked S g) (sync_catalog_projection id generation mode)
    (λ _ g, docs_linked (S ∖ {[id]}) g).
Proof.
  intros g n g' [Hwf Hdl] Hrun d r Hd Hn.
  destruct (sync_same_graph _ _ _ _ _ _ Hrun) as (_ & _ & Hl & _).
  destruct (decide (d = id)) as [->|Hne].
  - rewrite Hl. apply sync_catalog_projection_Ok in Hrun as [Hu Hout].
    destruct Hout as [? Hnone|? ? ? ?|doc r0 Hdes Hr0 Hun|doc Hdes ?]; simpl in Hd.
    + congruence.
    + by rewrite lookup_delete_eq in Hd.
    + rewrite Hr0 in Hd. simplify_eq. apply (gw_document _ Hwf) in Hr0 as (Hlink & _ & Hok).
      apply content_unchanged_describes in Hun as (old & Hold & Hb); [|done].
      destruct (desired_document_Some _ _ _ _ Hdes) as (l & Hlk & Hid & _).
      exists l. split; [done|]. destruct Hb as [Hb _]. specialize (Hb eq_refl).
      destruct Hold as [Hold _]. unfold document_content in Hb. congruence.
    + rewrite lookup_insert_eq in Hd. simplify_eq/=.
      destruct (desired_document_Some _ _ _ _ Hdes) as (l & Hlk & Hid & _).
      exists l. rewrite Hid. done.
  - rewrite (sync_documents_ne _ _ _ _ _ _ d Hrun Hne) in Hd. rewrite Hl.
    apply (Hdl d r Hd). set_solver.
Qed.
End invariant.
