(* ===== verification/GraphPreserve.v ===== *)
(** Every public operation of the store preserves its invariant.

    The first part frames each operation (what it leaves alone); the second proves that
    [store_wf] holds after every committed transaction and hence in every reachable database. *)
From stdpp Require Import base strings numbers gmap list sorting.
From S2P Require Import Prelude Models GraphDomain GraphTables Fixtures GraphPath GraphMutate.
From S2P Require Import GraphProjection GraphStore GraphOutbox GraphRefresh GraphInvariant.

Section preserve.
Context `{E : StoreEnv}.
Implicit Types (g : db) (id : link_id) (k : FileKey) (v : volume_id) (generation : Z).

(** * Frames *)

(** Graph mutations leave the projection tables, checkpoints and sessions alone. *)
Definition same_projection g g' : Prop :=
  documents g' = documents g ∧ outbox g' = outbox g ∧ outbox_seq g' = outbox_seq g
  ∧ consumers g' = consumers g ∧ checkpoints g' = checkpoints g ∧ sessions g' = sessions g.

(** A mutation step that changes links only at the identifiers in [X]. *)
Definition mutates (X : gset link_id) g g' : Prop :=
  same_projection g g' ∧ ∀ id, id ∉ X → links g' !! id = links g !! id.

Global Instance mutates_preorder X : PreOrder (mutates X).
Proof.
  split; [done|]. intros g1 g2 g3 [Hp1 Hl1] [Hp2 Hl2]. unfold same_projection in *. destruct_and!.
  split; [split_and!; congruence|]. intros id Hid. by rewrite Hl2, Hl1.
Qed.

Lemma mutates_mono X Y g g' : X ⊆ Y → mutates X g g' → mutates Y g g'.
Proof. intros HXY [Hp Hl]. split; [done|]. intros id Hid. apply Hl. set_solver. Qed.

Lemma enqueue_refresh_mutates k generation g n g' :
  enqueue_refresh k generation g = Ok (n, g') → mutates ∅ g g'.
Proof. by intros [[-> _]|(_ & _ & _ & ->)]%enqueue_refresh_Ok. Qed.

Lemma enqueue_volume_mutates v generation g n g' :
  enqueue_volume_projection_refresh v generation g = Ok (n, g') → mutates ∅ g g'.
Proof. unfold enqueue_volume_projection_refresh. intros Hrun. by ginv. Qed.

Lemma update_volume_mutates v f g n g' : update_volume v f g = Ok (n, g') → mutates ∅ g g'.
Proof. by intros [(r & _ & _ & ->)|(_ & _ & ->)]%update_volume_Ok. Qed.

Lemma update_tombstoned_mutates k b g n g' : update_tombstoned k b g = Ok (n, g') → mutates ∅ g g'.
Proof. by intros [(r & _ & _ & ->)|(_ & _ & ->)]%update_tombstoned_Ok. Qed.

Lemma remove_link_internal_mutates id k generation refresh g n g' :
  remove_link_internal id k generation refresh g = Ok (n, g') → mutates {[id]} g g'.
Proof.
  intros [(_ & -> & _)|(row & b & g1 & g2 & _ & _ & _ & -> & Ht & Hq)]%remove_link_internal_Ok; [done|].
  transitivity (set_links (delete id (links g)) g).
  { split; [done|]. intros id' Hid'. simpl. rewrite lookup_delete_ne; set_solver. }
  transitivity g2; eapply (mutates_mono ∅); try set_solver.
  - destruct Ht as [(_ & m & Hm)|[_ ->]]; [|done]. by eapply update_tombstoned_mutates.
  - destruct (_ && _); [by eapply enqueue_refresh_mutates|]. by destruct Hq as [_ ->].
Qed.

Lemma remove_links_mutates (cs : list (link_id * FileKey)) generation g u g' :
  for_each cs (λ c, remove_link_internal c.1 c.2 generation false ;; mret tt) g = Ok (u, g') →
  mutates (list_to_set cs.*1) g g'.
Proof.
  apply for_each_rel; [apply _|]. intros [c k] h [] h' Hc Hrun. simpl in Hrun. ginv.
  eapply mutates_mono; [|by eapply remove_link_internal_mutates].
  apply singleton_subseteq_l, elem_of_list_to_set, list_elem_of_fmap. by exists (c, k).
Qed.

Lemma upsert_link_mutates link boundary generation g n g' :
  upsert_link link boundary generation g = Ok (n, g') →
  mutates ({[fl_file_link_id link]} ∪ list_to_set (stale_observation_link_conflicts g link).*1) g g'.
Proof.
  intros (g1 & g2 & m & _ & Hrem & _ & Hq & _ & _ & Hins)%upsert_link_Ok.
  set (X := {[fl_file_link_id link]} ∪ _). transitivity g1.
  { eapply mutates_mono; [|by eapply remove_links_mutates]. subst X. set_solver. }
  transitivity g2.
  { destruct Hq as [[-> _]|Hq]; [done|]. eapply (mutates_mono ∅); [set_solver|].
    by eapply enqueue_refresh_mutates. }
  etransitivity; [|eapply (mutates_mono ∅); [set_solver|by eapply update_tombstoned_mutates]].
  split; [done|]. intros id Hid. simpl. rewrite lookup_insert_ne; [done|]. subst X. set_solver.
Qed.

Lemma apply_mutation_mutates m generation g n g' :
  apply_mutation m generation g = Ok (n, g') → mutates (collect_affected_links g m) g g'.
Proof.
  assert (∀ X h h', mutates ∅ h h' → mutates X h h') as H0.
  { intros X h h'. apply mutates_mono. set_solver. }
  destruct m as [d|v st|o|l b|id k|k|v reason]; simpl; intros Hrun.
  - unfold upsert_volume in Hrun. by ginv.
  - ginv. etransitivity; [by eapply update_volume_mutates|by eapply enqueue_volume_mutates].
  - unfold upsert_object in Hrun. by ginv.
  - by eapply upsert_link_mutates.
  - by eapply remove_link_internal_mutates.
  - ginv. apply H0. destruct x.
    match goal with H : tombstone_object _ _ = _ |- _ => apply tombstone_object_Ok in H as [_ H] end.
    by eapply update_tombstoned_mutates.
  - ginv. etransitivity; [by eapply update_volume_mutates|by eapply enqueue_volume_mutates].
Qed.

Lemma apply_mutations_mutates ms generation A g r g' :
  apply_mutations ms generation A g = Ok (r, g') → A ⊆ r.2 ∧ mutates r.2 g g'.
Proof.
  revert A g r. induction ms as [|m ms IH]; intros A g r Hrun; simpl in Hrun; ginv; [done|].
  match goal with H : apply_mutation _ _ _ = _, H' : apply_mutations _ _ _ _ = _ |- _ =>
    apply apply_mutation_mutates in H; apply IH in H' as [Hsub H'];
    split; [set_solver|]; simpl; etransitivity;
      [eapply mutates_mono; [|exact H]; set_solver|exact H'] end.
Qed.

(** ** Projection loops *)

Global Instance same_graph_preorder : PreOrder same_graph.
Proof.
  split; [done|]. intros g1 g2 g3 H1 H2. unfold same_graph in *. destruct_and!.
  split_and!; congruence.
Qed.

Lemma sync_all_same_graph ids generation mode g n g' :
  sum_each ids (λ id, sync_catalog_projection id generation mode) g = Ok (n, g') → same_graph g g'.
Proof. apply sum_each_rel; [apply _|]. intros. by eapply sync_same_graph. Qed.

Lemma sync_all_documents ids generation mode g n g' d :
  sum_each ids (λ id, sync_catalog_projection id generation mode) g = Ok (n, g') → d ∉ ids →
  documents g' !! d = documents g !! d.
Proof.
  intros Hrun Hd.
  refine (triple_sum_each (λ h, documents h !! d = documents g !! d) ids _ _ g n g' eq_refl Hrun).
  intros id Hid h m h' Hh Hs. rewrite <-Hh. eapply sync_documents_ne; [done|]. by intros ->.
Qed.

Lemma sync_all_wf `{!StoreLaws E} (ids : list link_id) generation mode S :
  (generation ≤ i64_max)%Z →
  triple (λ g, graph_wf g ∧ docs_linked (list_to_set ids ∪ S) g)
    (sum_each ids (λ id, sync_catalog_projection id generation mode))
    (λ _ g, graph_wf g ∧ docs_linked S g).
Proof.
  intros Hgen. eapply triple_conseq.
  - apply (triple_sum_each_rest (λ rest g, graph_wf g ∧ docs_linked (list_to_set rest ∪ S) g)).
    intros id rest g n g' Hpre Hrun. split.
    + eapply sync_catalog_projection_wf; [done|apply Hpre|done].
    + eapply sync_docs_linked in Hrun; [|done]. intros d r Hd Hn. apply (Hrun d r Hd). set_solver.
  - done.
  - intros n g [Hwf Hdl]. split; [done|]. intros d r Hd Hn. apply (Hdl d r Hd). set_solver.
Qed.

Lemma docs_linked_mono S T g : S ⊆ T → docs_linked S g → docs_linked T g.
Proof. intros HST Hdl d r Hd Hn. apply (Hdl d r Hd). set_solver. Qed.

Lemma docs_linked_mutates S X g g' : mutates X g g' → docs_linked S g → docs_linked (X ∪ S) g'.
Proof.
  intros [(Hdoc & _) Hl] Hdl d r Hd Hn. rewrite Hdoc in Hd. rewrite Hl by set_solver.
  apply (Hdl d r Hd). set_solver.
Qed.

Lemma docs_linked_mutates_none S g g' : mutates ∅ g g' → docs_linked S g → docs_linked S g'.
Proof. intros Hm Hdl. eapply docs_linked_mono; [|by eapply docs_linked_mutates]. set_solver. Qed.

Lemma docs_linked_ext S g g' :
  documents g' = documents g → links g' = links g → docs_linked S g → docs_linked S g'.
Proof. intros Hd Hl Hdl d r. rewrite Hd, Hl. apply Hdl. Qed.

(** * Batches *)

Lemma validate_mutations_Ok ms v m :
  validate_mutations ms v = Ok tt → m ∈ ms → validate_mutation_volume m v = Ok tt.
Proof.
  induction ms as [|m' ms IH]; simpl; [by intros _ ?%elem_of_nil|]. intros Hv Hm. minv.
  apply elem_of_cons in Hm as [->|Hm]; [by destruct x|auto].
Qed.

Lemma batch_validate_Ok b m :
  batch_validate b = Ok tt → m ∈ gb_mutations b →
  validate_mutation_volume m (gb_volume_id b) = Ok tt.
Proof. unfold batch_validate. case_decide; [|done]. apply validate_mutations_Ok. Qed.

Lemma apply_mutations_wf ms v generation A :
  (∀ m, m ∈ ms → validate_mutation_volume m v = Ok tt ∧ mutation_typed m) →
  keeps graph_wf (apply_mutations ms generation A).
Proof.
  revert A. induction ms as [|m ms IH]; intros A Hms g r g' Hwf Hrun; simpl in Hrun; ginv; [done|].
  destruct (Hms m) as [Hv Ht]; [by left|].
  eapply IH; [|by eapply apply_mutation_wf|done]. intros m' Hm'. apply Hms. by right.
Qed.

Lemma volume_row_ok_generation n r :
  (0 ≤ n ≤ i64_max)%Z → volume_row_ok r → volume_row_ok (set_generation n r).
Proof. intros Hn [? _]. by split. Qed.

Lemma advance_volume_wf v generation row cp g :
  graph_wf g → volumes g !! v = Some row → (0 ≤ generation ≤ i64_max)%Z →
  graph_wf (advance_volume v generation row cp g).
Proof.
  intros Hwf Hrow Hgen. unfold advance_volume.
  assert (graph_wf (set_volumes (<[v:=set_generation generation row]> (volumes g)) g)) as Hwf'.
  { eapply (update_volume_wf v (set_generation generation)); [|exact Hwf|].
    - intros r. by apply volume_row_ok_generation.
    - unfold update_volume. by rewrite Hrow. }
  refine (wf_set_checkpoints _ (<[v:=cp]> (checkpoints g)) Hwf' _). intros v' r. simpl. rewrite lookup_insert_Some.
  intros [[<- _]|[Hne Hc]]; [by rewrite lookup_insert_eq|].
  rewrite lookup_insert_ne by done. by apply (gw_checkpoint _ Hwf v' r).
Qed.

Definition batch_typed (b : GraphMutationBatch) : Prop := Forall mutation_typed (gb_mutations b).

Lemma apply_batch_wf `{!StoreLaws E} b mode :
  batch_typed b → keeps store_wf (apply_batch_with_outbox_mode b mode).
Proof.
  intros Hty g sum g' [Hwf Hdl] (jobs & A & g1 & g2 & n & row & Hval & _ & Hi & Hmut & Hsync & Hrow & -> & _)%apply_batch_Ok.
  pose proof (generation_or_zero_range g (gb_volume_id b) Hwf) as Hr. unfold in_i64 in Hi.
  assert (graph_wf g1) as Hwf1.
  { eapply apply_mutations_wf; [|exact Hwf|exact Hmut]. intros m Hm. split.
    - by eapply batch_validate_Ok.
    - by eapply Forall_forall in Hty. }
  apply apply_mutations_mutates in Hmut as [_ Hmut]. simpl in Hmut.
  eapply docs_linked_mutates in Hdl; [|exact Hmut].
  eapply sync_all_wf in Hsync as [Hwf2 Hdl2]; [|lia|split; [exact Hwf1|]].
  - split; [by apply advance_volume_wf; [..|lia]|]. exact Hdl2.
  - eapply docs_linked_mono; [|exact Hdl]. intros id. rewrite !elem_of_union.
    rewrite elem_of_list_to_set, elem_of_btree_elements. auto.
Qed.

(** * Observation sessions *)

Lemma begin_observation_scan_wf d mode reason : keeps store_wf (begin_observation_scan d mode reason).
Proof.
  intros g s g' [Hwf Hdl] Hrun. unfold begin_observation_scan in Hrun. ginv.
  match goal with H : i64_checked_add _ _ = Some _ |- _ =>
    apply next_generation_range in H as Hgen; [|done] end.
  match goal with H1 : upsert_volume _ _ = _, H2 : update_volume _ _ _ = _,
    H3 : enqueue_volume_projection_refresh _ _ _ = Ok (_, ?h) |- _ =>
    assert (mutates ∅ g h) as Hmut
      by (unfold upsert_volume in H1; ginv;
          etransitivity; [|by eapply enqueue_volume_mutates];
          etransitivity; [|by eapply update_volume_mutates]; done);
    assert (graph_wf h) as Hwf'
      by (eapply enqueue_volume_refresh_wf; [|exact H3];
          eapply update_volume_wf; [|by eapply upsert_volume_wf|exact H2];
          intros r _; split; simpl; lia)
  end.
  split.
  - apply wf_set_sessions; [done|]. intros v' r. rewrite lookup_insert_Some.
    intros [[<- <-]|[_ Hs]]; [|by eapply gw_session]. split; [done|].
    pose proof (scan_mode_code_range mode). unfold session_row_ok. simpl. split; [lia|]. split; [lia|auto].
  - exact (docs_linked_mutates_none _ _ _ Hmut Hdl).
Qed.

Lemma ingest_snapshot_wf `{!StoreLaws E} d cp events :
  Forall (λ e, mutation_typed (GraphMutation_from_event e)) events →
  keeps store_wf (ingest_snapshot d cp events).
Proof.
  intros Hev. apply apply_batch_wf. unfold batch_typed. simpl. constructor; [done|].
  by apply Forall_fmap.
Qed.

Lemma apply_observation_scan_page_wf `{!StoreLaws E} v events :
  Forall (λ e, mutation_typed (GraphMutation_from_event e)) events →
  keeps store_wf (apply_observation_scan_page v events).
Proof.
  intros Hev g s g' Hwf Hrun. unfold apply_observation_scan_page in Hrun. ginv.
  destruct events as [|e es]; ginv; [done|].
  eapply apply_batch_wf; [|exact Hwf|exact Hrun]. unfold batch_typed. by apply Forall_fmap.
Qed.

Lemma stage_observation_checkpoint_wf v cp : keeps store_wf (stage_observation_checkpoint v cp).
Proof.
  intros g u g' [Hwf Hdl] Hrun. unfold stage_observation_checkpoint in Hrun. ginv.
  destruct (sessions _ !! v) as [r|] eqn:Hr; [|by ginv]. case_decide; ginv; [|done].
  split; [|exact Hdl]. apply wf_set_sessions; [done|]. intros v' r'. rewrite lookup_insert_Some.
  intros [[<- <-]|[_ Hs]]; [|by eapply gw_session].
  destruct (gw_session _ Hwf _ _ Hr) as [Hv (Hm & Hg & _)]. split; [done|].
  unfold session_row_ok. simpl. split; [done|]. split; [done|]. right. eauto.
Qed.

Lemma stale_links_volume g v n id l : (id, l) ∈ stale_links g v n → fk_volume (l_object l) = v.
Proof. intros [_ Hp]%elem_of_rows. apply bool_decide_eq_true in Hp. by destruct Hp. Qed.

Lemma sweep_link_wf `{!StoreLaws E} id k generation :
  (generation ≤ i64_max)%Z →
  keeps store_wf (remove_link_internal id k generation false ;;
                  sync_catalog_projection id generation Durable ;; mret tt).
Proof.
  intros Hgen g u g' [Hwf Hdl] Hrun. ginv.
  match goal with H : remove_link_internal _ _ _ _ _ = _, H' : sync_catalog_projection _ _ _ _ = _ |- _ =>
    apply remove_link_internal_wf in H as Hwf1; [|done];
    eapply docs_linked_mutates in Hdl; [|by eapply remove_link_internal_mutates];
    split; [by eapply sync_catalog_projection_wf|];
    eapply sync_docs_linked in H'; [|done];
    eapply docs_linked_mono; [|exact H']; set_solver end.
Qed.

Lemma set_phase_wf v g :
  graph_wf g → (∀ r, sessions g !! v = Some r → s_phase r = 1%Z) →
  graph_wf (set_sessions (alter (set_phase 2) v (sessions g)) g).
Proof.
  intros Hwf Hph. apply wf_set_sessions; [done|]. intros v' r.
  rewrite lookup_alter_Some. intros [(<- & r0 & Hs & ->)|[_ Hs]]; [|by eapply gw_session].
  destruct (gw_session _ Hwf _ _ Hs) as [Hv (Hm & Hg & [[H0 _]|(_ & Hf)])].
  - rewrite (Hph _ Hs) in H0. done.
  - split; [done|]. split; [done|]. split; [done|]. right. split; [by right|done].
Qed.

Lemma sweep_stale_links_wf `{!StoreLaws E} v scan generation maximum g n g' :
  store_wf g → (generation ≤ i64_max)%Z → (∀ r, sessions g !! v = Some r → s_phase r = 1%Z) →
  sweep_stale_observation_links v scan generation maximum g = Ok (n, g') → store_wf g'.
Proof.
  intros Hwf Hgen Hph Hrun. unfold sweep_stale_observation_links in Hrun. ginv.
  match goal with H : for_each _ _ _ = Ok (_, ?h) |- _ =>
    assert (store_wf h ∧ sessions h = sessions g) as [[Hwf1 Hdl1] Hs1] end.
  { eapply (triple_for_each (λ h, store_wf h ∧ sessions h = sessions g)); [|by split|done].
    intros [id l] _ h [] h' [Hh Hs] Hstep. split; [by eapply sweep_link_wf|].
    simpl in Hstep. ginv. rewrite <-Hs.
    match goal with H : sync_catalog_projection _ _ _ _ = _, H' : remove_link_internal _ _ _ _ _ = _ |- _ =>
      apply sync_same_graph in H as (_ & _ & _ & _ & _ & -> & _);
      apply remove_link_internal_mutates in H' as [(_ & _ & _ & _ & _ & ->) _] end. done. }
  case_decide; ginv; [|done]. split; [|exact Hdl1]. apply set_phase_wf; [done|]. by rewrite Hs1.
Qed.

Lemma stale_objects_unlinked g v n k r :
  (k, r) ∈ stale_objects g v n → ∀ id l, links g !! id = Some l → l_object l ≠ k.
Proof.
  intros [_ Hp]%elem_of_rows. apply andb_true_iff in Hp as [_ Hp].
  apply negb_true_iff in Hp. rewrite exists_row_false in Hp. intros id l Hl.
  specialize (Hp id l Hl). unfold object_is in Hp. simpl in Hp. by apply bool_decide_eq_false in Hp.
Qed.

Lemma sweep_stale_objects_wf v scan maximum g r g' :
  store_wf g → sweep_stale_observation_objects v scan maximum g = Ok (r, g') →
  store_wf g' ∧ volumes g' = volumes g ∧ sessions g' = sessions g.
Proof.
  intros [Hwf Hdl] Hrun. unfold sweep_stale_observation_objects in Hrun. ginv.
  match goal with H : for_each _ _ _ = Ok (_, ?h) |- _ =>
    assert (graph_wf h ∧ links h = links g ∧ documents h = documents g ∧ volumes h = volumes g
            ∧ sessions h = sessions g) as (Hwf1 & Hl & Hd & Hv & Hs) end.
  { eapply (triple_for_each (λ h, graph_wf h ∧ links h = links g ∧ documents h = documents g
      ∧ volumes h = volumes g ∧ sessions h = sessions g)); [|done|done].
    intros [k o] Hin h [] h' (Hwf' & Hl & Hd & Hv & Hs) Hstep. simpl in Hstep. ginv.
    apply elem_of_limit in Hin.
    match goal with H : update_tombstoned _ _ _ = _ |- _ =>
      split; [eapply update_tombstoned_wf; [done| |exact H]|
              apply update_tombstoned_Ok in H as [(? & _ & _ & ->)|(_ & _ & ->)]; done] end.
    intros _ id l. rewrite Hl. by eapply stale_objects_unlinked. }
  split; [|done]. split; [done|]. by eapply docs_linked_ext.
Qed.

Lemma activate_checkpoint_wf v generation p f o :
  (0 ≤ generation ≤ i64_max)%Z → keeps store_wf (activate_observation_checkpoint v generation p f o).
Proof.
  intros Hgen g u g' [Hwf Hdl] Hrun. unfold activate_observation_checkpoint in Hrun. ginv.
  match goal with H1 : put_checkpoint _ _ _ = Ok (_, ?h1), H2 : update_volume _ _ _ = _,
    H3 : enqueue_volume_projection_refresh _ _ _ = Ok (_, ?h) |- _ =>
    apply put_checkpoint_Ok in H1 as [Hex ->];
    assert (mutates ∅ (set_checkpoints (<[v:=CheckpointRow x x0 x1]> (checkpoints g)) g) h) as Hmut
      by (etransitivity; [by eapply update_volume_mutates|by eapply enqueue_volume_mutates]);
    assert (graph_wf h) as Hwf'
      by (eapply enqueue_volume_refresh_wf; [|exact H3];
          eapply update_volume_wf; [| |exact H2];
          [intros r _; split; simpl; lia|];
          apply wf_set_checkpoints; [done|]; intros v' r; rewrite lookup_insert_Some;
          intros [[<- _]|[_ Hc]]; [done|by eapply gw_checkpoint]) end.
  split.
  - apply wf_set_sessions; [done|]. intros v' r [_ Hs]%lookup_delete_Some. by eapply gw_session.
  - refine (docs_linked_mutates_none _ _ _ Hmut _). exact Hdl.
Qed.

Lemma finalize_observation_scan_wf `{!StoreLaws E} v maximum :
  keeps store_wf (finalize_observation_scan v maximum).
Proof.
  intros g s g' Hwf Hrun. unfold finalize_observation_scan in Hrun. case_decide; ginv; [done|].
  match goal with H : i64_checked_add _ _ = Some _ |- _ =>
    apply i64_checked_add_Some in H as [-> Hi] end.
  match goal with H : generation_row _ _ = Ok ?c |- _ =>
    assert (0 ≤ c)%Z as Hc by (unfold generation_row in H; destruct (volumes _ !! v) eqn:Hv; [|done];
      simplify_eq; apply (gw_volume_row _ (proj1 Hwf)) in Hv; apply Hv) end.
  unfold in_i64 in Hi.
  match goal with H : (if of_completed ?x then _ else _) ?h = Ok _ |- store_wf ?h' =>
    assert (store_wf h → store_wf h') as Hlast end.
  { intros Hh. destruct (of_completed _); ginv; [done|]. split.
    - eapply update_volume_wf; [|apply Hh|done]. intros r. apply volume_row_ok_generation. lia.
    - eapply docs_linked_mutates_none; [by eapply update_volume_mutates|apply Hh]. }
  apply Hlast. clear Hlast. case_decide; ginv.
  - eapply sweep_stale_links_wf; [done| | |done]; [lia|]. intros r Hr. congruence.
  - match goal with H : sweep_stale_observation_objects _ _ _ _ = _ |- _ =>
      apply sweep_stale_objects_wf in H as (Hwf' & _ & _); [|done] end.
    destruct (snd _); ginv; [|done]. eapply activate_checkpoint_wf; [|exact Hwf'|done]. lia.
Qed.

(** * Consumers and outbox maintenance *)

Lemma max_consumer_le g : graph_wf g → (max_consumer_sequence g ≤ high_water g)%Z.
Proof.
  intros Hwf. pose proof (gw_high_water _ Hwf) as Hh. unfold max_consumer_sequence.
  assert (∀ c r, (c, r) ∈ map_to_list (consumers g) → (k_last_sequence r ≤ high_water g)%Z) as Hall.
  { intros c r Hin%elem_of_map_to_list. apply (gw_consumer _ Hwf) in Hin. lia. }
  induction (map_to_list (consumers g)) as [|[c r] l IH]; simpl; [lia|].
  pose proof (Hall c r (list_elem_of_here _ _)). assert (∀ c r, (c, r) ∈ l → (k_last_sequence r ≤ high_water g)%Z) as Hl.
  { intros c' r' Hin. eapply Hall. by right. }
  specialize (IH Hl). lia.
Qed.

(** On a well-formed database the newest sequence ever handed out is the high-water mark. *)
Lemma latest_outbox_sequence_eq g : graph_wf g → latest_outbox_sequence g = Ok (high_water g).
Proof.
  intros Hwf. pose proof (gw_high_water _ Hwf). pose proof (max_consumer_le g Hwf).
  unfold latest_outbox_sequence. change (default 0%Z (outbox_seq g)) with (high_water g).
  assert (max_key (outbox g) ≤ high_water g)%Z.
  { apply max_key_le; [lia|]. intros s r Hs. apply (gw_outbox _ Hwf) in Hs. lia. }
  replace (Z.max _ _) with (high_water g) by lia.
  unfold u64_try_from. rewrite decide_True; [done|]. unfold in_u64, i64_max, u64_max in *. lia.
Qed.

Lemma acknowledge_projection_wf c last gen :
  (0 ≤ last)%Z → (0 ≤ gen)%Z → keeps store_wf (acknowledge_projection c last gen).
Proof.
  intros Hlast Hgen g u g' [Hwf Hdl] Hrun. unfold acknowledge_projection in Hrun. ginv.
  rewrite latest_outbox_sequence_eq in * by done. simplify_eq.
  repeat match goal with
  | H : i64_try_from _ = Some _ |- _ => apply i64_try_from_Some in H as [-> ?]
  | H : negb _ = true |- _ => apply negb_true_iff in H; apply bool_decide_eq_false in H
  end.
  unfold in_i64 in *. split; [|exact Hdl]. apply wf_set_consumers; [done|].
  intros c' r. rewrite lookup_insert_Some. intros [[<- <-]|[_ Hc]]; [simpl; lia|].
  by eapply gw_consumer.
Qed.

Lemma reset_consumer_wf c : keeps store_wf (reset_projection_consumer c).
Proof.
  intros g b g' [Hwf Hdl] Hrun. unfold reset_projection_consumer in Hrun. ginv.
  split; [|exact Hdl]. apply wf_set_consumers; [done|]. intros c' r [_ Hc]%lookup_delete_Some.
  by eapply gw_consumer.
Qed.

(** Deleting outbox rows keeps the high-water mark. *)
Lemma shrink_outbox_wf g xs :
  store_wf g → xs ⊆ outbox g →
  (∀ s s' r, xs !! s = Some r → (s ≤ s')%Z → is_Some (outbox g !! s') → is_Some (xs !! s')) →
  store_wf (set_outbox xs (outbox_seq g) g).
Proof.
  intros [Hwf Hdl] Hsub Hup. split; [|exact Hdl]. pose proof (gw_high_water _ Hwf).
  apply wf_set_outbox; [done| | |unfold high_water in *; lia].
  - intros s r Hs. eapply lookup_weaken in Hs; [|exact Hsub]. by apply (gw_outbox _ Hwf) in Hs.
  - intros s s' r Hs Hle. eapply Hup; [exact Hs|lia|]. eapply lookup_weaken in Hs; [|exact Hsub].
    by eapply (gw_outbox_gapless _ Hwf).
Qed.

Lemma prune_consumed_wf : keeps store_wf prune_consumed_outbox.
Proof.
  intros g n g' Hwf Hrun. unfold prune_consumed_outbox in Hrun. ginv.
  destruct (min_consumer_sequence g); ginv; [|done]. apply shrink_outbox_wf; [done| |].
  - apply map_filter_subseteq.
  - intros s s' r [_ Hlt]%map_lookup_filter_Some Hle [r' Hr']. exists r'.
    apply map_lookup_filter_Some. simpl in *. split; [done|lia].
Qed.

Lemma lookup_foldr_delete (xs : list Z) (m : gmap Z outbox_row) s r :
  foldr delete m xs !! s = Some r ↔ m !! s = Some r ∧ s ∉ xs.
Proof.
  induction xs as [|x xs IH]; simpl; [set_solver|].
  rewrite lookup_delete_Some, IH, not_elem_of_cons. naive_solver.
Qed.

(** The oldest rows up to a bound are removed: what is left is still a suffix of the log. *)
Lemma prune_page_suffix g safe maximum s s' r :
  let page := limit maximum (rows by_key_Z (at_most safe) (outbox g)) in
  foldr delete (outbox g) page.*1 !! s = Some r → (s ≤ s')%Z → is_Some (outbox g !! s') →
  is_Some (foldr delete (outbox g) page.*1 !! s').
Proof.
  intros page [Hs Hn]%lookup_foldr_delete Hle [r' Hr']. exists r'. apply lookup_foldr_delete.
  split; [done|]. intros ([s1 r1] & -> & Hin)%list_elem_of_fmap. apply Hn, list_elem_of_fmap.
  exists (s, r). split; [done|]. simpl in *.
  assert (outbox g !! s1 = Some r1 ∧ at_most safe (s1, r1) = true) as [Hr1 Hat].
  { apply (elem_of_rows by_key_Z), (elem_of_limit maximum), Hin. }
  apply bool_decide_eq_true in Hat. simpl in Hat.
  destruct (limit_prefix by_key_Z maximum _ (s, r) (s1, r1)
    (rows_sorted by_key_Z (at_most safe) (outbox g))) as [|Hge]; [|done|done|].
  - apply elem_of_rows. split; [done|]. apply bool_decide_eq_true. simpl. lia.
  - unfold by_key_Z in Hge. simpl in Hge. assert (s1 = s) as -> by lia. congruence.
Qed.

Lemma prune_rebuildable_wf maximum allow : keeps store_wf (prune_rebuildable_outbox_bounded maximum allow).
Proof.
  intros g n g' Hwf Hrun. unfold prune_rebuildable_outbox_bounded in Hrun. ginv.
  destruct (safe_through g allow); ginv; [|done]. apply shrink_outbox_wf; [done| |].
  - apply map_subseteq_spec. intros s r Hs. by apply lookup_foldr_delete in Hs as [? _].
  - intros s s' r. apply prune_page_suffix.
Qed.

Lemma compact_row_keeps doc r :
  document_from_json (d_json r) = Some doc → document_row_ok r → d_path r = None →
  row_describes (compact_row doc r) doc.
Proof.
  intros Hj [_ (old & Hid & Hv & [[Hp _]|(_ & _ & Hj')])] Hnone; [congruence|].
  assert (old = doc) as -> by congruence. unfold compact_row. rewrite Hnone.
  repeat split; simpl; auto.
Qed.

Lemma compact_step_wf doc d g :
  graph_wf g →
  (∀ r, documents g !! d = Some r → d_path r = None → document_from_json (d_json r) = Some doc) →
  graph_wf (set_documents (alter (compact_row doc) d (documents g)) g).
Proof.
  intros Hwf Hj. apply wf_set_documents; [done|]. intros d' r'. rewrite lookup_alter_Some.
  intros [(<- & r & Hr & ->)|[_ Hr]]; [|by eapply gw_document].
  destruct (gw_document _ Hwf _ _ Hr) as (Hid & Hobj & Hok). destruct (d_path r) eqn:Hp.
  - unfold compact_row. by rewrite Hp.
  - pose proof (compact_row_keeps doc r (Hj r Hr Hp) Hok Hp) as Hdesc.
    destruct Hok as [Hv _]. unfold compact_row in *. rewrite Hp in *. simpl.
    split; [done|]. split; [done|]. split; [done|]. by exists doc.
Qed.

Lemma compact_docs_linked doc d S g :
  docs_linked S g → docs_linked S (set_documents (alter (compact_row doc) d (documents g)) g).
Proof.
  intros Hdl d' r'. simpl. rewrite lookup_alter_Some.
  intros [(<- & r & Hr & ->)|[_ Hr]] Hn; [|by apply (Hdl _ _ Hr)].
  destruct (Hdl _ _ Hr Hn) as (l & Hl & Ho). exists l. split; [done|].
  unfold compact_row. by destruct (d_path r).
Qed.

(** A row that is still to be rewritten has not been touched. *)
Definition legacy_rest (rest : list (document_id * document_row)) g : Prop :=
  NoDup rest.*1 ∧ ∀ d r, (d, r) ∈ rest → documents g !! d = Some r.

Lemma legacy_rest_page g maximum :
  legacy_rest (limit maximum (rows by_key_N (λ r, bool_decide (d_path r.2 = None)) (documents g))) g.
Proof.
  split.
  - unfold limit. rewrite fmap_take. eapply sublist_NoDup; [|apply sublist_take].
    apply rows_NoDup_keys.
  - intros d r Hin%elem_of_limit. by apply elem_of_rows in Hin as [? _].
Qed.

Lemma legacy_rest_step d r rest doc g :
  legacy_rest ((d, r) :: rest) g →
  documents g !! d = Some r ∧
  legacy_rest rest (set_documents (alter (compact_row doc) d (documents g)) g).
Proof.
  intros [Hnd Hin]. apply NoDup_cons in Hnd as [Hd Hnd]. split; [apply Hin; by left|].
  split; [done|]. intros d' r' Hin'. simpl. rewrite lookup_alter_ne; [apply Hin; by right|].
  intros <-. apply Hd, list_elem_of_fmap. by exists (d, r').
Qed.

Lemma compact_legacy_wf maximum : keeps store_wf (compact_legacy_desired_payloads_bounded maximum).
Proof.
  intros g n g' [Hwf Hdl] Hrun. unfold compact_legacy_desired_payloads_bounded in Hrun. ginv.
  match goal with H : for_each _ _ _ = Ok _ |- _ =>
    eapply (triple_for_each_rest (λ rest h, store_wf h ∧ legacy_rest rest h)) in H;
      [apply H|clear H|split; [by split|apply legacy_rest_page]] end.
  intros [d r] rest h u h' [[Hwfh Hdlh] Hrest] Hstep. simpl in Hstep. ginv.
  match goal with |- context [compact_row ?doc] =>
    destruct (legacy_rest_step _ _ _ doc _ Hrest) as [Hd Hrest'] end.
  split; [split|done].
  - apply compact_step_wf; [done|]. intros r' Hr' _. congruence.
  - by apply compact_docs_linked.
Qed.

(** * Refresh *)

Lemma generation_row_range g v n : graph_wf g → generation_row v g = Ok n → (0 ≤ n ≤ i64_max)%Z.
Proof.
  intros Hwf. unfold generation_row. destruct (volumes g !! v) eqn:Hv; [|done]. intros [= <-].
  by apply (gw_volume_row _ Hwf) in Hv as [_ ?].
Qed.

Lemma sync_page_wf `{!StoreLaws E} ids generation :
  (generation ≤ i64_max)%Z →
  keeps store_wf (sum_each ids (λ id, sync_catalog_projection id generation Durable)).
Proof.
  intros Hgen g n g' [Hwf Hdl] Hrun. eapply (sync_all_wf _ _ _ ∅) in Hrun; [exact Hrun|done|].
  split; [done|]. eapply docs_linked_mono; [|exact Hdl]. set_solver.
Qed.

Lemma alter_path_job_wf (f : path_job_row → path_job_row) j g :
  (∀ r, pj_root (f r) = pj_root r) → (∀ r, pj_state (f r) = 0%Z → pj_state r = 0%Z) →
  store_wf g → store_wf (set_path_jobs (alter f j (path_jobs g)) g).
Proof.
  intros Hroot Hst [Hwf Hdl]. split; [|exact Hdl].
  assert (∀ j' r', alter f j (path_jobs g) !! j' = Some r' →
    ∃ r, path_jobs g !! j' = Some r ∧ pj_root r' = pj_root r ∧ (pj_state r' = 0 → pj_state r = 0)%Z) as Hold.
  { intros j' r'. rewrite lookup_alter_Some. intros [(<- & r & Hr & ->)|[_ Hr]]; eauto 10. }
  apply wf_set_path_jobs; [done| |].
  - intros j' r' (r & Hr & -> & _)%Hold. by eapply gw_job_root.
  - intros j1 j2 r1 r2 (q1 & H1 & -> & Hs1)%Hold (q2 & H2 & -> & Hs2)%Hold Hz1 Hz2.
    eapply (gw_job_pending _ Hwf); eauto.
Qed.

Lemma alter_volume_job_wf f v g :
  store_wf g → store_wf (set_volume_jobs (alter f v (volume_jobs g)) g).
Proof.
  intros [Hwf Hdl]. split; [|exact Hdl]. apply wf_set_volume_jobs; [done|].
  intros v' r'. rewrite lookup_alter_Some. intros [(<- & r & Hr & _)|[_ Hr]]; by eapply gw_volume_job.
Qed.

Lemma refresh_projection_paths_wf `{!StoreLaws E} maximum : keeps store_wf (refresh_projection_paths maximum).
Proof.
  intros g s g' Hwf Hrun. unfold refresh_projection_paths in Hrun. case_decide; ginv; [done|].
  destruct (pending_path_jobs g) as [|[job row] rest]; ginv; [done|].
  match goal with H : generation_row _ _ = Ok _ |- _ =>
    apply generation_row_range in H; [|apply Hwf] end.
  match goal with H : sum_each _ _ _ = _ |- _ => apply sync_page_wf in H; [|lia|done] end.
  case_bool_decide; ginv; [by apply alter_path_job_wf|].
  destruct (last _); ginv; [by apply alter_path_job_wf|done].
Qed.

Lemma refresh_volume_projection_wf `{!StoreLaws E} maximum : keeps store_wf (refresh_volume_projection maximum).
Proof.
  intros g s g' Hwf Hrun. unfold refresh_volume_projection in Hrun. case_decide; ginv; [done|].
  destruct (pending_volume_jobs g) as [|[v row] rest]; ginv; [done|].
  match goal with H : generation_row _ _ = Ok _ |- _ =>
    apply generation_row_range in H; [|apply Hwf] end.
  match goal with H : sum_each _ _ _ = _ |- _ => apply sync_page_wf in H; [|lia|done] end.
  case_bool_decide; ginv; [by apply alter_volume_job_wf|].
  destruct (last _); ginv; [by apply alter_volume_job_wf|done].
Qed.

Lemma complete_refresh_job_wf job : keeps store_wf (complete_refresh_job job).
Proof.
  intros g s g' Hwf Hrun. unfold complete_refresh_job in Hrun. ginv.
  destruct (path_jobs g !! job) as [r|] eqn:Hj; [|by ginv]. case_decide; ginv; [|done].
  replace (<[job:=set_job_state 2 r]> (path_jobs g)) with (alter (set_job_state 2) job (path_jobs g)).
  - by apply alter_path_job_wf.
  - apply map_eq. intros j. destruct (decide (job = j)) as [<-|]; simplify_map_eq; done.
Qed.
End preserve.
