(* ===== verification/GraphReach.v ===== *)
(** The store as a transition system: its public operations, the databases they can reach from an
    empty one, and the invariant that holds in all of them. *)
From stdpp Require Import base strings numbers gmap list sorting relations.
From S2P Require Import Prelude Models GraphDomain GraphTables Fixtures GraphPath GraphMutate.
From S2P Require Import GraphProjection GraphStore GraphOutbox GraphRefresh GraphInvariant.
From S2P Require Import GraphPreserve.

(** The public operations of [FilesystemGraph] that write. *)
Inductive op :=
| OpApplyBatch (b : GraphMutationBatch)
| OpApplyRebuildableBatch (b : GraphMutationBatch)
| OpIngestSnapshot (d : VolumeDescriptor) (cp : ProviderCheckpoint) (events : list FilesystemEvent)
| OpBeginObservationScan (d : VolumeDescriptor) (mode : ObservationScanMode)
    (reason : ReconciliationReason)
| OpApplyObservationScanPage (v : volume_id) (events : list FilesystemEvent)
| OpStageObservationCheckpoint (v : volume_id) (cp : ProviderCheckpoint)
| OpFinalizeObservationScan (v : volume_id) (maximum_rows : Z)
| OpAcknowledgeProjection (consumer : string) (last_sequence index_generation : Z)
| OpResetProjectionConsumer (consumer : string)
| OpPruneConsumedOutbox
| OpPruneRebuildableOutbox (maximum_rows : Z) (allow_without_consumers : bool)
| OpCompactLegacyPayloads (maximum_rows : Z)
| OpRefreshProjectionPaths (maximum_links : Z)
| OpRefreshVolumeProjection (maximum_links : Z)
| OpCompleteRefreshJob (job : Z).

(** What Rust's types guarantee of the arguments: sizes and sequence numbers are u64,
    link identifiers have 128 bits. *)
Definition events_typed (events : list FilesystemEvent) : Prop :=
  Forall (λ e, mutation_typed (GraphMutation_from_event e)) events.

Definition op_typed (o : op) : Prop :=
  match o with
  | OpApplyBatch b | OpApplyRebuildableBatch b => batch_typed b
  | OpIngestSnapshot _ _ events | OpApplyObservationScanPage _ events => events_typed events
  | OpAcknowledgeProjection _ last gen => in_u64 last ∧ in_u64 gen
  | _ => True
  end.

Section reach.
Context `{E : StoreEnv}.
Implicit Types (g : db).

(** An operation with its result dropped. *)
Definition discard {A} (m : GM A) : GM unit := m ;; mret tt.

Definition run_op (o : op) : GM unit :=
  match o with
  | OpApplyBatch b => discard (apply_batch b)
  | OpApplyRebuildableBatch b => discard (apply_rebuildable_batch b)
  | OpIngestSnapshot d cp events => discard (ingest_snapshot d cp events)
  | OpBeginObservationScan d mode reason => discard (begin_observation_scan d mode reason)
  | OpApplyObservationScanPage v events => discard (apply_observation_scan_page v events)
  | OpStageObservationCheckpoint v cp => stage_observation_checkpoint v cp
  | OpFinalizeObservationScan v n => discard (finalize_observation_scan v n)
  | OpAcknowledgeProjection c last gen => acknowledge_projection c last gen
  | OpResetProjectionConsumer c => discard (reset_projection_consumer c)
  | OpPruneConsumedOutbox => discard prune_consumed_outbox
  | OpPruneRebuildableOutbox n allow => discard (prune_rebuildable_outbox_bounded n allow)
  | OpCompactLegacyPayloads n => discard (compact_legacy_desired_payloads_bounded n)
  | OpRefreshProjectionPaths n => discard (refresh_projection_paths n)
  | OpRefreshVolumeProjection n => discard (refresh_volume_projection n)
  | OpCompleteRefreshJob j => discard (complete_refresh_job j)
  end.

(** One call: it commits, or fails and leaves the database as it was. *)
Inductive store_step : relation db :=
| step_commit o g g' : op_typed o → run_op o g = Ok (tt, g') → store_step g g'
| step_rollback o g e : op_typed o → run_op o g = Err e → store_step g g.

Definition reachable (g : db) : Prop := rtc store_step empty_db g.

Lemma discard_wf {A} I (m : GM A) : keeps I m → keeps I (discard m).
Proof. intros Hm. eapply triple_bind; [exact Hm|]. intros a. by apply triple_ret. Qed.

Lemma run_op_wf `{!StoreLaws E} o : op_typed o → keeps store_wf (run_op o).
Proof.
  intros Hty. destruct o; simpl in *; try apply discard_wf.
  - by apply apply_batch_wf.
  - by apply apply_batch_wf.
  - by apply ingest_snapshot_wf.
  - apply begin_observation_scan_wf.
  - by apply apply_observation_scan_page_wf.
  - apply stage_observation_checkpoint_wf.
  - apply finalize_observation_scan_wf.
  - destruct Hty as [[? _] [? _]]. by apply acknowledge_projection_wf.
  - apply reset_consumer_wf.
  - apply prune_consumed_wf.
  - apply prune_rebuildable_wf.
  - apply compact_legacy_wf.
  - apply refresh_projection_paths_wf.
  - apply refresh_volume_projection_wf.
  - apply complete_refresh_job_wf.
Qed.

Lemma store_step_wf `{!StoreLaws E} g g' : store_wf g → store_step g g' → store_wf g'.
Proof. intros Hwf Hs. destruct Hs as [o h h' Hty Hrun|]; [by eapply run_op_wf|done]. Qed.

Lemma store_steps_wf `{!StoreLaws E} g g' : store_wf g → rtc store_step g g' → store_wf g'.
Proof.
  intros Hwf Hr. revert Hwf. induction Hr as [|h1 h2 h3 Hs _ IH]; [done|]. intros Hwf. apply IH.
  by eapply store_step_wf.
Qed.

Lemma store_wf_empty : store_wf empty_db.
Proof. split; [apply graph_wf_empty|apply docs_linked_empty]. Qed.

(** Running a list of calls. *)
Fixpoint run_ops (os : list op) (g : db) : db :=
  match os with [] => g | o :: os => run_ops os (commit (run_op o) g) end.

Lemma run_ops_steps os g : Forall op_typed os → rtc store_step g (run_ops os g).
Proof.
  revert g. induction os as [|o os IH]; intros g Hty; simpl; [done|].
  apply Forall_cons in Hty as [Ho Hty]. eapply rtc_l; [|by apply IH]. unfold commit.
  destruct (run_op o g) as [[[] g']|e] eqn:Hrun; [by eapply step_commit|by eapply step_rollback].
Qed.

(** C1 (store invariant): whatever sequence of public operations runs, committing or failing, the
    database satisfies the schema's foreign keys and unique indexes, no linked object is
    tombstoned, no two links share a namespace slot, links never cross volumes, at most one pending
    path job exists per directory, every desired document belongs to a live link of the same
    object, outbox sequences stay below the high-water mark and consumers never pass it. *)
Theorem reachable_store_wf `{!StoreLaws E} (g : db) : reachable g → store_wf g.
Proof. intros Hr. eapply store_steps_wf; [apply store_wf_empty|exact Hr]. Qed.
End reach.

(** A volume with a directory and a file below it. *)
Definition sample_events : list FilesystemEvent :=
  [observe_dir 1; observe_link 10 1 None "docs"; observe_file 2 7; observe_link 20 2 (Some 1%N) "a.TXT"].
Definition sample_ops : list op :=
  [OpIngestSnapshot descriptor (checkpoint_at 1) sample_events; OpRefreshProjectionPaths 100].

Lemma sample_ops_typed : Forall op_typed sample_ops.
Proof. repeat constructor; simpl; unfold in_u64, u64_max; lia. Qed.

Lemma reachable_store_wf_witness :
  let g := run_ops sample_ops empty_db in store_wf g ∧ size (documents g) = 2.
Proof.
  split; [|vm_compute; reflexivity].
  apply (reachable_store_wf (run_ops sample_ops empty_db)). apply run_ops_steps, sample_ops_typed.
Defined.
