(* ===== verification/GraphSync.v ===== *)
(** The desired catalog mirrors the graph: what one synchronisation achieves, that it cannot fail
    on a well-formed database, and what a whole batch leaves synchronised. *)
From stdpp Require Import base strings numbers gmap list sorting.
From S2P Require Import Prelude Models GraphDomain GraphTables Fixtures GraphPath GraphMutate.
From S2P Require Import GraphProjection GraphStore GraphInvariant GraphPreserve GraphReach.

Section sync.
Context `{E : StoreEnv}.
Implicit Types (g : db) (id : link_id) (k : FileKey) (v : volume_id) (generation : Z).

(** The desired row of a link describes exactly the document the graph asks for. *)
Definition synced g id : Prop :=
  match documents g !! id with
  | None => wanted g id = None
  | Some r => ∃ doc, row_describes r doc ∧ wanted g id = Some (document_content doc)
  end.

(** ** What a document depends on *)

Lemma wanted_depends g g' id :
  links g' !! id = links g !! id →
  (∀ l, links g !! id = Some l →
     load_object_metadata g' (l_object l) = load_object_metadata g (l_object l)
     ∧ volume_state_of g' (fk_volume (l_object l)) = volume_state_of g (fk_volume (l_object l))
     ∧ resolve_path_connection g' id PATH_DEPTH = resolve_path_connection g id PATH_DEPTH) →
  wanted g' id = wanted g id.
Proof.
  intros Hl Hdep. unfold wanted, desired_document, load_link. rewrite Hl.
  destruct (links g !! id) as [l|]; [|done]. simpl. destruct (Hdep l eq_refl) as (Hm & Hv & Hp).
  unfold build_catalog_document. simpl. by rewrite Hm, Hv, Hp.
Qed.

Lemma volume_state_of_ext g g' v :
  v_state <$> volumes g' !! v = v_state <$> volumes g !! v →
  volume_state_of g' v = volume_state_of g v.
Proof.
  unfold volume_state_of. destruct (volumes g' !! v), (volumes g !! v); simpl; try done.
  intros [= ->]. done.
Qed.

Lemma wanted_ext g g' id :
  links g' = links g → objects g' = objects g →
  (∀ v, v_state <$> volumes g' !! v = v_state <$> volumes g !! v) →
  wanted g' id = wanted g id.
Proof.
  intros Hl Ho Hv. apply wanted_depends; [by rewrite Hl|]. intros l _.
  unfold load_object_metadata. rewrite Ho. split_and!; [done|by apply volume_state_of_ext|].
  by apply resolve_path_links.
Qed.

Lemma same_graph_wanted g g' id : same_graph g g' → wanted g' id = wanted g id.
Proof. intros (Hv & Ho & Hl & _). apply wanted_ext; [done|done|]. by rewrite Hv. Qed.

Lemma synced_ext g g' id :
  documents g' !! id = documents g !! id → wanted g' id = wanted g id → synced g id → synced g' id.
Proof. unfold synced. by intros -> ->. Qed.

(** ** One link *)

Lemma sync_synced `{!StoreLaws E} id generation mode g n g' :
  graph_wf g → sync_catalog_projection id generation mode g = Ok (n, g') → synced g' id.
Proof.
  intros Hwf Hrun. pose proof (same_graph_wanted _ _ id (sync_same_graph _ _ _ _ _ _ Hrun)) as Hw.
  unfold synced. rewrite Hw, <-(wanted_version g id generation).
  apply sync_catalog_projection_Ok in Hrun as [_ Hout].
  destruct Hout as [Hdes Hd|r Hdes Hd ?|d r Hdes Hr Hun|d Hdes ? ?]; rewrite Hdes; simpl.
  - by rewrite Hd.
  - by rewrite lookup_delete_eq.
  - rewrite Hr. apply (gw_document _ Hwf) in Hr as (_ & _ & Hok).
    apply content_unchanged_describes in Hun as (old & Hold & Hb); [|done]. exists old.
    split; [done|]. f_equal. symmetry. by apply Hb.
  - rewrite lookup_insert_eq. exists d. split; [|done].
    destruct (desired_document_Some _ _ _ _ Hdes) as (l & _ & Hid & Hv & _).
    by eapply compact_row_describes.
Qed.

(** A list of links, synchronised one after the other. *)
Lemma sync_all_synced `{!StoreLaws E} ids generation mode g n g' id :
  graph_wf g → (generation ≤ i64_max)%Z →
  sum_each ids (λ id, sync_catalog_projection id generation mode) g = Ok (n, g') →
  id ∈ ids ∨ synced g id → synced g' id.
Proof.
  intros Hwf Hgen Hrun Hid.
  assert (graph_wf g' ∧ (id ∈ @nil link_id ∨ synced g' id)) as [_ [Hnil|?]];
    [|by apply elem_of_nil in Hnil|done].
  refine (triple_sum_each_rest (λ rest h, graph_wf h ∧ (id ∈ rest ∨ synced h id)) ids _ _ g n g'
    (conj Hwf Hid) Hrun).
  intros x rest h m h' [Hwfh Hin] Hs. split; [by eapply sync_catalog_projection_wf|].
  destruct (decide (id = x)) as [->|Hne]; [right; by eapply sync_synced|].
  destruct Hin as [Hin|Hsync]; [left; set_solver|right].
  eapply synced_ext; [by eapply sync_documents_ne| |done].
  by eapply same_graph_wanted, sync_same_graph.
Qed.

(** ** Totality *)

Lemma resolve_loop_Err g depth remaining l is_target comps seen e :
  resolve_loop g depth remaining l is_target comps seen = Err e → unsearchable e = true.
Proof.
  revert l is_target comps seen. induction remaining as [|rem IH]; intros l tgt comps seen; simpl.
  - by intros [= <-].
  - destruct (_ && _); [by intros [= <-]|]. destruct (sl_parent_key l) as [p|]; [|done].
    case_decide; [by intros [= <-]|]. unfold mbind, result_bind, load_only_link_for_object.
    destruct (limit _ _) as [|[id r] [|? ?]]; [by intros [= <-]|apply IH|by intros [= <-]].
Qed.

Lemma resolve_path_Err g id depth e :
  is_Some (links g !! id) → resolve_path_connection g id depth = Err e → unsearchable e = true.
Proof.
  intros [l Hl]. unfold resolve_path_connection, load_link. rewrite Hl.
  case_decide; [by intros [= <-]|]. apply resolve_loop_Err.
Qed.

Lemma file_kind_from_code_ok z : (0 ≤ z ≤ 4)%Z → ∃ kind, file_kind_from_code z = Ok kind.
Proof.
  intros Hz. assert (z = 0 ∨ z = 1 ∨ z = 2 ∨ z = 3 ∨ z = 4)%Z as H by lia.
  destruct_or!; subst; eexists; reflexivity.
Qed.
Lemma availability_from_code_ok z : (0 ≤ z ≤ 2)%Z → ∃ a, availability_from_code z = Ok a.
Proof.
  intros Hz. assert (z = 0 ∨ z = 1 ∨ z = 2)%Z as H by lia.
  destruct_or!; subst; eexists; reflexivity.
Qed.
Lemma volume_state_from_code_ok z : (0 ≤ z ≤ 2)%Z → ∃ s, volume_state_from_code z = Ok s.
Proof.
  intros Hz. assert (z = 0 ∨ z = 1 ∨ z = 2)%Z as H by lia.
  destruct_or!; subst; eexists; reflexivity.
Qed.

Lemma metadata_from_row_ok c r : object_row_ok r → ∃ m, metadata_from_row c r = Ok m.
Proof.
  intros (Hk & Hs & Ha). unfold metadata_from_row.
  destruct (file_kind_from_code_ok _ Hk) as [? ->].
  destruct (availability_from_code_ok _ Ha) as [? ->].
  unfold u64_try_from. rewrite decide_True by (unfold in_u64, u64_max, i64_max in *; lia).
  eexists. reflexivity.
Qed.

Lemma volume_state_of_ok g k :
  graph_wf g → is_Some (objects g !! k) → ∃ s, volume_state_of g (fk_volume k) = Ok s.
Proof.
  intros Hwf [o Ho]. apply (gw_object_volume _ Hwf) in Ho as [r Hr].
  unfold volume_state_of. rewrite Hr. apply (gw_volume_row _ Hwf) in Hr as [? _].
  by apply volume_state_from_code_ok.
Qed.

(** Building the document of a link only ever fails because the link cannot be placed. *)
Lemma build_Err g id link version e :
  graph_wf g → load_link g id = Some link →
  build_catalog_document g link version = Err e → unsearchable e = true.
Proof.
  intros Hwf Hlink. unfold load_link in Hlink. destruct (links g !! id) as [l|] eqn:Hl; [|done].
  simpl in Hlink. simplify_eq. unfold build_catalog_document. simpl.
  destruct (gw_link_live _ Hwf _ _ Hl) as (o & Ho & Ht). unfold load_object_metadata.
  rewrite Ho, Ht. destruct (metadata_from_row_ok 1 o) as [m ->]; [by eapply gw_object_row|].
  destruct (volume_state_of_ok g (l_object l) Hwf) as [s ->]; [eauto|]. simpl.
  destruct (resolve_path_connection g id PATH_DEPTH) as [p|e'] eqn:Hp; [done|].
  simpl. intros [= <-]. by eapply resolve_path_Err.
Qed.

Lemma append_outbox_total doc version m g :
  graph_wf g → (0 ≤ version ≤ i64_max)%Z → (high_water g < i64_max)%Z →
  ∃ g', append_outbox doc version m g = Ok (tt, g').
Proof.
  intros Hwf Hv Hh. unfold append_outbox, lift, mbind, M_bind, i64_try_from.
  rewrite decide_True by (unfold in_i64, i64_min in *; lia). simpl.
  unfold guard_m, lift. rewrite next_sequence_eq by done.
  rewrite bool_decide_eq_true_2 by lia. simpl. eauto.
Qed.

Lemma delete_projection_total doc version mode g :
  graph_wf g → (0 ≤ version ≤ i64_max)%Z → (high_water g < i64_max)%Z →
  ∃ n g', delete_catalog_projection doc version mode g = Ok (n, g').
Proof.
  intros Hwf Hv Hh. unfold delete_catalog_projection, mbind, M_bind. simpl.
  destruct (documents g !! doc); [|by do 2 eexists]. destruct mode; [|by do 2 eexists].
  destruct (append_outbox_total doc version (Delete doc version) g Hwf Hv Hh) as [g' ->].
  by do 2 eexists.
Qed.

Lemma content_unchanged_total r d : document_row_ok r → ∃ b, content_unchanged (Some r) d = Ok b.
Proof.
  intros [_ (old & _ & _ & [[_ Hf]|(_ & Hf & Hj)])]; simpl; rewrite Hf; [eauto|].
  rewrite Hj. simpl. eexists. reflexivity.
Qed.

Lemma sync_total id generation mode g :
  graph_wf g → (0 ≤ generation ≤ i64_max)%Z → (high_water g < i64_max)%Z →
  ∃ n g', sync_catalog_projection id generation mode g = Ok (n, g').
Proof.
  intros Hwf Hgen Hh. unfold sync_catalog_projection, lift, mbind, M_bind, u64_try_from.
  rewrite decide_True by (unfold in_u64, u64_max, i64_max in *; lia). simpl.
  destruct (load_link g id) as [link|] eqn:Hlink; [|by apply delete_projection_total].
  destruct (build_catalog_document g link generation) as [d|e] eqn:Hb.
  2:{ rewrite (build_Err _ _ _ _ _ Hwf Hlink Hb). by apply delete_projection_total. }
  assert (∃ b, content_unchanged (documents g !! document_id_for_link id) d = Ok b) as [b Hun].
  { destruct (documents g !! _) as [r|] eqn:Hd; [|by eexists].
    apply content_unchanged_total. by apply (gw_document _ Hwf) in Hd as (_ & _ & ?). }
  rewrite Hun. destruct b; [by do 2 eexists|].
  assert (is_Some (objects g !! sl_object_key link)) as Hobj.
  { unfold load_link in Hlink. destruct (links g !! id) as [l|] eqn:Hl; [|done].
    simpl in Hlink. simplify_eq. destruct (gw_link_live _ Hwf _ _ Hl) as (o & Ho & _). by exists o. }
  unfold check_fk, gets. rewrite (proj2 (object_exists_true _ _) Hobj). simpl.
  destruct mode; [|by do 2 eexists].
  destruct (append_outbox_total (document_id_for_link id) generation (Upsert d) g Hwf Hgen Hh)
    as [g' Happ].
  unfold append_outbox, lift, mbind, M_bind in *. destruct (i64_try_from generation); [|done].
  simpl in *. unfold guard_m, lift in *. change (next_sequence (set_documents ?x g)) with (next_sequence g).
  destruct (bool_decide _); [|done]. simpl. by do 2 eexists.
Qed.

(** ** Idempotence *)

Lemma row_describes_content `{!StoreLaws E} r d d' :
  row_describes r d → row_describes r d' → document_content d = document_content d'.
Proof.
  intros (_ & _ & [[Hp Hf]|(Hp & Hf & Hj)]) (_ & _ & [[Hp' Hf']|(Hp' & Hf' & Hj')]); try congruence.
  rewrite Hf in Hf'. injection Hf' as Heq. by apply content_digest_inj in Heq.
Qed.

Lemma sync_count `{!StoreLaws E} id generation mode g n g' :
  graph_wf g → sync_catalog_projection id generation mode g = Ok (n, g') →
  (synced g id ∧ n = 0%Z ∧ g' = g) ∨ (¬ synced g id ∧ n = outbox_count mode).
Proof.
  intros Hwf Hrun. unfold synced. rewrite <-(wanted_version g id generation).
  apply sync_catalog_projection_Ok in Hrun as [_ Hout].
  destruct Hout as [Hdes Hd|r Hdes Hd ?|d r Hdes Hr Hun|d Hdes Hun ?]; rewrite Hdes; simpl.
  - left. by rewrite Hd.
  - right. rewrite Hd. split; [|done]. by intros (? & _ & ?).
  - left. rewrite Hr. apply (gw_document _ Hwf) in Hr as (_ & _ & Hok).
    apply content_unchanged_describes in Hun as (old & Hold & Hb); [|done]. split; [|done].
    exists old. split; [done|]. f_equal. symmetry. by apply Hb.
  - right. split; [|done]. destruct (documents g !! id) as [r|] eqn:Hr; [|done].
    intros (doc & Hdesc & Heq%(inj Some)). apply (gw_document _ Hwf) in Hr as (_ & _ & Hok).
    apply content_unchanged_describes in Hun as (old & Hold & Hb); [|done].
    destruct Hb as [_ Hb]. discriminate Hb.
    by rewrite <-(row_describes_content _ _ _ Hdesc Hold).
Qed.

Lemma sync_high_water id generation mode g n g' :
  graph_wf g → sync_catalog_projection id generation mode g = Ok (n, g') →
  high_water g' = (high_water g + n)%Z.
Proof.
  intros Hwf [_ Hout]%sync_catalog_projection_Ok.
  assert (∀ doc m ds, high_water (set_documents ds (emitted mode doc generation m g))
    = (high_water g + outbox_count mode)%Z) as Hem.
  { intros doc m ds. destruct mode; simpl; [|change (high_water g = (high_water g + 0)%Z); lia].
    change (next_sequence g = (high_water g + 1)%Z). by apply next_sequence_eq. }
  destruct Hout; rewrite ?Hem; lia.
Qed.

(** ** Batches *)

(** The identifiers a mutation names directly. *)
Definition names_link (m : GraphMutation) id : Prop :=
  match m with
  | UpsertLink link _ => fl_file_link_id link = id
  | RemoveLink i _ => i = id
  | _ => False
  end.

Definition upserts_object (m : GraphMutation) k : Prop :=
  match m with UpsertObject o => fo_object_key o = k | _ => False end.

Lemma collect_names g m id : names_link m id → id ∈ collect_affected_links g m.
Proof. destruct m; simpl; try done; intros ->; set_solver. Qed.

Lemma elem_of_object_links g k id :
  id ∈ collect_object_link_ids g k ↔ ∃ l, links g !! id = Some l ∧ l_object l = k.
Proof.
  unfold collect_object_link_ids. rewrite elem_of_list_to_set, list_elem_of_fmap. split.
  - intros ([i l] & -> & [Hl Hp]%elem_of_rows). exists l.
    unfold object_is in Hp. by apply bool_decide_eq_true in Hp.
  - intros (l & Hl & Hk). exists (id, l). split; [done|]. apply elem_of_rows. split; [done|].
    unfold object_is. by apply bool_decide_eq_true.
Qed.

Lemma collect_upserts g m id k l :
  upserts_object m k → links g !! id = Some l → l_object l = k → id ∈ collect_affected_links g m.
Proof.
  destruct m; simpl; try done. intros <- Hl Hk. apply elem_of_object_links. eauto.
Qed.

Lemma apply_mutations_names ms generation A g r g' m id :
  apply_mutations ms generation A g = Ok (r, g') → m ∈ ms → names_link m id → id ∈ r.2.
Proof.
  revert A g r. induction ms as [|m' ms IH]; intros A g r Hrun Hm Hid; [by apply elem_of_nil in Hm|].
  simpl in Hrun. ginv. simpl. apply elem_of_cons in Hm as [<-|Hm]; [|by eapply IH].
  match goal with H : apply_mutations _ _ _ _ = _ |- _ => apply apply_mutations_mutates in H as [Hsub _] end.
  apply Hsub. pose proof (collect_names g m id Hid). set_solver.
Qed.

Lemma apply_mutations_upserts ms generation A g r g' m k id l :
  apply_mutations ms generation A g = Ok (r, g') → m ∈ ms → upserts_object m k →
  links g' !! id = Some l → l_object l = k → id ∈ r.2.
Proof.
  revert A g r. induction ms as [|m' ms IH]; intros A g r Hrun Hm Hup Hl Hk; [by apply elem_of_nil in Hm|].
  simpl in Hrun. ginv. simpl. apply elem_of_cons in Hm as [<-|Hm]; [|by eapply IH].
  match goal with H : apply_mutations _ _ _ _ = Ok (?x, _), H' : apply_mutation _ _ _ = _ |- _ =>
    destruct (decide (id ∈ x.2)) as [|Hn]; [done|]; exfalso;
    apply apply_mutations_mutates in H as [Hsub [_ Hlk]]; apply apply_mutation_mutates in H' as [_ Hlk'];
    apply Hn, Hsub; rewrite Hlk in Hl by done; rewrite Hlk' in Hl by set_solver end.
  pose proof (collect_upserts g m id _ l Hup Hl eq_refl). set_solver.
Qed.

(** A live object is only changed by a mutation that observes it again. *)
Definition keeps_objects (X : gset link_id) g g' : Prop :=
  ∀ id l, links g !! id = Some l → id ∉ X → objects g' !! l_object l = objects g !! l_object l.

Lemma update_tombstoned_keeps k b g n g' :
  graph_wf g → (b = true → ∀ id l, links g !! id = Some l → l_object l ≠ k) →
  update_tombstoned k b g = Ok (n, g') → keeps_objects ∅ g g'.
Proof.
  intros Hwf Hb [(r & Hr & _ & ->)|(_ & _ & ->)]%update_tombstoned_Ok id l Hl _; [|done]. simpl.
  destruct (decide (k = l_object l)) as [->|Hne]; [|by rewrite lookup_insert_ne].
  destruct b; [by destruct (Hb eq_refl _ _ Hl)|].
  destruct (gw_link_live _ Hwf _ _ Hl) as (r' & Hr' & Ht). rewrite lookup_insert_eq, Hr'.
  assert (r = r') as -> by congruence. f_equal. destruct r'. simpl in *. by subst.
Qed.

Lemma enqueue_refresh_objects k generation g n g' :
  enqueue_refresh k generation g = Ok (n, g') → objects g' = objects g.
Proof. by intros [[-> _]|(_ & _ & _ & ->)]%enqueue_refresh_Ok. Qed.

Lemma remove_link_internal_keeps id k generation refresh g n g' :
  graph_wf g → remove_link_internal id k generation refresh g = Ok (n, g') →
  keeps_objects {[id]} g g'.
Proof.
  intros Hwf [(_ & -> & _)|(row & b & g1 & g2 & _ & _ & _ & -> & Ht & Hq)]%remove_link_internal_Ok; [done|].
  intros id' l Hl Hid.
  assert (links (set_links (delete id (links g)) g) !! id' = Some l) as Hl'.
  { simpl. rewrite lookup_delete_ne; [done|set_solver]. }
  assert (objects g' = objects g2) as ->.
  { destruct (_ && _); [by eapply enqueue_refresh_objects|by destruct Hq as [_ ->]]. }
  destruct Ht as [(Hz & m & Hm)|[_ ->]]; [|done]. rewrite link_count_zero in Hz.
  eapply update_tombstoned_keeps in Hm; [|by apply wf_delete_link|intros _; exact Hz].
  by apply (Hm id' l Hl').
Qed.

Lemma remove_links_keeps cs generation g u g' :
  graph_wf g →
  for_each cs (λ c : link_id * FileKey,
    remove_link_internal c.1 c.2 generation false ;; mret tt) g = Ok (u, g') →
  keeps_objects (list_to_set cs.*1) g g'.
Proof.
  intros Hwf Hrun id l Hl Hid.
  assert (graph_wf g' ∧ links g' !! id = Some l ∧ objects g' !! l_object l = objects g !! l_object l)
    as (_ & _ & ?); [|done].
  refine (triple_for_each (λ h, graph_wf h ∧ links h !! id = Some l
    ∧ objects h !! l_object l = objects g !! l_object l) cs _ _ g u g' _ Hrun); [|done].
  intros [c k] Hc h [] h' (Hwfh & Hlh & Hoh) Hstep. simpl in Hstep. ginv.
  assert (id ∉ ({[c]} : gset link_id)) as Hne.
  { intros ->%elem_of_singleton. apply Hid, elem_of_list_to_set, list_elem_of_fmap. by exists (c, k). }
  match goal with H : remove_link_internal _ _ _ _ _ = _ |- _ =>
    split; [by eapply remove_link_internal_wf|];
    apply remove_link_internal_keeps in H as Hk; [|done];
    apply remove_link_internal_mutates in H as [_ Hlk] end.
  rewrite Hlk by done. split; [done|]. rewrite <-Hoh. by apply (Hk id l).
Qed.

Lemma upsert_link_keeps link boundary generation g n g' :
  graph_wf g → upsert_link link boundary generation g = Ok (n, g') →
  (∀ p, fl_parent_key link = Some p → fk_volume p = fk_volume (fl_object_key link)) →
  keeps_objects ({[fl_file_link_id link]} ∪ list_to_set (stale_observation_link_conflicts g link).*1) g g'.
Proof.
  intros Hwf (g1 & g2 & m & _ & Hrem & _ & Hq & Hobj & Hslot & Hins)%upsert_link_Ok Hp id l Hl Hid.
  assert (graph_wf g1 ∧ links g1 !! id = Some l ∧ objects g1 !! l_object l = objects g !! l_object l)
    as (Hwf1 & Hl1 & <-).
  { split; [by eapply remove_links_wf|]. split.
    - rewrite <-Hl. eapply remove_links_mutates; [exact Hrem|set_solver].
    - eapply remove_links_keeps; [done|exact Hrem|exact Hl|set_solver]. }
  assert (graph_wf g2 ∧ links g2 = links g1 ∧ objects g2 = objects g1) as (Hwf2 & Hl2 & <-).
  { destruct Hq as [[-> _]|Hq]; [done|]. split; [by eapply enqueue_refresh_wf|].
    by apply enqueue_refresh_Ok in Hq as [[-> _]|(_ & _ & _ & ->)]. }
  apply update_tombstoned_Ok in Hins as [(r & Hr & _ & ->)|(_ & _ & ->)]; [|done]. simpl in *.
  destruct (decide (fl_object_key link = l_object l)) as [Hk|]; [|by rewrite lookup_insert_ne].
  rewrite Hk in *. rewrite <-Hl2 in Hl1. destruct (gw_link_live _ Hwf2 _ _ Hl1) as (r' & Hr' & Ht).
  rewrite lookup_insert_eq, Hr'. assert (r = r') as -> by congruence.
  f_equal. destruct r'. simpl in *. by subst.
Qed.

Lemma apply_mutation_keeps m v generation g n g' :
  graph_wf g → validate_mutation_volume m v = Ok tt → apply_mutation m generation g = Ok (n, g') →
  keeps_objects (collect_affected_links g m) g g'.
Proof.
  intros Hwf Hval Hrun id l Hl Hid.
  assert (∀ h h' f w generation (k1 k2 : Z), update_volume w f h = Ok (k1, h') →
    ∀ h'', enqueue_volume_projection_refresh w generation h' = Ok (k2, h'') → objects h'' = objects h) as Hvol.
  { intros h h' f w gen k1 k2 Hu h'' Hq. unfold enqueue_volume_projection_refresh in Hq. ginv. simpl.
    by apply update_volume_Ok in Hu as [(? & _ & _ & ->)|(_ & _ & ->)]. }
  destruct m as [d|w st|o|link b|i k|k|w reason]; simpl in Hrun, Hid.
  - unfold upsert_volume in Hrun. by ginv.
  - ginv. by erewrite Hvol.
  - unfold upsert_object in Hrun. ginv. simpl. rewrite lookup_insert_ne; [done|]. intros Hk.
    apply Hid, elem_of_object_links. eauto.
  - eapply upsert_link_keeps; [done|exact Hrun| |exact Hl|exact Hid].
    apply validate_mutation_volume_ok in Hval as [Hkeys _]. intros p Hpk. simpl in Hkeys.
    rewrite Hpk in Hkeys. apply Forall_cons in Hkeys as [-> Hkeys]. by apply Forall_cons in Hkeys as [-> _].
  - by eapply remove_link_internal_keeps.
  - ginv. match goal with H : tombstone_object _ _ = Ok (?u, _) |- _ => destruct u; apply tombstone_object_Ok in H as [Hz H] end.
    rewrite link_count_zero in Hz.
    eapply update_tombstoned_keeps; [exact Hwf|intros _; exact Hz|done|exact Hl|set_solver].
  - ginv. by erewrite Hvol.
Qed.

Lemma apply_mutations_keeps ms v generation A g r g' :
  graph_wf g → (∀ m, m ∈ ms → validate_mutation_volume m v = Ok tt ∧ mutation_typed m) →
  apply_mutations ms generation A g = Ok (r, g') → keeps_objects r.2 g g'.
Proof.
  revert A g r. induction ms as [|m ms IH]; intros A g r Hwf Hms Hrun; simpl in Hrun; ginv; [done|].
  destruct (Hms m) as [Hv Hty]; [by left|]. intros id l Hl Hid. simpl in Hid.
  match goal with H : apply_mutation _ _ _ = _, H' : apply_mutations _ _ _ _ = Ok (?x, _) |- _ =>
    apply apply_mutations_mutates in H' as Hm; destruct Hm as [Hsub _];
    apply apply_mutation_mutates in H as Hm; destruct Hm as [_ Hlk];
    eapply apply_mutation_keeps in H as Hk; [|done|done];
    eapply apply_mutation_wf in H; [|done|done|done];
    eapply IH in H'; [|done|intros m' Hm'; apply Hms; by right]; rename H' into Hrest end.
  rewrite (Hrest id l); [apply (Hk id l Hl); set_solver| |done]. rewrite Hlk; [done|set_solver].
Qed.

(** The batch's own links are synchronised, and every other link whose path and volume state the
    batch leaves alone stays so. *)
Lemma advance_volume_wanted v generation row cp g id :
  volumes g !! v = Some row → wanted (advance_volume v generation row cp g) id = wanted g id.
Proof.
  intros Hrow. apply wanted_ext; [done|done|]. intros w. unfold advance_volume. simpl.
  destruct (decide (v = w)) as [<-|]; [by rewrite lookup_insert_eq, Hrow|by rewrite lookup_insert_ne].
Qed.

Lemma batch_mutations_wf b generation g r g' :
  graph_wf g → batch_typed b → batch_validate b = Ok tt →
  apply_mutations (gb_mutations b) generation ∅ g = Ok (r, g') →
  graph_wf g' ∧ keeps_objects r.2 g g'.
Proof.
  intros Hwf Hty Hval Hrun.
  assert (∀ m, m ∈ gb_mutations b →
    validate_mutation_volume m (gb_volume_id b) = Ok tt ∧ mutation_typed m) as Hms.
  { intros m Hm. split; [by eapply batch_validate_Ok|by eapply Forall_forall in Hty]. }
  split; [by eapply apply_mutations_wf|by eapply apply_mutations_keeps].
Qed.

(** Links the batch affects. *)
Definition touched (b : GraphMutationBatch) g g' id : Prop :=
  links g' !! id ≠ links g !! id
  ∨ (∃ m, m ∈ gb_mutations b ∧ names_link m id)
  ∨ (∃ m l, m ∈ gb_mutations b ∧ links g' !! id = Some l ∧ upserts_object m (l_object l)).

(** One link: synchronising a link of a reachable database always succeeds while sequence
    numbers last; it makes the desired row of that link describe exactly what the graph says,
    changes no other row and nothing of the graph, appends one outbox mutation if the row was out
    of date and none (and no change at all) if it was not. *)
Theorem sync_catalog_projection_correct `{!StoreLaws E} (g : db) (id : link_id) (generation : Z) :
  store_wf g → (0 ≤ generation ≤ i64_max)%Z → (high_water g < i64_max)%Z →
  ∃ n g', sync_catalog_projection id generation Durable g = Ok (n, g')
    ∧ synced g' id ∧ same_graph g g' ∧ (∀ d, d ≠ id → documents g' !! d = documents g !! d)
    ∧ high_water g' = (high_water g + n)%Z
    ∧ ((synced g id ∧ n = 0%Z ∧ g' = g) ∨ (¬ synced g id ∧ n = 1%Z)).
Proof.
  intros [Hwf _] Hgen Hh. destruct (sync_total id generation Durable g Hwf Hgen Hh) as (n & g' & Hrun).
  exists n, g'. split; [done|]. split; [by eapply sync_synced|]. split; [by eapply sync_same_graph|].
  split; [intros d; by eapply sync_documents_ne|]. split; [by eapply sync_high_water|].
  exact (sync_count _ _ _ _ _ _ Hwf Hrun).
Qed.

(** A batch projects what it touches: after a committed batch, every link it changed, named,
    or whose object it observed again has a desired row that describes the new graph. *)
Theorem batch_syncs_touched `{!StoreLaws E} (b : GraphMutationBatch) (mode : ProjectionOutboxMode)
  (g g' : db) (s : ApplySummary) (id : link_id) :
  store_wf g → batch_typed b → apply_batch_with_outbox_mode b mode g = Ok (s, g') →
  touched b g g' id → synced g' id.
Proof.
  intros [Hwf Hdl] Hty (jobs & A & g1 & g2 & n & row & Hval & _ & Hi & Hmut & Hsync & Hrow & -> & _)%apply_batch_Ok Ht.
  destruct (batch_mutations_wf _ _ _ _ _ Hwf Hty Hval Hmut) as [Hwf1 _].
  destruct (sync_all_same_graph _ _ _ _ _ _ Hsync) as (_ & _ & Hl & _).
  assert (id ∈ A) as HA.
  { destruct (decide (id ∈ A)) as [|Hn]; [done|]. destruct Ht as [Hne|[(m & Hm & Hid)|(m & l & Hm & Hlk & Hup)]].
    - destruct Hne. apply apply_mutations_mutates in Hmut as [_ [_ Hlk]]. simpl. rewrite Hl. by apply Hlk.
    - exact (apply_mutations_names _ _ _ _ _ _ _ _ Hmut Hm Hid).
    - simpl in Hlk. rewrite Hl in Hlk. exact (apply_mutations_upserts _ _ _ _ _ _ _ _ _ _ Hmut Hm Hup Hlk eq_refl). }
  eapply (synced_ext g2); [done|by apply advance_volume_wanted|].
  eapply sync_all_synced; [exact Hwf1| |exact Hsync|left; by apply elem_of_btree_elements].
  unfold in_i64 in Hi. lia.
Qed.

(** A batch defers only path and volume-state changes: a link that was synchronised stays
    synchronised across a batch unless its volume's state or the path of one of its ancestors
    changed, the two cases the refresh queues exist for. *)
Theorem batch_defers_only_refresh `{!StoreLaws E} (b : GraphMutationBatch) (mode : ProjectionOutboxMode)
  (g g' : db) (s : ApplySummary) (id : link_id) :
  store_wf g → batch_typed b → apply_batch_with_outbox_mode b mode g = Ok (s, g') →
  synced g id →
  (∀ l, links g !! id = Some l → links g' !! id = Some l →
    volume_state_of g' (fk_volume (l_object l)) = volume_state_of g (fk_volume (l_object l))
    ∧ resolve_path g' id PATH_DEPTH = resolve_path g id PATH_DEPTH) →
  synced g' id.
Proof.
  intros [Hwf Hdl] Hty (jobs & A & g1 & g2 & n & row & Hval & _ & Hi & Hmut & Hsync & Hrow & -> & _)%apply_batch_Ok Hs Hsame.
  destruct (batch_mutations_wf _ _ _ _ _ Hwf Hty Hval Hmut) as [Hwf1 Hobj]. simpl in Hobj.
  pose proof (advance_volume_wanted (gb_volume_id b) (generation_or_zero (gb_volume_id b) g + 1)
    row (checkpoint_row_of (gb_checkpoint b)) g2 id Hrow) as Hw.
  set (g' := advance_volume _ _ _ _ g2) in *.
  eapply (synced_ext g2); [done|exact Hw|].
  eapply sync_all_synced; [exact Hwf1| |exact Hsync|]; [unfold in_i64 in Hi; lia|].
  destruct (decide (id ∈ A)) as [|Hn]; [left; by apply elem_of_btree_elements|right].
  apply apply_mutations_mutates in Hmut as [_ [(Hd & _) Hlk]]. simpl in Hlk.
  pose proof (sync_all_same_graph _ _ _ _ _ _ Hsync) as Hsg.
  eapply synced_ext; [by rewrite Hd| |exact Hs].
  rewrite <-(same_graph_wanted _ _ id Hsg), <-Hw. destruct Hsg as (_ & Ho2 & Hl2 & _).
  apply wanted_depends; [simpl; rewrite Hl2; by apply Hlk|]. intros l Hl.
  destruct (Hsame l Hl) as [Hv Hp]; [simpl; by rewrite Hl2, Hlk|].
  split; [|split; [exact Hv|exact Hp]].
  unfold load_object_metadata. simpl. rewrite Ho2. by rewrite (Hobj id l Hl Hn).
Qed.
End sync.

(** The sample volume, and a batch that renames the file and observes it again. *)
Definition sample_db : db := run_ops sample_ops empty_db.
Definition sample_rename : GraphMutationBatch :=
  from_events vol (checkpoint_at 2) [observe_file 2 9; observe_link 20 2 (Some 1%N) "b.txt"].

Lemma sample_db_wf : store_wf sample_db.
Proof.
  eapply store_steps_wf; [apply store_wf_empty|]. apply run_ops_steps, sample_ops_typed.
Qed.

Lemma sample_rename_typed : batch_typed sample_rename.
Proof. repeat constructor; simpl; unfold in_u64, u64_max; lia. Qed.

Lemma sync_catalog_projection_correct_witness :
  ∃ n g', sync_catalog_projection 20%N 1 Durable sample_db = Ok (n, g') ∧ synced g' 20%N.
Proof.
  destruct (sync_catalog_projection_correct sample_db 20%N 1) as (n & g' & Hrun & Hs & _).
  - apply sample_db_wf.
  - unfold i64_max. lia.
  - vm_compute. reflexivity.
  - exists n, g'. done.
Defined.

Lemma batch_syncs_touched_witness :
  synced (commit (apply_batch sample_rename) sample_db) 20%N.
Proof.
  apply (batch_syncs_touched sample_rename Durable sample_db _ (MkApplySummary 2 2 0 1)).
  - apply sample_db_wf.
  - apply sample_rename_typed.
  - vm_compute. reflexivity.
  - right. left. exists (UpsertLink (MkFileLinkSnapshot 20 (key 2) (Some (key 1)) "b.txt") false).
    split; [apply elem_of_cons; right; left|done].
Defined.

Lemma batch_defers_only_refresh_witness :
  synced (commit (apply_batch sample_rename) sample_db) 10%N.
Proof.
  apply (batch_defers_only_refresh sample_rename Durable sample_db _ (MkApplySummary 2 2 0 1)).
  - apply sample_db_wf.
  - apply sample_rename_typed.
  - vm_compute. reflexivity.
  - unfold synced. vm_compute. eexists (MkCatalogDocument _ _ _ _ _ _). repeat split. left. done.
  - intros l Hl _. vm_compute in Hl. injection Hl as <-. split; vm_compute; reflexivity.
Defined.
