(* ===== verification/GraphDrain.v ===== *)
(** The deferred refresh queues drain: repeating a bounded refresh call completes the job at the
    head of the queue after finitely many pages, and then every link (path jobs) or every desired
    document (volume jobs) of its volume is synchronised with the graph. *)
From stdpp Require Import base strings numbers gmap list sorting.
From S2P Require Import Prelude Models GraphDomain GraphTables Fixtures GraphPath GraphMutate.
From S2P Require Import GraphProjection GraphStore GraphRefresh GraphInvariant GraphPreserve.
From S2P Require Import GraphReach GraphSync.

Section drain.
Context `{E : StoreEnv}.
Implicit Types (g : db) (id : link_id) (v : volume_id).

(** ** One page *)

Lemma sync_all_total `{!StoreLaws E} (ids : list link_id) generation g :
  graph_wf g → (0 ≤ generation ≤ i64_max)%Z →
  (high_water g + Z.of_nat (length ids) ≤ i64_max)%Z →
  ∃ n g', sum_each ids (λ id, sync_catalog_projection id generation Durable) g = Ok (n, g')
    ∧ (high_water g' ≤ high_water g + Z.of_nat (length ids))%Z.
Proof.
  revert g. induction ids as [|id ids IH]; intros g Hwf Hgen Hh.
  { exists 0%Z, g. simpl in *. split; [done|lia]. }
  simpl length in Hh. destruct (sync_total id generation Durable g Hwf Hgen) as (n & g1 & Hrun); [lia|].
  assert (high_water g1 ≤ high_water g + 1)%Z as Hh1.
  { rewrite (sync_high_water _ _ _ _ _ _ Hwf Hrun).
    apply sync_catalog_projection_Ok in Hrun as [_ Hout]. destruct Hout; simpl; lia. }
  destruct (IH g1) as (m & g2 & Hrest & Hh2); [|done|lia|].
  { eapply (sync_catalog_projection_wf id generation Durable); [lia|done|exact Hrun]. }
  exists (n + m)%Z, g2. split; [|simpl; lia]. simpl. unfold mbind, M_bind. by rewrite Hrun, Hrest.
Qed.

(** ** Path jobs *)

(** The job the next call works on. *)
Definition first_pending g (job : Z) (row : path_job_row) : Prop :=
  path_jobs g !! job = Some row ∧ pj_state row = 0%Z ∧
  ∀ j r, path_jobs g !! j = Some r → pj_state r = 0%Z → (job ≤ j)%Z.

Lemma first_pending_head g job row :
  first_pending g job row → ∃ rest, pending_path_jobs g = (job, row) :: rest.
Proof.
  intros (Hj & Hs & Hmin). unfold pending_path_jobs.
  apply rows_head; [apply _|apply _| |done|by apply bool_decide_eq_true|].
  - unfold by_key_Z. intros. lia.
  - intros j r Hr Hp. apply bool_decide_eq_true in Hp. by apply (Hmin j r).
Qed.

Lemma elem_of_volume_links g v cursor id :
  id ∈ volume_links_after g v cursor ↔
  ∃ l, links g !! id = Some l ∧ fk_volume (l_object l) = v ∧ after_cursor cursor id = true.
Proof.
  unfold volume_links_after. rewrite list_elem_of_fmap. split.
  - intros ([i l] & -> & [Hl Hp]%elem_of_rows). apply andb_true_iff in Hp as [Hv Hc].
    apply bool_decide_eq_true in Hv. eauto.
  - intros (l & Hl & Hv & Hc). exists (id, l). split; [done|]. apply elem_of_rows. split; [done|].
    apply andb_true_iff. split; [by apply bool_decide_eq_true|done].
Qed.

Lemma sorted_keys_N {V} (l : list (N * V)) : StronglySorted by_key_N l → StronglySorted N.le l.*1.
Proof.
  induction 1 as [|[k x] l Hs IH Hall]; csimpl; constructor; [done|].
  apply Forall_fmap. eapply Forall_impl; [exact Hall|]. by intros [k' x'].
Qed.

Lemma volume_links_sorted g v cursor : StronglySorted N.le (volume_links_after g v cursor).
Proof. apply sorted_keys_N, rows_sorted; apply _. Qed.

Lemma volume_links_NoDup g v cursor : NoDup (volume_links_after g v cursor).
Proof. apply rows_NoDup_keys. Qed.

(** Links of the volume the scan has already passed are synchronised. *)
Definition scanned g v (cursor : option link_id) : Prop :=
  ∀ id l, links g !! id = Some l → fk_volume (l_object l) = v → after_cursor cursor id = false →
  synced g id.

Definition volume_synced g v : Prop :=
  ∀ id l, links g !! id = Some l → fk_volume (l_object l) = v → synced g id.

(** After synchronising a page of the scan, everything up to the page's last link is done. *)
Lemma scan_page `{!StoreLaws E} g v cursor maximum generation n g' :
  graph_wf g → (generation ≤ i64_max)%Z → scanned g v cursor →
  let page := limit maximum (volume_links_after g v cursor) in
  sum_each page (λ id, sync_catalog_projection id generation Durable) g = Ok (n, g') →
  (Z.of_nat (length page) < maximum → volume_synced g' v)%Z ∧
  ∀ c, last page = Some c → scanned g' v (Some c).
Proof.
  intros Hwf Hgen Hsc page Hrun.
  destruct (sync_all_same_graph _ _ _ _ _ _ Hrun) as (_ & _ & Hl & _).
  assert (∀ id l, links g !! id = Some l → fk_volume (l_object l) = v →
    id ∈ page ∨ after_cursor cursor id = false → synced g' id) as Hdone.
  { intros id l Hid Hv Hc. eapply sync_all_synced; [exact Hwf|done|exact Hrun|].
    destruct Hc as [|Hc]; [by left|right; by eapply Hsc]. }
  split.
  - intros Hshort id l Hid Hv. rewrite Hl in Hid. eapply Hdone; [done|done|].
    destruct (after_cursor cursor id) eqn:Hc; [left|by right].
    unfold page. rewrite limit_short by exact Hshort. apply elem_of_volume_links. eauto.
  - intros c Hlast id l Hid Hv Hc. rewrite Hl in Hid. eapply Hdone; [done|done|].
    destruct (after_cursor cursor id) eqn:Hcur; [left|by right].
    apply bool_decide_eq_false in Hc.
    eapply page_upto; [apply volume_links_sorted|apply volume_links_NoDup|exact Hlast| |lia].
    apply elem_of_volume_links. eauto.
Qed.

Lemma scan_progress g v cursor maximum c :
  let page := limit maximum (volume_links_after g v cursor) in
  last page = Some c →
  length page + length (volume_links_after g v (Some c)) ≤ length (volume_links_after g v cursor).
Proof.
  intros page Hlast.
  assert (∀ id, id ∈ page → id ∈ volume_links_after g v cursor) as Hsub by (intros id; apply elem_of_limit).
  assert (after_cursor cursor c = true) as Hcc.
  { assert (c ∈ page) as Hc by (apply last_Some in Hlast as [pre ->]; apply elem_of_app; right; left).
    by apply Hsub, elem_of_volume_links in Hc as (l & _ & _ & ?). }
  rewrite <-length_app. apply submseteq_length, NoDup_submseteq.
  - apply NoDup_app. split; [|split; [|apply volume_links_NoDup]].
    + unfold page, limit. eapply sublist_NoDup; [apply volume_links_NoDup|apply sublist_take].
    + intros id Hp (l & _ & _ & Hlt)%elem_of_volume_links. apply bool_decide_eq_true in Hlt.
      assert (id ≤ c)%N; [|lia].
      apply (page_upto maximum (volume_links_after g v cursor) c id); try done.
      * apply volume_links_sorted.
      * apply volume_links_NoDup.
      * by apply Hsub.
  - intros id [Hp|(l & Hl & Hv & Hlt)%elem_of_volume_links]%elem_of_app; [by apply Hsub|].
    apply elem_of_volume_links. exists l. split; [done|]. split; [done|].
    apply bool_decide_eq_true in Hlt. destruct cursor; [|done]. simpl in *.
    apply bool_decide_eq_true in Hcc. apply bool_decide_eq_true. lia.
Qed.

(** Repeating the bounded call until it reports completion. *)
Fixpoint refresh_paths_until_complete (fuel : nat) (maximum : Z) : GM bool :=
  match fuel with
  | O => mret false
  | S fuel =>
      s ← refresh_projection_paths maximum;
      if pr_job_completed s then mret true else refresh_paths_until_complete fuel maximum
  end.

Lemma generation_row_ok g v : is_Some (volumes g !! v) → ∃ n, generation_row v g = Ok n.
Proof. intros [r Hr]. exists (v_generation r). unfold generation_row. by rewrite Hr. Qed.

(** One call on the job at the head of the queue. *)
Lemma refresh_paths_step `{!StoreLaws E} g job row maximum :
  store_wf g → first_pending g job row → (0 < maximum)%Z →
  let v := fk_volume (pj_root row) in
  scanned g v (pj_cursor row) →
  (high_water g + Z.of_nat (length (volume_links_after g v (pj_cursor row))) ≤ i64_max)%Z →
  ∃ s g', refresh_projection_paths maximum g = Ok (s, g') ∧ links g' = links g ∧
    if pr_job_completed s
    then volume_synced g' v ∧ path_jobs g' !! job = Some (set_job_state 2 row)
    else ∃ c, first_pending g' job (set_job_cursor c row) ∧ scanned g' v (Some c)
      ∧ length (volume_links_after g' v (Some c)) < length (volume_links_after g v (pj_cursor row))
      ∧ (high_water g' + Z.of_nat (length (volume_links_after g' v (Some c))) ≤ i64_max)%Z.
Proof.
  intros [Hwf Hdl] Hfirst Hmax v Hsc Hh. destruct (first_pending_head _ _ _ Hfirst) as [rest Hhead].
  destruct Hfirst as (Hj & Hst & Hmin).
  assert (is_Some (volumes g !! v)) as Hvol.
  { destruct (gw_job_root _ Hwf _ _ Hj) as [o Ho]. by apply (gw_object_volume _ Hwf) in Ho. }
  destruct (generation_row_ok g v Hvol) as [generation Hgen].
  pose proof (generation_row_range _ _ _ Hwf Hgen) as Hrange.
  set (page := limit maximum (volume_links_after g v (pj_cursor row))).
  assert (length page ≤ length (volume_links_after g v (pj_cursor row))) as Hsplit.
  { unfold page, limit. rewrite length_take. lia. }
  destruct (sync_all_total page generation g Hwf Hrange) as (n & g1 & Hrun & Hh1); [lia|].
  destruct (scan_page g v (pj_cursor row) maximum generation n g1 Hwf) as [Hdone Hpart]; [lia|done|done|].
  destruct (sync_all_same_graph _ _ _ _ _ _ Hrun) as (Hv1 & Ho1 & Hl1 & _ & _ & _ & Hpj & _).
  assert (∀ f, volume_synced g1 v → volume_synced (set_path_jobs f g1) v) as Hvs.
  { intros f Hs id l Hid Hvid. eapply (synced_ext g1); [done|by apply wanted_ext|by eapply Hs]. }
  assert (∀ f c, scanned g1 v c → scanned (set_path_jobs f g1) v c) as Hscs.
  { intros f c Hs id l Hid Hvid Hc. eapply (synced_ext g1); [done|by apply wanted_ext|by eapply Hs]. }
  unfold refresh_projection_paths. rewrite decide_False by lia.
  unfold mbind, M_bind, get_state, gets. simpl. rewrite Hhead. fold v. rewrite Hgen. fold page. rewrite Hrun.
  destruct (bool_decide_reflect (Z.of_nat (length page) < maximum)%Z) as [Hshort|Hfull].
  - do 2 eexists. split; [reflexivity|]. simpl. split; [done|]. split; [by apply Hvs, Hdone|].
    rewrite lookup_alter_eq, Hpj, Hj. done.
  - destruct (limit_last _ _ Hmax Hfull) as (c & Hc & Hcin). fold page in Hc. rewrite Hc.
    do 2 eexists. split; [reflexivity|]. simpl. split; [done|]. exists c. split; [|split; [by apply Hscs, Hpart|]].
    + split; [simpl; by rewrite lookup_alter_eq, Hpj, Hj|]. split; [done|]. simpl. intros j r Hr Hs.
      rewrite Hpj in Hr. apply lookup_alter_Some in Hr as [(<- & _)|[_ Hr]]; [done|by apply (Hmin j r)].
    + assert (volume_links_after (set_path_jobs (alter (set_job_cursor c) job (path_jobs g1)) g1) v (Some c)
        = volume_links_after g v (Some c)) as ->.
      { unfold volume_links_after. simpl. by rewrite Hl1. }
      pose proof (scan_progress g v (pj_cursor row) maximum c Hc) as Hp. fold page in Hp.
      change (high_water (set_path_jobs _ g1)) with (high_water g1). split; [|lia].
      assert (0 < length page); [|lia]. destruct page; [done|simpl; lia].
Qed.

Lemma refresh_paths_drain `{!StoreLaws E} fuel g job row maximum :
  store_wf g → first_pending g job row → (0 < maximum)%Z →
  let v := fk_volume (pj_root row) in
  scanned g v (pj_cursor row) →
  (high_water g + Z.of_nat (length (volume_links_after g v (pj_cursor row))) ≤ i64_max)%Z →
  length (volume_links_after g v (pj_cursor row)) < fuel →
  ∃ g', refresh_paths_until_complete fuel maximum g = Ok (true, g') ∧ links g' = links g
    ∧ volume_synced g' v ∧ pj_state <$> path_jobs g' !! job = Some 2%Z.
Proof.
  revert g row. induction fuel as [|fuel IH]; intros g row Hwf Hfirst Hmax v Hsc Hh Hfuel; [lia|].
  destruct (refresh_paths_step g job row maximum Hwf Hfirst Hmax Hsc Hh) as (s & g1 & Hrun & Hl & Hres).
  simpl. unfold mbind, M_bind. rewrite Hrun. destruct (pr_job_completed s).
  - destruct Hres as [Hs Hj]. exists g1. split; [done|]. by rewrite Hj.
  - destruct Hres as (c & Hf & Hsc' & Hlt & Hh').
    destruct (IH g1 (set_job_cursor c row)) as (g2 & Hrun2 & Hl2 & Hs2 & Hj2); try done.
    + by eapply refresh_projection_paths_wf.
    + eapply Nat.lt_le_trans; [exact Hlt|]. apply Nat.lt_succ_r. exact Hfuel.
    + exists g2. split; [done|]. split; [congruence|done].
Qed.

(** ** Volume jobs *)

Definition first_volume_job g v (row : volume_job_row) : Prop :=
  volume_jobs g !! v = Some row ∧ vj_state row = 0%Z ∧
  ∀ w r, volume_jobs g !! w = Some r → vj_state r = 0%Z → (v ≤ w)%N.

Lemma first_volume_job_head g v row :
  first_volume_job g v row → ∃ rest, pending_volume_jobs g = (v, row) :: rest.
Proof.
  intros (Hj & Hs & Hmin). unfold pending_volume_jobs.
  apply rows_head; [apply _|apply _| |done|by apply bool_decide_eq_true|].
  - unfold by_key_N. intros. lia.
  - intros w r Hr Hp. apply bool_decide_eq_true in Hp. by apply (Hmin w r).
Qed.

Lemma elem_of_volume_documents g v cursor d :
  graph_wf g →
  d ∈ volume_documents_after g v cursor ↔
  ∃ r, documents g !! d = Some r ∧ fk_volume (d_object r) = v ∧ after_cursor cursor d = true.
Proof.
  intros Hwf. unfold volume_documents_after. rewrite list_elem_of_fmap. split.
  - intros ([i r] & -> & [Hr Hp]%elem_of_rows). apply andb_true_iff in Hp as [Hv Hc].
    apply bool_decide_eq_true in Hv. destruct (gw_document _ Hwf _ _ Hr) as [Hid _].
    simpl in *. rewrite Hid in *. eauto.
  - intros (r & Hr & Hv & Hc). destruct (gw_document _ Hwf _ _ Hr) as [Hid _]. exists (d, r).
    split; [done|]. apply elem_of_rows. split; [done|]. simpl. rewrite Hid. apply andb_true_iff.
    split; [by apply bool_decide_eq_true|done].
Qed.

Lemma volume_documents_NoDup g v cursor : graph_wf g → NoDup (volume_documents_after g v cursor).
Proof.
  intros Hwf. unfold volume_documents_after. set (p := λ r, _ && _).
  replace ((λ r, d_file_link_id r.2) <$> rows by_doc_link p (documents g))
    with (rows by_doc_link p (documents g)).*1; [apply rows_NoDup_keys|].
  apply list_fmap_ext. intros i [d r] Hi. apply list_elem_of_lookup_2, elem_of_rows in Hi as [Hr _].
  simpl. by destruct (gw_document _ Hwf _ _ Hr) as [-> _].
Qed.

Lemma volume_documents_sorted g v cursor : StronglySorted N.le (volume_documents_after g v cursor).
Proof.
  unfold volume_documents_after. set (p := λ r, _ && _).
  pose proof (rows_sorted by_doc_link p (documents g)) as Hs.
  induction Hs as [|x l Hs IH Hall]; csimpl; constructor; [done|]. by apply Forall_fmap.
Qed.

(** Desired documents of the volume the scan has passed are synchronised. *)
Definition documents_scanned g v (cursor : option link_id) : Prop :=
  ∀ d r, documents g !! d = Some r → fk_volume (d_object r) = v → after_cursor cursor d = false →
  synced g d.

Definition documents_synced g v : Prop :=
  ∀ d r, documents g !! d = Some r → fk_volume (d_object r) = v → synced g d.

Lemma documents_page `{!StoreLaws E} g v cursor maximum generation n g' :
  graph_wf g → (generation ≤ i64_max)%Z → documents_scanned g v cursor →
  let page := limit maximum (volume_documents_after g v cursor) in
  sum_each page (λ id, sync_catalog_projection id generation Durable) g = Ok (n, g') →
  (Z.of_nat (length page) < maximum → documents_synced g' v)%Z ∧
  ∀ c, last page = Some c → documents_scanned g' v (Some c).
Proof.
  intros Hwf Hgen Hsc page Hrun.
  assert (∀ d r, documents g' !! d = Some r → fk_volume (d_object r) = v →
    (after_cursor cursor d = true → d ∈ volume_documents_after g v cursor → d ∈ page) →
    synced g' d) as Hdone.
  { intros d r Hd Hv Hc. eapply sync_all_synced; [exact Hwf|done|exact Hrun|].
    destruct (decide (d ∈ page)) as [|Hn]; [by left|right].
    rewrite (sync_all_documents _ _ _ _ _ _ d Hrun Hn) in Hd. eapply Hsc; [done|done|].
    destruct (after_cursor cursor d) eqn:Hcur; [|done]. destruct Hn. apply Hc; [done|].
    apply elem_of_volume_documents; eauto. }
  split.
  - intros Hshort d r Hd Hv. eapply Hdone; [done|done|]. intros _ Hin.
    unfold page. by rewrite limit_short.
  - intros c Hlast d r Hd Hv Hc. eapply Hdone; [done|done|]. intros _ Hin.
    apply bool_decide_eq_false in Hc.
    apply (page_upto maximum (volume_documents_after g v cursor) c d); try done; [| |lia].
    + apply volume_documents_sorted.
    + by apply volume_documents_NoDup.
Qed.

Lemma documents_progress g v cursor maximum generation n g' c :
  graph_wf g → graph_wf g' →
  let page := limit maximum (volume_documents_after g v cursor) in
  sum_each page (λ id, sync_catalog_projection id generation Durable) g = Ok (n, g') →
  last page = Some c →
  length page + length (volume_documents_after g' v (Some c)) ≤ length (volume_documents_after g v cursor).
Proof.
  intros Hwf Hwf' page Hrun Hlast.
  assert (∀ d, d ∈ page → d ∈ volume_documents_after g v cursor) as Hsub by (intros d; apply elem_of_limit).
  assert (∀ d, d ∈ page → (d ≤ c)%N) as Hle.
  { intros d Hp. apply (page_upto maximum (volume_documents_after g v cursor) c d); try done; [| |auto].
    - apply volume_documents_sorted.
    - by apply volume_documents_NoDup. }
  assert (after_cursor cursor c = true) as Hcc.
  { assert (c ∈ page) as Hc by (apply last_Some in Hlast as [pre ->]; apply elem_of_app; right; left).
    by apply Hsub, elem_of_volume_documents in Hc as (r & _ & _ & ?). }
  assert (∀ d, d ∈ volume_documents_after g' v (Some c) →
    d ∈ volume_documents_after g v cursor ∧ (c < d)%N) as Hrest.
  { intros d (r & Hr & Hv & Hlt)%elem_of_volume_documents; [|done]. apply bool_decide_eq_true in Hlt.
    split; [|done]. assert (d ∉ page) as Hn by (intros Hp%Hle; lia).
    rewrite (sync_all_documents _ _ _ _ _ _ d Hrun Hn) in Hr. apply elem_of_volume_documents; [done|].
    exists r. split; [done|]. split; [done|]. destruct cursor; [|done]. simpl in *.
    apply bool_decide_eq_true in Hcc. apply bool_decide_eq_true. lia. }
  rewrite <-length_app. apply submseteq_length, NoDup_submseteq.
  - apply NoDup_app. split; [|split; [|by apply volume_documents_NoDup]].
    + unfold page, limit. eapply sublist_NoDup; [apply (volume_documents_NoDup g v cursor Hwf)|apply sublist_take].
    + intros d Hp%Hle [_ Hlt]%Hrest. lia.
  - intros d [Hp|Hd]%elem_of_app; [by apply Hsub|by apply Hrest].
Qed.

Fixpoint refresh_volume_until_complete (fuel : nat) (maximum : Z) : GM bool :=
  match fuel with
  | O => mret false
  | S fuel =>
      s ← refresh_volume_projection maximum;
      if pr_job_completed s then mret true else refresh_volume_until_complete fuel maximum
  end.

Lemma refresh_volume_step `{!StoreLaws E} g v row maximum :
  store_wf g → first_volume_job g v row → (0 < maximum)%Z →
  documents_scanned g v (vj_cursor row) →
  (high_water g + Z.of_nat (length (volume_documents_after g v (vj_cursor row))) ≤ i64_max)%Z →
  ∃ s g', refresh_volume_projection maximum g = Ok (s, g') ∧
    if pr_job_completed s
    then documents_synced g' v ∧ volume_jobs g' !! v = Some (set_volume_job_state 2 row)
    else ∃ c, first_volume_job g' v (set_volume_job_cursor c row) ∧ documents_scanned g' v (Some c)
      ∧ length (volume_documents_after g' v (Some c)) < length (volume_documents_after g v (vj_cursor row))
      ∧ (high_water g' + Z.of_nat (length (volume_documents_after g' v (Some c))) ≤ i64_max)%Z.
Proof.
  intros [Hwf Hdl] Hfirst Hmax Hsc Hh. destruct (first_volume_job_head _ _ _ Hfirst) as [rest Hhead].
  destruct Hfirst as (Hj & Hst & Hmin).
  destruct (generation_row_ok g v (gw_volume_job _ Hwf _ _ Hj)) as [generation Hgen].
  pose proof (generation_row_range _ _ _ Hwf Hgen) as Hrange.
  set (page := limit maximum (volume_documents_after g v (vj_cursor row))).
  assert (length page ≤ length (volume_documents_after g v (vj_cursor row))) as Hsplit.
  { unfold page, limit. rewrite length_take. lia. }
  destruct (sync_all_total page generation g Hwf Hrange) as (n & g1 & Hrun & Hh1); [lia|].
  assert (graph_wf g1) as Hwf1.
  { eapply (sync_page_wf page generation); [lia|by split|exact Hrun]. }
  destruct (documents_page g v (vj_cursor row) maximum generation n g1 Hwf) as [Hdone Hpart]; [lia|done|done|].
  destruct (sync_all_same_graph _ _ _ _ _ _ Hrun) as (_ & _ & _ & _ & _ & _ & _ & Hvj).
  assert (∀ f d, synced g1 d → synced (set_volume_jobs f g1) d) as Hs.
  { intros f d. apply synced_ext; [done|by apply wanted_ext]. }
  unfold refresh_volume_projection. rewrite decide_False by lia.
  unfold mbind, M_bind, get_state, gets. simpl. rewrite Hhead, Hgen. fold page. rewrite Hrun.
  destruct (bool_decide_reflect (Z.of_nat (length page) < maximum)%Z) as [Hshort|Hfull].
  - do 2 eexists. split; [reflexivity|]. simpl. rewrite lookup_alter_eq, Hvj, Hj. split; [|done].
    intros d r Hd Hv. by apply Hs, (Hdone Hshort d r).
  - destruct (limit_last _ _ Hmax Hfull) as (c & Hc & Hcin). fold page in Hc. rewrite Hc.
    do 2 eexists. split; [reflexivity|]. simpl. exists c.
    split; [|split; [intros d r Hd Hv Hcur; by apply Hs, (Hpart c Hc d r)|]].
    + split; [simpl; by rewrite lookup_alter_eq, Hvj, Hj|]. split; [done|]. simpl. intros w r Hr Hws.
      rewrite Hvj in Hr. apply lookup_alter_Some in Hr as [(<- & _)|[_ Hr]]; [done|by apply (Hmin w r)].
    + change (volume_documents_after (set_volume_jobs _ g1) v (Some c)) with (volume_documents_after g1 v (Some c)).
      change (high_water (set_volume_jobs _ g1)) with (high_water g1).
      pose proof (documents_progress _ _ _ _ _ _ _ _ Hwf Hwf1 Hrun Hc) as Hp. fold page in Hp.
      split; [|lia]. assert (0 < length page); [|lia]. destruct page; [done|simpl; lia].
Qed.

Lemma refresh_volume_drain `{!StoreLaws E} fuel g v row maximum :
  store_wf g → first_volume_job g v row → (0 < maximum)%Z →
  documents_scanned g v (vj_cursor row) →
  (high_water g + Z.of_nat (length (volume_documents_after g v (vj_cursor row))) ≤ i64_max)%Z →
  length (volume_documents_after g v (vj_cursor row)) < fuel →
  ∃ g', refresh_volume_until_complete fuel maximum g = Ok (true, g')
    ∧ documents_synced g' v ∧ vj_state <$> volume_jobs g' !! v = Some 2%Z.
Proof.
  revert g row. induction fuel as [|fuel IH]; intros g row Hwf Hfirst Hmax Hsc Hh Hfuel; [lia|].
  destruct (refresh_volume_step g v row maximum Hwf Hfirst Hmax Hsc Hh) as (s & g1 & Hrun & Hres).
  simpl. unfold mbind, M_bind. rewrite Hrun. destruct (pr_job_completed s).
  - destruct Hres as [Hs Hj]. exists g1. split; [done|]. by rewrite Hj.
  - destruct Hres as (c & Hf & Hsc' & Hlt & Hh').
    destruct (IH g1 (set_volume_job_cursor c row)) as (g2 & Hrun2 & Hs2); try done.
    + by eapply refresh_volume_projection_wf.
    + simpl. lia.
    + by exists g2.
Qed.

(** Path refresh completes: once a path job has reached the head of the queue, repeating the
    bounded call (with any positive page size, and as many calls as the volume has links, plus one)
    completes the job without an error, and then every link of the volume has a desired row that
    describes the graph, provided the outbox has sequence numbers left for the scan. *)
Theorem path_refresh_completes `{!StoreLaws E} (g : db) (job : Z) (row : path_job_row) (maximum : Z) :
  let v := fk_volume (pj_root row) in
  let pending := volume_links_after g v None in
  store_wf g → first_pending g job row → pj_cursor row = None → (0 < maximum)%Z →
  (high_water g + Z.of_nat (length pending) ≤ i64_max)%Z →
  ∃ g', refresh_paths_until_complete (S (length pending)) maximum g = Ok (true, g')
    ∧ links g' = links g
    ∧ (∀ id l, links g' !! id = Some l → fk_volume (l_object l) = v → synced g' id)
    ∧ pj_state <$> path_jobs g' !! job = Some 2%Z.
Proof.
  intros v pending Hwf Hfirst Hcur Hmax Hh.
  apply (refresh_paths_drain (S (length pending)) g job row maximum Hwf Hfirst Hmax).
  - rewrite Hcur. by intros id l _ _ Hc.
  - by rewrite Hcur.
  - rewrite Hcur. apply Nat.lt_succ_diag_r.
Qed.

(** Volume refresh completes: likewise a volume job, whose scan visits the desired documents
    of the volume: after it, each of them describes the graph under the volume's new state. *)
Theorem volume_refresh_completes `{!StoreLaws E} (g : db) (v : volume_id) (row : volume_job_row)
  (maximum : Z) :
  let pending := volume_documents_after g v None in
  store_wf g → first_volume_job g v row → vj_cursor row = None → (0 < maximum)%Z →
  (high_water g + Z.of_nat (length pending) ≤ i64_max)%Z →
  ∃ g', refresh_volume_until_complete (S (length pending)) maximum g = Ok (true, g')
    ∧ (∀ d r, documents g' !! d = Some r → fk_volume (d_object r) = v → synced g' d)
    ∧ vj_state <$> volume_jobs g' !! v = Some 2%Z.
Proof.
  intros pending Hwf Hfirst Hcur Hmax Hh.
  apply (refresh_volume_drain (S (length pending)) g v row maximum Hwf Hfirst Hmax).
  - rewrite Hcur. by intros d r _ _ Hc.
  - by rewrite Hcur.
  - rewrite Hcur. apply Nat.lt_succ_diag_r.
Qed.
End drain.

(** The sample volume after its directory was renamed, and after it went offline. *)
Definition directory_renamed : db :=
  run_ops [OpApplyBatch (from_events vol (checkpoint_at 2) [observe_link 10 1 None "papers"])] sample_db.
Definition volume_offline : db :=
  run_ops [OpApplyBatch (MkGraphMutationBatch vol (checkpoint_at 2) [SetVolumeState vol VOffline])] sample_db.

Lemma directory_renamed_wf : store_wf directory_renamed.
Proof.
  eapply store_steps_wf; [apply sample_db_wf|]. apply run_ops_steps.
  repeat constructor; simpl; unfold in_u64, u64_max; lia.
Qed.
Lemma volume_offline_wf : store_wf volume_offline.
Proof. eapply store_steps_wf; [apply sample_db_wf|]. apply run_ops_steps. repeat constructor. Qed.

Lemma path_refresh_completes_witness :
  ∃ g', refresh_paths_until_complete 3 1 directory_renamed = Ok (true, g') ∧ synced g' 20%N.
Proof.
  destruct (path_refresh_completes directory_renamed 1 (PathJobRow (key 1) 2 0 None) 1)
    as (g' & Hrun & Hl & Hs & _).
  - apply directory_renamed_wf.
  - split; [vm_compute; reflexivity|]. split; [done|]. intros j r Hj _.
    vm_compute in Hj. destruct j as [|[|p|]|]; try discriminate Hj; lia.
  - done.
  - lia.
  - vm_compute. discriminate.
  - exists g'. split; [exact Hrun|].
    apply (Hs 20%N (LinkRow (key 2) (Some (key 1)) "a.TXT" false 1)); [|reflexivity].
    rewrite Hl. vm_compute. reflexivity.
Defined.

Lemma volume_refresh_completes_witness :
  ∃ g', refresh_volume_until_complete 3 1 volume_offline = Ok (true, g')
    ∧ ∀ d r, documents g' !! d = Some r → fk_volume (d_object r) = vol → synced g' d.
Proof.
  destruct (volume_refresh_completes volume_offline vol (VolumeJobRow 2 None 0) 1)
    as (g' & Hrun & Hs & _).
  - apply volume_offline_wf.
  - split; [vm_compute; reflexivity|]. split; [done|]. intros w r Hw _.
    vm_compute in Hw. destruct w as [|[|p|]]; try discriminate Hw; unfold vol; lia.
  - done.
  - lia.
  - vm_compute. discriminate.
  - exists g'. split; [exact Hrun|exact Hs].
Defined.
