(* ===== verification/GraphConverge.v ===== *)
(** The projection outbox drives a consumer's index to the desired catalog.

    A consumer that applies the outbox mutations after its acknowledged sequence, in order, holds
    the desired documents; every operation of the store keeps that true, pruning included. *)
From stdpp Require Import base strings numbers gmap list sorting.
From S2P Require Import Prelude Models GraphDomain GraphTables Fixtures GraphPath GraphMutate.
From S2P Require Import GraphProjection GraphStore GraphOutbox GraphRefresh GraphInvariant.
From S2P Require Import GraphPreserve GraphReach GraphSync.

Section converge.
Context `{E : StoreEnv}.
Implicit Types (g : db) (d : document_id) (pos : Z).

(** ** The consumer's view *)

(** What a consumer holds: one document per identifier. *)
Abbreviation index := (gmap document_id CatalogDocument).
Implicit Types (idx : index).

Definition apply_index (m : IndexMutation) idx : index :=
  match m with
  | Upsert doc => <[ci_document_id (cd_identity doc) := doc]> idx
  | Delete id _ => delete id idx
  end.

Definition replay_row idx (r : Z * outbox_row) : index :=
  match mutation_from_json (x_mutation_json r.2) with
  | Some m => apply_index m idx
  | None => idx
  end.

Definition replay (rs : list (Z * outbox_row)) idx : index := foldl replay_row idx rs.

(** An index document agrees with a desired row. *)
Definition doc_matches (o : option document_row) (i : option CatalogDocument) : Prop :=
  match o, i with
  | None, None => True
  | Some r, Some doc => row_describes r doc
  | _, _ => False
  end.

(** Applying what the outbox holds after [pos] turns the index into the desired catalog. *)
Definition tracks g pos idx : Prop :=
  ∀ d, doc_matches (documents g !! d) (replay (outbox_after g pos) idx !! d).

(** ** The outbox as a log *)

Lemma outbox_after_unique g pos l :
  StronglySorted by_key_Z l → NoDup l →
  (∀ s r, (s, r) ∈ l ↔ outbox g !! s = Some r ∧ (pos < s)%Z) → outbox_after g pos = l.
Proof.
  intros Hs Hnd Hin. unfold outbox_after. apply rows_unique; [apply _|apply _| |done|done|].
  - unfold by_key_Z. intros. lia.
  - intros s r. rewrite Hin. by rewrite bool_decide_eq_true.
Qed.

Lemma elem_of_outbox_after g pos s r :
  (s, r) ∈ outbox_after g pos ↔ outbox g !! s = Some r ∧ (pos < s)%Z.
Proof. unfold outbox_after. by rewrite elem_of_rows, bool_decide_eq_true. Qed.

Lemma outbox_after_sorted g pos : StronglySorted by_key_Z (outbox_after g pos).
Proof. apply rows_sorted; apply _. Qed.

Lemma outbox_after_NoDup g pos : NoDup (outbox_after g pos).
Proof. eapply NoDup_fmap_1, rows_NoDup_keys. Qed.

(** An append goes to the end of the log. *)
Lemma outbox_after_append g pos row :
  graph_wf g → (pos ≤ high_water g)%Z →
  outbox_after (set_outbox (<[next_sequence g := row]> (outbox g)) (Some (next_sequence g)) g) pos
  = outbox_after g pos ++ [(next_sequence g, row)].
Proof.
  intros Hwf Hpos. rewrite next_sequence_eq by done.
  assert (∀ s r, outbox g !! s = Some r → (s ≤ high_water g)%Z) as Hle.
  { intros s r Hs. apply (gw_outbox _ Hwf) in Hs. lia. }
  apply outbox_after_unique.
  - apply StronglySorted_app. split; [|split; [apply outbox_after_sorted|repeat constructor]].
    intros [s r] [s' r'] [Hs _]%elem_of_outbox_after [= -> ->]%list_elem_of_singleton.
    apply Hle in Hs. unfold by_key_Z. simpl. lia.
  - apply NoDup_app. split; [apply outbox_after_NoDup|]. split; [|apply NoDup_singleton].
    intros [s r] [Hs _]%elem_of_outbox_after [= -> ->]%list_elem_of_singleton.
    apply Hle in Hs. lia.
  - intros s r. rewrite elem_of_app, elem_of_outbox_after, list_elem_of_singleton. simpl.
    rewrite lookup_insert_Some. split.
    + intros [[Hs Hp]|[= -> ->]]; [|split; [by left|lia]]. split; [right|done].
      split; [|done]. apply Hle in Hs. lia.
    + intros [[[<- <-]|[_ Hs]] Hp]; [by right|by left].
Qed.

(** Deleting rows the consumer has passed does not change what it still has to read. *)
Lemma outbox_after_shrink g pos xs :
  xs ⊆ outbox g → (∀ s r, outbox g !! s = Some r → (pos < s)%Z → xs !! s = Some r) →
  outbox_after (set_outbox xs (outbox_seq g) g) pos = outbox_after g pos.
Proof.
  intros Hsub Hkeep. apply outbox_after_unique; [apply outbox_after_sorted|apply outbox_after_NoDup|].
  intros s r. rewrite elem_of_outbox_after. simpl. split.
  - intros [Hs Hp]. split; [by eapply Hkeep|done].
  - intros [Hs Hp]. split; [by eapply lookup_weaken|done].
Qed.

Lemma outbox_after_ext g g' pos : outbox g' = outbox g → outbox_after g' pos = outbox_after g pos.
Proof. unfold outbox_after. by intros ->. Qed.

(** ** Steps that keep every consumer on track *)

(** The consumers are as before and whoever was on track still is. *)
Definition projects g g' : Prop :=
  consumers g' = consumers g ∧ (high_water g ≤ high_water g')%Z ∧
  ∀ pos idx, (pos ≤ high_water g)%Z → tracks g pos idx → tracks g' pos idx.

Global Instance projects_preorder : PreOrder projects.
Proof.
  split; [done|]. intros g1 g2 g3 (Hc1 & Hh1 & Ht1) (Hc2 & Hh2 & Ht2).
  split; [congruence|]. split; [lia|]. intros pos idx Hp Ht. apply Ht2; [lia|]. by apply Ht1.
Qed.

Lemma projects_same g g' :
  documents g' = documents g → outbox g' = outbox g → outbox_seq g' = outbox_seq g →
  consumers g' = consumers g → projects g g'.
Proof.
  intros Hd Ho Hq Hc. split; [done|]. split; [unfold high_water; by rewrite Hq|].
  intros pos idx _ Ht d. rewrite Hd, (outbox_after_ext g g') by done. apply Ht.
Qed.

Lemma mutates_projects X g g' : mutates X g g' → projects g g'.
Proof. intros [(Hd & Ho & Hq & Hc & _) _]. by apply projects_same. Qed.

Lemma emitted_tracks `{!StoreLaws E} g pos idx doc version m ds :
  graph_wf g → (pos ≤ high_water g)%Z →
  (∀ d, doc_matches (ds !! d) (apply_index m (replay (outbox_after g pos) idx) !! d)) →
  tracks (set_documents ds (emitted Durable doc version m g)) pos idx.
Proof.
  intros Hwf Hpos Hm d. simpl. rewrite (outbox_after_ext (emitted Durable doc version m g)) by done.
  simpl. rewrite outbox_after_append by done. unfold replay. rewrite foldl_snoc.
  unfold replay_row at 1. simpl. rewrite mutation_json_roundtrip. apply Hm.
Qed.

Lemma sync_projects `{!StoreLaws E} id generation g n g' :
  graph_wf g → sync_catalog_projection id generation Durable g = Ok (n, g') → projects g g'.
Proof.
  intros Hwf Hrun. pose proof (sync_high_water _ _ _ _ _ _ Hwf Hrun) as Hh.
  destruct (sync_same_graph _ _ _ _ _ _ Hrun) as (_ & _ & _ & Hc & _).
  apply sync_catalog_projection_Ok in Hrun as [_ Hout].
  assert (0 ≤ n)%Z as Hn by (destruct Hout; simpl; lia).
  split; [done|]. split; [lia|]. intros pos idx Hpos Ht.
  destruct Hout as [Hdes Hd|r Hdes Hd ?|doc r Hdes Hr Hun|doc Hdes ? ?]; try done.
  - apply emitted_tracks; [done|done|]. intros d. simpl. specialize (Ht d).
    destruct (decide (id = d)) as [<-|]; [by rewrite !lookup_delete_eq|by rewrite !lookup_delete_ne].
  - destruct (desired_document_Some _ _ _ _ Hdes) as (l & _ & Hid & Hv & _).
    apply emitted_tracks; [done|done|]. intros d. simpl. rewrite Hid. simpl. specialize (Ht d).
    destruct (decide (id = d)) as [<-|]; [|by rewrite !lookup_insert_ne].
    rewrite !lookup_insert_eq. simpl. by eapply compact_row_describes.
Qed.

Lemma sync_all_projects `{!StoreLaws E} ids generation g n g' :
  graph_wf g → (generation ≤ i64_max)%Z →
  sum_each ids (λ id, sync_catalog_projection id generation Durable) g = Ok (n, g') → projects g g'.
Proof.
  intros Hwf Hgen Hrun. assert (graph_wf g' ∧ projects g g') as [_ ?]; [|done].
  refine (triple_sum_each (λ h, graph_wf h ∧ projects g h) ids _ _ g n g' _ Hrun); [|done].
  intros id _ h m h' [Hwfh Hp] Hs. split; [by eapply sync_catalog_projection_wf|].
  etransitivity; [exact Hp|by eapply sync_projects].
Qed.

(** ** Operations *)

Lemma apply_batch_projects `{!StoreLaws E} b g s g' :
  graph_wf g → batch_typed b → apply_batch b g = Ok (s, g') → projects g g'.
Proof.
  intros Hwf Hty (jobs & A & g1 & g2 & n & row & Hval & _ & Hi & Hmut & Hsync & Hrow & -> & _)%apply_batch_Ok.
  destruct (batch_mutations_wf _ _ _ _ _ Hwf Hty Hval Hmut) as [Hwf1 _].
  apply apply_mutations_mutates in Hmut as [_ Hmut].
  etransitivity; [by eapply mutates_projects|].
  etransitivity; [eapply sync_all_projects; [exact Hwf1| |exact Hsync]; unfold in_i64 in Hi; lia|].
  by apply projects_same.
Qed.

Lemma begin_observation_scan_projects desc mode reason g s g' :
  begin_observation_scan desc mode reason g = Ok (s, g') → projects g g'.
Proof.
  intros Hrun. unfold begin_observation_scan, upsert_volume in Hrun. ginv.
  match goal with H2 : update_volume _ _ ?h = _, H3 : enqueue_volume_projection_refresh _ _ _ = Ok (_, ?h') |- _ =>
    transitivity h; [by apply projects_same|]; transitivity h';
    [etransitivity; eapply mutates_projects; [by eapply update_volume_mutates|by eapply enqueue_volume_mutates]|] end.
  by apply projects_same.
Qed.

Lemma apply_observation_scan_page_projects `{!StoreLaws E} v events g s g' :
  graph_wf g → events_typed events →
  apply_observation_scan_page v events g = Ok (s, g') → projects g g'.
Proof.
  intros Hwf Hty Hrun. unfold apply_observation_scan_page in Hrun. ginv.
  destruct events as [|e es]; ginv; [done|].
  eapply apply_batch_projects; [exact Hwf| |exact Hrun]. by apply Forall_fmap.
Qed.

Lemma stage_projects v cp g u g' : stage_observation_checkpoint v cp g = Ok (u, g') → projects g g'.
Proof.
  intros Hrun. unfold stage_observation_checkpoint in Hrun. ginv.
  destruct (sessions _ !! v); [|by ginv]. case_decide; ginv; by apply projects_same.
Qed.

Lemma sweep_links_projects `{!StoreLaws E} v scan generation maximum g n g' :
  store_wf g → (generation ≤ i64_max)%Z →
  sweep_stale_observation_links v scan generation maximum g = Ok (n, g') → projects g g'.
Proof.
  intros Hwf Hgen Hrun. unfold sweep_stale_observation_links in Hrun. ginv.
  match goal with H : for_each _ _ _ = Ok (_, ?h) |- _ => assert (store_wf h ∧ projects g h) as [_ Hp] end.
  { eapply (triple_for_each (λ h, store_wf h ∧ projects g h)); [|by split|done].
    intros [id l] _ h [] h' [Hh Hp] Hstep. split; [by eapply sweep_link_wf|].
    simpl in Hstep. ginv. etransitivity; [exact Hp|].
    match goal with H : sync_catalog_projection _ _ _ _ = _, H' : remove_link_internal _ _ _ _ _ = _ |- _ =>
      etransitivity; [eapply mutates_projects, remove_link_internal_mutates, H'|];
      eapply sync_projects; [eapply remove_link_internal_wf, H'; apply Hh|exact H] end. }
  etransitivity; [exact Hp|]. case_decide; ginv; by apply projects_same.
Qed.

Lemma sweep_objects_projects v scan maximum g r g' :
  sweep_stale_observation_objects v scan maximum g = Ok (r, g') → projects g g'.
Proof.
  intros Hrun. unfold sweep_stale_observation_objects in Hrun. ginv.
  match goal with H : for_each _ _ _ = Ok _ |- _ => eapply (for_each_rel projects) in H; [exact H|clear H] end.
  intros [k o] h [] h' _ Hstep. simpl in Hstep. ginv.
  by eapply mutates_projects, update_tombstoned_mutates.
Qed.

Lemma activate_projects v generation p f o g u g' :
  activate_observation_checkpoint v generation p f o g = Ok (u, g') → projects g g'.
Proof.
  intros Hrun. unfold activate_observation_checkpoint in Hrun. ginv.
  match goal with H : put_checkpoint _ _ _ = Ok (_, ?h), H2 : update_volume _ _ ?h = _,
    H3 : enqueue_volume_projection_refresh _ _ _ = Ok (_, ?h') |- _ =>
    transitivity h; [apply put_checkpoint_Ok in H as [_ ->]; by apply projects_same|]; transitivity h';
    [etransitivity; eapply mutates_projects; [by eapply update_volume_mutates|by eapply enqueue_volume_mutates]|] end.
  by apply projects_same.
Qed.

Lemma finalize_projects `{!StoreLaws E} v maximum g s g' :
  store_wf g → finalize_observation_scan v maximum g = Ok (s, g') → projects g g'.
Proof.
  intros Hwf Hrun. unfold finalize_observation_scan in Hrun. case_decide; ginv; [done|].
  match goal with H : i64_checked_add _ _ = Some _ |- _ =>
    apply i64_checked_add_Some in H as [-> [_ Hi]] end.
  match goal with H : (if of_completed ?x then _ else _) ?h = Ok _ |- projects ?h0 ?h' =>
    transitivity h; [|destruct (of_completed x); ginv; [done|]; by eapply mutates_projects, update_volume_mutates] end.
  case_decide; ginv; [by eapply sweep_links_projects|].
  match goal with H : sweep_stale_observation_objects _ _ _ _ = _ |- _ =>
    apply sweep_objects_projects in H; etransitivity; [exact H|] end.
  destruct (snd _); ginv; [|done]. by eapply activate_projects.
Qed.

Lemma refresh_paths_projects `{!StoreLaws E} maximum g s g' :
  store_wf g → refresh_projection_paths maximum g = Ok (s, g') → projects g g'.
Proof.
  intros [Hwf _] Hrun. unfold refresh_projection_paths in Hrun. case_decide; ginv; [done|].
  destruct (pending_path_jobs g) as [|[job row] rest]; ginv; [done|].
  match goal with H : generation_row _ _ = Ok _ |- _ => apply generation_row_range in H; [|done] end.
  match goal with H : sum_each _ _ _ = _ |- _ =>
    apply sync_all_projects in H; [|done|lia]; etransitivity; [exact H|] end.
  case_bool_decide; ginv; [by apply projects_same|].
  destruct (last _); ginv; by apply projects_same.
Qed.

Lemma refresh_volume_projects `{!StoreLaws E} maximum g s g' :
  store_wf g → refresh_volume_projection maximum g = Ok (s, g') → projects g g'.
Proof.
  intros [Hwf _] Hrun. unfold refresh_volume_projection in Hrun. case_decide; ginv; [done|].
  destruct (pending_volume_jobs g) as [|[v row] rest]; ginv; [done|].
  match goal with H : generation_row _ _ = Ok _ |- _ => apply generation_row_range in H; [|done] end.
  match goal with H : sum_each _ _ _ = _ |- _ =>
    apply sync_all_projects in H; [|done|lia]; etransitivity; [exact H|] end.
  case_bool_decide; ginv; [by apply projects_same|].
  destruct (last _); ginv; by apply projects_same.
Qed.

(** Rewriting a legacy row keeps the document it describes. *)
Lemma compact_projects doc d g :
  (∀ r, documents g !! d = Some r → document_from_json (d_json r) = Some doc) →
  projects g (set_documents (alter (compact_row doc) d (documents g)) g).
Proof.
  intros Hj. split; [done|]. split; [done|]. intros pos idx _ Ht d'. simpl.
  rewrite (outbox_after_ext g) by done. specialize (Ht d').
  destruct (decide (d = d')) as [<-|]; [|by rewrite lookup_alter_ne].
  rewrite lookup_alter_eq. destruct (documents g !! d) as [r|] eqn:Hr; [|done]. simpl in *.
  destruct (replay _ idx !! d) as [doc'|]; [|done]. simpl in *. unfold compact_row.
  destruct (d_path r) eqn:Hp; [done|]. destruct Ht as (Hid & Hv & [[Hp' _]|(_ & _ & Hj')]); [congruence|].
  specialize (Hj r eq_refl). assert (doc' = doc) as -> by congruence. repeat split; simpl; auto.
Qed.

Lemma compact_legacy_projects maximum g s g' :
  compact_legacy_desired_payloads_bounded maximum g = Ok (s, g') → projects g g'.
Proof.
  intros Hrun. unfold compact_legacy_desired_payloads_bounded in Hrun. ginv.
  match goal with H : for_each _ _ _ = Ok _ |- _ =>
    eapply (triple_for_each_rest (λ rest h, projects g h ∧ legacy_rest rest h)) in H;
      [apply H|clear H|split; [done|apply legacy_rest_page]] end.
  intros [d r] rest h u h' [Hp Hrest] Hstep. simpl in Hstep. ginv.
  match goal with |- context [compact_row ?doc] =>
    destruct (legacy_rest_step _ _ _ doc _ Hrest) as [Hd Hrest'] end.
  split; [|done]. etransitivity; [exact Hp|]. apply compact_projects. intros r' Hr'. congruence.
Qed.

Lemma complete_job_projects job g b g' : complete_refresh_job job g = Ok (b, g') → projects g g'.
Proof.
  intros Hrun. unfold complete_refresh_job in Hrun. ginv.
  destruct (path_jobs g !! job); [|by ginv]. case_decide; ginv; by apply projects_same.
Qed.

(** ** Consumers *)

Lemma foldr_min_le (l : list Z) (d x : Z) : x = d ∨ x ∈ l → (foldr Z.min d l ≤ x)%Z.
Proof.
  induction l as [|y l IH]; simpl.
  - intros [->|Hx%elem_of_nil]; [lia|done].
  - rewrite elem_of_cons. intros [Hx|[->|Hx]]; [specialize (IH (or_introl Hx)); lia|lia|].
    specialize (IH (or_intror Hx)). lia.
Qed.

Lemma min_consumer_le g c row :
  consumers g !! c = Some row →
  ∃ m, min_consumer_sequence g = Some m ∧ (m ≤ k_last_sequence row)%Z.
Proof.
  intros Hc. unfold min_consumer_sequence.
  assert (k_last_sequence row ∈ k_last_sequence <$> (map_to_list (consumers g)).*2) as Hin.
  { apply list_elem_of_fmap. exists row. split; [done|]. apply list_elem_of_fmap. exists (c, row).
    split; [done|]. by apply elem_of_map_to_list. }
  destruct (k_last_sequence <$> _) as [|s ss]; [by apply elem_of_nil in Hin|].
  eexists. split; [done|]. apply foldr_min_le. by apply elem_of_cons in Hin.
Qed.

(** The consumer's index is what the outbox expects of it. *)
Definition consumer_tracks g (c : string) idx : Prop :=
  ∃ row, consumers g !! c = Some row ∧ tracks g (k_last_sequence row) idx.

Lemma consumer_tracks_projects g g' c idx :
  graph_wf g → projects g g' → consumer_tracks g c idx → consumer_tracks g' c idx.
Proof.
  intros Hwf (Hc & _ & Ht) (row & Hrow & Htr). exists row. split; [by rewrite Hc|].
  apply Ht; [|done]. apply (gw_consumer _ Hwf) in Hrow. lia.
Qed.

Lemma consumer_tracks_consumers g c idx cs :
  cs !! c = consumers g !! c → consumer_tracks g c idx → consumer_tracks (set_consumers cs g) c idx.
Proof. intros Hc (row & Hrow & Ht). exists row. simpl. by rewrite Hc. Qed.

Lemma consumer_tracks_shrink g c idx xs :
  xs ⊆ outbox g →
  (∀ row s r, consumers g !! c = Some row → outbox g !! s = Some r →
     (k_last_sequence row < s)%Z → xs !! s = Some r) →
  consumer_tracks g c idx → consumer_tracks (set_outbox xs (outbox_seq g) g) c idx.
Proof.
  intros Hsub Hkeep (row & Hrow & Ht). exists row. split; [done|]. intros d. simpl.
  rewrite outbox_after_shrink; [apply Ht|done|]. intros s r. by apply Hkeep.
Qed.

Lemma prune_consumed_tracks g c idx n g' :
  consumer_tracks g c idx → prune_consumed_outbox g = Ok (n, g') → consumer_tracks g' c idx.
Proof.
  intros Ht Hrun. unfold prune_consumed_outbox in Hrun. ginv.
  destruct (min_consumer_sequence g) as [m|] eqn:Hm; ginv; [|done].
  apply consumer_tracks_shrink; [apply map_filter_subseteq| |done]. intros row s r Hrow Hs Hlt.
  destruct (min_consumer_le _ _ _ Hrow) as (m' & Hm' & Hle). simplify_eq.
  apply map_lookup_filter_Some. simpl. split; [done|lia].
Qed.

Lemma prune_rebuildable_tracks g c idx maximum allow s g' :
  consumer_tracks g c idx → prune_rebuildable_outbox_bounded maximum allow g = Ok (s, g') →
  consumer_tracks g' c idx.
Proof.
  intros Ht Hrun. unfold prune_rebuildable_outbox_bounded in Hrun. ginv.
  destruct (safe_through g allow) as [m|] eqn:Hm; ginv; [|done].
  apply consumer_tracks_shrink; [| |done].
  - apply map_subseteq_spec. intros q r Hq. by apply lookup_foldr_delete in Hq as [? _].
  - intros row q r Hrow Hq Hlt. apply lookup_foldr_delete. split; [done|].
    destruct (min_consumer_le _ _ _ Hrow) as (m' & Hm' & Hle). unfold safe_through in Hm.
    rewrite Hm' in Hm. simplify_eq. intros ([q' r'] & -> & Hin%elem_of_limit)%list_elem_of_fmap.
    apply elem_of_rows in Hin as [_ Hat]. apply bool_decide_eq_true in Hat. simpl in *. lia.
Qed.

(** ** One round of a consumer: read, apply, acknowledge *)

(** Applying a batch the way a consumer does. *)
Definition apply_mutation_batch (b : MutationBatch) idx : index :=
  foldl (λ i m, apply_index (sm_mutation m) i) idx (mb_mutations b).

Lemma decode_outbox_rows_ok g l :
  graph_wf g → (∀ s r, (s, r) ∈ l → outbox g !! s = Some r) →
  ∃ ms, decode_outbox_rows l = Ok ms ∧ sm_sequence <$> ms = l.*1
    ∧ Forall (λ m, canonical_mutation (sm_mutation m)) ms
    ∧ ∀ idx, foldl (λ i m, apply_index (sm_mutation m) i) idx ms = replay l idx.
Proof.
  intros Hwf. induction l as [|[s r] l IH]; intros Hl; simpl; [by exists []|].
  destruct IH as (ms & Hms & Hseq & Hall & Hrep); [intros s' r' Hin; apply Hl; by right|].
  assert (outbox g !! s = Some r) as Hs by (apply Hl; left).
  pose proof (gw_high_water _ Hwf). destruct (gw_outbox _ Hwf _ _ Hs) as [Hr (m & Hm & Hcan)].
  unfold decode_outbox_row. simpl. unfold u64_try_from.
  rewrite decide_True by (unfold in_u64, u64_max, i64_max in *; lia).
  unfold mbind, result_bind. simpl. rewrite Hm. simpl. rewrite Hms. eexists. split; [done|].
  split; [csimpl; by rewrite Hseq|]. split; [by constructor|]. intros idx. simpl. rewrite Hrep.
  unfold replay. simpl. f_equal. unfold replay_row. simpl. by rewrite Hm.
Qed.

Lemma read_outbox_ok g pos lim :
  graph_wf g → (0 ≤ pos ≤ i64_max)%Z →
  ∃ ms, read_outbox g (Some pos) lim = Ok (MkMutationBatch ms)
    ∧ sm_sequence <$> ms = (limit lim (outbox_after g pos)).*1
    ∧ Forall (λ m, canonical_mutation (sm_mutation m)) ms
    ∧ ∀ idx, apply_mutation_batch (MkMutationBatch ms) idx = replay (limit lim (outbox_after g pos)) idx.
Proof.
  intros Hwf Hpos. destruct (decode_outbox_rows_ok g (limit lim (outbox_after g pos)) Hwf)
    as (ms & Hms & Hseq & Hall & Hrep).
  { intros s r Hin%elem_of_limit. by apply elem_of_outbox_after in Hin as [? _]. }
  exists ms. split; [|done]. unfold read_outbox. simpl. unfold i64_try_from.
  rewrite decide_True by (unfold in_i64, i64_min in *; lia). simpl. unfold mbind, result_bind.
  by rewrite Hms.
Qed.

(** What is left to read after a page ends at [last]. *)
Lemma outbox_after_split g pos lim last_row :
  last (limit lim (outbox_after g pos)) = Some last_row →
  outbox_after g pos = limit lim (outbox_after g pos) ++ outbox_after g last_row.1.
Proof.
  intros Hlast. rewrite <-(take_drop (Z.to_nat lim) (outbox_after g pos)) at 1. f_equal. symmetry.
  apply (rows_rest _ _ _ _ _ _ last_row) with (2 := eq_sym (take_drop (Z.to_nat lim) (outbox_after g pos)));
    [|exact Hlast|].
  - unfold by_key_Z. intros. lia.
  - intros k v Hk. unfold by_key_Z. rewrite !bool_decide_eq_true. simpl.
    assert (last_row ∈ outbox_after g pos) as Hin.
    { apply (elem_of_limit lim). apply last_Some in Hlast as [pre ->]. apply elem_of_app. right. left. }
    destruct last_row as [q row]. apply elem_of_outbox_after in Hin as [_ Hq]. simpl. lia.
Qed.

(** Sequence numbers of a page are consecutive. *)
Lemma outbox_after_consecutive g pos x i y :
  graph_wf g → head (outbox_after g pos).*1 = Some x → (outbox_after g pos).*1 !! i = Some y →
  y = (x + Z.of_nat i)%Z.
Proof.
  intros Hwf. apply gapless_lookup.
  - pose proof (outbox_after_sorted g pos) as Hs.
    induction Hs as [|[s r] l Hs IH Hall]; csimpl; constructor; [done|].
    apply Forall_fmap. eapply Forall_impl; [exact Hall|]. by intros [s' r'].
  - apply rows_NoDup_keys.
  - intros a b c ([a' ra] & -> & Ha)%list_elem_of_fmap ([b' rb] & -> & Hb)%list_elem_of_fmap Hc.
    apply elem_of_outbox_after in Ha as [Ha Hp]. apply elem_of_outbox_after in Hb as [Hb _].
    apply (gw_outbox _ Hwf) in Hb. simpl in *.
    destruct (gw_outbox_gapless _ Hwf a' c ra) as [rc Hrc]; [done|lia|].
    apply list_elem_of_fmap. exists (c, rc). split; [done|]. apply elem_of_outbox_after.
    split; [done|lia].
Qed.

Lemma read_outbox_validates g pos lim ms :
  graph_wf g → sm_sequence <$> ms = (limit lim (outbox_after g pos)).*1 → ms ≠ [] →
  MutationBatch_validate (MkMutationBatch ms) = Ok tt.
Proof.
  intros Hwf Hseq Hne. unfold MutationBatch_validate. simpl.
  destruct ms as [|m ms']; [done|]. clear Hne. set (ms := m :: ms') in *.
  pose proof (gw_high_water _ Hwf) as Hh.
  assert (∀ s, s ∈ sm_sequence <$> ms → (0 < s ≤ high_water g)%Z) as Hrange.
  { intros s. rewrite Hseq. intros ([s' r] & -> & Hin%elem_of_limit)%list_elem_of_fmap.
    apply elem_of_outbox_after in Hin as [Hin _]. by apply (gw_outbox _ Hwf) in Hin as [? _]. }
  assert (∀ i x, ms !! i = Some x → sm_sequence x = (sm_sequence m + Z.of_nat i)%Z) as Hcons.
  { assert (∀ i y, (sm_sequence <$> ms) !! i = Some y → (outbox_after g pos).*1 !! i = Some y) as Hpre.
    { intros i y. rewrite Hseq. unfold limit. rewrite fmap_take.
      intros Hy. apply lookup_take_Some in Hy. tauto. }
    intros i x Hx. eapply (outbox_after_consecutive g pos (sm_sequence m) i); [done| |].
    - specialize (Hpre 0 (sm_sequence m) eq_refl). destruct (outbox_after g pos); [done|exact Hpre].
    - apply Hpre. rewrite list_lookup_fmap, Hx. done. }
  assert (∀ x, x ∈ ms → (0 < sm_sequence x ≤ high_water g)%Z) as Hr.
  { intros x Hx. apply Hrange, list_elem_of_fmap. by exists x. }
  apply validate_from_ok.
  - specialize (Hr m (list_elem_of_here _ _)). unfold in_u64, u64_max, i64_max in *. lia.
  - apply Forall_forall. intros x Hx. specialize (Hr x Hx). unfold in_u64, u64_max, i64_max in *. lia.
  - split; [exact Hcons|]. destruct (last_is_Some ms) as [_ Hl]. destruct Hl as [x Hl]; [done|].
    rewrite last_lookup in Hl. pose proof (Hcons _ _ Hl) as Hx.
    apply list_elem_of_lookup_2 in Hl. apply Hr in Hl. unfold i64_max, u64_max in *. lia.
Qed.

(** Operations that leave the checkpoint of [c] to its owner. *)
Definition op_spares (c : string) (o : op) : Prop :=
  match o with
  | OpAcknowledgeProjection c' _ _ | OpResetProjectionConsumer c' => c' ≠ c
  | _ => True
  end.

(** The checkpoint of [c] stays, and an index that was on track stays on track. *)
Definition spares (c : string) g g' : Prop :=
  ∀ row, consumers g !! c = Some row →
    consumers g' !! c = Some row ∧
    ∀ idx, tracks g (k_last_sequence row) idx → tracks g' (k_last_sequence row) idx.

Global Instance spares_preorder c : PreOrder (spares c).
Proof.
  split; [by intros g row|]. intros g1 g2 g3 H1 H2 row Hrow.
  destruct (H1 row Hrow) as [Hrow2 Ht1]. destruct (H2 row Hrow2) as [Hrow3 Ht2]. split; [done|]. auto.
Qed.

Lemma spares_tracks c g g' :
  (∀ row, consumers g !! c = Some row → consumers g' !! c = Some row) →
  (∀ idx, consumer_tracks g c idx → consumer_tracks g' c idx) → spares c g g'.
Proof.
  intros Hc Ht row Hrow. pose proof (Hc row Hrow) as Hrow'. split; [done|]. intros idx Hidx.
  destruct (Ht idx) as (row' & Hr & ?); [by exists row|]. by simplify_eq.
Qed.

Lemma spares_projects c g g' : graph_wf g → projects g g' → spares c g g'.
Proof.
  intros Hwf Hp. apply spares_tracks; [by destruct Hp as [-> _]|]. intros idx. by apply consumer_tracks_projects.
Qed.

Lemma run_op_spares `{!StoreLaws E} (g g' : db) (c : string) (o : op) :
  store_wf g → op_typed o → op_spares c o → run_op o g = Ok (tt, g') → spares c g g'.
Proof.
  intros Hwf Hty Hc Hrun. pose proof (proj1 Hwf) as Hgw.
  destruct o; simpl in Hrun, Hty, Hc; unfold discard in Hrun; ginv.
  - apply spares_projects; [done|]. by eapply apply_batch_projects.
  - match goal with H : apply_rebuildable_batch _ _ = _ |- _ =>
      apply apply_batch_Ok in H as (? & ? & ? & ? & ? & ? & _ & Hno & _) end.
    intros row Hrow. by rewrite (Hno eq_refl), lookup_empty in Hrow.
  - apply spares_projects; [done|]. eapply apply_batch_projects; [done| |done].
    unfold batch_typed. simpl. constructor; [done|]. by apply Forall_fmap.
  - apply spares_projects; [done|]. by eapply begin_observation_scan_projects.
  - apply spares_projects; [done|]. by eapply apply_observation_scan_page_projects.
  - apply spares_projects; [done|]. by eapply stage_projects.
  - apply spares_projects; [done|]. by eapply finalize_projects.
  - unfold acknowledge_projection in Hrun. ginv. apply spares_tracks; simpl.
    + intros row Hrow. by rewrite lookup_insert_ne.
    + intros idx. apply consumer_tracks_consumers. by rewrite lookup_insert_ne.
  - unfold reset_projection_consumer in *. ginv. apply spares_tracks; simpl.
    + intros row Hrow. by rewrite lookup_delete_ne.
    + intros idx. apply consumer_tracks_consumers. by rewrite lookup_delete_ne.
  - apply spares_tracks; [|intros idx Ht; by eapply prune_consumed_tracks].
    unfold prune_consumed_outbox in *. ginv. destruct (min_consumer_sequence g); by ginv.
  - apply spares_tracks; [|intros idx Ht; by eapply prune_rebuildable_tracks].
    unfold prune_rebuildable_outbox_bounded in *. ginv. destruct (safe_through g _); by ginv.
  - apply spares_projects; [done|]. by eapply compact_legacy_projects.
  - apply spares_projects; [done|]. by eapply refresh_paths_projects.
  - apply spares_projects; [done|]. by eapply refresh_volume_projects.
  - apply spares_projects; [done|]. by eapply complete_job_projects.
Qed.

(** Transactions that spare every consumer. *)
Inductive foreign_step : relation db :=
| foreign_commit o g g' :
    op_typed o → (∀ c, op_spares c o) → run_op o g = Ok (tt, g') → foreign_step g g'.

Lemma foreign_steps_store g g' : rtc foreign_step g g' → rtc store_step g g'.
Proof. apply rtc_subrel. intros ? ? [o ? ? Hty _ Hrun]. by apply (step_commit o). Qed.

Lemma foreign_steps_spare `{!StoreLaws E} g g' :
  store_wf g → rtc foreign_step g g' → store_wf g' ∧ ∀ c, spares c g g'.
Proof.
  intros Hwf. induction 1 as [g|g1 g2 g3 [o ? ? Hty Hsp Hrun] _ IH]; [done|].
  assert (store_wf g') as Hwf2 by (eapply store_step_wf; [done|by apply (step_commit o)]).
  destruct (IH Hwf2) as [Hwf3 Hs]. split; [done|]. intros c. etransitivity; [|apply Hs].
  by apply (run_op_spares g g' c o).
Qed.

(** C2 (consumers stay on track): if applying the unread outbox to a consumer's index yields the
    desired catalog, this is still so after any committed operation of the store other than this
    consumer's own acknowledgement or reset: batches, scans, refreshes and compaction append what
    they change, and pruning only removes what the consumer has acknowledged. *)
Theorem consumer_stays_on_track `{!StoreLaws E} (g g' : db) (c : string) (idx : index) (o : op) :
  store_wf g → consumer_tracks g c idx → op_typed o →
  match o with
  | OpAcknowledgeProjection c' _ _ | OpResetProjectionConsumer c' => c' ≠ c
  | _ => True
  end →
  run_op o g = Ok (tt, g') → consumer_tracks g' c idx.
Proof.
  intros Hwf (row & Hrow & Ht) Hty Hc Hrun.
  destruct (run_op_spares g g' c o Hwf Hty Hc Hrun row Hrow) as [Hrow' Htr].
  exists row. split; [done|]. by apply Htr.
Qed.

Lemma acknowledge_ok g c last generation :
  graph_wf g → (∀ row, consumers g !! c = Some row → k_last_sequence row ≤ last)%Z →
  (0 ≤ last ≤ high_water g)%Z → (0 ≤ generation ≤ i64_max)%Z →
  acknowledge_projection c last generation g =
  Ok (tt, set_consumers (<[c := ConsumerRow last generation]> (consumers g)) g).
Proof.
  intros Hwf Hrow Hl Hg. pose proof (gw_high_water _ Hwf) as Hh.
  unfold acknowledge_projection, gets, mbind, M_bind. rewrite latest_outbox_sequence_eq by done.
  unfold guard_m, lift. rewrite bool_decide_eq_false_2 by lia. simpl.
  assert (match projector_checkpoint g c with
    | Ok (Some k) => (pj_last_sequence k ≤ last)%Z | Ok None => True | Err _ => False end) as Hcp.
  { unfold projector_checkpoint. destruct (consumers g !! c) as [row|] eqn:Hc; [|done].
    specialize (Hrow row eq_refl). destruct (gw_consumer _ Hwf _ _ Hc) as [[Hr1 Hr2] Hr3].
    unfold u64_try_from. rewrite !decide_True by (unfold in_u64, u64_max, i64_max in *; lia). done. }
  destruct (projector_checkpoint g c) as [[k|]|]; [| |done].
  - rewrite bool_decide_eq_false_2 by lia. simpl. unfold i64_try_from.
    rewrite !decide_True by (unfold in_i64, i64_min in *; lia). done.
  - simpl. unfold i64_try_from. rewrite !decide_True by (unfold in_i64, i64_min in *; lia). done.
Qed.

(** The consumer's next page, what applying and acknowledging it gives. *)
Lemma round_progress `{!StoreLaws E} (g : db) (c : string) (row : consumer_row) (idx : index)
  (lim generation : Z) :
  store_wf g → consumers g !! c = Some row → tracks g (k_last_sequence row) idx →
  (0 < lim)%Z → (0 ≤ generation ≤ i64_max)%Z →
  ∃ b, read_outbox g (Some (k_last_sequence row)) lim = Ok b ∧
    Forall (λ m, canonical_mutation (sm_mutation m)) (mb_mutations b) ∧
    match last_sequence b with
    | None => ∀ d, doc_matches (documents g !! d) (idx !! d)
    | Some last =>
        MutationBatch_validate b = Ok tt ∧
        ∃ g', acknowledge_projection c last generation g = Ok (tt, g')
          ∧ consumer_tracks g' c (apply_mutation_batch b idx)
          ∧ length (outbox_after g' last) < length (outbox_after g (k_last_sequence row))
          ∧ store_wf g'
    end.
Proof.
  intros Hswf Hrow Ht Hlim Hgen. pose proof Hswf as [Hwf _]. pose proof (gw_consumer _ Hwf _ _ Hrow) as [Hr _].
  pose proof (gw_high_water _ Hwf) as Hh. set (pos := k_last_sequence row) in *.
  destruct (read_outbox_ok g pos lim Hwf) as (ms & Hread & Hseq & Hall & Hrep); [lia|].
  exists (MkMutationBatch ms). split; [done|]. split; [done|]. unfold last_sequence. simpl.
  destruct (last ms) as [m|] eqn:Hlast; simpl.
  - assert (ms ≠ []) as Hne by (by intros ->).
    split; [by eapply read_outbox_validates|].
    assert (last (limit lim (outbox_after g pos)).*1 = Some (sm_sequence m)) as Hls.
    { rewrite <-Hseq, fmap_last, Hlast. done. }
    rewrite fmap_last in Hls. destruct (last (limit lim (outbox_after g pos))) as [[q r]|] eqn:Hlr; [|done].
    simpl in Hls. simplify_eq. pose proof (outbox_after_split g pos lim (_, r) Hlr) as Hsplit.
    assert ((sm_sequence m, r) ∈ outbox_after g pos) as Hin.
    { apply (elem_of_limit lim). apply last_Some in Hlr as [pre ->]. apply elem_of_app. right. left. }
    apply elem_of_outbox_after in Hin as [Hq Hpq]. apply (gw_outbox _ Hwf) in Hq as [Hq _].
    assert (acknowledge_projection c (sm_sequence m) generation g =
      Ok (tt, set_consumers (<[c := ConsumerRow (sm_sequence m) generation]> (consumers g)) g)) as Hack
      by (apply acknowledge_ok; [done|intros ? ?; simplify_eq; lia|lia|done]).
    eexists. split; [exact Hack|]. split_and!.
    + eexists. simpl. rewrite lookup_insert_eq. split; [done|]. simpl. intros d. simpl.
      rewrite (outbox_after_ext g) by done. rewrite Hrep. specialize (Ht d). rewrite Hsplit in Ht.
      simpl in Ht. unfold replay in *. by rewrite foldl_app in Ht.
    + rewrite (outbox_after_ext g) by done. rewrite Hsplit, length_app. simpl.
      destruct (limit lim (outbox_after g pos)); [done|simpl; lia].
    + eapply acknowledge_projection_wf; [| |exact Hswf|exact Hack]; lia.
  - apply last_None in Hlast as ->. simpl in Hseq. intros d. specialize (Ht d).
    destruct (outbox_after g pos) as [|x l] eqn:Hout; [done|]. unfold limit in Hseq.
    destruct (Z.to_nat lim) eqn:Hn; [lia|]. done.
Qed.

End converge.

(** A consumer that has read nothing of the sample volume yet. *)
Definition with_consumer : db := run_ops [OpAcknowledgeProjection "catalog" 0 0] sample_db.

Lemma with_consumer_wf : store_wf with_consumer.
Proof.
  eapply store_steps_wf; [apply sample_db_wf|]. apply run_ops_steps.
  repeat constructor; simpl; unfold in_u64, u64_max; lia.
Qed.

(** Decides [doc_matches] on rows in the compact format. *)
Definition row_matches (o : option document_row) (i : option CatalogDocument) : bool :=
  match o, i with
  | None, None => true
  | Some r, Some doc =>
      bool_decide (cd_identity doc = MkCatalogIdentity (d_object r) (d_file_link_id r) (d_file_link_id r)) &&
      bool_decide (cd_document_version doc = d_version r) &&
      bool_decide (d_path r = Some (cd_resolved_path doc)) &&
      bool_decide (d_fingerprint r = Some (catalog_content_fingerprint doc))
  | _, _ => false
  end.

Lemma row_matches_sound o i : row_matches o i = true → doc_matches o i.
Proof.
  destruct o, i; simpl; try done. rewrite !andb_true_iff, !bool_decide_eq_true.
  intros [[[? ?] ?] ?]. repeat split; auto.
Qed.

Lemma tracks_compute g pos idx :
  forallb (λ d, row_matches (documents g !! d) (replay (outbox_after g pos) idx !! d))
    (elements (dom (documents g) ∪ dom (replay (outbox_after g pos) idx))) = true →
  tracks g pos idx.
Proof.
  intros Hall d. destruct (decide (d ∈ dom (documents g) ∪ dom (replay (outbox_after g pos) idx))) as [Hd|Hn].
  - apply row_matches_sound. rewrite forallb_forall in Hall. apply Hall.
    by apply list_elem_of_In, elem_of_elements.
  - apply not_elem_of_union in Hn as [H1%not_elem_of_dom H2%not_elem_of_dom]. by rewrite H1, H2.
Qed.

Lemma with_consumer_tracks : tracks with_consumer 0 ∅.
Proof. apply tracks_compute. vm_compute. reflexivity. Qed.

Lemma consumer_stays_on_track_witness :
  consumer_tracks (commit (run_op (OpApplyBatch sample_rename)) with_consumer) "catalog" ∅.
Proof.
  apply (consumer_stays_on_track with_consumer _ "catalog" ∅ (OpApplyBatch sample_rename)).
  - apply with_consumer_wf.
  - exists (ConsumerRow 0 0). split; [vm_compute; reflexivity|apply with_consumer_tracks].
  - apply sample_rename_typed.
  - done.
  - vm_compute. reflexivity.
Defined.

