(* ===== verification/GraphObserve.v ===== *)
(** Full-volume observation sessions: the phases a session goes through and the sweep that ends it.

    After the provider's final checkpoint is staged, bounded finalization calls remove every link
    and tombstone every unlinked object the scan did not see, and only the terminal call makes the
    checkpoint current and the volume online. *)
From stdpp Require Import base strings numbers gmap list sorting.
From S2P Require Import Prelude Models GraphDomain GraphTables Fixtures GraphPath GraphMutate.
From S2P Require Import GraphProjection GraphStore GraphInvariant GraphPreserve GraphReach.
From S2P Require Import GraphSync.

Section observe.
Context `{E : StoreEnv}.
Implicit Types (g : db) (id : link_id) (k : FileKey) (v : volume_id) (generation scan : Z).

(** ** Stale links *)

Definition stale_link v scan (l : link_row) : Prop :=
  fk_volume (l_object l) = v ∧ (l_observation_generation l < scan)%Z.

Lemma elem_of_stale_links g v scan id l :
  (id, l) ∈ stale_links g v scan ↔ links g !! id = Some l ∧ stale_link v scan l.
Proof. unfold stale_links. by rewrite elem_of_rows, bool_decide_eq_true. Qed.

Lemma stale_links_keys_NoDup g v scan : NoDup (stale_links g v scan).*1.
Proof. apply rows_NoDup_keys. Qed.

(** Removing a link that is there always succeeds. *)
Lemma remove_link_internal_total id row generation g :
  graph_wf g → links g !! id = Some row →
  ∃ g', remove_link_internal id (l_object row) generation false g = Ok (0%Z, g')
    ∧ links g' = delete id (links g) ∧ volumes g' = volumes g ∧ dom (objects g') = dom (objects g).
Proof.
  intros Hwf Hrow. destruct (gw_link_live _ Hwf _ _ Hrow) as (o & Ho & _).
  unfold remove_link_internal, mbind, M_bind, get_state. simpl. rewrite Hrow.
  unfold guard_m, lift. rewrite bool_decide_eq_true_2 by done. simpl.
  unfold gets, is_directory. rewrite Ho. simpl. rewrite andb_false_r.
  case_decide; [|by eexists]. unfold update_tombstoned. simpl. rewrite Ho.
  eexists. split; [done|]. simpl. split; [done|]. split; [done|].
  rewrite dom_insert_L. apply elem_of_dom_2 in Ho. set_solver.
Qed.

(** One iteration of the link sweep. *)
Definition sweep_one generation (r : link_id * link_row) v : GM unit :=
  remove_link_internal r.1 (MkFileKey v (fk_file (l_object r.2))) generation false ;;
  sync_catalog_projection r.1 generation Durable ;; mret tt.

Lemma file_key_eta v k : fk_volume k = v → MkFileKey v (fk_file k) = k.
Proof. destruct k. simpl. by intros ->. Qed.

Lemma sweep_one_total `{!StoreLaws E} v generation g id l :
  store_wf g → links g !! id = Some l → fk_volume (l_object l) = v →
  (0 ≤ generation ≤ i64_max)%Z → (high_water g < i64_max)%Z →
  ∃ g', sweep_one generation (id, l) v g = Ok (tt, g') ∧ store_wf g'
    ∧ links g' = delete id (links g) ∧ volumes g' = volumes g ∧ sessions g' = sessions g
    ∧ dom (objects g') = dom (objects g) ∧ (high_water g' ≤ high_water g + 1)%Z.
Proof.
  intros Hwf Hl Hv Hgen Hh. destruct (remove_link_internal_total id l generation g (proj1 Hwf) Hl)
    as (g1 & Hrem & Hl1 & Hv1 & Hd1).
  pose proof (remove_link_internal_mutates _ _ _ _ _ _ _ Hrem) as [(_ & _ & Hq & _ & _ & Hs1) _].
  assert (graph_wf g1) as Hwf1 by (by eapply remove_link_internal_wf; [apply Hwf|]).
  assert (high_water g1 = high_water g) as Hh1 by (unfold high_water; by rewrite Hq).
  destruct (sync_total id generation Durable g1 Hwf1 Hgen) as (n & g2 & Hsync); [lia|].
  pose proof (sync_same_graph _ _ _ _ _ _ Hsync) as (Hv2 & Ho2 & Hl2 & _ & _ & Hs2 & _).
  assert (sweep_one generation (id, l) v g = Ok (tt, g2)) as Hrun.
  { unfold sweep_one, mbind, M_bind. simpl. rewrite file_key_eta by done. by rewrite Hrem, Hsync. }
  exists g2. split; [done|]. split; [by eapply sweep_link_wf; [apply Hgen|exact Hwf|exact Hrun]|].
  split_and!; try congruence. rewrite (sync_high_water _ _ _ _ _ _ Hwf1 Hsync), Hh1.
  apply sync_catalog_projection_Ok in Hsync as [_ Hout]. destruct Hout; simpl; lia.
Qed.

Lemma sweep_loop_total `{!StoreLaws E} v generation (page : list (link_id * link_row)) g :
  store_wf g → NoDup page.*1 →
  (∀ id l, (id, l) ∈ page → links g !! id = Some l ∧ fk_volume (l_object l) = v) →
  (0 ≤ generation ≤ i64_max)%Z → (high_water g + Z.of_nat (length page) ≤ i64_max)%Z →
  ∃ g', for_each page (λ r, sweep_one generation r v) g = Ok (tt, g') ∧ store_wf g'
    ∧ (∀ id l, links g' !! id = Some l ↔ links g !! id = Some l ∧ id ∉ page.*1)
    ∧ volumes g' = volumes g ∧ sessions g' = sessions g ∧ dom (objects g') = dom (objects g)
    ∧ (high_water g' ≤ high_water g + Z.of_nat (length page))%Z.
Proof.
  revert g. induction page as [|[id l] page IH]; intros g Hwf Hnd Hp Hgen Hh.
  { exists g. simpl in *. split_and!; try done; [|lia]. intros id l. set_solver. }
  simpl length in Hh. csimpl in Hnd. apply NoDup_cons in Hnd as [Hid Hnd].
  destruct (Hp id l) as [Hl Hv]; [left|].
  destruct (sweep_one_total v generation g id l Hwf Hl Hv Hgen) as (g1 & Hrun & Hwf1 & Hl1 & Hv1 & Hs1 & Hd1 & Hh1); [lia|].
  destruct (IH g1) as (g2 & Hrest & Hwf2 & Hl2 & Hv2 & Hs2 & Hd2 & Hh2); [done|done| |done|lia|].
  { intros id' l' Hin. destruct (Hp id' l') as [Hl' Hv']; [by right|]. split; [|done].
    rewrite Hl1, lookup_delete_ne; [done|]. intros <-. apply Hid, list_elem_of_fmap. by exists (id, l'). }
  exists g2. split; [simpl; unfold mbind, M_bind; by rewrite Hrun|]. split; [done|].
  split; [|split_and!; [congruence|congruence|congruence|simpl; lia]].
  intros id' l'. rewrite Hl2, Hl1, lookup_delete_Some. csimpl. rewrite not_elem_of_cons. naive_solver.
Qed.

(** ** One finalization call while links are swept *)

Lemma stale_links_after_page g g' v scan maximum :
  let page := limit maximum (stale_links g v scan) in
  (∀ id l, links g' !! id = Some l ↔ links g !! id = Some l ∧ id ∉ page.*1) →
  length page + length (stale_links g' v scan) ≤ length (stale_links g v scan).
Proof.
  intros page Hl. rewrite <-length_app. apply submseteq_length, NoDup_submseteq.
  - apply NoDup_app. split; [|split].
    + unfold page, limit. eapply sublist_NoDup; [|apply sublist_take].
      eapply NoDup_fmap_1, stale_links_keys_NoDup.
    + intros [id l] Hp [Hl' _]%elem_of_stale_links. apply Hl in Hl' as [_ Hn]. apply Hn, list_elem_of_fmap.
      by exists (id, l).
    + eapply NoDup_fmap_1, stale_links_keys_NoDup.
  - intros [id l] [Hp%elem_of_limit|[Hl' Hst]%elem_of_stale_links]%elem_of_app; [done|].
    apply Hl in Hl' as [Hl' _]. by apply elem_of_stale_links.
Qed.

Lemma stale_links_none g v scan :
  stale_links g v scan = [] ↔ ∀ id l, links g !! id = Some l → ¬ stale_link v scan l.
Proof.
  unfold stale_links. rewrite rows_nil. split; intros H id l Hl; specialize (H id l Hl).
  - by apply bool_decide_eq_false in H.
  - by apply bool_decide_eq_false.
Qed.

(** What survives a call: links of other volumes and links the scan has seen. *)
Definition keeps_observed v scan g g' : Prop :=
  ∀ id l, links g !! id = Some l → ¬ stale_link v scan l → links g' !! id = Some l.

Lemma update_generation_total v generation g r :
  volumes g !! v = Some r →
  update_volume v (set_generation generation) g
  = Ok (1%Z, set_volumes (<[v := set_generation generation r]> (volumes g)) g).
Proof. unfold update_volume. by intros ->. Qed.

Lemma finalize_links_step `{!StoreLaws E} g v s r maximum :
  store_wf g → sessions g !! v = Some s → s_phase s = 1%Z → volumes g !! v = Some r →
  (0 < maximum)%Z → (v_generation r < i64_max)%Z →
  let scan := s_scan_generation s in
  (high_water g + Z.of_nat (length (stale_links g v scan)) ≤ i64_max)%Z →
  ∃ sum g', finalize_observation_scan v maximum g = Ok (sum, g') ∧ of_completed sum = false
    ∧ keeps_observed v scan g g' ∧ links g' ⊆ links g ∧ dom (objects g') = dom (objects g)
    ∧ volumes g' !! v = Some (set_generation (v_generation r + 1) r)
    ∧ (high_water g' + Z.of_nat (length (stale_links g' v scan)) ≤ i64_max)%Z
    ∧ ((sessions g' !! v = Some (set_phase 2 s) ∧ stale_links g' v scan = []) ∨
       (sessions g' !! v = Some s ∧
        length (stale_links g' v scan) < length (stale_links g v scan))).
Proof.
  intros Hwf Hs Hph Hr Hmax Hgen scan Hh. set (page := limit maximum (stale_links g v scan)).
  pose proof (gw_volume_row _ (proj1 Hwf) _ _ Hr) as [_ Hrange].
  assert (length page ≤ length (stale_links g v scan)) as Hlen.
  { unfold page, limit. rewrite length_take. lia. }
  destruct (sweep_loop_total v (v_generation r + 1) page g Hwf)
    as (g1 & Hloop & Hwf1 & Hl1 & Hv1 & Hs1 & Hd1 & Hh1); [| |lia|lia|].
  { unfold page, limit. rewrite fmap_take. eapply sublist_NoDup; [apply stale_links_keys_NoDup|apply sublist_take]. }
  { intros id l Hin%elem_of_limit. apply elem_of_stale_links in Hin as [Hl [Hv _]]. done. }
  pose proof (stale_links_after_page g g1 v scan maximum Hl1) as Hprog. fold page in Hprog.
  assert (keeps_observed v scan g g1) as Hkeep.
  { intros id l Hl Hn. apply Hl1. split; [done|].
    intros ([id' l'] & -> & Hin%elem_of_limit)%list_elem_of_fmap. apply elem_of_stale_links in Hin as [Hl' Hst].
    simpl in *. congruence. }
  assert (links g1 ⊆ links g) as Hsub.
  { apply map_subseteq_spec. intros id l Hl. by apply Hl1 in Hl as [? _]. }
  unfold finalize_observation_scan. rewrite decide_False by lia. unfold mbind, M_bind, get_state.
  rewrite Hs. cbn [ok_or lift]. unfold guard_m, lift. rewrite bool_decide_eq_true_2 by lia. cbn [ensure].
  unfold gets, generation_row. rewrite Hr. unfold i64_checked_add.
  rewrite decide_True by (unfold in_i64, i64_min in *; lia). cbn [ok_or].
  rewrite decide_True by done. unfold sweep_stale_observation_links, mbind, M_bind, get_state.
  fold scan. fold page. change (for_each page _ g) with (for_each page (λ r0, sweep_one (v_generation r + 1) r0 v) g).
  rewrite Hloop. case_decide as Hshort; unfold modify, mret, M_ret; cbn [of_completed];
    rewrite (update_generation_total v _ _ r) by (simpl; by rewrite Hv1);
    do 2 eexists; (split; [reflexivity|]); (split; [done|]); (split; [exact Hkeep|]);
    (split; [exact Hsub|]); (split; [exact Hd1|]); (split; [simpl; by rewrite lookup_insert_eq|]);
    change (stale_links (set_volumes _ _) v scan) with (stale_links g1 v scan);
    change (high_water (set_volumes _ _)) with (high_water g1).
  - split; [lia|]. left. split.
    + simpl. rewrite lookup_alter_eq, Hs1, Hs. done.
    + apply length_zero_iff_nil. unfold page in Hprog. rewrite limit_short in Hprog by exact Hshort. lia.
  - split; [lia|]. right. split; [by simpl; rewrite Hs1|].
    destruct (limit_last _ _ Hmax Hshort) as (c & _ & Hc). fold page in Hc.
    destruct page; [by apply elem_of_nil in Hc|]. simpl in Hprog. lia.
Qed.

(** ** One finalization call while objects are swept *)

Definition stale_object g v scan k (o : object_row) : Prop :=
  fk_volume k = v ∧ o_tombstoned o = false ∧ (o_observation_generation o < scan)%Z
  ∧ ∀ id l, links g !! id = Some l → l_object l ≠ k.

Lemma stale_object_iff g v scan k o :
  bool_decide (fk_volume k = v ∧ o_tombstoned o = false ∧ (o_observation_generation o < scan)%Z) &&
  negb (exists_row (object_is k) (links g)) = true ↔ stale_object g v scan k o.
Proof.
  unfold stale_object. rewrite andb_true_iff, bool_decide_eq_true, negb_true_iff, exists_row_false.
  assert ((∀ id l, links g !! id = Some l → object_is k (id, l) = false) ↔
    (∀ id l, links g !! id = Some l → l_object l ≠ k)) as ->; [|tauto].
  split; intros H id l Hl; specialize (H id l Hl); unfold object_is in *; simpl in *;
    [by apply bool_decide_eq_false in H|by apply bool_decide_eq_false].
Qed.

Lemma elem_of_stale_objects g v scan k o :
  (k, o) ∈ stale_objects g v scan ↔ objects g !! k = Some o ∧ stale_object g v scan k o.
Proof. unfold stale_objects. rewrite elem_of_rows. simpl. by rewrite stale_object_iff. Qed.

Lemma stale_objects_keys_NoDup g v scan : NoDup (stale_objects g v scan).*1.
Proof. apply rows_NoDup_keys. Qed.

Lemma stale_objects_none g v scan :
  stale_objects g v scan = [] ↔ ∀ k o, objects g !! k = Some o → ¬ stale_object g v scan k o.
Proof.
  unfold stale_objects. rewrite rows_nil. split; intros H k o Ho; specialize (H k o Ho).
  - intros Hst%stale_object_iff. simpl in H. congruence.
  - apply not_true_iff_false. simpl. by rewrite stale_object_iff.
Qed.

(** The loop tombstones exactly its page. *)
Definition tombstone_page (page : list FileKey) g : db :=
  foldl (λ h k, set_objects (alter (set_tombstoned true) k (objects h)) h) g page.

Lemma tombstone_loop (page : list (FileKey * object_row)) g :
  for_each page (λ r, update_tombstoned r.1 true ;; mret tt) g = Ok (tt, tombstone_page page.*1 g).
Proof.
  revert g. induction page as [|[k o] page IH]; intros g; [done|].
  assert (update_tombstoned k true g = Ok (if decide (is_Some (objects g !! k)) then 1%Z else 0%Z,
    set_objects (alter (set_tombstoned true) k (objects g)) g)) as Hstep.
  { unfold update_tombstoned. destruct (objects g !! k) as [r|] eqn:Hr; repeat f_equal.
    - apply map_eq. intros k'. destruct (decide (k = k')) as [<-|]; simplify_map_eq; done.
    - destruct g. unfold set_objects. simpl in *. f_equal. apply map_eq. intros k'.
      destruct (decide (k = k')) as [<-|]; simplify_map_eq; done. }
  assert ((update_tombstoned k true ;; mret tt : GM unit) g =
    Ok (tt, set_objects (alter (set_tombstoned true) k (objects g)) g)) as Hbody.
  { unfold mbind, M_bind. by rewrite Hstep. }
  simpl. unfold mbind at 1, M_bind at 1. cbn [fst]. rewrite Hbody. exact (IH _).
Qed.

Lemma tombstone_page_frame page g :
  links (tombstone_page page g) = links g ∧ volumes (tombstone_page page g) = volumes g
  ∧ sessions (tombstone_page page g) = sessions g ∧ dom (objects (tombstone_page page g)) = dom (objects g).
Proof.
  revert g. induction page as [|k page IH]; intros g; [done|]. simpl.
  destruct (IH (set_objects (alter (set_tombstoned true) k (objects g)) g)) as (-> & -> & -> & ->).
  split_and!; try done. simpl. by rewrite dom_alter_L.
Qed.

Lemma tombstone_page_lookup page g k :
  objects (tombstone_page page g) !! k =
  (if decide (k ∈ page) then set_tombstoned true <$> objects g !! k else objects g !! k).
Proof.
  revert g. induction page as [|k' page IH]; intros g; [done|]. simpl. rewrite IH. simpl.
  destruct (decide (k = k')) as [->|Hne].
  - rewrite lookup_alter_eq, (decide_True (P := k' ∈ k' :: page)) by left.
    case_decide; [|done]. by destruct (objects g !! k') as [[]|].
  - rewrite lookup_alter_ne by done. repeat case_decide; set_solver.
Qed.

Lemma stale_objects_after_page g v scan maximum :
  let page := limit maximum (stale_objects g v scan) in
  length page + length (stale_objects (tombstone_page page.*1 g) v scan) ≤ length (stale_objects g v scan).
Proof.
  intros page. pose proof (tombstone_page_frame page.*1 g) as (Hl & _).
  assert (∀ k o, (k, o) ∈ stale_objects (tombstone_page page.*1 g) v scan →
    (k, o) ∈ stale_objects g v scan ∧ k ∉ page.*1) as Hin.
  { intros k o (Ho & Hv & Ht & Hg & Hun)%elem_of_stale_objects. rewrite tombstone_page_lookup in Ho.
    case_decide as Hk; [destruct (objects g !! k); simplify_eq/=; done|]. split; [|done].
    apply elem_of_stale_objects. split; [done|]. rewrite Hl in Hun. by repeat split. }
  rewrite <-length_app. apply submseteq_length, NoDup_submseteq.
  - apply NoDup_app. split; [|split].
    + unfold page, limit. eapply sublist_NoDup; [|apply sublist_take].
      eapply NoDup_fmap_1, stale_objects_keys_NoDup.
    + intros [k o] Hp [_ Hn]%Hin. apply Hn, list_elem_of_fmap. by exists (k, o).
    + eapply NoDup_fmap_1, stale_objects_keys_NoDup.
  - intros [k o] [Hp%elem_of_limit|Hp%Hin]%elem_of_app; [done|by destruct Hp].
Qed.

Lemma finalize_objects_step g v s r maximum :
  store_wf g → sessions g !! v = Some s → s_phase s = 2%Z → volumes g !! v = Some r →
  (0 < maximum)%Z → (v_generation r < i64_max)%Z →
  let scan := s_scan_generation s in
  ∃ sum g', finalize_observation_scan v maximum g = Ok (sum, g') ∧ links g' = links g ∧
    if of_completed sum then
      sessions g' !! v = None ∧ stale_objects g' v scan = []
      ∧ (∃ p f o, s_final_provider_id s = Some p ∧ s_final_format_version s = Some f
          ∧ s_final_checkpoint s = Some o ∧ checkpoint g' v = Some (MkProviderCheckpoint p f v o))
      ∧ volume_state g' v = Ok (Some VOnline)
    else sessions g' !! v = Some s
      ∧ volumes g' !! v = Some (set_generation (v_generation r + 1) r)
      ∧ dom (objects g') = dom (objects g)
      ∧ length (stale_objects g' v scan) < length (stale_objects g v scan).
Proof.
  intros Hwf Hs Hph Hr Hmax Hgen scan. set (page := limit maximum (stale_objects g v scan)).
  pose proof (gw_volume_row _ (proj1 Hwf) _ _ Hr) as [_ Hrange].
  destruct (gw_session _ (proj1 Hwf) _ _ Hs) as [_ (_ & _ & [[H0 _]|(_ & [p Hp] & [f Hf] & [o Ho])])]; [lia|].
  pose proof (stale_objects_after_page g v scan maximum) as Hprog. cbv zeta in Hprog. fold page in Hprog.
  destruct (tombstone_page_frame page.*1 g) as (Hl1 & Hv1 & Hs1 & Hd1).
  set (g1 := tombstone_page page.*1 g) in *.
  unfold finalize_observation_scan. rewrite decide_False by lia. unfold mbind, M_bind, get_state.
  rewrite Hs. cbn [ok_or lift]. unfold guard_m, lift. rewrite bool_decide_eq_true_2 by lia. cbn [ensure].
  unfold gets, generation_row. rewrite Hr. unfold i64_checked_add.
  rewrite decide_True by (unfold in_i64, i64_min in *; lia). cbn [ok_or].
  rewrite decide_False by lia. unfold sweep_stale_observation_objects, mbind, M_bind, get_state.
  fold scan. fold page.
  change (for_each page _ g) with (for_each page (λ r0, update_tombstoned r0.1 true ;; mret tt) g).
  rewrite tombstone_loop. fold g1. unfold mret at 1, M_ret at 1. cbn [fst snd].
  destruct (bool_decide_reflect (Z.of_nat (length page) < maximum)%Z) as [Hshort|Hfull].
  - unfold activate_observation_checkpoint, mbind, M_bind. rewrite Hp, Hf, Ho. unfold lift. cbn [ok_or].
    unfold put_checkpoint, check_fk, mbind, M_bind, gets, volume_exists. rewrite Hv1, Hr.
    rewrite bool_decide_eq_true_2 by eauto. cbn [ensure]. unfold modify.
    unfold update_volume. cbn [volumes set_checkpoints]. rewrite Hv1, Hr.
    unfold enqueue_volume_projection_refresh, check_fk, mbind, M_bind, gets, volume_exists.
    cbn [volumes set_volumes]. rewrite lookup_insert_eq, bool_decide_eq_true_2 by eauto.
    cbn [ensure of_completed]. unfold modify, mret, M_ret. cbn [of_completed].
    do 2 eexists. split; [reflexivity|]. split; [exact Hl1|]. cbn [of_completed]. simpl.
    split; [by rewrite lookup_delete_eq|]. split.
    + change (stale_objects _ v scan) with (stale_objects g1 v scan).
      apply length_zero_iff_nil. unfold page in Hprog. rewrite limit_short in Hprog by exact Hshort.
      lia.
    + split; [exists p, f, o; unfold checkpoint; simpl; by rewrite lookup_insert_eq|].
      unfold volume_state. simpl. by rewrite lookup_insert_eq.
  - unfold mret, M_ret. cbn [of_completed].
    rewrite (update_generation_total v _ _ r) by (simpl; by rewrite Hv1).
    do 2 eexists. split; [reflexivity|]. split; [exact Hl1|]. cbn [of_completed]. simpl.
    split; [by rewrite Hs1|]. split; [by rewrite lookup_insert_eq|]. split; [exact Hd1|].
    change (stale_objects (set_volumes _ g1) v scan) with (stale_objects g1 v scan).
    destruct (limit_last _ _ Hmax Hfull) as (c & _ & Hc). fold page in Hc.
    assert (0 < length page); [|lia].
    clear -Hc. destruct page; [by apply elem_of_nil in Hc|]. simpl. lia.
Qed.

(** ** Completion *)

Fixpoint finalize_until_complete (fuel : nat) v (maximum : Z) : GM bool :=
  match fuel with
  | O => mret false
  | S fuel =>
      sum ← finalize_observation_scan v maximum;
      if of_completed sum then mret true else finalize_until_complete fuel v maximum
  end.

(** The state a completed finalization leaves. *)
Definition observation_complete g v (s : session_row) : Prop :=
  sessions g !! v = None
  ∧ (∃ p f o, s_final_provider_id s = Some p ∧ s_final_format_version s = Some f
      ∧ s_final_checkpoint s = Some o ∧ checkpoint g v = Some (MkProviderCheckpoint p f v o))
  ∧ volume_state g v = Ok (Some VOnline)
  ∧ ∀ k o, objects g !! k = Some o → ¬ stale_object g v (s_scan_generation s) k o.

Lemma finalize_objects_drain `{!StoreLaws E} fuel g v s r maximum :
  store_wf g → sessions g !! v = Some s → s_phase s = 2%Z → volumes g !! v = Some r →
  (0 < maximum)%Z → (v_generation r + Z.of_nat fuel ≤ i64_max)%Z →
  length (stale_objects g v (s_scan_generation s)) < fuel →
  ∃ g', finalize_until_complete fuel v maximum g = Ok (true, g') ∧ links g' = links g
    ∧ observation_complete g' v s.
Proof.
  revert g r. induction fuel as [|fuel IH]; intros g r Hwf Hs Hph Hr Hmax Hgen Hfuel; [lia|].
  destruct (finalize_objects_step g v s r maximum Hwf Hs Hph Hr Hmax) as (sum & g1 & Hrun & Hl & Hres); [lia|].
  simpl. unfold mbind, M_bind. rewrite Hrun. destruct (of_completed sum).
  - destruct Hres as (Hs1 & Hst & Hcp & Hv). exists g1. split; [done|]. split; [done|].
    split; [done|]. split; [done|]. split; [done|]. by apply stale_objects_none.
  - destruct Hres as (Hs1 & Hr1 & _ & Hlt).
    destruct (IH g1 (set_generation (v_generation r + 1) r)) as (g2 & Hrun2 & Hl2 & Hc2);
      [by eapply finalize_observation_scan_wf|done|done|done|done|simpl; lia|lia|].
    exists g2. split; [done|]. split; [congruence|done].
Qed.

Lemma stale_objects_bound g v scan : length (stale_objects g v scan) ≤ size (objects g).
Proof.
  unfold stale_objects, rows. rewrite merge_sort_Permutation.
  etransitivity; [apply length_filter|]. by rewrite length_map_to_list.
Qed.

Lemma finalize_links_drain `{!StoreLaws E} fuel g v s r maximum :
  store_wf g → sessions g !! v = Some s → s_phase s = 1%Z → volumes g !! v = Some r →
  (0 < maximum)%Z → (v_generation r + Z.of_nat fuel ≤ i64_max)%Z →
  let scan := s_scan_generation s in
  (high_water g + Z.of_nat (length (stale_links g v scan)) ≤ i64_max)%Z →
  length (stale_links g v scan) + size (objects g) + 1 < fuel →
  ∃ g', finalize_until_complete fuel v maximum g = Ok (true, g')
    ∧ keeps_observed v scan g g' ∧ links g' ⊆ links g
    ∧ (∀ id l, links g' !! id = Some l → ¬ stale_link v scan l)
    ∧ observation_complete g' v s.
Proof.
  intros Hwf0 Hs0 Hph0 Hr0 Hmax Hgen0 scan. revert g r Hwf0 Hs0 Hph0 Hr0 Hgen0.
  induction fuel as [|fuel IH]; intros g r Hwf Hs Hph Hr Hgen Hh Hfuel; [lia|].
  destruct (finalize_links_step g v s r maximum Hwf Hs Hph Hr Hmax)
    as (sum & g1 & Hrun & Hnc & Hkeep & Hsub & Hdom & Hr1 & Hh1 & Hnext); [lia|exact Hh|].
  assert (store_wf g1) as Hwf1 by (by eapply finalize_observation_scan_wf).
  assert (size (objects g1) = size (objects g)) as Hsize by (by rewrite <-!size_dom, Hdom).
  simpl. unfold mbind, M_bind. rewrite Hrun, Hnc. destruct Hnext as [[Hs1 Hnone]|[Hs1 Hlt]].
  - pose proof (stale_objects_bound g1 v scan) as Hb.
    destruct (finalize_objects_drain fuel g1 v (set_phase 2 s) (set_generation (v_generation r + 1) r) maximum)
      as (g2 & Hrun2 & Hl2 & Hc2); [done|done|done|done|done|simpl; lia|simpl; fold scan; lia|].
    exists g2. split; [done|]. split; [|split; [|split]].
    + intros id l Hl Hn. rewrite Hl2. by apply Hkeep.
    + by rewrite Hl2.
    + rewrite Hl2. by apply stale_links_none.
    + exact Hc2.
  - destruct (IH g1 (set_generation (v_generation r + 1) r)) as (g2 & Hrun2 & Hk2 & Hsub2 & Hst2 & Hc2);
      [done|done|done|done|simpl; lia|exact Hh1|fold scan in Hlt; lia|].
    exists g2. split; [done|]. split; [|split; [by etransitivity|done]].
    intros id l Hl Hn. apply Hk2; [by apply Hkeep|done].
Qed.

Lemma stale_links_bound g v scan : length (stale_links g v scan) ≤ size (links g).
Proof.
  unfold stale_links, rows. rewrite merge_sort_Permutation.
  etransitivity; [apply length_filter|]. by rewrite length_map_to_list.
Qed.

(** Finalization completes: once a session's final checkpoint is staged, a number of bounded
    finalization calls that only depends on the size of the graph completes it without an error.
    Then the session is gone, the staged checkpoint is the volume's checkpoint and the volume is
    online; every link the scan saw is still there and no link is new; no link of the volume and no
    unlinked live object older than the scan remains. *)
Theorem observation_finalize_completes `{!StoreLaws E} (g : db) (v : volume_id) (s : session_row)
  (r : volume_row) (maximum : Z) :
  let fuel := size (links g) + size (objects g) + 2 in
  let scan := s_scan_generation s in
  store_wf g → sessions g !! v = Some s → s_phase s = 1%Z → volumes g !! v = Some r →
  (0 < maximum)%Z → (v_generation r + Z.of_nat fuel ≤ i64_max)%Z →
  (high_water g + Z.of_nat (size (links g)) ≤ i64_max)%Z →
  ∃ g', finalize_until_complete fuel v maximum g = Ok (true, g')
    ∧ observation_complete g' v s
    ∧ (∀ id l, links g !! id = Some l → ¬ stale_link v scan l → links g' !! id = Some l)
    ∧ (∀ id l, links g' !! id = Some l → links g !! id = Some l ∧ ¬ stale_link v scan l).
Proof.
  intros fuel scan Hwf Hs Hph Hr Hmax Hgen Hh. pose proof (stale_links_bound g v scan) as Hb.
  destruct (finalize_links_drain fuel g v s r maximum) as (g' & Hrun & Hk & Hsub & Hst & Hc);
    [done|done|done|done|done|done|fold scan; lia|fold scan; unfold fuel; lia|].
  exists g'. split; [done|]. split; [done|]. split; [done|]. intros id l Hl. split; [|by eapply Hst].
  by eapply lookup_weaken.
Qed.
End observe.

(** A reconciliation of the sample volume that sees the directory but no longer the file. *)
Definition rescanned : db :=
  run_ops [OpBeginObservationScan descriptor ScanReconcile EventOverflow;
           OpApplyObservationScanPage vol [observe_dir 1; observe_link 10 1 None "docs"];
           OpStageObservationCheckpoint vol (checkpoint_at 9)] sample_db.

Lemma rescanned_wf : store_wf rescanned.
Proof.
  eapply store_steps_wf; [apply sample_db_wf|]. apply run_ops_steps.
  repeat constructor; simpl; unfold in_u64, u64_max; lia.
Qed.

Lemma observation_finalize_completes_witness :
  ∃ g', finalize_until_complete 6 vol 1 rescanned = Ok (true, g')
    ∧ is_Some (links g' !! 10%N) ∧ links g' !! 20%N = None
    ∧ checkpoint g' vol = Some (checkpoint_at 9).
Proof.
  destruct (observation_finalize_completes rescanned vol
    (SessionRow 2 1 1 (Some "provider") (Some 1%Z) (Some [9%N]))
    (@VolumeRow fixture_env (Some "disk") (TMounts ["C:"]) (Some "ntfs") false true 2 (Some 1%Z) 3) 1)
    as (g' & Hrun & (_ & (p & f & o & [= <-] & [= <-] & [= <-] & Hcp) & _) & Hkeep & Hst).
  - apply rescanned_wf.
  - vm_compute. reflexivity.
  - reflexivity.
  - vm_compute. reflexivity.
  - lia.
  - vm_compute. discriminate.
  - vm_compute. discriminate.
  - exists g'. split; [exact Hrun|]. split; [|split; [|exact Hcp]].
    + exists (LinkRow (key 1) None "docs" false 3). apply Hkeep; [vm_compute; reflexivity|].
      intros [_ Hlt]. vm_compute in Hlt. discriminate Hlt.
    + destruct (links g' !! 20%N) as [l|] eqn:Hl; [|reflexivity]. exfalso.
      destruct (Hst _ _ Hl) as [Hold Hn]. vm_compute in Hold. injection Hold as <-. apply Hn.
      split; vm_compute; reflexivity.
Defined.
