(* ===== verification/GraphLimits.v ===== *)
(** Two histories after which no maintenance is pending and yet a desired row is out of date.

    Both are evaluated in the model: a directory renamed again while the scan of its first rename is
    under way, and a volume that comes back online through a volume upsert. *)
From stdpp Require Import base strings numbers gmap list.
From S2P Require Import Prelude Models GraphDomain GraphTables Fixtures GraphPath GraphMutate.
From S2P Require Import GraphProjection GraphStore GraphOutbox GraphRefresh GraphInvariant.
From S2P Require Import GraphPreserve GraphReach GraphSync.

Definition rename_dir (n : N) (name : string) : op :=
  OpApplyBatch (from_events vol (checkpoint_at n) [observe_link 30 1 None name]).

(** Two files below a directory; the directory is renamed, the first page of the path scan runs, the
    directory is renamed again, and the scan runs to completion. *)
Definition renamed_during_scan : db :=
  run_ops [OpIngestSnapshot descriptor (checkpoint_at 1)
             [observe_dir 1; observe_link 30 1 None "first";
              observe_file 2 1; observe_link 10 2 (Some 1%N) "a";
              observe_file 3 1; observe_link 20 3 (Some 1%N) "b"];
           rename_dir 2 "second"; OpRefreshProjectionPaths 1;
           rename_dir 3 "third"; OpRefreshProjectionPaths 1; OpRefreshProjectionPaths 1;
           OpRefreshProjectionPaths 1] empty_db.

(** A rename during the scan is lost: the second rename does not restart the pending scan, so
    the file scanned before it keeps the path of the first rename although the graph resolves it to
    the path of the second, and nothing is left in the queue that would repair it. *)
Theorem rename_during_scan_leaves_stale_path :
  projection_refresh_maintenance_pending renamed_during_scan = false
  ∧ resolve_path renamed_during_scan 10%N PATH_DEPTH = Ok (MkResolvedPath ["third"; "a"])
  ∧ d_path <$> documents renamed_during_scan !! 10%N = Some (Some "second/a")
  ∧ d_path <$> documents renamed_during_scan !! 20%N = Some (Some "third/b").
Proof. vm_compute. repeat split. Qed.

(** The sample volume goes offline, its documents are refreshed, and a later batch upserts the
    volume again. *)
Definition upserted_online : db :=
  run_ops [OpApplyBatch (MkGraphMutationBatch vol (checkpoint_at 2) [SetVolumeState vol VOffline]);
           OpRefreshVolumeProjection 10;
           OpApplyBatch (MkGraphMutationBatch vol (checkpoint_at 3) [UpsertVolume descriptor])]
          sample_db.

(** The availability the last outbox mutation carries. *)
Definition published_availability (g : db) (sequence : Z) : option Availability :=
  r ← outbox g !! sequence;
  m ← mutation_from_json (x_mutation_json r);
  match m with Upsert d => Some (m_availability (cd_metadata d)) | Delete _ _ => None end.

(** A volume upsert does not refresh documents: upserting a volume makes it online without
    queueing a volume refresh, so the last published documents still say offline while the graph
    says online, and no maintenance is pending. *)
Theorem volume_upsert_leaves_documents_offline :
  projection_refresh_maintenance_pending upserted_online = false
  ∧ volume_state upserted_online vol = Ok (Some VOnline)
  ∧ latest_outbox_sequence upserted_online = Ok 4%Z
  ∧ published_availability upserted_online 3 = Some AOffline
  ∧ published_availability upserted_online 4 = Some AOffline.
Proof. vm_compute. repeat split. Qed.
