(* ===== verification/Frames.v ===== *)
(** Wire contracts: the length-prefixed JSON frames of the agent ([crates/agent-api/src/codec.rs])
    and of the broker ([crates/broker-api/src/lib.rs]), and the validation of their requests.

    Bytes are N below 256; the JSON codec of a type is a parameter with its round trip. *)
From Stdlib Require Import String.
From stdpp Require Import base strings numbers gmap list.
From S2P Require Import Prelude Ids Models.

(** ** Little-endian integers *)

Definition bytes_ok (l : list N) : Prop := Forall (λ b, (b < 256)%N) l.

Definition to_le_bytes (n : nat) (v : N) : list N := reverse (to_be_bytes n v).
Definition from_le_bytes (l : list N) : N := from_be_bytes (reverse l).

Lemma to_le_bytes_length n v : length (to_le_bytes n v) = n.
Proof. unfold to_le_bytes. by rewrite length_reverse, to_be_bytes_length. Qed.

Lemma from_to_le_bytes n v : (v < 256 ^ N.of_nat n)%N → from_le_bytes (to_le_bytes n v) = v.
Proof.
  intros Hv. unfold from_le_bytes, to_le_bytes. rewrite reverse_involutive, from_to_be_bytes.
  by apply N.mod_small.
Qed.

Lemma to_from_le_bytes l : bytes_ok l → to_le_bytes (length l) (from_le_bytes l) = l.
Proof.
  intros Hl. unfold from_le_bytes, to_le_bytes. rewrite <-(length_reverse l), to_from_be_bytes.
  - apply reverse_involutive.
  - by apply Forall_reverse.
Qed.

Inductive WireContractError :=
| FrameTooLarge | IncompleteFrame | InvalidJson
| UnsupportedProtocolVersion | UnsupportedCodecVersion
| InvalidWireRequest (reason : string) | InvalidResponse.

(** ** Frames *)

(** Both crates use the same bound, one MiB. *)
Definition MAX_FRAME_BYTES : N := 1048576.

Section frames.
Context {A : Type} (to_json : A → list N) (from_json : list N → option A).

Definition encode_frame (value : A) : result WireContractError (list N) :=
  let payload := to_json value in
  let len := N.of_nat (length payload) in
  if (MAX_FRAME_BYTES <? len)%N then Err FrameTooLarge
  else if (2 ^ 32 <=? len)%N then Err FrameTooLarge
  else Ok (to_le_bytes 4 len ++ payload).

Definition decode_frame (frame : list N) : result WireContractError A :=
  if length frame <? 4 then Err IncompleteFrame
  else
    let declared := from_le_bytes (take 4 frame) in
    if (MAX_FRAME_BYTES <? declared)%N then Err FrameTooLarge
    else
      let payload := drop 4 frame in
      if (N.of_nat (length payload) =? declared)%N then ok_or (from_json payload) InvalidJson
      else Err IncompleteFrame.

Lemma decode_prefixed payload :
  (N.of_nat (length payload) ≤ MAX_FRAME_BYTES)%N →
  decode_frame (to_le_bytes 4 (N.of_nat (length payload)) ++ payload) = ok_or (from_json payload) InvalidJson.
Proof.
  intros Hlen. unfold decode_frame. pose proof (to_le_bytes_length 4 (N.of_nat (length payload))) as H4.
  rewrite (proj2 (Nat.ltb_ge _ _)) by (rewrite length_app; lia).
  rewrite (take_app_length' _ _ 4), (drop_app_length' _ _ 4) by done.
  rewrite from_to_le_bytes by (unfold MAX_FRAME_BYTES in Hlen; simpl; lia).
  rewrite (proj2 (N.ltb_ge _ _)) by done. by rewrite N.eqb_refl.
Qed.

Lemma decode_wrong_length len payload :
  (len ≤ MAX_FRAME_BYTES)%N → N.of_nat (length payload) ≠ len →
  decode_frame (to_le_bytes 4 len ++ payload) = Err IncompleteFrame.
Proof.
  intros Hlen Hne. unfold decode_frame. pose proof (to_le_bytes_length 4 len) as H4.
  rewrite (proj2 (Nat.ltb_ge _ _)) by (rewrite length_app; lia).
  rewrite (take_app_length' _ _ 4), (drop_app_length' _ _ 4) by done.
  rewrite from_to_le_bytes by (unfold MAX_FRAME_BYTES in Hlen; simpl; lia).
  rewrite (proj2 (N.ltb_ge _ _)) by done. by rewrite (proj2 (N.eqb_neq _ _)).
Qed.

Lemma decode_truncated payload n :
  (N.of_nat (length payload) ≤ MAX_FRAME_BYTES)%N → n < 4 + length payload →
  decode_frame (take n (to_le_bytes 4 (N.of_nat (length payload)) ++ payload)) = Err IncompleteFrame.
Proof.
  intros Hlen Hn. set (pre := to_le_bytes 4 _).
  assert (length pre = 4) as H4 by apply to_le_bytes_length. destruct (decide (n < 4)).
  - unfold decode_frame. rewrite (proj2 (Nat.ltb_lt _ _)); [done|]. rewrite length_take. lia.
  - rewrite take_app_ge by lia. apply decode_wrong_length; [done|]. rewrite length_take. lia.
Qed.

(** Frames round trip: a value is encoded exactly when its JSON text has at most one MiB;
    the frame is four bytes longer and decodes to the same value, and no frame with bytes missing
    or added to it is accepted as complete. *)
Theorem frame_roundtrip (v : A) (frame extra : list N) :
  (∀ x, from_json (to_json x) = Some x) →
  (encode_frame v = Ok frame ↔
     (N.of_nat (length (to_json v)) ≤ MAX_FRAME_BYTES)%N ∧ frame = to_le_bytes 4 (N.of_nat (length (to_json v))) ++ to_json v)
  ∧ (encode_frame v = Ok frame →
      decode_frame frame = Ok v
      ∧ (extra ≠ [] → decode_frame (frame ++ extra) = Err IncompleteFrame)
      ∧ ∀ n, n < length frame → decode_frame (take n frame) = Err IncompleteFrame).
Proof.
  intros Hrt.
  assert (encode_frame v = Ok frame ↔ (N.of_nat (length (to_json v)) ≤ MAX_FRAME_BYTES)%N
    ∧ frame = to_le_bytes 4 (N.of_nat (length (to_json v))) ++ to_json v) as Henc.
  { unfold encode_frame. destruct (N.ltb_spec MAX_FRAME_BYTES (N.of_nat (length (to_json v))));
      [split; [done|lia]|]. destruct (N.leb_spec (2 ^ 32) (N.of_nat (length (to_json v))));
      [unfold MAX_FRAME_BYTES in *; lia|]. naive_solver. }
  split; [done|]. intros [Hlen ->]%Henc. split_and!.
  - rewrite decode_prefixed by done. by rewrite Hrt.
  - intros Hne. rewrite <-app_assoc. apply decode_wrong_length; [done|]. rewrite length_app.
    destruct extra; simpl; [done|lia].
  - intros n Hn. apply decode_truncated; [done|]. by rewrite length_app, to_le_bytes_length in Hn.
Qed.
End frames.

(** A codec for texts that are their own JSON. *)
Lemma frame_roundtrip_witness :
  encode_frame (λ t : list N, t) [104; 105]%N = Ok [2; 0; 0; 0; 104; 105]%N
  ∧ decode_frame Some [2; 0; 0; 0; 104; 105]%N = Ok [104; 105]%N.
Proof.
  assert (encode_frame (λ t : list N, t) [104; 105]%N = Ok [2; 0; 0; 0; 104; 105]%N) as Henc
    by (vm_compute; reflexivity).
  split; [exact Henc|].
  destruct (frame_roundtrip (λ t : list N, t) Some [104; 105]%N [2; 0; 0; 0; 104; 105]%N []) as [_ Hrt];
    [done|]. apply (Hrt Henc).
Defined.

(** ** Agent requests ([crates/agent-api/src/contract.rs]) *)

Definition AGENT_API_VERSION : Z := 2.
Definition AGENT_CODEC_VERSION : Z := 1.
Definition MAX_REQUEST_ID_BYTES : nat := 64.
Definition MAX_QUERY_BYTES : nat := 1024.
Definition MAX_LOOKUP_ITEMS : nat := 100.
Definition MAX_TOP_K : Z := 100.
Definition DEFAULT_DEADLINE_MS : Z := 2000.
Definition MAX_DEADLINE_MS : Z := 10000.

Inductive AgentErrorCode :=
| CodeInvalidRequest | CodeUnsupportedProtocolVersion | CodeUnsupportedCodecVersion
| CodeUnsupportedCapability | CodeUnauthorized | CodeForbidden | CodeQueryPolicyRejected
| CodeDeadlineExceeded | CodeCancelled | CodeNotFound | CodeUnavailable | CodeIndexNotReady
| CodeResourceExhausted | CodeInternal.
Record AgentWireError := MkAgentWireError { ae_code : AgentErrorCode; ae_message : string }.

Inductive RequestOperation :=
| CatalogSearch (request : SearchRequest)
| ContentSearch (query : string) (top_k : Z)
| CatalogGetItem (id : document_id)
| CatalogGetItems (ids : list document_id)
| IndexGetStatus
| AgentGetCapabilities
| AgentGetHealth.

Record AgentRequest := MkAgentRequest {
  ar_protocol_version : Z;
  ar_codec_version : Z;
  ar_request_id : string;
  ar_deadline_ms : Z;                  (* u32 *)
  ar_operation : RequestOperation }.

Definition query_rejected (query : string) : bool :=
  (String.length query =? 0) || (MAX_QUERY_BYTES <? String.length query).
Definition top_k_rejected (top_k : Z) : bool := ((top_k =? 0) || (MAX_TOP_K <? top_k))%Z.

Definition operation_validate (o : RequestOperation) : result WireContractError unit :=
  match o with
  | CatalogSearch request =>
      ensure (negb (query_rejected (sq_query request))) (InvalidWireRequest "query must be non-empty and bounded") ;;
      ensure (negb (top_k_rejected (sq_top_k request)))
        (InvalidWireRequest "top_k must be within the v0.1 policy bound") ;;
      ensure (negb (32 <? length (sf_extensions (sq_filters request)))) (InvalidWireRequest "too many extension filters")
  | ContentSearch query top_k =>
      ensure (negb (query_rejected query))
        (InvalidWireRequest "content query must be non-empty and bounded") ;;
      ensure (negb (top_k_rejected top_k))
        (InvalidWireRequest "content top_k must be within the policy bound")
  | CatalogGetItems ids =>
      ensure (negb ((length ids =? 0) || (MAX_LOOKUP_ITEMS <? length ids)))
        (InvalidWireRequest "document lookup collection must be non-empty and bounded") ;;
      ensure (size (list_to_set (C := gset N) ids) =? length ids)
        (InvalidWireRequest "document lookup IDs must be unique")
  | CatalogGetItem _ | IndexGetStatus | AgentGetCapabilities | AgentGetHealth => Ok tt
  end.

Definition AgentRequest_validate (r : AgentRequest) : result WireContractError unit :=
  ensure (ar_protocol_version r =? AGENT_API_VERSION)%Z UnsupportedProtocolVersion ;;
  ensure (ar_codec_version r =? AGENT_CODEC_VERSION)%Z UnsupportedCodecVersion ;;
  ensure (negb ((String.length (ar_request_id r) =? 0)
                || (MAX_REQUEST_ID_BYTES <? String.length (ar_request_id r))))
    (InvalidWireRequest "request_id must be non-empty and bounded") ;;
  ensure (negb (MAX_DEADLINE_MS <? ar_deadline_ms r)%Z)
    (InvalidWireRequest "deadline exceeds the v0.1 policy maximum") ;;
  operation_validate (ar_operation r).

Definition effective_deadline_ms (r : AgentRequest) : Z :=
  if (ar_deadline_ms r =? 0)%Z then DEFAULT_DEADLINE_MS else Z.min (ar_deadline_ms r) MAX_DEADLINE_MS.

(** What a valid operation satisfies. *)
Definition operation_bounded (o : RequestOperation) : Prop :=
  match o with
  | CatalogSearch request =>
      0 < String.length (sq_query request) ≤ MAX_QUERY_BYTES ∧ (0 < sq_top_k request ≤ MAX_TOP_K)%Z
      ∧ length (sf_extensions (sq_filters request)) ≤ 32
  | ContentSearch query top_k =>
      0 < String.length query ≤ MAX_QUERY_BYTES ∧ (0 < top_k ≤ MAX_TOP_K)%Z
  | CatalogGetItems ids => NoDup ids ∧ 0 < length ids ≤ MAX_LOOKUP_ITEMS
  | _ => True
  end.

(** The numeric arguments are unsigned. *)
Definition operation_typed (o : RequestOperation) : Prop :=
  match o with
  | CatalogSearch request => (0 ≤ sq_top_k request)%Z
  | ContentSearch _ top_k => (0 ≤ top_k)%Z
  | _ => True
  end.

Lemma ensure_Ok {X} b (e : X) u : ensure b e = Ok u ↔ b = true ∧ u = tt.
Proof. destruct b, u; simpl; naive_solver. Qed.

Lemma ensure_bind {X A} b (e : X) (r : result X A) a :
  (ensure b e ;; r) = Ok a ↔ b = true ∧ r = Ok a.
Proof. destruct b; simpl; naive_solver. Qed.

Lemma size_list_to_set_eq (ids : list N) :
  size (list_to_set (C := gset N) ids) = length ids ↔ NoDup ids.
Proof.
  split; [|apply size_list_to_set]. induction ids as [|x ids IH]; simpl; intros Hs; [constructor|].
  assert (size (list_to_set (C := gset N) ids) ≤ length ids) as Hle.
  { clear. induction ids as [|y ids IH]; simpl; [done|].
    pose proof (size_union_alt ({[y]} : gset N) (list_to_set ids)) as Hu. rewrite size_singleton in Hu.
    assert (list_to_set ids ∖ {[y]} ⊆@{gset N} list_to_set ids) as Hsub%subseteq_size by set_solver.
    lia. }
  destruct (decide (x ∈ ids)) as [Hin|Hout].
  - assert ({[x]} ∪ list_to_set ids =@{gset N} list_to_set ids) as Heq by set_solver.
    rewrite Heq in Hs. lia.
  - rewrite size_union, size_singleton in Hs by set_solver. constructor; [done|]. apply IH. lia.
Qed.

(** A request validates exactly when both versions are the
    supported ones, the identifier has 1 to 64 bytes, the deadline is at most the policy maximum and
    its operation is within its bounds (1 to 1024 query bytes, 1 to 100 results, at most 32 extension
    filters, 1 to 100 distinct lookup identifiers); the effective deadline of a valid request is
    positive and at most the maximum. *)
Theorem agent_request_validate_iff (r : AgentRequest) :
  operation_typed (ar_operation r) → (0 ≤ ar_deadline_ms r)%Z →
  (AgentRequest_validate r = Ok tt ↔
     ar_protocol_version r = AGENT_API_VERSION ∧ ar_codec_version r = AGENT_CODEC_VERSION
     ∧ 0 < String.length (ar_request_id r) ≤ MAX_REQUEST_ID_BYTES
     ∧ (ar_deadline_ms r ≤ MAX_DEADLINE_MS)%Z ∧ operation_bounded (ar_operation r))
  ∧ (0 < effective_deadline_ms r ≤ MAX_DEADLINE_MS)%Z.
Proof.
  intros Hty Hd. split.
  - unfold AgentRequest_validate. rewrite !ensure_bind, !Z.eqb_eq, negb_true_iff, orb_false_iff,
      Nat.eqb_neq, Nat.ltb_ge, negb_true_iff, Z.ltb_ge.
    assert (operation_validate (ar_operation r) = Ok tt ↔ operation_bounded (ar_operation r)) as ->;
      [|naive_solver lia].
    destruct (ar_operation r) as [q|q k|?|ids| | |]; simpl in *; try done;
      unfold query_rejected, top_k_rejected, MAX_TOP_K in *;
      rewrite ?ensure_bind, ensure_Ok, ?negb_true_iff, ?orb_false_iff, ?Nat.eqb_neq, ?Nat.eqb_eq,
        ?Nat.ltb_ge, ?Z.eqb_neq, ?Z.ltb_ge, ?size_list_to_set_eq; naive_solver lia.
  - unfold effective_deadline_ms, DEFAULT_DEADLINE_MS, MAX_DEADLINE_MS.
    destruct (Z.eqb_spec (ar_deadline_ms r) 0); lia.
Qed.

Lemma agent_request_validate_iff_witness :
  AgentRequest_validate (MkAgentRequest 2 1 "r1" 0 (CatalogGetItems [1; 2]%N)) = Ok tt
  ∧ NoDup [1; 2]%N.
Proof.
  destruct (agent_request_validate_iff (MkAgentRequest 2 1 "r1" 0 (CatalogGetItems [1; 2]%N)))
    as [Hiff _]; [done|simpl; lia|].
  assert (AgentRequest_validate (MkAgentRequest 2 1 "r1" 0 (CatalogGetItems [1; 2]%N)) = Ok tt) as Hv
    by (vm_compute; reflexivity).
  split; [exact Hv|]. apply Hiff in Hv as (_ & _ & _ & _ & Hb & _). exact Hb.
Defined.

(** ** Broker requests ([crates/broker-api/src/lib.rs]) *)

Definition BROKER_PROTOCOL_VERSION : Z := 1.
Definition BROKER_CODEC_VERSION : Z := 1.
Definition MAX_BROKER_PAGE_EVENTS : Z := 256.
Definition MAX_BROKER_REQUEST_ID_BYTES : nat := 64.
Definition DEFAULT_BROKER_DEADLINE_MS : Z := 5000.
Definition MAX_BROKER_DEADLINE_MS : Z := 30000.

Inductive ScanMode := InitialScan | ReconcileScan.

Inductive BrokerOperation :=
| BrokerGetCapabilities
| DiscoverVolumes
| StartScan (v : volume_id) (mode : ScanMode)
| ReadScanPage (scan_id maximum_events : Z)
| CancelScan (scan_id : Z)
| ReadChanges (checkpoint : ProviderCheckpoint) (maximum_events : Z).

Record BrokerRequest := MkBrokerRequest {
  br_protocol_version : Z;
  br_codec_version : Z;
  br_request_id : string;
  br_deadline_ms : Z;                  (* u32 *)
  br_operation : BrokerOperation }.

Definition page_rejected (maximum_events : Z) : bool :=
  ((maximum_events =? 0) || (MAX_BROKER_PAGE_EVENTS <? maximum_events))%Z.

Definition checkpoint_rejected (c : ProviderCheckpoint) : bool :=
  (65536 <? Z.of_nat (length (pc_opaque c)))%Z || (64 <? String.length (pc_provider_id c))
  || (String.length (pc_provider_id c) =? 0).

Definition BrokerOperation_validate (o : BrokerOperation) : result WireContractError unit :=
  match o with
  | ReadScanPage _ maximum_events =>
      ensure (negb (page_rejected maximum_events)) (InvalidWireRequest "event page exceeds policy")
  | ReadChanges checkpoint maximum_events =>
      ensure (negb (page_rejected maximum_events)) (InvalidWireRequest "event page exceeds policy") ;;
      ensure (negb (checkpoint_rejected checkpoint))
        (InvalidWireRequest "provider checkpoint exceeds policy")
  | _ => Ok tt
  end.

Definition BrokerRequest_validate (r : BrokerRequest) : result WireContractError unit :=
  ensure (br_protocol_version r =? BROKER_PROTOCOL_VERSION)%Z UnsupportedProtocolVersion ;;
  ensure (br_codec_version r =? BROKER_CODEC_VERSION)%Z UnsupportedCodecVersion ;;
  ensure (negb ((String.length (br_request_id r) =? 0)
                || (MAX_BROKER_REQUEST_ID_BYTES <? String.length (br_request_id r))))
    (InvalidWireRequest "request_id is not bounded") ;;
  ensure (negb (MAX_BROKER_DEADLINE_MS <? br_deadline_ms r)%Z)
    (InvalidWireRequest "deadline exceeds policy") ;;
  BrokerOperation_validate (br_operation r).

Definition broker_effective_deadline_ms (r : BrokerRequest) : Z :=
  if (br_deadline_ms r =? 0)%Z then DEFAULT_BROKER_DEADLINE_MS
  else Z.min (br_deadline_ms r) MAX_BROKER_DEADLINE_MS.

Definition broker_operation_bounded (o : BrokerOperation) : Prop :=
  match o with
  | ReadScanPage _ n => (0 < n ≤ MAX_BROKER_PAGE_EVENTS)%Z
  | ReadChanges c n =>
      (0 < n ≤ MAX_BROKER_PAGE_EVENTS)%Z ∧ (Z.of_nat (length (pc_opaque c)) ≤ 65536)%Z
      ∧ 0 < String.length (pc_provider_id c) ≤ 64
  | _ => True
  end.

Definition broker_operation_typed (o : BrokerOperation) : Prop :=
  match o with ReadScanPage _ n | ReadChanges _ n => (0 ≤ n)%Z | _ => True end.

(** Broker requests are bounded: a request to the privileged broker validates exactly when
    both versions are the supported ones, the identifier has 1 to 64 bytes, the deadline is at most
    the policy maximum, a page asks for 1 to 256 events and a checkpoint names a provider of 1 to 64
    bytes with at most 65,536 opaque bytes; the effective deadline is positive and at most the
    maximum. *)
Theorem broker_request_validate_iff (r : BrokerRequest) :
  broker_operation_typed (br_operation r) → (0 ≤ br_deadline_ms r)%Z →
  (BrokerRequest_validate r = Ok tt ↔
     br_protocol_version r = BROKER_PROTOCOL_VERSION ∧ br_codec_version r = BROKER_CODEC_VERSION
     ∧ 0 < String.length (br_request_id r) ≤ MAX_BROKER_REQUEST_ID_BYTES
     ∧ (br_deadline_ms r ≤ MAX_BROKER_DEADLINE_MS)%Z ∧ broker_operation_bounded (br_operation r))
  ∧ (0 < broker_effective_deadline_ms r ≤ MAX_BROKER_DEADLINE_MS)%Z.
Proof.
  intros Hty Hd. split.
  - unfold BrokerRequest_validate. rewrite !ensure_bind, !Z.eqb_eq, negb_true_iff, orb_false_iff,
      Nat.eqb_neq, Nat.ltb_ge, negb_true_iff, Z.ltb_ge.
    assert (BrokerOperation_validate (br_operation r) = Ok tt ↔ broker_operation_bounded (br_operation r))
      as ->; [|naive_solver lia].
    destruct (br_operation r) as [| | |s n| |c n]; simpl in *; try done;
      unfold page_rejected, checkpoint_rejected, MAX_BROKER_PAGE_EVENTS in *;
      rewrite ?ensure_bind, ensure_Ok, ?negb_true_iff, ?orb_false_iff, ?Nat.eqb_neq, ?Nat.ltb_ge,
        ?Z.eqb_neq, ?Z.ltb_ge; naive_solver lia.
  - unfold broker_effective_deadline_ms, DEFAULT_BROKER_DEADLINE_MS, MAX_BROKER_DEADLINE_MS.
    destruct (Z.eqb_spec (br_deadline_ms r) 0); lia.
Qed.

Lemma broker_request_validate_iff_witness :
  BrokerRequest_validate (MkBrokerRequest 1 1 "r1" 0 (ReadScanPage 7 256)) = Ok tt
  ∧ broker_operation_bounded (ReadScanPage 7 256).
Proof.
  destruct (broker_request_validate_iff (MkBrokerRequest 1 1 "r1" 0 (ReadScanPage 7 256)))
    as [Hiff _]; [simpl; lia|simpl; lia|].
  assert (BrokerRequest_validate (MkBrokerRequest 1 1 "r1" 0 (ReadScanPage 7 256)) = Ok tt) as Hv
    by (vm_compute; reflexivity).
  split; [exact Hv|]. by apply Hiff in Hv as (_ & _ & _ & _ & Hb).
Defined.

(** ** Broker responses *)

Record BrokerResponse {Payload WireError : Type} := MkBrokerResponse {
  bs_protocol_version : Z;
  bs_request_id : string;
  bs_result : option Payload;
  bs_error : option WireError }.
Arguments BrokerResponse : clear implicits.

Definition BrokerResponse_validate {P X} (r : BrokerResponse P X) : result WireContractError unit :=
  match bs_result r, bs_error r with
  | Some _, None | None, Some _ => Ok tt
  | _, _ => Err InvalidResponse
  end.
Definition broker_success {P X} (request_id : string) (payload : P) : BrokerResponse P X :=
  MkBrokerResponse _ _ BROKER_PROTOCOL_VERSION request_id (Some payload) None.
Definition broker_failure {P X} (request_id : string) (error : X) : BrokerResponse P X :=
  MkBrokerResponse _ _ BROKER_PROTOCOL_VERSION request_id None (Some error).
