(* ===== verification/Governor.v ===== *)
(** The resource governor ([crates/resource-governor/src/lib.rs]): a deterministic state machine
    that decides, from reports about the system, how much background work is admitted.

    The governor is a record, each report a function on it; [evaluate] keeps the order of the
    source's checks and early returns.  Counters saturate at their width. *)
From stdpp Require Import base numbers list.
From S2P Require Import Prelude Models.

(** * Data *)

Inductive GovernorMode := Active | Balanced | IdleBoost | Pressure | Battery.
Global Instance GovernorMode_eq_dec : EqDecision GovernorMode.
Proof. solve_decision. Defined.

Inductive MaintenanceIntensity := Paused | Minimal | Normal | Elevated.
Global Instance MaintenanceIntensity_eq_dec : EqDecision MaintenanceIntensity.
Proof. solve_decision. Defined.

Inductive PowerSource := PowerAc | PowerBattery | PowerUnknown.
Global Instance PowerSource_eq_dec : EqDecision PowerSource.
Proof. solve_decision. Defined.

Inductive DecisionReason :=
| RStartup | RUserActive | RSearchSla | RSystemPressure | RCriticalMemory
| RResourceTelemetryUnavailable | RBattery | REnergySaver | RBalanced | RIdleBacklog.

Record IndexingBudget := MkIndexingBudget {
  maximum_batch_mutations : Z;
  maximum_batches : Z;
  maximum_run_time_millis : Z;
  writer_heap_bytes : Z;
  rebuild_page_size : Z;
  projection_concurrency : Z;
  maintenance_intensity : MaintenanceIntensity;
  background_paused : bool }.

Inductive StorageClass := Hdd | Ssd | Nvme | Network | Removable | StorageUnknown.

Record StorageResources := MkStorageResources {
  sr_volume_id : volume_id;
  sr_class : StorageClass;
  sr_capacity_bytes : option Z;
  sr_available_bytes : option Z }.

Record SystemResources := MkSystemResources {
  logical_processors : Z;
  total_memory_bytes : option Z;
  available_memory_bytes : option Z;
  res_cpu_load_basis_points : option Z;
  process_cpu_load_basis_points : option Z;
  res_power_source : PowerSource;
  res_battery_percent : option Z;
  res_energy_saver : bool;
  storage_busy_basis_points : option Z;
  user_idle_duration_millis : option Z;
  storage : list StorageResources }.

Record SystemPressure := MkSystemPressure {
  available_memory_basis_points : option Z;
  system_cpu_load_basis_points : option Z;
  disk_busy_basis_points : option Z;
  power_source : PowerSource;
  battery_percent : option Z;
  energy_saver : bool }.

Definition SystemPressure_default : SystemPressure :=
  MkSystemPressure None None None PowerUnknown None false.

(** [impl From<&SystemResources> for SystemPressure]. *)
Definition memory_basis_points (total available : option Z) : option Z :=
  match total, available with
  | Some total, Some available =>
      if decide (total = 0%Z) then None
      else
        let basis_points := (Z.min available total * 10000 / total)%Z in
        if decide (0 ≤ basis_points ≤ u16_max)%Z then Some basis_points else None
  | _, _ => None
  end.

Definition SystemPressure_from_resources (r : SystemResources) : SystemPressure :=
  MkSystemPressure (memory_basis_points (total_memory_bytes r) (available_memory_bytes r))
    (res_cpu_load_basis_points r) (storage_busy_basis_points r) (res_power_source r)
    (res_battery_percent r) (res_energy_saver r).

Record WorkloadState := MkWorkloadState {
  user_active : bool;
  user_idle : bool;
  backlog_mutations : Z }.

Record GovernorConfig := MkGovernorConfig {
  search_sla_millis : Z;
  low_memory_basis_points : Z;
  critical_memory_basis_points : Z;
  high_cpu_basis_points : Z;
  high_disk_basis_points : Z;
  pressure_windows : Z;
  recovery_windows : Z;
  cooldown_windows : Z;
  interactive_hold_windows : Z;
  idle_boost_after_millis : Z }.

Definition GovernorConfig_default : GovernorConfig :=
  MkGovernorConfig 75 1000 500 9000 9000 2 5 3 3 (5 * 60 * 1000).

Record ResourceGovernor := MkResourceGovernor {
  config : GovernorConfig;
  mode : GovernorMode;
  reason : DecisionReason;
  pressure : SystemPressure;
  resource_available : bool;
  resource_recovery_required : bool;
  workload : WorkloadState;
  pressure_streak : Z;
  recovery_streak : Z;
  cooldown_remaining : Z;
  interactive_remaining : Z;
  transition_sequence : Z }.

Definition ResourceGovernor_new (c : GovernorConfig) : ResourceGovernor :=
  MkResourceGovernor c Balanced RStartup SystemPressure_default true false
    (MkWorkloadState false false 0) 0 0 0 0 0.

(** Field updates. *)
Definition with_mode (m : GovernorMode) (g : ResourceGovernor) :=
  MkResourceGovernor (config g) m (reason g) (pressure g) (resource_available g)
    (resource_recovery_required g) (workload g) (pressure_streak g) (recovery_streak g)
    (cooldown_remaining g) (interactive_remaining g) (transition_sequence g).
Definition with_reason (r : DecisionReason) (g : ResourceGovernor) :=
  MkResourceGovernor (config g) (mode g) r (pressure g) (resource_available g)
    (resource_recovery_required g) (workload g) (pressure_streak g) (recovery_streak g)
    (cooldown_remaining g) (interactive_remaining g) (transition_sequence g).
Definition with_pressure (p : SystemPressure) (available : bool) (g : ResourceGovernor) :=
  MkResourceGovernor (config g) (mode g) (reason g) p available
    (resource_recovery_required g) (workload g) (pressure_streak g) (recovery_streak g)
    (cooldown_remaining g) (interactive_remaining g) (transition_sequence g).
Definition with_recovery_required (b : bool) (g : ResourceGovernor) :=
  MkResourceGovernor (config g) (mode g) (reason g) (pressure g) (resource_available g)
    b (workload g) (pressure_streak g) (recovery_streak g)
    (cooldown_remaining g) (interactive_remaining g) (transition_sequence g).
Definition with_workload (w : WorkloadState) (g : ResourceGovernor) :=
  MkResourceGovernor (config g) (mode g) (reason g) (pressure g) (resource_available g)
    (resource_recovery_required g) w (pressure_streak g) (recovery_streak g)
    (cooldown_remaining g) (interactive_remaining g) (transition_sequence g).
Definition with_pressure_streak (n : Z) (g : ResourceGovernor) :=
  MkResourceGovernor (config g) (mode g) (reason g) (pressure g) (resource_available g)
    (resource_recovery_required g) (workload g) n (recovery_streak g)
    (cooldown_remaining g) (interactive_remaining g) (transition_sequence g).
Definition with_recovery_streak (n : Z) (g : ResourceGovernor) :=
  MkResourceGovernor (config g) (mode g) (reason g) (pressure g) (resource_available g)
    (resource_recovery_required g) (workload g) (pressure_streak g) n
    (cooldown_remaining g) (interactive_remaining g) (transition_sequence g).
Definition with_cooldown (n : Z) (g : ResourceGovernor) :=
  MkResourceGovernor (config g) (mode g) (reason g) (pressure g) (resource_available g)
    (resource_recovery_required g) (workload g) (pressure_streak g) (recovery_streak g)
    n (interactive_remaining g) (transition_sequence g).
Definition with_interactive (n : Z) (g : ResourceGovernor) :=
  MkResourceGovernor (config g) (mode g) (reason g) (pressure g) (resource_available g)
    (resource_recovery_required g) (workload g) (pressure_streak g) (recovery_streak g)
    (cooldown_remaining g) n (transition_sequence g).
Definition with_sequence (n : Z) (g : ResourceGovernor) :=
  MkResourceGovernor (config g) (mode g) (reason g) (pressure g) (resource_available g)
    (resource_recovery_required g) (workload g) (pressure_streak g) (recovery_streak g)
    (cooldown_remaining g) (interactive_remaining g) n.

(** * Budgets *)

Definition MIB : Z := 1024 * 1024.

Definition budget (m : GovernorMode) (saver : bool) : IndexingBudget :=
  match m with
  | Active => MkIndexingBudget 0 0 0 (32 * MIB) 1000 0 Paused true
  | Balanced => MkIndexingBudget 5000 20 5000 (64 * MIB) 5000 1 Normal false
  | IdleBoost => MkIndexingBudget 10000 100 30000 (128 * MIB) 10000 1 Elevated false
  | Pressure => MkIndexingBudget 128 0 0 (32 * MIB) 500 0 Paused true
  | Battery =>
      MkIndexingBudget (if saver then 0 else 256) (if saver then 0 else 1)
        (if saver then 0 else 250) (32 * MIB) 1000 (if saver then 0 else 1)
        (if saver then Paused else Minimal) saver
  end.

Definition get_indexing_budget (g : ResourceGovernor) : IndexingBudget :=
  budget (mode g) (energy_saver (pressure g)).

Record GovernorDecision := MkGovernorDecision {
  gd_mode : GovernorMode;
  gd_budget : IndexingBudget;
  gd_reason : DecisionReason;
  gd_transition_sequence : Z }.

Definition decision (g : ResourceGovernor) : GovernorDecision :=
  MkGovernorDecision (mode g) (get_indexing_budget g) (reason g) (transition_sequence g).

(** * Transitions *)

Definition u8_saturating_add (a b : Z) : Z := saturating_add u8_max a b.

Definition transition (m : GovernorMode) (r : DecisionReason) (g : ResourceGovernor)
  : ResourceGovernor :=
  with_reason r
    (if decide (mode g = m) then g
     else with_cooldown (cooldown_windows (config g))
            (with_sequence (saturating_add u64_max (transition_sequence g) 1) (with_mode m g))).

Definition at_most_opt (o : option Z) (bound : Z) : bool :=
  match o with Some x => bool_decide (x ≤ bound)%Z | None => false end.
Definition at_least_opt (o : option Z) (bound : Z) : bool :=
  match o with Some x => bool_decide (bound ≤ x)%Z | None => false end.

(** The three sustained-pressure thresholds. *)
Definition pressured (g : ResourceGovernor) : bool :=
  at_most_opt (available_memory_basis_points (pressure g)) (low_memory_basis_points (config g)) ||
  at_least_opt (system_cpu_load_basis_points (pressure g)) (high_cpu_basis_points (config g)) ||
  at_least_opt (disk_busy_basis_points (pressure g)) (high_disk_basis_points (config g)).

(** One counted healthy window. *)
Definition count_recovery (count_window : bool) (g : ResourceGovernor) : ResourceGovernor :=
  if count_window
  then with_cooldown (saturating_sub (cooldown_remaining g) 1)
         (with_recovery_streak (u8_saturating_add (recovery_streak g) 1) g)
  else g.

(** The last part of [evaluate]: relax towards the desired mode. *)
Definition relax (count_window : bool) (g : ResourceGovernor) : ResourceGovernor :=
  let g := count_recovery count_window g in
  let '(desired, why) :=
    if user_idle (workload g) && bool_decide (0 < backlog_mutations (workload g))%Z &&
       bool_decide (power_source (pressure g) = PowerAc)
    then (IdleBoost, RIdleBacklog) else (Balanced, RBalanced) in
  if decide (mode g = desired) then with_reason why g
  else if decide (recovery_windows (config g) ≤ recovery_streak g ∧ cooldown_remaining g = 0)%Z
  then with_recovery_streak 0 (transition desired why g)
  else g.

(** [evaluate] from the memory check on. *)
Definition evaluate_available (count_window : bool) (g : ResourceGovernor) : ResourceGovernor :=
  if at_most_opt (available_memory_basis_points (pressure g)) (critical_memory_basis_points (config g))
  then transition Pressure RCriticalMemory g
  else
    let p := pressured g in
    let g :=
      if p then
        with_recovery_streak 0
          (if count_window then with_pressure_streak (u8_saturating_add (pressure_streak g) 1) g else g)
      else with_pressure_streak 0 g in
    if p && bool_decide (pressure_windows (config g) ≤ pressure_streak g)%Z
    then transition Pressure RSystemPressure g
    else if user_active (workload g) || bool_decide (0 < interactive_remaining g)%Z
    then transition Active RUserActive (with_recovery_streak 0 g)
    else if energy_saver (pressure g) then transition Battery REnergySaver g
    else if decide (power_source (pressure g) = PowerBattery) then transition Battery RBattery g
    else if p then g
    else relax count_window g.

Definition evaluate (count_window : bool) (g : ResourceGovernor) : ResourceGovernor :=
  if negb (resource_available g) then transition Pressure RResourceTelemetryUnavailable g
  else if resource_recovery_required g then
    let g := count_recovery count_window g in
    if decide (recovery_streak g < recovery_windows (config g))%Z
    then transition Pressure RResourceTelemetryUnavailable g
    else
      evaluate_available count_window
        (transition Balanced RBalanced (with_recovery_streak 0 (with_recovery_required false g)))
  else evaluate_available count_window g.

(** * Reports *)

(** [duration_millis_ceil], on a duration in nanoseconds. *)
Definition duration_millis_ceil (nanos : Z) : Z :=
  saturating_add u64_max (Z.min u64_max (nanos / 1000000))
    (if decide (nanos mod 1000000 = 0)%Z then 0 else 1)%Z.

Definition begin_interactive_request (g : ResourceGovernor) : ResourceGovernor :=
  let g := with_interactive (interactive_hold_windows (config g)) g in
  if resource_available g && negb (resource_recovery_required g)
  then transition Active RUserActive g else g.

Definition report_search_latency (nanos : Z) (g : ResourceGovernor) : ResourceGovernor :=
  let g := with_interactive (interactive_hold_windows (config g)) g in
  if negb (resource_available g) || resource_recovery_required g then g
  else transition Active
         (if decide (search_sla_millis (config g) < duration_millis_ceil nanos)%Z
          then RSearchSla else RUserActive) g.

(** [if self.interactive_remaining > 0 { self.interactive_remaining -= 1; }]. *)
Definition tick_interactive (g : ResourceGovernor) : ResourceGovernor :=
  if decide (0 < interactive_remaining g)%Z
  then with_interactive (interactive_remaining g - 1) g else g.

Definition report_system_pressure (p : SystemPressure) (g : ResourceGovernor) : ResourceGovernor :=
  evaluate true (tick_interactive (with_pressure p true g)).

Definition set_user_idle (b : bool) (w : WorkloadState) : WorkloadState :=
  MkWorkloadState (user_active w) b (backlog_mutations w).

Definition report_resource_unavailable (g : ResourceGovernor) : ResourceGovernor :=
  transition Pressure RResourceTelemetryUnavailable
    (with_interactive 0 (with_recovery_streak 0 (with_pressure_streak 0
      (with_workload (set_user_idle false (workload g))
        (with_recovery_required true (with_pressure SystemPressure_default false g)))))).

Definition report_workload (w : WorkloadState) (g : ResourceGovernor) : ResourceGovernor :=
  let g := with_workload w g in
  if user_active w && resource_available g && negb (resource_recovery_required g)
  then transition Active RUserActive (with_interactive (interactive_hold_windows (config g)) g)
  else g.

Definition report_backlog (n : Z) (g : ResourceGovernor) : ResourceGovernor :=
  let w := workload g in
  let g := with_workload (MkWorkloadState (user_active w) (user_idle w) n) g in
  if bool_decide (n = 0%Z) && bool_decide (mode g = IdleBoost)
  then transition Balanced RBalanced (with_recovery_streak 0 g) else g.

Definition report_user_idle_duration (idle : option Z) (g : ResourceGovernor) : ResourceGovernor :=
  let now := at_least_opt idle (idle_boost_after_millis (config g)) in
  let g := with_workload (set_user_idle now (workload g)) g in
  if negb now && bool_decide (mode g = IdleBoost)
  then transition Balanced RBalanced (with_recovery_streak 0 g)
  else evaluate false g.

Definition advance_window (g : ResourceGovernor) : ResourceGovernor :=
  evaluate true (tick_interactive g).

(** Every way the governor's state can change. *)
Inductive report :=
| BeginInteractiveRequest
| ReportSearchLatency (nanos : Z)
| ReportSystemPressure (p : SystemPressure)
| ReportResourceUnavailable
| ReportWorkload (w : WorkloadState)
| ReportBacklog (n : Z)
| ReportUserIdleDuration (idle : option Z)
| AdvanceWindow.

Definition apply_report (e : report) (g : ResourceGovernor) : ResourceGovernor :=
  match e with
  | BeginInteractiveRequest => begin_interactive_request g
  | ReportSearchLatency nanos => report_search_latency nanos g
  | ReportSystemPressure p => report_system_pressure p g
  | ReportResourceUnavailable => report_resource_unavailable g
  | ReportWorkload w => report_workload w g
  | ReportBacklog n => report_backlog n g
  | ReportUserIdleDuration idle => report_user_idle_duration idle g
  | AdvanceWindow => advance_window g
  end.

Definition apply_reports (es : list report) (g : ResourceGovernor) : ResourceGovernor :=
  foldl (λ g e, apply_report e g) g es.

(** Reports that count a policy window. *)
Definition counts_window (e : report) : bool :=
  match e with ReportSystemPressure _ | AdvanceWindow => true | _ => false end.

Definition windows (es : list report) : nat := length (filter (λ e, counts_window e = true) es).

(** * Lemmas *)

Lemma transition_mode m r g : mode (transition m r g) = m.
Proof. unfold transition. by case_decide. Qed.
Lemma transition_config m r g : config (transition m r g) = config g.
Proof. unfold transition. by case_decide. Qed.
Lemma transition_pressure m r g : pressure (transition m r g) = pressure g.
Proof. unfold transition. by case_decide. Qed.
Lemma transition_available m r g : resource_available (transition m r g) = resource_available g.
Proof. unfold transition. by case_decide. Qed.
Lemma transition_required m r g :
  resource_recovery_required (transition m r g) = resource_recovery_required g.
Proof. unfold transition. by case_decide. Qed.
Lemma transition_workload m r g : workload (transition m r g) = workload g.
Proof. unfold transition. by case_decide. Qed.
Lemma transition_recovery m r g : recovery_streak (transition m r g) = recovery_streak g.
Proof. unfold transition. by case_decide. Qed.
Lemma transition_interactive m r g : interactive_remaining (transition m r g) = interactive_remaining g.
Proof. unfold transition. by case_decide. Qed.
Lemma transition_pressure_streak m r g : pressure_streak (transition m r g) = pressure_streak g.
Proof. unfold transition. by case_decide. Qed.

Lemma transition_sequence_cases m r g :
  (mode g = m ∧ transition_sequence (transition m r g) = transition_sequence g) ∨
  (mode g ≠ m ∧ transition_sequence (transition m r g)
                = saturating_add u64_max (transition_sequence g) 1).
Proof. unfold transition. case_decide; auto. Qed.

Create HintDb governor.
#[export] Hint Rewrite transition_mode transition_config transition_pressure transition_available
  transition_required transition_workload transition_recovery transition_interactive
  transition_pressure_streak : governor.

Ltac gov := repeat progress (autorewrite with governor in *; simpl in * ).

(** Case analysis on the guards of a report. *)
Ltac gov_cases :=
  repeat match goal with
  | |- context [if decide ?P then _ else _] => destruct (decide P)
  | |- context [if ?b then _ else _] => destruct b eqn:?
  end.

(** Counting a window only moves the two counters. *)
Lemma count_recovery_frame {X} (f : ResourceGovernor → X) w g :
  (∀ a b h, f (with_cooldown a (with_recovery_streak b h)) = f h) → f (count_recovery w g) = f g.
Proof. intros Hf. unfold count_recovery. destruct w; [apply Hf|done]. Qed.

Lemma count_recovery_config w g : config (count_recovery w g) = config g.
Proof. by apply count_recovery_frame. Qed.
Lemma count_recovery_pressure w g : pressure (count_recovery w g) = pressure g.
Proof. by apply count_recovery_frame. Qed.
Lemma count_recovery_workload w g : workload (count_recovery w g) = workload g.
Proof. by apply count_recovery_frame. Qed.
Lemma count_recovery_available w g : resource_available (count_recovery w g) = resource_available g.
Proof. by apply count_recovery_frame. Qed.
Lemma count_recovery_required w g :
  resource_recovery_required (count_recovery w g) = resource_recovery_required g.
Proof. by apply count_recovery_frame. Qed.
Lemma count_recovery_interactive w g : interactive_remaining (count_recovery w g) = interactive_remaining g.
Proof. by apply count_recovery_frame. Qed.
Lemma count_recovery_mode w g : mode (count_recovery w g) = mode g.
Proof. by apply count_recovery_frame. Qed.
Lemma count_recovery_sequence w g : transition_sequence (count_recovery w g) = transition_sequence g.
Proof. by apply count_recovery_frame. Qed.
#[export] Hint Rewrite count_recovery_config count_recovery_pressure count_recovery_workload
  count_recovery_available count_recovery_required count_recovery_interactive count_recovery_mode
  count_recovery_sequence : governor.

Lemma count_recovery_streak w g :
  recovery_streak (count_recovery w g) =
  if w then u8_saturating_add (recovery_streak g) 1 else recovery_streak g.
Proof. unfold count_recovery. by destruct w. Qed.
Lemma count_recovery_cooldown w g :
  cooldown_remaining (count_recovery w g) =
  if w then saturating_sub (cooldown_remaining g) 1 else cooldown_remaining g.
Proof. unfold count_recovery. by destruct w. Qed.

#[local] Opaque transition count_recovery.

(** Conditions under which backlog recovery may be boosted. *)
Definition boost_allowed (g : ResourceGovernor) : Prop :=
  user_idle (workload g) = true ∧ (0 < backlog_mutations (workload g))%Z
  ∧ power_source (pressure g) = PowerAc.

(** The three outcomes of [relax]. *)
Inductive relaxed (w : bool) (g : ResourceGovernor) : ResourceGovernor → Prop :=
| relaxed_stay r : relaxed w g (with_reason r (count_recovery w g))
| relaxed_wait : relaxed w g (count_recovery w g)
| relaxed_move d r :
    (recovery_windows (config g) ≤ recovery_streak (count_recovery w g))%Z →
    cooldown_remaining (count_recovery w g) = 0%Z →
    d = Balanced ∨ (d = IdleBoost ∧ boost_allowed g) →
    relaxed w g (with_recovery_streak 0 (transition d r (count_recovery w g))).

Lemma relax_relaxed w g : relaxed w g (relax w g).
Proof.
  unfold relax. set (c := count_recovery w g).
  assert (∀ d r, d = Balanced ∨ (d = IdleBoost ∧ boost_allowed g) →
    relaxed w g (if decide (mode c = d) then with_reason r c
      else if decide (recovery_windows (config c) ≤ recovery_streak c ∧ cooldown_remaining c = 0)%Z
      then with_recovery_streak 0 (transition d r c) else c)) as Hgo.
  { intros d r Hd. case_decide; [constructor|]. case_decide as Hw; [|constructor].
    destruct Hw as [Hw Hc]. apply relaxed_move; [|done|done]. unfold c in Hw.
    by rewrite count_recovery_config in Hw. }
  destruct (_ && _ && _) eqn:Hb; [|apply Hgo; by left]. apply Hgo. right. split; [done|].
  unfold c in Hb. rewrite count_recovery_workload, count_recovery_pressure in Hb.
  rewrite !andb_true_iff, !bool_decide_eq_true in Hb. unfold boost_allowed. tauto.
Qed.

(** The outcomes of [evaluate_available], with the guards that lead to them; [h] is the state after
    the pressure streak was updated. *)
Definition count_pressure (w : bool) (g : ResourceGovernor) : ResourceGovernor :=
  if pressured g then
    with_recovery_streak 0
      (if w then with_pressure_streak (u8_saturating_add (pressure_streak g) 1) g else g)
  else with_pressure_streak 0 g.

Lemma count_pressure_frame {X} (f : ResourceGovernor → X) w g :
  (∀ n h, f (with_pressure_streak n h) = f h) → (∀ n h, f (with_recovery_streak n h) = f h) →
  f (count_pressure w g) = f g.
Proof.
  intros Hp Hr. unfold count_pressure. destruct (pressured g); [|apply Hp].
  rewrite Hr. destruct w; [apply Hp|done].
Qed.

Definition foreground (g : ResourceGovernor) : Prop :=
  user_active (workload g) = true ∨ (0 < interactive_remaining g)%Z.

Inductive evaluated (w : bool) (g : ResourceGovernor) : ResourceGovernor → Prop :=
| ev_critical :
    at_most_opt (available_memory_basis_points (pressure g)) (critical_memory_basis_points (config g)) = true →
    evaluated w g (transition Pressure RCriticalMemory g)
| ev_pressure :
    pressured g = true → (pressure_windows (config g) ≤ pressure_streak (count_pressure w g))%Z →
    evaluated w g (transition Pressure RSystemPressure (count_pressure w g))
| ev_active :
    foreground g →
    evaluated w g (transition Active RUserActive (with_recovery_streak 0 (count_pressure w g)))
| ev_battery r :
    ¬ foreground g → energy_saver (pressure g) = true ∨ power_source (pressure g) = PowerBattery →
    evaluated w g (transition Battery r (count_pressure w g))
| ev_hold :
    ¬ foreground g → pressured g = true → energy_saver (pressure g) = false →
    evaluated w g (count_pressure w g)
| ev_relax g' :
    ¬ foreground g → pressured g = false → energy_saver (pressure g) = false →
    at_most_opt (available_memory_basis_points (pressure g)) (critical_memory_basis_points (config g)) = false →
    relaxed w (with_pressure_streak 0 g) g' →
    evaluated w g g'.

Lemma evaluate_available_evaluated w g : evaluated w g (evaluate_available w g).
Proof.
  unfold evaluate_available. destruct (at_most_opt _ _) eqn:Hcrit; [by constructor|].
  fold (count_pressure w g). set (h := count_pressure w g).
  assert (config h = config g) as Hc by (by apply count_pressure_frame).
  assert (workload h = workload g) as Hwl by (by apply count_pressure_frame).
  assert (interactive_remaining h = interactive_remaining g) as Hi by (by apply count_pressure_frame).
  assert (pressure h = pressure g) as Hp by (by apply count_pressure_frame).
  rewrite Hc, Hwl, Hi, Hp. destruct (pressured g && _) eqn:Hpr.
  { apply andb_true_iff in Hpr as [Hpr Hst]. apply bool_decide_eq_true in Hst. by constructor. }
  assert (user_active (workload g) || bool_decide (0 < interactive_remaining g)%Z = true ↔ foreground g)
    as Hfg by (by rewrite orb_true_iff, bool_decide_eq_true).
  destruct (user_active (workload g) || _); [apply ev_active; by apply Hfg|].
  assert (¬ foreground g) as Hn by (intros ?%Hfg; done).
  destruct (energy_saver (pressure g)) eqn:Hes; [apply ev_battery; auto|].
  destruct (decide (power_source (pressure g) = PowerBattery)); [apply ev_battery; auto|].
  destruct (pressured g) eqn:Hpg; [by apply ev_hold|].
  apply ev_relax; try done. unfold h, count_pressure. rewrite Hpg. apply relax_relaxed.
Qed.

(** What an evaluation never changes. *)
Lemma relaxed_frame {X} (f : ResourceGovernor → X) w g g' :
  (∀ a b h, f (with_cooldown a (with_recovery_streak b h)) = f h) → (∀ r h, f (with_reason r h) = f h) →
  (∀ n h, f (with_recovery_streak n h) = f h) → (∀ m r h, f (transition m r h) = f h) →
  relaxed w g g' → f g' = f g.
Proof.
  intros Hc Hr Hs Ht Hrel. destruct Hrel.
  - rewrite Hr. by apply count_recovery_frame.
  - by apply count_recovery_frame.
  - rewrite Hs, Ht. by apply count_recovery_frame.
Qed.

Lemma evaluated_frame {X} (f : ResourceGovernor → X) w g g' :
  (∀ a b h, f (with_cooldown a (with_recovery_streak b h)) = f h) → (∀ r h, f (with_reason r h) = f h) →
  (∀ n h, f (with_recovery_streak n h) = f h) → (∀ m r h, f (transition m r h) = f h) →
  (∀ n h, f (with_pressure_streak n h) = f h) →
  evaluated w g g' → f g' = f g.
Proof.
  intros Hc Hr Hs Ht Hp Hev.
  assert (f (count_pressure w g) = f g) as Hcp by (by apply count_pressure_frame).
  destruct Hev; rewrite ?Ht, ?Hs; try done.
  erewrite relaxed_frame; [|done..]. apply Hp.
Qed.

Lemma evaluate_frame {X} (f : ResourceGovernor → X) w g :
  (∀ a b h, f (with_cooldown a (with_recovery_streak b h)) = f h) → (∀ r h, f (with_reason r h) = f h) →
  (∀ n h, f (with_recovery_streak n h) = f h) → (∀ m r h, f (transition m r h) = f h) →
  (∀ n h, f (with_pressure_streak n h) = f h) → (∀ b h, f (with_recovery_required b h) = f h) →
  f (evaluate w g) = f g.
Proof.
  intros Hc Hr Hs Ht Hp Hq. unfold evaluate. destruct (negb _); [apply Ht|].
  destruct (resource_recovery_required g).
  - case_decide; [rewrite Ht; by apply count_recovery_frame|].
    erewrite evaluated_frame; [| | | | | |apply evaluate_available_evaluated]; try done.
    rewrite Ht, Hs, Hq. by apply count_recovery_frame.
  - erewrite evaluated_frame; [| | | | | |apply evaluate_available_evaluated]; done.
Qed.

Lemma evaluate_config w g : config (evaluate w g) = config g.
Proof. apply evaluate_frame; try done. apply transition_config. Qed.
Lemma evaluate_pressure w g : pressure (evaluate w g) = pressure g.
Proof. apply evaluate_frame; try done. apply transition_pressure. Qed.
Lemma evaluate_workload w g : workload (evaluate w g) = workload g.
Proof. apply evaluate_frame; try done. apply transition_workload. Qed.
Lemma evaluate_available_flag w g : resource_available (evaluate w g) = resource_available g.
Proof. apply evaluate_frame; try done. apply transition_available. Qed.
Lemma evaluate_interactive w g : interactive_remaining (evaluate w g) = interactive_remaining g.
Proof. apply evaluate_frame; try done. apply transition_interactive. Qed.
#[export] Hint Rewrite evaluate_config evaluate_pressure evaluate_workload evaluate_available_flag
  evaluate_interactive : governor.

(** ** The recovery flag *)

Lemma evaluated_required w g g' :
  evaluated w g g' → resource_recovery_required g' = resource_recovery_required g.
Proof. apply evaluated_frame; try done. apply transition_required. Qed.

(** Lost telemetry is only ever cleared by enough counted windows. *)
Lemma evaluate_required w g :
  resource_recovery_required (evaluate w g) = true →
  mode (evaluate w g) = Pressure ∧ resource_recovery_required g = true
  ∨ (resource_available g = false ∧ mode (evaluate w g) = Pressure).
Proof.
  unfold evaluate. destruct (resource_available g) eqn:Ha; simpl.
  - destruct (resource_recovery_required g) eqn:Hq; [|rewrite (evaluated_required w g);
      [congruence|apply evaluate_available_evaluated]].
    case_decide; [rewrite transition_mode; auto|].
    erewrite evaluated_required; [|apply evaluate_available_evaluated]. gov. done.
  - intros _. right. by rewrite transition_mode.
Qed.

Lemma evaluate_unavailable w g :
  resource_available g = false → mode (evaluate w g) = Pressure.
Proof. unfold evaluate. intros ->. apply transition_mode. Qed.

(** The invariant of every reachable governor. *)
Record governor_ok (g : ResourceGovernor) : Prop := {
  go_unavailable : resource_available g = false → resource_recovery_required g = true;
  go_required : resource_recovery_required g = true → mode g = Pressure }.

Lemma evaluate_ok w g :
  (resource_available g = false → resource_recovery_required g = true) → governor_ok (evaluate w g).
Proof.
  intros Hu. split.
  - gov. intros Ha. unfold evaluate. rewrite Ha. simpl. gov. auto.
  - intros Hq. destruct (evaluate_required w g Hq) as [[? _]|[_ ?]]; done.
Qed.

Lemma tick_interactive_frame {X} (f : ResourceGovernor → X) g :
  (∀ n h, f (with_interactive n h) = f h) → f (tick_interactive g) = f g.
Proof. intros Hf. unfold tick_interactive. by case_decide. Qed.

Lemma tick_config g : config (tick_interactive g) = config g.
Proof. by apply tick_interactive_frame. Qed.
Lemma tick_pressure g : pressure (tick_interactive g) = pressure g.
Proof. by apply tick_interactive_frame. Qed.
Lemma tick_available g : resource_available (tick_interactive g) = resource_available g.
Proof. by apply tick_interactive_frame. Qed.
Lemma tick_required g :
  resource_recovery_required (tick_interactive g) = resource_recovery_required g.
Proof. by apply tick_interactive_frame. Qed.
Lemma tick_workload g : workload (tick_interactive g) = workload g.
Proof. by apply tick_interactive_frame. Qed.
Lemma tick_recovery_streak g : recovery_streak (tick_interactive g) = recovery_streak g.
Proof. by apply tick_interactive_frame. Qed.
Lemma tick_cooldown g : cooldown_remaining (tick_interactive g) = cooldown_remaining g.
Proof. by apply tick_interactive_frame. Qed.
Lemma tick_mode g : mode (tick_interactive g) = mode g.
Proof. by apply tick_interactive_frame. Qed.
Lemma tick_sequence g : transition_sequence (tick_interactive g) = transition_sequence g.
Proof. by apply tick_interactive_frame. Qed.
Lemma tick_remaining g : interactive_remaining (tick_interactive g) = Z.max 0 (interactive_remaining g - 1)
  ∨ (interactive_remaining g < 0)%Z.
Proof. unfold tick_interactive. case_decide; simpl; lia. Qed.
#[export] Hint Rewrite tick_config tick_pressure tick_available tick_required tick_workload
  tick_recovery_streak tick_cooldown tick_mode tick_sequence : governor.

Lemma apply_report_ok e g : governor_ok g → governor_ok (apply_report e g).
Proof.
  intros [Hu Hq]. destruct e; simpl.
  - unfold begin_interactive_request. simpl.
    destruct (resource_available g) eqn:Ha, (resource_recovery_required g) eqn:Hr; simpl;
      split; gov; naive_solver congruence.
  - unfold report_search_latency. simpl.
    destruct (resource_available g) eqn:Ha, (resource_recovery_required g) eqn:Hr; simpl;
      split; gov; naive_solver congruence.
  - apply evaluate_ok. unfold tick_interactive. case_decide; done.
  - unfold report_resource_unavailable. split; gov; done.
  - unfold report_workload. simpl. destruct (user_active w), (resource_available g) eqn:Ha,
      (resource_recovery_required g) eqn:Hr; simpl; split; gov; naive_solver congruence.
  - unfold report_backlog. simpl. destruct (bool_decide (n = 0%Z)); simpl; [|by split].
    case_bool_decide as Hm; [|by split]. split; gov; [done|]. intros Hr%Hq. congruence.
  - unfold report_user_idle_duration. simpl. destruct (negb _ && _) eqn:Hb; [|by apply evaluate_ok].
    apply andb_true_iff in Hb as [_ Hm]. apply bool_decide_eq_true in Hm.
    split; gov; [done|]. intros Hr%Hq. congruence.
  - apply evaluate_ok. unfold tick_interactive. by case_decide.
Qed.

Lemma apply_reports_ok es g : governor_ok g → governor_ok (apply_reports es g).
Proof.
  unfold apply_reports. revert g. induction es as [|e es IH]; intros g Hg; simpl; [done|].
  by apply IH, apply_report_ok.
Qed.

Lemma governor_ok_new c : governor_ok (ResourceGovernor_new c).
Proof. by split. Qed.

Lemma budget_paused m b :
  background_paused (budget m b) = true ↔ maximum_batches (budget m b) = 0%Z.
Proof. by destruct m, b. Qed.

(** ** Fail-closed recovery *)

(** Waiting for recovery: at most [n] windows have been counted since telemetry was lost. *)
Record recovering (c : GovernorConfig) (n : Z) (g : ResourceGovernor) : Prop := {
  rc_config : config g = c;
  rc_required : resource_recovery_required g = true;
  rc_mode : mode g = Pressure;
  rc_streak : (recovery_streak g ≤ n)%Z }.

Definition window_count (e : report) : Z := if counts_window e then 1 else 0.

Lemma evaluate_recovering c n (w : bool) g :
  resource_recovery_required g = true → config g = c → (recovery_streak g ≤ n)%Z →
  (n + (if w then 1 else 0) < recovery_windows c)%Z →
  recovering c (n + (if w then 1 else 0)) (evaluate w g).
Proof.
  intros Hq Hc Hs Hn. unfold evaluate. rewrite Hq.
  assert (recovery_streak (count_recovery w g) ≤ n + (if w then 1 else 0))%Z as Hs'.
  { rewrite count_recovery_streak. unfold u8_saturating_add, saturating_add. destruct w; lia. }
  destruct (negb (resource_available g)).
  - split; gov; try done. destruct w; lia.
  - rewrite decide_True by (rewrite count_recovery_config, Hc; lia). split; gov; done.
Qed.

Lemma report_recovering c n e g :
  recovering c n g → (n + window_count e < recovery_windows c)%Z → (0 ≤ n)%Z →
  recovering c (n + window_count e) (apply_report e g).
Proof.
  intros [Hc Hq Hm Hs] Hn H0. unfold window_count in *. destruct e; simpl in *.
  - unfold begin_interactive_request. simpl. rewrite Hq, andb_false_r. split; simpl; try done; lia.
  - unfold report_search_latency. simpl. rewrite Hq, orb_true_r. split; simpl; try done; lia.
  - unfold report_system_pressure.
    apply (evaluate_recovering c n true); gov; done.
  - unfold report_resource_unavailable. split; gov; try done; lia.
  - unfold report_workload. simpl. rewrite Hq, andb_false_r. split; simpl; try done; lia.
  - unfold report_backlog. simpl. rewrite Hm, (bool_decide_eq_false_2 (Pressure = IdleBoost)) by done.
    rewrite andb_false_r. split; simpl; try done; lia.
  - unfold report_user_idle_duration. simpl.
    rewrite Hm, (bool_decide_eq_false_2 (Pressure = IdleBoost)) by done. rewrite andb_false_r.
    by apply (evaluate_recovering c n false).
  - unfold advance_window.
    apply (evaluate_recovering c n true); gov; done.
Qed.

Lemma windows_cons e es : Z.of_nat (windows (e :: es)) = (window_count e + Z.of_nat (windows es))%Z.
Proof. unfold windows, window_count. rewrite filter_cons. destruct (counts_window e); simpl; lia. Qed.

Lemma reports_recovering c n es g :
  recovering c n g → (n + Z.of_nat (windows es) < recovery_windows c)%Z → (0 ≤ n)%Z →
  recovering c (n + Z.of_nat (windows es)) (apply_reports es g).
Proof.
  unfold apply_reports. revert n g. induction es as [|e es IH]; intros n g Hg Hn H0; simpl.
  - unfold windows. simpl. by rewrite Z.add_0_r.
  - rewrite windows_cons in *. rewrite Z.add_assoc.
    assert (0 ≤ window_count e)%Z by (unfold window_count; destruct (counts_window e); lia).
    apply IH; [apply report_recovering; [done|lia|done]|lia|lia].
Qed.

(** ** Foreground protection *)

Record protected (c : GovernorConfig) (n : Z) (g : ResourceGovernor) : Prop := {
  pr_config : config g = c;
  pr_ok : governor_ok g;
  pr_mode : mode g = Active ∨ mode g = Pressure;
  pr_remaining : (interactive_hold_windows c - n ≤ interactive_remaining g)%Z }.

Lemma evaluate_protected_mode w g :
  (0 < interactive_remaining g)%Z → mode (evaluate w g) = Active ∨ mode (evaluate w g) = Pressure.
Proof.
  intros Hi. unfold evaluate. destruct (negb _); [right; apply transition_mode|].
  assert (∀ h, (0 < interactive_remaining h)%Z → mode (evaluate_available w h) = Active ∨
    mode (evaluate_available w h) = Pressure) as Hav.
  { intros h Hh. destruct (evaluate_available_evaluated w h) as [| | |? Hn|Hn|? Hn];
      rewrite ?transition_mode; auto; destruct Hn; by right. }
  destruct (resource_recovery_required g); [|by apply Hav].
  case_decide; [right; apply transition_mode|]. apply Hav. gov. done.
Qed.

Lemma report_protected c n e g :
  protected c n g → e ≠ ReportResourceUnavailable → (0 ≤ n)%Z →
  (n + window_count e < interactive_hold_windows c)%Z →
  protected c (n + window_count e) (apply_report e g).
Proof.
  intros [<- Hok Hm Hr] Hne H0 Hn. pose proof (apply_report_ok e g Hok) as Hok'.
  unfold window_count in *. destruct e; simpl in *; try done.
  - split; try done; unfold begin_interactive_request; simpl; destruct (_ && _); gov; try lia; auto.
  - split; try done; unfold report_search_latency; simpl; destruct (_ || _); gov; try lia; auto.
  - split; try done; unfold report_system_pressure, tick_interactive; simpl; case_decide; gov; try lia; auto.
    all: apply evaluate_protected_mode; simpl; lia.
  - split; try done; unfold report_workload; simpl; destruct (_ && _ && _); gov; try lia; auto.
  - assert (mode g ≠ IdleBoost) as Hni by (destruct Hm; congruence).
    unfold report_backlog in *. simpl in *. rewrite (bool_decide_eq_false_2 _ Hni), andb_false_r in *.
    split; simpl; try done. lia.
  - assert (mode g ≠ IdleBoost) as Hni by (destruct Hm; congruence).
    unfold report_user_idle_duration in *. simpl in *.
    rewrite (bool_decide_eq_false_2 _ Hni), andb_false_r in *. split; gov; try done; try lia.
    apply evaluate_protected_mode. simpl. lia.
  - split; try done; unfold advance_window, tick_interactive; simpl; case_decide; gov; try lia; auto.
    all: apply evaluate_protected_mode; simpl; lia.
Qed.

Lemma reports_protected c n es g :
  protected c n g → ReportResourceUnavailable ∉ es → (0 ≤ n)%Z →
  (n + Z.of_nat (windows es) < interactive_hold_windows c)%Z →
  protected c (n + Z.of_nat (windows es)) (apply_reports es g).
Proof.
  unfold apply_reports. revert n g. induction es as [|e es IH]; intros n g Hg Hne H0 Hn; simpl.
  - unfold windows. simpl. by rewrite Z.add_0_r.
  - rewrite windows_cons in *. rewrite Z.add_assoc. apply not_elem_of_cons in Hne as [Hne Hnes].
    assert (0 ≤ window_count e)%Z by (unfold window_count; destruct (counts_window e); lia).
    apply IH; [apply report_protected; [done|congruence|done|lia]|done|lia|lia].
Qed.

Lemma begin_protected g :
  governor_ok g → protected (config g) 0 (begin_interactive_request g).
Proof.
  intros Hok. pose proof (apply_report_ok BeginInteractiveRequest g Hok) as Hok'. simpl in Hok'.
  split; try done; unfold begin_interactive_request; simpl; destruct (_ && _) eqn:Hb; gov; auto; try lia.
  destruct Hok as [Hu Hq]. destruct (resource_available g), (resource_recovery_required g);
    simpl in *; naive_solver.
Qed.

(** ** Relaxation *)

(** Nothing that evaluation reads asks for restraint. *)
Definition calm (g : ResourceGovernor) : Prop :=
  ¬ foreground g ∧ pressured g = false ∧ energy_saver (pressure g) = false
  ∧ resource_available g = true ∧ resource_recovery_required g = false.

Definition relaxed_mode (m : GovernorMode) : Prop := m = Balanced ∨ m = IdleBoost.

Lemma pressured_ext g g' : pressure g' = pressure g → config g' = config g → pressured g' = pressured g.
Proof. unfold pressured. by intros -> ->. Qed.

Lemma evaluated_mode w g g' :
  evaluated w g g' →
  mode g' = mode g ∨ mode g' = Pressure ∨ mode g' = Active ∨ mode g' = Battery ∨
  (relaxed_mode (mode g') ∧ (mode g' = IdleBoost → boost_allowed g)
   ∧ ¬ foreground g ∧ pressured g = false ∧ energy_saver (pressure g) = false
   ∧ (recovery_windows (config g) ≤ recovery_streak (count_recovery w (with_pressure_streak 0 g)))%Z
   ∧ cooldown_remaining (count_recovery w (with_pressure_streak 0 g)) = 0%Z).
Proof.
  intros Hev. destruct Hev as [| | | | |g' Hf Hp He Hc Hr]; rewrite ?transition_mode; auto 10.
  - left. by apply count_pressure_frame.
  - destruct Hr as [r| |d r Hw Hcd Hd]; gov; auto. do 4 right. split; [|split].
    + unfold relaxed_mode. tauto.
    + intros ->. destruct Hd as [|[_ Hd]]; done.
    + auto.
Qed.

(** A counted window, as far as hysteresis can tell. *)
Lemma count_recovery_bounds w g :
  (0 ≤ cooldown_remaining g)%Z →
  cooldown_remaining (count_recovery w g) = 0%Z → (cooldown_remaining g ≤ 1)%Z.
Proof. rewrite count_recovery_cooldown. unfold saturating_sub. destruct w; lia. Qed.

Lemma count_recovery_streak_le w g : (recovery_streak (count_recovery w g) ≤ recovery_streak g + 1)%Z.
Proof. rewrite count_recovery_streak. unfold u8_saturating_add, saturating_add. destruct w; lia. Qed.

(** A change to a relaxed mode was made in calm, after the streak and the cooldown allowed it. *)
Lemma evaluated_relaxes w h g' :
  evaluated w h g' → resource_available h = true → resource_recovery_required h = false →
  mode g' ≠ mode h → relaxed_mode (mode g') →
  calm g' ∧ (mode g' = IdleBoost → boost_allowed g')
  ∧ (recovery_windows (config h) ≤ recovery_streak h + 1)%Z
  ∧ cooldown_remaining (count_recovery w (with_pressure_streak 0 h)) = 0%Z.
Proof.
  intros Hev Ha Hq Hne Hm.
  assert (config g' = config h) as Hc by (eapply evaluated_frame, Hev; try done; apply transition_config).
  assert (pressure g' = pressure h) as Hp by (eapply evaluated_frame, Hev; try done; apply transition_pressure).
  assert (workload g' = workload h) as Hw by (eapply evaluated_frame, Hev; try done; apply transition_workload).
  assert (interactive_remaining g' = interactive_remaining h) as Hi
    by (eapply evaluated_frame, Hev; try done; apply transition_interactive).
  assert (resource_available g' = resource_available h) as Ha'
    by (eapply evaluated_frame, Hev; try done; apply transition_available).
  assert (resource_recovery_required g' = resource_recovery_required h) as Hq'
    by (by eapply evaluated_required).
  destruct (evaluated_mode _ _ _ Hev) as [Heq|[Heq|[Heq|[Heq|(_ & Hb & Hf & Hpr & Hes & Hrw & Hcd)]]]];
    try (destruct Hm; congruence).
  pose proof (count_recovery_streak_le w (with_pressure_streak 0 h)) as Hst. simpl in Hst.
  split; [|split; [|split; [lia|done]]]; unfold calm, foreground, boost_allowed in *.
  - rewrite Hw, Hi, Hp, (pressured_ext h), Ha', Hq' by done. tauto.
  - rewrite Hw, Hp. done.
Qed.

(** Leaving every restrained mode takes the hysteresis, unless telemetry was just recovered. *)
Lemma evaluate_relaxes w g :
  resource_recovery_required g = false → ¬ relaxed_mode (mode g) → relaxed_mode (mode (evaluate w g)) →
  (0 ≤ cooldown_remaining g)%Z →
  (recovery_windows (config g) ≤ recovery_streak g + 1)%Z ∧ (cooldown_remaining g ≤ 1)%Z
  ∧ calm (evaluate w g).
Proof.
  intros Hq Hn Hm H0. unfold evaluate in *. rewrite Hq in *.
  destruct (resource_available g) eqn:Ha; simpl in *; [|rewrite transition_mode in Hm; by destruct Hm].
  destruct (evaluated_relaxes w g _ (evaluate_available_evaluated w g)) as (Hcalm & _ & Hst & Hcd);
    [done|done|intros Heq; by rewrite Heq in Hm|done|].
  split; [done|]. split; [|done]. by apply (count_recovery_bounds w (with_pressure_streak 0 g)).
Qed.

Lemma evaluate_boosts w g :
  mode g ≠ IdleBoost → mode (evaluate w g) = IdleBoost →
  calm (evaluate w g) ∧ boost_allowed (evaluate w g).
Proof.
  intros Hn. unfold evaluate. destruct (resource_available g) eqn:Ha; simpl; [|by rewrite transition_mode].
  assert (∀ h, resource_available h = true → resource_recovery_required h = false → mode h ≠ IdleBoost →
    mode (evaluate_available w h) = IdleBoost →
    calm (evaluate_available w h) ∧ boost_allowed (evaluate_available w h)) as Hgo.
  { intros h Hah Hqh Hnh Hm.
    destruct (evaluated_relaxes w h _ (evaluate_available_evaluated w h)) as (Hcalm & Hb & _);
      [done|done|congruence|by right|auto]. }
  destruct (resource_recovery_required g) eqn:Hq; [|by apply Hgo].
  case_decide; [by rewrite transition_mode|]. apply Hgo; gov; done.
Qed.

(** ** Counters *)

Definition config_typed (c : GovernorConfig) : Prop :=
  (0 ≤ cooldown_windows c ≤ u8_max ∧ 0 ≤ recovery_windows c ≤ u8_max
   ∧ 0 ≤ interactive_hold_windows c ≤ u8_max)%Z.

Record counters_ok (c : GovernorConfig) (g : ResourceGovernor) : Prop := {
  co_config : config g = c;
  co_recovery : (0 ≤ recovery_streak g ≤ u8_max)%Z;
  co_cooldown : (0 ≤ cooldown_remaining g ≤ cooldown_windows c)%Z;
  co_interactive : (0 ≤ interactive_remaining g ≤ interactive_hold_windows c)%Z }.

Lemma transition_cooldown_cases m r g :
  cooldown_remaining (transition m r g) = cooldown_remaining g ∨
  cooldown_remaining (transition m r g) = cooldown_windows (config g).
Proof. with_strategy transparent [transition] unfold transition. case_decide; auto. Qed.

Section counters.
Context (c : GovernorConfig) (Hc : config_typed c).

Lemma counters_transition m r g : counters_ok c g → counters_ok c (transition m r g).
Proof.
  intros [H1 H2 H3 H4]. destruct Hc as (? & ? & ?). split; gov; try done.
  destruct (transition_cooldown_cases m r g) as [->| ->]; [done|]. rewrite H1. lia.
Qed.
Lemma counters_count w g : counters_ok c g → counters_ok c (count_recovery w g).
Proof.
  intros [H1 H2 H3 H4]. split; gov; try done.
  - rewrite count_recovery_streak. unfold u8_saturating_add, saturating_add, u8_max in *. destruct w; lia.
  - rewrite count_recovery_cooldown. unfold saturating_sub. destruct w; lia.
Qed.
Lemma counters_reset g : counters_ok c g → counters_ok c (with_recovery_streak 0 g).
Proof. intros [H1 H2 H3 H4]. by split. Qed.
Lemma counters_interactive n g :
  (0 ≤ n ≤ interactive_hold_windows c)%Z → counters_ok c g → counters_ok c (with_interactive n g).
Proof. intros Hn [H1 H2 H3 H4]. by split. Qed.
Lemma counters_same g g' :
  counters_ok c g → config g' = config g → recovery_streak g' = recovery_streak g →
  cooldown_remaining g' = cooldown_remaining g → interactive_remaining g' = interactive_remaining g →
  counters_ok c g'.
Proof. intros [H1 H2 H3 H4] E1 E2 E3 E4. split; congruence || by rewrite ?E1, ?E2, ?E3, ?E4. Qed.

Lemma counters_count_pressure w g : counters_ok c g → counters_ok c (count_pressure w g).
Proof.
  intros Hg. unfold count_pressure. destruct (pressured g); [apply counters_reset; destruct w|];
    try done; by apply (counters_same g _ Hg).
Qed.

Lemma counters_evaluated w g g' : evaluated w g g' → counters_ok c g → counters_ok c g'.
Proof.
  intros Hev Hg. pose proof (counters_count_pressure w g Hg) as Hcp.
  destruct Hev as [| | | | |g' _ _ _ _ Hr]; try done; try (by apply counters_transition).
  - by apply counters_transition, counters_reset.
  - assert (counters_ok c (count_recovery w (with_pressure_streak 0 g))) as Hcr
      by (apply counters_count; by apply (counters_same g _ Hg)).
    destruct Hr; [by apply (counters_same (count_recovery w (with_pressure_streak 0 g)) _ Hcr)|done|]. by apply counters_reset, counters_transition.
Qed.

Lemma counters_evaluate w g : counters_ok c g → counters_ok c (evaluate w g).
Proof.
  intros Hg. unfold evaluate. destruct (negb _); [by apply counters_transition|].
  pose proof (counters_count w g Hg) as Hcr.
  destruct (resource_recovery_required g); [|by eapply counters_evaluated; [apply evaluate_available_evaluated|]].
  case_decide; [by apply counters_transition|].
  eapply counters_evaluated; [apply evaluate_available_evaluated|].
  apply counters_transition, counters_reset. by apply (counters_same (count_recovery w g) _ Hcr).
Qed.

Lemma counters_tick g : counters_ok c g → counters_ok c (tick_interactive g).
Proof.
  intros Hg. unfold tick_interactive. case_decide; [|done]. apply counters_interactive; [|done].
  destruct Hg. lia.
Qed.

Lemma counters_report e g : counters_ok c g → counters_ok c (apply_report e g).
Proof.
  intros Hg. pose proof (co_config _ _ Hg) as Hcg. destruct Hc as (Hc1 & Hc2 & Hc3).
  assert (counters_ok c (with_interactive (interactive_hold_windows (config g)) g)) as Hh.
  { rewrite Hcg. apply counters_interactive; [lia|done]. }
  destruct e; simpl.
  - unfold begin_interactive_request. simpl. destruct (_ && _); [by apply counters_transition|done].
  - unfold report_search_latency. simpl. destruct (_ || _); [done|by apply counters_transition].
  - apply counters_evaluate, counters_tick. by apply (counters_same g _ Hg).
  - apply counters_transition, counters_interactive; [lia|]. apply counters_reset. by apply (counters_same g _ Hg).
  - unfold report_workload. simpl. destruct (_ && _ && _); [apply counters_transition, (counters_same _ _ Hh)|apply (counters_same _ _ Hg)]; done.
  - unfold report_backlog. simpl.
    destruct (_ && _); [apply counters_transition, counters_reset|]; by apply (counters_same g _ Hg).
  - unfold report_user_idle_duration. simpl.
    destruct (_ && _); [apply counters_transition, counters_reset|apply counters_evaluate]; by apply (counters_same g _ Hg).
  - by apply counters_evaluate, counters_tick.
Qed.

Lemma counters_reports es g : counters_ok c g → counters_ok c (apply_reports es g).
Proof.
  unfold apply_reports. revert g. induction es as [|e es IH]; intros g Hg; simpl; [done|].
  by apply IH, counters_report.
Qed.

Lemma counters_new : counters_ok c (ResourceGovernor_new c).
Proof. destruct Hc as (? & ? & ?). split; simpl; [done|done|lia|lia]. Qed.
End counters.

(** A step of the counter and of the mode: the counter never falls, and moves with the mode. *)
Definition seq_le (g g' : ResourceGovernor) : Prop :=
  (transition_sequence g ≤ transition_sequence g')%Z ∧ in_u64 (transition_sequence g') ∧
  (mode g' ≠ mode g → transition_sequence g < transition_sequence g' ∨
                      transition_sequence g' = u64_max)%Z.

Lemma seq_le_refl g : in_u64 (transition_sequence g) → seq_le g g.
Proof. intros Hg. repeat split; [lia|apply Hg|apply Hg|done]. Qed.

Lemma seq_le_same g g' h :
  seq_le g h → transition_sequence g' = transition_sequence h → mode g' = mode h → seq_le g g'.
Proof. unfold seq_le. by intros Hs -> ->. Qed.

Lemma seq_le_transition g h m r : seq_le g h → seq_le g (transition m r h).
Proof.
  intros (Hle & Hu & Hm). unfold seq_le. rewrite transition_mode.
  destruct (transition_sequence_cases m r h) as [[Heq ->]|[Hne ->]].
  - subst m. auto.
  - unfold saturating_add, in_u64, u64_max in *. split; [lia|]. split; [lia|]. intros _. lia.
Qed.

Lemma seq_le_evaluated g w h h' : seq_le g h → evaluated w h h' → seq_le g h'.
Proof.
  intros Hs Hev.
  assert (seq_le g (count_pressure w h)) as Hcp.
  { eapply seq_le_same; [exact Hs|by apply count_pressure_frame|by apply count_pressure_frame]. }
  destruct Hev as [| | | | |h' _ _ _ _ Hr]; try (apply seq_le_transition); try done.
  assert (seq_le g (count_recovery w (with_pressure_streak 0 h))) as Hcr.
  { eapply seq_le_same; [exact Hs|by gov|by gov]. }
  destruct Hr as [r| |d r _ _ _]; [|done|].
  - eapply seq_le_same; [exact Hcr|done|done].
  - eapply seq_le_same; [apply (seq_le_transition _ _ d r Hcr)|done|done].
Qed.

Lemma seq_le_evaluate g w h : seq_le g h → seq_le g (evaluate w h).
Proof.
  intros Hs. unfold evaluate. destruct (negb _); [by apply seq_le_transition|].
  assert (seq_le g (count_recovery w h)) as Hcr by (eapply seq_le_same; [exact Hs|by gov|by gov]).
  destruct (resource_recovery_required h).
  - case_decide; [by apply seq_le_transition|]. eapply seq_le_evaluated; [|apply evaluate_available_evaluated].
    apply seq_le_transition. eapply seq_le_same; [exact Hcr|done|done].
  - eapply seq_le_evaluated; [exact Hs|apply evaluate_available_evaluated].
Qed.

Lemma report_seq_le e g : in_u64 (transition_sequence g) → seq_le g (apply_report e g).
Proof.
  intros Hg. assert (∀ h, transition_sequence h = transition_sequence g → mode h = mode g → seq_le g h) as H0.
  { intros h H1 H2. eapply seq_le_same; [by apply seq_le_refl|done|done]. }
  destruct e; simpl.
  - unfold begin_interactive_request. simpl. destruct (_ && _); [apply seq_le_transition|]; by apply H0.
  - unfold report_search_latency. simpl. destruct (_ || _); [|apply seq_le_transition]; by apply H0.
  - apply seq_le_evaluate, H0; by gov.
  - apply seq_le_transition. by apply H0.
  - unfold report_workload. simpl. destruct (_ && _ && _); [apply seq_le_transition|]; by apply H0.
  - unfold report_backlog. simpl. destruct (_ && _); [apply seq_le_transition|]; by apply H0.
  - unfold report_user_idle_duration. simpl.
    destruct (_ && _); [apply seq_le_transition|apply seq_le_evaluate]; by apply H0.
  - apply seq_le_evaluate, H0; by gov.
Qed.

(** ** Recovery is reached *)

(** A system report that asks for no restraint. *)
Definition healthy (c : GovernorConfig) (p : SystemPressure) : Prop :=
  at_most_opt (available_memory_basis_points p) (critical_memory_basis_points c) = false
  ∧ at_most_opt (available_memory_basis_points p) (low_memory_basis_points c) = false
  ∧ at_least_opt (system_cpu_load_basis_points p) (high_cpu_basis_points c) = false
  ∧ at_least_opt (disk_busy_basis_points p) (high_disk_basis_points c) = false
  ∧ energy_saver p = false ∧ power_source p ≠ PowerBattery.

(** What is left before a relaxed mode, in windows. *)
Definition relax_distance (g : ResourceGovernor) : Z :=
  Z.max (recovery_windows (config g) - recovery_streak g) (cooldown_remaining g).

Record recovered_inputs (c : GovernorConfig) (g : ResourceGovernor) : Prop := {
  ri_config : config g = c;
  ri_required : resource_recovery_required g = false;
  ri_inactive : user_active (workload g) = false;
  ri_interactive : interactive_remaining g = 0%Z }.

Lemma healthy_pressured c p g : config g = c → pressure g = p → healthy c p → pressured g = false.
Proof. intros <- <- (_ & H1 & H2 & H3 & _). unfold pressured. by rewrite H1, H2, H3. Qed.

(** Evaluation of a healthy report once nothing else is in the way is a relaxation step. *)
Lemma healthy_evaluate_available c p g :
  healthy c p → config g = c → pressure g = p → user_active (workload g) = false →
  interactive_remaining g = 0%Z →
  evaluate_available true g = relax true (with_pressure_streak 0 g).
Proof.
  intros Hh Hc Hp Hu Hi. pose proof (healthy_pressured c p g Hc Hp Hh) as Hpr.
  destruct Hh as (Hcrit & _ & _ & _ & Hes & Hpow). unfold evaluate_available.
  rewrite Hp, Hc, Hcrit, Hpr. simpl. rewrite Hu, Hi, Hp, Hes. simpl. by rewrite decide_False.
Qed.

Lemma relax_step g :
  (recovery_windows (config g) ≤ u8_max)%Z → (0 ≤ cooldown_remaining g)%Z →
  relaxed_mode (mode (relax true g)) ∨
  (¬ relaxed_mode (mode g) ∧ (1 ≤ relax_distance (relax true g) ≤ relax_distance g - 1)%Z).
Proof.
  intros Hrw Hcd. unfold relax. set (h := count_recovery true g).
  assert (∀ d r, relaxed_mode d → let x := (if decide (mode h = d) then with_reason r h
      else if decide (recovery_windows (config h) ≤ recovery_streak h ∧ cooldown_remaining h = 0)%Z
      then with_recovery_streak 0 (transition d r h) else h) in
    relaxed_mode (mode x) ∨ (¬ relaxed_mode (mode g) ∧ (1 ≤ relax_distance x ≤ relax_distance g - 1)%Z)) as Hgo.
  2:{ destruct (_ && _ && _); apply Hgo; [by right|by left]. }
  intros d r Hd x. unfold x. case_decide as Hm; [left; simpl; by rewrite Hm|].
  case_decide as Hw; [left; gov; done|].
  assert (mode h = mode g) as Hmh by (unfold h; by gov).
  assert (relaxed_mode (mode g) ∨ ¬ relaxed_mode (mode g)) as [Hr|Hr].
  { unfold relaxed_mode. destruct (mode g); auto; right; intros [?|?]; done. }
  - left. by rewrite Hmh.
  - right. split; [done|]. unfold relax_distance.
    assert (config h = config g) as Hch by (unfold h; by gov). rewrite Hch in *.
    assert (recovery_streak h = u8_saturating_add (recovery_streak g) 1) as Hst
      by (unfold h; by rewrite count_recovery_streak).
    assert (cooldown_remaining h = saturating_sub (cooldown_remaining g) 1) as Hcl
      by (unfold h; by rewrite count_recovery_cooldown).
    rewrite Hst, Hcl in *. unfold u8_saturating_add, saturating_add, saturating_sub, u8_max in *. lia.
Qed.

Lemma relax_keeps_inputs c g : recovered_inputs c g → recovered_inputs c (relax true g).
Proof.
  intros [H1 H2 H3 H4]. pose proof (relax_relaxed true g) as Hr.
  split; (erewrite relaxed_frame; [..|exact Hr]); try done; intros; gov; done.
Qed.

(** One healthy report in the relaxation stage. *)
Lemma healthy_step c p g :
  healthy c p → config_typed c → counters_ok c g → recovered_inputs c g →
  let g' := report_system_pressure p g in
  recovered_inputs c g' ∧
  (relaxed_mode (mode g') ∨ (¬ relaxed_mode (mode g) ∧ (1 ≤ relax_distance g' ≤ relax_distance g - 1)%Z)).
Proof.
  intros Hh (_ & Hrw & _) [Hc Hst Hcd Hin] [H1 H2 H3 H4] g'.
  set (h := with_pressure_streak 0 (with_pressure p true g)).
  assert (g' = relax true h) as ->.
  { unfold g', report_system_pressure, tick_interactive. simpl. rewrite H4. simpl.
    unfold evaluate. simpl. rewrite H2. by apply (healthy_evaluate_available c p). }
  split; [apply relax_keeps_inputs; by split|].
  destruct (relax_step h) as [|[Hm Hd]]; [simpl; rewrite Hc; lia|simpl; lia|by left|right]. done.
Qed.

Definition healthy_reports (n : nat) (p : SystemPressure) : list report :=
  replicate n (ReportSystemPressure p).

Lemma healthy_reports_app n m p g :
  apply_reports (healthy_reports (n + m) p) g
  = apply_reports (healthy_reports m p) (apply_reports (healthy_reports n p) g).
Proof. unfold healthy_reports, apply_reports. by rewrite replicate_add, foldl_app. Qed.

Lemma healthy_relaxes c p n g :
  healthy c p → config_typed c → counters_ok c g → recovered_inputs c g →
  relaxed_mode (mode g) ∨ (relax_distance g ≤ Z.of_nat n)%Z → 0 < n →
  relaxed_mode (mode (apply_reports (healthy_reports n p) g)).
Proof.
  intros Hh Hc. revert g. induction n as [|n IH]; intros g Hct Hri Hd Hn; [lia|].
  destruct (healthy_step c p g Hh Hc Hct Hri) as [Hri' Hstep].
  change (relaxed_mode (mode (apply_reports (healthy_reports n p) (report_system_pressure p g)))).
  destruct (decide (n = 0)) as [->|Hn0].
  - simpl. destruct Hstep as [|[Hm Hle]]; [done|]. destruct Hd; [done|lia].
  - apply IH; [|done| |lia].
    + apply (counters_report c Hc (ReportSystemPressure p) g Hct).
    + destruct Hstep as [|[Hm Hle]]; [by left|right]. destruct Hd; [done|lia].
Qed.

(** ** Before that: telemetry and the interactive hold *)

Definition settle_distance (g : ResourceGovernor) : Z :=
  Z.max (interactive_remaining g)
    (if resource_recovery_required g then Z.max 1 (recovery_windows (config g) - recovery_streak g) else 0).

Lemma settle_step c p g :
  config_typed c → counters_ok c g → user_active (workload g) = false →
  let g' := report_system_pressure p g in
  user_active (workload g') = false ∧ (settle_distance g' ≤ Z.max 0 (settle_distance g - 1))%Z.
Proof.
  intros (_ & Hrw & _) [Hc Hst Hcd Hin] Hu g'.
  unfold g', report_system_pressure. set (h := tick_interactive (with_pressure p true g)).
  assert (config h = c ∧ resource_available h = true
    ∧ resource_recovery_required h = resource_recovery_required g
    ∧ workload h = workload g ∧ recovery_streak h = recovery_streak g
    ∧ interactive_remaining h = Z.max 0 (interactive_remaining g - 1)) as (E1 & E2 & E3 & E4 & E5 & E6).
  { unfold h. gov. split_and!; try done. unfold tick_interactive. simpl. case_decide; simpl; lia. }
  split; [by rewrite evaluate_workload, E4|]. unfold settle_distance. rewrite evaluate_interactive, E6.
  rewrite evaluate_config, E1, Hc.
  destruct (resource_recovery_required g) eqn:Hq.
  - unfold evaluate. rewrite E2, E3. simpl. rewrite count_recovery_config, count_recovery_streak, E1, E5.
    unfold u8_saturating_add, saturating_add, u8_max in *. case_decide.
    + gov. rewrite E3, count_recovery_streak, E5.
      unfold u8_saturating_add, saturating_add, u8_max. lia.
    + erewrite evaluated_required; [|apply evaluate_available_evaluated]. gov. lia.
  - assert (resource_recovery_required (evaluate true h) = false) as ->; [|lia].
    destruct (resource_recovery_required (evaluate true h)) eqn:He; [|done].
    apply evaluate_required in He as [[_ ?]|[? _]]; congruence.
Qed.

Lemma settles c p n g :
  config_typed c → counters_ok c g → user_active (workload g) = false →
  (settle_distance g ≤ Z.of_nat n)%Z →
  recovered_inputs c (apply_reports (healthy_reports n p) g).
Proof.
  intros Hc. revert g. induction n as [|n IH]; intros g Hct Hu Hd.
  - destruct Hct as [Hcg _ _ Hin]. simpl. unfold settle_distance in Hd.
    destruct (resource_recovery_required g) eqn:Hq; [lia|]. split; try done. lia.
  - destruct (settle_step c p g Hc Hct Hu) as [Hu' Hd'].
    change (recovered_inputs c (apply_reports (healthy_reports n p) (report_system_pressure p g))).
    apply IH; [|done|lia]. apply (counters_report c Hc (ReportSystemPressure p) g Hct).
Qed.

(** * Properties *)

(** After the caller reports that no trusted observation is
    available, whatever is reported next, background work stays paused in pressure mode until at
    least the configured number of recovery windows has been counted. *)
Theorem telemetry_loss_fails_closed (g : ResourceGovernor) (es : list report) :
  (Z.of_nat (windows es) < recovery_windows (config g))%Z →
  let g' := apply_reports es (report_resource_unavailable g) in
  mode g' = Pressure ∧ background_paused (get_indexing_budget g') = true
  ∧ maximum_batches (get_indexing_budget g') = 0%Z.
Proof.
  intros Hn g'. assert (recovering (config g) (0 + Z.of_nat (windows es)) g') as [_ _ Hm _].
  { apply reports_recovering; [|lia|lia]. unfold report_resource_unavailable. split; gov; done. }
  unfold get_indexing_budget. by rewrite Hm.
Qed.

(** From any governor that reports have
    produced, announcing a request pauses background work, and it stays paused until the configured
    number of hold windows has been counted, as long as telemetry is not lost meanwhile. *)
Theorem interactive_request_pauses (c : GovernorConfig) (before es : list report) :
  let g := apply_reports before (ResourceGovernor_new c) in
  ReportResourceUnavailable ∉ es →
  (Z.of_nat (windows es) < interactive_hold_windows (config g))%Z →
  background_paused (get_indexing_budget (apply_reports es (begin_interactive_request g))) = true.
Proof.
  intros g Hne Hn.
  assert (protected (config g) (0 + Z.of_nat (windows es)) (apply_reports es (begin_interactive_request g)))
    as [_ _ Hm _].
  { apply reports_protected; [|done|lia|lia]. apply begin_protected, apply_reports_ok, governor_ok_new. }
  unfold get_indexing_budget. by destruct Hm as [-> | ->].
Qed.

(** What boosting takes: background work is boosted only by a report after which the user is
    known to be idle, a backlog exists, external power is connected, telemetry is trusted, no
    resource is under pressure, the energy saver is off and no foreground activity is held. *)
Theorem idle_boost_entry (g : ResourceGovernor) (e : report) :
  mode g ≠ IdleBoost → mode (apply_report e g) = IdleBoost →
  calm (apply_report e g) ∧ boost_allowed (apply_report e g).
Proof.
  intros Hn Hm. destruct e; simpl in *.
  - exfalso. revert Hm. unfold begin_interactive_request. simpl. destruct (_ && _); gov; done.
  - exfalso. revert Hm. unfold report_search_latency. simpl. destruct (_ || _); gov; done.
  - apply evaluate_boosts; [|done]. by gov.
  - unfold report_resource_unavailable in Hm. by gov.
  - exfalso. revert Hm. unfold report_workload. simpl. destruct (_ && _ && _); gov; done.
  - exfalso. revert Hm. unfold report_backlog. simpl. destruct (_ && _); gov; done.
  - revert Hm. unfold report_user_idle_duration. simpl. destruct (_ && _); gov; [done|].
    intros Hm. by apply evaluate_boosts.
  - apply evaluate_boosts; [|done]. by gov.
Qed.

(** A report moves a restrained governor that is not recovering
    telemetry to a relaxed mode only if the healthy streak reaches the configured number of windows,
    the cooldown is over, and nothing asks for restraint. *)
Theorem relaxation_needs_hysteresis (c : GovernorConfig) (before : list report) (e : report) :
  let g := apply_reports before (ResourceGovernor_new c) in
  config_typed c → resource_recovery_required g = false → ¬ relaxed_mode (mode g) →
  relaxed_mode (mode (apply_report e g)) →
  (recovery_windows c ≤ recovery_streak g + 1)%Z ∧ (cooldown_remaining g ≤ 1)%Z
  ∧ calm (apply_report e g).
Proof.
  intros g Hc Hq Hn Hm.
  assert (counters_ok c g) as [Hcg _ [H0 _] _] by (apply counters_reports; [done|by apply counters_new]).
  rewrite <-Hcg.
  assert (∀ w h, config h = config g → recovery_streak h = recovery_streak g →
    cooldown_remaining h = cooldown_remaining g → mode h = mode g →
    resource_recovery_required h = resource_recovery_required g →
    relaxed_mode (mode (evaluate w h)) → (recovery_windows (config g) ≤ recovery_streak g + 1)%Z
    ∧ (cooldown_remaining g ≤ 1)%Z ∧ calm (evaluate w h)) as Hgo.
  { intros w h E1 E2 E3 E4 E5 Hr. rewrite <-E1, <-E2, <-E3. apply evaluate_relaxes; congruence. }
  destruct e; simpl in *.
  - exfalso. revert Hm. unfold begin_interactive_request. simpl. destruct (_ && _); gov; [by intros [?|?]|done].
  - exfalso. revert Hm. unfold report_search_latency. simpl. destruct (_ || _); gov; [done|by intros [?|?]].
  - apply Hgo; gov; done.
  - unfold report_resource_unavailable in Hm. gov. by destruct Hm.
  - exfalso. revert Hm. unfold report_workload. simpl. destruct (_ && _ && _); gov; [by intros [?|?]|done].
  - exfalso. revert Hm. unfold report_backlog. simpl. destruct (bool_decide (n = 0%Z)); simpl; [|done].
    case_bool_decide as Hi; [|done]. destruct Hn. by right.
  - revert Hm. unfold report_user_idle_duration. simpl. destruct (negb _); simpl; [|by apply Hgo].
    case_bool_decide as Hi; [destruct Hn; by right|by apply Hgo].
  - apply Hgo; gov; done.
Qed.

(** Critical memory pauses at once: a system report whose available memory is at or below the
    critical threshold leaves the governor in pressure mode, whatever its state was. *)
Theorem critical_memory_pauses (g : ResourceGovernor) (p : SystemPressure) (available : Z) :
  available_memory_basis_points p = Some available →
  (available ≤ critical_memory_basis_points (config g))%Z →
  mode (report_system_pressure p g) = Pressure
  ∧ background_paused (get_indexing_budget (report_system_pressure p g)) = true.
Proof.
  intros Hp Hle. assert (mode (report_system_pressure p g) = Pressure) as Hm.
  { unfold report_system_pressure, evaluate. gov.
    assert (∀ h, config h = config g → pressure h = p → mode (evaluate_available true h) = Pressure) as Hav.
    { intros h Hc Hph. unfold evaluate_available. rewrite Hph, Hp, Hc. simpl.
      rewrite bool_decide_eq_true_2 by done. apply transition_mode. }
    destruct (resource_recovery_required g); [|apply Hav; by gov].
    case_decide; [apply transition_mode|]. apply Hav; by gov. }
  unfold get_indexing_budget. by rewrite Hm.
Qed.

(** The transition counter: along any sequence of reports the counter never falls, stays
    within u64, and is strictly larger after a sequence that ends in another mode, unless it has
    saturated. *)
Theorem transition_sequence_monotone (g : ResourceGovernor) (es : list report) :
  in_u64 (transition_sequence g) →
  let g' := apply_reports es g in
  (transition_sequence g ≤ transition_sequence g')%Z ∧ in_u64 (transition_sequence g')
  ∧ (mode g' ≠ mode g →
     transition_sequence g < transition_sequence g' ∨ transition_sequence g' = u64_max)%Z.
Proof.
  intros Hg. change (seq_le g (apply_reports es g)). unfold apply_reports.
  assert (∀ h, seq_le g h → seq_le g (foldl (λ g e, apply_report e g) h es)) as Hgo;
    [|by apply Hgo, seq_le_refl].
  induction es as [|e es IH]; intros h Hh; simpl; [done|]. apply IH.
  destruct (report_seq_le e h) as (H1 & H2 & H3); [apply Hh|]. destruct Hh as (H4 & H5 & H6).
  split; [lia|]. split; [done|]. intros Hne. destruct (decide (mode (apply_report e h) = mode h)) as [Heq|Hd].
  - rewrite Heq in Hne. destruct (H6 Hne); [lia|]. unfold in_u64 in *. lia.
  - destruct (H3 Hd); [lia|by right].
Qed.

(** Recovery is reached: from any governor that reports have produced, with no foreground
    activity reported, a bounded number of healthy system reports in a row leads to a relaxed mode
    that admits background work. *)
Theorem healthy_reports_resume_work (c : GovernorConfig) (before : list report) (p : SystemPressure)
  (n : nat) :
  let g := apply_reports before (ResourceGovernor_new c) in
  config_typed c → healthy c p → user_active (workload g) = false →
  (interactive_hold_windows c + 2 * recovery_windows c + cooldown_windows c + 2 ≤ Z.of_nat n)%Z →
  let g' := apply_reports (replicate n (ReportSystemPressure p)) g in
  (mode g' = Balanced ∨ mode g' = IdleBoost) ∧ background_paused (get_indexing_budget g') = false.
Proof.
  intros g Hc Hh Hu Hn g'.
  assert (counters_ok c g) as Hct by (apply counters_reports; [done|by apply counters_new]).
  pose proof Hc as (Hc1 & Hc2 & Hc3).
  set (n1 := Z.to_nat (interactive_hold_windows c + recovery_windows c + 1)).
  assert (Z.of_nat n1 = interactive_hold_windows c + recovery_windows c + 1)%Z as Hn1 by (unfold n1; lia).
  assert (settle_distance g ≤ Z.of_nat n1)%Z as Hs.
  { destruct Hct as [Hcg Hr Hcd Hi]. unfold settle_distance. rewrite Hcg.
    destruct (resource_recovery_required g); lia. }
  assert (relaxed_mode (mode g')) as Hm.
  { unfold g'. change (replicate n (ReportSystemPressure p)) with (healthy_reports n p).
    replace n with (n1 + (n - n1)) by lia. rewrite healthy_reports_app.
    assert (counters_ok c (apply_reports (healthy_reports n1 p) g)) as Hct2 by (by apply counters_reports).
    eapply healthy_relaxes; [exact Hh|done|exact Hct2|by apply settles| |lia].
    right. destruct Hct2 as [Hcg Hr Hcd Hi]. unfold relax_distance. rewrite Hcg. lia. }
  split; [exact Hm|]. unfold get_indexing_budget. by destruct Hm as [-> | ->].
Qed.

(** Memory share: the available-memory share derived from a resource snapshot is always
    between 0 and 10,000 basis points, is known exactly when both sizes are known and the total is
    not zero, and never grows when less memory is available. *)
Theorem memory_basis_points_spec (total available available' : Z) :
  in_u64 total → in_u64 available → (available' ≤ available)%Z → (0 ≤ available')%Z →
  match memory_basis_points (Some total) (Some available),
        memory_basis_points (Some total) (Some available') with
  | Some bp, Some bp' => total ≠ 0%Z ∧ (0 ≤ bp' ≤ bp)%Z ∧ (bp ≤ 10000)%Z
  | None, None => total = 0%Z
  | _, _ => False
  end.
Proof.
  intros [Ht _] [Ha _] Hle H0. unfold memory_basis_points. destruct (decide (total = 0%Z)) as [|Hne]; [done|].
  assert (∀ a, (0 ≤ a)%Z → (0 ≤ Z.min a total * 10000 / total ≤ 10000)%Z) as Hr.
  { intros a Hap. split; [apply Z.div_pos; lia|]. apply Z.div_le_upper_bound; lia. }
  pose proof (Hr _ Ha) as Hra. pose proof (Hr _ H0) as Hra'. unfold u16_max.
  rewrite !decide_True by lia. split; [done|]. split; [|lia]. split; [lia|].
  apply Z.div_le_mono; lia.
Qed.

(** ** Witnesses *)

Definition sample_pressure (memory : Z) : SystemPressure :=
  MkSystemPressure (Some memory) (Some 100%Z) (Some 100%Z) PowerAc None false.
Definition started : ResourceGovernor := ResourceGovernor_new GovernorConfig_default.

Lemma default_config_typed : config_typed GovernorConfig_default.
Proof. unfold config_typed, u8_max. simpl. lia. Qed.

Lemma telemetry_loss_fails_closed_witness :
  mode (apply_reports [ReportSystemPressure (sample_pressure 9000); BeginInteractiveRequest; AdvanceWindow]
          (report_resource_unavailable started)) = Pressure.
Proof.
  apply (telemetry_loss_fails_closed started
    [ReportSystemPressure (sample_pressure 9000); BeginInteractiveRequest; AdvanceWindow]).
  vm_compute. reflexivity.
Defined.

Lemma interactive_request_pauses_witness :
  background_paused (get_indexing_budget (apply_reports [AdvanceWindow; ReportBacklog 5; AdvanceWindow]
    (begin_interactive_request started))) = true.
Proof.
  apply (interactive_request_pauses GovernorConfig_default [] [AdvanceWindow; ReportBacklog 5; AdvanceWindow]).
  - intros Hin. repeat (apply elem_of_cons in Hin as [Hin|Hin]; [discriminate Hin|]).
    by apply elem_of_nil in Hin.
  - vm_compute. reflexivity.
Defined.

(** Idle for long enough on external power, with a backlog, one window before the boost. *)
Definition about_to_boost : ResourceGovernor :=
  apply_reports ([ReportBacklog 7; ReportUserIdleDuration (Some 400000%Z)] ++
                 replicate 4 (ReportSystemPressure (sample_pressure 9000))) started.

Lemma idle_boost_entry_witness :
  boost_allowed (apply_report (ReportSystemPressure (sample_pressure 9000)) about_to_boost).
Proof.
  apply (idle_boost_entry about_to_boost (ReportSystemPressure (sample_pressure 9000))).
  - vm_compute. discriminate.
  - vm_compute. reflexivity.
Defined.

(** A governor in pressure mode with a full healthy streak but for one window. *)
Definition nearly_recovered : list report :=
  [ReportSystemPressure (sample_pressure 100); ReportSystemPressure (sample_pressure 9000);
   ReportSystemPressure (sample_pressure 9000); ReportSystemPressure (sample_pressure 9000);
   ReportSystemPressure (sample_pressure 9000)].

Lemma relaxation_needs_hysteresis_witness :
  calm (apply_report (ReportSystemPressure (sample_pressure 9000)) (apply_reports nearly_recovered started)).
Proof.
  apply (relaxation_needs_hysteresis GovernorConfig_default nearly_recovered
    (ReportSystemPressure (sample_pressure 9000))).
  - apply default_config_typed.
  - vm_compute. reflexivity.
  - intros [H|H]; vm_compute in H; discriminate H.
  - left. vm_compute. reflexivity.
Defined.

Lemma critical_memory_pauses_witness : mode (report_system_pressure (sample_pressure 500) started) = Pressure.
Proof.
  apply (critical_memory_pauses started (sample_pressure 500) 500).
  - reflexivity.
  - vm_compute. discriminate.
Defined.

Lemma transition_sequence_monotone_witness :
  in_u64 (transition_sequence (apply_reports [BeginInteractiveRequest] started)).
Proof.
  apply (transition_sequence_monotone started [BeginInteractiveRequest]).
  unfold in_u64, u64_max. simpl. lia.
Defined.

Lemma healthy_reports_resume_work_witness :
  background_paused (get_indexing_budget (apply_reports
    (replicate 18 (ReportSystemPressure (sample_pressure 9000)))
    (apply_reports [ReportResourceUnavailable; BeginInteractiveRequest] started))) = false.
Proof.
  apply (healthy_reports_resume_work GovernorConfig_default
    [ReportResourceUnavailable; BeginInteractiveRequest] (sample_pressure 9000) 18).
  - apply default_config_typed.
  - unfold healthy. vm_compute. repeat split; discriminate.
  - reflexivity.
  - vm_compute. discriminate.
Defined.

Lemma memory_basis_points_spec_witness :
  memory_basis_points (Some 4000%Z) (Some 1000%Z) = Some 2500%Z ∧ (2000 ≤ 2500)%Z.
Proof.
  split; [reflexivity|].
  assert (in_u64 4000 ∧ in_u64 1000) as [H1 H2] by (unfold in_u64, u64_max; lia).
  destruct (memory_basis_points_spec 4000 1000 800 H1 H2) as (_ & Hb & _); [lia|lia|].
  exact (proj2 Hb).
Defined.
