(* ===== verification/Text.v ===== *)
(** Search text ([crates/catalog-index/src/index.rs], from [normalize] to [grams]; the agent's
    [service.rs] has the same [normalize] and [tokens]).

    A Rust string is its UTF-8 bytes; [chars] decodes them.  The Unicode tables ([nfkc] of the
    unicode-normalization crate, [char::to_lowercase], [char::is_alphanumeric]) are parameters. *)
From Stdlib Require Import Ascii String.
From stdpp Require Import base strings numbers list.
From S2P Require Import Prelude.

(** Text as Unicode scalar values. *)
Abbreviation text := (list N).

(** ** UTF-8 *)

(** [str::chars]: the bytes of a string are valid UTF-8, so continuation bytes need no check. *)
Fixpoint utf8_decode (bytes : list N) : text :=
  match bytes with
  | [] => []
  | b0 :: rest =>
      if (b0 <? 0x80)%N then b0 :: utf8_decode rest
      else
        match rest with
        | [] => []
        | b1 :: rest =>
            let c1 := N.lor (N.shiftl (N.land b0 0x1f) 6) (N.land b1 0x3f) in
            if (b0 <? 0xe0)%N then c1 :: utf8_decode rest
            else
              match rest with
              | [] => []
              | b2 :: rest =>
                  let tail := N.lor (N.shiftl (N.land b1 0x3f) 6) (N.land b2 0x3f) in
                  if (b0 <? 0xf0)%N then N.lor (N.shiftl (N.land b0 0xf) 12) tail :: utf8_decode rest
                  else
                    match rest with
                    | [] => []
                    | b3 :: rest =>
                        N.lor (N.shiftl (N.land b0 0x7) 18)
                          (N.lor (N.shiftl tail 6) (N.land b3 0x3f)) :: utf8_decode rest
                    end
              end
        end
  end.

Definition string_bytes (s : string) : list N := N_of_ascii <$> list_ascii_of_string s.
Definition chars (s : string) : text := utf8_decode (string_bytes s).

(** The UTF-8 bytes of a character, and the string of a text. *)
Definition encode_char (c : N) : list N :=
  if (c <? 0x80)%N then [c]
  else if (c <? 0x800)%N then [N.lor 0xc0 (N.shiftr c 6); N.lor 0x80 (N.land c 0x3f)]
  else if (c <? 0x10000)%N then
    [N.lor 0xe0 (N.shiftr c 12); N.lor 0x80 (N.land (N.shiftr c 6) 0x3f); N.lor 0x80 (N.land c 0x3f)]
  else
    [N.lor 0xf0 (N.shiftr c 18); N.lor 0x80 (N.land (N.shiftr c 12) 0x3f);
     N.lor 0x80 (N.land (N.shiftr c 6) 0x3f); N.lor 0x80 (N.land c 0x3f)].
Definition string_of_text (t : text) : string :=
  string_of_list_ascii (ascii_of_N <$> (t ≫= encode_char)).

Lemma string_bytes_inj a b : string_bytes a = string_bytes b → a = b.
Proof.
  unfold string_bytes. intros H.
  rewrite <-(string_of_list_ascii_of_string a), <-(string_of_list_ascii_of_string b). f_equal.
  revert H. generalize (list_ascii_of_string b). induction (list_ascii_of_string a) as [|x l IH];
    intros [|y k]; simpl; try done. intros [= Hxy Hlk]. f_equal; [|by apply IH].
  by rewrite <-(ascii_N_embedding x), Hxy, ascii_N_embedding.
Qed.

(** [char::len_utf8] and the byte length of a text. *)
Definition len_utf8 (c : N) : nat :=
  if (c <? 0x80)%N then 1 else if (c <? 0x800)%N then 2 else if (c <? 0x10000)%N then 3 else 4.
Definition byte_length (t : text) : nat := sum_list (len_utf8 <$> t).

(** ** Unicode tables *)

Class TextEnv := {
  nfkc : text → text;
  char_to_lowercase : N → text;
  is_alphanumeric : N → bool }.

(** Lower-case letters are their own lower case, and a space is no letter or digit. *)
Class TextLaws (T : TextEnv) := {
  lowercase_fixed c c' : c' ∈ char_to_lowercase c → char_to_lowercase c' = [c'];
  space_separates : is_alphanumeric 32 = false }.

Section text.
Context `{T : TextEnv}.
Implicit Types (t : text).

Definition to_lower t : text := t ≫= char_to_lowercase.

Definition normalize t : text := to_lower (nfkc t).

(** ** Splitting *)

(** [str::split] at the characters that satisfy a predicate; the pieces may be empty. *)
Fixpoint split_at (sep : N → bool) t : list text :=
  match t with
  | [] => [[]]
  | c :: t =>
      if sep c then [] :: split_at sep t
      else match split_at sep t with
           | [] => [[c]]
           | w :: ws => (c :: w) :: ws
           end
  end.

Definition nonempty t : bool := match t with [] => false | _ :: _ => true end.

(** [tokens]: the maximal runs of letters and digits. *)
Definition tokens t : list text :=
  filter (λ w, nonempty w = true) (split_at (λ c, negb (is_alphanumeric c)) t).

(** [prefixes]: the leading parts of 1 up to [maximum_length] characters. *)
Definition prefixes t (maximum_length : nat) : list text :=
  (λ n, take n t) <$> seq 1 (length t `min` maximum_length).

(** [grams]: the windows of a given width. *)
Definition grams t (width : nat) : list text :=
  (λ i, take width (drop i t)) <$> seq 0 (length t + 1 - width).

(** [join] with a space. *)
Fixpoint join (ws : list text) : text :=
  match ws with
  | [] => []
  | [w] => w
  | w :: ws => w ++ 32%N :: join ws
  end.

(** Only letters and digits. *)
Definition word t : Prop := Forall (λ c, is_alphanumeric c = true) t.
Global Instance word_dec t : Decision (word t).
Proof. unfold word. apply _. Defined.

(** Text that lower-casing leaves alone. *)
Definition lowered t : Prop := Forall (λ c, char_to_lowercase c = [c]) t.

(** ** Lemmas *)

Lemma to_lower_lowered t : lowered t → to_lower t = t.
Proof. induction 1 as [|c t Hc _ IH]; [done|]. unfold to_lower in *. csimpl. by rewrite Hc, IH. Qed.

Lemma normalize_lowered `{!TextLaws T} t : lowered (normalize t).
Proof.
  apply Forall_forall. intros c (c' & Hc & _)%list_elem_of_bind. by eapply lowercase_fixed.
Qed.

Lemma split_at_sep sep a c b :
  sep c = true → split_at sep (a ++ c :: b) = split_at sep a ++ split_at sep b.
Proof.
  intros Hc. induction a as [|x a IH]; simpl; [by rewrite Hc|].
  rewrite IH. destruct (sep x); [done|]. destruct a as [|y a]; simpl; [done|].
  destruct (sep y); [done|]. by destruct (split_at sep a).
Qed.

Lemma split_at_word sep t : Forall (λ c, sep c = false) t → split_at sep t = [t].
Proof. induction 1 as [|c t Hc _ IH]; [done|]. simpl. by rewrite Hc, IH. Qed.

Lemma split_at_pieces sep t w : w ∈ split_at sep t → Forall (λ c, sep c = false ∧ c ∈ t) w.
Proof.
  revert w. induction t as [|c t IH]; intros w; simpl.
  { intros ->%list_elem_of_singleton. constructor. }
  assert (∀ w, w ∈ split_at sep t → Forall (λ x, sep x = false ∧ x ∈ c :: t) w) as IH'.
  { intros w' Hw. eapply Forall_impl; [by apply IH|]. intros x [? ?]. split; [done|by right]. }
  destruct (sep c) eqn:Hc.
  - intros [->|Hw]%elem_of_cons; [constructor|by apply IH'].
  - destruct (split_at sep t) as [|w0 ws] eqn:Hs.
    + intros ->%list_elem_of_singleton. repeat constructor; done.
    + intros [->|Hw]%elem_of_cons.
      * constructor; [split; [done|left]|]. apply IH'. left.
      * apply IH'. by right.
Qed.

Lemma tokens_sep a c b :
  is_alphanumeric c = false → tokens (a ++ c :: b) = tokens a ++ tokens b.
Proof. intros Hc. unfold tokens. rewrite split_at_sep, filter_app by (by rewrite Hc). done. Qed.

Lemma tokens_word t : word t → t ≠ [] → tokens t = [t].
Proof.
  intros Hw Hne. unfold tokens. rewrite split_at_word.
  - by destruct t.
  - eapply Forall_impl; [exact Hw|]. simpl. by intros c ->.
Qed.

Lemma tokens_nil : tokens [] = [].
Proof. done. Qed.

Lemma elem_of_tokens t w : w ∈ tokens t → word w ∧ w ≠ [] ∧ ∀ c, c ∈ w → c ∈ t.
Proof.
  unfold tokens. rewrite list_elem_of_filter. intros [Hne Hw%split_at_pieces].
  split; [|split; [by intros ->|]].
  - eapply Forall_impl; [exact Hw|]. simpl. intros c [Hc _]. by apply negb_false_iff in Hc.
  - intros c Hc. rewrite Forall_forall in Hw. by apply Hw.
Qed.

Lemma tokens_join `{!TextLaws T} ws : tokens (join ws) = ws ≫= tokens.
Proof.
  induction ws as [|w ws IH]; [done|]. destruct ws as [|w' ws]; csimpl; [by rewrite app_nil_r|].
  rewrite tokens_sep by apply space_separates. f_equal. exact IH.
Qed.

Lemma tokens_join_words `{!TextLaws T} ws :
  Forall (λ w, word w ∧ w ≠ []) ws → tokens (join ws) = ws.
Proof.
  intros Hws. rewrite tokens_join. induction Hws as [|w ws [Hw Hne] _ IH]; csimpl; [done|].
  rewrite tokens_word, IH by done. done.
Qed.

Lemma prefixes_spec t n p :
  p ∈ prefixes t n ↔ p `prefix_of` t ∧ p ≠ [] ∧ length p ≤ n.
Proof.
  unfold prefixes. rewrite list_elem_of_fmap. split.
  - intros (k & -> & Hk%elem_of_seq). split; [by exists (drop k t); rewrite take_drop|].
    rewrite length_take. split; [|lia]. intros Hnil%(f_equal length). rewrite length_take in Hnil.
    simpl in Hnil. lia.
  - intros ([b ->] & Hne & Hn). exists (length p). rewrite take_app_length. split; [done|].
    apply elem_of_seq. rewrite length_app. assert (length p ≠ 0) by (by destruct p). lia.
Qed.

(** ** Trigrams

    The trigram field holds the windows of the name separated by spaces and is tokenised again:
    a window with a separator in it contributes its shorter pieces instead. *)

Definition infix {A} (xs ys : list A) : Prop := ∃ a b, ys = a ++ xs ++ b.

(** The terms of the trigram field. *)
Definition gram_terms t : list text := grams t 3 ≫= tokens.

Lemma grams_short t : length t < 3 → grams t 3 = [].
Proof. intros Hl. unfold grams. by replace (length t + 1 - 3) with 0 by lia. Qed.

Lemma grams_cons c t : 3 ≤ length (c :: t) → grams (c :: t) 3 = take 3 (c :: t) :: grams t 3.
Proof.
  intros Hl. unfold grams. replace (length (c :: t) + 1 - 3) with (S (length t + 1 - 3)) by (simpl in *; lia).
  simpl. rewrite <-fmap_S_seq, <-list_fmap_compose. done.
Qed.

Lemma gram_terms_short t : length t < 3 → gram_terms t = [].
Proof. intros Hl. unfold gram_terms. by rewrite grams_short. Qed.

Lemma gram_terms_cons c t :
  3 ≤ length (c :: t) → gram_terms (c :: t) = tokens (take 3 (c :: t)) ++ gram_terms t.
Proof. intros Hl. unfold gram_terms. by rewrite grams_cons by done. Qed.

Lemma grams_length t g : g ∈ grams t 3 → length g = 3.
Proof.
  unfold grams. intros (i & -> & Hi%elem_of_seq)%list_elem_of_fmap.
  rewrite length_take, length_drop. lia.
Qed.

(** The pieces of a text are shorter than it, unless it is a word. *)
Lemma split_at_length sep t w : w ∈ split_at sep t → length w ≤ length t.
Proof.
  revert w. induction t as [|c t IH]; intros w; simpl.
  { intros ->%list_elem_of_singleton. done. }
  destruct (sep c); [intros [->|Hw]%elem_of_cons; simpl; [lia|apply IH in Hw; lia]|].
  destruct (split_at sep t) as [|w0 ws]; [intros ->%list_elem_of_singleton; simpl; lia|].
  intros [->|Hw]%elem_of_cons; simpl.
  - specialize (IH w0 (list_elem_of_here _ _)). lia.
  - specialize (IH w (list_elem_of_further _ _ _ Hw)). lia.
Qed.

Lemma split_at_full sep t w :
  w ∈ split_at sep t → length w = length t → Forall (λ c, sep c = false) t ∧ w = t.
Proof.
  revert w. induction t as [|c t IH]; intros w; simpl.
  { intros ->%list_elem_of_singleton. done. }
  pose proof (split_at_length sep t) as Hlen. destruct (sep c) eqn:Hc.
  { intros [->|Hw]%elem_of_cons; simpl; [done|]. apply Hlen in Hw. lia. }
  destruct (split_at sep t) as [|w0 ws].
  - intros ->%list_elem_of_singleton Hl. destruct t; [|done]. by repeat constructor.
  - intros [->|Hw]%elem_of_cons Hl; simpl in *.
    + destruct (IH w0) as [Ht ->]; [left|lia|]. by split; [constructor|].
    + specialize (Hlen w (list_elem_of_further _ _ _ Hw)). lia.
Qed.

Lemma tokens_full t w : w ∈ tokens t → length w = length t → word t ∧ w = t.
Proof.
  unfold tokens. rewrite list_elem_of_filter. intros [_ Hw] Hl.
  destruct (split_at_full _ _ _ Hw Hl) as [Ht ->]. split; [|done].
  eapply Forall_impl; [exact Ht|]. simpl. intros c Hc. by apply negb_false_iff in Hc.
Qed.

Lemma tokens_head c t : is_alphanumeric c = true → tokens (c :: t) ≠ [].
Proof.
  intros Hc. unfold tokens. simpl. rewrite Hc. simpl.
  destruct (split_at (λ x, negb (is_alphanumeric x)) t); by rewrite filter_cons_True.
Qed.

Lemma grams_head t : 3 ≤ length t → ∃ gs, grams t 3 = take 3 t :: gs.
Proof. destruct t as [|c t]; [simpl; lia|]. intros Hl. rewrite grams_cons by done. eauto. Qed.

Lemma gram_terms_nonempty t x xs : gram_terms t = x :: xs → 3 ≤ length t.
Proof. destruct (decide (length t < 3)); [|lia]. by rewrite gram_terms_short. Qed.

(** A word at the start of a text that continues with letters is one of the terms. *)
Lemma gram_terms_step c t x xs :
  word (take 3 (c :: t)) → gram_terms t = x :: xs → length x = 3 → word (take 3 t).
Proof.
  intros Hw Hg Hx. pose proof (gram_terms_nonempty _ _ _ Hg) as Hl. destruct t as [|d t]; [done|].
  rewrite gram_terms_cons in Hg by done.
  assert (is_alphanumeric d = true) as Hd.
  { apply Forall_cons in Hw as [_ Hw]. by apply Forall_cons in Hw as [? _]. }
  destruct (tokens (take 3 (d :: t))) as [|y ys] eqn:Ht; [by apply tokens_head in Ht|].
  rewrite <-app_comm_cons in Hg. injection Hg as -> _.
  apply (tokens_full _ x); [rewrite Ht; left|]. rewrite Hx, length_take. lia.
Qed.

Lemma gram_terms_prefix q t :
  grams q 3 `prefix_of` gram_terms t → 3 ≤ length q → word (take 3 t) → q `prefix_of` t ∧ word q.
Proof.
  revert t. induction q as [|c q IH]; intros t [b Hb] Hq Hw; [simpl in Hq; lia|].
  rewrite grams_cons in Hb by done. pose proof (gram_terms_nonempty _ _ _ Hb) as Ht.
  destruct t as [|d t]; [simpl in Ht; lia|]. rewrite gram_terms_cons in Hb by done.
  rewrite (tokens_word (take 3 (d :: t))) in Hb by done. simpl in Hb.
  injection Hb as <- Hpre Hb. destruct (decide (length q = 2)) as [H2|H2].
  - destruct q as [|c1 [|c2 [|]]]; simplify_eq/=. destruct t as [|? [|]]; simplify_eq/=.
    split; [|done]. by eexists.
  - simpl in Hq. destruct (grams_head q) as [gs Hgs]; [lia|]. rewrite Hgs in Hb.
    destruct (IH t) as [[r ->] Hwq].
    + exists b. by rewrite Hgs.
    + lia.
    + eapply gram_terms_step; [exact Hw|exact Hb|]. rewrite length_take. lia.
    + split; [by exists r|]. constructor; [|done]. by apply Forall_cons in Hw as [? _].
Qed.

Lemma gram_terms_sound q t :
  infix (grams q 3) (gram_terms t) → 3 ≤ length q → infix q t ∧ word q.
Proof.
  intros Hin Hq. destruct (grams_head q Hq) as [gs Hgs].
  induction t as [|c t IH].
  { destruct Hin as (a & b & Hab). rewrite Hgs in Hab. by destruct a. }
  assert (infix (grams q 3) (gram_terms t) → infix q (c :: t) ∧ word q) as Hskip.
  { intros Hin'. destruct (IH Hin') as [(a & b & ->) Hw]. split; [by exists (c :: a), b|done]. }
  destruct Hin as (a & b & Hab). pose proof Hab as Hne. destruct (gram_terms (c :: t)) as [|x xs] eqn:Hg.
  { rewrite Hgs in Hne. by destruct a. }
  pose proof (gram_terms_nonempty _ _ _ Hg) as Hl. rewrite <-Hg in Hab. clear x xs Hg Hne.
  pose proof Hab as Hsplit. rewrite gram_terms_cons in Hsplit by done.
  apply app_eq_inv in Hsplit as [(k & Ha & Hk)|(k & Ha & Hk)];
    [|apply Hskip; by exists k, b].
  destruct k as [|x k]; [apply Hskip; by exists [], b|].
  rewrite Hgs in Hk. injection Hk as <- Hk.
  destruct (tokens_full (take 3 (c :: t)) (take 3 q)) as [Hw Heq].
  { rewrite Ha. apply elem_of_app. right. left. }
  { rewrite !length_take. lia. }
  rewrite tokens_word in Ha by done. destruct a as [|y a]; [|by destruct a].
  destruct (gram_terms_prefix q (c :: t)) as [[r Hr] Hwq]; [by exists b|done|done|].
  split; [|done]. by exists [], r.
Qed.

Lemma gram_terms_complete q t : word q → infix q t → infix (grams q 3) (gram_terms t).
Proof.
  intros Hw (a & b & ->). induction a as [|c a IH]; simpl.
  - exists []. simpl.
    assert (∃ b', gram_terms (q ++ b) = grams q 3 ++ b') as [b' Hb']; [|by exists b'].
    induction Hw as [|c q Hc Hw IH]; [simpl; by eexists|]. destruct IH as [b' IH].
    destruct (decide (length (c :: q) < 3)); [rewrite grams_short by done; by eexists|].
    exists b'. rewrite grams_cons by lia. rewrite <-app_comm_cons, gram_terms_cons
      by (simpl; rewrite length_app; simpl in *; lia).
    rewrite IH, app_comm_cons, take_app_le by lia.
    rewrite tokens_word; [done| |done]. apply Forall_take. by constructor.
  - destruct (decide (length (c :: a ++ q ++ b) < 3)) as [Hs|Hs].
    + rewrite gram_terms_short by done. rewrite grams_short; [by exists [], []|].
      simpl in Hs. rewrite !length_app in Hs. lia.
    + rewrite gram_terms_cons by lia. destruct IH as (x & y & ->).
      exists (tokens (take 3 (c :: a ++ q ++ b)) ++ x), y. by rewrite <-app_assoc.
Qed.
End text.
