(* ===== verification/Catalog.v ===== *)
(** The materialised catalog ([crates/catalog-index/src/index.rs]): the indexed form of a document,
    the writer, the reader and the convergence fingerprint.

    Tantivy is a parameter ([Tantivy]) with its documented behaviour as laws ([TantivyLaws]): a
    writer starts from the committed documents, a delete removes what was added before it, a commit
    makes the result visible, a search returns matching documents up to its limit. *)
From stdpp Require Import base strings numbers gmap list sorting.
From S2P Require Import Prelude Ids Models GraphTables Text.

Definition CATALOG_SCHEMA_ID : string := "TANTIVY-SCHEMA-v1".

(** ** Schema *)

(** [Fields], with the two fields that only the content index has. *)
Inductive Field :=
| FDocumentId | FDocumentVersion | FPayload | FExactName
| FNameTokens | FNamePrefixes | FNameTrigrams | FPathTokens
| FContent | FContentHash.
Global Instance Field_eq_dec : EqDecision Field.
Proof. solve_decision. Defined.

(** [STRING] indexes the whole value as one term, [TEXT] its tokens with positions. *)
Inductive Indexing := NotIndexed | IndexString | IndexText.

(** [build_schema], and [schema] of the content index, which has the same options for the fields that
    both have: how a field is indexed and whether it is stored. *)
Definition build_schema (f : Field) : Indexing * bool :=
  match f with
  | FDocumentId => (IndexString, true)
  | FDocumentVersion => (NotIndexed, true)
  | FPayload => (NotIndexed, true)
  | FExactName => (IndexString, false)
  | FNameTokens => (IndexText, false)
  | FNamePrefixes => (IndexText, false)
  | FNameTrigrams => (IndexText, false)
  | FPathTokens => (IndexText, false)
  | FContent => (IndexText, false)
  | FContentHash => (IndexString, true)
  end.

Inductive CatalogQueryMode := Exact | Token | Prefix | Substring | Path.

Section document.
Context `{E : StoreEnv} `{T : TextEnv}.

(** A field value; JSON text is kept as the abstract [Json]. *)
Inductive Value := VText (t : text) | VU64 (n : Z) | VJson (j : Json).

Definition TantivyDocument : Type := list (Field * Value).

Definition get_first (f : Field) (d : TantivyDocument) : option Value :=
  snd <$> head (filter (λ p, p.1 = f) d).

(** [index_document]. *)
Definition index_document (document : CatalogDocument) : TantivyDocument :=
  let normalized_name := normalize (chars (cd_name document)) in
  let normalized_path := normalize (chars (cd_resolved_path document)) in
  let toks := tokens normalized_name in
  let prefixes := join (toks ≫= λ token, prefixes token 32) in
  let trigrams := join (grams normalized_name 3) in
  [ (FDocumentId, VText (display DocumentId (ci_document_id (cd_identity document))));
    (FDocumentVersion, VU64 (cd_document_version document));
    (FPayload, VJson (document_to_json document));
    (FExactName, VText normalized_name);
    (FNameTokens, VText (join toks));
    (FNamePrefixes, VText prefixes);
    (FNameTrigrams, VText trigrams);
    (FPathTokens, VText normalized_path) ].

(** What [Searcher::doc] gives back: the stored fields. *)
Definition stored_document (d : TantivyDocument) : TantivyDocument :=
  filter (λ p, (build_schema p.1).2 = true) d.

Definition document_id_from_link (document : CatalogDocument) : document_id :=
  ci_file_link_id (cd_identity document).
End document.

(** ** Queries *)

(** A query the engine parsed itself is known by the documents it matches. *)
Inductive Query `{E : StoreEnv} :=
| TermQuery (f : Field) (term : text)
| PhraseQuery (f : Field) (terms : list text)
| PrefixQuery (f : Field) (prefix : text)
| ShouldQuery (q1 q2 : Query)
| ParsedQuery (matching : TantivyDocument → bool)
| AllQuery.

(** ** The engine *)

Class Tantivy `{E : StoreEnv} := {
  TantivyError : Type;
  Index : Type;                        (* the files of an index directory *)
  IndexWriter : Type;
  (** The [default] tokenizer of TEXT fields: terms with their positions. *)
  analyze : text → list (nat * text);
  index_create : result TantivyError Index;
  index_writer : Index → Z → result TantivyError IndexWriter;
  delete_term : Field → text → IndexWriter → IndexWriter;
  add_document : TantivyDocument → IndexWriter → result TantivyError IndexWriter;
  writer_commit : IndexWriter → result TantivyError Index;
  (** The stamp a successful commit returns. *)
  commit_opstamp : IndexWriter → Z;
  (** Merging rewrites the directory and may fail. *)
  wait_merging : Index → Index * option TantivyError;
  (** Building a reader and loading the last commit. *)
  index_reader : Index → result TantivyError unit;
  search_index : Index → Query → nat → result TantivyError (list TantivyDocument);
  (** The weight of a query: for each segment its scorer's documents and whether they are alive. *)
  query_weight : Index → Query →
    result TantivyError (list (result TantivyError (list (bool * TantivyDocument))));
  count_index : Index → result TantivyError nat;
  (** The live documents of all segments. *)
  segment_documents : Index → result TantivyError (list TantivyDocument) }.

Section matching.
Context `{TV : Tantivy}.
Implicit Types (d : TantivyDocument).

(** The terms of a field with their positions. *)
Definition field_terms (f : Field) (v : Value) : list (nat * text) :=
  match v with
  | VText t =>
      match (build_schema f).1 with
      | IndexString => [(0, t)]
      | IndexText => analyze t
      | NotIndexed => []
      end
  | _ => []
  end.

Definition doc_terms (f : Field) d : list (nat * text) :=
  match get_first f d with Some v => field_terms f v | None => [] end.

Fixpoint query_matches (q : Query) d : Prop :=
  match q with
  | TermQuery f t => t ∈ (doc_terms f d).*2
  | PhraseQuery f ts => ∃ p, ∀ i t, ts !! i = Some t → (p + i, t) ∈ doc_terms f d
  | PrefixQuery f t => Exists (prefix t) (doc_terms f d).*2
  | ShouldQuery q1 q2 => query_matches q1 d ∨ query_matches q2 d
  | ParsedQuery matching => matching d = true
  | AllQuery => True
  end.
End matching.

(** The documents of a scorer that were not deleted. *)
Definition alive_documents `{E : StoreEnv} (ds : list (bool * TantivyDocument)) : list TantivyDocument :=
  (filter (λ p, p.1 = true) ds).*2.

(** The documented behaviour of the engine. *)
Class TantivyLaws `{TV : Tantivy} `{T : TextEnv} := {
  (** The committed live documents, and those a writer would commit. *)
  live : Index → list TantivyDocument;
  pending : IndexWriter → list TantivyDocument;
  (** Splits at what is no letter or digit, drops tokens of 40 bytes and more, lower-cases. *)
  analyze_spec t :
    analyze t = (λ p, (p.1, to_lower p.2)) <$>
      filter (λ p, byte_length p.2 < 40) (imap pair (tokens t));
  create_live i : index_create = Ok i → live i = [];
  writer_pending i heap w : index_writer i heap = Ok w → pending w ≡ₚ live i;
  delete_pending f t w :
    pending (delete_term f t w) ≡ₚ filter (λ d, t ∉ (doc_terms f d).*2) (pending w);
  add_pending d w w' : add_document d w = Ok w' → pending w' ≡ₚ d :: pending w;
  commit_live w i : writer_commit w = Ok i → live i ≡ₚ pending w;
  opstamp_u64 w : in_u64 (commit_opstamp w);
  merge_live i : live (wait_merging i).1 ≡ₚ live i;
  (** A search returns documents that match, all of them if they fit the limit. *)
  search_sound i q n ds : search_index i q n = Ok ds →
    length ds ≤ n ∧ ∃ rest, ds ++ rest ≡ₚ live i ∧ Forall (query_matches q) ds ∧
      (length ds < n → Forall (λ d, ¬ query_matches q d) rest);
  (** The live documents are spread over the segments; a scorer gives those that match. *)
  weight_spec i q segments : query_weight i q = Ok segments →
    ∃ parts, concat parts ≡ₚ live i ∧
      Forall2 (λ seg part, ∀ ds, seg = Ok ds → ∃ rest, alive_documents ds ++ rest ≡ₚ part ∧
        Forall (query_matches q) (alive_documents ds) ∧ Forall (λ d, ¬ query_matches q d) rest)
        segments parts;
  count_spec i n : count_index i = Ok n → n = length (live i);
  segments_spec i ds : segment_documents i = Ok ds → ds ≡ₚ live i }.

(** ** The catalog *)

Section catalog.
Context `{TV : Tantivy} `{T : TextEnv}.

Inductive CatalogIndexError :=
| CTantivy (e : TantivyError)
| CIo
| CSerialization
| CSchemaMismatch (found : string)
| CMissingField (f : string)
| CPoison (reason : string)
| CInvalidDocumentId (e : IdParseError)
| CShortSubstring.

(** A generation directory: the schema marker file and what [Index::open] makes of the files. *)
Record Generation := MkGeneration {
  gen_marker : option string;
  gen_index : result TantivyError Index }.

(** [CatalogIndex::open]. *)
Definition catalog_open (dir : option Generation) : result CatalogIndexError Index :=
  d ← ok_or dir CIo;
  found ← ok_or (gen_marker d) CIo;
  if decide (found = CATALOG_SCHEMA_ID) then map_err CTantivy (gen_index d)
  else Err (CSchemaMismatch found).

(** [CatalogIndex::create]: the directory afterwards and the result. *)
Definition catalog_create (dir : option Generation)
  : option Generation * result CatalogIndexError Index :=
  match dir with
  | Some _ => (dir, Err CIo)
  | None =>
      (Some (MkGeneration (Some CATALOG_SCHEMA_ID) index_create), map_err CTantivy index_create)
  end.

(** [CatalogIndex::writer]. *)
Definition catalog_writer (i : Index) (heap_bytes : Z) : result CatalogIndexError IndexWriter :=
  map_err CTantivy (index_writer i heap_bytes).

(** *** Writing *)

(** [CatalogWriter::delete]. *)
Definition writer_delete (id : document_id) (w : IndexWriter) : IndexWriter :=
  delete_term FDocumentId (display DocumentId id) w.

(** The poison check shared by [apply] and [add_current]. *)
Definition check_identity (document : CatalogDocument) : result CatalogIndexError unit :=
  ensure (bool_decide (ci_document_id (cd_identity document) = document_id_from_link document))
    (CPoison "document ID must be derived from the file-link ID").

(** [CatalogWriter::add_current]. *)
Definition add_current (document : CatalogDocument) (w : IndexWriter)
  : result CatalogIndexError IndexWriter :=
  check_identity document ;;
  map_err CTantivy (add_document (index_document document) w).

(** [CatalogWriter::apply]. *)
Definition writer_apply (m : IndexMutation) (w : IndexWriter)
  : result CatalogIndexError IndexWriter :=
  match m with
  | Upsert document =>
      check_identity document ;;
      map_err CTantivy (add_document (index_document document)
        (writer_delete (ci_document_id (cd_identity document)) w))
  | Delete id _ => Ok (writer_delete id w)
  end.

(** *** Reading one committed snapshot *)

(** The canonical payload of a search result. *)
Definition payload_document (d : TantivyDocument) : result CatalogIndexError CatalogDocument :=
  match get_first FPayload (stored_document d) with
  | Some (VJson j) => ok_or (document_from_json j) CSerialization
  | _ => Err (CMissingField "payload")
  end.

Fixpoint payload_documents (ds : list TantivyDocument)
  : result CatalogIndexError (list CatalogDocument) :=
  match ds with
  | [] => Ok []
  | d :: ds => x ← payload_document d; xs ← payload_documents ds; mret (x :: xs)
  end.

(** [CatalogReader::document_count]. *)
Definition document_count (i : Index) : result CatalogIndexError nat :=
  map_err CTantivy (count_index i).

(** [CatalogReader::document]. *)
Definition reader_document (i : Index) (id : document_id)
  : result CatalogIndexError (option CatalogDocument) :=
  ds ← map_err CTantivy (search_index i (TermQuery FDocumentId (display DocumentId id)) 1);
  match ds with
  | [] => mret None
  | d :: _ => x ← payload_document d; mret (Some x)
  end.

(** The query [candidate_addresses] builds. *)
Definition candidate_query (query : text) (mode : CatalogQueryMode)
  : result CatalogIndexError Query :=
  let normalized := normalize query in
  match mode with
  | Exact => Ok (TermQuery FExactName normalized)
  | Token => Ok (TermQuery FNameTokens normalized)
  | Prefix => Ok (TermQuery FNamePrefixes normalized)
  | Substring =>
      match grams normalized 3 with
      | [] => Err CShortSubstring
      | [t] => Ok (TermQuery FNameTrigrams t)
      | ts => Ok (PhraseQuery FNameTrigrams ts)
      end
  | Path => Ok (TermQuery FPathTokens normalized)
  end.

Definition candidate_addresses (i : Index) (query : text) (mode : CatalogQueryMode) (limit : nat)
  : result CatalogIndexError (list TantivyDocument) :=
  q ← candidate_query query mode;
  map_err CTantivy (search_index i q limit).

(** The identifier of a search result. *)
Definition result_id (d : TantivyDocument) : result CatalogIndexError document_id :=
  match get_first FDocumentId (stored_document d) with
  | Some (VText t) => map_err CInvalidDocumentId (from_str DocumentId t)
  | _ => Err (CMissingField "document_id")
  end.

Fixpoint result_ids (ds : list TantivyDocument) : result CatalogIndexError (list document_id) :=
  match ds with
  | [] => Ok []
  | d :: ds => x ← result_id d; xs ← result_ids ds; mret (x :: xs)
  end.

Definition search_candidates (i : Index) (query : text) (mode : CatalogQueryMode) (limit : nat)
  : result CatalogIndexError (list document_id) :=
  ds ← candidate_addresses i query mode limit; result_ids ds.

Definition search_candidate_documents (i : Index) (query : text) (mode : CatalogQueryMode)
  (limit : nat) : result CatalogIndexError (list CatalogDocument) :=
  ds ← candidate_addresses i query mode limit; payload_documents ds.

(** [CatalogReader::documents]. *)
Definition reader_documents (i : Index) : result CatalogIndexError (list CatalogDocument) :=
  count ← document_count i;
  ds ← map_err CTantivy (search_index i AllQuery count);
  payload_documents ds.
End catalog.

(** ** The convergence fingerprint *)

Record CatalogFingerprint := MkCatalogFingerprint {
  fp_documents : Z;
  fp_unique_documents : Z;
  fp_payload_hash_xor : Z;
  fp_payload_hash_sum : Z }.
Definition CatalogFingerprint_default : CatalogFingerprint := MkCatalogFingerprint 0 0 0 0.

(** [u64::wrapping_add]. *)
Definition u64_wrapping_add (a b : Z) : Z := ((a + b) mod 2 ^ 64)%Z.

Section fingerprint.
Context `{TV : Tantivy} `{T : TextEnv}.
(** [document_hash]: the default hasher over the JSON payload. *)
Context (document_hash : CatalogDocument → Z).

Definition add_desired (document : CatalogDocument) (f : CatalogFingerprint) : CatalogFingerprint :=
  let hash := document_hash document in
  MkCatalogFingerprint
    (saturating_add u64_max (fp_documents f) 1)
    (saturating_add u64_max (fp_unique_documents f) 1)
    (Z.lxor (fp_payload_hash_xor f) hash)
    (u64_wrapping_add (fp_payload_hash_sum f) hash).

Definition duplicate_documents (f : CatalogFingerprint) : Z :=
  saturating_sub (fp_documents f) (fp_unique_documents f).

(** The loop body of [CatalogReader::fingerprint], with the identities seen so far. *)
Definition fingerprint_step (acc : CatalogFingerprint * gset document_id)
  (document : CatalogDocument) : CatalogFingerprint * gset document_id :=
  let '(f, identities) := acc in
  let hash := document_hash document in
  let id := ci_document_id (cd_identity document) in
  (MkCatalogFingerprint
     (saturating_add u64_max (fp_documents f) 1)
     (if decide (id ∈ identities) then fp_unique_documents f
      else saturating_add u64_max (fp_unique_documents f) 1)
     (Z.lxor (fp_payload_hash_xor f) hash)
     (u64_wrapping_add (fp_payload_hash_sum f) hash),
   {[id]} ∪ identities).

Definition fingerprint (i : Index) : result (@CatalogIndexError E TV) CatalogFingerprint :=
  ds ← map_err CTantivy (segment_documents i);
  xs ← payload_documents ds;
  mret (foldl fingerprint_step (CatalogFingerprint_default, ∅) xs).1.
End fingerprint.
