(* ===== verification/KeyedIndex.v ===== *)
(** An index whose documents carry an identifier term, as a finite map: what deleting by the term,
    adding and searching do to the map.  The catalog and the content index are both such indexes. *)
From stdpp Require Import base strings numbers gmap list sorting.
From S2P Require Import Prelude Ids Models GraphTables Text Catalog.

Section keyed.
Context `{TV : Tantivy} `{T : TextEnv} `{TL : !TantivyLaws}.
(** The indexed form of a value, and its identifier. *)
Context {V : Type} (to_doc : V → TantivyDocument) (key_of : V → document_id).
Context (Hterm : ∀ v, (doc_terms FDocumentId (to_doc v)).*2 = [display DocumentId (key_of v)]).
Implicit Types (m : gmap document_id V) (l : list TantivyDocument).

Definition keyed_ok m : Prop := ∀ d v, m !! d = Some v → key_of v = d ∧ in_u128 d.
Definition holds_docs l m : Prop := keyed_ok m ∧ l ≡ₚ to_doc <$> (map_to_list m).*2.

Global Instance holds_docs_proper : Proper ((≡ₚ) ==> (=) ==> iff) holds_docs.
Proof. intros l l' Hl i i' <-. unfold holds_docs. by rewrite Hl. Qed.

Lemma holds_docs_empty : holds_docs [] ∅.
Proof. split; [|by rewrite map_to_list_empty]. intros d v. by rewrite lookup_empty. Qed.

Lemma keyed_ok_delete m id : keyed_ok m → keyed_ok (delete id m).
Proof. intros Hok d v [_ Hd]%lookup_delete_Some. by apply Hok. Qed.

Lemma key_term m d v id :
  keyed_ok m → m !! d = Some v → in_u128 id →
  display DocumentId id ∈ (doc_terms FDocumentId (to_doc v)).*2 ↔ d = id.
Proof.
  intros Hok Hd Hid. destruct (Hok _ _ Hd) as (Hv & Hu). rewrite Hterm, Hv, list_elem_of_singleton.
  split; [|by intros ->]. intros Heq. symmetry. by apply display_inj in Heq.
Qed.

Lemma filter_key_terms m id :
  keyed_ok m → in_u128 id →
  filter (λ d, display DocumentId id ∉ (doc_terms FDocumentId d).*2) (to_doc <$> (map_to_list m).*2)
  ≡ₚ to_doc <$> (map_to_list (delete id m)).*2.
Proof.
  intros Hok Hid.
  assert (∀ m', keyed_ok m' → m' !! id = None →
    filter (λ d, display DocumentId id ∉ (doc_terms FDocumentId d).*2)
      (to_doc <$> (map_to_list m').*2) = to_doc <$> (map_to_list m').*2) as Hnone.
  { intros m' Hm Hno. apply filter_all. apply Forall_forall.
    intros x (v & -> & ([d v'] & -> & Hin%elem_of_map_to_list)%list_elem_of_fmap)%list_elem_of_fmap.
    cbn [snd]. rewrite (key_term m' d) by done. congruence. }
  destruct (m !! id) as [v|] eqn:Hlook.
  - rewrite <-(map_to_list_delete m id v) at 1 by done. rewrite !fmap_cons, filter_cons_False.
    + rewrite Hnone; [done|by apply keyed_ok_delete|apply lookup_delete_eq].
    + cbn [snd]. rewrite (key_term m id) by done. tauto.
  - rewrite delete_id by done. by rewrite Hnone.
Qed.

Lemma delete_holds id w m :
  in_u128 id → holds_docs (pending w) m →
  holds_docs (pending (delete_term FDocumentId (display DocumentId id) w)) (delete id m).
Proof.
  intros Hid [Hok Hp]. split; [by apply keyed_ok_delete|]. rewrite delete_pending, Hp.
  by apply filter_key_terms.
Qed.

Lemma add_holds v w w' m :
  in_u128 (key_of v) → m !! key_of v = None → holds_docs (pending w) m →
  add_document (to_doc v) w = Ok w' → holds_docs (pending w') (<[key_of v := v]> m).
Proof.
  intros Hu Hno [Hok Hp] Hadd. split.
  - intros d x [[<- <-]|[_ Hd]]%lookup_insert_Some; [done|by apply Hok].
  - rewrite (add_pending _ _ _ Hadd), Hp, map_to_list_insert by done. done.
Qed.

(** Part of the documents comes from part of the map. *)
Lemma holds_split ds rest l m :
  holds_docs l m → ds ++ rest ≡ₚ l →
  ∃ xs ys, ds = to_doc <$> xs ∧ rest = to_doc <$> ys ∧ xs ++ ys ≡ₚ (map_to_list m).*2.
Proof.
  intros [_ Hl] Hp. rewrite Hl in Hp. apply Permutation_map_inv in Hp as (zs & Hzs & Hp).
  symmetry in Hzs. apply fmap_app_inv in Hzs as (xs & ys & -> & -> & ->).
  exists xs, ys. done.
Qed.

Lemma keyed_values m v : keyed_ok m → v ∈ (map_to_list m).*2 ↔ m !! key_of v = Some v.
Proof.
  intros Hok. rewrite list_elem_of_fmap. split.
  - intros ([d x] & -> & Hin%elem_of_map_to_list). simpl. by destruct (Hok _ _ Hin) as [-> _].
  - intros Hd. eexists (_, v). split; [done|]. by apply elem_of_map_to_list.
Qed.

Lemma keyed_values_ids m : keyed_ok m → NoDup (key_of <$> (map_to_list m).*2).
Proof.
  intros Hok. rewrite <-list_fmap_compose.
  assert (key_of ∘ snd <$> map_to_list m = (map_to_list m).*1) as ->; [|apply NoDup_fst_map_to_list].
  apply list_fmap_ext. intros i [d v] Hin%list_elem_of_lookup_2%elem_of_map_to_list. simpl.
  by destruct (Hok _ _ Hin) as [-> _].
Qed.

(** What a bounded search over a list of documents may give. *)
Definition selected l (q : Query) (n : nat) (ds : list TantivyDocument) : Prop :=
  length ds ≤ n ∧ ∃ rest, ds ++ rest ≡ₚ l ∧ Forall (query_matches q) ds ∧
    (length ds < n → Forall (λ d, ¬ query_matches q d) rest).

(** What a search gives: distinct values of the map that the query selects, all of them if the limit
    was not reached. *)
Lemma selected_values l m q n ds (sel : V → Prop) :
  holds_docs l m → selected l q n ds →
  (∀ v, query_matches q (to_doc v) ↔ sel v) →
  ∃ vs, ds = to_doc <$> vs ∧ length vs ≤ n ∧ NoDup (key_of <$> vs)
    ∧ (∀ v, v ∈ vs → m !! key_of v = Some v ∧ sel v)
    ∧ (length vs < n → ∀ d v, m !! d = Some v → sel v → v ∈ vs).
Proof.
  intros Hr (Hlen & rest & Hp & Hds & Hrest) Hsel.
  destruct (holds_split _ _ _ _ Hr Hp) as (xs & ys & -> & -> & Hxy). destruct Hr as [Hok _].
  rewrite length_fmap in *. exists xs. split; [done|]. split; [done|]. split; [|split].
  - pose proof (keyed_values_ids m Hok) as Hnd. rewrite <-Hxy, fmap_app in Hnd.
    by apply NoDup_app in Hnd as [? _].
  - intros v Hin. split.
    + apply keyed_values; [done|]. rewrite <-Hxy. apply elem_of_app. by left.
    + rewrite Forall_fmap, Forall_forall in Hds. apply Hsel. by apply Hds.
  - intros Hshort d v Hd Hv.
    assert (v ∈ xs ++ ys) as [Hin|Hin]%elem_of_app; [|done|].
    { rewrite Hxy. apply keyed_values; [done|]. by destruct (Hok _ _ Hd) as [-> _]. }
    specialize (Hrest Hshort). rewrite Forall_fmap, Forall_forall in Hrest.
    exfalso. apply (Hrest v Hin). by apply Hsel.
Qed.

Lemma search_values i m q n ds (sel : V → Prop) :
  holds_docs (live i) m → search_index i q n = Ok ds →
  (∀ v, query_matches q (to_doc v) ↔ sel v) →
  ∃ vs, ds = to_doc <$> vs ∧ length vs ≤ n ∧ NoDup (key_of <$> vs)
    ∧ (∀ v, v ∈ vs → m !! key_of v = Some v ∧ sel v)
    ∧ (length vs < n → ∀ d v, m !! d = Some v → sel v → v ∈ vs).
Proof. intros Hr Hs. by eapply selected_values, search_sound. Qed.

(** Looking up an identifier. *)
Lemma lookup_value i m id ds :
  holds_docs (live i) m → in_u128 id →
  search_index i (TermQuery FDocumentId (display DocumentId id)) 1 = Ok ds →
  head ds = to_doc <$> m !! id.
Proof.
  intros Hr Hid Hs.
  destruct (search_values i m _ 1 ds
    (λ v, key_of v = id ∨ ¬ in_u128 (key_of v) ∧ display DocumentId id = display DocumentId (key_of v)) Hr Hs)
    as (vs & -> & Hlen & _ & Hin & Hall).
  { intros v. cbn [query_matches]. rewrite Hterm, list_elem_of_singleton. split.
    - intros Heq. destruct (decide (in_u128 (key_of v))) as [Hu|Hu]; [left|by right].
      symmetry. by apply display_inj in Heq.
    - by intros [->|[_ ?]]. }
  destruct vs as [|v vs]; simpl.
  - destruct (m !! id) as [v|] eqn:Hd; [|done].
    assert (v ∈ []) as Hbad; [|by apply not_elem_of_nil in Hbad].
    eapply Hall; [simpl; lia|exact Hd|]. left. by destruct (proj1 Hr _ _ Hd).
  - destruct (Hin v (list_elem_of_here _ _)) as [Hd [<-|[Hu _]]]; [by rewrite Hd|].
    by destruct (proj1 Hr _ _ Hd) as (_ & ?).
Qed.
End keyed.
