(* ===== verification/CatalogSpec.v ===== *)
(** What the materialised catalog promises: the writer implements the abstract index of
    [GraphConverge], the reader finds documents by identifier, each retrieval mode selects exactly
    the names and paths its contract says, and the fingerprint detects convergence. *)
From stdpp Require Import base strings numbers gmap list sorting.
From S2P Require Import Prelude Ids Models GraphDomain GraphTables GraphInvariant GraphConverge.
From S2P Require Import Text Catalog KeyedIndex.

Abbreviation index := (gmap document_id CatalogDocument).

Section spec.
Context `{TV : Tantivy} `{T : TextEnv} `{!StoreLaws E} `{!TextLaws T} `{TL : !TantivyLaws}.
Implicit Types (idx : index) (l : list TantivyDocument).

(** ** Refinement: a list of indexed documents stands for an abstract index *)

Definition index_ok idx : Prop :=
  ∀ d doc, idx !! d = Some doc →
    ci_document_id (cd_identity doc) = d ∧ ci_file_link_id (cd_identity doc) = d ∧ in_u128 d.

Definition represents l idx : Prop :=
  index_ok idx ∧ l ≡ₚ index_document <$> (map_to_list idx).*2.

Global Instance represents_proper : Proper ((≡ₚ) ==> (=) ==> iff) represents.
Proof. intros l l' Hl i i' <-. unfold represents. by rewrite Hl. Qed.

Lemma represents_empty : represents [] ∅.
Proof. split; [|by rewrite map_to_list_empty]. intros d doc. by rewrite lookup_empty. Qed.

(** The identifier term of a document. *)
Lemma doc_terms_id doc :
  (doc_terms FDocumentId (index_document doc)).*2
  = [display DocumentId (ci_document_id (cd_identity doc))].
Proof. done. Qed.

(** An abstract index is a keyed index. *)
Abbreviation doc_key := (λ doc, ci_document_id (cd_identity doc)).

Lemma represents_holds l idx : represents l idx → holds_docs index_document doc_key l idx.
Proof. intros [Hok Hl]. split; [|done]. intros d doc Hd. by destruct (Hok d doc Hd) as (? & _ & ?). Qed.

Lemma index_ok_delete idx id : index_ok idx → index_ok (delete id idx).
Proof. intros Hok d doc [_ Hd]%lookup_delete_Some. by apply Hok. Qed.

Lemma writer_delete_represents id w idx :
  in_u128 id → represents (pending w) idx → represents (pending (writer_delete id w)) (delete id idx).
Proof.
  intros Hid Hr. split; [by apply index_ok_delete, Hr|].
  by apply (delete_holds _ doc_key doc_terms_id); [|apply represents_holds].
Qed.

Lemma add_represents doc w w' idx :
  canonical_mutation (Upsert doc) → idx !! ci_document_id (cd_identity doc) = None →
  represents (pending w) idx → add_document (index_document doc) w = Ok w' →
  represents (pending w') (<[ci_document_id (cd_identity doc) := doc]> idx).
Proof.
  intros [Hlink Hu] Hno Hr Hadd. split.
  - intros d x [[<- <-]|[_ Hd]]%lookup_insert_Some; [by rewrite <-Hlink|by apply Hr].
  - by eapply (add_holds _ doc_key); [| |apply represents_holds|].
Qed.

(** The poison check passes on canonical mutations and nothing else. *)
Lemma check_identity_Ok doc u :
  check_identity doc = Ok u ↔ ci_document_id (cd_identity doc) = ci_file_link_id (cd_identity doc).
Proof.
  unfold check_identity, ensure, document_id_from_link. case_bool_decide; [|done].
  by destruct u.
Qed.


Lemma writer_apply_represents m w w' idx :
  canonical_mutation m → represents (pending w) idx → writer_apply m w = Ok w' →
  represents (pending w') (apply_index m idx).
Proof.
  intros Hm Hr. destruct m as [doc|id version]; simpl.
  - intros (u & _ & Hadd%map_err_Ok)%result_bind_Ok. rewrite <-insert_delete_eq.
    eapply add_represents; [done|apply lookup_delete_eq| |exact Hadd].
    apply writer_delete_represents; [apply Hm|done].
  - intros [= <-]. by apply writer_delete_represents.
Qed.

(** ** Retrieval *)

(** What a mode selects, for a normalised query. *)
Definition mode_selects (mode : CatalogQueryMode) (q : text) (doc : CatalogDocument) : Prop :=
  let name := normalize (chars (cd_name doc)) in
  match mode with
  | Exact => q = name
  | Token => q ∈ tokens name ∧ byte_length q < 40
  | Prefix => (∃ w, w ∈ tokens name ∧ q `prefix_of` w) ∧ q ≠ [] ∧ length q ≤ 32 ∧ byte_length q < 40
  | Substring => infix q name ∧ word q
  | Path => q ∈ tokens (normalize (chars (cd_resolved_path doc))) ∧ byte_length q < 40
  end.

Lemma byte_length_le t : byte_length t ≤ 4 * length t.
Proof.
  induction t as [|c t IH]; [done|]. unfold byte_length in *. csimpl.
  unfold len_utf8 at 1. repeat case_match; lia.
Qed.

Lemma lowered_elem t w : lowered t → (∀ c, c ∈ w → c ∈ t) → lowered w.
Proof. unfold lowered. rewrite !Forall_forall. auto. Qed.

Lemma tokens_lowered t w : lowered t → w ∈ tokens t → lowered w.
Proof. intros Ht (_ & _ & Hc)%elem_of_tokens. by eapply lowered_elem. Qed.

(** On text whose tokens are in lower case the analyser only drops long tokens. *)
Lemma analyze_tokens t :
  (∀ w, w ∈ tokens t → lowered w) →
  analyze t = filter (λ p, byte_length p.2 < 40) (imap pair (tokens t)).
Proof.
  intros Hlow. rewrite analyze_spec. rewrite <-(list_fmap_id (filter _ _)) at 2.
  apply list_fmap_ext. intros i [p w] Hw%list_elem_of_lookup_2. simpl. f_equal.
  apply list_elem_of_filter in Hw as [_ Hw]. apply elem_of_lookup_imap in Hw as (j & w' & [= -> ->] & Hw).
  apply to_lower_lowered, Hlow. by eapply list_elem_of_lookup_2.
Qed.

Lemma analyze_terms t w :
  (∀ w, w ∈ tokens t → lowered w) → w ∈ (analyze t).*2 ↔ w ∈ tokens t ∧ byte_length w < 40.
Proof.
  intros Hlow. rewrite analyze_tokens, list_elem_of_fmap by done. split.
  - intros ([p w'] & -> & [Hb Hw]%list_elem_of_filter). split; [|done].
    apply elem_of_lookup_imap in Hw as (j & w'' & [= -> ->] & Hw). by eapply list_elem_of_lookup_2.
  - intros [[j Hj]%list_elem_of_lookup_1 Hb]. exists (j, w). split; [done|].
    apply list_elem_of_filter. split; [done|]. apply elem_of_lookup_imap. by exists j, w.
Qed.

Lemma infix_lookup {A} (xs l : list A) :
  xs ≠ [] → infix xs l ↔ ∃ p, ∀ i x, xs !! i = Some x → l !! (p + i) = Some x.
Proof.
  intros Hne. split.
  - intros (a & b & ->). exists (length a). intros i x Hx.
    rewrite lookup_app_r by lia. replace (length a + i - length a) with i by lia.
    by apply lookup_app_l_Some.
  - intros [p Hp]. exists (take p l), (drop (p + length xs) l).
    assert (take (length xs) (drop p l) = xs) as Hxs.
    { apply list_eq. intros i. destruct (xs !! i) as [x|] eqn:Hx.
      - pose proof (lookup_lt_Some _ _ _ Hx). rewrite lookup_take_lt, lookup_drop by done. by apply Hp.
      - apply lookup_ge_None in Hx. by apply lookup_take_ge. }
    rewrite <-Hxs at 1. by rewrite <-drop_drop, take_drop, take_drop.
Qed.

(** The terms of the trigram field, with their positions. *)
Lemma analyze_grams t :
  lowered t → analyze (join (grams t 3)) = imap pair (gram_terms t).
Proof.
  intros Hlow.
  assert (∀ w, w ∈ gram_terms t → lowered w ∧ length w ≤ 3) as Hw.
  { intros w (g & Hw & Hg)%list_elem_of_bind. pose proof (grams_length _ _ Hg) as Hlen.
    split.
    - eapply tokens_lowered; [|exact Hw]. unfold grams in Hg.
      apply list_elem_of_fmap in Hg as (i & -> & _). by apply Forall_take, Forall_drop.
    - rewrite <-Hlen. unfold tokens in Hw. apply list_elem_of_filter in Hw as [_ Hw].
      by apply split_at_length in Hw. }
  rewrite analyze_tokens; rewrite tokens_join.
  - apply filter_all, Forall_forall. intros [p w] (j & w' & [= -> ->] & Hj)%elem_of_lookup_imap.
    apply list_elem_of_lookup_2, Hw in Hj as [_ Hj]. simpl. pose proof (byte_length_le w'). lia.
  - intros w Hin. by apply Hw.
Qed.

(** A substring query matches when the name contains the query and the query is one word. *)
Lemma substring_matches (q name : text) (query : Query) (d : TantivyDocument) :
  lowered name → doc_terms FNameTrigrams d = analyze (join (grams name 3)) → 3 ≤ length q →
  query = match grams q 3 with [t] => TermQuery FNameTrigrams t | ts => PhraseQuery FNameTrigrams ts end →
  query_matches query d ↔ infix q name ∧ word q.
Proof.
  intros Hlow Hd Hq ->. rewrite analyze_grams in Hd by done.
  assert (∀ k t, (k, t) ∈ doc_terms FNameTrigrams d ↔ gram_terms name !! k = Some t) as Hpos.
  { intros k t. rewrite Hd, elem_of_lookup_imap. split; [by intros (j & w & [= -> ->] & ?)|].
    intros Ht. by exists k, t. }
  assert (query_matches match grams q 3 with
    [t] => TermQuery FNameTrigrams t | ts => PhraseQuery FNameTrigrams ts end d
    ↔ infix (grams q 3) (gram_terms name)) as ->.
  { destruct (grams_head q Hq) as [gs Hgs]. rewrite infix_lookup by (by rewrite Hgs). rewrite Hgs.
    destruct gs as [|g2 gs]; simpl.
    - rewrite list_elem_of_fmap. split.
      + intros ([p t] & Ht & Hin%Hpos). simpl in Ht. subst t. exists p. intros [|i] x Hx; [|done].
        simpl in Hx. simplify_eq. by rewrite Nat.add_0_r.
      + intros [p Hp]. exists (p, take 3 q). split; [done|]. apply Hpos.
        rewrite <-(Nat.add_0_r p). by apply Hp.
    - by setoid_rewrite Hpos. }
  split; [intros Hin; by apply gram_terms_sound|].
  intros [Hin Hw]. by apply gram_terms_complete.
Qed.

(** Words of one field joined by spaces: its terms. *)
Lemma joined_terms ws w :
  Forall (λ w, word w ∧ w ≠ [] ∧ lowered w) ws →
  w ∈ (analyze (join ws)).*2 ↔ w ∈ ws ∧ byte_length w < 40.
Proof.
  intros Hws. rewrite analyze_terms; rewrite tokens_join_words; try done.
  - eapply Forall_impl; [exact Hws|]. simpl. tauto.
  - intros x Hx. rewrite Forall_forall in Hws. by apply Hws.
  - eapply Forall_impl; [exact Hws|]. simpl. tauto.
Qed.

Lemma name_tokens_ok s : Forall (λ w, word w ∧ w ≠ [] ∧ lowered w) (tokens (normalize s)).
Proof.
  apply Forall_forall. intros w Hw. pose proof (elem_of_tokens _ _ Hw) as (? & ? & _).
  split_and!; try done. eapply tokens_lowered; [apply normalize_lowered|done].
Qed.

Lemma candidate_query_selects query mode q doc :
  candidate_query query mode = Ok q →
  query_matches q (index_document doc) ↔ mode_selects mode (normalize query) doc.
Proof.
  intros Hq. destruct mode; simpl in Hq; simplify_eq; simpl.
  - by rewrite list_elem_of_singleton.
  - apply joined_terms, name_tokens_ok.
  - change (doc_terms FNamePrefixes (index_document doc)) with
      (analyze (join (tokens (normalize (chars (cd_name doc))) ≫= λ token, prefixes token 32))).
    rewrite joined_terms.
    + rewrite list_elem_of_bind. setoid_rewrite prefixes_spec. naive_solver.
    + apply Forall_forall. intros p (w & (Hp & Hne & _)%prefixes_spec & Hw)%list_elem_of_bind.
      pose proof (name_tokens_ok (chars (cd_name doc))) as Hok. rewrite Forall_forall in Hok.
      apply Hok in Hw as (Hw & _ & Hlow). destruct Hp as [r ->].
      apply Forall_app in Hw as [? _]. apply Forall_app in Hlow as [? _]. done.
  - assert (3 ≤ length (normalize query)).
    { destruct (decide (length (normalize query) < 3)); [|lia]. by rewrite grams_short in Hq. }
    apply (substring_matches _ (normalize (chars (cd_name doc)))); [apply normalize_lowered|done..|].
    destruct (grams (normalize query) 3) as [|? [|]]; congruence.
  - change (doc_terms FPathTokens (index_document doc)) with
      (analyze (normalize (chars (cd_resolved_path doc)))).
    apply analyze_terms. intros w Hw. eapply tokens_lowered; [apply normalize_lowered|done].
Qed.

(** ** Reading *)

Lemma payload_index_document doc : payload_document (index_document doc) = Ok doc.
Proof. unfold payload_document. simpl. by rewrite document_json_roundtrip. Qed.

Lemma payload_index_documents (xs : list CatalogDocument) :
  payload_documents (index_document <$> xs) = Ok xs.
Proof.
  induction xs as [|doc xs IH]; [done|]. csimpl. by rewrite payload_index_document, IH.
Qed.

Lemma index_values idx doc :
  index_ok idx → doc ∈ (map_to_list idx).*2 ↔ idx !! ci_document_id (cd_identity doc) = Some doc.
Proof. intros Hok. apply (keyed_values doc_key). intros d x Hd. by destruct (Hok d x Hd) as (? & _ & ?). Qed.

Lemma index_values_ids idx : index_ok idx → NoDup (doc_key <$> (map_to_list idx).*2).
Proof. intros Hok. apply keyed_values_ids. intros d x Hd. by destruct (Hok d x Hd) as (? & _ & ?). Qed.

(** What a search gives: distinct documents of the index that the query selects, all of them if
    the limit was not reached. *)
Lemma search_documents i idx q n ds (sel : CatalogDocument → Prop) :
  represents (live i) idx → search_index i q n = Ok ds →
  (∀ doc, query_matches q (index_document doc) ↔ sel doc) →
  ∃ docs, ds = index_document <$> docs ∧ length docs ≤ n
    ∧ NoDup ((λ doc, ci_document_id (cd_identity doc)) <$> docs)
    ∧ (∀ doc, doc ∈ docs → idx !! ci_document_id (cd_identity doc) = Some doc ∧ sel doc)
    ∧ (length docs < n → ∀ d doc, idx !! d = Some doc → sel doc → doc ∈ docs).
Proof. intros Hr. by apply search_values, represents_holds. Qed.

Lemma reader_document_lookup i idx id o :
  represents (live i) idx → in_u128 id → reader_document i id = Ok o → o = idx !! id.
Proof.
  intros Hr Hid (ds & Hds%map_err_Ok & Ho)%result_bind_Ok.
  apply (lookup_value _ doc_key doc_terms_id i idx) in Hds; [|by apply represents_holds|done].
  destruct ds as [|d ds], (idx !! id) as [doc|]; simplify_eq/=; [by injection Ho as <-|].
  rewrite payload_index_document in Ho. by injection Ho as <-.
Qed.

(** Candidate documents of one mode. *)
Lemma candidate_documents_spec (i : Index) (idx : index) (query : text) (mode : CatalogQueryMode)
  (n : nat) (docs : list CatalogDocument) :
  represents (live i) idx → search_candidate_documents i query mode n = Ok docs →
  length docs ≤ n
  ∧ NoDup ((λ doc, ci_document_id (cd_identity doc)) <$> docs)
  ∧ (∀ doc, doc ∈ docs → idx !! ci_document_id (cd_identity doc) = Some doc
       ∧ mode_selects mode (normalize query) doc)
  ∧ (length docs < n → ∀ d doc, idx !! d = Some doc → mode_selects mode (normalize query) doc →
       doc ∈ docs).
Proof.
  intros Hr (ds & (q & Hq & Hds%map_err_Ok)%result_bind_Ok & Hdocs)%result_bind_Ok.
  destruct (search_documents i idx q n ds (mode_selects mode (normalize query)) Hr Hds)
    as (xs & -> & Hrest).
  { intros doc. by apply candidate_query_selects. }
  rewrite payload_index_documents in Hdocs. by injection Hdocs as <-.
Qed.

(** The only failures of retrieval: the engine's own, and a substring query below three characters. *)
Lemma candidate_documents_error (i : Index) (idx : index) (query : text) (mode : CatalogQueryMode)
  (n : nat) (e : CatalogIndexError) :
  represents (live i) idx → search_candidate_documents i query mode n = Err e →
  (∃ q te, e = CTantivy te ∧ search_index i q n = Err te)
  ∨ e = CShortSubstring ∧ mode = Substring ∧ length (normalize query) < 3.
Proof.
  intros Hr [Herr|(ds & (q & Hq & Hds%map_err_Ok)%result_bind_Ok & Hdocs)]%result_bind_Err.
  - apply result_bind_Err in Herr as [Hq|(q & _ & (te & Hte & ->)%map_err_Err)]; [right|left; by eauto].
    unfold candidate_query in Hq. destruct mode; try discriminate Hq.
    destruct (decide (length (normalize query) < 3)) as [Hlt|Hge].
    + rewrite grams_short in Hq by done. by injection Hq as <-.
    + destruct (grams_head (normalize query)) as [gs Hgs]; [lia|]. rewrite Hgs in Hq. by destruct gs.
  - destruct (search_documents i idx q n ds (mode_selects mode (normalize query)) Hr Hds)
      as (xs & -> & _); [intros doc; by apply candidate_query_selects|].
    by rewrite payload_index_documents in Hdocs.
Qed.

(** ** Fingerprint *)

Lemma foldl_comm {A B} (f : A → B → A) (a : A) (l k : list B) :
  (∀ a x y, f (f a x) y = f (f a y) x) → l ≡ₚ k → foldl f a l = foldl f a k.
Proof.
  intros Hf Hp. revert a. induction Hp as [|x l k _ IH|x y l|l k m _ IH1 _ IH2]; intros a; simpl;
    [done|apply IH|by rewrite Hf|by rewrite IH1].
Qed.

Lemma add_desired_comm hash f d d' :
  add_desired hash d' (add_desired hash d f) = add_desired hash d (add_desired hash d' f).
Proof.
  unfold add_desired, u64_wrapping_add. simpl. f_equal.
  - by rewrite !Z.lxor_assoc, (Z.lxor_comm (hash d)).
  - rewrite !Z.add_mod_idemp_l by lia. f_equal. lia.
Qed.

(** Distinct identifiers: the two ways of accumulating agree. *)
Lemma fingerprint_distinct hash (xs : list CatalogDocument) f (seen : gset document_id) :
  NoDup ((λ doc, ci_document_id (cd_identity doc)) <$> xs) →
  (∀ doc, doc ∈ xs → ci_document_id (cd_identity doc) ∉ seen) →
  (foldl (fingerprint_step hash) (f, seen) xs).1 = foldl (λ f d, add_desired hash d f) f xs.
Proof.
  revert f seen. induction xs as [|x xs IH]; intros f seen Hnd Hseen; [done|]. csimpl.
  rewrite fmap_cons, NoDup_cons in Hnd. destruct Hnd as [Hx Hnd].
  rewrite decide_False by (apply Hseen; left). apply IH; [done|].
  intros doc Hdoc. apply not_elem_of_union. split; [|apply Hseen; by right].
  rewrite elem_of_singleton. intros Heq. apply Hx, list_elem_of_fmap. by exists doc.
Qed.

Lemma add_desired_unique hash (xs : list CatalogDocument) f :
  fp_unique_documents f = fp_documents f →
  let f' := foldl (λ f d, add_desired hash d f) f xs in fp_unique_documents f' = fp_documents f'.
Proof.
  revert f. induction xs as [|x xs IH]; intros f Hf; [done|]. apply IH. simpl. by rewrite Hf.
Qed.

(** ** Properties *)

(** The writer implements the index: committing one canonical mutation of the outbox makes
    every lookup by identifier answer as the abstract index after that mutation does: an upsert
    replaces what was there, a delete removes it, nothing else changes. *)
Theorem writer_apply_reads_back (i i' : Index) (idx : index) (m : IndexMutation) (heap : Z)
  (w w' : IndexWriter) (id : document_id) (o : option CatalogDocument) :
  represents (live i) idx → canonical_mutation m → in_u128 id →
  catalog_writer i heap = Ok w → writer_apply m w = Ok w' → writer_commit w' = Ok i' →
  reader_document i' id = Ok o → o = apply_index m idx !! id.
Proof.
  intros Hr Hm Hid Hw%map_err_Ok Hw' Hi'. apply reader_document_lookup; [|done].
  rewrite (commit_live _ _ Hi'). eapply writer_apply_represents; [done| |done].
  by rewrite (writer_pending _ _ _ Hw).
Qed.

(** Candidate retrieval is exact: a bounded search fails only when the engine fails or a
    substring query is below three characters.  Otherwise the documents it returns are distinct
    documents of the index, each selected by the mode, and all of them if the limit was not
    reached.  The whole-name mode selects equal names; token and path modes a token; the prefix
    mode a token that starts with the query, up to 32 characters; terms of 40 bytes and more are
    never found; the substring mode selects the names that contain the query, provided the query
    has letters and digits only. *)
Theorem search_candidates_exact (i : Index) (idx : index) (query : text) (mode : CatalogQueryMode)
  (n : nat) :
  represents (live i) idx →
  match search_candidate_documents i query mode n with
  | Ok docs =>
      length docs ≤ n
      ∧ NoDup ((λ doc, ci_document_id (cd_identity doc)) <$> docs)
      ∧ (∀ doc, doc ∈ docs → idx !! ci_document_id (cd_identity doc) = Some doc
           ∧ mode_selects mode (normalize query) doc)
      ∧ (length docs < n → ∀ d doc, idx !! d = Some doc → mode_selects mode (normalize query) doc →
           doc ∈ docs)
  | Err e =>
      (∃ q te, e = CTantivy te ∧ search_index i q n = Err te)
      ∨ e = CShortSubstring ∧ mode = Substring ∧ length (normalize query) < 3
  end.
Proof.
  intros Hr. destruct (search_candidate_documents i query mode n) as [docs|e] eqn:Hs.
  - by apply candidate_documents_spec with (i := i).
  - by eapply candidate_documents_error.
Qed.

(** The fingerprint of a converged index: the fingerprint of an index that holds exactly
    the desired documents, read in whatever order the segments give, equals the fingerprint
    accumulated over the desired documents in any order, and counts no duplicate. *)
Theorem fingerprint_converged (hash : CatalogDocument → Z) (i : Index) (idx : index)
  (desired : list CatalogDocument) (f : CatalogFingerprint) :
  represents (live i) idx → desired ≡ₚ (map_to_list idx).*2 → fingerprint hash i = Ok f →
  f = foldl (λ f d, add_desired hash d f) CatalogFingerprint_default desired
  ∧ duplicate_documents f = 0%Z.
Proof.
  intros Hr Hdes (ds & Hds%map_err_Ok & (xs & Hxs & [= <-])%result_bind_Ok)%result_bind_Ok.
  apply segments_spec in Hds. pose proof Hr as [Hok _].
  destruct (holds_split _ doc_key ds [] (live i) idx (represents_holds _ _ Hr))
    as (ys & zs & -> & Hz & Hp);
    [by rewrite app_nil_r|]. symmetry in Hz. apply fmap_nil_inv in Hz as ->.
  rewrite payload_index_documents in Hxs. injection Hxs as <-. rewrite app_nil_r in Hp.
  rewrite fingerprint_distinct.
  - split.
    + apply foldl_comm; [intros; apply add_desired_comm|]. by rewrite Hp, Hdes.
    + unfold duplicate_documents. rewrite add_desired_unique by done. unfold saturating_sub. lia.
  - rewrite Hp. by apply index_values_ids.
  - intros doc _. apply not_elem_of_empty.
Qed.

(** Substring retrieval skips punctuation: a substring query that contains anything but
    letters and digits retrieves no document at all, even from an index of names that contain it:
    the trigram field is tokenised again, so no term of it ever holds such a character. *)
Theorem substring_punctuation_unmatched (i : Index) (idx : index) (query : text) (n : nat)
  (docs : list CatalogDocument) :
  represents (live i) idx → ¬ word (normalize query) →
  search_candidate_documents i query Substring n = Ok docs → docs = [].
Proof.
  intros Hr Hw (ds & (q & Hq & Hds%map_err_Ok)%result_bind_Ok & Hdocs)%result_bind_Ok.
  destruct (search_documents i idx q n ds (mode_selects Substring (normalize query)) Hr Hds)
    as (xs & -> & _ & _ & Hin & _).
  { intros doc. by apply candidate_query_selects. }
  rewrite payload_index_documents in Hdocs. injection Hdocs as <-.
  destruct xs as [|x xs]; [done|]. destruct (Hin x (list_elem_of_here _ _)) as [_ [_ ?]]. done.
Qed.
End spec.
