(* ===== verification/CatalogFixtures.v ===== *)
(** A concrete engine and concrete text tables that satisfy the laws of [Catalog] and [Text], and
    the catalog properties at concrete documents. *)
From Stdlib Require Import Ascii String.
From stdpp Require Import base strings numbers gmap list sorting.
From S2P Require Import Prelude Ids Models GraphDomain GraphTables Fixtures GraphInvariant.
From S2P Require Import GraphConverge Text Catalog CatalogSpec.

(** ** ASCII text *)

Definition ascii_alphanumeric (c : N) : bool :=
  ((48 <=? c) && (c <=? 57) || (65 <=? c) && (c <=? 90) || (97 <=? c) && (c <=? 122))%N.

Global Instance ascii_text : TextEnv := {|
  nfkc t := t;
  char_to_lowercase c := [if ((65 <=? c) && (c <=? 90))%N then (c + 32)%N else c];
  is_alphanumeric := ascii_alphanumeric |}.

Global Instance ascii_text_laws : TextLaws ascii_text.
Proof.
  split; [|done]. intros c c'. simpl. intros ->%list_elem_of_singleton. f_equal.
  destruct (65 <=? c)%N eqn:H1, (c <=? 90)%N eqn:H2; simpl; rewrite ?H1, ?H2; try done.
  apply N.leb_le in H1, H2. destruct (c + 32 <=? 90)%N eqn:H3; [apply N.leb_le in H3; lia|].
  by rewrite andb_false_r.
Qed.

(** ** An index as the list of its documents *)

Definition default_analyze (t : text) : list (nat * text) :=
  (λ p, (p.1, to_lower p.2)) <$> filter (λ p, byte_length p.2 < 40) (imap pair (tokens t)).

Section engine.
Implicit Types (d : TantivyDocument).

Definition list_terms (f : Field) d : list (nat * text) :=
  match get_first f d with
  | Some (VText t) =>
      match (build_schema f).1 with
      | IndexString => [(0, t)]
      | IndexText => default_analyze t
      | NotIndexed => []
      end
  | _ => []
  end.

Definition phrase_at (terms : list (nat * text)) (ts : list text) (p : nat) : bool :=
  bool_decide (Forall (λ x, (p + x.1, x.2) ∈ terms) (imap pair ts)).

Fixpoint list_matches (q : Query) d : bool :=
  match q with
  | TermQuery f t => bool_decide (t ∈ (list_terms f d).*2)
  | PhraseQuery f ts => existsb (phrase_at (list_terms f d) ts) (0 :: (list_terms f d).*1)
  | PrefixQuery f t => bool_decide (Exists (prefix t) (list_terms f d).*2)
  | ShouldQuery q1 q2 => list_matches q1 d || list_matches q2 d
  | ParsedQuery matching => matching d
  | AllQuery => true
  end.
End engine.

Global Instance list_engine : Tantivy := {|
  TantivyError := unit;
  Index := list TantivyDocument;
  IndexWriter := list TantivyDocument;
  analyze := default_analyze;
  index_create := Ok [];
  index_writer i _ := Ok i;
  delete_term f t w := filter (λ d, t ∉ (list_terms f d).*2) w;
  add_document d w := Ok (d :: w);
  writer_commit w := Ok w;
  commit_opstamp w := (Z.of_nat (length w) mod 2 ^ 64)%Z;
  wait_merging i := (i, None);
  index_reader _ := Ok tt;
  query_weight i q := Ok [Ok (pair true <$> filter (λ d, list_matches q d = true) i)];
  search_index i q n := Ok (take n (filter (λ d, list_matches q d = true) i));
  count_index i := Ok (length i);
  segment_documents i := Ok i |}.

Lemma list_terms_doc f d : list_terms f d = doc_terms f d.
Proof. unfold list_terms, doc_terms. destruct (get_first f d) as [[]|]; done. Qed.

Lemma phrase_at_spec terms ts p :
  phrase_at terms ts p = true ↔ ∀ i t, ts !! i = Some t → (p + i, t) ∈ terms.
Proof.
  unfold phrase_at. rewrite bool_decide_eq_true, Forall_forall. split.
  - intros H i t Hi. apply (H (i, t)). apply elem_of_lookup_imap. by exists i, t.
  - intros H [i t] (j & x & [= -> ->] & Hj)%elem_of_lookup_imap. by apply H.
Qed.

Lemma list_matches_spec q d : list_matches q d = true ↔ query_matches q d.
Proof.
  induction q as [f t|f ts|f t|q1 IH1 q2 IH2|p|]; simpl;
    [by rewrite bool_decide_eq_true, list_terms_doc| |by rewrite bool_decide_eq_true, list_terms_doc
    |by rewrite orb_true_iff, IH1, IH2|done|done].
  change (existsb (phrase_at (list_terms f d) ts) (0 :: (list_terms f d).*1) = true ↔
    ∃ p, ∀ i t, ts !! i = Some t → (p + i, t) ∈ doc_terms f d).
  rewrite list_terms_doc, existsb_exists. split.
  - intros (p & _ & Hp). exists p. by apply phrase_at_spec.
  - intros [p Hp]. destruct ts as [|t ts].
    + exists 0. split; [by left|]. by apply phrase_at_spec.
    + exists p. split; [|by apply phrase_at_spec]. right. apply list_elem_of_In.
      apply list_elem_of_fmap. exists (p, t). split; [done|]. rewrite <-(Nat.add_0_r p). by apply Hp.
Qed.

Lemma alive_pairs (ds : list TantivyDocument) : alive_documents (pair true <$> ds) = ds.
Proof. unfold alive_documents. induction ds as [|d ds IH]; [done|]. csimpl. by f_equal. Qed.

Global Instance list_engine_laws : TantivyLaws.
Proof.
  refine {| live := (λ i, i) : Index → list TantivyDocument;
            pending := (λ w, w) : IndexWriter → list TantivyDocument |}.
  - done.
  - by intros i [= ->].
  - by intros i heap w [= ->].
  - intros f t w. simpl. apply reflexive_eq. apply list_filter_iff. intros d.
    by rewrite list_terms_doc.
  - by intros d w w' [= <-].
  - by intros w i [= ->].
  - intros w. simpl. pose proof (Z.mod_pos_bound (Z.of_nat (length w)) (2 ^ 64)). unfold in_u64, u64_max. lia.
  - done.
  - intros i q n ds [= <-]. split; [rewrite length_take; lia|].
    set (l := filter (λ d, list_matches q d = true) i).
    exists (drop n l ++ filter (λ d, list_matches q d ≠ true) i). split; [|split].
    + rewrite app_assoc, take_drop. apply filter_app_complement.
    + apply Forall_take, Forall_forall. intros d [Hd _]%list_elem_of_filter. by apply list_matches_spec.
    + intros Hlen. fold l in Hlen. change (length (take n l) < n) in Hlen.
      rewrite length_take in Hlen. rewrite drop_ge by lia. simpl.
      apply Forall_forall. intros d [Hd _]%list_elem_of_filter. by rewrite <-list_matches_spec.
  - intros i q segments [= <-]. exists [i]. split; [simpl; by rewrite app_nil_r|].
    constructor; [|constructor]. intros ds [= <-]. exists (filter (λ d, list_matches q d ≠ true) i).
    rewrite alive_pairs. split; [apply filter_app_complement|].
    split; apply Forall_forall; intros d [Hd _]%list_elem_of_filter; by rewrite <-list_matches_spec.
  - by intros i n [= <-].
  - by intros i ds [= <-].
Defined.

(** ** Two documents *)

Definition sample_document (id : document_id) (name : string) : CatalogDocument :=
  MkCatalogDocument (MkCatalogIdentity (key id) id id) 1 name ("docs/" +:+ name) (Some "txt") (file_meta 7).

Definition report_doc : CatalogDocument := sample_document 1 "Report.txt".
Definition notes_doc : CatalogDocument := sample_document 2 "Notes 2.txt".

Definition sample_index : index := {[1%N := report_doc; 2%N := notes_doc]}.
Definition sample_live : Index := index_document <$> (map_to_list sample_index).*2.

Lemma sample_represents : represents (live sample_live) sample_index.
Proof.
  split; [|done]. intros d doc. unfold sample_index.
  intros [[<- <-]|[_ [<- <-]%lookup_singleton_Some]]%lookup_insert_Some; done.
Qed.

Definition deleted_live : Index := writer_delete 1 sample_live.

Lemma writer_apply_reads_back_witness :
  reader_document deleted_live 1 = Ok None ∧ None = apply_index (Delete 1 2) sample_index !! 1%N.
Proof.
  assert (reader_document deleted_live 1 = Ok None) as Hr
    by (apply ok_value_Some; vm_compute; reflexivity).
  split; [exact Hr|].
  apply (writer_apply_reads_back sample_live deleted_live sample_index (Delete 1 2) 0
    sample_live deleted_live 1 None sample_represents); [done|done|done|done|done|exact Hr].
Defined.

Lemma search_candidates_exact_witness :
  search_candidate_documents sample_live (chars "POR") Substring 10 = Ok [report_doc]
  ∧ mode_selects Substring (normalize (chars "POR")) report_doc.
Proof.
  assert (search_candidate_documents sample_live (chars "POR") Substring 10 = Ok [report_doc]) as Hs
    by (apply ok_value_Some; vm_compute; reflexivity).
  split; [exact Hs|].
  pose proof (search_candidates_exact sample_live sample_index (chars "POR") Substring 10
    sample_represents) as H.
  rewrite Hs in H. destruct H as (_ & _ & Hin & _).
  apply (Hin report_doc). left.
Defined.

Definition sample_fingerprint : CatalogFingerprint := MkCatalogFingerprint 2 2 0 2.

Lemma fingerprint_converged_witness :
  fingerprint cd_document_version sample_live = Ok sample_fingerprint
  ∧ duplicate_documents sample_fingerprint = 0%Z.
Proof.
  assert (fingerprint cd_document_version sample_live = Ok sample_fingerprint) as Hf
    by (apply ok_value_Some; vm_compute; reflexivity).
  split; [exact Hf|].
  apply (fingerprint_converged cd_document_version sample_live sample_index
    (map_to_list sample_index).*2 _ sample_represents); [done|exact Hf].
Defined.

(** The extension of the sample names is missed. *)
Lemma substring_punctuation_unmatched_witness :
  infix (normalize (chars ".txt")) (normalize (chars (cd_name report_doc)))
  ∧ search_candidate_documents sample_live (chars ".txt") Substring 10 = Ok []
  ∧ ∀ docs, search_candidate_documents sample_live (chars ".txt") Substring 10 = Ok docs → docs = [].
Proof.
  split; [by exists (normalize (chars "report")), []|].
  split; [apply ok_value_Some; vm_compute; reflexivity|]. intros docs.
  apply (substring_punctuation_unmatched sample_live sample_index (chars ".txt") 10 docs
    sample_represents).
  intros [Hdot _]%Forall_cons. vm_compute in Hdot. discriminate.
Defined.
