(* ===== verification/Content.v ===== *)
(** The opt-in content index ([crates/content-index/src/lib.rs]): the allow-list policy, the bounded
    extraction of text, the index of one generation with its build, synchronisation and delta, and
    content search.

    The files are outside: [SourceFs] holds what the operating system answers while one document is
    processed.  The resolved path, the metadata and the bytes are answers to three calls and need not
    fit together, so a file may change between them.  SHA-256 and the query parser of the engine are
    the class [ContentEnv]. *)
From stdpp Require Import base strings numbers gmap list sorting.
From S2P Require Import Prelude Ids Order Models GraphDomain GraphTables Text Catalog.

Definition CONTENT_SCHEMA_ID : string := "CONTENT-SCHEMA-v1".
Definition MAX_CONFIGURED_FILE_BYTES : Z := 16 * 1048576.
Definition CONTENT_WRITER_HEAP_BYTES : Z := 32 * 1048576.
Definition MIN_CONTENT_PREFIX_CHARS : nat := 4.

(** ** UTF-8 validation *)

Definition between (lo hi b : N) : bool := ((lo <=? b) && (b <=? hi))%N.
Definition continuation (b : N) : bool := between 0x80 0xbf b.

(** The second byte that may follow the first byte of a three- or four-byte character. *)
Definition second_of_three (b0 b1 : N) : bool :=
  (b0 =? 0xe0)%N && between 0xa0 0xbf b1
  || (between 0xe1 0xec b0 || between 0xee 0xef b0) && continuation b1
  || (b0 =? 0xed)%N && between 0x80 0x9f b1.
Definition second_of_four (b0 b1 : N) : bool :=
  (b0 =? 0xf0)%N && between 0x90 0xbf b1
  || between 0xf1 0xf3 b0 && continuation b1
  || (b0 =? 0xf4)%N && between 0x80 0x8f b1.

(** The check of [String::from_utf8]: shortest forms only, no surrogates, at most U+10FFFF. *)
Fixpoint utf8_valid (bytes : list N) : bool :=
  match bytes with
  | [] => true
  | b0 :: rest =>
      if (b0 <? 0x80)%N then utf8_valid rest
      else if between 0xc2 0xdf b0 then
        match rest with b1 :: rest => continuation b1 && utf8_valid rest | _ => false end
      else if between 0xe0 0xef b0 then
        match rest with
        | b1 :: b2 :: rest => second_of_three b0 b1 && continuation b2 && utf8_valid rest
        | _ => false
        end
      else if between 0xf0 0xf4 b0 then
        match rest with
        | b1 :: b2 :: b3 :: rest =>
            second_of_four b0 b1 && continuation b2 && continuation b3 && utf8_valid rest
        | _ => false
        end
      else false
  end.

Definition from_utf8 (bytes : list N) : option text :=
  if utf8_valid bytes then Some (utf8_decode bytes) else None.

(** ** Paths and files *)

(** A canonical path is the list of its components; [Path::starts_with] compares whole components. *)
Abbreviation path := (list string).
Definition starts_with (p root : path) : bool := bool_decide (root `prefix_of` p).
Definition component_compare (a b : string) : comparison :=
  lex_compare (string_bytes a) (string_bytes b).
Definition path_le (a b : path) : Prop := list_compare component_compare a b ≠ Gt.
Global Instance path_le_dec : RelDecision path_le.
Proof. intros a b. unfold path_le. apply _. Defined.

Record SourceFs := MkSourceFs {
  canonicalize : string → option path;
  is_dir : path → bool;
  file_metadata : path → option (bool * Z);   (* whether it is a regular file, and its length *)
  file_bytes : path → option (list N) }.      (* opening and reading *)

(** ** Policy *)

Inductive SkipReason := OutsideRoots | Unavailable | Extension | TooLarge | NonText | SkipIo.
Global Instance SkipReason_eq_dec : EqDecision SkipReason.
Proof. solve_decision. Defined.

Record ContentIndexPolicy := MkContentIndexPolicy {
  cip_roots : list path;
  cip_extensions : list string;
  cip_max_file_bytes : Z }.

Definition built_in_extensions : list string :=
  ["bat"; "c"; "cc"; "cfg"; "cmd"; "conf"; "cpp"; "css"; "csv"; "cs"; "cxx"; "go"; "h";
   "hpp"; "htm"; "html"; "ini"; "java"; "js"; "json"; "jsx"; "kt"; "kts"; "log";
   "markdown"; "md"; "php"; "ps1"; "py"; "rb"; "rs"; "sh"; "sql"; "swift"; "toml"; "ts";
   "tsx"; "txt"; "vue"; "xml"; "yaml"; "yml"].

(** [Vec::dedup]. *)
Fixpoint dedup {A} `{EqDecision A} (l : list A) : list A :=
  match l with
  | x :: ((y :: _) as l') => if decide (x = y) then dedup l' else x :: dedup l'
  | _ => l
  end.

(** Whether two of the roots overlap. *)
Fixpoint roots_overlap (roots : list path) : bool :=
  match roots with
  | [] => false
  | root :: rest =>
      existsb (λ other, starts_with other root || starts_with root other) rest || roots_overlap rest
  end.

(** ** Accounting *)

(** The counters of [ContentSyncSummary] and of [ContentBuildSummary]. *)
Inductive SyncCounter :=
| CatalogDocuments | UnchangedDocuments | MetadataOnlyDocuments | UnchangedHashDocuments
| AddedDocuments | UpdatedDocuments | RemovedDocuments | EvictedDocuments
| SkippedDocuments (reason : SkipReason).
Global Instance SyncCounter_eq_dec : EqDecision SyncCounter.
Proof. solve_decision. Defined.

Inductive BuildCounter := BuildCatalog | BuildIndexed | BuildSkipped (reason : SkipReason).
Global Instance BuildCounter_eq_dec : EqDecision BuildCounter.
Proof. solve_decision. Defined.

(** A summary: the value of each counter, and the stamp of the commit. *)
Record Summary (C : Type) := MkSummary { su_count : C → Z; su_generation : Z }.
Arguments MkSummary {C} _ _.
Arguments su_count {C} _ _.
Arguments su_generation {C} _.

Abbreviation ContentSyncSummary := (Summary SyncCounter).
Abbreviation ContentBuildSummary := (Summary BuildCounter).

Definition no_counts {C} : C → Z := λ _, 0%Z.

(** [x = x.saturating_add(1)], for the counter [c]. *)
Definition bump {C} `{EqDecision C} (c : C) (counts : C → Z) : C → Z :=
  λ c', if decide (c' = c) then saturating_add u64_max (counts c') 1 else counts c'.

(** ** The index of one generation *)

Class ContentEnv `{TV : Tantivy} := {
  (** SHA-256 of the text, in hexadecimal. *)
  content_hash : text → text;
  (** [QueryParser::parse_query] over the content field. *)
  parse_query : text → option Query;
  (** [char::is_whitespace]. *)
  is_whitespace : N → bool;
  (** What the engine reports for a field the schema lacks, and for a directory without an index. *)
  unknown_field : Field → TantivyError;
  no_index : TantivyError }.

Section content.
Context `{TV : Tantivy} `{T : TextEnv} `{CE : !ContentEnv}.
Implicit Types (document : CatalogDocument) (policy : ContentIndexPolicy) (fs : SourceFs).

Inductive ContentIndexError :=
| XIo
| XTantivy (e : TantivyError)
| XQuery
| XSerialization
| XInvalidPolicy
| XSchemaMismatch
| XMissingPayload
| XDuplicateDocument
| XGraph (e : GraphError).

(** [ContentIndexPolicy::new]. *)
Definition policy_new (fs : SourceFs) (roots : list string) (max_file_bytes : Z)
  : result ContentIndexError ContentIndexPolicy :=
  ensure (negb ((max_file_bytes =? 0) || (MAX_CONFIGURED_FILE_BYTES <? max_file_bytes)))%Z
    XInvalidPolicy ;;
  canonical ← ok_or (mapM (canonicalize fs) roots) XIo;
  let canonical_roots := dedup (merge_sort path_le canonical) in
  ensure (negb (bool_decide (canonical_roots = [])
                || existsb (λ root, negb (is_dir fs root)) canonical_roots
                || roots_overlap canonical_roots)) XInvalidPolicy ;;
  mret (MkContentIndexPolicy canonical_roots built_in_extensions max_file_bytes).

(** Whether the extension of a document is on the allow-list. *)
Definition allowed_extension policy document : bool :=
  match cd_extension document with
  | Some extension => bool_decide (to_lowercase extension ∈ cip_extensions policy)
  | None => false
  end.

Definition is_online_file document : bool :=
  bool_decide (m_kind (cd_metadata document) = KFile)
  && bool_decide (m_availability (cd_metadata document) = AOnline).

(** [ContentIndexPolicy::declared_eligible_bytes]. *)
Definition declared_eligible_bytes policy document : Z :=
  if is_online_file document
     && (m_size (cd_metadata document) <=? cip_max_file_bytes policy)%Z
     && allowed_extension policy document
  then m_size (cd_metadata document) else 0.

(** *** Extraction *)

Record PreparedSource := MkPreparedSource { pr_canonical : path; pr_length : Z }.

Definition prepare_source fs document policy : result SkipReason PreparedSource :=
  ensure (is_online_file document) Unavailable ;;
  ensure (allowed_extension policy document) Extension ;;
  ensure (m_size (cd_metadata document) <=? cip_max_file_bytes policy)%Z TooLarge ;;
  canonical ← ok_or (canonicalize fs (cd_resolved_path document)) SkipIo;
  ensure (existsb (starts_with canonical) (cip_roots policy)) OutsideRoots ;;
  '(is_file, len) ← ok_or (file_metadata fs canonical) SkipIo;
  ensure is_file Unavailable ;;
  ensure (len <=? cip_max_file_bytes policy)%Z TooLarge ;;
  mret (MkPreparedSource canonical len).

Definition read_text fs (prepared : PreparedSource) policy : result SkipReason text :=
  content ← ok_or (file_bytes fs (pr_canonical prepared)) SkipIo;
  let bytes := limit (saturating_add u64_max (cip_max_file_bytes policy) 1) content in
  ensure (Z.of_nat (length bytes) <=? cip_max_file_bytes policy)%Z TooLarge ;;
  ensure (negb (bool_decide (0%N ∈ bytes))) NonText ;;
  ok_or (from_utf8 bytes) NonText.

(** [extract_text]. *)
Definition extract_text fs document policy : result SkipReason text :=
  prepared ← prepare_source fs document policy;
  read_text fs prepared policy.

Definition content_source_unchanged (previous current : CatalogDocument) : bool :=
  let p := cd_metadata previous in
  let c := cd_metadata current in
  bool_decide (ci_object_key (cd_identity previous) = ci_object_key (cd_identity current))
  && bool_decide (m_kind p = m_kind c)
  && bool_decide (m_size p = m_size c)
  && bool_decide (is_Some (m_modified_at p))
  && bool_decide (m_modified_at p = m_modified_at c)
  && bool_decide (m_availability p = m_availability c).

(** *** Stored documents *)

(** [index_document]; an index made before the hash was stored has no field for it. *)
Definition content_index_document (has_hash : bool) document (content hash : text)
  : TantivyDocument :=
  [ (FDocumentId, VText (display DocumentId (ci_document_id (cd_identity document))));
    (FPayload, VJson (document_to_json document));
    (FContent, VText content) ] ++
  (if has_hash then [(FContentHash, VText hash)] else []).

Record StoredContent := MkStoredContent {
  sc_document : CatalogDocument;
  sc_content_hash : option text }.

Definition content_payload (d : TantivyDocument) : result ContentIndexError CatalogDocument :=
  match get_first FPayload (stored_document d) with
  | Some (VJson j) => ok_or (document_from_json j) XSerialization
  | _ => Err XMissingPayload
  end.

Definition decode_stored (has_hash : bool) (d : TantivyDocument)
  : result ContentIndexError StoredContent :=
  document ← content_payload d;
  mret (MkStoredContent document
    (if has_hash then
       match get_first FContentHash (stored_document d) with Some (VText t) => Some t | _ => None end
     else None)).

(** [stored_document]. *)
Definition content_stored_document (i : Index) (has_hash : bool) (id : document_id)
  : result ContentIndexError (option StoredContent) :=
  ds ← map_err XTantivy (search_index i (TermQuery FDocumentId (display DocumentId id)) 1);
  match ds with
  | [] => mret None
  | d :: _ => Some <$> decode_stored has_hash d
  end.

(** [stored_documents]. *)
Fixpoint collect_stored (has_hash : bool) (ds : list TantivyDocument)
  (documents : gmap document_id StoredContent)
  : result ContentIndexError (gmap document_id StoredContent) :=
  match ds with
  | [] => mret documents
  | d :: ds =>
      s ← decode_stored has_hash d;
      collect_stored has_hash ds (<[ci_document_id (cd_identity (sc_document s)) := s]> documents)
  end.

Definition content_stored_documents (i : Index) (has_hash : bool)
  : result ContentIndexError (gmap document_id StoredContent) :=
  ds ← map_err XTantivy (segment_documents i);
  collect_stored has_hash ds ∅.

(** *** Directories *)

(** The files of an index directory: the schema marker, what [Index::open] makes of the rest, and
    which fields the schema of that index has. *)
Record ContentDir := MkContentDir {
  xd_marker : option string;
  xd_index : result TantivyError Index;
  xd_schema : Field → bool }.

Definition set_xd_index (i : Index) (d : ContentDir) : ContentDir :=
  MkContentDir (xd_marker d) (Ok i) (xd_schema d).

(** [schema]. *)
Definition content_schema (f : Field) : bool :=
  match f with FDocumentId | FPayload | FContent | FContentHash => true | _ => false end.

Definition get_field (schema : Field → bool) (f : Field) : result ContentIndexError unit :=
  ensure (schema f) (XTantivy (unknown_field f)).

(** [open_index]: the index and whether it stores hashes. *)
Definition open_index (dir : option ContentDir) : result ContentIndexError (Index * bool) :=
  d ← ok_or dir XIo;
  marker ← ok_or (xd_marker d) XIo;
  ensure (bool_decide (marker = CONTENT_SCHEMA_ID)) XSchemaMismatch ;;
  i ← map_err XTantivy (xd_index d);
  get_field (xd_schema d) FDocumentId ;;
  get_field (xd_schema d) FPayload ;;
  get_field (xd_schema d) FContent ;;
  mret (i, xd_schema d FContentHash).

(** *** Writing *)

Definition content_delete (id : document_id) (w : IndexWriter) : IndexWriter :=
  delete_term FDocumentId (display DocumentId id) w.

Abbreviation writing := (IndexWriter * (SyncCounter → Z))%type.
Definition count_one (c : SyncCounter) (ws : writing) : writing := (ws.1, bump c ws.2).

(** A document that is not eligible or not readable any more leaves the index. *)
Definition evict (prior : option StoredContent) (id : document_id) (reason : SkipReason)
  (ws : writing) : writing :=
  let ws := count_one (SkippedDocuments reason) ws in
  match prior with
  | Some _ => (content_delete id ws.1, bump EvictedDocuments ws.2)
  | None => ws
  end.

(** What [sync_fallible] and [apply_delta] do with one document, given what the index has for it. *)
Definition upsert_step (has_hash : bool) policy fs (prior : option StoredContent) document
  (ws : writing) : result ContentIndexError writing :=
  let id := ci_document_id (cd_identity document) in
  match prepare_source fs document policy with
  | Err reason => mret (evict prior id reason ws)
  | Ok prepared =>
      if bool_decide (sc_document <$> prior = Some document) then
        mret (count_one UnchangedDocuments ws)
      else if match prior with
              | Some stored => content_source_unchanged (sc_document stored) document
              | None => false
              end then mret (count_one MetadataOnlyDocuments ws)
      else
        match read_text fs prepared policy with
        | Err reason => mret (evict prior id reason ws)
        | Ok content =>
            let hash := content_hash content in
            if bool_decide ((prior ≫= sc_content_hash) = Some hash) then
              mret (count_one UnchangedHashDocuments ws)
            else
              w ← map_err XTantivy
                    (add_document (content_index_document has_hash document content hash)
                       (content_delete id ws.1));
              mret (w, bump (match prior with Some _ => UpdatedDocuments | None => AddedDocuments end)
                         ws.2)
        end
  end.

(** The commit: it stamps the summary; merging afterwards may fail, and the commit stays. *)
Definition finish_commit {C} (d : ContentDir) (w : IndexWriter) (counts : C → Z)
  : result ContentIndexError (Summary C) * ContentDir :=
  match writer_commit w with
  | Err e => (Err (XTantivy e), d)
  | Ok i =>
      match wait_merging i with
      | (i, Some e) => (Err (XTantivy e), set_xd_index i d)
      | (i, None) => (Ok (MkSummary counts (commit_opstamp w)), set_xd_index i d)
      end
  end.

(** A failure before the commit drops the writer and leaves the directory alone. *)
Definition commit_work {C} (dir : option ContentDir)
  (work : result ContentIndexError (IndexWriter * (C → Z)))
  : result ContentIndexError (Summary C) * option ContentDir :=
  match work, dir with
  | Ok (w, counts), Some d => let '(r, d) := finish_commit d w counts in (r, Some d)
  | Ok _, None => (Err XIo, dir)
  | Err e, _ => (Err e, dir)
  end.

(** The loops of [apply_delta]; document number [n] sees the answers [fs n]. *)
Fixpoint delta_upserts (has_hash : bool) policy (fs : nat → SourceFs) (i : Index) (n : nat)
  (upserts : list CatalogDocument) (seen : gset document_id) (ws : writing)
  : result ContentIndexError (gset document_id * writing) :=
  match upserts with
  | [] => mret (seen, ws)
  | document :: upserts =>
      let ws := count_one CatalogDocuments ws in
      let id := ci_document_id (cd_identity document) in
      ensure (negb (bool_decide (id ∈ seen))) XDuplicateDocument ;;
      prior ← content_stored_document i has_hash id;
      ws ← upsert_step has_hash policy (fs n) prior document ws;
      delta_upserts has_hash policy fs i (S n) upserts ({[id]} ∪ seen) ws
  end.

Fixpoint delta_deletions (has_hash : bool) (i : Index) (deletions : list document_id)
  (seen : gset document_id) (ws : writing) : result ContentIndexError writing :=
  match deletions with
  | [] => mret ws
  | id :: deletions =>
      ensure (negb (bool_decide (id ∈ seen))) XDuplicateDocument ;;
      prior ← content_stored_document i has_hash id;
      delta_deletions has_hash i deletions ({[id]} ∪ seen)
        match prior with
        | Some _ => (content_delete id ws.1, bump RemovedDocuments ws.2)
        | None => ws
        end
  end.

(** [ContentIndex::apply_delta]. *)
Definition apply_delta (fs : nat → SourceFs) (dir : option ContentDir)
  (upserts : list CatalogDocument) (deletions : list document_id) policy
  : result ContentIndexError ContentSyncSummary * option ContentDir :=
  commit_work dir
    ('(i, has_hash) ← open_index dir;
     map_err XTantivy (index_reader i) ;;
     w ← map_err XTantivy (index_writer i CONTENT_WRITER_HEAP_BYTES);
     '(seen, ws) ← delta_upserts has_hash policy fs i 0 upserts ∅ (w, no_counts);
     delta_deletions has_hash i deletions seen ws).

(** The loop of [sync_fallible] over a snapshot whose pages may fail to load. *)
Fixpoint sync_documents (has_hash : bool) policy (fs : nat → SourceFs) (n : nat)
  (documents : list (result ContentIndexError CatalogDocument))
  (previous : gmap document_id StoredContent) (seen : gset document_id) (ws : writing)
  : result ContentIndexError (gmap document_id StoredContent * writing) :=
  match documents with
  | [] => mret (previous, ws)
  | document :: documents =>
      document ← document;
      let ws := count_one CatalogDocuments ws in
      let id := ci_document_id (cd_identity document) in
      ensure (negb (bool_decide (id ∈ seen))) XDuplicateDocument ;;
      ws ← upsert_step has_hash policy (fs n) (previous !! id) document ws;
      sync_documents has_hash policy fs (S n) documents (delete id previous) ({[id]} ∪ seen) ws
  end.

Definition remove_document (ws : writing) (id : document_id) : writing :=
  (content_delete id ws.1, bump RemovedDocuments ws.2).

(** [ContentIndex::sync_fallible]. *)
Definition sync_fallible (fs : nat → SourceFs) (dir : option ContentDir)
  (documents : list (result ContentIndexError CatalogDocument)) policy
  : result ContentIndexError ContentSyncSummary * option ContentDir :=
  commit_work dir
    ('(i, has_hash) ← open_index dir;
     map_err XTantivy (index_reader i) ;;
     previous ← content_stored_documents i has_hash;
     w ← map_err XTantivy (index_writer i CONTENT_WRITER_HEAP_BYTES);
     '(previous, ws) ← sync_documents has_hash policy fs 0 documents previous ∅ (w, no_counts);
     mret (foldl remove_document ws (btree_elements (dom previous)))).

(** [ContentIndex::sync]. *)
Definition content_sync (fs : nat → SourceFs) (dir : option ContentDir)
  (documents : list CatalogDocument) policy := sync_fallible fs dir (Ok <$> documents) policy.

(** The loop of [build_fallible]. *)
Fixpoint build_documents policy (fs : nat → SourceFs) (n : nat)
  (documents : list (result ContentIndexError CatalogDocument))
  (w : IndexWriter) (counts : BuildCounter → Z)
  : result ContentIndexError (IndexWriter * (BuildCounter → Z)) :=
  match documents with
  | [] => mret (w, counts)
  | document :: documents =>
      document ← document;
      let counts := bump BuildCatalog counts in
      match extract_text (fs n) document policy with
      | Ok content =>
          w ← map_err XTantivy (add_document
                (content_index_document true document content (content_hash content)) w);
          build_documents policy fs (S n) documents w (bump BuildIndexed counts)
      | Err reason => build_documents policy fs (S n) documents w (bump (BuildSkipped reason) counts)
      end
  end.

(** How far the directory gets: not made, made without its marker, or made. *)
Inductive Creation := CreateFails | MarkerFails | Created.

(** [ContentIndex::build_fallible]: an existing directory is never touched. *)
Definition build_fallible (creation : Creation) (fs : nat → SourceFs) (dir : option ContentDir)
  (documents : list (result ContentIndexError CatalogDocument)) policy
  : result ContentIndexError ContentBuildSummary * option ContentDir :=
  match dir, creation with
  | Some _, _ => (Err XIo, dir)
  | None, CreateFails => (Err XIo, None)
  | None, MarkerFails => (Err XIo, Some (MkContentDir None (Err no_index) (λ _, false)))
  | None, Created =>
      commit_work (Some (MkContentDir (Some CONTENT_SCHEMA_ID) index_create content_schema))
        (i ← map_err XTantivy index_create;
         w ← map_err XTantivy (index_writer i CONTENT_WRITER_HEAP_BYTES);
         build_documents policy fs 0 documents w no_counts)
  end.

(** [ContentIndex::build]. *)
Definition content_build (creation : Creation) (fs : nat → SourceFs) (dir : option ContentDir)
  (documents : list CatalogDocument) policy :=
  build_fallible creation fs dir (Ok <$> documents) policy.

(** *** Searching *)

(** [str::trim]. *)
Fixpoint trim_left (t : text) : text :=
  match t with
  | c :: t' => if is_whitespace c then trim_left t' else t
  | [] => []
  end.
Definition trim (t : text) : text := reverse (trim_left (reverse (trim_left t))).

(** [with_single_token_prefix]. *)
Definition with_single_token_prefix (query : text) (parsed : Query) : Query :=
  if (length query <? MIN_CONTENT_PREFIX_CHARS)
     || negb (forallb (λ c, is_alphanumeric c || (c =? 95)%N) query)
  then parsed
  else match (analyze query).*2 with
       | [token] => ShouldQuery parsed (PrefixQuery FContent token)
       | _ => parsed
       end.

(** [bounded_unscored_addresses]: the loop over one scorer, and the loop over the segments. *)
Fixpoint take_alive (lim : nat) (scorer : list (bool * TantivyDocument))
  (addresses : list TantivyDocument) : list TantivyDocument :=
  match scorer with
  | [] => addresses
  | (alive, d) :: scorer =>
      if length addresses <? lim
      then take_alive lim scorer (if alive then addresses ++ [d] else addresses)
      else addresses
  end.

Fixpoint segment_addresses (lim : nat)
  (segments : list (result TantivyError (list (bool * TantivyDocument))))
  (addresses : list TantivyDocument) : result ContentIndexError (list TantivyDocument) :=
  match segments with
  | [] => mret addresses
  | segment :: segments =>
      scorer ← map_err XTantivy segment;
      let addresses := take_alive lim scorer addresses in
      if length addresses =? lim then mret addresses else segment_addresses lim segments addresses
  end.

Definition bounded_unscored_addresses (i : Index) (q : Query) (lim : nat)
  : result ContentIndexError (list TantivyDocument) :=
  segments ← map_err XTantivy (query_weight i q);
  segment_addresses lim segments [].

Fixpoint content_payloads (ds : list TantivyDocument)
  : result ContentIndexError (list CatalogDocument) :=
  match ds with
  | [] => mret []
  | d :: ds => x ← content_payload d; xs ← content_payloads ds; mret (x :: xs)
  end.

(** The request checks of [ContentReader::search]: the trimmed query. *)
Definition check_query (query : string) (lim : Z) : result ContentIndexError text :=
  let query := trim (chars query) in
  ensure (negb (bool_decide (query = []) || (1024 <? byte_length query)
                || negb ((1 <=? lim) && (lim <=? 100))%Z)) XQuery ;;
  mret query.

(** The rest of [ContentReader::search], on the index the reader has open. *)
Definition search_state (i : Index) (query : text) (lim : Z)
  : result ContentIndexError (list CatalogDocument) :=
  parsed ← ok_or (parse_query query) XQuery;
  map_err XTantivy (index_reader i) ;;
  ds ← bounded_unscored_addresses i (with_single_token_prefix query parsed) (Z.to_nat lim);
  content_payloads ds.

(** [ContentReader::document_count], on the index the reader has open. *)
Definition content_document_count (i : Index) : result ContentIndexError nat :=
  map_err XTantivy (index_reader i) ;; map_err XTantivy (count_index i).
End content.
