(* ===== verification/ContentText.v ===== *)
(** What extraction guarantees: the allow-list policy has disjoint roots, and text comes only from
    regular files below a root, within the byte limit, as the exact bytes of the file. *)
From stdpp Require Import base strings numbers gmap list sorting.
From S2P Require Import Prelude Ids Order Models GraphDomain GraphTables Text Catalog Content.

(** ** UTF-8 round trip *)

(** Bit operations of the codec as arithmetic. *)
Lemma lor_shift x y k : (y < 2 ^ k)%N → N.lor (N.shiftl x k) y = (x * 2 ^ k + y)%N.
Proof.
  intros Hy. assert (N.land (N.shiftl x k) y = 0%N) as Hland.
  { apply N.bits_inj. intros i. rewrite N.land_spec, N.bits_0.
    destruct (decide (i < k)%N) as [Hi|Hi]; [by rewrite N.shiftl_spec_low|].
    rewrite <-(N.mod_small y (2 ^ k)) by done. rewrite N.mod_pow2_bits_high by lia. apply andb_false_r. }
  by rewrite <-N.lxor_lor, <-N.add_nocarry_lxor, N.shiftl_mul_pow2.
Qed.

Lemma lor_c0 v : (v < 64)%N → N.lor 0xc0 v = (0xc0 + v)%N.
Proof. intros Hv. exact (lor_shift 3 v 6 Hv). Qed.
Lemma lor_80 v : (v < 128)%N → N.lor 0x80 v = (0x80 + v)%N.
Proof. intros Hv. exact (lor_shift 1 v 7 Hv). Qed.
Lemma lor_e0 v : (v < 32)%N → N.lor 0xe0 v = (0xe0 + v)%N.
Proof. intros Hv. exact (lor_shift 7 v 5 Hv). Qed.
Lemma lor_f0 v : (v < 16)%N → N.lor 0xf0 v = (0xf0 + v)%N.
Proof. intros Hv. exact (lor_shift 15 v 4 Hv). Qed.
Lemma land_3f b : N.land b 0x3f = (b `mod` 64)%N.
Proof. exact (N.land_ones b 6). Qed.
Lemma land_1f b : N.land b 0x1f = (b `mod` 32)%N.
Proof. exact (N.land_ones b 5). Qed.
Lemma land_0f b : N.land b 0xf = (b `mod` 16)%N.
Proof. exact (N.land_ones b 4). Qed.
Lemma land_07 b : N.land b 0x7 = (b `mod` 8)%N.
Proof. exact (N.land_ones b 3). Qed.
Lemma shiftr_div c k : N.shiftr c k = (c / 2 ^ k)%N.
Proof. apply N.shiftr_div_pow2. Qed.

Ltac nlia := zify; Z.to_euclidean_division_equations; lia.

Lemma between_spec lo hi b : between lo hi b = true ↔ (lo ≤ b ≤ hi)%N.
Proof. unfold between. rewrite andb_true_iff, !N.leb_le. done. Qed.

(** The code point of two, three and four bytes as arithmetic. *)
Lemma code_two b0 b1 :
  (0xc2 ≤ b0 ≤ 0xdf)%N → (0x80 ≤ b1 ≤ 0xbf)%N →
  N.lor (N.shiftl (N.land b0 0x1f) 6) (N.land b1 0x3f) = ((b0 - 192) * 64 + (b1 - 128))%N.
Proof.
  intros H0 H1. rewrite land_1f, land_3f, lor_shift by (change (2 ^ 6)%N with 64%N; nlia).
  change (2 ^ 6)%N with 64%N. nlia.
Qed.

Lemma code_tail b1 b2 :
  (0x80 ≤ b1 ≤ 0xbf)%N → (0x80 ≤ b2 ≤ 0xbf)%N →
  N.lor (N.shiftl (N.land b1 0x3f) 6) (N.land b2 0x3f) = ((b1 - 128) * 64 + (b2 - 128))%N.
Proof.
  intros H1 H2. rewrite !land_3f, lor_shift by (change (2 ^ 6)%N with 64%N; nlia).
  change (2 ^ 6)%N with 64%N. nlia.
Qed.

Lemma code_three b0 b1 b2 :
  (0xe0 ≤ b0 ≤ 0xef)%N → (0x80 ≤ b1 ≤ 0xbf)%N → (0x80 ≤ b2 ≤ 0xbf)%N →
  N.lor (N.shiftl (N.land b0 0xf) 12) (N.lor (N.shiftl (N.land b1 0x3f) 6) (N.land b2 0x3f))
  = ((b0 - 224) * 4096 + (b1 - 128) * 64 + (b2 - 128))%N.
Proof.
  intros H0 H1 H2. rewrite code_tail, land_0f, lor_shift by (try change (2 ^ 12)%N with 4096%N; lia).
  change (2 ^ 12)%N with 4096%N. nlia.
Qed.

Lemma code_four b0 b1 b2 b3 :
  (0xf0 ≤ b0 ≤ 0xf4)%N → (0x80 ≤ b1 ≤ 0xbf)%N → (0x80 ≤ b2 ≤ 0xbf)%N → (0x80 ≤ b3 ≤ 0xbf)%N →
  N.lor (N.shiftl (N.land b0 0x7) 18)
    (N.lor (N.shiftl (N.lor (N.shiftl (N.land b1 0x3f) 6) (N.land b2 0x3f)) 6) (N.land b3 0x3f))
  = ((b0 - 240) * 262144 + (b1 - 128) * 4096 + (b2 - 128) * 64 + (b3 - 128))%N.
Proof.
  intros H0 H1 H2 H3. rewrite code_tail, land_3f, land_07 by done.
  rewrite (lor_shift _ (b3 `mod` 64)) by (change (2 ^ 6)%N with 64%N; nlia).
  change (2 ^ 6)%N with 64%N.
  rewrite lor_shift by (change (2 ^ 18)%N with 262144%N; nlia). change (2 ^ 18)%N with 262144%N. nlia.
Qed.

(** The encoder on a code point given by its digits of six bits. *)
Lemma digits_div a b k : (b < k)%N → ((a * k + b) / k = a)%N.
Proof. intros Hb. rewrite N.add_comm, N.div_add by lia. rewrite N.div_small by lia. lia. Qed.
Lemma digits_mod a b k : (b < k)%N → ((a * k + b) `mod` k = b)%N.
Proof. intros Hb. rewrite N.add_comm, N.Div0.mod_add. by apply N.mod_small. Qed.

Lemma encode_two x y :
  (2 ≤ x < 32)%N → (y < 64)%N → encode_char (x * 64 + y) = [0xc0 + x; 0x80 + y]%N.
Proof.
  intros Hx Hy. unfold encode_char. rewrite (proj2 (N.ltb_ge _ _)) by lia.
  rewrite (proj2 (N.ltb_lt _ _)) by lia. rewrite shiftr_div, land_3f. change (2 ^ 6)%N with 64%N.
  rewrite digits_div, digits_mod by done. rewrite lor_c0, lor_80 by lia. done.
Qed.

Lemma encode_three x y z :
  (x < 16)%N → (y < 64)%N → (z < 64)%N → (32 ≤ x * 64 + y)%N →
  encode_char (x * 4096 + y * 64 + z) = [0xe0 + x; 0x80 + y; 0x80 + z]%N.
Proof.
  intros Hx Hy Hz Hlow. unfold encode_char. rewrite !(proj2 (N.ltb_ge _ _)) by lia.
  rewrite (proj2 (N.ltb_lt _ _)) by lia. rewrite !shiftr_div, !land_3f.
  change (2 ^ 6)%N with 64%N. change (2 ^ 12)%N with 4096%N.
  replace (x * 4096 + y * 64 + z)%N with ((x * 64 + y) * 64 + z)%N by lia.
  rewrite digits_div, !digits_mod by done. change 4096%N with (64 * 64)%N.
  rewrite <-N.Div0.div_div, !digits_div by done. rewrite lor_e0, !lor_80 by lia. done.
Qed.

Lemma encode_four w x y z :
  (w < 8)%N → (x < 64)%N → (y < 64)%N → (z < 64)%N → (16 ≤ w * 64 + x)%N →
  encode_char (w * 262144 + x * 4096 + y * 64 + z) = [0xf0 + w; 0x80 + x; 0x80 + y; 0x80 + z]%N.
Proof.
  intros Hw Hx Hy Hz Hlow. unfold encode_char. rewrite !(proj2 (N.ltb_ge _ _)) by lia.
  rewrite !shiftr_div, !land_3f.
  change (2 ^ 6)%N with 64%N. change (2 ^ 12)%N with (64 * 64)%N. change (2 ^ 18)%N with (64 * 64 * 64)%N.
  replace (w * 262144 + x * 4096 + y * 64 + z)%N with (((w * 64 + x) * 64 + y) * 64 + z)%N by lia.
  rewrite <-!N.Div0.div_div, !digits_div, !digits_mod by done. rewrite lor_f0, !lor_80 by lia. done.
Qed.

(** A valid string is the encoding of the characters it decodes to. *)
Lemma utf8_roundtrip_fuel n bytes :
  length bytes ≤ n → utf8_valid bytes = true → (utf8_decode bytes ≫= encode_char) = bytes.
Proof.
  revert bytes. induction n as [|n IH]; intros [|b0 rest] Hlen Hv; simpl in Hlen; [done|lia|done|].
  cbn [utf8_valid utf8_decode] in *. destruct (b0 <? 0x80)%N eqn:H0.
  { csimpl. rewrite IH by (done || lia). unfold encode_char. by rewrite H0. }
  destruct (between 0xc2 0xdf b0) eqn:H2.
  { apply between_spec in H2. destruct rest as [|b1 rest]; [done|].
    apply andb_true_iff in Hv as [H1%between_spec Hv].
    rewrite (proj2 (N.ltb_lt b0 0xe0)) by lia. csimpl in *. rewrite IH by (done || lia).
    rewrite code_two, encode_two by lia. simpl. repeat f_equal; lia. }
  destruct (between 0xe0 0xef b0) eqn:H3.
  { apply between_spec in H3. destruct rest as [|b1 [|b2 rest]]; [done..|].
    apply andb_true_iff in Hv as [[H1 Hb2%between_spec]%andb_true_iff Hv].
    unfold second_of_three in H1.
    rewrite !orb_true_iff, !andb_true_iff, !orb_true_iff, !between_spec, !N.eqb_eq in H1.
    unfold continuation in H1. rewrite between_spec in H1.
    rewrite (proj2 (N.ltb_ge b0 0xe0)), (proj2 (N.ltb_lt b0 0xf0)) by lia. csimpl in *.
    rewrite IH by (done || lia). rewrite code_three, encode_three by lia. simpl. repeat f_equal; lia. }
  destruct (between 0xf0 0xf4 b0) eqn:H4; [|done].
  apply between_spec in H4. destruct rest as [|b1 [|b2 [|b3 rest]]]; [done..|].
  apply andb_true_iff in Hv as [[[H1 Hb2%between_spec]%andb_true_iff Hb3%between_spec]%andb_true_iff Hv].
  unfold second_of_four in H1.
  rewrite !orb_true_iff, !andb_true_iff, !between_spec, !N.eqb_eq in H1.
  unfold continuation in H1. rewrite between_spec in H1.
  rewrite (proj2 (N.ltb_ge b0 0xe0)), (proj2 (N.ltb_ge b0 0xf0)) by lia. csimpl in *.
  rewrite IH by (done || lia). rewrite code_four, encode_four by lia. simpl. repeat f_equal; lia.
Qed.

Lemma from_utf8_encode bytes t : from_utf8 bytes = Some t → (t ≫= encode_char) = bytes.
Proof.
  unfold from_utf8. destruct (utf8_valid bytes) eqn:Hv; [|done]. intros [= <-].
  by eapply utf8_roundtrip_fuel.
Qed.

(** ** Policy *)

Lemma dedup_cons {A} `{EqDecision A} (a b : A) l :
  dedup (a :: b :: l) = if decide (a = b) then dedup (b :: l) else a :: dedup (b :: l).
Proof. done. Qed.

Lemma elem_of_dedup {A} `{EqDecision A} (l : list A) x : x ∈ dedup l ↔ x ∈ l.
Proof.
  induction l as [|a [|b l] IH]; [done..|]. rewrite dedup_cons. destruct (decide (a = b)) as [->|Hne].
  - rewrite IH. set_solver.
  - rewrite elem_of_cons, IH. set_solver.
Qed.

Lemma dedup_NoDup {A} `{EqDecision A} (R : relation A) `{!AntiSymm (=) R} (l : list A) :
  StronglySorted R l → NoDup (dedup l).
Proof.
  induction l as [|a [|b l] IH]; intros Hs; [constructor|apply NoDup_singleton|].
  rewrite dedup_cons. apply StronglySorted_inv in Hs as [Hs Ha]. specialize (IH Hs).
  destruct (decide (a = b)) as [->|Hne]; [done|]. apply NoDup_cons. split; [|done].
  rewrite elem_of_dedup. intros Hin. apply Hne. apply StronglySorted_inv in Hs as [_ Hb].
  rewrite Forall_forall in Ha, Hb. apply (anti_symm R); [apply Ha; left|].
  apply elem_of_cons in Hin as [->|Hin]; [apply Ha; left|by apply Hb].
Qed.

Lemma component_compare_ok : cmp_ok component_compare.
Proof. unfold component_compare. apply (cmp_ok_map string_bytes), cmp_ok_lex. Qed.

Lemma component_compare_eq a b : component_compare a b = Eq → a = b.
Proof. intros H%lex_compare_eq. by apply string_bytes_inj. Qed.

Lemma path_le_total : Total path_le.
Proof.
  apply (sort_by_total (λ p : path, p) (list_compare component_compare)); [|done].
  apply cmp_ok_list, component_compare_ok.
Qed.
Lemma path_le_trans : Transitive path_le.
Proof.
  apply (sort_by_trans (λ p : path, p) (list_compare component_compare)); [|done].
  apply cmp_ok_list, component_compare_ok.
Qed.
Global Instance path_le_antisym : AntiSymm (=) path_le.
Proof.
  intros a b. unfold path_le. rewrite (cmp_opp _ (cmp_ok_list _ component_compare_ok) a b).
  destruct (list_compare component_compare a b) eqn:Hc; try done.
  intros _ _. eapply list_compare_eq; [apply component_compare_eq|done].
Qed.

Lemma canonical_roots_NoDup (l : list path) : NoDup (dedup (merge_sort path_le l)).
Proof.
  pose proof path_le_total. pose proof path_le_trans. apply (dedup_NoDup path_le).
  by apply StronglySorted_merge_sort.
Qed.

Lemma elem_of_canonical_roots (l : list path) p : p ∈ dedup (merge_sort path_le l) ↔ p ∈ l.
Proof. by rewrite elem_of_dedup, merge_sort_Permutation. Qed.

(** No root lies below another. *)
Definition disjoint_roots (roots : list path) : Prop :=
  ∀ p q, p ∈ roots → q ∈ roots → p `prefix_of` q → p = q.

Lemma roots_overlap_false roots :
  NoDup roots → roots_overlap roots = false ↔ disjoint_roots roots.
Proof.
  unfold disjoint_roots. induction roots as [|r roots IH]; intros Hnd; simpl.
  { split; [|done]. by intros _ p q Hp%not_elem_of_nil. }
  apply NoDup_cons in Hnd as [Hr Hnd]. rewrite orb_false_iff, IH by done.
  rewrite <-not_true_iff_false, existsb_exists. unfold starts_with.
  setoid_rewrite orb_true_iff. setoid_rewrite bool_decide_eq_true. setoid_rewrite <-list_elem_of_In.
  split.
  - intros [Hno Hall] p q [->|Hp]%elem_of_cons [->|Hq]%elem_of_cons Hpq; try done; try by apply Hall.
    + exfalso. apply Hno. by eauto.
    + exfalso. apply Hno. by eauto.
  - intros Hall. split; [|intros p q Hp Hq; apply Hall; by right].
    intros (o & Ho & [Hpre|Hpre]); apply Hr.
    + by rewrite (Hall r o) by (done || by left || by right).
    + by rewrite <-(Hall o r) by (done || by left || by right).
Qed.

Section text.
Context `{TV : Tantivy} `{T : TextEnv} `{CE : !ContentEnv}.
Implicit Types (policy : ContentIndexPolicy) (fs : SourceFs).

Record policy_ok policy : Prop := {
  po_limit : (0 < cip_max_file_bytes policy ≤ MAX_CONFIGURED_FILE_BYTES)%Z;
  po_extensions : cip_extensions policy = built_in_extensions;
  po_roots : cip_roots policy ≠ [];
  po_disjoint : disjoint_roots (cip_roots policy) }.

(** What [mapM] over the given roots collects. *)
Lemma canonical_elem fs roots ps p :
  mapM (canonicalize fs) roots = Some ps → p ∈ ps ↔ ∃ r, r ∈ roots ∧ canonicalize fs r = Some p.
Proof.
  intros Hm%mapM_Some. split.
  - intros (i & Hi)%list_elem_of_lookup_1. destruct (Forall2_lookup_r _ _ _ _ _ Hm Hi) as (r & Hr & Hc).
    exists r. split; [by eapply list_elem_of_lookup_2|done].
  - intros (r & (i & Hi)%list_elem_of_lookup_1 & Hc).
    destruct (Forall2_lookup_l _ _ _ _ _ Hm Hi) as (q & Hq & Hc'). rewrite Hc in Hc'. simplify_eq.
    by eapply list_elem_of_lookup_2.
Qed.

(** The opt-in policy: making a policy from given roots succeeds exactly when the byte limit is
    positive and at most 16 MiB, there is a root, every root resolves to a directory, and no two
    different resolved roots are nested; the policy then has exactly the resolved roots, each once. *)
Theorem policy_new_iff (fs : SourceFs) (roots : list string) (max : Z) (policy : ContentIndexPolicy) :
  (0 ≤ max)%Z →
  policy_new fs roots max = Ok policy ↔
  ∃ ps, mapM (canonicalize fs) roots = Some ps
    ∧ (0 < max ≤ MAX_CONFIGURED_FILE_BYTES)%Z ∧ ps ≠ [] ∧ Forall (λ p, is_dir fs p = true) ps
    ∧ disjoint_roots ps
    ∧ policy = MkContentIndexPolicy (dedup (merge_sort path_le ps)) built_in_extensions max.
Proof.
  intros Hmax. unfold policy_new. rewrite result_bind_Ok. setoid_rewrite result_bind_Ok.
  setoid_rewrite ok_or_Ok. split.
  - intros (u & Hlim & ps & Hps & (v & Hrest & [= <-])%result_bind_Ok). exists ps.
    split; [done|]. unfold ensure in Hlim, Hrest.
    destruct (negb _) eqn:Hl in Hlim; [|done]. destruct (negb _) eqn:Hr in Hrest; [|done].
    rewrite negb_true_iff, !orb_false_iff in Hl, Hr. rewrite Z.eqb_neq, Z.ltb_ge in Hl.
    rewrite orb_false_iff, bool_decide_eq_false in Hr. destruct Hr as [[Hne Hdir] Hov].
    rewrite roots_overlap_false in Hov by apply canonical_roots_NoDup.
    split; [lia|]. split; [|split; [|split; [|done]]].
    + intros ->. done.
    + apply Forall_forall. intros p Hp. rewrite <-not_true_iff_false, existsb_exists in Hdir.
      apply not_false_iff_true. intros Hd. apply Hdir. exists p. rewrite Hd. split; [|done].
      by apply list_elem_of_In, elem_of_canonical_roots.
    + intros p q. rewrite <-!(elem_of_canonical_roots ps). apply Hov.
  - intros (ps & Hps & Hlim & Hne & Hdir & Hdis & ->). exists tt. split.
    { unfold ensure. rewrite (proj2 (negb_true_iff _)); [done|]. apply orb_false_iff.
      rewrite Z.eqb_neq, Z.ltb_ge. lia. }
    exists ps. split; [done|]. apply result_bind_Ok. exists tt. split; [|done].
    unfold ensure. rewrite (proj2 (negb_true_iff _)); [done|]. rewrite !orb_false_iff.
    rewrite bool_decide_eq_false, roots_overlap_false by apply canonical_roots_NoDup.
    split; [split|].
    + destruct ps as [|p ps]; [done|]. intros Hnil.
      assert (p ∈ dedup (merge_sort path_le (p :: ps))) as Hin by (apply elem_of_canonical_roots; left).
      rewrite Hnil in Hin. by apply not_elem_of_nil in Hin.
    + rewrite <-not_true_iff_false, existsb_exists. intros (p & Hp%list_elem_of_In & Hd).
      rewrite elem_of_canonical_roots in Hp. rewrite Forall_forall in Hdir. by rewrite Hdir in Hd.
    + intros p q. rewrite !elem_of_canonical_roots. apply Hdis.
Qed.

(** ** Extraction *)

Lemma prepare_source_Ok fs document policy prepared :
  prepare_source fs document policy = Ok prepared →
  is_online_file document = true ∧ allowed_extension policy document = true
  ∧ (m_size (cd_metadata document) ≤ cip_max_file_bytes policy)%Z
  ∧ canonicalize fs (cd_resolved_path document) = Some (pr_canonical prepared)
  ∧ (∃ root, root ∈ cip_roots policy ∧ root `prefix_of` pr_canonical prepared)
  ∧ file_metadata fs (pr_canonical prepared) = Some (true, pr_length prepared).
Proof.
  unfold prepare_source. intros H.
  apply result_bind_Ok in H as (? & Hon%ensure_true & H). apply result_bind_Ok in H as (? & He%ensure_true & H).
  apply result_bind_Ok in H as (? & Hs%ensure_true & H). apply result_bind_Ok in H as (p & Hp%ok_or_Ok & H).
  apply result_bind_Ok in H as (? & Hr%ensure_true & H).
  apply result_bind_Ok in H as ([isf len] & Hm%ok_or_Ok & H).
  apply result_bind_Ok in H as (? & Hf%ensure_true & H).
  apply result_bind_Ok in H as (? & Hl%ensure_true & [= <-]). simpl in *. subst isf.
  apply existsb_exists in Hr as (root & Hroot%list_elem_of_In & Hpre%bool_decide_eq_true).
  apply Z.leb_le in Hs. split_and!; eauto.
Qed.

Lemma read_text_Ok fs prepared policy t :
  policy_ok policy → read_text fs prepared policy = Ok t →
  ∃ bytes, file_bytes fs (pr_canonical prepared) = Some bytes
    ∧ (Z.of_nat (length bytes) ≤ cip_max_file_bytes policy)%Z ∧ (0%N ∉ bytes)
    ∧ (t ≫= encode_char) = bytes.
Proof.
  intros Hpol H. unfold read_text in H. apply result_bind_Ok in H as (content & Hc%ok_or_Ok & H).
  apply result_bind_Ok in H as (? & Hl%ensure_true%Z.leb_le & H).
  apply result_bind_Ok in H as (? & Hz%ensure_true & Ht%ok_or_Ok).
  pose proof (po_limit _ Hpol) as Hlim. unfold MAX_CONFIGURED_FILE_BYTES in Hlim.
  assert (saturating_add u64_max (cip_max_file_bytes policy) 1 = cip_max_file_bytes policy + 1)%Z as Hsat
    by (unfold saturating_add, u64_max; lia). rewrite Hsat in *.
  assert (limit (cip_max_file_bytes policy + 1) content = content) as Hall by (apply limit_short; lia).
  rewrite Hall in Hl, Hz, Ht. apply negb_true_iff, bool_decide_eq_false in Hz.
  exists content. split_and!; try done. by apply from_utf8_encode.
Qed.

(** What it means that [t] was read for a document from the files [fs] under a policy. *)
Definition read_under fs policy (document : CatalogDocument) (t : text) : Prop :=
  is_online_file document = true ∧ allowed_extension policy document = true
  ∧ ∃ p root bytes,
      canonicalize fs (cd_resolved_path document) = Some p ∧ root ∈ cip_roots policy ∧ root `prefix_of` p
      ∧ (∃ len, file_metadata fs p = Some (true, len)) ∧ file_bytes fs p = Some bytes
      ∧ (Z.of_nat (length bytes) ≤ cip_max_file_bytes policy)%Z ∧ (0%N ∉ bytes)
      ∧ (t ≫= encode_char) = bytes.

Lemma extract_text_read fs document policy t :
  policy_ok policy → extract_text fs document policy = Ok t → read_under fs policy document t.
Proof.
  intros Hpol (prepared & Hp & Ht)%result_bind_Ok.
  apply prepare_source_Ok in Hp as (Hon & Hext & _ & Hc & (root & Hroot & Hpre) & Hm).
  destruct (read_text_Ok _ _ _ _ Hpol Ht) as (bytes & Hb & Hlen & Hz & Henc).
  split; [done|]. split; [done|]. exists (pr_canonical prepared), root, bytes. split_and!; eauto.
Qed.
End text.
