(* ===== verification/ContentSpec.v ===== *)
(** What the content index promises: deltas and synchronisations implement pointwise updates of an
    abstract map from documents to their text, failures publish nothing, every document is accounted
    for, only opted-in text is ever indexed, the text is current, and search finds it. *)
From stdpp Require Import base strings numbers gmap list sorting.
From S2P Require Import Prelude Ids Order Models GraphDomain GraphTables Text Catalog KeyedIndex.
From S2P Require Import CatalogSpec Content ContentText.

(** An indexed document: the catalog projection stored with it and the text that was read. *)
Record ContentEntry := MkContentEntry { ce_document : CatalogDocument; ce_text : text }.
Definition document_key (d : CatalogDocument) : document_id := ci_document_id (cd_identity d).
Definition entry_id (e : ContentEntry) : document_id := document_key (ce_document e).
Abbreviation contents := (gmap document_id ContentEntry).

Section spec.
Context `{TV : Tantivy} `{T : TextEnv} `{CE : !ContentEnv} `{!StoreLaws E} `{TL : !TantivyLaws}.
Implicit Types (policy : ContentIndexPolicy) (fs : SourceFs) (m : contents) (h : bool).
Implicit Types (document : CatalogDocument) (e : ContentEntry) (ws : IndexWriter * (SyncCounter → Z)).

(** ** Refinement *)

Definition entry_document h e : TantivyDocument :=
  content_index_document h (ce_document e) (ce_text e) (content_hash (ce_text e)).
Definition entry_stored h e : StoredContent :=
  MkStoredContent (ce_document e) (if h then Some (content_hash (ce_text e)) else None).
Abbreviation holds h := (holds_docs (entry_document h) entry_id).

Lemma entry_terms h e :
  (doc_terms FDocumentId (entry_document h e)).*2 = [display DocumentId (entry_id e)].
Proof. done. Qed.

Lemma payload_entry h e : content_payload (entry_document h e) = Ok (ce_document e).
Proof. unfold content_payload. destruct h; simpl; by rewrite document_json_roundtrip. Qed.

Lemma decode_entry h e : decode_stored h (entry_document h e) = Ok (entry_stored h e).
Proof. unfold decode_stored. rewrite payload_entry. by destruct h. Qed.

Lemma stored_lookup i h m id o :
  holds h (live i) m → in_u128 id → content_stored_document i h id = Ok o →
  o = entry_stored h <$> m !! id.
Proof.
  intros Hr Hid (ds & Hds%map_err_Ok & Ho)%result_bind_Ok.
  apply (lookup_value _ entry_id (entry_terms h) i m) in Hds; [|done..].
  destruct ds as [|d ds], (m !! id) as [e|]; simplify_eq/=; [by injection Ho as <-|].
  rewrite decode_entry in Ho. by injection Ho as <-.
Qed.

(** Reading the whole index back. *)
Lemma collect_entries h (es : list ContentEntry) acc :
  NoDup (entry_id <$> es) → (∀ e, e ∈ es → acc !! entry_id e = None) →
  collect_stored h (entry_document h <$> es) acc
  = Ok (list_to_map ((λ e, (entry_id e, entry_stored h e)) <$> es) ∪ acc).
Proof.
  revert acc. induction es as [|e es IH]; intros acc Hnd Hacc; csimpl.
  { unfold mret, result_ret. by rewrite map_empty_union. }
  rewrite fmap_cons, NoDup_cons in Hnd. destruct Hnd as [He Hnd]. rewrite decode_entry.
  cbn [mbind result_bind]. rewrite IH; [|done|].
  - f_equal. rewrite insert_union_singleton_l, map_union_assoc. f_equal.
    rewrite insert_union_singleton_l. apply map_union_comm, map_disjoint_singleton_r.
    apply not_elem_of_list_to_map_1. rewrite <-list_fmap_compose. done.
  - intros e' He'. rewrite lookup_insert_ne; [apply Hacc; by right|].
    intros Heq. apply He. apply list_elem_of_fmap. exists e'. by rewrite <-Heq.
Qed.

Lemma stored_all i h m p :
  holds h (live i) m → content_stored_documents i h = Ok p → p = entry_stored h <$> m.
Proof.
  intros Hr (ds & Hds%map_err_Ok & Hp)%result_bind_Ok. apply segments_spec in Hds.
  destruct (holds_split _ entry_id ds [] (live i) m Hr) as (es & zs & -> & Hz & Hes);
    [by rewrite app_nil_r|]. symmetry in Hz. apply fmap_nil_inv in Hz as ->.
  rewrite app_nil_r in Hes. pose proof (keyed_values_ids entry_id m (proj1 Hr)) as Hnd.
  rewrite <-Hes in Hnd. rewrite collect_entries in Hp; [|done|intros; apply lookup_empty].
  injection Hp as <-. rewrite map_union_empty. apply map_eq. intros d. rewrite lookup_fmap.
  apply option_eq. intros s. rewrite <-elem_of_list_to_map by (by rewrite <-list_fmap_compose).
  rewrite list_elem_of_fmap, fmap_Some. split.
  - intros (e & [= -> ->] & He). exists e. split; [|done]. rewrite Hes in He.
    by apply (keyed_values entry_id m e (proj1 Hr)).
  - intros (e & He & ->). destruct (proj1 Hr d e He) as [<- _]. exists e. split; [done|].
    rewrite Hes. by apply (keyed_values entry_id m e (proj1 Hr)).
Qed.

(** ** One document *)

(** What the index holds for a document after it was processed, from what it held before. *)
Definition upsert_entry h policy fs document (prior : option ContentEntry) : option ContentEntry :=
  match prepare_source fs document policy with
  | Err _ => None
  | Ok prepared =>
      if bool_decide (ce_document <$> prior = Some document) then prior
      else if match prior with
              | Some e => content_source_unchanged (ce_document e) document
              | None => false
              end then prior
      else
        match read_text fs prepared policy with
        | Err _ => None
        | Ok t =>
            if h && bool_decide (content_hash ∘ ce_text <$> prior = Some (content_hash t)) then prior
            else Some (MkContentEntry document t)
        end
  end.

(** The ways of processing one document: what the index holds then, the writer and the counters. *)
Inductive processed h (id : document_id) (prior : option ContentEntry) ws
  : option ContentEntry → IndexWriter * (SyncCounter → Z) → Prop :=
| processed_kept c :
    c ∈ [UnchangedDocuments; MetadataOnlyDocuments; UnchangedHashDocuments] → is_Some prior →
    processed h id prior ws prior (ws.1, bump c ws.2)
| processed_skipped r :
    prior = None → processed h id prior ws None (ws.1, bump (SkippedDocuments r) ws.2)
| processed_evicted r :
    is_Some prior →
    processed h id prior ws None
      (content_delete id ws.1, bump EvictedDocuments (bump (SkippedDocuments r) ws.2))
| processed_written e w :
    entry_id e = id → add_document (entry_document h e) (content_delete id ws.1) = Ok w →
    processed h id prior ws (Some e)
      (w, bump (match prior with Some _ => UpdatedDocuments | None => AddedDocuments end) ws.2).

Lemma evict_processed h id prior r ws :
  processed h id prior ws None (evict (entry_stored h <$> prior) id r ws).
Proof.
  destruct prior as [e|]; [exact (processed_evicted h id (Some e) ws r ltac:(done))|].
  exact (processed_skipped h id None ws r eq_refl).
Qed.

Lemma upsert_step_processed h policy fs document prior ws ws' :
  upsert_step h policy fs (entry_stored h <$> prior) document ws = Ok ws' →
  processed h (document_key document) prior ws (upsert_entry h policy fs document prior) ws'.
Proof.
  unfold upsert_step, upsert_entry.
  destruct (prepare_source fs document policy) as [prepared|r]; [|intros [= <-]; apply evict_processed].
  assert (sc_document <$> (entry_stored h <$> prior) = ce_document <$> prior) as -> by (by destruct prior).
  case_bool_decide as Hsame.
  { intros [= <-]. apply processed_kept; [set_solver|by destruct prior]. }
  assert (match entry_stored h <$> prior with
    | Some stored => content_source_unchanged (sc_document stored) document | None => false end
    = match prior with Some e => content_source_unchanged (ce_document e) document | None => false end)
    as -> by (by destruct prior).
  destruct (match prior with Some e => _ | None => false end) eqn:Hmeta.
  { intros [= <-]. apply processed_kept; [set_solver|by destruct prior]. }
  destruct (read_text fs prepared policy) as [t|r]; [|intros [= <-]; apply evict_processed].
  assert (bool_decide (((entry_stored h <$> prior) ≫= sc_content_hash) = Some (content_hash t))
    = h && bool_decide (content_hash ∘ ce_text <$> prior = Some (content_hash t))) as ->
    by (by destruct prior, h).
  destruct (h && _) eqn:Hhash.
  { intros [= <-]. apply processed_kept; [set_solver|].
    apply andb_true_iff in Hhash as [_ Hhash%bool_decide_eq_true]. by destruct prior. }
  intros (w & Hadd%map_err_Ok & [= <-])%result_bind_Ok.
  assert (match entry_stored h <$> prior with Some _ => UpdatedDocuments | None => AddedDocuments end
    = match prior with Some _ => UpdatedDocuments | None => AddedDocuments end) as ->
    by (by destruct prior).
  by apply (processed_written h _ prior ws (MkContentEntry document t)).
Qed.

Lemma processed_holds h id m ws o ws' :
  holds h (pending ws.1) m → in_u128 id → processed h id (m !! id) ws o ws' →
  holds h (pending ws'.1) (partial_alter (λ _, o) id m).
Proof.
  intros Hh Hid [c _ _|r Hno|r _|e w <- Hadd]; simpl.
  - by rewrite partial_alter_self.
  - by rewrite <-Hno, partial_alter_self.
  - by apply (delete_holds _ entry_id (entry_terms h)).
  - assert (partial_alter (λ _, Some e) (entry_id e) m = <[entry_id e := e]> (delete (entry_id e) m))
      as -> by (by rewrite insert_delete_eq).
    apply (add_holds _ entry_id e (content_delete (entry_id e) ws.1)); [done|apply lookup_delete_eq| |done].
    by apply (delete_holds _ entry_id (entry_terms h)).
Qed.

(** ** Deltas *)

(** Counting: [n] bounds every counter, the outcomes add up to the documents, and the number of
    entries changed by what was added, evicted and removed. *)
Definition outcome_counters : list SyncCounter :=
  [UnchangedDocuments; MetadataOnlyDocuments; UnchangedHashDocuments; AddedDocuments; UpdatedDocuments;
   SkippedDocuments OutsideRoots; SkippedDocuments Unavailable; SkippedDocuments Extension;
   SkippedDocuments TooLarge; SkippedDocuments NonText; SkippedDocuments SkipIo].
Definition sum_counters (l : list SyncCounter) (counts : SyncCounter → Z) : Z :=
  foldr (λ c n, (counts c + n)%Z) 0%Z l.

Record accounts (m0 : contents) (n : nat) (counts : SyncCounter → Z) (m : contents) : Prop := {
  ac_bound c : (0 ≤ counts c ≤ Z.of_nat n)%Z;
  ac_outcomes : sum_counters outcome_counters counts = counts CatalogDocuments;
  ac_size : (Z.of_nat (size m) + counts EvictedDocuments + counts RemovedDocuments
             = Z.of_nat (size m0) + counts AddedDocuments)%Z }.

(** Counters that are bumped together. *)
Lemma bumps_eval (cs : list SyncCounter) counts c :
  NoDup cs → (counts c < u64_max)%Z →
  foldr bump counts cs c = (counts c + if decide (c ∈ cs) then 1 else 0)%Z.
Proof.
  induction cs as [|x cs IH]; intros Hnd Hc; [rewrite decide_False by apply not_elem_of_nil; simpl; lia|].
  apply NoDup_cons in Hnd as [Hx Hnd]. simpl. unfold bump at 1. rewrite IH by done.
  destruct (decide (c = x)) as [->|Hne].
  - rewrite (decide_False (P := x ∈ cs)), decide_True by (done || set_solver). unfold saturating_add. lia.
  - assert (c ∈ x :: cs ↔ c ∈ cs) as Hiff by set_solver. by rewrite (decide_ext _ _ 1 0 Hiff)%Z.
Qed.

Lemma sum_bumps l cs counts :
  NoDup cs → (∀ c, c ∈ l → counts c < u64_max)%Z →
  sum_counters l (foldr bump counts cs)
  = (sum_counters l counts + Z.of_nat (length (filter (λ c, c ∈ cs) l)))%Z.
Proof.
  intros Hnd. induction l as [|x l IH]; intros Hl; [done|]. simpl.
  rewrite bumps_eval by (done || apply Hl; left).
  rewrite IH by (intros; apply Hl; by right). rewrite filter_cons. case_decide; simpl; lia.
Qed.
Definition present {A} (o : option A) : Z := match o with Some _ => 1 | None => 0 end.

Lemma size_alter (m : contents) id o :
  Z.of_nat (size (partial_alter (λ _, o) id m))
  = (Z.of_nat (size m) + present o - present (m !! id))%Z.
Proof.
  destruct o as [e|].
  - change (partial_alter (λ _, Some e) id m) with (<[id := e]> m). rewrite map_size_insert.
    destruct (m !! id); simpl; lia.
  - change (partial_alter (λ _, None) id m) with (delete id m). rewrite map_size_delete.
    destruct (m !! id) eqn:Hm; simpl; [|lia]. assert (size m ≠ 0); [|lia].
    intros Hz%map_size_empty_inv. by rewrite Hz, lookup_empty in Hm.
Qed.

(** The counters one document bumps. *)
Lemma processed_counters h id prior ws o ws' :
  processed h id prior ws o ws' →
  ∃ c es, ws'.2 = foldr bump ws.2 (es ++ [c]) ∧ NoDup (es ++ [c]) ∧ c ∈ outcome_counters
    ∧ (es = [] ∨ es = [EvictedDocuments])
    ∧ (present o + Z.of_nat (length es)
       = present prior + if decide (c = AddedDocuments) then 1 else 0)%Z.
Proof.
  intros [c Hc Hp|r ->|r Hp|e w _ _].
  - exists c, []. split; [done|]. split; [apply NoDup_singleton|]. destruct Hp as [e ->].
    split; [set_solver|]. split; [by left|]. rewrite decide_False; [simpl; lia|set_solver].
  - exists (SkippedDocuments r), []. split; [done|]. split; [apply NoDup_singleton|].
    split; [destruct r; set_solver|]. split; [by left|]. by rewrite decide_False.
  - exists (SkippedDocuments r), [EvictedDocuments]. destruct Hp as [e ->]. split; [done|].
    split; [apply NoDup_cons; split; [set_solver|apply NoDup_singleton]|].
    split; [destruct r; set_solver|]. split; [by right|]. rewrite decide_False by done. simpl. lia.
  - exists (match prior with Some _ => UpdatedDocuments | None => AddedDocuments end), [].
    split; [done|]. split; [apply NoDup_singleton|]. destruct prior; simpl; (split; [set_solver|]); (split; [by left|reflexivity]).
Qed.

Lemma processed_accounts h id m0 m n ws o ws' :
  accounts m0 n ws.2 m → (Z.of_nat n < u64_max)%Z →
  processed h id (m !! id) (count_one CatalogDocuments ws) o ws' →
  accounts m0 (S n) ws'.2 (partial_alter (λ _, o) id m)
  ∧ ws'.2 CatalogDocuments = (ws.2 CatalogDocuments + 1)%Z.
Proof.
  intros [Hb Ho Hs] Hn (c & es & -> & Hnd & Hc & Hes & Hsize)%processed_counters.
  change ((count_one CatalogDocuments ws).2) with (foldr bump ws.2 [CatalogDocuments]).
  rewrite <-foldr_app. set (cs := (es ++ [c]) ++ [CatalogDocuments]).
  assert (NoDup cs) as Hcs.
  { apply NoDup_app. split; [done|]. split; [|apply NoDup_singleton].
    intros x [Hx| ->%list_elem_of_singleton]%elem_of_app; [|set_solver].
    destruct Hes as [->| ->]; set_solver. }
  assert (∀ c, foldr bump ws.2 cs c = ws.2 c + if decide (c ∈ cs) then 1 else 0)%Z as Heval.
  { intros c'. apply bumps_eval; [done|]. specialize (Hb c'). lia. }
  assert (∀ x, x ∈ cs ↔ x ∈ es ∨ x = c ∨ x = CatalogDocuments) as Hin by (unfold cs; set_solver).
  assert (c ≠ EvictedDocuments ∧ c ≠ RemovedDocuments) as [Hc1 Hc2] by set_solver.
  split; [|by rewrite Heval, decide_True by (apply Hin; auto)]. split.
  - intros c'. rewrite Heval. specialize (Hb c'). destruct (decide (c' ∈ cs)); lia.
  - rewrite sum_bumps, Heval, Ho by (done || (intros c' _; specialize (Hb c'); lia)).
    rewrite decide_True by (apply Hin; auto). f_equal.
    enough (filter (λ x, x ∈ cs) outcome_counters ≡ₚ [c]) as -> by done.
    apply NoDup_Permutation; [apply NoDup_filter, (bool_decide_unpack _); done|apply NoDup_singleton|].
    intros x. rewrite list_elem_of_filter, list_elem_of_singleton, Hin. split; [|intros ->; auto].
    intros [[Hx|[->| ->]] Hout]; [destruct Hes as [->| ->]|done|]; set_solver.
  - rewrite size_alter, !Heval. rewrite (decide_False (P := RemovedDocuments ∈ cs))
      by (rewrite Hin; destruct Hes as [->| ->]; set_solver).
    assert (AddedDocuments ∈ cs ↔ c = AddedDocuments) as Hadd
      by (rewrite Hin; destruct Hes as [->| ->]; set_solver).
    rewrite (decide_ext _ _ 1 0 Hadd)%Z.
    assert ((if decide (EvictedDocuments ∈ cs) then 1 else 0) = Z.of_nat (length es))%Z as ->; [|lia].
    destruct Hes as [->| ->]; [rewrite decide_False|rewrite decide_True]; try done; rewrite Hin; set_solver.
Qed.

(** A run over distinct documents, given what the index held at the start. *)
Inductive trace h policy (fs : nat → SourceFs) m0
  : nat → list CatalogDocument → gset document_id → IndexWriter * (SyncCounter → Z) →
    gset document_id → IndexWriter * (SyncCounter → Z) → Prop :=
| trace_nil n seen ws : trace h policy fs m0 n [] seen ws seen ws
| trace_cons n document documents seen ws ws1 seen' ws' :
    document_key document ∉ seen →
    upsert_step h policy (fs n) (entry_stored h <$> m0 !! document_key document) document
      (count_one CatalogDocuments ws) = Ok ws1 →
    trace h policy fs m0 (S n) documents ({[document_key document]} ∪ seen) ws1 seen' ws' →
    trace h policy fs m0 n (document :: documents) seen ws seen' ws'.

Abbreviation typed documents := (Forall (λ d, in_u128 (document_key d)) documents).
Abbreviation keys documents := (document_key <$> documents).

Lemma delta_upserts_trace h policy (fs : nat → SourceFs) i n documents seen ws seen' ws' m0 :
  holds h (live i) m0 → typed documents →
  delta_upserts h policy fs i n documents seen ws = Ok (seen', ws') →
  trace h policy fs m0 n documents seen ws seen' ws'.
Proof.
  intros Hh. revert n seen ws. induction documents as [|d ds IH]; intros n seen ws Hty H; simpl in H.
  { injection H as <- <-. constructor. }
  apply Forall_cons in Hty as [Hd Hty]. apply result_bind_Ok in H as (? & Hs%ensure_true & H).
  apply result_bind_Ok in H as (prior & Hp & H). apply result_bind_Ok in H as (ws1 & Hw & H).
  apply (stored_lookup _ _ m0) in Hp as ->; [|done..].
  apply negb_true_iff, bool_decide_eq_false in Hs. by eapply trace_cons; [| |apply IH].
Qed.

Lemma sync_documents_trace h policy (fs : nat → SourceFs) n documents previous seen ws previous' ws' m0 :
  (∀ d, d ∉ seen → previous !! d = entry_stored h <$> m0 !! d) →
  (∀ d, d ∈ seen → previous !! d = None) →
  sync_documents h policy fs n documents previous seen ws = Ok (previous', ws') →
  ∃ docs seen', documents = Ok <$> docs ∧ trace h policy fs m0 n docs seen ws seen' ws'
    ∧ (∀ d, d ∉ seen' → previous' !! d = entry_stored h <$> m0 !! d)
    ∧ (∀ d, d ∈ seen' → previous' !! d = None).
Proof.
  revert n previous seen ws. induction documents as [|r ds IH]; intros n previous seen ws Hp1 Hp2 H; simpl in H.
  { injection H as <- <-. exists [], seen. split_and!; try done. constructor. }
  apply result_bind_Ok in H as (d & -> & H). apply result_bind_Ok in H as (? & Hs%ensure_true & H).
  apply result_bind_Ok in H as (ws1 & Hw & H). apply negb_true_iff, bool_decide_eq_false in Hs.
  change (ci_document_id (cd_identity d)) with (document_key d) in *. rewrite Hp1 in Hw by done.
  apply IH in H as (docs & seen' & -> & Htr & H1 & H2).
  - exists (d :: docs), seen'. split_and!; try done. by eapply trace_cons.
  - intros y Hy. rewrite lookup_delete_ne by set_solver. apply Hp1. set_solver.
  - intros y Hy. destruct (decide (y = document_key d)) as [->|Hne]; [apply lookup_delete_eq|].
    rewrite lookup_delete_ne by done. apply Hp2. set_solver.
Qed.

(** What a run does to the index and the counters. *)
Lemma trace_spec h policy (fs : nat → SourceFs) m0 n documents seen ws seen' ws' m k :
  trace h policy fs m0 n documents seen ws seen' ws' →
  holds h (pending ws.1) m → (∀ d, d ∉ seen → m !! d = m0 !! d) → typed documents →
  accounts m0 k ws.2 m → (Z.of_nat (k + length documents) ≤ u64_max)%Z →
  ∃ m', holds h (pending ws'.1) m' ∧ accounts m0 (k + length documents) ws'.2 m'
    ∧ NoDup (keys documents) ∧ (∀ d, d ∈ seen' ↔ d ∈ keys documents ∨ d ∈ seen)
    ∧ (∀ d, d ∈ keys documents → d ∉ seen)
    ∧ (∀ j d, documents !! j = Some d →
         m' !! document_key d = upsert_entry h policy (fs (n + j)) d (m0 !! document_key d))
    ∧ (∀ d, d ∉ keys documents → m' !! d = m !! d)
    ∧ ws'.2 CatalogDocuments = (ws.2 CatalogDocuments + Z.of_nat (length documents))%Z.
Proof.
  intros Htr. revert m k. induction Htr as [n seen ws|n d ds seen ws ws1 seen' ws' Hd Hstep _ IH];
    intros m k Hh Hm Hty Hac Hlen.
  { exists m. simpl. rewrite Nat.add_0_r, Z.add_0_r. split_and!; try done; try apply NoDup_nil_2; set_solver. }
  apply Forall_cons in Hty as [Hud Hty]. simpl in Hlen. rewrite <-Hm in Hstep by done.
  apply upsert_step_processed in Hstep as Hpr. set (o := upsert_entry h policy (fs n) d (m !! document_key d)) in Hpr.
  pose proof (processed_holds _ _ m (count_one CatalogDocuments ws) _ _ Hh Hud Hpr) as Hh1.
  pose proof (processed_accounts _ _ m0 m k ws _ _ Hac ltac:(lia) Hpr) as [Hac1 Hcat1].
  destruct (IH _ (S k) Hh1) as (m' & Hh' & Hac' & Hnd & Hseen & Hnew & Hpt & Hrest & Hcat); [|done..|lia|].
  { intros x Hx. rewrite lookup_partial_alter_ne by set_solver. apply Hm. set_solver. }
  assert (document_key d ∉ keys ds) as Hdd by (intros Hin%Hnew; set_solver).
  exists m'. simpl. replace (k + S (length ds)) with (S k + length ds) by lia. split_and!; try done.
  - apply NoDup_cons. done.
  - intros x. rewrite Hseen. set_solver.
  - intros x [->|Hx]%elem_of_cons; [done|]. apply Hnew in Hx. set_solver.
  - intros [|j] x Hj; simpl in Hj.
    + injection Hj as <-. rewrite Hrest, lookup_partial_alter_eq, Nat.add_0_r, <-Hm by done. done.
    + rewrite (Hpt j x Hj). f_equal. f_equal. lia.
  - intros x Hx. rewrite Hrest by set_solver. apply lookup_partial_alter_ne. set_solver.
  - rewrite Hcat, Hcat1. lia.
Qed.

(** Removals. *)
Lemma accounts_weaken m0 n n' counts m : accounts m0 n counts m → n ≤ n' → accounts m0 n' counts m.
Proof. intros [Hb Ho Hs] Hn. split; [|done..]. intros c. specialize (Hb c). lia. Qed.

Lemma remove_spec h m0 m n ws id :
  holds h (pending ws.1) m → in_u128 id → is_Some (m !! id) →
  accounts m0 n ws.2 m → (Z.of_nat n < u64_max)%Z →
  holds h (pending (remove_document ws id).1) (delete id m)
  ∧ accounts m0 (S n) (remove_document ws id).2 (delete id m)
  ∧ (remove_document ws id).2 CatalogDocuments = ws.2 CatalogDocuments.
Proof.
  intros Hh Hid [e He] [Hb Ho Hs] Hn. split; [by apply (delete_holds _ entry_id (entry_terms h))|].
  assert (∀ c, (remove_document ws id).2 c = ws.2 c + if decide (c ∈ [RemovedDocuments]) then 1 else 0)%Z as Heval.
  { intros c. apply (bumps_eval [RemovedDocuments]); [apply NoDup_singleton|]. specialize (Hb c). lia. }
  split; [|by rewrite Heval, Z.add_0_r]. split.
  - intros c. rewrite Heval. specialize (Hb c). destruct (decide (c ∈ [RemovedDocuments])); lia.
  - rewrite Heval, Z.add_0_r, <-Ho. change (remove_document ws id).2 with (foldr bump ws.2 [RemovedDocuments]).
    rewrite sum_bumps; [simpl; lia|apply NoDup_singleton|]. intros c _. specialize (Hb c). lia.
  - rewrite !Heval. change (delete id m) with (partial_alter (λ _, None) id m). rewrite size_alter, He.
    simpl. lia.
Qed.

Lemma delta_deletions_spec h i deletions seen ws ws' m0 m n :
  holds h (live i) m0 → Forall in_u128 deletions →
  holds h (pending ws.1) m → (∀ d, d ∉ seen → m !! d = m0 !! d) →
  accounts m0 n ws.2 m → (Z.of_nat (n + length deletions) ≤ u64_max)%Z →
  delta_deletions h i deletions seen ws = Ok ws' →
  ∃ m', holds h (pending ws'.1) m' ∧ accounts m0 (n + length deletions) ws'.2 m'
    ∧ NoDup deletions ∧ (∀ d, d ∈ deletions → (d ∉ seen) ∧ m' !! d = None)
    ∧ (∀ d, d ∉ deletions → m' !! d = m !! d)
    ∧ ws'.2 CatalogDocuments = ws.2 CatalogDocuments.
Proof.
  intros H0. revert seen ws m n. induction deletions as [|d ds IH]; intros seen ws m n Hty Hh Hm Hac Hlen H;
    simpl in H.
  { injection H as <-. exists m. rewrite Nat.add_0_r. split_and!; try done; [apply NoDup_nil_2|set_solver]. }
  apply Forall_cons in Hty as [Hd Hty]. apply result_bind_Ok in H as (? & Hs%ensure_true & H).
  apply result_bind_Ok in H as (prior & Hp & H). apply negb_true_iff, bool_decide_eq_false in Hs.
  apply (stored_lookup _ _ m0) in Hp as ->; [|done..]. rewrite <-Hm in H by done. simpl in Hlen.
  assert (∃ ws1, delta_deletions h i ds ({[d]} ∪ seen) ws1 = Ok ws' ∧ holds h (pending ws1.1) (delete d m)
    ∧ accounts m0 (S n) ws1.2 (delete d m) ∧ ws1.2 CatalogDocuments = ws.2 CatalogDocuments)
    as (ws1 & H1 & Hh1 & Hac1 & Hc1).
  { destruct (m !! d) as [e|] eqn:He; simpl in H.
    - exists (remove_document ws d). split; [done|]. apply remove_spec; try done. lia.
    - exists ws. rewrite delete_id by done. split_and!; try done. eapply accounts_weaken; [done|lia]. }
  destruct (IH ({[d]} ∪ seen) ws1 (delete d m) (S n) Hty Hh1) as (m' & Hh' & Hac' & Hnd & Hgone & Hrest & Hcat);
    [|done|lia|done|].
  { intros y Hy. rewrite lookup_delete_ne by set_solver. apply Hm. set_solver. }
  assert (d ∉ ds) as Hdd by (intros [Hin _]%Hgone; set_solver).
  exists m'. simpl. replace (n + S (length ds)) with (S n + length ds) by lia. split_and!; try done.
  - by apply NoDup_cons.
  - intros y [->|Hy]%elem_of_cons; [|apply Hgone in Hy; set_solver].
    split; [done|]. rewrite Hrest by done. apply lookup_delete_eq.
  - intros y Hy. rewrite Hrest by set_solver. apply lookup_delete_ne. set_solver.
  - by rewrite Hcat.
Qed.

(** *** Commits *)

Definition dir_holds (dir : option ContentDir) h m : Prop :=
  ∃ i, open_index dir = Ok (i, h) ∧ holds h (live i) m.

Lemma open_index_set dir i h d i' :
  open_index dir = Ok (i, h) → dir = Some d → open_index (Some (set_xd_index i' d)) = Ok (i', h).
Proof.
  intros H ->. unfold open_index in *. cbn [ok_or] in *.
  apply result_bind_Ok in H as (? & [= <-] & H). apply result_bind_Ok in H as (mk & Hmk & H).
  apply result_bind_Ok in H as (? & Hen & H). apply result_bind_Ok in H as (i0 & _ & H).
  apply result_bind_Ok in H as (? & H1 & H). apply result_bind_Ok in H as (? & H2 & H).
  apply result_bind_Ok in H as (? & H3 & [= _ <-]).
  cbn [mbind result_bind set_xd_index xd_marker xd_index xd_schema map_err] in *.
  rewrite Hmk. cbn [mbind result_bind]. rewrite Hen. cbn [mbind result_bind]. rewrite H1.
  cbn [mbind result_bind]. rewrite H2. cbn [mbind result_bind]. by rewrite H3.
Qed.

(** Everything or nothing: a failure before the commit leaves the directory, anything later has
    committed what the writer held. *)
Lemma commit_work_spec {C} dir (work : result ContentIndexError (IndexWriter * (C → Z))) r dir' :
  commit_work dir work = (r, dir') →
  (dir' = dir ∧ ∃ x, r = Err x) ∨
  ∃ d w counts i', dir = Some d ∧ work = Ok (w, counts) ∧ dir' = Some (set_xd_index i' d)
    ∧ live i' ≡ₚ pending w ∧ ∀ s, r = Ok s → s = MkSummary counts (commit_opstamp w).
Proof.
  unfold commit_work. destruct work as [[w counts]|x]; [|intros [= <- <-]; left; eauto].
  destruct dir as [d|]; [|intros [= <- <-]; left; eauto]. unfold finish_commit.
  destruct (writer_commit w) as [i|x] eqn:Hc; [|intros [= <- <-]; left; eauto].
  pose proof (merge_live i) as Hm. apply commit_live in Hc. rewrite Hc in Hm.
  destruct (wait_merging i) as [i' [x|]]; intros [= <- <-]; right; exists d, w, counts, i';
    split_and!; try done; by intros s [= <-].
Qed.

(** What processing [upserts] and [deletions] makes of the index. *)
Record delta_result h policy (fs : nat → SourceFs) (upserts : list CatalogDocument)
  (deletions : list document_id) (m m' : contents) : Prop := {
  dr_distinct : NoDup (keys upserts ++ deletions);
  dr_upserted j d : upserts !! j = Some d →
    m' !! document_key d = upsert_entry h policy (fs j) d (m !! document_key d);
  dr_deleted d : d ∈ deletions → m' !! d = None;
  dr_kept d : d ∉ keys upserts → d ∉ deletions → m' !! d = m !! d }.

Lemma accounts_start m n : accounts m n no_counts m.
Proof. split; [intros c; unfold no_counts; lia|done|]. unfold no_counts. lia. Qed.

(** A delta that got to its commit. *)
Lemma apply_delta_committed (fs : nat → SourceFs) dir upserts deletions policy r dir' h m :
  dir_holds dir h m → typed upserts → Forall in_u128 deletions →
  (Z.of_nat (length upserts + length deletions) ≤ u64_max)%Z →
  apply_delta fs dir upserts deletions policy = (r, dir') →
  (dir' = dir ∧ ∃ x, r = Err x) ∨
  ∃ m', dir_holds dir' h m' ∧ delta_result h policy fs upserts deletions m m' ∧
    ∀ s, r = Ok s → accounts m (length upserts + length deletions) (su_count s) m'
      ∧ su_count s CatalogDocuments = Z.of_nat (length upserts).
Proof.
  intros (i & Hi & Hh) Hup Hdel Hlen [Hfail|(d & w & counts & i' & Hd & Hwork & -> & Hlive & Hsum)]%commit_work_spec;
    [by left|right].
  rewrite Hi in Hwork. cbn [mbind result_bind] in Hwork.
  apply result_bind_Ok in Hwork as (? & _ & Hwork). apply result_bind_Ok in Hwork as (w0 & Hw0%map_err_Ok & Hwork).
  apply result_bind_Ok in Hwork as ([seen ws] & Hups & Hdels). apply writer_pending in Hw0.
  apply (delta_upserts_trace _ _ _ _ _ _ _ _ _ _ m) in Hups; [|done..].
  assert (holds h (pending (w0, no_counts (C:=SyncCounter)).1) m) as Hh0 by (simpl; by rewrite Hw0).
  destruct (trace_spec _ _ _ _ _ _ _ _ _ _ m 0 Hups Hh0) as
    (m1 & Hh1 & Hac1 & Hnd1 & Hseen & _ & Hpt & Hrest & Hcat); [done|done|apply accounts_start|lia|].
  destruct (delta_deletions_spec h i deletions seen ws (w, counts) m m1 (length upserts) Hh Hdel Hh1) as
    (m2 & Hh2 & Hac2 & Hnd2 & Hgone & Hrest2 & Hcat2); [|done|lia|exact Hdels|].
  { intros y Hy. apply Hrest. intros Hin. apply Hy, Hseen. by left. }
  exists m2. split; [|split].
  - exists i'. split; [by eapply open_index_set|]. by rewrite Hlive.
  - assert (∀ y, y ∈ keys upserts → y ∉ deletions) as Hdis.
    { intros y Hy [Hn _]%Hgone. apply Hn, Hseen. by left. }
    split.
    + apply NoDup_app. split; [done|]. split; [done|done].
    + intros j y Hj. rewrite Hrest2; [by apply Hpt|]. apply Hdis, list_elem_of_fmap. exists y.
      split; [done|]. by eapply list_elem_of_lookup_2.
    + intros y Hy. by apply Hgone.
    + intros y Hy1 Hy2. by rewrite Hrest2, Hrest.
  - intros s ->%Hsum. simpl in *. split; [done|]. by rewrite Hcat2, Hcat.
Qed.

(** *** Synchronisation *)

(** Removing what the snapshot no longer has. *)
Lemma remove_all_spec h ids ws m0 m n :
  Forall in_u128 ids → NoDup ids → (∀ d, d ∈ ids → is_Some (m !! d)) →
  holds h (pending ws.1) m → accounts m0 n ws.2 m → (Z.of_nat (n + length ids) ≤ u64_max)%Z →
  ∃ m', holds h (pending (foldl remove_document ws ids).1) m'
    ∧ accounts m0 (n + length ids) (foldl remove_document ws ids).2 m'
    ∧ (∀ d, m' !! d = if decide (d ∈ ids) then None else m !! d)
    ∧ (foldl remove_document ws ids).2 CatalogDocuments = ws.2 CatalogDocuments.
Proof.
  revert ws m n. induction ids as [|d ds IH]; intros ws m n Hty Hnd Hin Hh Hac Hlen; cbn [foldl].
  { exists m. rewrite Nat.add_0_r. split_and!; try done. }
  apply Forall_cons in Hty as [Hd Hty]. apply NoDup_cons in Hnd as [Hdd Hnd]. simpl in Hlen.
  destruct (remove_spec h m0 m n ws d) as (Hh1 & Hac1 & Hc1); try done; [apply Hin; left|lia|].
  destruct (IH (remove_document ws d) (delete d m) (S n)) as (m' & Hh' & Hac' & Hpt & Hcat); try done; [|lia|].
  { intros y Hy. rewrite lookup_delete_ne by set_solver. apply Hin. by right. }
  exists m'. replace (n + length (d :: ds)) with (S n + length ds) by (simpl; lia).
  split; [done|]. split; [done|]. split; [|by rewrite Hcat].
  intros y. rewrite Hpt. destruct (decide (y ∈ ds)) as [Hy|Hy]; [by rewrite decide_True by (by right)|].
  destruct (decide (y = d)) as [->|Hne].
  - rewrite lookup_delete_eq, decide_True by left. done.
  - rewrite lookup_delete_ne, decide_False by set_solver. done.
Qed.

(** What a snapshot makes of the index: nothing is left that the snapshot does not have. *)
Record sync_result h policy (fs : nat → SourceFs) (documents : list CatalogDocument)
  (m m' : contents) : Prop := {
  sr_distinct : NoDup (keys documents);
  sr_upserted j d : documents !! j = Some d →
    m' !! document_key d = upsert_entry h policy (fs j) d (m !! document_key d);
  sr_absent d : d ∉ keys documents → m' !! d = None }.

Lemma sync_committed (fs : nat → SourceFs) dir documents policy r dir' h m :
  dir_holds dir h m →
  (∀ docs, documents = Ok <$> docs → typed docs) →
  (Z.of_nat (length documents + size m) ≤ u64_max)%Z →
  sync_fallible fs dir documents policy = (r, dir') →
  (dir' = dir ∧ ∃ x, r = Err x) ∨
  ∃ docs m', documents = Ok <$> docs ∧ dir_holds dir' h m' ∧ sync_result h policy fs docs m m' ∧
    ∀ s, r = Ok s → accounts m (length docs + size m) (su_count s) m'
      ∧ su_count s CatalogDocuments = Z.of_nat (length docs).
Proof.
  intros (i & Hi & Hh) Hty Hlen [Hfail|(d & w & counts & i' & Hd & Hwork & -> & Hlive & Hsum)]%commit_work_spec;
    [by left|right].
  rewrite Hi in Hwork. cbn [mbind result_bind] in Hwork.
  apply result_bind_Ok in Hwork as (? & _ & Hwork). apply result_bind_Ok in Hwork as (p & Hp & Hwork).
  apply (stored_all _ _ m) in Hp as ->; [|done].
  apply result_bind_Ok in Hwork as (w0 & Hw0%map_err_Ok & Hwork). apply writer_pending in Hw0.
  apply result_bind_Ok in Hwork as ([previous ws] & Hdocs & [= Hws]).
  apply (sync_documents_trace _ _ _ _ _ _ _ _ _ _ m) in Hdocs as (docs & seen & -> & Htr & Hp1 & Hp2);
    [|intros y _; by rewrite lookup_fmap|intros y Hy; by apply not_elem_of_empty in Hy].
  specialize (Hty docs eq_refl). rewrite length_fmap in Hlen.
  assert (holds h (pending (w0, no_counts (C:=SyncCounter)).1) m) as Hh0 by (simpl; by rewrite Hw0).
  destruct (trace_spec _ _ _ _ _ _ _ _ _ _ m 0 Htr Hh0) as
    (m1 & Hh1 & Hac1 & Hnd1 & Hseen & _ & Hpt & Hrest & Hcat); [done|done|apply accounts_start|lia|].
  set (gone := btree_elements (dom previous)) in *.
  assert (∀ y, y ∈ gone ↔ (y ∉ keys docs) ∧ is_Some (m !! y)) as Hgone.
  { intros y. unfold gone. rewrite elem_of_btree_elements, elem_of_dom.
    destruct (decide (y ∈ seen)) as [Hy|Hy].
    - rewrite (Hp2 y Hy). split; [by intros []|]. apply Hseen in Hy as [Hy|Hy]; [tauto|].
      by apply not_elem_of_empty in Hy.
    - rewrite (Hp1 y Hy), fmap_is_Some. rewrite Hseen in Hy. tauto. }
  assert (length gone ≤ size m) as Hsz.
  { unfold gone, btree_elements. rewrite merge_sort_Permutation, <-size_dom. apply (subseteq_size (dom previous)).
    intros y. rewrite <-elem_of_btree_elements. fold gone. rewrite Hgone, elem_of_dom. tauto. }
  destruct (remove_all_spec h gone ws m m1 (length docs)) as (m2 & Hh2 & Hac2 & Hpt2 & Hcat2).
  { apply Forall_forall. intros y [_ [e He]]%Hgone. by destruct (proj1 Hh y e He). }
  { apply btree_elements_NoDup. }
  { intros y [Hy Hsome]%Hgone. by rewrite Hrest. }
  { done. } { done. } { lia. }
  rewrite Hws in *. exists docs, m2. split; [done|]. split; [|split].
  - exists i'. split; [by eapply open_index_set|]. by rewrite Hlive.
  - split; [done| |].
    + intros j y Hj. rewrite Hpt2, decide_False; [by apply Hpt|]. rewrite Hgone. intros [Hn _]. apply Hn.
      apply list_elem_of_fmap. exists y. split; [done|]. by eapply list_elem_of_lookup_2.
    + intros y Hy. rewrite Hpt2. case_decide as Hg; [done|]. rewrite Hrest by done.
      apply eq_None_not_Some. intros Hs. by apply Hg, Hgone.
  - intros s ->%Hsum. simpl in *. split; [|by rewrite Hcat2, Hcat].
    eapply accounts_weaken; [exact Hac2|lia].
Qed.
End spec.
