(* ===== verification/ContentGuarantees.v ===== *)
(** The properties of the content index, and their instances on a concrete engine and concrete files:
    deltas are atomic and do what the abstract index does, a synchronisation is a delta that deletes
    what the snapshot lacks, every document is accounted for, only opted-in text is indexed, the
    indexed text is current, and search finds it. *)
From Stdlib Require Import Ascii String.
From stdpp Require Import base strings numbers gmap list sorting relations.
From S2P Require Import Prelude Ids Order Models GraphDomain GraphTables Fixtures Text Catalog.
From S2P Require Import KeyedIndex CatalogSpec CatalogFixtures Content ContentText ContentSpec.

Section guarantees.
Context `{TV : Tantivy} `{T : TextEnv} `{CE : !ContentEnv} `{!StoreLaws E} `{TL : !TantivyLaws}.
Implicit Types (policy : ContentIndexPolicy) (m : contents) (h : bool).
Implicit Types (e : ContentEntry) (l : list TantivyDocument).

(** ** Only opted-in text *)

(** Every document of the index is the entry of a document and a text that [R] relates. *)
Definition opted_in (R : CatalogDocument → text → Prop) l : Prop :=
  Forall (λ d, ∃ h e, d = entry_document h e ∧ R (ce_document e) (ce_text e)) l.

Definition dir_opted_in R (dir : option ContentDir) : Prop :=
  ∀ d i, dir = Some d → xd_index d = Ok i → opted_in R (live i).

Global Instance opted_in_proper R : Proper ((≡ₚ) ==> iff) (opted_in R).
Proof. intros l l' Hl. unfold opted_in. by rewrite Hl. Qed.

Lemma opted_in_mono (R R' : CatalogDocument → text → Prop) l :
  (∀ d t, R d t → R' d t) → opted_in R l → opted_in R' l.
Proof.
  intros HR Hl. eapply Forall_impl; [exact Hl|]. intros d (h & e & -> & He). exists h, e. by split; [|apply HR].
Qed.

(** The documents of an operation, in the order it processes them, with the answers of the file
    system while each of them is processed. *)
Record content_operation := MkContentOperation {
  op_fs : nat → SourceFs;
  op_documents : list (result ContentIndexError CatalogDocument) }.

(** [t] was read for the document when one of the operations processed it: from the files as they
    were at that time. *)
Definition read_during policy (history : list content_operation) (document : CatalogDocument) (t : text) : Prop :=
  ∃ op j, op ∈ history ∧ op_documents op !! j = Some (Ok document)
    ∧ read_under (op_fs op j) policy document t.

(** The operations that change a content index, whatever they return and whatever the files do. *)
Inductive content_step policy : content_operation → relation (option ContentDir) :=
| step_build creation fs dir documents r dir' :
    build_fallible creation fs dir documents policy = (r, dir') →
    content_step policy (MkContentOperation fs documents) dir dir'
| step_sync fs dir documents r dir' :
    sync_fallible fs dir documents policy = (r, dir') →
    content_step policy (MkContentOperation fs documents) dir dir'
| step_delta fs dir upserts deletions r dir' :
    apply_delta fs dir upserts deletions policy = (r, dir') →
    content_step policy (MkContentOperation fs (Ok <$> upserts)) dir dir'.

(** The directories that a history of operations, latest first, leaves. *)
Inductive content_run policy : list content_operation → option ContentDir → Prop :=
| run_start : content_run policy [] None
| run_operation history dir op dir' :
    content_run policy history dir → content_step policy op dir dir' → content_run policy (op :: history) dir'.

Section opted.
Context (policy : ContentIndexPolicy) (R : CatalogDocument → text → Prop).

(** The texts that the documents from number [n] on can be stored with are related by [R]. *)
Definition reads_related (fs : nat → SourceFs) (n : nat)
  (documents : list (result ContentIndexError CatalogDocument)) : Prop :=
  ∀ j d t, documents !! j = Some (Ok d) → extract_text (fs (n + j)) d policy = Ok t → R d t.

Lemma reads_related_cons fs n d documents :
  reads_related fs n (Ok d :: documents) →
  (∀ t, extract_text (fs n) d policy = Ok t → R d t) ∧ reads_related fs (S n) documents.
Proof.
  intros H. split.
  - intros t Ht. apply (H 0 d t); [done|]. by rewrite Nat.add_0_r.
  - intros j d' t Hj Ht. apply (H (S j) d' t); [done|]. by rewrite Nat.add_succ_r.
Qed.

Lemma opted_in_delete id (w : IndexWriter) :
  opted_in R (pending w) → opted_in R (pending (content_delete id w)).
Proof.
  unfold content_delete. rewrite delete_pending. unfold opted_in. rewrite !Forall_forall.
  intros Hw d [_ Hd]%list_elem_of_filter. by apply Hw.
Qed.

Lemma opted_in_add h document t (w w' : IndexWriter) :
  R document t → opted_in R (pending w) →
  add_document (content_index_document h document t (content_hash t)) w = Ok w' →
  opted_in R (pending w').
Proof.
  intros Ht Hw Hadd. rewrite (add_pending _ _ _ Hadd). apply Forall_cons. split; [|done].
  by exists h, (MkContentEntry document t).
Qed.

Lemma upsert_step_opted_in h fs prior document ws ws' :
  (∀ t, extract_text fs document policy = Ok t → R document t) →
  upsert_step h policy fs prior document ws = Ok ws' →
  opted_in R (pending ws.1) → opted_in R (pending ws'.1).
Proof.
  intros Hread Hstep Hw. unfold upsert_step, evict, count_one in Hstep.
  destruct (prepare_source fs document policy) as [p|r] eqn:Hp.
  2:{ injection Hstep as <-. destruct prior; simpl; [by apply opted_in_delete|done]. }
  case_bool_decide; [by injection Hstep as <-|].
  destruct (match prior with Some _ => _ | None => false end); [by injection Hstep as <-|].
  destruct (read_text fs p policy) as [t|r] eqn:Ht.
  2:{ injection Hstep as <-. destruct prior; simpl; [by apply opted_in_delete|done]. }
  case_bool_decide; [by injection Hstep as <-|].
  apply result_bind_Ok in Hstep as (w & Hadd%map_err_Ok & [= <-]).
  eapply opted_in_add; [|by apply opted_in_delete|exact Hadd].
  apply Hread, result_bind_Ok. eauto.
Qed.

Lemma dir_opted_in_open dir i h :
  dir_opted_in R dir → open_index dir = Ok (i, h) → opted_in R (live i).
Proof.
  intros Hdir (d & Hd%ok_or_Ok & H)%result_bind_Ok. apply result_bind_Ok in H as (? & _ & H).
  apply result_bind_Ok in H as (? & _ & H). apply result_bind_Ok in H as (i0 & Hi%map_err_Ok & H).
  apply result_bind_Ok in H as (? & _ & H). apply result_bind_Ok in H as (? & _ & H).
  apply result_bind_Ok in H as (? & _ & [= <- _]). by eapply Hdir.
Qed.

Lemma commit_work_opted_in {C} dir (work : result ContentIndexError (IndexWriter * (C → Z))) r dir' :
  dir_opted_in R dir → (∀ w counts, work = Ok (w, counts) → opted_in R (pending w)) →
  commit_work dir work = (r, dir') → dir_opted_in R dir'.
Proof.
  intros Hdir Hw [[-> _]|(d & w & counts & i' & _ & Hwork & -> & Hlive & _)]%commit_work_spec; [done|].
  intros d' i [= <-] [= <-]. rewrite Hlive. by eapply Hw.
Qed.

Lemma delta_upserts_opted_in h fs i n documents seen ws seen' ws' :
  reads_related fs n (Ok <$> documents) → opted_in R (pending ws.1) →
  delta_upserts h policy fs i n documents seen ws = Ok (seen', ws') → opted_in R (pending ws'.1).
Proof.
  revert n seen ws. induction documents as [|d ds IH]; intros n seen ws Hread Hw H; simpl in H.
  { by injection H as _ <-. }
  apply reads_related_cons in Hread as [Hd Hds].
  apply result_bind_Ok in H as (? & _ & H). apply result_bind_Ok in H as (prior & _ & H).
  apply result_bind_Ok in H as (ws1 & Hstep & H). eapply IH; [exact Hds| |exact H].
  by eapply upsert_step_opted_in.
Qed.

Lemma delta_deletions_opted_in h i deletions seen ws ws' :
  opted_in R (pending ws.1) →
  delta_deletions h i deletions seen ws = Ok ws' → opted_in R (pending ws'.1).
Proof.
  revert seen ws. induction deletions as [|d ds IH]; intros seen ws Hw H; simpl in H.
  { by injection H as <-. }
  apply result_bind_Ok in H as (? & _ & H). apply result_bind_Ok in H as (prior & _ & H).
  eapply IH; [|exact H]. destruct prior; simpl; [by apply opted_in_delete|done].
Qed.

Lemma sync_documents_opted_in h fs n documents previous seen ws previous' ws' :
  reads_related fs n documents → opted_in R (pending ws.1) →
  sync_documents h policy fs n documents previous seen ws = Ok (previous', ws') →
  opted_in R (pending ws'.1).
Proof.
  revert n previous seen ws.
  induction documents as [|d ds IH]; intros n previous seen ws Hread Hw H; simpl in H.
  { by injection H as _ <-. }
  apply result_bind_Ok in H as (doc & -> & H). apply reads_related_cons in Hread as [Hd Hds].
  apply result_bind_Ok in H as (? & _ & H).
  apply result_bind_Ok in H as (ws1 & Hstep & H). eapply IH; [exact Hds| |exact H].
  by eapply upsert_step_opted_in.
Qed.

Lemma remove_all_opted_in ids ws :
  opted_in R (pending ws.1) → opted_in R (pending (foldl remove_document ws ids).1).
Proof.
  revert ws. induction ids as [|d ds IH]; intros ws Hw; [done|]. simpl. apply IH. simpl.
  by apply opted_in_delete.
Qed.

Lemma build_documents_opted_in fs n documents w counts w' counts' :
  reads_related fs n documents → opted_in R (pending w) →
  build_documents policy fs n documents w counts = Ok (w', counts') → opted_in R (pending w').
Proof.
  revert n w counts. induction documents as [|d ds IH]; intros n w counts Hread Hw H; simpl in H.
  { by injection H as <- _. }
  apply result_bind_Ok in H as (doc & -> & H). apply reads_related_cons in Hread as [Hd Hds].
  destruct (extract_text (fs n) doc policy) as [t|r] eqn:Ht.
  - apply result_bind_Ok in H as (w1 & Hadd%map_err_Ok & H). eapply IH; [exact Hds| |exact H].
    eapply opted_in_add; [by apply Hd|done|exact Hadd].
  - by eapply IH.
Qed.

Lemma open_writer_opted_in dir i h heap (w : IndexWriter) :
  dir_opted_in R dir → open_index dir = Ok (i, h) →
  map_err XTantivy (index_writer i heap) = Ok w → opted_in R (pending w).
Proof.
  intros Hdir Hi Hw%map_err_Ok%writer_pending. rewrite Hw. by eapply dir_opted_in_open.
Qed.

Lemma content_step_opted_in op dir dir' :
  reads_related (op_fs op) 0 (op_documents op) → content_step policy op dir dir' →
  dir_opted_in R dir → dir_opted_in R dir'.
Proof.
  intros Hread Hstep Hdir. revert Hread.
  destruct Hstep as [creation fs d docs r d' H|fs d docs r d' H|fs d ups dels r d' H];
    cbn [op_fs op_documents]; intros Hread.
  - unfold build_fallible in H. destruct d as [d|]; [by injection H as _ <-|].
    destruct creation; [by injection H as _ <-|injection H as _ <-; by intros d i [= <-]|].
    refine (commit_work_opted_in _ _ _ _ _ _ H).
    + intros d i [= <-] Hi%create_live. rewrite Hi. constructor.
    + intros w counts Hw. apply result_bind_Ok in Hw as (i & Hi%map_err_Ok%create_live & Hw).
      apply result_bind_Ok in Hw as (w0 & Hw0%map_err_Ok%writer_pending & Hw).
      eapply build_documents_opted_in; [done| |exact Hw]. rewrite Hw0, Hi. constructor.
  - refine (commit_work_opted_in _ _ _ _ Hdir _ H). intros w counts Hw.
    apply result_bind_Ok in Hw as ([i h] & Hi & Hw). apply result_bind_Ok in Hw as (? & _ & Hw).
    apply result_bind_Ok in Hw as (prev & _ & Hw). apply result_bind_Ok in Hw as (w0 & Hw0 & Hw).
    apply result_bind_Ok in Hw as ([prev' ws] & Hs & [= Hw]).
    assert (w = (foldl remove_document ws (btree_elements (dom prev'))).1) as -> by (by rewrite Hw).
    apply remove_all_opted_in. eapply sync_documents_opted_in; [done| |exact Hs].
    by eapply open_writer_opted_in.
  - refine (commit_work_opted_in _ _ _ _ Hdir _ H). intros w counts Hw.
    apply result_bind_Ok in Hw as ([i h] & Hi & Hw). apply result_bind_Ok in Hw as (? & _ & Hw).
    apply result_bind_Ok in Hw as (w0 & Hw0 & Hw). apply result_bind_Ok in Hw as ([seen ws] & Hs & Hw).
    assert (w = (w, counts).1) as -> by done. eapply delta_deletions_opted_in; [|exact Hw].
    eapply delta_upserts_opted_in; [done| |exact Hs]. by eapply open_writer_opted_in.
Qed.
End opted.

Lemma content_run_opted_in policy history dir :
  policy_ok policy → content_run policy history dir → dir_opted_in (read_during policy history) dir.
Proof.
  intros Hpol. induction 1 as [|history dir op dir' _ IH Hstep]; [by intros ? ? [=]|].
  eapply content_step_opted_in; [|exact Hstep|].
  - intros j d t Hj Ht. exists op, j. split; [by left|]. split; [done|]. by eapply extract_text_read.
  - intros d i Hd Hi. eapply opted_in_mono; [|by eapply IH].
    intros doc t (op' & j & Hop & Hread). exists op', j. split; [by right|done].
Qed.

(** ** Current text *)

(** A snapshot of what files hold: [version d] is the text of the file that [d] describes, which
    depends only on what [content_source_unchanged] compares. *)
Definition version_stable (version : CatalogDocument → text) : Prop :=
  ∀ a b, content_source_unchanged a b = true → version a = version b.

(** What is read while a document is processed is the version it describes. *)
Definition reads_version policy (version : CatalogDocument → text) (fs : nat → SourceFs)
  (documents : list CatalogDocument) : Prop :=
  ∀ j d t, documents !! j = Some d → extract_text (fs j) d policy = Ok t → t = version d.

(** Every entry holds the version it was stored with, as far as its hash tells. *)
Definition truthful (version : CatalogDocument → text) m : Prop :=
  ∀ d e, m !! d = Some e → content_hash (ce_text e) = content_hash (version (ce_document e)).

Lemma upsert_entry_truthful h policy version fs document (prior : option ContentEntry) :
  version_stable version → (∀ t, extract_text fs document policy = Ok t → t = version document) →
  (∀ e, prior = Some e → content_hash (ce_text e) = content_hash (version (ce_document e))) →
  ∀ e, upsert_entry h policy fs document prior = Some e →
    content_hash (ce_text e) = content_hash (version (ce_document e))
    ∧ content_hash (ce_text e) = content_hash (version document).
Proof.
  intros Hst Hread Hprior e He. unfold upsert_entry in He.
  destruct (prepare_source fs document policy) as [p|r] eqn:Hp; [|done].
  case_bool_decide as Hsame.
  { subst prior. injection Hsame as <-. split; by apply Hprior. }
  destruct (match prior with Some _ => _ | None => false end) eqn:Hmeta.
  { subst prior. rewrite <-(Hst _ _ Hmeta). split; by apply Hprior. }
  destruct (read_text fs p policy) as [t|r] eqn:Ht; [|done].
  assert (t = version document) as -> by (apply Hread, result_bind_Ok; eauto).
  destruct (h && _) eqn:Hh; [|by injection He as <-].
  apply andb_true_iff in Hh as [_ Hh%bool_decide_eq_true]. subst prior. injection Hh as Hh.
  split; [by apply Hprior|done].
Qed.

(** A document whose text can be read is indexed; one that is not eligible is not. *)
Lemma upsert_entry_present h policy fs document prior t :
  extract_text fs document policy = Ok t → is_Some (upsert_entry h policy fs document prior).
Proof.
  intros (p & Hp & Ht)%result_bind_Ok. unfold upsert_entry. rewrite Hp, Ht.
  case_bool_decide as Hsame; [by destruct prior|]. destruct prior as [e|].
  - destruct (content_source_unchanged _ _); [done|]. by destruct (h && _).
  - by rewrite andb_comm.
Qed.

Lemma delta_truthful h policy version fs upserts deletions m m' :
  version_stable version → reads_version policy version fs upserts →
  delta_result h policy fs upserts deletions m m' → truthful version m → truthful version m'.
Proof.
  intros Hst Hread [_ Hup Hdel Hkeep] Hm d e He. destruct (decide (d ∈ document_key <$> upserts)) as [Hin|Hin].
  - apply list_elem_of_fmap in Hin as (doc & -> & [j Hj]%list_elem_of_lookup_1). rewrite (Hup j doc Hj) in He.
    refine (proj1 (upsert_entry_truthful h policy version (fs j) doc _ Hst _ _ e He));
      [intros t; by apply Hread|intros e0; apply Hm].
  - destruct (decide (d ∈ deletions)) as [Hd|Hd]; [by rewrite Hdel in He|].
    rewrite Hkeep in He by done. by eapply Hm.
Qed.

(** ** Search *)

(** What a query selects: what the parsed query matches, and for one token of at least four
    characters also the texts with a word that starts with it. *)
Definition content_selects h (query : text) (parsed : Query) e : Prop :=
  query_matches parsed (entry_document h e) ∨
  (MIN_CONTENT_PREFIX_CHARS ≤ length query
   ∧ Forall (λ c, is_alphanumeric c = true ∨ c = 95%N) query
   ∧ ∃ token w, (analyze query).*2 = [token] ∧ w ∈ (analyze (ce_text e)).*2 ∧ token `prefix_of` w).

Lemma single_token_prefix_selects h query parsed e :
  query_matches (with_single_token_prefix query parsed) (entry_document h e)
  ↔ content_selects h query parsed e.
Proof.
  unfold content_selects, with_single_token_prefix.
  destruct (length query <? MIN_CONTENT_PREFIX_CHARS) eqn:Hlen; simpl.
  { apply Nat.ltb_lt in Hlen. split; [by left|]. intros [?|[? _]]; [done|lia]. }
  apply Nat.ltb_ge in Hlen.
  destruct (forallb _ query) eqn:Hall; simpl.
  2:{ split; [by left|]. intros [?|(_ & Hq & _)]; [done|]. exfalso. rewrite <-not_true_iff_false in Hall.
      apply Hall, forallb_forall. intros c Hc%list_elem_of_In. rewrite Forall_forall in Hq.
      apply orb_true_iff. rewrite N.eqb_eq. by apply Hq. }
  assert (Forall (λ c, is_alphanumeric c = true ∨ c = 95%N) query) as Hq.
  { apply Forall_forall. intros c Hc%list_elem_of_In. rewrite forallb_forall in Hall.
    apply Hall, orb_true_iff in Hc. by rewrite N.eqb_eq in Hc. }
  destruct ((analyze query).*2) as [|token [|]] eqn:Htok.
  - split; [by left|]. intros [?|(_ & _ & ? & ? & ? & _)]; done.
  - simpl. rewrite Exists_exists. assert (doc_terms FContent (entry_document h e) = analyze (ce_text e)) as ->
      by (by destruct h). split.
    + intros [?|(w & Hw & Hpre)]; [by left|right]. split_and!; [done..|]. by exists token, w.
    + intros [?|(_ & _ & tk & w & [= <-] & Hw & Hpre)]; [by left|right]. by exists w.
  - split; [by left|]. intros [?|(_ & _ & ? & ? & ? & _)]; done.
Qed.

(** The loops over scorers and segments. *)
Lemma take_alive_spec lim scorer addresses :
  length addresses ≤ lim →
  take_alive lim scorer addresses
  = addresses ++ take (lim - length addresses) (alive_documents scorer).
Proof.
  revert addresses. induction scorer as [|[b d] scorer IH]; intros addresses Hlen; simpl.
  { change (alive_documents []) with (@nil TantivyDocument). by rewrite take_nil, app_nil_r. }
  unfold alive_documents. rewrite filter_cons. fold (alive_documents scorer).
  destruct (length addresses <? lim) eqn:Hlt.
  - apply Nat.ltb_lt in Hlt. destruct b; simpl.
    + rewrite IH by (rewrite length_app; simpl; lia). rewrite length_app, <-app_assoc. simpl. f_equal.
      replace (lim - length addresses) with (S (lim - (length addresses + 1))) by lia. done.
    + by rewrite IH.
  - apply Nat.ltb_ge in Hlt. replace (lim - length addresses) with 0 by lia. by rewrite take_0, app_nil_r.
Qed.

Lemma segment_addresses_spec lim q segments parts addresses l ds :
  selected l q lim addresses →
  Forall2 (λ seg part, ∀ ds, seg = Ok ds → ∃ rest, alive_documents ds ++ rest ≡ₚ part ∧
    Forall (query_matches q) (alive_documents ds) ∧ Forall (λ d, ¬ query_matches q d) rest) segments parts →
  segment_addresses lim segments addresses = Ok ds → selected (l ++ concat parts) q lim ds.
Proof.
  intros Hsel H2. revert l addresses Hsel.
  induction H2 as [|seg part segs parts Hseg _ IH]; intros l addresses Hsel H; simpl in H.
  { injection H as <-. simpl. by rewrite app_nil_r. }
  apply result_bind_Ok in H as (scorer & Hs%map_err_Ok & H). destruct (Hseg scorer Hs) as (rest & Hp & Hm & Hn).
  destruct Hsel as (Hlen & rest0 & Hp0 & Hm0 & Hn0). rewrite take_alive_spec in H by done.
  set (k := lim - length addresses) in *. set (alive := alive_documents scorer) in *.
  assert (selected (l ++ part) q lim (addresses ++ take k alive)) as Hsel1.
  { split; [rewrite length_app, length_take; lia|]. exists (rest0 ++ drop k alive ++ rest).
    split; [|split].
    - rewrite <-Hp0, <-Hp. rewrite <-(take_drop k alive) at 3. solve_Permutation.
    - apply Forall_app. split; [done|]. by apply Forall_take.
    - intros Hlt. rewrite length_app, length_take in Hlt. rewrite drop_ge by lia. simpl.
      apply Forall_app. split; [|done]. apply Hn0. lia. }
  simpl. rewrite app_assoc. destruct (length (addresses ++ take k alive) =? lim) eqn:Hfull.
  - injection H as <-. apply Nat.eqb_eq in Hfull. destruct Hsel1 as (Hl & rest1 & Hp1 & Hm1 & _).
    split; [done|]. exists (rest1 ++ concat parts). rewrite app_assoc, Hp1. split_and!; [done..|lia].
  - by eapply IH.
Qed.

Lemma bounded_unscored_selected (i : Index) q lim ds :
  bounded_unscored_addresses i q lim = Ok ds → selected (live i) q lim ds.
Proof.
  intros (segments & (parts & Hparts & H2)%map_err_Ok%weight_spec & Hds)%result_bind_Ok.
  apply (segment_addresses_spec lim q segments parts [] []) in Hds; [|split; [simpl; lia|by exists []]|done].
  simpl in Hds. unfold selected in *. setoid_rewrite Hparts in Hds. done.
Qed.

Lemma payloads_entries h (es : list ContentEntry) :
  content_payloads (entry_document h <$> es) = Ok (ce_document <$> es).
Proof. induction es as [|e es IH]; [done|]. csimpl. by rewrite payload_entry, IH. Qed.

(** ** Properties *)

Lemma holds_length h l m : holds_docs (entry_document h) entry_id l m → length l = size m.
Proof. intros [_ ->]. by rewrite length_fmap, length_fmap, length_map_to_list. Qed.

Lemma document_count_size (i : Index) h m n :
  holds_docs (entry_document h) entry_id (live i) m → content_document_count i = Ok n → n = size m.
Proof.
  intros Hh (? & _ & Hn%map_err_Ok%count_spec)%result_bind_Ok. rewrite Hn. by apply holds_length in Hh.
Qed.

(** C22 (a delta is atomic and exact): let the index hold one entry per document, the identifiers be
    u128 and their number within u64.  However a delta ends, either it failed and the directory is as
    it was, or it was committed, no document was named twice, and the index holds one entry per
    document again: for each document of the delta what processing it gives, that is nothing when its
    file is not eligible or cannot be read, the entry as it was, with the name and path it was stored
    under, when the source fingerprint is the same or the text has the same hash, and otherwise the
    document with the text read; nothing for each deletion; and everything else as it was. *)
Theorem apply_delta_atomic (fs : nat → SourceFs) (dir dir' : option ContentDir)
  (upserts : list CatalogDocument) (deletions : list document_id) (policy : ContentIndexPolicy)
  (r : result ContentIndexError ContentSyncSummary) (h : bool) (m : contents) :
  dir_holds dir h m → Forall (λ d, in_u128 (document_key d)) upserts → Forall in_u128 deletions →
  (Z.of_nat (length upserts + length deletions) ≤ u64_max)%Z →
  apply_delta fs dir upserts deletions policy = (r, dir') →
  (dir' = dir ∧ ∃ x, r = Err x)
  ∨ ∃ m', dir_holds dir' h m' ∧ delta_result h policy fs upserts deletions m m'.
Proof.
  intros Hdir Hup Hdel Hlen H.
  destruct (apply_delta_committed _ _ _ _ _ _ _ _ _ Hdir Hup Hdel Hlen H)
    as [Hfail|(m' & Hdir' & Hres & _)]; [by left|right; eauto].
Qed.

(** Every document is accounted for: the summary of a delta counts every document once, under
    one outcome, and the live documents changed by exactly what it counts as added, evicted and
    removed. *)
Theorem delta_accounting (fs : nat → SourceFs) (dir dir' : option ContentDir)
  (upserts : list CatalogDocument) (deletions : list document_id) (policy : ContentIndexPolicy)
  (s : ContentSyncSummary) (h : bool) (m : contents) (i i' : Index) (n n' : nat) :
  dir_holds dir h m → Forall (λ d, in_u128 (document_key d)) upserts → Forall in_u128 deletions →
  (Z.of_nat (length upserts + length deletions) ≤ u64_max)%Z →
  apply_delta fs dir upserts deletions policy = (Ok s, dir') →
  open_index dir = Ok (i, h) → content_document_count i = Ok n →
  open_index dir' = Ok (i', h) → content_document_count i' = Ok n' →
  su_count s CatalogDocuments = Z.of_nat (length upserts)
  ∧ sum_counters outcome_counters (su_count s) = Z.of_nat (length upserts)
  ∧ (Z.of_nat n' + su_count s EvictedDocuments + su_count s RemovedDocuments
     = Z.of_nat n + su_count s AddedDocuments)%Z.
Proof.
  intros Hdir Hup Hdel Hlen H Hi Hn Hi' Hn'.
  destruct (apply_delta_committed _ _ _ _ _ _ _ _ _ Hdir Hup Hdel Hlen H)
    as [[_ [x [=]]]|(m' & (j & Hj & Hh') & _ & Hs)]. destruct Hdir as (j0 & Hj0 & Hh).
  destruct (Hs s eq_refl) as [[_ Ho Hsize] Hcat]. rewrite Hi' in Hj. injection Hj as <-.
  rewrite Hi in Hj0. injection Hj0 as <-.
  apply (document_count_size _ h m) in Hn as ->; [|done].
  apply (document_count_size _ h m') in Hn' as ->; [|done]. by rewrite Ho.
Qed.

(** Synchronisation is a delta: synchronising with a snapshot leaves the same index as the delta
    that upserts the snapshot and deletes the indexed documents the snapshot does not have. *)
Theorem sync_is_delta (fs : nat → SourceFs) (dir dir1 dir2 : option ContentDir)
  (documents : list CatalogDocument) (gone : list document_id) (policy : ContentIndexPolicy)
  (s1 s2 : ContentSyncSummary) (h : bool) (m : contents) :
  dir_holds dir h m → Forall (λ d, in_u128 (document_key d)) documents →
  (∀ d, d ∈ gone ↔ is_Some (m !! d) ∧ d ∉ document_key <$> documents) →
  (Z.of_nat (length documents + length gone + size m) ≤ u64_max)%Z →
  content_sync fs dir documents policy = (Ok s1, dir1) →
  apply_delta fs dir documents gone policy = (Ok s2, dir2) →
  ∃ m', dir_holds dir1 h m' ∧ dir_holds dir2 h m'.
Proof.
  intros Hdir Hty Hgone Hlen H1 H2.
  apply (sync_committed _ _ _ _ _ _ h m) in H1 as [[_ [x [=]]]|(docs & m1 & Hdocs & Hd1 & [_ Hu1 Ha1] & _)];
    [|done|intros docs Hd; by apply (inj (fmap Ok)) in Hd as <-|rewrite length_fmap; lia].
  apply (inj (fmap Ok)) in Hdocs as <-.
  assert (Forall in_u128 gone) as Hgu.
  { apply Forall_forall. intros d [[e He] _]%Hgone. destruct Hdir as (i & _ & [Hok _]). by apply (Hok d e). }
  apply (apply_delta_committed _ _ _ _ _ _ _ h m) in H2
    as [[_ [x [=]]]|(m2 & Hd2 & [_ Hu2 Hg2 Hk2] & _)]; [|done|done|done|lia].
  exists m1. split; [done|]. assert (m1 = m2) as ->; [|done]. apply map_eq. intros d.
  destruct (decide (d ∈ document_key <$> documents)) as [Hin|Hin].
  - apply list_elem_of_fmap in Hin as (doc & -> & [j Hj]%list_elem_of_lookup_1).
    by rewrite (Hu1 j), (Hu2 j).
  - rewrite Ha1 by done. destruct (decide (d ∈ gone)) as [Hg|Hg]; [by rewrite Hg2|].
    rewrite Hk2 by done. symmetry. apply eq_None_not_Some. intros Hs. by apply Hg, Hgone.
Qed.

(** C23 (only opted-in text): whatever builds, synchronisations and deltas ran, whatever they returned
    and however the files changed meanwhile, every document of the index is one that an operation of
    the history was given, an online file with an allowed extension, and its text was read while that
    operation processed it: the document's path then resolved to a regular file below one of the
    roots, and the text is exactly the bytes of that file at that time, at most as long as the limit,
    without NUL. *)
Theorem only_opted_in_text (policy : ContentIndexPolicy) (history : list content_operation)
  (dir : option ContentDir) (i : Index) (h : bool) (d : TantivyDocument) :
  policy_ok policy → content_run policy history dir → open_index dir = Ok (i, h) → d ∈ live i →
  ∃ h' e op j, d = entry_document h' e ∧ op ∈ history ∧ op_documents op !! j = Some (Ok (ce_document e))
    ∧ read_under (op_fs op j) policy (ce_document e) (ce_text e).
Proof.
  intros Hpol Hrun Hi Hd. apply content_run_opted_in in Hrun; [|done].
  apply (dir_opted_in_open _ _ _ _ Hrun) in Hi. unfold opted_in in Hi. rewrite Forall_forall in Hi.
  destruct (Hi _ Hd) as (h' & e & -> & op & j & Hop & Hj & Hread). by exists h', e, op, j.
Qed.

(** The indexed text is current: suppose equal source fingerprints mean equal text, the entries
    hold the versions they were stored with, and the files hold the versions the documents describe.
    Then after a delta every entry still does, and every document whose text can be read is indexed
    with a text of the same hash, even where the file was not read again. *)
Theorem delta_indexes_current_text (version : CatalogDocument → text) (fs : nat → SourceFs)
  (dir dir' : option ContentDir) (upserts : list CatalogDocument) (deletions : list document_id)
  (policy : ContentIndexPolicy) (s : ContentSyncSummary) (h : bool) (m : contents) :
  dir_holds dir h m → Forall (λ d, in_u128 (document_key d)) upserts → Forall in_u128 deletions →
  (Z.of_nat (length upserts + length deletions) ≤ u64_max)%Z →
  version_stable version → reads_version policy version fs upserts → truthful version m →
  apply_delta fs dir upserts deletions policy = (Ok s, dir') →
  ∃ m', dir_holds dir' h m' ∧ truthful version m'
    ∧ ∀ j d t, upserts !! j = Some d → extract_text (fs j) d policy = Ok t →
        ∃ e, m' !! document_key d = Some e ∧ content_hash (ce_text e) = content_hash t.
Proof.
  intros Hdir Hup Hdel Hlen Hst Hread Hm H.
  destruct (apply_delta_committed _ _ _ _ _ _ _ _ _ Hdir Hup Hdel Hlen H)
    as [[_ [x [=]]]|(m' & Hdir' & Hres & _)]. exists m'. split; [done|].
  split; [by eapply delta_truthful|]. intros j d t Hj Ht. destruct Hres as [_ Hu _ _].
  destruct (upsert_entry_present h policy (fs j) d (m !! document_key d) t Ht) as [e He].
  exists e. rewrite (Hu j d Hj). split; [done|]. rewrite (Hread j d t Hj Ht).
  refine (proj2 (upsert_entry_truthful h policy version (fs j) d _ Hst _ _ e He));
    [intros t'; by apply Hread|intros e0; apply Hm].
Qed.

(** C24 (content search): a search returns distinct documents of the index that the query selects, at
    most as many as asked for, and all of them if there were fewer; a query that is one word of at
    least four characters also selects the texts with a word it begins. *)
Theorem content_search_exact (i : Index) (h : bool) (m : contents) (query : text) (lim : Z)
  (docs : list CatalogDocument) :
  holds_docs (entry_document h) entry_id (live i) m → search_state i query lim = Ok docs →
  ∃ parsed, parse_query query = Some parsed
  ∧ length docs ≤ Z.to_nat lim ∧ NoDup (document_key <$> docs)
  ∧ (∀ d, d ∈ docs → ∃ e, m !! document_key d = Some e ∧ ce_document e = d
       ∧ content_selects h query parsed e)
  ∧ (length docs < Z.to_nat lim → ∀ id e, m !! id = Some e → content_selects h query parsed e →
       ce_document e ∈ docs).
Proof.
  intros Hh (parsed & Hp%ok_or_Ok & (? & _ & (ds & Hds%bounded_unscored_selected & Hdocs)%result_bind_Ok)
    %result_bind_Ok)%result_bind_Ok.
  destruct (selected_values _ entry_id _ m _ _ ds (content_selects h query parsed) Hh Hds)
    as (es & -> & Hlen & Hnd & Hin & Hall); [apply single_token_prefix_selects|].
  rewrite payloads_entries in Hdocs. injection Hdocs as <-. exists parsed. rewrite length_fmap.
  split; [done|]. split; [done|]. split; [by rewrite <-list_fmap_compose|]. split.
  - intros d (e & -> & He)%list_elem_of_fmap. apply Hin in He as [Hm Hs]. by exists e.
  - intros Hlt id e He Hs. apply list_elem_of_fmap. exists e. split; [done|]. by eapply Hall.
Qed.
End guarantees.
