(* ===== verification/ContentFixtures.v ===== *)
(** A concrete content index: two small files below one root, and the properties of the content
    index at them. *)
From Stdlib Require Import Ascii String.
From stdpp Require Import base strings numbers gmap list sorting relations.
From S2P Require Import Prelude Ids Order Models GraphDomain GraphTables Fixtures Text Catalog.
From S2P Require Import KeyedIndex CatalogSpec CatalogFixtures Content ContentText ContentSpec.
From S2P Require Import ContentGuarantees.

(** A hash without collisions, and a parser that looks for one term. *)
Global Instance list_content_env : ContentEnv := {|
  content_hash t := t;
  parse_query t := Some (TermQuery FContent (to_lower t));
  is_whitespace c := ((c =? 32) || (c =? 10))%N;
  unknown_field _ := tt;
  no_index := tt |}.

(** Two files; [notes] resolves outside the root. *)
Definition file_path (name : string) : path := ["docs"; name].
Definition canonical_of (p : string) : option path :=
  if decide (p = "docs/Report.txt") then Some (file_path "Report.txt")
  else if decide (p = "docs/Notes 2.txt") then Some ["private"; "Notes 2.txt"]
  else if decide (p = "docs") then Some ["docs"]
  else None.

Definition files_with (content : string) : SourceFs := {|
  canonicalize := canonical_of;
  is_dir p := bool_decide (p = ["docs"]);
  file_metadata p := if decide (p = file_path "Report.txt") then Some (true, 7%Z) else None;
  file_bytes p := if decide (p = file_path "Report.txt") then Some (string_bytes content) else None |}.
Definition files (n : nat) : SourceFs := files_with "quarterly".

Definition docs_policy : ContentIndexPolicy :=
  MkContentIndexPolicy [["docs"]] built_in_extensions 64.

Lemma docs_policy_new : policy_new (files 0) ["docs"; "docs"] 64 = Ok docs_policy.
Proof. apply ok_value_Some. vm_compute. reflexivity. Qed.

Lemma disjoint_docs (ps : list path) : (∀ p, p ∈ ps → p = ["docs"]) → disjoint_roots ps.
Proof. intros Hall p q Hp Hq _. by rewrite (Hall p Hp), (Hall q Hq). Qed.

Lemma docs_policy_ok : policy_ok docs_policy.
Proof.
  split; [unfold MAX_CONFIGURED_FILE_BYTES; simpl; lia|done|done|]. apply disjoint_docs. simpl. set_solver.
Qed.

Lemma policy_new_iff_witness :
  policy_new (files 0) ["docs"; "docs"] 64 = Ok docs_policy ∧ disjoint_roots [["docs"]; ["docs"]].
Proof.
  pose proof (proj1 (policy_new_iff (files 0) ["docs"; "docs"] 64 docs_policy ltac:(lia)) docs_policy_new)
    as (ps & Hps & _ & _ & _ & Hdis & _). split; [exact docs_policy_new|].
  replace ([["docs"]; ["docs"]] : list path) with ps; [done|]. vm_compute in Hps. by injection Hps as <-.
Defined.

(** ** A delta on an index that holds the report *)

Definition old_report : ContentEntry := MkContentEntry report_doc (chars "quarterly").
Definition new_report : CatalogDocument :=
  MkCatalogDocument (cd_identity report_doc) 2 "Report.txt" "docs/Report.txt" (Some "TXT") (file_meta 9).
Definition old_contents : contents := {[1%N := old_report]}.
Definition old_index : Index := entry_document true <$> (map_to_list old_contents).*2.
Definition old_dir : option ContentDir :=
  Some (MkContentDir (Some CONTENT_SCHEMA_ID) (Ok old_index) content_schema).

Lemma old_holds : dir_holds old_dir true old_contents.
Proof.
  exists old_index. split; [done|]. split; [|done].
  intros d e. unfold old_contents. intros [<- <-]%lookup_singleton_Some. done.
Qed.

(** The report changed, the notes are not opted in: one document updated, one skipped. *)
Definition changed (n : nat) : SourceFs := files_with "annual report".
Definition delta_run := apply_delta changed old_dir [new_report; notes_doc] [7%N] docs_policy.

Lemma typed_docs : Forall (λ d, in_u128 (document_key d)) [new_report; notes_doc].
Proof. repeat constructor. Qed.
Lemma typed_ids : Forall in_u128 [7%N].
Proof. repeat constructor. Qed.

Definition delta_summary : ContentSyncSummary :=
  match delta_run.1 with Ok s => s | Err _ => MkSummary no_counts 0 end.
Lemma delta_run_ok : delta_run = (Ok delta_summary, delta_run.2).
Proof.
  unfold delta_summary. assert (is_ok delta_run.1 = true) as Hok by (vm_compute; reflexivity).
  destruct delta_run as [[s|x] d]; [done|discriminate Hok].
Qed.

Lemma delta_run_counts :
  (λ c, su_count delta_summary c) <$> [CatalogDocuments; UpdatedDocuments; SkippedDocuments OutsideRoots; RemovedDocuments]
  = [2; 1; 1; 0]%Z.
Proof. vm_compute. reflexivity. Qed.

Lemma apply_delta_atomic_witness :
  ∃ m', dir_holds delta_run.2 true m'
    ∧ delta_result true docs_policy changed [new_report; notes_doc] [7%N] old_contents m'.
Proof.
  destruct (apply_delta_atomic changed old_dir delta_run.2 [new_report; notes_doc] [7%N] docs_policy
    (Ok delta_summary) true old_contents old_holds typed_docs typed_ids ltac:(vm_compute; discriminate)
    delta_run_ok) as [[_ [x Hx]]|Hm]; [discriminate Hx|exact Hm].
Defined.

(** ** Accounting *)

(** The index after the delta. *)
Definition index_of (dir : option ContentDir) : Index :=
  match open_index dir with Ok (i, _) => i | Err _ => [] end.

Lemma open_index_of (dir : option ContentDir) h :
  ok_value (snd <$> open_index dir) = Some h → open_index dir = Ok (index_of dir, h).
Proof. unfold index_of. destruct (open_index dir) as [[i h']|x]; simpl; [|done]. by intros [= ->]. Qed.

Lemma delta_accounting_witness :
  su_count delta_summary CatalogDocuments = 2%Z
  ∧ sum_counters outcome_counters (su_count delta_summary) = 2%Z
  ∧ (Z.of_nat 1 + su_count delta_summary EvictedDocuments + su_count delta_summary RemovedDocuments
     = Z.of_nat 1 + su_count delta_summary AddedDocuments)%Z.
Proof.
  apply (delta_accounting changed old_dir delta_run.2 [new_report; notes_doc] [7%N] docs_policy
    delta_summary true old_contents (index_of old_dir) (index_of delta_run.2) 1 1 old_holds typed_docs typed_ids
    ltac:(vm_compute; discriminate) delta_run_ok).
  - apply open_index_of. vm_compute. reflexivity.
  - apply ok_value_Some. vm_compute. reflexivity.
  - apply open_index_of. vm_compute. reflexivity.
  - apply ok_value_Some. vm_compute. reflexivity.
Defined.

(** ** Synchronisation: the snapshot lacks the report, so it is removed. *)

Lemma outcome_split {A B} (p : result (@ContentIndexError fixture_env list_engine) A * B) (default : A) :
  is_ok p.1 = true → p = (Ok match p.1 with Ok s => s | Err _ => default end, p.2).
Proof. destruct p as [[s|x] b]; [done|]. intros H. discriminate H. Qed.

Definition summary_of (p : result ContentIndexError ContentSyncSummary * option ContentDir) :=
  match p.1 with Ok s => s | Err _ => MkSummary no_counts 0 end.

Lemma sync_is_delta_witness :
  ∃ m', dir_holds (content_sync changed old_dir [notes_doc] docs_policy).2 true m'
    ∧ dir_holds (apply_delta changed old_dir [notes_doc] [1%N] docs_policy).2 true m'.
Proof.
  apply (sync_is_delta changed old_dir _ _ [notes_doc] [1%N] docs_policy
    (summary_of (content_sync changed old_dir [notes_doc] docs_policy))
    (summary_of (apply_delta changed old_dir [notes_doc] [1%N] docs_policy)) true old_contents old_holds).
  - repeat constructor.
  - intros d. rewrite list_elem_of_singleton. unfold old_contents. split.
    + intros ->. split; [by rewrite lookup_singleton_eq|]. set_solver.
    + intros [[e [<- _]%lookup_singleton_Some] _]. done.
  - vm_compute. discriminate.
  - apply outcome_split. vm_compute. reflexivity.
  - apply outcome_split. vm_compute. reflexivity.
Defined.

(** ** Opted-in text *)

Lemma only_opted_in_text_witness :
  ∃ d h' e n, d ∈ live (index_of (content_build Created files None [report_doc; notes_doc] docs_policy).2)
    ∧ d = entry_document h' e ∧ [report_doc; notes_doc] !! n = Some (ce_document e)
    ∧ read_under (files n) docs_policy (ce_document e) (ce_text e).
Proof.
  set (dir := (content_build Created files None [report_doc; notes_doc] docs_policy).2).
  assert (∃ d, head (live (index_of dir)) = Some d) as [d Hd].
  { assert (bool_decide (index_of dir = []) = false) as Hne by (vm_compute; reflexivity).
    apply bool_decide_eq_false in Hne. destruct (index_of dir) as [|d ds]; [done|]. by exists d. }
  assert (d ∈ live (index_of dir)) as Hin by (by apply head_Some_elem_of in Hd).
  set (op := MkContentOperation files (Ok <$> [report_doc; notes_doc])).
  destruct (only_opted_in_text docs_policy [op] dir (index_of dir) true d docs_policy_ok)
    as (h' & e & op' & n & -> & ->%list_elem_of_singleton & Hn & He).
  - eapply (run_operation _ [] None); [apply run_start|].
    eapply (step_build docs_policy Created files None (Ok <$> [report_doc; notes_doc])).
    apply surjective_pairing.
  - apply open_index_of. vm_compute. reflexivity.
  - exact Hin.
  - exists (entry_document h' e), h', e, n. split; [done|]. split; [done|]. split; [|exact He].
    unfold op in Hn. cbn [op_documents] in Hn. rewrite list_lookup_fmap in Hn.
    apply fmap_Some in Hn as (d' & Hd' & [= ->]). exact Hd'.
Defined.

(** ** Current text *)

(** The text of a document is told by its size. *)
Definition version_by_size (d : CatalogDocument) : text :=
  if decide (m_size (cd_metadata d) = 9%Z) then chars "annual report" else chars "quarterly".

Lemma version_by_size_stable : version_stable version_by_size.
Proof.
  intros a b H. unfold content_source_unchanged in H. rewrite !andb_true_iff, !bool_decide_eq_true in H.
  unfold version_by_size. by destruct H as [[[[[_ _] ->] _] _] _].
Qed.

Lemma changed_reads_version : reads_version docs_policy version_by_size changed [new_report; notes_doc].
Proof.
  intros [|[|j]] d t Hd Ht; simplify_eq/=.
  assert (extract_text (changed 0) new_report docs_policy = Ok (version_by_size new_report)) as Hx
    by (vm_compute; reflexivity). rewrite Hx in Ht. by injection Ht as <-.
Qed.

Lemma delta_indexes_current_text_witness :
  ∃ m', dir_holds delta_run.2 true m' ∧
    ∃ e, m' !! 1%N = Some e ∧ content_hash (ce_text e) = content_hash (chars "annual report").
Proof.
  destruct (delta_indexes_current_text version_by_size changed old_dir delta_run.2 [new_report; notes_doc]
    [7%N] docs_policy delta_summary true old_contents old_holds typed_docs typed_ids
    ltac:(vm_compute; discriminate) version_by_size_stable changed_reads_version)
    as (m' & Hdir & _ & Hcur); [|exact delta_run_ok|].
  - intros d e. unfold old_contents. intros [<- <-]%lookup_singleton_Some. vm_compute. reflexivity.
  - exists m'. split; [done|]. apply (Hcur 0 new_report (chars "annual report")); [done|].
    vm_compute. reflexivity.
Defined.

(** ** Search: the beginning of a word is enough *)

Lemma content_search_exact_witness :
  search_state old_index (chars "quar") 10 = Ok [report_doc]
  ∧ ∃ e, old_contents !! 1%N = Some e ∧ ce_document e = report_doc.
Proof.
  assert (search_state old_index (chars "quar") 10 = Ok [report_doc]) as Hs
    by (apply ok_value_Some; vm_compute; reflexivity).
  split; [exact Hs|].
  assert (holds_docs (entry_document true) entry_id (live old_index) old_contents) as Hh.
  { destruct old_holds as (i & Hi & Hh). by injection Hi as <-. }
  destruct (content_search_exact old_index true old_contents (chars "quar") 10 [report_doc] Hh Hs)
    as (parsed & _ & _ & _ & Hin & _).
  destruct (Hin report_doc (list_elem_of_here _ _)) as (e & He & Hd & _). by exists e.
Defined.
