(* ===== verification/DurableJson.v ===== *)
(** The durable state files of the content index ([crates/content-index/src/lib.rs], from [read_json]
    to [json_checksum]): a value is kept in two slots that are written in turn, each with a sequence
    number and a checksum, so that an interrupted write leaves the previous value readable.

    serde_json is the class [JsonEnv].  A write may stop after any number of bytes; what the file
    then holds is a prefix of what was to be written. *)
From stdpp Require Import base strings numbers list.
From S2P Require Import Prelude Order.

Definition GENERATION_MANAGER_VERSION : Z := 1.

(** [DurableJsonEnvelope]. *)
Record DurableJsonEnvelope (V : Type) := MkEnvelope {
  env_version : Z;                     (* u32 *)
  env_sequence : Z;                    (* u64 *)
  env_checksum : Z;                    (* u64 *)
  env_payload : V }.
Arguments MkEnvelope {V} _ _ _ _.
Arguments env_version {V} _.
Arguments env_sequence {V} _.
Arguments env_checksum {V} _.
Arguments env_payload {V} _.

Class JsonEnv := {
  JValue : Type;
  (** [serde_json::to_vec] of a value, [to_vec_pretty] of an envelope and [from_slice]. *)
  value_to_vec : JValue → list N;
  value_from_slice : list N → option JValue;
  envelope_to_vec : DurableJsonEnvelope JValue → list N;
  envelope_from_slice : list N → option (DurableJsonEnvelope JValue) }.

(** Documented behaviour: an envelope reads back, and no part of a JSON object is a JSON object. *)
Class JsonLaws (J : JsonEnv) := {
  envelope_roundtrip e : envelope_from_slice (envelope_to_vec e) = Some e;
  envelope_prefix e k :
    k < length (envelope_to_vec e) → envelope_from_slice (take k (envelope_to_vec e)) = None }.

(** How a type is serialized. *)
Class JsonCodec `{J : JsonEnv} (A : Type) := {
  to_value : A → JValue;
  from_value : JValue → option A }.
Class JsonCodecLaws `{J : JsonEnv} (A : Type) `{!JsonCodec A} : Prop :=
  value_roundtrip (a : A) : from_value (to_value a) = Some a.

(** What the two slots and the file without a suffix hold. *)
Record DurableFile := MkDurableFile {
  df_slot0 : option (list N);
  df_slot1 : option (list N);
  df_plain : option (list N) }.
Definition no_file : DurableFile := MkDurableFile None None None.

Inductive JsonError := JsonIo | JsonSerialization.

(** How a write ends: complete, before the file is opened, or after some of the bytes. *)
Inductive WriteOutcome := Written | OpenFails | TornAt (bytes : nat).

Section durable.
Context `{J : JsonEnv}.
Implicit Types (d : DurableFile) (e : DurableJsonEnvelope JValue).

(** [json_checksum]: FNV-1a over the serialized payload. *)
Definition fnv_step (hash byte : Z) : Z := ((Z.lxor hash byte * 0x100000001b3) mod 2 ^ 64)%Z.
Definition json_checksum (value : JValue) : Z :=
  foldl (λ hash byte, fnv_step hash (Z.of_N byte)) 0xcbf29ce484222325%Z (value_to_vec value).

(** The envelopes with the right checksum that the slots hold, in slot order. *)
Definition slot_envelope (slot : option (list N)) : option (DurableJsonEnvelope JValue) :=
  match slot ≫= envelope_from_slice with
  | Some e => if decide (env_checksum e = json_checksum (env_payload e)) then Some e else None
  | None => None
  end.
Definition checked_envelopes d : list (DurableJsonEnvelope JValue) :=
  omap slot_envelope [df_slot0 d; df_slot1 d].

(** The first of the envelopes with the highest sequence, as the stable sort puts it. *)
Definition newest (es : list (DurableJsonEnvelope JValue)) : option (DurableJsonEnvelope JValue) :=
  foldl (λ acc e, match acc with
                  | None => Some e
                  | Some b => if (env_sequence b <? env_sequence e)%Z then Some e else Some b
                  end) None es.

(** [read_json]. *)
Definition read_json (A : Type) `{!JsonCodec A} d : result JsonError A :=
  let valid := filter (λ e, env_version e = GENERATION_MANAGER_VERSION) (checked_envelopes d) in
  match newest valid with
  | Some e => ok_or (from_value (env_payload e)) JsonSerialization
  | None =>
      bytes ← ok_or (df_plain d) JsonIo;
      ok_or (value_from_slice bytes ≫= from_value) JsonSerialization
  end.

(** The sequence number of the next write. *)
Definition max_sequence d : Z :=
  foldr (λ e n, Z.max (env_sequence e) n) 0%Z (checked_envelopes d).
Definition next_write d : Z := saturating_add u64_max (max_sequence d) 1.

Definition set_slot (slot : Z) (bytes : list N) d : DurableFile :=
  if decide (slot = 0%Z) then MkDurableFile (Some bytes) (df_slot1 d) (df_plain d)
  else MkDurableFile (df_slot0 d) (Some bytes) (df_plain d).

Definition new_envelope (payload : JValue) d : DurableJsonEnvelope JValue :=
  MkEnvelope GENERATION_MANAGER_VERSION (next_write d) (json_checksum payload) payload.

(** [write_json_atomic]. *)
Definition write_json_atomic {A : Type} `{!JsonCodec A} (outcome : WriteOutcome) (value : A) d
  : result JsonError unit * DurableFile :=
  let bytes := envelope_to_vec (new_envelope (to_value value) d) in
  let slot := (next_write d mod 2)%Z in
  match outcome with
  | Written => (Ok tt, set_slot slot bytes d)
  | OpenFails => (Err JsonIo, d)
  | TornAt k => (Err JsonIo, set_slot slot (take k bytes) d)
  end.

(** [durable_json_exists]. *)
Definition durable_json_exists d : bool :=
  bool_decide (is_Some (df_plain d) ∨ is_Some (df_slot0 d) ∨ is_Some (df_slot1 d)).
End durable.

(** ** Crash safety *)

Section safety.
Context `{J : JsonEnv} `{!JsonLaws J} {A : Type} `{!JsonCodec A} `{!JsonCodecLaws A}.
Implicit Types (d : DurableFile) (e : DurableJsonEnvelope JValue).

(** Each slot holds sequence numbers of its own parity, written by this version. *)
Record durable_ok d : Prop := {
  do_slot0 e : slot_envelope (df_slot0 d) = Some e →
    env_version e = GENERATION_MANAGER_VERSION ∧ (0 ≤ env_sequence e)%Z ∧ (env_sequence e mod 2 = 0)%Z;
  do_slot1 e : slot_envelope (df_slot1 d) = Some e →
    env_version e = GENERATION_MANAGER_VERSION ∧ (0 ≤ env_sequence e)%Z ∧ (env_sequence e mod 2 = 1)%Z }.

Lemma no_file_ok : durable_ok no_file.
Proof. by split. Qed.

Lemma slot_envelope_new payload d :
  slot_envelope (Some (envelope_to_vec (new_envelope payload d))) = Some (new_envelope payload d).
Proof. unfold slot_envelope. simpl. rewrite envelope_roundtrip. by rewrite decide_True. Qed.

Lemma slot_envelope_torn e k :
  k < length (envelope_to_vec e) → slot_envelope (Some (take k (envelope_to_vec e))) = None.
Proof. intros Hk. unfold slot_envelope. simpl. by rewrite envelope_prefix. Qed.

(** What the file says, from its two valid envelopes. *)
Definition newer (a b : option (DurableJsonEnvelope JValue)) : option (DurableJsonEnvelope JValue) :=
  match a, b with
  | Some x, Some y => if (env_sequence x <? env_sequence y)%Z then Some y else Some x
  | Some x, None => Some x
  | None, b => b
  end.
Definition file_value (o : option (DurableJsonEnvelope JValue)) (plain : option (list N)) : result JsonError A :=
  match o with
  | Some e => ok_or (from_value (env_payload e)) JsonSerialization
  | None =>
      bytes ← ok_or plain JsonIo;
      ok_or (value_from_slice bytes ≫= from_value) JsonSerialization
  end.

Lemma read_json_value d :
  durable_ok d →
  read_json A d = file_value (newer (slot_envelope (df_slot0 d)) (slot_envelope (df_slot1 d))) (df_plain d).
Proof.
  intros [H0 H1]. unfold read_json, checked_envelopes. cbn [omap list_omap].
  destruct (slot_envelope (df_slot0 d)) as [x|] eqn:Hx, (slot_envelope (df_slot1 d)) as [y|] eqn:Hy;
    rewrite ?filter_cons; try (destruct (H0 _ eq_refl) as (-> & _)); try (destruct (H1 _ eq_refl) as (-> & _));
    rewrite ?decide_True by done; done.
Qed.

(** The slot that is overwritten does not hold the newest value. *)
Lemma newest_elsewhere d :
  durable_ok d → (max_sequence d < u64_max)%Z →
  let x := slot_envelope (df_slot0 d) in
  let y := slot_envelope (df_slot1 d) in
  next_write d = (max_sequence d + 1)%Z ∧ (0 ≤ max_sequence d)%Z
  ∧ (next_write d mod 2 = 0 ∧ newer x y = newer None y
     ∨ next_write d mod 2 = 1 ∧ newer x y = newer x None)%Z
  ∧ (∀ e, x = Some e ∨ y = Some e → env_sequence e < next_write d)%Z.
Proof.
  intros [H0 H1] Hmax x y. unfold next_write, max_sequence, checked_envelopes, saturating_add in *.
  cbn [omap list_omap] in *. fold x y in H0, H1, Hmax |- *.
  destruct x as [x|], y as [y|]; cbn [foldr newer] in *;
    try (destruct (H0 _ eq_refl) as (_ & Hx1 & Hx2)); try (destruct (H1 _ eq_refl) as (_ & Hy1 & Hy2)).
  - split; [lia|]. split; [lia|]. split; [|intros e [[= <-]|[= <-]]; lia].
    destruct (Z.ltb_spec (env_sequence x) (env_sequence y)).
    + left. split; [|done]. rewrite Z.min_r, Z.max_r, Z.max_l by lia. rewrite Z.add_mod, Hy2 by lia. done.
    + right. split; [|done]. assert (env_sequence x ≠ env_sequence y) by congruence.
      rewrite Z.min_r, Z.max_l by lia. rewrite Z.add_mod, Hx2 by lia. done.
  - split; [lia|]. split; [lia|]. split; [|intros e [[= <-]|[=]]; lia]. right. split; [|done].
    rewrite Z.min_r, Z.max_l by lia. rewrite Z.add_mod, Hx2 by lia. done.
  - split; [lia|]. split; [lia|]. split; [|intros e [[=]|[= <-]]; lia]. left. split; [|done].
    rewrite Z.min_r, Z.max_l by lia. rewrite Z.add_mod, Hy2 by lia. done.
  - split; [unfold u64_max in *; lia|]. split; [lia|]. split; [|by intros e [[=]|[=]]]. right.
    split; [|done]. unfold u64_max. done.
Qed.

(** Replacing the older slot by an envelope or by rubble. *)
Lemma set_slot_newer d bytes :
  durable_ok d → (max_sequence d < u64_max)%Z →
  let d' := set_slot (next_write d mod 2) bytes d in
  let old := newer (slot_envelope (df_slot0 d)) (slot_envelope (df_slot1 d)) in
  (slot_envelope (Some bytes) = None →
     durable_ok d' ∧ newer (slot_envelope (df_slot0 d')) (slot_envelope (df_slot1 d')) = old) ∧
  (∀ payload, slot_envelope (Some bytes) = Some (new_envelope payload d) →
     durable_ok d' ∧ newer (slot_envelope (df_slot0 d')) (slot_envelope (df_slot1 d'))
                     = Some (new_envelope payload d)).
Proof.
  intros Hok Hmax d' old. destruct (newest_elsewhere d Hok Hmax) as (Hn & Hpos & Hpar & Hlt).
  destruct Hok as [H0 H1]. unfold d', old, set_slot in *.
  destruct Hpar as [[Hp ->]|[Hp ->]]; rewrite Hp; cbn [decide]; simpl; (split; [intros Hb|intros payload Hb]).
  - split; [|by rewrite Hb]. split; simpl; [by rewrite Hb|done].
  - split; [split; simpl; [rewrite Hb; intros e [= <-]; simpl; lia|done]|]. rewrite Hb.
    destruct (slot_envelope (df_slot1 d)) as [y|]; simpl; [|done]. rewrite (proj2 (Z.ltb_ge _ _)); [done|].
    specialize (Hlt y ltac:(by right)). lia.
  - split; [|by rewrite Hb]. split; simpl; [done|by rewrite Hb].
  - split; [split; simpl; [done|rewrite Hb; intros e [= <-]; simpl; lia]|]. rewrite Hb.
    destruct (slot_envelope (df_slot0 d)) as [x|]; simpl; [|done]. rewrite (proj2 (Z.ltb_lt _ _)); [done|].
    specialize (Hlt x ltac:(by left)). lia.
Qed.

(** The slots after a write: the one that is written holds the new envelope or nothing, the other and
    the plain file are as they were. *)
Lemma write_json_slots (outcome : WriteOutcome) (a : A) d r d' :
  write_json_atomic outcome a d = (r, d') →
  df_plain d' = df_plain d
  ∧ ∀ e, slot_envelope (df_slot0 d') = Some e ∨ slot_envelope (df_slot1 d') = Some e →
      e = new_envelope (to_value a) d
      ∨ slot_envelope (df_slot0 d) = Some e ∨ slot_envelope (df_slot1 d) = Some e.
Proof.
  unfold write_json_atomic. set (e0 := new_envelope (to_value a) d).
  assert (∀ k e, slot_envelope (Some (take k (envelope_to_vec e0))) = Some e → e = e0) as Htake.
  { intros k e. destruct (decide (k < length (envelope_to_vec e0))) as [Hk|Hk];
      [by rewrite slot_envelope_torn|]. rewrite take_ge by lia. unfold e0. rewrite slot_envelope_new. by intros [= <-]. }
  assert (∀ slot k, let d' := set_slot slot (take k (envelope_to_vec e0)) d in
    df_plain d' = df_plain d ∧ ∀ e, slot_envelope (df_slot0 d') = Some e ∨ slot_envelope (df_slot1 d') = Some e →
      e = e0 ∨ slot_envelope (df_slot0 d) = Some e ∨ slot_envelope (df_slot1 d) = Some e) as Hset.
  { intros slot k d2. unfold d2, set_slot. case_decide; simpl; (split; [done|]); intros e [He|He]; auto.
    - left. by eapply Htake.
    - left. by eapply Htake. }
  destruct outcome as [| |k]; intros [= <- <-]; [|auto|apply Hset].
  rewrite <-(firstn_all (envelope_to_vec e0)). apply Hset.
Qed.

Lemma max_sequence_le d n :
  (0 ≤ n)%Z → (∀ e, slot_envelope (df_slot0 d) = Some e ∨ slot_envelope (df_slot1 d) = Some e →
    env_sequence e ≤ n)%Z → (max_sequence d ≤ n)%Z.
Proof.
  intros Hn Hall. unfold max_sequence, checked_envelopes. cbn [omap list_omap].
  destruct (slot_envelope (df_slot0 d)) as [x|], (slot_envelope (df_slot1 d)) as [y|]; cbn [foldr];
    try (pose proof (Hall x ltac:(by left))); try (pose proof (Hall y ltac:(by right))); lia.
Qed.

Lemma max_sequence_ge d e :
  slot_envelope (df_slot0 d) = Some e ∨ slot_envelope (df_slot1 d) = Some e →
  (env_sequence e ≤ max_sequence d)%Z.
Proof.
  unfold max_sequence, checked_envelopes. cbn [omap list_omap].
  intros [He|He]; rewrite He; [destruct (slot_envelope (df_slot1 d))|destruct (slot_envelope (df_slot0 d))];
    cbn [foldr]; lia.
Qed.

Lemma write_json_sequence (outcome : WriteOutcome) (a : A) d r d' :
  (0 ≤ max_sequence d)%Z → write_json_atomic outcome a d = (r, d') → (max_sequence d' ≤ max_sequence d + 1)%Z.
Proof.
  intros Hpos [_ Hs]%write_json_slots. apply max_sequence_le; [lia|].
  intros e [->|He%max_sequence_ge]%Hs; [|lia]. simpl. unfold next_write, saturating_add. lia.
Qed.

(** What an interrupted or complete write leaves. *)
Lemma write_json_outcome (outcome : WriteOutcome) (a : A) d :
  durable_ok d → (max_sequence d < u64_max)%Z →
  let '(r, d') := write_json_atomic outcome a d in
  durable_ok d' ∧ (read_json A d' = Ok a ∨ read_json A d' = read_json A d ∧ r = Err JsonIo).
Proof.
  intros Hok Hmax. unfold write_json_atomic. set (e := new_envelope (to_value a) d).
  destruct (set_slot_newer d (envelope_to_vec e) Hok Hmax) as [_ Hfull].
  destruct (Hfull (to_value a) (slot_envelope_new _ _)) as [Hok' Hnew]. fold e in Hnew.
  assert (read_json A (set_slot (next_write d mod 2) (envelope_to_vec e) d) = Ok a) as Hread.
  { rewrite read_json_value by done. rewrite Hnew. simpl. by rewrite value_roundtrip. }
  destruct outcome as [| |k]; [by split; [|left]|by split; [|right]|].
  destruct (decide (k < length (envelope_to_vec e))) as [Hk|Hk].
  - destruct (set_slot_newer d (take k (envelope_to_vec e)) Hok Hmax) as [Htorn _].
    destruct (Htorn (slot_envelope_torn _ _ Hk)) as [Hok2 Hold]. split; [done|right]. split; [|done].
    rewrite !read_json_value by done. rewrite Hold. unfold set_slot. by case_decide.
  - rewrite take_ge by lia. by split; [|left].
Qed.

(** C21 (durable values survive interrupted writes): however the write of a state file ends, before
    opening it, after any number of bytes, or complete, reading it afterwards gives the new value or
    what reading gave before, and a complete write gives the new value. *)
Theorem durable_write_atomic (outcome : WriteOutcome) (a : A) (d d' : DurableFile) (r : result JsonError unit) :
  durable_ok d → (max_sequence d < u64_max)%Z → write_json_atomic outcome a d = (r, d') →
  (read_json A d' = Ok a ∨ read_json A d' = read_json A d) ∧ (r = Ok tt → read_json A d' = Ok a)
  ∧ durable_ok d'.
Proof.
  intros Hok Hmax H. pose proof (write_json_outcome outcome a d Hok Hmax) as Hw. rewrite H in Hw.
  destruct Hw as (Hok' & [Hnew|[Hold ->]]); [by auto|]. split; [by right|]. by split.
Qed.
End safety.
