(* ===== verification/Generations.v ===== *)
(** The content generation manager ([crates/content-index/src/lib.rs], [ContentGenerationManager]):
    isolated generations below one content root, a durable record for each, an atomic pointer to the
    active one, restartable building, activation, recovery and garbage collection.

    The state is the files of the content root.  [GenEnv] holds what comes from outside in the order
    it is asked for: the clock, disk space, the size of a directory, the graph at each page, the
    source files, and how each write, creation and removal ends.  A write that fails part-way is also
    what a crash at that point leaves behind. *)
From Stdlib Require Import Ascii String.
From stdpp Require Import base strings numbers gmap list sorting.
From S2P Require Import Prelude Ids Order Models GraphDomain GraphTables GraphProjection GraphOutbox.
From S2P Require Import Text Catalog Content DurableJson.

(** ** Records *)

Inductive ContentGenerationState := Building | Ready | Active | Retired | Failed.
Global Instance ContentGenerationState_eq_dec : EqDecision ContentGenerationState.
Proof. solve_decision. Defined.

Inductive ContentCapacityLimit := ContentIndexBytes | Documents | FreeDisk.

Record ContentGenerationLimits := MkContentGenerationLimits {
  max_content_index_bytes : Z;         (* u64 *)
  max_documents : Z;                   (* u64 *)
  min_free_disk_bytes : Z;             (* u64 *)
  min_free_disk_percent : Z;           (* u8 *)
  batch_documents : Z;                 (* u32 *)
  limit_maximum_batches : Z }.         (* u32 *)

Record ContentGenerationRecord := MkContentGenerationRecord {
  gr_version : Z;                      (* u32 *)
  gr_generation_id : string;
  gr_scan_id : string;
  gr_state : ContentGenerationState;
  gr_target_sequence : Z;              (* u64 *)
  gr_root_ids : list string;
  gr_last_checkpoint : option document_id;
  gr_documents_seen : Z;               (* u64 *)
  gr_documents_projected : Z;          (* u64 *)
  gr_bytes_processed : Z;              (* u64 *)
  gr_commits : Z;                      (* u64 *)
  gr_index_generation : Z;             (* u64 *)
  gr_content_index_bytes : Z;          (* u64 *)
  gr_capacity_limit : option ContentCapacityLimit;
  gr_created_at : Z;                   (* u64 *)
  gr_updated_at : Z }.                 (* u64 *)

Record ActiveGenerationPointer := MkActiveGenerationPointer {
  ap_version : Z;                      (* u32 *)
  ap_generation_id : string;
  ap_activated_at : Z }.               (* u64 *)

Record DiskSpace := MkDiskSpace { disk_total : Z; disk_available : Z }.

(** Updates of a record. *)
Definition set_gr_state (s : ContentGenerationState) (now : Z) (r : ContentGenerationRecord)
  : ContentGenerationRecord :=
  MkContentGenerationRecord (gr_version r) (gr_generation_id r) (gr_scan_id r) s (gr_target_sequence r)
    (gr_root_ids r) (gr_last_checkpoint r) (gr_documents_seen r) (gr_documents_projected r)
    (gr_bytes_processed r) (gr_commits r) (gr_index_generation r) (gr_content_index_bytes r)
    (gr_capacity_limit r) (gr_created_at r) now.
Definition set_gr_capacity (c : option ContentCapacityLimit) (r : ContentGenerationRecord)
  : ContentGenerationRecord :=
  MkContentGenerationRecord (gr_version r) (gr_generation_id r) (gr_scan_id r) (gr_state r)
    (gr_target_sequence r) (gr_root_ids r) (gr_last_checkpoint r) (gr_documents_seen r)
    (gr_documents_projected r) (gr_bytes_processed r) (gr_commits r) (gr_index_generation r)
    (gr_content_index_bytes r) c (gr_created_at r) (gr_updated_at r).
Definition set_gr_bytes (bytes now : Z) (r : ContentGenerationRecord) : ContentGenerationRecord :=
  MkContentGenerationRecord (gr_version r) (gr_generation_id r) (gr_scan_id r) (gr_state r)
    (gr_target_sequence r) (gr_root_ids r) (gr_last_checkpoint r) (gr_documents_seen r)
    (gr_documents_projected r) (gr_bytes_processed r) (gr_commits r) (gr_index_generation r)
    bytes (gr_capacity_limit r) (gr_created_at r) now.
(** What a committed page changes. *)
Definition advance_record (checkpoint : document_id) (page_len declared : Z) (s : ContentSyncSummary)
  (r : ContentGenerationRecord) : ContentGenerationRecord :=
  let add := saturating_add u64_max in
  MkContentGenerationRecord (gr_version r) (gr_generation_id r) (gr_scan_id r) (gr_state r)
    (gr_target_sequence r) (gr_root_ids r) (Some checkpoint) (add (gr_documents_seen r) page_len)
    (add (add (gr_documents_projected r) (su_count s AddedDocuments)) (su_count s UnchangedDocuments))
    (add (gr_bytes_processed r) declared) (add (gr_commits r) 1%Z) (su_generation s)
    (gr_content_index_bytes r) (gr_capacity_limit r) (gr_created_at r) (gr_updated_at r).

(** ** Arithmetic *)

Definition required_disk_reserve (total : Z) (limits : ContentGenerationLimits) : Z :=
  let percentage := (saturating_mul u64_max total (min_free_disk_percent limits) / 100)%Z in
  Z.max (min_free_disk_bytes limits) percentage.

Definition forecast_index_growth (declared_source_bytes documents : Z) : Z :=
  saturating_add u64_max (saturating_mul u64_max declared_source_bytes 2)
    (saturating_mul u64_max documents 1024).

Definition add_sync_summary (total value : ContentSyncSummary) : ContentSyncSummary :=
  MkSummary (λ c, saturating_add u64_max (su_count total c) (su_count value c)) (su_generation value).

(** ** Identifiers *)

(** [{n:0width}] of a number that has at most [width] digits. *)
Fixpoint fixed_decimal (width : nat) (n : Z) : string :=
  match width with
  | O => EmptyString
  | S width => fixed_decimal width (n / 10) +:+ String (ascii_of_N (48 + Z.to_N (n mod 10))) EmptyString
  end.

Definition id_byte (a : ascii) : bool :=
  let c := N_of_ascii a in
  between 48 57 c || between 65 90 c || between 97 122 c || (c =? 45)%N.

Definition valid_generation_id (value : string) : bool :=
  String.prefix "generation-" value && forallb id_byte (list_ascii_of_string value).

Definition generation_id (sequence now suffix : Z) : string :=
  "generation-" +:+ fixed_decimal 20 sequence +:+ "-" +:+ fixed_decimal 20 now +:+ "-"
  +:+ fixed_decimal 4 suffix.

(** ** State *)

Section manager.
Context `{TV : Tantivy} `{T : TextEnv} `{CE : !ContentEnv} `{J : JsonEnv}.
Context `{RC : !JsonCodec ContentGenerationRecord} `{PC : !JsonCodec ActiveGenerationPointer}.

Definition limits_validate (l : ContentGenerationLimits) : result ContentIndexError ContentGenerationLimits :=
  if (max_content_index_bytes l =? 0)%Z || (max_documents l =? 0)%Z || (50 <? min_free_disk_percent l)%Z
     || (batch_documents l =? 0)%Z || (10000 <? batch_documents l)%Z
     || (limit_maximum_batches l =? 0)%Z || (4096 <? limit_maximum_batches l)%Z
  then Err XInvalidPolicy else Ok l.

Record GenerationDir := MkGenerationDir {
  gd_state : DurableFile;
  gd_index : option ContentDir }.
Definition empty_generation : GenerationDir := MkGenerationDir no_file None.

(** A content root: an index directly in it, the manager's marker, the active pointer, and the
    [generations] directory. *)
Record ContentRoot := MkContentRoot {
  cr_direct : option ContentDir;
  cr_manager : option string;
  cr_active : DurableFile;
  cr_generations : option (gmap string GenerationDir) }.

Definition set_manager (marker : option string) (r : ContentRoot) : ContentRoot :=
  MkContentRoot (cr_direct r) marker (cr_active r) (cr_generations r).
Definition set_active (f : DurableFile) (r : ContentRoot) : ContentRoot :=
  MkContentRoot (cr_direct r) (cr_manager r) f (cr_generations r).
Definition set_generations (g : option (gmap string GenerationDir)) (r : ContentRoot) : ContentRoot :=
  MkContentRoot (cr_direct r) (cr_manager r) (cr_active r) g.

Definition generation_map (r : ContentRoot) : gmap string GenerationDir := default ∅ (cr_generations r).
Definition generation_dir (id : string) (r : ContentRoot) : GenerationDir :=
  default empty_generation (generation_map r !! id).
(** Writing below a generation creates its directory. *)
Definition put_generation (id : string) (d : GenerationDir) (r : ContentRoot) : ContentRoot :=
  set_generations (Some (<[id := d]> (generation_map r))) r.

(** What a failed [remove_dir_all] leaves: some of the state files, and of the index what it did not
    get to. *)
Record Removal := MkRemoval {
  rm_slot0 : bool;
  rm_slot1 : bool;
  rm_plain : bool;
  rm_index : option ContentDir }.
Definition kept (b : bool) (f : option (list N)) : option (list N) := if b then f else None.
Definition partly_removed (m : Removal) (d : GenerationDir) : GenerationDir :=
  MkGenerationDir
    (MkDurableFile (kept (rm_slot0 m) (df_slot0 (gd_state d))) (kept (rm_slot1 m) (df_slot1 (gd_state d)))
       (kept (rm_plain m) (df_plain (gd_state d)))) (rm_index m).

(** What the operating system answers; the argument counts the questions asked so far. *)
Record GenEnv := MkGenEnv {
  ge_clock : nat → Z;                                     (* u64 milliseconds *)
  ge_disk : nat → result ContentIndexError DiskSpace;
  ge_bytes : nat → result ContentIndexError Z;            (* [directory_bytes] *)
  ge_write : nat → WriteOutcome;
  ge_create : nat → Creation;
  ge_make_dir : nat → bool;
  ge_remove : nat → option Removal;
  ge_graph : nat → db;
  ge_files : nat → nat → SourceFs;
  ge_crash_after : option Z }.                            (* the variable the tests set *)

Record gstate := MkGstate { gs_root : ContentRoot; gs_tick : nat }.
Abbreviation Gn := (St gstate ContentIndexError).

Context (env : GenEnv).

Definition json_error (e : JsonError) : ContentIndexError :=
  match e with JsonIo => XIo | JsonSerialization => XSerialization end.

(** Asking the environment, reading and changing the root. *)
Definition ask {A} (f : nat → A) : Gn A := λ s, (Ok (f (gs_tick s)), MkGstate (gs_root s) (S (gs_tick s))).
Definition ask_ok {A} (f : nat → result ContentIndexError A) : Gn A := r ← ask f; st_lift r.
Definition root_get {A} (f : ContentRoot → A) : Gn A := λ s, (Ok (f (gs_root s)), s).
Definition root_set (f : ContentRoot → ContentRoot) : Gn unit := λ s,
  (Ok tt, MkGstate (f (gs_root s)) (gs_tick s)).
Definition unix_time_millis : Gn Z := ask (ge_clock env).

(** [write_json_atomic] on the record of a generation, and on the active pointer. *)
Definition write_record_file (id : string) (record : ContentGenerationRecord) : Gn unit :=
  outcome ← ask (ge_write env);
  d ← root_get (generation_dir id);
  let '(r, f) := write_json_atomic outcome record (gd_state d) in
  root_set (put_generation id (MkGenerationDir f (gd_index d))) ;;
  st_lift (map_err json_error r).

Definition write_record (record : ContentGenerationRecord) : Gn unit :=
  write_record_file (gr_generation_id record) record.

Definition write_pointer (pointer : ActiveGenerationPointer) : Gn unit :=
  outcome ← ask (ge_write env);
  f ← root_get cr_active;
  let '(r, f) := write_json_atomic outcome pointer f in
  root_set (set_active f) ;;
  st_lift (map_err json_error r).

Definition read_record (r : ContentRoot) (id : string) : result ContentIndexError ContentGenerationRecord :=
  map_err json_error (read_json ContentGenerationRecord (gd_state (generation_dir id r))).

(** [active_pointer]. *)
Definition active_pointer (r : ContentRoot) : result ContentIndexError ActiveGenerationPointer :=
  map_err json_error (read_json ActiveGenerationPointer (cr_active r)).

(** The loop of [records]. *)
Fixpoint read_record_files (ds : list (string * GenerationDir))
  : result ContentIndexError (list ContentGenerationRecord) :=
  match ds with
  | [] => mret []
  | (name, d) :: ds =>
      if valid_generation_id name && durable_json_exists (gd_state d) then
        x ← map_err json_error (read_json ContentGenerationRecord (gd_state d));
        xs ← read_record_files ds; mret (x :: xs)
      else read_record_files ds
  end.

(** [records]: the directory lists its entries in some order. *)
Definition records (r : ContentRoot) : result ContentIndexError (list ContentGenerationRecord) :=
  gens ← ok_or (cr_generations r) XIo;
  read_record_files (map_to_list gens).

(** [active_index_path]: the generation whose index is active. *)
Definition active_index_path (r : ContentRoot) : result ContentIndexError string :=
  pointer ← active_pointer r;
  ensure (bool_decide (ap_version pointer = GENERATION_MANAGER_VERSION)
          && valid_generation_id (ap_generation_id pointer)) XSchemaMismatch ;;
  ensure (bool_decide (is_Some (gd_index (generation_dir (ap_generation_id pointer) r) ≫= xd_marker)))
    XSchemaMismatch ;;
  mret (ap_generation_id pointer).

Definition has_active_generation (r : ContentRoot) : bool := is_ok (active_index_path r).

(** [max_by_key]: the last of the largest. *)
Definition max_by_updated (rs : list ContentGenerationRecord) : option ContentGenerationRecord :=
  foldl (λ acc r, match acc with
                  | None => Some r
                  | Some b => if (gr_updated_at r <? gr_updated_at b)%Z then Some b else Some r
                  end) None rs.

Definition is_building (r : ContentGenerationRecord) : bool := bool_decide (gr_state r = Building).

Definition building_generation_record (r : ContentRoot)
  : result ContentIndexError (option ContentGenerationRecord) :=
  rs ← records r; mret (max_by_updated (filter (λ x, is_building x = true) rs)).

Definition has_building_generation (r : ContentRoot) : result ContentIndexError bool :=
  o ← building_generation_record r; mret (bool_decide (is_Some o)).

Definition active_generation_record (r : ContentRoot) : result ContentIndexError ContentGenerationRecord :=
  pointer ← active_pointer r;
  ensure (valid_generation_id (ap_generation_id pointer)) XSchemaMismatch ;;
  read_record r (ap_generation_id pointer).

(** [for x in xs { f(x)?; }]. *)
Fixpoint each {A} (xs : list A) (f : A → Gn unit) : Gn unit :=
  match xs with [] => mret tt | x :: xs => f x ;; each xs f end.

(** [recover_lifecycle]: the pointer decides which record is active. *)
Definition desired_state (active : string) (record : ContentGenerationRecord)
  : option ContentGenerationState :=
  if decide (gr_generation_id record = active) then Some Active
  else if decide (gr_state record = Active) then Some Retired
  else None.

Definition recover_record (active : string) (record : ContentGenerationRecord) : Gn unit :=
  match desired_state active record with
  | Some desired =>
      if decide (gr_state record = desired) then mret tt
      else now ← unix_time_millis; write_record (set_gr_state desired now record)
  | None => mret tt
  end.

Definition recover_lifecycle : Gn unit :=
  pointer ← root_get active_pointer;
  match pointer with
  | Err _ => mret tt
  | Ok pointer =>
      st_lift (ensure (valid_generation_id (ap_generation_id pointer)) XSchemaMismatch) ;;
      rs ← root_get records; rs ← st_lift rs;
      each rs (recover_record (ap_generation_id pointer))
  end.

(** [ContentGenerationManager::open]. *)
Definition manager_open : Gn unit :=
  direct ← root_get cr_direct;
  st_lift (ensure (negb (bool_decide (is_Some (direct ≫= xd_marker)))) XSchemaMismatch) ;;
  made ← ask (ge_make_dir env);
  st_lift (ensure made XIo) ;;
  root_set (λ r, set_generations (Some (generation_map r)) r) ;;
  marker ← root_get cr_manager;
  match marker with
  | Some m => st_lift (ensure (bool_decide (m = CONTENT_SCHEMA_ID)) XSchemaMismatch)
  | None =>
      outcome ← ask (ge_write env);
      match outcome with
      | Written => root_set (set_manager (Some CONTENT_SCHEMA_ID))
      | OpenFails => st_fail XIo
      | TornAt k => root_set (set_manager (Some (String.substring 0 k CONTENT_SCHEMA_ID))) ;; st_fail XIo
      end
  end ;;
  recover_lifecycle.

(** *** Garbage collection *)

(** [sort_by_key(Reverse(updated_at))]. *)
Definition newer_first : relation ContentGenerationRecord := λ a b, (gr_updated_at b ≤ gr_updated_at a)%Z.
Global Instance newer_first_dec : RelDecision newer_first.
Proof. intros a b. unfold newer_first. apply _. Defined.

Definition removable_records (retain_retired : nat) (rs : list ContentGenerationRecord)
  : list ContentGenerationRecord :=
  let retired := merge_sort newer_first (filter (λ r, gr_state r = Retired) rs) in
  filter (λ r, gr_state r = Failed) rs ++ drop retain_retired retired.

(** [remove_dir_all] of one generation. *)
Definition remove_generation (id : string) : Gn unit :=
  left ← ask (ge_remove env);
  gens ← root_get generation_map;
  match gens !! id, left with
  | None, _ => st_fail XIo
  | Some _, None => root_set (set_generations (Some (delete id gens)))
  | Some d, Some m => root_set (put_generation id (partly_removed m d)) ;; st_fail XIo
  end.

Fixpoint remove_each (active : option string) (rs : list ContentGenerationRecord) (removed : list string)
  : Gn (list string) :=
  match rs with
  | [] => mret removed
  | r :: rs =>
      let id := gr_generation_id r in
      if bool_decide (active = Some id) || negb (valid_generation_id id) then remove_each active rs removed
      else remove_generation id ;; remove_each active rs (removed ++ [id])
  end.

(** [collect_garbage]. *)
Definition collect_garbage (retain_retired : nat) : Gn (list string) :=
  pointer ← root_get active_pointer;
  rs ← root_get records; rs ← st_lift rs;
  remove_each (ap_generation_id <$> ok_value pointer) (removable_records retain_retired rs) [].

(** *** Building *)

(** [unique_generation_id]: the first free suffix. *)
Fixpoint find_generation_id (fuel : nat) (suffix sequence now : Z) (gens : gmap string GenerationDir)
  : option string :=
  match fuel with
  | O => None
  | S fuel =>
      let id := generation_id sequence now suffix in
      if decide (gens !! id = None) then Some id
      else find_generation_id fuel (suffix + 1) sequence now gens
  end.
Definition unique_generation_id (sequence now : Z) (gens : gmap string GenerationDir)
  : result ContentIndexError string :=
  ok_or (find_generation_id (Z.to_nat 10000) 0 sequence now gens) XIo.

(** Marking a record failed. *)
Definition fail_record (record : ContentGenerationRecord) : Gn unit :=
  now ← unix_time_millis; write_record (set_gr_state Failed now record).

(** The end of [recover_or_create_building]: a fresh generation with an empty index. *)
Definition new_generation (roots : list string) policy : Gn ContentGenerationRecord :=
  g ← ask (ge_graph env);
  target ← st_lift (map_err XGraph (latest_outbox_sequence g));
  now ← unix_time_millis;
  gens ← root_get generation_map;
  id ← st_lift (unique_generation_id target now gens);
  made ← ask (ge_make_dir env);
  st_lift (ensure made XIo) ;;
  root_set (put_generation id empty_generation) ;;
  creation ← ask (ge_create env);
  files ← ask (ge_files env);
  let '(built, dir) := content_build creation files None [] policy in
  root_set (λ r, put_generation id (MkGenerationDir (gd_state (generation_dir id r)) dir) r) ;;
  initialized ← st_lift built;
  bytes ← ask_ok (ge_bytes env);
  let record := MkContentGenerationRecord GENERATION_MANAGER_VERSION id ("scan-" +:+ id) Building target
                  roots None 0 0 0 0 (su_generation initialized) bytes None now now in
  write_record record ;;
  mret record.

(** [recover_or_create_building]. *)
Definition recover_or_create_building (roots : list string) policy : Gn ContentGenerationRecord :=
  rs ← root_get records; rs ← st_lift rs;
  let building := merge_sort newer_first (filter (λ r, is_building r = true) rs) in
  each (tail building) fail_record ;;
  match building with
  | candidate :: _ =>
      if decide (gr_version candidate = GENERATION_MANAGER_VERSION ∧ gr_root_ids candidate = roots)
      then mret (set_gr_capacity None candidate)
      else fail_record candidate ;; new_generation roots policy
  | [] => new_generation roots policy
  end.

(** *** Activation *)

(** [ContentIndex::open(index_path)?.document_count()?] on the index of a generation. *)
Definition dir_count (dir : option ContentDir) : result ContentIndexError Z :=
  '(i, _) ← open_index dir;
  n ← content_document_count i;
  mret (Z.min u64_max (Z.of_nat n)).
Definition generation_count (id : string) (r : ContentRoot) : result ContentIndexError Z :=
  dir_count (gd_index (generation_dir id r)).

(** Retiring what was active before. *)
Definition retire_previous (previous : option ActiveGenerationPointer) (id : string) : Gn unit :=
  match previous with
  | Some p =>
      if bool_decide (ap_generation_id p ≠ id) && valid_generation_id (ap_generation_id p) then
        old ← root_get (λ r, read_record r (ap_generation_id p));
        match old with
        | Ok old => now ← unix_time_millis; write_record_file (ap_generation_id p) (set_gr_state Retired now old)
        | Err _ => mret tt
        end
      else mret tt
  | None => mret tt
  end.

(** [activate_validated]. *)
Definition activate_validated (record : ContentGenerationRecord) : Gn ContentGenerationRecord :=
  let id := gr_generation_id record in
  count ← root_get (generation_count id); count ← st_lift count;
  if decide (count ≠ gr_documents_projected record) then
    now ← unix_time_millis; write_record_file id (set_gr_state Failed now record) ;; st_fail XMissingPayload
  else
    now ← unix_time_millis;
    let record := set_gr_state Ready now record in
    write_record_file id record ;;
    previous ← root_get active_pointer;
    activated ← unix_time_millis;
    write_pointer (MkActiveGenerationPointer GENERATION_MANAGER_VERSION id activated) ;;
    let record := set_gr_state Active activated record in
    write_record_file id record ;;
    retire_previous (ok_value previous) id ;;
    collect_garbage 1 ;;
    mret record.

(** *** Resuming *)

(** [apply_delta] on the index of a generation. *)
Definition generation_delta (id : string) (page : list CatalogDocument) policy : Gn ContentSyncSummary :=
  files ← ask (ge_files env);
  d ← root_get (generation_dir id);
  let '(r, dir) := apply_delta files (gd_index d) page [] policy in
  root_set (put_generation id (MkGenerationDir (gd_state d) dir)) ;;
  st_lift r.

Inductive page_result := Paused (record : ContentGenerationRecord) | Finished (record : ContentGenerationRecord)
| Continue (record : ContentGenerationRecord) (summary : ContentSyncSummary).

Definition pause (limit : ContentCapacityLimit) (record : ContentGenerationRecord) : Gn page_result :=
  mret (Paused (set_gr_capacity (Some limit) record)).

(** Committing one page and the checkpoint after it. *)
Definition commit_page (record : ContentGenerationRecord) (page : list CatalogDocument) (declared : Z) policy
  : Gn page_result :=
  let id := gr_generation_id record in
  checkpoint ← st_lift (ok_or ((λ d, ci_document_id (cd_identity d)) <$> last page) XMissingPayload);
  summary ← generation_delta id page policy;
  if decide (ge_crash_after env = Some (saturating_add u64_max (gr_commits record) 1)) then st_fail XIo
  else
    let record := advance_record checkpoint (Z.of_nat (length page)) declared summary record in
    bytes ← ask_ok (ge_bytes env);
    now ← unix_time_millis;
    let record := set_gr_bytes bytes now record in
    write_record_file id record ;;
    mret (Continue record summary).

(** The loop body of [resume_initial_generation]. *)
Definition resume_page (limits : ContentGenerationLimits) policy (record : ContentGenerationRecord)
  : Gn page_result :=
  let record := set_gr_capacity None record in
  disk ← ask_ok (ge_disk env);
  let reserve := required_disk_reserve (disk_total disk) limits in
  let add := saturating_add u64_max in
  current ← ask_ok (ge_bytes env);
  if (max_content_index_bytes limits <=? current)%Z then pause ContentIndexBytes record
  else if (max_documents limits <=? gr_documents_projected record)%Z then pause Documents record
  else if (disk_available disk <=? add reserve CONTENT_WRITER_HEAP_BYTES)%Z then pause FreeDisk record
  else
    let page_limit := Z.min (saturating_sub (max_documents limits) (gr_documents_projected record))
                        (batch_documents limits) in
    g ← ask (ge_graph env);
    page ← st_lift (map_err XGraph (desired_catalog_page g (gr_last_checkpoint record) page_limit));
    match page with
    | [] => record ← activate_validated record; mret (Finished record)
    | _ :: _ =>
        let declared := foldl (λ total d, add total (declared_eligible_bytes policy d)) 0%Z page in
        let forecast := forecast_index_growth declared (Z.of_nat (length page)) in
        if (max_content_index_bytes limits <? add current forecast)%Z then pause ContentIndexBytes record
        else if (disk_available disk <=? add (add reserve forecast) CONTENT_WRITER_HEAP_BYTES)%Z
        then pause FreeDisk record
        else commit_page record page declared policy
    end.

Fixpoint resume_loop (fuel : nat) (limits : ContentGenerationLimits) policy
  (record : ContentGenerationRecord) (projection : ContentSyncSummary)
  : Gn (ContentGenerationRecord * ContentSyncSummary * bool) :=
  match fuel with
  | O => mret (record, projection, false)
  | S fuel =>
      result ← resume_page limits policy record;
      match result with
      | Paused record => mret (record, projection, false)
      | Finished record => mret (record, projection, true)
      | Continue record summary =>
          resume_loop fuel limits policy record (add_sync_summary projection summary)
      end
  end.

Record ContentGenerationSummary := MkContentGenerationSummary {
  gsum_generation : ContentGenerationRecord;
  gsum_complete : bool;
  gsum_capacity_limited : bool;
  gsum_projection : ContentSyncSummary;
  gsum_available_disk_bytes : Z;
  gsum_required_disk_reserve_bytes : Z }.

(** [resume_initial_generation]. *)
Definition resume_initial_generation (roots : list string) policy (limits : ContentGenerationLimits)
  : Gn ContentGenerationSummary :=
  limits ← st_lift (limits_validate limits);
  record ← recover_or_create_building roots policy;
  '(record, projection, complete) ←
    resume_loop (Z.to_nat (limit_maximum_batches limits)) limits policy record (MkSummary no_counts 0);
  bytes ← ask_ok (ge_bytes env);
  now ← unix_time_millis;
  let record := set_gr_bytes bytes now record in
  write_record_file (gr_generation_id record) record ;;
  disk ← ask_ok (ge_disk env);
  mret (MkContentGenerationSummary record complete (bool_decide (is_Some (gr_capacity_limit record)))
          projection (disk_available disk) (required_disk_reserve (disk_total disk) limits)).
End manager.
