(* ===== verification/GenerationsSpec.v ===== *)
(** What the generation manager promises: whatever fails or crashes, the active generation keeps
    being served as it is until another one is complete and validated, garbage collection removes
    neither it nor a generation being built, and building can be interrupted anywhere. *)
From Stdlib Require Import Ascii String.
From stdpp Require Import base strings numbers gmap list sorting.
From S2P Require Import Prelude Ids Order Models GraphDomain GraphTables GraphProjection GraphOutbox.
From S2P Require Import Text Catalog Content DurableJson Generations.

(** ** Questions *)

Section growth.
Context `{TV : Tantivy} `{J : JsonEnv}.
Abbreviation Gn := (St gstate ContentIndexError).

(** No operation takes back a question. *)
Definition grows {A} (m : Gn A) : Prop := ∀ s, gs_tick s ≤ gs_tick (m s).2.

Lemma grows_bind {A C} (m : Gn A) (f : A → Gn C) : grows m → (∀ a, grows (f a)) → grows (m ≫= f).
Proof.
  intros Hm Hf s. specialize (Hm s). unfold mbind, St_bind. destruct (m s) as [[a|e] s1]; [|done].
  specialize (Hf a s1). simpl in *. lia.
Qed.
Lemma grows_ask {A} (f : nat → A) : grows (ask f).
Proof. intros s. simpl. lia. Qed.
Lemma grows_still {A} (m : Gn A) : (∀ s, gs_tick (m s).2 = gs_tick s) → grows m.
Proof. intros Hm s. by rewrite Hm. Qed.
Lemma grows_each {A} (xs : list A) (f : A → Gn unit) : (∀ x, grows (f x)) → grows (each xs f).
Proof. intros Hf. induction xs; simpl; [by apply grows_still|]. by apply grows_bind. Qed.
End growth.

Create HintDb grows.
#[export] Hint Resolve grows_ask : grows.
(** Follows the structure of an operation. *)
Ltac solve_grows :=
  repeat first
    [ solve [auto with grows] | apply grows_bind; [|intros ?] | apply grows_each; intros ?
    | apply grows_still; intros ?; reflexivity | progress unfold ask_ok, unix_time_millis | case_match ].

Section spec.
Context `{TV : Tantivy} `{T : TextEnv} `{CE : !ContentEnv} `{J : JsonEnv}.
Context `{RC : !JsonCodec ContentGenerationRecord} `{PC : !JsonCodec ActiveGenerationPointer}.
Context `{!JsonLaws J} `{!JsonCodecLaws ContentGenerationRecord} `{!JsonCodecLaws ActiveGenerationPointer}.
Context (env : GenEnv).
(** The sequence numbers of the state files stay below the number of questions asked; a run is
    considered up to [B] questions. *)
Context (B : nat) (HB : (Z.of_nat B ≤ u64_max)%Z).
Abbreviation Gn := (St gstate ContentIndexError).
Implicit Types (s : gstate) (r : ContentRoot) (id : string) (rec : ContentGenerationRecord).

(** ** Program logic *)

(** From a state that satisfies [P] the operation ends with [Q], or fails with [R], as long as it asks
    fewer than [B] questions; it takes back no question. *)
Definition gtriple {A} (P : gstate → Prop) (m : Gn A) (Q : A → gstate → Prop) (R : gstate → Prop) : Prop :=
  (∀ s, gs_tick s ≤ gs_tick (m s).2) ∧
  ∀ s, P s → gs_tick (m s).2 < B → match (m s).1 with Ok a => Q a (m s).2 | Err _ => R (m s).2 end.

Lemma g_ret {A} (a : A) (P : gstate → Prop) (Q : A → gstate → Prop) R :
  (∀ s, P s → Q a s) → gtriple P (mret a) Q R.
Proof. intros HQ. split; [done|]. intros s Hs _. by apply HQ. Qed.

Lemma g_bind {A C} (m : Gn A) (f : A → Gn C) P Q' Q R :
  gtriple P m Q' R → (∀ a, gtriple (Q' a) (f a) Q R) → gtriple P (m ≫= f) Q R.
Proof.
  intros [Hmt Hm] Hf. unfold mbind, St_bind. split; intros s.
  - specialize (Hmt s). destruct (m s) as [[a|e] s1]; [|done]. destruct (Hf a) as [Hft _].
    specialize (Hft s1). simpl in *. lia.
  - intros Hs Hlt. specialize (Hm s Hs). specialize (Hmt s). destruct (m s) as [[a|e] s1]; [|by apply Hm].
    destruct (Hf a) as [Hft Hfa]. simpl in *. apply Hfa; [|done]. apply Hm. specialize (Hft s1). lia.
Qed.

Lemma g_conseq {A} (m : Gn A) P P' Q Q' (R R' : gstate → Prop) :
  gtriple P' m Q' R' → (∀ s, P s → P' s) → (∀ a s, Q' a s → Q a s) → (∀ s, R' s → R s) → gtriple P m Q R.
Proof.
  intros [Ht Hm] HP HQ HR. split; [done|]. intros s Hs Hlt. specialize (Hm s (HP s Hs) Hlt).
  destruct (m s) as [[a|e] s1]; simpl in *; [by apply HQ|by apply HR].
Qed.

Lemma g_pre {A} (m : Gn A) P P' Q (R : gstate → Prop) :
  (∀ s, P s → P' s) → gtriple P' m Q R → gtriple P m Q R.
Proof. intros HP Hm. by eapply g_conseq. Qed.

Lemma g_err {A} (m : Gn A) P Q (R R' : gstate → Prop) :
  (∀ s, R' s → R s) → gtriple P m Q R' → gtriple P m Q R.
Proof. intros HR Hm. by eapply g_conseq. Qed.

Lemma g_fail {A} (e : ContentIndexError) P (Q : A → gstate → Prop) (R : gstate → Prop) :
  (∀ s, P s → R s) → gtriple P (st_fail e) Q R.
Proof. intros HR. split; [done|]. intros s Hs _. by apply HR. Qed.

Lemma g_lift {A} (x : result ContentIndexError A) P (Q : A → gstate → Prop) (R : gstate → Prop) :
  (∀ a s, x = Ok a → P s → Q a s) → (∀ s, P s → R s) → gtriple P (st_lift x) Q R.
Proof. intros HQ HR. split; [done|]. intros s Hs _. simpl. destruct x; auto. Qed.

Lemma g_ask {A} (f : nat → A) P (Q : A → gstate → Prop) R :
  (∀ s, P s → Q (f (gs_tick s)) (MkGstate (gs_root s) (S (gs_tick s)))) → gtriple P (ask f) Q R.
Proof. intros HQ. split; [simpl; lia|]. intros s Hs _. by apply HQ. Qed.

Lemma g_get {A} (f : ContentRoot → A) P (Q : A → gstate → Prop) R :
  (∀ s, P s → Q (f (gs_root s)) s) → gtriple P (root_get f) Q R.
Proof. intros HQ. split; [done|]. intros s Hs _. by apply HQ. Qed.

Lemma g_set (f : ContentRoot → ContentRoot) P (Q : unit → gstate → Prop) R :
  (∀ s, P s → Q tt (MkGstate (f (gs_root s)) (gs_tick s))) → gtriple P (root_set f) Q R.
Proof. intros HQ. split; [done|]. intros s Hs _. by apply HQ. Qed.

(** Facts of the precondition that do not mention the state. *)
Lemma g_pure {A} (P : gstate → Prop) (φ : Prop) (m : Gn A) Q R :
  grows m → (φ → gtriple P m Q R) → gtriple (λ s, P s ∧ φ) m Q R.
Proof. intros Ht Hm. split; [done|]. intros s [Hs Hφ]. by apply (proj2 (Hm Hφ)). Qed.

Lemma g_and {A} (m : Gn A) P P' Q Q' (R R' : gstate → Prop) :
  gtriple P m Q R → gtriple P' m Q' R' →
  gtriple (λ s, P s ∧ P' s) m (λ a s, Q a s ∧ Q' a s) (λ s, R s ∧ R' s).
Proof.
  intros [Ht H1] [_ H2]. split; [done|]. intros s [Hp Hp'] Hlt. specialize (H1 s Hp Hlt). specialize (H2 s Hp' Hlt).
  by destruct (m s).1.
Qed.

Lemma g_exists {A X} (P : X → gstate → Prop) (m : Gn A) Q R :
  grows m → (∀ x, gtriple (P x) m Q R) → gtriple (λ s, ∃ x, P x s) m Q R.
Proof. intros Ht Hm. split; [done|]. intros s [x Hs]. by apply (proj2 (Hm x)). Qed.

(** ** The invariant *)

Definition file_ok (t : nat) (f : DurableFile) : Prop :=
  durable_ok f ∧ (max_sequence f ≤ Z.of_nat t)%Z.

(** The records that a state file may say: in either slot or in the plain file. *)
Definition may_say (f : DurableFile) rec : Prop :=
  (∃ e, (slot_envelope (df_slot0 f) = Some e ∨ slot_envelope (df_slot1 f) = Some e)
        ∧ from_value (env_payload e) = Some rec)
  ∨ (∃ bytes, df_plain f = Some bytes ∧ (value_from_slice bytes ≫= from_value) = Some rec).

(** Everything that a state file of a generation may say has the identifier of the generation. *)
Definition names (id : string) (f : DurableFile) : Prop := ∀ rec, may_say f rec → gr_generation_id rec = id.

Record root_ok (t : nat) r : Prop := {
  rk_active : file_ok t (cr_active r);
  rk_files id d : generation_map r !! id = Some d → file_ok t (gd_state d) ∧ names id (gd_state d);
  rk_exists p : active_pointer r = Ok p → is_Some (generation_map r !! ap_generation_id p);
  rk_state p rec : active_pointer r = Ok p → read_record r (ap_generation_id p) = Ok rec →
    gr_state rec ≠ Building }.

(** What is served: the active pointer and the index it names. *)
Definition served r : result ContentIndexError (ActiveGenerationPointer * option ContentDir) :=
  p ← active_pointer r;
  mret (p, gd_index (generation_dir (ap_generation_id p) r)).

Definition serving (o : result ContentIndexError (ActiveGenerationPointer * option ContentDir)) s : Prop :=
  root_ok (gs_tick s) (gs_root s) ∧ served (gs_root s) = o.

Lemma file_ok_mono t t' f : t ≤ t' → file_ok t f → file_ok t' f.
Proof. intros Ht [Hok Hm]. split; [done|]. lia. Qed.

Lemma root_ok_mono t t' r : t ≤ t' → root_ok t r → root_ok t' r.
Proof.
  intros Ht [Ha Hf He Hs]. split; [by eapply file_ok_mono| |done|done].
  intros id d Hd. destruct (Hf id d Hd). split; [by eapply file_ok_mono|done].
Qed.

Lemma empty_root_ok t direct manager :
  root_ok t (MkContentRoot direct manager no_file None).
Proof.
  split; [split; [apply no_file_ok|]|done..]. apply Nat2Z.is_nonneg.
Qed.

Lemma read_json_held f rec : durable_ok f → read_json ContentGenerationRecord f = Ok rec → may_say f rec.
Proof.
  intros Hok Hr. rewrite read_json_value in Hr by done. unfold may_say. unfold file_value, newer in Hr.
  destruct (slot_envelope (df_slot0 f)) as [x|], (slot_envelope (df_slot1 f)) as [y|];
    [destruct (_ <? _)%Z| | |].
  1,2,3,4: apply ok_or_Ok in Hr; left; eauto.
  apply result_bind_Ok in Hr as (bytes & Hb%ok_or_Ok & Hv%ok_or_Ok). right. eauto.
Qed.

(** A record that can be read has the name of its directory. *)
Lemma read_json_names id f rec :
  durable_ok f → names id f → read_json ContentGenerationRecord f = Ok rec → gr_generation_id rec = id.
Proof. intros Hok Hn Hr. by apply Hn, read_json_held. Qed.

(** ** Writing below a generation *)

Lemma generation_dir_put id id' d r :
  generation_dir id' (put_generation id d r) = if decide (id' = id) then d else generation_dir id' r.
Proof.
  unfold generation_dir, put_generation, generation_map. simpl. case_decide as Hid; [subst|].
  - by rewrite lookup_insert_eq.
  - by rewrite lookup_insert_ne.
Qed.

Lemma put_serving o t r id d :
  root_ok t r → served r = o → file_ok t (gd_state d) → names id (gd_state d) →
  (∀ p, active_pointer r = Ok p → ap_generation_id p = id →
     gd_index d = gd_index (generation_dir id r) ∧
     ∀ rec, read_json ContentGenerationRecord (gd_state d) = Ok rec → gr_state rec ≠ Building) →
  root_ok t (put_generation id d r) ∧ served (put_generation id d r) = o.
Proof.
  intros [Ha Hf He Hs] Ho Hd Hn Hact.
  assert (active_pointer (put_generation id d r) = active_pointer r) as Hp by done.
  split; [split|].
  - done.
  - intros id' d' Hd'. unfold put_generation, generation_map in Hd'. simpl in Hd'.
    apply lookup_insert_Some in Hd' as [[<- <-]|[Hne Hd']]; [done|by apply Hf].
  - intros p Hp'. rewrite Hp in Hp'. unfold put_generation, generation_map. simpl.
    destruct (decide (ap_generation_id p = id)) as [->|Hne]; [by rewrite lookup_insert_eq|].
    rewrite lookup_insert_ne by done. by apply He.
  - intros p rec Hp' Hrec. rewrite Hp in Hp'. unfold read_record in Hrec. rewrite generation_dir_put in Hrec.
    case_decide as Hid; [|by eapply Hs]. destruct (Hact p Hp' Hid) as [_ Hst]. apply Hst.
    destruct (read_json _ _); simpl in Hrec; congruence.
  - unfold served in *. rewrite Hp. destruct (active_pointer r) as [p|x] eqn:Hap; [|done]. simpl in *.
    rewrite generation_dir_put. case_decide as Hid; [|done]. destruct (Hact p eq_refl Hid) as [-> _].
    by rewrite <-Hid.
Qed.

Lemma generation_dir_ok t r id :
  root_ok t r → file_ok t (gd_state (generation_dir id r)) ∧ names id (gd_state (generation_dir id r)).
Proof.
  intros Hr. unfold generation_dir. destruct (generation_map r !! id) as [d|] eqn:Hd; simpl; [by eapply rk_files|].
  split; [split; [apply no_file_ok|apply Nat2Z.is_nonneg]|]. intros rec [(e & [[=]|[=]] & _)|(b & [=] & _)].
Qed.

(** A write of a state file at the time it happens. *)
Lemma write_file {A} `{!JsonCodec A} `{!JsonCodecLaws A} (outcome : WriteOutcome) (a : A) t f res f' :
  file_ok t f → t < B → write_json_atomic outcome a f = (res, f') →
  file_ok (S t) f' ∧ (read_json A f' = Ok a ∨ read_json A f' = read_json A f ∧ res = Err JsonIo)
  ∧ (res = Ok tt → read_json A f' = Ok a).
Proof.
  intros [Hok Hmax] Ht Hw. assert (max_sequence f < u64_max)%Z as Hlt by lia.
  pose proof (write_json_outcome outcome a f Hok Hlt) as Ho. rewrite Hw in Ho. destruct Ho as [Hok' Hr].
  destruct (newest_elsewhere f Hok Hlt) as (_ & Hpos & _ & _).
  pose proof (write_json_sequence _ _ _ _ _ Hpos Hw). split; [split; [done|lia]|]. split; [done|].
  intros ->. by destruct Hr as [?|[_ [=]]].
Qed.

Lemma write_names (outcome : WriteOutcome) rec id f res f' :
  names id f → gr_generation_id rec = id → write_json_atomic outcome rec f = (res, f') → names id f'.
Proof.
  intros Hn Hid [Hplain Hslots]%write_json_slots rec' [(e & He & Hv)|(bytes & Hb & Hv)].
  - apply Hslots in He as [->|He]; [|apply Hn; left; eauto]. simpl in Hv. rewrite value_roundtrip in Hv. congruence.
  - apply Hn. right. rewrite <-Hplain. eauto.
Qed.

(** What a write, however it ends, leaves of the records a file may say: the new one and the one that
    was read before, or some of those before. *)
Definition rewritten rec (f f' : DurableFile) : Prop :=
  durable_ok f' ∧ df_plain f' = df_plain f ∧
  ((read_json ContentGenerationRecord f' = Ok rec
    ∧ ∀ x, may_say f' x → x = rec ∨ is_Some (df_plain f) ∨ read_json ContentGenerationRecord f = Ok x)
   ∨ (read_json ContentGenerationRecord f' = read_json ContentGenerationRecord f ∧ ∀ x, may_say f' x → may_say f x)).

Lemma write_rewritten (outcome : WriteOutcome) rec t f res f' :
  file_ok t f → t < B → write_json_atomic outcome rec f = (res, f') → rewritten rec f f'.
Proof.
  intros [Hok Hmax] Ht Hw. assert (max_sequence f < u64_max)%Z as Hlt by lia.
  assert (durable_ok f') as Hok'.
  { pose proof (write_json_outcome outcome rec f Hok Hlt) as Ho. rewrite Hw in Ho. by destruct Ho. }
  destruct (newest_elsewhere f Hok Hlt) as (_ & _ & Hpar & _). split; [done|].
  split; [by apply write_json_slots in Hw as [? _]|]. revert Hw. unfold write_json_atomic. set (e := new_envelope (to_value rec) f).
  destruct (set_slot_newer f (envelope_to_vec e) Hok Hlt) as [_ Hfull].
  destruct (Hfull (to_value rec) (slot_envelope_new _ _)) as [Hdok Hnew]. fold e in Hnew.
  assert (let d := set_slot (next_write f mod 2) (envelope_to_vec e) f in
    read_json ContentGenerationRecord d = Ok rec
    ∧ ∀ x, may_say d x → x = rec ∨ is_Some (df_plain f) ∨ read_json ContentGenerationRecord f = Ok x) as Hland.
  { simpl. split; [rewrite read_json_value by done; rewrite Hnew; simpl; by rewrite value_roundtrip|].
    rewrite (read_json_value f) by done. unfold set_slot.
    destruct Hpar as [[Hp ->]|[Hp ->]]; rewrite Hp; cbn [decide]; simpl;
      intros x [(y & [Hy|Hy] & Hx)|(bytes & Hb & Hx)]; simpl in *.
    - left. unfold e in Hy. rewrite slot_envelope_new in Hy. injection Hy as <-. simpl in Hx. rewrite value_roundtrip in Hx. congruence.
    - right. right. rewrite Hy. simpl. by rewrite Hx.
    - right. left. by exists bytes.
    - right. right. rewrite Hy. simpl. by rewrite Hx.
    - left. unfold e in Hy. rewrite slot_envelope_new in Hy. injection Hy as <-. simpl in Hx. rewrite value_roundtrip in Hx. congruence.
    - right. left. by exists bytes. }
  destruct outcome as [| |k]; intros [= _ <-]; [by left|by right|].
  destruct (decide (k < length (envelope_to_vec e))) as [Hk|Hk]; [right|left; by rewrite take_ge by lia].
  destruct (set_slot_newer f (take k (envelope_to_vec e)) Hok Hlt) as [Htorn _].
  destruct (Htorn (slot_envelope_torn _ _ Hk)) as [_ Hold]. split.
  - rewrite !read_json_value by done. rewrite Hold. unfold set_slot. by case_decide.
  - unfold set_slot, may_say. case_decide; simpl; setoid_rewrite (slot_envelope_torn _ _ Hk); naive_solver.
Qed.

(** Writing the record of a generation: afterwards it reads as the new one, or as it did before if the
    write failed; nothing that is served changes, provided the active record does not become a
    building one. *)
Lemma g_write_record o id rec (P : gstate → Prop) (F : ContentRoot → Prop) :
  gr_generation_id rec = id →
  (∀ s, P s → serving o s) →
  (∀ s p, P s → active_pointer (gs_root s) = Ok p → ap_generation_id p = id → gr_state rec ≠ Building) →
  (∀ s f, P s → read_json ContentGenerationRecord f = Ok rec ∨
     read_json ContentGenerationRecord f = read_json ContentGenerationRecord (gd_state (generation_dir id (gs_root s))) →
     rewritten rec (gd_state (generation_dir id (gs_root s))) f →
     F (put_generation id (MkGenerationDir f (gd_index (generation_dir id (gs_root s)))) (gs_root s))) →
  gtriple P (write_record_file env id rec)
    (λ _ s, (serving o s ∧ F (gs_root s)) ∧ read_record (gs_root s) id = Ok rec)
    (λ s, serving o s ∧ F (gs_root s)).
Proof.
  intros Hid HP Hact HF. split.
  { intros s. unfold write_record_file, mbind, St_bind, ask, root_get. simpl.
    destruct (write_json_atomic _ _ _) as [res f]. unfold root_set, st_lift. simpl. destruct res; simpl; lia. }
  intros s Hs. unfold write_record_file, mbind, St_bind, ask, root_get. simpl.
  destruct (write_json_atomic _ _ _) as [res f] eqn:Hw. unfold root_set, st_lift. cbn [fst snd gs_root gs_tick].
  intros Hlt. destruct (HP s Hs) as [Hok Ho]. set (r := gs_root s) in *.
  assert (gs_tick s < B) as HtB by (destruct res; simpl in Hlt; lia).
  destruct (generation_dir_ok _ _ id Hok) as [Hf Hn].
  destruct (write_file _ _ _ _ _ _ Hf HtB Hw) as (Hf' & Hread & Hdone).
  assert (serving o (MkGstate (put_generation id (MkGenerationDir f (gd_index (generation_dir id r))) r) (S (gs_tick s))))
    as Hserv.
  { apply put_serving; [apply (root_ok_mono (gs_tick s)); [simpl; lia|done]|done|done|by eapply write_names|].
    intros p Hp Hpid. split; [done|]. simpl. intros rec' Hrec'. destruct Hread as [Hr|[Hr _]]; rewrite Hr in Hrec'.
    - injection Hrec' as <-. by eapply (Hact s p).
    - apply (rk_state _ _ Hok p); [done|]. rewrite Hpid. unfold read_record. by rewrite Hrec'. }
  assert (F (put_generation id (MkGenerationDir f (gd_index (generation_dir id r))) r)) as HFs
    by (apply HF; [done|tauto|by eapply write_rewritten]).
  destruct res as [[]|x]; simpl; [|done]. split; [done|]. unfold read_record. simpl.
  rewrite generation_dir_put, decide_True by done. simpl. by rewrite Hdone.
Qed.

(** ** Operations that keep what is served *)

Definition keeps_serving {A} (m : Gn A) : Prop :=
  ∀ o, gtriple (serving o) m (λ _, serving o) (serving o).

(** The generation is not the one that is served. *)
Definition not_active (o : result ContentIndexError (ActiveGenerationPointer * option ContentDir)) id : Prop :=
  ∀ p d, o = Ok (p, d) → ap_generation_id p ≠ id.

Lemma served_pointer r : active_pointer r = (p ← served r; Ok p.1).
Proof. unfold served. by destruct (active_pointer r). Qed.

Lemma serving_pointer o s p :
  serving o s → active_pointer (gs_root s) = Ok p → ∃ d, o = Ok (p, d).
Proof. intros [_ <-] Hp. unfold served. rewrite Hp. simpl. eauto. Qed.

Lemma serving_tick o s : serving o s → serving o (MkGstate (gs_root s) (S (gs_tick s))).
Proof. intros [Hok Ho]. split; [|done]. apply (root_ok_mono (gs_tick s)); [simpl; lia|done]. Qed.

Lemma g_ask_serving {A} o (f : nat → A) P (Q : A → gstate → Prop) R :
  (∀ s, P s → serving o s ∧ ∀ a, serving o (MkGstate (gs_root s) (S (gs_tick s))) →
     Q a (MkGstate (gs_root s) (S (gs_tick s)))) → gtriple P (ask f) Q R.
Proof. intros HP. apply g_ask. intros s Hs. destruct (HP s Hs) as [Hsv HQ]. by apply HQ, serving_tick. Qed.

Lemma keeps_ask {A} (f : nat → A) : keeps_serving (ask f).
Proof. intros o. apply g_ask. intros s. apply serving_tick. Qed.
Lemma keeps_get {A} (f : ContentRoot → A) : keeps_serving (root_get f).
Proof. intros o. by apply g_get. Qed.
Lemma keeps_lift {A} (x : result ContentIndexError A) : keeps_serving (st_lift x).
Proof. intros o. by apply g_lift. Qed.
Lemma keeps_ret {A} (a : A) : keeps_serving (mret a).
Proof. intros o. by apply g_ret. Qed.
Lemma keeps_fail {A} e : keeps_serving (st_fail (A:=A) e).
Proof. intros o. by apply g_fail. Qed.
Lemma keeps_bind {A C} (m : Gn A) (f : A → Gn C) :
  keeps_serving m → (∀ a, keeps_serving (f a)) → keeps_serving (m ≫= f).
Proof. intros Hm Hf o. eapply g_bind; [apply Hm|]. intros a. apply Hf. Qed.
Lemma keeps_each {A} (xs : list A) (f : A → Gn unit) :
  (∀ x, keeps_serving (f x)) → keeps_serving (each xs f).
Proof.
  intros Hf. induction xs as [|x xs IH]; simpl; [apply keeps_ret|]. apply keeps_bind; [apply Hf|by intros _].
Qed.

Create HintDb serving.
#[local] Hint Resolve keeps_ask keeps_get keeps_lift keeps_ret keeps_fail keeps_bind keeps_each : serving.

Lemma keeps_ask_ok {A} (f : nat → result ContentIndexError A) : keeps_serving (ask_ok f).
Proof. unfold ask_ok. auto with serving. Qed.
#[local] Hint Resolve keeps_ask_ok : serving.

(** Writing any record that is not a building one. *)
Lemma keeps_write_record rec : gr_state rec ≠ Building → keeps_serving (write_record env rec).
Proof.
  intros Hst o. eapply g_conseq;
    [by apply (g_write_record o (gr_generation_id rec) rec (serving o) (λ _, True))|done
    |by intros _ s [[? _] _]|by intros s [? _]].
Qed.

Lemma keeps_fail_record rec : keeps_serving (fail_record env rec).
Proof. unfold fail_record, unix_time_millis. apply keeps_bind; [auto with serving|]. intros now. by apply keeps_write_record. Qed.

Lemma keeps_recover_lifecycle : keeps_serving (recover_lifecycle env).
Proof.
  unfold recover_lifecycle. apply keeps_bind; [auto with serving|]. intros [p|x]; [|auto with serving].
  repeat (apply keeps_bind; [solve [auto with serving]|]; intros ?). apply keeps_each. intros rec.
  unfold recover_record, desired_state, unix_time_millis. repeat case_decide; auto with serving;
    (apply keeps_bind; [auto with serving|]; intros now; by apply keeps_write_record).
Qed.

Lemma keeps_set (f : ContentRoot → ContentRoot) :
  (∀ r, cr_active (f r) = cr_active r ∧ generation_map (f r) = generation_map r) → keeps_serving (root_set f).
Proof.
  intros Hf o. apply g_set. intros s [[Ha Hg He Hs] Ho]. destruct (Hf (gs_root s)) as [H1 H2].
  assert (active_pointer (f (gs_root s)) = active_pointer (gs_root s)) as Hp by (unfold active_pointer; by rewrite H1).
  assert (∀ id, generation_dir id (f (gs_root s)) = generation_dir id (gs_root s)) as Hd
    by (intros id; unfold generation_dir; by rewrite H2).
  split; simpl; [split|].
  - by rewrite H1.
  - rewrite H2. apply Hg.
  - rewrite Hp, H2. apply He.
  - rewrite Hp. intros p rec. unfold read_record. rewrite Hd. apply Hs.
  - unfold served in *. rewrite Hp. destruct (active_pointer (gs_root s)); [|done]. simpl in *. by rewrite Hd.
Qed.

Lemma keeps_manager_open : keeps_serving (manager_open env).
Proof.
  unfold manager_open. repeat (apply keeps_bind; [solve [auto with serving]|]; intros ?).
  apply keeps_bind; [by apply keeps_set|]. intros _. apply keeps_bind; [auto with serving|]. intros marker.
  apply keeps_bind; [|intros _; apply keeps_recover_lifecycle].
  destruct marker; [auto with serving|]. apply keeps_bind; [auto with serving|].
  intros [| |k]; [by apply keeps_set|auto with serving|]. apply keeps_bind; [by apply keeps_set|auto with serving].
Qed.

(** ** Records *)

Lemma read_record_files_elem ds rs rec :
  read_record_files ds = Ok rs → rec ∈ rs →
  ∃ id d, (id, d) ∈ ds ∧ valid_generation_id id = true ∧ read_json ContentGenerationRecord (gd_state d) = Ok rec.
Proof.
  revert rs. induction ds as [|[id d] ds IH]; intros rs H Hin; simpl in H.
  { injection H as <-. by apply not_elem_of_nil in Hin. }
  destruct (valid_generation_id id) eqn:Hv; simpl in H.
  - destruct (durable_json_exists (gd_state d)).
    + apply result_bind_Ok in H as (x & Hx & H). apply result_bind_Ok in H as (xs & Hxs & [= <-]).
      apply elem_of_cons in Hin as [->|Hin].
      * exists id, d. split; [left|]. split; [done|]. destruct (read_json _ _); simpl in Hx; congruence.
      * destruct (IH xs Hxs Hin) as (id' & d' & ? & ? & ?). exists id', d'. split; [by right|done].
    + destruct (IH rs H Hin) as (id' & d' & ? & ? & ?). exists id', d'. split; [by right|done].
  - destruct (IH rs H Hin) as (id' & d' & ? & ? & ?). exists id', d'. split; [by right|done].
Qed.

(** A listed record is the record of the generation it names. *)
Lemma records_elem t r rs rec :
  root_ok t r → records r = Ok rs → rec ∈ rs →
  valid_generation_id (gr_generation_id rec) = true ∧ read_record r (gr_generation_id rec) = Ok rec
  ∧ is_Some (generation_map r !! gr_generation_id rec).
Proof.
  intros Hr (gens & Hg%ok_or_Ok & Hrs)%result_bind_Ok Hin.
  destruct (read_record_files_elem _ _ _ Hrs Hin) as (id & d & Hd%elem_of_map_to_list & Hv & Hread).
  assert (generation_map r !! id = Some d) as Hid by (unfold generation_map; by rewrite Hg).
  destruct (rk_files _ _ Hr id d Hid) as [[Hok _] Hn]. rewrite (read_json_names _ _ _ Hok Hn Hread).
  split; [done|]. split; [|by rewrite Hid]. unfold read_record, generation_dir. rewrite Hid. simpl. by rewrite Hread.
Qed.

Lemma building_not_active o s rs rec :
  serving o s → records (gs_root s) = Ok rs → rec ∈ rs → gr_state rec = Building →
  not_active o (gr_generation_id rec).
Proof.
  intros [Hr <-] Hrs Hin Hst p d Hp Hid. destruct (records_elem _ _ _ _ Hr Hrs Hin) as (_ & Hread & _).
  assert (active_pointer (gs_root s) = Ok p) as Hap by (rewrite served_pointer, Hp; done).
  rewrite <-Hid in Hread. by apply (rk_state _ _ Hr p rec Hap Hread).
Qed.

(** ** Garbage collection *)

Lemma partly_removed_ok t m id d :
  file_ok t (gd_state d) → names id (gd_state d) →
  file_ok t (gd_state (partly_removed m d)) ∧ names id (gd_state (partly_removed m d)).
Proof.
  intros [[H0 H1] Hmax] Hn. destruct m as [b0 b1 bp i]. simpl.
  assert (∀ b f e, slot_envelope (kept b f) = Some e → slot_envelope f = Some e) as Hk by (by intros [] f e).
  split; [split; [split|]|].
  - intros e He%Hk. by apply H0.
  - intros e He%Hk. by apply H1.
  - apply max_sequence_le; [lia|]. simpl. intros e [He%Hk|He%Hk];
      [pose proof (max_sequence_ge (gd_state d) e (or_introl He))|pose proof (max_sequence_ge (gd_state d) e (or_intror He))]; lia.
  - intros rec [(e & He & Hv)|(bytes & Hb & Hv)]; apply Hn; [left|right].
    + exists e. split; [|done]. simpl in He. destruct He as [He%Hk|He%Hk]; auto.
    + exists bytes. split; [|done]. simpl in Hb. by destruct bp.
Qed.

Lemma put_inactive o t r id d :
  root_ok t r → served r = o → not_active o id → file_ok t (gd_state d) → names id (gd_state d) →
  root_ok t (put_generation id d r) ∧ served (put_generation id d r) = o.
Proof.
  intros Hr Ho Hna Hf Hn. apply put_serving; try done. intros p Hp Hid.
  exfalso. unfold served in Ho. rewrite Hp in Ho. simpl in Ho. by eapply Hna.
Qed.

Lemma remove_serving o t r id :
  root_ok t r → served r = o → not_active o id →
  let r' := set_generations (Some (delete id (generation_map r))) r in root_ok t r' ∧ served r' = o.
Proof.
  intros [Ha Hf He Hs] Ho Hna r'. assert (active_pointer r' = active_pointer r) as Hp by done.
  assert (∀ p, active_pointer r = Ok p → ap_generation_id p ≠ id) as Hne.
  { intros p Hap. unfold served in Ho. rewrite Hap in Ho. simpl in Ho. by eapply Hna. }
  assert (∀ p, active_pointer r = Ok p →
    generation_dir (ap_generation_id p) r' = generation_dir (ap_generation_id p) r) as Hdir.
  { intros p Hap. unfold generation_dir, r', generation_map at 1. simpl.
    by rewrite lookup_delete_ne by (by apply not_eq_sym, Hne). }
  split; [split|].
  - done.
  - intros id' d. unfold generation_map at 1, r'. simpl. intros [_ Hd]%lookup_delete_Some. by apply Hf.
  - intros p Hap. rewrite Hp in Hap. unfold generation_map at 1, r'. simpl.
    rewrite lookup_delete_ne by (by apply not_eq_sym, Hne). by apply He.
  - intros p rec Hap. rewrite Hp in Hap. unfold read_record. rewrite Hdir by done. by apply Hs.
  - unfold served in *. rewrite Hp. destruct (active_pointer r) as [p|x] eqn:Hap; [|done]. simpl in *.
    by rewrite Hdir.
Qed.

(** What is left of a generation after its removal, complete or stopped half-way. *)
Definition removal_left (before after : option GenerationDir) : Prop :=
  after = None ∨ ∃ d m, before = Some d ∧ after = Some (partly_removed m d).

(** Removing a generation that is not active; [F] is what else is known of the root. *)
Lemma g_remove_generation o id (F : ContentRoot → Prop) :
  not_active o id →
  (∀ r gens, F r → (∀ id', id' ≠ id → gens !! id' = generation_map r !! id') →
     removal_left (generation_map r !! id) (gens !! id) → F (set_generations (Some gens) r)) →
  gtriple (λ s, serving o s ∧ F (gs_root s)) (remove_generation env id)
    (λ _ s, serving o s ∧ F (gs_root s)) (λ s, serving o s ∧ F (gs_root s)).
Proof.
  intros Hna HF. unfold remove_generation. 
  eapply g_bind with (Q' := λ _ s, serving o s ∧ F (gs_root s)).
  { apply g_ask. intros s [Hs Hf]. by split; [apply serving_tick|]. }
  intros left. eapply g_bind with (Q' := λ gens s, (serving o s ∧ F (gs_root s)) ∧ gens = generation_map (gs_root s)).
  { by apply g_get. }
  intros gens. destruct (gens !! id) as [d|] eqn:Hd, left as [m|]; try (apply g_fail; tauto).
  - eapply g_bind with (Q' := λ _ s, serving o s ∧ F (gs_root s)); [|intros _; by apply g_fail].
    apply g_set. intros s [[[Hr Ho] Hf] ->]. simpl. destruct (rk_files _ _ Hr id d Hd) as [Hfo Hn].
    destruct (partly_removed_ok _ m _ _ Hfo Hn). split; [by apply put_inactive|].
    apply HF; [done|intros id' Hne; by rewrite lookup_insert_ne|].
    right. exists d, m. by rewrite lookup_insert_eq.
  - apply g_set. intros s [[[Hr Ho] Hf] ->]. simpl. split; [by apply remove_serving|].
    apply HF; [done|intros id' Hne; by rewrite lookup_delete_ne|]. left. apply lookup_delete_eq.
Qed.

Lemma g_remove_each o rs removed (F : ContentRoot → Prop) :
  (∀ rec r gens, rec ∈ rs → F r →
     (∀ id', id' ≠ gr_generation_id rec → gens !! id' = generation_map r !! id') →
     removal_left (generation_map r !! gr_generation_id rec) (gens !! gr_generation_id rec) → F (set_generations (Some gens) r)) →
  gtriple (λ s, serving o s ∧ F (gs_root s))
    (remove_each env (ap_generation_id ∘ fst <$> ok_value o) rs removed)
    (λ _ s, serving o s ∧ F (gs_root s)) (λ s, serving o s ∧ F (gs_root s)).
Proof.
  revert removed. induction rs as [|rec rs IH]; intros removed HF; simpl; [by apply g_ret|].
  assert (∀ removed, gtriple (λ s, serving o s ∧ F (gs_root s))
    (remove_each env (ap_generation_id ∘ fst <$> ok_value o) rs removed)
    (λ _ s, serving o s ∧ F (gs_root s)) (λ s, serving o s ∧ F (gs_root s))) as Hrest.
  { intros rem. apply IH. intros rec' r gens Hin. apply HF. by right. }
  destruct (bool_decide _) eqn:Hact; simpl; [apply Hrest|]. destruct (valid_generation_id _); simpl; [|apply Hrest].
  eapply g_bind with (Q' := λ _ s, serving o s ∧ F (gs_root s)); [|intros ?; apply Hrest].
  apply g_remove_generation.
  - intros p x Hp Hid. apply bool_decide_eq_false in Hact. apply Hact. rewrite Hp. simpl. by rewrite Hid.
  - intros r gens. apply HF. left.
Qed.

Lemma remove_each_grows active rs removed s : gs_tick s ≤ gs_tick (remove_each env active rs removed s).2.
Proof.
  pose (o := match active with
             | Some id => Ok (MkActiveGenerationPointer 0 id 0, None)
             | None => Err XIo
             end : result ContentIndexError (ActiveGenerationPointer * option ContentDir)).
  assert (active = ap_generation_id ∘ fst <$> ok_value o) as Hactive by (by destruct active).
  rewrite Hactive. by apply (g_remove_each o rs removed (λ _, True)).
Qed.

Lemma removable_state n rs rec : rec ∈ removable_records n rs → rec ∈ rs ∧ (gr_state rec = Failed ∨ gr_state rec = Retired).
Proof.
  unfold removable_records. intros [Hin|Hin]%elem_of_app.
  - apply list_elem_of_filter in Hin as [? ?]. auto.
  - apply list_elem_of_lookup_1 in Hin as [i Hi]. rewrite lookup_drop in Hi. apply list_elem_of_lookup_2 in Hi.
    rewrite merge_sort_Permutation in Hi. apply list_elem_of_filter in Hi as [? ?]. auto.
Qed.

(** Collecting garbage keeps what is served; [F] is what else is known of the root and does not
    depend on the failed and retired generations. *)
Lemma g_collect o n (P : gstate → Prop) (F : ContentRoot → Prop) :
  (∀ s, P s → serving o s ∧ F (gs_root s)) →
  (∀ s rec r gens, P s → read_record (gs_root s) (gr_generation_id rec) = Ok rec →
     gr_state rec = Failed ∨ gr_state rec = Retired → F r →
     (∀ id', id' ≠ gr_generation_id rec → gens !! id' = generation_map r !! id') →
     removal_left (generation_map r !! gr_generation_id rec) (gens !! gr_generation_id rec) → F (set_generations (Some gens) r)) →
  gtriple P (collect_garbage env n) (λ _ s, serving o s ∧ F (gs_root s)) (λ s, serving o s ∧ F (gs_root s)).
Proof.
  intros HP HF. unfold collect_garbage.
  eapply g_bind with (Q' := λ pointer s, P s ∧ pointer = active_pointer (gs_root s)); [by apply g_get|].
  intros pointer. eapply g_bind with (Q' := λ rs s, (P s ∧ pointer = active_pointer (gs_root s))
    ∧ rs = records (gs_root s)); [by apply g_get|].
  intros rrs. eapply g_bind with (Q' := λ rs s, (P s ∧ pointer = active_pointer (gs_root s))
    ∧ records (gs_root s) = Ok rs).
  { apply g_lift; [by intros rs s -> [? <-]|]. intros s [[? _] _]. by apply HP. }
  intros rs. split; [intros s; apply remove_each_grows|].
  intros s [[Hs ->] Hrs]. destruct (HP s Hs) as [Hsv Hf].
  assert (ap_generation_id <$> ok_value (active_pointer (gs_root s)) = ap_generation_id ∘ fst <$> ok_value o) as ->.
  { destruct Hsv as [_ <-]. unfold served. by destruct (active_pointer (gs_root s)). }
  apply (g_remove_each o (removable_records n rs) [] F); [|done].
  intros rec r gens [Hin Hst]%removable_state. apply (HF s); [done| |done]. destruct Hsv as [Hok _].
  by destruct (records_elem _ _ _ _ Hok Hrs Hin) as (_ & ? & _).
Qed.

(** What a removal that succeeds does. *)
Lemma remove_generation_Ok id s s' :
  remove_generation env id s = (Ok tt, s') →
  cr_active (gs_root s') = cr_active (gs_root s) ∧ generation_map (gs_root s') = delete id (generation_map (gs_root s)).
Proof.
  unfold remove_generation, mbind, St_bind, ask, root_get. simpl.
  destruct (generation_map (gs_root s) !! id) as [d|], (ge_remove env (gs_tick s)) as [m|]; [done| |done|done].
  by intros [= <-].
Qed.

Definition spared (active : option string) (rec : ContentGenerationRecord) : bool :=
  bool_decide (active = Some (gr_generation_id rec)) || negb (valid_generation_id (gr_generation_id rec)).

Lemma remove_each_Ok active rs removed s out s' :
  remove_each env active rs removed s = (Ok out, s') →
  let ids := gr_generation_id <$> filter (λ rec, spared active rec = false) rs in
  out = removed ++ ids ∧ cr_active (gs_root s') = cr_active (gs_root s)
  ∧ ∀ id, generation_map (gs_root s') !! id = if decide (id ∈ ids) then None else generation_map (gs_root s) !! id.
Proof.
  clear B HB. revert removed s. induction rs as [|rec rs IH]; intros removed s; cbn [remove_each].
  { intros [= <- <-]. cbn. rewrite app_nil_r. split_and!; [done..|]. intros id. by rewrite decide_False by set_solver. }
  fold (spared active rec). rewrite filter_cons. destruct (spared active rec) eqn:Hsp.
  { rewrite decide_False by done. apply IH. }
  rewrite decide_True by done. unfold mbind, St_bind. destruct (remove_generation _ _ _) as [[[]|e] s1] eqn:Hrm; [|done].
  apply remove_generation_Ok in Hrm as [Ha Hg]. intros H%IH. destruct H as (-> & Ha' & Hg'). cbn.
  rewrite <-app_assoc, Ha'. split_and!; [done|done|]. intros id. rewrite Hg', Hg.
  destruct (decide (id ∈ gr_generation_id <$> _)) as [Hin|Hin]; [by rewrite decide_True by set_solver|].
  destruct (decide (id = gr_generation_id rec)) as [->|Hne].
  - rewrite decide_True by set_solver. by apply lookup_delete_eq.
  - rewrite decide_False by set_solver. by apply lookup_delete_ne.
Qed.

Lemma keeps_collect_garbage n : keeps_serving (collect_garbage env n).
Proof.
  intros o. eapply g_conseq; [apply (g_collect o n (serving o) (λ _, True))|..]; naive_solver.
Qed.

(** Every generation whose record is neither failed nor retired stays as it is. *)
Lemma g_collect_keeps o n id d rec :
  gr_state rec ≠ Failed → gr_state rec ≠ Retired →
  gtriple (λ s, serving o s ∧ generation_map (gs_root s) !! id = Some d ∧ read_record (gs_root s) id = Ok rec)
    (collect_garbage env n)
    (λ _ s, serving o s ∧ generation_map (gs_root s) !! id = Some d)
    (λ s, serving o s ∧ generation_map (gs_root s) !! id = Some d).
Proof.
  intros H1 H2. apply (g_collect o n _ (λ r, generation_map r !! id = Some d)); [naive_solver|].
  intros s rec' r gens (_ & _ & Hrec) Hread Hst Hr Hgens _. unfold generation_map at 1. simpl.
  rewrite Hgens; [done|]. intros ->. rewrite Hrec in Hread. injection Hread as ->. naive_solver.
Qed.

(** ** Identifiers *)

Lemma list_ascii_of_string_app (a b : string) :
  list_ascii_of_string (a +:+ b) = list_ascii_of_string a ++ list_ascii_of_string b.
Proof. induction a as [|c a IH]; simpl; [done|]. by rewrite <-IH. Qed.

Lemma fixed_decimal_bytes w n : forallb id_byte (list_ascii_of_string (fixed_decimal w n)) = true.
Proof.
  clear B HB. revert n. induction w as [|w IH]; intros n; [done|]. cbn [fixed_decimal].
  rewrite list_ascii_of_string_app, forallb_app, IH. simpl. rewrite andb_true_r. unfold id_byte, between.
  assert (0 ≤ n mod 10 < 10)%Z by (apply Z.mod_pos_bound; lia).
  rewrite N_ascii_embedding by lia. apply orb_true_intro; left. apply orb_true_intro; left.
  apply orb_true_intro; left. apply andb_true_intro; split; apply N.leb_le; lia.
Qed.

Lemma generation_id_valid sequence now suffix : valid_generation_id (generation_id sequence now suffix) = true.
Proof.
  unfold valid_generation_id, generation_id. apply andb_true_intro. split; [done|].
  rewrite !list_ascii_of_string_app, !forallb_app, !fixed_decimal_bytes. done.
Qed.

Lemma find_generation_id_fresh fuel suffix sequence now gens id :
  find_generation_id fuel suffix sequence now gens = Some id →
  gens !! id = None ∧ valid_generation_id id = true.
Proof.
  clear B HB. revert suffix. induction fuel as [|fuel IH]; intros suffix; [done|]. cbn [find_generation_id].
  case_decide; [|apply IH]. intros [= <-]. split; [done|apply generation_id_valid].
Qed.

(** ** Building *)

(** What is known of a generation under construction. *)
Definition building_here (o : result ContentIndexError (ActiveGenerationPointer * option ContentDir)) rec : Prop :=
  not_active o (gr_generation_id rec) ∧ gr_state rec = Building ∧ valid_generation_id (gr_generation_id rec) = true.

Lemma keeps_put_inactive o id (f : GenerationDir → option ContentDir) :
  not_active o id →
  gtriple (serving o) (root_set (λ r, put_generation id
      (MkGenerationDir (gd_state (generation_dir id r)) (f (generation_dir id r))) r))
    (λ _, serving o) (serving o).
Proof.
  intros Hna. apply g_set. intros s [Hr Ho]. destruct (generation_dir_ok _ _ id Hr). by apply put_inactive.
Qed.

Lemma g_write_building o rec :
  not_active o (gr_generation_id rec) →
  gtriple (serving o) (write_record env rec) (λ _, serving o) (serving o).
Proof.
  intros Hna. eapply g_conseq;
    [apply (g_write_record o (gr_generation_id rec) rec (serving o) (λ _, True))|done
    |by intros _ s [[? _] _]|by intros s [? _]]; try done.
  intros s p Hs Hp Hid. destruct (serving_pointer _ _ _ Hs Hp) as [d ->]. by destruct (Hna p d eq_refl).
Qed.

Lemma g_create_generation o roots policy :
  gtriple (serving o) (new_generation env roots policy)
    (λ rec s, serving o s ∧ building_here o rec) (serving o).
Proof.
  unfold new_generation, unix_time_millis. eapply g_bind; [apply keeps_ask|]. intros g.
  eapply g_bind; [apply keeps_lift|]. intros target. eapply g_bind; [apply keeps_ask|]. intros now.
  eapply g_bind with (Q' := λ gens s, serving o s ∧ gens = generation_map (gs_root s)); [by apply g_get|].
  intros gens.
  eapply g_bind with (Q' := λ id s, serving o s ∧ not_active o id ∧ valid_generation_id id = true).
  { apply g_lift; [|by intros s [? _]]. intros id s Hid%ok_or_Ok [Hs ->].
    apply find_generation_id_fresh in Hid as [Hnew Hv]. split; [done|]. split; [|done].
    intros p d -> <-. destruct Hs as [Hr Ho]. assert (active_pointer (gs_root s) = Ok p) as Hp
      by (rewrite served_pointer, Ho; done). destruct (rk_exists _ _ Hr p Hp) as [x Hx]. congruence. }
  intros id. apply g_pure; [unfold write_record, write_record_file; solve_grows|].
  intros [Hna Hv]. eapply g_bind; [apply keeps_ask|]. intros made. eapply g_bind; [apply keeps_lift|]. intros [].
  eapply g_bind with (Q' := λ _, serving o).
  { apply g_set. intros s [Hr Ho]. apply put_inactive; [done..| |].
    - split; [apply no_file_ok|apply Nat2Z.is_nonneg].
    - intros rec [(e & [[=]|[=]] & _)|(b & [=] & _)]. }
  intros []. eapply g_bind; [apply keeps_ask|]. intros creation. eapply g_bind; [apply keeps_ask|]. intros files.
  destruct (content_build _ _ _ _ _) as [built dir].
  eapply g_bind; [by apply (keeps_put_inactive o id (λ _, dir))|]. intros [].
  eapply g_bind; [apply keeps_lift|]. intros init. eapply g_bind; [apply keeps_ask_ok|]. intros bytes.
  eapply g_bind; [by apply g_write_building|]. intros []. apply g_ret. intros s Hs. done.
Qed.

Lemma grows_write_record id rec : grows (write_record_file env id rec).
Proof. unfold write_record_file. solve_grows. Qed.
#[local] Hint Resolve grows_write_record : grows.
#[local] Hint Unfold write_record : grows.
Lemma grows_fail_record rec : grows (fail_record env rec).
Proof. unfold fail_record, write_record. solve_grows. Qed.
Lemma grows_create roots policy : grows (new_generation env roots policy).
Proof. unfold new_generation, write_record. solve_grows. Qed.
#[local] Hint Resolve grows_fail_record grows_create : grows.

Lemma g_recover_or_create o roots policy :
  gtriple (serving o) (recover_or_create_building env roots policy)
    (λ rec s, serving o s ∧ building_here o rec) (serving o).
Proof.
  unfold recover_or_create_building.
  eapply g_bind with (Q' := λ rs s, serving o s ∧ rs = records (gs_root s)); [by apply g_get|]. intros rrs.
  eapply g_bind with (Q' := λ rs s, serving o s ∧
    ∀ rec, rec ∈ rs → gr_state rec = Building → building_here o rec).
  { apply g_lift; [|by intros s [? _]]. intros rs s -> [Hs Hrs]. split; [done|]. intros rec Hin Hst. symmetry in Hrs.
    split; [by eapply building_not_active|]. split; [done|]. destruct Hs as [Hr _].
    by destruct (records_elem _ _ _ _ Hr Hrs Hin). }
  intros rs. apply g_pure; [solve_grows|]. intros Hrs.
  eapply g_bind; [apply keeps_each; intros rec; apply keeps_fail_record|]. intros [].
  destruct (merge_sort _ _) as [|rec building] eqn:Hsort; [apply g_create_generation|].
  assert (building_here o rec) as Hrec.
  { assert (rec ∈ filter (λ x, is_building x = true) rs) as [Hb Hin]%list_elem_of_filter
      by (rewrite <-(merge_sort_Permutation newer_first), Hsort; left).
    apply Hrs; [done|]. by apply bool_decide_eq_true in Hb. }
  case_decide; [by apply g_ret|]. eapply g_bind; [apply keeps_fail_record|]. intros []. apply g_create_generation.
Qed.

(** ** Activation *)

(** The record of a generation that was counted and found complete. *)
Definition complete_record id (n : Z) r : Prop :=
  ∃ rec, read_record r id = Ok rec ∧ gr_documents_projected rec = n ∧ (gr_state rec = Ready ∨ gr_state rec = Active).

Lemma read_record_exists r id rec :
  read_record r id = Ok rec → is_Some (generation_map r !! id).
Proof. unfold read_record, generation_dir. by destruct (generation_map r !! id). Qed.

(** What is served is a complete generation of [n] documents. *)
Definition holding (p : ActiveGenerationPointer) (dir : option ContentDir) (n : Z) s : Prop :=
  serving (Ok (p, dir)) s ∧ complete_record (ap_generation_id p) n (gs_root s).

(** The pointer: the new one after a complete write, the new or the old one after a failed write. *)
Lemma g_write_pointer o p n dir :
  gtriple (λ s, serving o s ∧ complete_record (ap_generation_id p) n (gs_root s)
             ∧ gd_index (generation_dir (ap_generation_id p) (gs_root s)) = dir)
    (write_pointer env p) (λ _, holding p dir n) (λ s, serving o s ∨ holding p dir n s).
Proof.
  split.
  { change (grows (write_pointer env p)). unfold write_pointer. solve_grows. }
  intros s ([Hr Ho] & Hc & Hdir). unfold write_pointer, mbind, St_bind, ask, root_get. simpl.
  destruct (write_json_atomic _ _ _) as [res f] eqn:Hw. unfold root_set, st_lift. cbn [fst snd gs_root gs_tick].
  intros Hlt. set (r := gs_root s) in *. assert (gs_tick s < B) as HtB by (destruct res; simpl in Hlt; lia).
  destruct (write_file _ _ _ _ _ _ (rk_active _ _ Hr) HtB Hw) as (Hf & Hread & Hdone).
  assert (read_json ActiveGenerationPointer f = Ok p →
    serving (Ok (p, dir)) (MkGstate (set_active f r) (S (gs_tick s)))) as Hnew.
  { intros Hp. assert (active_pointer (set_active f r) = Ok p) as Hap by (unfold active_pointer; simpl; by rewrite Hp).
    destruct (root_ok_mono _ (S (gs_tick s)) _ (Nat.le_succ_diag_r _) Hr) as [_ Hfiles _ _].
    destruct Hc as (rec & Hrec & _ & Hst). split; [split|]; simpl.
    - done.
    - done.
    - intros p' Hp'. rewrite Hap in Hp'. injection Hp' as <-. by eapply read_record_exists.
    - intros p' rec' Hp' Hrec'. rewrite Hap in Hp'. injection Hp' as <-.
      assert (rec' = rec) as -> by (apply (Ok_inj (E:=ContentIndexError)); by rewrite <-Hrec', <-Hrec). destruct Hst as [-> | ->]; done.
    - unfold served. rewrite Hap. simpl. by rewrite <-Hdir. }
  assert (read_json ActiveGenerationPointer f = read_json ActiveGenerationPointer (cr_active r) →
    serving o (MkGstate (set_active f r) (S (gs_tick s)))) as Hold.
  { intros Hp. assert (active_pointer (set_active f r) = active_pointer r) as Hap by (unfold active_pointer; simpl; by rewrite Hp).
    destruct (root_ok_mono _ (S (gs_tick s)) _ (Nat.le_succ_diag_r _) Hr) as [_ Hfiles He Hs].
    split; [split|]; simpl; [done|done|by rewrite Hap|by rewrite Hap|]. unfold served in *. by rewrite Hap. }
  destruct res as [[]|x]; simpl.
  - split; [by apply Hnew, Hdone|done].
  - destruct Hread as [Hp|[Hp _]]; [right|left; by apply Hold]. split; [by apply Hnew|done].
Qed.

Lemma complete_put id n r id' d :
  (id' = id → ∃ rec, read_json ContentGenerationRecord (gd_state d) = Ok rec
     ∧ gr_documents_projected rec = n ∧ (gr_state rec = Ready ∨ gr_state rec = Active)) →
  (id' ≠ id → complete_record id n r) → complete_record id n (put_generation id' d r).
Proof.
  intros Hsame Hother. unfold complete_record, read_record. setoid_rewrite generation_dir_put.
  destruct (decide (id = id')) as [<-|Hne]; [|apply Hother; congruence].
  destruct (Hsame eq_refl) as (rec & -> & ?). by exists rec.
Qed.

(** While a complete generation is served, its own record only advances to [Active], and the records
    of others may change freely. *)
Lemma g_write_holding p dir n rec :
  (gr_generation_id rec = ap_generation_id p →
     gr_documents_projected rec = n ∧ (gr_state rec = Ready ∨ gr_state rec = Active)) →
  gtriple (holding p dir n) (write_record_file env (gr_generation_id rec) rec)
    (λ _, holding p dir n) (holding p dir n).
Proof.
  intros Hrec. eapply g_conseq; [apply (g_write_record (Ok (p, dir)) (gr_generation_id rec) rec
    (holding p dir n) (complete_record (ap_generation_id p) n))|done|by intros _ s [? _]|done].
  - done.
  - by intros s [? _].
  - intros s p' [Hs _] Hp Hid. destruct (serving_pointer _ _ _ Hs Hp) as [d' [= <- <-]].
    destruct (Hrec (eq_sym Hid)) as [_ [-> | ->]]; done.
  - intros s f [_ Hc] Hf _. apply complete_put; [|done]. simpl. intros Hid. destruct Hf as [Hf|Hf].
    + rewrite Hf. exists rec. by destruct (Hrec Hid).
    + rewrite Hf. destruct Hc as (rec' & Hr & ?). rewrite <-Hid in Hr. unfold read_record in Hr.
      destruct (read_json _ _) as [x|x]; [|done]. injection Hr as ->. by exists rec'.
Qed.

Lemma g_collect_holding p dir n k :
  gtriple (holding p dir n) (collect_garbage env k) (λ _, holding p dir n) (holding p dir n).
Proof.
  apply (g_collect (Ok (p, dir)) k (holding p dir n) (complete_record (ap_generation_id p) n)); [done|].
  intros s rec r gens [_ (rec0 & Hr0 & _ & Hst0)] Hread Hst (rec1 & Hr1 & ?) Hgens _. exists rec1. split; [|done].
  unfold read_record, generation_dir, generation_map in *. simpl. rewrite Hgens; [done|].
  intros Heq. rewrite <-Heq, Hr0 in Hread. injection Hread as <-. naive_solver congruence.
Qed.

(** A record that can be read names its generation. *)
Lemma read_record_name t r id rec : root_ok t r → read_record r id = Ok rec → gr_generation_id rec = id.
Proof.
  intros Hr Hrec. destruct (generation_dir_ok _ _ id Hr) as [[Hok _] Hn]. apply (read_json_names _ _ _ Hok Hn).
  unfold read_record in Hrec. destruct (read_json _ _); simpl in Hrec; congruence.
Qed.

Lemma grows_retire previous id : grows (retire_previous env previous id).
Proof. unfold retire_previous. solve_grows. Qed.
Lemma grows_collect k : grows (collect_garbage env k).
Proof. unfold collect_garbage. solve_grows. intros s. apply remove_each_grows. Qed.
#[local] Hint Resolve grows_retire grows_collect : grows.

Lemma g_retire_previous p dir n previous :
  gtriple (holding p dir n) (retire_previous env previous (ap_generation_id p))
    (λ _, holding p dir n) (holding p dir n).
Proof.
  unfold retire_previous. destruct previous as [q|]; [|by apply g_ret].
  destruct (bool_decide _) eqn:Hne; simpl; [|by apply g_ret]. destruct (valid_generation_id _); [|by apply g_ret].
  apply bool_decide_eq_true in Hne.
  eapply g_bind with (Q' := λ old s, holding p dir n s
    ∧ (∀ rec, old = Ok rec → gr_generation_id rec = ap_generation_id q)).
  { apply g_get. intros s Hs. split; [done|]. intros rec Hrec. destruct Hs as [[Hr _] _]. by eapply read_record_name. }
  intros [old|x]; (apply g_pure; [solve_grows|]); intros Hold; [|by apply g_ret].
  unfold unix_time_millis. eapply g_bind with (Q' := λ _, holding p dir n).
  { apply g_ask. intros s [Hs Hc]. split; [by apply serving_tick|done]. }
  intros now. rewrite <-(Hold old eq_refl). apply (g_write_holding p dir n (set_gr_state Retired now old)). simpl.
  rewrite (Hold old eq_refl). done.
Qed.


(** A generation that was counted took over. *)
Definition switched id (n : Z) s : Prop :=
  ∃ p dir, holding p dir n s ∧ dir_count dir = Ok n
    ∧ ap_generation_id p = id ∧ ap_version p = GENERATION_MANAGER_VERSION ∧ valid_generation_id id = true.

Lemma g_ask_holding {A} p dir n (f : nat → A) R : gtriple (holding p dir n) (ask f) (λ _, holding p dir n) R.
Proof. apply g_ask. intros s [Hs Hc]. split; [by apply serving_tick|done]. Qed.

Lemma g_write_ready o rec dir :
  not_active o (gr_generation_id rec) → gr_state rec = Ready →
  gtriple (λ s, serving o s ∧ gd_index (generation_dir (gr_generation_id rec) (gs_root s)) = dir)
    (write_record_file env (gr_generation_id rec) rec)
    (λ _ s, serving o s ∧ complete_record (gr_generation_id rec) (gr_documents_projected rec) (gs_root s)
       ∧ gd_index (generation_dir (gr_generation_id rec) (gs_root s)) = dir) (serving o).
Proof.
  intros Hna Hst. set (id := gr_generation_id rec).
  eapply g_conseq; [apply (g_write_record o id rec
    (λ s, serving o s ∧ gd_index (generation_dir id (gs_root s)) = dir)
    (λ r, gd_index (generation_dir id r) = dir))|done| |by intros s [? _]].
  - done.
  - by intros s [? _].
  - intros s p [Hs _] Hp Hid. destruct (serving_pointer _ _ _ Hs Hp) as [d ->]. by destruct (Hna p d eq_refl).
  - intros s f [_ Hd] _ _. by rewrite generation_dir_put, decide_True.
  - intros [] s [[Hs Hd] Hrec]. split; [done|]. split; [|done]. exists rec. auto.
Qed.

(** [activate_validated]: what is served changes only to this generation, and only once its index has
    been opened and holds the documents that were counted. *)
Lemma g_activate_validated o rec :
  building_here o rec →
  gtriple (serving o) (activate_validated env rec)
    (λ rec' s, switched (gr_generation_id rec) (gr_documents_projected rec) s ∧ gr_generation_id rec' = gr_generation_id rec
       ∧ gr_documents_projected rec' = gr_documents_projected rec ∧ gr_state rec' = Active)
    (λ s, serving o s ∨ switched (gr_generation_id rec) (gr_documents_projected rec) s).
Proof.
  intros (Hna & Hst & Hv). unfold activate_validated, unix_time_millis. set (id := gr_generation_id rec) in *.
  eapply g_bind with (Q' := λ count s, serving o s ∧ count = generation_count id (gs_root s)); [by apply g_get|].
  intros count. eapply g_bind with (Q' := λ n s, serving o s ∧ ∃ dir, gd_index (generation_dir id (gs_root s)) = dir
    ∧ dir_count dir = Ok n).
  { apply g_lift; [|intros s [? _]; by left]. intros n s -> [Hs Hn]. split; [done|]. by eexists. }
  intros n. case_decide as Hcount.
  { eapply g_pre with (P' := serving o); [naive_solver|]. eapply g_err with (R' := serving o); [auto|].
    eapply g_bind; [apply keeps_ask|]. intros now.
    eapply g_bind; [by apply (keeps_write_record (set_gr_state Failed now rec))|]. intros []. by apply g_fail. }
  subst n. eapply g_pre with (P' := λ s, ∃ dir, (serving o s ∧ gd_index (generation_dir id (gs_root s)) = dir)
    ∧ dir_count dir = Ok (gr_documents_projected rec)); [naive_solver|].
  apply g_exists; [solve_grows|]. intros dir. apply g_pure; [solve_grows|]. intros Hdir.
  eapply g_bind with (Q' := λ _ s, serving o s ∧ gd_index (generation_dir id (gs_root s)) = dir).
  { apply g_ask. intros s [Hs Hd]. split; [by apply serving_tick|done]. }
  intros now. eapply g_bind with (Q' := λ _ s, serving o s ∧ complete_record id (gr_documents_projected rec) (gs_root s)
    ∧ gd_index (generation_dir id (gs_root s)) = dir).
  { eapply g_err; [|by apply (g_write_ready o (set_gr_state Ready now rec) dir)]. auto. }
  intros []. eapply g_bind with (Q' := λ _ s, serving o s
    ∧ complete_record id (gr_documents_projected rec) (gs_root s) ∧ gd_index (generation_dir id (gs_root s)) = dir).
  { by apply g_get. }
  intros previous. eapply g_bind with (Q' := λ _ s, serving o s
    ∧ complete_record id (gr_documents_projected rec) (gs_root s) ∧ gd_index (generation_dir id (gs_root s)) = dir).
  { apply g_ask. intros s [Hs Hd]. split; [by apply serving_tick|done]. }
  intros activated. set (p := MkActiveGenerationPointer GENERATION_MANAGER_VERSION id activated).
  assert (∀ s, holding p dir (gr_documents_projected rec) s → switched id (gr_documents_projected rec) s) as Hsw
    by (intros s Hs; by exists p, dir).
  eapply g_bind; [eapply g_err; [|apply (g_write_pointer o p (gr_documents_projected rec) dir)]|].
  { intros s [Hs|Hs]; auto. }
  intros []. eapply g_err with (R' := holding p dir (gr_documents_projected rec)); [auto|].
  eapply g_bind; [by apply (g_write_holding p dir _ (set_gr_state Active activated (set_gr_state Ready now rec))); auto|].
  intros []. eapply g_bind; [apply g_retire_previous|]. intros []. eapply g_bind; [apply g_collect_holding|].
  intros removed. apply g_ret. auto.
Qed.

(** ** Resuming *)

Lemma grows_activate rec : grows (activate_validated env rec).
Proof. unfold activate_validated, write_pointer. solve_grows. Qed.
Lemma grows_commit rec page declared policy : grows (commit_page env rec page declared policy).
Proof. unfold commit_page, generation_delta. solve_grows. Qed.
#[local] Hint Resolve grows_activate grows_commit : grows.
Lemma grows_page limits policy rec : grows (resume_page env limits policy rec).
Proof. unfold resume_page, pause. solve_grows. Qed.
#[local] Hint Resolve grows_page : grows.
Lemma grows_loop fuel limits policy rec projection : grows (resume_loop env fuel limits policy rec projection).
Proof. revert rec projection. induction fuel; intros; simpl; solve_grows. Qed.
#[local] Hint Resolve grows_loop : grows.

(** The generation being built is not served while a page is added to it. *)
Lemma g_commit_page o rec page declared policy :
  building_here o rec →
  gtriple (serving o) (commit_page env rec page declared policy)
    (λ res s, serving o s ∧ ∃ rec' sum, res = Continue rec' sum ∧ building_here o rec') (serving o).
Proof.
  intros Hb. pose proof Hb as (Hna & _). unfold commit_page, generation_delta, unix_time_millis.
  eapply g_bind; [apply keeps_lift|]. intros checkpoint.
  eapply g_bind with (Q' := λ _, serving o).
  { eapply g_bind; [apply keeps_ask|]. intros files.
    eapply g_bind with (Q' := λ d s, serving o s ∧ d = generation_dir (gr_generation_id rec) (gs_root s));
      [by apply g_get|].
    intros d. destruct (apply_delta _ _ _ _ _) as [r dir]. eapply g_bind with (Q' := λ _, serving o); [|intros []; apply keeps_lift].
    apply g_set. intros s [[Hr Ho] ->]. destruct (generation_dir_ok _ _ (gr_generation_id rec) Hr). by apply put_inactive. }
  intros summary. case_decide; [by apply g_fail|]. eapply g_bind; [apply keeps_ask_ok|]. intros bytes.
  eapply g_bind; [apply keeps_ask|]. intros now.
  eapply g_bind; [by apply (g_write_building o (set_gr_bytes bytes now
    (advance_record checkpoint (Z.of_nat (length page)) declared summary rec)))|].
  intros []. apply g_ret. intros s Hs. split; [done|]. eauto.
Qed.

(** What a page leaves: the same generation is served, or the one being built has taken over. *)
Definition page_post o (res : page_result) s : Prop :=
  match res with
  | Paused rec | Continue rec _ => serving o s ∧ building_here o rec
  | Finished rec => switched (gr_generation_id rec) (gr_documents_projected rec) s ∧ gr_state rec = Active
  end.
Definition kept_or_switched o s : Prop := serving o s ∨ ∃ id n, switched id n s.

Lemma g_resume_page o limits policy rec :
  building_here o rec →
  gtriple (serving o) (resume_page env limits policy rec) (page_post o) (kept_or_switched o).
Proof.
  intros Hb. unfold resume_page, pause. assert (building_here o (set_gr_capacity None rec)) as Hb' by done.
  set (rec' := set_gr_capacity None rec) in *.
  eapply g_bind; [eapply g_err; [|apply keeps_ask_ok]; by left|]. intros disk.
  eapply g_bind; [eapply g_err; [|apply keeps_ask_ok]; by left|]. intros current.
  case_match; [by apply g_ret|]. case_match; [by apply g_ret|]. case_match; [by apply g_ret|].
  eapply g_bind; [eapply g_err; [|apply keeps_ask]; by left|]. intros g.
  eapply g_bind; [eapply g_err; [|apply keeps_lift]; by left|]. intros [|d page].
  - eapply g_bind; [eapply g_err; [|by apply g_activate_validated]|].
    { intros s [Hs|Hs]; [by left|right; eauto]. }
    intros rec2. apply g_ret. intros s (Hs & Hid & Hn & Hst). simpl. by rewrite Hid, Hn.
  - case_match; [by apply g_ret|]. case_match; [by apply g_ret|].
    eapply g_conseq; [by apply (g_commit_page o rec')|done| |by left].
    by intros res s [Hs (rec2 & sum & -> & Hb2)].
Qed.

Definition loop_post o (res : ContentGenerationRecord * ContentSyncSummary * bool) s : Prop :=
  match res with
  | (rec, _, false) => serving o s ∧ building_here o rec
  | (rec, _, true) => switched (gr_generation_id rec) (gr_documents_projected rec) s ∧ gr_state rec = Active
  end.

Lemma g_resume_loop o fuel limits policy rec projection :
  building_here o rec →
  gtriple (serving o) (resume_loop env fuel limits policy rec projection) (loop_post o) (kept_or_switched o).
Proof.
  revert rec projection. induction fuel as [|fuel IH]; intros rec projection Hb; simpl; [by apply g_ret|].
  eapply g_bind; [by apply g_resume_page|]. intros [rec'|rec'|rec' sum]; [by apply g_ret|by apply g_ret|].
  apply g_pure; [solve_grows|]. apply IH.
Qed.

(** The last write of the record, whichever way the loop ended. *)
Lemma g_final_write o rec complete sum bytes now :
  gtriple (loop_post o (rec, sum, complete)) (write_record_file env (gr_generation_id rec) (set_gr_bytes bytes now rec))
    (λ _, loop_post o (rec, sum, complete)) (kept_or_switched o).
Proof.
  destruct complete; simpl.
  - eapply g_pre with (P' := λ s, ∃ p dir, holding p dir (gr_documents_projected rec) s ∧ dir_count dir = Ok (gr_documents_projected rec)
      ∧ ap_generation_id p = gr_generation_id rec ∧ ap_version p = GENERATION_MANAGER_VERSION
      ∧ valid_generation_id (gr_generation_id rec) = true ∧ gr_state rec = Active).
    { intros s [(p & dir & ?) ?]. exists p, dir. naive_solver. }
    apply g_exists; [solve_grows|]. intros p. apply g_exists; [solve_grows|]. intros dir.
    apply g_pure; [solve_grows|]. intros (Hn & Hid & Hv & Hvalid & Hst).
    assert (∀ s, holding p dir (gr_documents_projected rec) s →
      switched (gr_generation_id rec) (gr_documents_projected rec) s) as Hsw by (intros s Hs; by exists p, dir).
    eapply g_conseq; [apply (g_write_holding p dir (gr_documents_projected rec) (set_gr_bytes bytes now rec)); auto
      |done|intros [] s Hs; split; auto|]. intros s Hs. right. eauto.
  - apply g_pure; [solve_grows|]. intros Hb. eapply g_conseq;
      [apply (g_write_building o (set_gr_bytes bytes now rec)), Hb|done|done|by left].
Qed.

Lemma g_resume o roots policy limits :
  gtriple (serving o) (resume_initial_generation env roots policy limits)
    (λ sum s, loop_post o (gsum_generation sum, gsum_projection sum, gsum_complete sum) s) (kept_or_switched o).
Proof.
  unfold resume_initial_generation, unix_time_millis.
  eapply g_bind; [eapply g_err; [|apply keeps_lift]; by left|]. intros limits'.
  eapply g_bind; [eapply g_err; [|apply g_recover_or_create]; by left|]. intros rec.
  apply g_pure; [solve_grows|]. intros Hb. eapply g_bind; [by apply g_resume_loop|].
  intros [[rec' projection] complete].
  assert (∀ s, loop_post o (rec', projection, complete) s → kept_or_switched o s) as Hks.
  { destruct complete; simpl; intros s [Hs _]; [right; eauto|by left]. }
  assert (∀ A (f : nat → A), gtriple (loop_post o (rec', projection, complete)) (ask f)
            (λ _, loop_post o (rec', projection, complete)) (kept_or_switched o)) as Hask.
  { intros A f. apply g_ask. intros s. destruct complete; simpl.
    - intros [(p & dir & [Hs Hc] & ?) ?]. split; [|done]. exists p, dir. split; [|done]. split; [by apply serving_tick|done].
    - intros [Hs ?]. split; [by apply serving_tick|done]. }
  assert (∀ A (f : nat → result ContentIndexError A), gtriple (loop_post o (rec', projection, complete)) (ask_ok f)
            (λ _, loop_post o (rec', projection, complete)) (kept_or_switched o)) as Hask_ok.
  { intros A f. unfold ask_ok. eapply g_bind; [apply Hask|]. intros r. by apply g_lift. }
  eapply g_bind; [apply Hask_ok|]. intros bytes. eapply g_bind; [apply Hask|]. intros now.
  eapply g_bind; [apply (g_final_write o rec' complete projection bytes now)|]. intros []. eapply g_bind; [apply Hask_ok|]. intros disk.
  apply g_ret. intros s. by destruct complete.
Qed.

(** A complete generation that is served is found by readers. *)
Lemma switched_found id n s :
  switched id n s → active_index_path (gs_root s) = Ok id ∧ generation_count id (gs_root s) = Ok n
    ∧ complete_record id n (gs_root s) ∧ root_ok (gs_tick s) (gs_root s).
Proof.
  intros (p & dir & [[Hr Hserved] Hc] & Hn & <- & Hver & Hv). unfold served in Hserved.
  destruct (active_pointer (gs_root s)) as [q|] eqn:Hq; [|done]. simpl in Hserved. injection Hserved as -> Hdir.
  split; [|split; [by unfold generation_count; rewrite Hdir|done]].
  unfold active_index_path. rewrite Hq. simpl. rewrite Hv, (bool_decide_true (ap_version p = _)) by done. simpl.
  rewrite Hdir, bool_decide_true; [done|]. unfold dir_count in Hn.
  apply result_bind_Ok in Hn as ([i h] & Hopen & _). unfold open_index in Hopen.
  apply result_bind_Ok in Hopen as (d & Hd%ok_or_Ok & Hopen). apply result_bind_Ok in Hopen as (m & Hm%ok_or_Ok & _).
  rewrite Hd. simpl. by rewrite Hm.
Qed.
End spec.
#[export] Hint Resolve grows_write_record grows_fail_record grows_create grows_retire grows_collect grows_activate
  grows_commit grows_page grows_loop : grows.

(** ** Guarantees *)

Section guarantees.
Context `{TV : Tantivy} `{T : TextEnv} `{CE : !ContentEnv} `{J : JsonEnv}.
Context `{RC : !JsonCodec ContentGenerationRecord} `{PC : !JsonCodec ActiveGenerationPointer}.
Context `{!JsonLaws J} `{!JsonCodecLaws ContentGenerationRecord} `{!JsonCodecLaws ActiveGenerationPointer}.

(** C19 (only validated generations are served): however resuming a generation ends, with success, with
    an error or interrupted at any write, commit, creation or removal, readers are served the same
    active index as before, or a new generation whose index opens and holds exactly the documents its
    record counts; success with [complete] set means the latter, and without it the former. *)
Theorem resume_serves_validated (env : GenEnv) roots policy limits (s s' : gstate)
    (res : result ContentIndexError ContentGenerationSummary) :
  root_ok (gs_tick s) (gs_root s) →
  resume_initial_generation env roots policy limits s = (res, s') → (Z.of_nat (gs_tick s') < u64_max)%Z →
  root_ok (gs_tick s') (gs_root s')
  ∧ (served (gs_root s') = served (gs_root s)
     ∨ ∃ id n, active_index_path (gs_root s') = Ok id ∧ generation_count id (gs_root s') = Ok n
               ∧ complete_record id n (gs_root s'))
  ∧ ∀ sum, res = Ok sum →
      let rec := gsum_generation sum in
      if gsum_complete sum
      then active_index_path (gs_root s') = Ok (gr_generation_id rec)
           ∧ generation_count (gr_generation_id rec) (gs_root s') = Ok (gr_documents_projected rec)
      else served (gs_root s') = served (gs_root s).
Proof.
  intros Hr Hres Ht.
  destruct (g_resume env (S (gs_tick s')) ltac:(lia) (served (gs_root s)) roots policy limits) as [_ H].
  specialize (H s (conj Hr eq_refl)). rewrite Hres in H. specialize (H ltac:(simpl; lia)). simpl in H.
  destruct res as [sum|e].
  - destruct (gsum_complete sum) eqn:Hc; simpl in H.
    + destruct H as [(Hp & Hn & Hcr & Hr')%switched_found _]. split; [done|]. split; [right; eauto|].
      intros ? [= <-]. by rewrite Hc.
    + destruct H as [[Hr' Hs] _]. split; [done|]. split; [by left|]. intros ? [= <-]. by rewrite Hc.
  - destruct H as [[Hr' Hs]|(id & n & (Hp & Hn & Hcr & Hr')%switched_found)]; (split; [done|]); (split; [|done]); eauto 10.
Qed.

(** Garbage collection: whether it succeeds, fails or is interrupted, collecting garbage leaves
    what is served, and every generation whose record is building, ready or active, exactly as they
    are; when it succeeds it has removed precisely the failed generations and the retired ones beyond
    the newest [n], sparing the one the active pointer names. *)
Theorem collect_garbage_spares_live (env : GenEnv) (n : nat) (s s' : gstate)
    (res : result ContentIndexError (list string)) :
  root_ok (gs_tick s) (gs_root s) → collect_garbage env n s = (res, s') →
  (root_ok (gs_tick s') (gs_root s') ∧ served (gs_root s') = served (gs_root s))
  ∧ (∀ id rec, read_record (gs_root s) id = Ok rec → gr_state rec ≠ Failed → gr_state rec ≠ Retired →
       generation_map (gs_root s') !! id = generation_map (gs_root s) !! id)
  ∧ ∀ removed, res = Ok removed → ∃ rs, records (gs_root s) = Ok rs
      ∧ removed = gr_generation_id <$> filter (λ rec, spared (ap_generation_id <$> ok_value (active_pointer (gs_root s))) rec = false)
                    (removable_records n rs)
      ∧ ∀ id, generation_map (gs_root s') !! id = if decide (id ∈ removed) then None else generation_map (gs_root s) !! id.
Proof.
  intros Hr Hres. split; [|split].
  - destruct (keeps_collect_garbage env (S (gs_tick s')) n (served (gs_root s))) as [_ H].
    specialize (H s (conj Hr eq_refl)). rewrite Hres in H. specialize (H ltac:(simpl; lia)). by destruct res.
  - intros id rec Hrec H1 H2. destruct (read_record_exists _ _ _ Hrec) as [d Hd].
    destruct (g_collect_keeps env (S (gs_tick s')) (served (gs_root s)) n id d rec H1 H2) as [_ H].
    specialize (H s (conj (conj Hr eq_refl) (conj Hd Hrec))). rewrite Hres in H. specialize (H ltac:(simpl; lia)).
    rewrite Hd. destruct res; apply H.
  - intros removed ->. unfold collect_garbage, mbind, St_bind, root_get, st_lift in Hres. simpl in Hres.
    destruct (records (gs_root s)) as [rs|e] eqn:Hrs; [|done]. exists rs. split; [done|].
    apply remove_each_Ok in Hres as (Hout & _ & Hg). simpl in Hout. by subst.
Qed.

(** ** Histories *)

(** What is done to a content root, each operation possibly failing or interrupted. *)
Inductive manager_op :=
  | OpOpen
  | OpResume (roots : list string) (policy : ContentIndexPolicy) (limits : ContentGenerationLimits)
  | OpCollect (retain_retired : nat).
Definition run_op (env : GenEnv) (op : manager_op) (s : gstate) : gstate :=
  match op with
  | OpOpen => (manager_open env s).2
  | OpResume roots policy limits => (resume_initial_generation env roots policy limits s).2
  | OpCollect n => (collect_garbage env n s).2
  end.
Definition run_ops (env : GenEnv) (ops : list manager_op) (s : gstate) : gstate :=
  foldl (λ s op, run_op env op s) s ops.

Lemma active_index_served r :
  active_index_path r =
  ('(p, dir) ← served r;
   ensure (bool_decide (ap_version p = GENERATION_MANAGER_VERSION) && valid_generation_id (ap_generation_id p))
     XSchemaMismatch ;;
   ensure (bool_decide (is_Some (dir ≫= xd_marker))) XSchemaMismatch ;;
   mret (ap_generation_id p)).
Proof. unfold active_index_path, served. by destruct (active_pointer r). Qed.

Lemma run_op_grows env op s : gs_tick s ≤ gs_tick (run_op env op s).
Proof.
  destruct op; simpl.
  - apply (keeps_manager_open env 0 ltac:(done) (Err XIo)).
  - apply (g_resume env 0 ltac:(done) (Err XIo)).
  - apply (keeps_collect_garbage env 0 _ (Err XIo)).
Qed.

Lemma run_op_active env op s :
  root_ok (gs_tick s) (gs_root s) → (Z.of_nat (gs_tick (run_op env op s)) < u64_max)%Z →
  root_ok (gs_tick (run_op env op s)) (gs_root (run_op env op s))
  ∧ (has_active_generation (gs_root s) = true → has_active_generation (gs_root (run_op env op s)) = true).
Proof.
  intros Hr Ht. set (s' := run_op env op s) in *.
  assert (kept_or_switched (served (gs_root s)) s') as Hk.
  { destruct op; simpl in *.
    - destruct (keeps_manager_open env (S (gs_tick s')) ltac:(lia) (served (gs_root s))) as [_ H].
      specialize (H s (conj Hr eq_refl) (Nat.lt_succ_diag_r _)). left. unfold s'. by destruct (manager_open env s).1.
    - destruct (g_resume env (S (gs_tick s')) ltac:(lia) (served (gs_root s)) roots policy limits) as [_ H].
      specialize (H s (conj Hr eq_refl) (Nat.lt_succ_diag_r _)). fold s' in H.
      destruct (resume_initial_generation env roots policy limits s).1 as [sum|e]; [|done].
      destruct (gsum_complete sum); destruct H as [H _]; [right; eauto|by left].
    - destruct (keeps_collect_garbage env (S (gs_tick s')) retain_retired (served (gs_root s))) as [_ H].
      specialize (H s (conj Hr eq_refl) (Nat.lt_succ_diag_r _)). left. unfold s'. by destruct (collect_garbage env retain_retired s).1. }
  destruct Hk as [[Hr' Hs]|(id & n & (Hp & _ & _ & Hr')%switched_found)]; (split; [done|]).
  - unfold has_active_generation. by rewrite !active_index_served, Hs.
  - intros _. unfold has_active_generation. by rewrite Hp.
Qed.

Lemma run_ops_grows env ops s : gs_tick s ≤ gs_tick (run_ops env ops s).
Proof.
  unfold run_ops. revert s. induction ops as [|op ops IH]; intros s; simpl; [done|].
  etrans; [apply run_op_grows|apply IH].
Qed.

Lemma run_ops_active env ops s :
  root_ok (gs_tick s) (gs_root s) → (Z.of_nat (gs_tick (run_ops env ops s)) < u64_max)%Z →
  root_ok (gs_tick (run_ops env ops s)) (gs_root (run_ops env ops s))
  ∧ (has_active_generation (gs_root s) = true → has_active_generation (gs_root (run_ops env ops s)) = true).
Proof.
  revert s. induction ops as [|op ops IH]; intros s Hr Hlt; [done|].
  change (run_ops env (op :: ops) s) with (run_ops env ops (run_op env op s)) in *.
  destruct (run_op_active env op s Hr) as [Hr2 Ha2]; [pose proof (run_ops_grows env ops (run_op env op s)); lia|].
  destruct (IH _ Hr2 Hlt) as [Hr3 Ha3]. auto.
Qed.

(** C18 (an active generation is never lost): from a fresh content root on, through any sequence of
    opening, resuming and garbage collection, each ending or interrupted anywhere and with any outcome
    of every write, once an active generation can be read one can always be read. *)
Theorem active_generation_never_lost (env : GenEnv) (before after : list manager_op) direct marker (t : nat) :
  let s0 := MkGstate (MkContentRoot direct marker no_file None) t in
  (Z.of_nat (gs_tick (run_ops env (before ++ after) s0)) < u64_max)%Z →
  has_active_generation (gs_root (run_ops env before s0)) = true →
  has_active_generation (gs_root (run_ops env (before ++ after) s0)) = true.
Proof.
  intros s0. assert (run_ops env (before ++ after) s0 = run_ops env after (run_ops env before s0)) as ->
    by (unfold run_ops; apply foldl_app).
  intros Ht. pose proof (run_ops_grows env after (run_ops env before s0)).
  apply run_ops_active; [|done]. apply run_ops_active; [apply empty_root_ok|lia].
Qed.
End guarantees.
