(* ===== verification/Projector.v ===== *)
(** The projection worker ([crates/catalog-index/src/projector.rs]): startup recovery, full rebuild
    from the desired catalog, and bounded consumption of the outbox.

    The worker's world is the graph database and the generation directories.  A database call is a
    transaction; a failure of a later step leaves the effects of the earlier ones in place, so a
    computation returns its result together with the world it leaves behind. *)
From stdpp Require Import base strings numbers gmap list sorting.
From S2P Require Import Prelude Ids Models GraphDomain GraphTables GraphProjection GraphStore.
From S2P Require Import GraphOutbox Text Catalog.

(** [ProjectionWorkerOptions]; the run time and the clock are in milliseconds. *)
Record ProjectionWorkerOptions := MkProjectionWorkerOptions {
  po_maximum_batch_mutations : Z;      (* u32 *)
  po_maximum_batches : Z;              (* u32 *)
  po_maximum_run_time : Z;
  po_writer_heap_bytes : Z;
  po_rebuild_page_size : Z }.          (* u32 *)

Definition ProjectionWorkerOptions_default : ProjectionWorkerOptions :=
  MkProjectionWorkerOptions 10000 100 30000 (128 * 1024 * 1024) 10000.

Inductive RecoveryKind := ExistingGeneration | RebuiltGeneration.

Record ProjectionRunSummary := MkProjectionRunSummary {
  ps_recovery : RecoveryKind;
  ps_index_generation : Z;
  ps_committed_batches : Z;
  ps_applied_mutations : Z;
  ps_applied_sequence : Z;
  ps_backlog_remaining : bool }.

(** [ProjectionWorker::new] uses the schema identifier as the consumer identifier. *)
Definition consumer_id : string := CATALOG_SCHEMA_ID.

Section projector.
Context `{TV : Tantivy} `{T : TextEnv}.

Inductive ProjectionWorkerError :=
| WGraph (e : GraphError)
| WCatalog (e : CatalogIndexError)
| WOutbox (reason : string)
| WDiverges.                           (* a loop of the worker does not end *)

Record world := MkWorld {
  w_graph : db;
  w_generations : gmap Z Generation }.

Definition W (A : Type) : Type := world → result ProjectionWorkerError A * world.

Global Instance W_ret : MRet W := λ A a w, (Ok a, w).
Global Instance W_bind : MBind W := λ A B f m w,
  match m w with
  | (Ok a, w') => f a w'
  | (Err e, w') => (Err e, w')
  end.

(** ** Calls into the components *)

Definition w_lift {A} (r : result ProjectionWorkerError A) : W A := λ w, (r, w).

Definition get_world : W world := λ w, (Ok w, w).

Definition graph_read {A} (f : db → result GraphError A) : W A := λ w,
  (map_err WGraph (f (w_graph w)), w).

Definition graph_write {A} (m : GM A) : W A := λ w,
  match m (w_graph w) with
  | Ok (a, g) => (Ok a, MkWorld g (w_generations w))
  | Err e => (Err (WGraph e), w)
  end.

Definition open_generation (generation : Z) : W Index := λ w,
  (map_err WCatalog (catalog_open (w_generations w !! generation)), w).

Definition create_generation (generation : Z) : W Index := λ w,
  let '(dir, r) := catalog_create (w_generations w !! generation) in
  (map_err WCatalog r, MkWorld (w_graph w) (partial_alter (λ _, dir) generation (w_generations w))).

(** The index files of a generation directory are replaced. *)
Definition put_index (generation : Z) (i : Index) (w : world) : world :=
  MkWorld (w_graph w)
    (alter (λ d, MkGeneration (gen_marker d) (Ok i)) generation (w_generations w)).

(** [writer.commit()]: a failed commit leaves the last committed index. *)
Definition commit_writer (generation : Z) (writer : IndexWriter) : W Index := λ w,
  match writer_commit writer with
  | Ok i => (Ok i, put_index generation i w)
  | Err e => (Err (WCatalog (CTantivy e)), w)
  end.

(** [writer.wait_merging_threads()]. *)
Definition wait_merging_threads (generation : Z) (i : Index) : W unit := λ w,
  match wait_merging i with
  | (i', None) => (Ok tt, put_index generation i' w)
  | (i', Some e) => (Err (WCatalog (CTantivy e)), put_index generation i' w)
  end.

(** Both, in the order [rebuild] and [run] have them. *)
Definition commit_and_wait (generation : Z) (writer : IndexWriter) : W unit :=
  index ← commit_writer generation writer;
  wait_merging_threads generation index.

(** ** Rebuild *)

(** [next_unused_generation]: every step skips a directory, so [S (size dirs)] steps suffice
    unless the counter saturates. *)
Fixpoint next_unused (fuel : nat) (dirs : gmap Z Generation) (generation : Z) : option Z :=
  match fuel with
  | O => None
  | S fuel =>
      match dirs !! generation with
      | None => Some generation
      | Some _ => next_unused fuel dirs (saturating_add u64_max generation 1)
      end
  end.
Definition next_unused_generation (dirs : gmap Z Generation) (minimum : Z) : option Z :=
  next_unused (S (size dirs)) dirs minimum.

Fixpoint add_all (docs : list CatalogDocument) (writer : IndexWriter)
  : result CatalogIndexError IndexWriter :=
  match docs with
  | [] => Ok writer
  | d :: docs => writer ← add_current d writer; add_all docs writer
  end.

(** The page loop of [rebuild]. *)
Fixpoint rebuild_pages (fuel : nat) (page_size : Z) (g : db) (after : option document_id)
  (writer : IndexWriter) : result ProjectionWorkerError IndexWriter :=
  match fuel with
  | O => Err WDiverges
  | S fuel =>
      documents ← map_err WGraph (desired_catalog_page g after page_size);
      match documents with
      | [] => Ok writer
      | _ =>
          writer ← map_err WCatalog (add_all documents writer);
          let after := (λ d, ci_document_id (cd_identity d)) <$> last documents in
          if (Z.of_nat (length documents) <? page_size)%Z then Ok writer
          else rebuild_pages fuel page_size g after writer
      end
  end.

Definition rebuild (o : ProjectionWorkerOptions) (minimum_generation : Z) : W (RecoveryKind * Z) :=
  w ← get_world;
  generation ← w_lift (ok_or (next_unused_generation (w_generations w) minimum_generation) WDiverges);
  index ← create_generation generation;
  writer ← w_lift (map_err WCatalog (catalog_writer index (po_writer_heap_bytes o)));
  w ← get_world;
  writer ← w_lift (rebuild_pages (S (size (documents (w_graph w)))) (po_rebuild_page_size o)
                     (w_graph w) None writer);
  commit_and_wait generation writer ;;
  sequence ← graph_read latest_outbox_sequence;
  graph_write (acknowledge_projection consumer_id sequence generation) ;;
  mret (RebuiltGeneration, generation).

Definition recover (o : ProjectionWorkerOptions) : W (RecoveryKind * Z) :=
  checkpoint ← graph_read (λ g, projector_checkpoint g consumer_id);
  match checkpoint with
  | Some c =>
      w ← get_world;
      match catalog_open (w_generations w !! pj_index_generation c) with
      | Ok _ => mret (ExistingGeneration, pj_index_generation c)
      | Err _ => rebuild o (saturating_add u64_max (pj_index_generation c) 1)
      end
  | None => rebuild o 1
  end.

(** ** Consuming the outbox *)

Fixpoint apply_all (ms : list SequencedMutation) (writer : IndexWriter)
  : result CatalogIndexError IndexWriter :=
  match ms with
  | [] => Ok writer
  | m :: ms => writer ← writer_apply (sm_mutation m) writer; apply_all ms writer
  end.

(** The body of the loop after a non-empty batch was read. *)
Definition run_batch (o : ProjectionWorkerOptions) (generation : Z) (batch : MutationBatch) : W unit :=
  w_lift (map_err (λ '(InvalidRequest reason), WOutbox reason) (MutationBatch_validate batch)) ;;
  index ← open_generation generation;
  writer ← w_lift (map_err WCatalog (catalog_writer index (po_writer_heap_bytes o)));
  writer ← w_lift (map_err WCatalog (apply_all (mb_mutations batch) writer));
  commit_and_wait generation writer ;;
  last ← w_lift (ok_or (last_sequence batch) (WOutbox "non-empty batch lost its tail"));
  graph_write (acknowledge_projection consumer_id last generation).

Definition active_checkpoint (missing : string) : W ProjectorCheckpoint :=
  checkpoint ← graph_read (λ g, projector_checkpoint g consumer_id);
  w_lift (ok_or checkpoint (WOutbox missing)).

(** The clock at the start of the n-th iteration. *)
Context (elapsed : Z → Z).

(** [fuel] is what is left of [maximum_batches]. *)
Fixpoint run_loop (o : ProjectionWorkerOptions) (generation : Z) (fuel : nat) (batches applied : Z)
  : W (Z * Z) :=
  match fuel with
  | O => mret (batches, applied)
  | S fuel =>
      if (po_maximum_run_time o <=? elapsed batches)%Z then mret (batches, applied)
      else
        checkpoint ← active_checkpoint "missing active checkpoint";
        batch ← graph_read (λ g, read_outbox g (Some (pj_last_sequence checkpoint))
                                   (po_maximum_batch_mutations o));
        match mb_mutations batch with
        | [] => mret (batches, applied)
        | _ =>
            run_batch o generation batch ;;
            run_loop o generation fuel (batches + 1)
              (applied + Z.of_nat (length (mb_mutations batch)))
        end
  end.

Definition run (o : ProjectionWorkerOptions) : W ProjectionRunSummary :=
  '(recovery, generation) ← recover o;
  '(batches, applied) ← run_loop o generation (Z.to_nat (po_maximum_batches o)) 0 0;
  checkpoint ← active_checkpoint "missing final checkpoint";
  latest ← graph_read latest_outbox_sequence;
  mret (MkProjectionRunSummary recovery generation batches applied (pj_last_sequence checkpoint)
          (bool_decide (pj_last_sequence checkpoint < latest)%Z)).

Definition active_index : W Index :=
  checkpoint ← active_checkpoint "no active catalog generation";
  open_generation (pj_index_generation checkpoint).
End projector.
