(* ===== verification/ProjectorSpec.v ===== *)
(** What the projection worker promises: whatever step fails, the active generation plus the unread
    outbox is the desired catalog; a run with enough budget over an engine that does not fail ends
    with a catalog that is the desired one. *)
From stdpp Require Import base strings numbers gmap list sorting.
From S2P Require Import Prelude Ids Models GraphDomain GraphTables GraphPath GraphProjection.
From S2P Require Import GraphStore GraphOutbox GraphInvariant GraphPreserve GraphReach GraphSync.
From S2P Require Import GraphConverge Text Catalog CatalogSpec Projector.

(** ** Replaying a prefix twice *)

Section replay.
Context `{E : StoreEnv}.
Implicit Types (g : db) (idx : index) (log : list (Z * outbox_row)).

Definition mutation_id (m : IndexMutation) : document_id :=
  match m with Upsert doc => ci_document_id (cd_identity doc) | Delete id _ => id end.

(** A log row that decides what the index holds at an identifier. *)
Definition touches (d : document_id) (r : Z * outbox_row) : Prop :=
  mutation_id <$> mutation_from_json (x_mutation_json r.2) = Some d.
Global Instance touches_dec d r : Decision (touches d r).
Proof. unfold touches. apply _. Defined.

Lemma replay_row_touched d r idx idx' :
  touches d r → replay_row idx r !! d = replay_row idx' r !! d.
Proof.
  unfold touches, replay_row. destruct (mutation_from_json _) as [m|]; [|done].
  intros [= <-]. destruct m; simpl; by rewrite ?lookup_insert_eq, ?lookup_delete_eq.
Qed.

Lemma replay_row_untouched d r idx : ¬ touches d r → replay_row idx r !! d = idx !! d.
Proof.
  unfold touches, replay_row. destruct (mutation_from_json _) as [m|]; [|done]. simpl.
  intros Hne. destruct m; simpl in *; [rewrite lookup_insert_ne|rewrite lookup_delete_ne]; congruence.
Qed.

Lemma replay_touched d log idx idx' :
  Exists (touches d) log → replay log idx !! d = replay log idx' !! d.
Proof.
  unfold replay. revert idx idx'. induction log as [|r log IH] using rev_ind; intros idx idx';
    [by intros ?%Exists_nil|]. rewrite !foldl_snoc. intros Hex.
  destruct (decide (touches d r)) as [Hr|Hr]; [by apply replay_row_touched|].
  rewrite !replay_row_untouched by done. apply IH.
  apply Exists_app in Hex as [?|Hex]; [done|]. apply Exists_cons in Hex as [?|?%Exists_nil]; done.
Qed.

Lemma replay_untouched d log idx : ¬ Exists (touches d) log → replay log idx !! d = idx !! d.
Proof.
  unfold replay. induction log as [|r log IH] using rev_ind; [done|]. rewrite foldl_snoc, Exists_app.
  intros Hno. rewrite replay_row_untouched; [apply IH; tauto|]. intros Hr. apply Hno. right.
  by apply Exists_cons_hd.
Qed.

(** A batch that was applied but not acknowledged may be applied again. *)
Lemma replay_absorbs d pre log idx :
  pre `prefix_of` log → replay log (replay pre idx) !! d = replay log idx !! d.
Proof.
  intros [rest ->]. destruct (decide (Exists (touches d) (pre ++ rest))) as [Hex|Hno];
    [by apply replay_touched|]. rewrite !(replay_untouched d (pre ++ rest)) by done.
  apply replay_untouched. rewrite Exists_app in Hno. tauto.
Qed.

Lemma tracks_absorbs g pos pre idx :
  pre `prefix_of` outbox_after g pos → tracks g pos idx → tracks g pos (replay pre idx).
Proof. intros Hp Ht d. rewrite replay_absorbs by done. apply Ht. Qed.

(** ** Reading the desired catalog back *)

(** A desired row can be read back as the document it describes. *)
Definition reads g (x : document_id * document_row) (doc : CatalogDocument) : Prop :=
  (∃ p, join_document g x = Some p ∧ into_document p = Ok doc) ∧ row_describes x.2 doc
  ∧ d_file_link_id x.2 = x.1 ∧ in_u128 x.1.

(** The column number only shows in errors. *)
Lemma metadata_from_row_column c c' r m : metadata_from_row c r = Ok m → metadata_from_row c' r = Ok m.
Proof.
  unfold metadata_from_row. destruct (file_kind_from_code (o_kind r)); [|done].
  by destruct (u64_try_from (o_size r)).
Qed.

Lemma synced_reads `{!StoreLaws E} g d r :
  store_wf g → documents g !! d = Some r → synced g d → ∃ doc, reads g (d, r) doc.
Proof.
  intros [Hwf Hdl] Hd Hsync. unfold synced in Hsync. rewrite Hd in Hsync.
  destruct Hsync as (doc & Hdesc & Hw). destruct (gw_document _ Hwf _ _ Hd) as (Hid & [o Ho] & [[Hv Hu] _]).
  destruct (Hdl _ _ Hd) as (l & Hl & Hobj); [set_solver|].
  destruct (gw_object_volume _ Hwf _ _ Ho) as [vr Hvr].
  exists doc. split; [|split_and!; [done|done|by rewrite <-Hid]].
  exists (MkStoredCatalogProjection d r l o vr). unfold join_document. simpl.
  rewrite Hid, Hl, Ho, Hvr. split; [done|]. unfold into_document. simpl.
  unfold u64_try_from. rewrite decide_True by (unfold in_u64, u64_max, i64_max in *; lia). simpl.
  destruct (metadata_from_row_ok 9 o) as [m Hm]; [by eapply gw_object_row|].
  pose proof (gw_volume_row _ Hwf _ _ Hvr) as [Hvs _].
  destruct (volume_state_from_code_ok _ Hvs) as [st Hst]. rewrite Hm, Hst. simpl.
  destruct Hdesc as (Hident & Hver & [[Hp Hf]|(Hp & Hf & Hj)]); rewrite Hp; [|by rewrite Hj].
  unfold wanted, desired_document, load_link in Hw. rewrite Hl in Hw. simpl in Hw.
  unfold build_catalog_document in Hw. simpl in Hw. rewrite Hobj in Hw.
  destruct (load_object_metadata g (d_object r)) as [m'|] eqn:Hm'; [|done].
  unfold load_object_metadata in Hm'. rewrite Ho in Hm'. destruct (o_tombstoned o); [done|].
  unfold volume_state_of in Hw. simpl in Hw. rewrite Hvr, Hst in Hw. simpl in Hw.
  destruct (resolve_path_connection g d PATH_DEPTH) as [path|]; [|done]. simpl in Hw.
  apply (metadata_from_row_column _ 9) in Hm'. rewrite Hm in Hm'. injection Hm' as <-.
  unfold document_content in Hw. injection Hw as H1 H2 H3 H4 H5. destruct doc. simpl in *. subst.
  done.
Qed.

Lemma reads_fun g x doc doc' : reads g x doc → reads g x doc' → doc = doc'.
Proof. intros [(p & Hp & Hd) _] [(p' & Hp' & Hd') _]. congruence. Qed.

Lemma reads_identity g x doc :
  reads g x doc → ci_document_id (cd_identity doc) = x.1 ∧ ci_file_link_id (cd_identity doc) = x.1.
Proof. intros (_ & (Hid & _) & Hx & _). rewrite Hid. done. Qed.

Lemma reads_canonical g x doc : reads g x doc → canonical_mutation (Upsert doc).
Proof.
  intros Hr. destruct (reads_identity _ _ _ Hr) as [H1 H2]. simpl. rewrite H1, H2.
  split; [done|apply Hr].
Qed.

(** The desired rows after a cursor, in the order of the pages. *)
Definition documents_after g (after : option document_id) : list (document_id * document_row) :=
  rows by_key_N (λ r, match after with
                      | Some cursor => bool_decide (cursor < r.1)%N
                      | None => true
                      end) (documents g).

Lemma documents_after_split g after n x :
  last (limit n (documents_after g after)) = Some x →
  documents_after g after = limit n (documents_after g after) ++ documents_after g (Some x.1).
Proof.
  intros Hlast. rewrite <-(take_drop (Z.to_nat n) (documents_after g after)) at 1. f_equal. symmetry.
  apply (rows_rest _ _ _ _ _ _ x) with (2 := eq_sym (take_drop (Z.to_nat n) (documents_after g after)));
    [|exact Hlast|].
  - unfold by_key_N. intros. lia.
  - intros k v Hk. unfold by_key_N. rewrite bool_decide_eq_true. simpl.
    assert (x ∈ documents_after g after) as Hin.
    { apply (elem_of_limit n). apply last_Some in Hlast as [pre ->]. apply elem_of_app. right. left. }
    destruct x as [q row]. apply elem_of_rows in Hin as [_ Hq]. simpl in *.
    destruct after as [c|]; [rewrite bool_decide_eq_true in *|]; intuition lia.
Qed.

Lemma documents_after_elem g after d r :
  (d, r) ∈ documents_after g after → documents g !! d = Some r.
Proof. unfold documents_after. by intros [? _]%elem_of_rows. Qed.

Lemma documents_after_all g d r : (d, r) ∈ documents_after g None ↔ documents g !! d = Some r.
Proof. unfold documents_after. rewrite elem_of_rows. tauto. Qed.

Lemma documents_after_size g after : length (documents_after g after) ≤ size (documents g).
Proof.
  unfold documents_after, rows. rewrite merge_sort_Permutation, <-length_map_to_list.
  apply length_filter.
Qed.

Lemma page_reads g n l :
  (∀ x, x ∈ l → ∃ doc, reads g x doc) →
  ∃ docs, into_documents (limit n (omap (join_document g) l)) = Ok docs
    ∧ Forall2 (reads g) (limit n l) docs.
Proof.
  unfold limit. generalize (Z.to_nat n) as k. induction l as [|x l IH]; intros k Hall.
  - exists []. simpl. rewrite !take_nil. split; [done|constructor].
  - destruct k as [|k]; [exists []; by split; [|constructor]|]. destruct (Hall x) as [doc Hd]; [left|].
    destruct (IH k) as (docs & Hdocs & Hf); [intros y Hy; apply Hall; by right|].
    pose proof Hd as [(p & Hp & Hi) _]. exists (doc :: docs). csimpl. rewrite Hp. simpl.
    rewrite Hi. simpl. rewrite Hdocs. split; [done|]. by constructor.
Qed.
End replay.

Section pages.
Context `{TV : Tantivy} `{T : TextEnv} `{!StoreLaws E} `{!TextLaws T} `{TL : !TantivyLaws}.
Implicit Types (g : db) (idx : index).

(** The index holds what the given rows read back as. *)
Definition holds g (l : list (document_id * document_row)) idx : Prop :=
  ∀ d doc, idx !! d = Some doc ↔ ∃ r, (d, r) ∈ l ∧ reads g (d, r) doc.

Lemma add_all_holds g (l done : list (document_id * document_row)) docs w w' idx :
  Forall2 (reads g) l docs → NoDup (done ++ l).*1 → add_all docs w = Ok w' →
  represents (pending w) idx → holds g done idx →
  ∃ idx', represents (pending w') idx' ∧ holds g (done ++ l) idx'.
Proof.
  intros Hf. revert w idx done. induction Hf as [|x doc l docs Hr _ IH]; intros w idx done Hnd.
  { intros [= <-] Hrep Hh. exists idx. by rewrite app_nil_r. }
  intros (w1 & (u & _ & Hadd%map_err_Ok)%result_bind_Ok & Hall)%result_bind_Ok Hrep Hh.
  destruct (reads_identity _ _ _ Hr) as [Hid _].
  assert (x.1 ∉ done.*1) as Hfresh.
  { rewrite fmap_app, NoDup_app in Hnd. destruct Hnd as (_ & Hdis & _). intros Hx.
    apply (Hdis _ Hx). left. }
  rewrite cons_middle, app_assoc in *. eapply (IH w1 (<[x.1 := doc]> idx) (done ++ [x])); [done|done| |].
  - rewrite <-Hid. eapply add_represents; [by eapply reads_canonical| |done|exact Hadd].
    rewrite Hid. destruct (idx !! x.1) as [doc'|] eqn:Hd; [|done].
    apply Hh in Hd as (r & Hin & _). destruct Hfresh. apply list_elem_of_fmap. by exists (x.1, r).
  - intros d doc'. rewrite lookup_insert_Some. destruct x as [d0 r0]. simpl in *. split.
    + intros [[<- <-]|[Hne Hd]].
      * exists r0. split; [apply elem_of_app; right; left|done].
      * apply Hh in Hd as (r & Hin & Hrd). exists r. split; [|done]. apply elem_of_app. by left.
    + intros (r & [Hin|[= -> ->]%list_elem_of_singleton]%elem_of_app & Hrd).
      * right. split; [|apply Hh; by exists r]. intros ->. destruct Hfresh.
        apply list_elem_of_fmap. by exists (d, r).
      * left. split; [done|]. by eapply reads_fun.
Qed.

Definition readable g : Prop := ∀ d r, documents g !! d = Some r → ∃ doc, reads g (d, r) doc.

Lemma desired_page_reads g after n :
  readable g →
  ∃ docs, desired_catalog_page g after n = Ok docs
    ∧ Forall2 (reads g) (limit n (documents_after g after)) docs.
Proof.
  intros Hread. apply page_reads. intros [d r] Hx. by apply documents_after_elem, Hread in Hx.
Qed.

(** The cursor after a page is the identifier of its last row. *)
Lemma page_cursor g page docs x :
  Forall2 (reads g) page docs → last page = Some x →
  (λ d, ci_document_id (cd_identity d)) <$> last docs = Some x.1.
Proof.
  intros Hf [pre ->]%last_Some. apply Forall2_app_inv_l in Hf as (d1 & d2 & _ & H2 & ->).
  apply Forall2_cons_inv_l in H2 as (y & d3 & Hy & H3 & ->).
  apply Forall2_nil_inv_l in H3 as ->. rewrite last_snoc. simpl.
  f_equal. by destruct (reads_identity _ _ _ Hy).
Qed.

Lemma rebuild_pages_holds g n fuel after w w' idx done :
  readable g → (0 < n)%Z → documents_after g None = done ++ documents_after g after →
  represents (pending w) idx → holds g done idx →
  rebuild_pages fuel n g after w = Ok w' →
  ∃ idx', represents (pending w') idx' ∧ holds g (documents_after g None) idx'.
Proof.
  intros Hread Hn. revert after w idx done. induction fuel as [|fuel IH]; [done|].
  intros after w idx done Hdone Hrep Hh Hrun. simpl in Hrun.
  destruct (desired_page_reads g after n Hread) as (docs & Hpage & Hf). rewrite Hpage in Hrun.
  pose proof (Forall2_length _ _ _ Hf) as Hlen.
  assert (NoDup (documents_after g None).*1) as Hnd by apply rows_NoDup_keys.
  assert (NoDup (done ++ limit n (documents_after g after)).*1) as Hndp.
  { rewrite Hdone, <-(take_drop (Z.to_nat n) (documents_after g after)), app_assoc, fmap_app in Hnd.
    by apply NoDup_app in Hnd as [? _]. }
  unfold mbind, result_bind in Hrun. simpl in Hrun. destruct docs as [|doc docs].
  { injection Hrun as <-. exists idx. split; [done|]. rewrite Hdone. simpl in Hlen.
    destruct (documents_after g after) as [|x l]; [by rewrite app_nil_r|].
    unfold limit in Hlen. destruct (Z.to_nat n) eqn:?; [lia|done]. }
  set (ds := doc :: docs) in *. destruct (add_all ds w) as [w1|e] eqn:Hadd; [|done].
  cbn [map_err] in Hrun.
  destruct (add_all_holds g _ done ds w w1 idx Hf Hndp Hadd Hrep Hh) as (idx1 & Hrep1 & Hh1).
  destruct (Z.of_nat (length ds) <? n)%Z eqn:Hshort.
  - injection Hrun as <-. apply Z.ltb_lt in Hshort. rewrite <-Hlen in Hshort.
    rewrite limit_short in Hh1 by done. exists idx1. by rewrite Hdone.
  - destruct (last (limit n (documents_after g after))) as [x|] eqn:Hlast.
    2:{ apply last_None in Hlast. rewrite Hlast in Hlen. done. }
    rewrite (page_cursor g _ ds x Hf Hlast) in Hrun. eapply (IH (Some x.1) w1 idx1); [|exact Hrep1|exact Hh1|exact Hrun].
    rewrite Hdone, (documents_after_split g after n x Hlast) at 1. by rewrite app_assoc.
Qed.
End pages.

(** ** The worker's invariant *)

Section worker.
Context `{TV : Tantivy} `{T : TextEnv} `{!StoreLaws E} `{!TextLaws T} `{TL : !TantivyLaws}.
Implicit Types (g : db) (idx : index) (w : world).

(** The active generation, where it opens, and the unread outbox give the desired catalog. *)
Definition catalog_tracks w : Prop :=
  ∀ row i, consumers (w_graph w) !! consumer_id = Some row →
    catalog_open (w_generations w !! k_index_generation row) = Ok i →
    ∃ idx, represents (live i) idx ∧ tracks (w_graph w) (k_last_sequence row) idx.

(** The worker only writes its own checkpoint. *)
Definition only_checkpoint g g' : Prop :=
  g' = set_consumers (consumers g') g ∧ delete consumer_id (consumers g') = delete consumer_id (consumers g).

Definition worker_inv g0 w : Prop :=
  store_wf (w_graph w) ∧ only_checkpoint g0 (w_graph w) ∧ catalog_tracks w.

Definition active_row w (row : consumer_row) : Prop :=
  consumers (w_graph w) !! consumer_id = Some row.

Global Instance only_checkpoint_preorder : PreOrder only_checkpoint.
Proof.
  split; [intros []; by split|]. intros g1 g2 g3 [H1 D1] [H2 D2]. split; [|congruence].
  rewrite H2 at 1. rewrite H1. by destruct g1.
Qed.

Lemma acknowledge_Ok c last generation g u g' :
  acknowledge_projection c last generation g = Ok (u, g') →
  g' = set_consumers (<[c := ConsumerRow last generation]> (consumers g)) g
  ∧ (0 ≤ last → 0 ≤ generation → in_u64 last ∧ in_u64 generation)%Z.
Proof.
  intros Hrun. unfold acknowledge_projection in Hrun. ginv.
  repeat match goal with
  | H : i64_try_from _ = Some _ |- _ => apply i64_try_from_Some in H as [-> ?]
  end. split; [done|]. unfold in_i64, in_u64, i64_max, u64_max in *. lia.
Qed.

Lemma acknowledge_only_checkpoint last generation g u g' :
  acknowledge_projection consumer_id last generation g = Ok (u, g') → only_checkpoint g g'.
Proof.
  intros [-> _]%acknowledge_Ok. split; [done|]. simpl. by rewrite delete_insert_eq.
Qed.

Lemma only_checkpoint_tracks g g' pos idx : only_checkpoint g g' → tracks g pos idx → tracks g' pos idx.
Proof.
  intros [-> _] Ht d. simpl. rewrite (outbox_after_ext g) by done. apply Ht.
Qed.

(** *** Directories *)

Lemma open_put_index generation i i' w :
  catalog_open (w_generations w !! generation) = Ok i →
  catalog_open (w_generations (put_index generation i' w) !! generation) = Ok i'.
Proof.
  simpl. rewrite lookup_alter_eq. unfold catalog_open.
  destruct (w_generations w !! generation) as [[marker idx]|]; [|done]. simpl.
  destruct marker as [m|]; [|done]. simpl. by destruct (decide (m = CATALOG_SCHEMA_ID)).
Qed.

(** Changing a directory that is not the active one. *)
Lemma catalog_tracks_other generation w dirs :
  (∀ row, active_row w row → k_index_generation row ≠ generation) →
  (∀ n, n ≠ generation → dirs !! n = w_generations w !! n) →
  catalog_tracks w → catalog_tracks (MkWorld (w_graph w) dirs).
Proof. intros Hne Hsame Hw row i Hrow. simpl. rewrite Hsame by (by apply Hne). by apply Hw. Qed.

(** Replacing the index of the active one. *)
Lemma catalog_tracks_put row i0 i idx w :
  active_row w row → catalog_open (w_generations w !! k_index_generation row) = Ok i0 →
  represents (live i) idx → tracks (w_graph w) (k_last_sequence row) idx →
  catalog_tracks (put_index (k_index_generation row) i w).
Proof.
  intros Hrow Hopen Hr Ht row' i' Hrow' Hopen'. simpl in Hrow'. unfold active_row in Hrow.
  rewrite Hrow in Hrow'. injection Hrow' as <-. rewrite (open_put_index _ i0) in Hopen' by done.
  injection Hopen' as <-. by exists idx.
Qed.

Lemma apply_all_represents ms writer writer' idx :
  Forall (λ m, canonical_mutation (sm_mutation m)) ms → represents (pending writer) idx →
  apply_all ms writer = Ok writer' →
  represents (pending writer') (apply_mutation_batch (MkMutationBatch ms) idx).
Proof.
  intros Hms. revert writer idx. induction Hms as [|m ms Hm _ IH]; intros writer idx Hr.
  { by intros [= <-]. }
  intros (w1 & H1 & H2)%result_bind_Ok. unfold apply_mutation_batch. simpl.
  eapply IH; [|exact H2]. by eapply writer_apply_represents.
Qed.

(** *** One batch *)

Lemma W_bind_inv {A B} (m : W A) (f : A → W B) w r w' :
  (m ≫= f) w = (r, w') →
  (∃ e, m w = (Err e, w') ∧ r = Err e) ∨ (∃ a w1, m w = (Ok a, w1) ∧ f a w1 = (r, w')).
Proof.
  unfold mbind, W_bind. destruct (m w) as [[a|e] w1]; intros H; simplify_eq; [right|left]; eauto.
Qed.

Lemma w_lift_inv {A} (x : result ProjectionWorkerError A) w r w' :
  w_lift x w = (r, w') → w' = w ∧ x = r.
Proof. by intros [= -> ->]. Qed.

(** Committing and merging: another generation's index never changes, and the graph neither. *)
Lemma commit_and_wait_spec generation i0 writer w r w' :
  catalog_open (w_generations w !! generation) = Ok i0 →
  commit_and_wait generation writer w = (r, w') →
  w_graph w' = w_graph w ∧ (∀ n, n ≠ generation → w_generations w' !! n = w_generations w !! n) ∧
  ((w' = w ∧ ∀ u, r ≠ Ok u) ∨
   ∃ i, catalog_open (w_generations w' !! generation) = Ok i ∧ live i ≡ₚ pending writer).
Proof.
  unfold commit_and_wait, commit_writer.
  intros Hopen [(e & Hc & ->)|(i & w1 & Hc & Hm)]%W_bind_inv;
    destruct (writer_commit writer) as [i'|] eqn:Hcommit; simplify_eq.
  { split_and!; [done|done|left]. by split. }
  apply commit_live in Hcommit. pose proof (open_put_index _ _ i _ Hopen) as Hopen1.
  unfold wait_merging_threads in Hm. pose proof (merge_live i) as Hmerge.
  destruct (wait_merging i) as [i2 o]. simpl in Hmerge.
  assert (w' = put_index generation i2 (put_index generation i w)) as -> by (by destruct o; simplify_eq).
  split_and!; [done| |right].
  - intros n Hn. simpl. by rewrite !lookup_alter_ne.
  - exists i2. split; [by eapply open_put_index|by rewrite Hmerge].
Qed.

(** In the active generation the index holds the batch whether or not the rest succeeds. *)
Lemma commit_merge_tracks row i0 writer idx w r w' :
  active_row w row → catalog_open (w_generations w !! k_index_generation row) = Ok i0 →
  represents (pending writer) idx → tracks (w_graph w) (k_last_sequence row) idx → catalog_tracks w →
  commit_and_wait (k_index_generation row) writer w = (r, w') →
  w_graph w' = w_graph w ∧ catalog_tracks w' ∧
  (∀ u, r = Ok u → ∃ i, catalog_open (w_generations w' !! k_index_generation row) = Ok i
     ∧ represents (live i) idx).
Proof.
  intros Hrow Hopen Hr Ht Hok Hrun.
  destruct (commit_and_wait_spec _ _ _ _ _ _ Hopen Hrun) as (Hg & _ & [[-> Hno]|(i & Hi & Hlive)]).
  { split_and!; [done|done|]. intros u Hu. by destruct (Hno u). }
  rewrite <-Hlive in Hr. split_and!; [done| |by exists i].
  intros row' i' Hrow' Hopen'. rewrite Hg in *. unfold active_row in Hrow. simplify_eq.
  rewrite Hi in Hopen'. injection Hopen' as <-. by exists idx.
Qed.

(** The last sequence of a page is a row of the outbox. *)
Lemma page_last_in_outbox g pos lim ms q :
  sm_sequence <$> ms = (limit lim (outbox_after g pos)).*1 →
  last_sequence (MkMutationBatch ms) = Some q → is_Some (outbox g !! q).
Proof.
  intros Hseq Hq. unfold last_sequence in Hq. simpl in Hq. rewrite <-fmap_last, Hseq, fmap_last in Hq.
  destruct (last (limit lim (outbox_after g pos))) as [[s r]|] eqn:Hl; [|done]. simpl in Hq.
  injection Hq as <-. apply last_Some in Hl as [pre Hpre].
  assert ((s, r) ∈ limit lim (outbox_after g pos)) as Hin
    by (rewrite Hpre; apply elem_of_app; right; left).
  apply elem_of_limit, elem_of_outbox_after in Hin as [Hin _]. by exists r.
Qed.

Lemma run_batch_inv o g0 w row lim batch r w' :
  worker_inv g0 w → active_row w row →
  read_outbox (w_graph w) (Some (k_last_sequence row)) lim = Ok batch → (0 < lim)%Z →
  run_batch o (k_index_generation row) batch w = (r, w') →
  worker_inv g0 w' ∧ ∀ u, r = Ok u →
    ∃ row' i, active_row w' row' ∧ k_index_generation row' = k_index_generation row
      ∧ catalog_open (w_generations w' !! k_index_generation row) = Ok i
      ∧ length (outbox_after (w_graph w') (k_last_sequence row'))
        < length (outbox_after (w_graph w) (k_last_sequence row))
      ∧ is_Some (outbox (w_graph w') !! k_last_sequence row').
Proof.
  intros (Hwf & Hoc & Hok) Hrow Hread Hlim Hrun. unfold run_batch in Hrun.
  assert (∀ x : result ProjectionWorkerError unit, (∀ u, x ≠ Ok u) →
    worker_inv g0 w ∧ ∀ u, x = Ok u → ∃ row' i, active_row w row'
      ∧ k_index_generation row' = k_index_generation row
      ∧ catalog_open (w_generations w !! k_index_generation row) = Ok i
      ∧ length (outbox_after (w_graph w) (k_last_sequence row'))
        < length (outbox_after (w_graph w) (k_last_sequence row))
      ∧ is_Some (outbox (w_graph w) !! k_last_sequence row')) as Hstay.
  { intros x Hx. split; [done|]. intros u Hu. by destruct (Hx u). }
  apply W_bind_inv in Hrun as [(e & [-> _]%w_lift_inv & ->)|(u & w1 & [-> _]%w_lift_inv & Hrun)];
    [by apply Hstay|].
  apply W_bind_inv in Hrun as [(e & [= _ <-] & ->)|(i & w1 & [= Hopen <-] & Hrun)]; [by apply Hstay|].
  apply map_err_Ok in Hopen.
  apply W_bind_inv in Hrun as [(e & [-> _]%w_lift_inv & ->)|(wr & w1 & [-> Hw]%w_lift_inv & Hrun)];
    [by apply Hstay|]. apply map_err_Ok, map_err_Ok in Hw.
  apply W_bind_inv in Hrun as [(e & [-> _]%w_lift_inv & ->)|(wr' & w1 & [-> Hw']%w_lift_inv & Hrun)];
    [by apply Hstay|]. apply map_err_Ok in Hw'.
  destruct (Hok row i Hrow Hopen) as (idx & Hrep & Htr).
  pose proof (proj1 Hwf) as Hgwf. destruct (gw_consumer _ Hgwf _ _ Hrow) as [Hlast Hgen].
  destruct (round_progress (w_graph w) consumer_id row idx lim (k_index_generation row) Hwf Hrow Htr
    Hlim Hgen) as (b & Hb & Hcan & Hres). rewrite Hread in Hb. injection Hb as <-.
  destruct (read_outbox_ok (w_graph w) (k_last_sequence row) lim Hgwf) as (ms & Hms & Hseq & _ & Hrep').
  { pose proof (gw_high_water _ Hgwf). lia. }
  rewrite Hread in Hms. injection Hms as ->. simpl in *.
  rewrite <-(writer_pending _ _ _ Hw) in Hrep.
  pose proof (apply_all_represents _ _ _ _ Hcan Hrep Hw') as Hrep1.
  assert (tracks (w_graph w) (k_last_sequence row) (apply_mutation_batch (MkMutationBatch ms) idx)) as Htr1.
  { rewrite Hrep'. apply tracks_absorbs; [|done]. eexists (drop (Z.to_nat lim) _). unfold limit. by rewrite take_drop. }
  apply W_bind_inv in Hrun as [(e & Hcm & ->)|([] & w1 & Hcm & Hrun)];
    destruct (commit_merge_tracks row i wr' _ w _ _ Hrow Hopen Hrep1 Htr1 Hok Hcm) as (Hg & Hok1 & Hi).
  { split; [|by intros]. unfold worker_inv. by rewrite Hg. }
  assert (worker_inv g0 w1) as Hinv1 by (unfold worker_inv; by rewrite Hg).
  apply W_bind_inv in Hrun as [(e & [-> _]%w_lift_inv & ->)|(q & w2 & [-> Hq]%w_lift_inv & Hrun)];
    [by split|]. apply ok_or_Ok in Hq. rewrite Hq in Hres.
  destruct Hres as (_ & g2 & Hack & (row2 & Hrow2 & Ht2) & Hless & Hwf2).
  unfold graph_write in Hrun. rewrite Hg, Hack in Hrun. injection Hrun as <- <-.
  pose proof (acknowledge_only_checkpoint _ _ _ _ _ Hack) as Hoc2.
  destruct (acknowledge_Ok _ _ _ _ _ _ Hack) as [Hg2 _].
  assert (row2 = ConsumerRow q (k_index_generation row)) as ->.
  { rewrite Hg2 in Hrow2. simpl in Hrow2. rewrite lookup_insert_eq in Hrow2. congruence. }
  destruct (Hi tt eq_refl) as (i2 & Hopen2 & Hrep2). split; [split_and!|].
  - done.
  - by etrans.
  - intros row' i' Hrow' Hopen'. simpl in *. rewrite Hrow2 in Hrow'. injection Hrow' as <-.
    simpl in Hopen'. rewrite Hopen2 in Hopen'. injection Hopen' as <-. by eexists.
  - intros _ _. exists (ConsumerRow q (k_index_generation row)), i2. split_and!; try done.
    rewrite Hg2. eapply page_last_in_outbox; [exact Hseq|exact Hq].
Qed.

(** *** Rebuild *)

Lemma next_unused_Some fuel dirs m n :
  (m ≤ u64_max)%Z → next_unused fuel dirs m = Some n →
  dirs !! n = None ∧ (m ≤ n ≤ u64_max)%Z ∧ (n < m + Z.of_nat fuel)%Z.
Proof.
  revert m. induction fuel as [|fuel IH]; intros m Hm; simpl; [done|].
  destruct (dirs !! m) as [d|] eqn:Hd; [|intros [= <-]; split_and!; [done|lia..]].
  intros Hn. unfold saturating_add in Hn. destruct (IH (Z.min u64_max (m + 1))) as (? & ? & ?);
    [lia|done|]. split_and!; [done|lia..].
Qed.

Lemma next_unused_None fuel dirs m k :
  (m + Z.of_nat fuel ≤ u64_max)%Z → next_unused fuel dirs m = None →
  (m ≤ k < m + Z.of_nat fuel)%Z → is_Some (dirs !! k).
Proof.
  revert m. induction fuel as [|fuel IH]; intros m Hm; simpl; [lia|].
  destruct (dirs !! m) as [d|] eqn:Hd; [|done]. unfold saturating_add.
  rewrite Z.min_r by lia. intros Hn Hk. destruct (decide (k = m)) as [->|]; [by eexists|].
  apply (IH (m + 1)%Z); [lia|done|lia].
Qed.

(** The search for an unused generation ends. *)
Lemma next_unused_generation_total dirs m :
  (m + Z.of_nat (size dirs) < u64_max)%Z → ∃ n, next_unused_generation dirs m = Some n.
Proof.
  intros Hm. unfold next_unused_generation.
  destruct (next_unused (S (size dirs)) dirs m) as [n|] eqn:Hn; [by exists n|exfalso].
  assert (∀ k, (m ≤ k < m + Z.of_nat (S (size dirs)))%Z → k ∈ dom dirs) as Hin.
  { intros k Hk. apply elem_of_dom. eapply next_unused_None; [|exact Hn|exact Hk]. lia. }
  assert (list_to_set (seqZ m (Z.of_nat (S (size dirs)))) ⊆ dom dirs) as Hsub.
  { intros k. rewrite elem_of_list_to_set, elem_of_seqZ. apply Hin. }
  apply subseteq_size in Hsub. rewrite size_list_to_set, length_seqZ, size_dom in Hsub
    by apply NoDup_seqZ. lia.
Qed.

Lemma outbox_after_high_water g : graph_wf g → outbox_after g (high_water g) = [].
Proof.
  intros Hwf. destruct (outbox_after g (high_water g)) as [|[s r] l] eqn:Hl; [done|].
  assert ((s, r) ∈ outbox_after g (high_water g)) as [Hs Hlt]%elem_of_outbox_after
    by (rewrite Hl; left).
  apply (gw_outbox _ Hwf) in Hs. lia.
Qed.

Lemma holds_tracks g idx :
  graph_wf g → readable g → holds g (documents_after g None) idx → tracks g (high_water g) idx.
Proof.
  intros Hwf Hread Hh d. rewrite outbox_after_high_water by done. unfold replay. simpl.
  destruct (documents g !! d) as [r|] eqn:Hd; simpl.
  - destruct (Hread _ _ Hd) as [doc Hr].
    assert (idx !! d = Some doc) as ->.
    { apply Hh. exists r. by rewrite documents_after_all. }
    apply Hr.
  - destruct (idx !! d) as [doc|] eqn:Hi; [|done]. apply Hh in Hi as (r & Hin & _).
    apply documents_after_all in Hin. congruence.
Qed.

Lemma create_generation_inv generation w r w' :
  w_generations w !! generation = None → create_generation generation w = (r, w') →
  w_graph w' = w_graph w ∧ (∀ n, n ≠ generation → w_generations w' !! n = w_generations w !! n) ∧
  (∀ i, r = Ok i → catalog_open (w_generations w' !! generation) = Ok i ∧ live i = []).
Proof.
  intros Hno. unfold create_generation. rewrite Hno. simpl. intros [= <- <-]. split; [done|]. split.
  - intros n Hn. simpl. by rewrite lookup_partial_alter_ne.
  - intros i Hi%map_err_Ok%map_err_Ok. simpl. rewrite lookup_partial_alter_eq. split.
    + unfold catalog_open. simpl. by rewrite Hi.
    + by apply create_live.
Qed.

Lemma rebuild_inv o g0 w minimum r w' :
  worker_inv g0 w → readable (w_graph w) → (0 < po_rebuild_page_size o)%Z →
  (0 ≤ minimum ≤ u64_max)%Z → (∀ row, active_row w row → k_index_generation row < minimum)%Z →
  rebuild o minimum w = (r, w') →
  worker_inv g0 w' ∧ ∀ kind n, r = Ok (kind, n) →
    ∃ row i, active_row w' row ∧ k_index_generation row = n
      ∧ catalog_open (w_generations w' !! n) = Ok i
      ∧ k_last_sequence row = high_water (w_graph w').
Proof.
  intros Hinv Hread Hpage Hmin Hrows Hrun. pose proof Hinv as (Hwf & Hoc & Hok).
  unfold rebuild in Hrun.
  apply W_bind_inv in Hrun as [(e & [=] & _)|(w0 & w1 & [= <- <-] & Hrun)].
  apply W_bind_inv in Hrun as [(e & [-> _]%w_lift_inv & ->)|(n & w1 & [-> Hn]%w_lift_inv & Hrun)];
    [by split|]. apply ok_or_Ok, next_unused_Some in Hn as (Hnone & Hn & _); [|lia].
  assert (∀ row, active_row w row → k_index_generation row ≠ n) as Hne.
  { intros row Hrow. apply Hrows in Hrow. lia. }
  assert (∀ w2, w_graph w2 = w_graph w →
    (∀ k, k ≠ n → w_generations w2 !! k = w_generations w !! k) → worker_inv g0 w2) as Hother.
  { intros [g2 dirs] Hg Hd. simpl in Hg. subst g2. split_and!; [done|done|].
    by eapply catalog_tracks_other. }
  apply W_bind_inv in Hrun as [(e & Hc & ->)|(i & w1 & Hc & Hrun)];
    apply create_generation_inv in Hc as (Hg1 & Hd1 & Hi1);
    [split; [by apply Hother|done]|done| |done].
  destruct (Hi1 i eq_refl) as [Hopen1 Hlive1].
  apply W_bind_inv in Hrun as [(e & [-> _]%w_lift_inv & ->)|(wr & w2 & [-> Hw]%w_lift_inv & Hrun)];
    [split; [by apply Hother|done]|]. apply map_err_Ok, map_err_Ok in Hw.
  apply W_bind_inv in Hrun as [(e & [=] & _)|(w0 & w2 & [= <- <-] & Hrun)].
  apply W_bind_inv in Hrun as [(e & [-> _]%w_lift_inv & ->)|(wr' & w2 & [-> Hw']%w_lift_inv & Hrun)];
    [split; [by apply Hother|done]|]. rewrite Hg1 in Hw'.
  destruct (rebuild_pages_holds (w_graph w) (po_rebuild_page_size o) (S (size (documents (w_graph w))))
    None wr wr' ∅ []) as (idx & Hrep & Hh); try done.
  { rewrite (writer_pending _ _ _ Hw), Hlive1. apply represents_empty. }
  { intros d doc. rewrite lookup_empty. split; [done|]. by intros (? & ?%not_elem_of_nil & _). }
  apply W_bind_inv in Hrun as [(e & Hcm & ->)|([] & w2 & Hcm & Hrun)];
    destruct (commit_and_wait_spec _ _ _ _ _ _ Hopen1 Hcm) as (Hg2 & Hd2 & Hcases);
    (assert (worker_inv g0 _) as Hinv2 by (apply Hother;
       [by rewrite Hg2|intros k Hk; by rewrite Hd2, Hd1])); [by split|].
  destruct Hcases as [[_ Hno]|(i2 & Hopen2 & Hlive2)]; [by destruct (Hno tt)|].
  assert (w_graph w2 = w_graph w) as Hg by congruence. clear Hg1 Hg2 Hcm.
  rewrite <-Hlive2 in Hrep. pose proof (proj1 Hwf) as Hgwf.
  assert (tracks (w_graph w) (high_water (w_graph w)) idx) as Htr by (by apply holds_tracks).
  apply W_bind_inv in Hrun as [(e & [= _ <-] & ->)|(q & w3 & [= Hq <-] & Hrun)]; [by split|].
  rewrite Hg, latest_outbox_sequence_eq in Hq by done. injection Hq as <-.
  pose proof (gw_high_water _ Hgwf) as Hhw.
  apply W_bind_inv in Hrun as [(e & Hw3 & ->)|([] & w3 & Hw3 & Hrun)]; unfold graph_write in Hw3;
    rewrite Hg in Hw3;
    destruct (acknowledge_projection consumer_id (high_water (w_graph w)) n (w_graph w)) as [[[] g3]|]
      eqn:Hack; simplify_eq; [by split|].
  injection Hrun as <- <-. pose proof (acknowledge_only_checkpoint _ _ _ _ _ Hack) as Hoc3.
  pose proof (acknowledge_Ok _ _ _ _ _ _ Hack) as [Hg3 _].
  assert (active_row (MkWorld g3 (w_generations w2)) (ConsumerRow (high_water (w_graph w)) n)) as Hrow3.
  { unfold active_row. rewrite Hg3. apply lookup_insert_eq. }
  split; [split_and!|].
  - eapply acknowledge_projection_wf; [| |exact Hwf|exact Hack]; lia.
  - by etrans.
  - intros row i' Hrow Hopen'. unfold active_row in Hrow3. simpl in *. rewrite Hrow3 in Hrow.
    injection Hrow as <-. simpl in *. rewrite Hopen2 in Hopen'. injection Hopen' as <-.
    exists idx. split; [done|]. by eapply only_checkpoint_tracks.
  - intros kind n' [= <- <-]. exists (ConsumerRow (high_water (w_graph w)) n), i2.
    split_and!; [done|done|done|]. simpl. by rewrite Hg3.
Qed.

(** *** The run *)

Lemma projector_checkpoint_ok g c :
  graph_wf g →
  projector_checkpoint g c =
  Ok ((λ row, MkProjectorCheckpoint c (k_last_sequence row) (k_index_generation row)) <$> consumers g !! c).
Proof.
  intros Hwf. unfold projector_checkpoint. destruct (consumers g !! c) as [row|] eqn:Hc; [|done].
  destruct (gw_consumer _ Hwf _ _ Hc) as [? ?]. pose proof (gw_high_water _ Hwf).
  unfold u64_try_from. rewrite !decide_True by (unfold in_u64, u64_max, i64_max in *; lia). done.
Qed.

Lemma active_checkpoint_ok w row missing :
  graph_wf (w_graph w) → active_row w row →
  active_checkpoint missing w =
  (Ok (MkProjectorCheckpoint consumer_id (k_last_sequence row) (k_index_generation row)), w).
Proof.
  intros Hwf Hrow. unfold active_checkpoint, graph_read, mbind, W_bind. simpl.
  rewrite projector_checkpoint_ok by done. unfold active_row in Hrow. by rewrite Hrow.
Qed.

(** The generation named by the checkpoint opens. *)
Definition active_opens w : Prop :=
  ∃ row i, active_row w row ∧ catalog_open (w_generations w !! k_index_generation row) = Ok i.

Lemma recover_inv o g0 w r w' :
  worker_inv g0 w → active_opens w ∨ readable (w_graph w) → (0 < po_rebuild_page_size o)%Z →
  recover o w = (r, w') →
  worker_inv g0 w' ∧ ∀ kind n, r = Ok (kind, n) →
    ∃ row i, active_row w' row ∧ k_index_generation row = n
      ∧ catalog_open (w_generations w' !! n) = Ok i
      ∧ (w' = w ∨ k_last_sequence row = high_water (w_graph w')).
Proof.
  intros Hinv Hcan Hpage Hrun. pose proof Hinv as ([Hwf _] & _ & _). unfold recover in Hrun.
  apply W_bind_inv in Hrun as [(e & Hc & ->)|(c & w1 & Hc & Hrun)]; unfold graph_read in Hc;
    rewrite projector_checkpoint_ok in Hc by done; simpl in Hc; [done|]. injection Hc as <- <-.
  assert (∀ minimum, (0 ≤ minimum ≤ u64_max)%Z → readable (w_graph w) →
    (∀ row, active_row w row → k_index_generation row < minimum)%Z → rebuild o minimum w = (r, w') →
    worker_inv g0 w' ∧ ∀ kind n, r = Ok (kind, n) → ∃ row i, active_row w' row
      ∧ k_index_generation row = n ∧ catalog_open (w_generations w' !! n) = Ok i
      ∧ (w' = w ∨ k_last_sequence row = high_water (w_graph w'))) as Hrebuild.
  { intros minimum Hm Hread Hrows Hr.
    destruct (rebuild_inv _ _ _ _ _ _ Hinv Hread Hpage Hm Hrows Hr) as [Hinv' Hres]. split; [done|].
    intros kind n Hkn. destruct (Hres kind n Hkn) as (row & i & ? & ? & ? & ?).
    exists row, i. split_and!; auto. }
  destruct (consumers (w_graph w) !! consumer_id) as [row|] eqn:Hrow; simpl in Hrun.
  - pose proof (gw_consumer _ Hwf _ _ Hrow) as [_ Hgen].
    apply W_bind_inv in Hrun as [(e & [=] & _)|(w0 & w1 & [= <- <-] & Hrun)].
    destruct (catalog_open (w_generations w !! k_index_generation row)) as [i|e] eqn:Hopen.
    + injection Hrun as <- <-. split; [done|]. intros kind n [= <- <-]. exists row, i.
      split_and!; [done|done|done|by left].
    + destruct Hcan as [(row' & i & Hrow' & Hi)|Hread].
      { unfold active_row in Hrow'. rewrite Hrow in Hrow'. injection Hrow' as <-. congruence. }
      unfold saturating_add in Hrun. rewrite Z.min_r in Hrun by (unfold u64_max, i64_max in *; lia).
      apply (Hrebuild (k_index_generation row + 1)%Z); [unfold u64_max, i64_max in *; lia|done| |done].
      intros row' Hrow'. unfold active_row in Hrow'. rewrite Hrow in Hrow'. injection Hrow' as <-. lia.
  - destruct Hcan as [(row & i & Hr & _)|Hread]; [unfold active_row in Hr; congruence|].
    apply (Hrebuild 1%Z); [unfold u64_max; lia|done| |done].
    intros row Hr. unfold active_row in Hr. congruence.
Qed.

Context (elapsed : Z → Z).

Lemma run_loop_inv o g0 fuel batches applied w row i r w' :
  worker_inv g0 w → active_row w row →
  catalog_open (w_generations w !! k_index_generation row) = Ok i →
  run_loop elapsed o (k_index_generation row) fuel batches applied w = (r, w') →
  worker_inv g0 w' ∧ ∀ x, r = Ok x →
    ∃ row' i', active_row w' row' ∧ k_index_generation row' = k_index_generation row
      ∧ catalog_open (w_generations w' !! k_index_generation row) = Ok i'.
Proof.
  revert batches applied w row i. induction fuel as [|fuel IH]; intros batches applied w row i Hinv Hrow Hopen.
  { intros [= <- <-]. split; [done|]. eauto. }
  simpl. destruct (po_maximum_run_time o <=? elapsed batches)%Z; [intros [= <- <-]; split; [done|]; eauto|].
  pose proof Hinv as (Hwf & _ & _). pose proof (proj1 Hwf) as Hgwf.
  intros Hrun. apply W_bind_inv in Hrun as [(e & Hc & ->)|(c & w1 & Hc & Hrun)];
    rewrite (active_checkpoint_ok _ row) in Hc by done; [done|]. injection Hc as <- <-. simpl in Hrun.
  apply W_bind_inv in Hrun as [(e & [= _ <-] & ->)|(b & w1 & [= Hb <-] & Hrun)]; [by split|].
  apply map_err_Ok in Hb. destruct (mb_mutations b) as [|m ms] eqn:Hms;
    [injection Hrun as <- <-; split; [done|]; eauto|].
  assert (0 < po_maximum_batch_mutations o)%Z as Hlim.
  { destruct (decide (0 < po_maximum_batch_mutations o)%Z); [done|exfalso].
    destruct (read_outbox_ok (w_graph w) (k_last_sequence row) (po_maximum_batch_mutations o) Hgwf)
      as (ms' & Hr & Hs & _).
    { destruct (gw_consumer _ Hgwf _ _ Hrow). pose proof (gw_high_water _ Hgwf). lia. }
    rewrite Hb in Hr. injection Hr as ->. simpl in Hms. subst ms'. unfold limit in Hs.
    by replace (Z.to_nat (po_maximum_batch_mutations o)) with 0 in Hs by lia. }
  apply W_bind_inv in Hrun as [(e & Hbatch & ->)|(u & w1 & Hbatch & Hrun)];
    destruct (run_batch_inv _ _ _ _ _ _ _ _ Hinv Hrow Hb Hlim Hbatch) as [Hinv1 Hres]; [by split|].
  destruct (Hres u eq_refl) as (row1 & i1 & Hrow1 & Hgen1 & Hopen1 & _). rewrite <-Hgen1 in *.
  by eapply IH.
Qed.
End worker.
