(* ===== verification/ProjectorRun.v ===== *)
(** Runs of the projection worker: no outcome of a run loses a catalog change, and a run over an
    engine that does not fail, with enough budget, converges. *)
From stdpp Require Import base strings numbers gmap list sorting.
From S2P Require Import Prelude Ids Models GraphDomain GraphTables Fixtures GraphPath GraphMutate.
From S2P Require Import GraphProjection GraphStore GraphOutbox GraphRefresh GraphInvariant.
From S2P Require Import GraphPreserve GraphReach GraphSync GraphConverge.
From S2P Require Import Text Catalog CatalogSpec CatalogFixtures Projector ProjectorSpec.

Section runs.
Context `{TV : Tantivy} `{T : TextEnv} `{!StoreLaws E} `{!TextLaws T} `{TL : !TantivyLaws}.
Implicit Types (g : db) (idx : index) (w : world).

(** Engine calls that succeed. *)
Record reliable : Prop := {
  rel_create : ∃ i, index_create = Ok i;
  rel_writer i heap : ∃ wr, index_writer i heap = Ok wr;
  rel_add d wr : ∃ wr', add_document d wr = Ok wr';
  rel_commit wr : ∃ i, writer_commit wr = Ok i;
  rel_merge i : (wait_merging i).2 = None }.

(** Every desired row describes the graph. *)
Definition all_synced g : Prop := ∀ d r, documents g !! d = Some r → synced g d.

Lemma all_synced_readable g : store_wf g → all_synced g → readable g.
Proof. intros Hwf Hs d r Hd. by eapply synced_reads; [|exact Hd|eapply Hs]. Qed.

(** ** Nothing fails *)

Lemma W_bind_Ok {A B} (m : W A) (f : A → W B) w a w1 :
  m w = (Ok a, w1) → (m ≫= f) w = f a w1.
Proof. unfold mbind, W_bind. by intros ->. Qed.

Lemma w_lift_Ok {A B} (x : result ProjectionWorkerError A) a (f : A → W B) w :
  x = Ok a → (w_lift x ≫= f) w = f a w.
Proof. by intros ->. Qed.

Lemma apply_all_total ms wr :
  reliable → Forall (λ m, canonical_mutation (sm_mutation m)) ms → ∃ wr', apply_all ms wr = Ok wr'.
Proof.
  intros Hrel Hms. revert wr. induction Hms as [|m ms Hm _ IH]; intros wr; [by exists wr|].
  assert (∃ wr1, writer_apply (sm_mutation m) wr = Ok wr1) as [wr1 H1].
  { destruct (sm_mutation m) as [doc|id v]; simpl; [|by eexists]. destruct Hm as [Hid _].
    assert (check_identity doc = Ok tt) as -> by (by apply check_identity_Ok).
    destruct (rel_add Hrel (index_document doc) (writer_delete (ci_document_id (cd_identity doc)) wr))
      as [wr1 Hadd]. exists wr1. unfold mbind, result_bind. by rewrite Hadd. }
  destruct (IH wr1) as [wr' H2]. exists wr'. simpl. rewrite H1. simpl. exact H2.
Qed.

Lemma add_all_total g l docs wr :
  reliable → Forall2 (reads g) l docs → ∃ wr', add_all docs wr = Ok wr'.
Proof.
  intros Hrel Hf. revert wr. induction Hf as [|x doc l docs Hr _ IH]; intros wr; [by exists wr|].
  destruct (rel_add Hrel (index_document doc) wr) as [wr1 Hadd].
  destruct (IH wr1) as [wr' H2]. exists wr'. simpl. unfold add_current.
  destruct (reads_identity _ _ _ Hr) as [H1 H1'].
  assert (check_identity doc = Ok tt) as -> by (apply check_identity_Ok; congruence).
  unfold mbind, result_bind. rewrite Hadd. exact H2.
Qed.

Lemma rebuild_pages_total g n fuel after wr :
  reliable → readable g → (0 < n)%Z → length (documents_after g after) < fuel →
  ∃ wr', rebuild_pages fuel n g after wr = Ok wr'.
Proof.
  intros Hrel Hread Hn. revert after wr. induction fuel as [|fuel IH]; intros after wr Hlen; [lia|].
  simpl. destruct (desired_page_reads g after n Hread) as (docs & Hpage & Hf). rewrite Hpage.
  pose proof (Forall2_length _ _ _ Hf) as Hl. unfold mbind, result_bind. simpl.
  destruct docs as [|doc docs]; [by eexists|]. set (ds := doc :: docs) in *.
  destruct (add_all_total g _ ds wr Hrel Hf) as [wr1 Hadd]. rewrite Hadd. cbn [map_err].
  destruct (Z.of_nat (length ds) <? n)%Z; [by eexists|].
  destruct (last (limit n (documents_after g after))) as [x|] eqn:Hlast.
  2:{ apply last_None in Hlast. rewrite Hlast in Hl. done. }
  rewrite (page_cursor g _ ds x Hf Hlast). apply IH.
  rewrite (documents_after_split g after n x Hlast), length_app in Hlen. simpl in Hl. lia.
Qed.

Lemma commit_and_wait_total generation wr w :
  reliable → ∃ w', commit_and_wait generation wr w = (Ok tt, w') ∧ w_graph w' = w_graph w.
Proof.
  intros Hrel. unfold commit_and_wait, mbind, W_bind, commit_writer, wait_merging_threads.
  destruct (rel_commit Hrel wr) as [i ->]. pose proof (rel_merge Hrel i) as Hm.
  destruct (wait_merging i) as [i2 o]. simpl in Hm. subst o. by eexists.
Qed.

Lemma run_batch_total o g0 w row i lim batch :
  reliable → worker_inv g0 w → active_row w row →
  catalog_open (w_generations w !! k_index_generation row) = Ok i →
  read_outbox (w_graph w) (Some (k_last_sequence row)) lim = Ok batch → (0 < lim)%Z →
  mb_mutations batch ≠ [] →
  ∃ w', run_batch o (k_index_generation row) batch w = (Ok tt, w').
Proof.
  intros Hrel (Hwf & _ & Hok) Hrow Hopen Hread Hlim Hne. pose proof (proj1 Hwf) as Hgwf.
  destruct (Hok row i Hrow Hopen) as (idx & _ & Htr).
  destruct (gw_consumer _ Hgwf _ _ Hrow) as [_ Hgen].
  destruct (round_progress (w_graph w) consumer_id row idx lim (k_index_generation row) Hwf Hrow Htr
    Hlim Hgen) as (b & Hb & Hcan & Hres). rewrite Hread in Hb. injection Hb as <-.
  destruct (last_sequence batch) as [q|] eqn:Hq.
  2:{ unfold last_sequence in Hq. destruct (last (mb_mutations batch)) eqn:Hl; [done|].
      by apply last_None in Hl. }
  destruct Hres as (Hval & g2 & Hack & _). unfold run_batch. rewrite Hval. cbn [map_err].
  rewrite (w_lift_Ok _ tt) by done. erewrite W_bind_Ok.
  2:{ unfold open_generation. rewrite Hopen. cbn [map_err]. reflexivity. }
  destruct (rel_writer Hrel i (po_writer_heap_bytes o)) as [wr Hw].
  rewrite (w_lift_Ok _ wr) by (unfold catalog_writer; by rewrite Hw).
  destruct (apply_all_total (mb_mutations batch) wr Hrel Hcan) as [wr' Hw'].
  rewrite (w_lift_Ok _ wr') by (by rewrite Hw').
  destruct (commit_and_wait_total (k_index_generation row) wr' w Hrel) as (w1 & Hcm & Hg).
  rewrite (W_bind_Ok _ _ _ _ _ Hcm), (w_lift_Ok _ q) by (by rewrite Hq).
  unfold graph_write. rewrite Hg, Hack. by eexists.
Qed.

Lemma rebuild_total o w minimum :
  reliable → store_wf (w_graph w) → readable (w_graph w) → (0 < po_rebuild_page_size o)%Z →
  (0 ≤ minimum)%Z → (minimum + Z.of_nat (size (w_generations w)) ≤ i64_max)%Z →
  ∃ n w', rebuild o minimum w = (Ok (RebuiltGeneration, n), w').
Proof.
  intros Hrel [Hwf _] Hread Hpage Hmin Hmax. unfold rebuild.
  rewrite (W_bind_Ok _ _ _ w w) by done.
  destruct (next_unused_generation_total (w_generations w) minimum) as [n Hn];
    [unfold i64_max, u64_max in *; lia|].
  rewrite (w_lift_Ok _ n) by (by rewrite Hn).
  apply next_unused_Some in Hn as (Hnone & Hn1 & Hn2); [|unfold i64_max, u64_max in *; lia].
  destruct (rel_create Hrel) as [i Hi].
  erewrite (W_bind_Ok (create_generation n)).
  2:{ unfold create_generation. rewrite Hnone. cbn [catalog_create]. rewrite Hi. reflexivity. }
  destruct (rel_writer Hrel i (po_writer_heap_bytes o)) as [wr Hw].
  rewrite (w_lift_Ok _ wr) by (unfold catalog_writer; by rewrite Hw).
  set (w1 := MkWorld _ _). rewrite (W_bind_Ok _ _ w1 w1 w1) by done.
  destruct (rebuild_pages_total (w_graph w) (po_rebuild_page_size o)
    (S (size (documents (w_graph w)))) None wr Hrel Hread Hpage) as [wr' Hw'].
  { pose proof (documents_after_size (w_graph w) None). lia. }
  rewrite (w_lift_Ok _ wr') by exact Hw'.
  destruct (commit_and_wait_total n wr' w1 Hrel) as (w2 & Hcm & Hg).
  rewrite (W_bind_Ok _ _ _ _ _ Hcm). change (w_graph w1) with (w_graph w) in Hg.
  erewrite (W_bind_Ok (graph_read _)).
  2:{ unfold graph_read. rewrite Hg, latest_outbox_sequence_eq by done. reflexivity. }
  erewrite (W_bind_Ok (graph_write _)).
  2:{ unfold graph_write. pose proof (gw_high_water _ Hwf).
      rewrite Hg, acknowledge_ok; [reflexivity|done| |lia|lia].
      intros row Hrow. by destruct (gw_consumer _ Hwf _ _ Hrow) as [[_ ?] _]. }
  by do 2 eexists.
Qed.

Definition checkpoint_generation w : Z :=
  default 0%Z (k_index_generation <$> consumers (w_graph w) !! consumer_id).

Lemma recover_total o w :
  reliable → store_wf (w_graph w) → active_opens w ∨ readable (w_graph w) →
  (0 < po_rebuild_page_size o)%Z →
  (checkpoint_generation w + Z.of_nat (size (w_generations w)) < i64_max)%Z →
  ∃ kind n w', recover o w = (Ok (kind, n), w').
Proof.
  intros Hrel Hwf Hcan Hpage Hmax. pose proof (proj1 Hwf) as Hgwf. unfold recover.
  erewrite (W_bind_Ok (graph_read _)).
  2:{ unfold graph_read. rewrite projector_checkpoint_ok by done. reflexivity. }
  unfold checkpoint_generation in Hmax. unfold active_opens, active_row in Hcan.
  destruct (consumers (w_graph w) !! consumer_id) as [row|] eqn:Hrow; simpl in *.
  - destruct (gw_consumer _ Hgwf _ _ Hrow) as [_ Hgen].
    rewrite (W_bind_Ok _ _ _ w w) by done.
    destruct (catalog_open (w_generations w !! k_index_generation row)) as [i|e] eqn:Hopen;
      [by do 3 eexists|].
    destruct Hcan as [(row' & i & [= <-] & ?)|Hread]; [congruence|].
    unfold saturating_add. rewrite Z.min_r by (unfold u64_max, i64_max in *; lia).
    destruct (rebuild_total o w (k_index_generation row + 1) Hrel Hwf Hread Hpage) as (n & w' & Hr);
      [lia|lia|]. by do 3 eexists.
  - destruct Hcan as [(row' & i & [=] & _)|Hread].
    destruct (rebuild_total o w 1 Hrel Hwf Hread Hpage) as (n & w' & Hr); [lia|lia|].
    by do 3 eexists.
Qed.

(** The outbox holds what follows a position, up to the high-water mark. *)
Definition log_reaches g (pos : Z) : Prop :=
  (pos < high_water g)%Z → is_Some (outbox g !! (pos + 1)%Z).

Lemma log_reaches_end g pos : log_reaches g pos → outbox_after g pos = [] → (high_water g ≤ pos)%Z.
Proof.
  intros Hr Hnil. destruct (decide (pos < high_water g)%Z) as [Hlt|]; [|lia].
  destruct (Hr Hlt) as [r Hin].
  assert ((pos + 1, r)%Z ∈ outbox_after g pos) as Hbad by (apply elem_of_outbox_after; split; [done|lia]).
  rewrite Hnil in Hbad. by apply not_elem_of_nil in Hbad.
Qed.

Lemma log_reaches_row g pos : graph_wf g → is_Some (outbox g !! pos) → log_reaches g pos.
Proof. intros Hwf [r Hr] Hlt. eapply (gw_outbox_gapless _ Hwf); [exact Hr|lia]. Qed.

Context (elapsed : Z → Z).

Lemma run_loop_converges o g0 fuel batches applied w row i :
  reliable → (∀ b, elapsed b < po_maximum_run_time o)%Z → (0 < po_maximum_batch_mutations o)%Z →
  worker_inv g0 w → active_row w row →
  catalog_open (w_generations w !! k_index_generation row) = Ok i →
  length (outbox_after (w_graph w) (k_last_sequence row)) ≤ fuel →
  log_reaches (w_graph w) (k_last_sequence row) →
  ∃ x w' row', run_loop elapsed o (k_index_generation row) fuel batches applied w = (Ok x, w')
    ∧ active_row w' row' ∧ outbox_after (w_graph w') (k_last_sequence row') = []
    ∧ log_reaches (w_graph w') (k_last_sequence row').
Proof.
  intros Hrel Htime Hlim. revert batches applied w row i.
  induction fuel as [|fuel IH]; intros batches applied w row i Hinv Hrow Hopen Hlen Hlog.
  { exists (batches, applied), w, row. split_and!; try done. by apply nil_length_inv, Nat.le_0_r. }
  simpl. rewrite (proj2 (Z.leb_gt _ _)) by apply Htime.
  pose proof Hinv as (Hwf & _ & _). pose proof (proj1 Hwf) as Hgwf.
  rewrite (W_bind_Ok _ _ _ _ _ (active_checkpoint_ok w row _ Hgwf Hrow)). simpl.
  destruct (gw_consumer _ Hgwf _ _ Hrow) as [Hlast _]. pose proof (gw_high_water _ Hgwf) as Hhw.
  destruct (read_outbox_ok (w_graph w) (k_last_sequence row) (po_maximum_batch_mutations o) Hgwf)
    as (ms & Hread & Hseq & _ & _); [lia|].
  erewrite (W_bind_Ok (graph_read _)).
  2:{ unfold graph_read. rewrite Hread. reflexivity. }
  simpl. destruct ms as [|m ms].
  - exists (batches, applied), w, row. split_and!; try done.
    destruct (outbox_after (w_graph w) (k_last_sequence row)); [done|]. unfold limit in Hseq.
    destruct (Z.to_nat (po_maximum_batch_mutations o)) eqn:?; [lia|done].
  - set (b := MkMutationBatch (m :: ms)) in *.
    destruct (run_batch_total o g0 w row i _ b Hrel Hinv Hrow Hopen Hread Hlim) as [w1 Hbatch]; [done|].
    rewrite (W_bind_Ok _ _ _ _ _ Hbatch).
    destruct (run_batch_inv _ _ _ _ _ _ _ _ Hinv Hrow Hread Hlim Hbatch) as [Hinv1 Hres].
    destruct (Hres tt eq_refl) as (row1 & i1 & Hrow1 & Hgen1 & Hopen1 & Hless & Hin).
    rewrite <-Hgen1 in *. eapply IH; [done|done|done|lia|]. apply log_reaches_row; [|done].
    apply Hinv1.
Qed.

(** Mutations the worker still has to read. *)
Definition unread w : nat :=
  match consumers (w_graph w) !! consumer_id with
  | Some row => length (outbox_after (w_graph w) (k_last_sequence row))
  | None => 0
  end.

Definition log_complete w : Prop :=
  ∀ row, active_row w row → log_reaches (w_graph w) (k_last_sequence row).

Lemma worker_inv_start w : store_wf (w_graph w) → catalog_tracks w → worker_inv (w_graph w) w.
Proof. intros Hwf Hok. by split_and!. Qed.

Lemma can_recover w :
  store_wf (w_graph w) → active_opens w ∨ all_synced (w_graph w) →
  active_opens w ∨ readable (w_graph w).
Proof. intros Hwf [?|Hs]; [by left|right]. by apply all_synced_readable. Qed.

(** ** The active generation stays open *)

Definition opens_at (n : Z) w : Prop :=
  ∃ row i, active_row w row ∧ k_index_generation row = n ∧ catalog_open (w_generations w !! n) = Ok i.

Definition keeps_at (n : Z) {A} (m : W A) : Prop :=
  ∀ w r w', opens_at n w → m w = (r, w') → opens_at n w'.

Lemma keeps_at_bind n {A B} (m : W A) (f : A → W B) :
  keeps_at n m → (∀ a, keeps_at n (f a)) → keeps_at n (m ≫= f).
Proof.
  intros Hm Hf w r w' Hw [(e & H & _)|(a & w1 & H1 & H2)]%W_bind_inv; [by eapply Hm|].
  eapply Hf; [|exact H2]. by eapply Hm.
Qed.

Lemma keeps_at_read n {A} (m : W A) : (∀ w, (m w).2 = w) → keeps_at n m.
Proof. intros Hm w r w' Hw H. specialize (Hm w). rewrite H in Hm. simpl in Hm. by subst. Qed.

Lemma opens_at_put n i w : opens_at n w → opens_at n (put_index n i w).
Proof. intros (row & i0 & Hrow & Hn & Hi). exists row, i. split_and!; [done|done|]. by eapply open_put_index. Qed.

Lemma commit_and_wait_keeps n writer : keeps_at n (commit_and_wait n writer).
Proof.
  apply keeps_at_bind; [|intros i]; intros w r w' Hw H.
  - unfold commit_writer in H. destruct (writer_commit writer); simplify_eq; [by apply opens_at_put|done].
  - unfold wait_merging_threads in H. destruct (wait_merging i) as [i' [e|]]; simplify_eq; by apply opens_at_put.
Qed.

Lemma acknowledge_keeps n q : keeps_at n (graph_write (acknowledge_projection consumer_id q n)).
Proof.
  intros w r w' (row & i & Hrow & Hn & Hi) H. unfold graph_write in H.
  destruct (acknowledge_projection _ _ _ _) as [[u g]|e] eqn:Hack; simplify_eq; [|by exists row, i].
  apply acknowledge_Ok in Hack as [-> _]. exists (ConsumerRow q (k_index_generation row)), i.
  split_and!; [|done|done]. unfold active_row. simpl. by rewrite lookup_insert_eq.
Qed.

Lemma active_checkpoint_read missing w : (active_checkpoint missing w).2 = w.
Proof. unfold active_checkpoint, mbind, W_bind, graph_read, w_lift. by destruct (map_err _ _). Qed.

Lemma run_batch_keeps n o batch : keeps_at n (run_batch o n batch).
Proof.
  unfold run_batch. repeat (apply keeps_at_bind; [by apply keeps_at_read|intros ?]).
  apply keeps_at_bind; [apply commit_and_wait_keeps|intros _].
  apply keeps_at_bind; [by apply keeps_at_read|intros q]. apply acknowledge_keeps.
Qed.

Lemma run_loop_keeps n o fuel batches applied : keeps_at n (run_loop elapsed o n fuel batches applied).
Proof.
  revert batches applied. induction fuel as [|fuel IH]; intros batches applied; simpl;
    [by apply keeps_at_read|].
  destruct (_ <=? _)%Z; [by apply keeps_at_read|].
  apply keeps_at_bind; [apply keeps_at_read, active_checkpoint_read|intros c].
  apply keeps_at_bind; [by apply keeps_at_read|intros b].
  destruct (mb_mutations b); [by apply keeps_at_read|].
  apply keeps_at_bind; [apply run_batch_keeps|intros _]. apply IH.
Qed.

Lemma recover_active o w n :
  store_wf (w_graph w) → opens_at n w → recover o w = (Ok (ExistingGeneration, n), w).
Proof.
  intros Hwf (row & i & Hrow & <- & Hi). unfold recover.
  erewrite (W_bind_Ok (graph_read _)).
  2:{ unfold graph_read. rewrite projector_checkpoint_ok by apply Hwf. reflexivity. }
  unfold active_row in Hrow. rewrite Hrow. cbn [fmap option_fmap option_map pj_index_generation].
  rewrite (W_bind_Ok _ _ _ w w) by done. by rewrite Hi.
Qed.

(** What a run leaves behind: the invariant, an open generation if there was one, and after a success
    an open generation, caught up when no backlog is reported. *)
Lemma run_inv (o : ProjectionWorkerOptions) (w w' : world) r :
  store_wf (w_graph w) → catalog_tracks w → active_opens w ∨ all_synced (w_graph w) →
  (0 < po_rebuild_page_size o)%Z → run elapsed o w = (r, w') →
  worker_inv (w_graph w) w' ∧ (active_opens w → active_opens w') ∧
  ∀ s, r = Ok s → ∃ row, active_row w' row ∧ opens_at (ps_index_generation s) w' ∧
    (ps_backlog_remaining s = false → (high_water (w_graph w') ≤ k_last_sequence row)%Z).
Proof.
  intros Hwf Hok Hcan Hpage Hrun. pose proof (worker_inv_start w Hwf Hok) as Hinv.
  apply can_recover in Hcan; [|done]. unfold run in Hrun.
  apply W_bind_inv in Hrun as [(e & Hrec & ->)|([kind n] & w1 & Hrec & Hrun)];
    destruct (recover_inv _ _ _ _ _ Hinv Hcan Hpage Hrec) as [Hinv1 Hres].
  { split; [done|]. split; [|done]. intros (row & i & Hrow & Hi).
    rewrite (recover_active o w (k_index_generation row)) in Hrec; [done|done|by exists row, i]. }
  destruct (Hres kind n eq_refl) as (row & i & Hrow & <- & Hopen & _).
  assert (opens_at (k_index_generation row) w1) as Hat1 by (by exists row, i).
  assert (∀ w2, opens_at (k_index_generation row) w2 → active_opens w2) as Hact.
  { intros w2 (row2 & i2 & ? & Hn & ?). exists row2, i2. by rewrite Hn. }
  apply W_bind_inv in Hrun as [(e & Hloop & ->)|([bs ap] & w2 & Hloop & Hrun)];
    destruct (run_loop_inv elapsed _ _ _ _ _ _ _ _ _ _ Hinv1 Hrow Hopen Hloop) as [Hinv2 _];
    apply run_loop_keeps in Hloop as Hat2; [|done| |done].
  { split; [done|]. split; [|done]. intros _. by apply Hact. }
  pose proof Hat2 as (row2 & i2 & Hrow2 & Hgen2 & Hopen2).
  apply W_bind_inv in Hrun as [(e & Hc & ->)|(c & w3 & Hc & Hrun)];
    rewrite (active_checkpoint_ok _ row2) in Hc by (by try apply Hinv2); [done|].
  injection Hc as <- <-. apply W_bind_inv in Hrun as [(e & Hq & ->)|(q & w3 & Hq & Hrun)];
    unfold graph_read in Hq; rewrite latest_outbox_sequence_eq in Hq by apply Hinv2; [done|].
  injection Hq as <- <-. injection Hrun as <- <-. split; [done|]. split; [intros _; by apply Hact|].
  intros s [= <-]. exists row2. split; [done|]. split; [done|].
  cbn [ps_backlog_remaining pj_last_sequence]. rewrite bool_decide_eq_false. lia.
Qed.

(** ** Properties *)

(** C4 (no run loses a catalog change): let the database be well formed, the generation that the
    worker's checkpoint names (where it opens) be on track, that is, give the desired catalog together
    with the unread outbox, and let either that generation open or every desired row describe the graph
    as it is now (otherwise a rebuild in the middle of a refresh can go wrong, see
    [rebuild_during_refresh_stays_stale]); and let the page size of a rebuild be positive.  Then
    whatever a run of the worker does, and wherever it fails (opening, writing, committing, merging,
    reading the outbox, acknowledging), the database stays well formed and differs at most in the
    worker's own checkpoint, and the generation the checkpoint names is on track again.  A batch that
    was committed but not acknowledged is applied again without harm; a rebuild that fails half way is
    never active. *)
Theorem run_keeps_catalog (o : ProjectionWorkerOptions) (w w' : world)
  (r : result ProjectionWorkerError ProjectionRunSummary) :
  store_wf (w_graph w) → catalog_tracks w → active_opens w ∨ all_synced (w_graph w) →
  (0 < po_rebuild_page_size o)%Z → run elapsed o w = (r, w') →
  store_wf (w_graph w') ∧ only_checkpoint (w_graph w) (w_graph w') ∧ catalog_tracks w'.
Proof.
  intros Hwf Hok Hcan Hpage Hrun. by destruct (run_inv o w w' r Hwf Hok Hcan Hpage Hrun) as [? _].
Qed.

(** C7 (a run converges): let the engine's calls succeed, the database be well formed, the generation
    that the checkpoint names be on track and the outbox reach back to the checkpoint; let that
    generation open or every desired row describe the graph as it is now; let the page and batch sizes
    be positive, as many batches be allowed as mutations are unread, the run time not be exceeded and
    the generation numbers stay within i64.  Then a run succeeds, reports no backlog, and the active
    generation holds exactly the desired documents. *)
Theorem run_converges (o : ProjectionWorkerOptions) (w : world) :
  reliable → store_wf (w_graph w) → catalog_tracks w → log_complete w →
  active_opens w ∨ all_synced (w_graph w) →
  (0 < po_rebuild_page_size o)%Z → (0 < po_maximum_batch_mutations o)%Z →
  (Z.of_nat (unread w) ≤ po_maximum_batches o)%Z → (∀ n, elapsed n < po_maximum_run_time o)%Z →
  (checkpoint_generation w + Z.of_nat (size (w_generations w)) < i64_max)%Z →
  ∃ s w' i idx, run elapsed o w = (Ok s, w') ∧ ps_backlog_remaining s = false
    ∧ active_index w' = (Ok i, w') ∧ represents (live i) idx
    ∧ ∀ d, doc_matches (documents (w_graph w) !! d) (idx !! d).
Proof.
  intros Hrel Hwf Hok Hlog Hcan Hpage Hlim Hbatches Htime Hgens.
  pose proof (worker_inv_start w Hwf Hok) as Hinv. apply can_recover in Hcan; [|done]. unfold run.
  destruct (recover_total o w Hrel Hwf Hcan Hpage Hgens) as (kind & n & w1 & Hrec).
  rewrite (W_bind_Ok _ _ _ _ _ Hrec).
  destruct (recover_inv _ _ _ _ _ Hinv Hcan Hpage Hrec) as [Hinv1 Hres].
  destruct (Hres kind n eq_refl) as (row & i & Hrow & <- & Hopen & Hcase).
  destruct (run_loop_converges o (w_graph w) (Z.to_nat (po_maximum_batches o)) 0 0 w1 row i)
    as ([bs ap] & w2 & row2 & Hloop & Hrow2 & Hnil & Hreach); try done.
  { destruct Hcase as [->| ->].
    - unfold unread in Hbatches. unfold active_row in Hrow. rewrite Hrow in Hbatches. lia.
    - rewrite outbox_after_high_water by apply Hinv1. simpl. lia. }
  { destruct Hcase as [->|Hhw]; [by apply Hlog|]. unfold log_reaches. lia. }
  rewrite (W_bind_Ok _ _ _ _ _ Hloop).
  destruct (run_loop_inv elapsed _ _ _ _ _ _ _ _ _ _ Hinv1 Hrow Hopen Hloop) as [Hinv2 Hres2].
  destruct (Hres2 _ eq_refl) as (row3 & i2 & Hrow3 & Hgen & Hopen2). unfold active_row in *.
  assert (row3 = row2) as -> by congruence. rewrite <-Hgen in Hopen2.
  pose proof Hinv2 as (Hwf2 & [Hframe _] & Hok2). pose proof (proj1 Hwf2) as Hgwf2.
  rewrite (W_bind_Ok _ _ _ _ _ (active_checkpoint_ok w2 row2 _ Hgwf2 Hrow2)).
  erewrite (W_bind_Ok (graph_read _)).
  2:{ unfold graph_read. rewrite latest_outbox_sequence_eq by done. reflexivity. }
  destruct (Hok2 row2 i2 Hrow2 Hopen2) as (idx & Hrep & Htr).
  eexists _, w2, i2, idx. split; [reflexivity|]. split_and!; [| |done|].
  - apply bool_decide_eq_false. simpl. pose proof (log_reaches_end _ _ Hreach Hnil). lia.
  - unfold active_index. rewrite (W_bind_Ok _ _ _ _ _ (active_checkpoint_ok w2 row2 _ Hgwf2 Hrow2)).
    unfold open_generation. simpl. by rewrite Hopen2.
  - intros d. specialize (Htr d). rewrite Hnil in Htr. by rewrite Hframe in Htr.
Qed.
End runs.

(** ** Concrete runs *)

(** A fresh worker over the sample volume. *)
Definition fresh_world : world := MkWorld sample_db ∅.
Definition fast_clock (n : Z) : Z := 0.

(** Decides [synced] for rows in the compact format of the fixtures. *)
Definition row_synced (g : db) (d : document_id) (r : document_row) : bool :=
  match d_path r, d_fingerprint r, wanted g d with
  | Some p, Some f, Some c =>
      bool_decide (f = c) && bool_decide (p = c.1.1.2) &&
      bool_decide (c.1.1.1.1 = MkCatalogIdentity (d_object r) (d_file_link_id r) (d_file_link_id r))
  | _, _, _ => false
  end.

Lemma row_synced_sound (g : db) d r :
  documents g !! d = Some r → row_synced g d r = true → synced g d.
Proof.
  intros Hd. unfold row_synced, synced. rewrite Hd.
  destruct (d_path r) as [p|] eqn:Hp; [|done]. destruct (d_fingerprint r) as [f|] eqn:Hf; [|done].
  destruct (wanted g d) as [[[[[ident name] path] ext] meta]|]; [|done].
  rewrite !andb_true_iff, !bool_decide_eq_true. simpl. intros [[-> ->] ->].
  eexists (MkCatalogDocument _ (d_version r) name path ext meta). split; [|reflexivity].
  split; [done|]. split; [done|]. left. split; [exact Hp|exact Hf].
Qed.

Lemma all_synced_compute (g : db) :
  forallb (λ x, row_synced g x.1 x.2) (map_to_list (documents g)) = true → all_synced g.
Proof.
  intros Hall d r Hd. apply (row_synced_sound g d r Hd). rewrite forallb_forall in Hall.
  apply (Hall (d, r)). by apply list_elem_of_In, elem_of_map_to_list.
Qed.

Lemma fresh_world_synced : all_synced (w_graph fresh_world).
Proof. apply all_synced_compute. vm_compute. reflexivity. Qed.

Lemma fresh_world_no_row row : ¬ active_row fresh_world row.
Proof.
  unfold active_row. assert (consumers (w_graph fresh_world) !! consumer_id = None) as ->
    by (vm_compute; reflexivity). done.
Qed.

Lemma fresh_world_tracks : catalog_tracks fresh_world.
Proof. intros row i Hrow. by apply fresh_world_no_row in Hrow. Qed.

Lemma list_engine_reliable : reliable.
Proof. split; intros; by eexists. Qed.

Definition after_first_run : world := (run fast_clock ProjectionWorkerOptions_default fresh_world).2.

Lemma run_keeps_catalog_witness :
  store_wf (w_graph after_first_run)
  ∧ only_checkpoint (w_graph fresh_world) (w_graph after_first_run) ∧ catalog_tracks after_first_run.
Proof.
  apply (run_keeps_catalog fast_clock ProjectionWorkerOptions_default fresh_world after_first_run
    (run fast_clock ProjectionWorkerOptions_default fresh_world).1).
  - apply sample_db_wf.
  - apply fresh_world_tracks.
  - right. apply fresh_world_synced.
  - simpl. lia.
  - apply surjective_pairing.
Defined.

Lemma run_converges_witness :
  ∃ s w' i idx, run fast_clock ProjectionWorkerOptions_default fresh_world = (Ok s, w')
    ∧ ps_backlog_remaining s = false
    ∧ active_index w' = (Ok i, w') ∧ represents (live i) idx
    ∧ ∀ d, doc_matches (documents (w_graph fresh_world) !! d) (idx !! d).
Proof.
  apply (run_converges fast_clock ProjectionWorkerOptions_default fresh_world).
  - apply list_engine_reliable.
  - apply sample_db_wf.
  - apply fresh_world_tracks.
  - intros row Hrow. by apply fresh_world_no_row in Hrow.
  - right. apply fresh_world_synced.
  - simpl. lia.
  - simpl. lia.
  - replace (unread fresh_world) with 0 by (vm_compute; reflexivity). simpl. lia.
  - intros n. unfold fast_clock. simpl. lia.
  - apply Z.ltb_lt. vm_compute. reflexivity.
Defined.

(** ** A rebuild while a volume refresh is pending *)

Definition run_ops_world (os : list op) (w : world) : world :=
  MkWorld (run_ops os (w_graph w)) (w_generations w).

Definition set_volume (n : N) (state : VolumeState) : op :=
  OpApplyBatch (MkGraphMutationBatch vol (checkpoint_at n) [SetVolumeState vol state]).

(** The volume goes offline; before its documents are refreshed the catalog is rebuilt; the volume
    comes back; then the refresh and the worker run until nothing is left to do. *)
Definition rebuilt_while_offline : world :=
  let run_worker w := (run fast_clock ProjectionWorkerOptions_default w).2 in
  run_worker (run_ops_world [set_volume 3 VOnline; OpRefreshVolumeProjection 10]
    (run_worker (run_ops_world [set_volume 2 VOffline] fresh_world))).

Definition indexed_availability (w : world) (id : document_id) : option Availability :=
  match active_index w with
  | (Ok i, _) =>
      match reader_document i id with
      | Ok (Some doc) => Some (m_availability (cd_metadata doc))
      | _ => None
      end
  | _ => None
  end.

Definition desired_availability (g : db) (id : document_id) : option Availability :=
  match desired_catalog_document g id with
  | Ok (Some doc) => Some (m_availability (cd_metadata doc))
  | _ => None
  end.

(** A rebuild can publish what the refresh will not correct: the rebuild reads the current
    volume state although the desired rows still carry the fingerprint of the earlier one, so once
    the volume is back the refresh finds the rows unchanged; no maintenance and no backlog remain,
    the graph says online, and the active index still says offline. *)
Theorem rebuild_during_refresh_stays_stale :
  projection_refresh_maintenance_pending (w_graph rebuilt_while_offline) = false
  ∧ unread rebuilt_while_offline = 0
  ∧ desired_availability (w_graph rebuilt_while_offline) 20 = Some AOnline
  ∧ indexed_availability rebuilt_while_offline 20 = Some AOffline.
Proof. split_and!; vm_compute; reflexivity. Qed.
