(* ===== verification/GenerationsBuild.v ===== *)
(** What a generation holds while it is built and when it is activated: with a graph that does not
    change, however often building is interrupted, no generation is ever thrown away and the one
    that is activated holds exactly the text of the catalog's documents. *)
From Stdlib Require Import Ascii String.
From stdpp Require Import base strings numbers gmap list sorting.
From S2P Require Import Prelude Ids Order Models GraphDomain GraphTables GraphProjection GraphOutbox.
From S2P Require Import Text Catalog KeyedIndex CatalogSpec Content ContentText ContentSpec DurableJson Generations GenerationsSpec.
From S2P Require ProjectorSpec.
Import ProjectorSpec (reads, documents_after, documents_after_split, documents_after_all, documents_after_elem,
  documents_after_size, readable, desired_page_reads, page_cursor, reads_fun, reads_identity).

Lemma filter_fmap_NoDup {A K} (f : A → K) (P : A → Prop) `{!∀ x, Decision (P x)} (l : list A) :
  NoDup (f <$> l) → NoDup (f <$> filter P l).
Proof.
  induction l as [|x l IH]; [done|]. rewrite fmap_cons, NoDup_cons, filter_cons. intros [Hx Hl].
  case_decide; [|by apply IH]. rewrite fmap_cons, NoDup_cons. split; [|by apply IH].
  intros (y & Hy & [_ Hin]%list_elem_of_filter)%list_elem_of_fmap. apply Hx, list_elem_of_fmap. eauto.
Qed.

(** ** One page *)

Section page.
Context `{TV : Tantivy} `{T : TextEnv} `{CE : !ContentEnv} `{!StoreLaws E} `{TL : !TantivyLaws}.
Implicit Types (policy : ContentIndexPolicy) (fs : SourceFs) (m : contents) (h : bool) (d : CatalogDocument).

(** The entry of a document as extraction gives it. *)
Definition extracted policy fs d : option ContentEntry :=
  match extract_text fs d policy with Ok t => Some (MkContentEntry d t) | Err _ => None end.

(** Nothing is may_say for the document, or an entry for this version of it. *)
Definition blank_or_same d (prior : option ContentEntry) : Prop :=
  prior = None ∨ ce_document <$> prior = Some d.

Lemma upsert_blank_or_same h policy fs d prior :
  blank_or_same d prior →
  upsert_entry h policy fs d prior = extracted policy fs d
  ∨ is_Some prior ∧ upsert_entry h policy fs d prior = prior.
Proof.
  unfold upsert_entry, extracted, extract_text. destruct (prepare_source fs d policy) as [p|r]; [|by left].
  intros [->|Hsame].
  - left. rewrite bool_decide_false by done. simpl. destruct (read_text fs p policy); [|done].
    by rewrite andb_false_r.
  - right. rewrite bool_decide_true by done. split; [|done]. by destruct prior.
Qed.

(** The documents counted as added or unchanged are those the index then holds. *)
Lemma upsert_step_present h policy fs prior d ws ws' n :
  blank_or_same d prior →
  upsert_step h policy fs (entry_stored h <$> prior) d ws = Ok ws' →
  (∀ c, c ≠ CatalogDocuments → 0 ≤ ws.2 c ≤ n)%Z → (n < u64_max)%Z →
  (ws'.2 AddedDocuments + ws'.2 UnchangedDocuments
   = ws.2 AddedDocuments + ws.2 UnchangedDocuments + present (upsert_entry h policy fs d prior))%Z
  ∧ ∀ c, c ≠ CatalogDocuments → (0 ≤ ws'.2 c ≤ n + 1)%Z.
Proof.
  intros Hbs Hstep Hb Hn.
  assert (∀ cs x, x ≠ CatalogDocuments → NoDup cs → foldr bump ws.2 cs x = ws.2 x + if decide (x ∈ cs) then 1 else 0)%Z as Hbumps.
  { intros cs x Hx Hcs. apply bumps_eval; [done|]. specialize (Hb x Hx). lia. }
  assert (∀ c x, x ≠ CatalogDocuments → bump c ws.2 x = ws.2 x + if decide (x ∈ [c]) then 1 else 0)%Z as Hbump
    by (intros c x Hx; apply (Hbumps [c]); [done|apply NoDup_singleton]).
  assert (∀ c c' x, x ≠ CatalogDocuments → c ≠ c' → bump c (bump c' ws.2) x = ws.2 x + if decide (x ∈ [c; c']) then 1 else 0)%Z as Hbump2.
  { intros c c' x Hx Hne. apply (Hbumps [c; c']); [done|]. repeat constructor; set_solver. }
  assert (∀ r o, (evict (entry_stored h <$> o) (document_key d) r ws).2 AddedDocuments
    = ws.2 AddedDocuments ∧ (evict (entry_stored h <$> o) (document_key d) r ws).2 UnchangedDocuments
    = ws.2 UnchangedDocuments ∧ ∀ c, c ≠ CatalogDocuments → (0 ≤ (evict (entry_stored h <$> o) (document_key d) r ws).2 c ≤ n + 1)%Z) as Hev.
  { intros r o. unfold evict. destruct o; simpl.
    - rewrite !Hbump2 by done. rewrite !decide_False by set_solver. split_and!; [lia..|].
      intros x Hx. rewrite Hbump2 by done. specialize (Hb x Hx). case_decide; lia.
    - rewrite !Hbump by done. rewrite !decide_False by set_solver. split_and!; [lia..|].
      intros x Hx. rewrite Hbump by done. specialize (Hb x Hx). case_decide; lia. }
  unfold upsert_step, upsert_entry in *. change (ci_document_id (cd_identity d)) with (document_key d) in Hstep.
  destruct (prepare_source fs d policy) as [p|r]; 
    [|injection Hstep as <-; destruct (Hev r prior) as (-> & -> & ?); cbn [present]; split; [lia|done]].
  assert (sc_document <$> (entry_stored h <$> prior) = ce_document <$> prior) as Hsd by (by destruct prior).
  rewrite Hsd in Hstep. destruct Hbs as [->|Hsame].
  - rewrite bool_decide_false in Hstep |- * by done. simpl in Hstep.
    destruct (read_text fs p policy) as [t|r].
    + rewrite andb_false_r. cbn [present].
      apply result_bind_Ok in Hstep as (w & _ & [= <-]). cbn [snd]. rewrite !Hbump by done. rewrite decide_True, decide_False by set_solver.
      split; [lia|].
      intros x Hx. rewrite Hbump by done. specialize (Hb x Hx). case_decide; lia.
    + injection Hstep as <-. destruct (Hev r None) as (H1 & H2 & H3). simpl in *. split; [lia|done].
  - rewrite bool_decide_true in Hstep |- * by done. injection Hstep as <-.
    cbn [count_one snd]. rewrite !Hbump by done. rewrite decide_False, decide_True by set_solver. destruct prior; [|done]. cbn [present]. split; [lia|]. intros x Hx. rewrite Hbump by done. specialize (Hb x Hx). case_decide; lia.
Qed.

(** How many of the documents from number [n] on the index holds afterwards. *)
Fixpoint held h policy (fs : nat → SourceFs) m (n : nat) (docs : list CatalogDocument) : Z :=
  match docs with
  | [] => 0
  | d :: docs => present (upsert_entry h policy (fs n) d (m !! document_key d)) + held h policy fs m (S n) docs
  end%Z.

Lemma trace_held h policy (fs : nat → SourceFs) m n docs seen ws seen' ws' k :
  trace h policy fs m n docs seen ws seen' ws' →
  (∀ d, d ∈ docs → blank_or_same d (m !! document_key d)) →
  (∀ c, c ≠ CatalogDocuments → 0 ≤ ws.2 c ≤ k)%Z → (k + Z.of_nat (length docs) ≤ u64_max)%Z →
  (ws'.2 AddedDocuments + ws'.2 UnchangedDocuments
   = ws.2 AddedDocuments + ws.2 UnchangedDocuments + held h policy fs m n docs)%Z.
Proof.
  intros Htr. revert k. induction Htr as [n seen ws|n d ds seen ws ws1 seen' ws' Hd Hstep _ IH];
    intros k Hbs Hb Hlen; cbn [held]; [lia|]. rewrite length_cons in Hlen.
  assert (∀ c, c ≠ CatalogDocuments → (count_one CatalogDocuments ws).2 c = ws.2 c) as Hcat.
  { intros c Hc. cbn [count_one snd]. unfold bump. by rewrite decide_False. }
  destruct (upsert_step_present _ _ _ _ _ _ _ k (Hbs d ltac:(left)) Hstep) as [Hsum Hb1]; [|lia|].
  - intros c Hc. rewrite Hcat by done. by apply Hb.
  - rewrite !Hcat in Hsum by done.
    rewrite (IH (k + 1)%Z); [lia|intros; apply Hbs; by right|exact Hb1|lia].
Qed.

(** The run behind a delta that returns a summary. *)
Lemma apply_delta_trace (fs : nat → SourceFs) dir upserts policy s dir' h m :
  dir_holds dir h m → Forall (λ d, in_u128 (document_key d)) upserts →
  apply_delta fs dir upserts [] policy = (Ok s, dir') →
  ∃ w seen ws, trace h policy fs m 0 upserts ∅ (w, no_counts) seen ws ∧ su_count s = ws.2.
Proof.
  intros (i & Hi & Hh) Hty [[_ [x Hx]]|(d & w & counts & i' & _ & Hwork & _ & _ & Hsum)]%commit_work_spec; [done|].
  rewrite Hi in Hwork. cbn [mbind result_bind] in Hwork.
  apply result_bind_Ok in Hwork as (? & _ & Hwork). apply result_bind_Ok in Hwork as (w0 & _ & Hwork).
  apply result_bind_Ok in Hwork as ([seen ws] & Hups & Hdels). exists w0, seen, ws.
  split; [by eapply delta_upserts_trace|]. injection Hdels as ->. by rewrite (Hsum s eq_refl).
Qed.

Lemma held_filter h policy (fs : nat → SourceFs) m m' n docs :
  (∀ j d, docs !! j = Some d → m' !! document_key d = upsert_entry h policy (fs (n + j)) d (m !! document_key d)) →
  held h policy fs m n docs = Z.of_nat (length (filter (λ d, is_Some (m' !! document_key d)) docs)).
Proof.
  revert n. induction docs as [|d docs IH]; intros n Hm; [done|]. cbn [held].
  rewrite (IH (S n)); [|intros j x Hj; rewrite (Hm (S j) x Hj); do 2 f_equal; lia].
  pose proof (Hm 0 d eq_refl) as H0. rewrite Nat.add_0_r in H0. rewrite <-H0, filter_cons.
  case_decide as Hd; destruct (m' !! document_key d) as [e|]; cbn [present]; rewrite ?length_cons; try lia;
    [by destruct Hd|by destruct Hd].
Qed.
End page.

(** ** A generation under construction *)

Section build.
Context `{TV : Tantivy} `{T : TextEnv} `{CE : !ContentEnv} `{!StoreLaws E} `{!TextLaws T} `{TL : !TantivyLaws}.
(** The source files at each question, the graph, and the policy. *)
Context (sources : nat → nat → SourceFs) (g : db) (policy : ContentIndexPolicy).
Context (Hread : readable g) (Hsize : (Z.of_nat (size (documents g)) ≤ u64_max)%Z).
Implicit Types (m : contents) (h : bool) (d : CatalogDocument) (dir : option ContentDir).

(** What some reading of the files gives. *)
Definition settled d (o : option ContentEntry) : Prop := ∃ n j, o = extracted policy (sources n j) d.

Lemma settled_same d o : settled d o → blank_or_same d o.
Proof. intros (n & j & ->). unfold extracted, blank_or_same. destruct (extract_text _ _ _); simpl; auto. Qed.

Lemma upsert_settled h n j d prior :
  prior = None ∨ settled d prior → settled d (upsert_entry h policy (sources n j) d prior).
Proof.
  intros Hp. destruct (upsert_blank_or_same h policy (sources n j) d prior) as [->|[Hs ->]].
  - destruct Hp as [->|Hp]; [by left|by apply settled_same].
  - by exists n, j.
  - destruct Hp as [->|Hp]; [by destruct Hs|done].
Qed.

Definition held_rows m (rows : list (document_id * document_row)) : list (document_id * document_row) :=
  filter (λ x, is_Some (m !! x.1)) rows.

(** The rows up to the cursor are settled and [n] of them are held; of the rows behind it nothing is
    held but what an interrupted page left; nothing else is held. *)
Definition built m (cursor : option document_id) (n : Z) : Prop :=
  ∃ done, documents_after g None = done ++ documents_after g cursor
    ∧ (∀ x d, x ∈ done → reads g x d → settled d (m !! x.1))
    ∧ (∀ x d, x ∈ documents_after g cursor → reads g x d → m !! x.1 = None ∨ settled d (m !! x.1))
    ∧ (∀ k, is_Some (m !! k) → is_Some (documents g !! k))
    ∧ n = Z.of_nat (length (held_rows m done)).

(** The index holds what the catalog's documents say and nothing else. *)
Definition complete_contents m : Prop :=
  ∀ k, match documents g !! k with
       | Some r => ∀ d, reads g (k, r) d → settled d (m !! k)
       | None => m !! k = None
       end.

Lemma built_start : built ∅ None 0.
Proof.
  exists []. split; [done|]. split; [set_solver|]. split; [intros; left; apply lookup_empty|].
  split; [|done]. intros k. rewrite lookup_empty. by intros [].
Qed.

Lemma documents_NoDup : NoDup (documents_after g None).*1.
Proof. apply rows_NoDup_keys. Qed.

Lemma held_bound m done rest :
  documents_after g None = done ++ rest → (Z.of_nat (length (held_rows m done)) ≤ u64_max)%Z.
Proof.
  intros Hd. pose proof (documents_after_size g None) as Hs. rewrite Hd, length_app in Hs.
  pose proof (length_filter (λ x, is_Some (m !! x.1)) done). unfold held_rows. lia.
Qed.

(** Nothing is left behind the cursor: the generation is complete, and the count is its size. *)
Lemma built_finish m cursor n :
  built m cursor n → documents_after g cursor = [] → complete_contents m ∧ n = Z.of_nat (size m).
Proof.
  intros (done & Hdone & Hset & _ & Honly & ->) Hnil. rewrite Hnil, app_nil_r in Hdone. subst done. split.
  - intros k. destruct (documents g !! k) as [r|] eqn:Hk.
    + intros d Hd. apply (Hset (k, r)); [|done]. by apply documents_after_all.
    + destruct (m !! k) eqn:Hm; [|done]. destruct (Honly k) as [r Hr]; [by rewrite Hm|]. congruence.
  - f_equal. rewrite <-length_map_to_list, <-(length_fmap fst (map_to_list m)), <-(length_fmap fst (held_rows _ _)).
    apply Permutation_length, NoDup_Permutation.
    + apply filter_fmap_NoDup, documents_NoDup.
    + apply NoDup_fst_map_to_list.
    + intros k. rewrite !list_elem_of_fmap. unfold held_rows. split.
      * intros ([k' r] & -> & [[e He] _]%list_elem_of_filter). exists (k', e). split; [done|]. by apply elem_of_map_to_list.
      * intros ([k' e] & -> & He%elem_of_map_to_list). destruct (Honly k') as [r Hr]; [by rewrite He|].
        exists (k', r). split; [done|]. apply list_elem_of_filter. split; [by exists e|]. by apply documents_after_all.
Qed.

Definition dir_built dir (cursor : option document_id) (n : Z) : Prop :=
  ∃ h m, dir_holds dir h m ∧ built m cursor n.

Lemma page_keys page docs : Forall2 (reads g) page docs → document_key <$> docs = page.*1.
Proof.
  induction 1 as [|x d page docs Hr _ IH]; [done|]. rewrite !fmap_cons, IH. f_equal.
  by apply reads_identity in Hr as [? _].
Qed.

(** The index a page goes to is settled at the rows of the page and otherwise as it was. *)
Lemma page_contents h n page docs m m' :
  Forall2 (reads g) page docs → (∀ x d, x ∈ page → reads g x d → m !! x.1 = None ∨ settled d (m !! x.1)) →
  delta_result h policy (sources n) docs [] m m' →
  (∀ x d, x ∈ page → reads g x d → settled d (m' !! x.1)) ∧ (∀ k, k ∉ page.*1 → m' !! k = m !! k).
Proof.
  intros Hf Hm [_ Hup _ Hkept]. split.
  - intros x d [j Hj]%list_elem_of_lookup_1 Hd. destruct (Forall2_lookup_l _ _ _ _ _ Hf Hj) as (d' & Hd' & Hr).
    rewrite <-(reads_fun _ _ _ _ Hd Hr) in Hd'. pose proof (Hup j d Hd') as Hu.
    replace (document_key d) with x.1 in Hu by (symmetry; by apply reads_identity in Hd as [? _]).
    rewrite Hu. apply upsert_settled, Hm; [|done]. by eapply list_elem_of_lookup_2.
  - intros k Hk. apply Hkept; [by rewrite (page_keys _ _ Hf)|set_solver].
Qed.

Lemma held_rows_ext m m' rows :
  (∀ x, x ∈ rows → m' !! x.1 = m !! x.1) → held_rows m' rows = held_rows m rows.
Proof.
  induction rows as [|x rows IH]; intros Hm; [done|]. unfold held_rows in *. rewrite !filter_cons.
  rewrite (IH ltac:(intros; apply Hm; by right)). rewrite (Hm x ltac:(left)). done.
Qed.

Lemma held_rows_docs m page docs :
  Forall2 (reads g) page docs →
  length (held_rows m page) = length (filter (λ d, is_Some (m !! document_key d)) docs).
Proof.
  unfold held_rows. induction 1 as [|x d page docs Hr _ IH]; [done|]. rewrite !filter_cons.
  assert (document_key d = x.1) as Hk by (by apply reads_identity in Hr as [? _]). rewrite Hk.
  case_decide; rewrite ?length_cons; lia.
Qed.

(** A page's documents that were added or unchanged are those that are held. *)
Lemma page_count dir dir' h n page docs m m' s :
  dir_holds dir h m → Forall (λ d, in_u128 (document_key d)) docs → (Z.of_nat (length docs) ≤ u64_max)%Z →
  Forall2 (reads g) page docs → (∀ x d, x ∈ page → reads g x d → m !! x.1 = None ∨ settled d (m !! x.1)) →
  apply_delta (sources n) dir docs [] policy = (Ok s, dir') →
  delta_result h policy (sources n) docs [] m m' →
  (su_count s AddedDocuments + su_count s UnchangedDocuments = Z.of_nat (length (held_rows m' page)))%Z
  ∧ (0 ≤ su_count s AddedDocuments)%Z ∧ (0 ≤ su_count s UnchangedDocuments)%Z.
Proof.
  intros Hdir Hty Hlen Hf Hm Hrun Hres. rewrite (held_rows_docs m' page docs Hf).
  destruct (apply_delta_trace (sources n) dir docs policy s dir' h m Hdir Hty Hrun) as (w & seen & ws & Htr & Hcounts).
  rewrite <-(held_filter h policy (sources n) m m' 0 docs) by (intros j d Hj; by apply Hres). split.
  - rewrite Hcounts. rewrite (trace_held _ _ _ _ _ _ _ _ _ _ 0 Htr); [done| |intros; simpl; unfold no_counts; lia|lia].
    intros d [j Hj]%list_elem_of_lookup_1. destruct (Forall2_lookup_r _ _ _ _ _ Hf Hj) as (y & Hy & Hr).
    assert (y.1 = document_key d) as <- by (symmetry; by apply reads_identity in Hr as [? _]).
    destruct (Hm y d) as [->|Hs]; [by eapply list_elem_of_lookup_2|done|by left|by apply settled_same].
  - destruct (apply_delta_committed (sources n) dir docs [] policy (Ok s) dir' h m) as
      [[_ [x [=]]]|(m2 & _ & _ & Hacc)]; [done..|simpl; lia|done|].
    destruct (Hacc s eq_refl) as [[Hb _ _] _]. split; apply Hb.
Qed.

(** A page that is committed leaves the generation as it should be before the page, and, once the
    cursor is moved past it, as it should be after it. *)
Lemma page_built dir cursor n (limit_ : Z) docs k r dir' :
  (0 < limit_)%Z → dir_built dir cursor n → desired_catalog_page g cursor limit_ = Ok docs →
  apply_delta (sources k) dir docs [] policy = (r, dir') →
  dir_built dir' cursor n ∧
  ∀ s c, r = Ok s → document_key <$> last docs = Some c →
    dir_built dir' (Some c) (saturating_add u64_max (saturating_add u64_max n (su_count s AddedDocuments))
                               (su_count s UnchangedDocuments)).
Proof.
  intros Hlim (h & m & Hdir & Hbuilt) Hpage Hrun. pose proof Hbuilt as (done & Hdone & Hset & Hrest & Honly & Hn).
  destruct (desired_page_reads g cursor limit_ Hread) as (docs' & Hpage' & Hf).
  rewrite Hpage in Hpage'. injection Hpage' as <-. set (page := limit limit_ (documents_after g cursor)) in *.
  assert (∀ x, x ∈ page → x ∈ documents_after g cursor) as Hin by (intros x; apply elem_of_limit).
  assert (Forall (λ d, in_u128 (document_key d)) docs) as Hty.
  { apply Forall_forall. intros d [j Hj]%list_elem_of_lookup_1.
    destruct (Forall2_lookup_r _ _ _ _ _ Hf Hj) as (x & _ & Hr). pose proof Hr as (_ & _ & _ & Hu).
    unfold document_key. by apply reads_identity in Hr as [-> _]. }
  assert (length docs ≤ size (documents g)) as Hlen.
  { rewrite <-(Forall2_length _ _ _ Hf). unfold page, limit. pose proof (documents_after_size g cursor).
    rewrite length_take. lia. }
  destruct (apply_delta_committed (sources k) dir docs [] policy r dir' h m) as
    [[-> [x ->]]|(m' & Hdir' & Hres & _)]; [done..|simpl; lia|exact Hrun|split; [by exists h, m|done]|].
  destruct (page_contents h k page docs m m' Hf) as [Hnew Hold]; [intros x d Hx; by apply Hrest, Hin|done|].
  pose proof documents_NoDup as Hnd. rewrite Hdone, fmap_app in Hnd. apply NoDup_app in Hnd as (_ & Hdis & _).
  assert (∀ x, x ∈ done → m' !! x.1 = m !! x.1) as Hsame.
  { intros x Hx. apply Hold. intros (y & Hy & Hyp)%list_elem_of_fmap. apply (Hdis x.1).
    - by apply list_elem_of_fmap_2.
    - rewrite Hy. by apply list_elem_of_fmap_2, Hin. }
  assert (∀ j, is_Some (m' !! j) → is_Some (documents g !! j)) as Honly'.
  { intros j Hj. destruct (decide (j ∈ page.*1)) as [([j' row] & -> & Hx)%list_elem_of_fmap|Hne];
      [|apply Honly; by rewrite <-Hold]. apply Hin, documents_after_elem in Hx. by exists row. }
  split.
  - exists h, m'. split; [done|]. exists done. rewrite (held_rows_ext m m' done Hsame). split_and!; [done| | |done|done].
    + intros x d Hx Hd. rewrite Hsame by done. by apply Hset.
    + intros x d Hx Hd. destruct (decide (x.1 ∈ page.*1)) as [([j' row] & Hj & Hxp)%list_elem_of_fmap|Hne].
      * right. apply Hnew; [|done]. destruct x as [a b]. simpl in Hj. subst a.
        apply documents_after_elem in Hx. pose proof (documents_after_elem _ _ _ _ (Hin _ Hxp)). congruence.
      * rewrite Hold by done. by apply Hrest.
  - intros s c -> Hc. destruct (last page) as [x|] eqn:Hlast.
    2:{ apply last_None in Hlast. rewrite Hlast in Hf. apply Forall2_nil_inv_l in Hf as ->. done. }
    pose proof (page_cursor g page docs x Hf Hlast) as Hcur. unfold document_key in Hc. rewrite Hc in Hcur.
    injection Hcur as ->. pose proof (documents_after_split g cursor limit_ x Hlast) as Hsplit. fold page in Hsplit.
    exists h, m'. split; [done|]. exists (done ++ page). rewrite Hdone, Hsplit at 1. split_and!.
    + by rewrite app_assoc.
    + intros y d [Hy|Hy]%elem_of_app Hd; [rewrite Hsame by done; by apply Hset|by apply Hnew].
    + intros y d Hy Hd. rewrite Hold; [apply Hrest; [|done]; rewrite Hsplit; apply elem_of_app; by right|].
      intros Hyp. assert (NoDup (documents_after g cursor).*1) as Hndc by apply rows_NoDup_keys.
      rewrite Hsplit, fmap_app in Hndc. apply NoDup_app in Hndc as (_ & Hdc & _). apply (Hdc y.1 Hyp).
      by apply list_elem_of_fmap_2.
    + done.
    + destruct (page_count dir dir' h k page docs m m' s Hdir Hty ltac:(lia) Hf) as (Hsum & Ha & Hu);
        [intros y d Hy; by apply Hrest, Hin|done|done|].
      pose proof (held_bound m' (done ++ page) (documents_after g (Some x.1))) as Hbound.
      rewrite Hdone, Hsplit, app_assoc in Hbound. specialize (Hbound eq_refl). rewrite Hn.
      pose proof (held_rows_ext m m' done Hsame) as Hext. unfold held_rows in *.
      rewrite filter_app, length_app, Hext in *. unfold saturating_add. lia.
Qed.

Lemma empty_page cursor limit_ :
  (0 < limit_)%Z → desired_catalog_page g cursor limit_ = Ok [] → documents_after g cursor = [].
Proof.
  intros Hlim Hpage. destruct (desired_page_reads g cursor limit_ Hread) as (docs & Hpage' & Hf).
  rewrite Hpage in Hpage'. injection Hpage' as <-. apply Forall2_length in Hf. unfold limit in Hf.
  rewrite length_take in Hf. destruct (documents_after g cursor); [done|]. simpl in Hf. lia.
Qed.

Lemma dir_built_count dir cursor n k :
  dir_built dir cursor n → documents_after g cursor = [] → dir_count dir = Ok k →
  k = n ∧ ∃ h m, dir_holds dir h m ∧ complete_contents m.
Proof.
  intros (h & m & Hdir & Hb) Hnil Hcount. pose proof Hb as (done & Hdone & _ & _ & _ & Hn).
  destruct (built_finish m cursor n Hb Hnil) as [Hc Hsz]. split; [|by exists h, m].
  pose proof (held_bound m done _ Hdone) as Hbound. rewrite <-Hn in Hbound.
  destruct Hdir as (i & Hi & Hh). unfold dir_count in Hcount. rewrite Hi in Hcount. simpl in Hcount.
  apply result_bind_Ok in Hcount as (c & Hcnt & [= <-]).
  unfold content_document_count in Hcnt. apply result_bind_Ok in Hcnt as (? & _ & Hcnt%map_err_Ok%count_spec).
  destruct Hh as [_ Hp]. rewrite Hcnt, Hp, !length_fmap, length_map_to_list. lia.
Qed.

(** A fresh index. *)
Lemma fresh_built creation n s dir :
  content_build creation (sources n) None [] policy = (Ok s, dir) → dir_built dir None 0.
Proof.
  unfold content_build, build_fallible. simpl. destruct creation; [done|done|].
  intros [[_ [x Hx]]|(d & w & counts & i' & [= <-] & Hwork & -> & Hlive & _)]%commit_work_spec; [done|].
  apply result_bind_Ok in Hwork as (i & Hi%map_err_Ok & Hwork). apply result_bind_Ok in Hwork as (w0 & Hw0%map_err_Ok & [= -> _]).
  exists true, ∅. split; [|apply built_start]. exists i'. split; [by rewrite Hi|].
  rewrite Hlive, (writer_pending _ _ _ Hw0), (create_live _ Hi). apply holds_docs_empty.
Qed.
End build.

(** ** All generations of a content root *)

Section manager.
Context `{TV : Tantivy} `{T : TextEnv} `{CE : !ContentEnv} `{!StoreLaws E} `{!TextLaws T} `{TL : !TantivyLaws}.
Context `{J : JsonEnv} `{RC : !JsonCodec ContentGenerationRecord} `{PC : !JsonCodec ActiveGenerationPointer}.
Context `{!JsonLaws J} `{!JsonCodecLaws ContentGenerationRecord} `{!JsonCodecLaws ActiveGenerationPointer}.
Context (env : GenEnv) (B : nat) (HB : (Z.of_nat B ≤ u64_max)%Z).
Context (g : db) (roots : list string) (policy : ContentIndexPolicy).
Context (Hread : readable g) (Hsize : (Z.of_nat (size (documents g)) ≤ u64_max)%Z).
(** The graph does not change. *)
Context (Hgraph : ∀ n, ge_graph env n = g).
Implicit Types (s : gstate) (r : ContentRoot) (id : string) (rec : ContentGenerationRecord) (dir : option ContentDir).
Abbreviation gtriple := (gtriple B).
Abbreviation served_index := (result ContentIndexError (ActiveGenerationPointer * option ContentDir)).
Implicit Types (o : served_index).
Abbreviation catalog_dir := (λ dir, ∃ h m, dir_holds dir h m ∧ complete_contents (ge_files env) g policy m).

(** A generation that is resumed continues here. *)
Definition resumable rec dir : Prop :=
  gr_version rec = GENERATION_MANAGER_VERSION ∧ gr_root_ids rec = roots
  ∧ dir_built (ge_files env) g policy dir (gr_last_checkpoint rec) (gr_documents_projected rec).

(** What a state file may say, in whichever of its slots a removal that stops half-way leaves: never a
    failure, and nothing of building once the generation is retired. *)
Record consistent (f : DurableFile) : Prop := {
  se_durable : durable_ok f;
  se_plain : df_plain f = None;
  se_failed x : may_say f x → gr_state x ≠ Failed;
  se_retired rec x : read_json ContentGenerationRecord f = Ok rec → gr_state rec = Retired → may_say f x →
    gr_state x ≠ Building }.

Record gens_built r : Prop := {
  gb_settled id d : generation_map r !! id = Some d → consistent (gd_state d);
  gb_valid id : is_Some (generation_map r !! id) → valid_generation_id id = true;
  gb_failed id rec : read_record r id = Ok rec → gr_state rec ≠ Failed;
  gb_building id rec : read_record r id = Ok rec → gr_state rec = Building →
    resumable rec (gd_index (generation_dir id r));
  gb_one id id' rec rec' : read_record r id = Ok rec → gr_state rec = Building →
    read_record r id' = Ok rec' → gr_state rec' = Building → id' = id }.

(** The invariant, with what is served. *)
Definition catalog_served o : Prop := ∀ p dir, o = Ok (p, dir) → catalog_dir dir.
Definition built_serving o s : Prop := serving o s ∧ gens_built (gs_root s).
Definition built_root s : Prop := ∃ o, built_serving o s ∧ catalog_served o.

Definition only_building id r : Prop :=
  ∀ id' rec, read_record r id' = Ok rec → gr_state rec = Building → id' = id.

(** These generations are not being built. *)
Definition calm (X : string → Prop) r : Prop :=
  ∀ id rec, X id → read_record r id = Ok rec → gr_state rec ≠ Building.

Lemma no_file_settled : consistent no_file.
Proof. split; [apply no_file_ok|done| |done]. intros x [(e & [[=]|[=]] & _)|(b & [=] & _)]. Qed.

Lemma gens_settled r id : gens_built r → consistent (gd_state (generation_dir id r)).
Proof.
  intros Hg. unfold generation_dir. destruct (generation_map r !! id) as [d|] eqn:Hd; simpl; [by eapply gb_settled|].
  apply no_file_settled.
Qed.

(** A retired record is written over one that is not building. *)
Lemma settled_rewritten rec f f' :
  consistent f → rewritten rec f f' → gr_state rec ≠ Failed →
  (gr_state rec = Retired → ∀ x, read_json ContentGenerationRecord f = Ok x → gr_state x ≠ Building) →
  consistent f'.
Proof.
  intros [Hok Hp Hf Hr] (Hok' & Hplain & Hcase) Hst Hover. rewrite Hp in Hplain, Hcase.
  destruct Hcase as [[Hrd Hheld]|[Hrd Hheld]].
  - assert (∀ x, may_say f' x → x = rec ∨ read_json ContentGenerationRecord f = Ok x) as Hin.
    { intros x [->|[[? [=]]|Hx]]%Hheld; auto. }
    split; [done|done| |].
    + intros x [->|Hxr%read_json_held]%Hin; [done|by apply Hf|done].
    + rewrite Hrd. intros rec' x [= <-] Hret [->|Hxr]%Hin; [congruence|by apply Hover].
  - split; [done|done|by intros x ?%Hheld; apply Hf|]. rewrite Hrd. intros rec' x Hrec Hret ?%Hheld. by eapply Hr.
Qed.

Lemma held_removed m d x : may_say (gd_state (partly_removed m d)) x → may_say (gd_state d) x.
Proof.
  assert (∀ b f e, slot_envelope (kept b f) = Some e → slot_envelope f = Some e) as Hk by (by intros [] f e).
  unfold may_say. destruct m as [b0 b1 bp i]. simpl. intros [(e & [He%Hk|He%Hk] & Hx)|(bytes & Hb & Hx)]; [eauto..|].
  destruct bp; [eauto|done].
Qed.

Lemma read_record_put id id' d r :
  read_record (put_generation id d r) id'
  = if decide (id' = id) then map_err json_error (read_json ContentGenerationRecord (gd_state d)) else read_record r id'.
Proof. unfold read_record. rewrite generation_dir_put. by case_decide. Qed.

Lemma gens_put r id d :
  gens_built r → valid_generation_id id = true → consistent (gd_state d) →
  (∀ rec, read_json ContentGenerationRecord (gd_state d) = Ok rec →
     gr_state rec ≠ Failed ∧ (gr_state rec = Building → resumable rec (gd_index d) ∧ only_building id r)) →
  gens_built (put_generation id d r).
Proof.
  intros [Hse Hval Hf Hb H1] Hid Hset Hd.
  assert (∀ rec, map_err json_error (read_json ContentGenerationRecord (gd_state d)) = Ok rec →
    read_json ContentGenerationRecord (gd_state d) = Ok rec) as Hme by (intros rec; apply map_err_Ok).
  split.
  - intros id' d'. unfold put_generation, generation_map. simpl. rewrite lookup_insert_Some.
    intros [[<- <-]|[_ Hd']]; [done|by eapply Hse].
  - intros id'. unfold put_generation, generation_map. simpl. rewrite lookup_insert_is_Some'.
    intros [<-|?]; [done|by apply Hval].
  - intros id' rec. rewrite read_record_put. case_decide; [intros ?%Hme; by apply Hd|apply Hf].
  - intros id' rec. rewrite read_record_put, generation_dir_put. case_decide; [intros ?%Hme ?; by apply Hd|apply Hb].
  - intros id1 id2 rec1 rec2. rewrite !read_record_put. repeat case_decide; subst; try done.
    + intros Hr1%Hme Hs1 Hr2 Hs2. destruct (Hd rec1 Hr1) as [_ Hb1]. destruct (Hb1 Hs1) as [_ Ho]. by eapply Ho.
    + intros Hr1 Hs1 Hr2%Hme Hs2. destruct (Hd rec2 Hr2) as [_ Hb2]. destruct (Hb2 Hs2) as [_ Ho]. symmetry. by eapply Ho.
    + apply H1.
Qed.

(** Writing a record that fits its index; the generations [X] stay calm. *)
Lemma b_write_calm o rec dir (X : string → Prop) (P : gstate → Prop) :
  let id := gr_generation_id rec in
  valid_generation_id id = true → gr_state rec ≠ Failed → (gr_state rec = Building → resumable rec dir ∧ ¬ X id) →
  (∀ s, P s → (built_serving o s ∧ gd_index (generation_dir id (gs_root s)) = dir) ∧ calm X (gs_root s)) →
  (∀ s, P s → gr_state rec = Building → not_active o id ∧ only_building id (gs_root s)) →
  (gr_state rec = Retired → X id) →
  gtriple P (write_record_file env id rec)
    (λ _ s, built_serving o s ∧ gd_index (generation_dir id (gs_root s)) = dir ∧ read_record (gs_root s) id = Ok rec
       ∧ calm X (gs_root s))
    (λ s, built_serving o s ∧ calm X (gs_root s)).
Proof.
  intros id Hv Hst Hres HP Hb HX. eapply g_conseq;
    [apply (g_write_record env B HB o id rec P
       (λ r, (gens_built r ∧ gd_index (generation_dir id r) = dir) ∧ calm X r))|done| |].
  - done.
  - intros s Hs. by apply HP in Hs as [[[? _] _] _].
  - intros s p Hs Hp Hid Hbl. destruct (HP s Hs) as [[[Hsv _] _] _]. destruct (serving_pointer _ _ _ Hsv Hp) as [d ->].
    destruct (Hb s Hs Hbl) as [Hna _]. by apply (Hna p d).
  - intros s f Hs Hf Hre. destruct (HP s Hs) as [[[Hsv Hg] Hd] Hcalm].
    assert (∀ x, read_json ContentGenerationRecord (gd_state (generation_dir id (gs_root s))) = Ok x →
      read_record (gs_root s) id = Ok x) as Hrr by (intros x Hx; unfold read_record; by rewrite Hx).
    split; [split; [|by rewrite generation_dir_put, decide_True by done]|].
    + apply gens_put; [done..| |].
      * eapply settled_rewritten; [by apply gens_settled|done|done|].
        intros Hret x Hx%Hrr. eapply Hcalm; [by apply HX|done].
      * simpl. intros rec' Hrec'. destruct Hf as [Hf|Hf]; rewrite Hf in Hrec'.
        { injection Hrec' as <-. split; [done|]. intros Hbl. rewrite Hd. split; [by apply Hres|by apply Hb]. }
        apply Hrr in Hrec'. split; [by eapply gb_failed|]. intros Hbl. split; [by eapply gb_building|].
        intros id' rec2 H1 H2. by eapply (gb_one _ Hg id id').
    + intros id' rec' Hx. rewrite read_record_put. case_decide as Hid; [subst id'|by apply Hcalm].
      intros Hrec'%map_err_Ok. simpl in Hrec'. destruct Hf as [Hf|Hf]; rewrite Hf in Hrec'.
      * injection Hrec' as <-. intros Hbl. by apply Hres.
      * apply Hrr in Hrec'. by eapply Hcalm.
  - intros [] s [[Hs [[Hg Hd] Hc]] Hr]. done.
  - intros s [Hs [[Hg _] Hc]]. done.
Qed.

(** Writing a record that does not retire a generation. *)
Lemma b_write o rec dir (P : gstate → Prop) :
  let id := gr_generation_id rec in
  valid_generation_id id = true → gr_state rec ≠ Failed → gr_state rec ≠ Retired →
  (gr_state rec = Building → resumable rec dir) →
  (∀ s, P s → built_serving o s ∧ gd_index (generation_dir id (gs_root s)) = dir) →
  (∀ s, P s → gr_state rec = Building → not_active o id ∧ only_building id (gs_root s)) →
  gtriple P (write_record_file env id rec)
    (λ _ s, built_serving o s ∧ gd_index (generation_dir id (gs_root s)) = dir ∧ read_record (gs_root s) id = Ok rec)
    (built_serving o).
Proof.
  intros id Hv Hf Hret Hres HP Hb.
  eapply g_conseq; [apply (b_write_calm o rec dir (λ _, False) P)|..]; [done|done|by auto| |done|done|done| |].
  - intros s Hs. split; [by apply HP|by intros ? ? []].
  - by intros [] s (? & ? & ? & _).
  - by intros s [? _].
Qed.

Definition keeps_built {A} (m : St gstate ContentIndexError A) : Prop :=
  ∀ o, gtriple (built_serving o) m (λ _, built_serving o) (built_serving o).

Lemma built_tick o s : built_serving o s → built_serving o (MkGstate (gs_root s) (S (gs_tick s))).
Proof. intros [Hs Hg]. split; [by apply serving_tick|done]. Qed.

Lemma b_ask {A} (f : nat → A) : keeps_built (ask f).
Proof. intros o. apply g_ask. intros s. apply built_tick. Qed.
Lemma b_lift {A} (x : result ContentIndexError A) : keeps_built (st_lift x).
Proof. intros o. by apply g_lift. Qed.
Lemma b_ask_ok {A} (f : nat → result ContentIndexError A) : keeps_built (ask_ok f).
Proof. intros o. unfold ask_ok. eapply g_bind; [apply b_ask|]. intros x. apply b_lift. Qed.
Lemma b_get {A} (f : ContentRoot → A) : keeps_built (root_get f).
Proof. intros o. by apply g_get. Qed.

(** Writing a record that is neither building nor failed. *)
Definition built_calm (X : string → Prop) o s : Prop := built_serving o s ∧ calm X (gs_root s).

Lemma b_write_other o X rec :
  valid_generation_id (gr_generation_id rec) = true → gr_state rec ≠ Failed → gr_state rec ≠ Building →
  (gr_state rec = Retired → X (gr_generation_id rec)) →
  gtriple (built_calm X o) (write_record env rec) (λ _, built_calm X o) (built_calm X o).
Proof.
  intros Hv Hf Hb HX. apply g_pre with (P' := λ s, ∃ dir, (built_serving o s
    ∧ gd_index (generation_dir (gr_generation_id rec) (gs_root s)) = dir) ∧ calm X (gs_root s)).
  { intros s [Hs Hc]. eauto. }
  apply g_exists; [apply grows_write_record|]. intros dir.
  eapply g_conseq; [apply (b_write_calm o rec dir X (λ s, (built_serving o s
    ∧ gd_index (generation_dir (gr_generation_id rec) (gs_root s)) = dir) ∧ calm X (gs_root s)))
    |done|by intros [] s (? & _ & _ & ?)|done]; by auto.
Qed.

(** Writing an active record. *)
Lemma b_write_active rec :
  valid_generation_id (gr_generation_id rec) = true → gr_state rec = Active → keeps_built (write_record env rec).
Proof.
  intros Hv Hst o. eapply g_conseq; [apply (b_write_other o (λ _, False) rec); [done|by rewrite Hst..]| | |].
  - intros s Hs. split; [done|by intros ? ? []].
  - by intros [] s [? _].
  - by intros s [? _].
Qed.

Lemma gens_same r r' : generation_map r' = generation_map r → gens_built r → gens_built r'.
Proof.
  intros Hm [H0 H1 H2 H3 H4].
  assert (∀ id, generation_dir id r' = generation_dir id r) as Hd by (intros id; unfold generation_dir; by rewrite Hm).
  assert (∀ id, read_record r' id = read_record r id) as Hr by (intros id; unfold read_record; by rewrite Hd).
  split; [by rewrite Hm|by rewrite Hm| | |]; setoid_rewrite Hr; [done|setoid_rewrite Hd; done|done].
Qed.

Lemma b_set (f : ContentRoot → ContentRoot) :
  (∀ r, cr_active (f r) = cr_active r ∧ generation_map (f r) = generation_map r) → keeps_built (root_set f).
Proof.
  intros Hf o. split; [intros s; simpl; lia|]. intros s [Hs Hg] Hlt. split.
  - exact (proj2 (keeps_set B f Hf o) s Hs Hlt).
  - simpl. eapply gens_same; [apply Hf|done].
Qed.

Lemma b_recover_record o X active rec :
  valid_generation_id (gr_generation_id rec) = true → (gr_state rec ≠ Building → X (gr_generation_id rec)) →
  gtriple (built_calm X o) (recover_record env active rec) (λ _, built_calm X o) (built_calm X o).
Proof.
  intros Hv HX. unfold recover_record, desired_state, unix_time_millis.
  repeat case_decide; try (by apply g_ret);
    (eapply g_bind with (Q' := λ _, built_calm X o);
     [by apply g_ask; intros s [Hs Hc]; split; [apply built_tick|]|intros now; apply b_write_other; [done|done|done|]]).
  - done.
  - intros _. apply HX. congruence.
Qed.

Lemma b_recover_lifecycle : keeps_built (recover_lifecycle env).
Proof.
  intros o. unfold recover_lifecycle. eapply g_bind; [apply b_get|]. intros [p|x]; [|by apply g_ret].
  eapply g_bind; [apply b_lift|]. intros [].
  eapply g_bind with (Q' := λ rs s, built_serving o s ∧ rs = records (gs_root s)); [by apply g_get|]. intros rrs.
  set (X := λ (rs : list ContentGenerationRecord) id, ∃ rec, rec ∈ rs ∧ gr_generation_id rec = id ∧ gr_state rec ≠ Building).
  eapply g_bind with (Q' := λ rs s, built_calm (X rs) o s ∧ Forall (λ rec, valid_generation_id (gr_generation_id rec) = true) rs).
  { apply g_lift; [|by intros s [? _]]. intros rs s -> [Hs Hrs]. pose proof Hs as [[Hr _] _]. split.
    - split; [done|]. intros id rec (rec0 & Hin & <- & Hst).
      destruct (records_elem _ _ _ _ Hr (eq_sym Hrs) Hin) as (_ & -> & _). by intros [= <-].
    - apply Forall_forall. intros rec Hin. by destruct (records_elem _ _ _ _ Hr (eq_sym Hrs) Hin). }
  assert (∀ rec, grows (recover_record env (ap_generation_id p) rec)) as Hgr
    by (intros rec; unfold recover_record, write_record; solve_grows).
  intros rs. apply g_pure; [apply grows_each, Hgr|]. intros Hval.
  apply g_conseq with (P' := built_calm (X rs) o) (Q' := λ _, built_calm (X rs) o) (R' := built_calm (X rs) o);
    [|done|by intros ? s [? _]|by intros s [? _]].
  assert (∀ rec, rec ∈ rs → gr_state rec ≠ Building → X rs (gr_generation_id rec)) as HX by (intros rec Hin Hst; by exists rec).
  revert Hval HX. generalize (X rs). intros X' Hval HX.
  induction Hval as [|rec rs Hv _ IH]; simpl; [by apply g_ret|].
  eapply g_bind with (Q' := λ _, built_calm X' o); [apply b_recover_record; [done|apply HX; left]|].
  intros []. apply IH. intros rec' Hin. apply HX. by right.
Qed.

Lemma b_manager_open : keeps_built (manager_open env).
Proof.
  intros o. unfold manager_open. eapply g_bind; [apply b_get|]. intros direct.
  eapply g_bind; [apply b_lift|]. intros []. eapply g_bind; [apply b_ask|]. intros made.
  eapply g_bind; [apply b_lift|]. intros []. eapply g_bind; [by apply b_set|]. intros [].
  eapply g_bind; [apply b_get|]. intros marker. 
  eapply g_bind with (Q' := λ _, built_serving o); [|intros []; apply b_recover_lifecycle].
  destruct marker; [apply b_lift|]. eapply g_bind; [apply b_ask|].
  intros [| |k]; [by apply b_set|by apply g_fail|]. eapply g_bind; [by apply b_set|]. intros []. by apply g_fail.
Qed.

Lemma gens_remove r gens id :
  gens_built r → (∀ id', id' ≠ id → gens !! id' = generation_map r !! id') → gens !! id = None →
  gens_built (set_generations (Some gens) r).
Proof.
  intros [H0 H1 H2 H3 H4] Hother Hid. set (r' := set_generations (Some gens) r).
  assert (∀ id' rec, read_record r' id' = Ok rec → read_record r id' = Ok rec ∧ generation_dir id' r' = generation_dir id' r) as Hr.
  { intros id' rec Hrec. pose proof (read_record_exists _ _ _ Hrec) as [d Hd]. unfold read_record, generation_dir in *.
    change (generation_map r') with gens in *. destruct (decide (id' = id)) as [->|Hne]; [congruence|].
    rewrite (Hother id' Hne) in *. done. }
  split.
  - intros id' d. change (generation_map r') with gens. intros Hd.
    destruct (decide (id' = id)) as [->|Hne]; [congruence|]. eapply H0. by rewrite <-Hother, Hd.
  - intros id'. change (generation_map r') with gens. intros [d Hd].
    destruct (decide (id' = id)) as [->|Hne]; [congruence|]. apply H1. by rewrite <-Hother, Hd.
  - intros id' rec [Hrec _]%Hr. by eapply H2.
  - intros id' rec [Hrec ->]%Hr. by eapply H3.
  - intros a b ra rb [Ha _]%Hr Hsa [Hb _]%Hr Hsb. by eapply H4.
Qed.

Lemma settled_removed m d :
  consistent (gd_state d) → (∀ x, may_say (gd_state d) x → gr_state x ≠ Building) → consistent (gd_state (partly_removed m d)).
Proof.
  intros [[H0 H1] Hp Hf _] Hquiet. assert (∀ b f e, slot_envelope (kept b f) = Some e → slot_envelope f = Some e) as Hk
    by (by intros [] f e). split.
  - split; simpl; [intros e He%Hk; by apply H0|intros e He%Hk; by apply H1].
  - simpl. rewrite Hp. by destruct (rm_plain m).
  - intros x Hx%held_removed. by apply Hf.
  - intros rec x _ _ Hx%held_removed. by apply Hquiet.
Qed.

(** What a removal leaves of a generation that says nothing of building is not taken for one that is
    being built. *)
Lemma gens_removal r gens id :
  gens_built r → (∀ id', id' ≠ id → gens !! id' = generation_map r !! id') →
  removal_left (generation_map r !! id) (gens !! id) →
  (∀ d x, generation_map r !! id = Some d → may_say (gd_state d) x → gr_state x ≠ Building) →
  gens_built (set_generations (Some gens) r).
Proof.
  intros Hg Hother [Hnone|(d & m & Hd & Ha)] Hquiet; [by eapply gens_remove|].
  assert (gens = <[id := partly_removed m d]> (generation_map r)) as ->.
  { apply map_eq. intros id'. destruct (decide (id' = id)) as [->|Hne]; [by rewrite lookup_insert_eq|].
    rewrite lookup_insert_ne by done. by apply Hother. }
  pose proof (gb_settled _ Hg id d Hd) as Hset.
  pose proof (settled_removed m d Hset (λ x, Hquiet d x Hd)) as Hset'.
  apply (gens_put r id); [done|apply (gb_valid _ Hg); by rewrite Hd|done|].
  intros rec Hrec%read_json_held; [|apply Hset']. split; [by apply (se_failed _ Hset')|].
  intros Hbl. apply held_removed in Hrec. by destruct (Hquiet d rec Hd Hrec).
Qed.

(** Collection: the generations that were retired when it began say nothing of building. *)
Lemma b_collect_garbage n : keeps_built (collect_garbage env n).
Proof.
  intros o. apply g_pre with (P' := λ s, ∃ r0, built_serving o s ∧ gs_root s = r0); [eauto|].
  apply g_exists; [intros s; apply (proj1 (g_collect env B o n (λ _, False) (λ _, True) ltac:(done) ltac:(done)))|]. intros r0.
  set (quiet := λ r, ∀ id rec d x, read_record r0 id = Ok rec → gr_state rec = Retired →
    generation_map r !! id = Some d → may_say (gd_state d) x → gr_state x ≠ Building).
  eapply g_conseq; [apply (g_collect env B o n (λ s, built_serving o s ∧ gs_root s = r0)
    (λ r, gens_built r ∧ quiet r))|done|..].
  - intros s [[Hs Hg] <-]. split; [done|]. split; [done|].
    intros id rec d x Hrec Hret Hd Hx. eapply (se_retired _ (gb_settled _ Hg id d Hd)); [|done|done].
    unfold read_record, generation_dir in Hrec. rewrite Hd in Hrec. by apply map_err_Ok in Hrec.
  - intros s rec r gens [[_ Hg0] <-] Hrd Hst [Hg Hq] Hother Hleft.
    assert (gr_state rec = Retired) as Hret by (destruct Hst as [Hst|]; [|done]; by destruct (gb_failed _ Hg0 _ _ Hrd)).
    set (id := gr_generation_id rec) in *. split; [eapply gens_removal; [done..|]; intros d x; by eapply Hq|].
    intros id' rec' d' x Hrec' Hret' Hd' Hx. change (gens !! id' = Some d') in Hd'.
    destruct (decide (id' = id)) as [->|Hne]; [|eapply Hq; [done..| |done]; by rewrite <-Hother].
    destruct Hleft as [Hnone|(d & m & Hd & Ha)]; [congruence|]. rewrite Hd' in Ha. injection Ha as ->.
    eapply Hq; [done..|by apply held_removed in Hx].
  - intros ? s [Hs [Hg _]]. by split.
  - intros s [Hs [Hg _]]. by split.
Qed.

(** *** Creating and recovering *)

Definition no_building r : Prop := ∀ id rec, read_record r id = Ok rec → gr_state rec ≠ Building.

(** The record in memory continues the one on disk. *)
Definition on_disk rec r : Prop :=
  ∃ rec0, read_record r (gr_generation_id rec) = Ok rec0 ∧ gr_state rec0 = Building
    ∧ gr_version rec = gr_version rec0 ∧ gr_root_ids rec = gr_root_ids rec0
    ∧ gr_last_checkpoint rec = gr_last_checkpoint rec0 ∧ gr_documents_projected rec = gr_documents_projected rec0.
Definition building_at o rec s : Prop := built_serving o s ∧ on_disk rec (gs_root s).

Lemma on_disk_self rec r :
  read_record r (gr_generation_id rec) = Ok rec → gr_state rec = Building → on_disk rec r.
Proof. intros. by exists rec. Qed.

Lemma on_disk_resumable rec r :
  gens_built r → on_disk rec r →
  resumable rec (gd_index (generation_dir (gr_generation_id rec) r)) ∧ only_building (gr_generation_id rec) r.
Proof.
  intros Hg (rec0 & Hr & Hst & Hv & Hroots & Hc & Hn). split.
  - unfold resumable. rewrite Hv, Hroots, Hc, Hn. by eapply gb_building.
  - intros id rec' Hr' Hst'. by eapply (gb_one _ Hg (gr_generation_id rec) id).
Qed.

(** A generation whose state file does not exist yet. *)
Lemma b_put_fresh o id (f : ContentRoot → GenerationDir) (P : gstate → Prop) (F : ContentRoot → Prop) :
  not_active o id → valid_generation_id id = true →
  (∀ s, P s → built_serving o s ∧ gd_state (f (gs_root s)) = no_file ∧ F (put_generation id (f (gs_root s)) (gs_root s))) →
  gtriple P (root_set (λ r, put_generation id (f r) r)) (λ _ s, built_serving o s ∧ F (gs_root s)) (built_serving o).
Proof.
  intros Hna Hv HP. apply g_set. intros s Hs. destruct (HP s Hs) as ([[Hr Ho] Hg] & Hd & HF).
  assert (file_ok (gs_tick s) (gd_state (f (gs_root s))) ∧ names id (gd_state (f (gs_root s)))) as [Hfo Hn].
  { rewrite Hd. split; [split; [apply no_file_ok|apply Nat2Z.is_nonneg]|].
    intros rec [(e & [[=]|[=]] & _)|(b & [=] & _)]. }
  split; [|done]. split; [by apply put_inactive|].
  apply gens_put; [done|done|rewrite Hd; apply no_file_settled|]. rewrite Hd. by intros rec Hrec.
Qed.

Lemma b_create_generation o :
  gtriple (λ s, built_serving o s ∧ no_building (gs_root s)) (new_generation env roots policy)
    (λ rec s, building_at o rec s ∧ building_here o rec) (built_serving o).
Proof.
  set (P := λ s, built_serving o s ∧ no_building (gs_root s)).
  assert (∀ A (f : nat → A), gtriple P (ask f) (λ _, P) (built_serving o)) as Hask.
  { intros A f. apply g_ask. intros s [Hs Hn]. split; [by apply built_tick|done]. }
  unfold new_generation, unix_time_millis. eapply g_bind; [apply Hask|]. intros g'.
  eapply g_bind with (Q' := λ _, P); [apply g_lift; [done|by intros s [? _]]|]. intros target.
  eapply g_bind; [apply Hask|]. intros now.
  eapply g_bind with (Q' := λ gens s, P s ∧ gens = generation_map (gs_root s)); [by apply g_get|].
  intros gens. eapply g_bind with (Q' := λ id s, P s ∧ not_active o id ∧ valid_generation_id id = true).
  { apply g_lift; [|by intros s [[? _] _]]. intros id s Hid%ok_or_Ok [[[Hs Hg] Hn] ->].
    apply find_generation_id_fresh in Hid as [Hnew Hv]. split; [done|]. split; [|done].
    intros p d -> <-. destruct Hs as [Hr Ho]. assert (active_pointer (gs_root s) = Ok p) as Hp
      by (rewrite served_pointer, Ho; done). destruct (rk_exists _ _ Hr p Hp) as [x Hx]. congruence. }
  intros id. apply g_pure; [unfold write_record, write_record_file; solve_grows|]. intros [Hna Hv].
  eapply g_bind; [apply Hask|]. intros made.
  eapply g_bind with (Q' := λ _, P); [apply g_lift; [done|by intros s [? _]]|]. intros [].
  assert (∀ (d : GenerationDir) r, gd_state d = no_file → no_building r → no_building (put_generation id d r)) as Hput.
  { intros d r Hd Hn id' rec. rewrite read_record_put. case_decide; [rewrite Hd; done|apply Hn]. }
  eapply g_bind with (Q' := λ _ s, built_serving o s
    ∧ no_building (gs_root s) ∧ gd_state (generation_dir id (gs_root s)) = no_file).
  { apply (b_put_fresh o id (λ _, empty_generation) P (λ r, no_building r ∧ gd_state (generation_dir id r) = no_file)); [done..|].
    intros s [Hs Hn]. split; [done|]. split; [done|]. split; [by apply Hput|]. by rewrite generation_dir_put, decide_True. }
  intros []. set (P2 := λ s, built_serving o s ∧ no_building (gs_root s) ∧ gd_state (generation_dir id (gs_root s)) = no_file).
  assert (∀ A (f : nat → A), gtriple P2 (ask f) (λ _, P2) (built_serving o)) as Hask2.
  { intros A f. apply g_ask. intros s [Hs Hn]. split; [by apply built_tick|done]. }
  eapply g_bind; [apply Hask2|]. intros creation.
  eapply g_bind with (Q' := λ files s, P2 s ∧ ∃ n, files = ge_files env n).
  { apply g_ask. intros s [Hs Hn]. split; [split; [by apply built_tick|done]|eauto]. }
  intros files. apply g_pure; [unfold write_record; solve_grows|]. intros [n ->].
  destruct (content_build creation (ge_files env n) None [] policy) as [built0 dir] eqn:Hbuild.
  eapply g_bind with (Q' := λ _ s, built_serving o s
    ∧ no_building (gs_root s) ∧ gd_index (generation_dir id (gs_root s)) = dir).
  { apply (b_put_fresh o id (λ r, MkGenerationDir (gd_state (generation_dir id r)) dir) P2
      (λ r, no_building r ∧ gd_index (generation_dir id r) = dir)); [done..|].
    intros s (Hs & Hn & Hd). split; [done|]. split; [done|]. split; [by apply Hput|]. by rewrite generation_dir_put, decide_True. }
  intros []. eapply g_bind with (Q' := λ init s, (built_serving o s
    ∧ no_building (gs_root s) ∧ gd_index (generation_dir id (gs_root s)) = dir) ∧ built0 = Ok init).
  { apply g_lift; [by intros|by intros s [? _]]. }
  intros init. apply g_pure; [unfold write_record; solve_grows|]. intros ->.
  assert (dir_built (ge_files env) g policy dir None 0) as Hfresh by (by eapply fresh_built).
  eapply g_bind with (Q' := λ _ s, built_serving o s
    ∧ no_building (gs_root s) ∧ gd_index (generation_dir id (gs_root s)) = dir).
  { unfold ask_ok. eapply g_bind with (Q' := λ _ s, built_serving o s
      ∧ no_building (gs_root s) ∧ gd_index (generation_dir id (gs_root s)) = dir).
    - apply g_ask. intros s [Hs Hn]. split; [by apply built_tick|done].
    - intros x. apply g_lift; [done|by intros s [? _]]. }
  intros bytes. eapply g_bind.
  { apply (b_write o (MkContentGenerationRecord GENERATION_MANAGER_VERSION id ("scan-" +:+ id) Building target
                  roots None 0 0 0 0 (su_generation init) bytes None now now) dir); [done..| |].
    - by intros s (Hs & Hn & Hd).
    - intros s (Hs & Hn & Hd) _. split; [done|]. intros id' rec Hr Hst. by destruct (Hn id' rec Hr). }
  intros []. apply g_ret. intros s (Hs & Hd & Hr). split; [|done]. split; [done|]. by apply on_disk_self.
Qed.

(** Every readable record is listed. *)
Lemma records_listed r rs id rec :
  records r = Ok rs → valid_generation_id id = true → read_record r id = Ok rec → rec ∈ rs.
Proof.
  intros (gens & Hg%ok_or_Ok & Hrs)%result_bind_Ok Hv Hrec.
  destruct (read_record_exists _ _ _ Hrec) as [d Hd]. unfold read_record, generation_dir in Hrec. rewrite Hd in Hrec.
  apply map_err_Ok in Hrec. simpl in Hrec.
  assert ((id, d) ∈ map_to_list gens) as Hin by (apply elem_of_map_to_list; unfold generation_map in Hd; by rewrite Hg in Hd).
  assert (durable_json_exists (gd_state d) = true) as Hex.
  { apply bool_decide_eq_true. destruct d as [[[|] [|] [|]] i]; naive_solver eauto. }
  clear Hg Hd. revert rs Hrs Hin. induction (map_to_list gens) as [|[id' d'] l IH]; intros rs Hrs Hin; [set_solver|].
  simpl in Hrs. apply elem_of_cons in Hin as [[= <- <-]|Hin].
  - rewrite Hv, Hex in Hrs. simpl in Hrs. rewrite Hrec in Hrs. simpl in Hrs.
    apply result_bind_Ok in Hrs as (xs & _ & [= <-]). left.
  - destruct (_ && _); [|by eapply IH]. apply result_bind_Ok in Hrs as (x & _ & Hrs).
    apply result_bind_Ok in Hrs as (xs & Hxs & [= <-]). right. by eapply IH.
Qed.

(** The records that are building: none, or the one that is resumed. *)
Lemma building_listed o s rs :
  built_serving o s → records (gs_root s) = Ok rs →
  let bs := merge_sort newer_first (filter (λ x, is_building x = true) rs) in
  (∀ rec, rec ∈ bs → building_at o rec s ∧ building_here o rec ∧ gr_version rec = GENERATION_MANAGER_VERSION ∧ gr_root_ids rec = roots)
  ∧ (bs = [] → no_building (gs_root s)).
Proof.
  intros Hs Hrs bs. pose proof Hs as [[Hr Ho] Hg].
  assert (∀ rec, rec ∈ bs ↔ rec ∈ rs ∧ gr_state rec = Building) as Hbs.
  { intros rec. unfold bs. rewrite merge_sort_Permutation, list_elem_of_filter. unfold is_building.
    rewrite bool_decide_eq_true. tauto. }
  split.
  - intros rec [Hin Hst]%Hbs. destruct (records_elem _ _ _ _ Hr Hrs Hin) as (Hv & Hread1 & _).
    destruct (gb_building _ Hg _ _ Hread1 Hst) as (Hver & Hroots & _).
    split; [split; [done|by apply on_disk_self]|]. split; [|done]. split; [|done].
    eapply building_not_active; [by split|done..].
  - intros Hnil id rec Hrec Hst. destruct (read_record_exists _ _ _ Hrec) as [d Hd].
    assert (rec ∈ bs) as Hin.
    { apply Hbs. split; [|done]. eapply records_listed; [done| |done]. apply (gb_valid _ Hg). by rewrite Hd. }
    rewrite Hnil in Hin. by apply not_elem_of_nil in Hin.
Qed.

Lemma read_record_files_ids l rs :
  read_record_files l = Ok rs → NoDup l.*1 →
  (∀ id d rec, (id, d) ∈ l → read_json ContentGenerationRecord (gd_state d) = Ok rec → gr_generation_id rec = id) →
  NoDup (gr_generation_id <$> rs) ∧ ∀ id, id ∈ gr_generation_id <$> rs → id ∈ l.*1.
Proof.
  revert rs. induction l as [|[id d] l IH]; intros rs Hrs Hnd Hn; simpl in Hrs.
  { injection Hrs as <-. split; [constructor|done]. }
  apply NoDup_cons in Hnd as [Hid Hnd].
  assert (∀ xs, read_record_files l = Ok xs → NoDup (gr_generation_id <$> xs) ∧ ∀ i, i ∈ gr_generation_id <$> xs → i ∈ l.*1) as Hrest.
  { intros xs Hxs. apply IH; [done..|]. intros i d' rec Hin. apply Hn. by right. }
  destruct (_ && _).
  - apply result_bind_Ok in Hrs as (x & Hx%map_err_Ok & Hrs). apply result_bind_Ok in Hrs as (xs & Hxs & [= <-]).
    destruct (Hrest xs Hxs) as [H1 H2]. rewrite fmap_cons, (Hn id d x ltac:(left) Hx). split.
    + apply NoDup_cons. split; [|done]. by intros ?%H2.
    + intros i [->|Hi]%elem_of_cons; [left|right; by apply H2].
  - destruct (Hrest rs Hrs) as [H1 H2]. split; [done|]. intros i Hi. right. by apply H2.
Qed.

Lemma records_ids t r rs : root_ok t r → records r = Ok rs → NoDup (gr_generation_id <$> rs).
Proof.
  intros Hr (gens & Hgens%ok_or_Ok & Hrs)%result_bind_Ok. eapply read_record_files_ids; [done|apply NoDup_fst_map_to_list|].
  intros id d rec Hin%elem_of_map_to_list Hj. eapply (read_record_name _ r); [done|].
  unfold read_record, generation_dir, generation_map. rewrite Hgens. simpl. rewrite Hin. simpl. by rewrite Hj.
Qed.

Lemma building_unique o s rs :
  built_serving o s → records (gs_root s) = Ok rs →
  length (merge_sort newer_first (filter (λ x, is_building x = true) rs)) ≤ 1.
Proof.
  intros Hs Hrs. destruct (building_listed o s rs Hs Hrs) as [Hall _]. pose proof Hs as [[Hr _] Hg].
  pose proof (filter_fmap_NoDup gr_generation_id (λ x, is_building x = true) rs (records_ids _ _ _ Hr Hrs)) as Hnd.
  rewrite <-(merge_sort_Permutation newer_first) in Hnd.
  destruct (merge_sort _ _) as [|rec [|rec2 bs]]; [simpl; lia..|].
  destruct (Hall rec ltac:(left)) as ([_ (rec1 & Hr1 & Hst1 & _)] & _ & _).
  destruct (Hall rec2 ltac:(right; left)) as ([_ (rec3 & Hr3 & Hst3 & _)] & _ & _).
  pose proof (gb_one _ Hg _ _ _ _ Hr1 Hst1 Hr3 Hst3) as Heq.
  rewrite !fmap_cons, Heq in Hnd. apply NoDup_cons in Hnd as [Hnd _]. destruct Hnd. left.
Qed.

Lemma b_recover_or_create o :
  gtriple (built_serving o) (recover_or_create_building env roots policy)
    (λ rec s, building_at o rec s ∧ building_here o rec) (built_serving o).
Proof.
  unfold recover_or_create_building.
  eapply g_bind with (Q' := λ rs s, built_serving o s ∧ rs = records (gs_root s)); [by apply g_get|]. intros rrs.
  eapply g_bind with (Q' := λ rs s, built_serving o s ∧ records (gs_root s) = Ok rs).
  { apply g_lift; [by intros rs s -> [? <-]|by intros s [? _]]. }
  intros rs. set (bs := merge_sort newer_first (filter (λ x, is_building x = true) rs)).
  apply g_pre with (P' := λ s, (built_serving o s
    ∧ match bs with [] => no_building (gs_root s) | rec :: _ => building_at o rec s end)
    ∧ match bs with
      | [] => True
      | rec :: bs' => bs' = [] ∧ building_here o rec ∧ gr_version rec = GENERATION_MANAGER_VERSION ∧ gr_root_ids rec = roots
      end).
  { intros s [Hs Hrs]. destruct (building_listed o s rs Hs Hrs) as [Hall Hnone].
    pose proof (building_unique o s rs Hs Hrs) as Huniq. fold bs in Hall, Hnone, Huniq.
    destruct bs as [|rec bs']; [split; [split; [done|by apply Hnone]|done]|].
    destruct (Hall rec ltac:(left)) as (Hat & Hhere & Hv & Hroots). split; [done|]. split; [|done].
    destruct bs' as [|rec2 bs']; [done|]. simpl in Huniq. lia. }
  destruct bs as [|rec bs'].
  - eapply g_bind with (Q' := λ _ s, built_serving o s ∧ no_building (gs_root s)); [by apply g_ret; intros s [? _]|].
    intros []. apply b_create_generation.
  - apply g_pure; [solve_grows|]. intros (-> & Hhere & Hv & Hroots).
    eapply g_bind with (Q' := λ _ s, building_at o rec s); [by apply g_ret; intros s [_ ?]|]. intros [].
    rewrite decide_True by done. by apply g_ret.
Qed.

(** *** Pages *)

Lemma building_tick o rec s : building_at o rec s → building_at o rec (MkGstate (gs_root s) (S (gs_tick s))).
Proof. intros [Hs Hd]. split; [by apply built_tick|done]. Qed.

(** A page goes to the index while the record still says the old cursor. *)
Lemma b_generation_delta o rec page (lim : Z) :
  building_here o rec → (0 < lim)%Z → desired_catalog_page g (gr_last_checkpoint rec) lim = Ok page →
  gtriple (building_at o rec) (generation_delta env (gr_generation_id rec) page policy)
    (λ sum s, building_at o rec s ∧ ∀ c, document_key <$> last page = Some c →
       dir_built (ge_files env) g policy (gd_index (generation_dir (gr_generation_id rec) (gs_root s))) (Some c)
         (saturating_add u64_max (saturating_add u64_max (gr_documents_projected rec) (su_count sum AddedDocuments))
            (su_count sum UnchangedDocuments)))
    (building_at o rec).
Proof.
  intros (Hna & Hst & Hv) Hlim Hpage. unfold generation_delta. set (id := gr_generation_id rec) in *.
  eapply g_bind with (Q' := λ files s, building_at o rec s ∧ ∃ n, files = ge_files env n).
  { apply g_ask. intros s Hs. split; [by apply building_tick|eauto]. }
  intros files. apply g_pure; [solve_grows|]. intros [n ->].
  eapply g_bind with (Q' := λ d s, building_at o rec s ∧ d = generation_dir id (gs_root s)); [by apply g_get|].
  intros d. destruct (apply_delta (ge_files env n) (gd_index d) page [] policy) as [r dir] eqn:Hrun.
  eapply g_bind with (Q' := λ _ s, building_at o rec s ∧ gd_index (generation_dir id (gs_root s)) = dir
    ∧ ∀ sum c, r = Ok sum → document_key <$> last page = Some c → dir_built (ge_files env) g policy dir (Some c)
         (saturating_add u64_max (saturating_add u64_max (gr_documents_projected rec) (su_count sum AddedDocuments))
            (su_count sum UnchangedDocuments))).
  - apply g_set. intros s [[[[Hr Ho] Hg] Hd] ->]. simpl.
    destruct (on_disk_resumable rec (gs_root s) Hg Hd) as [(Hver & Hroots & Hbuilt) Honly].
    destruct (page_built (ge_files env) g policy Hread Hsize _ _ _ lim page n r dir Hlim Hbuilt Hpage Hrun) as [Hsame Hnext].
    destruct (generation_dir_ok _ _ id Hr). destruct Hd as (rec0 & Hr0 & Hst0 & Hv0 & Hro0 & Hc0 & Hn0).
    split; [split|split; [by rewrite generation_dir_put, decide_True|by intros sum c ->; apply Hnext]].
    + split; [by apply put_inactive|]. apply gens_put; [done|done|by apply gens_settled|]. simpl. intros rec' Hrec'.
      assert (rec' = rec0) as -> by (unfold read_record in Hr0; fold id in Hr0; rewrite Hrec' in Hr0; simpl in Hr0; congruence).
      split; [by eapply gb_failed|]. intros _. split; [|done]. unfold resumable. by rewrite <-Hv0, <-Hro0, <-Hc0, <-Hn0.
    + exists rec0. cbn [gs_root]. rewrite read_record_put, decide_True by done. split; [|done]. exact Hr0.
  - intros []. apply g_lift; [|by intros s [? _]]. intros sum s -> (Hs & Hd & Hnext). split; [done|].
    intros c Hc. rewrite Hd. by apply Hnext.
Qed.

Lemma b_commit_page o rec page lim declared :
  building_here o rec → (0 < lim)%Z → desired_catalog_page g (gr_last_checkpoint rec) lim = Ok page →
  gtriple (building_at o rec) (commit_page env rec page declared policy)
    (λ res s, ∃ rec' sum, res = Continue rec' sum ∧ building_at o rec' s ∧ building_here o rec') (built_serving o).
Proof.
  intros Hb Hlim Hpage. unfold commit_page, unix_time_millis. pose proof Hb as (Hna & Hst & Hv).
  eapply g_bind with (Q' := λ c s, building_at o rec s ∧ document_key <$> last page = Some c).
  { apply g_lift; [|by intros s [? _]]. intros c s Hc%ok_or_Ok Hs. done. }
  intros c. apply g_pure; [unfold generation_delta; solve_grows|]. intros Hc.
  eapply g_bind; [eapply g_err; [|by apply (b_generation_delta o rec page lim)]; by intros s [? _]|].
  intros sum. set (rec1 := advance_record c (Z.of_nat (length page)) declared sum rec).
  case_decide; [apply g_fail; by intros s [[? _] _]|].
  set (P := λ s, ∃ dir, building_at o rec s ∧ gd_index (generation_dir (gr_generation_id rec) (gs_root s)) = dir
    ∧ dir_built (ge_files env) g policy dir (Some c) (gr_documents_projected rec1)).
  apply g_pre with (P' := P); [intros s [Hs Hd]; eexists; naive_solver|].
  assert (∀ A (f : nat → A), gtriple P (ask f) (λ _, P) (built_serving o)) as Hask.
  { intros A f. apply g_ask. intros s (dir & Hs & Hd). exists dir. split; [by apply building_tick|done]. }
  eapply g_bind with (Q' := λ _, P).
  { unfold ask_ok. eapply g_bind; [apply Hask|]. intros x. apply g_lift; [done|by intros s (dir & [? _] & _)]. }
  intros bytes. eapply g_bind; [apply Hask|]. intros now. apply g_exists; [solve_grows|]. intros dir.
  set (rec2 := set_gr_bytes bytes now rec1).
  apply g_pre with (P' := λ s, (building_at o rec s ∧ gd_index (generation_dir (gr_generation_id rec) (gs_root s)) = dir)
    ∧ resumable rec2 dir).
  { intros s ([Hs Hd] & Hi & Hdir). split; [done|]. pose proof Hs as [_ Hg].
    destruct (on_disk_resumable rec (gs_root s) Hg Hd) as [(Hver & Hroots & _) _]. done. }
  apply g_pure; [solve_grows|]. intros Hres. eapply g_bind.
  - apply (b_write o rec2 dir); [done|by change (gr_state rec2) with (gr_state rec); rewrite Hst..|done|by intros s [[? _] ?]|].
    intros s [[[_ Hg] Hd] _] _. split; [done|]. exact (proj2 (on_disk_resumable rec _ Hg Hd)).
  - intros []. apply g_ret. intros s (Hs & _ & Hr). exists rec2, sum. split; [done|]. split; [|done].
    split; [done|]. by apply on_disk_self.
Qed.

(** *** Activation *)

(** Nothing is being built. *)
Abbreviation all_calm := (calm (λ _, True)).

Lemma ready_calms id rec r :
  read_record r id = Ok rec → gr_state rec ≠ Building → calm (λ id', id' ≠ id) r → all_calm r.
Proof.
  intros Hr Hst Hc id' rec' _ Hr'. destruct (decide (id' = id)) as [->|Hne]; [congruence|by eapply Hc].
Qed.

Lemma b_write_pointer o p n dir :
  gtriple (λ s, built_calm (λ _, True) o s ∧ complete_record (ap_generation_id p) n (gs_root s)
             ∧ gd_index (generation_dir (ap_generation_id p) (gs_root s)) = dir)
    (write_pointer env p) (λ _, built_calm (λ _, True) (Ok (p, dir)))
    (λ s, built_serving o s ∨ built_serving (Ok (p, dir)) s).
Proof.
  set (G := λ s, gens_built (gs_root s) ∧ all_calm (gs_root s)).
  eapply g_conseq; [eapply (g_and B (write_pointer env p) _ G _ (λ _, G) _ G); [by apply (g_write_pointer env B HB o p n dir)|]| | |].
  - unfold write_pointer. eapply g_bind with (Q' := λ _, G); [by apply g_ask|]. intros out.
    eapply g_bind with (Q' := λ _, G); [by apply g_get|]. intros f.
    destruct (write_json_atomic _ _ _) as [r f'].
    eapply g_bind with (Q' := λ _, G); [|intros []; by apply g_lift].
    apply g_set. intros s [Hs Hc]. split; [by apply (gens_same (gs_root s))|exact Hc].
  - by intros s ([[Hs Hg] Hq] & Hc & Hd).
  - by intros [] s [[Hs _] [Hg Hq]].
  - intros s [[Hs|[Hs _]] [Hg _]]; [by left|by right].
Qed.

Lemma b_retire_previous o previous id :
  gtriple (built_calm (λ _, True) o) (retire_previous env previous id) (λ _, built_calm (λ _, True) o)
    (built_calm (λ _, True) o).
Proof.
  unfold retire_previous. destruct previous as [q|]; [|by apply g_ret].
  destruct (bool_decide _); simpl; [|by apply g_ret]. destruct (valid_generation_id _) eqn:Hv; [|by apply g_ret].
  eapply g_bind with (Q' := λ old s, built_calm (λ _, True) o s ∧ (∀ rec, old = Ok rec → gr_generation_id rec = ap_generation_id q)).
  { apply g_get. intros s Hs. split; [done|]. intros rec Hrec. destruct Hs as [[[Hr _] _] _]. by eapply read_record_name. }
  intros [old|x]; (apply g_pure; [solve_grows|]); intros Hold; [|by apply g_ret].
  unfold unix_time_millis. eapply g_bind with (Q' := λ _, built_calm (λ _, True) o).
  { by apply g_ask; intros s [Hs Hc]; split; [apply built_tick|]. }
  intros now. rewrite <-(Hold old eq_refl).
  apply (b_write_other o _ (set_gr_state Retired now old)); [|done..]. simpl. by rewrite (Hold old eq_refl).
Qed.

(** The generation has taken over and holds the catalog. *)
Definition took_over rec s : Prop :=
  ∃ p dir, built_serving (Ok (p, dir)) s ∧ catalog_dir dir ∧ ap_generation_id p = gr_generation_id rec
    ∧ gr_state rec = Active ∧ valid_generation_id (gr_generation_id rec) = true.

Lemma took_over_root rec s : took_over rec s → built_root s.
Proof. intros (p & dir & Hs & Hd & _). exists (Ok (p, dir)). split; [done|]. by intros p' dir' [= <- <-]. Qed.

Lemma b_activate_validated o rec :
  building_here o rec → documents_after g (gr_last_checkpoint rec) = [] → catalog_served o →
  gtriple (building_at o rec) (activate_validated env rec) (λ rec', took_over rec') built_root.
Proof.
  intros (Hna & Hst & Hv) Hnil Ho. unfold activate_validated, unix_time_millis. set (id := gr_generation_id rec) in *.
  assert (∀ s, built_serving o s → built_root s) as Hroot by (intros s Hs; by exists o).
  eapply g_bind with (Q' := λ count s, building_at o rec s ∧ count = generation_count id (gs_root s)); [by apply g_get|].
  intros count. set (P := λ dir s, (built_serving o s ∧ gd_index (generation_dir id (gs_root s)) = dir)
    ∧ calm (λ id', id' ≠ id) (gs_root s)).
  eapply g_bind with (Q' := λ n s, ∃ dir, P dir s ∧ n = gr_documents_projected rec ∧ catalog_dir dir).
  { apply g_lift; [|intros s [[? _] _]; auto]. intros n s -> [[Hs Hd] Hn]. pose proof Hs as [_ Hg].
    destruct (on_disk_resumable rec _ Hg Hd) as [(_ & _ & Hb) Honly]. unfold generation_count in Hn. symmetry in Hn. fold id in Hb.
    exists (gd_index (generation_dir id (gs_root s))).
    split; [split; [done|intros id' rec' Hne Hr Hbl; apply Hne; by eapply Honly]|]. by eapply dir_built_count. }
  intros n. apply g_exists; [solve_grows|]. intros dir. apply g_pure; [solve_grows|]. intros [-> Hdir].
  rewrite decide_False by naive_solver.
  assert (∀ A (f : nat → A), gtriple (P dir) (ask f) (λ _, P dir) built_root) as Hask.
  { intros A f. apply g_ask. intros s [[Hs Hd] Hc]. split; [split; [by apply built_tick|done]|done]. }
  eapply g_bind; [apply Hask|]. intros now. set (ready := set_gr_state Ready now rec).
  eapply g_bind; [eapply g_err; [|by apply (b_write_calm o ready dir (λ id', id' ≠ id) (P dir))]|].
  { intros s [Hs _]. by apply Hroot. }
  intros []. set (P2 := λ s, built_calm (λ _, True) o s ∧ complete_record id (gr_documents_projected rec) (gs_root s)
    ∧ gd_index (generation_dir id (gs_root s)) = dir).
  apply g_pre with (P' := P2); [|].
  { intros s (Hs & Hd & Hr & Hc). split; [split; [done|by eapply ready_calms]|]. split; [|done]. exists ready. auto. }
  eapply g_bind with (Q' := λ _, P2); [by apply g_get|]. intros previous.
  eapply g_bind with (Q' := λ _, P2).
  { apply g_ask. intros s [[Hs Hc] Hd]. split; [split; [by apply built_tick|done]|done]. }
  intros activated. set (p := MkActiveGenerationPointer GENERATION_MANAGER_VERSION id activated).
  eapply g_bind; [eapply g_err; [|apply (b_write_pointer o p (gr_documents_projected rec) dir)]|].
  { intros s [Hs|Hs]; [auto|]. exists (Ok (p, dir)). split; [done|]. by intros p' dir' [= <- <-]. }
  intros []. apply g_err with (R' := built_serving (Ok (p, dir))).
  { intros s Hs. exists (Ok (p, dir)). split; [done|]. by intros p' dir' [= <- <-]. }
  eapply g_bind; [eapply g_err; [|by apply (b_write_other _ (λ _, True) (set_gr_state Active activated ready))]; by intros s [? _]|].
  intros []. eapply g_bind; [eapply g_err; [|apply b_retire_previous]; by intros s [? _]|]. intros [].
  eapply g_bind; [eapply g_pre; [|apply b_collect_garbage]; by intros s [? _]|].
  intros removed. apply g_ret. intros s Hs. by exists p, dir.
Qed.

(** *** Resuming *)

Definition page_built_post o (res : page_result) s : Prop :=
  match res with
  | Paused rec | Continue rec _ => building_at o rec s ∧ building_here o rec
  | Finished rec => took_over rec s
  end.

Lemma b_resume_page o limits rec :
  building_here o rec → catalog_served o → (0 < batch_documents limits)%Z →
  gtriple (building_at o rec) (resume_page env limits policy rec) (page_built_post o) built_root.
Proof.
  intros Hb Ho Hbatch. unfold resume_page, pause. assert (building_here o (set_gr_capacity None rec)) as Hb' by done.
  set (rec' := set_gr_capacity None rec) in *. apply g_pre with (P' := building_at o rec'); [done|].
  assert (∀ s, building_at o rec' s → built_root s) as Hroot by (intros s [Hs _]; by exists o).
  assert (∀ A (f : nat → A), gtriple (building_at o rec') (ask f) (λ _, building_at o rec') built_root) as Hask
    by (intros A f; apply g_ask; intros s; apply building_tick).
  assert (∀ A (x : result ContentIndexError A) (φ : A → Prop), (∀ a, x = Ok a → φ a) →
    gtriple (building_at o rec') (st_lift x) (λ a s, building_at o rec' s ∧ φ a) built_root) as Hlift
    by (intros A x φ Hx; apply g_lift; [by auto|done]).
  assert (∀ A (f : nat → result ContentIndexError A),
    gtriple (building_at o rec') (ask_ok f) (λ _, building_at o rec') built_root) as Hask_ok.
  { intros A f. unfold ask_ok. eapply g_bind; [apply Hask|]. intros x. by apply g_lift. }
  eapply g_bind; [apply Hask_ok|]. intros disk. eapply g_bind; [apply Hask_ok|]. intros current.
  case_match; [by apply g_ret|]. case_match eqn:Hdocs; [by apply g_ret|]. case_match; [by apply g_ret|].
  set (lim := Z.min _ _). assert (0 < lim)%Z as Hlim.
  { apply Z.leb_gt in Hdocs. unfold lim, saturating_sub. lia. }
  eapply g_bind with (Q' := λ g' s, building_at o rec' s ∧ g' = g).
  { apply g_ask. intros s Hs. split; [by apply building_tick|apply Hgraph]. }
  intros g'. apply g_pure; [solve_grows|]. intros ->.
  eapply g_bind; [apply (Hlift _ _ (λ page, desired_catalog_page g (gr_last_checkpoint rec') lim = Ok page)); by intros page ?%map_err_Ok|].
  intros page. apply g_pure; [solve_grows|]. intros Hpage. destruct page as [|d page].
  - eapply g_bind; [apply b_activate_validated; [done|by eapply empty_page|done]|]. intros rec2. by apply g_ret.
  - case_match; [by apply g_ret|]. case_match; [by apply g_ret|].
    eapply g_conseq; [by apply (b_commit_page o rec' (d :: page) lim)|done| |by intros s Hs; exists o].
    by intros res s (rec2 & sum & -> & Hs).
Qed.

Definition loop_built_post o (res : ContentGenerationRecord * ContentSyncSummary * bool) s : Prop :=
  match res with
  | (rec, _, false) => building_at o rec s ∧ building_here o rec
  | (rec, _, true) => took_over rec s
  end.

Lemma b_resume_loop o fuel limits rec projection :
  building_here o rec → catalog_served o → (0 < batch_documents limits)%Z →
  gtriple (building_at o rec) (resume_loop env fuel limits policy rec projection) (loop_built_post o) built_root.
Proof.
  intros Hb Ho Hbatch. revert rec projection Hb. induction fuel as [|fuel IH]; intros rec projection Hb; simpl; [by apply g_ret|].
  eapply g_bind; [by apply b_resume_page|]. intros [rec'|rec'|rec' sum]; [by apply g_ret|by apply g_ret|].
  apply g_pure; [solve_grows|]. intros Hb'. by apply IH.
Qed.

Lemma b_final_write o rec complete sum bytes now :
  catalog_served o →
  gtriple (loop_built_post o (rec, sum, complete)) (write_record_file env (gr_generation_id rec) (set_gr_bytes bytes now rec))
    (λ _ s, loop_built_post o (set_gr_bytes bytes now rec, sum, complete) s) built_root.
Proof.
  intros Ho. set (rec2 := set_gr_bytes bytes now rec). destruct complete; simpl.
  - apply g_pre with (P' := λ s, ∃ p dir, built_serving (Ok (p, dir)) s ∧ (catalog_dir dir ∧ ap_generation_id p = gr_generation_id rec
      ∧ gr_state rec = Active ∧ valid_generation_id (gr_generation_id rec) = true)); [done|].
    apply g_exists; [solve_grows|]. intros p. apply g_exists; [solve_grows|]. intros dir. apply g_pure; [solve_grows|].
    intros (Hdir & Hid & Hst & Hv).
    eapply g_conseq; [by apply (b_write_active rec2)|done| |].
    + intros [] s Hs. by exists p, dir.
    + intros s Hs. exists (Ok (p, dir)). split; [done|]. by intros p' dir' [= <- <-].
  - apply g_pure; [solve_grows|]. intros (Hna & Hst & Hv).
    apply g_pre with (P' := λ s, ∃ dir, (building_at o rec s ∧ gd_index (generation_dir (gr_generation_id rec) (gs_root s)) = dir)
      ∧ resumable rec2 dir).
    { intros s [Hs Hd]. exists (gd_index (generation_dir (gr_generation_id rec) (gs_root s))). split; [done|].
      pose proof Hs as [_ Hg]. by apply (on_disk_resumable rec). }
    apply g_exists; [solve_grows|]. intros dir. apply g_pure; [solve_grows|]. intros Hres. eapply g_conseq.
    + apply (b_write o rec2 dir (λ s, building_at o rec s ∧ gd_index (generation_dir (gr_generation_id rec) (gs_root s)) = dir));
        [done|by change (gr_state rec2) with (gr_state rec); rewrite Hst..|done|by intros s [[? _] ?]|].
      intros s [[[_ Hg] Hd] _] _. split; [done|]. exact (proj2 (on_disk_resumable rec _ Hg Hd)).
    + done.
    + intros [] s (Hs & _ & Hr). split; [|done]. split; [done|]. by apply on_disk_self.
    + intros s Hs. by exists o.
Qed.

Lemma b_resume o limits :
  catalog_served o → (0 ≤ batch_documents limits)%Z →
  gtriple (built_serving o) (resume_initial_generation env roots policy limits)
    (λ sum s, built_root s ∧ (gsum_complete sum = true → took_over (gsum_generation sum) s)) built_root.
Proof.
  intros Ho Hbatch. unfold resume_initial_generation, unix_time_millis.
  assert (∀ s, built_serving o s → built_root s) as Hroot by (intros s Hs; by exists o).
  eapply g_bind with (Q' := λ l s, built_serving o s ∧ (0 < batch_documents l)%Z).
  { apply g_lift; [|done]. intros l s Hl Hs. split; [done|]. unfold limits_validate in Hl.
    destruct (batch_documents limits =? 0)%Z eqn:H0; [by rewrite ?orb_true_r in Hl|]. case_match; [done|].
    injection Hl as <-. lia. }
  intros l. apply g_pure; [unfold recover_or_create_building; solve_grows|]. intros Hl.
  eapply g_bind; [eapply g_err; [exact Hroot|apply b_recover_or_create]|]. intros rec.
  apply g_pure; [solve_grows|]. intros Hb. eapply g_bind; [by apply b_resume_loop|].
  intros [[rec' projection] complete].
  assert (∀ rec2 s, loop_built_post o (rec2, projection, complete) s → built_root s) as Hks.
  { destruct complete; simpl; intros rec2 s; [apply took_over_root|intros [[Hs _] _]; auto]. }
  assert (∀ rec2 A (f : nat → A), gtriple (loop_built_post o (rec2, projection, complete)) (ask f)
            (λ _, loop_built_post o (rec2, projection, complete)) built_root) as Hask.
  { intros rec2 A f. apply g_ask. intros s. destruct complete; simpl.
    - intros (p & dir & Hs & ?). exists p, dir. split; [by apply built_tick|done].
    - intros [Hs ?]. split; [by apply building_tick|done]. }
  assert (∀ rec2 A (f : nat → result ContentIndexError A), gtriple (loop_built_post o (rec2, projection, complete)) (ask_ok f)
            (λ _, loop_built_post o (rec2, projection, complete)) built_root) as Hask_ok.
  { intros rec2 A f. unfold ask_ok. eapply g_bind; [apply Hask|]. intros r. apply g_lift; [done|apply Hks]. }
  eapply g_bind; [apply Hask_ok|]. intros bytes. eapply g_bind; [apply Hask|]. intros now.
  eapply g_bind; [by apply (b_final_write o rec' complete projection bytes now)|]. intros [].
  eapply g_bind; [apply Hask_ok|]. intros disk. apply g_ret. intros s Hs. split; [by eapply Hks|].
  simpl. by intros ->.
Qed.

(** One operation of a history. *)
Definition same_build (op : manager_op) : Prop :=
  match op with
  | OpResume roots' policy' limits => roots' = roots ∧ policy' = policy ∧ (0 ≤ batch_documents limits)%Z
  | _ => True
  end.

Lemma run_op_built op s :
  built_root s → same_build op → gs_tick (run_op env op s) < B → built_root (run_op env op s).
Proof.
  intros (o & Hs & Ho) Hop Hlt. destruct op as [|roots' policy' limits|n]; simpl in *.
  - destruct (b_manager_open o) as [_ H]. specialize (H s Hs Hlt). exists o. by destruct (manager_open env s).1.
  - destruct Hop as (-> & -> & Hl). destruct (b_resume o limits Ho Hl) as [_ H]. specialize (H s Hs Hlt).
    by destruct (resume_initial_generation env roots policy limits s).1 as [sum|e]; [destruct H|].
  - destruct (b_collect_garbage n o) as [_ H]. specialize (H s Hs Hlt). exists o. by destruct (collect_garbage env n s).1.
Qed.

Lemma fresh_root_built direct marker t : built_root (MkGstate (MkContentRoot direct marker no_file None) t).
Proof.
  exists (Err XIo). split; [|done]. split; [split; [apply empty_root_ok|done]|].
  split; [by intros id d|intros id; unfold generation_map; simpl; rewrite lookup_empty; by intros []|..].
  all: by intros id.
Qed.
End manager.

Section guarantees.
Context `{TV : Tantivy} `{T : TextEnv} `{CE : !ContentEnv} `{!StoreLaws E} `{!TextLaws T} `{TL : !TantivyLaws}.
Context `{J : JsonEnv} `{RC : !JsonCodec ContentGenerationRecord} `{PC : !JsonCodec ActiveGenerationPointer}.
Context `{!JsonLaws J} `{!JsonCodecLaws ContentGenerationRecord} `{!JsonCodecLaws ActiveGenerationPointer}.

Lemma run_ops_built env g roots policy ops (s : gstate) :
  readable g → (Z.of_nat (size (documents g)) ≤ u64_max)%Z →
  (∀ n, ge_graph env n = g) → Forall (same_build roots policy) ops →
  built_root env g roots policy s → (Z.of_nat (gs_tick (run_ops env ops s)) < u64_max)%Z →
  built_root env g roots policy (run_ops env ops s).
Proof.
  intros Hread Hsize Hgraph Hops. revert s.
  induction Hops as [|op ops Hop _ IH]; intros s Hs Ht; [done|].
  change (run_ops env (op :: ops) s) with (run_ops env ops (run_op env op s)) in *. apply IH; [|done].
  pose proof (run_ops_grows env ops (run_op env op s)).
  by apply (run_op_built env (S (gs_tick (run_op env op s))) ltac:(lia) g roots policy Hread Hsize Hgraph);
    [..|lia].
Qed.

(** C20 (interrupted building): let the graph be readable and stay as it is while generations are
    built, and start from a root without generations.  Run any number of opens, resumes and
    collections, the resumes all with the same roots and policy, each ending or failing at any write
    (torn at any byte), page, count or removal (stopped with any part of the directory left).  Then no
    generation is ever recorded as failed, and whatever generation is active holds for every document
    of the catalog exactly what reading its file at some point gave (its text, or nothing when it was
    not eligible or readable), and nothing else.  Catalog size and number of steps are within u64. *)
Theorem interrupted_build_is_catalog env g roots policy ops direct marker (t : nat) :
  readable g → (Z.of_nat (size (documents g)) ≤ u64_max)%Z →
  (∀ n, ge_graph env n = g) → Forall (same_build roots policy) ops →
  let s := run_ops env ops (MkGstate (MkContentRoot direct marker no_file None) t) in
  (Z.of_nat (gs_tick s) < u64_max)%Z →
  (∀ id rec, read_record (gs_root s) id = Ok rec → gr_state rec ≠ Failed)
  ∧ ∀ p, active_pointer (gs_root s) = Ok p →
      ∃ h m, dir_holds (gd_index (generation_dir (ap_generation_id p) (gs_root s))) h m
        ∧ ∀ k, match documents g !! k with
               | Some r => ∀ d, reads g (k, r) d → ∃ n j, m !! k = extracted policy (ge_files env n j) d
               | None => m !! k = None
               end.
Proof.
  intros Hread Hsize Hgraph Hops s Ht.
  assert (built_root env g roots policy s) as (o & [[Hr Ho] Hg] & Hcat).
  { apply run_ops_built; [done..|apply fresh_root_built|done]. }
  split; [apply Hg|]. intros p Hp. unfold served in Ho. rewrite Hp in Ho. simpl in Ho. symmetry in Ho. by eapply Hcat.
Qed.
End guarantees.
