(* ===== verification/GenerationsFixtures.v ===== *)
(** A concrete content root: values are serialized as lists of numbers, a generation is built over two
    documents, a write is torn after the first page was committed, and building is resumed. *)
From Stdlib Require Import Ascii String.
From stdpp Require Import base strings numbers gmap list sorting.
From S2P Require Import Prelude Ids Order Models GraphDomain GraphTables Fixtures GraphProjection GraphOutbox GraphSync.
From S2P Require Import Text Catalog KeyedIndex CatalogSpec CatalogFixtures Content ContentText ContentSpec ContentFixtures.
From S2P Require Import DurableJson Generations GenerationsSpec GenerationsBuild.
From S2P Require ProjectorSpec ProjectorRun.

(** ** Serialization *)

Definition token {A} `{Countable A} (a : A) : N := N.pos (encode a).
Definition from_token {A} `{Countable A} (n : N) : option A :=
  match n with N0 => None | N.pos p => decode p end.
Lemma from_token_token {A} `{Countable A} (a : A) : from_token (token a) = Some a.
Proof. apply decode_encode. Qed.

Definition list_envelope (e : DurableJsonEnvelope (list N)) : list N :=
  [token (env_version e); token (env_sequence e); token (env_checksum e); N.of_nat (length (env_payload e))]
  ++ env_payload e.
Definition list_from_envelope (bytes : list N) : option (DurableJsonEnvelope (list N)) :=
  match bytes with
  | v :: q :: c :: n :: payload =>
      v ← from_token v; q ← from_token q; c ← from_token c;
      guard (n = N.of_nat (length payload)) ;; Some (MkEnvelope v q c payload)
  | _ => None
  end.

Global Instance list_json : JsonEnv := {|
  JValue := list N;
  value_to_vec l := l;
  value_from_slice l := Some l;
  envelope_to_vec := list_envelope;
  envelope_from_slice := list_from_envelope |}.

Global Instance list_json_laws : JsonLaws list_json.
Proof.
  split.
  - intros [v q c payload]. cbn -[token from_token]. rewrite !from_token_token. cbn. by rewrite option_guard_True.
  - intros [v q c payload] k Hk. cbn -[token from_token] in *. destruct k as [|[|[|[|k]]]]; [done..|].
    cbn -[token from_token]. rewrite !from_token_token. cbn. rewrite option_guard_False; [done|].
    rewrite length_take. simpl in Hk. lia.
Qed.

Global Instance ContentGenerationState_countable : Countable ContentGenerationState.
Proof.
  refine (inj_countable' (λ s, match s with Building => 0 | Ready => 1 | Active => 2 | Retired => 3 | Failed => 4 end)
    (λ n, match n with 0 => Building | 1 => Ready | 2 => Active | 3 => Retired | _ => Failed end) _).
  by intros [].
Defined.
Global Instance ContentCapacityLimit_eq_dec : EqDecision ContentCapacityLimit.
Proof. solve_decision. Defined.
Global Instance ContentCapacityLimit_countable : Countable ContentCapacityLimit.
Proof.
  refine (inj_countable' (λ s, match s with ContentIndexBytes => 0 | Documents => 1 | FreeDisk => 2 end)
    (λ n, match n with 0 => ContentIndexBytes | 1 => Documents | _ => FreeDisk end) _).
  by intros [].
Defined.

Global Instance record_codec : JsonCodec ContentGenerationRecord := {|
  to_value r :=
    [token (gr_version r); token (gr_generation_id r); token (gr_scan_id r); token (gr_state r);
     token (gr_target_sequence r); token (gr_root_ids r); token (gr_last_checkpoint r);
     token (gr_documents_seen r); token (gr_documents_projected r); token (gr_bytes_processed r);
     token (gr_commits r); token (gr_index_generation r); token (gr_content_index_bytes r);
     token (gr_capacity_limit r); token (gr_created_at r); token (gr_updated_at r)];
  from_value l :=
    match l with
    | [a; b; c; d; e; f; g; h; i; j; k; m; n; p; q; r] =>
        a ← from_token a; b ← from_token b; c ← from_token c; d ← from_token d; e ← from_token e;
        f ← from_token f; g ← from_token g; h ← from_token h; i ← from_token i; j ← from_token j;
        k ← from_token k; m ← from_token m; n ← from_token n; p ← from_token p; q ← from_token q;
        r ← from_token r;
        Some (MkContentGenerationRecord a b c d e f g h i j k m n p q r)
    | _ => None
    end |}.
Global Instance record_codec_laws : JsonCodecLaws ContentGenerationRecord.
Proof. intros []. cbn -[token from_token]. by rewrite !from_token_token. Qed.

Global Instance pointer_codec : JsonCodec ActiveGenerationPointer := {|
  to_value p := [token (ap_version p); token (ap_generation_id p); token (ap_activated_at p)];
  from_value l :=
    match l with
    | [a; b; c] =>
        a ← from_token a; b ← from_token b; c ← from_token c; Some (MkActiveGenerationPointer a b c)
    | _ => None
    end |}.
Global Instance pointer_codec_laws : JsonCodecLaws ActiveGenerationPointer.
Proof. intros []. cbn -[token from_token]. by rewrite !from_token_token. Qed.

(** A pointer is replaced; the write stops after three numbers. *)
Definition first_pointer := MkActiveGenerationPointer 1 "generation-1" 5.
Definition second_pointer := MkActiveGenerationPointer 1 "generation-2" 6.
Definition written : DurableFile := (write_json_atomic Written first_pointer no_file).2.

Lemma written_ok : durable_ok written.
Proof. exact (proj1 (write_json_outcome Written first_pointer no_file no_file_ok ltac:(done))). Qed.

Lemma durable_write_atomic_witness :
  let torn := (write_json_atomic (TornAt 3) second_pointer written).2 in
  read_json ActiveGenerationPointer written = Ok first_pointer
  ∧ (read_json ActiveGenerationPointer torn = Ok second_pointer
     ∨ read_json ActiveGenerationPointer torn = read_json ActiveGenerationPointer written)
  ∧ (Err JsonIo = Ok tt → read_json ActiveGenerationPointer torn = Ok second_pointer) ∧ durable_ok torn.
Proof.
  split; [vm_compute; reflexivity|].
  apply (durable_write_atomic (TornAt 3) second_pointer written _ (Err JsonIo)).
  - apply written_ok.
  - vm_compute. reflexivity.
  - reflexivity.
Defined.

(** ** A content root *)

Definition sample_files : SourceFs := {|
  canonicalize p := if decide (p = "docs/a.TXT") then Some ["docs"; "a.TXT"] else None;
  is_dir p := bool_decide (p = ["docs"]);
  file_metadata p := if decide (p = ["docs"; "a.TXT"]) then Some (true, 7%Z) else None;
  file_bytes p := if decide (p = ["docs"; "a.TXT"]) then Some (string_bytes "content") else None |}.

(** The write asked for as question [torn] stops after two numbers. *)
Definition sample_env (torn : nat) : GenEnv := {|
  ge_clock n := Z.of_nat n;
  ge_disk _ := Ok (MkDiskSpace (10 ^ 12) (10 ^ 11));
  ge_bytes _ := Ok 100%Z;
  ge_write n := if decide (n = torn) then TornAt 2 else Written;
  ge_create _ := Created;
  ge_make_dir _ := true;
  ge_remove _ := None;
  ge_graph _ := sample_db;
  ge_files _ _ := sample_files;
  ge_crash_after := None |}.

Definition sample_limits : ContentGenerationLimits := MkContentGenerationLimits (10 ^ 9) 100 1000 1 1 10.
Definition fresh_root : gstate := MkGstate (MkContentRoot None None no_file None) 0.
Definition resume_op : manager_op := OpResume ["docs"] docs_policy sample_limits.
Definition result_of (torn : nat) (ops : list manager_op) :=
  ((resume_initial_generation (sample_env torn) ["docs"] docs_policy sample_limits (run_ops (sample_env torn) ops fresh_root)).1).

(** The checkpoint after the second page is torn: the page is in the index, the record says the first
    page; building is resumed and a page is replayed. *)
Definition torn_env : GenEnv := sample_env 22.
Definition interrupted : gstate := run_ops torn_env [OpOpen; resume_op] fresh_root.

Lemma interrupted_ok : root_ok (gs_tick interrupted) (gs_root interrupted).
Proof.
  refine (proj1 (run_ops_active torn_env [OpOpen; resume_op] fresh_root (empty_root_ok _ _ _) _)). vm_compute. reflexivity.
Qed.

Definition resumed := resume_initial_generation torn_env ["docs"] docs_policy sample_limits interrupted.
Definition resumed_summary : option ContentGenerationSummary := ok_value resumed.1.

Lemma resume_serves_validated_witness :
  (∃ sum, resumed.1 = Ok sum ∧ gsum_complete sum = true
     ∧ active_index_path (gs_root resumed.2) = Ok (gr_generation_id (gsum_generation sum))
     ∧ generation_count (gr_generation_id (gsum_generation sum)) (gs_root resumed.2) = Ok 1%Z)
  ∧ has_active_generation (gs_root interrupted) = false.
Proof.
  split; [|vm_compute; reflexivity].
  destruct (resume_serves_validated torn_env ["docs"] docs_policy sample_limits interrupted resumed.2 resumed.1
    interrupted_ok (surjective_pairing _) ltac:(vm_compute; reflexivity)) as (_ & _ & Hsum).
  destruct resumed.1 as [sum|x] eqn:Hr.
  - assert ((λ sum, (gsum_complete sum, gr_documents_projected (gsum_generation sum))) <$> ok_value resumed.1
      = Some (true, 1%Z)) as Hc by (vm_compute; reflexivity).
    rewrite Hr in Hc. simpl in Hc. injection Hc as Hc Hn. exists sum. specialize (Hsum sum eq_refl). simpl in Hsum.
    rewrite Hc, Hn in Hsum. exact (conj eq_refl (conj Hc Hsum)).
  - assert (is_ok resumed.1 = true) as Hok by (vm_compute; reflexivity). rewrite Hr in Hok. discriminate Hok.
Defined.

(** Two generations, the first of them retired, and nothing to be retained. *)
Definition twice : gstate := run_ops torn_env [OpOpen; resume_op; resume_op; resume_op] fresh_root.
Definition collected := collect_garbage torn_env 0 twice.

Lemma twice_ok : root_ok (gs_tick twice) (gs_root twice).
Proof.
  refine (proj1 (run_ops_active torn_env [OpOpen; resume_op; resume_op; resume_op] fresh_root (empty_root_ok _ _ _) _)).
  vm_compute. reflexivity.
Qed.

Lemma collect_garbage_spares_live_witness :
  ∃ removed, collected.1 = Ok removed ∧ length removed = 1
    ∧ served (gs_root collected.2) = served (gs_root twice)
    ∧ ∀ id, id ∈ removed → generation_map (gs_root collected.2) !! id = None.
Proof.
  destruct (collect_garbage_spares_live torn_env 0 twice collected.2 collected.1 twice_ok (surjective_pairing _))
    as ([_ Hserved] & _ & Hremoved).
  assert (length <$> ok_value collected.1 = Some 1) as Hlen by (vm_compute; reflexivity).
  destruct collected.1 as [removed|x]; [|discriminate Hlen]. exists removed. split; [reflexivity|].
  split; [by injection Hlen|]. split; [exact Hserved|]. destruct (Hremoved removed eq_refl) as (rs & _ & _ & Hmap).
  intros id Hid. by rewrite Hmap, decide_True.
Defined.

Lemma active_generation_never_lost_witness :
  has_active_generation (gs_root (run_ops torn_env [OpOpen; resume_op; resume_op; OpCollect 0; resume_op] fresh_root)) = true.
Proof.
  apply (active_generation_never_lost torn_env [OpOpen; resume_op; resume_op] [OpCollect 0; resume_op] None None 0);
    vm_compute; reflexivity.
Defined.

Lemma sample_readable : ProjectorSpec.readable sample_db.
Proof.
  intros d r Hd. apply ProjectorSpec.synced_reads; [apply sample_db_wf|done|].
  eapply ProjectorRun.all_synced_compute; [vm_compute; reflexivity|done].
Qed.

Lemma interrupted_build_is_catalog_witness :
  let s := run_ops torn_env [OpOpen; resume_op; resume_op] fresh_root in
  has_active_generation (gs_root s) = true
  ∧ ∀ p, active_pointer (gs_root s) = Ok p →
      ∃ h m, dir_holds (gd_index (generation_dir (ap_generation_id p) (gs_root s))) h m.
Proof.
  intros s. split; [vm_compute; reflexivity|].
  destruct (interrupted_build_is_catalog torn_env sample_db ["docs"] docs_policy [OpOpen; resume_op; resume_op]
    None None 0 sample_readable) as [_ Hactive].
  - apply Z.leb_le. vm_compute. reflexivity.
  - intros n. reflexivity.
  - repeat constructor; simpl; lia.
  - vm_compute. reflexivity.
  - intros p Hp. destruct (Hactive p Hp) as (h & m & Hm & _). exists h, m. exact Hm.
Defined.
