(* ===== verification/GenerationsLimits.v ===== *)
(** Where the generation manager falls short of what its documentation says: a record whose first write
    was torn stops every later operation, and a page that is replayed after one of its documents
    changed makes the whole generation fail. *)
From Stdlib Require Import Ascii String.
From stdpp Require Import base strings numbers gmap list sorting.
From S2P Require Import Prelude Ids Order Models GraphDomain GraphTables Fixtures GraphProjection GraphStore GraphOutbox GraphReach GraphSync.
From S2P Require Import Text Catalog KeyedIndex CatalogSpec CatalogFixtures Content ContentText ContentSpec ContentFixtures.
From S2P Require Import DurableJson Generations GenerationsSpec GenerationsFixtures.

Section torn.
Context `{TV : Tantivy} `{T : TextEnv} `{CE : !ContentEnv} `{J : JsonEnv}.
Context `{RC : !JsonCodec ContentGenerationRecord} `{PC : !JsonCodec ActiveGenerationPointer}.

(** A generation whose state file is there and says nothing. *)
Definition unreadable_record (r : ContentRoot) (id : string) : Prop :=
  ∃ d, generation_map r !! id = Some d ∧ valid_generation_id id = true
    ∧ durable_json_exists (gd_state d) = true ∧ is_ok (read_json ContentGenerationRecord (gd_state d)) = false.

Lemma unreadable_records r id : unreadable_record r id → ∃ x, records r = Err x.
Proof.
  intros (d & Hd & Hv & He & Hr). unfold records. unfold generation_map in Hd.
  destruct (cr_generations r) as [gens|]; [|eauto]. simpl in *.
  apply elem_of_map_to_list in Hd. induction (map_to_list gens) as [|[id' d'] l IH]; [set_solver|]. simpl.
  apply elem_of_cons in Hd as [[= <- <-]|Hin].
  - rewrite Hv, He. simpl. destruct (read_json _ _) as [rec|x]; [done|]. simpl. eauto.
  - destruct (IH Hin) as [x Hx]. destruct (_ && _); [|eauto].
    destruct (map_err _ _); simpl; [|eauto]. rewrite Hx. simpl. eauto.
Qed.

(** A torn first record stops the manager: once the first write of a generation's record has been
    torn, resuming and garbage collection fail and change nothing, and so does recovery after opening
    when there is an active generation, for every outcome of later writes; nothing removes the
    directory. *)
Theorem torn_record_blocks_manager (env : GenEnv) roots policy limits n (s : gstate) id :
  unreadable_record (gs_root s) id →
  (is_ok (resume_initial_generation env roots policy limits s).1 = false
   ∧ (resume_initial_generation env roots policy limits s).2 = s)
  ∧ (is_ok (collect_garbage env n s).1 = false ∧ (collect_garbage env n s).2 = s)
  ∧ (is_ok (active_pointer (gs_root s)) = true → is_ok (recover_lifecycle env s).1 = false
     ∧ (recover_lifecycle env s).2 = s).
Proof.
  intros [x Hx]%unreadable_records. split_and!.
  1,2: unfold resume_initial_generation, mbind, St_bind, st_lift; destruct (limits_validate limits); [|done];
    unfold recover_or_create_building, mbind, St_bind, root_get, st_lift; by rewrite Hx.
  1,2: unfold collect_garbage, mbind, St_bind, root_get, st_lift; by rewrite Hx.
  intros Hp. unfold recover_lifecycle, mbind, St_bind, root_get, st_lift.
  destruct (active_pointer (gs_root s)) as [p|]; [|done]. destruct (ensure _ _); [|done]. by rewrite Hx.
Qed.
End torn.

(** The first write of a record stops after two numbers. *)
Definition torn_first : gstate := run_ops (sample_env 8) [OpOpen; resume_op] fresh_root.
Definition torn_id : string := "generation-00000000000000000002-00000000000000000003-0000".

Lemma torn_record_blocks_manager_witness :
  unreadable_record (gs_root torn_first) torn_id
  ∧ is_ok (resume_initial_generation (sample_env 1000) ["docs"] docs_policy sample_limits torn_first).1 = false.
Proof.
  assert (unreadable_record (gs_root torn_first) torn_id) as Hu.
  { assert (is_Some (generation_map (gs_root torn_first) !! torn_id)) as [d Hd].
    { apply (bool_decide_unpack (is_Some _)). vm_compute. exact I. }
    exists d. split; [exact Hd|]. split; [vm_compute; reflexivity|].
    assert ((λ d, (durable_json_exists (gd_state d), is_ok (read_json ContentGenerationRecord (gd_state d))))
      <$> generation_map (gs_root torn_first) !! torn_id = Some (true, false)) as Hc by (vm_compute; reflexivity).
    rewrite Hd in Hc. injection Hc as H1 H2. split; [exact H1|exact H2]. }
  split; [exact Hu|].
  exact (proj1 (proj1 (torn_record_blocks_manager (sample_env 1000) ["docs"] docs_policy sample_limits 0 torn_first torn_id Hu))).
Defined.

(** ** A page replayed after a change *)

(** The file is renamed and grows while building is interrupted. *)
Definition changed_db : db := commit (apply_batch sample_rename) sample_db.
Definition either_files : SourceFs := {|
  canonicalize p := if decide (p = "docs/a.TXT") then Some ["docs"; "a.TXT"]
                    else if decide (p = "docs/b.txt") then Some ["docs"; "b.txt"] else None;
  is_dir p := bool_decide (p = ["docs"]);
  file_metadata p := if decide (p = ["docs"; "b.txt"]) then Some (true, 9%Z) else Some (true, 7%Z);
  file_bytes p := if decide (p = ["docs"; "b.txt"]) then Some (string_bytes "new words") else Some (string_bytes "content") |}.
Definition changing_env : GenEnv := {|
  ge_clock n := Z.of_nat n;
  ge_disk _ := Ok (MkDiskSpace (10 ^ 12) (10 ^ 11));
  ge_bytes _ := Ok 100%Z;
  ge_write n := if decide (n = 22) then TornAt 2 else Written;
  ge_create _ := Created;
  ge_make_dir _ := true;
  ge_remove _ := None;
  ge_graph n := if decide (n < 23) then sample_db else changed_db;
  ge_files _ _ := either_files;
  ge_crash_after := None |}.

Definition replayed :=
  resume_initial_generation changing_env ["docs"] docs_policy sample_limits
    (run_ops changing_env [OpOpen; resume_op] fresh_root).
Definition is_missing_payload (r : result ContentIndexError ContentGenerationSummary) : bool :=
  match r with Err XMissingPayload => true | _ => false end.
Definition record_states (r : ContentRoot) : list (option ContentGenerationState) :=
  (λ p, gr_state <$> ok_value (read_json ContentGenerationRecord (gd_state p.2))) <$> map_to_list (generation_map r).

(** Replay after a change: the checkpoint of a committed page is lost, and one of its documents is
    renamed and grows before building resumes.  The replayed page counts it as updated, which the
    record does not count, so the complete generation fails its validation and is thrown away, with
    nothing active, although its index holds exactly the catalog's one file. *)
Theorem replay_after_change_fails_generation :
  is_missing_payload replayed.1 = true ∧ record_states (gs_root replayed.2) = [Some Failed]
  ∧ has_active_generation (gs_root replayed.2) = false
  ∧ (λ p, ok_value (dir_count (gd_index p.2))) <$> map_to_list (generation_map (gs_root replayed.2)) = [Some 1%Z].
Proof. split_and!; vm_compute; reflexivity. Qed.
