(* ===== verification/ContentProject.v ===== *)
(** Projecting the graph into a content workspace ([crates/content-index/src/lib.rs]): the paged
    snapshot [GraphCatalogIter] with [build_from_graph] and [sync_from_graph], the durable outbox
    consumer [ContentProjectionWorker], and [ContentReader], which follows the active generation. *)
From Stdlib Require Import Ascii String.
From stdpp Require Import base strings numbers gmap list sorting.
From S2P Require Import Prelude Ids Order Models GraphDomain GraphTables GraphProjection GraphOutbox.
From S2P Require Import Text Catalog Content DurableJson Generations.

(** ** Records *)

Record ContentProjectionOptions := MkContentProjectionOptions {
  co_batch_size : Z;                   (* u32 *)
  co_maximum_batches : Z }.            (* u32 *)
Definition ContentProjectionOptions_default : ContentProjectionOptions := MkContentProjectionOptions 1024 64.

Record DurableContentProjectionSummary := MkDurableContentProjectionSummary {
  dp_start_sequence : Z;               (* u64 *)
  dp_applied_sequence : Z;             (* u64 *)
  dp_latest_sequence : Z;              (* u64 *)
  dp_projected_mutations : Z;          (* u64 *)
  dp_backlog_remaining : bool;
  dp_commits : list ContentSyncSummary }.

Record ProjectionWorkspaceManifest := MkProjectionWorkspaceManifest {
  pm_version : Z;                      (* u32 *)
  pm_roots : list string;
  pm_max_file_bytes : Z }.             (* u64 *)

(** Where an index is below a content root: directly in it, or in a generation. *)
Inductive index_target := DirectIndex | GenerationIndex (id : string).
Global Instance index_target_eq_dec : EqDecision index_target.
Proof. solve_decision. Defined.

(** [ContentReader]: its source, and the path its state has open. *)
Record ContentReader := MkContentReader {
  rd_managed : bool;
  rd_path : index_target }.

(** [coalesced]: the last mutation of each document of a batch. *)
Definition coalesce_one (c : gmap document_id (option CatalogDocument)) (m : SequencedMutation)
  : gmap document_id (option CatalogDocument) :=
  match sm_mutation m with
  | Upsert document => <[ci_document_id (cd_identity document) := Some document]> c
  | Delete id _ => <[id := None]> c
  end.
Definition coalesce (ms : list SequencedMutation) : gmap document_id (option CatalogDocument) :=
  foldl coalesce_one ∅ ms.

(** A [BTreeMap] is listed in the order of its keys. *)
Definition coalesced_rows (ms : list SequencedMutation) : list (document_id * option CatalogDocument) :=
  rows by_key_N (λ _, true) (coalesce ms).
Definition coalesced_upserts (ms : list SequencedMutation) : list CatalogDocument :=
  omap snd (coalesced_rows ms).
Definition coalesced_deletions (ms : list SequencedMutation) : list document_id :=
  omap (λ r, match r.2 with None => Some r.1 | Some _ => None end) (coalesced_rows ms).

Section project.
Context `{TV : Tantivy} `{T : TextEnv} `{CE : !ContentEnv} `{J : JsonEnv}.
Context `{RC : !JsonCodec ContentGenerationRecord} `{PC : !JsonCodec ActiveGenerationPointer}.
Context `{MC : !JsonCodec ProjectionWorkspaceManifest}.
Implicit Types (g : db) (r : ContentRoot).

(** ** Snapshots of the graph *)

(** [GraphCatalogIter], run to its end: each page starts behind the last document of the one before. *)
Fixpoint catalog_iter (fuel : nat) g (after : option document_id) : list (result ContentIndexError CatalogDocument) :=
  match fuel with
  | O => []
  | S fuel =>
      match desired_catalog_page g after 4096 with
      | Err e => [Err (XGraph e)]
      | Ok page =>
          match last page with
          | None => []
          | Some d => (Ok <$> page) ++ catalog_iter fuel g (Some (ci_document_id (cd_identity d)))
          end
      end
  end.
(** A page per document and an empty one are more than there can be. *)
Definition graph_catalog g : list (result ContentIndexError CatalogDocument) :=
  catalog_iter (S (size (documents g))) g None.

Definition build_from_graph (creation : Creation) (fs : nat → SourceFs) (dir : option ContentDir) g
  (policy : ContentIndexPolicy) := build_fallible creation fs dir (graph_catalog g) policy.
Definition sync_from_graph (fs : nat → SourceFs) (dir : option ContentDir) g (policy : ContentIndexPolicy) :=
  sync_fallible fs dir (graph_catalog g) policy.

(** ** Where the index is *)

Definition target_index (t : index_target) r : option ContentDir :=
  match t with
  | DirectIndex => cr_direct r
  | GenerationIndex id => gd_index (generation_dir id r)
  end.
Definition put_target (t : index_target) (dir : option ContentDir) r : ContentRoot :=
  match t with
  | DirectIndex => MkContentRoot dir (cr_manager r) (cr_active r) (cr_generations r)
  | GenerationIndex id => put_generation id (MkGenerationDir (gd_state (generation_dir id r)) dir) r
  end.

(** [root.join(SCHEMA_MARKER).is_file()]. *)
Definition direct_marker r : bool := bool_decide (is_Some (cr_direct r ≫= xd_marker)).

(** [resolve_active_index]. *)
Definition resolve_active_index r : result ContentIndexError index_target :=
  if direct_marker r then mret DirectIndex
  else
    marker ← ok_or (cr_manager r) XIo;
    ensure (bool_decide (marker = CONTENT_SCHEMA_ID)) XSchemaMismatch ;;
    pointer ← active_pointer r;
    ensure (bool_decide (ap_version pointer = GENERATION_MANAGER_VERSION)
            && valid_generation_id (ap_generation_id pointer)) XSchemaMismatch ;;
    mret (GenerationIndex (ap_generation_id pointer)).

(** ** Readers *)

(** [ContentIndex::open]. *)
Definition content_open r : result ContentIndexError ContentReader :=
  let managed := bool_decide (is_Some (cr_manager r)) in
  resolved ← resolve_active_index r;
  '(i, _) ← open_index (target_index resolved r);
  map_err XTantivy (index_reader i) ;;
  mret (MkContentReader managed resolved).

(** [current_state]: the reader moves to the active generation. *)
Definition current_state r (rd : ContentReader) : result ContentIndexError ContentReader :=
  if rd_managed rd then
    active ← resolve_active_index r;
    if decide (active = rd_path rd) then mret rd
    else
      '(i, _) ← open_index (target_index active r);
      map_err XTantivy (index_reader i) ;;
      mret (MkContentReader true active)
  else mret rd.

(** The commit that [reload] makes visible. *)
Definition reloaded r (rd : ContentReader) : result ContentIndexError Index :=
  match target_index (rd_path rd) r with
  | Some d => map_err XTantivy (xd_index d)
  | None => Err (XTantivy no_index)
  end.

(** [ContentReader::search], with the reader as it is left. *)
Definition reader_search r (rd : ContentReader) (query : string) (lim : Z)
  : result ContentIndexError (list CatalogDocument) * ContentReader :=
  match check_query query lim with
  | Err e => (Err e, rd)
  | Ok q =>
      match current_state r rd with
      | Err e => (Err e, rd)
      | Ok rd => ((ok_or (parse_query q) XQuery ;; i ← reloaded r rd; search_state i q lim), rd)
      end
  end.

(** ** The projection worker *)

(** [from_workspace]: the policy of the manifest. *)
Definition from_workspace (fs : SourceFs) (manifest : DurableFile) : result ContentIndexError ContentIndexPolicy :=
  m ← map_err json_error (read_json ProjectionWorkspaceManifest manifest);
  ensure ((pm_version m =? 1) || (pm_version m =? 2))%Z XSchemaMismatch ;;
  policy_new fs (pm_roots m) (pm_max_file_bytes m).

(** The state a run works on: the graph and the content root. *)
Record pstate := MkPstate { ps_graph : db; ps_files : gstate }.
Abbreviation Pj := (St pstate ContentIndexError).

Definition on_files {A} (m : St gstate ContentIndexError A) : Pj A := λ s,
  let '(x, f) := m (ps_files s) in (x, MkPstate (ps_graph s) f).
Definition from_graph {A} (f : db → result GraphError A) : Pj A := λ s, (map_err XGraph (f (ps_graph s)), s).
Definition graph_write {A} (m : GM A) : Pj A := λ s,
  match m (ps_graph s) with
  | Ok (a, g) => (Ok a, MkPstate g (ps_files s))
  | Err e => (Err (XGraph e), s)
  end.

(** [backlog]. *)
Definition content_backlog_of g : result ContentIndexError Z :=
  c ← map_err XGraph (projector_checkpoint g CONTENT_SCHEMA_ID);
  c ← ok_or c XMissingPayload;
  latest ← map_err XGraph (latest_outbox_sequence g);
  mret (saturating_sub latest (pj_last_sequence c)).

Context (env : GenEnv).

(** [apply_delta] on the index of a target. *)
Definition target_delta (t : index_target) (upserts : list CatalogDocument) (deletions : list document_id)
  (policy : ContentIndexPolicy) : St gstate ContentIndexError ContentSyncSummary :=
  files ← ask (ge_files env);
  dir ← root_get (target_index t);
  let '(x, dir) := apply_delta files dir upserts deletions policy in
  root_set (put_target t dir) ;;
  st_lift x.

(** One batch: read, coalesce, commit, acknowledge. *)
Definition project_batch (t : index_target) (policy : ContentIndexPolicy) (batch_size after : Z)
  : Pj (option (Z * Z * ContentSyncSummary)) :=
  batch ← from_graph (λ g, read_outbox g (Some after) batch_size);
  match mb_mutations batch with
  | [] => mret None
  | _ :: _ =>
      st_lift (map_err (λ _, XIo) (MutationBatch_validate batch)) ;;
      summary ← on_files (target_delta t (coalesced_upserts (mb_mutations batch))
                            (coalesced_deletions (mb_mutations batch)) policy);
      last ← st_lift (ok_or (last_sequence batch) XMissingPayload);
      graph_write (acknowledge_projection CONTENT_SCHEMA_ID last (su_generation summary)) ;;
      mret (Some (last, Z.of_nat (length (mb_mutations batch)), summary))
  end.

Fixpoint project_loop (fuel : nat) (t : index_target) (policy : ContentIndexPolicy) (batch_size after projected : Z)
  (commits : list ContentSyncSummary) : Pj (Z * Z * list ContentSyncSummary) :=
  match fuel with
  | O => mret (after, projected, commits)
  | S fuel =>
      result ← project_batch t policy batch_size after;
      match result with
      | None => mret (after, projected, commits)
      | Some (last, n, summary) =>
          project_loop fuel t policy batch_size last (saturating_add u64_max projected n) (commits ++ [summary])
      end
  end.

(** The path a run writes to. *)
Definition project_target : St gstate ContentIndexError index_target :=
  direct ← root_get direct_marker;
  match direct with
  | true => mret DirectIndex
  | false =>
      manager_open env ;;
      id ← root_get active_index_path;
      id ← st_lift id;
      mret (GenerationIndex id)
  end.

(** [ContentProjectionWorker::project]; [opened] is how opening the graph ends. *)
Definition project (opened : result GraphError unit) (policy : ContentIndexPolicy) (options : ContentProjectionOptions)
  : Pj DurableContentProjectionSummary :=
  st_lift (ensure (negb ((co_batch_size options =? 0) || (10000 <? co_batch_size options)
                         || (co_maximum_batches options =? 0) || (1024 <? co_maximum_batches options)))%Z
             XInvalidPolicy) ;;
  st_lift (map_err XGraph opened) ;;
  checkpoint ← from_graph (λ g, projector_checkpoint g CONTENT_SCHEMA_ID);
  checkpoint ← st_lift (ok_or checkpoint XMissingPayload);
  t ← on_files project_target;
  let start := pj_last_sequence checkpoint in
  '(after, projected, commits) ←
    project_loop (Z.to_nat (co_maximum_batches options)) t policy (co_batch_size options) start 0 [];
  latest ← from_graph latest_outbox_sequence;
  mret (MkDurableContentProjectionSummary start after latest projected (bool_decide (after < latest)%Z) commits).
End project.
