(* ===== verification/ContentProjectSpec.v ===== *)
(** What projecting into a content workspace promises: wherever a run fails, the content index together
    with the unread outbox stays the catalog's text, a batch is acknowledged only after it was
    committed, and a run that reports no backlog leaves the text of exactly the catalog's documents. *)
From Stdlib Require Import Ascii String.
From stdpp Require Import base strings numbers gmap list sorting relations.
From S2P Require Import Prelude Ids Order Models GraphDomain GraphTables GraphPath GraphProjection.
From S2P Require Import GraphStore GraphOutbox GraphInvariant GraphPreserve GraphReach GraphSync GraphConverge.
From S2P Require Import Text Catalog KeyedIndex CatalogSpec Content ContentText ContentSpec ContentGuarantees.
From S2P Require Import DurableJson Generations GenerationsSpec ContentProject.
From S2P Require ProjectorSpec.
Import ProjectorSpec (touches, mutation_id).

(** ** Coalescing *)

Section coalesce.
Context `{E : StoreEnv}.
Implicit Types (ms : list SequencedMutation) (idx : index).

Lemma coalesce_snoc ms m : coalesce (ms ++ [m]) = coalesce_one (coalesce ms) m.
Proof. unfold coalesce. by rewrite foldl_snoc. Qed.

(** Applying a batch one mutation after the other is applying what it coalesces to. *)
Lemma coalesce_apply ms idx k :
  apply_mutation_batch (MkMutationBatch ms) idx !! k
  = match coalesce ms !! k with Some o => o | None => idx !! k end.
Proof.
  unfold apply_mutation_batch. simpl. induction ms as [|m ms IH] using rev_ind; [done|].
  rewrite foldl_snoc, coalesce_snoc. unfold coalesce_one. destruct (sm_mutation m) as [d|id v]; simpl.
  - destruct (decide (ci_document_id (cd_identity d) = k)) as [->|Hne]; [by rewrite !lookup_insert_eq|].
    by rewrite !lookup_insert_ne.
  - destruct (decide (id = k)) as [->|Hne]; [by rewrite lookup_insert_eq, lookup_delete_eq|].
    by rewrite lookup_insert_ne, lookup_delete_ne.
Qed.

Lemma coalesce_keys ms k :
  is_Some (coalesce ms !! k) ↔ Exists (λ m, mutation_id (sm_mutation m) = k) ms.
Proof.
  induction ms as [|m ms IH] using rev_ind.
  - rewrite Exists_nil. unfold coalesce. simpl. rewrite lookup_empty. split; [by intros []|done].
  - rewrite coalesce_snoc, Exists_app, Exists_cons, Exists_nil, <-IH. unfold coalesce_one.
    destruct (sm_mutation m) as [d|id v]; rewrite lookup_insert_is_Some'; simpl; naive_solver.
Qed.

(** Everything a coalesced batch mentions has the identifier it is filed under. *)
Lemma coalesce_canonical ms k o :
  Forall (λ m, canonical_mutation (sm_mutation m)) ms → coalesce ms !! k = Some o →
  in_u128 k ∧ ∀ d, o = Some d → document_key d = k.
Proof.
  intros Hall. revert o. induction ms as [|m ms IH] using rev_ind; intros o; [done|].
  apply Forall_app in Hall as [Hms Hm]. rewrite Forall_singleton in Hm. specialize (IH Hms). rewrite coalesce_snoc. unfold coalesce_one. destruct (sm_mutation m) as [d|id v]; simpl in Hm.
  - intros [[<- <-]|[_ Ho]]%lookup_insert_Some; [|by apply IH]. split; [apply Hm|]. by intros ? [= <-].
  - intros [[<- <-]|[_ Ho]]%lookup_insert_Some; [|by apply IH]. done.
Qed.

Lemma elem_of_coalesced ms k o : (k, o) ∈ coalesced_rows ms ↔ coalesce ms !! k = Some o.
Proof. unfold coalesced_rows. rewrite elem_of_rows. tauto. Qed.

Lemma coalesced_upserts_elem ms d :
  d ∈ coalesced_upserts ms ↔ ∃ k, coalesce ms !! k = Some (Some d).
Proof.
  unfold coalesced_upserts. rewrite list_elem_of_omap. split.
  - intros ([k o] & Hin%elem_of_coalesced & Ho). simpl in Ho. subst. eauto.
  - intros [k Hk%elem_of_coalesced]. by exists (k, Some d).
Qed.

Lemma coalesced_deletions_elem ms k :
  k ∈ coalesced_deletions ms ↔ coalesce ms !! k = Some None.
Proof.
  unfold coalesced_deletions. rewrite list_elem_of_omap. split.
  - intros ([k' [d|]] & Hin%elem_of_coalesced & [= <-]); done.
  - intros Hk%elem_of_coalesced. by exists (k, None).
Qed.

Lemma coalesced_length ms : length (coalesced_upserts ms) + length (coalesced_deletions ms) ≤ length ms.
Proof.
  assert (length (coalesced_upserts ms) + length (coalesced_deletions ms) = size (coalesce ms)) as ->.
  { unfold coalesced_upserts, coalesced_deletions, coalesced_rows.
    rewrite <-(length_map_to_list (coalesce ms)). assert (length (rows by_key_N (λ _, true) (coalesce ms))
      = length (map_to_list (coalesce ms))) as <-.
    { unfold rows. rewrite merge_sort_Permutation. f_equal. apply filter_all. by apply Forall_forall. }
    induction (rows by_key_N (λ _, true) (coalesce ms)) as [|[k [d|]] l IH]; csimpl; lia. }
  induction ms as [|m ms IH] using rev_ind; [done|]. rewrite coalesce_snoc, length_app. unfold coalesce_one. simpl.
  destruct (sm_mutation m); rewrite map_size_insert; case_match; simpl; lia.
Qed.
End coalesce.

(** ** What the content index holds *)

Section on_track.
Context `{TV : Tantivy} `{T : TextEnv} `{CE : !ContentEnv} `{!StoreLaws E} `{TL : !TantivyLaws}.
(** The source files at each question, and the policy. *)
Context (sources : nat → nat → SourceFs) (policy : ContentIndexPolicy).
Implicit Types (g : db) (idx : index) (m : contents).

(** [x] was read for a document before the time [now]. *)
Definition was_read (now : nat) (d : CatalogDocument) (x : text) : Prop :=
  ∃ n j, n < now ∧ extract_text (sources n j) d policy = Ok x.

(** The entry has, as far as hashes tell, a text that was read for this document, or for one with the
    same source fingerprint: object, kind, size, modification time and availability. *)
Definition sourced (now : nat) (d : CatalogDocument) (e : ContentEntry) : Prop :=
  ∃ d' x, (d' = d ∨ content_source_unchanged d' d = true) ∧ was_read now d' x
    ∧ content_hash x = content_hash (ce_text e).

(** The entry for what the catalog says of an identifier: none without a document, a text that was
    read for it, or none because the document was not eligible or not readable when it was processed. *)
Definition projected_as (now : nat) (d : option CatalogDocument) (o : option ContentEntry) : Prop :=
  match d, o with
  | None, o => o = None
  | Some d, Some e => sourced now d e
  | Some d, None => ∃ n j, n < now ∧ is_ok (extract_text (sources n j) d policy) = false
  end.

(** Every entry was read for the document it is stored with. *)
Definition entries_read (now : nat) m : Prop :=
  ∀ k e, m !! k = Some e → was_read now (ce_document e) (ce_text e).

(** The index is the catalog's text, except where the unread outbox says otherwise. *)
Definition content_on_track (now : nat) g m : Prop :=
  ∃ row idx, consumers g !! CONTENT_SCHEMA_ID = Some row ∧ tracks g (k_last_sequence row) idx ∧ entries_read now m
    ∧ ∀ k, Exists (touches k) (outbox_after g (k_last_sequence row)) ∨ projected_as now (idx !! k) (m !! k).

(** The index is the text of exactly the desired catalog. *)
Definition content_current (now : nat) g m : Prop :=
  ∀ k, match documents g !! k with
       | None => m !! k = None
       | Some r => ∃ d, row_describes r d ∧ projected_as now (Some d) (m !! k)
       end.

(** What was read once stays read. *)
Lemma was_read_mono now now' d x : now ≤ now' → was_read now d x → was_read now' d x.
Proof. intros Hle (n & j & Hn & Hx). exists n, j. split; [lia|done]. Qed.

Lemma projected_as_mono now now' d o : now ≤ now' → projected_as now d o → projected_as now' d o.
Proof.
  intros Hle. destruct d as [d|]; [|done]. destruct o as [e|]; simpl.
  - intros (d' & x & Hd & Hx & He). exists d', x. split_and!; [done|by eapply was_read_mono|done].
  - intros (n & j & Hn & Hx). exists n, j. split; [lia|done].
Qed.

Lemma entries_read_mono now now' m : now ≤ now' → entries_read now m → entries_read now' m.
Proof. intros Hle Hm k e He. eapply was_read_mono; [done|]. by eapply Hm. Qed.

Lemma content_on_track_mono now now' g m : now ≤ now' → content_on_track now g m → content_on_track now' g m.
Proof.
  intros Hle (row & idx & Hrow & Ht & Hm & Hk). exists row, idx. split_and!; [done..|by eapply entries_read_mono|].
  intros k. destruct (Hk k) as [?|?]; [by left|right]. by eapply projected_as_mono.
Qed.

Lemma on_track_current now g m row :
  content_on_track now g m → consumers g !! CONTENT_SCHEMA_ID = Some row → outbox_after g (k_last_sequence row) = [] →
  content_current now g m.
Proof.
  intros (row' & idx & Hrow' & Ht & _ & Hk) Hrow Hnil k. rewrite Hrow in Hrow'. injection Hrow' as <-.
  specialize (Ht k). rewrite Hnil in Ht. simpl in Ht.
  destruct (Hk k) as [Hex|Hp]; [rewrite Hnil in Hex; by apply Exists_nil in Hex|].
  destruct (documents g !! k) as [r|], (idx !! k) as [d|]; simpl in Ht; [by exists d|done|done|done].
Qed.

(** The rows of a page and its mutations. *)
Lemma read_outbox_rows g pos lim b :
  read_outbox g (Some pos) lim = Ok b →
  Forall2 (λ r x, mutation_from_json (x_mutation_json r.2) = Some (sm_mutation x))
    (limit lim (outbox_after g pos)) (mb_mutations b).
Proof.
  unfold read_outbox. simpl. intros (after & Ha%ok_or_Ok & H)%result_bind_Ok.
  assert (after = pos) as -> by (unfold i64_try_from in Ha; case_decide; congruence).
  apply result_bind_Ok in H as (ms & Hms & [= <-]). simpl. revert ms Hms.
  induction (limit lim (outbox_after g pos)) as [|r l IH]; intros ms Hms; simpl in Hms; [by injection Hms as <-|].
  apply result_bind_Ok in Hms as (x & Hm & Hms). apply result_bind_Ok in Hms as (ms' & Hms' & [= <-]).
  constructor; [|by apply IH]. unfold decode_outbox_row in Hm. apply result_bind_Ok in Hm as (q & _ & Hm).
  by apply result_bind_Ok in Hm as (y & Hy%ok_or_Ok & [= <-]).
Qed.

Lemma page_touches g pos lim b k :
  read_outbox g (Some pos) lim = Ok b →
  Exists (touches k) (limit lim (outbox_after g pos)) ↔ is_Some (coalesce (mb_mutations b) !! k).
Proof.
  intros Hf%read_outbox_rows. rewrite coalesce_keys.
  induction Hf as [|r x l ms Hr _ IH]; [by rewrite !Exists_nil|]. rewrite !Exists_cons, IH.
  unfold touches. rewrite Hr. simpl. naive_solver.
Qed.

(** ** One batch *)

(** The entry that processing a document leaves was read for the document it is stored with, and has
    the text of the document that was processed. *)
Lemma upsert_entry_sourced h now n j d prior e :
  n < now → (∀ e', prior = Some e' → was_read now (ce_document e') (ce_text e')) →
  upsert_entry h policy (sources n j) d prior = Some e →
  was_read now (ce_document e) (ce_text e) ∧ sourced now d e.
Proof.
  intros Hn Hprior He. unfold upsert_entry in He.
  destruct (prepare_source (sources n j) d policy) as [p|r] eqn:Hp; [|done].
  case_bool_decide as Hsame.
  { subst prior. injection Hsame as <-. specialize (Hprior e eq_refl). split; [done|].
    exists (ce_document e), (ce_text e). split_and!; [by left|done|done]. }
  destruct (match prior with Some _ => _ | None => false end) eqn:Hmeta.
  { subst prior. specialize (Hprior e eq_refl). split; [done|].
    exists (ce_document e), (ce_text e). split_and!; [by right|done|done]. }
  destruct (read_text (sources n j) p policy) as [x|r] eqn:Hx; [|done].
  assert (was_read now d x) as Hread by (exists n, j; split; [done|]; apply result_bind_Ok; eauto).
  destruct (h && _) eqn:Hh.
  - apply andb_true_iff in Hh as [_ Hh%bool_decide_eq_true]. subst prior. injection Hh as Hh.
    split; [by apply Hprior|]. exists d, x. split_and!; [by left|done|done].
  - injection He as <-. split; [done|]. exists d, x. split_and!; [by left|done|done].
Qed.

Lemma batch_upserted h now n ms m m' k d :
  n < now → Forall (λ x, canonical_mutation (sm_mutation x)) ms → entries_read now m →
  delta_result h policy (sources n) (coalesced_upserts ms) (coalesced_deletions ms) m m' →
  coalesce ms !! k = Some (Some d) → projected_as now (Some d) (m' !! k).
Proof.
  intros Hn Hcan Hm [_ Hup _ _] Hk. destruct (coalesce_canonical _ _ _ Hcan Hk) as [_ Hkey]. rewrite <-(Hkey d eq_refl).
  assert (d ∈ coalesced_upserts ms) as Hd by (apply coalesced_upserts_elem; eauto).
  apply list_elem_of_lookup_1 in Hd as [j Hj].
  rewrite (Hup j d Hj). destruct (upsert_entry _ _ _ _ _) as [e|] eqn:He; simpl.
  - eapply upsert_entry_sourced; [done| |exact He]. intros e' He'. by eapply Hm.
  - exists n, j. split; [done|]. destruct (extract_text (sources n j) d policy) as [t|r] eqn:Ht; [|done].
    destruct (upsert_entry_present h policy (sources n j) d (m !! document_key d) t Ht) as [e' He']. congruence.
Qed.

Lemma batch_kept h n ms m m' k :
  Forall (λ x, canonical_mutation (sm_mutation x)) ms →
  delta_result h policy (sources n) (coalesced_upserts ms) (coalesced_deletions ms) m m' →
  coalesce ms !! k = None → m' !! k = m !! k.
Proof.
  intros Hcan [_ _ _ Hkept] Hk. apply Hkept.
  - intros (d & -> & [k' Hd]%coalesced_upserts_elem)%list_elem_of_fmap.
    destruct (coalesce_canonical _ _ _ Hcan Hd) as [_ Hkey]. rewrite (Hkey d eq_refl) in Hk. congruence.
  - rewrite coalesced_deletions_elem. congruence.
Qed.

Lemma batch_entries_read h now n ms m m' :
  n < now → Forall (λ x, canonical_mutation (sm_mutation x)) ms → entries_read now m →
  delta_result h policy (sources n) (coalesced_upserts ms) (coalesced_deletions ms) m m' → entries_read now m'.
Proof.
  intros Hn Hcan Hm Hres k e He. destruct (coalesce ms !! k) as [[d|]|] eqn:Hc.
  - destruct (coalesce_canonical _ _ _ Hcan Hc) as [_ Hkey]. specialize (Hkey d eq_refl). subst k.
    assert (d ∈ coalesced_upserts ms) as [j Hj]%list_elem_of_lookup_1 by (apply coalesced_upserts_elem; eauto).
    destruct Hres as [_ Hup _ _]. rewrite (Hup j d Hj) in He.
    eapply (upsert_entry_sourced h now n j d); [done| |exact He]. intros e' He'. by eapply Hm.
  - destruct Hres as [_ _ Hdel _]. rewrite Hdel in He; [done|]. by apply coalesced_deletions_elem.
  - rewrite (batch_kept _ _ _ _ _ _ Hcan Hres Hc) in He. by eapply Hm.
Qed.

(** A batch that was committed and not acknowledged. *)
Lemma batch_committed now g row lim b h n m m' :
  n < now → store_wf g → consumers g !! CONTENT_SCHEMA_ID = Some row → read_outbox g (Some (k_last_sequence row)) lim = Ok b →
  Forall (λ x, canonical_mutation (sm_mutation x)) (mb_mutations b) →
  delta_result h policy (sources n) (coalesced_upserts (mb_mutations b)) (coalesced_deletions (mb_mutations b)) m m' →
  content_on_track now g m → content_on_track now g m'.
Proof.
  intros Hn Hwf Hrow Hread Hcan Hres (row' & idx & Hrow' & Ht & Hm & Hk). rewrite Hrow in Hrow'. injection Hrow' as <-.
  exists row, idx. split; [done|]. split; [done|]. split; [by eapply batch_entries_read|]. intros k.
  destruct (coalesce (mb_mutations b) !! k) as [o|] eqn:Hc.
  - left. assert (Exists (touches k) (limit lim (outbox_after g (k_last_sequence row)))) as Hex
      by (by eapply page_touches; [done|rewrite Hc]).
    rewrite <-(take_drop (Z.to_nat lim) (outbox_after g (k_last_sequence row))). apply Exists_app. by left.
  - rewrite (batch_kept _ _ _ _ _ _ Hcan Hres Hc). apply Hk.
Qed.

(** A batch that was committed and then acknowledged. *)
Lemma batch_acknowledged now g row lim b h n m m' last :
  n < now → consumers g !! CONTENT_SCHEMA_ID = Some row → read_outbox g (Some (k_last_sequence row)) lim = Ok b →
  last_sequence b = Some last → (sm_sequence <$> mb_mutations b) = (limit lim (outbox_after g (k_last_sequence row))).*1 →
  (∀ idx, apply_mutation_batch b idx = replay (limit lim (outbox_after g (k_last_sequence row))) idx) →
  Forall (λ x, canonical_mutation (sm_mutation x)) (mb_mutations b) →
  delta_result h policy (sources n) (coalesced_upserts (mb_mutations b)) (coalesced_deletions (mb_mutations b)) m m' →
  content_on_track now g m → ∀ g', outbox g' = outbox g → documents g' = documents g →
  (∃ gen, consumers g' !! CONTENT_SCHEMA_ID = Some (ConsumerRow last gen)) → content_on_track now g' m'.
Proof.
  intros Hn Hrow Hread Hlast Hseq Hrep Hcan Hres (row' & idx & Hrow' & Ht & Hm & Hk) g' Hout Hdocs [gen Hrow2].
  rewrite Hrow in Hrow'. injection Hrow' as <-. set (pos := k_last_sequence row) in *.
  assert (outbox_after g pos = limit lim (outbox_after g pos) ++ outbox_after g last) as Hsplit.
  { unfold last_sequence in Hlast. rewrite <-fmap_last, Hseq, fmap_last in Hlast.
    destruct (list.last (limit lim (outbox_after g pos))) as [x|] eqn:Hx; [|done]. simpl in Hlast. injection Hlast as <-.
    by apply outbox_after_split. }
  exists (ConsumerRow last gen), (apply_mutation_batch b idx). split; [done|]. cbn [k_last_sequence].
  rewrite (outbox_after_ext g g' last Hout). split; [|split; [by eapply batch_entries_read|]].
  - intros k. rewrite Hdocs, (outbox_after_ext g g' last Hout), Hrep. specialize (Ht k). rewrite Hsplit in Ht.
    unfold replay in *. by rewrite foldl_app in Ht.
  - intros k. destruct b as [ms]. simpl in *. rewrite coalesce_apply.
    destruct (coalesce ms !! k) as [[d|]|] eqn:Hc.
    + right. by eapply batch_upserted.
    + right. simpl. destruct Hres as [_ _ Hdel _]. by apply Hdel, coalesced_deletions_elem.
    + rewrite (batch_kept _ _ _ _ _ _ Hcan Hres Hc). destruct (Hk k) as [Hex|Hp]; [left|by right].
      rewrite Hsplit in Hex. apply Exists_app in Hex as [Hex|Hex]; [|done].
      apply (page_touches _ _ _ _ _ Hread) in Hex. simpl in Hex. rewrite Hc in Hex. by destruct Hex.
Qed.

(** An acknowledgement changes the consumer's row and nothing else. *)
Lemma acknowledge_inv c last gen g g' :
  acknowledge_projection c last gen g = Ok (tt, g') →
  g' = set_consumers (<[c := ConsumerRow last gen]> (consumers g)) g.
Proof.
  intros H. unfold acknowledge_projection in H. ginv.
  repeat match goal with H : i64_try_from _ = Some _ |- _ => apply i64_try_from_Some in H as [-> ?] end. done.
Qed.
End on_track.

(** ** A run *)

Section run.
Context `{TV : Tantivy} `{T : TextEnv} `{CE : !ContentEnv} `{!StoreLaws E} `{TL : !TantivyLaws}.
Context `{J : JsonEnv} `{RC : !JsonCodec ContentGenerationRecord} `{PC : !JsonCodec ActiveGenerationPointer}.
Context `{!JsonLaws J} `{!JsonCodecLaws ContentGenerationRecord} `{!JsonCodecLaws ActiveGenerationPointer}.
Context (env : GenEnv) (policy : ContentIndexPolicy).
Implicit Types (g : db) (s : pstate) (t : index_target) (m : contents).
Abbreviation on_track := (content_on_track (ge_files env) policy).

(** Acknowledgements for the content consumer. *)
Definition acknowledges g g' : Prop :=
  ∃ last gen, in_u64 last ∧ in_u64 gen ∧ acknowledge_projection CONTENT_SCHEMA_ID last gen g = Ok (tt, g').

(** The graph is well formed and the index of the target is on track. *)
Definition run_ok t s : Prop :=
  store_wf (ps_graph s) ∧ ∃ h m, dir_holds (target_index t (gs_root (ps_files s))) h m
    ∧ on_track (gs_tick (ps_files s)) (ps_graph s) m.

(** Where the consumer stands. *)
Definition at_position (pos : Z) g : Prop :=
  ∃ row, consumers g !! CONTENT_SCHEMA_ID = Some row ∧ k_last_sequence row = pos.

(** What a step of a run does: the graph only by acknowledging, time forward. *)
Definition run_step t s s' : Prop :=
  run_ok t s' ∧ rtc acknowledges (ps_graph s) (ps_graph s') ∧ gs_tick (ps_files s) ≤ gs_tick (ps_files s').

Lemma target_index_put t dir (r : ContentRoot) : target_index t (put_target t dir r) = dir.
Proof. destruct t; [done|]. simpl. rewrite generation_dir_put, decide_True by done. done. Qed.

Lemma apply_delta_opstamp (fs : nat → SourceFs) dir ups dels sum dir' :
  apply_delta fs dir ups dels policy = (Ok sum, dir') → in_u64 (su_generation sum).
Proof.
  intros [[_ [x Hx]]|(d & w & counts & i' & _ & _ & _ & _ & Hs)]%commit_work_spec; [done|].
  rewrite (Hs sum eq_refl). apply opstamp_u64.
Qed.

(** The delta of a batch on the target. *)
Lemma target_delta_spec t ms (f f' : gstate) r h m :
  Forall (λ x, canonical_mutation (sm_mutation x)) ms → (Z.of_nat (length ms) ≤ u64_max)%Z →
  dir_holds (target_index t (gs_root f)) h m →
  target_delta env t (coalesced_upserts ms) (coalesced_deletions ms) policy f = (r, f') →
  gs_tick f' = S (gs_tick f) ∧ (∀ sum, r = Ok sum → in_u64 (su_generation sum)) ∧
  ((dir_holds (target_index t (gs_root f')) h m ∧ ∃ x, r = Err x) ∨
   ∃ m', dir_holds (target_index t (gs_root f')) h m'
     ∧ delta_result h policy (ge_files env (gs_tick f)) (coalesced_upserts ms) (coalesced_deletions ms) m m').
Proof.
  intros Hcan Hlen Hdir H. unfold target_delta, mbind, St_bind, ask, root_get in H. simpl in H.
  destruct (apply_delta _ _ _ _ _) as [x dir] eqn:Hrun. unfold root_set, st_lift in H. simpl in H.
  injection H as <- <-. simpl. rewrite target_index_put. split; [done|].
  split; [intros sum ->; by eapply apply_delta_opstamp|].
  destruct (apply_delta_committed (ge_files env (gs_tick f)) (target_index t (gs_root f)) (coalesced_upserts ms)
    (coalesced_deletions ms) policy x dir h m Hdir) as [[-> [e ->]]|(m' & Hdir' & Hres & _)].
  - apply Forall_forall. intros d [k Hk]%coalesced_upserts_elem. destruct (coalesce_canonical _ _ _ Hcan Hk) as [Hu Hkey].
    by rewrite (Hkey d eq_refl).
  - apply Forall_forall. intros k Hk%coalesced_deletions_elem. by eapply coalesce_canonical.
  - pose proof (coalesced_length ms). lia.
  - done.
  - left. eauto.
  - right. eauto.
Qed.

Lemma run_step_refl t s : run_ok t s → run_step t s s.
Proof. intros Hs. split; [done|]. split; [apply rtc_refl|done]. Qed.

(** The commit of a batch: before it is acknowledged the index is on track, and so it is after. *)
Lemma batch_delta t batch s row ms h m :
  (0 < batch ≤ 10000)%Z → store_wf (ps_graph s) →
  consumers (ps_graph s) !! CONTENT_SCHEMA_ID = Some row →
  let pos := k_last_sequence row in
  read_outbox (ps_graph s) (Some pos) batch = Ok (MkMutationBatch ms) →
  sm_sequence <$> ms = (limit batch (outbox_after (ps_graph s) pos)).*1 →
  (∀ idx, apply_mutation_batch (MkMutationBatch ms) idx = replay (limit batch (outbox_after (ps_graph s) pos)) idx) →
  Forall (λ x, canonical_mutation (sm_mutation x)) ms →
  dir_holds (target_index t (gs_root (ps_files s))) h m → on_track (gs_tick (ps_files s)) (ps_graph s) m →
  ∀ q s1, on_files (target_delta env t (coalesced_upserts ms) (coalesced_deletions ms) policy) s = (q, s1) →
  run_step t s s1 ∧ ps_graph s1 = ps_graph s
  ∧ ∀ sum, q = Ok sum → in_u64 (su_generation sum) ∧
      ∀ last gen, last_sequence (MkMutationBatch ms) = Some last →
      ∀ g', g' = set_consumers (<[CONTENT_SCHEMA_ID := ConsumerRow last gen]> (consumers (ps_graph s))) (ps_graph s) →
      ∃ m', dir_holds (target_index t (gs_root (ps_files s1))) h m' ∧ on_track (gs_tick (ps_files s1)) g' m'.
Proof.
  intros Hb Hwf Hrow pos Hread Hseq Hrep Hcan Hdir Hon q s1 Hq.
  assert (Z.of_nat (length ms) ≤ u64_max)%Z as Hlen.
  { rewrite <-(length_fmap sm_sequence), Hseq, length_fmap. unfold limit. rewrite length_take. unfold u64_max. lia. }
  unfold on_files in Hq. destruct (target_delta _ _ _ _ _ _) as [q' f] eqn:Hd. injection Hq as <- <-.
  destruct (target_delta_spec t ms (ps_files s) f q' h m Hcan Hlen Hdir Hd) as (Htick & Hgen & Hcase).
  assert (gs_tick (ps_files s) ≤ gs_tick f) as Hle by lia.
  assert (gs_tick (ps_files s) < gs_tick f) as Hlt by lia.
  apply (content_on_track_mono _ _ _ _ _ _ Hle) in Hon. simpl.
  destruct Hcase as [[Hdir' [x ->]]|(m' & Hdir' & Hres)].
  - split; [|done]. split; [|split; [apply rtc_refl|done]]. split; [done|]. by exists h, m.
  - split; [|split; [done|]].
    + split; [|split; [apply rtc_refl|done]]. split; [done|]. exists h, m'. split; [done|].
      by eapply (batch_committed _ _ _ (ps_graph s) row batch (MkMutationBatch ms)).
    + intros sum ->. split; [by apply Hgen|]. intros last gen Hlast g' ->. exists m'. split; [done|].
      eapply (batch_acknowledged _ _ _ (ps_graph s) row batch (MkMutationBatch ms)); try done.
      exists gen. simpl. by rewrite lookup_insert_eq.
Qed.

Lemma project_batch_spec t batch after s r s' :
  (0 < batch ≤ 10000)%Z → run_ok t s → at_position after (ps_graph s) →
  project_batch env t policy batch after s = (r, s') →
  run_step t s s' ∧
  match r with
  | Ok None => ps_graph s' = ps_graph s ∧ outbox_after (ps_graph s) after = []
  | Ok (Some (last, _, _)) => at_position last (ps_graph s')
  | Err _ => True
  end.
Proof.
  intros Hb Hok (row & Hrow & <-) H. pose proof Hok as [[Hgw Hdl] (h & m & Hdir & Hon)].
  pose proof (gw_consumer _ Hgw _ _ Hrow) as [Hrange _].
  pose proof (gw_high_water _ Hgw) as Hh. set (pos := k_last_sequence row) in *.
  destruct (read_outbox_ok (ps_graph s) pos batch Hgw) as (ms & Hread & Hseq & Hcan & Hrep); [lia|].
  apply st_bind_inv in H as [(e & He & ->)|(b & s1 & Hb1 & H)];
    [unfold from_graph in He; by rewrite Hread in He|].
  unfold from_graph in Hb1. rewrite Hread in Hb1. injection Hb1 as <- <-. cbn [mb_mutations] in H.
  destruct ms as [|x ms'] eqn:Hms.
  { injection H as <- <-. split; [by apply run_step_refl|]. split; [done|]. simpl in Hseq.
    destruct (outbox_after (ps_graph s) pos); [done|]. unfold limit in Hseq. destruct (Z.to_nat batch) eqn:?; [lia|done]. }
  rewrite <-Hms in *. clear x ms' Hms.
  apply st_bind_inv in H as [(e & He & ->)|([] & s1 & Hv & H)]; [injection He as _ <-; split; [by apply run_step_refl|done]|].
  injection Hv as _ <-.
  pose proof (batch_delta t batch s row ms h m) as Hdelta. fold pos in Hdelta.
  specialize (Hdelta Hb (conj Hgw Hdl) Hrow Hread Hseq Hrep Hcan Hdir Hon).
  apply st_bind_inv in H as [(e & He & ->)|(sum & s1 & Hsum & H)];
    [by destruct (Hdelta _ _ He)|].
  destruct (Hdelta _ _ Hsum) as (Hstep & Hg1 & Hnext). destruct (Hnext sum eq_refl) as [Hgen Hack]. clear Hdelta Hnext.
  apply st_bind_inv in H as [(e & He & ->)|(last & s2 & Hlast & H)]; [by injection He as _ <-|].
  injection Hlast as Hlast%ok_or_Ok <-.
  apply st_bind_inv in H as [(e & He & ->)|([] & s2 & Hgw2 & H)].
  - unfold graph_write in He. destruct (acknowledge_projection _ _ _ _) as [[? ?]|]; [done|]. by injection He as _ <-.
  - injection H as <- <-. unfold graph_write in Hgw2.
    destruct (acknowledge_projection _ _ _ _) as [[[] g']|] eqn:Hg'; [|done]. injection Hgw2 as <-. simpl.
    pose proof (acknowledge_inv _ _ _ _ _ Hg') as Hinv. rewrite Hg1 in Hg', Hinv.
    destruct (Hack last (su_generation sum) Hlast g' Hinv) as (m' & Hdir' & Hon').
    destruct Hstep as (_ & _ & Htick). split; [|by eexists; rewrite Hinv; simpl; rewrite lookup_insert_eq].
    assert (in_u64 last) as Hu.
    { unfold last_sequence in Hlast. rewrite <-fmap_last in Hlast. cbn [mb_mutations] in Hlast. rewrite Hseq in Hlast.
      apply last_Some_elem_of, list_elem_of_fmap in Hlast as ([q o] & -> & Hin%elem_of_limit).
      apply elem_of_outbox_after in Hin as [Hin _]. apply (gw_outbox _ Hgw) in Hin as [Hin _].
      unfold in_u64, u64_max, i64_max in *. simpl. lia. }
    split; [split|split; [|done]].
    + simpl. eapply acknowledge_projection_wf; [apply Hu|apply Hgen| |exact Hg']; by split.
    + by exists h, m'.
    + simpl. apply rtc_once. by exists last, (su_generation sum).
Qed.

Lemma run_step_trans t s s1 s2 : run_step t s s1 → run_step t s1 s2 → run_step t s s2.
Proof. intros (_ & H1 & H2) (? & H3 & H4). split; [done|]. split; [by etransitivity|lia]. Qed.

Lemma project_loop_spec fuel t batch after projected commits s r s' :
  (0 < batch ≤ 10000)%Z → run_ok t s → at_position after (ps_graph s) →
  project_loop env fuel t policy batch after projected commits s = (r, s') →
  run_step t s s' ∧ ∀ a n c, r = Ok (a, n, c) → at_position a (ps_graph s').
Proof.
  intros Hb. revert after projected commits s. induction fuel as [|fuel IH]; intros after projected commits s Hok Hat H; simpl in H.
  { injection H as <- <-. split; [by apply run_step_refl|]. by intros a n c [= <- _ _]. }
  apply st_bind_inv in H as [(e & He & ->)|([[[last n] sum]|] & s1 & Hb1 & H)].
  - by destruct (project_batch_spec t batch after s _ s' Hb Hok Hat He).
  - destruct (project_batch_spec t batch after s _ s1 Hb Hok Hat Hb1) as [Hstep Hlast].
    apply IH in H as [Hstep2 Hres]; [|apply Hstep|done]. split; [by eapply run_step_trans|done].
  - destruct (project_batch_spec t batch after s _ s1 Hb Hok Hat Hb1) as [Hstep [Hg _]]. injection H as <- <-.
    split; [done|]. intros a n c [= <- _ _]. by rewrite Hg.
Qed.

(** Opening the manager leaves the index a run writes to as it is. *)
Lemma project_target_spec (f f' : gstate) r t :
  root_ok (gs_tick f) (gs_root f) → (Z.of_nat (gs_tick f') < u64_max)%Z →
  (if direct_marker (gs_root f) then t = DirectIndex else GenerationIndex <$> active_index_path (gs_root f) = Ok t) →
  project_target env f = (r, f') →
  gs_tick f ≤ gs_tick f' ∧ target_index t (gs_root f') = target_index t (gs_root f) ∧ ∀ t', r = Ok t' → t' = t.
Proof.
  intros Hroot Hlt Ht H. unfold project_target, mbind at 1, St_bind at 1, root_get at 1 in H.
  destruct (direct_marker (gs_root f)); [injection H as <- <-; split_and!; [done|done|by intros t' [= <-]]|].
  destruct (keeps_manager_open env (S (gs_tick f')) ltac:(lia) (served (gs_root f))) as [Hgrow Hkeep].
  specialize (Hgrow f). specialize (Hkeep f (conj Hroot eq_refl)).
  assert (∀ q f1, manager_open env f = (q, f1) → gs_tick f1 ≤ gs_tick f' → served (gs_root f1) = served (gs_root f)) as Hserved.
  { intros q f1 Hq Hle. rewrite Hq in Hkeep. specialize (Hkeep ltac:(simpl; lia)). by destruct q; destruct Hkeep. }
  assert (∀ f1, served (gs_root f1) = served (gs_root f) →
    target_index t (gs_root f1) = target_index t (gs_root f) ∧ active_index_path (gs_root f1) = active_index_path (gs_root f)) as Hsame.
  { intros f1 Hs. rewrite !active_index_served, Hs in *. split; [|done].
    destruct (served (gs_root f)) as [[p dir]|] eqn:Hsf; [|discriminate Ht]. simpl in Ht.
    destruct (_ ≫= _) as [id|x] eqn:Hid in Ht; [|discriminate Ht]. injection Ht as <-.
    apply result_bind_Ok in Hid as (? & _ & Hid). apply result_bind_Ok in Hid as (? & _ & [= <-]). simpl.
    unfold served in Hs, Hsf. destruct (active_pointer (gs_root f1)) as [p1|]; [|done].
    destruct (active_pointer (gs_root f)) as [p0|]; [|done]. injection Hs as -> H1. injection Hsf as -> H0. by rewrite H1, H0. }
  apply st_bind_inv in H as [(e & He & ->)|([] & f1 & Hopen & H)].
  - rewrite He in Hgrow. split; [done|]. split; [|done]. by apply Hsame, (Hserved _ _ He).
  - rewrite Hopen in Hgrow. unfold mbind, St_bind, root_get, st_lift in H. simpl in H.
    assert (f' = f1) as -> by (by destruct (active_index_path (gs_root f1)); injection H as _ <-).
    destruct (Hsame f1 (Hserved _ _ Hopen (le_n _))) as [Hix Hap]. split; [done|]. split; [done|].
    intros t' ->. rewrite Hap in H. destruct (active_index_path (gs_root f)); [|discriminate H].
    injection H as <-. by injection Ht.
Qed.

Lemma checkpoint_position g c :
  projector_checkpoint g CONTENT_SCHEMA_ID = Ok (Some c) → at_position (pj_last_sequence c) g.
Proof.
  unfold projector_checkpoint, at_position. destruct (consumers g !! CONTENT_SCHEMA_ID) as [row|]; [|done].
  intros (last & Hl%ok_or_Ok & H)%result_bind_Ok. apply result_bind_Ok in H as (gen & _ & [= <-]). exists row.
  split; [done|]. unfold u64_try_from in Hl. simpl. case_decide; [by injection Hl|done].
Qed.

Lemma position_at_end g pos :
  graph_wf g → (high_water g ≤ pos)%Z → outbox_after g pos = [].
Proof.
  intros Hwf Hle. destruct (outbox_after g pos) as [|[q r] l] eqn:Hout; [done|]. exfalso.
  assert ((q, r) ∈ outbox_after g pos) as [Hq Hpos]%elem_of_outbox_after by (rewrite Hout; left).
  apply (gw_outbox _ Hwf) in Hq as [Hq _]. lia.
Qed.

(** The run after the target is known. *)
Lemma project_run_spec t options c s r s' :
  (0 < co_batch_size options ≤ 10000)%Z → run_ok t s → at_position (pj_last_sequence c) (ps_graph s) →
  ('(after, projected, commits) ←
     project_loop env (Z.to_nat (co_maximum_batches options)) t policy (co_batch_size options) (pj_last_sequence c) 0 [];
   latest ← from_graph latest_outbox_sequence;
   mret (MkDurableContentProjectionSummary (pj_last_sequence c) after latest projected
           (bool_decide (after < latest)%Z) commits)) s = (r, s') →
  run_step t s s' ∧ ∀ sum, r = Ok sum → dp_backlog_remaining sum = false →
    ∃ h m, dir_holds (target_index t (gs_root (ps_files s'))) h m
      ∧ content_current (ge_files env) policy (gs_tick (ps_files s')) (ps_graph s') m.
Proof.
  intros Hb Hok Hat H. apply st_bind_inv in H as [(e & He & ->)|([[after projected] commits] & s1 & Hloop & H)].
  { by destruct (project_loop_spec _ _ _ _ _ _ _ _ _ Hb Hok Hat He). }
  destruct (project_loop_spec _ _ _ _ _ _ _ _ _ Hb Hok Hat Hloop) as [Hstep Hpos].
  specialize (Hpos _ _ _ eq_refl). destruct Hpos as (row & Hrow & Hrpos).
  apply st_bind_inv in H as [(e & He & ->)|(latest & s2 & Hlatest & H)]; [by injection He as _ <-|].
  injection Hlatest as Hlatest <-. injection H as <- <-. split; [done|]. intros sum [= <-]. simpl.
  intros Hback%bool_decide_eq_false. destruct Hstep as ([[Hgw Hdl] (h & m & Hdir & Hon)] & _). exists h, m. split; [done|].
  apply map_err_Ok in Hlatest. rewrite latest_outbox_sequence_eq in Hlatest by done. injection Hlatest as <-.
  eapply on_track_current; [done|done|]. rewrite Hrpos. apply position_at_end; [done|lia].
Qed.

(** Time only goes forward. *)
Lemma project_batch_tick t batch after s : gs_tick (ps_files s) ≤ gs_tick (ps_files (project_batch env t policy batch after s).2).
Proof.
  unfold project_batch, from_graph, mbind, St_bind, st_lift. simpl.
  destruct (map_err _ _) as [b|e]; [|done]. destruct (mb_mutations b); [done|]. destruct (map_err _ _); [|done].
  unfold on_files, target_delta, mbind, St_bind, ask, root_get, root_set, st_lift. simpl.
  destruct (apply_delta _ _ _ _ _) as [[sum|x] dir]; simpl; [|lia]. destruct (ok_or _ _); simpl; [|lia].
  unfold graph_write. simpl. destruct (acknowledge_projection _ _ _ _) as [[? ?]|]; simpl; lia.
Qed.

Lemma project_loop_tick fuel t batch after projected commits s :
  gs_tick (ps_files s) ≤ gs_tick (ps_files (project_loop env fuel t policy batch after projected commits s).2).
Proof.
  revert after projected commits s. induction fuel as [|fuel IH]; intros after projected commits s; [done|]. simpl.
  unfold mbind, St_bind. pose proof (project_batch_tick t batch after s) as Hle.
  destruct (project_batch env t policy batch after s) as [[[[[last n] sum]|]|x] s1]; simpl in *; [|done..].
  etrans; [exact Hle|apply IH].
Qed.

Lemma project_spec opened options t s r s' :
  (0 ≤ co_batch_size options)%Z → root_ok (gs_tick (ps_files s)) (gs_root (ps_files s)) →
  (if direct_marker (gs_root (ps_files s)) then t = DirectIndex
   else GenerationIndex <$> active_index_path (gs_root (ps_files s)) = Ok t) →
  run_ok t s → project env opened policy options s = (r, s') → (Z.of_nat (gs_tick (ps_files s')) < u64_max)%Z →
  run_step t s s' ∧ ∀ sum, r = Ok sum → dp_backlog_remaining sum = false →
    ∃ h m, dir_holds (target_index t (gs_root (ps_files s'))) h m
      ∧ content_current (ge_files env) policy (gs_tick (ps_files s')) (ps_graph s') m.
Proof.
  intros Hbatch Hroot Ht Hok H Hlt. unfold project in H.
  pose proof (run_step_refl t s Hok) as Hrefl.
  apply st_bind_inv in H as [(e & He & ->)|([] & s1 & Hen & H)]; [by injection He as _ <-|].
  injection Hen as Hen%ensure_true <-. rewrite !negb_orb, !andb_true_iff, !negb_true_iff in Hen.
  destruct Hen as (((Hb0 & Hb1) & _) & _). apply Z.eqb_neq in Hb0. apply Z.ltb_ge in Hb1.
  apply st_bind_inv in H as [(e & He & ->)|([] & s1 & Hop & H)]; [by injection He as _ <-|]. injection Hop as _ <-.
  apply st_bind_inv in H as [(e & He & ->)|(oc & s1 & Hc & H)]; [by injection He as _ <-|]. injection Hc as Hc%map_err_Ok <-.
  apply st_bind_inv in H as [(e & He & ->)|(c & s1 & Hoc & H)]; [by injection He as _ <-|].
  injection Hoc as Hoc%ok_or_Ok <-. subst oc. apply checkpoint_position in Hc.
  assert (∀ q s1, on_files (project_target env) s = (q, s1) → (Z.of_nat (gs_tick (ps_files s1)) < u64_max)%Z →
    run_step t s s1 ∧ ps_graph s1 = ps_graph s ∧ ∀ t', q = Ok t' → t' = t) as Htarget.
  { intros q s1 Hq Hlt1. unfold on_files in Hq. destruct (project_target env (ps_files s)) as [q' f] eqn:Hp. injection Hq as <- <-.
    simpl in Hlt1. destruct (project_target_spec _ _ _ t Hroot Hlt1 Ht Hp) as (Hle & Hix & Hq). split; [|done].
    split; [|split; [apply rtc_refl|done]]. destruct Hok as [Hwf (h & m & Hdir & Hon)]. split; [done|].
    exists h, m. simpl. rewrite Hix. split; [done|]. by eapply content_on_track_mono. }
  apply st_bind_inv in H as [(e & He & ->)|(t' & s1 & Hq & H)]; [by destruct (Htarget _ _ He Hlt)|].
  assert (gs_tick (ps_files s1) ≤ gs_tick (ps_files s')) as Hle.
  { pose proof (project_loop_tick (Z.to_nat (co_maximum_batches options)) t' (co_batch_size options) (pj_last_sequence c) 0 [] s1) as Hle.
    apply st_bind_inv in H as [(e & He & _)|([[a n] cs] & s2 & Hl & H)]; [by rewrite He in Hle|]. rewrite Hl in Hle.
    apply st_bind_inv in H as [(e & He & _)|(latest & s3 & Hl3 & H)]; [by injection He as _ <-|].
    injection Hl3 as _ <-. by injection H as _ <-. }
  destruct (Htarget _ _ Hq ltac:(lia)) as (Hstep & Hg & Hteq). specialize (Hteq t' eq_refl). subst t'.
  destruct (project_run_spec t options c s1 r s') as [Hstep2 Hres]; [lia|apply Hstep|by rewrite Hg|exact H|].
  split; [by eapply run_step_trans|done].
Qed.
End run.

(** ** Guarantees *)

Section guarantees.
Context `{TV : Tantivy} `{T : TextEnv} `{CE : !ContentEnv} `{!StoreLaws E} `{TL : !TantivyLaws}.
Context `{J : JsonEnv} `{RC : !JsonCodec ContentGenerationRecord} `{PC : !JsonCodec ActiveGenerationPointer}.
Context `{!JsonLaws J} `{!JsonCodecLaws ContentGenerationRecord} `{!JsonCodecLaws ActiveGenerationPointer}.

(** C17 (content projection): let the store be well formed, the content root as its manager leaves it,
    and the index in use well formed and on track.  Then a run of the projection worker, wherever it
    fails and however files change meanwhile, changes the graph only by acknowledging for its consumer
    and leaves the index on track: every entry was read for the document it is stored with, and for
    every document that the unread outbox does not mention the index has a text (up to its hash) that
    was read, before now and under the policy, for the version the catalog describes or for one with
    the same source fingerprint (object, kind, size, modification time, availability), or nothing, and
    then the document is gone or could not be read when it was processed.  A run that succeeds and
    reports no backlog leaves this for every document of the desired catalog and nothing else. *)
Theorem project_keeps_content env opened policy options t s r s' h m :
  (0 ≤ co_batch_size options)%Z → root_ok (gs_tick (ps_files s)) (gs_root (ps_files s)) →
  (if direct_marker (gs_root (ps_files s)) then t = DirectIndex
   else GenerationIndex <$> active_index_path (gs_root (ps_files s)) = Ok t) →
  store_wf (ps_graph s) → dir_holds (target_index t (gs_root (ps_files s))) h m →
  content_on_track (ge_files env) policy (gs_tick (ps_files s)) (ps_graph s) m →
  project env opened policy options s = (r, s') → (Z.of_nat (gs_tick (ps_files s')) < u64_max)%Z →
  store_wf (ps_graph s') ∧ rtc acknowledges (ps_graph s) (ps_graph s')
  ∧ (∃ h' m', dir_holds (target_index t (gs_root (ps_files s'))) h' m'
       ∧ content_on_track (ge_files env) policy (gs_tick (ps_files s')) (ps_graph s') m')
  ∧ ∀ sum, r = Ok sum → dp_backlog_remaining sum = false →
      ∃ h' m', dir_holds (target_index t (gs_root (ps_files s'))) h' m'
        ∧ content_current (ge_files env) policy (gs_tick (ps_files s')) (ps_graph s') m'.
Proof.
  intros Hb Hroot Ht Hwf Hdir Hon Hrun Hlt.
  assert (run_ok env policy t s) as Hok by (split; [done|by exists h, m]).
  destruct (project_spec env policy opened options t s r s' Hb Hroot Ht Hok Hrun Hlt)
    as [([Hwf' Hm'] & Hacks & _) Hres]. done.
Qed.

Lemma read_outbox_u64 g sequence lim b :
  read_outbox g sequence lim = Ok b → Forall (λ x, in_u64 (sm_sequence x)) (mb_mutations b).
Proof.
  intros (after & _ & H)%result_bind_Ok. apply result_bind_Ok in H as (ms & Hms & [= <-]). simpl. revert ms Hms.
  induction (limit lim (outbox_after g after)) as [|r l IH]; intros ms Hms; simpl in Hms; [by injection Hms as <-|].
  apply result_bind_Ok in Hms as (x & Hx & Hms). apply result_bind_Ok in Hms as (ms' & Hms' & [= <-]).
  constructor; [|by apply IH]. unfold decode_outbox_row in Hx. apply result_bind_Ok in Hx as (q & Hq%ok_or_Ok & Hx).
  apply result_bind_Ok in Hx as (y & _ & [= <-]). simpl. unfold u64_try_from in Hq. case_decide; [|done]. by injection Hq as <-.
Qed.

(** Whatever the state, a run writes to the graph only by acknowledging. *)
Lemma project_batch_acknowledges env t policy batch after s :
  rtc acknowledges (ps_graph s) (ps_graph (project_batch env t policy batch after s).2).
Proof.
  destruct (project_batch env t policy batch after s) as [r s'] eqn:H. simpl.
  apply st_bind_inv in H as [(e & He & ->)|(b & s1 & Hb & H)]; [injection He as _ <-; apply rtc_refl|].
  injection Hb as Hb%map_err_Ok <-. destruct (mb_mutations b) as [|x l] eqn:Hms; [injection H as _ <-; apply rtc_refl|].
  rewrite <-Hms in H. apply st_bind_inv in H as [(e & He & ->)|([] & s1 & Hv & H)]; [injection He as _ <-; apply rtc_refl|].
  injection Hv as _ <-.
  assert (∀ (k : St gstate ContentIndexError ContentSyncSummary) q s1, on_files k s = (q, s1) → ps_graph s1 = ps_graph s) as Hg.
  { intros k q s1 Hq. unfold on_files in Hq. destruct (k (ps_files s)). by injection Hq as _ <-. }
  apply st_bind_inv in H as [(e & He & ->)|(sum & s1 & Hsum & H)]; [rewrite (Hg _ _ _ He); apply rtc_refl|].
  pose proof (Hg _ _ _ Hsum) as Hgs.
  apply st_bind_inv in H as [(e & He & ->)|(last & s2 & Hl & H)]; [injection He as _ <-; rewrite Hgs; apply rtc_refl|].
  injection Hl as Hl%ok_or_Ok <-. apply st_bind_inv in H as [(e & He & ->)|([] & s2 & Hack & H)].
  - unfold graph_write in He. destruct (acknowledge_projection _ _ _ _) as [[? ?]|]; [done|]. injection He as _ <-.
    rewrite Hgs. apply rtc_refl.
  - injection H as _ <-. unfold graph_write in Hack.
    destruct (acknowledge_projection _ _ _ _) as [[[] g']|] eqn:Hg'; [|done]. injection Hack as <-. rewrite Hgs in Hg'.
    apply rtc_once. exists last, (su_generation sum). split; [|split; [|exact Hg']].
    + unfold last_sequence in Hl. destruct (list.last (mb_mutations b)) as [m|] eqn:Hm; [|done]. injection Hl as <-.
      apply last_Some_elem_of in Hm. apply read_outbox_u64 in Hb. rewrite Forall_forall in Hb. by apply Hb.
    + unfold on_files, target_delta, mbind, St_bind, ask, root_get, root_set, st_lift in Hsum. simpl in Hsum.
      destruct (apply_delta _ _ _ _ _) as [[sum'|] dir] eqn:Hd; [|done]. injection Hsum as -> _.
      by eapply apply_delta_opstamp.
Qed.

Lemma project_loop_acknowledges env fuel t policy batch after projected commits s :
  rtc acknowledges (ps_graph s) (ps_graph (project_loop env fuel t policy batch after projected commits s).2).
Proof.
  revert after projected commits s. induction fuel as [|fuel IH]; intros after projected commits s; [apply rtc_refl|].
  simpl. unfold mbind, St_bind. pose proof (project_batch_acknowledges env t policy batch after s) as Hb.
  destruct (project_batch env t policy batch after s) as [[[[[last n] sum]|]|x] s1]; simpl in *; [|done..].
  etransitivity; [exact Hb|apply IH].
Qed.

Lemma project_only_acknowledges env opened policy options s :
  rtc acknowledges (ps_graph s) (ps_graph (project env opened policy options s).2).
Proof.
  destruct (project env opened policy options s) as [r s'] eqn:H. simpl. unfold project in H.
  apply st_bind_inv in H as [(e & He & ->)|([] & s1 & Hx & H)]; [injection He as _ <-; apply rtc_refl|]. injection Hx as _ <-.
  apply st_bind_inv in H as [(e & He & ->)|([] & s1 & Hx & H)]; [injection He as _ <-; apply rtc_refl|]. injection Hx as _ <-.
  apply st_bind_inv in H as [(e & He & ->)|(oc & s1 & Hx & H)]; [injection He as _ <-; apply rtc_refl|]. injection Hx as _ <-.
  apply st_bind_inv in H as [(e & He & ->)|(c & s1 & Hx & H)]; [injection He as _ <-; apply rtc_refl|]. injection Hx as _ <-.
  assert (∀ q s1, on_files (project_target env) s = (q, s1) → ps_graph s1 = ps_graph s) as Hg.
  { intros q s1 Hq. unfold on_files in Hq. destruct (project_target env (ps_files s)). by injection Hq as _ <-. }
  apply st_bind_inv in H as [(e & He & ->)|(t & s1 & Hx & H)]; [rewrite (Hg _ _ He); apply rtc_refl|].
  rewrite <-(Hg _ _ Hx).
  pose proof (project_loop_acknowledges env (Z.to_nat (co_maximum_batches options)) t policy (co_batch_size options)
    (pj_last_sequence c) 0 [] s1) as Hl.
  apply st_bind_inv in H as [(e & He & ->)|([[a n] cs] & s2 & Hx2 & H)]; [by rewrite He in Hl|]. rewrite Hx2 in Hl.
  apply st_bind_inv in H as [(e & He & ->)|(latest & s3 & Hx3 & H)]; [by injection He as _ <-|].
  injection Hx3 as _ <-. by injection H as _ <-.
Qed.
End guarantees.

(** ** Snapshots *)

Section snapshot.
Context `{TV : Tantivy} `{T : TextEnv} `{CE : !ContentEnv} `{!StoreLaws E} `{!TextLaws T} `{TL : !TantivyLaws}.
Import ProjectorSpec (reads, documents_after, documents_after_split, documents_after_size, readable,
  desired_page_reads, page_cursor).
Implicit Types (g : db).

(** The paged snapshot ends, and is the desired catalog in the order of its identifiers. *)
Lemma catalog_iter_reads g fuel after :
  readable g → length (documents_after g after) < fuel →
  ∃ docs, catalog_iter fuel g after = Ok <$> docs ∧ Forall2 (reads g) (documents_after g after) docs.
Proof.
  intros Hread. revert after. induction fuel as [|fuel IH]; intros after Hlen; [lia|]. simpl.
  destruct (desired_page_reads g after 4096 Hread) as (page & -> & Hf).
  pose proof (Forall2_length _ _ _ Hf) as Hlp. destruct (last (limit 4096 (documents_after g after))) as [x|] eqn:Hlast.
  - pose proof (page_cursor g _ page x Hf Hlast) as Hcur. destruct (last page) as [d|]; [|done]. injection Hcur as ->.
    pose proof (documents_after_split g after 4096 x Hlast) as Hsplit.
    destruct (IH (Some x.1)) as (docs & -> & Hf2).
    + rewrite Hsplit, length_app in Hlen. destruct (limit 4096 (documents_after g after)); [done|]. simpl in Hlen. lia.
    + exists (page ++ docs). rewrite fmap_app. split; [done|]. rewrite Hsplit. by apply Forall2_app.
  - apply last_None in Hlast. rewrite Hlast in Hf. apply Forall2_nil_inv_l in Hf as ->. simpl. exists []. split; [done|].
    destruct (documents_after g after); [constructor|done].
Qed.

Lemma graph_catalog_reads g :
  readable g → ∃ docs, graph_catalog g = Ok <$> docs ∧ Forall2 (reads g) (documents_after g None) docs.
Proof.
  intros Hread. apply catalog_iter_reads; [done|]. pose proof (documents_after_size g None). lia.
Qed.
End snapshot.
