(* ===== verification/ContentProjectFixtures.v ===== *)
(** A content workspace over the sample volume: a generation is built, the file is renamed and grows,
    and the projection worker brings the index up to date. *)
From Stdlib Require Import Ascii String.
From stdpp Require Import base strings numbers gmap list sorting relations.
From S2P Require Import Prelude Ids Order Models GraphDomain GraphTables Fixtures GraphProjection GraphStore GraphOutbox.
From S2P Require Import GraphInvariant GraphReach GraphSync GraphConverge.
From S2P Require Import Text Catalog KeyedIndex CatalogSpec CatalogFixtures Content ContentText ContentSpec.
From S2P Require Import ContentGuarantees ContentFixtures DurableJson Generations GenerationsSpec GenerationsFixtures.
From S2P Require Import GenerationsLimits ContentProject ContentProjectSpec.

(** The content consumer stands where the generation was built, then the file changes. *)
Definition rename_ops : list GraphReach.op :=
  [OpAcknowledgeProjection CONTENT_SCHEMA_ID 2 1; OpApplyBatch sample_rename].
Definition renamed_db : db := GraphReach.run_ops rename_ops sample_db.
Definition rename_env : GenEnv := {|
  ge_clock n := Z.of_nat n;
  ge_disk _ := Ok (MkDiskSpace (10 ^ 12) (10 ^ 11));
  ge_bytes _ := Ok 100%Z;
  ge_write n := Written;
  ge_create _ := Created;
  ge_make_dir _ := true;
  ge_remove _ := None;
  ge_graph n := sample_db;
  ge_files _ _ := either_files;
  ge_crash_after := None |}.
Definition built : gstate := run_ops rename_env [OpOpen; resume_op] fresh_root.
Definition projected := project rename_env (Ok tt) docs_policy ContentProjectionOptions_default (MkPstate renamed_db built).

Definition docs_row : document_row := Eval vm_compute in
  match documents renamed_db !! 10%N with Some r => r | None => DocumentRow (key 0) 0 0 TEmpty None None end.
Definition file_row : document_row := Eval vm_compute in
  match documents renamed_db !! 20%N with Some r => r | None => DocumentRow (key 0) 0 0 TEmpty None None end.
Definition docs_document : CatalogDocument :=
  MkCatalogDocument (MkCatalogIdentity (key 1) 10 10) 1 "docs" "docs" None dir_meta.
Definition old_document : CatalogDocument :=
  MkCatalogDocument (MkCatalogIdentity (key 2) 20 20) 1 "a.TXT" "docs/a.TXT" (Some "txt") (file_meta 7).
Definition new_document : CatalogDocument :=
  MkCatalogDocument (MkCatalogIdentity (key 2) 20 20) 2 "b.txt" "docs/b.txt" (Some "txt") (file_meta 9).

Lemma outside_keys {V} (m : gmap N V) (ks : list N) k : (map_to_list m).*1 = ks → k ∉ ks → m !! k = None.
Proof.
  intros <- Hk. destruct (m !! k) as [v|] eqn:Hm; [|done]. destruct Hk. apply list_elem_of_fmap.
  exists (k, v). split; [done|]. by apply elem_of_map_to_list.
Qed.

Definition old_index_of : index := {[10%N := docs_document; 20%N := old_document]}.
Definition held_entry : ContentEntry := MkContentEntry old_document (chars "content").
Definition held_contents : contents := {[20%N := held_entry]}.
Definition built_target : index_target := GenerationIndex "generation-00000000000000000002-00000000000000000003-0000".

Lemma built_holds : dir_holds (target_index built_target (gs_root built)) true held_contents.
Proof.
  exists (index_of (target_index built_target (gs_root built))). split; [apply open_index_of; vm_compute; reflexivity|].
  assert (index_of (target_index built_target (gs_root built)) = [entry_document true held_entry]) as ->
    by (vm_compute; reflexivity).
  split; [|unfold held_contents; by rewrite map_to_list_singleton].
  intros d e. unfold held_contents. intros [<- <-]%lookup_singleton_Some. done.
Qed.

Lemma built_active :
  if direct_marker (gs_root built) then built_target = DirectIndex
  else GenerationIndex <$> active_index_path (gs_root built) = Ok built_target.
Proof.
  assert (direct_marker (gs_root built) = false) as -> by (vm_compute; reflexivity).
  assert (ok_value (active_index_path (gs_root built)) = Some "generation-00000000000000000002-00000000000000000003-0000")
    as Hv by (vm_compute; reflexivity).
  destruct (active_index_path (gs_root built)) as [v|e]; [|discriminate Hv]. injection Hv as ->. reflexivity.
Qed.

Lemma renamed_wf : store_wf renamed_db.
Proof.
  apply (store_steps_wf sample_db); [apply sample_db_wf|].
  apply GraphReach.run_ops_steps.
  apply Forall_cons. split; [simpl; unfold in_u64, u64_max; lia|]. apply Forall_singleton. exact sample_rename_typed.
Qed.

Lemma docs_described : row_describes docs_row docs_document.
Proof. split; [reflexivity|split; [reflexivity|left; split; reflexivity]]. Qed.
Lemma file_described : row_describes file_row new_document.
Proof. split; [reflexivity|split; [reflexivity|left; split; reflexivity]]. Qed.

(** The rename is the one mutation the content consumer has not read. *)
Definition rename_row : Z * outbox_row := (3%Z, OutboxRow 20 2 (TMutation (Upsert new_document))).
Lemma unread_rename : outbox_after renamed_db 2 = [rename_row].
Proof. vm_compute. reflexivity. Qed.

Lemma renamed_documents : (map_to_list (documents renamed_db)) = [(10%N, docs_row); (20%N, file_row)].
Proof. vm_compute. reflexivity. Qed.

Lemma renamed_tracks : tracks renamed_db 2 old_index_of.
Proof.
  intros d. rewrite unread_rename.
  assert (replay [rename_row] old_index_of = <[20%N := new_document]> old_index_of) as -> by reflexivity.
  destruct (decide (d = 20%N)) as [->|H20].
  { rewrite lookup_insert_eq. change (documents renamed_db !! 20%N) with (Some file_row). exact file_described. }
  rewrite lookup_insert_ne by done. destruct (decide (d = 10%N)) as [->|H10].
  { exact docs_described. }
  rewrite (outside_keys (documents renamed_db) [10%N; 20%N] d);
    [|by rewrite renamed_documents|rewrite !elem_of_cons, elem_of_nil; tauto].
  unfold old_index_of. rewrite lookup_insert_ne by done. by rewrite lookup_singleton_ne by done.
Qed.

Lemma renamed_on_track : content_on_track (ge_files rename_env) docs_policy (gs_tick built) renamed_db held_contents.
Proof.
  exists (ConsumerRow 2 1), old_index_of. split; [reflexivity|]. split; [exact renamed_tracks|]. split.
  - intros d e. unfold held_contents. intros [<- <-]%lookup_singleton_Some. exists 0, 0.
    split; [vm_compute; lia|vm_compute; reflexivity].
  - intros k. cbn [k_last_sequence]. rewrite unread_rename. destruct (decide (k = 20%N)) as [->|H20].
    { left. apply Exists_cons. left. reflexivity. }
    right. unfold held_contents. rewrite lookup_singleton_ne by done. destruct (decide (k = 10%N)) as [->|H10].
    { exists 0, 0. split; [vm_compute; lia|vm_compute; reflexivity]. }
    unfold old_index_of. rewrite lookup_insert_ne by done. by rewrite lookup_singleton_ne by done.
Qed.

Lemma project_keeps_content_witness :
  is_ok projected.1 = true ∧
  ∃ h m, dir_holds (target_index built_target (gs_root (ps_files projected.2))) h m
    ∧ content_current (ge_files rename_env) docs_policy (gs_tick (ps_files projected.2)) (ps_graph projected.2) m.
Proof.
  assert ((λ r, dp_backlog_remaining <$> ok_value r) projected.1 = Some false) as Hb by (vm_compute; reflexivity).
  cbn beta in Hb. destruct projected.1 as [sum|e] eqn:Hr; [|discriminate Hb]. injection Hb as Hb. split; [reflexivity|].
  refine (proj2 (proj2 (proj2 (project_keeps_content rename_env (Ok tt) docs_policy ContentProjectionOptions_default
    built_target (MkPstate renamed_db built) projected.1 projected.2 true held_contents _ _ _ _ _ _ _ _))) sum Hr Hb).
  - vm_compute. discriminate.
  - refine (proj1 (run_ops_active rename_env [OpOpen; resume_op] fresh_root (empty_root_ok _ _ _) _)). vm_compute. reflexivity.
  - exact built_active.
  - exact renamed_wf.
  - exact built_holds.
  - exact renamed_on_track.
  - exact (surjective_pairing _).
  - vm_compute. reflexivity.
Defined.
