(* ===== verification/Search.v ===== *)
(** Catalog search of the agent ([crates/agent/src/service.rs]: [search_impl], [matches_filters],
    [classify], [compare_ranked]) over one committed snapshot of the catalog.

    The environment of a request says, for each [check_request] in turn, whether the client has
    cancelled and how much time has passed.  Byte order on strings is code-point order on text.  Not
    modelled: poisoned locks and the evidence lines a developer may switch on. *)
From stdpp Require Import base strings numbers gmap list sorting.
From S2P Require Import Prelude Ids Order Models GraphTables Text Catalog Governor Frames.

(** ** Limits and order *)

Definition MAX_CANDIDATES : Z := 5000.
Definition RANKING_VERSION : Z := 1.

Definition wire_error (code : AgentErrorCode) (message : string) : AgentWireError :=
  MkAgentWireError code message.

(** [internal]: details of a failure stay in the process. *)
Definition internal {X : Type} (e : X) : AgentWireError :=
  wire_error CodeInternal "agent backend operation failed".

Definition rank_class (m : MatchType) : Z :=
  match m with ExactName => 0 | PrefixName => 1 | TokenName => 2 | SubstringName => 3 | PathMatch => 4 end.

(** [str::starts_with] and [str::contains]. *)
Fixpoint starts_with (q t : text) : bool :=
  match q, t with
  | [], _ => true
  | c :: q, d :: t => (c =? d)%N && starts_with q t
  | _ :: _, [] => false
  end.
Fixpoint contains (q t : text) : bool :=
  starts_with q t || match t with [] => false | _ :: t => contains q t end.

Section search.
Context `{TV : Tantivy} `{T : TextEnv}.

(** ** Verification and ranking *)

Definition matches_filters (document : CatalogDocument) (request : SearchRequest) : bool :=
  let filters := sq_filters request in
  let directory := bool_decide (m_kind (cd_metadata document) = KDirectory) in
  match sq_scope request with
  | ScopeFiles => negb directory
  | ScopeFolders => directory
  | ScopeAll => true
  end &&
  match sf_extensions filters, cd_extension document with
  | [], _ => true
  | expected, Some extension =>
      existsb (λ e, bool_decide (normalize (chars e) = normalize (chars extension))) expected
  | _, None => false
  end &&
  match sf_directory_prefix filters with
  | Some prefix => starts_with (normalize (chars prefix)) (normalize (chars (cd_resolved_path document)))
  | None => true
  end &&
  match sf_minimum_size filters with
  | Some minimum => negb (m_size (cd_metadata document) <? minimum)%Z
  | None => true
  end &&
  match sf_maximum_size filters with
  | Some maximum => negb (maximum <? m_size (cd_metadata document))%Z
  | None => true
  end.

Definition classify (document : CatalogDocument) (query : text) : option MatchType :=
  let name := normalize (chars (cd_name document)) in
  if bool_decide (name = query) then Some ExactName
  else if starts_with query name then Some PrefixName
  else if existsb (λ token, bool_decide (token = query)) (tokens name) then Some TokenName
  else if (3 <=? length query) && contains query name then Some SubstringName
  else if contains query (normalize (chars (cd_resolved_path document))) then Some PathMatch
  else None.

Definition compare_ranked (left right : MatchType * CatalogDocument) : comparison :=
  then_with (rank_class left.1 ?= rank_class right.1)%Z
  (then_with (lex_compare (normalize (chars (cd_name left.2))) (normalize (chars (cd_name right.2))))
  (then_with (lex_compare (normalize (chars (cd_resolved_path left.2)))
                          (normalize (chars (cd_resolved_path right.2))))
    (ci_document_id (cd_identity left.2) ?= ci_document_id (cd_identity right.2))%N)).

Definition ranked_le : relation (MatchType * CatalogDocument) := λ l r, compare_ranked l r ≠ Gt.
Global Instance ranked_le_dec : RelDecision ranked_le.
Proof. intros l r. unfold ranked_le. apply _. Defined.

(** ** The pipeline *)

(** What a request can observe: cancellation and the time passed (nanoseconds) at its n-th check, and
    the time passed at its end. *)
Record request_env := MkRequestEnv {
  re_cancelled : nat → bool;
  re_elapsed : nat → Z;
  re_total : Z }.

Context (env : request_env) (deadline_ms : Z).

Definition check_request : M nat AgentWireError unit := λ n,
  if re_cancelled env n then Err (MkAgentWireError CodeCancelled "request was cancelled")
  else if (deadline_ms * 1000000 <=? re_elapsed env n)%Z
  then Err (MkAgentWireError CodeDeadlineExceeded "request deadline exceeded")
  else Ok (tt, S n).

(** The documents of one mode that were not seen before. *)
Fixpoint add_unseen (candidates : list CatalogDocument) (acc : gset document_id * list CatalogDocument)
  : gset document_id * list CatalogDocument :=
  match candidates with
  | [] => acc
  | d :: candidates =>
      let id := ci_document_id (cd_identity d) in
      add_unseen candidates
        (if decide (id ∈ acc.1) then acc else ({[id]} ∪ acc.1, acc.2 ++ [d]))
  end.

(** The retrieval loop. *)
Fixpoint gather (i : Index) (query : text) (candidate_limit : Z) (modes : list CatalogQueryMode)
  (acc : gset document_id * list CatalogDocument) : M nat AgentWireError (list CatalogDocument) :=
  match modes with
  | [] => mret acc.2
  | mode :: modes =>
      check_request ;;
      let remaining := saturating_sub candidate_limit (Z.of_nat (length acc.2)) in
      if (remaining =? 0)%Z then mret acc.2
      else
        candidates ← lift (map_err internal
          (search_candidate_documents i query mode (Z.to_nat remaining)));
        gather i query candidate_limit modes (add_unseen candidates acc)
  end.

(** The verification loop. *)
Fixpoint verify (request : SearchRequest) (query : text) (docs : list CatalogDocument)
  : M nat AgentWireError (list (MatchType * CatalogDocument)) :=
  match docs with
  | [] => mret []
  | d :: docs =>
      check_request ;;
      rest ← verify request query docs;
      mret (if matches_filters d request
            then match classify d query with Some m => (m, d) :: rest | None => rest end
            else rest)
  end.

Definition query_modes (query : text) : list CatalogQueryMode :=
  [Exact; Prefix; Token; Path] ++ (if 3 <=? length query then [Substring] else []).

Definition candidate_limit (top_k : Z) : Z := Z.max 200 (Z.min MAX_CANDIDATES (top_k * 40)).

Definition hit_of (index : nat) (x : MatchType * CatalogDocument) : SearchHit :=
  let '(match_type, document) := x in
  MkSearchHit (ci_document_id (cd_identity document)) (ci_object_key (cd_identity document))
    (ci_file_link_id (cd_identity document)) (cd_name document) (cd_resolved_path document)
    (cd_extension document) (m_kind (cd_metadata document)) (m_size (cd_metadata document))
    (m_modified_at (cd_metadata document)) (m_availability (cd_metadata document)) match_type
    (Z.min (Z.of_nat index + 1) u32_max) RANKING_VERSION.

Definition hits_of (ranked : list (MatchType * CatalogDocument)) : list SearchHit := imap hit_of ranked.

(** [search_impl] from the snapshot to the truncated ranking. *)
Definition search_ranked (i : Index) (request : SearchRequest)
  : M nat AgentWireError (list (MatchType * CatalogDocument)) :=
  let normalized_query := normalize (chars (sq_query request)) in
  guard_m (nonempty normalized_query)
    (MkAgentWireError CodeInvalidRequest "query is empty after normalization") ;;
  let top_k := Z.min (sq_top_k request) MAX_TOP_K in
  candidate_documents ← gather i normalized_query (candidate_limit top_k)
                          (query_modes normalized_query) (∅, []);
  ranked ← verify request normalized_query candidate_documents;
  check_request ;;
  mret (take (Z.to_nat top_k) (merge_sort ranked_le ranked)).

Record CatalogSnapshot := MkCatalogSnapshot { cs_reader : Index; cs_generation : Z }.

(** The whole request: the governor hears of it before any work, and of its latency if it
    succeeds. *)
Definition search_impl (state : CatalogSnapshot) (request : SearchRequest) (g : ResourceGovernor)
  : result AgentWireError SearchResponse * ResourceGovernor :=
  let g := begin_interactive_request g in
  match search_ranked (cs_reader state) request 0 with
  | Ok (ranked, _) =>
      let took_micros := Z.min (re_total env / 1000) u64_max in
      (Ok (MkSearchResponse (cs_generation state) took_micros (hits_of ranked)),
       report_search_latency (took_micros * 1000) g)
  | Err e => (Err e, g)
  end.
End search.
