(* ===== verification/SearchSpec.v ===== *)
(** What a catalog search promises: hits are verified, distinct, ranked and bounded; nothing that
    the retrieval modes select is missed while the candidate budget is not exhausted. *)
From stdpp Require Import base strings numbers gmap list sorting.
From S2P Require Import Prelude Ids Order Models GraphDomain GraphTables Fixtures GraphInvariant.
From S2P Require Import GraphConverge Text Catalog CatalogSpec CatalogFixtures Governor Frames Search.

(** ** Text predicates *)

Lemma starts_with_spec q t : starts_with q t = true ↔ q `prefix_of` t.
Proof.
  revert t. induction q as [|c q IH]; intros t; simpl; [split; [intros _; apply prefix_nil|done]|].
  destruct t as [|d t]; [split; [done|by intros ?%prefix_nil_not]|].
  rewrite andb_true_iff, N.eqb_eq, IH. split.
  - intros [-> ?]. by apply prefix_cons.
  - intros Hp. split; [by eapply prefix_cons_inv_1|by eapply prefix_cons_inv_2].
Qed.

Lemma contains_spec q t : contains q t = true ↔ infix q t.
Proof.
  induction t as [|c t IH]; simpl; rewrite orb_true_iff, starts_with_spec.
  - split.
    + intros [[b Hb]|?]; [|done]. by exists [], b.
    + intros (a & b & Hab). left. destruct a; [|done]. by exists b.
  - rewrite IH. split.
    + intros [[b Hb]|(a & b & ->)]; [by exists [], b|by exists (c :: a), b].
    + intros ([|x a] & b & Hab); [left; by exists b|right]. simpl in Hab. simplify_eq. by exists a, b.
Qed.

(** ** The ranking order *)

Section order.
Context `{TV : Tantivy} `{T : TextEnv}.

Lemma compare_ranked_ok : cmp_ok compare_ranked.
Proof.
  unfold compare_ranked. repeat apply cmp_ok_then.
  - apply (cmp_ok_map (λ x, rank_class x.1)), cmp_ok_Z.
  - apply (cmp_ok_map (λ x, normalize (chars (cd_name x.2)))), cmp_ok_lex.
  - apply (cmp_ok_map (λ x, normalize (chars (cd_resolved_path x.2)))), cmp_ok_lex.
  - apply (cmp_ok_map (λ x, ci_document_id (cd_identity x.2))), cmp_ok_N.
Qed.

Global Instance ranked_le_total : Total ranked_le.
Proof.
  intros x y. unfold ranked_le. rewrite (cmp_opp _ compare_ranked_ok x y).
  destruct (compare_ranked x y); simpl; auto.
Qed.

Global Instance ranked_le_trans : Transitive ranked_le.
Proof.
  pose proof compare_ranked_ok as Hok. intros x y z. unfold ranked_le.
  destruct (compare_ranked x y) eqn:Hxy; [|intros _|done].
  - by rewrite (cmp_eq _ Hok x y z Hxy).
  - destruct (compare_ranked y z) eqn:Hyz; [intros _|intros _|done].
    + assert (compare_ranked z y = Eq) as Hzy by (by rewrite (cmp_opp _ Hok), Hyz).
      rewrite (cmp_opp _ Hok z x), (cmp_eq _ Hok z y x Hzy), (cmp_opp _ Hok x y), Hxy. done.
    + by rewrite (cmp_lt _ Hok x y z Hxy Hyz).
Qed.
End order.

Section pipeline.
Context `{TV : Tantivy} `{T : TextEnv} `{!StoreLaws E} `{!TextLaws T} `{TL : !TantivyLaws}.
Context (env : request_env) (deadline_ms : Z).
Implicit Types (idx : index) (docs acc : list CatalogDocument).

Abbreviation id_of := (λ doc, ci_document_id (cd_identity doc)).

(** ** Retrieval *)

(** Candidates so far: distinct documents of the index, with their identifiers. *)
Definition candidates_ok idx (seen : gset document_id) acc : Prop :=
  NoDup (id_of <$> acc) ∧ (∀ d, d ∈ seen ↔ d ∈ id_of <$> acc) ∧
  ∀ doc, doc ∈ acc → idx !! id_of doc = Some doc.

Lemma candidates_ok_nil idx : candidates_ok idx ∅ [].
Proof.
  split_and!; [constructor|set_solver|]. by intros doc ?%not_elem_of_nil.
Qed.

Lemma add_unseen_ok idx docs seen acc seen' acc' :
  add_unseen docs (seen, acc) = (seen', acc') →
  candidates_ok idx seen acc → (∀ doc, doc ∈ docs → idx !! id_of doc = Some doc) →
  candidates_ok idx seen' acc' ∧ (∀ doc, doc ∈ acc' ↔ doc ∈ acc ∨ doc ∈ docs).
Proof.
  revert seen acc. induction docs as [|d docs IH]; intros seen acc; simpl.
  { intros [= <- <-] Hok _. split; [done|]. intros doc. rewrite elem_of_nil. tauto. }
  intros Hadd Hok Hdocs. assert (idx !! id_of d = Some d) as Hd by (apply Hdocs; left).
  destruct Hok as (Hnd & Hseen & Hin). case_decide as Hs.
  - destruct (IH _ _ Hadd) as [Hok' Hiff]; [by split_and!|intros x Hx; apply Hdocs; by right|].
    split; [done|]. intros doc. rewrite Hiff, elem_of_cons.
    apply Hseen, list_elem_of_fmap in Hs as (y & Hy & Hiny).
    assert (y = d) as -> by (apply Hin in Hiny; simpl in *; congruence). naive_solver.
  - destruct (IH _ _ Hadd) as [Hok' Hiff].
    + split_and!.
      * rewrite fmap_app. apply NoDup_app. split_and!; [done| |apply NoDup_singleton].
        intros x Hx Hx'%list_elem_of_singleton. subst x. by apply Hs, Hseen.
      * intros x. rewrite elem_of_union, elem_of_singleton, fmap_app, elem_of_app, Hseen.
        simpl. rewrite list_elem_of_singleton. tauto.
      * intros doc [?| ->%list_elem_of_singleton]%elem_of_app; auto.
    + intros x Hx. apply Hdocs. by right.
    + split; [done|]. intros doc. rewrite Hiff, elem_of_app, list_elem_of_singleton, elem_of_cons. tauto.
Qed.

Lemma distinct_length acc docs :
  NoDup (id_of <$> acc) → (∀ doc, doc ∈ acc → doc ∈ docs) → length acc ≤ length docs.
Proof. intros Hnd Hin. apply submseteq_length, NoDup_submseteq; [by eapply NoDup_fmap_1|done]. Qed.

(** What a mode of the list selects. *)
Definition selected (modes : list CatalogQueryMode) (q : text) (doc : CatalogDocument) : Prop :=
  ∃ mode, mode ∈ modes ∧ mode_selects mode (normalize q) doc.

Lemma gather_ok i idx q lim modes seen acc n docs n' :
  represents (live i) idx → candidates_ok idx seen acc →
  gather env deadline_ms i q lim modes (seen, acc) n = Ok (docs, n') →
  (∃ seen', candidates_ok idx seen' docs) ∧
  (∀ doc, doc ∈ acc → doc ∈ docs) ∧
  ∀ sel, (∀ doc, doc ∈ acc → doc ∈ sel) →
    (∀ d doc, idx !! d = Some doc → selected modes q doc → doc ∈ sel) →
    (2 * Z.of_nat (length sel) < lim)%Z →
    ∀ d doc, idx !! d = Some doc → selected modes q doc → doc ∈ docs.
Proof.
  intros Hrep. revert seen acc n. induction modes as [|mode modes IH]; intros seen acc n Hok Hrun.
  { simpl in Hrun. minv. split; [by exists seen|]. split; [done|].
    intros sel _ _ _ d doc _ (m & Hm & _). by apply not_elem_of_nil in Hm. }
  simpl in Hrun. minv. unfold saturating_sub in Hrun. simpl in Hrun.
  destruct (Z.max 0 (lim - Z.of_nat (length acc)) =? 0)%Z eqn:Hrem; minv.
  { apply Z.eqb_eq in Hrem. split; [by exists seen|]. split; [done|].
    intros sel Hacc _ Hlim. exfalso. destruct Hok as (Hnd & _ & _).
    pose proof (distinct_length acc sel Hnd Hacc). lia. }
  set (remaining := Z.max 0 (lim - Z.of_nat (length acc))) in *. apply Z.eqb_neq in Hrem.
  match goal with H : map_err internal _ = Ok ?c |- _ => apply map_err_Ok in H; rename H into Hs, c into found end.
  destruct (candidate_documents_spec i idx q mode (Z.to_nat remaining) found Hrep Hs)
    as (Hlen & Hnd & Hfound & Hall).
  destruct (add_unseen found (seen, acc)) as [seen1 acc1] eqn:Hadd.
  destruct (add_unseen_ok idx _ _ _ _ _ Hadd Hok) as [Hok1 Hiff]; [intros doc Hdoc; by apply Hfound|].
  destruct (IH _ _ _ Hok1 Hrun) as (Hres & Hkeep & Hcomplete).
  split; [done|]. split; [intros doc Hdoc; apply Hkeep, Hiff; by left|].
  intros sel Hacc Hsel Hlim d doc Hd Hdoc.
  assert (∀ x, x ∈ found → x ∈ sel) as Hfs.
  { intros y Hy. destruct (Hfound y Hy) as [Hx1 Hx2]. eapply Hsel; [exact Hx1|].
    exists mode. split; [left|done]. }
  destruct Hdoc as (m & [->|Hm]%elem_of_cons & Hmode).
  - apply Hkeep, Hiff. right. eapply Hall; [|exact Hd|exact Hmode].
    destruct Hok as (Hnda & _ & _). pose proof (distinct_length acc sel Hnda Hacc).
    pose proof (distinct_length found sel Hnd Hfs). lia.
  - eapply (Hcomplete sel); [| |done|exact Hd|by exists m].
    + intros y [?|?]%Hiff; auto.
    + intros d' doc' Hd' (m' & Hm' & Hmode'). eapply Hsel; [exact Hd'|]. exists m'. split; [by right|done].
Qed.

(** ** Verification *)

Definition verdict (request : SearchRequest) (q : text) (doc : CatalogDocument)
  : option (MatchType * CatalogDocument) :=
  if matches_filters doc request then (λ m, (m, doc)) <$> classify doc q else None.

Lemma verify_ok request q docs n ranked n' :
  verify env deadline_ms request q docs n = Ok (ranked, n') → ranked = omap (verdict request q) docs.
Proof.
  revert n ranked n'. induction docs as [|d docs IH]; intros n ranked n' Hrun; simpl in Hrun; minv; [done|].
  match goal with H : verify _ _ _ _ _ _ = Ok _ |- _ => apply IH in H as -> end.
  csimpl. destruct (verdict request q d) as [x'|] eqn:Hv; unfold verdict in Hv;
    destruct (matches_filters d request); try done; destruct (classify d q); by simplify_eq/=.
Qed.

Lemma verdict_Some request q doc x :
  verdict request q doc = Some x ↔
  x.2 = doc ∧ matches_filters doc request = true ∧ classify doc q = Some x.1.
Proof.
  unfold verdict. destruct (matches_filters doc request), (classify doc q), x; naive_solver.
Qed.

Lemma omap_ids_sublist request q docs :
  ((λ x, id_of x.2) <$> omap (verdict request q) docs) `sublist_of` (id_of <$> docs).
Proof.
  induction docs as [|d docs IH]; [done|]. csimpl.
  destruct (verdict request q d) as [x|] eqn:Hv; csimpl; [|by apply sublist_cons].
  apply verdict_Some in Hv as (-> & _). by apply sublist_skip.
Qed.

(** A completed search: the candidates it gathered and the ranking of those that pass. *)
Lemma search_ranked_ok i idx request n ranked n' :
  let q := normalize (chars (sq_query request)) in
  let top_k := Z.min (sq_top_k request) MAX_TOP_K in
  represents (live i) idx → search_ranked env deadline_ms i request n = Ok (ranked, n') →
  ∃ seen docs, candidates_ok idx seen docs ∧
    (∀ sel, (∀ d doc, idx !! d = Some doc → selected (query_modes q) q doc → doc ∈ sel) →
       (2 * Z.of_nat (length sel) < candidate_limit top_k)%Z →
       ∀ d doc, idx !! d = Some doc → selected (query_modes q) q doc → doc ∈ docs) ∧
    ranked = take (Z.to_nat top_k) (merge_sort ranked_le (omap (verdict request q) docs)).
Proof.
  intros q top_k Hrep Hrun. unfold search_ranked in Hrun. fold q top_k in Hrun. minv.
  match goal with H : gather _ _ _ _ _ _ _ _ = Ok _ |- _ =>
    destruct (gather_ok i idx q _ _ _ _ _ _ _ Hrep (candidates_ok_nil idx) H)
      as ((seen & Hok) & _ & Hall) end.
  match goal with H : verify _ _ _ _ _ _ = Ok _ |- _ => apply verify_ok in H as -> end.
  eexists seen, _. split; [exact Hok|]. split; [|done].
  intros sel. apply Hall. intros doc Hdoc. by apply not_elem_of_nil in Hdoc.
Qed.

(** ** Failures *)

(** The reasons a request may fail, with the code it fails with. *)
Definition interruption (e : AgentWireError) : Prop :=
  ae_code e = CodeCancelled ∧ (∃ n, re_cancelled env n = true)
  ∨ ae_code e = CodeDeadlineExceeded ∧ (∃ n, (deadline_ms * 1000000 ≤ re_elapsed env n)%Z).

(** Retrieval fails when the engine does, or when normalising the query again shortens it. *)
Definition retrieval_failure (i : Index) (q : text) (e : AgentWireError) : Prop :=
  ae_code e = CodeInternal
  ∧ ((∃ query n te, search_index i query n = Err te) ∨ length (normalize q) < 3 ≤ length q).

Lemma check_request_err n e : check_request env deadline_ms n = Err e → interruption e.
Proof.
  unfold check_request. destruct (re_cancelled env n) eqn:Hc; [intros [= <-]; left; by eauto|].
  destruct (Z.leb_spec (deadline_ms * 1000000) (re_elapsed env n)); [|done].
  intros [= <-]. right. by eauto.
Qed.

Lemma gather_err i idx q lim modes (acc : gset document_id * list CatalogDocument) n e :
  represents (live i) idx → (Substring ∈ modes → 3 ≤ length q) →
  gather env deadline_ms i q lim modes acc n = Err e → interruption e ∨ retrieval_failure i q e.
Proof.
  intros Hrep. revert acc n. induction modes as [|mode modes IH]; intros acc n Hmode Hrun; [done|].
  simpl in Hrun. apply M_bind_Err in Hrun as [Hrun%check_request_err|([] & n1 & _ & Hrun)]; [by left|].
  destruct (_ =? 0)%Z; [done|].
  apply M_bind_Err in Hrun as [Hrun|(found & n2 & _ & Hrun)].
  - unfold lift in Hrun. destruct (map_err internal _) as [?|e0] eqn:Herr; [done|]. injection Hrun as <-.
    apply map_err_Err in Herr as (e1 & Herr & ->). right. split; [done|].
    apply (candidate_documents_error i idx) in Herr as [(qq & te & _ & Hte)|(_ & -> & Hl)]; [| |done].
    + left. by eauto.
    + right. split; [done|]. apply Hmode. left.
  - eapply IH; [|exact Hrun]. intros ?. apply Hmode. by right.
Qed.

Lemma verify_err request q docs n e :
  verify env deadline_ms request q docs n = Err e → interruption e.
Proof.
  revert n. induction docs as [|d docs IH]; intros n Hrun; [done|]. simpl in Hrun.
  apply M_bind_Err in Hrun as [Hrun%check_request_err|([] & n1 & _ & Hrun)]; [done|].
  by apply M_bind_Err in Hrun as [Hrun%IH|(rest & n2 & _ & Hrun)].
Qed.

Lemma query_modes_substring q : Substring ∈ query_modes q → 3 ≤ length q.
Proof.
  unfold query_modes. destruct (Nat.leb_spec 3 (length q)); [done|]. set_solver.
Qed.

Lemma search_ranked_err i idx request n e :
  let q := normalize (chars (sq_query request)) in
  represents (live i) idx → search_ranked env deadline_ms i request n = Err e →
  ae_code e = CodeInvalidRequest ∧ q = [] ∨ interruption e ∨ retrieval_failure i q e.
Proof.
  intros q Hrep Hrun. unfold search_ranked in Hrun. fold q in Hrun.
  apply M_bind_Err in Hrun as [Hrun|([] & n1 & _ & Hrun)].
  { left. destruct q; [by injection Hrun as <-|done]. }
  right. apply M_bind_Err in Hrun as [Hrun|(docs & n2 & _ & Hrun)].
  { eapply gather_err; [done| |exact Hrun]. apply query_modes_substring. }
  left. apply M_bind_Err in Hrun as [Hrun%verify_err|(ranked & n3 & _ & Hrun)]; [done|].
  by apply M_bind_Err in Hrun as [Hrun%check_request_err|([] & n4 & _ & Hrun)].
Qed.

(** ** Results *)

Lemma hit_rank (ranked : list (MatchType * CatalogDocument)) k h :
  length ranked ≤ 100 → hits_of ranked !! k = Some h → sh_rank h = (Z.of_nat k + 1)%Z.
Proof.
  intros Hlen. unfold hits_of. rewrite list_lookup_imap.
  destruct (ranked !! k) as [[m doc]|] eqn:Hk; [|done]. intros [= <-]. simpl.
  apply lookup_lt_Some in Hk. unfold u32_max. lia.
Qed.

(** C5 (hits are verified and ranked): a search answers or fails for a reason: an empty query, a
    cancellation, a passed deadline, an engine that fails, or a normalised query of at least three
    characters that normalising again shortens to fewer than three, which ends as an internal error.
    An answer names the generation it was computed from and has at most the requested number of hits
    (100 at most), for distinct documents of the snapshot, each of which passes the filters and has the
    match type it is labelled with; hits are numbered from one and ordered by match type, then
    normalised name, path and identifier. *)
Theorem search_hits_sound (state : CatalogSnapshot) (idx : index) (request : SearchRequest)
  (g : ResourceGovernor) :
  let q := normalize (chars (sq_query request)) in
  represents (live (cs_reader state)) idx →
  match (search_impl env deadline_ms state request g).1 with
  | Ok response => ∃ ranked,
      sr_index_generation response = cs_generation state
      ∧ sr_hits response = hits_of ranked
      ∧ length ranked ≤ Z.to_nat (Z.min (sq_top_k request) MAX_TOP_K)
      ∧ NoDup ((λ x, id_of x.2) <$> ranked)
      ∧ StronglySorted ranked_le ranked
      ∧ (∀ m doc, (m, doc) ∈ ranked → idx !! id_of doc = Some doc
           ∧ matches_filters doc request = true ∧ classify doc q = Some m)
      ∧ (∀ k h, sr_hits response !! k = Some h → sh_rank h = (Z.of_nat k + 1)%Z)
  | Err e =>
      ae_code e = CodeInvalidRequest ∧ q = [] ∨ interruption e ∨ retrieval_failure (cs_reader state) q e
  end.
Proof.
  intros q Hrep. unfold search_impl.
  destruct (search_ranked _ _ _ _ _) as [[ranked n]|e] eqn:Hrun; simpl; [|by eapply search_ranked_err].
  destruct (search_ranked_ok _ idx request _ _ _ Hrep Hrun) as (seen & docs & Hok & _ & ->). fold q.
  set (found := omap (verdict request q) docs). set (k := Z.to_nat (Z.min (sq_top_k request) MAX_TOP_K)).
  pose proof (merge_sort_Permutation ranked_le found) as Hperm.
  assert (length (take k (merge_sort ranked_le found)) ≤ k) as Hlen by (rewrite length_take; lia).
  eexists. split; [done|]. split; [done|]. split; [done|]. split_and!.
  - rewrite fmap_take. eapply sublist_NoDup; [|apply sublist_take].
    rewrite Hperm. eapply sublist_NoDup; [apply Hok|]. apply omap_ids_sublist.
  - pose proof (StronglySorted_merge_sort ranked_le found) as Hs.
    rewrite <-(take_drop k (merge_sort ranked_le found)) in Hs. by apply StronglySorted_app in Hs as (_ & ? & _).
  - intros m doc Hin. assert ((m, doc) ∈ found) as Hf.
    { rewrite <-Hperm. rewrite <-(take_drop k (merge_sort ranked_le found)), elem_of_app. by left. }
    apply list_elem_of_omap in Hf as (doc' & Hdoc & (<- & Hf & Hc)%verdict_Some).
    split_and!; [by apply Hok|done|done].
  - intros j h. apply hit_rank. unfold MAX_TOP_K in *. lia.
Qed.

(** Nothing retrievable is missed: if twice the number of documents that the retrieval modes
    select is below the candidate limit, every such document of the snapshot that passes the filters
    and has a match type is among the hits of a search that answers, unless the page is full and every
    hit ranks at or before it.  Twice, because a document found by one mode takes up budget again in
    the modes that find it too. *)
Theorem search_hits_complete (state : CatalogSnapshot) (idx : index) (request : SearchRequest)
  (g : ResourceGovernor) (response : SearchResponse) (sel : list CatalogDocument) (d : document_id)
  (doc : CatalogDocument) (m : MatchType) :
  let q := normalize (chars (sq_query request)) in
  let top_k := Z.min (sq_top_k request) MAX_TOP_K in
  represents (live (cs_reader state)) idx →
  (search_impl env deadline_ms state request g).1 = Ok response →
  (∀ d doc, idx !! d = Some doc → selected (query_modes q) q doc → doc ∈ sel) →
  (2 * Z.of_nat (length sel) < candidate_limit top_k)%Z →
  idx !! d = Some doc → selected (query_modes q) q doc →
  matches_filters doc request = true → classify doc q = Some m →
  ∃ ranked, sr_hits response = hits_of ranked ∧
    ((m, doc) ∈ ranked
     ∨ length ranked = Z.to_nat top_k ∧ Forall (λ x, ranked_le x (m, doc)) ranked).
Proof.
  intros q top_k Hrep Hresp Hsel Hlim Hd Hdoc Hf Hc. unfold search_impl in Hresp.
  destruct (search_ranked _ _ _ _ _) as [[ranked n]|e] eqn:Hrun; [|done]. injection Hresp as <-.
  destruct (search_ranked_ok _ idx request _ _ _ Hrep Hrun) as (seen & docs & Hok & Hall & ->).
  fold q top_k. set (found := omap (verdict request q) docs). set (k := Z.to_nat top_k).
  eexists. split; [done|].
  assert ((m, doc) ∈ merge_sort ranked_le found) as Hin.
  { rewrite merge_sort_Permutation. apply list_elem_of_omap. exists doc.
    split; [by eapply Hall|]. by apply verdict_Some. }
  pose proof (StronglySorted_merge_sort ranked_le found) as Hs.
  rewrite <-(take_drop k (merge_sort ranked_le found)) in Hin, Hs.
  apply elem_of_app in Hin as [Hin|Hin]; [by left|right].
  apply StronglySorted_app in Hs as (Hs & _ & _). split.
  - rewrite length_take. assert (length (drop k (merge_sort ranked_le found)) ≠ 0) as Hne
      by (intros Hz%nil_length_inv; rewrite Hz in Hin; by apply not_elem_of_nil in Hin).
    rewrite length_drop in Hne. lia.
  - apply Forall_forall. intros x Hx. by apply Hs.
Qed.
End pipeline.

(** ** A search over the sample documents *)

Definition sample_request : SearchRequest :=
  MkSearchRequest "TXT" ScopeFiles (MkSearchFilter [] None None None) 1.
Definition sample_env : request_env := MkRequestEnv (λ _, false) (λ n, Z.of_nat n) 3000000.
Definition sample_snapshot : CatalogSnapshot := MkCatalogSnapshot sample_live 7.
Definition sample_ranked : list (MatchType * CatalogDocument) := [(TokenName, notes_doc)].
Definition sample_governor : ResourceGovernor := ResourceGovernor_new GovernorConfig_default.
Definition sample_response : SearchResponse := MkSearchResponse 7 3000 (hits_of sample_ranked).

Lemma sample_search : (search_impl sample_env 2000 sample_snapshot sample_request sample_governor).1 = Ok sample_response.
Proof. apply ok_value_Some. vm_compute. reflexivity. Qed.

Lemma search_hits_sound_witness :
  represents (live (cs_reader sample_snapshot)) sample_index
  ∧ ∃ ranked, sr_hits sample_response = hits_of ranked ∧ length ranked ≤ 1
      ∧ StronglySorted ranked_le ranked.
Proof.
  split; [exact sample_represents|].
  pose proof (search_hits_sound sample_env 2000 sample_snapshot sample_index sample_request sample_governor
    sample_represents) as H.
  rewrite sample_search in H. destruct H as (ranked & _ & Heq & Hlen & _ & Hs & _). eauto.
Defined.

Lemma sample_selected (d : document_id) (doc : CatalogDocument) :
  sample_index !! d = Some doc → doc ∈ [report_doc; notes_doc].
Proof.
  unfold sample_index. intros [[_ <-]|[_ [_ <-]%lookup_singleton_Some]]%lookup_insert_Some; set_solver.
Qed.

(** The second match does not fit the page of one hit and ranks after it. *)
Lemma search_hits_complete_witness :
  ∃ ranked, sr_hits sample_response = hits_of ranked ∧
    ((TokenName, report_doc) ∈ ranked
     ∨ length ranked = 1 ∧ Forall (λ x, ranked_le x (TokenName, report_doc)) ranked).
Proof.
  apply (search_hits_complete sample_env 2000 sample_snapshot sample_index sample_request sample_governor
    sample_response [report_doc; notes_doc] 1 report_doc TokenName sample_represents sample_search).
  - intros d doc Hd _. by eapply sample_selected.
  - vm_compute. reflexivity.
  - reflexivity.
  - exists Token. split; [set_solver|]. split; [|vm_compute; lia].
    apply list_elem_of_In. vm_compute. auto.
  - vm_compute. reflexivity.
  - vm_compute. reflexivity.
Defined.
