(* ===== verification/Agent.v ===== *)
(** The agent service ([crates/agent/src/service.rs]): authorization and dispatch of requests, item
    lookup, content search, index status and health, and the maintenance passes that keep the
    catalog current under the resource governor.

    The state is the durable world the service works on (the graph database and the generation
    directories), the governor, the cached catalog reader and the content side.  A request or a
    maintenance pass returns its result with the state it leaves behind.  The content index is seen
    through the class [ContentPort].  Not modelled: poisoned locks. *)
From stdpp Require Import base strings numbers gmap list sorting.
From S2P Require Import Prelude Ids Models GraphDomain GraphTables GraphProjection GraphStore.
From S2P Require Import GraphOutbox GraphRefresh Text Catalog Content Governor Frames Projector Search.

(** ** Wire types ([crates/agent-api/src/contract.rs]) *)

Inductive Capability := CapSearchCatalog | CapSearchContent | CapReadMetadata | CapIndexStatus.
Global Instance Capability_eq_dec : EqDecision Capability.
Proof. solve_decision. Defined.
Global Instance Capability_countable : Countable Capability.
Proof.
  apply (inj_countable'
    (λ c, match c with CapSearchCatalog => 0 | CapSearchContent => 1 | CapReadMetadata => 2 | CapIndexStatus => 3 end)
    (λ n, match n with 0 => CapSearchCatalog | 1 => CapSearchContent | 2 => CapReadMetadata | _ => CapIndexStatus end)).
  by intros [].
Defined.

Record Capabilities := MkCapabilities {
  cp_agent_api_versions : list Z;
  cp_codec_versions : list Z;
  cp_granted : gset Capability;
  cp_maximum_top_k : Z;
  cp_maximum_frame_bytes : Z;
  cp_ranking_version : Z }.

Record CatalogItem := MkCatalogItem {
  it_document_id : document_id;
  it_object_key : FileKey;
  it_file_link_id : link_id;
  it_document_version : Z;
  it_name : string;
  it_resolved_path : string;
  it_extension : option string;
  it_kind : FileKind;
  it_size : Z;                         (* u64 *)
  it_modified_at_unix_ms : option Z;   (* i64 *)
  it_availability : Availability }.

Record ContentSearchHit := MkContentSearchHit { ch_item : CatalogItem; ch_rank : Z }.   (* u32 *)
Record ContentSearchResponse := MkContentSearchResponse {
  cr_content_schema : string;
  cr_took_micros : Z;                  (* u64 *)
  cr_hits : list ContentSearchHit }.

Record IndexStatus := MkIndexStatus {
  ix_ready : bool;
  ix_index_generation : option Z;
  ix_document_count : Z;
  ix_durable_sequence : Z;
  ix_applied_sequence : Z;
  ix_backlog_mutations : Z }.

Record ServiceHealth := MkServiceHealth {
  sv_service_ready : bool;
  sv_graph_ready : bool;
  sv_index_ready : bool }.

Inductive ResponsePayload :=
| RSearch (r : SearchResponse)
| RContentSearch (r : ContentSearchResponse)
| RCatalogItem (item : CatalogItem)
| RCatalogItems (items : list CatalogItem)
| RIndexStatus (status : IndexStatus)
| RCapabilities (c : Capabilities)
| RHealth (h : ServiceHealth).

Record AgentResponse := MkAgentResponse {
  rs_protocol_version : Z;
  rs_request_id : string;
  rs_result : option ResponsePayload;
  rs_error : option AgentWireError }.

Definition response_success (request_id : string) (payload : ResponsePayload) : AgentResponse :=
  MkAgentResponse AGENT_API_VERSION request_id (Some payload) None.
Definition response_failure (request_id : string) (code : AgentErrorCode) (message : string)
  : AgentResponse :=
  MkAgentResponse AGENT_API_VERSION request_id None (Some (MkAgentWireError code message)).
Definition AgentResponse_validate (r : AgentResponse) : result WireContractError unit :=
  match rs_result r, rs_error r with
  | Some _, None | None, Some _ => Ok tt
  | _, _ => Err InvalidResponse
  end.

(** ** Authorization *)

Record ClientAuthorization := MkClientAuthorization { granted : gset Capability }.

Definition v0_1_metadata : ClientAuthorization :=
  MkClientAuthorization {[CapSearchCatalog; CapReadMetadata; CapIndexStatus]}.
Definition v0_2_with_content : ClientAuthorization :=
  MkClientAuthorization {[CapSearchCatalog; CapSearchContent; CapReadMetadata; CapIndexStatus]}.
Definition permits (a : ClientAuthorization) (c : Capability) : bool := bool_decide (c ∈ granted a).

(** ** The content side as the agent sees it *)

Class ContentPort `{E : StoreEnv} := {
  ContentError : Type;
  ContentReader : Type;
  ContentWorkspace : Type;             (* the files of the content workspace *)
  ContentSummary : Type;
  (** [ContentReader::search]: the stored documents of the hits. *)
  content_search : ContentWorkspace → ContentReader → string → Z →
    result ContentError (list CatalogDocument) * ContentReader;
  (** [ContentProjectionWorker::project], with the batch size and the number of batches. *)
  content_project : Z → Z → db → ContentWorkspace →
    result ContentError ContentSummary * db * ContentWorkspace;
  (** [ContentProjectionWorker::backlog]. *)
  content_backlog : db → ContentWorkspace → result ContentError Z }.

Definition item_from_document (document : CatalogDocument) : CatalogItem :=
  MkCatalogItem (ci_document_id (cd_identity document)) (ci_object_key (cd_identity document))
    (ci_file_link_id (cd_identity document)) (cd_document_version document) (cd_name document)
    (cd_resolved_path document) (cd_extension document) (m_kind (cd_metadata document))
    (m_size (cd_metadata document)) (m_modified_at (cd_metadata document))
    (m_availability (cd_metadata document)).

Definition projection_options (d : GovernorDecision) : ProjectionWorkerOptions :=
  let b := gd_budget d in
  MkProjectionWorkerOptions (maximum_batch_mutations b) (maximum_batches b) (maximum_run_time_millis b)
    (writer_heap_bytes b) (rebuild_page_size b).

Section agent.
Context `{TV : Tantivy} `{T : TextEnv} `{!ContentPort}.

Record AgentService := MkAgentService {
  as_world : world;
  as_governor : ResourceGovernor;
  as_catalog_reader : CatalogSnapshot;
  as_content_reader : option ContentReader;
  as_content_projector : bool;         (* whether there is one *)
  as_workspace : ContentWorkspace;
  as_authorization : ClientAuthorization }.

Definition as_graph (s : AgentService) : db := w_graph (as_world s).
Definition set_world (w : world) (s : AgentService) : AgentService :=
  MkAgentService w (as_governor s) (as_catalog_reader s) (as_content_reader s)
    (as_content_projector s) (as_workspace s) (as_authorization s).
Definition set_governor (g : ResourceGovernor) (s : AgentService) : AgentService :=
  MkAgentService (as_world s) g (as_catalog_reader s) (as_content_reader s)
    (as_content_projector s) (as_workspace s) (as_authorization s).
Definition set_catalog_reader (r : CatalogSnapshot) (s : AgentService) : AgentService :=
  MkAgentService (as_world s) (as_governor s) r (as_content_reader s)
    (as_content_projector s) (as_workspace s) (as_authorization s).
Definition set_content_reader (r : ContentReader) (s : AgentService) : AgentService :=
  MkAgentService (as_world s) (as_governor s) (as_catalog_reader s) (Some r)
    (as_content_projector s) (as_workspace s) (as_authorization s).
Definition set_content (g : db) (c : ContentWorkspace) (s : AgentService) : AgentService :=
  MkAgentService (MkWorld g (w_generations (as_world s))) (as_governor s) (as_catalog_reader s)
    (as_content_reader s) (as_content_projector s) c (as_authorization s).

Abbreviation Ag := (St AgentService AgentWireError).

(** ** Calls into the components, with failures redacted *)

(** [FilesystemGraph::open] and [open_read_only], whose outcome the environment decides. *)
Definition open_graph (opened : result GraphError unit) : Ag unit := st_lift (map_err internal opened).

Definition read_graph {A} (f : db → result GraphError A) : Ag A := λ s,
  (map_err internal (f (as_graph s)), s).

Definition write_graph {A} (m : GM A) : Ag A := λ s,
  match m (as_graph s) with
  | Ok (a, g) => (Ok a, set_world (MkWorld g (w_generations (as_world s))) s)
  | Err e => (Err (internal e), s)
  end.

Definition with_governor {A} (f : ResourceGovernor → A * ResourceGovernor) : Ag A := λ s,
  let '(a, g) := f (as_governor s) in (Ok a, set_governor g s).

Definition governor_decision : Ag GovernorDecision := with_governor (λ g, (decision g, g)).

(** ** Queries *)

Definition require (c : Capability) : Ag unit := λ s,
  (if permits (as_authorization s) c then Ok tt
   else Err (wire_error CodeForbidden "client capability grant does not permit this method"), s).

(** The cached reader, if it is the active generation's. *)
Definition cached_reader (generation : Z) : Ag Index := λ s,
  let cached := as_catalog_reader s in
  (if decide (cs_generation cached = generation) then Ok (cs_reader cached)
   else Err (wire_error CodeIndexNotReady "catalog reader generation is not active"), s).

Definition query_state (opened : result GraphError unit) : Ag Index :=
  open_graph opened ;;
  checkpoint ← read_graph (λ g, projector_checkpoint g CATALOG_SCHEMA_ID);
  checkpoint ← st_lift (ok_or checkpoint (wire_error CodeIndexNotReady "no active catalog generation"));
  cached_reader (pj_index_generation checkpoint).

Definition index_status_from_state (reader : Index) : Ag IndexStatus :=
  durable ← read_graph latest_outbox_sequence;
  checkpoint ← read_graph (λ g, projector_checkpoint g CATALOG_SCHEMA_ID);
  let applied := default 0%Z (pj_last_sequence <$> checkpoint) in
  count ← st_lift (map_err internal (document_count reader));
  mret (MkIndexStatus (bool_decide (is_Some checkpoint)) (pj_index_generation <$> checkpoint)
          (Z.of_nat count) durable applied (saturating_sub durable applied)).

Definition index_status (opened : result GraphError unit) : Ag IndexStatus :=
  reader ← query_state opened; index_status_from_state reader.

Definition capabilities (s : AgentService) : Capabilities :=
  MkCapabilities [AGENT_API_VERSION] [AGENT_CODEC_VERSION] (granted (as_authorization s)) MAX_TOP_K
    (Z.of_N MAX_FRAME_BYTES) RANKING_VERSION.

Definition health (opened opened_again : result GraphError unit) (s : AgentService) : ServiceHealth :=
  let index_ready :=
    match (query_state opened s).1 with Ok reader => is_ok (document_count reader) | Err _ => false end in
  MkServiceHealth index_ready (is_ok opened_again) index_ready.

Definition get_catalog_item (opened : result GraphError unit) (id : document_id) : Ag CatalogItem :=
  open_graph opened ;;
  document ← read_graph (λ g, desired_catalog_document g id);
  document ← st_lift (ok_or document (wire_error CodeNotFound "catalog item is not current"));
  mret (item_from_document document).

Fixpoint lookup_items (ids : list document_id) : Ag (list CatalogItem) :=
  match ids with
  | [] => mret []
  | id :: ids =>
      document ← read_graph (λ g, desired_catalog_document g id);
      items ← lookup_items ids;
      mret match document with Some d => item_from_document d :: items | None => items end
  end.

Definition get_catalog_items (opened : result GraphError unit) (ids : list document_id)
  : Ag (list CatalogItem) :=
  open_graph opened ;; lookup_items ids.

(** ** Content search *)

(** The hits: the current items of the candidates that are still in the catalog. *)
Fixpoint content_hits (env : request_env) (deadline_ms : Z) (g : db) (candidates : list CatalogDocument)
  (hits : list ContentSearchHit) : M nat AgentWireError (list ContentSearchHit) :=
  match candidates with
  | [] => mret hits
  | candidate :: candidates =>
      check_request env deadline_ms ;;
      current ← lift (map_err internal
        (desired_catalog_document g (ci_document_id (cd_identity candidate))));
      content_hits env deadline_ms g candidates
        match current with
        | Some document =>
            hits ++ [MkContentSearchHit (item_from_document document)
                       (Z.min (Z.of_nat (length hits) + 1) u32_max)]
        | None => hits
        end
  end.

Definition content_search_impl (env : request_env) (deadline_ms : Z) (opened : result GraphError unit)
  (query : string) (top_k : Z) : Ag ContentSearchResponse := λ s,
  match check_request env deadline_ms 0, as_content_reader s with
  | Err e, _ => (Err e, s)
  | Ok _, None =>
      (Err (wire_error CodeIndexNotReady "content search is not enabled for this Agent"), s)
  | Ok (_, n), Some reader =>
      let '(found, reader) := content_search (as_workspace s) reader query (Z.min top_k MAX_TOP_K) in
      let work : M nat AgentWireError (list ContentSearchHit) :=
        candidates ← lift (map_err internal found);
        check_request env deadline_ms ;;
        lift (map_err internal opened) ;;
        content_hits env deadline_ms (as_graph s) candidates [] in
      (fmap (λ '(hits, _), MkContentSearchResponse CONTENT_SCHEMA_ID
                             (Z.min (re_total env / 1000) u64_max) hits) (work n),
       set_content_reader reader s)
  end.

(** ** Dispatch *)

(** [search_impl] on the state of the service. *)
Definition catalog_search (env : request_env) (deadline_ms : Z) (request : SearchRequest)
  : Ag SearchResponse := λ s,
  let '(r, g) := search_impl env deadline_ms (as_catalog_reader s) request (as_governor s) in
  (r, set_governor g s).

Definition contract_code (e : WireContractError) : AgentErrorCode :=
  match e with
  | UnsupportedProtocolVersion => CodeUnsupportedProtocolVersion
  | UnsupportedCodecVersion => CodeUnsupportedCodecVersion
  | _ => CodeInvalidRequest
  end.

Definition dispatch_request (env : request_env) (opens : nat → result GraphError unit)
  (deadline_ms : Z) (operation : RequestOperation) : Ag ResponsePayload :=
  match operation with
  | CatalogSearch search =>
      require CapSearchCatalog ;; RSearch <$> catalog_search env deadline_ms search
  | ContentSearch query top_k =>
      require CapSearchContent ;;
      RContentSearch <$> content_search_impl env deadline_ms (opens 0) query top_k
  | CatalogGetItem id => require CapReadMetadata ;; RCatalogItem <$> get_catalog_item (opens 0) id
  | CatalogGetItems ids => require CapReadMetadata ;; RCatalogItems <$> get_catalog_items (opens 0) ids
  | IndexGetStatus => require CapIndexStatus ;; RIndexStatus <$> index_status (opens 0)
  | AgentGetCapabilities => λ s, (Ok (RCapabilities (capabilities s)), s)
  | AgentGetHealth => λ s, (Ok (RHealth (health (opens 0) (opens 1) s)), s)
  end.

(** [dispatch_cancellable]; cancellation is part of the environment. *)
Definition dispatch_cancellable (env : request_env) (opens : nat → result GraphError unit)
  (request : AgentRequest) (s : AgentService) : AgentResponse * AgentService :=
  let request_id :=
    if String.length (ar_request_id request) <=? 64 then ar_request_id request else "" in
  match AgentRequest_validate request with
  | Err e => (response_failure request_id (contract_code e) "request contract rejected", s)
  | Ok _ =>
      match dispatch_request env opens (effective_deadline_ms request) (ar_operation request) s with
      | (Ok payload, s) => (response_success request_id payload, s)
      | (Err error, s) => (MkAgentResponse AGENT_API_VERSION request_id None (Some error), s)
      end
  end.

(** ** Maintenance *)

(** What a pass finds outside: whether the graph opens (in order of the attempts), whether a reader
    of the index can be made, whether free pages can be returned to the file system, and the clocks
    of the worker's runs. *)
Record maintenance_env := MkMaintenanceEnv {
  me_opens : nat → result GraphError unit;
  me_reader : result TantivyError unit;
  me_reclaim : result GraphError unit;
  me_elapsed : nat → Z → Z }.

Definition MAX_ATTEMPTS : nat := 50.

(** [run_projection_with_retry] from the given attempt on. *)
Fixpoint retry_projection (elapsed : nat → Z → Z) (o : ProjectionWorkerOptions) (fuel attempt : nat)
  : world → result AgentWireError ProjectionRunSummary * world := λ w,
  match fuel with
  | O => (Err (wire_error CodeUnavailable "projection retry budget exhausted"), w)
  | S fuel =>
      match run (elapsed attempt) o w with
      | (Ok summary, w) => (Ok summary, w)
      | (Err (WCatalog e), w) =>
          if attempt + 1 <? MAX_ATTEMPTS then retry_projection elapsed o fuel (attempt + 1) w
          else (Err (internal (WCatalog e)), w)
      | (Err e, w) => (Err (internal e), w)
      end
  end.
Definition run_projection_with_retry (elapsed : nat → Z → Z) (o : ProjectionWorkerOptions)
  : world → result AgentWireError ProjectionRunSummary * world :=
  retry_projection elapsed o MAX_ATTEMPTS 0.

(** A computation on the durable world. *)
Definition on_world {A} (m : world → result AgentWireError A * world) : Ag A := λ s,
  let '(r, w) := m (as_world s) in (r, set_world w s).

Definition active_reader (env : maintenance_env) (w : world) : result AgentWireError Index * world :=
  let '(r, w) := active_index w in
  (i ← map_err internal r; map_err internal (me_reader env) ;; Ok i, w).

Definition cache_reader (reader : CatalogSnapshot) : Ag unit := λ s,
  (Ok tt, set_catalog_reader reader s).

Definition refresh_catalog_reader (env : maintenance_env) (generation : Z) : Ag unit :=
  reader ← on_world (active_reader env);
  cache_reader (MkCatalogSnapshot reader generation).

(** The bounded refresh loop: volumes first, then paths. *)
Fixpoint refresh_passes (fuel : nat) (maximum_links : Z) : Ag unit :=
  match fuel with
  | O => mret tt
  | S fuel =>
      volume ← write_graph (refresh_volume_projection maximum_links);
      if (0 <? pr_links_scanned volume)%Z || pr_job_completed volume
      then refresh_passes fuel maximum_links
      else
        paths ← write_graph (refresh_projection_paths maximum_links);
        if (pr_links_scanned paths =? 0)%Z && negb (pr_job_completed paths) then mret tt
        else refresh_passes fuel maximum_links
  end.

(** The report on the backlog and the decision the pass works under. *)
Definition pass_decision (advance_policy_window : bool) (backlog : Z) (g : ResourceGovernor)
  : GovernorDecision * ResourceGovernor :=
  let g := report_backlog backlog g in
  let g := if advance_policy_window then advance_window g else g in
  (decision g, g).

Definition maintain_projection_inner (env : maintenance_env) (advance_policy_window : bool)
  : Ag IndexStatus :=
  open_graph (me_opens env 0) ;;
  durable ← read_graph latest_outbox_sequence;
  checkpoint ← read_graph (λ g, projector_checkpoint g CATALOG_SCHEMA_ID);
  let applied := default 0%Z (pj_last_sequence <$> checkpoint) in
  pending ← read_graph (λ g, Ok (projection_refresh_maintenance_pending g));
  d ← with_governor (pass_decision advance_policy_window
        (Z.max (saturating_sub durable applied) (Z.b2z pending)));
  if background_paused (gd_budget d) then index_status (me_opens env 1)
  else
    refresh_passes (Z.to_nat (Z.min (maximum_batches (gd_budget d)) 1024))
      (Z.max (maximum_batch_mutations (gd_budget d)) 1) ;;
    summary ← on_world (run_projection_with_retry (me_elapsed env) (projection_options d));
    refresh_catalog_reader env (ps_index_generation summary) ;;
    index_status (me_opens env 1).

(** Up to three attempts of the content projector. *)
Fixpoint content_attempts (fuel : nat) (batch_size batches : Z) : Ag (option ContentSummary) := λ s,
  match fuel with
  | O => (Err (internal tt), s)
  | S fuel =>
      let '(r, g, c) := content_project batch_size batches (as_graph s) (as_workspace s) in
      match r with
      | Ok summary => (Ok (Some summary), set_content g c s)
      | Err e => content_attempts fuel batch_size batches (set_content g c s)
      end
  end.

Definition maintain_content_projection_scheduled : Ag (option ContentSummary) := λ s,
  if as_content_projector s then
    let d := decision (as_governor s) in
    if background_paused (gd_budget d) then (Ok None, s)
    else content_attempts 3 (Z.min (maximum_batch_mutations (gd_budget d)) 10000)
           (Z.min (maximum_batches (gd_budget d)) 1024) s
  else (Ok None, s).

Definition maintain_graph_storage_scheduled (env : maintenance_env) : Ag unit :=
  d ← governor_decision;
  if background_paused (gd_budget d) then mret tt
  else
    open_graph (me_opens env 2) ;;
    let maximum_rows := Z.max 1 (Z.min (maximum_batch_mutations (gd_budget d)) 100000) in
    write_graph (compact_legacy_desired_payloads_bounded maximum_rows) ;;
    write_graph (prune_rebuildable_outbox_bounded maximum_rows false) ;;
    st_lift (map_err internal (me_reclaim env)).

Definition maintain_all_projections_scheduled (env : maintenance_env) : Ag IndexStatus :=
  status ← maintain_projection_inner env false;
  maintain_content_projection_scheduled ;;
  maintain_graph_storage_scheduled env ;;
  mret status.

Definition projector_backlog : Ag Z := λ s,
  (if as_content_projector s then map_err internal (content_backlog (as_graph s) (as_workspace s))
   else Ok 0%Z, s).

(** [projection_backlog]. *)
Definition projection_backlog (opened : result GraphError unit) : Ag Z :=
  open_graph opened ;;
  durable ← read_graph latest_outbox_sequence;
  checkpoint ← read_graph (λ g, projector_checkpoint g CATALOG_SCHEMA_ID);
  let catalog_backlog := saturating_sub durable (default 0%Z (pj_last_sequence <$> checkpoint)) in
  content ← projector_backlog;
  pending ← read_graph (λ g, Ok (consumed_outbox_maintenance_pending g
    || legacy_desired_payload_maintenance_pending g || projection_refresh_maintenance_pending g));
  mret (Z.max (Z.max catalog_backlog content) (Z.b2z pending)).

(** [report_resource_observation]. *)
Definition report_resource_observation (pressure : SystemPressure) (idle : option Z) (backlog : Z)
  : Ag GovernorDecision :=
  with_governor (λ g,
    let g := report_user_idle_duration idle (report_system_pressure pressure (report_backlog backlog g)) in
    (decision g, g)).

Definition service_resource_unavailable : Ag GovernorDecision :=
  with_governor (λ g, let g := report_resource_unavailable g in (decision g, g)).

(** ** Opening *)

(** [open_with_content]: [content] is the outcome of opening the configured content index, [projector]
    whether its workspace has a usable manifest. *)
Definition open_with_content (env : maintenance_env) (content : option (result ContentError ContentReader))
  (projector : bool) (workspace : ContentWorkspace) (authorization : ClientAuthorization) (w : world)
  : result AgentWireError AgentService * world :=
  match map_err internal (me_opens env 0) with
  | Err e => (Err e, w)
  | Ok _ =>
      let '(r, w) := run_projection_with_retry (me_elapsed env) ProjectionWorkerOptions_default w in
      (summary ← r;
       ensure (negb (ps_backlog_remaining summary))
         (wire_error CodeIndexNotReady "catalog recovery did not drain the durable backlog") ;;
       reader ← (active_reader env w).1;
       content_reader ← match content with
                        | None => Ok None
                        | Some c => Some <$> map_err internal c
                        end;
       Ok (MkAgentService w (ResourceGovernor_new GovernorConfig_default)
             (MkCatalogSnapshot reader (ps_index_generation summary)) content_reader projector workspace
             authorization), w)
  end.
End agent.
