(* ===== verification/AgentSpec.v ===== *)
(** What the agent promises: opening it makes the whole desired catalog searchable, maintenance loses
    nothing and publishes what it finished, requests change nothing durable and need their grant, and
    a paused governor keeps every pass from writing. *)
From stdpp Require Import base strings numbers gmap list sorting relations.
From S2P Require Import Prelude Ids Models GraphDomain GraphTables Fixtures GraphPath GraphMutate.
From S2P Require Import GraphProjection GraphStore GraphOutbox GraphRefresh GraphInvariant.
From S2P Require Import GraphPreserve GraphReach GraphSync GraphConverge.
From S2P Require Import Text Catalog CatalogSpec CatalogFixtures Projector ProjectorSpec ProjectorRun.
From S2P Require Import Content Governor Frames Search SearchSpec Agent.

(** ** What the content side promises *)

(** It writes to the graph only by acknowledging for its own consumer. *)
Inductive content_ack `{E : StoreEnv} : relation db :=
| ack_step last generation g g' :
    in_u64 last → in_u64 generation →
    acknowledge_projection CONTENT_SCHEMA_ID last generation g = Ok (tt, g') → content_ack g g'.

Class ContentLaws `{E : StoreEnv} `{!ContentPort} : Prop := {
  project_acknowledges batch batches g c r g' c' :
    store_wf g → content_project batch batches g c = (r, g', c') → rtc content_ack g g' }.

Section spec.
Context `{TV : Tantivy} `{T : TextEnv} `{!StoreLaws E} `{!TextLaws T} `{TL : !TantivyLaws}.
Context `{CP : !ContentPort} `{CL : !ContentLaws}.
Implicit Types (s : AgentService) (w : world) (g : db).

(** ** The invariant *)

Record agent_ok s : Prop := {
  ao_wf : store_wf (as_graph s);
  ao_tracks : catalog_tracks (as_world s);
  ao_opens : active_opens (as_world s) }.

(** The cached reader holds exactly the desired catalog. *)
Definition current s : Prop :=
  ∃ idx, represents (live (cs_reader (as_catalog_reader s))) idx ∧
    ∀ d, doc_matches (documents (as_graph s) !! d) (idx !! d).

Definition keeps_ok {A} (m : St AgentService AgentWireError A) : Prop :=
  ∀ s r s', agent_ok s → m s = (r, s') → agent_ok s'.

Lemma agent_ok_world s s' : as_world s' = as_world s → agent_ok s → agent_ok s'.
Proof. intros Hw [Hwf Ht Ho]. unfold as_graph in Hwf. split; unfold as_graph; by rewrite Hw. Qed.

(** Changes of the graph that leave the catalog's checkpoint alone. *)
Lemma spares_ok s s' :
  w_generations (as_world s') = w_generations (as_world s) → store_wf (as_graph s') →
  spares consumer_id (as_graph s) (as_graph s') → agent_ok s → agent_ok s'.
Proof.
  unfold as_graph. intros Hgen Hwf Hsp [_ Ht (row & i & Hrow & Hi)].
  destruct (Hsp row Hrow) as [Hrow' Htr]. split; [done| |exists row, i; by rewrite Hgen].
  intros row' i' Hr' Hi'. unfold active_row in Hrow. rewrite Hrow' in Hr'. injection Hr' as <-.
  rewrite Hgen in Hi'. destruct (Ht row i' Hrow Hi') as (idx & Hrep & Htrack). exists idx.
  split; [done|]. by apply Htr.
Qed.

Lemma keeps_ok_bind {A B} (m : St AgentService AgentWireError A) (f : A → St AgentService AgentWireError B) :
  keeps_ok m → (∀ a, keeps_ok (f a)) → keeps_ok (m ≫= f).
Proof.
  intros Hm Hf s r s' Hs H. unfold mbind, St_bind in H. destruct (m s) as [[a|e] s1] eqn:Hm1.
  - eapply Hf; [|exact H]. by eapply Hm.
  - injection H as _ <-. by eapply Hm.
Qed.

(** Operations that leave the durable world alone. *)
Definition world_stays {A} (m : St AgentService AgentWireError A) : Prop :=
  ∀ s, as_world (m s).2 = as_world s.

Lemma world_stays_ok {A} (m : St AgentService AgentWireError A) : world_stays m → keeps_ok m.
Proof.
  intros Hm s r s' Hs H. specialize (Hm s). rewrite H in Hm. by eapply agent_ok_world.
Qed.

Lemma write_graph_ok {A} (m : GM A) (o : op) :
  op_typed o → op_spares consumer_id o → run_op o = discard m → keeps_ok (write_graph m).
Proof.
  intros Hty Hsp Ho s r s' Hs H. unfold write_graph in H.
  destruct (m (as_graph s)) as [[a g]|e] eqn:Hm; injection H as _ <-; [|done].
  assert (run_op o (as_graph s) = Ok (tt, g)) as Hrun
    by (rewrite Ho; unfold discard, mbind, M_bind; by rewrite Hm).
  apply (spares_ok s); [done| | |done].
  - eapply store_step_wf; [by apply ao_wf|by apply (step_commit o)].
  - by eapply run_op_spares; [apply ao_wf| | |].
Qed.

Lemma content_acks_spare g g' :
  store_wf g → rtc content_ack g g' → store_wf g' ∧ spares consumer_id g g'.
Proof.
  intros Hwf. induction 1 as [g|g1 g2 g3 [last gen ? ? Hl Hg Hack] _ IH]; [done|].
  set (o := OpAcknowledgeProjection CONTENT_SCHEMA_ID last gen).
  assert (store_wf g') as Hwf2 by (eapply store_step_wf; [done|by apply (step_commit o)]).
  destruct (IH Hwf2) as [Hwf3 Hs]. split; [done|]. etransitivity; [|exact Hs].
  by apply (run_op_spares g g' consumer_id o).
Qed.

(** ** The projection worker under retry *)

Lemma only_checkpoint_synced g g' : only_checkpoint g g' → all_synced g → all_synced g'.
Proof. intros [-> _] Hs d r Hd. specialize (Hs d r Hd). by destruct g. Qed.

Lemma retry_projection_inv elapsed o fuel attempt w r w' :
  store_wf (w_graph w) → catalog_tracks w → active_opens w ∨ all_synced (w_graph w) →
  (0 < po_rebuild_page_size o)%Z → retry_projection elapsed o fuel attempt w = (r, w') →
  worker_inv (w_graph w) w' ∧ (active_opens w → active_opens w') ∧
  ∀ sum, r = Ok sum → ∃ row, active_row w' row ∧ opens_at (ps_index_generation sum) w' ∧
    (ps_backlog_remaining sum = false → (high_water (w_graph w') ≤ k_last_sequence row)%Z).
Proof.
  revert attempt w. induction fuel as [|fuel IH]; intros attempt w Hwf Ht Hcan Hpage H; simpl in H.
  { injection H as <- <-. split; [by apply worker_inv_start|done]. }
  destruct (run (elapsed attempt) o w) as [r1 w1] eqn:Hrun.
  pose proof (run_inv _ o w w1 r1 Hwf Ht Hcan Hpage Hrun) as (Hinv & Hact & Hok).
  destruct r1 as [summary|e]; [injection H as <- <-; split; [done|]; split; [done|]; by intros ? [= <-]; apply Hok|].
  assert (∀ x w2, (Err x, w1) = (r, w2) → w2 = w' → worker_inv (w_graph w) w' ∧
    (active_opens w → active_opens w') ∧ ∀ sum, r = Ok sum → ∃ row, active_row w' row ∧
    opens_at (ps_index_generation sum) w' ∧
    (ps_backlog_remaining sum = false → (high_water (w_graph w') ≤ k_last_sequence row)%Z)) as Hstop.
  { intros x w2 [= <- <-] <-. by split_and!. }
  destruct e; try by eapply Hstop.
  destruct (attempt + 1 <? MAX_ATTEMPTS); [|by eapply Hstop].
  pose proof Hinv as (Hwf1 & Hoc & Ht1).
  apply IH in H as ((Hwf2 & Hoc2 & Ht2) & Hact2 & Hok2); [|done|done| |done].
  - split; [split_and!; [done|by etransitivity|done]|]. split; [auto|done].
  - destruct Hcan as [?|Hs]; [left; auto|right]. by eapply only_checkpoint_synced.
Qed.
(** ** Maintenance passes *)

Create HintDb agent.

Lemma read_graph_stays {A} (f : db → result GraphError A) : world_stays (read_graph f).
Proof. done. Qed.
Lemma st_lift_stays {A} (x : result AgentWireError A) : world_stays (st_lift x).
Proof. done. Qed.
Lemma open_graph_stays opened : world_stays (open_graph opened).
Proof. done. Qed.
Lemma mret_stays {A} (a : A) : world_stays (mret a).
Proof. done. Qed.
Lemma with_governor_stays {A} (f : ResourceGovernor → A * ResourceGovernor) : world_stays (with_governor f).
Proof. intros s. unfold with_governor. by destruct (f _). Qed.
Lemma cache_reader_stays r : world_stays (cache_reader r).
Proof. done. Qed.
Lemma cached_reader_stays n : world_stays (cached_reader n).
Proof. done. Qed.
#[local] Hint Resolve read_graph_stays open_graph_stays st_lift_stays mret_stays with_governor_stays cache_reader_stays
  cached_reader_stays : agent.

Lemma world_stays_bind {A B} (m : St AgentService AgentWireError A) (f : A → St AgentService AgentWireError B) :
  world_stays m → (∀ a, world_stays (f a)) → world_stays (m ≫= f).
Proof.
  intros Hm Hf s. specialize (Hm s). unfold mbind, St_bind. destruct (m s) as [[a|e] s1]; [|done].
  simpl in *. by rewrite Hf.
Qed.

Lemma query_state_stays opened : world_stays (query_state opened).
Proof. repeat (apply world_stays_bind; [solve [auto with agent]|intros ?]). auto with agent. Qed.

Lemma index_status_stays opened : world_stays (index_status opened).
Proof.
  apply world_stays_bind; [apply query_state_stays|intros reader].
  repeat (apply world_stays_bind; [solve [auto with agent]|intros ?]). auto with agent.
Qed.

Lemma refresh_passes_ok fuel n : keeps_ok (refresh_passes fuel n).
Proof.
  induction fuel as [|fuel IH]; simpl; [apply world_stays_ok; auto with agent|].
  apply keeps_ok_bind; [by apply (write_graph_ok _ (OpRefreshVolumeProjection n))|intros v].
  destruct (_ || _); [done|].
  apply keeps_ok_bind; [by apply (write_graph_ok _ (OpRefreshProjectionPaths n))|intros p].
  destruct (_ && _); [apply world_stays_ok; auto with agent|done].
Qed.

(** The worker on the world of the service. *)
Lemma on_world_run_ok elapsed o s r s' :
  (0 < po_rebuild_page_size o)%Z → agent_ok s → on_world (run_projection_with_retry elapsed o) s = (r, s') →
  agent_ok s' ∧ only_checkpoint (as_graph s) (as_graph s') ∧
  ∀ sum, r = Ok sum → opens_at (ps_index_generation sum) (as_world s').
Proof.
  intros Hpage [Hwf Ht Ho] H. unfold on_world in H.
  destruct (run_projection_with_retry elapsed o (as_world s)) as [r1 w1] eqn:Hrun. injection H as <- <-.
  apply retry_projection_inv in Hrun as ((Hwf1 & Hoc & Ht1) & Hact & Hok); [|done|done|by left|done].
  split; [split; [done|done|by apply Hact]|]. split; [done|].
  intros sum Hsum. by destruct (Hok sum Hsum) as (row & _ & Hat & _).
Qed.

Lemma active_index_opens w n :
  store_wf (w_graph w) → opens_at n w →
  ∃ i, active_index w = (Ok i, w) ∧ catalog_open (w_generations w !! n) = Ok i.
Proof.
  intros Hwf (row & i & Hrow & <- & Hi). exists i. split; [|done]. unfold active_index.
  rewrite (W_bind_Ok _ _ _ _ _ (active_checkpoint_ok w row _ (proj1 Hwf) Hrow)).
  unfold open_generation. simpl. by rewrite Hi.
Qed.

Lemma active_reader_world env w : (active_reader env w).2 = w.
Proof.
  unfold active_reader, active_index, mbind, W_bind. pose proof (active_checkpoint_read "no active catalog generation" w) as Hc.
  destruct (active_checkpoint _ w) as [[c|e] w1]; simpl in *; by subst.
Qed.

Lemma refresh_catalog_reader_stays env n : world_stays (refresh_catalog_reader env n).
Proof.
  apply world_stays_bind; [|intros; auto with agent]. intros s. unfold on_world.
  pose proof (active_reader_world env (as_world s)) as Hr. destruct (active_reader env (as_world s)). simpl in *. by subst.
Qed.

Lemma budget_page_positive (g : ResourceGovernor) : (0 < rebuild_page_size (get_indexing_budget g))%Z.
Proof. unfold get_indexing_budget. destruct (mode g); simpl; lia. Qed.

(** The governor does not change after the decision of a pass. *)
Lemma maintain_projection_ok env advance : keeps_ok (maintain_projection_inner env advance).
Proof.
  unfold maintain_projection_inner.
  do 4 (apply keeps_ok_bind; [apply world_stays_ok; auto with agent|intros ?]).
  intros s r s' Hs H. unfold mbind at 1, St_bind at 1, with_governor, pass_decision in H. cbn zeta in H.
  set (g := if advance then _ else _) in H. set (s1 := set_governor g s) in H.
  assert (agent_ok s1) as Hs1 by (by apply (agent_ok_world s)).
  destruct (background_paused _); [by eapply (world_stays_ok (index_status (me_opens env 1))); [apply index_status_stays| |]|].
  revert H. revert Hs1. generalize s1. clear s1. intros s1 Hs1 H.
  eapply (keeps_ok_bind (refresh_passes _ _)); [apply refresh_passes_ok| |exact Hs1|exact H]. intros [].
  apply keeps_ok_bind; [|intros sum].
  - intros s2 r2 s3 Hs2 H2. eapply on_world_run_ok in H2 as [? _]; [done| |done]. simpl. apply budget_page_positive.
  - apply world_stays_ok, world_stays_bind; [apply refresh_catalog_reader_stays|intros _]. apply index_status_stays.
Qed.

Lemma content_attempts_ok fuel a b : keeps_ok (content_attempts fuel a b).
Proof.
  induction fuel as [|fuel IH]; intros s r s' Hs H; simpl in H; [by injection H as _ <-|].
  destruct (content_project a b (as_graph s) (as_workspace s)) as [[r1 g1] c1] eqn:Hp.
  apply project_acknowledges in Hp; [|by apply ao_wf].
  destruct (content_acks_spare (as_graph s) g1) as [Hwf Hsp]; [by apply ao_wf|done|].
  assert (agent_ok (set_content g1 c1 s)) as Hs1 by (by apply (spares_ok s)).
  destruct r1; [by injection H as _ <-|]. by eapply IH.
Qed.

Lemma maintain_all_ok env : keeps_ok (maintain_all_projections_scheduled env).
Proof.
  apply keeps_ok_bind; [apply maintain_projection_ok|intros status]. apply keeps_ok_bind; [|intros _].
  { intros s r s' Hs H. unfold maintain_content_projection_scheduled in H.
    destruct (as_content_projector s); [|by injection H as _ <-]. cbn zeta in H.
    destruct (background_paused _); [by injection H as _ <-|]. by eapply content_attempts_ok. }
  apply keeps_ok_bind; [|intros _; apply world_stays_ok; auto with agent].
  apply keeps_ok_bind; [apply world_stays_ok, with_governor_stays|intros d].
  destruct (background_paused _); [apply world_stays_ok; auto with agent|].
  apply keeps_ok_bind; [apply world_stays_ok; auto with agent|intros _].
  apply keeps_ok_bind; [by eapply (write_graph_ok _ (OpCompactLegacyPayloads _))|intros _].
  apply keeps_ok_bind; [by eapply (write_graph_ok _ (OpPruneRebuildableOutbox _ false))|intros _].
  apply world_stays_ok; auto with agent.
Qed.
Lemma Ag_bind_Ok {A B} (m : St AgentService AgentWireError A) (f : A → St AgentService AgentWireError B) s b s' :
  (m ≫= f) s = (Ok b, s') → ∃ a s1, m s = (Ok a, s1) ∧ f a s1 = (Ok b, s').
Proof. unfold mbind, St_bind. destruct (m s) as [[a|e] s1]; intros H; [by exists a, s1|done]. Qed.

(** A caught-up generation holds the desired catalog. *)
Lemma caught_up w row n i :
  store_wf (w_graph w) → catalog_tracks w → active_row w row → opens_at n w →
  catalog_open (w_generations w !! n) = Ok i → (high_water (w_graph w) ≤ k_last_sequence row)%Z →
  ∃ idx, represents (live i) idx ∧ ∀ d, doc_matches (documents (w_graph w) !! d) (idx !! d).
Proof.
  intros [Hwf _] Ht Hrow (row' & ? & Hrow' & Hn & _) Hi Hhw. unfold active_row in *. simplify_eq.
  destruct (Ht row i Hrow Hi) as (idx & Hrep & Htr). exists idx. split; [done|]. intros d.
  specialize (Htr d). destruct (gw_consumer _ Hwf _ _ Hrow) as [Hlast _].
  assert (k_last_sequence row = high_water (w_graph w)) as Heq by lia.
  by rewrite Heq, outbox_after_high_water in Htr.
Qed.

(** ** Requests *)

Definition required_capability (o : RequestOperation) : option Capability :=
  match o with
  | CatalogSearch _ => Some CapSearchCatalog
  | ContentSearch _ _ => Some CapSearchContent
  | CatalogGetItem _ | CatalogGetItems _ => Some CapReadMetadata
  | IndexGetStatus => Some CapIndexStatus
  | AgentGetCapabilities | AgentGetHealth => None
  end.

(** What requests leave alone. *)
Definition durable s : world * CatalogSnapshot * ContentWorkspace * ClientAuthorization :=
  (as_world s, as_catalog_reader s, as_workspace s, as_authorization s).

Lemma require_bind {A} c (m : St AgentService AgentWireError A) s :
  (require c ;; m) s =
  if permits (as_authorization s) c then m s
  else (Err (wire_error CodeForbidden "client capability grant does not permit this method"), s).
Proof. unfold require, mbind, St_bind. by destruct (permits _ _). Qed.

Lemma fmap_state {A B} (f : A → B) (m : St AgentService AgentWireError A) s : ((f <$> m) s).2 = (m s).2.
Proof. done. Qed.

(** Reads return the state they were given. *)
Definition reads_only {A} (m : St AgentService AgentWireError A) : Prop := ∀ s, (m s).2 = s.

Lemma reads_only_bind {A B} (m : St AgentService AgentWireError A) (f : A → St AgentService AgentWireError B) :
  reads_only m → (∀ a, reads_only (f a)) → reads_only (m ≫= f).
Proof.
  intros Hm Hf s. specialize (Hm s). unfold mbind, St_bind. destruct (m s) as [[a|e] s1]; simpl in *; subst; [apply Hf|done].
Qed.

Lemma query_state_reads opened : reads_only (query_state opened).
Proof. repeat (apply reads_only_bind; [done|intros ?]). done. Qed.

Lemma index_status_reads opened : reads_only (index_status opened).
Proof.
  apply reads_only_bind; [apply query_state_reads|intros reader].
  repeat (apply reads_only_bind; [done|intros ?]). done.
Qed.

Lemma get_items_reads opened ids : reads_only (get_catalog_items opened ids).
Proof.
  apply reads_only_bind; [done|intros _]. induction ids as [|id ids IH]; [done|].
  apply reads_only_bind; [done|intros ?]. apply reads_only_bind; [done|intros ?]. done.
Qed.

Lemma get_item_reads opened id : reads_only (get_catalog_item opened id).
Proof. repeat (apply reads_only_bind; [done|intros ?]). done. Qed.

Lemma dispatch_request_durable env opens deadline o s :
  durable (dispatch_request env opens deadline o s).2 = durable s.
Proof.
  assert (∀ A B c (m : St AgentService AgentWireError A) (f : A → B), durable (m s).2 = durable s →
    durable ((require c ;; f <$> m) s).2 = durable s) as Hreq.
  { intros A B c m f Hm. rewrite require_bind. by destruct (permits _ _). }
  destruct o; simpl; try apply Hreq; try done.
  - unfold catalog_search. by destruct (search_impl _ _ _ _ _).
  - unfold content_search_impl. destruct (check_request _ _ _) as [[[] n]|e]; [|done].
    destruct (as_content_reader s); [|done]. by destruct (content_search _ _ _ _).
  - by rewrite get_item_reads.
  - by rewrite get_items_reads.
  - by rewrite index_status_reads.
Qed.

Lemma dispatch_durable env opens request s :
  durable (dispatch_cancellable env opens request s).2 = durable s.
Proof.
  unfold dispatch_cancellable. destruct (AgentRequest_validate request); [|done].
  pose proof (dispatch_request_durable env opens (effective_deadline_ms request) (ar_operation request) s) as Hd.
  by destruct (dispatch_request _ _ _ _ s) as [[payload|e] s1].
Qed.

(** The state after some requests. *)
Fixpoint serve (requests : list (request_env * (nat → result GraphError unit) * AgentRequest)) s : AgentService :=
  match requests with
  | [] => s
  | (env, opens, request) :: requests => serve requests (dispatch_cancellable env opens request s).2
  end.

Lemma serve_durable requests s : durable (serve requests s) = durable s.
Proof.
  revert s. induction requests as [|[[env opens] request] requests IH]; intros s; [done|].
  simpl. by rewrite IH, dispatch_durable.
Qed.
(** A hit that shows a desired document of the graph. *)
Definition hit_current g (h : SearchHit) : Prop :=
  ∃ row doc m k, documents g !! sh_document_id h = Some row ∧ row_describes row doc ∧ h = hit_of k (m, doc).

Lemma search_answer env opens request s answer :
  rs_result (dispatch_cancellable env opens request s).1 = Some (RSearch answer) →
  ∃ search, ar_operation request = CatalogSearch search ∧
    (search_impl env (effective_deadline_ms request) (as_catalog_reader s) search (as_governor s)).1 = Ok answer.
Proof.
  unfold dispatch_cancellable. destruct (AgentRequest_validate request); [|done].
  destruct (dispatch_request _ _ _ _ s) as [[payload|e] s1] eqn:Hd; [|done]. simpl. intros [= ->].
  destruct (ar_operation request) as [search| | | | | |]; simpl in Hd; try rewrite require_bind in Hd;
    try (destruct (permits _ _); [|done]); try done;
    unfold fmap, St_fmap in Hd; injection Hd as Hd Hs1;
    try (match type of Hd with context [?x ≫= _] => destruct x end; simplify_eq/=; done).
  exists search. split; [done|]. unfold catalog_search in Hd. destruct (search_impl _ _ _ _ _) as [[r|e] g']; by simplify_eq/=.
Qed.

Lemma search_hits_current env deadline snapshot search gov answer idx g :
  represents (live (cs_reader snapshot)) idx → (∀ d, doc_matches (documents g !! d) (idx !! d)) →
  (search_impl env deadline snapshot search gov).1 = Ok answer → Forall (hit_current g) (sr_hits answer).
Proof.
  intros Hrep Hm. unfold search_impl.
  destruct (search_ranked _ _ _ _ _) as [[ranked n]|e] eqn:Hrun; simpl; [|done]. intros [= <-]. simpl.
  destruct (search_ranked_ok _ _ _ idx search _ _ _ Hrep Hrun) as (seen & docs & Hok & _ & ->).
  apply Forall_forall. intros h [k Hk]%list_elem_of_lookup. unfold hits_of in Hk.
  rewrite list_lookup_imap in Hk. apply fmap_Some in Hk as ([m doc] & Hx & ->).
  apply lookup_take_Some in Hx as [Hx _]. apply list_elem_of_lookup_2 in Hx.
  rewrite merge_sort_Permutation in Hx. apply list_elem_of_omap in Hx as (doc' & Hdoc & (<- & _)%verdict_Some).
  assert (idx !! ci_document_id (cd_identity doc) = Some doc) as Hidx by (by apply Hok).
  specialize (Hm (ci_document_id (cd_identity doc))). rewrite Hidx in Hm.
  destruct (documents g !! ci_document_id (cd_identity doc)) as [row|] eqn:Hrow; [|done].
  exists row, doc, m, k. by split_and!.
Qed.

(** ** What a pass did *)

Definition paused s : bool := background_paused (gd_budget (decision (as_governor s))).

Definition governor_stays {A} (m : St AgentService AgentWireError A) : Prop :=
  ∀ s, as_governor (m s).2 = as_governor s.

Lemma governor_stays_bind {A B} (m : St AgentService AgentWireError A) (f : A → St AgentService AgentWireError B) :
  governor_stays m → (∀ a, governor_stays (f a)) → governor_stays (m ≫= f).
Proof.
  intros Hm Hf s. specialize (Hm s). unfold mbind, St_bind. destruct (m s) as [[a|e] s1]; [|done].
  simpl in *. by rewrite Hf.
Qed.

Lemma write_graph_governor {A} (m : GM A) : governor_stays (write_graph m).
Proof. intros s. unfold write_graph. by destruct (m _) as [[? ?]|?]. Qed.

Lemma refresh_passes_governor fuel n : governor_stays (refresh_passes fuel n).
Proof.
  induction fuel as [|fuel IH]; simpl; [done|].
  apply governor_stays_bind; [apply write_graph_governor|intros v]. destruct (_ || _); [done|].
  apply governor_stays_bind; [apply write_graph_governor|intros p]. by destruct (_ && _).
Qed.

Lemma on_world_governor {A} (m : world → result AgentWireError A * world) : governor_stays (on_world m).
Proof. intros s. unfold on_world. by destruct (m _). Qed.

Lemma on_world_Ok {A} (m : world → result AgentWireError A * world) s a s' :
  on_world m s = (Ok a, s') → m (as_world s) = (Ok a, as_world s') ∧ as_governor s' = as_governor s.
Proof. unfold on_world. destruct (m (as_world s)) as [r w]. intros H. by simplify_eq/=. Qed.

(** A finished status tells how far the checkpoint is behind. *)
Lemma index_status_backlog opened s status s' :
  agent_ok s → index_status opened s = (Ok status, s') →
  s' = s ∧ ∃ row, active_row (as_world s) row ∧
    ix_backlog_mutations status = (high_water (as_graph s) - k_last_sequence row)%Z.
Proof.
  intros Hok H. pose proof (index_status_reads opened s) as Hs. rewrite H in Hs. simpl in Hs. split; [done|].
  clear Hs. apply Ag_bind_Ok in H as (reader & s1 & Hq & H).
  pose proof (query_state_reads opened s) as Hs1. rewrite Hq in Hs1. simpl in Hs1. subst s1. clear Hq.
  destruct (ao_opens _ Hok) as (row & i & Hrow & _). exists row. split; [done|].
  pose proof (ao_wf _ Hok) as [Hwf _].
  unfold index_status_from_state in H. apply Ag_bind_Ok in H as (durable & ? & Hd & H).
  unfold read_graph in Hd. rewrite latest_outbox_sequence_eq in Hd by done. injection Hd as <- <-.
  apply Ag_bind_Ok in H as (checkpoint & ? & Hc & H). unfold read_graph in Hc.
  rewrite projector_checkpoint_ok in Hc by done. unfold active_row in Hrow. unfold as_graph in Hc, Hwf |- *.
  change CATALOG_SCHEMA_ID with consumer_id in Hc. rewrite Hrow in Hc. injection Hc as <- <-.
  apply Ag_bind_Ok in H as (count & ? & _ & H). injection H as <- _. cbn.
  destruct (gw_consumer _ Hwf _ _ Hrow) as [? _]. unfold saturating_sub, as_graph. lia.
Qed.

(** The working part of a pass: refresh, run, new reader, status. *)
Lemma working_pass env fuel n o s status s' :
  (0 < po_rebuild_page_size o)%Z → agent_ok s →
  (refresh_passes fuel n ;;
   summary ← on_world (run_projection_with_retry (me_elapsed env) o);
   refresh_catalog_reader env (ps_index_generation summary) ;;
   index_status (me_opens env 1)) s = (Ok status, s') →
  as_governor s' = as_governor s ∧ (ix_backlog_mutations status = 0%Z → current s').
Proof.
  intros Hpage Hok H. apply Ag_bind_Ok in H as ([] & s1 & H1 & H).
  pose proof (refresh_passes_governor fuel n s) as Hg. rewrite H1 in Hg. simpl in Hg.
  apply refresh_passes_ok in H1; [|done]. apply Ag_bind_Ok in H as (sum & s2 & H2 & H).
  destruct (on_world_Ok _ _ _ _ H2) as [_ Hg2]. apply on_world_run_ok in H2 as (Hok2 & _ & Hat); [|done|done].
  specialize (Hat sum eq_refl). apply Ag_bind_Ok in H as ([] & s3 & H3 & H).
  apply Ag_bind_Ok in H3 as (reader & s2' & Hr & H3). injection H3 as <-.
  destruct (active_index_opens (as_world s2) _ (ao_wf _ Hok2) Hat) as (i & Hact & Hi).
  apply on_world_Ok in Hr as [Hr Hg3]. unfold active_reader in Hr. rewrite Hact in Hr.
  cbn in Hr. destruct (me_reader env); [|done]. cbn in Hr. injection Hr as <- Hw.
  set (s3 := set_catalog_reader _ s2') in H.
  assert (as_world s3 = as_world s2) as Hw3 by done.
  assert (agent_ok s3) as Hok3 by (by apply (agent_ok_world s2)).
  apply index_status_backlog in H as (-> & row & Hrow & Hb); [|done].
  split; [cbn; congruence|]. intros Hzero. rewrite Hw3 in Hrow. unfold as_graph in Hb. rewrite Hw3 in Hb.
  destruct (caught_up (as_world s2) row _ i (ao_wf _ Hok2) (ao_tracks _ Hok2) Hrow Hat Hi) as (idx & Hrep & Hm); [lia|].
  exists idx. split; [done|]. unfold as_graph. by rewrite Hw3.
Qed.

(** ** Properties *)


(** An opened agent. *)
Lemma open_inv env content projector workspace authorization w s w' :
  store_wf (w_graph w) → catalog_tracks w → active_opens w ∨ all_synced (w_graph w) →
  open_with_content env content projector workspace authorization w = (Ok s, w') →
  as_world s = w' ∧ agent_ok s ∧ only_checkpoint (w_graph w) (as_graph s) ∧ current s ∧
  opens_at (cs_generation (as_catalog_reader s)) w' ∧ as_authorization s = authorization.
Proof.
  intros Hwf Ht Hcan H. unfold open_with_content in H. destruct (map_err internal _); [|done].
  destruct (run_projection_with_retry _ _ w) as [[sum|e] w1] eqn:Hrun; [|done].
  apply retry_projection_inv in Hrun as (Hinv & _ & Hok); [|done..]. injection H as H <-.
  destruct (Hok sum eq_refl) as (row & Hrow & Hat & Hdone). clear Hok.
  unfold mbind, result_bind in H. cbn beta iota in H.
  destruct (ps_backlog_remaining sum); [done|]. specialize (Hdone eq_refl). cbn [ensure negb] in H.
  pose proof Hinv as (Hwf1 & Hoc & Ht1).
  destruct (active_index_opens w1 _ Hwf1 Hat) as (i & Hact & Hi). unfold active_reader in H. rewrite Hact in H.
  cbn in H. destruct (me_reader env); [|done]. cbn in H.
  destruct (match content with Some c => _ | None => _ end) as [creader|e]; [|done]. injection H as <-.
  destruct (caught_up w1 row _ i Hwf1 Ht1 Hrow Hat Hi Hdone) as (idx & Hrep & Hm).
  split; [done|]. split.
  { split; [done|done|]. destruct Hat as (row' & i' & ? & Hn & ?). exists row', i'. by rewrite Hn. }
  split; [done|]. split; [by exists idx|]. done.
Qed.

(** Opening: whatever the history of the database and of the generations, an agent that opens
    has a reader that holds exactly the desired catalog, of the generation the checkpoint names, so
    that queries are accepted at once; it has written nothing but its checkpoint. *)
Theorem open_serves_catalog env content projector workspace authorization w s w' :
  store_wf (w_graph w) → catalog_tracks w → active_opens w ∨ all_synced (w_graph w) →
  open_with_content env content projector workspace authorization w = (Ok s, w') →
  as_world s = w' ∧ agent_ok s ∧ only_checkpoint (w_graph w) (as_graph s) ∧ current s ∧
  query_state (Ok tt) s = (Ok (cs_reader (as_catalog_reader s)), s).
Proof.
  intros Hwf Ht Hcan H. destruct (open_inv _ _ _ _ _ _ _ _ Hwf Ht Hcan H) as (<- & Hok & Hoc & Hcur & Hat & _).
  split_and!; try done. destruct Hat as (row & i & Hrow & Hn & _).
  unfold query_state, mbind, St_bind, open_graph, st_lift, read_graph. simpl.
  rewrite projector_checkpoint_ok by apply Hok. change CATALOG_SCHEMA_ID with consumer_id.
  unfold active_row in Hrow. unfold as_graph. rewrite Hrow. simpl. unfold cached_reader. by rewrite decide_True.
Qed.

(** C6 (answers from the graph): let the database be well formed, the generation that the worker's
    checkpoint names (where it opens) be on track, and either that generation open or every desired row
    describe the graph as it is now when the agent is opened.  Then every hit of every catalog search
    that the agent answers after it was opened, whatever requests came before, shows a document the
    graph wants: the desired row of its identifier describes the document whose name, path and metadata
    the hit carries. *)
Theorem opened_agent_answers env content projector workspace authorization w s w' requests env' opens request answer :
  store_wf (w_graph w) → catalog_tracks w → active_opens w ∨ all_synced (w_graph w) →
  open_with_content env content projector workspace authorization w = (Ok s, w') →
  rs_result (dispatch_cancellable env' opens request (serve requests s)).1 = Some (RSearch answer) →
  Forall (hit_current (w_graph w')) (sr_hits answer).
Proof.
  intros Hwf Ht Hcan H Hres.
  destruct (open_inv _ _ _ _ _ _ _ _ Hwf Ht Hcan H) as (<- & _ & _ & (idx & Hrep & Hm) & _).
  apply search_answer in Hres as (search & _ & Hs). pose proof (serve_durable requests s) as Hd.
  unfold durable in Hd. injection Hd as _ Hr _ _. rewrite Hr in Hs. by eapply search_hits_current.
Qed.

(** C13 (grants): without the capability its operation needs a request is refused and changes
    nothing, whatever the state; a well-formed one with the code for a missing grant. *)
Theorem dispatch_needs_grant env opens request s c :
  required_capability (ar_operation request) = Some c → permits (as_authorization s) c = false →
  let '(response, s') := dispatch_cancellable env opens request s in
  s' = s ∧ rs_result response = None ∧
  ∃ e, rs_error response = Some e ∧
    (AgentRequest_validate request = Ok tt → ae_code e = CodeForbidden).
Proof.
  intros Hc Hp. unfold dispatch_cancellable. destruct (AgentRequest_validate request) as [[]|e] eqn:Hv.
  - assert (dispatch_request env opens (effective_deadline_ms request) (ar_operation request) s =
      (Err (wire_error CodeForbidden "client capability grant does not permit this method"), s)) as ->.
    { destruct (ar_operation request); simpl in Hc |- *; try discriminate Hc; injection Hc as <-; by rewrite require_bind, Hp. }
    split; [done|]. split; [done|]. by eexists.
  - split; [done|]. split; [done|]. eexists. by split.
Qed.
(** ** Paused passes *)

Lemma report_backlog_paused n (g : ResourceGovernor) :
  background_paused (get_indexing_budget (report_backlog n g)) = background_paused (get_indexing_budget g).
Proof.
  unfold report_backlog. destruct (bool_decide (n = 0%Z) && _) eqn:Hb; [|done].
  apply andb_true_iff in Hb as [_ Hm%bool_decide_eq_true]. cbn in Hm. unfold get_indexing_budget at 2. rewrite Hm.
  unfold transition, get_indexing_budget. destruct (decide _); cbn; by rewrite ?Hm.
Qed.

(** The governor hears of something that counts no window. *)
Definition hears (g g' : ResourceGovernor) : Prop := ∃ es, windows es = 0 ∧ g' = apply_reports es g.

Global Instance hears_preorder : PreOrder hears.
Proof.
  split; [by exists []|]. intros g1 g2 g3 (es & He & ->) (es' & He' & ->). exists (es ++ es').
  unfold windows, apply_reports in *. rewrite filter_app, length_app, foldl_app. split; [lia|done].
Qed.

Lemma hears_report e (g : ResourceGovernor) : counts_window e = false → hears g (apply_report e g).
Proof. intros He. exists [e]. split; [|done]. unfold windows. by rewrite filter_cons, He. Qed.

(** Operations that, while the governor pauses, tell it at most something that keeps it so. *)
Definition rests {A} (m : St AgentService AgentWireError A) : Prop :=
  ∀ s, paused s = true →
    durable (m s).2 = durable s ∧ paused (m s).2 = true ∧ hears (as_governor s) (as_governor (m s).2).

Lemma rests_bind {A B} (m : St AgentService AgentWireError A) (f : A → St AgentService AgentWireError B) :
  rests m → (∀ a, rests (f a)) → rests (m ≫= f).
Proof.
  intros Hm Hf s Hs. specialize (Hm s Hs). unfold mbind, St_bind. destruct (m s) as [[a|e] s1]; [|done].
  destruct Hm as (Hd & Hp & Hg). destruct (Hf a s1 Hp) as (Hd' & Hp' & Hg'). rewrite Hd'. split_and!; [done|done|].
  by etransitivity.
Qed.

Lemma reads_rest {A} (m : St AgentService AgentWireError A) : reads_only m → rests m.
Proof. intros Hm s Hs. by rewrite Hm. Qed.

Lemma maintain_projection_rests env : rests (maintain_projection_inner env false).
Proof.
  unfold maintain_projection_inner. do 4 (apply rests_bind; [by apply reads_rest|intros ?]).
  intros s Hs. unfold mbind, St_bind, with_governor, pass_decision. cbn zeta.
  set (g := report_backlog _ _).
  assert (background_paused (gd_budget (decision g)) = true) as Hg by (unfold g; etransitivity; [apply report_backlog_paused|exact Hs]).
  rewrite Hg, index_status_reads. split_and!; [done|done|]. by apply (hears_report (ReportBacklog _)).
Qed.

Lemma maintain_all_rests env : rests (maintain_all_projections_scheduled env).
Proof.
  apply rests_bind; [apply maintain_projection_rests|intros status]. apply rests_bind; [|intros _].
  { intros s Hs. unfold maintain_content_projection_scheduled. destruct (as_content_projector s); [|done].
    unfold paused in Hs. cbn zeta. rewrite Hs. by split_and!. }
  apply rests_bind; [|intros _; by apply reads_rest]. intros s Hs.
  unfold maintain_graph_storage_scheduled, governor_decision, mbind, St_bind, with_governor.
  unfold paused in Hs. rewrite Hs. by split_and!.
Qed.

(** Requests tell the governor of themselves, and of their latency. *)
Lemma dispatch_hears env opens request s :
  hears (as_governor s) (as_governor (dispatch_cancellable env opens request s).2).
Proof.
  unfold dispatch_cancellable. destruct (AgentRequest_validate request); [|done].
  assert (hears (as_governor s) (as_governor
    (dispatch_request env opens (effective_deadline_ms request) (ar_operation request) s).2)) as Hh.
  2:{ by destruct (dispatch_request _ _ _ _ s) as [[payload|e] s1]. }
  assert (∀ A B c (m : St AgentService AgentWireError A) (f : A → B), hears (as_governor s) (as_governor (m s).2) →
    hears (as_governor s) (as_governor ((require c ;; f <$> m) s).2)) as Hreq.
  { intros A B c m f Hm. rewrite require_bind. by destruct (permits _ _). }
  destruct (ar_operation request); simpl; try apply Hreq; try done.
  - unfold catalog_search, search_impl. destruct (search_ranked _ _ _ _ _) as [[ranked n]|e]; simpl.
    + etransitivity; [by apply (hears_report BeginInteractiveRequest)|]. by apply (hears_report (ReportSearchLatency _)).
    + by apply (hears_report BeginInteractiveRequest).
  - unfold content_search_impl. destruct (check_request _ _ _) as [[[] n]|e]; [|done].
    destruct (as_content_reader s); [|done]. by destruct (content_search _ _ _ _).
  - by rewrite get_item_reads.
  - by rewrite get_items_reads.
  - by rewrite index_status_reads.
Qed.

Lemma failing_backlog opened (a : AgentService) e :
  as_content_projector a = true → content_backlog (as_graph a) (as_workspace a) = Err e →
  ∃ e', (projection_backlog opened a).1 = Err e'.
Proof.
  intros Hp Hb. unfold projection_backlog, mbind, St_bind, open_graph, st_lift.
  destruct (map_err internal opened); [|by eexists]. unfold read_graph. cbn.
  destruct (map_err internal (latest_outbox_sequence _)); [|by eexists]. cbn.
  destruct (map_err internal (projector_checkpoint _ _)); [|by eexists]. cbn.
  unfold projector_backlog. rewrite Hp, Hb. by eexists.
Qed.

(** ** Content hits *)

(** The document the graph wants under an identifier now. *)
Definition current_document g (candidate : CatalogDocument) : option CatalogDocument :=
  match desired_catalog_document g (ci_document_id (cd_identity candidate)) with
  | Ok document => document
  | Err _ => None
  end.

Definition numbered (documents : list CatalogDocument) : list ContentSearchHit :=
  imap (λ k doc, MkContentSearchHit (item_from_document doc) (Z.min (Z.of_nat k + 1) u32_max)) documents.

Lemma content_hits_spec env deadline g candidates docs n hits n' :
  content_hits env deadline g candidates (numbered docs) n = Ok (hits, n') →
  hits = numbered (docs ++ omap (current_document g) candidates) ∧
  Forall (λ c, is_ok (desired_catalog_document g (ci_document_id (cd_identity c))) = true) candidates.
Proof.
  revert docs n. induction candidates as [|c candidates IH]; intros docs n H; simpl in H.
  { injection H as <- _. by rewrite app_nil_r. }
  minv.
  match goal with H : map_err _ _ = Ok _ |- _ => apply map_err_Ok in H as Hc end.
  cbn [omap list_omap]. unfold current_document at 1. rewrite Hc. destruct x0 as [doc|].
  - match goal with H : content_hits _ _ _ _ _ _ = Ok _ |- _ => rename H into Hgo end.
    replace (_ ++ _) with (numbered (docs ++ [doc])) in Hgo.
    2:{ unfold numbered. rewrite imap_app. simpl. by rewrite length_imap, Nat.add_0_r. }
    apply IH in Hgo as [-> Hall]. rewrite <-app_assoc. split; [done|]. constructor; [by rewrite Hc|done].
  - match goal with H : content_hits _ _ _ _ _ _ = Ok _ |- _ => apply IH in H as [-> Hall] end.
    split; [done|]. constructor; [by rewrite Hc|done].
Qed.
End spec.

(** ** A concrete agent *)

(** A content side that knows some documents and acknowledges whatever the outbox holds. *)
Global Instance list_content : ContentPort := {|
  ContentError := unit;
  ContentReader := unit;
  ContentWorkspace := list CatalogDocument;
  ContentSummary := unit;
  content_search documents reader query limit := (Ok (take (Z.to_nat limit) documents), reader);
  content_project batch batches g c :=
    match latest_outbox_sequence g with
    | Ok last =>
        match acknowledge_projection CONTENT_SCHEMA_ID last 1 g with
        | Ok (_, g') => (Ok tt, g', c)
        | Err _ => (Err tt, g, c)
        end
    | Err _ => (Err tt, g, c)
    end;
  content_backlog g c :=
    match latest_outbox_sequence g, projector_checkpoint g CONTENT_SCHEMA_ID with
    | Ok last, Ok (Some checkpoint) => Ok (saturating_sub last (pj_last_sequence checkpoint))
    | _, _ => Err tt
    end |}.

Global Instance list_content_laws : ContentLaws.
Proof.
  split. intros batch batches g c r g' c' Hwf H. cbn [content_project list_content] in H.
  rewrite latest_outbox_sequence_eq in H by apply Hwf.
  destruct (acknowledge_projection _ _ _ g) as [[[] g1]|e] eqn:Hack; simplify_eq; [|done].
  apply rtc_once, (ack_step (high_water g) 1); [|unfold in_u64, u64_max; lia|done].
  pose proof (gw_high_water _ (proj1 Hwf)). unfold in_u64, u64_max, i64_max in *. lia.
Qed.

Definition calm_env : maintenance_env := MkMaintenanceEnv (λ _, Ok tt) (Ok tt) (Ok tt) (λ _ _, 0%Z).

(** The agent over the sample volume. *)
Definition opened_content : option (result ContentError ContentReader) :=
  Some (@Ok ContentError ContentReader tt).
Definition no_files : ContentWorkspace := [].
Definition sample_open : result AgentWireError AgentService * world :=
  open_with_content calm_env opened_content true no_files v0_2_with_content fresh_world.

Lemma sample_opens : ∃ s w', sample_open = (Ok s, w').
Proof.
  assert (is_ok sample_open.1 = true) as H by (vm_compute; reflexivity).
  destruct sample_open as [[s|e] w']; [by exists s, w'|done].
Qed.

Lemma open_serves_catalog_witness :
  ∃ s w', sample_open = (Ok s, w') ∧ agent_ok s ∧ current s.
Proof.
  destruct sample_opens as (s & w' & H). exists s, w'. split; [exact H|].
  destruct (open_serves_catalog calm_env opened_content true no_files v0_2_with_content fresh_world s w')
    as (_ & Hok & _ & Hcur & _).
  - apply sample_db_wf.
  - apply fresh_world_tracks.
  - right. apply fresh_world_synced.
  - exact H.
  - split; [exact Hok|exact Hcur].
Defined.

Definition search_for (query : string) : AgentRequest :=
  MkAgentRequest AGENT_API_VERSION AGENT_CODEC_VERSION "request-1" 0
    (CatalogSearch (MkSearchRequest query ScopeAll (MkSearchFilter [] None None None) 10)).

Definition sample_answer (s : AgentService) : option SearchResponse :=
  match rs_result (dispatch_cancellable sample_env (λ _, Ok tt) (search_for "a.txt") s).1 with
  | Some (RSearch answer) => Some answer
  | _ => None
  end.

Lemma sample_answer_result s answer :
  sample_answer s = Some answer →
  rs_result (dispatch_cancellable sample_env (λ _, Ok tt) (search_for "a.txt") s).1 = Some (RSearch answer).
Proof.
  unfold sample_answer. set (x := rs_result _). clearbody x.
  destruct x as [[found| | | | | |]|]; try discriminate. by intros [= ->].
Qed.

Lemma sample_answers s w' :
  sample_open = (Ok s, w') → ∃ answer, sample_answer s = Some answer ∧ sh_name <$> sr_hits answer = ["a.TXT"].
Proof.
  intros H. assert (match sample_open with
    | (Ok s, _) => ((λ a, sh_name <$> sr_hits a) <$> sample_answer s) = Some ["a.TXT"]
    | _ => False end) as Hans by (vm_compute; reflexivity).
  rewrite H in Hans. apply fmap_Some in Hans as (answer & Ha & Hn). exists answer. split; [exact Ha|]. by symmetry.
Qed.

Lemma opened_agent_answers_witness :
  ∃ s w' answer, sample_open = (Ok s, w') ∧
    rs_result (dispatch_cancellable sample_env (λ _, Ok tt) (search_for "a.txt") s).1 = Some (RSearch answer) ∧
    sh_name <$> sr_hits answer = ["a.TXT"] ∧ Forall (hit_current (w_graph w')) (sr_hits answer).
Proof.
  destruct sample_opens as (s & w' & H). destruct (sample_answers s w' H) as (answer & Hres%sample_answer_result & Hn).
  exists s, w', answer. split; [exact H|]. split; [exact Hres|]. split; [exact Hn|].
  apply (opened_agent_answers calm_env opened_content true no_files v0_2_with_content fresh_world s w' []
    sample_env (λ _, Ok tt) (search_for "a.txt") answer).
  - apply sample_db_wf.
  - apply fresh_world_tracks.
  - right. apply fresh_world_synced.
  - exact H.
  - exact Hres.
Defined.

Definition metadata_agent (s : AgentService) : AgentService :=
  MkAgentService (as_world s) (as_governor s) (as_catalog_reader s) (as_content_reader s)
    (as_content_projector s) (as_workspace s) v0_1_metadata.

Definition content_request : AgentRequest :=
  MkAgentRequest AGENT_API_VERSION AGENT_CODEC_VERSION "request-2" 0 (ContentSearch "report" 5).

Lemma dispatch_needs_grant_witness :
  ∃ s e, (dispatch_cancellable sample_env (λ _, Ok tt) content_request (metadata_agent s)).2 = metadata_agent s ∧
    rs_error (dispatch_cancellable sample_env (λ _, Ok tt) content_request (metadata_agent s)).1 = Some e ∧
    ae_code e = CodeForbidden.
Proof.
  destruct sample_opens as (s & w' & H). exists s.
  pose proof (dispatch_needs_grant sample_env (λ _, Ok tt) content_request (metadata_agent s) CapSearchContent
    eq_refl eq_refl) as Hg.
  destruct (dispatch_cancellable _ _ _ _) as [response s']. destruct Hg as (-> & _ & e & He & Hcode).
  exists e. split; [reflexivity|]. split; [exact He|]. apply Hcode. vm_compute. reflexivity.
Defined.

(** The sample agent after a rename was observed. *)
Lemma renamed_agent s w' : sample_open = (Ok s, w') →
  agent_ok s → agent_ok (write_graph (apply_batch sample_rename) s).2.
Proof.
  intros _ Hok. destruct (write_graph (apply_batch sample_rename) s) as [r s1] eqn:H.
  eapply (write_graph_ok _ (OpApplyBatch sample_rename)); [exact sample_rename_typed|done|done|exact Hok|exact H].
Qed.

Lemma outcome_Ok {A} (x : result AgentWireError A * AgentService) (P : A → AgentService → Prop) :
  match x with (Ok a, s) => P a s | _ => False end → ∃ a s, x = (Ok a, s) ∧ P a s.
Proof. destruct x as [[a|e] s]; [|done]. by exists a, s. Qed.

