(* ===== verification/ContentAgent.v ===== *)
(** The content side of the agent, as the content index provides it: the interface [ContentPort] that
    the agent's theorems are stated against, filled with the reader, the projection worker and the
    backlog of [crates/content-index/src/lib.rs], and its law. *)
From stdpp Require Import base strings numbers gmap list relations.
From S2P Require Import Prelude Models GraphDomain GraphTables GraphOutbox GraphInvariant.
From S2P Require Import Text Catalog Content DurableJson Generations Agent AgentSpec.
From S2P Require ContentProject ContentProjectSpec.
Import ContentProject (MkPstate, ps_graph, ps_files, MkContentProjectionOptions).

Section port.
Context `{TV : Tantivy} `{T : TextEnv} `{CE : !ContentEnv} `{!StoreLaws E} `{TL : !TantivyLaws}.
Context `{J : JsonEnv} `{RC : !JsonCodec ContentGenerationRecord} `{PC : !JsonCodec ActiveGenerationPointer}.
(** What the operating system answers, the policy of the workspace, and how opening the graph ends. *)
Context (env : GenEnv) (policy : ContentIndexPolicy) (opened : result GraphError unit).

Definition workspace_content : ContentPort := {|
  Agent.ContentError := ContentIndexError;
  Agent.ContentReader := ContentProject.ContentReader;
  ContentWorkspace := gstate;
  ContentSummary := ContentProject.DurableContentProjectionSummary;
  content_search c reader query lim := ContentProject.reader_search (gs_root c) reader query lim;
  content_project batch batches g c :=
    let '(r, s) := ContentProject.project env opened policy (MkContentProjectionOptions batch batches) (MkPstate g c) in
    (r, ps_graph s, ps_files s);
  content_backlog g c := ContentProject.content_backlog_of g |}.

(** The promise the agent relies on. *)
Lemma workspace_content_laws : @ContentLaws E workspace_content.
Proof.
  split. intros batch batches g c r g' c' _ H. cbn [content_project workspace_content] in H.
  pose proof (ContentProjectSpec.project_only_acknowledges env opened policy
    (MkContentProjectionOptions batch batches) (MkPstate g c)) as Hacks.
  destruct (ContentProject.project _ _ _ _ _) as [q s]. injection H as _ <- _. simpl in Hacks.
  eapply rtc_subrel; [|exact Hacks]. intros a b (last & gen & Hl & Hg & Hack).
  exact (ack_step last gen a b Hl Hg Hack).
Qed.
End port.
