(* ===== verification/Usn.v ===== *)
(** USN journal records of the Windows provider ([crates/windows-fs/src/record.rs]): decoding the
    variable-length records of a page that comes from the operating system.

    A byte is N below 256, a buffer a list of bytes.  Slicing out of range is a panic in the source
    and the error [Panic] here; lengths fit the address space, so [checked_add] never fails. *)
From Stdlib Require Import String.
From stdpp Require Import base strings numbers list.
From S2P Require Import Prelude Ids Frames.

Definition V2_FIXED_BYTES : nat := 60.
Definition MAX_RECORD_BYTES : N := 1048576.

Inductive DecodeError :=
| Malformed (detail : string)
| UnsupportedRecord
| Panic
| OutOfFuel.

Record SanitizedUsnRecord := MkSanitizedUsnRecord {
  ur_file_reference : N;               (* u64 *)
  ur_parent_reference : N;             (* u64 *)
  ur_position : Z;                     (* i64 *)
  ur_reason : N;                       (* u32 *)
  ur_attributes : N;                   (* u32 *)
  ur_name : list N;                    (* Unicode scalar values *)
  ur_had_invalid_utf16 : bool }.

(** ** Fields *)

(** [bytes]: a range of the input, or an error. *)
Definition field (input : list N) (offset len : nat) : result DecodeError (list N) :=
  if offset + len <=? length input then Ok (take len (drop offset input))
  else Err (Malformed "field outside input").

Definition read_unsigned (width : nat) (input : list N) (offset : nat) : result DecodeError N :=
  from_le_bytes <$> field input offset width.
Definition read_u16 := read_unsigned 2.
Definition read_u32 := read_unsigned 4.
Definition read_u64 := read_unsigned 8.

(** Two's complement. *)
Definition i64_of_u64 (v : N) : Z :=
  if (v <? 2 ^ 63)%N then Z.of_N v else (Z.of_N v - 2 ^ 64)%Z.
Definition read_i64 (input : list N) (offset : nat) : result DecodeError Z :=
  i64_of_u64 <$> read_u64 input offset.

(** [input[a..b]]. *)
Definition slice (input : list N) (a b : nat) : result DecodeError (list N) :=
  if (a <=? b) && (b <=? length input) then Ok (take (b - a) (drop a input)) else Err Panic.

(** ** UTF-16 *)

(** [chunks_exact(2)] of little-endian code units. *)
Fixpoint code_units (bytes : list N) : list N :=
  match bytes with
  | b0 :: b1 :: bytes => from_le_bytes [b0; b1] :: code_units bytes
  | _ => []
  end.

Definition is_surrogate (u : N) : bool := ((0xd800 <=? u) && (u <=? 0xdfff))%N.
Definition is_low_surrogate (u : N) : bool := ((0xdc00 <=? u) && (u <=? 0xdfff))%N.

(** [char::decode_utf16]: characters, or the unpaired surrogate. *)
Fixpoint decode_utf16 (units : list N) : list (N + N) :=
  match units with
  | [] => []
  | u :: units =>
      if negb (is_surrogate u) then inl u :: decode_utf16 units
      else if is_low_surrogate u then inr u :: decode_utf16 units
      else
        match units with
        | [] => [inr u]
        | u2 :: rest =>
            if is_low_surrogate u2
            then inl (0x10000 + N.shiftl (N.land u 0x3ff) 10 + N.land u2 0x3ff)%N :: decode_utf16 rest
            else inr u :: decode_utf16 units
        end
  end.

(** [String::from_utf16_lossy]. *)
Definition from_utf16_lossy (units : list N) : list N :=
  (λ c, match c with inl c => c | inr _ => 0xfffd%N end) <$> decode_utf16 units.

Definition had_errors (units : list N) : bool :=
  existsb (λ c, match c with inl _ => false | inr _ => true end) (decode_utf16 units).

(** ** Records and pages *)

Definition decode_v2 (input : list N) : result DecodeError (SanitizedUsnRecord * nat) :=
  declared ← read_u32 input 0;
  let len := N.to_nat declared in
  ensure (negb ((len <? V2_FIXED_BYTES) || (MAX_RECORD_BYTES <? declared)%N
                || (length input <? len) || negb (len mod 8 =? 0)))
    (Malformed "invalid, truncated, oversized, or misaligned record length") ;;
  version ← read_u16 input 4;
  ensure (version =? 2)%N UnsupportedRecord ;;
  raw_len ← read_u16 input 56;
  raw_offset ← read_u16 input 58;
  let name_len := N.to_nat raw_len in
  let name_offset := N.to_nat raw_offset in
  ensure (negb (negb (name_len mod 2 =? 0) || (name_offset <? V2_FIXED_BYTES)
                || (len <? name_offset + name_len)))
    (Malformed "filename range is outside the record") ;;
  name_bytes ← slice input name_offset (name_offset + name_len);
  let units := code_units name_bytes in
  file_reference ← read_u64 input 8;
  parent_reference ← read_u64 input 16;
  position ← read_i64 input 24;
  reason ← read_u32 input 40;
  attributes ← read_u32 input 52;
  mret (MkSanitizedUsnRecord file_reference parent_reference position reason attributes
          (from_utf16_lossy units) (had_errors units), len).

(** The loop of [decode_page]. *)
Fixpoint decode_records (fuel : nat) (input : list N) (offset : nat)
  : result DecodeError (list SanitizedUsnRecord) :=
  match fuel with
  | O => Err OutOfFuel
  | S fuel =>
      if offset <? length input then
        rest ← slice input offset (length input);
        '(record, consumed) ← decode_v2 rest;
        records ← decode_records fuel input (offset + consumed);
        mret (record :: records)
      else Ok []
  end.

(** Every record takes at least 60 bytes, so one step per byte is more than enough. *)
Definition decode_page (input : list N) : result DecodeError (Z * list SanitizedUsnRecord) :=
  next_position ← read_i64 input 0;
  records ← decode_records (S (length input)) input 8;
  mret (next_position, records).

(** ** Hostile input *)

Definition safe {A} (r : result DecodeError A) : Prop := r ≠ Err Panic ∧ r ≠ Err OutOfFuel.

Lemma safe_bind {A B} (r : result DecodeError A) (f : A → result DecodeError B) :
  safe r → (∀ a, r = Ok a → safe (f a)) → safe (r ≫= f).
Proof.
  intros [H1 H2] Hf. destruct r as [a|e]; [by apply Hf|]. split; simpl; congruence.
Qed.

Lemma safe_Ok {A} (a : A) : safe (Ok a).
Proof. done. Qed.

Lemma safe_ensure b e : e ≠ Panic → e ≠ OutOfFuel → safe (ensure b e).
Proof. intros. destruct b; split; simpl; congruence. Qed.

Lemma safe_read width input offset : safe (read_unsigned width input offset).
Proof. unfold read_unsigned, field. by destruct (offset + width <=? length input). Qed.

Lemma safe_read_i64 input offset : safe (read_i64 input offset).
Proof.
  unfold read_i64, read_u64, read_unsigned, field. by destruct (offset + 8 <=? length input).
Qed.

Create HintDb usn.
#[export] Hint Resolve safe_Ok safe_read safe_read_i64 : usn.

Lemma decode_v2_safe input : safe (decode_v2 input).
Proof.
  unfold decode_v2, read_u16, read_u32, read_u64. apply safe_bind; [auto with usn|].
  intros declared _. apply safe_bind; [by apply safe_ensure|]. intros [] Hlen%ensure_Ok.
  apply safe_bind; [auto with usn|]. intros version _.
  apply safe_bind; [by apply safe_ensure|]. intros [] _.
  apply safe_bind; [auto with usn|]. intros raw_len _.
  apply safe_bind; [auto with usn|]. intros raw_offset _.
  apply safe_bind; [by apply safe_ensure|]. intros [] Hname%ensure_Ok.
  destruct Hlen as [(((_ & _)%orb_false_iff & Hin%Nat.ltb_ge)%orb_false_iff & _)%negb_true_iff%orb_false_iff _].
  destruct Hname as [((_ & _)%orb_false_iff & Hend%Nat.ltb_ge)%negb_true_iff%orb_false_iff _].
  apply safe_bind.
  { unfold slice. rewrite (proj2 (Nat.leb_le _ _)), (proj2 (Nat.leb_le _ _)) by lia. apply safe_Ok. }
  intros name _. repeat (apply safe_bind; [auto with usn|intros ? _]). apply safe_Ok.
Qed.

(** A decoded record stays inside the input and makes progress. *)
Lemma decode_v2_bounds input r n :
  decode_v2 input = Ok (r, n) → V2_FIXED_BYTES ≤ n ≤ length input ∧ n mod 8 = 0.
Proof.
  unfold decode_v2. intros (declared & _ & H)%result_bind_Ok.
  apply ensure_bind in H as [Hlen H].
  apply negb_true_iff, orb_false_iff in Hlen as [Hlen H8].
  apply orb_false_iff in Hlen as [Hlen Hin%Nat.ltb_ge]. apply orb_false_iff in Hlen as [Hmin%Nat.ltb_ge _].
  apply negb_false_iff, Nat.eqb_eq in H8.
  repeat (apply result_bind_Ok in H as (? & _ & H)). injection H as _ <-. done.
Qed.

(** ** Sanitised records *)

(** Unicode scalar values. *)
Definition is_scalar (c : N) : Prop := (c < 0x110000)%N ∧ is_surrogate c = false.

Record record_sanitized (r : SanitizedUsnRecord) : Prop := {
  rs_file : (ur_file_reference r < 2 ^ 64)%N;
  rs_parent : (ur_parent_reference r < 2 ^ 64)%N;
  rs_position : in_i64 (ur_position r);
  rs_reason : (ur_reason r < 2 ^ 32)%N;
  rs_attributes : (ur_attributes r < 2 ^ 32)%N;
  rs_name : Forall is_scalar (ur_name r) }.

Lemma is_surrogate_spec u : reflect (0xd800 ≤ u ≤ 0xdfff)%N (is_surrogate u).
Proof.
  unfold is_surrogate. apply iff_reflect. rewrite andb_true_iff, !N.leb_le. done.
Qed.

Lemma is_low_surrogate_spec u : reflect (0xdc00 ≤ u ≤ 0xdfff)%N (is_low_surrogate u).
Proof.
  unfold is_low_surrogate. apply iff_reflect. rewrite andb_true_iff, !N.leb_le. done.
Qed.

(** The ten payload bits of a surrogate. *)
Lemma land_3ff u : N.land u 0x3ff = (u mod 1024)%N.
Proof. change 0x3ff%N with (N.ones 10). apply N.land_ones. Qed.

Lemma surrogate_pair_scalar a b :
  is_scalar (0x10000 + N.shiftl (N.land a 0x3ff) 10 + N.land b 0x3ff)%N.
Proof.
  rewrite !land_3ff, N.shiftl_mul_pow2. change (2 ^ 10)%N with 1024%N.
  pose proof (N.mod_lt a 1024 ltac:(lia)). pose proof (N.mod_lt b 1024 ltac:(lia)).
  revert H H0. generalize (a `mod` 1024)%N (b `mod` 1024)%N. intros x y Hx Hy. split; [lia|].
  destruct (is_surrogate_spec (0x10000 + x * 1024 + y)); [lia|done].
Qed.

Lemma unit_scalar u : (u < 0x10000)%N → is_surrogate u = false → is_scalar u.
Proof. intros Hu Hs. split; [lia|done]. Qed.

(** What [decode_utf16] yields for any code units. *)
Lemma decode_utf16_scalar units :
  Forall (λ u, (u < 0x10000)%N) units →
  Forall (λ c, match c with inl c => is_scalar c | inr u => is_surrogate u = true end) (decode_utf16 units).
Proof.
  induction units as [units IH] using (induction_ltof1 _ (@length N)); unfold ltof in IH.
  destruct units as [|u units]; intros Hu; [constructor|].
  apply Forall_cons in Hu as [Hu Hunits]. cbn [decode_utf16].
  destruct (is_surrogate u) eqn:Hs; cbn [negb].
  2: { constructor; [by apply unit_scalar|]. apply IH; [simpl; lia|done]. }
  destruct (is_low_surrogate u). { constructor; [done|]. apply IH; [simpl; lia|done]. }
  destruct units as [|u2 rest]; [by repeat constructor|].
  destruct (is_low_surrogate u2); constructor.
  - apply surrogate_pair_scalar.
  - apply IH; [simpl; lia|]. by apply Forall_cons in Hunits as [_ ?].
  - done.
  - apply IH; [simpl; lia|done].
Qed.

Lemma from_utf16_lossy_scalar units :
  Forall (λ u, (u < 0x10000)%N) units → Forall is_scalar (from_utf16_lossy units).
Proof.
  intros H%decode_utf16_scalar. unfold from_utf16_lossy. apply Forall_fmap.
  eapply Forall_impl; [exact H|]. by intros [c|u]; simpl.
Qed.

Lemma from_le_bytes_bound l : bytes_ok l → (from_le_bytes l < 256 ^ N.of_nat (length l))%N.
Proof.
  intros Hl. unfold from_le_bytes. rewrite <-length_reverse. by apply from_be_bytes_bound, Forall_reverse.
Qed.

Lemma code_units_bound bytes :
  bytes_ok bytes → Forall (λ u, (u < 0x10000)%N) (code_units bytes).
Proof.
  induction bytes as [bytes IH] using (induction_ltof1 _ (@length N)); unfold ltof in IH.
  destruct bytes as [|b0 [|b1 bytes]]; intros Hb; try constructor.
  - apply (from_le_bytes_bound [b0; b1]). by apply (Forall_take _ 2) in Hb.
  - apply IH; [simpl; lia|]. by apply (Forall_drop _ 2) in Hb.
Qed.

Lemma result_fmap_Ok {E A B} (f : A → B) (r : result E A) b : f <$> r = Ok b ↔ ∃ a, r = Ok a ∧ f a = b.
Proof. destruct r; simpl; naive_solver. Qed.

Lemma field_bytes input offset len l :
  bytes_ok input → field input offset len = Ok l → bytes_ok l ∧ length l = len.
Proof.
  unfold field. intros Hin H. destruct (Nat.leb_spec (offset + len) (length input)); simplify_eq.
  split; [by apply Forall_take, Forall_drop|]. rewrite length_take, length_drop. lia.
Qed.

Lemma read_bound width input offset v :
  bytes_ok input → read_unsigned width input offset = Ok v → (v < 256 ^ N.of_nat width)%N.
Proof.
  intros Hin (l & Hl & <-)%result_fmap_Ok. eapply field_bytes in Hl as [Hb <-]; [|done].
  by apply from_le_bytes_bound.
Qed.

Lemma i64_of_u64_range v : (v < 2 ^ 64)%N → in_i64 (i64_of_u64 v).
Proof.
  unfold i64_of_u64, in_i64, i64_min, i64_max. intros Hv. destruct (N.ltb_spec v (2 ^ 63)); lia.
Qed.

Lemma read_i64_range input offset v : bytes_ok input → read_i64 input offset = Ok v → in_i64 v.
Proof.
  intros Hin H. unfold read_i64 in H. apply result_fmap_Ok in H as (u & Hu%read_bound & <-); [|done].
  by apply i64_of_u64_range.
Qed.

Lemma slice_bytes input a b l :
  bytes_ok input → slice input a b = Ok l → bytes_ok l.
Proof.
  unfold slice. intros Hin H. destruct ((a <=? b) && (b <=? length input)); simplify_eq.
  by apply Forall_take, Forall_drop.
Qed.

Lemma decode_v2_sanitized input r n :
  bytes_ok input → decode_v2 input = Ok (r, n) → record_sanitized r.
Proof.
  unfold decode_v2. intros Hin H.
  apply result_bind_Ok in H as (declared & _ & H). apply ensure_bind in H as [_ H].
  apply result_bind_Ok in H as (version & _ & H). apply ensure_bind in H as [_ H].
  do 2 apply result_bind_Ok in H as (? & _ & H). apply ensure_bind in H as [_ H].
  apply result_bind_Ok in H as (name & Hname%slice_bytes & H); [|done].
  apply result_bind_Ok in H as (fref & Hf%read_bound & H); [|done].
  apply result_bind_Ok in H as (pref & Hp%read_bound & H); [|done].
  apply result_bind_Ok in H as (pos & Hpos%read_i64_range & H); [|done].
  apply result_bind_Ok in H as (reason & Hr%read_bound & H); [|done].
  apply result_bind_Ok in H as (attrs & Ha%read_bound & H); [|done].
  injection H as <- _. split; [done..|].
  by apply from_utf16_lossy_scalar, code_units_bound.
Qed.

Lemma slice_to_end input offset :
  offset ≤ length input → slice input offset (length input) = Ok (drop offset input).
Proof.
  intros Ho. unfold slice. rewrite (proj2 (Nat.leb_le _ _)), (proj2 (Nat.leb_le _ _)) by lia.
  simpl. by rewrite take_ge by (rewrite length_drop; lia).
Qed.

(** The loop returns within its fuel: each record moves the offset forward. *)
Lemma decode_records_safe fuel input offset :
  length input ≤ offset + fuel → safe (decode_records (S fuel) input offset).
Proof.
  revert offset. induction fuel as [|fuel IH]; intros offset Hfuel; cbn [decode_records];
    (destruct (Nat.ltb_spec offset (length input)) as [Ho|]; [|done]); [lia|].
  rewrite slice_to_end by lia. apply safe_bind; [done|]. intros rest [= <-].
  apply safe_bind; [apply decode_v2_safe|]. intros [record consumed] [Hbounds _]%decode_v2_bounds.
  unfold V2_FIXED_BYTES in Hbounds. rewrite length_drop in Hbounds.
  apply safe_bind; [apply IH; lia|]. done.
Qed.

(** Reading and slicing see only the bytes in front of their end. *)
Lemma read_take width input offset n :
  offset + width ≤ n → n ≤ length input →
  read_unsigned width (take n input) offset = read_unsigned width input offset.
Proof.
  intros Hn Hlen. unfold read_unsigned, field. rewrite length_take, Nat.min_l by done.
  rewrite !(proj2 (Nat.leb_le _ _)) by lia. by rewrite skipn_firstn_comm, take_take, Nat.min_l by lia.
Qed.

Lemma slice_take input a b n :
  a ≤ b → b ≤ n → n ≤ length input → slice (take n input) a b = slice input a b.
Proof.
  intros Hab Hbn Hlen. unfold slice. rewrite length_take, Nat.min_l by done.
  rewrite !(proj2 (Nat.leb_le _ _)) by lia. simpl. by rewrite skipn_firstn_comm, take_take, Nat.min_l by lia.
Qed.

(** A record is decoded from the bytes of its declared length alone. *)
Lemma decode_v2_local input r n :
  decode_v2 input = Ok (r, n) →
  decode_v2 (take n input) = Ok (r, n) ∧ read_u32 input 0 = Ok (N.of_nat n).
Proof.
  intros H. pose proof (decode_v2_bounds _ _ _ H) as [[Hmin Hin] H8]. unfold V2_FIXED_BYTES in Hmin.
  revert H. unfold decode_v2, read_i64, read_u16, read_u32, read_u64. rewrite !read_take by lia.
  destruct (read_unsigned 4 input 0) as [declared|] eqn:Hd; [|done]. cbn [mbind result_bind].
  rewrite length_take, Nat.min_l by done. intros H. apply ensure_bind in H as [Hlen H].
  assert (n = N.to_nat declared) as ->.
  { repeat (apply result_bind_Ok in H as (? & _ & H)). by injection H. }
  apply negb_true_iff, orb_false_iff in Hlen as [Hlen _].
  apply orb_false_iff in Hlen as [Hlen _]. apply orb_false_iff in Hlen as [_ Hmax].
  split; [|by rewrite N2Nat.id].
  rewrite (proj2 (Nat.ltb_ge _ V2_FIXED_BYTES)), Hmax, Nat.ltb_irrefl, H8 by done.
  cbn [orb negb Nat.eqb ensure mbind result_bind].
  destruct (read_unsigned 2 input 4) as [version|]; [|done]. cbn [mbind result_bind] in *.
  destruct (ensure (version =? 2)%N UnsupportedRecord) as [[]|]; [|done]. cbn [mbind result_bind] in *.
  destruct (read_unsigned 2 input 56) as [raw_len|]; [|done]. cbn [mbind result_bind] in *.
  destruct (read_unsigned 2 input 58) as [raw_offset|]; [|done]. cbn [mbind result_bind] in *.
  apply ensure_bind in H as [Hname H]. rewrite Hname. cbn [ensure mbind result_bind].
  apply negb_true_iff, orb_false_iff in Hname as [_ Hend%Nat.ltb_ge].
  by rewrite slice_take by lia.
Qed.

(** A chunk of the page that holds one record: its own first four bytes declare its length, it is a
    multiple of eight and at least sixty bytes long, and [r] is what it decodes to without a look at
    the bytes around it. *)
Record record_chunk (chunk : list N) (r : SanitizedUsnRecord) : Prop := {
  rc_declared : read_u32 chunk 0 = Ok (N.of_nat (length chunk));
  rc_min : V2_FIXED_BYTES ≤ length chunk;
  rc_aligned : length chunk mod 8 = 0;
  rc_decoded : decode_v2 chunk = Ok (r, length chunk) }.

Lemma decode_v2_chunk input r n : decode_v2 input = Ok (r, n) → record_chunk (take n input) r.
Proof.
  intros H. pose proof (decode_v2_bounds _ _ _ H) as [[Hmin Hin] H8].
  apply decode_v2_local in H as [Hdec Hlen]. assert (length (take n input) = n) as Hn.
  { rewrite length_take. lia. }
  split; rewrite ?Hn; [|done..]. unfold V2_FIXED_BYTES in Hmin. unfold read_u32. by rewrite read_take by lia.
Qed.

(** The decoded records tile the rest of the page. *)
Lemma decode_records_tile fuel input offset rs :
  bytes_ok input → offset ≤ length input → decode_records fuel input offset = Ok rs →
  (∃ chunks, drop offset input = concat chunks ∧ Forall2 record_chunk chunks rs) ∧
  Forall record_sanitized rs.
Proof.
  intros Hin. revert offset rs. induction fuel as [|fuel IH]; intros offset rs Ho; [done|].
  cbn [decode_records]. destruct (Nat.ltb_spec offset (length input)) as [Hlt|Hge].
  2: { intros [= <-]. split; [|constructor]. exists []. split; [by apply drop_ge|constructor]. }
  rewrite slice_to_end by lia. intros H.
  apply result_bind_Ok in H as (rest & [= <-] & H).
  apply result_bind_Ok in H as ([r n] & Hr & H).
  apply result_bind_Ok in H as (rs' & Hrs & [= <-]).
  pose proof Hr as [Hbounds _]%decode_v2_bounds. rewrite length_drop in Hbounds.
  apply IH in Hrs as [(chunks & Hrest & Hchunks) Hall]; [|lia]. split.
  - exists (take n (drop offset input) :: chunks). split; [|constructor; [by apply decode_v2_chunk|done]].
    cbn [concat]. by rewrite <-Hrest, <-drop_drop, take_drop.
  - constructor; [|done]. eapply decode_v2_sanitized; [|done]. by apply Forall_drop.
Qed.

(** C39 (safety): whatever bytes the operating system hands over, decoding a journal page neither
    panics nor loops: it returns records or an error.  When it returns records, the page after its
    eight-byte position is cut without gap or overlap into as many chunks as there are records, in
    order: each chunk declares its own length, is a multiple of eight and at least sixty bytes long,
    and its record is what that chunk alone decodes to.  Every integer fits its field, and every name
    is well-formed Unicode, so nothing malformed reaches the graph. *)
Theorem decode_page_total input :
  bytes_ok input →
  safe (decode_page input) ∧
  ∀ next rs, decode_page input = Ok (next, rs) →
    in_i64 next ∧
    (∃ chunks, input = take 8 input ++ concat chunks ∧ Forall2 record_chunk chunks rs) ∧
    Forall record_sanitized rs.
Proof.
  intros Hin. unfold decode_page. split.
  - apply safe_bind; [auto with usn|]. intros next _.
    apply safe_bind; [apply decode_records_safe; lia|]. done.
  - intros next rs (n & Hn & (rs' & Hrs & [= -> ->])%result_bind_Ok)%result_bind_Ok.
    split; [by eapply read_i64_range|]. unfold read_i64 in Hn. apply result_fmap_Ok in Hn as (u & Hu & _).
    apply decode_records_tile in Hrs as [(chunks & Hrest & Hchunks) Hall]; [|done|].
    + split; [|done]. exists chunks. by rewrite <-Hrest, take_drop.
    + apply result_fmap_Ok in Hu as (l & Hl & _). unfold field in Hl.
      by destruct (Nat.leb_spec (0 + 8) (length input)).
Qed.

(** ** The documented layout of a page *)

(** UTF-16 of a character, and the bytes of code units. *)
Definition encode_utf16 (c : N) : list N :=
  if (c <? 0x10000)%N then [c]
  else [0xd800 + (c - 0x10000) / 1024; 0xdc00 + (c - 0x10000) mod 1024]%N.
Definition name_units (name : list N) : list N := name ≫= encode_utf16.
Definition unit_bytes (units : list N) : list N := units ≫= to_le_bytes 2.

(** The fields of USN_RECORD_V2 that the provider ignores. *)
Record ignored_fields := MkIgnored {
  ig_minor : N; ig_timestamp : N; ig_source : N; ig_security : N; ig_padding : list N }.

Definition u64_of_i64 (z : Z) : N := Z.to_N (z mod 2 ^ 64).

Definition record_length (ig : ignored_fields) (r : SanitizedUsnRecord) : nat :=
  V2_FIXED_BYTES + 2 * length (name_units (ur_name r)) + length (ig_padding ig).

(** USN_RECORD_V2: the fixed part, the name at offset sixty, padding. *)
Definition encode_v2 (ig : ignored_fields) (r : SanitizedUsnRecord) : list N :=
  to_le_bytes 4 (N.of_nat (record_length ig r)) ++ to_le_bytes 2 2 ++ to_le_bytes 2 (ig_minor ig) ++
  to_le_bytes 8 (ur_file_reference r) ++ to_le_bytes 8 (ur_parent_reference r) ++
  to_le_bytes 8 (u64_of_i64 (ur_position r)) ++ to_le_bytes 8 (ig_timestamp ig) ++
  to_le_bytes 4 (ur_reason r) ++ to_le_bytes 4 (ig_source ig) ++ to_le_bytes 4 (ig_security ig) ++
  to_le_bytes 4 (ur_attributes r) ++
  to_le_bytes 2 (N.of_nat (2 * length (name_units (ur_name r)))) ++ to_le_bytes 2 60 ++
  unit_bytes (name_units (ur_name r)) ++ ig_padding ig.

Definition encode_page (next : Z) (records : list (ignored_fields * SanitizedUsnRecord)) : list N :=
  to_le_bytes 8 (u64_of_i64 next) ++ (records ≫= λ '(ig, r), encode_v2 ig r).

(** The provider writes a record when its name fits the 16-bit length and the padding aligns it. *)
Record writable (ig : ignored_fields) (r : SanitizedUsnRecord) : Prop := {
  wr_sanitized : record_sanitized r;
  wr_name : (N.of_nat (2 * length (name_units (ur_name r))) < 0x10000)%N;
  wr_padding : length (ig_padding ig) < 8;
  wr_aligned : record_length ig r mod 8 = 0 }.

Lemma read_skip width a rest offset k :
  length a = k → k ≤ offset → read_unsigned width (a ++ rest) offset = read_unsigned width rest (offset - k).
Proof.
  intros <- Hk. unfold read_unsigned, field. rewrite length_app, drop_app_ge by done.
  destruct (Nat.leb_spec (offset + width) (length a + length rest)),
    (Nat.leb_spec (offset - length a + width) (length rest)); (done || lia).
Qed.

Lemma read_here width v rest :
  (v < 256 ^ N.of_nat width)%N → read_unsigned width (to_le_bytes width v ++ rest) 0 = Ok v.
Proof.
  intros Hv. unfold read_unsigned, field. rewrite length_app, to_le_bytes_length.
  rewrite (proj2 (Nat.leb_le _ _)) by lia. rewrite drop_0, take_app_length' by (by rewrite to_le_bytes_length).
  cbn. by rewrite from_to_le_bytes.
Qed.

Lemma unit_bytes_length units : length (unit_bytes units) = 2 * length units.
Proof.
  unfold unit_bytes. induction units as [|u units IH]; [done|]. rewrite bind_cons. cbn [length].
  rewrite length_app, to_le_bytes_length, IH. lia.
Qed.

Lemma code_units_bytes units :
  Forall (λ u, (u < 0x10000)%N) units → code_units (unit_bytes units) = units.
Proof.
  unfold unit_bytes. induction 1 as [|u units Hu _ IH]; [done|]. rewrite bind_cons.
  pose proof (to_le_bytes_length 2 u) as H2. pose proof (from_to_le_bytes 2 u Hu) as Hval.
  destruct (to_le_bytes 2 u) as [|b0 [|b1 [|b2 l]]]; try discriminate H2. csimpl. by rewrite Hval, IH.
Qed.

Lemma encode_utf16_units c :
  is_scalar c → Forall (λ u, (u < 0x10000)%N) (encode_utf16 c).
Proof.
  intros [Hc _]. unfold encode_utf16. destruct (N.ltb_spec c 0x10000); repeat constructor; [done|..].
  - assert ((c - 65536) / 1024 < 1024)%N by (apply N.Div0.div_lt_upper_bound; lia). lia.
  - pose proof (N.mod_lt (c - 65536) 1024 ltac:(lia)). lia.
Qed.

(** Decoding the encoding of a character gives the character. *)
Lemma decode_encode_utf16 c units :
  is_scalar c → decode_utf16 (encode_utf16 c ++ units) = inl c :: decode_utf16 units.
Proof.
  intros [Hc Hs]. unfold encode_utf16. destruct (N.ltb_spec c 0x10000) as [Hlt|Hge].
  { cbn [app decode_utf16]. by rewrite Hs. }
  assert (Hhi : ((c - 65536) / 1024 < 1024)%N) by (apply N.Div0.div_lt_upper_bound; lia).
  pose proof (N.mod_lt (c - 65536) 1024 ltac:(lia)) as Hlo.
  pose proof (N.div_mod (c - 65536) 1024 ltac:(lia)) as Hsum.
  revert Hhi Hlo Hsum. generalize ((c - 65536) / 1024)%N ((c - 65536) `mod` 1024)%N.
  intros hi lo Hhi Hlo Hsum. cbn [app decode_utf16].
  destruct (is_surrogate_spec (0xd800 + hi)); [|lia]. cbn [negb].
  destruct (is_low_surrogate_spec (0xd800 + hi)); [lia|].
  destruct (is_low_surrogate_spec (0xdc00 + lo)); [|lia].
  rewrite !land_3ff, N.shiftl_mul_pow2. change (2 ^ 10)%N with 1024%N.
  rewrite <-(N.mod_unique (0xd800 + hi) 1024 54 hi), <-(N.mod_unique (0xdc00 + lo) 1024 55 lo) by lia.
  do 2 f_equal. lia.
Qed.

Lemma decode_name_units name :
  Forall is_scalar name → decode_utf16 (name_units name) = inl <$> name.
Proof.
  unfold name_units. induction 1 as [|c name Hc _ IH]; [done|]. rewrite bind_cons, fmap_cons.
  by rewrite decode_encode_utf16, IH.
Qed.

Lemma name_units_bound name :
  Forall is_scalar name → Forall (λ u, (u < 0x10000)%N) (name_units name).
Proof.
  unfold name_units. induction 1 as [|c name Hc _ IH]; [constructor|]. rewrite bind_cons.
  by apply Forall_app_2; [apply encode_utf16_units|].
Qed.

Lemma name_roundtrip name :
  Forall is_scalar name →
  from_utf16_lossy (name_units name) = name ∧ had_errors (name_units name) = false.
Proof.
  intros Hname. unfold from_utf16_lossy, had_errors. rewrite decode_name_units by done. split.
  - rewrite <-list_fmap_compose. apply list_fmap_id.
  - clear Hname. induction name as [|c name IH]; [done|]. exact IH.
Qed.

Lemma i64_roundtrip z : in_i64 z → (u64_of_i64 z < 2 ^ 64)%N ∧ i64_of_u64 (u64_of_i64 z) = z.
Proof.
  unfold in_i64, i64_min, i64_max, u64_of_i64, i64_of_u64. intros Hz.
  destruct (Z.lt_ge_cases z 0) as [Hneg|Hpos].
  - rewrite <-(Z.mod_unique z (2 ^ 64) (-1) (z + 2 ^ 64)) by lia.
    destruct (N.ltb_spec (Z.to_N (z + 2 ^ 64)) (2 ^ 63)); lia.
  - rewrite Z.mod_small by lia. destruct (N.ltb_spec (Z.to_N z) (2 ^ 63)); lia.
Qed.

Lemma slice_skip a rest x y k :
  length a = k → k ≤ x → k ≤ y → slice (a ++ rest) x y = slice rest (x - k) (y - k).
Proof.
  intros <- Hx Hy. unfold slice. rewrite length_app, drop_app_ge by done.
  replace (y - length a - (x - length a)) with (y - x) by lia.
  destruct (Nat.leb_spec x y), (Nat.leb_spec (x - length a) (y - length a)); try lia; cbn [andb]; [|done].
  destruct (Nat.leb_spec y (length a + length rest)), (Nat.leb_spec (y - length a) (length rest)); (done || lia).
Qed.

Lemma slice_here a rest k : length a = k → slice (a ++ rest) 0 k = Ok a.
Proof.
  intros <-. unfold slice. rewrite length_app, (proj2 (Nat.leb_le _ _)) by lia.
  rewrite (proj2 (Nat.leb_le _ _)) by lia. cbn [andb]. by rewrite drop_0, Nat.sub_0_r, take_app_length.
Qed.

(** Reads the field of [encode_v2] at a constant offset. *)
Ltac read_layout :=
  unfold encode_v2; rewrite <-?(assoc_L (++));
  repeat (erewrite read_skip; [|apply to_le_bytes_length|lia]; cbn [Nat.sub]); apply read_here.

Section layout.
Context (ig : ignored_fields) (r : SanitizedUsnRecord) (Hw : writable ig r) (rest : list N).

Lemma encode_v2_length : length (encode_v2 ig r) = record_length ig r.
Proof.
  unfold encode_v2, record_length, V2_FIXED_BYTES.
  rewrite !length_app, !to_le_bytes_length, unit_bytes_length. lia.
Qed.

Lemma record_length_small : (N.of_nat (record_length ig r) <= MAX_RECORD_BYTES)%N.
Proof using Hw.
  destruct Hw as [_ Hname Hpad _]. unfold record_length, V2_FIXED_BYTES, MAX_RECORD_BYTES. lia.
Qed.

Lemma slice_name :
  slice (encode_v2 ig r ++ rest) 60 (60 + 2 * length (name_units (ur_name r)))
  = Ok (unit_bytes (name_units (ur_name r))).
Proof.
  unfold encode_v2. rewrite <-?(assoc_L (++)).
  do 13 (erewrite slice_skip; [|apply to_le_bytes_length|lia..]; cbn [Nat.sub Nat.add]).
  rewrite Nat.sub_0_r. apply slice_here, unit_bytes_length.
Qed.

(** Every field is found at its documented offset. *)
Lemma encode_v2_fields :
  let input := encode_v2 ig r ++ rest in
  read_u32 input 0 = Ok (N.of_nat (record_length ig r)) ∧ read_u16 input 4 = Ok 2%N ∧
  read_u16 input 56 = Ok (N.of_nat (2 * length (name_units (ur_name r)))) ∧ read_u16 input 58 = Ok 60%N ∧
  read_u64 input 8 = Ok (ur_file_reference r) ∧ read_u64 input 16 = Ok (ur_parent_reference r) ∧
  read_u64 input 24 = Ok (u64_of_i64 (ur_position r)) ∧
  read_u32 input 40 = Ok (ur_reason r) ∧ read_u32 input 52 = Ok (ur_attributes r).
Proof using Hw.
  pose proof record_length_small as Hsmall. unfold MAX_RECORD_BYTES in Hsmall.
  destruct Hw as [[Hf Hp [Hpos _]%i64_roundtrip Hreason Hattr _] Hlen _ _].
  unfold read_u16, read_u32, read_u64. cbv zeta.
  repeat split; read_layout; try done. simpl. lia.
Qed.

Lemma decode_encode_v2 :
  ur_had_invalid_utf16 r = false → decode_v2 (encode_v2 ig r ++ rest) = Ok (r, record_length ig r).
Proof using Hw.
  intros Hflag. pose proof record_length_small as Hsmall.
  pose proof encode_v2_fields as (H0 & H4 & H56 & H58 & H8 & H16 & H24 & H40 & H52).
  pose proof slice_name as Hslice.
  destruct Hw as [[_ _ [_ Hpos]%i64_roundtrip _ _ Hname] Hlen Hpad Halign].
  destruct (name_roundtrip _ Hname) as [Hchars Herrors].
  unfold decode_v2, read_i64. rewrite H0. cbn [mbind result_bind]. rewrite Nat2N.id.
  rewrite (proj2 (Nat.ltb_ge _ _)) by (unfold record_length; lia).
  rewrite (proj2 (N.ltb_ge _ _)) by done.
  rewrite (proj2 (Nat.ltb_ge _ _)) by (rewrite length_app, encode_v2_length; lia).
  rewrite Halign. cbn [orb negb Nat.eqb ensure mbind result_bind].
  rewrite H4. cbn [mbind result_bind]. rewrite H56. cbn [mbind result_bind]. rewrite H58, Nat2N.id.
  cbn [ensure N.eqb Pos.eqb mbind result_bind]. change (N.to_nat 60) with 60.
  rewrite (Nat.mul_comm 2 (length _)), Nat.Div0.mod_mul, (Nat.mul_comm (length _) 2).
  rewrite (proj2 (Nat.ltb_ge 60 _)) by (unfold V2_FIXED_BYTES; lia).
  rewrite (proj2 (Nat.ltb_ge _ _)) by (unfold record_length, V2_FIXED_BYTES; lia).
  cbn [orb negb Nat.eqb ensure mbind result_bind]. rewrite Hslice. cbn [mbind result_bind].
  rewrite H8, H16, H24, H40, H52. cbn [mbind result_bind fmap result_fmap].
  rewrite code_units_bytes by (by apply name_units_bound). rewrite Hchars, Herrors, Hpos, <-Hflag.
  by destruct r.
Qed.
End layout.

Definition body (records : list (ignored_fields * SanitizedUsnRecord)) : list N :=
  records ≫= λ '(ig, r), encode_v2 ig r.

Definition page_writable (records : list (ignored_fields * SanitizedUsnRecord)) : Prop :=
  Forall (λ p, writable p.1 p.2 ∧ ur_had_invalid_utf16 p.2 = false) records.

Lemma decode_records_body fuel before records :
  page_writable records → length (body records) ≤ fuel →
  decode_records (S fuel) (before ++ body records) (length before) = Ok records.*2.
Proof.
  intros Hall. revert fuel before. induction Hall as [|[ig r] records [Hw Hflag] _ IH]; intros fuel before Hfuel.
  { cbn [decode_records body mbind list_bind]. by rewrite app_nil_r, Nat.ltb_irrefl. }
  unfold body in *. rewrite bind_cons in *. rewrite length_app, encode_v2_length in Hfuel.
  assert (60 ≤ record_length ig r) by (unfold record_length, V2_FIXED_BYTES; lia).
  cbn [decode_records]. rewrite (proj2 (Nat.ltb_lt _ _)) by (rewrite !length_app, encode_v2_length; lia).
  rewrite slice_to_end by (rewrite length_app; lia). cbn [mbind result_bind].
  rewrite drop_app_length, decode_encode_v2 by done. cbn [mbind result_bind].
  destruct fuel as [|fuel]; [lia|].
  rewrite (assoc_L (++)), <-(encode_v2_length ig r), <-length_app, IH by lia. done.
Qed.

(** C40 (roundtrip): a page written in the documented layout (the next position, then version 2
    records with their fields at fixed offsets, the UTF-16 name at offset sixty and padding to eight
    bytes) decodes to exactly the records that were written, in order and with their names, whatever
    the fields that the provider ignores hold. *)
Theorem decode_page_roundtrip next records :
  in_i64 next → page_writable records → decode_page (encode_page next records) = Ok (next, records.*2).
Proof.
  intros [Hu Hnext]%i64_roundtrip Hall. unfold decode_page, encode_page, read_i64, read_u64.
  rewrite read_here by done. cbn [fmap result_fmap mbind result_bind].
  rewrite length_app, to_le_bytes_length. change (records ≫= _) with (body records).
  rewrite <-(to_le_bytes_length 8 (u64_of_i64 next)) at 2.
  rewrite decode_records_body by (done || lia). cbn. by rewrite Hnext.
Qed.

(** ** Witnesses *)

(** A name with a character outside the basic plane. *)
Definition sample_record : SanitizedUsnRecord :=
  MkSanitizedUsnRecord 42 7 (-99) 0x100 0x20 [97; 0x1f600; 46; 98]%N false.
Definition sample_ignored : ignored_fields := MkIgnored 0 12345 0 0 [1; 2]%N.

Lemma sample_writable : page_writable [(sample_ignored, sample_record)].
Proof.
  constructor; [|constructor]. split; [|done]. split; try done; try (by vm_compute); [|simpl; lia].
  split; try done; try (by vm_compute). repeat constructor.
Qed.

Lemma decode_page_total_witness :
  bytes_ok (encode_page 123 [(sample_ignored, sample_record)]) ∧
  safe (decode_page (encode_page 123 [(sample_ignored, sample_record)])) ∧
  ∃ chunk, encode_page 123 [(sample_ignored, sample_record)]
             = take 8 (encode_page 123 [(sample_ignored, sample_record)]) ++ chunk
           ∧ record_chunk chunk sample_record.
Proof.
  assert (Hb : bytes_ok (encode_page 123 [(sample_ignored, sample_record)])).
  { apply (bool_decide_unpack _). by vm_compute. }
  destruct (decode_page_total _ Hb) as [Hsafe Hok]. split; [done|]. split; [done|].
  assert (H : decode_page (encode_page 123 [(sample_ignored, sample_record)])
    = Ok (123%Z, [sample_record])) by by vm_compute.
  apply Hok in H as (_ & (chunks & Hpage & Hchunks) & _).
  apply Forall2_cons_inv_r in Hchunks as (chunk & rest & Hchunk & Hnil & ->).
  apply Forall2_nil_inv_r in Hnil as ->. exists chunk. cbn [concat] in Hpage. by rewrite app_nil_r in Hpage.
Defined.

Lemma decode_page_roundtrip_witness :
  decode_page (encode_page 123 [(sample_ignored, sample_record)]) = Ok (123%Z, [sample_record]).
Proof. apply (decode_page_roundtrip 123 [(sample_ignored, sample_record)]); [done|]. apply sample_writable. Defined.
