(* ===== verification/Platform.v ===== *)
(** The platform boundary ([crates/platform-core/src/errors.rs], [filesystem.rs]): error categories,
    provider capabilities, and the summaries of scans and change reads. *)
From stdpp Require Import base strings numbers list.
From S2P Require Import Prelude Models.

(** ** Errors *)

Inductive PlatformErrorKind :=
| PermissionDenied | Unsupported | Unavailable | InvalidCheckpoint | SourceHistoryGap
| ResourceExhausted | Cancelled | Io | Internal.
Global Instance PlatformErrorKind_eq_dec : EqDecision PlatformErrorKind.
Proof. solve_decision. Defined.

Record PlatformError := MkPlatformError {
  pe_kind : PlatformErrorKind;
  pe_operation : string;
  pe_detail : string }.
Global Instance PlatformError_eq_dec : EqDecision PlatformError.
Proof. solve_decision. Defined.

Abbreviation PlatformResult := (result PlatformError).

(** ** Capabilities *)

Inductive PlatformFamily := FamilyWindows | FamilyMacOs | FamilyLinux.
Inductive InitialScanMode := FastMetadataEnumeration | FilesystemCrawl.
Inductive ChangeTrackingMode :=
| SnapshotOnly | PersistentObjectJournal | PersistentPathStream | EphemeralWatchers.
Inductive PrivilegeModel := OptionalBroker | UserConsent | CurrentUser.

Record PlatformCapabilities := MkPlatformCapabilities {
  cap_platform : PlatformFamily;
  cap_initial_scan : InitialScanMode;
  cap_change_tracking : ChangeTrackingMode;
  cap_privilege_model : PrivilegeModel;
  cap_stable_object_ids : bool;
  cap_hard_links : bool;
  cap_persistent_history : bool }.

(** ** Summaries *)

Record ScanSummary := MkScanSummary {
  ss_checkpoint : ProviderCheckpoint;
  ss_emitted_events : Z }.             (* u64 *)

Record ChangeBatch := MkChangeBatch {
  cb_checkpoint : ProviderCheckpoint;
  cb_emitted_events : Z;               (* u32 *)
  cb_has_more : bool }.
