(* ===== verification/Journal.v ===== *)
(** Incremental changes of the Windows provider: its checkpoint
    ([crates/windows-fs/src/checkpoint.rs]) and [read_changes] with what it calls
    ([crates/windows-fs/src/provider.rs]).

    A call of [read_changes] sees the world through [journal_env]: the journal state before and
    after, the page the journal returns, and what looking up a changed file gives.  The sink
    collects events and does not fail, as the broker's and the agent's sinks do.  The JSON codec of
    the checkpoint is a parameter. *)
From Stdlib Require Import Ascii String.
From stdpp Require Import base strings numbers list sorting.
From S2P Require Import Prelude Ids Order Models Text Frames Usn Platform.

(** ** Reasons ([record.rs]) *)

Definition REASON_DATA_CHANGE : N := 0x7.
Definition REASON_FILE_CREATE : N := 0x100.
Definition REASON_FILE_DELETE : N := 0x200.
Definition REASON_RENAME_OLD_NAME : N := 0x1000.
Definition REASON_RENAME_NEW_NAME : N := 0x2000.
Definition REASON_BASIC_INFO_CHANGE : N := 0x8000.
Definition REASON_HARD_LINK_CHANGE : N := 0x10000.

(** [reason & mask != 0]. *)
Definition has_reason (reason mask : N) : bool := negb (N.land reason mask =? 0)%N.

(** ** Checkpoints *)

Definition PROVIDER_ID : string := "localsearch.windows-fs".

Record PendingRename := MkPendingRename {
  pr_file_reference : N;               (* u64 *)
  pr_file_link_id : link_id }.

Record KnownLinkIdentity := MkKnownLinkIdentity {
  kl_parent_reference : N;             (* u64 *)
  kl_name : string;
  kl_file_link_id : link_id }.

Record WindowsCheckpoint := MkWindowsCheckpoint {
  wc_journal_identity : N;             (* u64 *)
  wc_next_position : Z;                (* i64 *)
  wc_lowest_valid_position : Z;        (* i64 *)
  wc_snapshot_generation : Z;          (* u64 *)
  wc_pending_events : list FilesystemEvent;
  wc_pending_renames : list PendingRename;
  wc_known_links : list KnownLinkIdentity }.

(** Field updates. *)
Definition set_next_position (p : Z) (c : WindowsCheckpoint) : WindowsCheckpoint :=
  MkWindowsCheckpoint (wc_journal_identity c) p (wc_lowest_valid_position c) (wc_snapshot_generation c)
    (wc_pending_events c) (wc_pending_renames c) (wc_known_links c).
Definition set_lowest_valid (p : Z) (c : WindowsCheckpoint) : WindowsCheckpoint :=
  MkWindowsCheckpoint (wc_journal_identity c) (wc_next_position c) p (wc_snapshot_generation c)
    (wc_pending_events c) (wc_pending_renames c) (wc_known_links c).
Definition set_pending_events (es : list FilesystemEvent) (c : WindowsCheckpoint) : WindowsCheckpoint :=
  MkWindowsCheckpoint (wc_journal_identity c) (wc_next_position c) (wc_lowest_valid_position c)
    (wc_snapshot_generation c) es (wc_pending_renames c) (wc_known_links c).
Definition set_pending_renames (rs : list PendingRename) (c : WindowsCheckpoint) : WindowsCheckpoint :=
  MkWindowsCheckpoint (wc_journal_identity c) (wc_next_position c) (wc_lowest_valid_position c)
    (wc_snapshot_generation c) (wc_pending_events c) rs (wc_known_links c).
Definition set_known_links (ks : list KnownLinkIdentity) (c : WindowsCheckpoint) : WindowsCheckpoint :=
  MkWindowsCheckpoint (wc_journal_identity c) (wc_next_position c) (wc_lowest_valid_position c)
    (wc_snapshot_generation c) (wc_pending_events c) (wc_pending_renames c) ks.

(** [(parent_reference, name)] in the order of tuples and byte strings. *)
Definition link_key (k : KnownLinkIdentity) : N * string := (kl_parent_reference k, kl_name k).
Definition compare_link_key (a b : N * string) : comparison :=
  then_with (a.1 ?= b.1)%N (lex_compare (string_bytes a.2) (string_bytes b.2)).

Definition rename_before (a b : PendingRename) : Prop := (pr_file_reference a <= pr_file_reference b)%N.
Definition link_before (a b : KnownLinkIdentity) : Prop := compare_link_key (link_key a) (link_key b) ≠ Gt.
Global Instance rename_before_dec : RelDecision rename_before.
Proof. intros a b. unfold rename_before. apply _. Defined.
Global Instance link_before_dec : RelDecision link_before.
Proof. intros a b. unfold link_before. apply _. Defined.

Section codec.
Context (to_json : WindowsCheckpoint → list N) (from_json : list N → option WindowsCheckpoint).

Definition encode (v : volume_id) (value : WindowsCheckpoint) : ProviderCheckpoint :=
  MkProviderCheckpoint PROVIDER_ID 3 v (to_json value).

(** [sort_by_key] and [sort_by] are stable sorts. *)
Definition decode (value : ProviderCheckpoint) : PlatformResult WindowsCheckpoint :=
  if negb (bool_decide (pc_provider_id value = PROVIDER_ID))
     || negb ((pc_format_version value =? 2) || (pc_format_version value =? 3))%Z
  then Err (MkPlatformError InvalidCheckpoint "decode_checkpoint" "provider or format mismatch")
  else
    decoded ← ok_or (from_json (pc_opaque value))
      (MkPlatformError InvalidCheckpoint "decode_checkpoint" "");
    Ok (set_known_links (merge_sort link_before (wc_known_links decoded))
         (set_pending_renames (merge_sort rename_before (wc_pending_renames decoded)) decoded)).
End codec.

Definition validate (saved : WindowsCheckpoint) (current_identity : N) (current_lowest : Z)
  : PlatformResult unit :=
  if negb (wc_journal_identity saved =? current_identity)%N
     || (wc_next_position saved <? current_lowest)%Z
  then Err (MkPlatformError SourceHistoryGap "validate_checkpoint"
              "journal identity changed or cursor fell below retained history")
  else Ok tt.

(** ** Link identities across renames *)

Definition remember_rename (saved : WindowsCheckpoint) (file_reference : N) (id : link_id)
  : WindowsCheckpoint :=
  set_pending_renames
    (sv_upsert pr_file_reference N.compare file_reference
       (λ p, MkPendingRename (pr_file_reference p) id) (MkPendingRename file_reference id)
       (wc_pending_renames saved)) saved.

Definition take_rename (saved : WindowsCheckpoint) (file_reference : N)
  : option link_id * WindowsCheckpoint :=
  match sv_search pr_file_reference N.compare file_reference (wc_pending_renames saved) with
  | Ok index =>
      (pr_file_link_id <$> wc_pending_renames saved !! index,
       set_pending_renames (delete index (wc_pending_renames saved)) saved)
  | Err _ => (None, saved)
  end.

Definition known_link_id (saved : WindowsCheckpoint) (parent_reference : N) (name : string)
  : option link_id :=
  kl_file_link_id <$> sv_get link_key compare_link_key (parent_reference, name) (wc_known_links saved).

Definition remember_known_link (saved : WindowsCheckpoint) (parent_reference : N) (name : string)
  (id : link_id) : WindowsCheckpoint :=
  set_known_links
    (sv_upsert link_key compare_link_key (parent_reference, name)
       (λ k, MkKnownLinkIdentity (kl_parent_reference k) (kl_name k) id)
       (MkKnownLinkIdentity parent_reference name id) (wc_known_links saved)) saved.

Definition forget_known_link (saved : WindowsCheckpoint) (parent_reference : N) (name : string)
  : WindowsCheckpoint :=
  set_known_links (sv_remove link_key compare_link_key (parent_reference, name) (wc_known_links saved))
    saved.

(** ** Identifiers derived from names *)

Definition FNV_OFFSET_128 : N := 0x6c62272e07bb014262b821756295c58d.
Definition FNV_PRIME_128 : N := 0x000000000100000000000000000000013b.

(** 128-bit FNV-1a. *)
Definition stable_hash_bytes (bytes : list N) : N :=
  foldl (λ hash byte, (N.lxor hash byte * FNV_PRIME_128) mod 2 ^ 128)%N FNV_OFFSET_128 bytes.

Definition link_hash (parent : option FileKey) (name : string) : N :=
  stable_hash_bytes
    (match parent with Some k => as_bytes (fk_volume k) ++ as_bytes (fk_file k) | None => [] end
     ++ string_bytes name).

Definition file_key (v : volume_id) (reference : N) : FileKey := MkFileKey v reference.

Definition root_link_id (v : volume_id) : link_id := N.lxor v 0x006c732d726f6f742d6c696e6b2d7631.

(** ** Events of one record *)

Inductive ObjectLookup :=
| Observed (object : FileObjectSnapshot)
| Missing
| LookupUnavailable.

Record JournalState := MkJournalState {
  js_identity : N;
  js_first_position : Z;
  js_next_position : Z;
  js_lowest_valid_position : Z }.

Record JournalPage := MkJournalPage {
  jp_next_position : Z;
  jp_records : list SanitizedUsnRecord }.

(** Resolving the parent and reading the metadata of the child. *)
Record lookup_env := MkLookupEnv {
  le_resolve_child : N → string → PlatformResult string;
  le_object_snapshot : string → FileKey → PlatformResult ObjectLookup }.

Definition lookup_record (env : lookup_env) (parent_reference : N) (name : string) (key : FileKey)
  : PlatformResult ObjectLookup :=
  match le_resolve_child env parent_reference name with
  | Ok path => le_object_snapshot env path key
  | Err e =>
      match pe_kind e with
      | PermissionDenied | Unavailable => Ok LookupUnavailable
      | _ => Err e
      end
  end.

(** The identity a path has before the record. *)
Definition path_link_id (saved : WindowsCheckpoint) (v : volume_id) (record : SanitizedUsnRecord)
  : link_id :=
  let name := string_of_text (ur_name record) in
  default (link_hash (Some (file_key v (ur_parent_reference record))) name)
    (known_link_id saved (ur_parent_reference record) name).

(** The identity of the link a record is about: a rename takes over that of the old name. *)
Definition record_link_id (saved : WindowsCheckpoint) (v : volume_id) (record : SanitizedUsnRecord)
  : link_id * WindowsCheckpoint :=
  let path := path_link_id saved v record in
  if has_reason (ur_reason record) REASON_RENAME_NEW_NAME then
    let '(taken, saved) := take_rename saved (ur_file_reference record) in
    let stable := default path taken in
    (stable, remember_known_link saved (ur_parent_reference record)
               (string_of_text (ur_name record)) stable)
  else (path, saved).

Definition canonical_events (env : lookup_env) (saved : WindowsCheckpoint) (v : volume_id)
  (record : SanitizedUsnRecord) : PlatformResult (list FilesystemEvent * WindowsCheckpoint) :=
  if ur_had_invalid_utf16 record then Ok ([ReconciliationRequired v ProviderRequested], saved)
  else
    let name := string_of_text (ur_name record) in
    let object_key := file_key v (ur_file_reference record) in
    let parent_key := file_key v (ur_parent_reference record) in
    if has_reason (ur_reason record) REASON_RENAME_OLD_NAME then
      let path := path_link_id saved v record in
      let saved := forget_known_link saved (ur_parent_reference record) name in
      Ok ([], remember_rename saved (ur_file_reference record) path)
    else
      let '(file_link_id, saved) := record_link_id saved v record in
      let link := MkFileLinkSnapshot file_link_id object_key (Some parent_key) name in
      if has_reason (ur_reason record) REASON_FILE_DELETE then
        Ok ([LinkRemoved file_link_id object_key; ObjectRemoved object_key],
            forget_known_link saved (ur_parent_reference record) name)
      else
        lookup ← lookup_record env (ur_parent_reference record) name object_key;
        match lookup with
        | LookupUnavailable => Ok ([], saved)
        | _ =>
            if has_reason (ur_reason record) REASON_HARD_LINK_CHANGE
               && negb (has_reason (ur_reason record) (N.lor REASON_FILE_CREATE REASON_RENAME_NEW_NAME))
            then
              Ok (match lookup with
                  | Observed _ => [LinkObserved link]
                  | Missing => [LinkRemoved file_link_id object_key]
                  | LookupUnavailable => []
                  end, saved)
            else
              let observes_link :=
                has_reason (ur_reason record) (N.lor REASON_FILE_CREATE REASON_RENAME_NEW_NAME) in
              let observes_object :=
                has_reason (ur_reason record)
                  (N.lor REASON_FILE_CREATE (N.lor REASON_BASIC_INFO_CHANGE REASON_DATA_CHANGE)) in
              Ok (match lookup with
                  | Observed object => if observes_object then [ObjectObserved object] else []
                  | _ => []
                  end ++ (if observes_link then [LinkObserved link] else []), saved)
        end.

(** ** Reading changes *)

Inductive TrackingMode := Snapshot | UsnJournal.

(** The world during one call.  Files are looked up while the record at a position is processed. *)
Record journal_env := MkJournalEnv {
  je_open : PlatformResult unit;       (* [native_volume] and [JournalSession::open] *)
  je_before : PlatformResult JournalState;
  je_read : Z → N → PlatformResult JournalPage;
  je_lookup : Z → lookup_env;
  je_after : PlatformResult JournalState }.

Definition retained_start (state : JournalState) : Z :=
  Z.max (js_first_position state) (js_lowest_valid_position state).

Definition emit_pending (saved : WindowsCheckpoint) (maximum_events : nat)
  : list FilesystemEvent * WindowsCheckpoint :=
  let accepted := maximum_events `min` length (wc_pending_events saved) in
  (take accepted (wc_pending_events saved),
   set_pending_events (drop accepted (wc_pending_events saved)) saved).

(** The loop over the records of a page; the last component is the [has_more] of an early return. *)
Fixpoint read_records (env : journal_env) (v : volume_id) (before : JournalState)
  (maximum_events : nat) (page_next : Z) (records : list SanitizedUsnRecord)
  (saved : WindowsCheckpoint) (events : list FilesystemEvent)
  : PlatformResult (list FilesystemEvent * WindowsCheckpoint * option bool) :=
  match records with
  | [] => Ok (events, saved, None)
  | record :: rest =>
      let next_position := match rest with next :: _ => ur_position next | [] => page_next end in
      '(found, saved) ← canonical_events (je_lookup env (ur_position record)) saved v record;
      let accepted := (maximum_events - length events) `min` length found in
      let events := events ++ take accepted found in
      let saved := set_next_position next_position saved in
      if accepted <? length found then
        Ok (events, set_pending_events (drop accepted found) saved, Some true)
      else if length events =? maximum_events then
        Ok (events, saved, Some (wc_next_position saved <? js_next_position before)%Z)
      else read_records env v before maximum_events page_next rest saved events
  end.

Section read.
Context (to_json : WindowsCheckpoint → list N) (from_json : list N → option WindowsCheckpoint).

Definition change_batch (v : volume_id) (saved : WindowsCheckpoint) (events : list FilesystemEvent)
  (has_more : bool) : PlatformResult (list FilesystemEvent * ChangeBatch) :=
  Ok (events, MkChangeBatch (encode to_json v saved) (Z.of_nat (length events)) has_more).

(** [FilesystemProvider::read_changes]. *)
Definition read_changes (tracking : TrackingMode) (env : journal_env) (checkpoint : ProviderCheckpoint)
  (maximum_events : nat) : PlatformResult (list FilesystemEvent * ChangeBatch) :=
  let v := pc_volume_id checkpoint in
  saved ← decode from_json checkpoint;
  ensure (match tracking with UsnJournal => true | Snapshot => false end)
    (MkPlatformError Unsupported "read_changes" "this provider instance is configured for snapshots only") ;;
  je_open env ;;
  before ← je_before env;
  validate saved (js_identity before) (retained_start before) ;;
  let saved := set_lowest_valid (retained_start before) saved in
  let '(emitted, saved) := emit_pending saved maximum_events in
  if (0 <? length (wc_pending_events saved)) || (length emitted =? maximum_events) then
    change_batch v saved emitted
      ((0 <? length (wc_pending_events saved)) || (wc_next_position saved <? js_next_position before)%Z)
  else
    page ← je_read env (wc_next_position saved) (wc_journal_identity saved);
    ensure (negb (jp_next_position page <? wc_next_position saved)%Z)
      (MkPlatformError Io "read_changes" "journal cursor moved backwards") ;;
    '(events, saved, early) ←
      read_records env v before maximum_events (jp_next_position page) (jp_records page) saved emitted;
    match early with
    | Some has_more => change_batch v saved events has_more
    | None =>
        after ← je_after env;
        validate saved (js_identity after) (retained_start after) ;;
        let saved := set_lowest_valid (retained_start after) saved in
        change_batch v saved events (wc_next_position saved <? js_next_position after)%Z
    end.
End read.
