(* ===== verification/JournalSpec.v ===== *)
(** What reading a journal promises.

    The journal is a log of records at strictly increasing positions; a page holds the records from
    a position up to the page's next position.  A checkpoint stands for a position in the stream of
    events of that log: [remaining] is what is left of the stream.  [read_changes] cuts the stream
    at any number of events, and following it until nothing more is announced delivers the stream
    exactly once.  Link identities survive renames. *)
From Stdlib Require Import Ascii String.
From stdpp Require Import base strings numbers list sets sorting.
From S2P Require Import Prelude Ids Order Models Text Frames Usn Platform Journal.

(** ** Well-formed checkpoints *)

(** The vectors searched by bisection are strictly sorted. *)
Definition checkpoint_ok (c : WindowsCheckpoint) : Prop :=
  sv_sorted pr_file_reference N.compare (wc_pending_renames c) ∧
  sv_sorted link_key compare_link_key (wc_known_links c).

Lemma cmp_ok_link_key : cmp_ok compare_link_key.
Proof.
  apply (cmp_ok_then (λ a b : N * string, (a.1 ?= b.1)%N)
    (λ a b : N * string, lex_compare (string_bytes a.2) (string_bytes b.2))).
  - apply (cmp_ok_map fst N.compare), cmp_ok_N.
  - apply (cmp_ok_map (λ a : N * string, string_bytes a.2) lex_compare), cmp_ok_lex.
Qed.

Lemma compare_link_key_eq a b : compare_link_key a b = Eq → a = b.
Proof.
  destruct a as [p n], b as [q m]. unfold compare_link_key, then_with. simpl.
  destruct (p ?= q)%N eqn:Hc; try done. intros ->%lex_compare_eq%string_bytes_inj.
  by apply N.compare_eq in Hc as ->.
Qed.

(** ** Updates of the sorted vectors *)

Lemma remember_rename_ok c f id : checkpoint_ok c → checkpoint_ok (remember_rename c f id).
Proof.
  intros [Hr Hk]. split; [|done]. apply sv_upsert_sorted; try done; [apply cmp_ok_N|apply N.compare_eq|].
  intros [] <-. done.
Qed.

Lemma remember_known_link_ok c p n id : checkpoint_ok c → checkpoint_ok (remember_known_link c p n id).
Proof.
  intros [Hr Hk]. split; [done|].
  apply sv_upsert_sorted; try done; [apply cmp_ok_link_key|apply compare_link_key_eq|].
  intros [] [= <- <-]. done.
Qed.

Lemma forget_known_link_ok c p n : checkpoint_ok c → checkpoint_ok (forget_known_link c p n).
Proof. intros [Hr Hk]. split; [done|]. by apply sv_remove_sorted. Qed.

(** The rename waiting for a file. *)
Definition pending_rename (c : WindowsCheckpoint) (f : N) : option link_id :=
  pr_file_link_id <$> sv_get pr_file_reference N.compare f (wc_pending_renames c).

Lemma take_rename_eq c f :
  take_rename c f = (pending_rename c f,
    set_pending_renames (sv_remove pr_file_reference N.compare f (wc_pending_renames c)) c).
Proof.
  unfold take_rename, pending_rename, sv_get, sv_remove. destruct (sv_search _ _ _ _); [done|].
  simpl. by destruct c.
Qed.

Lemma take_rename_ok c f : checkpoint_ok c → checkpoint_ok (take_rename c f).2.
Proof. rewrite take_rename_eq. intros [Hr Hk]. split; [|done]. by apply sv_remove_sorted. Qed.

Lemma known_link_id_remember c p n id q m :
  checkpoint_ok c →
  known_link_id (remember_known_link c p n id) q m =
    if decide ((q, m) = (p, n)) then Some id else known_link_id c q m.
Proof.
  intros [_ Hk]. unfold known_link_id, remember_known_link. simpl.
  rewrite (sv_get_upsert _ _ cmp_ok_link_key compare_link_key_eq); try done; [|by intros [] [= <- <-]].
  destruct (compare_link_key (q, m) (p, n)) eqn:Hc;
    [apply compare_link_key_eq in Hc; by rewrite decide_True| |];
    (rewrite decide_False; [done|intros [= -> ->]; by rewrite (cmp_refl _ cmp_ok_link_key) in Hc]).
Qed.

Lemma pending_rename_remember c f id g :
  checkpoint_ok c →
  pending_rename (remember_rename c f id) g = if decide (g = f) then Some id else pending_rename c g.
Proof.
  intros [Hr _]. unfold pending_rename, remember_rename. simpl.
  rewrite (sv_get_upsert _ _ cmp_ok_N N.compare_eq); try done; [|by intros [] <-].
  destruct (N.compare_spec g f) as [->|Hlt|Hlt]; [by rewrite decide_True| |];
    (rewrite decide_False; [done|lia]).
Qed.

Lemma pending_rename_take c f g :
  checkpoint_ok c →
  pending_rename (take_rename c f).2 g = if decide (g = f) then None else pending_rename c g.
Proof.
  intros [Hr _]. rewrite take_rename_eq. unfold pending_rename. simpl.
  rewrite (sv_get_remove _ _ cmp_ok_N N.compare_eq) by done.
  destruct (N.compare_spec g f) as [->|Hlt|Hlt]; [by rewrite decide_True| |];
    (rewrite decide_False; [done|lia]).
Qed.

(** ** Events of a record *)

Create HintDb journal.
#[local] Hint Resolve remember_rename_ok remember_known_link_ok forget_known_link_ok take_rename_ok : journal.

(** The cursor and pending events of one checkpoint, the links of another. *)
Definition with_links (c links : WindowsCheckpoint) : WindowsCheckpoint :=
  set_known_links (wc_known_links links) (set_pending_renames (wc_pending_renames links) c).

Lemma with_links_self c : with_links c c = c.
Proof. by destruct c. Qed.

Lemma record_link_id_frame c d v r :
  record_link_id (with_links c d) v r = prod_map id (with_links c) (record_link_id d v r).
Proof. unfold record_link_id. rewrite !take_rename_eq. by destruct (has_reason _ _). Qed.

(** Translating a record reads and writes only the links of the checkpoint. *)
Lemma canonical_events_frame env c d v r :
  canonical_events env (with_links c d) v r =
    prod_map id (with_links c) <$> canonical_events env d v r.
Proof.
  unfold canonical_events. destruct (ur_had_invalid_utf16 r); [done|].
  destruct (has_reason (ur_reason r) REASON_RENAME_OLD_NAME); [done|].
  rewrite record_link_id_frame. destruct (record_link_id d v r) as [id d']. simpl.
  destruct (has_reason (ur_reason r) REASON_FILE_DELETE); [done|]. unfold mbind, result_bind.
  destruct (lookup_record _ _ _ _) as [[]|]; try done; by destruct (_ && _).
Qed.

Lemma canonical_events_keeps env c v r es c' :
  canonical_events env c v r = Ok (es, c') → c' = with_links c c'.
Proof.
  intros H. pose proof (canonical_events_frame env c c v r) as Hf. rewrite with_links_self, H in Hf.
  simpl in Hf. by injection Hf.
Qed.

Lemma record_link_id_ok c v r : checkpoint_ok c → checkpoint_ok (record_link_id c v r).2.
Proof.
  intros Hc. unfold record_link_id. pose proof (take_rename_ok c (ur_file_reference r) Hc) as Ht.
  destruct (take_rename _ _), (has_reason _ _); simpl; auto with journal.
Qed.

Lemma canonical_events_ok env c v r es c' :
  canonical_events env c v r = Ok (es, c') → checkpoint_ok c → checkpoint_ok c' ∧ length es ≤ 2.
Proof.
  unfold canonical_events. intros H Hc. destruct (ur_had_invalid_utf16 r); [naive_solver lia|].
  destruct (has_reason (ur_reason r) REASON_RENAME_OLD_NAME).
  { injection H as <- <-. split; [auto with journal|simpl; lia]. }
  pose proof (record_link_id_ok c v r Hc) as Hd. destruct (record_link_id c v r) as [id d]. simpl in Hd.
  destruct (has_reason (ur_reason r) REASON_FILE_DELETE).
  { injection H as <- <-. split; [auto with journal|simpl; lia]. }
  minv. destruct x; [| |naive_solver lia]; destruct (_ && _); injection H as <- <-;
    (split; [done|]); try (simpl; lia);
    repeat destruct (has_reason _ _); simpl; lia.
Qed.

(** ** The log and its stream of events *)

Abbreviation log := (list SanitizedUsnRecord).

Definition log_ok (L : log) : Prop := StronglySorted (λ a b, (ur_position a < ur_position b)%Z) L.

(** The records at or after a position. *)
Definition from (L : log) (p : Z) : log := filter (λ r, (p ≤ ur_position r)%Z) L.

(** A page read at [start] holds the records from there up to its next position. *)
Definition page_ok (L : log) (start : Z) (page : JournalPage) : Prop :=
  (start ≤ jp_next_position page)%Z ∧ jp_records page ++ from L (jp_next_position page) = from L start.

Lemma from_ge L p r : r ∈ from L p → (p ≤ ur_position r)%Z.
Proof. by intros [? _]%list_elem_of_filter. Qed.

Lemma log_ok_from L p : log_ok L → log_ok (from L p).
Proof. intros HL. eapply (sv_sorted_sublist ur_position Z.compare); [apply sublist_filter|]. done. Qed.

Lemma from_from L p q : (p ≤ q)%Z → from (from L p) q = from L q.
Proof.
  intros Hpq. unfold from. rewrite list_filter_filter. apply list_filter_iff. intros r. lia.
Qed.

(** Reading on from a record of the log. *)
Lemma from_suffix L p a r b :
  log_ok L → from L p = a ++ r :: b → from L (ur_position r) = r :: b.
Proof.
  intros HL Hf. pose proof (log_ok_from L p HL) as Hs. rewrite Hf in Hs.
  rewrite <-(from_from L p); [|apply (from_ge L); rewrite Hf; set_solver].
  rewrite Hf. apply StronglySorted_app in Hs as (Hlt & _ & Hrb). apply StronglySorted_inv in Hrb as [_ Hgt].
  unfold from. rewrite filter_app, filter_cons_True by lia.
  assert (filter (λ r0, (ur_position r ≤ ur_position r0)%Z) a = []) as ->.
  { apply filter_none, Forall_forall. intros x Hx. specialize (Hlt x r Hx).
    rewrite elem_of_cons in Hlt. specialize (Hlt (or_introl eq_refl)). lia. }
  simpl. f_equal. apply filter_all. eapply Forall_impl; [exact Hgt|]. intros x Hx. simpl in Hx. lia.
Qed.

(** The position after the first record of a page, and what is read from there. *)
Lemma page_step L p r rest q :
  log_ok L → r :: rest ++ from L q = from L p → (p ≤ q)%Z →
  let next := match rest with n :: _ => ur_position n | [] => q end in
  rest ++ from L q = from L next ∧ (p ≤ ur_position r < next)%Z ∧ (next ≤ q)%Z.
Proof.
  intros HL Hf Hpq next. pose proof (log_ok_from L p HL) as Hs. rewrite <-Hf in Hs.
  assert (p ≤ ur_position r)%Z by (apply (from_ge L); rewrite <-Hf; set_solver).
  apply StronglySorted_inv in Hs as [Hs Hr]. rewrite Forall_forall in Hr.
  destruct rest as [|n rest]; simpl in *.
  - split; [done|]. split; [|lia]. split; [done|].
    destruct (decide (ur_position r < q)%Z) as [|Hge]; [done|exfalso].
    assert (r ∈ from L q) as Hin.
    { rewrite <-(from_from L p q), <-Hf by done. apply list_elem_of_filter. split; [lia|set_solver]. }
    apply Hr in Hin. lia.
  - assert (ur_position r < ur_position n)%Z by (apply Hr; set_solver).
    split; [symmetry; apply (from_suffix L p [r]); [done|by rewrite <-Hf]|].
    split; [lia|]. destruct (decide (ur_position n ≤ q)%Z) as [|Hgt]; [done|exfalso].
    assert (n ∈ from L q) as Hin.
    { rewrite <-(from_from L p q), <-Hf by done. apply list_elem_of_filter. split; [lia|set_solver]. }
    apply StronglySorted_inv in Hs as [_ Hn]. rewrite Forall_forall in Hn.
    specialize (Hn n). rewrite elem_of_app in Hn. specialize (Hn (or_intror Hin)). lia.
Qed.

Section stream.
Context (lookup : Z → lookup_env) (v : volume_id).

(** The events of a sequence of records, and the links after them. *)
Fixpoint replay (c : WindowsCheckpoint) (rs : log)
  : PlatformResult (list FilesystemEvent * WindowsCheckpoint) :=
  match rs with
  | [] => Ok ([], c)
  | r :: rs =>
      '(es, c) ← canonical_events (lookup (ur_position r)) c v r;
      '(es', c) ← replay c rs;
      Ok (es ++ es', c)
  end.

(** What a reader at a checkpoint has still to see of a log. *)
Definition remaining (L : log) (c : WindowsCheckpoint) : PlatformResult (list FilesystemEvent) :=
  '(es, _) ← replay c (from L (wc_next_position c));
  Ok (wc_pending_events c ++ es).

Lemma replay_frame c d rs : replay (with_links c d) rs = prod_map id (with_links c) <$> replay d rs.
Proof.
  revert d. induction rs as [|r rs IH]; intros d; [done|]. simpl. rewrite canonical_events_frame.
  unfold mbind, result_bind, fmap, result_fmap.
  destruct (canonical_events _ d v r) as [[es d']|e]; [|done]. simpl.
  setoid_rewrite IH. by destruct (replay d' rs) as [[es' d'']|e].
Qed.

Lemma replay_cursor c d rs :
  wc_pending_renames c = wc_pending_renames d → wc_known_links c = wc_known_links d →
  fst <$> replay c rs = fst <$> replay d rs.
Proof.
  intros Hr Hk. assert (c = with_links c d) as -> by (destruct c, d; simpl in *; by subst).
  rewrite replay_frame. by destruct (replay d rs) as [[]|].
Qed.

Lemma remaining_eq L c :
  remaining L c = app (wc_pending_events c) <$> (fst <$> replay c (from L (wc_next_position c))).
Proof. unfold remaining. by destruct (replay _ _) as [[]|]. Qed.

(** Translating the next record moves along the stream. *)
Lemma remaining_step L c r rest q es c' :
  wc_pending_events c = [] → r :: rest = from L (wc_next_position c) → rest = from L q →
  canonical_events (lookup (ur_position r)) c v r = Ok (es, c') →
  ∀ k, k ≤ length es →
  remaining L c = app (take k es) <$> remaining L (set_pending_events (drop k es) (set_next_position q c')).
Proof.
  intros Hp Hf Hrest Hce k Hk. rewrite !remaining_eq, Hp, <-Hf. simpl. rewrite Hce. simpl.
  rewrite (replay_cursor (set_pending_events (drop k es) (set_next_position q c')) c'), <-Hrest by done.
  unfold mbind, result_bind. destruct (replay c' rest) as [[es' d]|e]; [|done]. simpl.
  f_equal. by rewrite app_assoc, take_drop.
Qed.
End stream.

Lemma fmap_app_app (r : PlatformResult (list FilesystemEvent)) a b :
  app a <$> (app b <$> r) = app (a ++ b) <$> r.
Proof. destruct r; simpl; [|done]. by rewrite app_assoc. Qed.

(** From checkpoint [c], emitting [new] leads to checkpoint [c']. *)
Record advanced (lookup : Z → lookup_env) (v : volume_id) (L : log) (c : WindowsCheckpoint)
  (new : list FilesystemEvent) (c' : WindowsCheckpoint) : Prop := {
  adv_stream : remaining lookup v L c = app new <$> remaining lookup v L c';
  adv_ok : checkpoint_ok c → checkpoint_ok c';
  adv_identity : wc_journal_identity c' = wc_journal_identity c;
  adv_next : (wc_next_position c ≤ wc_next_position c')%Z }.

Lemma advanced_trans lookup v L c1 n1 c2 n2 c3 :
  advanced lookup v L c1 n1 c2 → advanced lookup v L c2 n2 c3 → advanced lookup v L c1 (n1 ++ n2) c3.
Proof.
  intros [Hs1 Ho1 Hi1 Hn1] [Hs2 Ho2 Hi2 Hn2]. split; [|auto|congruence|lia].
  by rewrite Hs1, Hs2, fmap_app_app.
Qed.

Lemma advanced_lowest lookup v L c new c' p :
  advanced lookup v L c new c' → advanced lookup v L c new (set_lowest_valid p c').
Proof.
  intros [Hs Ho Hi Hn]. split; [|done..]. rewrite Hs, !remaining_eq. simpl.
  by rewrite (replay_cursor lookup v (set_lowest_valid p c') c').
Qed.

Lemma advanced_refl lookup v L c : advanced lookup v L c [] c.
Proof. split; [|done..]. by destruct (remaining lookup v L c). Qed.

Lemma emit_pending_advanced lookup v L c maximum es c' :
  emit_pending c maximum = (es, c') →
  advanced lookup v L c es c' ∧ length es = maximum `min` length (wc_pending_events c)
    ∧ wc_next_position c' = wc_next_position c
    ∧ length (wc_pending_events c') = length (wc_pending_events c) - length es.
Proof.
  unfold emit_pending. intros [= <- <-]. split; [split; try done|].
  - rewrite !remaining_eq. simpl.
    set (k := maximum `min` length (wc_pending_events c)).
    rewrite (replay_cursor lookup v (set_pending_events (drop k (wc_pending_events c)) c) c) by done.
    by rewrite fmap_app_app, take_drop.
  - simpl. rewrite length_take, length_drop. split; [lia|]. split; [done|lia].
Qed.

Lemma read_records_advanced env v L before maximum q rs c es es' c' early :
  log_ok L → wc_pending_events c = [] → rs ++ from L q = from L (wc_next_position c) →
  (wc_next_position c ≤ q)%Z → checkpoint_ok c → length es < maximum →
  read_records env v before maximum q rs c es = Ok (es', c', early) →
  ∃ new, es' = es ++ new ∧ advanced (je_lookup env) v L c new c' ∧ length es' ≤ maximum
    ∧ (rs ≠ [] ∧ (wc_next_position c < wc_next_position c')%Z ∨ rs = [] ∧ c' = c)
    ∧ (wc_next_position c' = wc_next_position c ∨ wc_next_position c' = q ∨
       from L (wc_next_position c') ≠ [])
    ∧ length (wc_pending_events c') ≤ 1
    ∧ match early with
      | None => wc_pending_events c' = []
      | Some has_more => has_more = (0 <? length (wc_pending_events c')) ||
                           (wc_next_position c' <? js_next_position before)%Z
      end.
Proof.
  intros HL. revert c es. induction rs as [|r rs IH]; intros c es Hp Hf Hq Hc Hlen; simpl.
  { intros [= <- <- <-]. exists []. rewrite app_nil_r, Hp.
    split_and!; try done; [apply advanced_refl|lia|by right|by left|simpl; lia]. }
  intros H. minv. destruct x as [found d].
  destruct (page_step L _ r rs q HL Hf Hq) as (Hrest & Hpos & Hnq).
  set (next := match rs with n :: _ => ur_position n | [] => q end) in *.
  assert (next = q ∨ from L next ≠ []) as Hbound.
  { unfold next in *. destruct rs; [by left|right]. by rewrite <-Hrest. }
  destruct (canonical_events_ok _ _ _ _ _ _ Hres Hc) as [Hd Hfound].
  pose proof (canonical_events_keeps _ _ _ _ _ _ Hres) as Hkeep.
  set (k := (maximum - length es) `min` length found) in *.
  assert (∀ ev, (ev = drop k found) → advanced (je_lookup env) v L c (take k found)
    (set_pending_events ev (set_next_position next d))) as Hadv.
  { intros ev ->. split; simpl; [|done|by rewrite Hkeep|lia].
    apply (remaining_step _ _ L c r (rs ++ from L q)); try done. lia. }
  destruct (Nat.ltb_spec k (length found)) as [Hlt|Hge].
  { injection H as <- <- <-. exists (take k found). split; [done|]. split; [by apply Hadv|].
    rewrite length_app, length_take. cbn [wc_pending_events set_pending_events]. rewrite length_drop.
    split_and!; [lia|left; simpl; split; [done|lia]|by right|lia|].
    destruct (Nat.ltb_spec 0 (length found - k)); [done|lia]. }
  assert (wc_pending_events d = []) as Hpd by (by rewrite Hkeep).
  assert (set_pending_events [] (set_next_position next d) = set_next_position next d) as Hset.
  { destruct d; simpl in *. by subst. }
  specialize (Hadv [] ltac:(symmetry; apply drop_ge; lia)). rewrite Hset in Hadv.
  rewrite length_app, length_take in H.
  destruct (Nat.eqb_spec (length es + k `min` length found) maximum) as [Hfull|Hroom].
  { injection H as <- <- <-. exists (take k found). split; [done|]. split; [done|].
    rewrite length_app, length_take. split_and!; [lia|left; simpl; split; [done|lia]|by right|simpl; rewrite Hpd; simpl; lia|].
    simpl. by rewrite Hpd. }
  apply IH in H as (new & -> & Hadv' & Hle & _ & Hat & Hpend & Hearly); try done;
    [|rewrite length_app, length_take; lia].
  exists (take k found ++ new). split; [by rewrite app_assoc|].
  pose proof (adv_next _ _ _ _ _ _ Hadv'). simpl in *.
  split; [by eapply advanced_trans|]. split_and!; try done.
  - left. split; [done|lia].
  - right. destruct Hat as [->|Hat]; auto.
Qed.

(** ** Reading changes *)

Section read_spec.
Context (to_json : WindowsCheckpoint → list N) (from_json : list N → option WindowsCheckpoint).
Context (from_to : ∀ c, from_json (to_json c) = Some c).

Abbreviation enc := (encode to_json).
Abbreviation dec := (decode from_json).
Abbreviation read := (read_changes to_json from_json UsnJournal).

Lemma decode_encode_ok v c : checkpoint_ok c → dec (enc v c) = Ok c.
Proof using from_to.
  intros [Hr Hk]. unfold decode, encode. simpl. rewrite from_to. simpl. f_equal.
  rewrite (merge_sort_sv_sorted link_key compare_link_key) by (done || apply cmp_ok_link_key).
  rewrite (merge_sort_sv_sorted pr_file_reference N.compare) by (done || apply cmp_ok_N).
  by destruct c.
Qed.

(** What a successful call guarantees of the checkpoint it returns. *)
Record batch_ok (env : journal_env) (L : log) (v : volume_id) (c : WindowsCheckpoint) (maximum : nat)
  (es : list FilesystemEvent) (batch : ChangeBatch) (c' : WindowsCheckpoint) : Prop := {
  bo_checkpoint : cb_checkpoint batch = enc v c';
  bo_emitted : cb_emitted_events batch = Z.of_nat (length es);
  bo_bound : length es ≤ maximum;
  bo_advanced : advanced (je_lookup env) v L c es c';
  bo_more : ∃ state, (je_before env = Ok state ∨ je_after env = Ok state) ∧
    cb_has_more batch = (0 <? length (wc_pending_events c')) ||
      (wc_next_position c' <? js_next_position state)%Z;
  bo_position : wc_next_position c' = wc_next_position c ∨ from L (wc_next_position c') ≠ [] ∨
    ∃ page, je_read env (wc_next_position c) (wc_journal_identity c) = Ok page ∧
      wc_next_position c' = jp_next_position page;
  bo_progress : 1 ≤ maximum →
    from L (wc_next_position c) ≠ [] ∧ (wc_next_position c < wc_next_position c')%Z ∧
      length (wc_pending_events c') ≤ 1 ∨
    wc_next_position c' = wc_next_position c ∧
      length (wc_pending_events c') < length (wc_pending_events c) ∨
    ∃ page, je_read env (wc_next_position c) (wc_journal_identity c) = Ok page ∧
      jp_records page = [] ∧ wc_next_position c' = wc_next_position c ∧ wc_pending_events c' = [] }.

Lemma validate_Ok c identity lowest u :
  validate c identity lowest = Ok u →
  wc_journal_identity c = identity ∧ (lowest ≤ wc_next_position c)%Z.
Proof.
  unfold validate. destruct (N.eqb_spec (wc_journal_identity c) identity); [|done].
  destruct (Z.ltb_spec (wc_next_position c) lowest); [done|]. done.
Qed.

Lemma read_changes_batch env L v c maximum es batch :
  log_ok L → checkpoint_ok c →
  (∀ page, je_read env (wc_next_position c) (wc_journal_identity c) = Ok page →
    page_ok L (wc_next_position c) page) →
  read env (enc v c) maximum = Ok (es, batch) →
  ∃ c', batch_ok env L v c maximum es batch c'.
Proof using from_to.
  intros HL Hc Hpage H. unfold read_changes in H. rewrite decode_encode_ok in H by done.
  unfold mbind at 1, result_bind at 1 in H. cbn [ensure] in H. minv.
  destruct x, x0, x2. cbn [pc_volume_id encode] in H.
  destruct (emit_pending _ maximum) as [out d] eqn:Hemit.
  assert (advanced (je_lookup env) v L c [] (set_lowest_valid (retained_start x1) c)) as Hlow
    by apply advanced_lowest, advanced_refl.
  apply (emit_pending_advanced (je_lookup env) v L) in Hemit as (Hadv & Hout & Hnext & Hpend).
  eapply (advanced_trans _ _ _ _ _ _ _ _ Hlow) in Hadv. simpl in Hadv, Hout, Hnext, Hpend.
  pose proof (adv_identity _ _ _ _ _ _ Hadv) as Hid.
  destruct ((0 <? length (wc_pending_events d)) || (length out =? maximum)) eqn:Hstop.
  - unfold change_batch in H. injection H as <- <-. exists d.
    split; simpl; try done; [lia| |by left|].
    + eauto.
    + intros Hmax. right; left. split; [done|].
      apply orb_true_iff in Hstop as [Hz%Nat.ltb_lt|Hz%Nat.eqb_eq]; lia.
  - apply orb_false_iff in Hstop as [Hz%Nat.ltb_ge Hne%Nat.eqb_neq].
    assert (wc_pending_events d = []) as Hempty by (destruct (wc_pending_events d); [done|simpl in *; lia]).
    apply result_bind_Ok in H as (page & Hread & H). rewrite Hnext, Hid in Hread.
    destruct (Hpage _ Hread) as [Hq Hf]. apply result_bind_Ok in H as (? & _ & H).
    apply result_bind_Ok in H as ([[es' c'] early] & Hrun & H).
    apply (read_records_advanced _ _ L) in Hrun as (new & -> & Hadv' & Hle & Hmove & Hat & Hpend' & Hearly);
      try done; [|by rewrite Hnext|by rewrite Hnext|by apply (adv_ok _ _ _ _ _ _ Hadv)|lia].
    pose proof (advanced_trans _ _ _ _ _ _ _ _ Hadv Hadv') as Htot. rewrite Hnext in Hmove, Hat.
    destruct early as [has_more|].
    + unfold change_batch in H. injection H as <- <-. exists c'. split; simpl; try done.
      * eauto.
      * destruct Hat as [|[|]]; eauto.
      * intros _. destruct Hmove as [[Hne' Hmove]|[Hnil ->]]; [left|right; right; by eauto].
        split; [|done]. rewrite <-Hf. by destruct (jp_records page).
    + apply result_bind_Ok in H as (after & Hafter & H). apply result_bind_Ok in H as (? & _ & H).
      unfold change_batch in H. injection H as <- <-.
      exists (set_lowest_valid (retained_start after) c'). split; simpl; try done.
      * by apply advanced_lowest.
      * rewrite Hearly. eauto.
      * destruct Hat as [|[|]]; eauto.
      * intros _. destruct Hmove as [[Hne' Hmove]|[Hnil ->]]; [left|right; right; by eauto].
        split; [|done]. rewrite <-Hf. by destruct (jp_records page).
Qed.

(** ** Following a quiet journal *)

(** A position between two records, or at the end. *)
Definition boundary (state : JournalState) (L : log) (p : Z) : Prop :=
  (p < js_next_position state)%Z → from L p ≠ [].

(** A journal that does not change while it is read: pages hold the log, end between records, and
    hold a record if there is one. *)
Record quiet (env : journal_env) (state : JournalState) (L : log) : Prop := {
  q_open : je_open env = Ok tt;
  q_before : je_before env = Ok state;
  q_after : je_after env = Ok state;
  q_log : log_ok L;
  q_end : ∀ r, r ∈ L → (ur_position r < js_next_position state)%Z;
  q_read : ∀ p, boundary state L p → ∃ page, je_read env p (js_identity state) = Ok page ∧
    page_ok L p page ∧ boundary state L (jp_next_position page) ∧
    (from L p ≠ [] → jp_records page ≠ []) }.

(** A checkpoint of this journal, with its history retained. *)
Definition current (state : JournalState) (L : log) (c : WindowsCheckpoint) : Prop :=
  wc_journal_identity c = js_identity state ∧ (retained_start state ≤ wc_next_position c)%Z ∧
  boundary state L (wc_next_position c).

Lemma validate_current state c :
  wc_journal_identity c = js_identity state → (retained_start state ≤ wc_next_position c)%Z →
  validate c (js_identity state) (retained_start state) = Ok tt.
Proof.
  intros Hi Hr. unfold validate. rewrite Hi, N.eqb_refl. simpl.
  destruct (Z.ltb_spec (wc_next_position c) (retained_start state)); [lia|done].
Qed.

Lemma read_records_total env v before maximum q rs tl c es :
  is_ok (replay (je_lookup env) v c (rs ++ tl)) = true →
  is_ok (read_records env v before maximum q rs c es) = true.
Proof.
  revert c es. induction rs as [|r rs IH]; intros c es; simpl; [done|].
  unfold mbind, result_bind. destruct (canonical_events _ c v r) as [[found d]|e]; [|done].
  intros H. destruct (_ <? _); [done|]. destruct (_ =? _); [done|]. apply IH.
  set (next := match rs with n :: _ => ur_position n | [] => q end).
  pose proof (replay_cursor (je_lookup env) v (set_next_position next d) d (rs ++ tl) eq_refl eq_refl) as Hr.
  destruct (replay _ _ (set_next_position next d) _), (replay _ _ d _); try done.
Qed.

Lemma read_changes_total env state L v c maximum :
  quiet env state L → checkpoint_ok c → current state L c →
  is_ok (remaining (je_lookup env) v L c) = true →
  is_ok (read env (enc v c) maximum) = true.
Proof using from_to.
  intros Hq Hc (Hi & Hr & Hb) Hrem. unfold read_changes. rewrite decode_encode_ok by done.
  cbn [mbind result_bind ensure]. rewrite (q_open _ _ _ Hq). cbn [mbind result_bind].
  rewrite (q_before _ _ _ Hq). cbn [mbind result_bind]. rewrite validate_current by done.
  cbn [mbind result_bind].
  destruct (emit_pending _ maximum) as [out d] eqn:Hemit.
  assert (d = set_pending_events (wc_pending_events d) (set_lowest_valid (retained_start state) c)) as Hd
    by (unfold emit_pending in Hemit; by injection Hemit as _ <-).
  apply (emit_pending_advanced (je_lookup env) v L) in Hemit as (Hadv & Hout & Hnext & Hpend).
  pose proof (adv_identity _ _ _ _ _ _ Hadv) as Hid. simpl in Hid, Hnext.
  destruct (0 <? length (wc_pending_events d)) eqn:Hz, (length out =? maximum) eqn:Hm; try done.
  apply Nat.ltb_ge in Hz. apply Nat.eqb_neq in Hm. simpl in Hout.
  rewrite Hid, Hnext, Hi. cbn [orb].
  destruct (q_read _ _ _ Hq (wc_next_position c) Hb) as (page & Hread & [Hge Hpage] & _). rewrite Hread. simpl.
  destruct (Z.ltb_spec (jp_next_position page) (wc_next_position c)); [lia|]. simpl.
  assert (is_ok (replay (je_lookup env) v d (jp_records page ++ from L (jp_next_position page))) = true) as Hok.
  { rewrite Hpage. unfold remaining in Hrem.
    pose proof (replay_cursor (je_lookup env) v d c (from L (wc_next_position c))) as Hrc.
    rewrite Hd in Hrc at 1 2. specialize (Hrc eq_refl eq_refl).
    destruct (replay _ _ d _), (replay _ _ c _); done. }
  apply (read_records_total _ _ state maximum (jp_next_position page) _ _ _ out) in Hok.
  destruct (read_records _ _ _ _ _ _ d out) as [[[es c'] early]|] eqn:Hrun; [|done].
  destruct early as [|]; [done|].
  apply (read_records_advanced _ _ L) in Hrun as (new & _ & Hadv' & _);
    try done; [|apply Hq|destruct (wc_pending_events d); [done|simpl in *; lia]|by rewrite Hnext|lia| |lia].
  - simpl. rewrite (q_after _ _ _ Hq). simpl.
    pose proof (adv_next _ _ _ _ _ _ Hadv'). pose proof (adv_identity _ _ _ _ _ _ Hadv').
    rewrite validate_current; [done|congruence|lia].
  - by apply (adv_ok _ _ _ _ _ _ Hadv).
Qed.

(** Reading until no more is announced. *)
Fixpoint follow (fuel : nat) (env : journal_env) (checkpoint : ProviderCheckpoint) (maximum : nat)
  : option (PlatformResult (list FilesystemEvent * ProviderCheckpoint)) :=
  match fuel with
  | O => None
  | S fuel =>
      match read env checkpoint maximum with
      | Err e => Some (Err e)
      | Ok (es, batch) =>
          if cb_has_more batch then
            match follow fuel env (cb_checkpoint batch) maximum with
            | Some (Ok (es', final)) => Some (Ok (es ++ es', final))
            | other => other
            end
          else Some (Ok (es, cb_checkpoint batch))
      end
  end.

(** An upper bound for the number of further calls. *)
Definition calls_left (state : JournalState) (c : WindowsCheckpoint) : nat :=
  length (wc_pending_events c) + 2 * Z.to_nat (js_next_position state - wc_next_position c).

Lemma calls_left_decreases env state L v c maximum es batch c' :
  quiet env state L → current state L c → 1 ≤ maximum → cb_has_more batch = true →
  batch_ok env L v c maximum es batch c' → calls_left state c' < calls_left state c.
Proof.
  intros Hq (Hi & Hr & Hat) Hmax Hmore Hb. unfold calls_left.
  assert (∀ st, je_before env = Ok st ∨ je_after env = Ok st → st = state) as Hst.
  { intros st. rewrite (q_before _ _ _ Hq), (q_after _ _ _ Hq). naive_solver. }
  destruct (bo_progress _ _ _ _ _ _ _ _ Hb Hmax) as [(Hne & Hlt & Hp)|[[Hn ?]|(page & Hpage & Hnil & Hn & Hp)]].
  - destruct (from L (wc_next_position c)) as [|r l] eqn:Hf; [done|].
    assert (r ∈ from L (wc_next_position c)) as [Hge Hin]%list_elem_of_filter by (rewrite Hf; by left).
    apply (q_end _ _ _ Hq) in Hin. lia.
  - rewrite Hn. lia.
  - exfalso. destruct (bo_more _ _ _ _ _ _ _ _ Hb) as (st & ->%Hst & Hm).
    rewrite Hmore, Hp, Hn in Hm. simpl in Hm. symmetry in Hm. apply Z.ltb_lt in Hm.
    destruct (q_read _ _ _ Hq (wc_next_position c) Hat) as (page' & Hread & _ & _ & Hsome).
    rewrite Hi, Hread in Hpage. simplify_eq. apply Hsome; auto.
Qed.

Lemma follow_total fuel env state L v c maximum es :
  quiet env state L → checkpoint_ok c → current state L c → 1 ≤ maximum →
  remaining (je_lookup env) v L c = Ok es → calls_left state c < fuel →
  ∃ c', follow fuel env (enc v c) maximum = Some (Ok (es, enc v c')) ∧ checkpoint_ok c' ∧
    current state L c' ∧ wc_pending_events c' = [] ∧ (js_next_position state ≤ wc_next_position c')%Z.
Proof using from_to.
  intros Hq. revert c es. induction fuel as [|fuel IH]; intros c es Hc Hcur Hmax Hrem Hfuel; [lia|].
  simpl. pose proof (read_changes_total env state L v c maximum Hq Hc Hcur) as Htot.
  rewrite Hrem in Htot. specialize (Htot eq_refl).
  destruct (read env (enc v c) maximum) as [[out batch]|] eqn:Hread; [|done].
  destruct Hcur as (Hi & Hr & Hat).
  pose proof Hread as [c' Hb]%(read_changes_batch env L); [|apply Hq|done|].
  2: { intros page Hp. destruct (q_read _ _ _ Hq _ Hat) as (page' & Hp' & Hok & _).
       rewrite Hi, Hp' in Hp. by simplify_eq. }
  assert (boundary state L (wc_next_position c')) as Hat'.
  { destruct (bo_position _ _ _ _ _ _ _ _ Hb) as [->|[Hne|(page & Hp & ->)]]; [done|by intros _|].
    destruct (q_read _ _ _ Hq _ Hat) as (page' & Hp' & _ & Hend & _).
    rewrite Hi, Hp' in Hp. by simplify_eq. }
  destruct (bo_advanced _ _ _ _ _ _ _ _ Hb) as [Hs Hok Hid Hnext].
  assert (current state L c') as Hcur' by (split; [congruence|split; [lia|done]]).
  rewrite (bo_checkpoint _ _ _ _ _ _ _ _ Hb). rewrite Hrem in Hs.
  destruct (remaining _ _ _ c') as [rest|] eqn:Hrem'; [|done]. injection Hs as ->.
  destruct (cb_has_more batch) eqn:Hmore.
  - destruct (IH c' rest) as (c'' & -> & Hfin); try done; [by apply Hok| |by eauto].
    pose proof (calls_left_decreases env state L v c maximum out batch c' Hq). unfold current in *.
    specialize (H ltac:(done) Hmax Hmore Hb). lia.
  - destruct (bo_more _ _ _ _ _ _ _ _ Hb) as (st & Hst & Hm). rewrite Hmore in Hm.
    assert (st = state) as -> by (rewrite (q_before _ _ _ Hq), (q_after _ _ _ Hq) in Hst; naive_solver).
    symmetry in Hm. apply orb_false_iff in Hm as [Hz%Nat.ltb_ge Hge%Z.ltb_ge].
    assert (wc_pending_events c' = []) as Hp by (destruct (wc_pending_events c'); [done|simpl in *; lia]).
    assert (from L (wc_next_position c') = []) as Hnil.
    { apply filter_none, Forall_forall. intros r Hin%(q_end _ _ _ Hq). lia. }
    unfold remaining in Hrem'. rewrite Hnil, Hp in Hrem'. injection Hrem' as <-.
    exists c'. rewrite app_nil_r. split_and!; try done. by apply Hok.
Qed.
End read_spec.
