(* ===== verification/JournalFixtures.v ===== *)
(** A concrete journal for witnesses: a codec of checkpoints that satisfies the round trip, a log of
    three records on one volume, and the world that serves it in pages of two records. *)
From Stdlib Require Import Ascii String.
From stdpp Require Import base strings numbers list countable sorting.
From S2P Require Import Prelude Ids Order Models Fixtures Text Frames Usn Platform Journal JournalSpec.

(** ** A codec *)

Global Instance FileKind_countable : Countable FileKind.
Proof.
  apply (inj_countable' (λ k, match k with KFile => 0 | KDirectory => 1 | KSymlink => 2 | KSpecial => 3 | KOther => 4 end)
    (λ n, match n with 0 => KFile | 1 => KDirectory | 2 => KSymlink | 3 => KSpecial | _ => KOther end)).
  by intros [].
Defined.

Global Instance Availability_countable : Countable Availability.
Proof.
  apply (inj_countable' (λ k, match k with AOnline => 0 | AOffline => 1 | AUnknown => 2 end)
    (λ n, match n with 0 => AOnline | 1 => AOffline | _ => AUnknown end)).
  by intros [].
Defined.

Global Instance FileMetadata_countable : Countable FileMetadata.
Proof.
  apply (inj_countable' (λ m, (m_kind m, m_size m, m_created_at m, m_modified_at m, m_hidden m, m_availability m))
    (λ '(a, b, c, d, e, f), MkFileMetadata a b c d e f)).
  by intros [].
Defined.

Global Instance FileObjectSnapshot_eq_dec : EqDecision FileObjectSnapshot.
Proof. solve_decision. Defined.
Global Instance FileLinkSnapshot_eq_dec : EqDecision FileLinkSnapshot.
Proof. solve_decision. Defined.
Global Instance ReconciliationReason_eq_dec : EqDecision ReconciliationReason.
Proof. solve_decision. Defined.
Global Instance FilesystemEvent_eq_dec : EqDecision FilesystemEvent.
Proof. solve_decision. Defined.

Global Instance ReconciliationReason_countable : Countable ReconciliationReason.
Proof.
  apply (inj_countable'
    (λ k, match k with SourceHistoryUnavailable => 0 | EventOverflow => 1 | InconsistentSnapshot => 2
                     | ProviderRequested => 3 end)
    (λ n, match n with 0 => SourceHistoryUnavailable | 1 => EventOverflow | 2 => InconsistentSnapshot
                     | _ => ProviderRequested end)).
  by intros [].
Defined.

Global Instance FilesystemEvent_countable : Countable FilesystemEvent.
Proof.
  apply (inj_countable'
    (λ e, match e return ((FileKey * FileMetadata) + (N * FileKey * option FileKey * string))
                         + ((N * FileKey) + FileKey + (N * ReconciliationReason)) with
          | ObjectObserved o => inl (inl (fo_object_key o, fo_metadata o))
          | LinkObserved l => inl (inr (fl_file_link_id l, fl_object_key l, fl_parent_key l, fl_name l))
          | LinkRemoved i k => inr (inl (inl (i, k)))
          | ObjectRemoved k => inr (inl (inr k))
          | ReconciliationRequired w r => inr (inr (w, r))
          end)
    (λ x, match x with
          | inl (inl (k, m)) => ObjectObserved (MkFileObjectSnapshot k m)
          | inl (inr (i, k, p, n)) => LinkObserved (MkFileLinkSnapshot i k p n)
          | inr (inl (inl (i, k))) => LinkRemoved i k
          | inr (inl (inr k)) => ObjectRemoved k
          | inr (inr (w, r)) => ReconciliationRequired w r
          end)).
  by intros [[]|[]| | |].
Defined.

Abbreviation checkpoint_tuple :=
  (N * Z * Z * Z * list FilesystemEvent * list (N * N) * list (N * string * N))%type.

Definition checkpoint_to_tuple (c : WindowsCheckpoint) : checkpoint_tuple :=
  (wc_journal_identity c, wc_next_position c, wc_lowest_valid_position c, wc_snapshot_generation c,
   wc_pending_events c, (λ p, (pr_file_reference p, pr_file_link_id p)) <$> wc_pending_renames c,
   (λ k, (kl_parent_reference k, kl_name k, kl_file_link_id k)) <$> wc_known_links c).

Definition checkpoint_of_tuple (t : checkpoint_tuple) : WindowsCheckpoint :=
  let '(i, n, l, g, es, rs, ks) := t in
  MkWindowsCheckpoint i n l g es ((λ p, MkPendingRename p.1 p.2) <$> rs)
    ((λ k, MkKnownLinkIdentity k.1.1 k.1.2 k.2) <$> ks).

Lemma checkpoint_of_to_tuple c : checkpoint_of_tuple (checkpoint_to_tuple c) = c.
Proof.
  destruct c as [i n l g es rs ks]. unfold checkpoint_of_tuple, checkpoint_to_tuple. simpl. f_equal;
    rewrite <-list_fmap_compose; (etransitivity; [|apply list_fmap_id]); apply list_fmap_ext;
    by intros ? [] ?.
Qed.

(** Bytes 0 and 1. *)
Fixpoint bits_of (p : positive) : list N :=
  match p with xH => [] | xO p => 0%N :: bits_of p | xI p => 1%N :: bits_of p end.
Fixpoint of_bits (l : list N) : positive :=
  match l with [] => xH | b :: l => if (b =? 0)%N then xO (of_bits l) else xI (of_bits l) end.
Lemma of_bits_of p : of_bits (bits_of p) = p.
Proof. induction p; simpl; congruence. Qed.

Definition fixture_to_json (c : WindowsCheckpoint) : list N :=
  bits_of (countable.encode (checkpoint_to_tuple c)).
Definition fixture_from_json (l : list N) : option WindowsCheckpoint :=
  checkpoint_of_tuple <$> countable.decode (of_bits l).

Lemma fixture_from_to c : fixture_from_json (fixture_to_json c) = Some c.
Proof.
  unfold fixture_from_json, fixture_to_json. rewrite of_bits_of, decode_encode.
  cbn [fmap option_fmap option_map]. by rewrite checkpoint_of_to_tuple.
Qed.

(** ** A log *)

Definition name_old : list N := [97%N].
Definition name_new : list N := [98%N].
Definition record_at (position : Z) (file : N) (reason : N) (name : list N) : SanitizedUsnRecord :=
  MkSanitizedUsnRecord file 5 position reason 0 name false.

(** A file is created, loses its old name and gets a new one. *)
Definition sample_log : log :=
  [record_at 100 7 REASON_FILE_CREATE name_old;
   record_at 180 7 REASON_RENAME_OLD_NAME name_old;
   record_at 260 7 REASON_RENAME_NEW_NAME name_new].

Definition sample_state : JournalState := MkJournalState 9 0 340 0.

Definition sample_lookup : lookup_env := MkLookupEnv (λ _ n, Ok n)
  (λ _ k, Ok (Observed (MkFileObjectSnapshot k (file_meta 3)))).

(** Pages of two records. *)
Definition sample_page (p : Z) : JournalPage :=
  let found := from sample_log p in
  MkJournalPage (match drop 2 found with r :: _ => ur_position r | [] => Z.max p 340 end) (take 2 found).

Definition sample_env : journal_env :=
  MkJournalEnv (Ok tt) (Ok sample_state) (λ p _, Ok (sample_page p)) (λ _, sample_lookup) (Ok sample_state).

Definition sample_checkpoint : WindowsCheckpoint := MkWindowsCheckpoint 9 100 0 1 [] [] [].

Lemma sample_log_ok : log_ok sample_log.
Proof. repeat (constructor; simpl); lia. Qed.

Lemma sample_checkpoint_ok : checkpoint_ok sample_checkpoint.
Proof. split; constructor. Qed.

Lemma sample_from p :
  from sample_log p =
    if decide (p ≤ 100)%Z then sample_log else if decide (p ≤ 180)%Z then drop 1 sample_log
    else if decide (p ≤ 260)%Z then drop 2 sample_log else [].
Proof.
  unfold from, sample_log. rewrite !filter_cons, filter_nil. simpl.
  repeat case_decide; simpl in *; try lia; done.
Qed.

Lemma sample_page_ok p : page_ok sample_log p (sample_page p).
Proof.
  unfold page_ok, sample_page. rewrite (sample_from p).
  repeat case_decide; simpl; rewrite ?(Z.max_r p 340) by lia; split; try done; try lia.
  rewrite sample_from, !decide_False by lia. done.
Qed.

Lemma sample_quiet : quiet sample_env sample_state sample_log.
Proof.
  split; try done; [apply sample_log_ok| |].
  - intros r Hr. unfold sample_log in Hr. rewrite !elem_of_cons, elem_of_nil in Hr.
    destruct Hr as [->|[->|[->|[]]]]; simpl; lia.
  - intros p Hp. exists (sample_page p). split; [done|]. split; [apply sample_page_ok|].
    unfold boundary, sample_page. rewrite (sample_from p). simpl.
    repeat case_decide; simpl; split; try done; intros Hlt; try lia.
Qed.
