(* ===== verification/JournalStream.v ===== *)
(** The promises of the Windows provider's change stream, with concrete instances. *)
From Stdlib Require Import Ascii String.
From stdpp Require Import base strings numbers list countable sets sorting.
From S2P Require Import Prelude Ids Order Models Fixtures Text Frames Usn Platform Journal JournalSpec.
From S2P Require Import JournalFixtures.

Section claims.
Context (to_json : WindowsCheckpoint → list N) (from_json : list N → option WindowsCheckpoint).

(** C8 (exactly once): reading changes from a checkpoint cuts the stream of events of the
    journal. What was left of the stream before the call is the events the call emitted followed
    by what is left at the checkpoint it returned, whether the page, the event budget or a
    record's second event ended the call; the call emits at most the events asked for and reports
    their number. *)
Theorem read_changes_stream env L v c maximum es batch :
  (∀ c, from_json (to_json c) = Some c) → log_ok L → checkpoint_ok c →
  (∀ page, je_read env (wc_next_position c) (wc_journal_identity c) = Ok page →
    page_ok L (wc_next_position c) page) →
  read_changes to_json from_json UsnJournal env (encode to_json v c) maximum = Ok (es, batch) →
  ∃ c', decode from_json (cb_checkpoint batch) = Ok c' ∧
    remaining (je_lookup env) v L c = app es <$> remaining (je_lookup env) v L c' ∧
    length es ≤ maximum ∧ cb_emitted_events batch = Z.of_nat (length es).
Proof.
  intros Hft HL Hc Hpage Hread.
  destruct (read_changes_batch to_json from_json Hft env L v c maximum es batch HL Hc Hpage Hread) as [c' Hb].
  exists c'. rewrite (bo_checkpoint _ _ _ _ _ _ _ _ _ Hb).
  pose proof (bo_advanced _ _ _ _ _ _ _ _ _ Hb) as Hadv.
  split; [apply (decode_encode_ok _ _ Hft), (adv_ok _ _ _ _ _ _ Hadv), Hc|].
  split; [apply (adv_stream _ _ _ _ _ _ Hadv)|]. split; [apply Hb|apply Hb].
Qed.

(** C37 (checkpoint type): the checkpoint a call returns is a well-formed checkpoint of the same
    journal: it decodes to itself, both of its vectors are strictly sorted, so that bisection
    finds what was stored, and its position is not before the one read from. *)
Theorem read_changes_checkpoint env L v c maximum es batch :
  (∀ c, from_json (to_json c) = Some c) → log_ok L → checkpoint_ok c →
  (∀ page, je_read env (wc_next_position c) (wc_journal_identity c) = Ok page →
    page_ok L (wc_next_position c) page) →
  read_changes to_json from_json UsnJournal env (encode to_json v c) maximum = Ok (es, batch) →
  ∃ c', cb_checkpoint batch = encode to_json v c' ∧ decode from_json (cb_checkpoint batch) = Ok c' ∧
    checkpoint_ok c' ∧ wc_journal_identity c' = wc_journal_identity c ∧
    (wc_next_position c ≤ wc_next_position c')%Z.
Proof.
  intros Hft HL Hc Hpage Hread.
  destruct (read_changes_batch to_json from_json Hft env L v c maximum es batch HL Hc Hpage Hread) as [c' Hb].
  exists c'. rewrite (bo_checkpoint _ _ _ _ _ _ _ _ _ Hb).
  destruct (bo_advanced _ _ _ _ _ _ _ _ _ Hb) as [_ Hok Hid Hnext].
  split_and!; try done; [apply (decode_encode_ok _ _ Hft)|]; by apply Hok.
Qed.

(** C27 (draining): on a journal that does not change, calling again while more is announced ends
    after a number of calls that is known beforehand, for every positive event budget; it
    delivers exactly the stream and leaves nothing. *)
Theorem follow_drains env state L v c maximum es :
  (∀ c, from_json (to_json c) = Some c) →
  quiet env state L → checkpoint_ok c → current state L c → 1 ≤ maximum →
  remaining (je_lookup env) v L c = Ok es →
  ∃ c', follow to_json from_json (S (calls_left state c)) env (encode to_json v c) maximum =
      Some (Ok (es, encode to_json v c')) ∧
    remaining (je_lookup env) v L c' = Ok [].
Proof.
  intros Hft Hq Hc Hcur Hmax Hrem.
  destruct (follow_total to_json from_json Hft (S (calls_left state c)) env state L v c maximum es)
    as (c' & Hf & _ & _ & Hp & Hend); try done; [lia|].
  exists c'. split; [done|]. unfold remaining. rewrite Hp.
  assert (from L (wc_next_position c') = []) as ->; [|done].
  apply filter_none, Forall_forall. intros r Hin%(q_end _ _ _ Hq). lia.
Qed.

(** A checkpoint of another journal, or of history that is no longer retained, is refused as a
    gap. *)
Theorem read_changes_gap tracking env v c maximum state :
  (∀ c, from_json (to_json c) = Some c) → checkpoint_ok c →
  tracking = UsnJournal → je_open env = Ok tt → je_before env = Ok state →
  wc_journal_identity c ≠ js_identity state ∨ (wc_next_position c < retained_start state)%Z →
  ∃ e, read_changes to_json from_json tracking env (encode to_json v c) maximum = Err e ∧
    pe_kind e = SourceHistoryGap.
Proof.
  intros Hft Hc -> Hopen Hbefore Hgap. unfold read_changes. rewrite (decode_encode_ok _ _ Hft) by done.
  cbn [mbind result_bind ensure]. rewrite Hopen. cbn [mbind result_bind]. rewrite Hbefore.
  cbn [mbind result_bind]. eexists. split; [|shelve]. unfold validate.
  assert (negb (wc_journal_identity c =? js_identity state)%N
    || (wc_next_position c <? retained_start state)%Z = true) as ->; [|reflexivity].
  destruct Hgap as [Hne|Hlt]; [by apply N.eqb_neq in Hne as ->|].
  apply Z.ltb_lt in Hlt as ->. apply orb_true_r.
  Unshelve. done.
Qed.
End claims.

(** ** Renames *)

(** A record that does not touch the rename waiting for a file. *)
Definition unrelated (f : N) (r : SanitizedUsnRecord) : Prop :=
  ur_file_reference r ≠ f ∨
  has_reason (ur_reason r) REASON_RENAME_OLD_NAME = false ∧
  has_reason (ur_reason r) REASON_RENAME_NEW_NAME = false.

Lemma record_link_id_pending c v r f :
  checkpoint_ok c → unrelated f r → has_reason (ur_reason r) REASON_RENAME_OLD_NAME = false →
  pending_rename (record_link_id c v r).2 f = pending_rename c f.
Proof.
  intros Hc Hun Hold. unfold record_link_id.
  destruct (has_reason (ur_reason r) REASON_RENAME_NEW_NAME) eqn:Hnew; [|done].
  destruct Hun as [Hne|[_ Hn]]; [|congruence].
  pose proof (pending_rename_take c (ur_file_reference r) f Hc) as Ht.
  rewrite decide_False in Ht by done. by destruct (take_rename _ _).
Qed.

Lemma canonical_events_pending env c v r es c' f :
  checkpoint_ok c → unrelated f r → canonical_events env c v r = Ok (es, c') →
  pending_rename c' f = pending_rename c f.
Proof.
  intros Hc Hun. unfold canonical_events. destruct (ur_had_invalid_utf16 r); [naive_solver|].
  destruct (has_reason (ur_reason r) REASON_RENAME_OLD_NAME) eqn:Hold.
  { intros [= <- <-]. destruct Hun as [Hne|[? _]]; [|congruence].
    rewrite pending_rename_remember by (by apply forget_known_link_ok). by rewrite decide_False. }
  pose proof (record_link_id_pending c v r f Hc Hun Hold) as Hp.
  destruct (record_link_id c v r) as [id d]. simpl in Hp.
  destruct (has_reason (ur_reason r) REASON_FILE_DELETE); [intros [= <- <-]; done|].
  intros H. minv. destruct x; [| |naive_solver]; destruct (_ && _); by injection H as <- <-.
Qed.

Lemma replay_pending lookup v rs c es c' f :
  checkpoint_ok c → Forall (unrelated f) rs → replay lookup v c rs = Ok (es, c') →
  checkpoint_ok c' ∧ pending_rename c' f = pending_rename c f.
Proof.
  intros Hc Hrs. revert c es Hc. induction Hrs as [|r rs Hr _ IH]; intros c es Hc; simpl; [naive_solver|].
  intros H. apply result_bind_Ok in H as ([e1 d] & H1 & H). apply result_bind_Ok in H as ([e2 d'] & H2 & H).
  injection H as <- <-. pose proof (canonical_events_ok _ _ _ _ _ _ H1 Hc) as [Hd _].
  apply (canonical_events_pending _ _ _ _ _ _ f) in H1; try done.
  destruct (IH _ _ Hd H2) as [? ->]. done.
Qed.

Lemma replay_app lookup v c rs rs' :
  replay lookup v c (rs ++ rs') =
    ('(es, c1) ← replay lookup v c rs; '(es', c2) ← replay lookup v c1 rs'; Ok (es ++ es', c2)).
Proof.
  revert c. induction rs as [|r rs IH]; intros c; simpl.
  { unfold mbind, result_bind. by destruct (replay lookup v c rs') as [[]|]. }
  unfold mbind, result_bind. destruct (canonical_events _ c v r) as [[es d]|e]; [|done].
  rewrite IH. unfold mbind, result_bind. destruct (replay lookup v d rs) as [[es1 d1]|e]; [|done].
  destruct (replay lookup v d1 rs') as [[es2 d2]|e]; [|done]. by rewrite app_assoc.
Qed.

Lemma has_reason_lor reason a b :
  has_reason reason (N.lor a b) = has_reason reason a || has_reason reason b.
Proof.
  unfold has_reason. rewrite N.land_lor_distr_r.
  destruct (N.eqb_spec (N.lor (N.land reason a) (N.land reason b)) 0) as [Hz|Hz].
  - apply N.lor_eq_0_iff in Hz as [-> ->]. done.
  - destruct (N.eqb_spec (N.land reason a) 0) as [Ha|]; [|done].
    destruct (N.eqb_spec (N.land reason b) 0) as [Hb|]; [|done]. by rewrite Ha, Hb in Hz.
Qed.

(** The record that gives a file its new name uses up the waiting rename. *)
Lemma canonical_events_renamed env c v r id es c' :
  checkpoint_ok c → ur_had_invalid_utf16 r = false →
  has_reason (ur_reason r) REASON_RENAME_OLD_NAME = false →
  has_reason (ur_reason r) REASON_RENAME_NEW_NAME = true →
  has_reason (ur_reason r) REASON_FILE_DELETE = false →
  pending_rename c (ur_file_reference r) = Some id →
  canonical_events env c v r = Ok (es, c') →
  let name := string_of_text (ur_name r) in
  let object := file_key v (ur_file_reference r) in
  known_link_id c' (ur_parent_reference r) name = Some id ∧
  (lookup_record env (ur_parent_reference r) name object = Ok LookupUnavailable ∨
   LinkObserved (MkFileLinkSnapshot id object (Some (file_key v (ur_parent_reference r))) name) ∈ es).
Proof.
  intros Hc Hutf Hold Hnew Hdel Hp H name object. unfold canonical_events in H.
  rewrite Hutf, Hold, Hdel in H. unfold record_link_id in H.
  pose proof (take_rename_ok c (ur_file_reference r) Hc) as Hc1.
  rewrite Hnew, take_rename_eq, Hp in H. rewrite take_rename_eq in Hc1. simpl in H, Hc1.
  set (c1 := set_pending_renames _ c) in *.
  assert (known_link_id (remember_known_link c1 (ur_parent_reference r) name id)
    (ur_parent_reference r) name = Some id) as Hknown.
  { rewrite known_link_id_remember by done. by rewrite decide_True. }
  rewrite has_reason_lor, Hnew, orb_true_r, andb_false_r in H. minv.
  destruct x; injection H as <- <-; (split; [done|]); [right|right|by left]; set_solver.
Qed.

(** Identity across renames: when a file's old-name record is followed, after any records
    that are not renames of the same file, by its new-name record, the link observed under the
    new name has the identity the old name had, and later records find it under the new name. The
    event is withheld only when the file cannot be looked up. *)
Theorem rename_keeps_link lookup v c ro rs rn es c' :
  checkpoint_ok c →
  ur_had_invalid_utf16 ro = false → ur_had_invalid_utf16 rn = false →
  has_reason (ur_reason ro) REASON_RENAME_OLD_NAME = true →
  has_reason (ur_reason rn) REASON_RENAME_OLD_NAME = false →
  has_reason (ur_reason rn) REASON_RENAME_NEW_NAME = true →
  has_reason (ur_reason rn) REASON_FILE_DELETE = false →
  ur_file_reference rn = ur_file_reference ro →
  Forall (unrelated (ur_file_reference ro)) rs →
  replay lookup v c (ro :: rs ++ [rn]) = Ok (es, c') →
  let name := string_of_text (ur_name rn) in
  let object := file_key v (ur_file_reference rn) in
  known_link_id c' (ur_parent_reference rn) name = Some (path_link_id c v ro) ∧
  (lookup_record (lookup (ur_position rn)) (ur_parent_reference rn) name object = Ok LookupUnavailable ∨
   LinkObserved (MkFileLinkSnapshot (path_link_id c v ro) object
     (Some (file_key v (ur_parent_reference rn))) name) ∈ es).
Proof.
  intros Hc Hio Hin Hold Hold' Hnew Hdel Hfile Hrs H name object. simpl in H.
  unfold canonical_events in H at 1. rewrite Hio, Hold in H. cbn [mbind result_bind] in H.
  rewrite replay_app in H.
  apply result_bind_Ok in H as ([e1 c1] & H & [= <- <-]).
  apply result_bind_Ok in H as ([e2 c2] & H2 & H). apply result_bind_Ok in H as ([e3 c3] & H & [= <- <-]).
  apply (replay_pending _ _ _ _ _ _ (ur_file_reference ro)) in H2 as [Hc2 Hp]; try done.
  2: { by apply remember_rename_ok, forget_known_link_ok. }
  rewrite pending_rename_remember, decide_True in Hp by (done || by apply forget_known_link_ok).
  simpl in H. apply result_bind_Ok in H as ([e4 c4] & H & [= <- <-]). rewrite app_nil_r. simpl.
  rewrite <-Hfile in Hp. destruct (canonical_events_renamed _ _ _ _ _ _ _ Hc2 Hin Hold' Hnew Hdel Hp H) as [Hk Hl].
  split; [done|]. destruct Hl as [Hl|Hl]; [by left|right]. apply elem_of_app. by right.
Qed.

(** ** Concrete instances *)

Abbreviation sample_read := (read_changes fixture_to_json fixture_from_json UsnJournal sample_env).

Lemma sample_read_1 :
  sample_read (encode fixture_to_json vol sample_checkpoint) 1 =
    Ok ([observe_file 7 3],
        MkChangeBatch (encode fixture_to_json vol
          (set_pending_events [observe_link (link_hash (Some (key 5)) "a") 7 (Some 5%N) "a"]
             (set_next_position 180 sample_checkpoint))) 1 true).
Proof.
  unfold read_changes. rewrite (decode_encode_ok _ _ fixture_from_to) by apply sample_checkpoint_ok.
  vm_compute. reflexivity.
Qed.

Lemma sample_pages page :
  je_read sample_env (wc_next_position sample_checkpoint) (wc_journal_identity sample_checkpoint) = Ok page →
  page_ok sample_log (wc_next_position sample_checkpoint) page.
Proof. intros [= <-]. apply sample_page_ok. Qed.

Lemma read_changes_stream_witness :
  ∃ c' rest, remaining (λ _, sample_lookup) vol sample_log c' = Ok rest ∧
    remaining (λ _, sample_lookup) vol sample_log sample_checkpoint = Ok (observe_file 7 3 :: rest).
Proof.
  destruct (read_changes_stream fixture_to_json fixture_from_json sample_env sample_log vol
    sample_checkpoint 1 _ _ fixture_from_to sample_log_ok sample_checkpoint_ok sample_pages sample_read_1)
    as (c' & _ & Hs & _).
  exists c'. cbn [je_lookup sample_env] in Hs.
  destruct (remaining (λ _, sample_lookup) vol sample_log c') as [rest|e] eqn:Hr.
  - exists rest. split; [reflexivity|exact Hs].
  - exfalso. revert Hs. vm_compute. discriminate.
Defined.

Lemma read_changes_checkpoint_witness :
  ∃ c', checkpoint_ok c' ∧ wc_journal_identity c' = 9%N ∧ (100 ≤ wc_next_position c')%Z.
Proof.
  destruct (read_changes_checkpoint fixture_to_json fixture_from_json sample_env sample_log vol
    sample_checkpoint 1 _ _ fixture_from_to sample_log_ok sample_checkpoint_ok sample_pages sample_read_1)
    as (c' & _ & _ & Hok & Hid & Hnext).
  exists c'. split; [exact Hok|]. split; [exact Hid|exact Hnext].
Defined.

(** Three calls of two events at most deliver the stream: the new name keeps the link of the old. *)
Definition sample_stream : list FilesystemEvent :=
  [observe_file 7 3; observe_link (link_hash (Some (key 5)) "a") 7 (Some 5%N) "a";
   observe_link (link_hash (Some (key 5)) "a") 7 (Some 5%N) "b"].

Lemma sample_current : current sample_state sample_log sample_checkpoint.
Proof. split; [done|]. split; [done|]. by intros _. Qed.

Lemma follow_drains_witness :
  ∃ c', follow fixture_to_json fixture_from_json 481 sample_env
      (encode fixture_to_json vol sample_checkpoint) 2 =
    Some (Ok (sample_stream, encode fixture_to_json vol c')).
Proof.
  destruct (follow_drains fixture_to_json fixture_from_json sample_env sample_state sample_log vol
    sample_checkpoint 2 sample_stream fixture_from_to sample_quiet sample_checkpoint_ok sample_current)
    as (c' & Hf & _).
  - lia.
  - vm_compute. reflexivity.
  - exists c'. exact Hf.
Defined.

Lemma read_changes_gap_witness :
  ∃ e, read_changes fixture_to_json fixture_from_json UsnJournal sample_env
      (encode fixture_to_json vol (MkWindowsCheckpoint 8 100 0 1 [] [] [])) 1 = Err e ∧
    pe_kind e = SourceHistoryGap.
Proof.
  apply (read_changes_gap fixture_to_json fixture_from_json UsnJournal sample_env vol
    (MkWindowsCheckpoint 8 100 0 1 [] [] []) 1 sample_state fixture_from_to).
  - split; constructor.
  - reflexivity.
  - reflexivity.
  - reflexivity.
  - left. discriminate.
Defined.

Lemma rename_keeps_link_witness :
  ∃ es c', replay (λ _, sample_lookup) vol sample_checkpoint
      (record_at 180 7 REASON_RENAME_OLD_NAME name_old
       :: [record_at 200 8 REASON_FILE_CREATE name_old]
       ++ [record_at 260 7 REASON_RENAME_NEW_NAME name_new]) = Ok (es, c') ∧
    known_link_id c' 5 "b" = Some (link_hash (Some (key 5)) "a").
Proof.
  destruct (replay (λ _, sample_lookup) vol sample_checkpoint
      (record_at 180 7 REASON_RENAME_OLD_NAME name_old
       :: [record_at 200 8 REASON_FILE_CREATE name_old]
       ++ [record_at 260 7 REASON_RENAME_NEW_NAME name_new])) as [[es c']|e] eqn:Hr.
  2: { exfalso. revert Hr. vm_compute. discriminate. }
  exists es, c'. split; [reflexivity|].
  apply (rename_keeps_link (λ _, sample_lookup) vol sample_checkpoint
    (record_at 180 7 REASON_RENAME_OLD_NAME name_old) [record_at 200 8 REASON_FILE_CREATE name_old]
    (record_at 260 7 REASON_RENAME_NEW_NAME name_new) es c' sample_checkpoint_ok); try reflexivity.
  - constructor; [left; discriminate|constructor].
  - exact Hr.
Defined.
