(* ===== verification/Crawl.v ===== *)
(** Snapshots of the Windows provider ([crates/windows-fs/src/provider.rs]): volume discovery,
    [crawl], [initial_scan] and the scan of a selected root.

    What the operating system shows of a directory while it is read is a tree of [entry_view]s:
    each of the calls of the loop ([read_dir], the entry, its metadata, its identity) may fail on
    its own.  Events go to a sink, a fallible operation on a state of its own; what the sink has done
    stays when the scan fails. *)
From Stdlib Require Import Ascii String.
From stdpp Require Import base strings numbers gmap list.
From S2P Require Import Prelude Ids Order Models GraphTables Text Frames Usn Platform Journal.

(** ** What a directory shows *)

Inductive IoErrorKind := IoNotFound | IoPermissionDenied | IoOther.
Record IoError := MkIoError { io_kind : IoErrorKind; io_text : string }.

Definition io_error (operation : string) (error : IoError) : PlatformError :=
  MkPlatformError
    match io_kind error with
    | IoPermissionDenied => PermissionDenied
    | IoNotFound => Unavailable
    | IoOther => Io
    end operation (io_text error).

Definition internal (detail : string) : PlatformError :=
  MkPlatformError Internal "windows_provider" detail.

(** [fs::Metadata] as far as it is used. *)
Record NativeMetadata := MkNativeMetadata {
  nm_is_dir : bool;
  nm_is_symlink : bool;
  nm_is_file : bool;
  nm_file_size : Z;                    (* u64 *)
  nm_creation_time : Z;                (* u64 *)
  nm_last_write_time : Z;              (* u64 *)
  nm_file_attributes : N }.            (* u32 *)

Inductive entry_view :=
| EntryFails (error : IoError)
| MetadataFails (error : IoError)
| IdentityFails (error : PlatformError)
| EntryOk (index : N) (metadata : NativeMetadata) (name : string)
    (children : result IoError (list entry_view)).

Abbreviation dir_view := (result IoError (list entry_view)).

Definition EPOCH : Z := 116444736000000000.

Definition filetime_ms (value : Z) : option Z :=
  if (value <? EPOCH)%Z then None else i64_try_from ((value - EPOCH) / 10000).

Definition native_kind (m : NativeMetadata) : FileKind :=
  if nm_is_dir m then KDirectory else if nm_is_symlink m then KSymlink
  else if nm_is_file m then KFile else KOther.

Definition native_snapshot (object_key : FileKey) (m : NativeMetadata) : FileObjectSnapshot :=
  MkFileObjectSnapshot object_key
    (MkFileMetadata (native_kind m) (nm_file_size m) (filetime_ms (nm_creation_time m))
       (filetime_ms (nm_last_write_time m)) (has_reason (nm_file_attributes m) 0x2) AOnline).

(** [object_snapshot]: [fs::symlink_metadata] of the path. *)
Definition object_snapshot (metadata : result IoError NativeMetadata) (object_key : FileKey)
  : PlatformResult ObjectLookup :=
  match metadata with
  | Ok m => Ok (Observed (native_snapshot object_key m))
  | Err error =>
      match io_kind error with
      | IoNotFound => Ok Missing
      | IoPermissionDenied => Ok LookupUnavailable
      | IoOther => Err (io_error "read_changed_metadata" error)
      end
  end.

(** The failures that are skipped. *)
Definition io_skipped (e : IoError) : bool :=
  match io_kind e with IoNotFound | IoPermissionDenied => true | IoOther => false end.
Definition identity_skipped (e : PlatformError) : bool :=
  match pe_kind e with PermissionDenied | Unavailable => true | _ => false end.

Definition readable_directory (path : dir_view) (descendant : bool)
  : PlatformResult (option (list entry_view)) :=
  match path with
  | Ok entries => Ok (Some entries)
  | Err error => if descendant && io_skipped error then Ok None else Err (io_error "read_directory" error)
  end.

(** ** Crawling *)

Section scan.
Context `{E : StoreEnv}.

(** Lower-cased directory names that are not entered. *)
Record ScopedScanOptions := MkScopedScanOptions { so_excluded_directory_names : list string }.

Definition default_options : ScopedScanOptions := MkScopedScanOptions [].

Definition excluding (names : list string) : ScopedScanOptions :=
  MkScopedScanOptions (to_lowercase <$> names).

Definition descends_into (options : ScopedScanOptions) (name : string) : bool :=
  bool_decide (to_lowercase name ∉ so_excluded_directory_names options).

Context {S : Type}.

Definition Sink : Type := FilesystemEvent → St S PlatformError unit.

Section crawl.
Context (v : volume_id) (options : ScopedScanOptions) (sink : Sink).

(** [emitted.checked_add(1)]. *)
Definition count_event (emitted : Z) : St S PlatformError Z :=
  st_lift (ok_or (u64_checked_add emitted 1) (internal "event count overflow")).

(** An entry of the loop, and what is below it. *)
Fixpoint crawl_entry (parent : option FileKey) (entry : entry_view) (emitted : Z)
  : St S PlatformError Z :=
  match entry with
  | EntryFails e => if io_skipped e then mret emitted else st_fail (io_error "read_directory_entry" e)
  | MetadataFails e => if io_skipped e then mret emitted else st_fail (io_error "read_metadata" e)
  | IdentityFails e => if identity_skipped e then mret emitted else st_fail e
  | EntryOk index metadata name children =>
      let object_key := MkFileKey v index in
      sink (ObjectObserved (native_snapshot object_key metadata)) ;;
      emitted ← count_event emitted;
      sink (LinkObserved (MkFileLinkSnapshot (link_hash parent name) object_key parent name)) ;;
      emitted ← count_event emitted;
      if bool_decide (native_kind metadata = KDirectory)
         && negb (has_reason (nm_file_attributes metadata) 0x400) && descends_into options name
      then
        match children with
        | Err error => if io_skipped error then mret emitted else st_fail (io_error "read_directory" error)
        | Ok entries =>
            (fix crawl_entries (l : list entry_view) (emitted : Z) : St S PlatformError Z :=
               match l with
               | [] => mret emitted
               | e :: l => emitted ← crawl_entry (Some object_key) e emitted; crawl_entries l emitted
               end) entries emitted
        end
      else mret emitted
  end.

Fixpoint crawl_entries (parent : option FileKey) (l : list entry_view) (emitted : Z)
  : St S PlatformError Z :=
  match l with
  | [] => mret emitted
  | e :: l => emitted ← crawl_entry parent e emitted; crawl_entries parent l emitted
  end.

Definition crawl (path : dir_view) (parent : option FileKey) (emitted : Z) : St S PlatformError Z :=
  entries ← st_lift (readable_directory path (match parent with Some _ => true | None => false end));
  match entries with
  | None => mret emitted
  | Some entries => crawl_entries parent entries emitted
  end.

(** The recursive call: a directory is crawled below its own key. *)
Lemma crawl_entry_ok parent index metadata name children n s :
  crawl_entry parent (EntryOk index metadata name children) n s =
    (let object_key := MkFileKey v index in
     sink (ObjectObserved (native_snapshot object_key metadata)) ;;
     n ← count_event n;
     sink (LinkObserved (MkFileLinkSnapshot (link_hash parent name) object_key parent name)) ;;
     n ← count_event n;
     if bool_decide (native_kind metadata = KDirectory)
        && negb (has_reason (nm_file_attributes metadata) 0x400) && descends_into options name
     then crawl children (Some object_key) n
     else mret n) s.
Proof.
  cbn [crawl_entry]. unfold mbind, St_bind.
  destruct (sink _ s) as [[_|] s1]; [|done]. destruct (count_event n s1) as [[n1|] s2]; [|done].
  destruct (sink _ s2) as [[_|] s3]; [|done]. destruct (count_event n1 s3) as [[n2|] s4]; [|done].
  destruct (_ && _); [|done]. unfold crawl. destruct children as [l|e].
  - cbn [readable_directory]. unfold mbind, St_bind, st_lift. clear. revert n2 s4.
    induction l as [|e l IH]; intros n2 s4; [done|]. cbn [crawl_entries]. unfold mbind, St_bind.
    destruct (crawl_entry _ e n2 s4) as [[n3|] s5]; [|done]. apply IH.
  - simpl. unfold mbind, St_bind, st_lift. by destruct (io_skipped e).
Qed.
End crawl.

(** ** Provider *)

Record NativeVolume := MkNativeVolume { nv_descriptor : VolumeDescriptor; nv_root : string }.

Record WindowsFilesystemProvider := MkWindowsFilesystemProvider {
  wp_volumes : gmap volume_id NativeVolume;
  wp_tracking : TrackingMode }.

Definition new_provider : WindowsFilesystemProvider := MkWindowsFilesystemProvider ∅ Snapshot.
Definition new_with_usn_journal : WindowsFilesystemProvider := MkWindowsFilesystemProvider ∅ UsnJournal.

Definition native_volume (p : WindowsFilesystemProvider) (id : volume_id) : PlatformResult NativeVolume :=
  ok_or (wp_volumes p !! id)
    (MkPlatformError Unavailable "resolve_volume" "volume is not currently online").

Definition provider_capabilities (p : WindowsFilesystemProvider) : PlatformCapabilities :=
  let journal := match wp_tracking p with UsnJournal => true | Snapshot => false end in
  MkPlatformCapabilities FamilyWindows FilesystemCrawl
    (if journal then PersistentObjectJournal else SnapshotOnly) OptionalBroker true true journal.

(** Collecting into a [HashMap]: the last volume with an identity wins. *)
Definition discover_volumes (p : WindowsFilesystemProvider) (discovered : PlatformResult (list NativeVolume))
  : PlatformResult (list VolumeDescriptor * WindowsFilesystemProvider) :=
  discovered ← discovered;
  Ok (nv_descriptor <$> discovered,
      MkWindowsFilesystemProvider
        (foldl (λ m nv, <[vd_volume_id (nv_descriptor nv) := nv]> m) ∅ discovered) (wp_tracking p)).

(** ** Scans *)

Definition ascii_lower (c : ascii) : ascii :=
  let n := N_of_ascii c in if ((65 <=? n) && (n <=? 90))%N then ascii_of_N (n + 32) else c.
Definition eq_ignore_ascii_case (a b : string) : bool :=
  bool_decide (ascii_lower <$> list_ascii_of_string a = ascii_lower <$> list_ascii_of_string b).

(** [trim_end_matches] of a set of characters. *)
Fixpoint trim_start (cs l : list ascii) : list ascii :=
  match l with
  | [] => []
  | c :: l' => if bool_decide (c ∈ cs) then trim_start cs l' else l
  end.
Definition trim_end_matches (cs : list ascii) (s : string) : string :=
  string_of_list_ascii (reverse (trim_start cs (reverse (list_ascii_of_string s)))).

Definition backslash : ascii := "092"%char.

(** The world during a scan. *)
Record scan_env := MkScanEnv {
  se_open : PlatformResult unit;       (* [JournalSession::open] *)
  se_before : PlatformResult JournalState;
  se_root_identity : PlatformResult N; (* [native::file_identity] *)
  se_root_metadata : result IoError NativeMetadata;
  se_root : dir_view;
  se_after : PlatformResult JournalState }.

Definition checkpoint_identity (v : volume_id) : N := from_be_bytes (drop 8 (as_bytes v)).

(** The root's two events. *)
Definition emit_root (sink : Sink) (v : volume_id) (object : FileObjectSnapshot) (root_key : FileKey)
  (name : string) : St S PlatformError unit :=
  sink (ObjectObserved object) ;;
  sink (LinkObserved (MkFileLinkSnapshot (root_link_id v) root_key None name)).

Section initial_scan.
Context (to_json : WindowsCheckpoint → list N).

Definition initial_scan (p : WindowsFilesystemProvider) (env : scan_env) (volume : VolumeDescriptor)
  (sink : Sink) : St S PlatformError ScanSummary :=
  let v := vd_volume_id volume in
  st_lift (ensure (match vd_filesystem volume with Some name => eq_ignore_ascii_case name "ntfs" | None => false end)
    (MkPlatformError Unsupported "initial_scan" "START-004 native path supports NTFS only")) ;;
  native ← st_lift (native_volume p v);
  journal ← st_lift (match wp_tracking p with
                  | UsnJournal => se_open env ;; Some <$> se_before env
                  | Snapshot => Ok None
                  end);
  root_reference ← st_lift (se_root_identity env);
  let root_key := file_key v root_reference in
  lookup ← st_lift (object_snapshot (se_root_metadata env) root_key);
  root ← st_lift (match lookup with
               | Observed root => Ok root
               | _ => Err (MkPlatformError Unavailable "initial_scan" "volume root metadata is unavailable")
               end);
  emit_root sink v root root_key (trim_end_matches [backslash; "/"%char] (nv_root native)) ;;
  emitted ← crawl v default_options sink (se_root env) (Some root_key) 2;
  checkpoint ← st_lift (match journal with
    | Some before =>
        after ← se_after env;
        let saved := MkWindowsCheckpoint (js_identity before) (js_next_position before)
                       (retained_start before) 1 [] [] [] in
        validate saved (js_identity after) (retained_start after) ;;
        Ok saved
    | None => Ok (MkWindowsCheckpoint (checkpoint_identity v) 0 0 1 [] [] [])
    end);
  mret (MkScanSummary (encode to_json v checkpoint) emitted).

Definition reconcile := initial_scan.
End initial_scan.

(** ** A selected root *)

Record PreparedScopedScan := MkPreparedScopedScan {
  ps_canonical : string;
  ps_volume : VolumeDescriptor;
  ps_root_key : FileKey }.

Record ScopedScanSummary := MkScopedScanSummary {
  sc_volume : VolumeDescriptor;
  sc_scan : ScanSummary }.

Definition scoped_root_fingerprint (root : string) : N :=
  stable_hash_bytes (string_bytes (to_lowercase root)).

Definition scoped_volume_id (source : volume_id) (root : string) : volume_id :=
  stable_hash_bytes (as_bytes source ++ to_be_bytes 16 (scoped_root_fingerprint root)).

Definition volume_id_from_guid (guid : string) : volume_id := stable_hash_bytes (string_bytes guid).

(** Two backslashes, a question mark and a backslash. *)
Definition backslashes (n : nat) : string := string_of_list_ascii (replicate n backslash).
Definition verbatim_prefix : string := backslashes 2 +:+ "?" +:+ backslashes 1.

Definition display_root_path (canonical : string) : string :=
  if String.prefix (verbatim_prefix +:+ "UNC" +:+ backslashes 1) canonical
  then String.append (backslashes 2) (String.substring 8 (String.length canonical - 8) canonical)
  else if String.prefix verbatim_prefix canonical
  then String.substring 4 (String.length canonical - 4) canonical
  else canonical.

(** A path as the operating system spells it, with its components. *)
Record os_path := MkOsPath { op_text : string; op_components : list string }.

(** What is seen while a root is prepared: its canonical path, the volumes with their canonical mount
    points, and the identity of the directory. *)
Record root_view := MkRootView {
  rv_canonical : result IoError os_path;
  rv_is_dir : bool;
  rv_volumes : PlatformResult (list (NativeVolume * option os_path));
  rv_identity : PlatformResult N }.

(** [max_by_key]: the last of the longest. *)
Definition longest_mount (vs : list (NativeVolume * os_path)) : option (NativeVolume * os_path) :=
  foldl (λ best x, match best with
                   | Some b => if String.length (op_text x.2) <? String.length (op_text b.2) then Some b else Some x
                   | None => Some x
                   end) None vs.

Definition prepare_scan_root (view : root_view) : PlatformResult PreparedScopedScan :=
  canonical ← map_err (io_error "canonicalize_root") (rv_canonical view);
  ensure (rv_is_dir view) (MkPlatformError Unsupported "scan_root" "selected root is not a directory") ;;
  discovered ← rv_volumes view;
  let mounted := omap (λ x, mount ← x.2;
    if bool_decide (op_components mount `prefix_of` op_components canonical) then Some (x.1, mount) else None) discovered in
  native ← ok_or (fst <$> longest_mount mounted)
    (MkPlatformError Unavailable "scan_root" "selected root is outside a discovered local volume");
  let volume_id := scoped_volume_id (vd_volume_id (nv_descriptor native)) (op_text canonical) in
  let display_root := display_root_path (op_text canonical) in
  let descriptor := MkVolumeDescriptor volume_id (Some display_root) [display_root]
    (vd_filesystem (nv_descriptor native)) (vd_removable (nv_descriptor native)) (vd_local (nv_descriptor native)) in
  identity ← rv_identity view;
  mret (MkPreparedScopedScan (op_text canonical) descriptor (file_key volume_id identity)).

Definition scan_prepared_root_with_options (prepared : PreparedScopedScan) (env : scan_env)
  (options : ScopedScanOptions) (sink : Sink) : St S PlatformError ScopedScanSummary :=
  let v := vd_volume_id (ps_volume prepared) in
  lookup ← st_lift (object_snapshot (se_root_metadata env) (ps_root_key prepared));
  root ← st_lift (match lookup with
               | Observed root => Ok root
               | _ => Err (MkPlatformError Unavailable "scan_root" "selected root metadata is unavailable")
               end);
  emit_root sink v root (ps_root_key prepared) (display_root_path (ps_canonical prepared)) ;;
  emitted ← crawl v options sink (se_root env) (Some (ps_root_key prepared)) 2;
  mret (MkScopedScanSummary (ps_volume prepared)
    (MkScanSummary
       (MkProviderCheckpoint "windows-scoped-folder" 1 v
          (to_be_bytes 16 (scoped_root_fingerprint (ps_canonical prepared)))) emitted)).

Definition scan_prepared_root (prepared : PreparedScopedScan) (env : scan_env) (sink : Sink)
  : St S PlatformError ScopedScanSummary :=
  scan_prepared_root_with_options prepared env default_options sink.
End scan.

Arguments Sink S : clear implicits.
