(* ===== verification/CrawlSpec.v ===== *)
(** What a snapshot scan emits.

    [entry_events] is the scan of a tree as a list: every readable entry gives its object and then
    its link, and a directory is followed by its entries unless it is a reparse point, excluded, or
    unreadable.  [crawl] emits exactly these events, and they come in an order in which every link
    follows its object and its parent. *)
From Stdlib Require Import Ascii String.
From stdpp Require Import base strings numbers gmap list sets.
From S2P Require Import Prelude Ids Order Models Fixtures GraphTables Text Frames Usn Platform.
From S2P Require Import Journal JournalSpec JournalFixtures Crawl.

(** Induction over a tree of entries. *)
Section entry_induction.
Context (P : entry_view → Prop).
Context (HE : ∀ e, P (EntryFails e)) (HM : ∀ e, P (MetadataFails e)) (HI : ∀ e, P (IdentityFails e)).
Context (HF : ∀ i m n e, P (EntryOk i m n (Err e))).
Context (HO : ∀ i m n l, Forall P l → P (EntryOk i m n (Ok l))).

Fixpoint entry_tree_ind (e : entry_view) : P e :=
  match e with
  | EntryFails e => HE e
  | MetadataFails e => HM e
  | IdentityFails e => HI e
  | EntryOk i m n (Err e) => HF i m n e
  | EntryOk i m n (Ok l) => HO i m n l
      ((fix go (l : list entry_view) : Forall P l :=
          match l with [] => List.Forall_nil P | e :: l => List.Forall_cons P e l (entry_tree_ind e) (go l) end) l)
  end.
End entry_induction.

Section spec.
Context `{E : StoreEnv}.
Context (v : volume_id) (options : ScopedScanOptions).

(** Whether the entries of a directory are scanned. *)
Definition entered (m : NativeMetadata) (name : string) : bool :=
  bool_decide (native_kind m = KDirectory) && negb (has_reason (nm_file_attributes m) 0x400)
    && descends_into options name.

Fixpoint entry_events (parent : option FileKey) (e : entry_view) : list FilesystemEvent :=
  match e with
  | EntryOk i m name children =>
      let key := MkFileKey v i in
      ObjectObserved (native_snapshot key m)
      :: LinkObserved (MkFileLinkSnapshot (link_hash parent name) key parent name)
      :: (if entered m name
          then match children with Ok l => concat (entry_events (Some key) <$> l) | Err _ => [] end
          else [])
  | _ => []
  end.

(** A sink that takes every event. *)
Definition collect : Sink (list FilesystemEvent) := λ e s, (Ok tt, s ++ [e]).

(** Events given to a sink until it fails. *)
Fixpoint feed {S} (sink : Sink S) (es : list FilesystemEvent) : St S PlatformError unit :=
  match es with [] => mret tt | e :: es => sink e ;; feed sink es end.

Lemma feed_app {S} (sink : Sink S) es fs s u s' :
  feed sink (es ++ fs) s = (Ok u, s') ↔ ∃ s1, feed sink es s = (Ok tt, s1) ∧ feed sink fs s1 = (Ok u, s').
Proof.
  revert s. induction es as [|e es IH]; intros s; simpl.
  - split; [by exists s|]. by intros (s1 & [= <-] & H).
  - rewrite st_bind_Ok. setoid_rewrite IH. setoid_rewrite st_bind_Ok. naive_solver.
Qed.

Lemma feed_collect es s : feed collect es s = (Ok tt, s ++ es).
Proof.
  revert s. induction es as [|e es IH]; intros s; simpl; [by rewrite app_nil_r|].
  unfold mbind, St_bind, collect. by rewrite IH, <-app_assoc.
Qed.

Section any_sink.
Context {S : Type} (sink : Sink S).

Lemma count_event_Ok n n' (s s' : S) : count_event n s = (Ok n', s') → n' = (n + 1)%Z ∧ s' = s.
Proof.
  unfold count_event. intros [H ->]%st_lift_Ok. apply ok_or_Ok in H. unfold u64_checked_add in H.
  case_decide; [|done]. by injection H as <-.
Qed.

(** What a part of a scan gives to the sink, and how it counts. *)
Definition gives (es : list FilesystemEvent) (scan : Z → St S PlatformError Z) : Prop :=
  ∀ n s n' s', scan n s = (Ok n', s') → feed sink es s = (Ok tt, s') ∧ n' = (n + Z.of_nat (length es))%Z.

Lemma gives_nil : gives [] mret.
Proof. intros n s n' s' [-> ->]%st_ret_Ok. split; [done|simpl; lia]. Qed.

Lemma gives_bind es fs scan scan' : gives es scan → gives fs scan' → gives (es ++ fs) (λ n, scan n ≫= scan').
Proof.
  intros H1 H2 n s n' s' (n1 & s1 & [Hf ->]%H1 & [Hg ->]%H2)%st_bind_Ok. rewrite feed_app, length_app.
  split; [eauto|lia].
Qed.

Lemma gives_event e : gives [e] (λ n, sink e ;; count_event n).
Proof.
  intros n s n' s' ([] & s1 & He & [-> ->]%count_event_Ok)%st_bind_Ok. split; [|simpl; lia].
  simpl. unfold mbind, St_bind. by rewrite He.
Qed.

(** The two events of an entry. *)
Lemma gives_entry_head o l fs k : gives fs k →
  gives (o :: l :: fs) (λ n, sink o ;; n1 ← count_event n; sink l ;; n2 ← count_event n1; k n2).
Proof.
  intros Hk n s n' s' H.
  assert (((λ n, sink o ;; count_event n) n ≫= λ n1, (λ n, sink l ;; count_event n) n1 ≫= k) s = (Ok n', s')) as H'.
  { revert H. unfold mbind, St_bind. destruct (sink o s) as [[]]; [|done]. destruct (count_event n _) as [[]]; [|done].
    destruct (sink l _) as [[]]; done. }
  revert H'. apply (gives_bind [o] (l :: fs)); [apply gives_event|]. apply (gives_bind [l] fs); [apply gives_event|done].
Qed.

Lemma gives_entries parent l :
  Forall (λ e, gives (entry_events parent e) (crawl_entry v options sink parent e)) l →
  gives (concat (entry_events parent <$> l)) (crawl_entries v options sink parent l).
Proof. induction 1 as [|e l He _ IH]; [apply gives_nil|]. by apply gives_bind. Qed.
End any_sink.

Definition children_events (parent : FileKey) (path : dir_view) : list FilesystemEvent :=
  match path with Ok l => concat (entry_events (Some parent) <$> l) | Err _ => [] end.

Lemma gives_children {S} (sink : Sink S) path parent :
  (∀ l, path = Ok l → Forall (λ e, gives sink (entry_events (Some parent) e) (crawl_entry v options sink (Some parent) e)) l) →
  gives sink (children_events parent path) (crawl v options sink path (Some parent)).
Proof.
  intros Hl n s n' s' (es & s1 & [He ->]%st_lift_Ok & H)%st_bind_Ok. destruct path as [l|e]; simpl in He.
  - injection He as <-. by eapply gives_entries; [apply Hl|].
  - destruct (io_skipped e); [|done]. injection He as <-. by apply gives_nil.
Qed.

Lemma gives_entry {S} (sink : Sink S) parent e : gives sink (entry_events parent e) (crawl_entry v options sink parent e).
Proof.
  revert parent. induction e as [e|e|e|i m name e|i m name l IH] using entry_tree_ind; intros parent.
  1-3: intros n s n' s'; cbn [crawl_entry]; (destruct (io_skipped e) || destruct (identity_skipped e)); [|done];
    apply gives_nil.
  all: intros n s n' s'; rewrite crawl_entry_ok; fold (entered m name); cbn [entry_events];
    apply gives_entry_head; destruct (entered m name); [|apply gives_nil];
    change (match ?x with Ok l => concat (entry_events (Some ?k) <$> l) | Err _ => [] end) with (children_events k x);
    apply gives_children; intros l' Hl'; try done.
  injection Hl' as <-. eapply Forall_impl; [exact IH|]. eauto.
Qed.

(** A successful crawl has given its events to the sink, whatever the sink does. *)
Lemma crawl_gives {S} (sink : Sink S) path parent :
  gives sink (children_events parent path) (crawl v options sink path (Some parent)).
Proof. apply gives_children. intros l _. apply Forall_forall. intros e _. apply gives_entry. Qed.
End spec.

(** ** Order of the events *)

(** Every link comes after its object and after the object of its parent. *)
Fixpoint in_order (seen : list FileKey) (es : list FilesystemEvent) : Prop :=
  match es with
  | [] => True
  | ObjectObserved o :: es => in_order (fo_object_key o :: seen) es
  | LinkObserved l :: es =>
      fl_object_key l ∈ seen ∧ (∀ p, fl_parent_key l = Some p → p ∈ seen) ∧ in_order seen es
  | _ => False
  end.

Definition observed_keys (es : list FilesystemEvent) : list FileKey :=
  omap (λ e, match e with ObjectObserved o => Some (fo_object_key o) | _ => None end) es.

Lemma in_order_mono es seen seen' : seen ⊆ seen' → in_order seen es → in_order seen' es.
Proof.
  revert seen seen'. induction es as [|[] es IH]; intros seen seen' Hsub; simpl; try done.
  - apply IH. set_solver.
  - intros (Ho & Hp & Hes). split; [by apply Hsub|]. split; [|by eapply IH].
    intros p Hl. by apply Hsub, Hp.
Qed.

Lemma in_order_app seen a b : in_order seen a → in_order seen b → in_order seen (a ++ b).
Proof.
  revert seen. induction a as [|[] a IH]; intros seen; simpl; try done.
  - intros Ha Hb. apply IH; [done|]. eapply in_order_mono; [|done]. set_solver.
  - intros (Ho & Hp & Ha) Hb. auto.
Qed.

Lemma in_order_concat seen ess : Forall (in_order seen) ess → in_order seen (concat ess).
Proof. induction 1 as [|es ess He _ IH]; [done|]. by apply in_order_app. Qed.

Section order.
Context `{E : StoreEnv}.
Context (v : volume_id) (options : ScopedScanOptions).

Lemma entry_events_in_order parent e seen :
  parent ∈ seen → in_order seen (entry_events v options (Some parent) e).
Proof.
  revert parent seen. induction e as [e|e|e|i m name e|i m name l IH] using entry_tree_ind;
    intros parent seen Hp; simpl; try done.
  - split; [by left|]. split; [intros p [= <-]; by right|]. by destruct (entered _ _ _).
  - split; [by left|]. split; [intros p [= <-]; by right|]. destruct (entered _ _ _); [|done].
    apply in_order_concat, Forall_fmap. eapply Forall_impl; [exact IH|]. intros e He. apply He. by left.
Qed.
End order.


(** ** Scans *)

Section scans.
Context `{E : StoreEnv}.

Lemma emit_root_feed {S} (sink : Sink S) v o k n s u s' :
  emit_root sink v o k n s = (Ok u, s') →
  feed sink [ObjectObserved o; LinkObserved (MkFileLinkSnapshot (root_link_id v) k None n)] s = (Ok tt, s').
Proof.
  unfold emit_root. intros ([] & s1 & H1 & H2)%st_bind_Ok. destruct u. simpl. unfold mbind, St_bind.
  rewrite H1. by rewrite H2.
Qed.

(** A root and what is below it. *)
Lemma root_in_order v options o k n path :
  fo_object_key o = k →
  in_order [] ([ObjectObserved o; LinkObserved (MkFileLinkSnapshot (root_link_id v) k None n)]
    ++ children_events v options k path).
Proof.
  intros <-. simpl. split; [by left|]. split; [done|]. destruct path as [l|]; [|done]. simpl.
  apply in_order_concat, Forall_fmap, Forall_forall. intros e _. apply entry_events_in_order. by left.
Qed.

Lemma object_snapshot_key m k o : object_snapshot m k = Ok (Observed o) → fo_object_key o = k.
Proof. destruct m as [m|e]; simpl; [by intros [= <-]|]. by destruct (io_kind e). Qed.

(** Snapshot: a successful snapshot emits the root and then exactly the readable entries
    below it, not entering reparse points, in an order in which every link follows its object and
    the object of its parent; the reported number of events is their number. *)
Theorem initial_scan_events to_json p env volume summary es :
  initial_scan to_json p env volume collect [] = (Ok summary, es) →
  ∃ root_key o name,
    es = [ObjectObserved o; LinkObserved (MkFileLinkSnapshot (root_link_id (vd_volume_id volume)) root_key None name)]
         ++ children_events (vd_volume_id volume) default_options root_key (se_root env) ∧
    in_order [] es ∧ ss_emitted_events summary = Z.of_nat (length es).
Proof.
  unfold initial_scan. intros H.
  apply st_bind_Ok in H as (? & ? & [_ ->]%st_lift_Ok & H). apply st_bind_Ok in H as (native & ? & [_ ->]%st_lift_Ok & H).
  apply st_bind_Ok in H as (journal & ? & [_ ->]%st_lift_Ok & H). apply st_bind_Ok in H as (root & ? & [_ ->]%st_lift_Ok & H).
  apply st_bind_Ok in H as (found & ? & [Hfound ->]%st_lift_Ok & H). apply st_bind_Ok in H as (o & ? & [Ho ->]%st_lift_Ok & H).
  apply st_bind_Ok in H as (? & ? & Hroot%emit_root_feed & H). rewrite feed_collect in Hroot. injection Hroot as <-.
  apply st_bind_Ok in H as (n & ? & [Hc ->]%crawl_gives & H). rewrite feed_collect in Hc. injection Hc as <-.
  apply st_bind_Ok in H as (c & ? & [_ ->]%st_lift_Ok & [-> ->]%st_ret_Ok).
  destruct found as [o'| |]; try done. injection Ho as ->.
  eexists _, _, _. split; [reflexivity|]. split; [|simpl; lia].
  apply root_in_order, (object_snapshot_key _ _ _ Hfound).
Qed.

(** C26 (snapshot and journal): the checkpoint of a snapshot taken in journal mode continues from
    where the journal was before the crawl began, so that every change recorded during or after
    the crawl is still to be read, and the journal still retained that position when the crawl
    ended. *)
Theorem initial_scan_loses_nothing to_json from_json p env volume summary es before L lookup :
  (∀ c, from_json (to_json c) = Some c) →
  wp_tracking p = UsnJournal → se_before env = Ok before →
  initial_scan to_json p env volume collect [] = (Ok summary, es) →
  ∃ c after, decode from_json (ss_checkpoint summary) = Ok c ∧ checkpoint_ok c ∧
    remaining lookup (vd_volume_id volume) L c =
      fst <$> replay lookup (vd_volume_id volume) c (from L (js_next_position before)) ∧
    se_after env = Ok after ∧ wc_journal_identity c = js_identity after ∧
    (retained_start after ≤ js_next_position before)%Z.
Proof.
  intros Hft Htrack Hbefore H. unfold initial_scan in H. rewrite Htrack in H.
  apply st_bind_Ok in H as (? & ? & _ & H). apply st_bind_Ok in H as (? & ? & _ & H).
  apply st_bind_Ok in H as (journal & ? & [Hj ->]%st_lift_Ok & H). apply st_bind_Ok in H as (root & ? & _ & H).
  apply st_bind_Ok in H as (found & ? & _ & H). apply st_bind_Ok in H as (o & ? & _ & H).
  apply st_bind_Ok in H as (? & ? & _ & H). apply st_bind_Ok in H as (n & ? & _ & H).
  apply st_bind_Ok in H as (c & ? & [Hc ->]%st_lift_Ok & [-> ->]%st_ret_Ok).
  apply result_bind_Ok in Hj as (? & _ & Hj). rewrite Hbefore in Hj. injection Hj as <-.
  apply result_bind_Ok in Hc as (after & Hafter & Hc). apply result_bind_Ok in Hc as (? & Hv & Hc).
  apply validate_Ok in Hv as [Hid Hret]. injection Hc as <-.
  assert (checkpoint_ok (MkWindowsCheckpoint (js_identity before) (js_next_position before)
    (retained_start before) 1 [] [] [])) as Hok by (split; constructor).
  eexists _, after. split; [by apply (decode_encode_ok _ _ Hft)|]. split; [done|]. split; [|done].
  rewrite remaining_eq. simpl. by destruct (replay _ _ _ _) as [[]|].
Qed.
End scans.

(** ** Concrete instances *)

Definition plain (dir : bool) (attributes : N) : NativeMetadata :=
  MkNativeMetadata dir false (negb dir) 3 (EPOCH + 10000) 0 attributes.

(** A file, a directory with a file, a junction, an entry that vanished and a protected directory. *)
Definition sample_dir : dir_view := Ok
  [EntryOk 2 (plain false 0x2) "a" (Ok []);
   EntryOk 3 (plain true 0) "d" (Ok [EntryOk 4 (plain false 0) "b" (Ok [])]);
   EntryOk 5 (plain true 0x400) "junction" (Ok [EntryOk 6 (plain false 0) "c" (Ok [])]);
   MetadataFails (MkIoError IoNotFound "gone");
   EntryOk 7 (plain true 0) "private" (Err (MkIoError IoPermissionDenied "denied"))].

Definition sample_scan_env : scan_env :=
  MkScanEnv (Ok tt) (Ok sample_state) (Ok 1%N) (Ok (plain true 0)) sample_dir (Ok sample_state).

Definition sample_provider : WindowsFilesystemProvider :=
  MkWindowsFilesystemProvider {[ vol := MkNativeVolume descriptor "C:" ]} UsnJournal.

Definition sample_scan := initial_scan fixture_to_json sample_provider sample_scan_env descriptor collect [].

Lemma initial_scan_events_witness :
  ∃ summary es, sample_scan = (Ok summary, es) ∧ length es = 12 ∧ in_order [] es.
Proof.
  destruct sample_scan as [[summary|e] es] eqn:Hs.
  2: { exfalso. revert Hs. vm_compute. discriminate. }
  exists summary, es. split; [reflexivity|].
  destruct (initial_scan_events fixture_to_json sample_provider sample_scan_env descriptor summary es Hs)
    as (k & o & name & _ & Hin & _).
  split; [|exact Hin]. apply (f_equal snd) in Hs. vm_compute in Hs. rewrite <-Hs. reflexivity.
Defined.

Lemma initial_scan_loses_nothing_witness :
  ∃ summary es c, sample_scan = (Ok summary, es) ∧
    decode fixture_from_json (ss_checkpoint summary) = Ok c ∧
    remaining (λ _, sample_lookup) vol [record_at 340 7 REASON_FILE_CREATE name_old] c =
      Ok [observe_file 7 3; observe_link (link_hash (Some (key 5)) "a") 7 (Some 5%N) "a"].
Proof.
  destruct sample_scan as [[summary|e] es] eqn:Hs.
  2: { exfalso. revert Hs. vm_compute. discriminate. }
  destruct (initial_scan_loses_nothing fixture_to_json fixture_from_json sample_provider sample_scan_env
    descriptor summary es sample_state [record_at 340 7 REASON_FILE_CREATE name_old] (λ _, sample_lookup)
    fixture_from_to eq_refl eq_refl Hs) as (c & after & Hdec & _ & Hrem & _).
  exists summary, es, c. split; [reflexivity|]. split; [exact Hdec|].
  etransitivity; [exact Hrem|]. apply (f_equal (λ r, ok_value r.1)) in Hs. vm_compute in Hs. injection Hs as Hs.
  rewrite <-Hs in Hdec. apply (f_equal ok_value) in Hdec. vm_compute in Hdec. injection Hdec as <-.
  vm_compute. reflexivity.
Defined.
