(* ===== verification/FolderScan.v ===== *)
(** Selected folders in the graph ([crates/content-index/src/main.rs]: [sync_scoped_root],
    [remove_scoped_root] and what they call; [crates/filesystem-graph/src/store.rs]: [storage_stats],
    [reclaim_reusable_pages]).

    A selected folder is a volume of its own.  Synchronising it scans the tree, applies the events in
    bounded batches, and then removes what the catalog holds of the folder and the scan did not see.
    Every batch is a transaction of its own: when a later step fails the earlier ones stay. *)
From Stdlib Require Import Ascii String.
From stdpp Require Import base strings numbers gmap list sorting.
From S2P Require Import Prelude Ids Order Models GraphDomain GraphTables GraphMutate GraphProjection GraphStore.
From S2P Require Import Platform Journal Crawl.

(** ** Storage *)

Record GraphStorageStats := MkGraphStorageStats {
  page_size_bytes : Z;                 (* u64 *)
  allocated_pages : Z;                 (* u64 *)
  reusable_pages : Z;                  (* u64 *)
  allocated_bytes : Z;                 (* u64 *)
  reusable_bytes : Z;                  (* u64 *)
  incremental_vacuum : bool }.

(** What SQLite answers to the four pragmas: [i64] each. *)
Record Pragmas := MkPragmas { pragma_page_size : Z; pragma_page_count : Z; pragma_freelist : Z; pragma_auto_vacuum : Z }.

(** [storage_stats]. *)
Definition storage_stats (answer : result GraphError Pragmas) : result GraphError GraphStorageStats :=
  p ← answer;
  size ← ok_or (u64_try_from (pragma_page_size p)) (NumericRange "SQLite page size");
  count ← ok_or (u64_try_from (pragma_page_count p)) (NumericRange "SQLite page count");
  free ← ok_or (u64_try_from (pragma_freelist p)) (NumericRange "SQLite freelist count");
  mret (MkGraphStorageStats size count free (saturating_mul u64_max size count) (saturating_mul u64_max size free)
          (bool_decide (pragma_auto_vacuum p = 2%Z))).

(** [graph_stop_threshold]. *)
Definition graph_stop_threshold (max_graph_bytes : Z) : Z :=
  let headroom := Z.min (max_graph_bytes / 40) (256 * 1024 * 1024) in
  Z.max (saturating_sub max_graph_bytes headroom) 1.

(** Lengths of files that may be missing, added up. *)
Definition add_file_lengths (lengths : list (option (option Z))) : option Z :=
  foldl (λ total len, total ← total; len ← len; mret (saturating_add u64_max total (default 0%Z len))) (Some 0%Z) lengths.

(** What the machine answers; the argument counts the questions asked so far. *)
Record FolderEnv := MkFolderEnv {
  fe_pragmas : nat → result GraphError Pragmas;
  fe_file_length : nat → string → option (option Z);     (* of the database file with a suffix *)
  fe_root : nat → list string → root_view;
  fe_scan : nat → list string → scan_env }.

Inductive ScanError := ScanGraph (e : GraphError) | ScanPlatform (e : PlatformError) | ScanIo.

Section folder.
Context `{E : StoreEnv}.

(** The graph, and how many questions were asked. *)
Record fworld := MkFworld { fw_graph : db; fw_tick : nat }.
Abbreviation Fw := (St fworld ScanError).

Definition fask {A} (f : nat → A) : Fw A := λ w, (Ok (f (fw_tick w)), MkFworld (fw_graph w) (S (fw_tick w))).
Definition on_graph_world {A} (m : St db GraphError A) : Fw A := λ w,
  let '(r, g) := m (fw_graph w) in (map_err ScanGraph r, MkFworld g (fw_tick w)).

(** A transaction: its changes stay, or there are none. *)
Definition transact {A} (m : GM A) : St db GraphError A := λ g,
  match m g with Ok (a, g') => (Ok a, g') | Err e => (Err e, g) end.

Context (env : FolderEnv).

(** [graph_storage_pressure_bytes]. *)
Definition graph_storage_pressure_bytes : Fw Z :=
  answer ← fask (fe_pragmas env);
  storage ← st_lift (map_err ScanGraph (storage_stats answer));
  wal ← fask (λ n, fe_file_length env n "-wal");
  shm ← fask (λ n, fe_file_length env n "-shm");
  sidecars ← st_lift (ok_or (add_file_lengths [wal; shm]) ScanIo);
  mret (saturating_add u64_max (saturating_sub (allocated_bytes storage) (reusable_bytes storage)) sidecars).

(** [graph_storage_bytes]. *)
Definition graph_storage_bytes : Fw Z :=
  main ← fask (λ n, fe_file_length env n "");
  wal ← fask (λ n, fe_file_length env n "-wal");
  shm ← fask (λ n, fe_file_length env n "-shm");
  st_lift (ok_or (add_file_lengths [main; wal; shm]) ScanIo).

(** The loop of [reclaim_reusable_pages]: every round but the last frees a page. *)
Fixpoint reclaim_loop (fuel : nat) (target reclaimed : Z) : Fw Z :=
  match fuel with
  | O => mret reclaimed
  | S fuel =>
      if (reclaimed <? target)%Z then
        answer ← fask (fe_pragmas env); before ← st_lift (map_err ScanGraph (storage_stats answer));
        answer ← fask (fe_pragmas env); after ← st_lift (map_err ScanGraph (storage_stats answer));
        let progress := saturating_sub (allocated_pages before) (allocated_pages after) in
        if (progress =? 0)%Z then mret reclaimed
        else reclaim_loop fuel target (saturating_add u64_max reclaimed progress)
      else mret reclaimed
  end.

(** [reclaim_reusable_pages]. *)
Definition reclaim_reusable_pages (maximum_pages : Z) : Fw Z :=
  st_lift (ensure (negb ((maximum_pages =? 0) || (4096 <? maximum_pages)))%Z
    (ScanGraph (InvalidBatch "page reclaim bound must be between 1 and 4096"))) ;;
  answer ← fask (fe_pragmas env); initial ← st_lift (map_err ScanGraph (storage_stats answer));
  if negb (incremental_vacuum initial) || (reusable_pages initial =? 0)%Z then mret 0%Z
  else let target := Z.min maximum_pages (reusable_pages initial) in reclaim_loop (Z.to_nat target) target 0.

(** ** Batches *)

(** [apply_folder_graph_batch]. *)
Definition apply_folder_graph_batch (b : GraphMutationBatch) (rebuildable_initial_ingest : bool) : GM Z :=
  summary ← (if rebuildable_initial_ingest then apply_rebuildable_batch b else apply_batch b);
  mret (as_mutations summary).

(** [apply_scoped_batch] and [apply_root_removal_batch], which empty [pending]. *)
Definition apply_scoped_batch (descriptor : VolumeDescriptor) (checkpoint : ProviderCheckpoint)
  (rebuildable : bool) (pending : list GraphMutation) : GM Z :=
  apply_folder_graph_batch
    (MkGraphMutationBatch (vd_volume_id descriptor) checkpoint (UpsertVolume descriptor :: pending)) rebuildable.
Definition apply_root_removal_batch (v : volume_id) (checkpoint : ProviderCheckpoint)
  (rebuildable : bool) (pending : list GraphMutation) : GM Z :=
  apply_folder_graph_batch (MkGraphMutationBatch v checkpoint pending) rebuildable.

(** Pushing mutations one at a time, with a batch whenever [pending] is full. *)
Section push.
Context (apply : list GraphMutation → GM Z) (batch_size : Z).

Fixpoint push_all (ms pending : list GraphMutation) (total : Z) : St db GraphError (list GraphMutation * Z) :=
  match ms with
  | [] => mret (pending, total)
  | m :: ms =>
      let pending := pending ++ [m] in
      if (batch_size <=? Z.of_nat (length pending))%Z then
        n ← transact (apply pending); push_all ms [] (saturating_add u64_max total n)
      else push_all ms pending total
  end.

Definition flush (pending : list GraphMutation) (total : Z) : St db GraphError Z :=
  match pending with
  | [] => mret total
  | _ :: _ => n ← transact (apply pending); mret (saturating_add u64_max total n)
  end.

Definition push_and_flush (ms : list GraphMutation) (total : Z) : St db GraphError Z :=
  '(pending, total) ← push_all ms [] total; flush pending total.
End push.

(** A [BTreeSet] of object keys, in order. *)
Definition key_le (a b : FileKey) : Prop :=
  (fk_volume a < fk_volume b)%N ∨ (fk_volume a = fk_volume b ∧ (fk_file a ≤ fk_file b)%N).
Global Instance key_le_dec : RelDecision key_le.
Proof. intros a b. unfold key_le. apply _. Defined.
Definition key_set (ks : list FileKey) : list FileKey := merge_sort key_le (remove_dups ks).

(** Removing links, then tombstoning objects. *)
Definition removals (links : list (link_id * FileKey)) (objects : list FileKey) : list GraphMutation :=
  ((λ c, RemoveLink c.1 c.2) <$> links) ++ (TombstoneObject <$> key_set objects).

(** [remove_scoped_root]. *)
Definition remove_scoped_root (v : volume_id) (batch_size : Z) (rebuildable : bool) : St db GraphError Z := λ g,
  let current := desired_catalog_identities g v in
  let checkpoint := MkProviderCheckpoint "content-scope-revocation" 1 v [] in
  push_and_flush (apply_root_removal_batch v checkpoint rebuildable) batch_size (removals current current.*2) 0 g.

(** ** Scanning *)

(** What the scan's callback captures. *)
Record sink_state := MkSinkState {
  sk_world : fworld;
  sk_pending : list GraphMutation;
  sk_links : gset link_id;             (* [observed_links] *)
  sk_objects : gset FileKey;           (* [observed_objects] *)
  sk_mutations : Z;                    (* u64 *)
  sk_events : Z }.                     (* u64 *)

Definition set_sk_world (w : fworld) (s : sink_state) : sink_state :=
  MkSinkState w (sk_pending s) (sk_links s) (sk_objects s) (sk_mutations s) (sk_events s).

Definition note_event (event : FilesystemEvent) (s : sink_state) : sink_state :=
  MkSinkState (sk_world s) (sk_pending s ++ [GraphMutation_from_event event])
    (match event with LinkObserved l => {[fl_file_link_id l]} ∪ sk_links s | _ => sk_links s end)
    (match event with ObjectObserved o => {[fo_object_key o]} ∪ sk_objects s | _ => sk_objects s end)
    (sk_mutations s) (saturating_add u64_max (sk_events s) 1).

Definition persist_failed : PlatformError :=
  MkPlatformError Internal "persist_folder_scan" "durable graph rejected a bounded scan batch".
Definition measure_failed : PlatformError :=
  MkPlatformError Internal "measure_graph_pressure" "could not measure durable graph storage pressure".
Definition graph_full : PlatformError :=
  MkPlatformError ResourceExhausted "graph_size_limit" "durable graph reached its configured byte budget".

Section scan.
Context (descriptor : VolumeDescriptor) (incomplete : ProviderCheckpoint) (rebuildable : bool).
Context (scan_batch_size max_graph_bytes : Z).

(** Applying what is pending. *)
Definition flush_scan : St sink_state GraphError unit := λ s,
  let done w n := MkSinkState w [] (sk_links s) (sk_objects s) (saturating_add u64_max (sk_mutations s) n) (sk_events s) in
  match apply_scoped_batch descriptor incomplete rebuildable (sk_pending s) (fw_graph (sk_world s)) with
  | Ok (n, g) => (Ok tt, done (MkFworld g (fw_tick (sk_world s))) n)
  | Err e => (Err e, done (sk_world s) 0%Z)
  end.

(** The callback of the scan. *)
Definition scan_sink : Sink sink_state := λ event s,
  let s := note_event event s in
  if (scan_batch_size <=? Z.of_nat (length (sk_pending s)))%Z then
    match flush_scan s with
    | (Err _, s) => (Err persist_failed, s)
    | (Ok _, s) =>
        match graph_storage_pressure_bytes (sk_world s) with
        | (Err _, w) => (Err measure_failed, set_sk_world w s)
        | (Ok bytes, w) =>
            (if (graph_stop_threshold max_graph_bytes <=? bytes)%Z then Err graph_full else Ok tt, set_sk_world w s)
        end
    end
  else (Ok tt, s).
End scan.

Record ScopedRootSyncSummary := MkScopedRootSyncSummary {
  sr_observed_events : Z;              (* u64 *)
  sr_graph_mutations : Z;              (* u64 *)
  sr_complete : bool }.

(** What the catalog holds of the root and the scan did not see. *)
Definition unobserved (s : sink_state) (current : list (link_id * FileKey)) : list GraphMutation :=
  removals (filter (λ c, c.1 ∉ sk_links s) current) (filter (λ k, k ∉ sk_objects s) current.*2).

(** The scan with its callback: the result, and what was captured. *)
Definition run_scan (prepared : PreparedScopedScan) (tree : scan_env) (options : ScopedScanOptions)
  (sink : Sink sink_state) : Fw (PlatformResult ScopedScanSummary * sink_state) := λ w,
  let '(r, s) := scan_prepared_root_with_options prepared tree options sink (MkSinkState w [] ∅ ∅ 0 0) in
  (Ok (r, s), sk_world s).

(** [sync_scoped_root]. *)
Definition sync_scoped_root (root : list string) (options : ScopedScanOptions)
  (scan_batch_size max_graph_bytes : Z) (rebuildable : bool) : Fw ScopedRootSyncSummary :=
  view ← fask (λ n, fe_root env n root);
  prepared ← st_lift (map_err ScanPlatform (prepare_scan_root view));
  let descriptor := ps_volume prepared in
  let v := vd_volume_id descriptor in
  let incomplete := MkProviderCheckpoint "windows-scoped-folder-incomplete" 1 v [] in
  let apply := apply_scoped_batch descriptor incomplete rebuildable in
  tree ← fask (λ n, fe_scan env n root);
  '(scan_result, s) ← run_scan prepared tree options
    (scan_sink descriptor incomplete rebuildable scan_batch_size max_graph_bytes);
  match scan_result with
  | Err error =>
      if bool_decide (pe_kind error = ResourceExhausted) && bool_decide (pe_operation error = "graph_size_limit")
      then mret (MkScopedRootSyncSummary (sk_events s) (sk_mutations s) false)
      else st_fail (ScanPlatform error)
  | Ok scoped =>
      total ← on_graph_world (flush apply (sk_pending s) (sk_mutations s));
      total ← on_graph_world (λ g, push_and_flush apply scan_batch_size
        (unobserved s (desired_catalog_identities g v)) total g);
      final ← on_graph_world (transact (apply_folder_graph_batch
        (MkGraphMutationBatch v (ss_checkpoint (sc_scan scoped)) [UpsertVolume descriptor]) rebuildable));
      mret (MkScopedRootSyncSummary (ss_emitted_events (sc_scan scoped)) (saturating_add u64_max total final) true)
  end.
End folder.
