(* ===== verification/FolderScanSpec.v ===== *)
(** What synchronising and revoking a selected folder does to the graph.

    The namespace of the graph is its links as a map from identifiers to object, parent and name.
    A batch changes it by the effect of each of its mutations, in order, and so does the whole of a
    scan, however it is cut into batches. *)
From Stdlib Require Import Ascii String.
From stdpp Require Import base strings numbers gmap list sorting relations.
From S2P Require Import Prelude Ids Order Models GraphDomain GraphTables GraphPath GraphMutate GraphProjection GraphStore.
From S2P Require Import GraphInvariant GraphPreserve GraphReach GraphSync GraphConverge Platform Journal Crawl CrawlSpec FolderScan.

(** Where a link is: object, parent, name, and whether paths stop at it. *)
Abbreviation place := (FileKey * option FileKey * string * bool)%type.
Abbreviation place_object := (λ p : place, p.1.1.1).
Abbreviation place_parent := (λ p : place, p.1.1.2).

Section effects.
Context `{E : StoreEnv} `{!StoreLaws E}.
Implicit Types (g : db) (id : link_id) (k : FileKey) (v : volume_id).

(** ** Mutations *)

Definition place_of (r : link_row) : place := (l_object r, l_parent r, l_name r, l_traversal_boundary r).
Definition namespace g : gmap link_id place := place_of <$> links g.

Definition effect (ns : gmap link_id place) (m : GraphMutation) : gmap link_id place :=
  match m with
  | UpsertLink l b => <[fl_file_link_id l := (fl_object_key l, fl_parent_key l, fl_name l, b)]> ns
  | RemoveLink id _ => delete id ns
  | _ => ns
  end.

(** No observation scan of the volume of the mutation is under way. *)
Definition unscanned g v : Prop := scan_cutoff g v = None.
Definition mutation_unscanned g (m : GraphMutation) : Prop :=
  match m with UpsertLink l _ => unscanned g (fk_volume (fl_object_key l)) | _ => True end.

Lemma tombstoned_links k b g n g' : update_tombstoned k b g = Ok (n, g') → links g' = links g.
Proof. by intros [(r & _ & _ & ->)|(_ & _ & ->)]%update_tombstoned_Ok. Qed.
Lemma enqueue_links k generation g n g' : enqueue_refresh k generation g = Ok (n, g') → links g' = links g.
Proof. by intros [[-> _]|(_ & _ & _ & ->)]%enqueue_refresh_Ok. Qed.

Lemma remove_link_links id k generation refresh g n g' :
  remove_link_internal id k generation refresh g = Ok (n, g') → links g' = delete id (links g).
Proof.
  intros [(Hn & -> & _)|(row & b & g1 & g2 & _ & _ & _ & -> & Ht & Hq)]%remove_link_internal_Ok.
  { by rewrite delete_id. }
  assert (links g2 = delete id (links g)) as <-.
  { destruct Ht as [(_ & m & Hm)|[_ ->]]; [|done]. by apply tombstoned_links in Hm. }
  destruct (_ && _); [by eapply enqueue_links|]. by destruct Hq as [_ ->].
Qed.

Lemma upsert_link_links link boundary generation g n g' :
  unscanned g (fk_volume (fl_object_key link)) → upsert_link link boundary generation g = Ok (n, g') →
  links g' = <[fl_file_link_id link := link_row_of link boundary generation]> (links g).
Proof.
  intros Hu (g1 & g2 & m & _ & Hrem & _ & Hq & _ & _ & Hins)%upsert_link_Ok.
  unfold stale_observation_link_conflicts in Hrem. rewrite Hu in Hrem. injection Hrem as <-.
  apply tombstoned_links in Hins as ->. simpl. f_equal. destruct Hq as [[-> _]|Hq]; [done|]. by eapply enqueue_links.
Qed.

Lemma apply_mutation_effect m generation g n g' :
  mutation_unscanned g m → apply_mutation m generation g = Ok (n, g') → namespace g' = effect (namespace g) m.
Proof.
  unfold namespace. destruct m as [d|v st|o|l b|id k|k|v reason]; simpl; intros Hu Hrun.
  - unfold upsert_volume in Hrun. by ginv.
  - ginv. match goal with H : update_volume _ _ _ = _ |- _ => apply update_volume_Ok in H as [(r & _ & _ & ->)|(_ & _ & ->)] end;
      unfold enqueue_volume_projection_refresh in *; by ginv.
  - unfold upsert_object in Hrun. by ginv.
  - rewrite (upsert_link_links _ _ _ _ _ _ Hu Hrun). by rewrite fmap_insert.
  - rewrite (remove_link_links _ _ _ _ _ _ _ Hrun). by rewrite fmap_delete.
  - ginv. match goal with H : tombstone_object _ _ = Ok (?u, _) |- _ => destruct u; apply tombstone_object_Ok in H as [_ H];
      by rewrite (tombstoned_links _ _ _ _ _ H) end.
  - ginv. match goal with H : update_volume _ _ _ = _ |- _ => apply update_volume_Ok in H as [(r & _ & _ & ->)|(_ & _ & ->)] end;
      unfold enqueue_volume_projection_refresh in *; by ginv.
Qed.

Lemma unscanned_ext g g' v : sessions g' = sessions g → unscanned g v → unscanned g' v.
Proof. unfold unscanned, scan_cutoff. by intros ->. Qed.

Lemma apply_mutations_effect ms generation A g r g' :
  (∀ m, m ∈ ms → mutation_unscanned g m) → apply_mutations ms generation A g = Ok (r, g') →
  namespace g' = foldl effect (namespace g) ms.
Proof.
  revert A g r. induction ms as [|m ms IH]; intros A g r Hu Hrun; simpl in Hrun; ginv; [done|].
  match goal with H : apply_mutation _ _ _ = _, H' : apply_mutations _ _ _ _ = _ |- _ =>
    pose proof (apply_mutation_mutates _ _ _ _ _ H) as [(_ & _ & _ & _ & _ & Hs) _];
    apply apply_mutation_effect in H; [|apply Hu; by left]; apply IH in H'; [by rewrite H', H|] end.
  intros m' Hm'. specialize (Hu m' ltac:(by right)). destruct m'; try done. by eapply unscanned_ext.
Qed.

(** ** Batches *)

Definition removal (m : GraphMutation) : Prop :=
  match m with UpsertVolume _ | RemoveLink _ _ | TombstoneObject _ => True | _ => False end.

(** Where a batch of removals can change documents. *)
Definition removed_at (ms : list GraphMutation) g (d : link_id) : Prop :=
  (∃ k, RemoveLink d k ∈ ms) ∨ ∃ k row, TombstoneObject k ∈ ms ∧ documents g !! d = Some row ∧ d_object row = k.

Lemma removed_at_cons m ms g d : removed_at ms g d → removed_at (m :: ms) g d.
Proof. intros [[k Hk]|(k & row & Hk & Hd)]; [left|right]; eauto using list_elem_of_further. Qed.

Lemma affected_removed m generation g n g' d :
  graph_wf g → removal m → apply_mutation m generation g = Ok (n, g') → d ∈ collect_affected_links g m →
  removed_at [m] g d.
Proof.
  intros Hwf Hm Hrun. destruct m as [|v st|o|l b|id k|k|v reason]; try done; simpl.
  - intros ->%elem_of_singleton. left. exists k. by left.
  - simpl in Hrun. ginv. match goal with H : tombstone_object _ _ = Ok (?u, _) |- _ => destruct u; apply tombstone_object_Ok in H as [Hz _] end.
    intros [Hl|Hd]%elem_of_union.
    + apply elem_of_object_links in Hl as (l & Hl & Hk). rewrite link_count_zero in Hz. by destruct (Hz _ _ Hl).
    + apply elem_of_list_to_set, list_elem_of_fmap in Hd as ([d' row] & -> & [Hd Hk]%elem_of_rows).
      apply bool_decide_eq_true in Hk. simpl in *. destruct (gw_document _ Hwf _ _ Hd) as [-> _].
      right. exists k, row. split; [by left|done].
Qed.

Lemma apply_mutations_removed ms v generation A g r g' d :
  graph_wf g → Forall removal ms → (∀ m, m ∈ ms → validate_mutation_volume m v = Ok tt ∧ mutation_typed m) →
  apply_mutations ms generation A g = Ok (r, g') → d ∈ r.2 → d ∈ A ∨ removed_at ms g d.
Proof.
  revert A g r. induction ms as [|m ms IH]; intros A g r Hwf Hms Hval Hrun Hd; simpl in Hrun; ginv; [by left|].
  apply Forall_cons in Hms as [Hm Hms]. destruct (Hval m ltac:(by left)) as [Hv Hty].
  match goal with H : apply_mutation _ _ _ = _, H' : apply_mutations _ _ _ _ = Ok (_, _) |- _ =>
    rename H into H1; rename H' into H2 end.
  pose proof (apply_mutation_mutates _ _ _ _ _ H1) as [(Hdocs & _) _].
  pose proof (apply_mutation_wf m v generation Hv Hty _ _ _ Hwf H1) as Hwf1.
  destruct (IH _ _ _ Hwf1 Hms (λ m' Hm', Hval m' ltac:(by right)) H2 Hd) as [HA|Hr].
  - apply elem_of_union in HA as [|HA]; [by left|right]. destruct (affected_removed _ _ _ _ _ _ Hwf Hm H1 HA) as [[k Hk]|(k & row & Hk & Hrow)].
    + left. exists k. apply list_elem_of_singleton in Hk as ->. by left.
    + right. exists k, row. apply list_elem_of_singleton in Hk as ->. split; [by left|done].
  - right. apply removed_at_cons. destruct Hr as [|(k & row & Hk & Hrow)]; [by left|right]. exists k, row. by rewrite <-Hdocs.
Qed.

(** ** Other volumes *)

(** The links of other volumes are the same in [g] and [h]. *)
Definition isolated v g h : Prop :=
  ∀ d l, fk_volume (l_object l) ≠ v → links h !! d = Some l ↔ links g !! d = Some l.

Lemma other_volume_links m v generation g n g' :
  validate_mutation_volume m v = Ok tt → mutation_unscanned g m → apply_mutation m generation g = Ok (n, g') →
  match m with
  | UpsertLink lk b => links g' = <[fl_file_link_id lk := link_row_of lk b generation]> (links g)
      ∧ fk_volume (fl_object_key lk) = v ∧ ∀ l, links g !! fl_file_link_id lk = Some l → fk_volume (l_object l) = v
  | RemoveLink id _ => links g' = delete id (links g) ∧ ∀ l, links g !! id = Some l → fk_volume (l_object l) = v
  | _ => links g' = links g
  end.
Proof.
  intros [Hkeys _]%validate_mutation_volume_ok Hu Hrun.
  destruct m as [vd|v' st|o|lk b|id k|k|v' reason]; simpl in Hkeys, Hu, Hrun.
  - unfold upsert_volume in Hrun. by ginv.
  - ginv. match goal with H : update_volume _ _ _ = _ |- _ => apply update_volume_Ok in H as [(r & _ & _ & ->)|(_ & _ & ->)] end;
      unfold enqueue_volume_projection_refresh in *; by ginv.
  - unfold upsert_object in Hrun. by ginv.
  - apply Forall_cons in Hkeys as [Hk _]. split; [by apply upsert_link_links with n|]. split; [done|]. intros l Hl.
    apply upsert_link_Ok in Hrun as (g1 & g2 & x & _ & Hrem & Hg & _).
    unfold stale_observation_link_conflicts in Hrem. rewrite Hu in Hrem. injection Hrem as <-. by rewrite (Hg _ Hl).
  - apply Forall_cons in Hkeys as [Hkv _]. split; [by eapply remove_link_links|]. intros l Hl.
    apply remove_link_internal_Ok in Hrun as [(Hn & _)|(row & b & g1 & g2 & Hrow & Ho & _)]; [congruence|]. by simplify_eq.
  - ginv. match goal with H : tombstone_object _ _ = Ok (?u, _) |- _ => destruct u; apply tombstone_object_Ok in H as [_ H];
      by apply tombstoned_links in H end.
  - ginv. match goal with H : update_volume _ _ _ = _ |- _ => apply update_volume_Ok in H as [(r & _ & _ & ->)|(_ & _ & ->)] end;
      unfold enqueue_volume_projection_refresh in *; by ginv.
Qed.

Lemma mutation_isolated m v generation g n g' :
  validate_mutation_volume m v = Ok tt → mutation_unscanned g m → apply_mutation m generation g = Ok (n, g') →
  isolated v g g'.
Proof.
  intros Hv Hu Hrun d l Hl. pose proof (other_volume_links _ _ _ _ _ _ Hv Hu Hrun) as H. clear Hrun.
  destruct m as [| | |lk b|id k| |]; try by rewrite H.
  - destruct H as (-> & Hk & Hold). destruct (decide (d = fl_file_link_id lk)) as [->|Hne]; [|by rewrite lookup_insert_ne].
    rewrite lookup_insert_eq. split; [intros [= <-]; by destruct Hl|]. intros Hd. by destruct (Hl (Hold _ Hd)).
  - destruct H as (-> & Hold). destruct (decide (d = id)) as [->|Hne]; [|by rewrite lookup_delete_ne].
    rewrite lookup_delete_eq. split; [done|]. intros Hd. by destruct (Hl (Hold _ Hd)).
Qed.

(** Links whose documents a mutation may change belong to its volume. *)
Lemma affected_volume m v generation g n g' d :
  graph_wf g → validate_mutation_volume m v = Ok tt → mutation_unscanned g m → apply_mutation m generation g = Ok (n, g') →
  d ∈ collect_affected_links g m →
  (∀ l, links g !! d = Some l → fk_volume (l_object l) = v) ∨ ∃ row, documents g !! d = Some row ∧ fk_volume (d_object row) = v.
Proof.
  intros Hwf Hval Hu Hrun Hd. pose proof (other_volume_links _ _ _ _ _ _ Hval Hu Hrun) as H. clear Hrun.
  apply validate_mutation_volume_ok in Hval as [Hkeys _].
  destruct m as [vd|v' st|o|lk b|id k|k|v' reason]; cbn [collect_affected_links] in Hd; try set_solver.
  - apply elem_of_object_links in Hd as (l & Hl & Hk). apply Forall_cons in Hkeys as [Hkv _]. left. intros l' Hl'. simplify_eq. by rewrite Hk.
  - simpl in Hu. unfold stale_observation_link_conflicts in Hd. rewrite Hu in Hd. left.
    assert (d = fl_file_link_id lk) as -> by set_solver. apply H.
  - apply Forall_cons in Hkeys as [Hkv _]. apply elem_of_union in Hd as [(l & Hl & Hk)%elem_of_object_links|Hd].
    + left. intros l' Hl'. simplify_eq. done.
    + apply elem_of_list_to_set, list_elem_of_fmap in Hd as ([d' row] & -> & [Hd Hk]%elem_of_rows). apply bool_decide_eq_true in Hk.
      simpl in *. destruct (gw_document _ Hwf _ _ Hd) as [-> _]. right. exists row. by rewrite Hk.
Qed.

Lemma apply_mutations_isolated ms v generation A g h r g' :
  store_wf g → graph_wf h → documents h = documents g → isolated v g h →
  (∀ m, m ∈ ms → (validate_mutation_volume m v = Ok tt ∧ mutation_typed m) ∧ mutation_unscanned h m) →
  (∀ d l, d ∈ A → links g !! d = Some l → fk_volume (l_object l) = v) →
  apply_mutations ms generation A h = Ok (r, g') →
  isolated v g g' ∧ ∀ d l, d ∈ r.2 → links g !! d = Some l → fk_volume (l_object l) = v.
Proof.
  intros Hwf. revert A h r. induction ms as [|m ms IH]; intros A h r Hh Hdoc Hiso Hms HA Hrun; simpl in Hrun; ginv; [done|].
  match goal with H : apply_mutation _ _ _ = _, H' : apply_mutations _ _ _ _ = Ok (_, _) |- _ =>
    rename H into H1; rename H' into H2 end.
  destruct (Hms m ltac:(by left)) as [[Hval Hty] Hu].
  pose proof (apply_mutation_mutates _ _ _ _ _ H1) as [(Hd1 & _ & _ & _ & _ & Hs1) _].
  pose proof (mutation_isolated _ _ _ _ _ _ Hval Hu H1) as Hi.
  eapply IH in H2; [exact H2|by eapply apply_mutation_wf|congruence| | |].
  - intros d l Hl. by rewrite (Hi d l Hl), (Hiso d l Hl).
  - intros m' Hm'. destruct (Hms m' ltac:(by right)) as [? Hu']. split; [done|]. destruct m'; try done. by eapply unscanned_ext.
  - intros d l [Hd|Hd]%elem_of_union Hl; [by eapply HA|]. destruct (decide (fk_volume (l_object l) = v)) as [|Hne]; [done|].
    destruct (affected_volume _ _ _ _ _ _ _ Hh Hval Hu H1 Hd) as [Ha|(row & Hrow & Hv)].
    + apply Ha. by apply Hiso.
    + rewrite Hdoc in Hrow. destruct Hwf as [_ Hdl]. destruct (Hdl _ _ Hrow ltac:(set_solver)) as (l' & Hl' & Ho). simplify_eq. congruence.
Qed.

(** What mutations of a volume do to the objects and volumes: nothing to those of others. *)
Definition elsewhere v g h : Prop :=
  (∀ k, fk_volume k ≠ v → objects h !! k = objects g !! k) ∧ (∀ w, w ≠ v → volumes h !! w = volumes g !! w).

Global Instance elsewhere_preorder v : PreOrder (elsewhere v).
Proof.
  split; [by split|]. intros g1 g2 g3 [O1 V1] [O2 V2].
  split; [intros k Hk; by rewrite O2, O1|intros w Hw; by rewrite V2, V1].
Qed.

Lemma elsewhere_same v g h : objects h = objects g → volumes h = volumes g → elsewhere v g h.
Proof. by intros Ho Hv; split; [rewrite Ho|rewrite Hv]. Qed.

Lemma tombstoned_elsewhere k b v g n g' : fk_volume k = v → update_tombstoned k b g = Ok (n, g') → elsewhere v g g'.
Proof.
  intros <- [(r & _ & _ & ->)|(_ & _ & ->)]%update_tombstoned_Ok; [|reflexivity].
  split; [|done]. intros k' Hk. simpl. rewrite lookup_insert_ne; [done|congruence].
Qed.

Lemma enqueue_elsewhere k generation v g n g' : enqueue_refresh k generation g = Ok (n, g') → elsewhere v g g'.
Proof. by intros [[-> _]|(_ & _ & _ & ->)]%enqueue_refresh_Ok. Qed.

Lemma upsert_link_elsewhere lk b generation v g n g' :
  fk_volume (fl_object_key lk) = v → unscanned g v → upsert_link lk b generation g = Ok (n, g') → elsewhere v g g'.
Proof.
  intros Hk Hu (g1 & g2 & x & _ & Hrem & _ & Hq & _ & _ & Hins)%upsert_link_Ok.
  unfold stale_observation_link_conflicts in Hrem. rewrite Hk, Hu in Hrem. injection Hrem as <-.
  transitivity g2; [destruct Hq as [[-> _]|Hq]; [reflexivity|by eapply enqueue_elsewhere]|].
  apply (tombstoned_elsewhere _ _ v) in Hins; [|done]. etransitivity; [|exact Hins]. by apply elsewhere_same.
Qed.

Lemma remove_link_elsewhere id k generation refresh v g n g' :
  fk_volume k = v → remove_link_internal id k generation refresh g = Ok (n, g') → elsewhere v g g'.
Proof.
  intros Hk [(_ & -> & _)|(row & b & g1 & g2 & _ & _ & _ & -> & Ht & Hq)]%remove_link_internal_Ok; [reflexivity|].
  transitivity g2.
  - etransitivity; [by apply (elsewhere_same _ _ (set_links (delete id (links g)) g))|].
    destruct Ht as [(_ & m & Hm)|[_ ->]]; [by eapply tombstoned_elsewhere|reflexivity].
  - destruct (_ && _); [by eapply enqueue_elsewhere|]. by destruct Hq as [_ ->].
Qed.

Lemma volume_update_elsewhere v f generation g n g1 (jobs : Z) g' :
  update_volume v f g = Ok (n, g1) → enqueue_volume_projection_refresh v generation g1 = Ok (jobs, g') → elsewhere v g g'.
Proof.
  intros Hu Hq. unfold enqueue_volume_projection_refresh in Hq. ginv.
  apply update_volume_Ok in Hu as [(r & _ & _ & ->)|(_ & _ & ->)]; [|done].
  split; [done|]. intros w Hw. simpl. by rewrite lookup_insert_ne.
Qed.

Lemma mutation_elsewhere m v generation g n g' :
  validate_mutation_volume m v = Ok tt → mutation_unscanned g m → apply_mutation m generation g = Ok (n, g') →
  elsewhere v g g'.
Proof.
  intros [Hkeys Hvols]%validate_mutation_volume_ok Hu Hrun.
  destruct m as [vd|w st|o|lk b|id k|k|w reason]; simpl in Hkeys, Hvols, Hu, Hrun.
  - unfold upsert_volume in Hrun. ginv. split; [done|]. intros w Hw. simpl. rewrite lookup_insert_ne; [done|naive_solver].
  - subst w. ginv. by eapply volume_update_elsewhere.
  - apply Forall_cons in Hkeys as [Hk _]. unfold upsert_object in Hrun. ginv. split; [|done]. intros k Hne. simpl.
    rewrite lookup_insert_ne; [done|congruence].
  - apply Forall_cons in Hkeys as [Hk _]. rewrite Hk in Hu. by eapply upsert_link_elsewhere.
  - apply Forall_cons in Hkeys as [Hk _]. by eapply remove_link_elsewhere.
  - apply Forall_cons in Hkeys as [Hk _]. ginv. match goal with H : tombstone_object _ _ = Ok (?u, _) |- _ =>
      destruct u; apply tombstone_object_Ok in H as [_ H]; by eapply tombstoned_elsewhere end.
  - subst w. ginv. by eapply volume_update_elsewhere.
Qed.

Lemma apply_mutations_elsewhere ms v generation A g r g' :
  (∀ m, m ∈ ms → validate_mutation_volume m v = Ok tt ∧ mutation_unscanned g m) →
  apply_mutations ms generation A g = Ok (r, g') → elsewhere v g g'.
Proof.
  revert A g r. induction ms as [|m ms IH]; intros A g r Hms Hrun; simpl in Hrun; ginv; [reflexivity|].
  match goal with H : apply_mutation _ _ _ = _, H' : apply_mutations _ _ _ _ = Ok (_, _) |- _ =>
    rename H into H1; rename H' into H2 end.
  destruct (Hms m ltac:(by left)) as [Hval Hu]. pose proof (apply_mutation_mutates _ _ _ _ _ H1) as [(_ & _ & _ & _ & _ & Hs1) _].
  etransitivity; [by eapply mutation_elsewhere|]. eapply IH; [|exact H2].
  intros m' Hm'. destruct (Hms m' ltac:(by right)) as [? Hu']. split; [done|]. destruct m'; try done. by eapply unscanned_ext.
Qed.

(** What the store keeps of the folder [v] is the same: its documents, links, objects, checkpoint and
    whether it is online. *)
Record kept v g g' : Prop := {
  kp_objects : ∀ k, fk_volume k = v → objects g' !! k = objects g !! k;
  kp_state : v_state <$> volumes g' !! v = v_state <$> volumes g !! v;
  kp_documents : ∀ d row, fk_volume (d_object row) = v → documents g' !! d = Some row ↔ documents g !! d = Some row;
  kp_links : ∀ id l, fk_volume (l_object l) = v → links g' !! id = Some l ↔ links g !! id = Some l;
  kp_checkpoint : checkpoints g' !! v = checkpoints g !! v }.

Global Instance kept_preorder v : PreOrder (kept v).
Proof.
  split; [done|]. intros g1 g2 g3 [O1 S1 D1 L1 C1] [O2 S2 D2 L2 C2]. split; [|congruence| | |congruence].
  - intros k Hk. by rewrite O2, O1.
  - intros d row Hv. by rewrite (D2 d row Hv), (D1 d row Hv).
  - intros id l Hv. by rewrite (L2 id l Hv), (L1 id l Hv).
Qed.

(** A committed batch of a folder. *)
Record batch_effect (b : GraphMutationBatch) g g' : Prop := {
  be_step : foreign_step g g';
  be_namespace : namespace g' = foldl effect (namespace g) (gb_mutations b);
  be_sessions : sessions g' = sessions g;
  be_checkpoint : checkpoints g' !! gb_volume_id b = Some (checkpoint_row_of (gb_checkpoint b));
  be_documents : Forall removal (gb_mutations b) →
    ∀ d, documents g' !! d = documents g !! d ∨ removed_at (gb_mutations b) g d;
  be_others : ∀ v, v ≠ gb_volume_id b → kept v g g' }.

Lemma folder_batch_effect b rebuildable g n g' :
  store_wf g → batch_typed b → (∀ m, m ∈ gb_mutations b → mutation_unscanned g m) →
  apply_folder_graph_batch b rebuildable g = Ok (n, g') → batch_effect b g g'.
Proof.
  intros Hwf Hty Hu Hrun. pose proof Hwf as [Hgw Hdl]. unfold apply_folder_graph_batch in Hrun.
  apply M_bind_Ok in Hrun as (sum & g0 & Hb & [_ ->]%M_ret_Ok).
  assert (∃ mode, apply_batch_with_outbox_mode b mode g = Ok (sum, g0)) as [mode Hmode] by (destruct rebuildable; eauto).
  assert (foreign_step g g0) as Hstep.
  { destruct rebuildable; [apply (foreign_commit (OpApplyRebuildableBatch b))|apply (foreign_commit (OpApplyBatch b))]; try done;
      simpl; unfold discard, mbind, M_bind; by rewrite Hb. }
  assert (store_wf g0) as [_ Hdl0] by (by destruct (foreign_steps_spare _ _ Hwf (rtc_once _ _ Hstep))).
  apply apply_batch_Ok in Hmode as (jobs & A & g1 & g2 & m & row & Hval & _ & Hi & Hmut & Hsync & Hrow & -> & _).
  pose proof (apply_mutations_mutates _ _ _ _ _ _ Hmut) as [_ [(Hd1 & _ & _ & _ & Hc1 & Hs1) _]].
  destruct (sync_all_same_graph _ _ _ _ _ _ Hsync) as (Hvo2 & Hob2 & Hl2 & _ & Hc2 & Hs2 & _).
  assert (∀ m, m ∈ gb_mutations b → validate_mutation_volume m (gb_volume_id b) = Ok tt ∧ mutation_typed m) as Hms.
  { intros m' Hm'. split; [by eapply batch_validate_Ok|by eapply Forall_forall in Hty]. }
  assert (∀ d, d ∉ A → documents g2 !! d = documents g !! d) as Hsame.
  { intros d Hd. rewrite (sync_all_documents _ _ _ _ _ _ d Hsync); [by rewrite Hd1|]. by rewrite elem_of_btree_elements. }
  split; [done| | | | |].
  - rewrite <-(apply_mutations_effect _ _ _ _ _ _ Hu Hmut). unfold namespace. simpl. by rewrite Hl2.
  - simpl. by rewrite Hs2.
  - simpl. by rewrite lookup_insert_eq.
  - intros Hrem d. simpl. destruct (decide (d ∈ A)) as [HA|HA]; [right|left; by apply Hsame].
    by destruct (apply_mutations_removed _ _ _ _ _ _ _ d Hgw Hrem Hms Hmut HA) as [?%elem_of_empty|?].
  - destruct (apply_mutations_isolated (gb_mutations b) (gb_volume_id b) _ ∅ g g (jobs, A) g1 Hwf Hgw eq_refl ltac:(done)
      ltac:(auto) ltac:(set_solver) Hmut) as [Hiso HA]. simpl in HA. intros v' Hv'.
    assert (∀ d l, fk_volume (l_object l) = v' → links g !! d = Some l → d ∉ A) as Hout.
    { intros d l Hv Hl Hin. destruct Hv'. by rewrite <-Hv, (HA _ _ Hin Hl). }
    destruct (apply_mutations_elsewhere (gb_mutations b) (gb_volume_id b) _ ∅ g (jobs, A) g1 ltac:(naive_solver) Hmut) as [Ho1 Hv1].
    split; simpl; [| | | |by rewrite lookup_insert_ne, Hc2, Hc1].
    + intros k Hk. rewrite Hob2. apply Ho1. by rewrite Hk.
    + rewrite lookup_insert_ne by done. by rewrite Hvo2, Hv1.
    + intros d r Hv. split; intros Hd.
      * destruct (Hdl0 d r Hd ltac:(set_solver)) as (l & Hl & Ho). simpl in Hl. rewrite Hl2 in Hl. rewrite <-Ho in Hv.
        apply Hiso in Hl; [|by rewrite Hv]. rewrite <-Hsame; [done|]. by eapply Hout.
      * destruct (Hdl d r Hd ltac:(set_solver)) as (l & Hl & Ho). rewrite <-Ho in Hv. rewrite Hsame; [done|]. by eapply Hout.
    + intros d l Hv. rewrite Hl2. apply Hiso. by rewrite Hv.
Qed.

(** Removals that concern [v], and documents of [v] only at identifiers in [P]. *)
Definition on_volume (P : link_id → Prop) v (m : GraphMutation) : Prop :=
  match m with
  | RemoveLink d _ => P d
  | TombstoneObject k => fk_volume k = v
  | _ => False
  end.
Definition held (P : link_id → Prop) v g : Prop :=
  ∀ d row, documents g !! d = Some row → fk_volume (d_object row) = v → P d.

Definition upserts_volume (m : GraphMutation) : Prop := match m with UpsertVolume _ => True | _ => False end.
Definition in_batch (P : link_id → Prop) v (m : GraphMutation) : Prop := upserts_volume m ∨ on_volume P v m.

Lemma in_batch_removal P v m : in_batch P v m → removal m.
Proof. by destruct m, 1. Qed.
Lemma in_batch_typed P v m : in_batch P v m → mutation_typed m.
Proof. by destruct m, 1. Qed.
Lemma in_batch_unscanned P v g m : in_batch P v m → mutation_unscanned g m.
Proof. by destruct m, 1. Qed.

Lemma batch_held P v b g g' :
  batch_effect b g g' → Forall (in_batch P v) (gb_mutations b) → held P v g → held P v g'.
Proof.
  intros Hb Hms Hh d row Hd Hv. rewrite Forall_forall in Hms.
  destruct (be_documents _ _ _ Hb) with (d := d) as [Heq|[(k & Hk)|(k & row' & Hk & Hrow & Ho)]].
  - apply Forall_forall. intros m Hm. by eapply in_batch_removal, Hms.
  - rewrite Heq in Hd. by eapply Hh.
  - by destruct (Hms _ Hk).
  - apply (Hh d row'); [done|]. rewrite Ho. by destruct (Hms _ Hk).
Qed.

Lemma foreign_step_wf g g' : store_wf g → foreign_step g g' → store_wf g' ∧ rtc foreign_step g g'.
Proof. intros Hwf Hs%rtc_once. split; [|done]. by destruct (foreign_steps_spare _ _ Hwf Hs). Qed.

(** What work on the folder [v] leaves, as far as it got: transactions that spare every consumer, the
    observation sessions, and everything of other folders. *)
Record evolved v g g' : Prop := {
  ev_wf : store_wf g';
  ev_steps : rtc foreign_step g g';
  ev_sessions : sessions g' = sessions g;
  ev_apart : ∀ v', v' ≠ v → kept v' g g' }.

Lemma evolved_refl v g : store_wf g → evolved v g g.
Proof. by split. Qed.
Lemma evolved_trans v g1 g2 g3 : evolved v g1 g2 → evolved v g2 g3 → evolved v g1 g3.
Proof.
  intros [? ? ? A1] [? ? ? A2]. split; [done|by etransitivity|congruence|].
  intros v' Hv. etransitivity; [by apply A1|by apply A2].
Qed.
Lemma batch_evolved b g g' : store_wf g → batch_effect b g g' → evolved (gb_volume_id b) g g'.
Proof.
  intros Hwf Hb. destruct (foreign_step_wf _ _ Hwf (be_step _ _ _ Hb)). split; [done..|apply Hb|]. exact (be_others _ _ _ Hb).
Qed.

(** ** Pushing removals *)

Section push.
Context (batch_of : list GraphMutation → GraphMutationBatch) (pre : list GraphMutation) (rebuildable : bool).
Context (v : volume_id) (Hvol : ∀ pending, gb_volume_id (batch_of pending) = v).
Context (Hof : ∀ pending, gb_mutations (batch_of pending) = pre ++ pending).
Context (Hpre : Forall upserts_volume pre).

Definition apply_of (pending : list GraphMutation) : GM Z := apply_folder_graph_batch (batch_of pending) rebuildable.

Lemma pre_effect ns ms : foldl effect ns (pre ++ ms) = foldl effect ns ms.
Proof.
  rewrite foldl_app. f_equal. clear Hof. revert Hpre. generalize pre. clear. intros l Hl.
  induction Hl as [|m l Hm _ IH]; [done|]. by destruct m.
Qed.

(** What a run of removals leaves, as far as it got. *)
Record removal_run (P : link_id → Prop) g g' : Prop := {
  rr_evolved : evolved v g g';
  rr_held : held P v g → held P v g';
  rr_keeps (X : db → Prop) :
    (∀ pending h n h', store_wf h → sessions h = sessions g → Forall (on_volume P v) pending → apply_of pending h = Ok (n, h') →
       namespace h' = foldl effect (namespace h) pending → X h → X h') → X g → X g' }.

Lemma removal_run_refl P g : store_wf g → removal_run P g g.
Proof. split; [by apply evolved_refl|done..]. Qed.
Lemma removal_run_trans P g1 g2 g3 : removal_run P g1 g2 → removal_run P g2 g3 → removal_run P g1 g3.
Proof.
  intros [E1 H1 K1] [E2 H2 K2]. split; [by eapply evolved_trans|auto|]. intros X HX HX1. apply K2; [|by apply K1].
  intros pending h n h' Hwf Hse. apply HX; [done|]. by rewrite Hse, (ev_sessions _ _ _ E1).
Qed.
Lemma rr_wf P g g' : removal_run P g g' → store_wf g'.
Proof. intros Hr. apply (rr_evolved _ _ _ Hr). Qed.

Lemma transact_removals P pending g r g' :
  store_wf g → Forall (on_volume P v) pending → transact (apply_of pending) g = (r, g') →
  removal_run P g g' ∧ (is_ok r = true → namespace g' = foldl effect (namespace g) pending).
Proof.
  intros Hwf Hms H. unfold transact in H. destruct (apply_of pending g) as [[n h]|e] eqn:Hrun; injection H as <- <-; [|split; [by apply removal_run_refl|done]].
  assert (Forall (in_batch P v) (gb_mutations (batch_of pending))) as Hall.
  { rewrite Hof. apply Forall_app. split; [eapply Forall_impl; [exact Hpre|]; by left|eapply Forall_impl; [exact Hms|]; by right]. }
  assert (batch_effect (batch_of pending) g h) as Hb.
  { eapply folder_batch_effect; [done| | |exact Hrun].
    - unfold batch_typed. eapply Forall_impl; [exact Hall|]. intros m. apply in_batch_typed.
    - intros m Hm. rewrite Forall_forall in Hall. by eapply in_batch_unscanned, Hall. }
  pose proof (batch_evolved _ _ _ Hwf Hb) as He. rewrite Hvol in He.
  assert (namespace h = foldl effect (namespace g) pending) as Hns by by rewrite (be_namespace _ _ _ Hb), Hof, pre_effect.
  split; [|done]. split; [done|by eapply batch_held|]. intros X HX. exact (HX pending g n h Hwf eq_refl Hms Hrun Hns).
Qed.

Lemma push_all_spec P batch_size ms pending total g r g' :
  store_wf g → Forall (on_volume P v) (pending ++ ms) →
  push_all apply_of batch_size ms pending total g = (r, g') →
  removal_run P g g' ∧ ∀ left t, r = Ok (left, t) →
    Forall (on_volume P v) left ∧ foldl effect (namespace g') left = foldl effect (namespace g) (pending ++ ms).
Proof.
  revert pending total g. induction ms as [|m ms IH]; intros pending total g Hwf Hms H.
  - injection H as <- <-. split; [by apply removal_run_refl|]. intros left t [= <- _]. by rewrite app_nil_r in *.
  - cbn [push_all] in H. rewrite (cons_middle m pending ms) in *. rewrite app_assoc in Hms.
    assert (pending ++ [m] ++ ms = (pending ++ [m]) ++ ms) as Hassoc by apply app_assoc. rewrite Hassoc.
    destruct (_ <=? _)%Z; [|by eapply IH].
    pose proof Hms as [Hp Hms']%Forall_app.
    apply st_bind_inv in H as [(e & He & ->)|(n & g1 & Hn & H)].
    + destruct (transact_removals _ _ _ _ _ Hwf Hp He) as [Hrun _]. by split.
    + destruct (transact_removals _ _ _ _ _ Hwf Hp Hn) as [Hrun Hns]. specialize (Hns eq_refl).
      destruct (IH [] _ _ (rr_wf _ _ _ Hrun) Hms' H) as [Hrun2 Hres]. split; [by eapply removal_run_trans|].
      intros left t Hr. destruct (Hres _ _ Hr) as [Hl ->]. split; [done|]. cbn [app]. by rewrite (foldl_app effect (pending ++ [m]) ms), Hns.
Qed.

Lemma push_and_flush_spec P batch_size ms total g r g' :
  store_wf g → Forall (on_volume P v) ms → push_and_flush apply_of batch_size ms total g = (r, g') →
  removal_run P g g' ∧ (is_ok r = true → namespace g' = foldl effect (namespace g) ms).
Proof.
  intros Hwf Hms H. apply st_bind_inv in H as [(e & He & ->)|([left t] & g1 & Hp & H)].
  { by destruct (push_all_spec P _ ms [] _ _ _ _ Hwf Hms He). }
  destruct (push_all_spec P _ ms [] _ _ _ _ Hwf Hms Hp) as [Hrun Hres]. destruct (Hres _ _ eq_refl) as [Hl Hns].
  simpl in Hns. destruct left as [|m left].
  - injection H as <- <-. done.
  - apply st_bind_inv in H as [(e & He & ->)|(n & g2 & Hn & H)].
    + destruct (transact_removals P _ _ _ _ (rr_wf _ _ _ Hrun) Hl He) as [Hrun2 _]. split; [by eapply removal_run_trans|done].
    + injection H as <- <-. destruct (transact_removals P _ _ _ _ (rr_wf _ _ _ Hrun) Hl Hn) as [Hrun2 Hns2].
      split; [by eapply removal_run_trans|]. intros _. by rewrite (Hns2 eq_refl).
Qed.
End push.

(** Removals only take links away, and none outside [P]. *)
Lemma on_volume_shrinks P v ms ns :
  Forall (on_volume P v) ms →
  foldl effect ns ms ⊆ ns ∧ ∀ id, ¬ P id → foldl effect ns ms !! id = ns !! id.
Proof.
  intros Hms. revert ns. induction Hms as [|m ms Hm _ IH]; intros ns; [done|]. cbn [foldl].
  destruct (IH (effect ns m)) as [Hsub Hkeep]. destruct m as [| | | |d k|k|]; try done; cbn [effect] in *.
  split; [by etrans; [|apply delete_subseteq]|]. intros id Hid. rewrite (Hkeep id Hid). apply lookup_delete_ne. by intros ->.
Qed.

(** ** Revoking a folder *)

Lemma key_set_elem k ks : k ∈ key_set ks ↔ k ∈ ks.
Proof. unfold key_set. by rewrite merge_sort_Permutation, elem_of_remove_dups. Qed.

Lemma removals_effect ls ks ns id :
  foldl effect ns (removals ls ks) !! id = if decide (id ∈ ls.*1) then None else ns !! id.
Proof.
  unfold removals. rewrite foldl_app.
  assert (∀ ns, foldl effect ns (TombstoneObject <$> key_set ks) = ns) as ->.
  { intros ns'. induction (key_set ks) as [|k l IH]; [done|]. apply IH. }
  revert ns. induction ls as [|[d k] ls IH]; intros ns; [done|]. cbn [fmap list_fmap foldl effect fst snd].
  change (list_fmap _ _ (λ c, RemoveLink c.1 c.2) ls) with ((λ c : link_id * FileKey, RemoveLink c.1 c.2) <$> ls). rewrite IH.
  change (list_fmap _ _ fst ls) with (ls.*1). destruct (decide (id = d)) as [->|Hne].
  - rewrite lookup_delete_eq, (decide_True (P := d ∈ d :: _)) by by left. by destruct (decide _).
  - rewrite lookup_delete_ne by done. apply decide_ext. rewrite elem_of_cons. tauto.
Qed.

Lemma removals_on_volume P v ls ks :
  (∀ d, d ∈ ls.*1 → P d) → (∀ k, k ∈ ks → fk_volume k = v) → Forall (on_volume P v) (removals ls ks).
Proof.
  intros Hl Hk. unfold removals. apply Forall_app. split; apply Forall_fmap, Forall_forall; simpl.
  - intros c Hc. apply Hl. by apply list_elem_of_fmap_2.
  - intros k. rewrite key_set_elem. apply Hk.
Qed.

Lemma elem_of_identities g v d k :
  graph_wf g → (d, k) ∈ desired_catalog_identities g v ↔ ∃ row, documents g !! d = Some row ∧ d_object row = k ∧ fk_volume k = v.
Proof.
  intros Hwf. unfold desired_catalog_identities. rewrite list_elem_of_fmap. split.
  - intros ([d' row] & [= -> ->] & [Hd Hv]%elem_of_rows). apply bool_decide_eq_true in Hv. simpl in *.
    destruct (gw_document _ Hwf _ _ Hd) as [-> _]. eauto.
  - intros (row & Hd & <- & Hv). exists (d, row). destruct (gw_document _ Hwf _ _ Hd) as [Hl _]. simpl. rewrite Hl.
    split; [done|]. apply elem_of_rows. split; [done|]. by apply bool_decide_eq_true.
Qed.

Lemma identities_id g v d : graph_wf g →
  d ∈ (desired_catalog_identities g v).*1 ↔ ∃ row, documents g !! d = Some row ∧ fk_volume (d_object row) = v.
Proof.
  intros Hwf. rewrite list_elem_of_fmap. split.
  - intros ([d' k] & -> & (row & Hd & <- & Hv)%elem_of_identities); eauto.
  - intros (row & Hd & Hv). exists (d, d_object row). split; [done|]. apply elem_of_identities; eauto.
Qed.

Lemma identities_volume g v k : graph_wf g → k ∈ (desired_catalog_identities g v).*2 → fk_volume k = v.
Proof. intros Hwf ([d k'] & -> & (row & _ & _ & Hv)%elem_of_identities)%list_elem_of_fmap; done. Qed.

Lemma namespace_document g d row : store_wf g → documents g !! d = Some row → is_Some (namespace g !! d).
Proof.
  intros [_ Hdl] Hd. destruct (Hdl _ _ Hd ltac:(set_solver)) as (l & Hl & _). unfold namespace. rewrite lookup_fmap, Hl. eauto.
Qed.

(** No document of the folder is in the desired catalog. *)
Definition vacant v g : Prop := ∀ d row, documents g !! d = Some row → fk_volume (d_object row) ≠ v.

Lemma remove_scoped_root_spec v (batch_size : Z) (rebuildable : bool) g g' (r : result GraphError Z) :
  store_wf g → remove_scoped_root v batch_size rebuildable g = (r, g') →
  evolved v g g' ∧ (is_ok r = true ∨ vacant v g → vacant v g').
Proof.
  intros Hwf Hrun. unfold remove_scoped_root in Hrun. pose proof Hwf as [Hg _].
  set (current := desired_catalog_identities g v) in *. set (P := λ d, d ∈ current.*1).
  destruct (push_and_flush_spec (λ p, MkGraphMutationBatch v (MkProviderCheckpoint "content-scope-revocation" 1 v []) p)
    [] rebuildable v (λ _, eq_refl) (λ _, eq_refl) ltac:(constructor) P batch_size (removals current current.*2) 0 g r g') as [Hr Hns];
    [done| |exact Hrun|].
  { apply removals_on_volume; [done|]. intros k. by apply identities_volume. }
  assert (held P v g) as Hh by (intros d row Hd Hv; apply identities_id; eauto).
  split; [apply Hr|]. intros Hc d row Hd Hv. pose proof (rr_held _ _ _ _ _ _ Hr Hh d row Hd Hv) as HP. destruct Hc as [Hok|Hva].
  - apply (namespace_document _ _ _ (rr_wf _ _ _ _ _ _ Hr)) in Hd. rewrite (Hns Hok), removals_effect in Hd.
    rewrite decide_True in Hd by exact HP. by destruct Hd.
  - apply identities_id in HP as (row' & Hrow & Hv'); [|done]. by destruct (Hva _ _ Hrow).
Qed.

(** Revoking only takes links away. *)
Lemma remove_scoped_root_shrinks v (batch_size : Z) (rebuildable : bool) g g' (r : result GraphError Z) :
  store_wf g → remove_scoped_root v batch_size rebuildable g = (r, g') → namespace g' ⊆ namespace g.
Proof.
  intros Hwf Hrun. pose proof Hwf as [Hg _].
  destruct (push_and_flush_spec (λ p, MkGraphMutationBatch v (MkProviderCheckpoint "content-scope-revocation" 1 v []) p)
    [] rebuildable v (λ _, eq_refl) (λ _, eq_refl) ltac:(constructor) (λ _, True) batch_size
    (removals (desired_catalog_identities g v) (desired_catalog_identities g v).*2) 0 g r g') as [Hr _]; [done| |exact Hrun|].
  { apply removals_on_volume; [done|]. intros k. by apply identities_volume. }
  apply (rr_keeps _ _ _ _ _ _ Hr (λ h, namespace h ⊆ namespace g)); [|done]. intros pending h n h' _ _ Hp _ -> Hsub.
  destruct (on_volume_shrinks _ _ _ (namespace h) Hp) as [? _]. by etrans.
Qed.

(** C16 (revoked folder): revoking a selected folder changes the graph only by store transactions that spare every
    consumer, also when it fails half way, and the documents, links and checkpoint of every other folder
    are exactly what they were; when it succeeds no document of the folder is left in the desired
    catalog. *)
Theorem remove_scoped_root_revokes v (batch_size : Z) (rebuildable : bool) g g' (r : result GraphError Z) :
  store_wf g → remove_scoped_root v batch_size rebuildable g = (r, g') →
  evolved v g g' ∧ (is_ok r = true ∨ vacant v g → vacant v g').
Proof. apply remove_scoped_root_spec. Qed.
End effects.

(** ** Documents of a tree of links *)

Section tree.
Context `{E : StoreEnv} `{!StoreLaws E}.
Implicit Types (g : db) (id : link_id) (k : FileKey) (v : volume_id) (T : gmap link_id place) (X : gset link_id).

(** The links [X] are where [T] says, and each of their folders has exactly one link, which is among
    them. *)
Definition anchored T X g : Prop :=
  ∀ id, id ∈ X → ∃ p, T !! id = Some p ∧ namespace g !! id = Some p ∧
    ∀ k, place_parent p = Some k → ∃ folder, folder ∈ X ∧ place_object <$> T !! folder = Some k ∧
      ∀ id' p', namespace g !! id' = Some p' → place_object p' = k → id' = folder.

Definition stored_at id (p : place) : StoredLink := MkStoredLink id p.1.1.1 p.1.1.2 p.1.2 p.2.

Lemma load_link_namespace g id : load_link g id = stored_at id <$> namespace g !! id.
Proof. unfold load_link, namespace. rewrite lookup_fmap. by destruct (links g !! id) as [[]|]. Qed.

Lemma namespace_only g k id p :
  namespace g !! id = Some p → place_object p = k →
  (∀ id' p', namespace g !! id' = Some p' → place_object p' = k → id' = id) → only_link g k (stored_at id p).
Proof.
  intros Hp Hk Hu. split; [simpl; rewrite load_link_namespace; by rewrite Hp|]. split; [done|].
  intros id' r Hr Ho. apply (Hu id' (place_of r)); [unfold namespace; by rewrite lookup_fmap, Hr|done].
Qed.

(** The folder of an anchored link, the same in every graph where it is anchored. *)
Lemma anchored_folder T X g g' id p k :
  anchored T X g → anchored T X g' → id ∈ X → T !! id = Some p → place_parent p = Some k →
  ∃ folder pf, folder ∈ X ∧ T !! folder = Some pf ∧ place_object pf = k
    ∧ load_only_link_for_object g k = Ok (stored_at folder pf) ∧ load_only_link_for_object g' k = Ok (stored_at folder pf).
Proof.
  intros Ha Ha' Hid Hp Hk.
  assert (∀ h, anchored T X h → ∃ folder pf, folder ∈ X ∧ T !! folder = Some pf ∧ place_object pf = k
    ∧ namespace h !! folder = Some pf ∧ ∀ id' p', namespace h !! id' = Some p' → place_object p' = k → id' = folder) as Hf.
  { intros h Hh. destruct (Hh id Hid) as (p' & Hp' & _ & Hpar). rewrite Hp in Hp'. injection Hp' as <-.
    destruct (Hpar k Hk) as (folder & Hin & (pf & Hpf & Ho)%fmap_Some & Hu). exists folder, pf.
    destruct (Hh folder Hin) as (pf' & Hpf' & Hns & _). split_and!; [done|done|done|congruence|done]. }
  destruct (Hf g Ha) as (folder & pf & Hin & Hpf & Ho & Hns & Hu), (Hf g' Ha') as (f' & pf' & Hin' & Hpf' & Ho' & Hns' & Hu').
  assert (f' = folder) as ->.
  { destruct (Ha f' Hin') as (q & Hq & Hnq & _). apply (Hu f' q Hnq). congruence. }
  assert (pf' = pf) as -> by congruence. exists folder, pf. split_and!; [done..| |]; apply load_only_link_Ok; by apply namespace_only.
Qed.

Lemma anchored_loop T X g g' depth remaining id p (tgt : bool) comps sn :
  anchored T X g → anchored T X g' → id ∈ X → T !! id = Some p →
  resolve_loop g depth remaining (stored_at id p) tgt comps sn = resolve_loop g' depth remaining (stored_at id p) tgt comps sn.
Proof.
  intros Ha Ha'. revert id p tgt comps sn. induction remaining as [|rem IH]; intros id p tgt comps sn Hid Hp; [done|].
  cbn [resolve_loop]. destruct (_ && _); [done|]. cbn [sl_parent_key stored_at].
  destruct (place_parent p) as [k|] eqn:Hk; [|done]. case_decide; [done|].
  destruct (anchored_folder T X g g' id p k Ha Ha' Hid Hp Hk) as (folder & pf & Hin & Hpf & _ & -> & ->). simpl. by apply IH.
Qed.

Lemma anchored_resolve T X g g' id depth :
  anchored T X g → anchored T X g' → id ∈ X → resolve_path_connection g id depth = resolve_path_connection g' id depth.
Proof.
  intros Ha Ha' Hid. unfold resolve_path_connection. case_decide; [done|]. rewrite !load_link_namespace.
  destruct (Ha id Hid) as (p & Hp & -> & _), (Ha' id Hid) as (p' & Hp' & -> & _). rewrite Hp in Hp'. injection Hp' as <-.
  simpl. by eapply anchored_loop.
Qed.

(** The volume is online. *)
Definition online g v : Prop := v_state <$> volumes g !! v = Some (volume_state_code VOnline).

Lemma online_state g g' v : online g v → online g' v → volume_state_of g' v = volume_state_of g v.
Proof. unfold online. intros H H'. apply volume_state_of_ext. congruence. Qed.

(** The links [X] of the volume are anchored and their desired rows describe what the graph says. *)
Record catalogued T X v g : Prop := {
  ca_anchored : anchored T X g;
  ca_synced id : id ∈ X → synced g id;
  ca_online id : id ∈ X → online g v }.

(** Mutations of objects and links leave the volumes alone. *)
Definition of_entry (m : GraphMutation) : Prop :=
  match m with UpsertObject _ | UpsertLink _ _ | RemoveLink _ _ | TombstoneObject _ => True | _ => False end.

Lemma tombstoned_volumes k b g n g' : update_tombstoned k b g = Ok (n, g') → volumes g' = volumes g.
Proof. by intros [(r & _ & _ & ->)|(_ & _ & ->)]%update_tombstoned_Ok. Qed.
Lemma enqueue_volumes k generation g n g' : enqueue_refresh k generation g = Ok (n, g') → volumes g' = volumes g.
Proof. by intros [[-> _]|(_ & _ & _ & ->)]%enqueue_refresh_Ok. Qed.

Lemma entry_volumes m generation g n g' :
  of_entry m → mutation_unscanned g m → apply_mutation m generation g = Ok (n, g') → volumes g' = volumes g.
Proof.
  intros Hm Hu Hrun. destruct m as [| |o|lk b|id k|k|]; try done; simpl in Hu, Hrun.
  - unfold upsert_object in Hrun. by ginv.
  - apply upsert_link_Ok in Hrun as (g1 & g2 & x & _ & Hrem & _ & Hq & _ & _ & Hins).
    unfold stale_observation_link_conflicts in Hrem. rewrite Hu in Hrem. injection Hrem as <-.
    apply tombstoned_volumes in Hins as ->. simpl. destruct Hq as [[-> _]|Hq]; [done|by eapply enqueue_volumes].
  - apply remove_link_internal_Ok in Hrun as [(_ & -> & _)|(row & b & g1 & g2 & _ & _ & _ & -> & Ht & Hq)]; [done|].
    assert (volumes g2 = volumes g) as <-.
    { destruct Ht as [(_ & x & Hx)|[_ ->]]; [by apply tombstoned_volumes in Hx|done]. }
    destruct (_ && _); [by eapply enqueue_volumes|]. by destruct Hq as [_ ->].
  - ginv. match goal with H : tombstone_object _ _ = Ok (?u, _) |- _ => destruct u; apply tombstone_object_Ok in H as [_ H];
      by apply tombstoned_volumes in H end.
Qed.

Lemma entries_volumes ms generation A g r g' :
  Forall of_entry ms → (∀ m, m ∈ ms → mutation_unscanned g m) → apply_mutations ms generation A g = Ok (r, g') →
  volumes g' = volumes g.
Proof.
  intros Hms. revert A g r. induction Hms as [|m ms Hm _ IH]; intros A g r Hu Hrun; simpl in Hrun; ginv; [done|].
  match goal with H : apply_mutation _ _ _ = _, H' : apply_mutations _ _ _ _ = _ |- _ =>
    pose proof (apply_mutation_mutates _ _ _ _ _ H) as [(_ & _ & _ & _ & _ & Hs) _];
    apply entry_volumes in H; [|done|apply Hu; by left]; apply IH in H'; [by rewrite H', H|] end.
  intros m' Hm'. specialize (Hu m' ltac:(by right)). destruct m'; try done. by eapply unscanned_ext.
Qed.

(** A batch that begins with its volume leaves it online. *)
Lemma batch_online b mode d ms g sum g' :
  gb_mutations b = UpsertVolume d :: ms → Forall of_entry ms → (∀ m, m ∈ ms → mutation_unscanned g m) →
  apply_batch_with_outbox_mode b mode g = Ok (sum, g') → online g' (gb_volume_id b).
Proof.
  intros Hb Hms Hu (jobs & A & g1 & g2 & n & row & Hval & _ & _ & Hmut & Hsync & Hrow & -> & _)%apply_batch_Ok.
  assert (UpsertVolume d ∈ gb_mutations b) as Hin by (rewrite Hb; left).
  destruct (proj1 (validate_mutation_volume_ok _ _) (batch_validate_Ok _ _ Hval Hin)) as [_ Hd]. simpl in Hd.
  destruct (sync_all_same_graph _ _ _ _ _ _ Hsync) as (Hv2 & _). unfold online, advance_volume. simpl.
  rewrite lookup_insert_eq. simpl. rewrite Hv2 in Hrow. rewrite Hb in Hmut. simpl in Hmut. unfold upsert_volume in Hmut. ginv.
  match goal with H : apply_mutations ms _ _ _ = _ |- _ => apply entries_volumes in H; [|done|]; [rewrite H in Hrow|] end.
  - rewrite <-Hd in Hrow. simpl in Hrow. rewrite lookup_insert_eq in Hrow. by injection Hrow as <-.
  - intros m Hm. specialize (Hu m Hm). by destruct m.
Qed.

Lemma folder_batch_mode b rebuildable g n g' :
  apply_folder_graph_batch b rebuildable g = Ok (n, g') → ∃ mode sum, apply_batch_with_outbox_mode b mode g = Ok (sum, g').
Proof. intros (sum & g0 & Hb & [_ ->]%M_ret_Ok)%M_bind_Ok. destruct rebuildable; eauto. Qed.

(** A batch of the volume: what it names is catalogued, and what was catalogued before stays so if it
    is still anchored. *)
Lemma batch_catalogued T X X' v b rebuildable d ms g n g' :
  store_wf g → batch_typed b → gb_volume_id b = v → gb_mutations b = UpsertVolume d :: ms → Forall of_entry ms →
  (∀ m, m ∈ ms → mutation_unscanned g m) → apply_folder_graph_batch b rebuildable g = Ok (n, g') →
  (∀ id p, T !! id = Some p → fk_volume (place_object p) = v) →
  catalogued T X v g → anchored T X' g' → X ⊆ X' →
  (∀ id, id ∈ X' → id ∉ X → ∃ m, m ∈ ms ∧ names_link m id) → catalogued T X' v g'.
Proof.
  intros Hwf Hty Hbv Hb Hms Hu (mode & sum & Hrun)%folder_batch_mode HT [Ha Hs Ho] Ha' Hsub Hnew.
  assert (online g' v) as Hon by (rewrite <-Hbv; by eapply batch_online).
  split; [done| |done]. intros id Hid. destruct (decide (id ∈ X)) as [Hin|Hout].
  - eapply batch_defers_only_refresh; [done|done|exact Hrun|by apply Hs|]. intros l Hl _.
    assert (fk_volume (l_object l) = v) as ->.
    { destruct (Ha id Hin) as (p & Hp & Hns & _). rewrite <-(HT id p Hp). unfold namespace in Hns.
      rewrite lookup_fmap, Hl in Hns. by injection Hns as <-. }
    split; [apply online_state; [by eapply Ho|done]|]. unfold resolve_path. case_decide; [done|].
    eapply (anchored_resolve T X); [|done|done]. intros x Hx.
    destruct (Ha x Hx) as (p & Hp & _ & Hpar), (Ha' x (Hsub x Hx)) as (p' & Hp' & Hns' & Hpar').
    assert (p' = p) as -> by congruence. exists p. split; [done|]. split; [done|]. intros k Hk.
    destruct (Hpar k Hk) as (f & Hf & Hfo & _), (Hpar' k Hk) as (f' & Hf' & Hfo' & Hu'). exists f. split; [done|]. split; [done|].
    assert (f = f') as ->; [|done]. destruct (Ha' f (Hsub f Hf)) as (q & Hq & Hnq & _). apply (Hu' f q Hnq).
    rewrite Hq in Hfo. by injection Hfo.
  - eapply batch_syncs_touched; [done|done|exact Hrun|]. right. left. destruct (Hnew id Hid Hout) as (m & Hm & Hn).
    exists m. split; [rewrite Hb; by right|done].
Qed.

Lemma anchored_shrinks T X g g' :
  namespace g' ⊆ namespace g → (∀ id, id ∈ X → namespace g' !! id = namespace g !! id) → anchored T X g → anchored T X g'.
Proof.
  intros Hsub Hkeep Ha id Hid. destruct (Ha id Hid) as (p & Hp & Hns & Hpar). exists p. split; [done|].
  split; [by rewrite Hkeep|]. intros k Hk. destruct (Hpar k Hk) as (f & Hf & Hfo & Hu). exists f. split; [done|]. split; [done|].
  intros id' p' Hp'. apply Hu. by eapply lookup_weaken.
Qed.

(** Removals that leave the links [X] alone leave them catalogued. *)
Lemma removals_catalogued T X v b rebuildable d ms g n g' :
  store_wf g → gb_volume_id b = v → gb_mutations b = UpsertVolume d :: ms → Forall (on_volume (λ d, d ∉ X) v) ms →
  apply_folder_graph_batch b rebuildable g = Ok (n, g') → namespace g' = foldl effect (namespace g) ms →
  (∀ id p, T !! id = Some p → fk_volume (place_object p) = v) →
  catalogued T X v g → catalogued T X v g'.
Proof.
  intros Hwf Hbv Hb Hms Hrun Hns HT Hca.
  eapply batch_catalogued; [exact Hwf| |exact Hbv|exact Hb| | |exact Hrun|exact HT|exact Hca| |done|done].
  - unfold batch_typed. rewrite Hb. constructor; [done|]. eapply Forall_impl; [exact Hms|]. by intros [].
  - eapply Forall_impl; [exact Hms|]. by intros [].
  - intros m Hm. rewrite Forall_forall in Hms. specialize (Hms m Hm). by destruct m.
  - destruct (on_volume_shrinks _ _ _ (namespace g) Hms) as [Hsub Hkeep]. rewrite <-Hns in Hsub, Hkeep.
    eapply anchored_shrinks; [exact Hsub| |by destruct Hca]. intros id Hid. apply Hkeep. by intros ?.
Qed.

(** The desired catalog holds the document of a link, with the name and the path that the graph gives
    it; only a link more than [PATH_DEPTH] levels deep has none. *)
Definition documented g id : Prop :=
  ∃ l c, load_link g id = Some l ∧ parent_chain g l c ∧
    if decide (length c ≤ PATH_DEPTH) then
      ∃ row doc, documents g !! id = Some row ∧ row_describes row doc ∧ wanted g id = Some (document_content doc)
        ∧ cd_name doc = sl_name l ∧ cd_resolved_path doc = join_slash (reverse (sl_name <$> c))
    else documents g !! id = None.

Lemma chain_resolves g id l c depth :
  load_link g id = Some l → parent_chain g l c → Forall (λ l, sl_traversal_boundary l = false) c → depth ≠ 0 →
  if decide (length c ≤ depth) then resolve_path_connection g id depth = Ok (MkResolvedPath (reverse (sl_name <$> c)))
  else ∀ path, resolve_path_connection g id depth ≠ Ok path.
Proof.
  intros Hl Hc Hb H0. assert (resolve_path_connection g id depth = resolve_loop g depth depth l true [] ∅) as ->.
  { unfold resolve_path_connection. by rewrite decide_False, Hl. }
  case_decide.
  - apply (resolve_loop_chain g depth depth l true [] ∅ c); [done|done| |set_solver].
    destruct c; [done|]. by apply Forall_cons in Hb as [_ ?].
  - intros path (c' & Hc' & Hlen & _)%resolve_loop_Ok. by rewrite (parent_chain_inj _ _ _ _ Hc Hc') in *.
Qed.

Lemma chain_wanted g id l c :
  graph_wf g → load_link g id = Some l → parent_chain g l c → Forall (λ l, sl_traversal_boundary l = false) c →
  if decide (length c ≤ PATH_DEPTH) then
    ∃ doc, wanted g id = Some (document_content doc) ∧ cd_name doc = sl_name l
      ∧ cd_resolved_path doc = join_slash (reverse (sl_name <$> c))
  else wanted g id = None.
Proof.
  intros Hwf Hl Hc Hb. pose proof (chain_resolves g id l c PATH_DEPTH Hl Hc Hb ltac:(discriminate)) as Hres.
  assert (sl_file_link_id l = id) as Hid by by eapply load_link_id.
  unfold wanted, desired_document. rewrite Hl. cbn [mbind option_bind]. unfold build_catalog_document. rewrite Hid.
  assert (∃ m, load_object_metadata g (sl_object_key l) = Ok m) as [m ->].
  { apply load_link_Some in Hl as (r & Hr & ->). destruct (gw_link_live _ Hwf _ _ Hr) as (o & Ho & Ht).
    unfold load_object_metadata. cbn [stored_link_from_row sl_object_key]. rewrite Ho, Ht. apply metadata_from_row_ok. by eapply gw_object_row. }
  assert (∃ st, volume_state_of g (fk_volume (sl_object_key l)) = Ok st) as [st ->].
  { apply load_link_Some in Hl as (r & Hr & ->). destruct (gw_link_live _ Hwf _ _ Hr) as (o & Ho & _).
    apply (volume_state_of_ok g (l_object r) Hwf). eauto. }
  cbn [mbind result_bind]. case_decide; [rewrite Hres; by eexists|].
  destruct (resolve_path_connection g id PATH_DEPTH) as [path|e]; [by destruct (Hres path)|done].
Qed.

Lemma synced_documented g id l c :
  graph_wf g → synced g id → load_link g id = Some l → parent_chain g l c →
  Forall (λ l, sl_traversal_boundary l = false) c → documented g id.
Proof.
  intros Hwf Hs Hl Hc Hb. exists l, c. split; [done|]. split; [done|].
  pose proof (chain_wanted g id l c Hwf Hl Hc Hb) as Hw. unfold synced in Hs. case_decide.
  - destruct Hw as (doc & Hw & Hname & Hpath). destruct (documents g !! id) as [row|]; [|congruence].
    destruct Hs as (doc' & Hr & Hw'). exists row, doc'. pose proof Hw' as Heq. rewrite Hw in Heq.
    injection Heq as _ Hn Hp _ _. split_and!; congruence || done.
  - destruct (documents g !! id) as [row|]; [|done]. destruct Hs as (doc & _ & Hw'). congruence.
Qed.

(** Documents depend on links, objects, volume states and their own rows. *)
Lemma documented_ext g g' id :
  links g' = links g → wanted g' id = wanted g id →
  (∀ row doc, documents g !! id = Some row → row_describes row doc → ∃ row', documents g' !! id = Some row' ∧ row_describes row' doc) →
  (documents g !! id = None → documents g' !! id = None) → documented g id → documented g' id.
Proof.
  intros Hl Hw Hsome Hnone (l & c & Hll & Hc & Hd). exists l, c. split; [unfold load_link in *; by rewrite Hl|].
  split; [clear - Hl Hc; induction Hc; econstructor; try done; unfold only_link, load_link in *; by rewrite Hl|].
  case_decide; [|auto]. destruct Hd as (row & doc & Hrow & Hr & Hw0 & Hrest). destruct (Hsome row doc Hrow Hr) as (row' & Hrow' & Hr').
  exists row', doc. by rewrite Hw.
Qed.
End tree.

(** ** What a scan can emit *)

Section typed.
Context `{E : StoreEnv}.

(** File sizes are u64. *)
Fixpoint entry_typed (e : entry_view) : Prop :=
  match e with
  | EntryOk _ m _ children =>
      in_u64 (nm_file_size m) ∧
      match children with
      | Ok l => (fix go (l : list entry_view) : Prop := match l with [] => True | e :: l => entry_typed e ∧ go l end) l
      | Err _ => True
      end
  | _ => True
  end.
Definition dir_typed (d : dir_view) : Prop :=
  match d with Ok l => Forall entry_typed l | Err _ => True end.

Lemma entry_typed_children i m name l : entry_typed (EntryOk i m name (Ok l)) → in_u64 (nm_file_size m) ∧ Forall entry_typed l.
Proof. simpl. intros [Hm Hl]. split; [done|]. induction l as [|e l IH]; [done|]. destruct Hl as [He Hl]. constructor; auto. Qed.

(** An event of the volume [v]. *)
Definition event_ok (v : volume_id) (e : FilesystemEvent) : Prop :=
  match e with
  | ObjectObserved o => in_u64 (m_size (fo_metadata o))
  | LinkObserved l => in_u128 (fl_file_link_id l) ∧ fk_volume (fl_object_key l) = v
  | _ => False
  end.

Lemma stable_hash_u128 bytes : in_u128 (stable_hash_bytes bytes).
Proof.
  unfold stable_hash_bytes, in_u128.
  assert (FNV_OFFSET_128 < 2 ^ 128)%N as H by done. revert H. generalize FNV_OFFSET_128.
  induction bytes as [|b bytes IH]; intros h Hh; simpl; [done|]. apply IH, N.mod_lt. done.
Qed.

Lemma lxor_u128 a b : in_u128 a → in_u128 b → in_u128 (N.lxor a b).
Proof.
  unfold in_u128. intros Ha Hb. destruct (decide (N.lxor a b = 0)%N) as [->|Hne]; [done|].
  apply N.log2_lt_pow2; [lia|]. eapply N.le_lt_trans; [apply N.log2_lxor|].
  assert (∀ x, (x < 2 ^ 128 → N.log2 x < 128)%N) as Hlog.
  { intros x Hx. destruct (decide (x = 0)%N) as [->|]; [done|]. apply N.log2_lt_pow2; [lia|done]. }
  apply N.max_lub_lt; auto.
Qed.

Lemma root_link_u128 v : in_u128 v → in_u128 (root_link_id v).
Proof. intros Hv. apply lxor_u128; [done|]. unfold in_u128. done. Qed.

(** A scan keeps whatever its sink keeps. *)
Section keeps.
Context {S : Type} (sink : Sink S) (I : S → Prop) (v : volume_id) (options : ScopedScanOptions).
Context (Hsink : ∀ e s r s', event_ok v e → I s → sink e s = (r, s') → I s').

Definition preserves {A} (k : St S PlatformError A) : Prop := ∀ s r s', I s → k s = (r, s') → I s'.

Lemma preserves_lift {A} (x : PlatformResult A) : preserves (st_lift x).
Proof. by intros s r s' HI [= _ <-]. Qed.
Lemma preserves_ret {A} (a : A) : preserves (mret a).
Proof. by intros s r s' HI [= _ <-]. Qed.
Lemma preserves_fail {A} (e : PlatformError) : preserves (@st_fail S _ A e).
Proof. by intros s r s' HI [= _ <-]. Qed.
Lemma preserves_bind {A C} (k : St S PlatformError A) (f : A → St S PlatformError C) :
  preserves k → (∀ a, preserves (f a)) → preserves (k ≫= f).
Proof. intros Hk Hf s r s' HI [(e & He & ->)|(a & s1 & Ha & H)]%st_bind_inv; [by eapply Hk|]. eapply Hf; [|done]. by eapply Hk. Qed.
Lemma preserves_sink e : event_ok v e → preserves (sink e).
Proof. intros He s r s' HI H. by eapply Hsink. Qed.

Lemma preserves_entries parent l n :
  Forall (λ e, ∀ n, preserves (crawl_entry v options sink parent e n)) l →
  preserves (crawl_entries v options sink parent l n).
Proof. intros Hl. revert n. induction Hl as [|e l He _ IH]; intros n; [apply preserves_ret|]. by apply preserves_bind. Qed.

Lemma preserves_dir path parent n :
  (∀ l, path = Ok l → Forall (λ e, ∀ n, preserves (crawl_entry v options sink parent e n)) l) →
  preserves (crawl v options sink path parent n).
Proof.
  intros Hl s r s' HI H. destruct path as [l|e].
  - exact (preserves_entries parent l n (Hl l eq_refl) s r s' HI H).
  - unfold crawl, readable_directory in H. destruct (_ && _); by injection H as _ <-.
Qed.

Lemma preserves_entry parent e n : entry_typed e → preserves (crawl_entry v options sink parent e n).
Proof.
  revert parent n. induction e as [e|e|e|i m name e|i m name l IH] using entry_tree_ind; intros parent n Hty.
  1-3: cbn [crawl_entry]; (destruct (io_skipped e) || destruct (identity_skipped e));
    first [apply preserves_ret|apply preserves_fail].
  all: intros s r s' HI; rewrite crawl_entry_ok; revert s r s' HI;
    (apply preserves_bind; [apply preserves_sink; simpl; apply Hty|intros _]);
    (apply preserves_bind; [apply preserves_lift|intros n1]);
    (apply preserves_bind; [apply preserves_sink; split; [apply stable_hash_u128|done]|intros _]);
    (apply preserves_bind; [apply preserves_lift|intros n2]);
    destruct (_ && _); [|apply preserves_ret]; apply preserves_dir; intros l' Hl'; try done.
  injection Hl' as <-. apply entry_typed_children in Hty as [_ Hl]. rewrite Forall_forall in Hl, IH.
  apply Forall_forall. intros e He n3. apply IH; auto.
Qed.

(** The scan of a selected root. *)
Lemma preserves_scan prepared tree :
  vd_volume_id (ps_volume prepared) = v → in_u128 v → fk_volume (ps_root_key prepared) = v →
  (∀ m, se_root_metadata tree = Ok m → in_u64 (nm_file_size m)) → dir_typed (se_root tree) →
  preserves (scan_prepared_root_with_options prepared tree options sink).
Proof.
  intros Hv Hu Hk Hm Hd. unfold scan_prepared_root_with_options. rewrite Hv.
  intros s r s' HI [(e & He & ->)|(lookup & s1 & Hlookup & H)]%st_bind_inv; [by injection He as _ <-|].
  injection Hlookup as Hlookup <-. apply st_bind_inv in H as [(e & He & ->)|(root & s1 & Hroot & H)]; [by injection He as _ <-|].
  injection Hroot as Hroot <-. revert s r s' HI H. apply preserves_bind.
  - unfold emit_root. apply preserves_bind; [|intros _]; apply preserves_sink; [|split; [by apply root_link_u128|done]].
    destruct lookup as [o| |]; try done. injection Hroot as ->. unfold object_snapshot in Hlookup.
    destruct (se_root_metadata tree) as [m|e]; [|by destruct (io_kind e)]. injection Hlookup as <-. by apply Hm.
  - intros _. apply preserves_bind; [|intros n; apply preserves_ret]. apply preserves_dir. intros l Hl. rewrite Hl in Hd.
    simpl in Hd. rewrite Forall_forall in Hd. apply Forall_forall. intros e He n. apply preserves_entry. by apply Hd.
Qed.
End keeps.

(** A successful scan has given these events to its sink. *)
Definition scan_events (prepared : PreparedScopedScan) (root : FileObjectSnapshot) (options : ScopedScanOptions)
  (tree : scan_env) : list FilesystemEvent :=
  [ObjectObserved root; LinkObserved (MkFileLinkSnapshot (root_link_id (vd_volume_id (ps_volume prepared)))
     (ps_root_key prepared) None (display_root_path (ps_canonical prepared)))]
  ++ children_events (vd_volume_id (ps_volume prepared)) options (ps_root_key prepared) (se_root tree).

Lemma scan_root_gives {S} (sink : Sink S) prepared tree options s sum s' :
  scan_prepared_root_with_options prepared tree options sink s = (Ok sum, s') →
  ∃ root, object_snapshot (se_root_metadata tree) (ps_root_key prepared) = Ok (Observed root)
    ∧ feed sink (scan_events prepared root options tree) s = (Ok tt, s')
    ∧ ss_emitted_events (sc_scan sum) = Z.of_nat (length (scan_events prepared root options tree))
    ∧ ss_checkpoint (sc_scan sum) = MkProviderCheckpoint "windows-scoped-folder" 1 (vd_volume_id (ps_volume prepared))
        (to_be_bytes 16 (scoped_root_fingerprint (ps_canonical prepared))).
Proof.
  intros (lookup & s1 & [Hl ->]%st_lift_Ok & H)%st_bind_Ok. apply st_bind_Ok in H as (root & s1 & [Hroot ->]%st_lift_Ok & H).
  apply st_bind_Ok in H as ([] & s1 & Hemit & H). apply st_bind_Ok in H as (n & s2 & [Hc ->]%crawl_gives & H).
  apply st_ret_Ok in H as [-> ->]. destruct lookup as [o| |]; try done. injection Hroot as ->.
  exists root. split; [done|]. split; [|split; [|done]].
  - unfold scan_events. apply feed_app. exists s1. split; [by eapply emit_root_feed|done].
  - simpl. lia.
Qed.

(** Every link is seen after a link of its folder, or after one of the objects [K]. *)
Fixpoint parents_first (K : FileKey → Prop) (es : list FilesystemEvent) : Prop :=
  match es with
  | [] => True
  | LinkObserved l :: es =>
      (∀ k, fl_parent_key l = Some k → K k) ∧ parents_first (λ k, K k ∨ k = fl_object_key l) es
  | _ :: es => parents_first K es
  end.

Lemma parents_first_mono (K K' : FileKey → Prop) es : (∀ k, K k → K' k) → parents_first K es → parents_first K' es.
Proof.
  revert K K'. induction es as [|e es IH]; intros K K' HK; [done|].
  destruct e; simpl; try (by apply IH). intros [Hp Hes]. split; [eauto|]. eapply IH; [|exact Hes]. naive_solver.
Qed.

Lemma parents_first_app K es fs : parents_first K es → parents_first K fs → parents_first K (es ++ fs).
Proof.
  revert K. induction es as [|e es IH]; intros K; [done|]. destruct e; simpl; try (by apply IH).
  intros [Hp Hes] Hfs. split; [done|]. apply IH; [done|]. eapply parents_first_mono; [|exact Hfs]. auto.
Qed.

Lemma parents_first_concat K ess : Forall (parents_first K) ess → parents_first K (concat ess).
Proof. induction 1; [done|]. by apply parents_first_app. Qed.

Lemma parents_first_split K es fs l k :
  parents_first K (es ++ LinkObserved l :: fs) → fl_parent_key l = Some k →
  K k ∨ ∃ l', LinkObserved l' ∈ es ∧ fl_object_key l' = k.
Proof.
  revert K. induction es as [|e es IH]; intros K; [simpl; intros [Hp _] Hk; left; by apply Hp|].
  assert (∀ K', parents_first K' (es ++ LinkObserved l :: fs) → (∀ x, K' x → K x ∨ ∃ l', e = LinkObserved l' ∧ fl_object_key l' = x) →
    fl_parent_key l = Some k → K k ∨ ∃ l', LinkObserved l' ∈ e :: es ∧ fl_object_key l' = k) as Hstep.
  { intros K' Hf HK' Hk. destruct (IH K' Hf Hk) as [H|(l' & Hl & Ho)]; [|right; exists l'; split; [by right|done]].
    apply HK' in H as [H|(l' & -> & Ho)]; [by left|right; exists l'; split; [by left|done]]. }
  destruct e as [o|l0| | |]; simpl; intros H Hk; try (apply (Hstep K); [done|by left|done]).
  destruct H as [_ H]. apply (Hstep _ H); [|done]. intros x [Hx| ->]; [by left|right; by exists l0].
Qed.

Lemma entry_parents_first v options e parent K :
  (∀ k, parent = Some k → K k) → parents_first K (entry_events v options parent e).
Proof.
  revert parent K. induction e as [e|e|e|i m name e|i m name l IH] using entry_tree_ind; intros parent K HK; try done.
  - cbn [entry_events parents_first]. split; [done|]. by destruct (entered _ _ _).
  - cbn [entry_events parents_first]. split; [done|]. destruct (entered _ _ _); [|done].
    apply parents_first_concat, Forall_fmap, Forall_forall. intros e He. rewrite Forall_forall in IH. apply IH; [done|].
    intros k [= <-]. by right.
Qed.

Lemma scan_parents_first prepared root options tree :
  parents_first (λ _, False) (scan_events prepared root options tree).
Proof.
  unfold scan_events. cbn [app parents_first]. split; [done|]. unfold children_events. destruct (se_root tree) as [l|e]; [|done].
  apply parents_first_concat, Forall_fmap, Forall_forall. intros e _. apply entry_parents_first. intros k [= <-]. by right.
Qed.
End typed.

(** ** Synchronising a folder *)

Section sync.
Context `{E : StoreEnv} `{!StoreLaws E}.
Implicit Types (g : db) (id : link_id) (k : FileKey) (v : volume_id) (w : fworld).

Lemma prepared_root view prepared :
  prepare_scan_root view = Ok prepared →
  in_u128 (vd_volume_id (ps_volume prepared)) ∧ fk_volume (ps_root_key prepared) = vd_volume_id (ps_volume prepared).
Proof.
  intros (c & _ & H)%result_bind_Ok. apply result_bind_Ok in H as (? & _ & H). apply result_bind_Ok in H as (vs & _ & H).
  apply result_bind_Ok in H as (native & _ & H). apply result_bind_Ok in H as (i & _ & [= <-]). simpl.
  split; [apply stable_hash_u128|done].
Qed.

(** What Rust's types guarantee of the answers: sizes are u64. *)
Definition env_typed (env : FolderEnv) : Prop :=
  ∀ n root, (∀ m, se_root_metadata (fe_scan env n root) = Ok m → in_u64 (nm_file_size m)) ∧ dir_typed (se_root (fe_scan env n root)).

Definition observed_links (es : list FilesystemEvent) : gset link_id :=
  list_to_set (omap (λ e, match e with LinkObserved l => Some (fl_file_link_id l) | _ => None end) es).

Section sink.
Context (env : FolderEnv) (descriptor : VolumeDescriptor) (checkpoint : ProviderCheckpoint) (rebuildable : bool).
Context (batch_size max_bytes : Z) (g0 : db).
Let v := vd_volume_id descriptor.
Context (Hun : unscanned g0 v).

Abbreviation sink := (scan_sink env descriptor checkpoint rebuildable batch_size max_bytes).
Abbreviation graph_of s := (fw_graph (sk_world s)).

(** The graph came from [g0] by transactions; what is pending may be applied to it. *)
Record sink_ok (s : sink_state) : Prop := {
  so_evolved : evolved v g0 (graph_of s);
  so_pending : Forall (λ m, mutation_typed m ∧ mutation_unscanned g0 m) (sk_pending s) }.

Lemma event_mutation e : event_ok v e →
  mutation_typed (GraphMutation_from_event e) ∧ mutation_unscanned g0 (GraphMutation_from_event e).
Proof. destruct e as [o|l| | |]; try done. simpl. intros [Hl ->]. done. Qed.

Lemma note_event_ok e s : event_ok v e → sink_ok s → sink_ok (note_event e s).
Proof. intros He []. split; try done. simpl. apply Forall_app. split; [done|]. apply Forall_singleton. by apply event_mutation. Qed.

Lemma set_world_ok s w : sink_ok s → fw_graph w = graph_of s → sink_ok (set_sk_world w s).
Proof. intros [] Hw. split; simpl; by rewrite ?Hw. Qed.

(** Applying a batch of the scan. *)
Lemma scoped_batch_ok s n g' :
  sink_ok s → apply_scoped_batch descriptor checkpoint rebuildable (sk_pending s) (graph_of s) = Ok (n, g') →
  evolved v g0 g' ∧ namespace g' = foldl effect (namespace (graph_of s)) (sk_pending s).
Proof.
  intros [Hev Hp] H. destruct Hev as [Hwf Hst Hse Hap] eqn:Hq. clear Hq.
  assert (batch_effect (MkGraphMutationBatch v checkpoint (UpsertVolume descriptor :: sk_pending s)) (graph_of s) g') as Hb.
  { eapply folder_batch_effect; [done| | |exact H].
    - constructor; [done|]. eapply Forall_impl; [exact Hp|]. by intros m [Hm _].
    - simpl. intros m [->|Hm]%elem_of_cons; [done|]. rewrite Forall_forall in Hp. destruct (Hp m Hm) as [_ Hu].
      destruct m; try done. simpl in *. by eapply unscanned_ext. }
  split; [by eapply evolved_trans, (batch_evolved _ _ _ Hwf Hb)|]. apply (be_namespace _ _ _ Hb).
Qed.

Lemma flush_scan_ok s r s' :
  sink_ok s → flush_scan descriptor checkpoint rebuildable s = (r, s') →
  sink_ok s' ∧ sk_links s' = sk_links s ∧ sk_objects s' = sk_objects s
  ∧ (is_ok r = true → sk_pending s' = [] ∧ namespace (graph_of s') = foldl effect (namespace (graph_of s)) (sk_pending s)).
Proof.
  intros Hs H. unfold flush_scan in H.
  destruct (apply_scoped_batch _ _ _ _ _) as [[n g']|e] eqn:Hb; injection H as <- <-; simpl.
  - destruct (scoped_batch_ok _ _ _ Hs Hb) as [? ?]. split; [|done]. by split; [..|constructor].
  - destruct Hs. split; [|done]. by split; [..|constructor].
Qed.

Lemma pressure_graph w r w' : graph_storage_pressure_bytes env w = (r, w') → fw_graph w' = fw_graph w.
Proof.
  intros H. unfold graph_storage_pressure_bytes in H.
  repeat (apply st_bind_inv in H as [(? & H & ->)|(? & ? & Hq & H)];
    [by injection H as _ <- || by injection H as _ _ <-|injection Hq as _ <-]).
  by injection H as _ <-.
Qed.

(** What the pending mutations will have made of the namespace. *)
Definition seen s : gmap link_id place := foldl effect (namespace (graph_of s)) (sk_pending s).

Lemma sink_step e s r s' :
  event_ok v e → sink_ok s → sink e s = (r, s') →
  sink_ok s' ∧ (is_ok r = true →
    seen s' = effect (seen s) (GraphMutation_from_event e) ∧ sk_links s' = sk_links (note_event e s)
    ∧ sk_objects s' = sk_objects (note_event e s)).
Proof.
  intros He Hs H. pose proof (note_event_ok e s He Hs) as Hn. unfold scan_sink in H.
  assert (seen (note_event e s) = effect (seen s) (GraphMutation_from_event e)) as Hseen.
  { unfold seen. simpl. by rewrite foldl_app. }
  destruct (_ <=? _)%Z; [|injection H as <- <-; done].
  destruct (flush_scan _ _ _ (note_event e s)) as [[[]|x] s1] eqn:Hf; destruct (flush_scan_ok _ _ _ Hn Hf) as (H1 & Hl & Ho & Hns).
  - destruct (Hns eq_refl) as [Hp Hns1].
    destruct (graph_storage_pressure_bytes env (sk_world s1)) as [[bytes|x] w] eqn:Hw; apply pressure_graph in Hw; injection H as <- <-;
      (split; [by apply set_world_ok|]); [|done]. intros _. unfold seen at 1. simpl. rewrite Hp, Hw. simpl. rewrite Hns1. done.
  - injection H as <- <-. done.
Qed.

Lemma sink_feed es s s' :
  Forall (event_ok v) es → sink_ok s → feed sink es s = (Ok tt, s') →
  sink_ok s' ∧ seen s' = foldl effect (seen s) (GraphMutation_from_event <$> es)
  ∧ sk_links s' = observed_links es ∪ sk_links s.
Proof.
  intros Hes. revert s. induction Hes as [|e es He _ IH]; intros s Hs H.
  - injection H as <-. split; [done|]. split; [done|]. unfold observed_links. set_solver.
  - apply st_bind_Ok in H as ([] & s1 & H1 & H2). destruct (sink_step _ _ _ _ He Hs H1) as [Hs1 Hok].
    destruct (Hok eq_refl) as (Hseen & Hl & _). destruct (IH _ Hs1 H2) as (Hs2 & Hseen2 & Hl2).
    split; [done|]. split; [by rewrite Hseen2, Hseen|]. rewrite Hl2, Hl. unfold observed_links, note_event.
    destruct e; simpl; set_solver.
Qed.
End sink.

(** The namespace that a scan saw. *)
Definition scanned_tree (es : list FilesystemEvent) : gmap link_id place :=
  foldl effect ∅ (GraphMutation_from_event <$> es).

Lemma effect_union v es m ns :
  Forall (event_ok v) es →
  foldl effect (m ∪ ns) (GraphMutation_from_event <$> es) = foldl effect m (GraphMutation_from_event <$> es) ∪ ns.
Proof.
  intros Hes. revert m. induction Hes as [|e es He _ IH]; intros m; [done|].
  destruct e as [o|l| | |]; try done; cbn [fmap list_fmap GraphMutation_from_event foldl effect]; [apply IH|].
  rewrite insert_union_l. apply IH.
Qed.

Lemma scanned_tree_dom v es : Forall (event_ok v) es → dom (scanned_tree es) = observed_links es.
Proof.
  unfold scanned_tree. intros Hes.
  assert (∀ m : gmap link_id place,
    dom (foldl effect m (GraphMutation_from_event <$> es)) = observed_links es ∪ dom m) as ->.
  { induction Hes as [|e es He _ IH]; intros m; [unfold observed_links; set_solver|].
    destruct e as [o|l| | |]; try done; cbn [fmap list_fmap GraphMutation_from_event foldl effect].
    - rewrite IH. done.
    - rewrite IH, dom_insert_L. unfold observed_links. cbn [omap list_omap list_to_set]. set_solver. }
  set_solver.
Qed.

Lemma scanned_tree_over v es ns : Forall (event_ok v) es →
  foldl effect ns (GraphMutation_from_event <$> es) = scanned_tree es ∪ ns.
Proof. intros Hes. rewrite <-(left_id_L ∅ (∪) ns) at 1. by apply (effect_union v). Qed.

(** The identifiers of the links a scan saw, in order. *)
Definition link_ids (es : list FilesystemEvent) : list link_id :=
  omap (λ e, match e with LinkObserved l => Some (fl_file_link_id l) | _ => None end) es.

Lemma elem_of_link_ids es id : id ∈ link_ids es ↔ ∃ l, LinkObserved l ∈ es ∧ fl_file_link_id l = id.
Proof.
  unfold link_ids. rewrite list_elem_of_omap. split.
  - intros (e & He & Hid). destruct e as [|l| | |]; try done. injection Hid as <-. by exists l.
  - intros (l & Hl & <-). by exists (LinkObserved l).
Qed.

Definition place_seen (l : FileLinkSnapshot) : place := (fl_object_key l, fl_parent_key l, fl_name l, false).

(** Links with identifiers of their own are where they were seen. *)
Lemma scanned_tree_elem v es id p :
  Forall (event_ok v) es → NoDup (link_ids es) →
  scanned_tree es !! id = Some p ↔ ∃ l, LinkObserved l ∈ es ∧ fl_file_link_id l = id ∧ p = place_seen l.
Proof.
  intros Hes. unfold scanned_tree. induction es as [|e es IH] using rev_ind; intros Hnd.
  { cbn [fmap list_fmap foldl]. rewrite lookup_empty. split; [done|]. by intros (l & []%elem_of_nil & _). }
  apply Forall_app in Hes as [Hes [He _]%Forall_cons]. unfold link_ids in Hnd. rewrite omap_app in Hnd.
  apply NoDup_app in Hnd as (Hnd & Hdis & _). specialize (IH Hes Hnd). rewrite fmap_app, foldl_app.
  setoid_rewrite elem_of_app. destruct e as [o|l| | |]; [| |by destruct He..];
    cbn [fmap list_fmap GraphMutation_from_event foldl effect].
  - rewrite IH. set_solver.
  - rewrite lookup_insert_Some, IH. split.
    + intros [[<- <-]|[Hne (l' & Hl' & Hid & ->)]]; [exists l|exists l']; set_solver.
    + intros (l' & [Hl'|Hl'%list_elem_of_singleton] & <- & ->); [right|by left; injection Hl' as ->].
      split; [|by exists l']. intros Heq. apply (Hdis (fl_file_link_id l')); [apply elem_of_link_ids; by exists l'|].
      cbn [omap list_omap]. rewrite Heq. left.
Qed.

(** No two entries of the scan share an identifier, and every folder with entries has one and the same
    link, in the scan and in the graph before it: no folder was renamed or moved. *)
Record steady (es : list FilesystemEvent) g : Prop := {
  sy_distinct : NoDup (link_ids es);
  sy_folders k id1 p1 id2 p2 :
    (∃ id p, scanned_tree es !! id = Some p ∧ place_parent p = Some k) →
    scanned_tree es !! id1 = Some p1 ∨ namespace g !! id1 = Some p1 →
    scanned_tree es !! id2 = Some p2 ∨ namespace g !! id2 = Some p2 →
    place_object p1 = k → place_object p2 = k → id1 = id2 }.

(** A tree in which every object was seen once is steady in a graph that has no link of its folders. *)
Lemma fresh_steady es g :
  NoDup (link_ids es) → NoDup ((λ x : link_id * place, place_object x.2) <$> map_to_list (scanned_tree es)) →
  map_Forall (λ _ p, Forall (λ x : link_id * place, place_parent x.2 ≠ Some (place_object p)) (map_to_list (scanned_tree es))) (namespace g) →
  steady es g.
Proof.
  intros Hnd Hobj Hg. split; [done|]. intros k id1 p1 id2 p2 (id & p & Hp & Hk) H1 H2 Ho1 Ho2.
  assert (∀ i q, scanned_tree es !! i = Some q ∨ namespace g !! i = Some q → place_object q = k → (i, q) ∈ map_to_list (scanned_tree es)) as Hin.
  { intros i q [Hq|Hq] Ho; [by apply elem_of_map_to_list|exfalso]. specialize (Hg i q Hq). rewrite Forall_forall in Hg.
    apply (Hg (id, p)); [by apply elem_of_map_to_list|]. simpl in *. by rewrite Ho. }
  pose proof (Hin _ _ H1 Ho1) as [i Hi]%list_elem_of_lookup. pose proof (Hin _ _ H2 Ho2) as [j Hj]%list_elem_of_lookup.
  assert (i = j) as <-; [|congruence]. eapply (NoDup_lookup _ i j k Hobj); rewrite list_lookup_fmap, ?Hi, ?Hj; simpl; congruence.
Qed.

(** While the scan of a steady tree is being stored, what is stored is anchored. *)
Lemma prefix_anchored v es fs gs g0 g :
  Forall (event_ok v) es → parents_first (λ _, False) es → steady es g0 → es = fs ++ gs →
  namespace g = scanned_tree fs ∪ namespace g0 → anchored (scanned_tree es) (observed_links fs) g.
Proof.
  intros Hes Hpf [Hnd Hfold] Hsplit Hns.
  assert (Forall (event_ok v) fs ∧ NoDup (link_ids fs)) as [Hfs Hndf].
  { rewrite Hsplit in Hes, Hnd. unfold link_ids in *. rewrite omap_app in Hnd. apply Forall_app in Hes as [? _].
    by apply NoDup_app in Hnd as [? _]. }
  assert (∀ l, LinkObserved l ∈ fs → scanned_tree fs !! fl_file_link_id l = Some (place_seen l)
    ∧ scanned_tree es !! fl_file_link_id l = Some (place_seen l)) as Hat.
  { intros l Hl. split; eapply scanned_tree_elem; try done; exists l; split_and!; try done. rewrite Hsplit. apply elem_of_app. by left. }
  intros id Hid. unfold observed_links in Hid. apply elem_of_list_to_set, elem_of_link_ids in Hid as (l & Hl & <-).
  destruct (Hat l Hl) as [Hlf Hle]. exists (place_seen l). split; [done|]. split; [rewrite Hns; by apply lookup_union_Some_l|].
  intros k Hk. simpl in Hk. pose proof Hl as (f1 & f2 & Hf)%list_elem_of_split.
  assert (parents_first (λ _, False) (f1 ++ LinkObserved l :: (f2 ++ gs))) as Hpf'.
  { rewrite Hsplit, Hf in Hpf. by rewrite <-app_assoc in Hpf. }
  destruct (parents_first_split _ _ _ _ _ Hpf' Hk) as [[]|(l' & Hl' & Ho)].
  assert (LinkObserved l' ∈ fs) as Hin by (rewrite Hf; apply elem_of_app; by left). destruct (Hat l' Hin) as [_ Hle'].
  exists (fl_file_link_id l'). split; [apply elem_of_list_to_set, elem_of_link_ids; by exists l'|].
  split; [rewrite Hle'; simpl; by rewrite Ho|]. intros id' p' Hp' Hk'. 
  apply (Hfold k id' p' (fl_file_link_id l') (place_seen l')); [by exists (fl_file_link_id l), (place_seen l)| | |done|exact Ho].
  - rewrite Hns in Hp'. apply lookup_union_Some_raw in Hp' as [Hp'|[_ Hp']]; [left|by right].
    apply (scanned_tree_elem v fs) in Hp' as (l2 & Hl2 & <- & ->); [|done|done]. by apply Hat.
  - left. exact Hle'.
Qed.

Lemma scanned_tree_volume v es id p : Forall (event_ok v) es → scanned_tree es !! id = Some p → fk_volume (place_object p) = v.
Proof.
  intros Hes. unfold scanned_tree. assert (∀ id p, (∅ : gmap link_id place) !! id = Some p → fk_volume (place_object p) = v) as H0 by done.
  revert H0 id p. generalize (∅ : gmap link_id place). induction Hes as [|e es He _ IH]; intros ns Hns id p; [apply Hns|].
  simpl. apply IH. intros id' p'. destruct e as [o|l| | |]; try done; simpl; [apply Hns|].
  destruct He as [_ Hv]. intros [[_ <-]|[_ Hp]]%lookup_insert_Some; [done|by eapply Hns].
Qed.

(** *** The documents of a steady tree *)

Section stored.
Context (env : FolderEnv) (descriptor : VolumeDescriptor) (checkpoint : ProviderCheckpoint) (rebuildable : bool).
Context (batch_size max_bytes : Z) (g0 : db) (es : list FilesystemEvent).
Let v := vd_volume_id descriptor.
Context (Hun : unscanned g0 v) (Hes : Forall (event_ok v) es) (Hpf : parents_first (λ _, False) es) (Hst : steady es g0).

Abbreviation graph_of s := (fw_graph (sk_world s)).

(** The events [fs] were seen: a part of them is stored, with its documents, and the rest is pending. *)
Inductive scan_at (fs : list FilesystemEvent) (s : sink_state) : Prop :=
| ScanAt flushed rest :
    fs = flushed ++ rest → sk_pending s = GraphMutation_from_event <$> rest →
    namespace (graph_of s) = scanned_tree flushed ∪ namespace g0 →
    catalogued (scanned_tree es) (observed_links flushed) v (graph_of s) → scan_at fs s.

Lemma observed_split fs gs id :
  id ∈ observed_links (fs ++ gs) → id ∉ observed_links fs → ∃ l, LinkObserved l ∈ gs ∧ fl_file_link_id l = id.
Proof.
  unfold observed_links. rewrite omap_app, list_to_set_app, elem_of_union. intros [?|H] Hn; [done|].
  apply elem_of_list_to_set in H. by apply elem_of_link_ids.
Qed.

(** Storing what is pending. *)
Lemma stored_batch fs gs s n g' :
  sink_ok descriptor g0 s → scan_at fs s → es = fs ++ gs →
  apply_scoped_batch descriptor checkpoint rebuildable (sk_pending s) (graph_of s) = Ok (n, g') →
  namespace g' = scanned_tree fs ∪ namespace g0 ∧ catalogued (scanned_tree es) (observed_links fs) v g'.
Proof.
  intros Hs [flushed rest -> Hp Hns Hca] Hsplit H.
  assert (Forall (event_ok v) (flushed ++ rest)) as Hall by (rewrite Hsplit in Hes; by apply Forall_app in Hes as [? _]).
  pose proof Hall as [Hf Hr]%Forall_app.
  destruct (scoped_batch_ok _ _ _ g0 s n g' Hs H) as [_ Hns'].
  assert (namespace g' = scanned_tree (flushed ++ rest) ∪ namespace g0) as Hns''.
  { rewrite Hns', Hp, Hns, (effect_union v) by done. f_equal. unfold scanned_tree. by rewrite fmap_app, foldl_app. }
  split; [done|]. destruct Hs as [[Hwf _ Hse _] Hpend].
  eapply (batch_catalogued _ (observed_links flushed) _ v
    (MkGraphMutationBatch v checkpoint (UpsertVolume descriptor :: sk_pending s))); [exact Hwf| |reflexivity|reflexivity| | |exact H| |exact Hca| | |].
  - constructor; [done|]. eapply Forall_impl; [exact Hpend|]. by intros m [Hm _].
  - rewrite Hp. apply Forall_fmap. eapply Forall_impl; [exact Hr|]. by intros [].
  - intros m Hm. rewrite Forall_forall in Hpend. destruct (Hpend m Hm) as [_ Hu]. destruct m; try done. by eapply unscanned_ext.
  - intros id p. by apply scanned_tree_volume.
  - by eapply prefix_anchored.
  - unfold observed_links. rewrite omap_app, list_to_set_app_L. set_solver.
  - intros id Hid Hn. destruct (observed_split _ _ _ Hid Hn) as (l & Hl & <-). exists (GraphMutation_from_event (LinkObserved l)).
    split; [rewrite Hp; by apply list_elem_of_fmap_2|done].
Qed.

Lemma stored_step fs gs e s s' :
  sink_ok descriptor g0 s → scan_at fs s → es = fs ++ e :: gs →
  scan_sink env descriptor checkpoint rebuildable batch_size max_bytes e s = (Ok tt, s') → scan_at (fs ++ [e]) s'.
Proof.
  intros Hs Hat Hsplit H. rewrite cons_middle, app_assoc in Hsplit.
  assert (event_ok v e) as He by (rewrite Forall_forall in Hes; apply Hes; rewrite Hsplit; set_solver).
  assert (scan_at (fs ++ [e]) (note_event e s)) as Hn.
  { destruct Hat as [flushed rest -> Hp Hns Hca]. apply (ScanAt _ _ flushed (rest ++ [e])); try done; [by rewrite app_assoc|].
    simpl. by rewrite Hp, fmap_app. }
  assert (sink_ok descriptor g0 (note_event e s)) as Hsn by by apply note_event_ok. unfold scan_sink in H.
  destruct (_ <=? _)%Z; [|by injection H as <-].
  unfold flush_scan in H. destruct (apply_scoped_batch _ _ _ _ _) as [[n g']|x] eqn:Hb; [|done]. simpl in H.
  destruct (stored_batch _ _ _ _ _ Hsn Hn Hsplit Hb) as [Hns Hca].
  destruct (graph_storage_pressure_bytes env _) as [[bytes|x] w] eqn:Hw; [|done]. apply pressure_graph in Hw. injection H as _ <-.
  apply (ScanAt _ _ (fs ++ [e]) []); simpl; [by rewrite app_nil_r|done|by rewrite Hw|by rewrite Hw].
Qed.

Lemma stored_feed fs gs s s' :
  sink_ok descriptor g0 s → scan_at fs s → es = fs ++ gs →
  feed (scan_sink env descriptor checkpoint rebuildable batch_size max_bytes) gs s = (Ok tt, s') → scan_at es s'.
Proof.
  revert fs s. induction gs as [|e gs IH]; intros fs s Hs Hat Hsplit H.
  - injection H as <-. by rewrite app_nil_r in Hsplit; subst.
  - apply st_bind_Ok in H as ([] & s1 & H1 & H2). pose proof (stored_step _ _ _ _ _ Hs Hat Hsplit H1) as Hat1.
    eapply IH; [|exact Hat1| |exact H2]; [|by rewrite <-app_assoc].
    assert (event_ok v e) as He by (rewrite Forall_forall in Hes; apply Hes; rewrite Hsplit; set_solver).
    by destruct (sink_step _ _ _ _ _ _ _ Hun _ _ _ _ He Hs H1).
Qed.

(** The whole scan, its last batch included. *)
Lemma stored_pending s total t g' :
  sink_ok descriptor g0 s → scan_at es s →
  flush (apply_scoped_batch descriptor checkpoint rebuildable) (sk_pending s) total (graph_of s) = (Ok t, g') →
  catalogued (scanned_tree es) (observed_links es) v g'.
Proof.
  intros Hs Hat H. unfold flush in H. destruct (sk_pending s) as [|m ms] eqn:Hp.
  - injection H as _ <-. destruct Hat as [flushed rest Hsplit Hpend Hns Hca]. rewrite Hp in Hpend. symmetry in Hpend.
    apply fmap_nil_inv in Hpend as ->. rewrite app_nil_r in Hsplit. by subst.
  - rewrite <-Hp in H. apply st_bind_Ok in H as (n & g1 & Hn & H). injection H as _ <-. unfold transact in Hn.
    destruct (apply_scoped_batch _ _ _ _ _) as [[n' g2]|] eqn:Hb; [|done]. injection Hn as _ <-.
    eapply stored_batch; [exact Hs|exact Hat| |exact Hb]. by rewrite app_nil_r.
Qed.
End stored.

(** Every link of a steady tree that is stored has its document. *)
Lemma tree_chain v es fs gs g l :
  Forall (event_ok v) es → parents_first (λ _, False) es → NoDup (link_ids es) → es = fs ++ gs →
  anchored (scanned_tree es) (observed_links es) g → LinkObserved l ∈ fs →
  ∃ c, parent_chain g (stored_at (fl_file_link_id l) (place_seen l)) c ∧ Forall (λ l, sl_traversal_boundary l = false) c.
Proof.
  intros Hes Hpf Hnd Hsplit Ha. revert gs l Hsplit. induction fs as [|e fs IH] using rev_ind; intros gs l Hsplit Hl; [by apply elem_of_nil in Hl|].
  rewrite <-app_assoc in Hsplit. apply elem_of_app in Hl as [Hl|<-%list_elem_of_singleton]; [by eapply IH|].
  assert (∀ l, LinkObserved l ∈ es → fl_file_link_id l ∈ observed_links es ∧ scanned_tree es !! fl_file_link_id l = Some (place_seen l)) as Hat.
  { intros l' Hl'. split; [apply elem_of_list_to_set, elem_of_link_ids; by exists l'|].
    eapply scanned_tree_elem; [done|done|]. by exists l'. }
  destruct (Hat l) as [Hin Ht]; [rewrite Hsplit; set_solver|]. destruct (Ha _ Hin) as (p & Hp & _ & Hpar).
  rewrite Ht in Hp. injection Hp as <-. destruct (fl_parent_key l) as [k|] eqn:Hk.
  - rewrite Hsplit in Hpf. destruct (parents_first_split _ _ _ _ _ Hpf Hk) as [[]|(l' & Hl' & Ho)].
    destruct (IH _ l' Hsplit Hl') as (c & Hc & Hb). destruct (Hat l') as [Hin' Ht']; [rewrite Hsplit; set_solver|].
    destruct (Hpar k Hk) as (f & _ & _ & Hu). destruct (Ha _ Hin') as (p' & Hp' & Hns' & _). rewrite Ht' in Hp'. injection Hp' as <-.
    exists (stored_at (fl_file_link_id l) (place_seen l) :: c). split; [|by constructor].
    eapply chain_step; [exact Hk| |exact Hc]. apply namespace_only; [done|done|]. intros id' q Hq Hqk.
    by rewrite (Hu id' q Hq Hqk), (Hu _ _ Hns' Ho).
  - exists [stored_at (fl_file_link_id l) (place_seen l)]. split; [by constructor|by repeat constructor].
Qed.

Lemma catalogued_documented v es g id :
  Forall (event_ok v) es → parents_first (λ _, False) es → NoDup (link_ids es) → store_wf g →
  catalogued (scanned_tree es) (observed_links es) v g → id ∈ link_ids es → documented g id.
Proof.
  intros Hes Hpf Hnd [Hwf _] [Ha Hs _] (l & Hl & <-)%elem_of_link_ids.
  assert (scanned_tree es !! fl_file_link_id l = Some (place_seen l)) as Hp by (eapply scanned_tree_elem; [done|done|by exists l]).
  destruct (tree_chain v es es [] g l Hes Hpf Hnd (eq_sym (app_nil_r es)) Ha Hl) as (c & Hc & Hb).
  assert (fl_file_link_id l ∈ observed_links es) as Hin by (apply elem_of_list_to_set, elem_of_link_ids; by exists l).
  eapply synced_documented; [done|by apply Hs| |exact Hc|exact Hb].
  destruct (Ha _ Hin) as (q & Hq & Hns & _). rewrite load_link_namespace, Hns. simpl. congruence.
Qed.

Lemma children_event_ok v options parent path : dir_typed path → Forall (event_ok v) (children_events v options parent path).
Proof.
  intros Hd. assert (∀ e p, entry_typed e → Forall (event_ok v) (entry_events v options p e)) as He.
  { intros e. induction e as [e|e|e|i m name e|i m name l IH] using entry_tree_ind; intros p Hty; try by constructor.
    - cbn [entry_events]. constructor; [apply Hty|]. constructor; [split; [apply stable_hash_u128|done]|].
      destruct (entered _ _ _); constructor.
    - pose proof Hty as [Hm Hl]%entry_typed_children. cbn [entry_events].
      constructor; [done|]. constructor; [split; [apply stable_hash_u128|done]|]. destruct (entered _ _ _); [|constructor].
      apply Forall_concat, Forall_fmap, Forall_forall. intros e He. rewrite Forall_forall in IH, Hl. by apply IH; auto. }
  destruct path as [l|e]; [|constructor]. simpl in *. apply Forall_concat, Forall_fmap, Forall_forall.
  intros e Hel. apply He. by rewrite Forall_forall in Hd; auto.
Qed.

Lemma scan_event_ok prepared root options tree v :
  v = vd_volume_id (ps_volume prepared) → in_u128 v → fk_volume (ps_root_key prepared) = v →
  (∀ m, se_root_metadata tree = Ok m → in_u64 (nm_file_size m)) → dir_typed (se_root tree) →
  object_snapshot (se_root_metadata tree) (ps_root_key prepared) = Ok (Observed root) →
  Forall (event_ok v) (scan_events prepared root options tree).
Proof.
  intros -> Hu Hk Hm Hd Hroot. unfold scan_events. apply Forall_app. split; [|by apply children_event_ok].
  constructor; [|constructor; [|constructor]].
  - unfold object_snapshot in Hroot. destruct (se_root_metadata tree) as [m|e]; [|by destruct (io_kind e)].
    injection Hroot as <-. by apply Hm.
  - split; [by apply root_link_u128|done].
Qed.

Lemma on_graph_world_inv {A} (m : St db GraphError A) w r w' :
  on_graph_world m w = (r, w') → ∃ q, m (fw_graph w) = (q, fw_graph w') ∧ r = map_err ScanGraph q.
Proof. unfold on_graph_world. destruct (m (fw_graph w)) as [q g] eqn:Hm. intros [= <- <-]. by exists q. Qed.

(** The last batch of the scan. *)
Lemma flush_pending_spec descriptor checkpoint rebuildable g0 s total r g' :
  sink_ok descriptor g0 s →
  flush (apply_scoped_batch descriptor checkpoint rebuildable) (sk_pending s) total (fw_graph (sk_world s)) = (r, g') →
  evolved (vd_volume_id descriptor) g0 g' ∧ (is_ok r = true → namespace g' = seen s).
Proof.
  intros Hs H. unfold seen, flush in *. destruct (sk_pending s) as [|m ms] eqn:Hp.
  - injection H as <- <-. by destruct Hs.
  - rewrite <-Hp in *. apply st_bind_inv in H as [(e & He & ->)|(n & g1 & Hn & H)].
    + unfold transact in He. destruct (apply_scoped_batch _ _ _ _ _) as [[]|]; [done|]. injection He as _ <-. by destruct Hs.
    + injection H as <- <-. unfold transact in Hn. destruct (apply_scoped_batch _ _ _ _ _) as [[n' g2]|] eqn:Hb; [|done].
      injection Hn as _ <-. destruct (scoped_batch_ok _ _ _ g0 s n' g2 Hs Hb). done.
Qed.

(** Removing what was not observed leaves what was observed catalogued. *)
Lemma removals_unobserved_keeps descriptor checkpoint rebuildable batch_size s total g r g' :
  let v := vd_volume_id descriptor in
  store_wf g →
  push_and_flush (apply_scoped_batch descriptor checkpoint rebuildable) batch_size
    (unobserved s (desired_catalog_identities g v)) total g = (r, g') →
  ∀ T, (∀ id p, T !! id = Some p → fk_volume (place_object p) = v) →
    catalogued T (sk_links s) v g → catalogued T (sk_links s) v g'.
Proof.
  intros v Hwf Hrun T HT. pose proof Hwf as [Hg _]. set (P := λ d, d ∉ sk_links s).
  assert (Forall (on_volume P v) (unobserved s (desired_catalog_identities g v))) as Hms.
  { apply removals_on_volume.
    - by intros d (c & -> & [Hc _]%list_elem_of_filter)%list_elem_of_fmap.
    - intros k [_ Hk]%list_elem_of_filter. by eapply identities_volume. }
  destruct (push_and_flush_spec (λ p, MkGraphMutationBatch v checkpoint (UpsertVolume descriptor :: p))
    [UpsertVolume descriptor] rebuildable v (λ _, eq_refl) (λ _, eq_refl) ltac:(repeat constructor) P batch_size
    _ total g r g' Hwf Hms Hrun) as [Hr _].
  apply (rr_keeps _ _ _ _ _ _ Hr). intros pending h n h' Hh _ Hp Hb Hns.
  by eapply (removals_catalogued _ _ _ (MkGraphMutationBatch v checkpoint (UpsertVolume descriptor :: pending))).
Qed.

(** Removing what was not observed. *)
Lemma remove_unobserved_spec descriptor checkpoint rebuildable batch_size s total g r g' :
  let v := vd_volume_id descriptor in
  store_wf g →
  push_and_flush (apply_scoped_batch descriptor checkpoint rebuildable) batch_size
    (unobserved s (desired_catalog_identities g v)) total g = (r, g') →
  evolved v g g'
  ∧ (is_ok r = true →
     (∀ id, id ∈ sk_links s → namespace g' !! id = namespace g !! id)
     ∧ (∀ d row, documents g' !! d = Some row → fk_volume (d_object row) = v → d ∈ sk_links s)
     ∧ ∀ T, (∀ id p, T !! id = Some p → fk_volume (place_object p) = v) →
         catalogued T (sk_links s) v g → catalogued T (sk_links s) v g').
Proof.
  intros v Hwf Hrun. pose proof Hwf as [Hg _]. set (current := desired_catalog_identities g v) in *.
  set (P := λ d, d ∈ current.*1).
  assert (∀ d, d ∈ (filter (λ c : link_id * FileKey, c.1 ∉ sk_links s) current).*1 ↔ P d ∧ d ∉ sk_links s) as Hfilter.
  { intros d. unfold P. rewrite !list_elem_of_fmap. setoid_rewrite list_elem_of_filter. naive_solver. }
  destruct (push_and_flush_spec (λ p, MkGraphMutationBatch v checkpoint (UpsertVolume descriptor :: p))
    [UpsertVolume descriptor] rebuildable v (λ _, eq_refl) (λ _, eq_refl) ltac:(repeat constructor) P batch_size
    (unobserved s current) total g r g') as [Hr Hns]; [done| |exact Hrun|].
  { apply removals_on_volume.
    - intros d Hd. by apply Hfilter in Hd as [? _].
    - intros k [_ Hk]%list_elem_of_filter. by eapply identities_volume. }
  pose proof (removals_unobserved_keeps _ _ _ _ _ _ _ _ _ Hwf Hrun) as Hca.
  split; [apply Hr|]. intros Hok. specialize (Hns Hok).
  assert (∀ id, namespace g' !! id = if decide (P id ∧ id ∉ sk_links s) then None else namespace g !! id) as Hns'.
  { intros id. rewrite Hns. unfold unobserved. rewrite removals_effect. apply decide_ext, Hfilter. }
  split.
  { intros id Hid. rewrite Hns'. apply decide_False. naive_solver. }
  split; [|exact Hca].
  - intros d row Hd Hv. assert (P d) as HP.
    { apply (rr_held _ _ _ _ _ _ Hr) with row; [|done..]. intros d' row' Hd' Hv'. apply identities_id; eauto. }
    destruct (decide (d ∈ sk_links s)) as [|Hn]; [done|].
    apply (namespace_document _ _ _ (rr_wf _ _ _ _ _ _ Hr)) in Hd. rewrite Hns', decide_True in Hd by done. by destruct Hd.
Qed.

(** The batch that stores the checkpoint of the complete scan. *)
Lemma final_batch_spec v checkpoint descriptor rebuildable g r g' :
  store_wf g →
  transact (apply_folder_graph_batch (MkGraphMutationBatch v checkpoint [UpsertVolume descriptor]) rebuildable) g = (r, g') →
  evolved v g g'
  ∧ (is_ok r = true → namespace g' = namespace g ∧ documents g' = documents g
       ∧ checkpoints g' !! v = Some (checkpoint_row_of checkpoint)
       ∧ ∀ T X, (∀ id p, T !! id = Some p → fk_volume (place_object p) = v) → catalogued T X v g → catalogued T X v g').
Proof.
  intros Hwf H. unfold transact in H.
  destruct (apply_folder_graph_batch _ _ _) as [[n h]|e] eqn:Hrun; injection H as <- <-; [|split; [by apply evolved_refl|done]].
  apply folder_batch_effect in Hrun as Hb; [|done|repeat constructor|by intros m ->%list_elem_of_singleton].
  split; [exact (batch_evolved _ _ _ Hwf Hb)|]. intros _. destruct Hb as [_ Hns _ Hcp Hdocs _]. split; [done|].
  split; [|split; [done|intros T X HT]].
  2: { eapply (removals_catalogued _ _ _ (MkGraphMutationBatch v checkpoint [UpsertVolume descriptor]) _ _ []);
       [exact Hwf|reflexivity|reflexivity|constructor|exact Hrun|exact Hns|exact HT]. }
  apply map_eq. intros d. destruct (Hdocs ltac:(repeat constructor) d) as [|[[k Hk%list_elem_of_singleton]|(k & row & Hk%list_elem_of_singleton & _)]]; done.
Qed.

(** What [sync_scoped_root] leaves when it reports a complete scan. *)
Definition mirrored (prepared : PreparedScopedScan) (es : list FilesystemEvent) g : Prop :=
  let v := vd_volume_id (ps_volume prepared) in
  (∀ d row, documents g !! d = Some row → fk_volume (d_object row) = v → is_Some (scanned_tree es !! d))
  ∧ (∀ id p, scanned_tree es !! id = Some p → namespace g !! id = Some p)
  ∧ checkpoints g !! v = Some (CheckpointRow "windows-scoped-folder" 1 (to_be_bytes 16 (scoped_root_fingerprint (ps_canonical prepared)))).

Lemma mirrored_kept prepared es g g' :
  Forall (event_ok (vd_volume_id (ps_volume prepared))) es → kept (vd_volume_id (ps_volume prepared)) g g' →
  mirrored prepared es g → mirrored prepared es g'.
Proof.
  intros Hes [_ _ Hd Hl Hc] (Hdocs & Hns & Hcp). split; [|split; [|congruence]].
  - intros d row Hrow Hv. apply (Hdocs d row); [|done]. by apply Hd.
  - intros id p Hp. pose proof (scanned_tree_volume _ _ _ _ Hes Hp) as Hv. apply Hns in Hp. unfold namespace in *.
    rewrite lookup_fmap in Hp |- *. apply fmap_Some in Hp as (l & Hlk & ->). by rewrite (proj2 (Hl id l Hv) Hlk).
Qed.

(** What work on other folders leaves. *)
Lemma catalogued_kept T X v g g' :
  (∀ id p, T !! id = Some p → fk_volume (place_object p) = v) → store_wf g → store_wf g' → kept v g g' →
  catalogued T X v g → catalogued T X v g'.
Proof.
  intros HT [Hwf Hdl] [Hwf' Hdl'] [Ho Hst Hd Hl _] [Ha Hs Hon].
  assert (∀ id p, fk_volume (place_object p) = v → namespace g' !! id = Some p ↔ namespace g !! id = Some p) as Hns.
  { intros id p Hv. unfold namespace. rewrite !lookup_fmap, !fmap_Some. split; intros (l & Hlk & ->); exists l; (split; [by apply Hl|done]). }
  assert (anchored T X g') as Ha'.
  { intros id Hid. destruct (Ha id Hid) as (p & Hp & Hpn & Hpar). exists p. split; [done|]. split; [apply Hns; [by eapply HT|done]|].
    intros k Hk. destruct (Hpar k Hk) as (f & Hf & (pf & Hpf & Hfo)%fmap_Some & Hu). exists f. split; [done|].
    split; [by rewrite Hpf, Hfo|]. intros id' p' Hp' Hk'. apply (Hu id' p'); [|done]. apply Hns; [|done].
    rewrite Hk', Hfo. by eapply HT. }
  split; [done| |intros id Hid; unfold online; rewrite Hst; by eapply Hon]. intros id Hid.
  destruct (Ha id Hid) as (p & Hp & Hpn & _). pose proof (HT id p Hp) as Hpv. unfold namespace in Hpn. rewrite lookup_fmap in Hpn.
  apply fmap_Some in Hpn as (l & Hlk & ->). cbn [place_of fst] in Hpv. apply (synced_ext g); [| |by apply Hs].
  - apply option_eq. intros row. split; intros Hrow.
    + destruct (Hdl' id row Hrow ltac:(set_solver)) as (l' & Hl' & Hob). apply Hd; [|done].
      apply Hl in Hlk; [|done]. rewrite Hlk in Hl'. injection Hl' as <-. congruence.
    + destruct (Hdl id row Hrow ltac:(set_solver)) as (l' & Hl' & Hob). apply Hd; [|done]. congruence.
  - apply wanted_depends; [rewrite Hlk; by apply Hl|]. intros l' Hl'. rewrite Hlk in Hl'. injection Hl' as <-.
    split; [unfold load_object_metadata; by rewrite Ho|]. split; [by apply volume_state_of_ext; rewrite Hpv|]. by eapply anchored_resolve.
Qed.

Lemma parent_volume v es id p k :
  Forall (event_ok v) es → parents_first (λ _, False) es → NoDup (link_ids es) →
  scanned_tree es !! id = Some p → place_parent p = Some k → fk_volume k = v.
Proof.
  intros Hes Hpf Hnd (l & (f1 & f2 & Hf)%list_elem_of_split & <- & ->)%(scanned_tree_elem v) Hk; [|done|done].
  rewrite Hf in Hpf. destruct (parents_first_split _ _ _ _ _ Hpf Hk) as [[]|(l' & Hl' & <-)].
  rewrite Forall_forall in Hes. apply (Hes (LinkObserved l')). rewrite Hf. apply elem_of_app. by left.
Qed.

Lemma steady_fewer v es g g' :
  Forall (event_ok v) es → parents_first (λ _, False) es →
  (∀ id p, fk_volume (place_object p) = v → namespace g' !! id = Some p → namespace g !! id = Some p) →
  steady es g → steady es g'.
Proof.
  intros Hes Hpf Hsub [Hnd Hf]. split; [done|]. intros k id1 p1 id2 p2 Hk H1 H2 Ho1 Ho2.
  assert (fk_volume k = v) as Hv by (destruct Hk as (id & p & Hp & Hpk); by eapply parent_volume).
  eapply (Hf k id1 p1 id2 p2); [done| | |done..].
  - destruct H1 as [?|H1]; [by left|right]. apply Hsub; [by rewrite Ho1|done].
  - destruct H2 as [?|H2]; [by left|right]. apply Hsub; [by rewrite Ho2|done].
Qed.

Section run.
Context (env : FolderEnv) (root : list string) (options : ScopedScanOptions) (batch_size max_bytes : Z) (rebuildable : bool).

(** The scan, whatever becomes of it. *)
Lemma run_scan_spec prepared view tree checkpoint w x s w' :
  prepare_scan_root view = Ok prepared →
  (∀ m, se_root_metadata tree = Ok m → in_u64 (nm_file_size m)) → dir_typed (se_root tree) →
  store_wf (fw_graph w) → unscanned (fw_graph w) (vd_volume_id (ps_volume prepared)) →
  run_scan prepared tree options (scan_sink env (ps_volume prepared) checkpoint rebuildable batch_size max_bytes) w = (Ok (x, s), w') →
  w' = sk_world s ∧ sink_ok (ps_volume prepared) (fw_graph w) s
  ∧ ∀ scoped, x = Ok scoped → ∃ o,
      let es := scan_events prepared o options tree in
      Forall (event_ok (vd_volume_id (ps_volume prepared))) es ∧ parents_first (λ _, False) es
      ∧ (steady es (fw_graph w) → scan_at (ps_volume prepared) (fw_graph w) es es s)
      ∧ seen s = scanned_tree es ∪ namespace (fw_graph w) ∧ sk_links s = observed_links es
      ∧ ss_emitted_events (sc_scan scoped) = Z.of_nat (length es)
      ∧ ss_checkpoint (sc_scan scoped) = MkProviderCheckpoint "windows-scoped-folder" 1 (vd_volume_id (ps_volume prepared))
          (to_be_bytes 16 (scoped_root_fingerprint (ps_canonical prepared))).
Proof.
  intros Hprep Hm Hd Hwf Hun H. apply prepared_root in Hprep as [Hu Hk]. unfold run_scan in H.
  set (sink := scan_sink _ _ _ _ _ _) in *. set (s0 := MkSinkState w [] ∅ ∅ 0 0) in *.
  destruct (scan_prepared_root_with_options prepared tree options sink s0) as [x' s'] eqn:Hscan. injection H as <- <- <-.
  assert (sink_ok (ps_volume prepared) (fw_graph w) s0) as H0 by (split; [by apply evolved_refl|constructor]).
  split; [done|]. split.
  - refine (preserves_scan sink (sink_ok (ps_volume prepared) (fw_graph w)) _ options _ prepared tree eq_refl Hu Hk Hm Hd s0 x' s' H0 Hscan).
    intros e s r s1 He Hs Hr. by destruct (sink_step _ _ _ _ _ _ _ Hun _ _ _ _ He Hs Hr).
  - intros scoped ->. apply scan_root_gives in Hscan as (o & Ho & Hfeed & Hn & Hcp). exists o. intros es.
    assert (Forall (event_ok (vd_volume_id (ps_volume prepared))) es) as Hes by by eapply scan_event_ok.
    destruct (sink_feed _ _ _ _ _ _ _ Hun es s0 s' Hes H0 Hfeed) as (_ & Hseen & Hl).
    pose proof (scan_parents_first prepared o options tree) as Hpf.
    split; [done|]. split; [done|]. split; [intros Hst|split; [|split; [|done]]].
    + eapply (stored_feed _ _ _ _ _ _ _ _ Hun Hes Hpf Hst [] es s0); [exact H0| |done|exact Hfeed].
      apply (ScanAt _ _ _ _ _ [] []); [done|done|symmetry; apply (left_id_L ∅ (∪))|]. split; by intros id ?%elem_of_empty.
    + rewrite Hseen. by apply (scanned_tree_over _ es (namespace (fw_graph w)) Hes).
    + rewrite Hl. apply (right_id_L ∅ (∪)).
Qed.

(** [sync_scoped_root], whatever fails, and when it reports a complete scan. *)
Lemma sync_scoped_root_spec w w' (r : result ScanError ScopedRootSyncSummary) prepared :
  env_typed env → store_wf (fw_graph w) →
  prepare_scan_root (fe_root env (fw_tick w) root) = Ok prepared →
  unscanned (fw_graph w) (vd_volume_id (ps_volume prepared)) →
  sync_scoped_root env root options batch_size max_bytes rebuildable w = (r, w') →
  evolved (vd_volume_id (ps_volume prepared)) (fw_graph w) (fw_graph w')
  ∧ ∀ sum, r = Ok sum → sr_complete sum = true → ∃ o,
      let es := scan_events prepared o options (fe_scan env (S (fw_tick w)) root) in
      sr_observed_events sum = Z.of_nat (length es)
      ∧ Forall (event_ok (vd_volume_id (ps_volume prepared))) es ∧ parents_first (λ _, False) es ∧ mirrored prepared es (fw_graph w')
      ∧ (steady es (fw_graph w) → catalogued (scanned_tree es) (observed_links es) (vd_volume_id (ps_volume prepared)) (fw_graph w')).
Proof.
  intros Henv Hwf Hprep Hun H. unfold sync_scoped_root in H.
  apply st_bind_inv in H as [(e & He & ->)|(view & w1 & Hview & H)]; [done|]. injection Hview as <- <-.
  apply st_bind_inv in H as [(e & He & ->)|(p & w1 & Hp & H)]; [by rewrite Hprep in He|]. rewrite Hprep in Hp. injection Hp as <- <-.
  apply st_bind_inv in H as [(e & He & ->)|(tree & w1 & Htree & H)]; [done|]. injection Htree as <- <-. simpl in H.
  destruct (Henv (S (fw_tick w)) root) as [Hm Hd]. set (tree := fe_scan env (S (fw_tick w)) root) in *.
  apply st_bind_inv in H as [(e & He & ->)|([x s] & w1 & Hscan & H)].
  { unfold run_scan in He. by destruct (scan_prepared_root_with_options _ _ _ _ _). }
  destruct (run_scan_spec _ _ _ _ (MkFworld (fw_graph w) (S (S (fw_tick w)))) _ _ _ Hprep Hm Hd Hwf Hun Hscan)
    as (-> & Hs & Hok). simpl in Hs, Hok.
  destruct x as [scoped|e].
  2: { destruct (_ && _); injection H as <- <-; (split; [apply Hs|]); [by intros sum [= <-]|done]. }
  destruct (Hok _ eq_refl) as (o & Hes & Hpf & Hat & Hseen & Hl & Hn & Hcp). clear Hok.
  set (es := scan_events prepared o options tree) in *.
  apply st_bind_inv in H as [(e & (q & Hq & Hr)%on_graph_world_inv & ->)|(t1 & w1 & (q1 & Hq1 & Hr1)%on_graph_world_inv & H)];
    [by destruct (flush_pending_spec _ _ _ _ _ _ _ _ Hs Hq)|].
  destruct (flush_pending_spec _ _ _ _ _ _ _ _ Hs Hq1) as [Hev1 Hns1]. pose proof (ev_wf _ _ _ Hev1) as Hwf1.
  apply st_bind_inv in H as [(e & (q & Hq & Hr)%on_graph_world_inv & ->)|(t2 & w2 & (q2 & Hq2 & Hr2)%on_graph_world_inv & H)].
  { destruct (remove_unobserved_spec _ _ _ _ _ _ _ _ _ Hwf1 Hq) as [? _]. split; [by eapply evolved_trans|done]. }
  destruct (remove_unobserved_spec _ _ _ _ _ _ _ _ _ Hwf1 Hq2) as [Hev2 Hrem]. pose proof (ev_wf _ _ _ Hev2) as Hwf2.
  assert (is_ok q1 = true ∧ is_ok q2 = true) as [Hq1ok Hq2ok] by (by destruct q1, q2).
  destruct (Hrem Hq2ok) as (Hkeep & Hdocs & Hca2). specialize (Hns1 Hq1ok).
  apply st_bind_inv in H as [(e & (q & Hq & Hr)%on_graph_world_inv & ->)|(t3 & w3 & (q3 & Hq3 & Hr3)%on_graph_world_inv & H)].
  { destruct (final_batch_spec _ _ _ _ _ _ _ Hwf2 Hq) as [? _]. split; [by do 2 (eapply evolved_trans; [done|])|done]. }
  destruct (final_batch_spec _ _ _ _ _ _ _ Hwf2 Hq3) as [Hev3 Hfin].
  destruct (Hfin ltac:(by destruct q3)) as (Hns3 & Hd3 & Hcp3 & Hca3). injection H as <- <-.
  split; [by do 2 (eapply evolved_trans; [done|])|].
  intros sum [= <-] _. exists o. fold tree es. split; [done|]. split; [done|]. split; [done|].
  assert (∀ id p, scanned_tree es !! id = Some p → fk_volume (place_object p) = vd_volume_id (ps_volume prepared)) as Hvol
    by (intros id p; by apply scanned_tree_volume).
  split; [|intros Hst; apply Hca3; [done|]; rewrite <-Hl; apply Hca2; [done|]; rewrite Hl; destruct q1; [|done]; by eapply stored_pending; eauto].
  rewrite Hl in Hkeep, Hdocs. rewrite <-(scanned_tree_dom _ _ Hes) in Hkeep, Hdocs. split; [|split].
  - intros d row Hd' Hv. rewrite Hd3 in Hd'. apply elem_of_dom. by eapply Hdocs.
  - intros id p Hp. rewrite Hns3, Hkeep, Hns1, Hseen by (by eapply elem_of_dom_2). by apply lookup_union_Some_l.
  - by rewrite Hcp3, Hcp.
Qed.

(** A folder that cannot be prepared changes nothing. *)
Lemma sync_unprepared w w' r e :
  prepare_scan_root (fe_root env (fw_tick w) root) = Err e →
  sync_scoped_root env root options batch_size max_bytes rebuildable w = (r, w') →
  fw_graph w' = fw_graph w ∧ r = Err (ScanPlatform e).
Proof.
  intros Hprep H. unfold sync_scoped_root in H.
  apply st_bind_inv in H as [(e' & He & ->)|(view & w1 & Hview & H)]; [done|]. injection Hview as <- <-.
  rewrite Hprep in H. by injection H as <- <-.
Qed.

(** C15 (a folder is mirrored): synchronising a selected folder changes the graph only by store
    transactions that spare every consumer, whatever fails, and leaves the documents, links, objects and
    checkpoint of every other folder exactly as they were.  When it reports a complete scan, every link the
    scan saw is in the graph with the object, parent and name it was last seen with, the desired catalog
    holds no document of the folder that the scan did not see, and the checkpoint is the scan's; and if
    moreover no two entries of the scan share an identifier and no folder with entries has two links, in the
    scan or in the graph before it (no folder was renamed or moved since the last scan;
    [renamed_folder_loses_entries] shows what happens otherwise), then the desired
    catalog holds a document for every link the scan saw, with its name, its path and what the graph says of
    it, except for links more than [PATH_DEPTH] levels deep.  The database is well formed, no observation
    session is open for the folder's volume, and the sizes that the operating system answers are u64. *)
Theorem sync_scoped_root_mirrors (w w' : fworld) (r : result ScanError ScopedRootSyncSummary) prepared :
  env_typed env → store_wf (fw_graph w) →
  prepare_scan_root (fe_root env (fw_tick w) root) = Ok prepared →
  unscanned (fw_graph w) (vd_volume_id (ps_volume prepared)) →
  sync_scoped_root env root options batch_size max_bytes rebuildable w = (r, w') →
  evolved (vd_volume_id (ps_volume prepared)) (fw_graph w) (fw_graph w')
  ∧ ∀ sum, r = Ok sum → sr_complete sum = true → ∃ o,
      let es := scan_events prepared o options (fe_scan env (S (fw_tick w)) root) in
      sr_observed_events sum = Z.of_nat (length es) ∧ mirrored prepared es (fw_graph w')
      ∧ (steady es (fw_graph w) → ∀ id, id ∈ link_ids es → documented (fw_graph w') id).
Proof.
  intros Henv Hwf Hprep Hun H. destruct (sync_scoped_root_spec _ _ _ _ Henv Hwf Hprep Hun H) as [Hev Hdone]. split; [done|].
  intros sum Hr Hc. destruct (Hdone sum Hr Hc) as (o & Hn & Hes & Hpf & Hm & Hca). exists o. split; [done|]. split; [done|].
  intros Hst id. eapply catalogued_documented; [done|done|apply Hst|apply Hev|by apply Hca].
Qed.
End run.
End sync.
