(* ===== verification/FolderSync.v ===== *)
(** The commands of a content workspace ([crates/content-index/src/main.rs]): synchronising the selected
    folders, projecting, rebuilding, collecting garbage, resetting and compacting.

    A workspace is a graph database, a content root and a manifest.  The commands compose what the other
    files model: the scan of a folder ([FolderScan]), the generation manager ([Generations]) and the
    projection ([ContentProject]).  What a failing command has done stays done. *)
From Stdlib Require Import Ascii String.
From stdpp Require Import base strings numbers gmap list sorting.
From S2P Require Import Prelude Ids Order Models GraphDomain GraphTables GraphProjection GraphStore GraphOutbox GraphRefresh.
From S2P Require Import Text Catalog Content ContentText DurableJson Generations ContentProject.
From S2P Require Import Platform Crawl FolderScan.

Record ScopedRootBinding := MkScopedRootBinding { rb_root : string; rb_volume_id : volume_id }.

Record ContentWorkspaceManifest := MkContentWorkspaceManifest {
  wm_version : Z;                      (* u32 *)
  wm_roots : list string;
  wm_max_file_bytes : Z;               (* u64 *)
  wm_include_generated : bool;
  wm_excluded_directories : list string;
  wm_scan_batch_size : Z;              (* usize *)
  wm_max_graph_bytes : Z;              (* u64 *)
  wm_limits : ContentGenerationLimits;
  wm_scoped_roots : list ScopedRootBinding }.

Record GraphCompactionSummary := MkGraphCompactionSummary {
  gc_desired_payload_rows_rewritten : Z;
  gc_desired_payload_batches : Z;
  gc_desired_payload_backlog_remaining : bool;
  gc_safe_through_sequence : option Z;
  gc_sequence_before : Z;
  gc_sequence_after : Z;
  gc_deleted_rows : Z;
  gc_batches : Z;
  gc_backlog_remaining : bool;
  gc_reclaimed_pages : Z;
  gc_file_bytes_before : Z;
  gc_file_bytes_after : Z;
  gc_storage_before : GraphStorageStats;
  gc_storage_after : GraphStorageStats;
  gc_allow_without_consumers : bool }.

Record GarbageCollectionSummary := MkGarbageCollectionSummary {
  gb_removed_generations : list string;
  gb_reclaimed_bytes : Z;
  gb_retained_retired_generations : Z }.

Record ResetContentSummary := MkResetContentSummary {
  rc_removed_bytes : Z;
  rc_checkpoint_removed : bool;
  rc_removed : bool }.

(** How the content index was brought up to date. *)
Inductive content_mode := LegacySync | GenerationResume | Projected.

(** The summary, less the paths of the workspace's files and the JSON of the content stage. *)
Record FolderSyncSummary := MkFolderSyncSummary {
  fy_roots : list string;
  fy_observed_events : Z;
  fy_graph_mutations : Z;
  fy_scan_complete : bool;
  fy_scan_deferred_for_content_resume : bool;
  fy_graph_limit_reached : bool;
  fy_max_graph_bytes : Z;
  fy_graph_bytes : Z;
  fy_graph_pressure_bytes : Z;
  fy_graph_reusable_bytes : Z;
  fy_graph_stats : GraphStats;
  fy_graph_compaction : option GraphCompactionSummary;
  fy_rebuildable_initial : bool;
  fy_content_mode : content_mode;
  fy_content_complete : bool;
  fy_limits : ContentGenerationLimits;
  fy_excluded_directories : list string;
  fy_content_sequence : Z;
  fy_scan_batch_size : Z }.

Definition default_excluded_directories : list string :=
  ["$Recycle.Bin"; ".cache"; ".git"; ".hg"; ".svn"; ".venv"; "__pycache__"; "build"; "dist"; "node_modules";
   "Program Files"; "Program Files (x86)"; "ProgramData"; "System Volume Information"; "target"; "venv"; "Windows"].

(** [dedup_by(eq_ignore_ascii_case)]: neighbours. *)
Fixpoint dedup_ascii (l : list string) : list string :=
  match l with
  | [] => []
  | x :: l =>
      match dedup_ascii l with
      | y :: l' => if eq_ignore_ascii_case x y then x :: l' else x :: y :: l'
      | [] => [x]
      end
  end.

(** An entry of a directory, and what is below it. *)
Inductive owned_entry :=
| OwnedFails                                             (* the entry or its metadata *)
| OwnedFile (len : Z)                                    (* u64 *)
| OwnedOther
| OwnedDir (found : bool) (children : option (list owned_entry)).

Fixpoint owned_bytes (e : owned_entry) : option Z :=
  match e with
  | OwnedFails => None
  | OwnedFile len => Some len
  | OwnedOther => Some 0%Z
  | OwnedDir found children =>
      if found then
        entries ← children;
        (fix go (l : list owned_entry) (total : Z) : option Z :=
           match l with
           | [] => Some total
           | e :: l => bytes ← owned_bytes e; go l (saturating_add u64_max total bytes)
           end) entries 0%Z
      else Some 0%Z
  end.

(** [owned_directory_bytes]: whether the path exists, and what listing it gives. *)
Definition owned_directory_bytes (path : bool * option (list owned_entry)) : option Z :=
  owned_bytes (OwnedDir path.1 path.2).

Section workspace.
Context `{TV : Tantivy} `{T : TextEnv} `{CE : !ContentEnv} `{J : JsonEnv}.
Context `{RC : !JsonCodec ContentGenerationRecord} `{PC : !JsonCodec ActiveGenerationPointer}.
Context `{MC : !JsonCodec ProjectionWorkspaceManifest} `{WC : !JsonCodec ContentWorkspaceManifest}.
Implicit Types (g : db).

Inductive FolderError :=
| FolderContent (e : ContentIndexError)
| FolderScanError (e : ScanError)
| FolderIo
| FolderJson
| FolderText (message : string).

(** What the machine answers; the argument counts the questions asked so far. *)
Record WorkspaceEnv := MkWorkspaceEnv {
  we_folder : FolderEnv;
  we_gen : GenEnv;
  we_sources : nat → SourceFs;
  we_workspace : nat → option path;                      (* its canonical path *)
  we_text : path → string;                               (* [to_string_lossy] *)
  we_open : nat → result GraphError unit;                (* [FilesystemGraph::open] *)
  we_measure : nat → result GraphError unit;             (* [prepare_size_measurement] *)
  we_write : nat → WriteOutcome;                         (* [fs::write] *)
  we_to_vec_pretty : JValue → list N;
  we_roots_json : list string → list N;
  we_graph_file : nat → bool;                            (* [graph_path.is_file] *)
  we_content_tree : nat → bool * option (list owned_entry);
  we_content_exists : nat → bool;
  we_remove_content : nat → option ContentRoot }.        (* what [remove_dir_all] leaves when it fails *)

(** A workspace: graph and content root, the manifest, and the list of roots. *)
Record fstate := MkFstate {
  ft_project : pstate;
  ft_manifest : DurableFile;
  ft_roots_file : option (list N) }.
Abbreviation Fs := (St fstate FolderError).
Abbreviation graph_of s := (ps_graph (ft_project s)).
Abbreviation root_of s := (gs_root (ps_files (ft_project s))).

Definition on_project {A} (m : St pstate ContentIndexError A) : Fs A := λ s,
  let '(r, p) := m (ft_project s) in (map_err FolderContent r, MkFstate p (ft_manifest s) (ft_roots_file s)).
Definition on_manager {A} (m : St gstate ContentIndexError A) : Fs A := on_project (on_files m).
Definition on_folder {A} (m : St fworld ScanError A) : Fs A := λ s,
  let p := ft_project s in
  let '(r, w) := m (MkFworld (ps_graph p) (gs_tick (ps_files p))) in
  (map_err FolderScanError r,
   MkFstate (MkPstate (fw_graph w) (MkGstate (gs_root (ps_files p)) (fw_tick w))) (ft_manifest s) (ft_roots_file s)).
Definition on_db {A} (m : St db GraphError A) : Fs A := on_folder (on_graph_world m).
Definition ask_env {A} (f : nat → A) : Fs A := on_folder (fask f).
Definition read_graph {A} (f : db → result GraphError A) : Fs A := on_project (from_graph f).
Definition see {A} (f : fstate → A) : Fs A := λ s, (Ok (f s), s).
Definition graph_answer {A} (f : nat → result GraphError A) : Fs A :=
  r ← ask_env f; st_lift (map_err (λ e, FolderScanError (ScanGraph e)) r).

Context (env : WorkspaceEnv).

(** The generation manager reads the graph of the workspace. *)
Definition with_graph g : GenEnv :=
  let e := we_gen env in
  MkGenEnv (ge_clock e) (ge_disk e) (ge_bytes e) (ge_write e) (ge_create e) (ge_make_dir e) (ge_remove e) (λ _, g)
    (ge_files e) (ge_crash_after e).

(** ** Compaction *)

Fixpoint compact_payloads (fuel : nat) (batch_rows rewritten batches : Z) (backlog : bool)
  : St db GraphError (Z * Z * bool) :=
  match fuel with
  | O => mret (rewritten, batches, backlog)
  | S fuel =>
      summary ← transact (compact_legacy_desired_payloads_bounded batch_rows);
      let batches := saturating_add u32_max batches 1 in
      let rewritten := saturating_add u64_max rewritten (dm_rewritten_rows summary) in
      if negb (dm_backlog_remaining summary) || (dm_rewritten_rows summary =? 0)%Z
      then mret (rewritten, batches, dm_backlog_remaining summary)
      else compact_payloads fuel batch_rows rewritten batches (dm_backlog_remaining summary)
  end.

Fixpoint compact_outbox (fuel : nat) (batch_rows : Z) (allow : bool) (deleted batches : Z) (safe : option Z) (backlog : bool)
  : St db GraphError (Z * Z * option Z * bool) :=
  match fuel with
  | O => mret (deleted, batches, safe, backlog)
  | S fuel =>
      summary ← transact (prune_rebuildable_outbox_bounded batch_rows allow);
      let batches := saturating_add u32_max batches 1 in
      let deleted := saturating_add u64_max deleted (om_deleted_rows summary) in
      let safe := om_safe_through_sequence summary in
      if negb (om_backlog_remaining summary) || (om_deleted_rows summary =? 0)%Z
      then mret (deleted, batches, safe, om_backlog_remaining summary)
      else compact_outbox fuel batch_rows allow deleted batches safe (om_backlog_remaining summary)
  end.

(** [compact_graph_workspace]. *)
Definition compact_graph_workspace (batch_rows maximum_batches reclaim_pages : Z) (allow_without_consumers : bool)
  : Fs GraphCompactionSummary :=
  st_lift (ensure (negb ((batch_rows =? 0) || (100000 <? batch_rows) || (maximum_batches =? 0) || (1024 <? maximum_batches)
                         || (reclaim_pages =? 0) || (4096 <? reclaim_pages)))%Z
             (FolderText "graph compaction bounds are invalid")) ;;
  workspace ← ask_env (we_workspace env);
  st_lift (ok_or workspace FolderIo) ;;
  owned ← ask_env (we_graph_file env);
  st_lift (ensure owned (FolderText "workspace does not own a durable graph")) ;;
  graph_answer (we_open env) ;;
  graph_answer (we_measure env) ;;
  storage_before ← graph_answer (λ n, storage_stats (fe_pragmas (we_folder env) n));
  sequence_before ← read_graph latest_outbox_sequence;
  file_bytes_before ← on_folder (graph_storage_bytes (we_folder env));
  '(rewritten, payload_batches, payload_backlog) ←
    on_db (compact_payloads (Z.to_nat maximum_batches) batch_rows 0 0 false);
  '(deleted, batches, safe, backlog) ←
    on_db (compact_outbox (Z.to_nat maximum_batches) batch_rows allow_without_consumers 0 0 None false);
  reclaimed ← on_folder (reclaim_reusable_pages (we_folder env) reclaim_pages);
  graph_answer (we_measure env) ;;
  storage_after ← graph_answer (λ n, storage_stats (fe_pragmas (we_folder env) n));
  sequence_after ← read_graph latest_outbox_sequence;
  st_lift (ensure (bool_decide (sequence_after = sequence_before))
    (FolderText "graph compaction changed the durable sequence high-water mark")) ;;
  file_bytes_after ← on_folder (graph_storage_bytes (we_folder env));
  mret (MkGraphCompactionSummary rewritten payload_batches payload_backlog safe sequence_before sequence_after deleted
          batches backlog reclaimed file_bytes_before file_bytes_after storage_before storage_after allow_without_consumers).

(** ** Projection *)

(** [project_content], into the index at [t]. *)
Definition project_content (t : index_target) (roots : list string) (max_file_bytes batch_size maximum_batches : Z)
  : Fs DurableContentProjectionSummary :=
  st_lift (ensure (negb ((batch_size =? 0) || (10000 <? batch_size) || (maximum_batches =? 0) || (1024 <? maximum_batches)))%Z
             (FolderText "content projection bounds are invalid")) ;;
  sources ← ask_env (we_sources env);
  policy ← st_lift (map_err FolderContent (policy_new sources roots max_file_bytes));
  graph_answer (we_open env) ;;
  checkpoint ← read_graph (λ g, projector_checkpoint g CONTENT_SCHEMA_ID);
  checkpoint ← st_lift (ok_or checkpoint (FolderText "content projection is not initialized; run folder-sync first"));
  let start := pj_last_sequence checkpoint in
  '(after, projected, commits) ←
    on_project (project_loop (we_gen env) (Z.to_nat maximum_batches) t policy batch_size start 0 []);
  latest ← read_graph latest_outbox_sequence;
  mret (MkDurableContentProjectionSummary start after latest projected (bool_decide (after < latest)%Z) commits).

(** [project_workspace]. *)
Definition project_workspace (batch_size maximum_batches : Z) : Fs DurableContentProjectionSummary :=
  sources ← ask_env (we_sources env);
  manifest ← see ft_manifest;
  policy ← st_lift (map_err FolderContent (from_workspace sources manifest));
  opened ← ask_env (we_open env);
  summary ← on_project (project (we_gen env) opened policy (MkContentProjectionOptions batch_size maximum_batches));
  compact_graph_workspace 10000 1 4096 false ;;
  mret summary.

(** One round of [watch_workspace]: three attempts. *)
Fixpoint watch_attempts (retries : nat) (batch_size maximum_batches : Z) (last_error : option FolderError)
  : Fs DurableContentProjectionSummary := λ s,
  match retries with
  | O => (Err (default (FolderText "content watch retry failed") last_error), s)
  | S retries =>
      match project_workspace batch_size maximum_batches s with
      | (Ok summary, s) => (Ok summary, s)
      | (Err e, s) => watch_attempts retries batch_size maximum_batches (Some e) s
      end
  end.

(** [watch_workspace] with a number of iterations. *)
Fixpoint watch_rounds (iterations : nat) (batch_size maximum_batches : Z) : Fs (list DurableContentProjectionSummary) :=
  match iterations with
  | O => mret []
  | S iterations =>
      summary ← watch_attempts 3 batch_size maximum_batches None;
      rest ← watch_rounds iterations batch_size maximum_batches;
      mret (summary :: rest)
  end.
Definition watch_workspace (batch_size maximum_batches interval_ms : Z) (iterations : nat)
  : Fs (list DurableContentProjectionSummary) :=
  st_lift (ensure (((100 <=? interval_ms) && (interval_ms <=? 60000))%Z && negb (bool_decide (iterations = 0)))
    (FolderText "watch bounds are invalid")) ;;
  watch_rounds iterations batch_size maximum_batches.

(** ** Generations *)

(** [serde_json::from_slice] of the manifest file. *)
Definition parse_manifest (bytes : list N) : option ContentWorkspaceManifest := value_from_slice bytes ≫= from_value.

(** The roots of a policy as text. *)
Definition root_texts (policy : ContentIndexPolicy) : list string := we_text env <$> cip_roots policy.

(** [rebuild_workspace]. *)
Definition rebuild_workspace (limits : ContentGenerationLimits) : Fs ContentGenerationSummary :=
  file ← see ft_manifest;
  bytes ← st_lift (ok_or (df_plain file) FolderIo);
  manifest ← st_lift (ok_or (parse_manifest bytes) FolderJson);
  st_lift (ensure ((wm_version manifest =? 1) || (wm_version manifest =? 2))%Z
    (FolderText "unsupported content workspace manifest")) ;;
  sources ← ask_env (we_sources env);
  policy ← st_lift (map_err FolderContent (policy_new sources (wm_roots manifest) (wm_max_file_bytes manifest)));
  graph_answer (we_open env) ;;
  on_manager (manager_open (we_gen env)) ;;
  g ← see (λ s, graph_of s);
  summary ← on_manager (resume_initial_generation (with_graph g) (root_texts policy) policy limits);
  (if gsum_complete summary
   then on_project (graph_write (acknowledge_projection CONTENT_SCHEMA_ID
          (gr_target_sequence (gsum_generation summary)) (gr_index_generation (gsum_generation summary))))
   else mret tt) ;;
  mret summary.

(** [garbage_collect_workspace]. *)
Definition garbage_collect_workspace (retain_retired : Z) : Fs GarbageCollectionSummary :=
  st_lift (ensure (negb (8 <? retain_retired))%Z (FolderText "retired generation retention is outside product bounds")) ;;
  tree ← ask_env (we_content_tree env); before ← st_lift (ok_or (owned_directory_bytes tree) FolderIo);
  on_manager (manager_open (we_gen env)) ;;
  removed ← on_manager (collect_garbage (we_gen env) (Z.to_nat retain_retired));
  tree ← ask_env (we_content_tree env); after ← st_lift (ok_or (owned_directory_bytes tree) FolderIo);
  mret (MkGarbageCollectionSummary removed (saturating_sub before after) retain_retired).

(** [reset_content_workspace]. *)
Definition reset_content_workspace : Fs ResetContentSummary :=
  workspace ← ask_env (we_workspace env);
  st_lift (ok_or workspace FolderIo) ;;
  tree ← ask_env (we_content_tree env); bytes ← st_lift (ok_or (owned_directory_bytes tree) FolderIo);
  found ← ask_env (we_content_exists env);
  (if found : bool then
     left ← ask_env (we_remove_content env);
     match left with
     | Some r => on_manager (root_set (λ _, r)) ;; st_fail FolderIo
     | None => on_manager (root_set (λ _, MkContentRoot None None no_file None))
     end
   else mret tt) ;;
  owned ← ask_env (we_graph_file env);
  removed ← (if owned : bool then
               graph_answer (we_open env) ;;
               on_db (transact (reset_projection_consumer CONTENT_SCHEMA_ID))
             else mret false);
  exists_ ← ask_env (we_content_exists env);
  mret (MkResetContentSummary bytes removed (negb exists_)).

(** ** Folder synchronisation *)

(** [excluded_directories]. *)
Definition lowercase_le (a b : string) : Prop :=
  lex_compare (string_bytes (to_lowercase a)) (string_bytes (to_lowercase b)) ≠ Gt.
Global Instance lowercase_le_dec : RelDecision lowercase_le.
Proof. intros a b. unfold lowercase_le. apply _. Defined.
Definition exclusions (include_generated : bool) (custom : list string) : list string :=
  dedup_ascii (merge_sort lowercase_le ((if include_generated then [] else default_excluded_directories) ++ custom)).

(** The volumes of the selected roots. *)
Fixpoint bind_roots (roots : list path) : Fs (list ScopedRootBinding) :=
  match roots with
  | [] => mret []
  | root :: roots =>
      view ← ask_env (λ n, fe_root (we_folder env) n root);
      prepared ← st_lift (map_err (λ e, FolderScanError (ScanPlatform e)) (prepare_scan_root view));
      rest ← bind_roots roots;
      mret (MkScopedRootBinding (we_text env root) (vd_volume_id (ps_volume prepared)) :: rest)
  end.

(** Roots of the previous manifest that are no longer selected. *)
Definition revoked_roots (previous current : list ScopedRootBinding) : list ScopedRootBinding :=
  filter (λ p, rb_root p ∉ rb_root <$> current) previous.
Fixpoint revoke_roots (removed : list ScopedRootBinding) (batch_size : Z) (rebuildable : bool) (mutations : Z) : Fs Z :=
  match removed with
  | [] => mret mutations
  | b :: removed =>
      n ← on_db (remove_scoped_root (rb_volume_id b) batch_size rebuildable);
      revoke_roots removed batch_size rebuildable (saturating_add u64_max mutations n)
  end.

(** The scans of the selected roots: events, mutations and whether all are complete. *)
Fixpoint sync_roots (roots : list path) (options : ScopedScanOptions) (batch_size max_graph_bytes : Z)
  (rebuildable : bool) (events mutations : Z) : Fs (Z * Z * bool) :=
  match roots with
  | [] => mret (events, mutations, true)
  | root :: roots =>
      summary ← on_folder (sync_scoped_root (we_folder env) root options batch_size max_graph_bytes rebuildable);
      let events := saturating_add u64_max events (sr_observed_events summary) in
      let mutations := saturating_add u64_max mutations (sr_graph_mutations summary) in
      if sr_complete summary then sync_roots roots options batch_size max_graph_bytes rebuildable events mutations
      else mret (events, mutations, false)
  end.

(** Bringing the content index up to date: mode, sequence and completeness. *)
Definition sync_legacy (policy : ContentIndexPolicy) : Fs Z :=
  summary ← on_manager (
    files ← ask (ge_files (we_gen env));
    dir ← root_get cr_direct;
    mret (files, dir));
  let '(files, dir) := summary in
  g ← see (λ s, graph_of s);
  let '(r, dir) := sync_from_graph files dir g policy in
  on_manager (root_set (put_target DirectIndex dir)) ;;
  summary ← st_lift (map_err FolderContent r);
  sequence ← read_graph latest_outbox_sequence;
  on_project (graph_write (acknowledge_projection CONTENT_SCHEMA_ID sequence (su_generation summary))) ;;
  mret sequence.

Definition resume_generation (policy : ContentIndexPolicy) (limits : ContentGenerationLimits) : Fs (Z * bool) :=
  g ← see (λ s, graph_of s);
  summary ← on_manager (resume_initial_generation (with_graph g) (root_texts policy) policy limits);
  if gsum_complete summary then
    let sequence := gr_target_sequence (gsum_generation summary) in
    on_project (graph_write (acknowledge_projection CONTENT_SCHEMA_ID sequence
      (gr_index_generation (gsum_generation summary)))) ;;
    mret (sequence, true)
  else
    checkpoint ← read_graph (λ g, projector_checkpoint g CONTENT_SCHEMA_ID);
    mret (default 0%Z (pj_last_sequence <$> checkpoint), false).

Definition project_active (policy : ContentIndexPolicy) (max_file_bytes : Z) : Fs Z :=
  active ← on_manager (root_get active_generation_record); active ← st_lift (map_err FolderContent active);
  checkpoint ← read_graph (λ g, projector_checkpoint g CONTENT_SCHEMA_ID);
  match checkpoint with
  | Some _ => mret tt
  | None => on_project (graph_write (acknowledge_projection CONTENT_SCHEMA_ID (gr_target_sequence active)
              (gr_index_generation active)))
  end ;;
  id ← on_manager (root_get active_index_path); id ← st_lift (map_err FolderContent id);
  projected ← project_content (GenerationIndex id) (root_texts policy) max_file_bytes 1024 64;
  mret (dp_applied_sequence projected).

Definition content_stage (legacy : bool) (policy : ContentIndexPolicy) (max_file_bytes : Z) (limits : ContentGenerationLimits)
  : Fs (content_mode * Z * bool) :=
  if legacy then sequence ← sync_legacy policy; mret (LegacySync, sequence, true)
  else
    building ← on_manager (root_get has_building_generation); building ← st_lift (map_err FolderContent building);
    active ← on_manager (root_get has_active_generation);
    if (building : bool) || negb active then
      '(sequence, complete) ← resume_generation policy limits; mret (GenerationResume, sequence, complete)
    else sequence ← project_active policy max_file_bytes; mret (Projected, sequence, true).

(** [fs::write]: the file is truncated first. *)
Definition write_file (outcome : WriteOutcome) (bytes : list N) (old : option (list N)) : option (list N) * bool :=
  match outcome with
  | Written => (Some bytes, true)
  | OpenFails => (old, false)
  | TornAt k => (Some (take k bytes), false)
  end.
Definition put_roots_file (outcome : WriteOutcome) (bytes : list N) : Fs unit := λ s,
  let '(file, ok) := write_file outcome bytes (ft_roots_file s) in
  (if ok then Ok tt else Err FolderIo, MkFstate (ft_project s) (ft_manifest s) file).
Definition put_manifest (outcome : WriteOutcome) (bytes : list N) : Fs unit := λ s,
  let '(file, ok) := write_file outcome bytes (df_plain (ft_manifest s)) in
  (if ok then Ok tt else Err FolderIo,
   MkFstate (ft_project s) (MkDurableFile (df_slot0 (ft_manifest s)) (df_slot1 (ft_manifest s)) file) (ft_roots_file s)).

(** The manifest of the previous run, if there is one. *)
Definition previous_manifest : Fs (option ContentWorkspaceManifest) :=
  file ← see ft_manifest;
  match df_plain file with
  | Some bytes => m ← st_lift (ok_or (parse_manifest bytes) FolderJson); mret (Some m)
  | None => mret None
  end.

(** The content root is opened unless it is a direct index; whether a resumable build for the same roots
    is waiting, and whether a generation is active. *)
Definition open_content (requested : list string) : Fs (bool * bool * bool) :=
  legacy ← see (λ s, direct_marker (root_of s));
  if legacy : bool then mret (true, false, false)
  else
    on_manager (manager_open (we_gen env)) ;;
    building ← on_manager (root_get building_generation_record);
    active ← on_manager (root_get has_active_generation);
    mret (false, match building with Ok (Some rec) => bool_decide (gr_root_ids rec = requested) | _ => false end, active).

(** [folder_sync]. *)
Definition folder_sync (roots : list string) (max_file_bytes : Z) (include_generated : bool)
  (scan_batch_size max_graph_bytes : Z) (limits : ContentGenerationLimits) (custom : list string) : Fs FolderSyncSummary :=
  sources ← ask_env (we_sources env);
  policy ← st_lift (map_err FolderContent (policy_new sources roots max_file_bytes));
  st_lift (ensure (negb ((scan_batch_size =? 0) || (50000 <? scan_batch_size)))%Z
    (FolderText "scan batch size is outside product bounds")) ;;
  st_lift (ensure (negb (max_graph_bytes =? 0))%Z (FolderText "graph byte limit must be positive")) ;;
  workspace ← ask_env (we_workspace env); workspace ← st_lift (ok_or workspace FolderIo);
  st_lift (ensure (negb (existsb (λ root, starts_with workspace root || starts_with root workspace) (cip_roots policy)))
    FolderIo) ;;
  previous ← previous_manifest;
  '(legacy, deferred, active) ← open_content (root_texts policy);
  graph_answer (we_open env) ;;
  rebuildable ← see (λ s, negb (has_projection_consumers (graph_of s)) && negb active);
  scoped ← bind_roots (cip_roots policy);
  let excluded := exclusions include_generated custom in
  let options := excluding excluded in
  removed ← revoke_roots (revoked_roots (default [] (wm_scoped_roots <$> previous)) scoped) scan_batch_size rebuildable 0;
  pressure ← on_folder (graph_storage_pressure_bytes (we_folder env));
  let full := (graph_stop_threshold max_graph_bytes <=? pressure)%Z in
  '(events, mutations, scanned) ←
    (if deferred || full then mret (0%Z, removed, false)
     else sync_roots (cip_roots policy) options scan_batch_size max_graph_bytes rebuildable 0 removed);
  graph_answer (we_measure env) ;;
  graph_stats ← read_graph stats;
  '(mode, sequence, complete) ← content_stage legacy policy max_file_bytes limits;
  compaction ← (if complete : bool then Some <$> compact_graph_workspace 100000 64 4096 false else mret None);
  graph_answer (we_open env) ;;
  storage ← graph_answer (λ n, storage_stats (fe_pragmas (we_folder env) n));
  bytes ← on_folder (graph_storage_bytes (we_folder env));
  pressure ← on_folder (graph_storage_pressure_bytes (we_folder env));
  let manifest := MkContentWorkspaceManifest 2 (root_texts policy) max_file_bytes include_generated excluded scan_batch_size
    max_graph_bytes limits scoped in
  outcome ← ask_env (we_write env); put_roots_file outcome (we_roots_json env (root_texts policy)) ;;
  outcome ← ask_env (we_write env); put_manifest outcome (we_to_vec_pretty env (to_value manifest)) ;;
  mret (MkFolderSyncSummary (root_texts policy) events mutations scanned deferred
          (full || negb (deferred || scanned)) max_graph_bytes bytes pressure (reusable_bytes storage) graph_stats compaction
          rebuildable mode complete limits excluded sequence scan_batch_size).
End workspace.
