(* ===== verification/FolderSyncSpec.v ===== *)
(** What the commands of a content workspace guarantee: the graph changes by store transactions, the
    content index stays on track through scans and compaction, and revoked folders leave the catalog. *)
From Stdlib Require Import Ascii String.
From stdpp Require Import base strings numbers gmap list sorting relations.
From S2P Require Import Prelude Ids Order Models GraphDomain GraphTables GraphMutate GraphProjection GraphStore GraphOutbox.
From S2P Require Import GraphRefresh GraphInvariant GraphPreserve GraphReach GraphSync GraphConverge Text Catalog KeyedIndex CatalogSpec.
From S2P Require Import Content ContentText ContentSpec ContentGuarantees DurableJson Generations GenerationsSpec.
From S2P Require Import Projector ProjectorSpec GenerationsBuild ContentProject ContentProjectSpec Platform Crawl CrawlSpec.
From S2P Require Import FolderScan FolderScanSpec FolderSync.

(** ** A content index next to other writers *)

Section spared.
Context `{TV : Tantivy} `{T : TextEnv} `{CE : !ContentEnv} `{!StoreLaws E} `{TL : !TantivyLaws}.
Implicit Types (g : db).

Lemma touched_tracks g pos idx k o :
  Exists (touches k) (outbox_after g pos) → tracks g pos idx → tracks g pos (partial_alter (λ _, o) k idx).
Proof.
  intros Hex Ht d. specialize (Ht d). destruct (decide (d = k)) as [->|Hne].
  - by rewrite (replay_touched k _ _ idx Hex).
  - destruct (decide (Exists (touches d) (outbox_after g pos))) as [Hd|Hd].
    + by rewrite (replay_touched d _ _ idx Hd).
    + rewrite replay_untouched in Ht |- * by done. by rewrite lookup_partial_alter_ne.
Qed.

(** Whoever spares a consumer leaves its unread mutations to it. *)
Lemma spares_touches c g g' row idx k :
  spares c g g' → consumers g !! c = Some row → tracks g (k_last_sequence row) idx →
  Exists (touches k) (outbox_after g (k_last_sequence row)) → Exists (touches k) (outbox_after g' (k_last_sequence row)).
Proof.
  intros Hs Hrow Ht Hex. destruct (Hs row Hrow) as [_ Htr].
  destruct (decide (Exists (touches k) (outbox_after g' (k_last_sequence row)))) as [|Hno]; [done|exfalso].
  pose proof (λ o, Htr _ (touched_tracks _ _ _ k o Hex Ht) k) as Hk.
  setoid_rewrite replay_untouched in Hk; [|done]. setoid_rewrite lookup_partial_alter_eq in Hk.
  pose proof (Hk None) as H1. pose proof (Hk (Some (MkCatalogDocument (MkCatalogIdentity (MkFileKey 0 0) 0 0) 0 "" "" None
    (MkFileMetadata KFile 0 None None false AOnline)))) as H2.
  destruct (documents g' !! k); simpl in *; done.
Qed.

Lemma spares_on_track sources policy now g g' m :
  spares CONTENT_SCHEMA_ID g g' → content_on_track sources policy now g m → content_on_track sources policy now g' m.
Proof.
  intros Hs (row & idx & Hrow & Ht & Hm & Hk). destruct (Hs row Hrow) as [Hrow' Htr].
  exists row, idx. split; [done|]. split; [by apply Htr|]. split; [done|]. intros k.
  destruct (Hk k) as [Hex|Hp]; [left; by eapply spares_touches|by right].
Qed.

(** Content stays on track: whatever transactions other writers commit (batches, scans, refreshes,
    pruning, compaction, acknowledgements of other consumers), a content index that was on track is on
    track afterwards: for every document it is the catalog's text, or a mutation that the content
    consumer has not read yet mentions the document. *)
Theorem content_stays_on_track sources policy (now : nat) (g g' : db) (m : contents) (o : op) :
  store_wf g → content_on_track sources policy now g m → op_typed o → op_spares CONTENT_SCHEMA_ID o →
  GraphReach.run_op o g = Ok (tt, g') → content_on_track sources policy now g' m.
Proof. intros Hwf Hon Hty Hsp Hrun. eapply spares_on_track; [|done]. by eapply run_op_spares. Qed.
End spared.

(** ** Upkeep *)

(** What acknowledging, pruning and compaction leave: the graph, where documents are and what they
    describe, checkpoints and sessions. *)
Section upkeep.
Context `{E : StoreEnv} `{!StoreLaws E}.
Implicit Types (g : db) (v : volume_id).

Record tended g g' : Prop := {
  td_places : d_object <$> documents g' = d_object <$> documents g;
  td_rows d row doc : documents g !! d = Some row → row_describes row doc →
    ∃ row', documents g' !! d = Some row' ∧ row_describes row' doc;
  td_objects : objects g' = objects g;
  td_volumes : volumes g' = volumes g;
  td_links : links g' = links g;
  td_checkpoints : checkpoints g' = checkpoints g;
  td_sessions : sessions g' = sessions g }.

Global Instance tended_preorder : PreOrder tended.
Proof.
  split; [split; naive_solver|]. intros g1 g2 g3 [? R1] [? R2]. split; try congruence.
  intros d row doc Hd Hr. destruct (R1 d row doc Hd Hr) as (row1 & Hd1 & Hr1). by apply (R2 d row1).
Qed.

Lemma tended_same g g' :
  documents g' = documents g → objects g' = objects g → volumes g' = volumes g → links g' = links g →
  checkpoints g' = checkpoints g → sessions g' = sessions g → tended g g'.
Proof. intros Hd ? ? ? ? ?. split; try done; rewrite Hd; naive_solver. Qed.

Lemma acknowledge_tended c last gen g u g' : acknowledge_projection c last gen g = Ok (u, g') → tended g g'.
Proof. unfold acknowledge_projection. intros H. ginv. by apply tended_same. Qed.

Lemma acknowledges_tended g g' : rtc acknowledges g g' → tended g g'.
Proof.
  induction 1 as [g|g1 g2 g3 (last & gen & _ & _ & H) _ IH]; [reflexivity|]. etransitivity; [|exact IH].
  by eapply acknowledge_tended.
Qed.

Lemma prune_tended maximum allow g x g' : prune_rebuildable_outbox_bounded maximum allow g = Ok (x, g') → tended g g'.
Proof. unfold prune_rebuildable_outbox_bounded. intros H. ginv. destruct (safe_through g _); ginv; by apply tended_same. Qed.

(** Rewriting the row of a document that is still stored as JSON. *)
Lemma compact_step_tended g d row doc :
  documents g !! d = Some row → document_from_json (d_json row) = Some doc →
  tended g (set_documents (alter (compact_row doc) d (documents g)) g).
Proof.
  intros Hd Hj. split; try done; simpl.
  - apply map_eq. intros d'. rewrite !lookup_fmap. destruct (decide (d' = d)) as [->|Hne]; [|by rewrite lookup_alter_ne].
    rewrite lookup_alter_eq, Hd. simpl. unfold compact_row. by destruct (d_path row).
  - intros d' row' doc' Hd' Hr. destruct (decide (d' = d)) as [->|Hne]; [|rewrite lookup_alter_ne by done; by exists row'].
    rewrite lookup_alter_eq, Hd'. eexists. split; [done|]. rewrite Hd in Hd'. injection Hd' as <-. unfold compact_row.
    destruct Hr as (Hid & Hv & [[Hp Hf]|(Hp & Hf & Hj')]); rewrite Hp; [by repeat split; auto|].
    assert (doc' = doc) as -> by congruence. repeat split; simpl; auto.
Qed.

Lemma compact_tended maximum g x g' : compact_legacy_desired_payloads_bounded maximum g = Ok (x, g') → tended g g'.
Proof.
  intros Hrun. unfold compact_legacy_desired_payloads_bounded in Hrun. ginv.
  match goal with H : for_each _ _ _ = Ok _ |- _ =>
    eapply (triple_for_each_rest (λ rest h, tended g h ∧ legacy_rest rest h)) in H;
      [apply H|clear H|split; [reflexivity|apply legacy_rest_page]] end.
  intros [d r] rest h u h' [Ht Hrest] Hstep. simpl in Hstep. ginv.
  match goal with |- context [compact_row ?doc] => destruct (legacy_rest_step _ _ _ doc _ Hrest) as [Hd Hrest'] end.
  split; [|done]. etransitivity; [exact Ht|]. eapply compact_step_tended; [done|]. by apply ok_or_Ok in Hstep || eauto.
Qed.

Lemma transact_tended {A} (m : GM A) g :
  (∀ a g', m g = Ok (a, g') → tended g g') → tended g (transact m g).2.
Proof. intros H. unfold transact. destruct (m g) as [[a g']|e] eqn:Hm; [by eapply H|reflexivity]. Qed.

Lemma vacant_tended v g g' : tended g g' → vacant v g → vacant v g'.
Proof.
  intros [Hp _ _ _ _ _ _] Hva d row Hd Hv. assert ((d_object <$> documents g) !! d = Some (d_object row)) as Ho.
  { rewrite <-Hp, lookup_fmap. by rewrite Hd. }
  rewrite lookup_fmap in Ho. apply fmap_Some in Ho as (row' & Hd' & Heq). destruct (Hva _ _ Hd'). by rewrite <-Heq.
Qed.

Lemma mirrored_tended prepared es g g' : tended g g' → mirrored prepared es g → mirrored prepared es g'.
Proof.
  intros [Hp _ _ _ Hl Hc _] (Hdocs & Hns & Hcp). split; [|split; [|congruence]].
  - intros d row Hd Hv. assert ((d_object <$> documents g) !! d = Some (d_object row)) as Ho.
    { rewrite <-Hp, lookup_fmap. by rewrite Hd. }
    rewrite lookup_fmap in Ho. apply fmap_Some in Ho as (row' & Hd' & Heq). apply (Hdocs d row'); [done|]. by rewrite <-Heq.
  - unfold namespace. by rewrite Hl.
Qed.

Lemma documented_tended g g' id : tended g g' → documented g id → documented g' id.
Proof.
  intros [Hp Hr Ho Hv Hl _ _]. apply documented_ext; [done| |by apply Hr|].
  - apply wanted_ext; [done|done|]. by rewrite Hv.
  - intros Hd. assert ((d_object <$> documents g') !! id = None) as Hn by (rewrite Hp, lookup_fmap; by rewrite Hd).
    rewrite lookup_fmap in Hn. by apply fmap_None in Hn.
Qed.

Lemma vacant_kept v g g' : kept v g g' → vacant v g → vacant v g'.
Proof. intros [_ _ Hd _ _] Hva d row Hrow Hv. by apply (Hva d row); [apply Hd|]. Qed.
End upkeep.

(** ** Commands *)

Section commands.
Context `{TV : Tantivy} `{T : TextEnv} `{CE : !ContentEnv} `{!StoreLaws E} `{TL : !TantivyLaws}.
Context `{J : JsonEnv} `{RC : !JsonCodec ContentGenerationRecord} `{PC : !JsonCodec ActiveGenerationPointer}.
Context `{MC : !JsonCodec ProjectionWorkspaceManifest} `{WC : !JsonCodec ContentWorkspaceManifest}.
Implicit Types (g : db) (s : fstate) (v : volume_id).
Abbreviation graph_of s := (ps_graph (ft_project s)).
Abbreviation tick_of s := (gs_tick (ps_files (ft_project s))).

(** What a computation does to the graph, however it ends. *)
Definition leaves (R : relation db) {A} (m : St fstate FolderError A) : Prop :=
  ∀ s, R (graph_of s) (graph_of (m s).2).

Section leaves.
Context (R : relation db) `{!PreOrder R}.

Lemma leaves_lift {A} (x : result FolderError A) : leaves R (st_lift x).
Proof. intros s. reflexivity. Qed.
Lemma leaves_ret {A} (a : A) : leaves R (mret a).
Proof. intros s. reflexivity. Qed.
Lemma leaves_see {A} (f : fstate → A) : leaves R (see f).
Proof. intros s. reflexivity. Qed.
Lemma leaves_bind {A C} (m : St fstate FolderError A) (f : A → St fstate FolderError C) :
  leaves R m → (∀ a, leaves R (f a)) → leaves R (m ≫= f).
Proof.
  intros Hm Hf s. specialize (Hm s). unfold mbind, St_bind. destruct (m s) as [[a|e] s1]; [|done].
  etransitivity; [exact Hm|apply Hf].
Qed.
Lemma leaves_project {A} (m : St pstate ContentIndexError A) :
  (∀ p, R (ps_graph p) (ps_graph (m p).2)) → leaves R (on_project m).
Proof. intros Hm s. specialize (Hm (ft_project s)). unfold on_project. by destruct (m (ft_project s)). Qed.
Lemma leaves_manager {A} (m : St gstate ContentIndexError A) : leaves R (on_manager m).
Proof. apply leaves_project. intros p. unfold on_files. destruct (m (ps_files p)). reflexivity. Qed.
Lemma leaves_folder {A} (m : St fworld ScanError A) :
  (∀ w, R (fw_graph w) (fw_graph (m w).2)) → leaves R (on_folder m).
Proof.
  intros Hm s. specialize (Hm (MkFworld (graph_of s) (tick_of s))). unfold on_folder. by destruct (m _).
Qed.
Lemma leaves_db {A} (m : St db GraphError A) : (∀ g, R g (m g).2) → leaves R (on_db m).
Proof. intros Hm. apply leaves_folder. intros w. specialize (Hm (fw_graph w)). unfold on_graph_world. by destruct (m _). Qed.
Lemma leaves_ask {A} (f : nat → A) : leaves R (ask_env f).
Proof. apply leaves_folder. intros w. reflexivity. Qed.
Lemma leaves_read {A} (f : db → result GraphError A) : leaves R (read_graph f).
Proof. apply leaves_project. intros p. reflexivity. Qed.
Lemma leaves_answer {A} (f : nat → result GraphError A) : leaves R (graph_answer f).
Proof. apply leaves_bind; [apply leaves_ask|]. intros r. apply leaves_lift. Qed.
End leaves.

Lemma leaves_fmap (R : relation db) {A C} (f : A → C) (m : St fstate FolderError A) : leaves R m → leaves R (f <$> m).
Proof. done. Qed.

(** The steps of a command that leave the graph alone. *)
Ltac leave_step :=
  lazymatch goal with
  | |- leaves _ (mbind _ _) => apply leaves_bind; [apply _| |intros ?]
  | |- leaves _ (st_lift _) => apply leaves_lift; apply _
  | |- leaves _ (mret _) => apply leaves_ret; apply _
  | |- leaves _ (see _) => apply leaves_see; apply _
  | |- leaves _ (on_manager _) => apply leaves_manager; apply _
  | |- leaves _ (ask_env _) => apply leaves_ask; apply _
  | |- leaves _ (read_graph _) => apply leaves_read; apply _
  | |- leaves _ (graph_answer _) => apply leaves_answer; apply _
  | |- leaves _ (let '(_, _) := ?p in _) => destruct p
  end.
Ltac leave := repeat leave_step.

(** Questions about storage leave the graph alone. *)
Definition still {A} (m : St fworld ScanError A) : Prop := ∀ w, fw_graph (m w).2 = fw_graph w.

Lemma still_bind {A C} (m : St fworld ScanError A) (f : A → St fworld ScanError C) :
  still m → (∀ a, still (f a)) → still (m ≫= f).
Proof.
  intros Hm Hf w. specialize (Hm w). unfold mbind, St_bind. destruct (m w) as [[a|e] w1]; [|done]. by rewrite Hf.
Qed.
Lemma still_pressure fenv : still (graph_storage_pressure_bytes fenv).
Proof. intros w. destruct (graph_storage_pressure_bytes fenv w) as [r w'] eqn:H. by apply pressure_graph in H. Qed.
Lemma still_bytes fenv : still (graph_storage_bytes fenv).
Proof. intros w. done. Qed.
Lemma still_loop fenv fuel target reclaimed : still (reclaim_loop fenv fuel target reclaimed).
Proof.
  revert reclaimed. induction fuel as [|fuel IH]; intros reclaimed; [by intros w|]. simpl.
  destruct (_ <? _)%Z; [|by intros w]. do 4 (apply still_bind; [by intros w|]; intros ?). case_match; [by intros w|apply IH].
Qed.
Lemma still_reclaim fenv maximum : still (reclaim_reusable_pages fenv maximum).
Proof.
  do 3 (apply still_bind; [by intros w|]; intros ?). case_match; [by intros w|apply still_loop].
Qed.

Context (env : WorkspaceEnv).

Lemma leaves_still {A} (m : St fworld ScanError A) : still m → leaves tended (on_folder m).
Proof. intros Hm. apply leaves_folder. intros w. by rewrite Hm. Qed.
Lemma leaves_write {A} (m : GM A) : (∀ g a g', m g = Ok (a, g') → tended g g') → leaves tended (on_project (graph_write m)).
Proof.
  intros Hm. apply leaves_project. intros p. unfold graph_write. destruct (m (ps_graph p)) as [[a g']|e] eqn:H; [|reflexivity].
  by eapply Hm.
Qed.

Lemma payloads_tended fuel rows rewritten batches backlog g : tended g (compact_payloads fuel rows rewritten batches backlog g).2.
Proof.
  revert rewritten batches backlog g. induction fuel as [|fuel IH]; intros rewritten batches backlog g; [reflexivity|]. simpl.
  pose proof (transact_tended (compact_legacy_desired_payloads_bounded rows) g (compact_tended rows g)) as Ht.
  unfold mbind, St_bind. destruct (transact _ g) as [[x|e] g1]; [|exact Ht]. simpl in Ht.
  destruct (_ || _); [exact Ht|]. etransitivity; [exact Ht|apply IH].
Qed.

Lemma outbox_tended fuel rows allow deleted batches safe backlog g :
  tended g (compact_outbox fuel rows allow deleted batches safe backlog g).2.
Proof.
  revert deleted batches safe backlog g. induction fuel as [|fuel IH]; intros deleted batches safe backlog g; [reflexivity|]. simpl.
  pose proof (transact_tended (prune_rebuildable_outbox_bounded rows allow) g (prune_tended rows allow g)) as Ht.
  unfold mbind, St_bind. destruct (transact _ g) as [[x|e] g1]; [|exact Ht]. simpl in Ht.
  destruct (_ || _); [exact Ht|]. etransitivity; [exact Ht|apply IH].
Qed.

Lemma compaction_tended rows maximum pages allow : leaves tended (compact_graph_workspace env rows maximum pages allow).
Proof.
  unfold compact_graph_workspace. leave; try apply leaves_still, still_bytes; try apply leaves_still, still_reclaim.
  - apply leaves_db, payloads_tended.
  - apply leaves_db, outbox_tended.
Qed.

Lemma project_content_tended t roots max batch maximum : leaves tended (project_content env t roots max batch maximum).
Proof.
  unfold project_content. leave. apply leaves_project. intros p. apply acknowledges_tended, project_loop_acknowledges.
Qed.

Lemma content_stage_tended legacy policy max limits : leaves tended (content_stage env legacy policy max limits).
Proof.
  assert (∀ last gen, leaves tended (on_project (graph_write (acknowledge_projection CONTENT_SCHEMA_ID last gen)))) as Hack
    by (intros; apply leaves_write; intros g u g'; apply acknowledge_tended).
  unfold content_stage. destruct legacy; [unfold sync_legacy; leave; apply Hack|]. leave. case_match.
  - unfold resume_generation. leave. case_match; leave; apply Hack.
  - unfold project_active. leave; [|apply project_content_tended]. case_match; leave; apply Hack.
Qed.

(** ** Selected and revoked folders *)

(** What work on the folders in [V] leaves, as far as it got. *)
Record worked (V : volume_id → Prop) g g' : Prop := {
  wk_wf : store_wf g';
  wk_steps : rtc foreign_step g g';
  wk_sessions : sessions g' = sessions g;
  wk_kept : ∀ v, ¬ V v → kept v g g' }.

Lemma worked_refl V g : store_wf g → worked V g g.
Proof. by split. Qed.
Lemma worked_trans V g1 g2 g3 : worked V g1 g2 → worked V g2 g3 → worked V g1 g3.
Proof.
  intros [? ? ? A1] [? ? ? A2]. split; [done|by etransitivity|congruence|].
  intros v Hv. etransitivity; [by apply A1|by apply A2].
Qed.
Lemma worked_mono (V V' : volume_id → Prop) g g' : (∀ v, V v → V' v) → worked V g g' → worked V' g g'.
Proof. intros HV [? ? ? A]. split; [done..|]. intros v Hv. apply A. intros ?. by apply Hv, HV. Qed.
Lemma evolved_worked (V : volume_id → Prop) v g g' : V v → evolved v g g' → worked V g g'.
Proof. intros Hv [? ? ? A]. split; [done..|]. intros v' Hv'. apply A. by intros ->. Qed.

Lemma on_folder_inv {A} (m : St fworld ScanError A) s r s' :
  on_folder m s = (r, s') → ∃ q w, m (MkFworld (graph_of s) (tick_of s)) = (q, w) ∧ graph_of s' = fw_graph w
    ∧ r = map_err FolderScanError q ∧ tick_of s' = fw_tick w.
Proof. unfold on_folder. destruct (m _) as [q w] eqn:Hm. intros [= <- <-]. by exists q, w. Qed.
Lemma on_db_inv {A} (m : St db GraphError A) s r s' :
  on_db m s = (r, s') → ∃ q, m (graph_of s) = (q, graph_of s') ∧ is_ok r = is_ok q.
Proof.
  intros (q & w & Hm & Hg & -> & _)%on_folder_inv. apply on_graph_world_inv in Hm as (q' & Hm & ->). exists q'.
  rewrite Hg. split; [done|]. by destruct q'.
Qed.

Lemma revoke_roots_spec removed batch rebuildable mutations s r s' :
  store_wf (graph_of s) → revoke_roots removed batch rebuildable mutations s = (r, s') →
  worked (λ v, v ∈ rb_volume_id <$> removed) (graph_of s) (graph_of s')
  ∧ namespace (graph_of s') ⊆ namespace (graph_of s)
  ∧ ∀ v, vacant v (graph_of s) ∨ (is_ok r = true ∧ v ∈ rb_volume_id <$> removed) → vacant v (graph_of s').
Proof.
  revert mutations s. induction removed as [|b removed IH]; intros mutations s Hwf H; simpl in H.
  { injection H as <- <-. split; [by apply worked_refl|]. split; [done|]. intros v [|[_ []%elem_of_nil]]; done. }
  apply st_bind_inv in H as [(e & (q & Hq & Hr)%on_db_inv & ->)|(n & s1 & (q & Hq & Hr)%on_db_inv & H)];
    destruct (remove_scoped_root_spec _ _ _ _ _ _ Hwf Hq) as [Hev Hva]; pose proof (remove_scoped_root_shrinks _ _ _ _ _ _ Hwf Hq) as Hsub.
  - split; [eapply evolved_worked; [|exact Hev]; by left|]. split; [done|]. intros v [Hv|[[=] _]].
    destruct (decide (v = rb_volume_id b)) as [->|Hne]; [by apply Hva; right|]. by eapply vacant_kept, Hv; apply Hev.
  - destruct (IH _ _ (ev_wf _ _ _ Hev) H) as (Hw & Hsub2 & Hva2). split; [|split; [by etrans|]].
    + eapply worked_trans; [eapply evolved_worked; [|exact Hev]; by left|]. eapply worked_mono; [|exact Hw]. intros v. by right.
    + intros v Hv. apply Hva2. destruct (decide (v = rb_volume_id b)) as [->|Hne]; [left; apply Hva; left; by rewrite <-Hr|].
      destruct Hv as [Hv|[Hok [->|Hin]%elem_of_cons]]; [left|done|by right]. by eapply vacant_kept, Hv; apply Hev.
Qed.

Abbreviation fenv := (we_folder env).

(** The volumes that the given folders may be bound to. *)
Definition scope_of (roots : list path) v : Prop :=
  ∃ n root prepared, root ∈ roots ∧ prepare_scan_root (fe_root fenv n root) = Ok prepared ∧ vd_volume_id (ps_volume prepared) = v.

(** No folder of [roots] shares its volume with another. *)
Definition scopes_apart (roots : list path) : Prop :=
  ∀ n1 n2 r1 r2 p1 p2, r1 ∈ roots → r2 ∈ roots →
    prepare_scan_root (fe_root fenv n1 r1) = Ok p1 → prepare_scan_root (fe_root fenv n2 r2) = Ok p2 →
    vd_volume_id (ps_volume p1) = vd_volume_id (ps_volume p2) → r1 = r2.

(** The catalog mirrors a scan of the folder: the events are of the folder's volume, the links and the
    checkpoint are the scan's, and if no folder has two links, in the scan or in the graph [g0] before it,
    every link the scan saw has its document. *)
Definition root_mirrored (options : ScopedScanOptions) g0 g (root : path) : Prop :=
  ∃ n prepared o, prepare_scan_root (fe_root fenv n root) = Ok prepared ∧
    let es := scan_events prepared o options (fe_scan fenv (S n) root) in
    Forall (event_ok (vd_volume_id (ps_volume prepared))) es ∧ mirrored prepared es g
    ∧ (steady es g0 → ∀ id, id ∈ link_ids es → documented g id).

Lemma root_mirrored_fewer options g0 g1 g root :
  (∀ n prepared id p, prepare_scan_root (fe_root fenv n root) = Ok prepared →
     fk_volume (place_object p) = vd_volume_id (ps_volume prepared) → namespace g1 !! id = Some p → namespace g0 !! id = Some p) →
  root_mirrored options g1 g root → root_mirrored options g0 g root.
Proof.
  intros Hsub (n & prepared & o & Hprep & Hes & Hm & Hdoc). exists n, prepared, o. split; [done|]. split; [done|]. split; [done|].
  intros Hst. apply Hdoc. eapply steady_fewer; [exact Hes|apply scan_parents_first| |exact Hst]. intros id p. by apply (Hsub n).
Qed.

Lemma root_mirrored_tended options g0 g g' root : tended g g' → root_mirrored options g0 g root → root_mirrored options g0 g' root.
Proof.
  intros Ht (n & prepared & o & Hprep & Hes & Hm & Hdoc). exists n, prepared, o. split; [done|]. split; [done|].
  split; [by eapply mirrored_tended|]. intros Hst id Hid. by eapply documented_tended, Hdoc.
Qed.

Lemma kept_namespace v g g' id p :
  kept v g g' → fk_volume (place_object p) = v → namespace g' !! id = Some p → namespace g !! id = Some p.
Proof.
  intros Hk Hv. unfold namespace. rewrite !lookup_fmap, !fmap_Some. intros (l & Hl & ->). exists l. split; [|done].
  by apply (kp_links _ _ _ Hk).
Qed.

Lemma sync_one_spec root options batch bytes rebuildable s r s' :
  env_typed fenv → store_wf (graph_of s) → (∀ v, unscanned (graph_of s) v) →
  on_folder (sync_scoped_root fenv root options batch bytes rebuildable) s = (r, s') →
  worked (scope_of [root]) (graph_of s) (graph_of s')
  ∧ ∀ sum, r = Ok sum → sr_complete sum = true → ∃ n prepared,
      prepare_scan_root (fe_root fenv n root) = Ok prepared
      ∧ ∀ g', store_wf g' → kept (vd_volume_id (ps_volume prepared)) (graph_of s') g' → root_mirrored options (graph_of s) g' root.
Proof.
  intros Henv Hwf Hq (q & w & Hrun & Hg & -> & _)%on_folder_inv. rewrite Hg.
  destruct (prepare_scan_root (fe_root fenv (tick_of s) root)) as [prepared|e] eqn:Hprep.
  - destruct (sync_scoped_root_spec fenv root options batch bytes rebuildable (MkFworld (graph_of s) (tick_of s))
      _ _ prepared Henv Hwf Hprep (Hq _) Hrun) as [Hev Hdone].
    split.
    + eapply evolved_worked; [|exact Hev]. exists (tick_of s), root, prepared. split; [by left|done].
    + intros sum Hsum%map_err_Ok Hc. destruct (Hdone sum Hsum Hc) as (o & _ & Hes & Hpf & Hm & Hca).
      exists (tick_of s), prepared. split; [done|]. intros g' Hwf' Hk. exists (tick_of s), prepared, o. split; [done|]. split; [done|].
      split; [by eapply mirrored_kept|]. intros Hst id. eapply catalogued_documented; [exact Hes|exact Hpf|apply Hst|done|].
      eapply catalogued_kept; [intros id' p; by apply scanned_tree_volume|apply Hev|done|done|by apply Hca].
  - destruct (sync_unprepared fenv root options batch bytes rebuildable (MkFworld (graph_of s) (tick_of s)) _ _ _ Hprep Hrun) as [-> ->].
    split; [by apply worked_refl|done].
Qed.

Lemma sync_roots_spec roots options batch bytes rebuildable events mutations s r s' :
  env_typed fenv → store_wf (graph_of s) → (∀ v, unscanned (graph_of s) v) →
  sync_roots env roots options batch bytes rebuildable events mutations s = (r, s') →
  worked (scope_of roots) (graph_of s) (graph_of s')
  ∧ ∀ n k, r = Ok (n, k, true) → NoDup roots → scopes_apart roots →
      ∀ root, root ∈ roots → root_mirrored options (graph_of s) (graph_of s') root.
Proof.
  intros Henv. revert events mutations s. induction roots as [|root roots IH]; intros events mutations s Hwf Hq H; simpl in H.
  { injection H as <- <-. split; [by apply worked_refl|]. by intros n k _ _ _ root ?%elem_of_nil. }
  assert (∀ v, scope_of [root] v → scope_of (root :: roots) v) as Hhead.
  { intros v (n & r' & p & ->%list_elem_of_singleton & Hp). exists n, root, p. split; [by left|done]. }
  assert (∀ v, scope_of roots v → scope_of (root :: roots) v) as Htail.
  { intros v (n & r' & p & Hr & Hp). exists n, r', p. split; [by right|done]. }
  apply st_bind_inv in H as [(e & He & ->)|(sum & s1 & H1 & H)].
  { destruct (sync_one_spec _ _ _ _ _ _ _ _ Henv Hwf Hq He) as [Hw _]. split; [exact (worked_mono _ _ _ _ Hhead Hw)|done]. }
  destruct (sync_one_spec _ _ _ _ _ _ _ _ Henv Hwf Hq H1) as [Hw1 Hdone]. pose proof (worked_mono _ _ _ _ Hhead Hw1) as Hw1'.
  destruct (sr_complete sum) eqn:Hc.
  - assert (∀ v, unscanned (graph_of s1) v) as Hq1 by (intros v; eapply unscanned_ext; [apply Hw1|apply Hq]).
    apply (IH _ _ _ (wk_wf _ _ _ Hw1) Hq1) in H as [Hw2 Hall].
    split; [eapply worked_trans; [exact Hw1'|exact (worked_mono _ _ _ _ Htail Hw2)]|].
    intros n k Hr [Hnin Hnd]%NoDup_cons Hap x [->|Hx]%elem_of_cons.
    + destruct (Hdone sum eq_refl Hc) as (t & prepared & Hprep & Hm). apply Hm; [apply Hw2|].
      apply (wk_kept _ _ _ Hw2). intros (n2 & r2 & p2 & Hr2 & Hp2 & Hv).
      destruct Hnin. rewrite (Hap t n2 root r2 prepared p2); [done|by left|by right|done..].
    + eapply root_mirrored_fewer; [|eapply Hall; [done|done| |done]; intros n1 n2 r1 r2 p1 p2 ? ?; apply Hap; by right].
      intros n' prepared id p Hprep Hv. eapply kept_namespace; [|done]. apply (wk_kept _ _ _ Hw1).
      intros (n2 & r2 & p2 & ->%list_elem_of_singleton & Hp2 & Hv2). destruct Hnin.
      rewrite (Hap n2 n' root x p2 prepared); [done|by left|by right|done..].
  - injection H as <- <-. done.
Qed.

Lemma bind_roots_spec roots s r s' : bind_roots env roots s = (r, s') →
  graph_of s' = graph_of s ∧ ∀ l, r = Ok l → rb_root <$> l = we_text env <$> roots.
Proof.
  revert s r s'. induction roots as [|root roots IH]; intros s r s' H; simpl in H; [injection H as <- <-; split; [done|by intros l [= <-]]|].
  apply st_bind_inv in H as [(e & He & ->)|(view & s1 & Hv & H)]; [done|]. injection Hv as <- <-.
  apply st_bind_inv in H as [(e & He & ->)|(p & s1 & Hp & H)]; [by injection He as _ <-|]. injection Hp as _ <-.
  apply st_bind_inv in H as [(e & He & ->)|(rest & s1 & Hr & H)]; [by destruct (IH _ _ _ He)|].
  destruct (IH _ _ _ Hr) as [Hg Hl]. injection H as <- <-. split; [done|]. intros l [= <-]. rewrite !fmap_cons. by rewrite (Hl _ eq_refl).
Qed.

(** The rest of [folder_sync] once the folders are scanned leaves where documents and links are. *)
Lemma tended_graph {A} (m : St fstate FolderError A) s r s' : leaves tended m → m s = (r, s') → tended (graph_of s) (graph_of s').
Proof. intros Hm H. specialize (Hm s). by rewrite H in Hm. Qed.

Lemma leaves_roots_file outcome bytes : leaves tended (put_roots_file outcome bytes).
Proof. intros s. unfold put_roots_file. by destruct (write_file _ _ _). Qed.
Lemma leaves_manifest outcome bytes : leaves tended (put_manifest outcome bytes).
Proof. intros s. unfold put_manifest. by destruct (write_file _ _ _). Qed.

(** Steps before the first transaction: the graph and the manifest stay. *)
Definition untouched s s' : Prop := graph_of s' = graph_of s ∧ ft_manifest s' = ft_manifest s.

Lemma ask_inv {A} (f : nat → A) s a s' : ask_env f s = (Ok a, s') → a = f (tick_of s) ∧ untouched s s'.
Proof. by intros [= <- <-]. Qed.
Lemma answer_inv {A} (f : nat → result GraphError A) s a s' : graph_answer f s = (Ok a, s') → untouched s s'.
Proof. intros (x & s1 & [_ H1]%ask_inv & [_ ->]%st_lift_Ok)%st_bind_Ok. done. Qed.
Lemma manager_inv {A} (m : St gstate ContentIndexError A) s a s' : on_manager m s = (Ok a, s') → untouched s s'.
Proof.
  unfold on_manager, on_project, on_files. destruct (m _) as [q f]. by intros [= _ <-].
Qed.
Lemma open_content_inv requested s x s' : open_content env requested s = (Ok x, s') → untouched s s'.
Proof.
  intros (legacy & s1 & [= <- <-] & H)%st_bind_Ok. destruct (direct_marker _); [by injection H as _ <-|].
  apply st_bind_Ok in H as ([] & s1 & [H1 M1]%manager_inv & H).
  apply st_bind_Ok in H as (b & s2 & [H2 M2]%manager_inv & H). apply st_bind_Ok in H as (a & s3 & [H3 M3]%manager_inv & [_ ->]%st_ret_Ok).
  split; congruence.
Qed.

Lemma previous_inv s x s' : previous_manifest s = (Ok x, s') →
  s' = s ∧ ∀ bytes, df_plain (ft_manifest s) = Some bytes → x = parse_manifest bytes ∧ is_Some x.
Proof.
  intros (file & s1 & [= <- <-] & H)%st_bind_Ok. destruct (df_plain (ft_manifest s)) as [bytes|].
  - apply st_bind_Ok in H as (m & s1 & [Hm%ok_or_Ok ->]%st_lift_Ok & [-> ->]%st_ret_Ok). split; [done|]. intros b [= <-]. by split; [|exists m].
  - apply st_ret_Ok in H as [_ ->]. done.
Qed.

Lemma see_inv {A} (f : fstate → A) s a s' : see f s = (Ok a, s') → a = f s ∧ s' = s.
Proof. by intros [= <- <-]. Qed.

(** The folders of the previous manifest that are not selected any more. *)
Lemma elem_of_revoked previous current b :
  b ∈ revoked_roots previous current ↔ b ∈ previous ∧ rb_root b ∉ rb_root <$> current.
Proof. unfold revoked_roots. rewrite list_elem_of_filter. naive_solver. Qed.

(** [folder_sync] from the revocation on: what it selects, revokes and scans. *)
Lemma scans_spec (deferred full rebuildable : bool) roots options batch bytes removed s r s' :
  env_typed fenv → store_wf (graph_of s) → (∀ v, unscanned (graph_of s) v) →
  (if deferred || full then mret (0%Z, removed, false)
   else sync_roots env roots options batch bytes rebuildable 0 removed) s = (Ok r, s') →
  worked (scope_of roots) (graph_of s) (graph_of s')
  ∧ (r.2 = true → NoDup roots → scopes_apart roots →
       ∀ root, root ∈ roots → root_mirrored options (graph_of s) (graph_of s') root).
Proof.
  intros Henv Hwf Hq H. destruct (_ || _).
  - apply st_ret_Ok in H as [-> ->]. split; [by apply worked_refl|done].
  - destruct (sync_roots_spec _ _ _ _ _ _ _ _ _ _ Henv Hwf Hq H) as [Hw Hall]. split; [done|].
    destruct r as [[n k] c]. simpl. intros ->. by eapply Hall.
Qed.

(** Splits off the next step of a command that succeeded. *)
Tactic Notation "next" hyp(H) simple_intropattern(a) simple_intropattern(s1) simple_intropattern(Hs) :=
  apply st_bind_Ok in H as (a & s1 & Hs & H).

Lemma policy_roots_NoDup fs roots max policy : policy_new fs roots max = Ok policy → NoDup (cip_roots policy).
Proof.
  intros (? & _ & H)%result_bind_Ok. apply result_bind_Ok in H as (ps & _ & H).
  apply result_bind_Ok in H as (? & _ & [= <-]). apply canonical_roots_NoDup.
Qed.

(** C14 (a workspace follows its folders): when [folder_sync] succeeds, no document of a folder that the
    previous manifest listed and that is not selected any more is left in the desired catalog, provided
    that no selected folder has the volume of the removed one; and when it also reports a complete scan,
    then for every selected folder the catalog holds no document of the folder that its scan did not see,
    the graph holds every link the scan saw with the object, parent and name it was last seen with, and the
    checkpoint is the scan's, provided that no two selected folders have the same volume; and where no two
    entries of that scan share an identifier and no folder with entries has two links, in the scan or in
    the graph before the command (no folder was renamed or moved since the last scan;
    [renamed_folder_loses_entries] shows what happens otherwise), the catalog holds
    the document of every link the scan saw, with its name, its path and what the graph says of it, except
    for links more than [PATH_DEPTH] levels deep.  All this is so after the content index has been brought
    up to date and the graph compacted.  The database is well formed, no observation session is open in
    it, and the sizes that the operating system answers are u64. *)
Theorem folder_sync_follows roots max_file generated batch bytes limits custom s sum s' policy :
  env_typed fenv → store_wf (graph_of s) → (∀ v, unscanned (graph_of s) v) →
  policy_new (we_sources env (tick_of s)) roots max_file = Ok policy →
  folder_sync env roots max_file generated batch bytes limits custom s = (Ok sum, s') →
  fy_roots sum = root_texts env policy
  ∧ (∀ manifest previous b, df_plain (ft_manifest s) = Some manifest → parse_manifest manifest = Some previous →
       b ∈ wm_scoped_roots previous → rb_root b ∉ fy_roots sum → ¬ scope_of (cip_roots policy) (rb_volume_id b) →
       vacant (rb_volume_id b) (graph_of s'))
  ∧ (fy_scan_complete sum = true → scopes_apart (cip_roots policy) →
       ∀ root, root ∈ cip_roots policy →
         root_mirrored (excluding (exclusions generated custom)) (graph_of s) (graph_of s') root).
Proof.
  intros Henv Hwf Hq Hpol H. unfold folder_sync in H.
  next H sources s1 H1. apply ask_inv in H1 as [-> [Hg1 Hm1]].
  next H policy' s2 H2. apply st_lift_Ok in H2 as [Hp%map_err_Ok ->]. rewrite Hpol in Hp. injection Hp as <-.
  next H u1 s2 H2. apply st_lift_Ok in H2 as [_ ->]. next H u2 s2 H2. apply st_lift_Ok in H2 as [_ ->].
  next H ws s2 H2. apply ask_inv in H2 as [_ [Hg2 Hm2]]. next H ws' s3 H3. apply st_lift_Ok in H3 as [_ ->].
  next H u3 s3 H3. apply st_lift_Ok in H3 as [_ ->].
  next H previous s3 H3. apply previous_inv in H3 as [-> Hprev]. rewrite Hm2, Hm1 in Hprev.
  next H x s3 H3. apply open_content_inv in H3 as [Hg3 _]. destruct x as [[legacy deferred] active].
  next H u4 s4 H4. apply answer_inv in H4 as [Hg4 _].
  next H rebuildable s5 H5. apply see_inv in H5 as [_ ->].
  next H scoped s5 H5. apply bind_roots_spec in H5 as [Hg5 Htexts]. specialize (Htexts _ eq_refl).
  assert (graph_of s5 = graph_of s) as Hg by congruence. rewrite <-Hg in Hwf, Hq. clear Hg1 Hg2 Hg3 Hg4 Hg5 Hm1 Hm2.
  next H removed s6 H6. destruct (revoke_roots_spec _ _ _ _ _ _ _ Hwf H6) as (Hw6 & Hsub6 & Hva).
  next H pressure s7 H7. apply (tended_graph _ _ _ _ (leaves_still _ (still_pressure fenv))) in H7 as Ht7.
  assert (graph_of s7 = graph_of s6) as Hg7.
  { unfold on_folder in H7. destruct (graph_storage_pressure_bytes _ _) as [q w] eqn:Hw; apply pressure_graph in Hw. by injection H7 as _ <-. }
  next H y s8 H8. rewrite <-Hg7 in Hw6, Hva, Hsub6.
  assert (∀ v, unscanned (graph_of s7) v) as Hq7 by (intros v; eapply unscanned_ext; [apply Hw6|apply Hq]).
  apply (scans_spec _ _ _ _ _ _ _ _ _ _ _ Henv (wk_wf _ _ _ Hw6) Hq7) in H8 as [Hw8 Hmir].
  destruct y as [[events mutations] scanned]. simpl in Hmir.
  assert (tended (graph_of s8) (graph_of s')) as Ht.
  { refine (tended_graph _ _ _ _ _ H). leave; try apply leaves_still, still_bytes; try apply leaves_still, still_pressure.
    - apply content_stage_tended.
    - case_match; [|leave]. apply leaves_fmap, compaction_tended.
    - apply leaves_roots_file.
    - apply leaves_manifest. }
  assert (fy_roots sum = root_texts env policy ∧ fy_scan_complete sum = scanned) as [Hroots Hcomplete].
  { clear - H. do 2 next H ? ? ?. next H z ? ?. destruct z as [[mode sequence] complete].
    do 9 next H ? ? ?. by apply st_ret_Ok in H as [-> _]. }
  split; [done|]. split.
  - intros manifest prev b Hman Hparse Hb Hnot Hscope. eapply vacant_tended; [exact Ht|].
    eapply vacant_kept; [by apply (wk_kept _ _ _ Hw8)|]. apply Hva. right. split; [done|].
    destruct (Hprev _ Hman) as [-> _]. rewrite Hparse. apply list_elem_of_fmap. exists b. split; [done|].
    apply elem_of_revoked. split; [done|]. rewrite Htexts. by rewrite Hroots in Hnot.
  - intros Hc Hap root Hroot. rewrite Hcomplete in Hc. eapply root_mirrored_tended; [exact Ht|].
    eapply root_mirrored_fewer; [|by apply (Hmir Hc (policy_roots_NoDup _ _ _ _ Hpol) Hap root Hroot)].
    intros n p id q _ _ Hid. rewrite <-Hg. by eapply lookup_weaken.
Qed.
End commands.
