(* ===== verification/FolderFixtures.v ===== *)
(** A content workspace with two folders, one of which is deselected: the witnesses of the theorems on
    selected folders, and where synchronising them stops working. *)
From Stdlib Require Import Ascii String.
From stdpp Require Import base strings numbers gmap list sorting relations.
From S2P Require Import Prelude Ids Order Models GraphDomain GraphTables Fixtures GraphMutate GraphProjection GraphStore GraphOutbox.
From S2P Require Import GraphInvariant GraphReach GraphSync GraphConverge.
From S2P Require Import Text Catalog KeyedIndex CatalogSpec CatalogFixtures Content ContentText ContentSpec.
From S2P Require Import ContentGuarantees ContentFixtures DurableJson Generations GenerationsSpec GenerationsFixtures.
From S2P Require Import ContentProject ContentProjectSpec ContentProjectFixtures Platform Crawl CrawlSpec.
From S2P Require Import FolderScan FolderScanSpec FolderSync FolderSyncSpec.

(** ** The machine *)

Definition folder_meta : NativeMetadata := MkNativeMetadata true false false 0 EPOCH EPOCH 16.
Definition text_meta (size : Z) : NativeMetadata := MkNativeMetadata false false true size EPOCH EPOCH 32.
Definition text_entry (index : N) (size : Z) (name : string) : entry_view := EntryOk index (text_meta size) name (Ok []).

Definition c_drive : NativeVolume := MkNativeVolume descriptor "C:".
Definition view_of (identity : N) (root : list string) : root_view := {|
  rv_canonical := Ok (MkOsPath (String.concat "/" root) root);
  rv_is_dir := true;
  rv_volumes := Ok [(c_drive, Some (MkOsPath "" []))];
  rv_identity := Ok identity |}.
Definition tree_of (entries : list entry_view) : scan_env := {|
  se_open := Ok tt;
  se_before := Err (internal "no journal");
  se_root_identity := Ok 1%N;
  se_root_metadata := Ok folder_meta;
  se_root := Ok entries;
  se_after := Err (internal "no journal") |}.

Definition folder_env (docs : list entry_view) : FolderEnv := {|
  fe_pragmas _ := Ok (MkPragmas 4096 10 2 2);
  fe_file_length _ _ := Some (Some 4096%Z);
  fe_root _ root := view_of (if decide (root = ["docs"]) then 100 else 200)%N root;
  fe_scan _ root := if decide (root = ["docs"]) then tree_of docs else tree_of [text_entry 21 5 "m.txt"] |}.

Definition docs_entries : list entry_view := [text_entry 11 7 "a.txt"; text_entry 12 9 "b.txt"].
Definition scan_fenv : FolderEnv := folder_env docs_entries.
Definition mail_prepared : PreparedScopedScan := Eval vm_compute in
  match prepare_scan_root (fe_root scan_fenv 0 ["mail"]) with Ok p => p | Err _ => MkPreparedScopedScan "" descriptor (key 0) end.
Definition docs_prepared : PreparedScopedScan := Eval vm_compute in
  match prepare_scan_root (fe_root scan_fenv 0 ["docs"]) with Ok p => p | Err _ => MkPreparedScopedScan "" descriptor (key 0) end.
Definition mail_volume : volume_id := Eval vm_compute in vd_volume_id (ps_volume mail_prepared).
Definition docs_volume : volume_id := Eval vm_compute in vd_volume_id (ps_volume docs_prepared).

Lemma scan_fenv_typed : env_typed scan_fenv.
Proof.
  intros n root. unfold scan_fenv, folder_env. cbn [fe_scan].
  destruct (decide (root = ["docs"])); (split; [intros m [= <-]|repeat constructor]; cbn; unfold in_u64, u64_max; lia).
Qed.

(** The mail folder is scanned into an empty graph. *)
Definition mail_run := sync_scoped_root scan_fenv ["mail"] default_options 2 1000000 true (MkFworld empty_db 0).
Definition mail_db : db := fw_graph mail_run.2.

Lemma empty_unscanned (v : volume_id) : unscanned empty_db v.
Proof. reflexivity. Qed.

Lemma mail_evolved : evolved mail_volume empty_db mail_db.
Proof.
  exact (proj1 (sync_scoped_root_spec scan_fenv ["mail"] default_options 2 1000000 true (MkFworld empty_db 0) mail_run.2 mail_run.1
    mail_prepared scan_fenv_typed store_wf_empty eq_refl (empty_unscanned _) (surjective_pairing _))).
Qed.

(** Checks the side conditions of [fresh_steady] by evaluation. *)
Ltac evaluate_steady := apply fresh_steady; refine (bool_decide_unpack _ _); vm_compute; exact I.

(** Scanning the folder mirrors it: the catalog holds its two documents, and they are those of the links
    that the scan saw. *)
Lemma sync_scoped_root_mirrors_witness :
  (∃ sum, mail_run.1 = Ok sum ∧ sr_complete sum = true) ∧ length (map_to_list (documents mail_db)) = 2
  ∧ ∃ o, let es := scan_events mail_prepared o default_options (fe_scan scan_fenv 1 ["mail"]) in
      mirrored mail_prepared es mail_db ∧ length (link_ids es) = 2 ∧ ∀ id, id ∈ link_ids es → documented mail_db id.
Proof.
  assert (ok_value mail_run.1 = Some (MkScopedRootSyncSummary 4 7 true)) as Hs by (vm_compute; reflexivity).
  destruct mail_run.1 as [sum|e] eqn:Hr; [|discriminate Hs]. injection Hs as ->.
  split; [exact (ex_intro _ (MkScopedRootSyncSummary 4 7 true) (conj eq_refl eq_refl))|]. split; [vm_compute; reflexivity|].
  destruct (proj2 (sync_scoped_root_mirrors scan_fenv ["mail"] default_options 2 1000000 true (MkFworld empty_db 0) mail_run.2
    mail_run.1 mail_prepared scan_fenv_typed store_wf_empty eq_refl (empty_unscanned _) (surjective_pairing _))
    (MkScopedRootSyncSummary 4 7 true) Hr eq_refl) as (o & _ & Hm & Hdoc).
  exists o. split; [exact Hm|]. split; [vm_compute; reflexivity|]. apply Hdoc. evaluate_steady.
Defined.

(** Revoking it again leaves no document. *)
Definition revoked := remove_scoped_root mail_volume 2 false mail_db.
Lemma remove_scoped_root_revokes_witness :
  is_ok revoked.1 = true ∧ documents revoked.2 = ∅ ∧ vacant mail_volume revoked.2.
Proof.
  assert (is_ok revoked.1 = true) as Hok by (vm_compute; reflexivity).
  split; [exact Hok|]. split; [vm_compute; reflexivity|].
  exact (proj2 (remove_scoped_root_revokes mail_volume 2 false mail_db revoked.2 revoked.1 (ev_wf _ _ _ mail_evolved)
    (surjective_pairing _)) (or_introl Hok)).
Defined.

(** Other transactions leave the content index of the sample workspace on track. *)
Definition pruned : result GraphError (unit * db) := GraphReach.run_op OpPruneConsumedOutbox renamed_db.
Lemma content_stays_on_track_witness :
  ∃ g, pruned = Ok (tt, g) ∧ content_on_track (ge_files rename_env) docs_policy (gs_tick built) g held_contents.
Proof.
  assert (is_ok pruned = true) as Hok by (vm_compute; reflexivity).
  destruct pruned as [[[] g]|e] eqn:Hp; [|discriminate Hok].
  exists g. split; [reflexivity|].
  exact (content_stays_on_track (ge_files rename_env) docs_policy (gs_tick built) renamed_db g held_contents OpPruneConsumedOutbox
    renamed_wf renamed_on_track I I Hp).
Defined.

(** ** A workspace *)

Definition limits_tuple (l : ContentGenerationLimits) : list Z :=
  [max_content_index_bytes l; max_documents l; min_free_disk_bytes l; min_free_disk_percent l;
   batch_documents l; limit_maximum_batches l].
Definition limits_from_tuple (l : list Z) : option ContentGenerationLimits :=
  match l with [a; b; c; d; e; f] => Some (MkContentGenerationLimits a b c d e f) | _ => None end.

Global Instance manifest_codec : JsonCodec ContentWorkspaceManifest := {|
  to_value m :=
    [token (wm_version m); token (wm_roots m); token (wm_max_file_bytes m); token (wm_include_generated m);
     token (wm_excluded_directories m); token (wm_scan_batch_size m); token (wm_max_graph_bytes m);
     token (limits_tuple (wm_limits m)); token ((λ b, (rb_root b, rb_volume_id b)) <$> wm_scoped_roots m)];
  from_value l :=
    match l with
    | [a; b; c; d; e; f; g; h; i] =>
        a ← from_token a; b ← from_token b; c ← from_token c; d ← from_token d; e ← from_token e;
        f ← from_token f; g ← from_token g; h ← from_token h ≫= limits_from_tuple; i ← from_token i;
        Some (MkContentWorkspaceManifest a b c d e f g h ((λ p, MkScopedRootBinding p.1 p.2) <$> (i : list (string * N))))
    | _ => None
    end |}.
Global Instance manifest_codec_laws : JsonCodecLaws ContentWorkspaceManifest.
Proof.
  intros [? ? ? ? ? ? ? [] l]. cbn -[token from_token]. rewrite !from_token_token. cbn -[token from_token].
  rewrite <-list_fmap_compose. do 2 f_equal. induction l as [|[] l IH]; [done|]. cbn. by f_equal.
Qed.

Definition workspace_files : SourceFs := {|
  canonicalize p := if decide (p = "docs") then Some ["docs"] else if decide (p = "docs/a.txt") then Some ["docs"; "a.txt"] else None;
  is_dir p := bool_decide (p = ["docs"]);
  file_metadata p := if decide (p = ["docs"; "a.txt"]) then Some (true, 7%Z) else None;
  file_bytes p := if decide (p = ["docs"; "a.txt"]) then Some (string_bytes "content") else None |}.
Definition workspace_gen : GenEnv := {|
  ge_clock n := Z.of_nat n;
  ge_disk _ := Ok (MkDiskSpace (10 ^ 12) (10 ^ 11));
  ge_bytes _ := Ok 100%Z;
  ge_write n := Written;
  ge_create _ := Created;
  ge_make_dir _ := true;
  ge_remove _ := None;
  ge_graph n := empty_db;
  ge_files _ _ := workspace_files;
  ge_crash_after := None |}.
Definition workspace_env : WorkspaceEnv := {|
  we_folder := scan_fenv;
  we_gen := workspace_gen;
  we_sources _ := workspace_files;
  we_workspace _ := Some ["workspace"];
  we_text := String.concat "/";
  we_open _ := Ok tt;
  we_measure _ := Ok tt;
  we_write _ := Written;
  we_to_vec_pretty l := l;
  we_roots_json l := [token l];
  we_graph_file _ := true;
  we_content_tree _ := (true, Some [OwnedFile 100; OwnedOther]);
  we_content_exists _ := true;
  we_remove_content _ := None |}.

(** The previous run selected the mail folder. *)
Definition mail_manifest : ContentWorkspaceManifest :=
  MkContentWorkspaceManifest 2 ["mail"] 64 false [] 2 1000000 sample_limits [MkScopedRootBinding "mail" mail_volume].
Definition mail_workspace : fstate :=
  MkFstate (MkPstate mail_db fresh_root) (MkDurableFile None None (Some (to_value mail_manifest))) None.
Definition workspace_run := folder_sync workspace_env ["docs"] 64 false 2 1000000 sample_limits [] mail_workspace.

Lemma workspace_quiet (v : volume_id) : unscanned mail_db v.
Proof. eapply unscanned_ext; [exact (ev_sessions _ _ _ mail_evolved)|exact (empty_unscanned v)]. Qed.

Definition workspace_policy : ContentIndexPolicy := MkContentIndexPolicy [["docs"]] built_in_extensions 64.

Lemma docs_scope (v : volume_id) : scope_of workspace_env [["docs"]] v → v = docs_volume.
Proof.
  intros (n & root & p & ->%list_elem_of_singleton & Hp & <-). apply (f_equal ok_value) in Hp. vm_compute in Hp.
  injection Hp as <-. vm_compute. reflexivity.
Qed.
Lemma docs_apart : scopes_apart workspace_env [["docs"]].
Proof. intros n1 n2 r1 r2 p1 p2 ->%list_elem_of_singleton ->%list_elem_of_singleton _ _ _. reflexivity. Qed.

(** The mail folder is deselected and the documents folder selected: the catalog is the new folder. *)
Lemma folder_sync_follows_witness :
  (fy_roots <$> ok_value workspace_run.1) = Some ["docs"]
  ∧ length (map_to_list (documents (ps_graph (ft_project workspace_run.2)))) = 3
  ∧ vacant mail_volume (ps_graph (ft_project workspace_run.2))
  ∧ ∃ o, let es := scan_events docs_prepared o (excluding (exclusions false [])) (fe_scan scan_fenv 1 ["docs"]) in
      mirrored docs_prepared es (ps_graph (ft_project workspace_run.2)) ∧ length (link_ids es) = 3
      ∧ ∀ id, id ∈ link_ids es → documented (ps_graph (ft_project workspace_run.2)) id.
Proof.
  assert ((λ r, (fy_roots r, fy_scan_complete r)) <$> ok_value workspace_run.1 = Some (["docs"], true)) as Hs by (vm_compute; reflexivity).
  assert (∀ r, workspace_run.1 = r → workspace_run = (r, workspace_run.2)) as Hpair
    by (intros r <-; exact (surjective_pairing _)).
  destruct workspace_run.1 as [sum|e] eqn:Hr; [|discriminate Hs]. specialize (Hpair _ eq_refl). injection Hs as Hroots Hcomplete.
  split; [exact (f_equal Some Hroots)|]. split; [vm_compute; reflexivity|].
  destruct (folder_sync_follows workspace_env ["docs"] 64 false 2 1000000 sample_limits [] mail_workspace sum workspace_run.2
    workspace_policy scan_fenv_typed (ev_wf _ _ _ mail_evolved) workspace_quiet eq_refl Hpair) as (_ & Hrev & Hmir).
  split.
  - refine (Hrev (to_value mail_manifest) mail_manifest (MkScopedRootBinding "mail" mail_volume) eq_refl (value_roundtrip mail_manifest) _ _ _).
    + exact (list_elem_of_here _ _).
    + rewrite Hroots. intros Hin%list_elem_of_singleton. discriminate Hin.
    + intros Hv%docs_scope. revert Hv. vm_compute. discriminate.
  - destruct (Hmir Hcomplete docs_apart ["docs"] (list_elem_of_here _ _)) as (n & p & o & Hp & _ & Hm & Hdoc).
    apply (f_equal ok_value) in Hp. assert (p = docs_prepared) as -> by (vm_compute in Hp; injection Hp as <-; reflexivity).
    exists o. split; [exact Hm|]. split; [vm_compute; reflexivity|]. apply Hdoc. evaluate_steady.
Defined.

(** ** Where synchronising selected folders stops working *)

(** A file is replaced by another of the same name: another file identifier, the same link identifier. *)
Definition before_env : FolderEnv := folder_env [text_entry 11 7 "a.txt"].
Definition after_env : FolderEnv := folder_env [text_entry 13 7 "a.txt"].
Definition docs_sync (env : FolderEnv) := sync_scoped_root env ["docs"] default_options 100 1000000 false.
Definition first_sync := docs_sync before_env (MkFworld empty_db 0).
Definition replaced_sync := docs_sync after_env first_sync.2.
Definition repeated_sync := docs_sync after_env replaced_sync.2.
Definition catalog_objects (w : fworld) : list N := (λ r, fk_file (d_object r.2)) <$> map_to_list (documents (fw_graph w)).
Definition rebound : ScanError := ScanGraph (Invariant "a file-link ID cannot be rebound to another object").

(** The folder is synchronised, the file is replaced, and synchronising fails; doing it again fails
    again, and the catalog keeps the file that is gone. *)
Theorem replaced_file_blocks_sync :
  is_ok first_sync.1 = true ∧ replaced_sync.1 = Err rebound ∧ repeated_sync.1 = Err rebound
  ∧ catalog_objects first_sync.2 = [11%N; 100%N] ∧ catalog_objects repeated_sync.2 = [11%N; 100%N].
Proof. vm_compute. done. Qed.

(** A folder is renamed: the same folder, another link identifier. *)
Definition nested_env (name : string) : FolderEnv :=
  folder_env [EntryOk 11 folder_meta name (Ok [text_entry 12 7 "a.txt"])].
Definition named_sync := docs_sync (nested_env "old") (MkFworld empty_db 0).
Definition renamed_sync := docs_sync (nested_env "new") named_sync.2.
Definition again_sync := docs_sync (nested_env "new") renamed_sync.2.
Definition catalog_paths (w : fworld) : gset string := list_to_set (omap (λ r, d_path r.2) (map_to_list (documents (fw_graph w)))).

(** While the new link of the folder is stored the old one is still there, so the paths of its entries
    are ambiguous and their documents are dropped; the old link is removed afterwards, which leaves a
    refresh of the folder pending, but synchronising ends as a complete scan without the documents.
    Synchronising again brings them back. *)
Theorem renamed_folder_loses_entries :
  (sr_complete <$> ok_value named_sync.1) = Some true
  ∧ catalog_paths named_sync.2 = {["docs"; "docs/old"; "docs/old/a.txt"]}
  ∧ (sr_complete <$> ok_value renamed_sync.1) = Some true ∧ catalog_paths renamed_sync.2 = {["docs"; "docs/new"]}
  ∧ length (map_to_list (path_jobs (fw_graph renamed_sync.2))) = 1
  ∧ catalog_paths again_sync.2 = {["docs"; "docs/new"; "docs/new/a.txt"]}.
Proof. vm_compute. done. Qed.

(** A manifest that was only partly written. *)
Section manifest.
Context `{TV : Tantivy} `{T : TextEnv} `{CE : !ContentEnv} `{!StoreLaws E} `{TL : !TantivyLaws}.
Context `{J : JsonEnv} `{RC : !JsonCodec ContentGenerationRecord} `{PC : !JsonCodec ActiveGenerationPointer}.
Context `{WC : !JsonCodec ContentWorkspaceManifest}.
Context (env : WorkspaceEnv).

(** Unreadable manifest: while the manifest cannot be parsed, [folder_sync] fails, whatever is asked
    for; it leaves the graph, the content root and the manifest as they are. *)
Theorem unreadable_manifest_blocks_sync roots max_file generated batch bytes limits custom s r s' manifest :
  df_plain (ft_manifest s) = Some manifest → parse_manifest manifest = None →
  folder_sync env roots max_file generated batch bytes limits custom s = (r, s') →
  is_ok r = false ∧ ft_manifest s' = ft_manifest s ∧ ps_graph (ft_project s') = ps_graph (ft_project s)
  ∧ gs_root (ps_files (ft_project s')) = gs_root (ps_files (ft_project s)).
Proof.
  intros Hman Hparse H. unfold folder_sync in H.
  apply st_bind_inv in H as [(e & He & ->)|(sources & s1 & Hs & H)]; [done|]. injection Hs as <- <-.
  do 3 (apply st_bind_inv in H as [(e & He & ->)|(? & s1 & Hs & H)]; [by injection He as _ <-|]; injection Hs as _ <-).
  apply st_bind_inv in H as [(e & He & ->)|(ws & s1 & Hs & H)]; [done|]. injection Hs as <- <-.
  do 2 (apply st_bind_inv in H as [(e & He & ->)|(? & s1 & Hs & H)]; [by injection He as _ <-|]; injection Hs as _ <-).
  apply st_bind_inv in H as [(e & He & ->)|(previous & s1 & Hs & H)].
  - unfold previous_manifest in He. apply st_bind_inv in He as [(e' & He' & [= ->])|(file & s1 & Hs & He)]; [done|].
    injection Hs as <- <-. simpl in He. rewrite Hman in He.
    apply st_bind_inv in He as [(e' & He' & [= ->])|(? & s1 & Hs & He)]; [by injection He' as _ <-|].
    injection Hs as Hs _. by rewrite Hparse in Hs.
  - exfalso. unfold previous_manifest in Hs. apply st_bind_Ok in Hs as (file & s2 & [= <- <-] & Hs). simpl in Hs. rewrite Hman in Hs.
    apply st_bind_Ok in Hs as (m & s2 & [Hm%ok_or_Ok _]%st_lift_Ok & _). by rewrite Hparse in Hm.
Qed.
End manifest.

(** The write of the manifest stops after four numbers; the next run cannot start. *)
Definition manifest_bytes : list N := value_to_vec (to_value mail_manifest).
Definition torn_manifest : DurableFile := MkDurableFile None None (Some (take 4 manifest_bytes)).
Definition torn_workspace : fstate := MkFstate (ft_project mail_workspace) torn_manifest None.
Definition torn_run := folder_sync workspace_env ["docs"] 64 false 2 1000000 sample_limits [] torn_workspace.
Lemma unreadable_manifest_blocks_sync_witness :
  is_ok torn_run.1 = false ∧ ft_manifest torn_run.2 = torn_manifest
  ∧ torn_manifest = MkDurableFile None None (write_file (TornAt 4) manifest_bytes None).1.
Proof.
  destruct (unreadable_manifest_blocks_sync (WC := manifest_codec) workspace_env ["docs"] 64 false 2 1000000 sample_limits [] torn_workspace torn_run.1
    torn_run.2 (take 4 manifest_bytes) eq_refl eq_refl (surjective_pairing _)) as (Hr & Hm & _).
  split; [exact Hr|]. split; [exact Hm|reflexivity].
Defined.
