(* ===== verification/FolderCli.v ===== *)
(** The command line of a content workspace ([crates/content-index/src/main.rs]: [parse_arguments] and
    [main]): the option loop with its numbers at their widths, and which command runs with what. *)
From Stdlib Require Import Ascii String.
From stdpp Require Import base strings numbers gmap list pretty.
From S2P Require Import Prelude Content Generations.

(** ** Numbers *)

Inductive CliError := CliText (message : string) | CliNumber.

Definition digit_value (c : ascii) : option Z :=
  let n := Z.of_N (N_of_ascii c) in
  if (48 <=? n)%Z && (n <=? 57)%Z then Some (n - 48)%Z else None.

(** [str::parse] of an unsigned type: digits, each step checked. *)
Fixpoint parse_digits (max : Z) (cs : list ascii) (acc : Z) : option Z :=
  match cs with
  | [] => Some acc
  | c :: cs =>
      d ← digit_value c;
      if (10 * acc + d <=? max)%Z then parse_digits max cs (10 * acc + d) else None
  end.
Definition parse_unsigned (max : Z) (s : string) : option Z :=
  match list_ascii_of_string s with
  | [] => None
  | c :: cs =>
      if bool_decide (c = "+"%char) then match cs with [] => None | _ => parse_digits max cs 0 end
      else parse_digits max (c :: cs) 0
  end.

(** ** Options *)

(** The options with a number. *)
Inductive number :=
| TopK | MaxFileBytes | BatchSize | MaximumBatches | ScanBatchSize | MaxGraphBytes | MaxContentIndexBytes
| MaxContentDocuments | MinFreeDiskBytes | MinFreeDiskPercent | ContentBatchDocuments | ContentMaximumBatches
| RetainRetiredGenerations | WatchIntervalMs | CompactBatchRows | CompactMaximumBatches | ReclaimPages.
Global Instance number_eq_dec : EqDecision number.
Proof. solve_decision. Defined.

(** The width of each field. *)
Definition number_max (o : number) : Z :=
  match o with
  | BatchSize | MaximumBatches | ContentBatchDocuments | ContentMaximumBatches | CompactBatchRows
  | CompactMaximumBatches | ReclaimPages => u32_max
  | MinFreeDiskPercent => u8_max
  | TopK | ScanBatchSize | RetainRetiredGenerations      (* usize *)
  | MaxFileBytes | MaxGraphBytes | MaxContentIndexBytes | MaxContentDocuments | MinFreeDiskBytes | WatchIntervalMs => u64_max
  end.

Definition DEFAULT_MAX_FILE_BYTES : Z := 1048576.
Definition GIB : Z := 1024 * 1024 * 1024.
Definition DEFAULT_MAX_GRAPH_BYTES : Z := 10 * GIB.
Definition DEFAULT_MAX_CONTENT_INDEX_BYTES : Z := 10 * GIB.
Definition DEFAULT_MAX_CONTENT_DOCUMENTS : Z := 5000000.
Definition DEFAULT_MIN_FREE_DISK_BYTES : Z := 2 * GIB.
Definition DEFAULT_MIN_FREE_DISK_PERCENT : Z := 1.

Definition default_number (o : number) : Z :=
  match o with
  | TopK => 20
  | MaxFileBytes => DEFAULT_MAX_FILE_BYTES
  | BatchSize => 1024
  | MaximumBatches => 64
  | ScanBatchSize => 10000
  | MaxGraphBytes => DEFAULT_MAX_GRAPH_BYTES
  | MaxContentIndexBytes => DEFAULT_MAX_CONTENT_INDEX_BYTES
  | MaxContentDocuments => DEFAULT_MAX_CONTENT_DOCUMENTS
  | MinFreeDiskBytes => DEFAULT_MIN_FREE_DISK_BYTES
  | MinFreeDiskPercent => DEFAULT_MIN_FREE_DISK_PERCENT
  | ContentBatchDocuments => 4096
  | ContentMaximumBatches => 64
  | RetainRetiredGenerations => 1
  | WatchIntervalMs => 1000
  | CompactBatchRows => 50000
  | CompactMaximumBatches => 64
  | ReclaimPages => 4096
  end.

(** [CliArguments], with its numeric fields as one family. *)
Record CliArguments := MkCliArguments {
  ca_command : string;
  ca_graph : option string;
  ca_index : option string;
  ca_workspace : option string;
  ca_roots : list string;
  ca_query : option string;
  ca_include_generated : bool;
  ca_watch_iterations : option Z;      (* u32 *)
  ca_allow_without_consumers : bool;
  ca_custom_excluded_directories : list string;
  ca_number : number → Z }.

Definition default_arguments (command : string) : CliArguments :=
  MkCliArguments command None None None [] None false None false [] default_number.

(** What an option does: the values it may take from the rest. *)
Inductive option_kind :=
| SetNumber (o : number)
| SetGib (o : number)
| SetIterations
| SetGraph | SetIndex | SetWorkspace | SetQuery
| AddRoot | AddExclusion
| IncludeGenerated | AllowWithoutConsumers.

Definition option_table : list (string * option_kind) :=
  [("--graph", SetGraph); ("--index", SetIndex); ("--workspace", SetWorkspace); ("--root", AddRoot); ("--query", SetQuery);
   ("--top-k", SetNumber TopK); ("--max-file-bytes", SetNumber MaxFileBytes); ("--include-generated", IncludeGenerated);
   ("--batch-size", SetNumber BatchSize); ("--maximum-batches", SetNumber MaximumBatches);
   ("--scan-batch-size", SetNumber ScanBatchSize); ("--max-graph-bytes", SetNumber MaxGraphBytes);
   ("--max-graph-gib", SetGib MaxGraphBytes); ("--max-content-index-bytes", SetNumber MaxContentIndexBytes);
   ("--max-content-index-gib", SetGib MaxContentIndexBytes); ("--max-content-documents", SetNumber MaxContentDocuments);
   ("--min-free-disk-bytes", SetNumber MinFreeDiskBytes); ("--min-free-disk-gib", SetGib MinFreeDiskBytes);
   ("--min-free-disk-percent", SetNumber MinFreeDiskPercent); ("--content-batch-documents", SetNumber ContentBatchDocuments);
   ("--content-maximum-batches", SetNumber ContentMaximumBatches);
   ("--retain-retired-generations", SetNumber RetainRetiredGenerations); ("--watch-interval-ms", SetNumber WatchIntervalMs);
   ("--watch-iterations", SetIterations); ("--compact-batch-rows", SetNumber CompactBatchRows);
   ("--compact-maximum-batches", SetNumber CompactMaximumBatches); ("--reclaim-pages", SetNumber ReclaimPages);
   ("--allow-without-consumers", AllowWithoutConsumers); ("--exclude-dir", AddExclusion)].

Definition option_of (argument : string) : option option_kind :=
  snd <$> head (filter (λ x, x.1 = argument) option_table).

(** The field updates. *)
Definition set_number (o : number) (n : Z) (a : CliArguments) : CliArguments :=
  MkCliArguments (ca_command a) (ca_graph a) (ca_index a) (ca_workspace a) (ca_roots a) (ca_query a) (ca_include_generated a)
    (ca_watch_iterations a) (ca_allow_without_consumers a) (ca_custom_excluded_directories a)
    (λ o', if decide (o' = o) then n else ca_number a o').
Definition set_texts (graph index workspace query : option string) (roots excluded : list string) (a : CliArguments) : CliArguments :=
  MkCliArguments (ca_command a) graph index workspace roots query (ca_include_generated a)
    (ca_watch_iterations a) (ca_allow_without_consumers a) excluded (ca_number a).
Definition set_flags (generated allow : bool) (iterations : option Z) (a : CliArguments) : CliArguments :=
  MkCliArguments (ca_command a) (ca_graph a) (ca_index a) (ca_workspace a) (ca_roots a) (ca_query a) generated
    iterations allow (ca_custom_excluded_directories a) (ca_number a).

(** [arguments.next().ok_or("missing ...")?.parse()?]. *)
Definition next_number (max : Z) (missing : string) (value : option string) : result CliError Z :=
  text ← ok_or value (CliText missing); ok_or (parse_unsigned max text) CliNumber.

(** The name of an option without its dashes. *)
Definition option_name (argument : string) : string := String.substring 2 (String.length argument - 2) argument.

(** One round of the loop: the option, and the argument behind it if there is one. *)
Definition apply_option (argument : string) (k : option_kind) (value : option string) (a : CliArguments)
  : result CliError CliArguments :=
  let '(g, i, w, q, r, e) :=
    (ca_graph a, ca_index a, ca_workspace a, ca_query a, ca_roots a, ca_custom_excluded_directories a) in
  let missing := "missing " +:+ option_name argument in
  match k with
  | SetGraph => mret (set_texts value i w q r e a)
  | SetIndex => mret (set_texts g value w q r e a)
  | SetWorkspace => mret (set_texts g i value q r e a)
  | SetQuery => mret (set_texts g i w value r e a)
  | AddRoot => root ← ok_or value (CliText missing); mret (set_texts g i w q (r ++ [root]) e a)
  | AddExclusion => name ← ok_or value (CliText "missing exclude-dir directory name"); mret (set_texts g i w q r (e ++ [name]) a)
  | SetNumber o => n ← next_number (number_max o) missing value; mret (set_number o n a)
  | SetGib o =>
      gib ← next_number u64_max missing value;
      if (gib * GIB <=? u64_max)%Z then mret (set_number o (gib * GIB) a)
      else Err (CliText (option_name argument +:+ " is too large"))
  | SetIterations =>
      n ← next_number u32_max missing value;
      mret (set_flags (ca_include_generated a) (ca_allow_without_consumers a) (Some n) a)
  | IncludeGenerated => mret (set_flags true (ca_allow_without_consumers a) (ca_watch_iterations a) a)
  | AllowWithoutConsumers => mret (set_flags (ca_include_generated a) true (ca_watch_iterations a) a)
  end.

Definition takes_value (k : option_kind) : bool :=
  match k with IncludeGenerated | AllowWithoutConsumers => false | _ => true end.

(** The loop: a round takes one argument or two. *)
Fixpoint parse_options (arguments : list string) (a : CliArguments) : result CliError CliArguments :=
  match arguments with
  | [] => mret a
  | argument :: rest =>
      match option_of argument with
      | None => Err (CliText ("unknown or incomplete argument: " +:+ argument))
      | Some k =>
          if takes_value k then
            match rest with
            | [] => apply_option argument k None a
            | value :: rest => a ← apply_option argument k (Some value) a; parse_options rest a
            end
          else a ← apply_option argument k None a; parse_options rest a
      end
  end.

(** [parse_arguments]. *)
Definition parse_arguments (arguments : list string) : result CliError CliArguments :=
  match arguments with
  | [] => Err (CliText "expected folder-sync, build, sync, project, or search")
  | command :: rest => parse_options rest (default_arguments command)
  end.

(** ** Commands *)

(** What [main] calls, with what it passes. *)
Inductive command :=
| FolderSyncCommand (workspace : string) (roots : list string) (max_file_bytes : Z) (include_generated : bool)
    (scan_batch_size max_graph_bytes : Z) (limits : ContentGenerationLimits) (excluded : list string)
| BuildCommand (index graph : string) (roots : list string) (max_file_bytes : Z)
| SyncCommand (index graph : string) (roots : list string) (max_file_bytes : Z)
| ProjectWorkspaceCommand (workspace : string) (batch_size maximum_batches : Z)
| ProjectContentCommand (graph index : string) (roots : list string) (max_file_bytes batch_size maximum_batches : Z)
| SearchCommand (index query : string) (top_k : Z)
| RebuildCommand (workspace : string) (limits : ContentGenerationLimits)
| CollectCommand (workspace : string) (retain_retired : Z)
| ResetCommand (workspace : string)
| WatchCommand (workspace : string) (batch_size maximum_batches interval_ms : Z) (iterations : option Z)
| CompactCommand (workspace : string) (batch_rows maximum_batches reclaim_pages : Z) (allow_without_consumers : bool).

Definition cli_limits (a : CliArguments) : ContentGenerationLimits :=
  let n := ca_number a in
  MkContentGenerationLimits (n MaxContentIndexBytes) (n MaxContentDocuments) (n MinFreeDiskBytes) (n MinFreeDiskPercent)
    (n ContentBatchDocuments) (n ContentMaximumBatches).

Definition unknown_command : string :=
  "expected folder-sync, build, sync, project, search, generation-rebuild, gc, reset-content, watch, or compact".

(** The dispatch of [main]. *)
Definition dispatch_command (a : CliArguments) : result CliError command :=
  let n := ca_number a in
  let need (x : option string) (message : string) := ok_or x (CliText message) in
  let named name := bool_decide (ca_command a = name) in
  if named "folder-sync" then
    workspace ← need (ca_workspace a) "folder-sync requires --workspace PATH";
    mret (FolderSyncCommand workspace (ca_roots a) (n MaxFileBytes) (ca_include_generated a) (n ScanBatchSize)
            (n MaxGraphBytes) (cli_limits a) (ca_custom_excluded_directories a))
  else if named "build" then
    index ← need (ca_index a) "build requires --index PATH";
    graph ← need (ca_graph a) "build requires --graph PATH";
    mret (BuildCommand index graph (ca_roots a) (n MaxFileBytes))
  else if named "sync" then
    index ← need (ca_index a) "sync requires --index PATH";
    graph ← need (ca_graph a) "sync requires --graph PATH";
    mret (SyncCommand index graph (ca_roots a) (n MaxFileBytes))
  else if named "project" then
    match ca_workspace a with
    | Some workspace =>
        if bool_decide (is_Some (ca_graph a)) || bool_decide (is_Some (ca_index a)) || negb (bool_decide (ca_roots a = []))
        then Err (CliText "project --workspace cannot be combined with graph/index/root")
        else mret (ProjectWorkspaceCommand workspace (n BatchSize) (n MaximumBatches))
    | None =>
        index ← need (ca_index a) "project requires --index PATH or --workspace PATH";
        graph ← need (ca_graph a) "project requires --graph PATH or --workspace PATH";
        mret (ProjectContentCommand graph index (ca_roots a) (n MaxFileBytes) (n BatchSize) (n MaximumBatches))
    end
  else if named "search" then
    index ← need (ca_index a) "search requires --index PATH";
    query ← need (ca_query a) "search requires --query TEXT";
    mret (SearchCommand index query (n TopK))
  else if named "generation-rebuild" then
    workspace ← need (ca_workspace a) "generation-rebuild requires --workspace PATH";
    mret (RebuildCommand workspace (cli_limits a))
  else if named "gc" then
    workspace ← need (ca_workspace a) "gc requires --workspace PATH";
    mret (CollectCommand workspace (n RetainRetiredGenerations))
  else if named "reset-content" then
    workspace ← need (ca_workspace a) "reset-content requires --workspace PATH";
    mret (ResetCommand workspace)
  else if named "watch" then
    workspace ← need (ca_workspace a) "watch requires --workspace PATH";
    mret (WatchCommand workspace (n BatchSize) (n MaximumBatches) (n WatchIntervalMs) (ca_watch_iterations a))
  else if named "compact" then
    workspace ← need (ca_workspace a) "compact requires --workspace PATH";
    mret (CompactCommand workspace (n CompactBatchRows) (n CompactMaximumBatches) (n ReclaimPages)
            (ca_allow_without_consumers a))
  else Err (CliText unknown_command).

Definition command_line (arguments : list string) : result CliError command :=
  a ← parse_arguments arguments; dispatch_command a.

(** ** Numbers are read as they are written *)

Definition print_number (n : Z) : string := pretty (Z.to_N n).

Lemma digit_value_char x : (x < 10)%N → digit_value (pretty_N_char x) = Some (Z.of_N x).
Proof.
  intros Hx. assert (x = 0 ∨ x = 1 ∨ x = 2 ∨ x = 3 ∨ x = 4 ∨ x = 5 ∨ x = 6 ∨ x = 7 ∨ x = 8 ∨ x = 9)%N as H by lia.
  destruct_or! H; by subst x.
Qed.

Lemma parse_digits_cons max c cs acc d : digit_value c = Some d →
  parse_digits max (c :: cs) acc = if (10 * acc + d <=? max)%Z then parse_digits max cs (10 * acc + d) else None.
Proof. intros H. cbn [parse_digits]. by rewrite H. Qed.

Lemma parse_digits_go max x s : (Z.of_N x ≤ max)%Z →
  parse_digits max (list_ascii_of_string (pretty_N_go x s)) 0 = parse_digits max (list_ascii_of_string s) (Z.of_N x).
Proof.
  revert s. induction (N.lt_wf_0 x) as [x _ IH]; intros s Hx.
  destruct (decide (0 < x)%N) as [Hpos|Hz]; [|by replace x with 0%N by lia].
  rewrite pretty_N_go_step by done. rewrite IH; [|by apply N.div_lt|].
  - cbn [list_ascii_of_string]. rewrite (parse_digits_cons _ _ _ _ _ (digit_value_char _ (N.mod_lt x 10 ltac:(done)))).
    assert (10 * Z.of_N (x `div` 10) + Z.of_N (x `mod` 10) = Z.of_N x)%Z as -> by (pose proof (N.div_mod x 10 ltac:(done)); lia).
    destruct (Z.leb_spec (Z.of_N x) max); [done|lia].
  - pose proof (N.Div0.div_le_upper_bound x 10 x ltac:(lia)). lia.
Qed.

Lemma parse_unsigned_print max n : (0 ≤ n ≤ max)%Z → parse_unsigned max (print_number n) = Some n.
Proof.
  intros Hn. assert (parse_digits max (list_ascii_of_string (print_number n)) 0 = Some n) as Hp.
  { unfold print_number, pretty, pretty_N. destruct (decide _) as [Hz|Hnz].
    - assert (n = 0)%Z as -> by lia. etransitivity; [exact (parse_digits_cons max "0" [] 0 0 eq_refl)|]. by destruct (Z.leb_spec (10 * 0 + 0) max); [|lia].
    - rewrite parse_digits_go by lia. simpl. f_equal. lia. }
  unfold parse_unsigned. destruct (list_ascii_of_string (print_number n)) as [|c cs] eqn:Hl.
  - exfalso. revert Hl. unfold print_number, pretty, pretty_N. destruct (decide _) as [Hz|Hnz]; [done|].
    intros Hl. pose proof (parse_digits_go max (Z.to_N n) "" ltac:(lia)) as Hq. rewrite Hl in Hq. simpl in Hq. injection Hq. lia.
  - case_bool_decide as Hc; [|done]. subst c. discriminate Hp.
Qed.

(** ** Every parsed field is in the range of its type *)

Definition arguments_typed (a : CliArguments) : Prop :=
  (∀ o, (0 ≤ ca_number a o ≤ number_max o)%Z) ∧ (∀ n, ca_watch_iterations a = Some n → (0 ≤ n ≤ u32_max)%Z).

Lemma parse_digits_range max cs acc n : (0 ≤ acc ≤ max)%Z → parse_digits max cs acc = Some n → (0 ≤ n ≤ max)%Z.
Proof.
  revert acc. induction cs as [|c cs IH]; intros acc Hacc H; simpl in H; [by injection H as <-|].
  unfold digit_value in H. destruct (_ && _) eqn:Hd; [|discriminate H]. apply andb_true_iff in Hd as [H1 H2].
  apply Z.leb_le in H1, H2.
  simpl in H. destruct (Z.leb_spec (10 * acc + (Z.of_N (N_of_ascii c) - 48)) max) as [Hle|]; [|discriminate H].
  by eapply IH in H; [|lia].
Qed.

Lemma parse_unsigned_range max s n : (0 ≤ max)%Z → parse_unsigned max s = Some n → (0 ≤ n ≤ max)%Z.
Proof.
  intros Hm. unfold parse_unsigned. destruct (list_ascii_of_string s) as [|c cs]; [done|].
  destruct (bool_decide _); [destruct cs; [done|]|]; apply parse_digits_range; lia.
Qed.

Lemma number_max_nonneg o : (0 ≤ number_max o)%Z.
Proof. by destruct o. Qed.

Lemma next_number_range max missing value n :
  (0 ≤ max)%Z → next_number max missing value = Ok n → (0 ≤ n ≤ max)%Z.
Proof.
  intros Hm (text & _ & H%ok_or_Ok)%result_bind_Ok. by eapply parse_unsigned_range.
Qed.

Lemma set_number_typed o n a : (0 ≤ n ≤ number_max o)%Z → arguments_typed a → arguments_typed (set_number o n a).
Proof. intros Hn [Ha Hi]. split; [|done]. intros o'. simpl. by destruct (decide (o' = o)) as [->|]. Qed.

(** Options in GiB are for fields of 64 bits. *)
Definition kind_typed (k : option_kind) : Prop := match k with SetGib o => number_max o = u64_max | _ => True end.

Lemma option_of_typed argument k : option_of argument = Some k → kind_typed k.
Proof.
  unfold option_of. intros H. apply fmap_Some in H as ([name k'] & Hh & ->).
  apply head_Some_elem_of, list_elem_of_filter in Hh as [_ Hin].
  assert (Forall (λ x, kind_typed x.2) option_table) as Hall by (repeat constructor).
  rewrite Forall_forall in Hall. exact (Hall _ Hin).
Qed.

Lemma apply_option_typed argument k value a a' :
  kind_typed k → arguments_typed a → apply_option argument k value a = Ok a' → arguments_typed a'.
Proof.
  intros Hk Ha H. unfold apply_option in H. destruct k as [o|o| | | | | | | | |]; simpl in H; try by injection H as <-.
  - apply result_bind_Ok in H as (n & Hn%next_number_range & [= <-]); [|apply number_max_nonneg]. by apply set_number_typed.
  - apply result_bind_Ok in H as (gib & Hg & H). apply next_number_range in Hg; [|done].
    destruct (Z.leb_spec (gib * GIB) u64_max) as [Hle|]; [|done]. injection H as <-. apply set_number_typed; [|done].
    simpl in Hk. rewrite Hk. unfold GIB in *. lia.
  - apply result_bind_Ok in H as (n & Hn%next_number_range & [= <-]); [|done]. destruct Ha as [Ha _]. split; [done|].
    by intros n' [= <-].
  - apply result_bind_Ok in H as (r & _ & [= <-]). done.
  - apply result_bind_Ok in H as (r & _ & [= <-]). done.
Qed.

(** The loop, one round at a time. *)
Lemma parse_options_cons argument rest a :
  parse_options (argument :: rest) a =
    match option_of argument with
    | None => Err (CliText ("unknown or incomplete argument: " +:+ argument))
    | Some k =>
        if takes_value k then
          match rest with
          | [] => apply_option argument k None a
          | value :: rest => a ← apply_option argument k (Some value) a; parse_options rest a
          end
        else a ← apply_option argument k None a; parse_options rest a
    end.
Proof. done. Qed.

Lemma parse_options_typed arguments a a' : arguments_typed a → parse_options arguments a = Ok a' → arguments_typed a'.
Proof.
  remember (length arguments) as n eqn:Hn. revert arguments a Hn. induction n as [n IH] using lt_wf_ind.
  intros [|argument rest] a Hn Ha H; [by injection H as <-|]. rewrite parse_options_cons in H.
  destruct (option_of argument) as [k|] eqn:Hk; [|done]. apply option_of_typed in Hk.
  simpl in Hn. destruct (takes_value k); [destruct rest as [|value rest]|].
  - by eapply apply_option_typed.
  - apply result_bind_Ok in H as (a1 & H1 & H). eapply (IH (length rest)); [simpl in Hn; lia|done|by eapply apply_option_typed|done].
  - apply result_bind_Ok in H as (a1 & H1 & H). eapply (IH (length rest)); [lia|done|by eapply apply_option_typed|done].
Qed.

(** Command line ranges: whatever the arguments are, every field that parsing yields is in the range of its type, and a
    number that does not fit is refused. *)
Theorem parse_arguments_typed arguments a : parse_arguments arguments = Ok a → arguments_typed a.
Proof.
  destruct arguments as [|command rest]; [done|]. apply parse_options_typed. split; [|done]. by intros [].
Qed.

(** ** Every configuration can be written *)

Definition number_flag (o : number) : string :=
  match o with
  | TopK => "--top-k" | MaxFileBytes => "--max-file-bytes" | BatchSize => "--batch-size" | MaximumBatches => "--maximum-batches"
  | ScanBatchSize => "--scan-batch-size" | MaxGraphBytes => "--max-graph-bytes"
  | MaxContentIndexBytes => "--max-content-index-bytes" | MaxContentDocuments => "--max-content-documents"
  | MinFreeDiskBytes => "--min-free-disk-bytes" | MinFreeDiskPercent => "--min-free-disk-percent"
  | ContentBatchDocuments => "--content-batch-documents" | ContentMaximumBatches => "--content-maximum-batches"
  | RetainRetiredGenerations => "--retain-retired-generations" | WatchIntervalMs => "--watch-interval-ms"
  | CompactBatchRows => "--compact-batch-rows" | CompactMaximumBatches => "--compact-maximum-batches"
  | ReclaimPages => "--reclaim-pages"
  end.
Definition all_numbers : list number :=
  [TopK; MaxFileBytes; BatchSize; MaximumBatches; ScanBatchSize; MaxGraphBytes; MaxContentIndexBytes; MaxContentDocuments;
   MinFreeDiskBytes; MinFreeDiskPercent; ContentBatchDocuments; ContentMaximumBatches; RetainRetiredGenerations;
   WatchIntervalMs; CompactBatchRows; CompactMaximumBatches; ReclaimPages].

Definition optional (flag : string) (value : option string) : list string :=
  match value with Some v => [flag; v] | None => [] end.
Definition flagged (flag : string) (on : bool) : list string := if on then [flag] else [].

(** A command line for a configuration. *)
Definition render_options (a : CliArguments) : list string :=
  concat ((λ o, [number_flag o; print_number (ca_number a o)]) <$> all_numbers)
  ++ concat ((λ r, ["--root"; r]) <$> ca_roots a) ++ concat ((λ e, ["--exclude-dir"; e]) <$> ca_custom_excluded_directories a)
  ++ optional "--graph" (ca_graph a) ++ optional "--index" (ca_index a) ++ optional "--workspace" (ca_workspace a)
  ++ optional "--query" (ca_query a) ++ optional "--watch-iterations" (print_number <$> ca_watch_iterations a)
  ++ flagged "--include-generated" (ca_include_generated a) ++ flagged "--allow-without-consumers" (ca_allow_without_consumers a).
Definition render (a : CliArguments) : list string := ca_command a :: render_options a.

(** A round that takes its value. *)
Lemma parse_value flag k value rest a :
  option_of flag = Some k → takes_value k = true →
  parse_options (flag :: value :: rest) a = (a ← apply_option flag k (Some value) a; parse_options rest a).
Proof. intros Hk Hv. by rewrite parse_options_cons, Hk, Hv. Qed.

Lemma parse_number o n rest a : (0 ≤ n ≤ number_max o)%Z →
  parse_options (number_flag o :: print_number n :: rest) a = parse_options rest (set_number o n a).
Proof.
  intros Hn. rewrite (parse_value _ (SetNumber o)) by (by destruct o). unfold apply_option, next_number. cbn [ok_or mbind].
  unfold result_bind. by rewrite (parse_unsigned_print _ _ Hn).
Qed.

Definition add_roots (rs : list string) (a : CliArguments) : CliArguments :=
  set_texts (ca_graph a) (ca_index a) (ca_workspace a) (ca_query a) (ca_roots a ++ rs) (ca_custom_excluded_directories a) a.
Definition add_exclusions (es : list string) (a : CliArguments) : CliArguments :=
  set_texts (ca_graph a) (ca_index a) (ca_workspace a) (ca_query a) (ca_roots a) (ca_custom_excluded_directories a ++ es) a.
Definition set_numbers (n : number → Z) (os : list number) (a : CliArguments) : CliArguments :=
  foldl (λ a o, set_number o (n o) a) a os.

Lemma parse_numbers n os rest a : (∀ o, (0 ≤ n o ≤ number_max o)%Z) →
  parse_options (concat ((λ o, [number_flag o; print_number (n o)]) <$> os) ++ rest) a = parse_options rest (set_numbers n os a).
Proof.
  intros Hn. revert a. induction os as [|o os IH]; intros a; [done|].
  cbn [fmap list_fmap concat app]. rewrite parse_number by done. apply IH.
Qed.

Lemma parse_roots rs rest a :
  parse_options (concat ((λ r, ["--root"; r]) <$> rs) ++ rest) a = parse_options rest (add_roots rs a).
Proof.
  revert a. induction rs as [|r rs IH]; intros a; cbn [fmap list_fmap concat app].
  - f_equal. destruct a. unfold add_roots, set_texts. simpl. by rewrite app_nil_r.
  - rewrite (parse_value _ AddRoot) by done. cbn -[parse_options]. rewrite IH. unfold add_roots, set_texts. simpl. by rewrite <-app_assoc.
Qed.

Lemma parse_exclusions es rest a :
  parse_options (concat ((λ e, ["--exclude-dir"; e]) <$> es) ++ rest) a = parse_options rest (add_exclusions es a).
Proof.
  revert a. induction es as [|e es IH]; intros a; cbn [fmap list_fmap concat app].
  - f_equal. destruct a. unfold add_exclusions, set_texts. simpl. by rewrite app_nil_r.
  - rewrite (parse_value _ AddExclusion) by done. cbn -[parse_options]. rewrite IH. unfold add_exclusions, set_texts. simpl. by rewrite <-app_assoc.
Qed.

(** The numbers, whatever order they are set in. *)
Lemma set_numbers_lookup n os a o : ca_number (set_numbers n os a) o = if decide (o ∈ os) then n o else ca_number a o.
Proof.
  unfold set_numbers. revert a. induction os as [|x os IH]; intros a; cbn [foldl]; [rewrite decide_False; [done|apply not_elem_of_nil]|].
  rewrite IH. cbn [ca_number set_number]. destruct (decide (o ∈ os)) as [Hin|Hin], (decide (o ∈ x :: os)) as [Hin'|Hin']; try done.
  - by destruct Hin'; right.
  - apply elem_of_cons in Hin' as [->|]; [|done]. by rewrite decide_True.
  - rewrite decide_False; [done|]. intros ->. by destruct Hin'; left.
Qed.
Lemma set_numbers_rest n os a : ∃ f, set_numbers n os a =
  MkCliArguments (ca_command a) (ca_graph a) (ca_index a) (ca_workspace a) (ca_roots a) (ca_query a) (ca_include_generated a)
    (ca_watch_iterations a) (ca_allow_without_consumers a) (ca_custom_excluded_directories a) f.
Proof.
  unfold set_numbers. revert a. induction os as [|x os IH]; intros a; simpl; [exists (ca_number a); by destruct a|].
  destruct (IH (set_number x (n x) a)) as [f ->]. by exists f.
Qed.

Lemma number_listed o : o ∈ all_numbers.
Proof. apply (bool_decide_eq_true (o ∈ all_numbers)). by destruct o. Qed.

(** The remaining options, each into a field that has its default. *)
Section fields.
Context (c : string) (g i w q : option string) (r ex : list string) (ge al : bool) (it : option Z) (f : number → Z).
Context (rest : list string).

Lemma parse_graph v : parse_options (optional "--graph" v ++ rest) (MkCliArguments c None i w r q ge it al ex f)
  = parse_options rest (MkCliArguments c v i w r q ge it al ex f).
Proof. by destruct v. Qed.
Lemma parse_index v : parse_options (optional "--index" v ++ rest) (MkCliArguments c g None w r q ge it al ex f)
  = parse_options rest (MkCliArguments c g v w r q ge it al ex f).
Proof. by destruct v. Qed.
Lemma parse_workspace v : parse_options (optional "--workspace" v ++ rest) (MkCliArguments c g i None r q ge it al ex f)
  = parse_options rest (MkCliArguments c g i v r q ge it al ex f).
Proof. by destruct v. Qed.
Lemma parse_query v : parse_options (optional "--query" v ++ rest) (MkCliArguments c g i w r None ge it al ex f)
  = parse_options rest (MkCliArguments c g i w r v ge it al ex f).
Proof. by destruct v. Qed.
Lemma parse_iterations v : (∀ n, v = Some n → (0 ≤ n ≤ u32_max)%Z) →
  parse_options (optional "--watch-iterations" (print_number <$> v) ++ rest) (MkCliArguments c g i w r q ge None al ex f)
  = parse_options rest (MkCliArguments c g i w r q ge v al ex f).
Proof.
  intros Hv. destruct v as [n|]; [|done]. cbn [optional fmap option_fmap option_map app]. rewrite (parse_value _ SetIterations) by done.
  unfold apply_option, next_number. cbn [ok_or mbind]. unfold result_bind. by rewrite (parse_unsigned_print u32_max n (Hv n eq_refl)).
Qed.
Lemma parse_generated v : parse_options (flagged "--include-generated" v ++ rest) (MkCliArguments c g i w r q false it al ex f)
  = parse_options rest (MkCliArguments c g i w r q v it al ex f).
Proof. by destruct v. Qed.
Lemma parse_allow v : parse_options (flagged "--allow-without-consumers" v) (MkCliArguments c g i w r q ge it false ex f)
  = Ok (MkCliArguments c g i w r q ge it v ex f).
Proof. by destruct v. Qed.
End fields.

(** Two configurations with the same fields. *)
Definition same_arguments (a b : CliArguments) : Prop :=
  (ca_command a, ca_graph a, ca_index a, ca_workspace a, ca_roots a, ca_query a, ca_include_generated a, ca_watch_iterations a,
   ca_allow_without_consumers a, ca_custom_excluded_directories a)
  = (ca_command b, ca_graph b, ca_index b, ca_workspace b, ca_roots b, ca_query b, ca_include_generated b, ca_watch_iterations b,
     ca_allow_without_consumers b, ca_custom_excluded_directories b)
  ∧ ∀ o, ca_number a o = ca_number b o.

(** Command line round trip: every configuration whose numbers are in the range of their types is
    what parsing its command line gives: each option is read into its own field, at its own width. *)
Theorem command_line_roundtrip a : arguments_typed a →
  ∃ b, parse_arguments (render a) = Ok b ∧ same_arguments b a.
Proof.
  intros [Hn Hi]. unfold render, parse_arguments, render_options.
  rewrite parse_numbers by done. rewrite parse_roots, parse_exclusions.
  destruct (set_numbers_rest (ca_number a) all_numbers (default_arguments (ca_command a))) as [f Hf].
  assert (∀ o, f o = ca_number a o) as Hfo.
  { intros o. pose proof (set_numbers_lookup (ca_number a) all_numbers (default_arguments (ca_command a)) o) as Hl.
    rewrite Hf, decide_True in Hl by apply number_listed. exact Hl. }
  rewrite Hf. clear Hf.
  unfold add_roots, add_exclusions, set_texts. cbn [ca_command ca_graph ca_index ca_workspace ca_roots ca_query ca_include_generated
    ca_watch_iterations ca_allow_without_consumers ca_custom_excluded_directories ca_number default_arguments app].
  rewrite parse_graph, parse_index, parse_workspace, parse_query, (parse_iterations _ _ _ _ _ _ _ _ _ _ _ _ Hi), parse_generated, parse_allow.
  eexists. split; [reflexivity|]. split; [reflexivity|exact Hfo].
Qed.

Definition sample_arguments : CliArguments :=
  set_number MinFreeDiskPercent 255 (set_flags true false (Some 3%Z) (add_roots ["docs"; "mail"]
    (set_texts None None (Some "workspace") None [] ["target"] (default_arguments "folder-sync")))).
Lemma command_line_roundtrip_witness :
  ∃ b, parse_arguments (render sample_arguments) = Ok b ∧ same_arguments b sample_arguments
    ∧ length (render sample_arguments) = 46.
Proof.
  destruct (command_line_roundtrip sample_arguments) as (b & Hb & Hs).
  - split; [|by intros n [= <-]]. intros o. destruct o; vm_compute; split; discriminate.
  - exists b. split; [exact Hb|]. split; [exact Hs|]. vm_compute. reflexivity.
Defined.
