(* ===== verification/Broker.v ===== *)
(** The elevated metadata broker ([crates/fs-service/src/lib.rs]) and the response types of its wire
    contract ([crates/broker-api/src/lib.rs]).

    A service is a record of the replay window, the active scans and the next scan identifier;
    [dispatch] is one request.  The provider behind the service is a record of what its operations
    return: a scan is the list of events the provider hands to its sink and the result it ends
    with.  A scan's worker thread is a state of its own that advances by [worker_tick], one turn of
    the loop of [send_with_backpressure]; [service_step] interleaves workers and requests. *)
From Stdlib Require Import Ascii String.
From stdpp Require Import base strings numbers gmap list.
From S2P Require Import Prelude Ids Models Frames Platform.

Definition MAX_ACTIVE_SCANS : nat := 4.
Definition SCAN_QUEUE_EVENTS : nat := 256.
Definition REPLAY_WINDOW_REQUESTS : nat := 4096.
Definition MAX_BROKER_FRAME_BYTES : Z := 1048576.

(** ** Responses *)

Inductive BrokerOperationName :=
| OpGetCapabilities | OpDiscoverVolumes | OpStartScan | OpReadScanPage | OpCancelScan | OpReadChanges.

Record BrokerCapabilities := MkBrokerCapabilities {
  bc_protocol_versions : list Z;
  bc_codec_versions : list Z;
  bc_allowed_operations : list BrokerOperationName;
  bc_maximum_frame_bytes : Z;
  bc_maximum_page_events : Z;
  bc_maximum_active_scans : Z;
  bc_provider : PlatformCapabilities }.

Record ScanPage := MkScanPage {
  sp_events : list FilesystemEvent;
  sp_checkpoint : option ProviderCheckpoint;
  sp_complete : bool;
  sp_has_more : bool }.

Inductive BrokerPayload :=
| PCapabilities (capabilities : BrokerCapabilities)
| PVolumes (volumes : list VolumeDescriptor)
| PScanStarted (scan_id : Z)
| PScanPage (page : ScanPage)
| PChanges (events : list FilesystemEvent) (batch : ChangeBatch)
| PScanCancelled (scan_id : Z).

Inductive BrokerErrorCode :=
| BInvalidRequest | BUnsupportedProtocolVersion | BUnsupportedCodecVersion | BReplayRejected
| BNotFound | BPermissionDenied | BUnsupported | BUnavailable | BSourceHistoryGap
| BResourceExhausted | BDeadlineExceeded | BCancelled | BInternal.

Record BrokerWireError := MkBrokerWireError { we_code : BrokerErrorCode; we_message : string }.

Abbreviation Response := (BrokerResponse BrokerPayload BrokerWireError).

(** [ServiceError]. *)
Abbreviation ServiceError := BrokerWireError.

Definition platform_error_code (kind : PlatformErrorKind) : BrokerErrorCode :=
  match kind with
  | PermissionDenied => BPermissionDenied
  | Unsupported | InvalidCheckpoint => BUnsupported
  | Unavailable | Io => BUnavailable
  | SourceHistoryGap => BSourceHistoryGap
  | ResourceExhausted => BResourceExhausted
  | Cancelled => BCancelled
  | Internal => BInternal
  end.
Definition platform_error (error : PlatformError) : ServiceError :=
  MkBrokerWireError (platform_error_code (pe_kind error)) "filesystem metadata operation failed".

Definition contract_failure (request_id : string) (error : WireContractError) : Response :=
  broker_failure request_id
    (MkBrokerWireError
       match error with
       | UnsupportedProtocolVersion => BUnsupportedProtocolVersion
       | UnsupportedCodecVersion => BUnsupportedCodecVersion
       | _ => BInvalidRequest
       end "broker request contract rejected").

(** ** The replay window *)

Record ReplayWindow := MkReplayWindow {
  rw_capacity : nat;
  rw_order : list string;              (* a [VecDeque], oldest first *)
  rw_present : gset string }.

Definition new_window (capacity : nat) : ReplayWindow := MkReplayWindow capacity [] ∅.

Definition replay_admit (w : ReplayWindow) (request_id : string) : result unit ReplayWindow :=
  if bool_decide (request_id ∈ rw_present w) then Err tt
  else
    let present := {[request_id]} ∪ rw_present w in
    let order := rw_order w ++ [request_id] in
    Ok (match order with
        | expired :: rest =>
            if rw_capacity w <? length order
            then MkReplayWindow (rw_capacity w) rest (present ∖ {[expired]})
            else MkReplayWindow (rw_capacity w) order present
        | [] => MkReplayWindow (rw_capacity w) order present
        end).

(** ** The provider behind the broker *)

(** [FilesystemProvider]: what each operation returns, with the events handed to the sink. *)
Record FilesystemProvider := MkFilesystemProvider {
  fp_capabilities : PlatformCapabilities;
  fp_discover_volumes : PlatformResult (list VolumeDescriptor);
  fp_scan : ScanMode → VolumeDescriptor → list FilesystemEvent * PlatformResult ScanSummary;
  fp_read_changes : ProviderCheckpoint → Z → PlatformResult (list FilesystemEvent * ChangeBatch) }.

(** ** Scans *)

Inductive ScanMessage :=
| MEvent (event : FilesystemEvent)
| MTerminal (result : PlatformResult ScanSummary).

(** The worker thread: what the provider has still to emit and will return, or gone. *)
Inductive Worker :=
| Emitting (todo : list FilesystemEvent) (final : PlatformResult ScanSummary)
| Gone.

Record ScanState := MkScanState {
  st_queue : list ScanMessage;         (* the channel, oldest first *)
  st_cancellation : bool;
  st_worker : Worker;
  st_pending_terminal : option (PlatformResult ScanSummary) }.

(** One turn of [send_with_backpressure] for the worker's next message. *)
Definition worker_tick (s : ScanState) : ScanState :=
  match st_worker s with
  | Gone => s
  | Emitting todo final =>
      if st_cancellation s then MkScanState (st_queue s) true Gone (st_pending_terminal s)
      else if length (st_queue s) <? SCAN_QUEUE_EVENTS then
        match todo with
        | e :: todo =>
            MkScanState (st_queue s ++ [MEvent e]) false (Emitting todo final) (st_pending_terminal s)
        | [] => MkScanState (st_queue s ++ [MTerminal final]) false Gone (st_pending_terminal s)
        end
      else s
  end.

(** The receiving loop of [read_scan_page], for at most [n] more events. *)
Fixpoint receive (n : nat) (queue : list ScanMessage) (closed : bool)
  : list FilesystemEvent * option (PlatformResult ScanSummary) * list ScanMessage :=
  match n with
  | O => ([], None, queue)
  | S n =>
      match queue with
      | MEvent e :: queue => let '(es, terminal, queue) := receive n queue closed in (e :: es, terminal, queue)
      | MTerminal r :: queue => ([], Some r, queue)
      | [] =>
          if closed
          then ([], Some (Err (MkPlatformError Internal "scan_worker"
                                 "scan producer stopped without terminal state")), [])
          else ([], None, [])
      end
  end.

Record BrokerService := MkBrokerService {
  bv_replay : ReplayWindow;
  bv_scans : gmap Z ScanState;
  bv_next_scan_id : Z }.               (* u64 *)

Definition new_service : BrokerService := MkBrokerService (new_window REPLAY_WINDOW_REQUESTS) ∅ 1.

Definition set_scans (f : gmap Z ScanState → gmap Z ScanState) (s : BrokerService) : BrokerService :=
  MkBrokerService (bv_replay s) (f (bv_scans s)) (bv_next_scan_id s).

(** What a request sees of its caller at a check. *)
Record Probe := MkProbe { pb_cancelled : bool; pb_elapsed_ms : Z }.

Definition check_request (deadline : Z) (p : Probe) : result ServiceError unit :=
  if pb_cancelled p then Err (MkBrokerWireError BCancelled "broker request cancelled")
  else if (deadline <=? pb_elapsed_ms p)%Z
  then Err (MkBrokerWireError BDeadlineExceeded "broker request deadline exceeded")
  else Ok tt.

Section service.
Context (provider : FilesystemProvider).

Definition broker_capabilities : BrokerCapabilities :=
  MkBrokerCapabilities [BROKER_PROTOCOL_VERSION] [BROKER_CODEC_VERSION]
    [OpGetCapabilities; OpDiscoverVolumes; OpStartScan; OpReadScanPage; OpCancelScan; OpReadChanges]
    MAX_BROKER_FRAME_BYTES MAX_BROKER_PAGE_EVENTS (Z.of_nat MAX_ACTIVE_SCANS) (fp_capabilities provider).

(** Requests either fail and leave the service as it is, or answer and change it; a page that ends
    with an error also removes its scan, so the new service comes with both. *)
Definition start_scan (s : BrokerService) (v : volume_id) (mode : ScanMode) (deadline : Z) (p : Probe)
  : result ServiceError BrokerPayload * BrokerService :=
  match fp_discover_volumes provider with
  | Err e => (Err (platform_error e), s)
  | Ok volumes =>
      match List.find (λ d, (vd_volume_id d =? v)%N) volumes with
      | None => (Err (MkBrokerWireError BNotFound "volume is unavailable"), s)
      | Some volume =>
          match check_request deadline p with
          | Err e => (Err e, s)
          | Ok _ =>
              if MAX_ACTIVE_SCANS <=? size (bv_scans s)
              then (Err (MkBrokerWireError BResourceExhausted "active scan limit reached"), s)
              else
                let scan_id := bv_next_scan_id s in
                let '(events, final) := fp_scan provider mode volume in
                (Ok (PScanStarted scan_id),
                 MkBrokerService (bv_replay s)
                   (<[scan_id := MkScanState [] false (Emitting events final) None]> (bv_scans s))
                   ((scan_id + 1) mod 2 ^ 64))
          end
      end
  end.

Definition scan_not_active : ServiceError := MkBrokerWireError BNotFound "scan is not active".

Definition worker_gone (w : Worker) : bool := match w with Gone => true | Emitting _ _ => false end.

Definition read_scan_page (s : BrokerService) (scan_id maximum_events : Z)
  : result ServiceError BrokerPayload * BrokerService :=
  match bv_scans s !! scan_id with
  | None => (Err scan_not_active, s)
  | Some state =>
      let '(events, terminal, queue) :=
        match st_pending_terminal state with
        | Some r => ([], Some r, st_queue state)
        | None => receive (Z.to_nat maximum_events) (st_queue state) (worker_gone (st_worker state))
        end in
      match terminal with
      | Some r =>
          if 0 <? length events then
            (Ok (PScanPage (MkScanPage events None false true)),
             set_scans (<[scan_id := MkScanState queue (st_cancellation state) (st_worker state) (Some r)]>) s)
          else
            (match r with
             | Ok summary => Ok (PScanPage (MkScanPage events (Some (ss_checkpoint summary)) true false))
             | Err e => Err (platform_error e)
             end, set_scans (delete scan_id) s)
      | None =>
          (Ok (PScanPage (MkScanPage events None false true)),
           set_scans (<[scan_id := MkScanState queue (st_cancellation state) (st_worker state) None]>) s)
      end
  end.

(** Cancelling waits for the worker, which sees the flag at its next turn. *)
Definition cancel_scan (s : BrokerService) (scan_id : Z)
  : result ServiceError BrokerPayload * BrokerService :=
  match bv_scans s !! scan_id with
  | None => (Err scan_not_active, s)
  | Some _ => (Ok (PScanCancelled scan_id), set_scans (delete scan_id) s)
  end.

Definition service_read_changes (s : BrokerService) (checkpoint : ProviderCheckpoint) (maximum_events : Z)
  : result ServiceError BrokerPayload * BrokerService :=
  (match fp_read_changes provider checkpoint maximum_events with
   | Ok (events, batch) => Ok (PChanges events batch)
   | Err e => Err (platform_error e)
   end, s).

Definition dispatch_operation (s : BrokerService) (o : BrokerOperation) (deadline : Z) (p1 p2 : Probe)
  : result ServiceError BrokerPayload * BrokerService :=
  match check_request deadline p1 with
  | Err e => (Err e, s)
  | Ok _ =>
      match o with
      | BrokerGetCapabilities => (Ok (PCapabilities broker_capabilities), s)
      | DiscoverVolumes =>
          (match fp_discover_volumes provider with
           | Ok volumes => Ok (PVolumes volumes)
           | Err e => Err (platform_error e)
           end, s)
      | StartScan v mode => start_scan s v mode deadline p2
      | ReadScanPage scan_id maximum_events => read_scan_page s scan_id maximum_events
      | CancelScan scan_id => cancel_scan s scan_id
      | ReadChanges checkpoint maximum_events => service_read_changes s checkpoint maximum_events
      end
  end.

(** [dispatch]: the probes are the caller's state at its three checks. *)
Definition dispatch (s : BrokerService) (request : BrokerRequest) (p0 p1 p2 : Probe)
  : Response * BrokerService :=
  let request_id := if String.length (br_request_id request) <=? 64 then br_request_id request else "" in
  match BrokerRequest_validate request with
  | Err e => (contract_failure request_id e, s)
  | Ok _ =>
      match replay_admit (bv_replay s) (br_request_id request) with
      | Err _ =>
          (broker_failure request_id (MkBrokerWireError BReplayRejected
             "request identifier was replayed or replay state is unavailable"), s)
      | Ok replay =>
          let s := MkBrokerService replay (bv_scans s) (bv_next_scan_id s) in
          if pb_cancelled p0
          then (broker_failure request_id (MkBrokerWireError BCancelled "broker request cancelled"), s)
          else
            let '(r, s) := dispatch_operation s (br_operation request)
                             (broker_effective_deadline_ms request) p1 p2 in
            (match r with
             | Ok payload => broker_success request_id payload
             | Err e => broker_failure request_id e
             end, s)
      end
  end.
End service.

(** ** Interleavings *)

(** A step of the service: a turn of one worker, a worker that dies without a terminal message, or
    a request. *)
Inductive service_step : BrokerService → BrokerService → Prop :=
| step_tick s id st :
    bv_scans s !! id = Some st →
    service_step s (set_scans (<[id := worker_tick st]>) s)
| step_panic s id st :
    bv_scans s !! id = Some st →
    service_step s (set_scans (<[id := MkScanState (st_queue st) (st_cancellation st) Gone
                                         (st_pending_terminal st)]>) s)
| step_request s provider request p0 p1 p2 response s' :
    dispatch provider s request p0 p1 p2 = (response, s') →
    service_step s s'.
