(* ===== verification/BrokerSpec.v ===== *)
(** What the broker promises: bounded state in every interleaving, a replay window that holds the
    latest requests, and scan pages that are the provider's events in order, with the checkpoint
    only after the last of them. *)
From Stdlib Require Import Ascii String.
From stdpp Require Import base strings numbers gmap list sets.
From S2P Require Import Prelude Ids Models Fixtures Frames Platform Broker.

(** ** The replay window *)

Definition window_ok (w : ReplayWindow) : Prop :=
  NoDup (rw_order w) ∧ rw_present w = list_to_set (rw_order w) ∧ length (rw_order w) ≤ rw_capacity w.

(** The latest [n] entries. *)
Definition latest {A} (n : nat) (l : list A) : list A := drop (length l - n) l.

Lemma admit_spec w id :
  window_ok w → 0 < rw_capacity w →
  if decide (id ∈ rw_order w) then replay_admit w id = Err tt
  else ∃ w', replay_admit w id = Ok w' ∧ window_ok w' ∧ rw_capacity w' = rw_capacity w ∧
         rw_order w' = latest (rw_capacity w) (rw_order w ++ [id]).
Proof.
  intros (Hnd & Hp & Hlen) Hcap. unfold replay_admit. rewrite Hp. case_decide as Hin.
  { by rewrite bool_decide_eq_true_2 by set_solver. }
  rewrite bool_decide_eq_false_2 by set_solver.
  assert (NoDup (rw_order w ++ [id])) as Hnd'.
  { apply NoDup_app. split; [done|]. split; [set_solver|apply NoDup_singleton]. }
  unfold latest. destruct (rw_order w ++ [id]) as [|x l] eqn:Ho; [by destruct (rw_order w)|].
  assert (length (x :: l) = S (length (rw_order w))) as Hl by (rewrite <-Ho, length_app; simpl; lia).
  assert ({[id]} ∪ list_to_set (rw_order w) = (list_to_set (x :: l) : gset string)) as Hset.
  { rewrite <-Ho. set_solver. }
  rewrite Hset. eexists. split; [reflexivity|]. unfold window_ok.
  destruct (Nat.ltb_spec (rw_capacity w) (length (x :: l))) as [Hfull|Hroom]; simpl in *.
  - apply NoDup_cons in Hnd' as [Hx Hnd'].
    assert (length l = rw_capacity w) as Hll by lia. rewrite Hll.
    replace (S (rw_capacity w) - rw_capacity w) with 1 by lia. simpl.
    split; [|done]. split; [done|]. split; [set_solver|lia].
  - replace (S (length l) - rw_capacity w) with 0 by lia. done.
Qed.

(** ** Bounded state *)

Definition service_ok (s : BrokerService) : Prop :=
  window_ok (bv_replay s) ∧ rw_capacity (bv_replay s) = REPLAY_WINDOW_REQUESTS ∧
  size (bv_scans s) ≤ MAX_ACTIVE_SCANS ∧
  map_Forall (λ _ st, length (st_queue st) ≤ SCAN_QUEUE_EVENTS) (bv_scans s).

Lemma worker_tick_queue st :
  length (st_queue st) ≤ SCAN_QUEUE_EVENTS → length (st_queue (worker_tick st)) ≤ SCAN_QUEUE_EVENTS.
Proof.
  unfold worker_tick. destruct (st_worker st) as [todo fin|]; [|done].
  destruct (st_cancellation st); [done|].
  destruct (Nat.ltb_spec (length (st_queue st)) SCAN_QUEUE_EVENTS); [|done].
  destruct todo; simpl; rewrite length_app; simpl; lia.
Qed.

Lemma receive_queue n q closed :
  length (receive n q closed).2 ≤ length q ∧ length (receive n q closed).1.1 ≤ n.
Proof.
  revert q. induction n as [|n IH]; intros [|[e|r] q]; simpl; try lia.
  - destruct closed; simpl; lia.
  - specialize (IH q). destruct (receive n q closed) as [[es t] q']. simpl in *. lia.
Qed.

Lemma insert_existing_size {V} (m : gmap Z V) i x y : m !! i = Some x → size (<[i := y]> m) = size m.
Proof. intros H. rewrite map_size_insert, H. done. Qed.

Lemma dispatch_operation_ok provider s o deadline p1 p2 :
  service_ok s → service_ok (dispatch_operation provider s o deadline p1 p2).2.
Proof.
  intros Hs. unfold dispatch_operation. destruct (check_request deadline p1); [|done].
  destruct Hs as (Hw & Hcap & Hsize & Hq).
  destruct o as [| |v mode|id n|id|c n]; try done.
  - unfold start_scan. destruct (fp_discover_volumes provider); [|done].
    destruct (List.find _ _) as [volume|]; [|done]. destruct (check_request deadline p2); [|done].
    destruct (Nat.leb_spec MAX_ACTIVE_SCANS (size (bv_scans s))) as [|Hlt]; [done|].
    destruct (fp_scan provider mode volume) as [evs fin]. simpl. unfold service_ok. simpl.
    split_and!; try done.
    + rewrite map_size_insert. destruct (bv_scans s !! bv_next_scan_id s); simpl; lia.
    + apply map_Forall_insert_2; [simpl; lia|done].
  - unfold read_scan_page. destruct (bv_scans s !! id) as [st|] eqn:Hst; [|done].
    pose proof (Hq id st Hst) as Hlen. cbn beta in Hlen.
    pose proof (receive_queue (Z.to_nat n) (st_queue st) (worker_gone (st_worker st))) as [Hr _].
    destruct (match st_pending_terminal st with Some _ => _ | None => _ end) as [[es t] q] eqn:Hrecv.
    assert (length q ≤ SCAN_QUEUE_EVENTS) as Hql.
    { destruct (st_pending_terminal st); [by simplify_eq|]. rewrite Hrecv in Hr. simpl in Hr. lia. }
    assert (∀ w, service_ok (set_scans (<[id := MkScanState q (st_cancellation st) (st_worker st) w]>) s)) as Hins.
    { intros w. split_and!; try done; simpl; [by rewrite (insert_existing_size _ _ st)|].
      by apply map_Forall_insert_2. }
    destruct t as [r|]; [destruct (0 <? length es)|]; try apply Hins. simpl.
    split_and!; try done; simpl; [rewrite map_size_delete, Hst; simpl; lia|]. by apply map_Forall_delete.
  - unfold cancel_scan. destruct (bv_scans s !! id) as [st|] eqn:Hst; [|done]. simpl.
    split_and!; try done; simpl; [rewrite map_size_delete, Hst; simpl; lia|]. by apply map_Forall_delete.
Qed.

Lemma dispatch_ok provider s request p0 p1 p2 :
  service_ok s → service_ok (dispatch provider s request p0 p1 p2).2.
Proof.
  intros Hs. unfold dispatch. destruct (BrokerRequest_validate request); [|done].
  destruct Hs as (Hw & Hcap & Hs).
  pose proof (admit_spec (bv_replay s) (br_request_id request) Hw) as Ha. rewrite Hcap in Ha.
  specialize (Ha ltac:(unfold REPLAY_WINDOW_REQUESTS; lia)). case_decide.
  { rewrite Ha. done. }
  destruct Ha as (w' & -> & Hw' & Hc' & _).
  assert (service_ok (MkBrokerService w' (bv_scans s) (bv_next_scan_id s))) as Hs' by (split_and!; done || apply Hs).
  destruct (pb_cancelled p0); [done|].
  apply (dispatch_operation_ok provider _ (br_operation request) (broker_effective_deadline_ms request) p1 p2) in Hs'.
  by destruct (dispatch_operation _ _ _ _ _ _).
Qed.

(** Bounded broker: in every interleaving of requests, scan workers and dying workers the
    broker has at most 4 scans, at most 256 queued messages per scan, and a replay window of at
    most 4,096 distinct identifiers whose lookup set holds exactly the identifiers in the window.
    *)
Theorem service_bounded s : rtc service_step new_service s → service_ok s.
Proof.
  revert s. apply rtc_ind_r.
  { split; [split; [apply NoDup_nil_2|split; [done|simpl; lia]]|]. split_and!; try done.
    cbn [bv_scans new_service]. rewrite map_size_empty. lia. }
  intros ? ? _ Hstep Hok. pose proof Hok as (Hw & Hcap & Hsize & Hq).
  destruct Hstep as [s id st Hst|s id st Hst|s pr rq p0 p1 p2 r s' Hd].
  - split_and!; try done; simpl; [by rewrite (insert_existing_size _ _ st)|].
    apply map_Forall_insert_2; [|done]. by apply worker_tick_queue, (Hq id).
  - split_and!; try done; simpl; [by rewrite (insert_existing_size _ _ st)|].
    apply map_Forall_insert_2; [|done]. exact (Hq id st Hst).
  - pose proof (dispatch_ok pr s rq p0 p1 p2 Hok) as Hok'. by rewrite Hd in Hok'.
Qed.

(** ** Delivery of scans *)

Abbreviation scan_run := (list FilesystemEvent * PlatformResult ScanSummary)%type.

(** What a request adds to the record of the scans started and the events delivered. *)
Definition note_run (provider : FilesystemProvider) (request : BrokerRequest) (response : Response)
  (runs : gmap Z scan_run) : gmap Z scan_run :=
  match br_operation request, bs_result response, fp_discover_volumes provider with
  | StartScan v mode, Some (PScanStarted id), Ok volumes =>
      match List.find (λ d, (vd_volume_id d =? v)%N) volumes with
      | Some volume => <[id := fp_scan provider mode volume]> runs
      | None => runs
      end
  | _, _, _ => runs
  end.

Definition note_page (request : BrokerRequest) (response : Response)
  (got : gmap Z (list FilesystemEvent)) : gmap Z (list FilesystemEvent) :=
  match br_operation request, bs_result response with
  | StartScan _ _, Some (PScanStarted id) => <[id := []]> got
  | ReadScanPage id _, Some (PScanPage page) => <[id := default [] (got !! id) ++ sp_events page]> got
  | _, _ => got
  end.

(** Services reached from a new one, with the runs of the scans and the events handed out. *)
Inductive tracked : BrokerService → gmap Z scan_run → gmap Z (list FilesystemEvent) → Prop :=
| tr_new : tracked new_service ∅ ∅
| tr_tick s runs got id st :
    tracked s runs got → bv_scans s !! id = Some st →
    tracked (set_scans (<[id := worker_tick st]>) s) runs got
| tr_panic s runs got id st :
    tracked s runs got → bv_scans s !! id = Some st →
    tracked (set_scans (<[id := MkScanState (st_queue st) (st_cancellation st) Gone
                                  (st_pending_terminal st)]>) s) runs got
| tr_request s runs got provider request p0 p1 p2 response s' :
    tracked s runs got → dispatch provider s request p0 p1 p2 = (response, s') →
    tracked s' (note_run provider request response runs) (note_page request response got).

(** A worker that died: its scan ends with this error. *)
Definition stopped_error : PlatformError :=
  MkPlatformError Internal "scan_worker" "scan producer stopped without terminal state".

(** The queue, the worker and what was delivered make up the run. *)
Definition scan_ok (st : ScanState) (got : list FilesystemEvent) (run : scan_run) : Prop :=
  st_cancellation st = false ∧
  match st_pending_terminal st with
  | Some r => st_queue st = [] ∧ st_worker st = Gone ∧
      (r = run.2 ∧ got = run.1 ∨ r = Err stopped_error ∧ got `prefix_of` run.1)
  | None => ∃ queued,
      st_queue st = (MEvent <$> queued) ∧
        (∃ todo, st_worker st = Emitting todo run.2 ∧ got ++ queued ++ todo = run.1) ∨
      st_queue st = (MEvent <$> queued) ∧ st_worker st = Gone ∧ (got ++ queued) `prefix_of` run.1 ∨
      st_queue st = (MEvent <$> queued) ++ [MTerminal run.2] ∧ st_worker st = Gone ∧ got ++ queued = run.1
  end.

Lemma worker_tick_ok st got run : scan_ok st got run → scan_ok (worker_tick st) got run.
Proof.
  intros [Hc Hs]. unfold worker_tick. rewrite Hc.
  destruct (st_worker st) as [todo fin|] eqn:Hw; [|split; [done|]; by rewrite Hw].
  destruct (st_pending_terminal st) as [r|] eqn:Hp; [naive_solver|].
  destruct (length (st_queue st) <? SCAN_QUEUE_EVENTS); [|split; [done|]; by rewrite Hp, Hw].
  destruct Hs as (queued & [(Hq & todo' & Hw' & Hrun)|[(_ & ? & _)|(_ & ? & _)]]); [|congruence..].
  injection Hw' as -> ->. split; [by destruct todo'|].
  destruct todo' as [|e todo]; cbn [st_pending_terminal st_queue st_worker]; rewrite Hq.
  - rewrite app_nil_r in Hrun. exists queued. right; right. done.
  - exists (queued ++ [e]). left. split; [by rewrite fmap_app|]. exists todo. split; [done|].
    rewrite <-Hrun, <-!app_assoc. done.
Qed.

Lemma worker_panic_ok st got run :
  scan_ok st got run →
  scan_ok (MkScanState (st_queue st) (st_cancellation st) Gone (st_pending_terminal st)) got run.
Proof.
  intros [Hc Hs]. split; [done|]. simpl. destruct (st_pending_terminal st); [naive_solver|].
  destruct Hs as (queued & [(Hq & todo & Hw & Hrun)|[(Hq & _ & Hrun)|(Hq & _ & Hrun)]]);
    exists queued; [right; left|right; left|right; right]; split_and!; try done.
  exists todo. by rewrite <-Hrun, <-app_assoc.
Qed.

(** What receiving from such a queue gives. *)
Lemma receive_events n queued closed :
  receive n (MEvent <$> queued) closed =
    (take n queued, if closed && (length queued <? n) then Some (Err stopped_error) else None,
     MEvent <$> drop n queued).
Proof.
  revert queued. induction n as [|n IH]; intros [|e queued]; simpl; try done.
  - by rewrite andb_false_r.
  - by rewrite andb_false_r.
  - destruct closed; done.
  - rewrite IH. done.
Qed.

Lemma receive_terminal n queued r closed :
  receive n ((MEvent <$> queued) ++ [MTerminal r]) closed =
    if length queued <? n then (queued, Some r, [])
    else (take n queued, None, (MEvent <$> drop n queued) ++ [MTerminal r]).
Proof.
  revert queued. induction n as [|n IH]; intros [|e queued]; simpl; try done.
  rewrite IH. change (S (length queued) <? S n) with (length queued <? n).
  by destruct (length queued <? n).
Qed.

(** How a terminal message relates to what was delivered. *)
Definition ended (r : PlatformResult ScanSummary) (got : list FilesystemEvent) (run : scan_run) : Prop :=
  r = run.2 ∧ got = run.1 ∨ r = Err stopped_error ∧ got `prefix_of` run.1.

Lemma ended_prefix r got run : ended r got run → got `prefix_of` run.1.
Proof. by intros [[_ ->]|[_ ?]]. Qed.

Lemma receive_ok st got run n :
  scan_ok st got run → st_pending_terminal st = None →
  let '(es, t, q) := receive n (st_queue st) (worker_gone (st_worker st)) in
  (got ++ es) `prefix_of` run.1 ∧ length es ≤ n ∧
  match t with
  | None => scan_ok (MkScanState q (st_cancellation st) (st_worker st) None) (got ++ es) run
  | Some r => q = [] ∧ st_worker st = Gone ∧ ended r (got ++ es) run
  end.
Proof.
  intros [Hc Hs] Hp. rewrite Hp in Hs.
  destruct Hs as (queued & [(Hq & todo & Hw & Hrun)|[(Hq & Hw & Hrun)|(Hq & Hw & Hrun)]]); rewrite Hq, Hw; simpl.
  - rewrite receive_events. simpl. split; [|split; [rewrite length_take; lia|split; [done|]]].
    + exists (drop n queued ++ todo). by rewrite <-Hrun, <-app_assoc, (app_assoc (take n queued)), take_drop.
    + exists (drop n queued). left. split; [done|]. exists todo. split; [done|].
      by rewrite <-Hrun, <-app_assoc, (app_assoc (take n queued)), take_drop.
  - rewrite receive_events. simpl.
    assert ((got ++ take n queued) `prefix_of` run.1) as Hpre.
    { etransitivity; [|exact Hrun]. apply prefix_app. exists (drop n queued). by rewrite take_drop. }
    split; [done|]. split; [rewrite length_take; lia|].
    destruct (Nat.ltb_spec (length queued) n) as [Hlt|Hge].
    + rewrite drop_ge by lia. split; [done|]. split; [done|]. by right.
    + split; [done|]. exists (drop n queued). right; left. split_and!; try done.
      by rewrite <-app_assoc, take_drop.
  - rewrite receive_terminal. destruct (Nat.ltb_spec (length queued) n) as [Hlt|Hge].
    + rewrite Hrun. split; [done|]. split; [lia|]. split; [done|]. split; [done|]. by left.
    + split; [exists (drop n queued); by rewrite <-Hrun, <-app_assoc, take_drop|].
      split; [rewrite length_take; lia|]. split; [done|]. exists (drop n queued). right; right.
      split_and!; try done. by rewrite <-app_assoc, take_drop.
Qed.

(** A page of a scan in progress. *)
Definition page_promise (n : Z) (got : list FilesystemEvent) (run : scan_run) (page : ScanPage) : Prop :=
  (got ++ sp_events page) `prefix_of` run.1 ∧ length (sp_events page) ≤ Z.to_nat n ∧
  sp_has_more page = negb (sp_complete page) ∧
  if sp_complete page
  then got ++ sp_events page = run.1 ∧ ∃ summary, run.2 = Ok summary ∧ sp_checkpoint page = Some (ss_checkpoint summary)
  else sp_checkpoint page = None.

Lemma read_scan_page_ok s id n st got run r s' :
  bv_scans s !! id = Some st → scan_ok st got run → read_scan_page s id n = (r, s') →
  match r with
  | Ok (PScanPage page) => page_promise n got run page ∧
      if sp_complete page then bv_scans s' = delete id (bv_scans s)
      else ∃ st', bv_scans s' = <[id := st']> (bv_scans s) ∧ scan_ok st' (got ++ sp_events page) run
  | Ok _ => False
  | Err _ => bv_scans s' = delete id (bv_scans s) ∧
      ((∃ e, run.2 = Err e ∧ r = Err (platform_error e)) ∨ r = Err (platform_error stopped_error))
  end.
Proof.
  intros Hst Hok. unfold read_scan_page. rewrite Hst.
  destruct (st_pending_terminal st) as [t|] eqn:Hp.
  - destruct Hok as [_ Hok]. rewrite Hp in Hok. destruct Hok as (_ & _ & Hend). simpl.
    destruct t as [summary|e]; intros [= <- <-]; simpl.
    + unfold page_promise. simpl. rewrite app_nil_r. destruct Hend as [[Hr ->]|[? _]]; [|done].
      split; [|done]. split; [done|]. split; [simpl; lia|]. split; [done|]. eauto.
    + split; [done|]. destruct Hend as [[Hr _]|[Hr _]]; [left; eauto|right; congruence].
  - pose proof (receive_ok st got run (Z.to_nat n) Hok Hp) as Hrecv.
    destruct (receive _ _ _) as [[es t] q]. destruct Hrecv as (Hpre & Hlen & Ht).
    destruct t as [t|].
    + destruct Ht as (-> & Hw & Hend). destruct (Nat.ltb_spec 0 (length es)) as [Hes|Hes].
      * intros [= <- <-]. simpl. split; [by split_and!|]. eexists. split; [reflexivity|].
        split; [apply Hok|]. simpl. done.
      * assert (es = []) as -> by (destruct es; [done|simpl in *; lia]). rewrite app_nil_r in *.
        destruct t as [summary|e]; intros [= <- <-]; simpl.
        -- unfold page_promise. simpl. rewrite app_nil_r. destruct Hend as [[Hr ->]|[? _]]; [|done].
           split; [|done]. split; [done|]. split; [simpl; lia|]. split; [done|]. eauto.
        -- split; [done|]. destruct Hend as [[Hr _]|[Hr _]]; [left; eauto|right; congruence].
    + intros [= <- <-]. simpl. split; [by split_and!|]. eexists. split; [reflexivity|done].
Qed.

Definition scans_ok (scans : gmap Z ScanState) (runs : gmap Z scan_run)
  (got : gmap Z (list FilesystemEvent)) : Prop :=
  map_Forall (λ id st, ∃ run g, runs !! id = Some run ∧ got !! id = Some g ∧ scan_ok st g run) scans.

Lemma scans_ok_insert scans runs got id st run g :
  scans_ok scans runs got → runs !! id = Some run → got !! id = Some g → scan_ok st g run →
  scans_ok (<[id := st]> scans) runs got.
Proof. intros Hs Hr Hg Hok. apply map_Forall_insert_2; eauto. Qed.

Lemma scans_ok_delete scans runs got id : scans_ok scans runs got → scans_ok (delete id scans) runs got.
Proof. apply map_Forall_delete. Qed.

(** Changing the record of one scan, with a new state for it. *)
Lemma scans_ok_replace scans runs got id st run g :
  scans_ok scans runs got → scan_ok st g run →
  scans_ok (<[id := st]> scans) (<[id := run]> runs) (<[id := g]> got).
Proof.
  intros Hs Hok j st' Hj. apply lookup_insert_Some in Hj as [[-> ->]|[Hne Hj]].
  - exists run, g. by rewrite !lookup_insert_eq.
  - rewrite !lookup_insert_ne by done. by apply Hs.
Qed.

Lemma insert_same {V} (m : gmap Z V) i x : m !! i = Some x → <[i := x]> m = m.
Proof. apply insert_id. Qed.

(** A request that was let through to its operation, or the scans are as before. *)
Lemma dispatch_inv provider s request p0 p1 p2 response s' :
  dispatch provider s request p0 p1 p2 = (response, s') →
  bv_scans s' = bv_scans s ∧ bs_result response = None ∨
  ∃ s1 r, bv_scans s1 = bv_scans s ∧ bv_next_scan_id s1 = bv_next_scan_id s ∧
    dispatch_operation provider s1 (br_operation request) (broker_effective_deadline_ms request) p1 p2 = (r, s')
    ∧ bs_result response = ok_value r.
Proof.
  unfold dispatch. destruct (BrokerRequest_validate request); [|intros [= <- <-]; by left].
  destruct (replay_admit _ _) as [w|]; [|intros [= <- <-]; by left].
  destruct (pb_cancelled p0); [intros [= <- <-]; by left|].
  destruct (dispatch_operation _ _ _ _ _ _) as [r s2] eqn:Hd. intros [= <- <-]. right.
  eexists _, r. split_and!; [| |exact Hd|]; try done. by destruct r.
Qed.

Lemma dispatch_scans_ok provider s request p0 p1 p2 response s' runs got :
  scans_ok (bv_scans s) runs got → dispatch provider s request p0 p1 p2 = (response, s') →
  scans_ok (bv_scans s') (note_run provider request response runs) (note_page request response got).
Proof.
  intros Hs [[-> Hr]|(s1 & r & Hs1 & Hid & Hd & Hr)]%dispatch_inv; unfold note_run, note_page; rewrite Hr.
  { by destruct (br_operation request). }
  rewrite <-Hs1 in Hs. unfold dispatch_operation in Hd.
  destruct (check_request _ p1); [|simplify_eq; by destruct (br_operation request)].
  destruct (br_operation request) as [| |v mode|id n|id|c n].
  - by simplify_eq.
  - by simplify_eq.
  - unfold start_scan in Hd. destruct (fp_discover_volumes provider) as [volumes|]; [|by simplify_eq].
    destruct (List.find _ volumes) as [volume|]; [|by simplify_eq].
    destruct (check_request _ p2); [|by simplify_eq]. destruct (_ <=? _); [by simplify_eq|].
    destruct (fp_scan provider mode volume) as [evs fin]. injection Hd as <- <-. simpl.
    apply scans_ok_replace; [done|]. split; [done|]. exists []. left. split; [done|]. by exists evs.
  - destruct (bv_scans s1 !! id) as [st|] eqn:Hst.
    2: { unfold read_scan_page in Hd. rewrite Hst in Hd. by simplify_eq. }
    destruct (Hs id st Hst) as (run & g & Hrun & Hg & Hok).
    pose proof (read_scan_page_ok s1 id n st g run r s' Hst Hok Hd) as Hread.
    destruct r as [[| | |page| |]|e]; try done; simpl.
    + rewrite Hg. simpl. destruct Hread as [_ Hread]. destruct (sp_complete page).
      * rewrite Hread. intros j st' Hj. apply lookup_delete_Some in Hj as [Hne Hj].
        rewrite lookup_insert_ne by done. by apply Hs.
      * destruct Hread as (st' & -> & Hok'). rewrite <-(insert_same runs id run Hrun).
        by apply scans_ok_replace.
    + destruct Hread as [-> _]. by apply scans_ok_delete.
  - unfold cancel_scan in Hd. destruct (bv_scans s1 !! id); simplify_eq; simpl; [by apply scans_ok_delete|done].
  - unfold service_read_changes in Hd. by simplify_eq.
Qed.

Lemma tracked_ok s runs got : tracked s runs got → scans_ok (bv_scans s) runs got.
Proof.
  induction 1 as [|s runs got id st _ IH Hst|s runs got id st _ IH Hst|
    s runs got pr rq p0 p1 p2 resp s' _ IH Hd].
  - apply map_Forall_empty.
  - destruct (IH id st Hst) as (run & g & ? & ? & ?). simpl. eapply scans_ok_insert; eauto using worker_tick_ok.
  - destruct (IH id st Hst) as (run & g & ? & ? & ?). simpl. eapply scans_ok_insert; eauto using worker_panic_ok.
  - by eapply dispatch_scans_ok.
Qed.

(** C10 (scan pages): whatever the interleaving, the pages of a scan are consecutive parts of the
    events the provider emitted for it, none longer than asked for; the page that says complete
    comes when all of them were delivered, carries the provider's checkpoint, and ends the scan.
    No other page carries a checkpoint. *)
Theorem scan_pages_exact s runs got provider request p0 p1 p2 response s' id n page :
  tracked s runs got → dispatch provider s request p0 p1 p2 = (response, s') →
  br_operation request = ReadScanPage id n → bs_result response = Some (PScanPage page) →
  ∃ run delivered, runs !! id = Some run ∧ got !! id = Some delivered ∧
    page_promise n delivered run page ∧
    (sp_complete page = true → bv_scans s' !! id = None).
Proof.
  intros Ht Hd Hop Hres. apply tracked_ok in Ht.
  apply dispatch_inv in Hd as [[_ Hr]|(s1 & r & Hs1 & _ & Hd & Hr)]; [congruence|].
  rewrite Hop in Hd. rewrite Hres in Hr. unfold dispatch_operation in Hd.
  destruct (check_request _ p1); [|by simplify_eq].
  destruct (bv_scans s1 !! id) as [st|] eqn:Hst.
  2: { unfold read_scan_page in Hd. rewrite Hst in Hd. by simplify_eq. }
  rewrite Hs1 in Hst. destruct (Ht id st Hst) as (run & g & Hrun & Hg & Hok). rewrite <-Hs1 in Hst.
  pose proof (read_scan_page_ok s1 id n st g run r s' Hst Hok Hd) as Hread.
  destruct r as [[| | |page'| |]|e]; try done. simpl in Hr. injection Hr as <-.
  destruct Hread as [Hpage Hrest]. exists run, g. split_and!; try done.
  intros Hc. rewrite Hc in Hrest. rewrite Hrest. apply lookup_delete_eq.
Qed.

(** ** Concrete instances *)

Definition sample_capabilities : PlatformCapabilities :=
  MkPlatformCapabilities FamilyWindows FilesystemCrawl PersistentObjectJournal OptionalBroker true true true.

Definition scan_provider : FilesystemProvider :=
  MkFilesystemProvider sample_capabilities (Ok [descriptor])
    (λ _ _, ([observe_dir 1; observe_link 10 1 None "C:"], Ok (MkScanSummary (checkpoint_at 7) 2)))
    (λ _ _, Err (MkPlatformError InvalidCheckpoint "decode_checkpoint" "provider or format mismatch")).

Definition request (id : string) (o : BrokerOperation) : BrokerRequest := MkBrokerRequest 1 1 id 0 o.
Definition at_once : Probe := MkProbe false 0.

Definition run_request (s : BrokerService) (id : string) (o : BrokerOperation) : BrokerService :=
  (dispatch scan_provider s (request id o) at_once at_once at_once).2.
Definition tick_scan (s : BrokerService) (id : Z) : BrokerService :=
  match bv_scans s !! id with Some st => set_scans (<[id := worker_tick st]>) s | None => s end.

Definition started : BrokerService := run_request new_service "r1" (StartScan vol InitialScan).
Definition ticked : BrokerService := tick_scan (tick_scan (tick_scan started 1) 1) 1.
Definition paged : BrokerService := run_request ticked "r2" (ReadScanPage 1 256).

Lemma service_bounded_witness : service_ok paged.
Proof.
  apply service_bounded.
  apply (rtc_l _ _ started).
  { apply (step_request _ scan_provider (request "r1" (StartScan vol InitialScan)) at_once at_once at_once
      (dispatch scan_provider new_service (request "r1" (StartScan vol InitialScan)) at_once at_once at_once).1).
    apply surjective_pairing. }
  apply (rtc_l _ _ (tick_scan started 1)); [by eapply step_tick|].
  apply (rtc_l _ _ (tick_scan (tick_scan started 1) 1)); [by eapply step_tick|].
  apply (rtc_l _ _ ticked); [by eapply step_tick|].
  apply rtc_once, (step_request _ scan_provider (request "r2" (ReadScanPage 1 256)) at_once at_once at_once
    (dispatch scan_provider ticked (request "r2" (ReadScanPage 1 256)) at_once at_once at_once).1).
  apply surjective_pairing.
Defined.

Lemma tracked_dispatch s runs got id o :
  tracked s runs got →
  let response := (dispatch scan_provider s (request id o) at_once at_once at_once).1 in
  tracked (run_request s id o) (note_run scan_provider (request id o) response runs)
    (note_page (request id o) response got).
Proof. intros Ht response. eapply tr_request; [exact Ht|]. apply surjective_pairing. Qed.

(** The page after the events carries the checkpoint. *)
Lemma scan_pages_exact_witness :
  ∃ response s' run,
    dispatch scan_provider paged (request "r3" (ReadScanPage 1 256)) at_once at_once at_once = (response, s') ∧
    page_promise 256 [observe_dir 1; observe_link 10 1 None "C:"] run
      (MkScanPage [] (Some (checkpoint_at 7)) true false).
Proof.
  assert (∃ runs got, tracked paged runs got ∧
    got !! 1%Z = Some [observe_dir 1; observe_link 10 1 None "C:"]) as (runs & got & Ht & Hg).
  { eexists _, _. split.
    - apply tracked_dispatch, (tr_tick _ _ _ 1%Z), eq_refl.
      apply (tr_tick _ _ _ 1%Z (worker_tick (MkScanState [] false
        (Emitting [observe_dir 1; observe_link 10 1 None "C:"] (Ok (MkScanSummary (checkpoint_at 7) 2))) None)));
        [|reflexivity].
      apply (tr_tick _ _ _ 1%Z (MkScanState [] false
        (Emitting [observe_dir 1; observe_link 10 1 None "C:"] (Ok (MkScanSummary (checkpoint_at 7) 2))) None));
        [|reflexivity].
      apply tracked_dispatch, tr_new.
    - vm_compute. reflexivity. }
  destruct (dispatch scan_provider paged (request "r3" (ReadScanPage 1 256)) at_once at_once at_once)
    as [response s'] eqn:Hd.
  destruct (scan_pages_exact paged runs got scan_provider (request "r3" (ReadScanPage 1 256))
    at_once at_once at_once response s' 1 256 (MkScanPage [] (Some (checkpoint_at 7)) true false) Ht Hd eq_refl)
    as (run & delivered & _ & Hdel & Hpage & _).
  { change response with (response, s').1. rewrite <-Hd. vm_compute. reflexivity. }
  exists response, s', run. split; [reflexivity|]. rewrite Hg in Hdel. by injection Hdel as <-.
Defined.
