(* ===== verification/BrokerClient.v ===== *)
(** The broker-backed provider ([crates/broker-client/src/lib.rs]): requests with sequential
    identifiers over a transport, the translation of failures, and the paged scan as the portable
    provider operation.

    A transport is an operation on a state of its own, so that the broker service can stand behind
    it.  Sinks collect events and do not fail. *)
From Stdlib Require Import Ascii String.
From stdpp Require Import base strings numbers pretty gmap list.
From S2P Require Import Prelude Ids Models Frames Platform Broker.

Definition BROKER_DEADLINE_MS : Z := 5000.

Inductive BrokerTransportError :=
| TransportUnavailable | TransportDeadlineExceeded | TransportCancelled | TransportIncompatible.

Definition transport_error (error : BrokerTransportError) : PlatformError :=
  MkPlatformError
    match error with
    | TransportUnavailable => Unavailable
    | TransportDeadlineExceeded => ResourceExhausted
    | TransportCancelled => Cancelled
    | TransportIncompatible => Internal
    end "broker_transport" "broker transport failed".

Definition wire_error_kind (code : BrokerErrorCode) : PlatformErrorKind :=
  match code with
  | BPermissionDenied => PermissionDenied
  | BUnsupported => Unsupported
  | BUnavailable | BNotFound => Unavailable
  | BSourceHistoryGap => SourceHistoryGap
  | BResourceExhausted | BDeadlineExceeded | BReplayRejected => ResourceExhausted
  | BCancelled => Cancelled
  | BInvalidRequest | BUnsupportedProtocolVersion | BUnsupportedCodecVersion | BInternal => Internal
  end.
Definition wire_error (code : BrokerErrorCode) : PlatformError :=
  MkPlatformError (wire_error_kind code) "broker_response" "broker rejected metadata operation".

Definition incompatible (detail : string) : PlatformError :=
  MkPlatformError Internal "broker_contract" detail.

Definition unavailable_capabilities : PlatformCapabilities :=
  MkPlatformCapabilities FamilyWindows FilesystemCrawl SnapshotOnly OptionalBroker false false false.

(** [format!("broker-client-{sequence}")]. *)
Definition request_id_of (sequence : Z) : string := "broker-client-" +:+ pretty (Z.to_N sequence).

Section client.
Context {T : Type} (transport : BrokerRequest → T → result BrokerTransportError Response * T).

(** The request counter of the provider and the world behind the transport. *)
Record client_state := MkClientState { cs_next_request_id : Z; cs_world : T }.

Abbreviation Client := (St client_state PlatformError).

Definition invoke (operation : BrokerOperation) : Client BrokerPayload := λ s,
  let sequence := cs_next_request_id s in
  let request := MkBrokerRequest BROKER_PROTOCOL_VERSION BROKER_CODEC_VERSION (request_id_of sequence)
                   BROKER_DEADLINE_MS operation in
  let '(reply, world) := transport request (cs_world s) in
  (response ← map_err transport_error reply;
   if negb (bs_protocol_version response =? BROKER_PROTOCOL_VERSION)%Z
      || negb (bool_decide (bs_request_id response = br_request_id request))
   then Err (incompatible "broker response correlation mismatch")
   else
     match bs_result response, bs_error response with
     | Some payload, None => Ok payload
     | None, Some error => Err (wire_error (we_code error))
     | _, _ => Err (incompatible "broker response union mismatch")
     end, MkClientState ((sequence + 1) mod 2 ^ 64) world).

(** [BrokerFilesystemProvider::connect]: the provider's capabilities. *)
Definition connect (world : T) : PlatformResult PlatformCapabilities * client_state :=
  (payload ← invoke BrokerGetCapabilities;
   match payload with
   | PCapabilities capabilities =>
       if bool_decide (BROKER_PROTOCOL_VERSION ∈ bc_protocol_versions capabilities)
          && bool_decide (BROKER_CODEC_VERSION ∈ bc_codec_versions capabilities)
       then mret (bc_provider capabilities)
       else st_fail (incompatible "broker version negotiation failed")
   | _ => st_fail (incompatible "capability response type mismatch")
   end) (MkClientState 1 world).

Definition client_discover_volumes : Client (list VolumeDescriptor) :=
  payload ← invoke DiscoverVolumes;
  match payload with
  | PVolumes volumes => mret volumes
  | _ => st_fail (incompatible "volume response mismatch")
  end.

Definition start_paged_scan (v : volume_id) (mode : ScanMode) : Client Z :=
  payload ← invoke (StartScan v mode);
  match payload with
  | PScanStarted scan_id => mret scan_id
  | _ => st_fail (incompatible "scan start response mismatch")
  end.

Definition read_paged_scan (scan_id maximum_events : Z) : Client ScanPage :=
  let maximum_events := Z.min maximum_events MAX_BROKER_PAGE_EVENTS in
  if (maximum_events =? 0)%Z
  then st_fail (MkPlatformError ResourceExhausted "broker_scan" "event count must be positive")
  else
    payload ← invoke (ReadScanPage scan_id maximum_events);
    match payload with
    | PScanPage page => mret page
    | _ => st_fail (incompatible "scan page response mismatch")
    end.

Definition cancel_paged_scan (scan_id : Z) : Client unit :=
  payload ← invoke (CancelScan scan_id);
  match payload with
  | PScanCancelled cancelled =>
      if (cancelled =? scan_id)%Z then mret tt
      else st_fail (incompatible "scan cancellation response mismatch")
  | _ => st_fail (incompatible "scan cancellation response mismatch")
  end.

(** The pull loop of [scan]; [expired] is what the clock says at each turn, and [None] is running
    out of fuel.  The first component is what the sink has received. *)
Fixpoint scan_loop (fuel : nat) (expired : nat → bool) (scan_id emitted : Z)
  (received : list FilesystemEvent) (s : client_state)
  : option (list FilesystemEvent * PlatformResult ScanSummary * client_state) :=
  match fuel with
  | O => None
  | S fuel =>
      if expired fuel then
        let '(_, s) := cancel_paged_scan scan_id s in
        Some (received, Err (MkPlatformError ResourceExhausted "broker_scan"
                               "broker scan exceeded client lifecycle deadline"), s)
      else
        match read_paged_scan scan_id MAX_BROKER_PAGE_EVENTS s with
        | (Err e, s) => Some (received, Err e, s)
        | (Ok page, s) =>
            match u64_checked_add emitted (Z.of_nat (length (sp_events page))) with
            | None => Some (received, Err (MkPlatformError ResourceExhausted "broker_scan"
                                             "event count overflow"), s)
            | Some emitted =>
                let received := received ++ sp_events page in
                if sp_complete page then
                  Some (received,
                        match sp_checkpoint page with
                        | Some checkpoint => Ok (MkScanSummary checkpoint emitted)
                        | None => Err (incompatible "completed scan omitted checkpoint")
                        end, s)
                else scan_loop fuel expired scan_id emitted received s
            end
        end
  end.

Definition client_scan (fuel : nat) (expired : nat → bool) (volume : VolumeDescriptor) (mode : ScanMode)
  (s : client_state) : option (list FilesystemEvent * PlatformResult ScanSummary * client_state) :=
  match start_paged_scan (vd_volume_id volume) mode s with
  | (Err e, s) => Some ([], Err e, s)
  | (Ok scan_id, s) => scan_loop fuel expired scan_id 0 [] s
  end.

Definition client_read_changes (checkpoint : ProviderCheckpoint) (maximum_events : Z)
  : Client (list FilesystemEvent * ChangeBatch) :=
  let maximum_events := Z.min maximum_events MAX_BROKER_PAGE_EVENTS in
  if (maximum_events =? 0)%Z
  then st_fail (MkPlatformError ResourceExhausted "broker_changes" "event count must be positive")
  else
    payload ← invoke (ReadChanges checkpoint maximum_events);
    match payload with
    | PChanges events batch =>
        if negb (Z.of_nat (length events) =? cb_emitted_events batch)%Z
           || (maximum_events <? Z.of_nat (length events))%Z
        then st_fail (incompatible "change response count mismatch")
        else mret (events, batch)
    | _ => st_fail (incompatible "change response mismatch")
    end.
End client.
