(* ===== verification/BrokerLink.v ===== *)
(** Client and broker together.

    [direct] is a transport that hands each request to a [BrokerService], after its scan workers
    have made some turns.  Over it the broker-backed provider is the provider behind the broker:
    the same events, the same checkpoints, and failures up to the translation of their kinds. *)
From Stdlib Require Import Ascii String.
From stdpp Require Import base strings numbers pretty gmap list sets.
From S2P Require Import Prelude Ids Models Fixtures Frames Platform Broker BrokerSpec BrokerClient.

(** ** Request identifiers *)

Lemma pretty_N_go_length d x s :
  (x < 10 ^ N.of_nat d)%N → String.length (pretty_N_go x s) ≤ d + String.length s.
Proof.
  revert x s. induction d as [|d IH]; intros x s Hx.
  { assert (x = 0%N) as -> by (simpl in Hx; lia). rewrite pretty_N_go_0. lia. }
  destruct (decide (x = 0)%N) as [->|Hnz]; [rewrite pretty_N_go_0; lia|].
  rewrite pretty_N_go_step by lia. etransitivity; [apply IH|simpl; lia].
  apply N.Div0.div_lt_upper_bound. rewrite Nat2N.inj_succ, N.pow_succ_r' in Hx. lia.
Qed.

Lemma string_length_append (a b : string) : String.length (a +:+ b) = String.length a + String.length b.
Proof. induction a as [|c a IH]; [done|]. change (S (String.length (a +:+ b)) = S (String.length a) + String.length b). lia. Qed.

Lemma request_id_length n : (n < 2 ^ 64)%Z → 0 < String.length (request_id_of n) ≤ 64.
Proof.
  intros Hn. unfold request_id_of. rewrite string_length_append. unfold pretty, pretty_N.
  case_decide; [simpl; lia|].
  assert (String.length (pretty_N_go (Z.to_N n) "") ≤ 20 + 0) as Hl.
  { apply pretty_N_go_length. change (10 ^ N.of_nat 20)%N with 100000000000000000000%N.
    change (2 ^ 64)%Z with 18446744073709551616%Z in Hn. lia. }
  revert Hl. generalize (String.length (pretty_N_go (Z.to_N n) "")). simpl. lia.
Qed.

Lemma request_id_inj a b : (0 ≤ a)%Z → (0 ≤ b)%Z → request_id_of a = request_id_of b → a = b.
Proof.
  intros Ha Hb H. unfold request_id_of in H. apply (inj (String.append _)) in H. apply (inj pretty) in H. lia.
Qed.

(** ** A transport to a broker service *)

Record direct_world := MkDirectWorld { dw_service : BrokerService; dw_count : nat }.

(** Every scan worker makes [k] turns. *)
Definition run_workers (k : nat) (s : BrokerService) : BrokerService :=
  set_scans (fmap (Nat.iter k worker_tick)) s.

Section direct.
Context (provider : FilesystemProvider) (schedule : nat → nat) (probe : nat → Probe).

Definition direct (request : BrokerRequest) (w : direct_world)
  : result BrokerTransportError Response * direct_world :=
  let n := dw_count w in
  let '(response, s) := dispatch provider (run_workers (schedule n) (dw_service w)) request
                          (probe n) (probe n) (probe n) in
  (Ok response, MkDirectWorld s (S n)).

(** Requests are served within their deadline. *)
Definition prompt : Prop :=
  ∀ n, pb_cancelled (probe n) = false ∧ (pb_elapsed_ms (probe n) < BROKER_DEADLINE_MS)%Z.

(** No identifier the client has still to use is in the replay window. *)
Definition fresh_client (c : client_state (T := direct_world)) : Prop :=
  (0 ≤ cs_next_request_id c)%Z ∧
  window_ok (bv_replay (dw_service (cs_world c))) ∧
  rw_capacity (bv_replay (dw_service (cs_world c))) = REPLAY_WINDOW_REQUESTS ∧
  ∀ id, id ∈ rw_order (bv_replay (dw_service (cs_world c))) →
    ∃ k, (0 ≤ k < cs_next_request_id c)%Z ∧ id = request_id_of k.

(** The answer of the broker as the client sees it. *)
Definition seen (r : result ServiceError BrokerPayload) : PlatformResult BrokerPayload :=
  map_err (λ e, wire_error (we_code e)) r.

Lemma prompt_check n : prompt → check_request BROKER_DEADLINE_MS (probe n) = Ok tt.
Proof.
  intros Hp. destruct (Hp n) as [Hc He]. unfold check_request. rewrite Hc.
  destruct (Z.leb_spec BROKER_DEADLINE_MS (pb_elapsed_ms (probe n))); [lia|done].
Qed.

Lemma invoke_direct c o :
  prompt → fresh_client c → (cs_next_request_id c < 2 ^ 64 - 1)%Z → BrokerOperation_validate o = Ok tt →
  ∃ replay r s',
    dispatch_operation provider
      (MkBrokerService replay (bv_scans (run_workers (schedule (dw_count (cs_world c))) (dw_service (cs_world c))))
         (bv_next_scan_id (dw_service (cs_world c)))) o BROKER_DEADLINE_MS
      (probe (dw_count (cs_world c))) (probe (dw_count (cs_world c))) = (r, s') ∧
    invoke direct o c = (seen r, MkClientState (cs_next_request_id c + 1)
      (MkDirectWorld s' (S (dw_count (cs_world c))))) ∧
    (bv_replay s' = replay →
     fresh_client (MkClientState (cs_next_request_id c + 1) (MkDirectWorld s' (S (dw_count (cs_world c)))))).
Proof.
  intros Hprompt (Hn & Hw & Hcap & Hids) Hlt Hop.
  destruct c as [n [s count]]. simpl in *. unfold invoke, direct. simpl.
  pose proof (request_id_length n ltac:(lia)) as Hlen.
  pose proof (admit_spec (bv_replay s) (request_id_of n) Hw) as Ha. rewrite Hcap in Ha.
  specialize (Ha ltac:(unfold REPLAY_WINDOW_REQUESTS; lia)).
  rewrite decide_False in Ha.
  2: { intros (k & Hk & Heq)%Hids. apply request_id_inj in Heq; lia. }
  destruct Ha as (replay & Hadmit & Hw' & Hc' & Horder).
  destruct (dispatch_operation provider (MkBrokerService replay
    (bv_scans (run_workers (schedule count) s)) (bv_next_scan_id s)) o BROKER_DEADLINE_MS
    (probe count) (probe count)) as [r s'] eqn:Hd.
  assert (BrokerRequest_validate (MkBrokerRequest BROKER_PROTOCOL_VERSION BROKER_CODEC_VERSION
    (request_id_of n) BROKER_DEADLINE_MS o) = Ok tt) as Hvalid.
  { unfold BrokerRequest_validate. cbn [br_protocol_version br_codec_version br_request_id br_deadline_ms br_operation].
    destruct (Nat.eqb_spec (String.length (request_id_of n)) 0); [lia|].
    destruct (Nat.ltb_spec MAX_BROKER_REQUEST_ID_BYTES (String.length (request_id_of n))) as [Hb|_];
      [unfold MAX_BROKER_REQUEST_ID_BYTES in Hb; lia|]. exact Hop. }
  exists replay, r, s'. split; [done|].
  unfold dispatch. rewrite Hvalid. cbn [br_request_id]. cbn [bv_replay run_workers set_scans]. rewrite Hadmit.
  destruct (Hprompt count) as [-> _]. cbn [br_operation].
  change (broker_effective_deadline_ms _) with BROKER_DEADLINE_MS. 
  change (bv_next_scan_id (run_workers (schedule count) s)) with (bv_next_scan_id s). rewrite Hd.
  destruct (Nat.leb_spec (String.length (request_id_of n)) 64) as [_|]; [|lia].
  rewrite Z.mod_small by lia. split.
  - destruct r as [payload|e]; cbn [map_err mbind result_bind broker_success broker_failure
      bs_protocol_version bs_request_id bs_result bs_error br_request_id seen];
      rewrite Z.eqb_refl, bool_decide_eq_true_2 by reflexivity; reflexivity.
  - intros Hrep. unfold fresh_client. cbn [cs_next_request_id cs_world dw_service]. rewrite Hrep.
    split; [lia|]. split; [done|]. split; [congruence|].
    intros id Hid. rewrite Horder in Hid. unfold latest in Hid.
    apply subseteq_drop, elem_of_app in Hid as [Hin| ->%list_elem_of_singleton].
    + apply Hids in Hin as (k & Hk & ->). exists k. split; [lia|done].
    + exists n. split; [lia|done].
Qed.

Lemma dispatch_operation_replay s o deadline p1 p2 :
  bv_replay (dispatch_operation provider s o deadline p1 p2).2 = bv_replay s.
Proof.
  unfold dispatch_operation. destruct (check_request deadline p1); [|done].
  destruct o as [| |v mode|id n|id|c n]; try done.
  - unfold start_scan. destruct (fp_discover_volumes provider); [|done].
    destruct (List.find _ _); [|done]. destruct (check_request deadline p2); [|done].
    destruct (_ <=? _); [done|]. by destruct (fp_scan provider mode _).
  - unfold read_scan_page. destruct (bv_scans s !! id) as [st|]; [|done].
    destruct (match st_pending_terminal st with Some _ => _ | None => _ end) as [[es [t|]] q]; [|done].
    by destruct (0 <? length es).
  - unfold cancel_scan. by destruct (bv_scans s !! id).
Qed.

(** What the kinds of the provider's failures become on their way to the client. *)
Definition broker_kind (kind : PlatformErrorKind) : PlatformErrorKind :=
  match kind with InvalidCheckpoint => Unsupported | Io => Unavailable | _ => kind end.

Lemma broker_kind_spec kind : wire_error_kind (platform_error_code kind) = broker_kind kind.
Proof. by destruct kind. Qed.

(** A page of changes as the client takes it: its count must be the one it claims, within the bound. *)
Definition taken (bound : Z) (r : PlatformResult (list FilesystemEvent * ChangeBatch))
  : PlatformResult (list FilesystemEvent * ChangeBatch) :=
  match r with
  | Ok (es, b) =>
      if decide (cb_emitted_events b = Z.of_nat (length es) ∧ (Z.of_nat (length es) ≤ bound)%Z)
      then Ok (es, b) else Err (incompatible "change response count mismatch")
  | Err e => Err (wire_error (platform_error_code (pe_kind e)))
  end.

Lemma client_read_changes_eq checkpoint maximum c :
  prompt → fresh_client c → (cs_next_request_id c < 2 ^ 64 - 1)%Z →
  (0 < maximum)%Z → checkpoint_rejected checkpoint = false →
  let bound := Z.min maximum MAX_BROKER_PAGE_EVENTS in
  (client_read_changes direct checkpoint maximum c).1 = taken bound (fp_read_changes provider checkpoint bound).
Proof.
  intros Hprompt Hfresh Hn Hmax Hck bound. unfold client_read_changes. fold bound.
  assert (0 < bound ≤ 256)%Z as Hb by (unfold bound, MAX_BROKER_PAGE_EVENTS; lia).
  destruct (Z.eqb_spec bound 0); [lia|]. unfold mbind, St_bind.
  destruct (invoke_direct c (ReadChanges checkpoint bound) Hprompt Hfresh Hn) as (replay & r & s' & Hd & -> & _).
  { unfold BrokerOperation_validate, page_rejected. rewrite Hck. unfold MAX_BROKER_PAGE_EVENTS.
    destruct (Z.eqb_spec bound 0), (Z.ltb_spec 256 bound); try lia. done. }
  unfold dispatch_operation in Hd. rewrite prompt_check in Hd by done.
  unfold service_read_changes in Hd. injection Hd as <- _.
  destruct (fp_read_changes provider checkpoint bound) as [[es b]|e]; [|done]. simpl.
  destruct (Z.eqb_spec (Z.of_nat (length es)) (cb_emitted_events b)), (Z.ltb_spec bound (Z.of_nat (length es)));
    case_decide; (done || lia).
Qed.

(** A request that breaks the wire contract is refused before the service sees it. *)
Lemma client_read_changes_refused checkpoint maximum c :
  fresh_client c → (cs_next_request_id c < 2 ^ 64 - 1)%Z → (0 < maximum)%Z → checkpoint_rejected checkpoint = true →
  (client_read_changes direct checkpoint maximum c).1 = Err (wire_error BInvalidRequest).
Proof.
  intros (Hn & _) Hlt Hmax Hck. unfold client_read_changes. set (bound := Z.min maximum MAX_BROKER_PAGE_EVENTS).
  assert (0 < bound ≤ 256)%Z as Hb by (unfold bound, MAX_BROKER_PAGE_EVENTS; lia).
  destruct (Z.eqb_spec bound 0) as [|_]; [lia|]. destruct c as [n [s count]]. simpl in *. unfold mbind, St_bind, invoke, direct. simpl.
  pose proof (request_id_length n ltac:(lia)) as Hlen.
  assert (BrokerRequest_validate (MkBrokerRequest BROKER_PROTOCOL_VERSION BROKER_CODEC_VERSION
    (request_id_of n) BROKER_DEADLINE_MS (ReadChanges checkpoint bound))
    = Err (InvalidWireRequest "provider checkpoint exceeds policy")) as Hvalid.
  { unfold BrokerRequest_validate. cbn [br_protocol_version br_codec_version br_request_id br_deadline_ms br_operation].
    destruct (Nat.eqb_spec (String.length (request_id_of n)) 0); [lia|].
    destruct (Nat.ltb_spec MAX_BROKER_REQUEST_ID_BYTES (String.length (request_id_of n))) as [H|_];
      [unfold MAX_BROKER_REQUEST_ID_BYTES in H; lia|].
    unfold BrokerOperation_validate, page_rejected. rewrite Hck. unfold MAX_BROKER_PAGE_EVENTS.
    destruct (Z.eqb_spec bound 0), (Z.ltb_spec 256 bound); try lia. done. }
  unfold dispatch. rewrite Hvalid. cbn [br_request_id].
  destruct (Nat.leb_spec (String.length (request_id_of n)) 64) as [_|]; [|lia].
  cbn [map_err mbind result_bind contract_failure broker_failure bs_protocol_version bs_request_id bs_result bs_error].
  rewrite Z.eqb_refl, bool_decide_eq_true_2 by reflexivity. reflexivity.
Qed.

(** ** Scans *)

(** A scan between two pages: its queue is empty. *)
Definition between_pages (st : ScanState) (got : list FilesystemEvent) (run : scan_run) : Prop :=
  st_queue st = [] ∧ st_cancellation st = false ∧
  (st_pending_terminal st = Some run.2 ∧ st_worker st = Gone ∧ got = run.1 ∨
   st_pending_terminal st = None ∧ ∃ todo, st_worker st = Emitting todo run.2 ∧ got ++ todo = run.1).

(** An upper bound for the pages still to be pulled. *)
Definition pages_left (st : ScanState) : nat :=
  match st_worker st with Emitting todo _ => length todo + 2 | Gone => 1 end.

Lemma iter_gone k st : st_worker st = Gone → Nat.iter k worker_tick st = st.
Proof. intros Hw. induction k as [|k IH]; simpl; [done|]. rewrite IH. unfold worker_tick. by rewrite Hw. Qed.

(** The turns of a worker into an empty queue. *)
Lemma iter_emitting k todo fin :
  let st := Nat.iter k worker_tick (MkScanState [] false (Emitting todo fin) None) in
  st_cancellation st = false ∧ st_pending_terminal st = None ∧
  ((∃ queued rest, st_queue st = (MEvent <$> queued) ∧ st_worker st = Emitting rest fin ∧
      queued ++ rest = todo ∧ length queued ≤ SCAN_QUEUE_EVENTS ∧ (1 ≤ k → queued ≠ [])) ∨
   st_queue st = (MEvent <$> todo) ++ [MTerminal fin] ∧ st_worker st = Gone ∧
     length todo < SCAN_QUEUE_EVENTS).
Proof.
  induction k as [|k IH].
  { split; [done|]. split; [done|]. left. exists [], todo. split_and!; try done; simpl; lia. }
  change (Nat.iter (S k) worker_tick ?x) with (worker_tick (Nat.iter k worker_tick x)).
  destruct (Nat.iter k worker_tick _) as [q c w p]. simpl in IH |- *.
  destruct IH as (-> & -> & [(queued & rest & -> & -> & Hall & Hlen & Hne)|(-> & -> & Hlen)]);
    [|split; [done|]; split; [done|]; by right].
  unfold worker_tick. cbn [st_worker st_cancellation st_queue st_pending_terminal].
  rewrite length_fmap. destruct (Nat.ltb_spec (length queued) SCAN_QUEUE_EVENTS) as [Hlt|Hge].
  - destruct rest as [|e rest]; cbn [st_worker st_cancellation st_queue st_pending_terminal];
      (split; [done|]); (split; [done|]).
    + right. rewrite app_nil_r in Hall. subst. done.
    + left. exists (queued ++ [e]), rest. rewrite fmap_app, length_app, <-app_assoc. split_and!; try done.
      * simpl. lia.
      * intros _. by destruct queued.
  - cbn [st_worker st_cancellation st_queue st_pending_terminal]. split; [done|]. split; [done|]. left.
    exists queued, rest. split_and!; try done. intros _ ->. simpl in Hge. unfold SCAN_QUEUE_EVENTS in Hge. lia.
Qed.

Definition last_answer (run : scan_run) : result ServiceError BrokerPayload :=
  match run.2 with
  | Ok summary => Ok (PScanPage (MkScanPage [] (Some (ss_checkpoint summary)) true false))
  | Err e => Err (platform_error e)
  end.

(** A page after at least one turn of the worker: more of the run, or its end. *)
Lemma page_between s id st got run k :
  1 ≤ k → between_pages st got run → bv_scans s !! id = Some (Nat.iter k worker_tick st) →
  (∃ es st', (read_scan_page s id MAX_BROKER_PAGE_EVENTS).1 = Ok (PScanPage (MkScanPage es None false true)) ∧
     bv_scans (read_scan_page s id MAX_BROKER_PAGE_EVENTS).2 !! id = Some st' ∧
     between_pages st' (got ++ es) run ∧ pages_left st' < pages_left st) ∨
  (read_scan_page s id MAX_BROKER_PAGE_EVENTS).1 = last_answer run ∧ got = run.1.
Proof.
  intros Hk (Hq & Hc & Hst) Hid. unfold read_scan_page. rewrite Hid.
  destruct Hst as [(Hp & Hw & Hgot)|(Hp & todo & Hw & Hgot)].
  { rewrite iter_gone by done. rewrite Hp. simpl. right. split; [|done]. unfold last_answer. by destruct run.2. }
  destruct st as [q c w p]. simpl in Hq, Hc, Hw, Hp. subst q c w p.
  destruct (iter_emitting k todo run.2) as (Hcan & Hpend & Hform).
  destruct (Nat.iter k worker_tick _) as [q c w p]. simpl in Hcan, Hpend, Hform. subst c p.
  cbn [st_pending_terminal st_queue st_worker st_cancellation].
  change (Z.to_nat MAX_BROKER_PAGE_EVENTS) with SCAN_QUEUE_EVENTS.
  destruct Hform as [(queued & rest & -> & -> & Hall & Hlen & Hne)|(-> & -> & Hlen)].
  - rewrite receive_events. cbn [worker_gone andb]. rewrite take_ge, drop_ge by done. left.
    exists queued. eexists. split; [done|]. cbn [snd bv_scans set_scans]. rewrite lookup_insert_eq.
    split; [done|]. split.
    + split; [done|]. split; [done|]. right. split; [done|]. exists rest. split; [done|].
      by rewrite <-app_assoc, Hall.
    + unfold pages_left. cbn [st_worker]. rewrite <-Hall, length_app.
      specialize (Hne Hk). destruct queued; [done|simpl; lia].
  - rewrite receive_terminal. apply Nat.ltb_lt in Hlen as ->.
    destruct todo as [|e todo]; simpl.
    + right. rewrite app_nil_r in Hgot. split; [|done]. unfold last_answer. by destruct run.2.
    + left. exists (e :: todo). eexists. split; [done|]. rewrite lookup_insert_eq. split; [done|]. split.
      * split; [done|]. split; [done|]. by left.
      * unfold pages_left. simpl. lia.
Qed.

(** The outcome of a scan as the client reports it. *)
Definition scan_outcome (run : scan_run) : PlatformResult ScanSummary :=
  match run.2 with
  | Ok summary => Ok (MkScanSummary (ss_checkpoint summary) (Z.of_nat (length run.1)))
  | Err e => Err (wire_error (platform_error_code (pe_kind e)))
  end.

Lemma scan_loop_direct fuel expired id run :
  (∀ n, expired n = false) → prompt → (∀ n, 1 ≤ schedule n) →
  (Z.of_nat (length run.1) ≤ u64_max)%Z →
  ∀ c got st, fresh_client c → (cs_next_request_id c + Z.of_nat fuel < 2 ^ 64)%Z →
  bv_scans (dw_service (cs_world c)) !! id = Some st → between_pages st got run → pages_left st ≤ fuel →
  ∃ c', scan_loop direct fuel expired id (Z.of_nat (length got)) got c = Some (run.1, scan_outcome run, c').
Proof.
  intros Hexp Hprompt Hsched Hbound. induction fuel as [|fuel IH]; intros c got st Hfresh Hn Hid Hst Hfuel.
  { unfold pages_left in Hfuel. destruct (st_worker st); lia. }
  cbn [scan_loop]. rewrite Hexp. unfold read_paged_scan. rewrite Z.min_id.
  change (MAX_BROKER_PAGE_EVENTS =? 0)%Z with false. cbv iota. unfold mbind, St_bind.
  destruct (invoke_direct c (ReadScanPage id MAX_BROKER_PAGE_EVENTS) Hprompt Hfresh)
    as (replay & r & s' & Hd & -> & Hfresh'); [lia|reflexivity|].
  pose proof (dispatch_operation_replay (MkBrokerService replay
    (bv_scans (run_workers (schedule (dw_count (cs_world c))) (dw_service (cs_world c))))
    (bv_next_scan_id (dw_service (cs_world c)))) (ReadScanPage id MAX_BROKER_PAGE_EVENTS) BROKER_DEADLINE_MS
    (probe (dw_count (cs_world c))) (probe (dw_count (cs_world c)))) as Hrep.
  rewrite Hd in Hrep. specialize (Hfresh' Hrep).
  unfold dispatch_operation in Hd. rewrite prompt_check in Hd by done.
  set (s1 := MkBrokerService _ _ _) in Hd.
  assert (bv_scans s1 !! id = Some (Nat.iter (schedule (dw_count (cs_world c))) worker_tick st)) as Hid1.
  { unfold s1. cbn [bv_scans run_workers set_scans]. by rewrite lookup_fmap, Hid. }
  destruct (page_between s1 id st got run _ (Hsched _) Hst Hid1)
    as [(es & st' & Hr & Hid' & Hst' & Hless)|[Hr Hgot]]; rewrite Hd in Hr; [rewrite Hd in Hid'|]; simpl in Hr; subst r.
  - cbn [seen map_err]. cbn [sp_events sp_complete mret St_ret].
    assert (length (got ++ es) ≤ length run.1) as Hle.
    { destruct Hst' as (_ & _ & [(_ & _ & <-)|(_ & todo & _ & <-)]); rewrite ?length_app; lia. }
    unfold u64_checked_add. rewrite decide_True.
    2: { unfold in_u64. rewrite length_app in Hle. lia. }
    rewrite length_app in Hle. replace (Z.of_nat (length got) + Z.of_nat (length es))%Z with (Z.of_nat (length (got ++ es))) by (rewrite length_app; lia).
    apply (IH _ (got ++ es) st'); try done; [simpl; lia|lia].
  - unfold last_answer, scan_outcome. destruct run.2 as [summary|e]; cbn [seen map_err mret St_ret].
    + cbn [sp_events sp_complete sp_checkpoint length]. unfold u64_checked_add. rewrite decide_True.
      2: { unfold in_u64. subst got. lia. }
      rewrite app_nil_r, Z.add_0_r, Hgot. by eexists.
    + rewrite Hgot. by eexists.
Qed.

(** C9 (broker-backed scan): let requests be served before their deadline, the client's own deadline
    not expire, the worker have a turn between any two requests, the request identifiers be fresh for
    the broker's replay window and not run out, discovery find the volume, and a scan slot be free.
    Then the paged scan of the client ends, after at most as many pages as events and two more; it
    hands on exactly the events of the provider's own scan and returns its checkpoint with their
    number (within u64), or its failure in the translation of the protocol. *)
Theorem broker_scan_equiv expired volumes volume mode c fuel :
  (∀ n, expired n = false) → prompt → (∀ n, 1 ≤ schedule n) → fresh_client c →
  fp_discover_volumes provider = Ok volumes →
  List.find (λ d, (vd_volume_id d =? vd_volume_id volume)%N) volumes = Some volume →
  size (bv_scans (dw_service (cs_world c))) < MAX_ACTIVE_SCANS →
  let run := fp_scan provider mode volume in
  (Z.of_nat (length run.1) ≤ u64_max)%Z → length run.1 + 2 ≤ fuel →
  (cs_next_request_id c + Z.of_nat fuel + 1 < 2 ^ 64)%Z →
  ∃ c', client_scan direct fuel expired volume mode c = Some (run.1, scan_outcome run, c').
Proof.
  intros Hexp Hprompt Hsched Hfresh Hdisc Hfind Hsize run Hbound Hfuel Hn.
  unfold client_scan, start_paged_scan, mbind, St_bind.
  destruct (invoke_direct c (StartScan (vd_volume_id volume) mode) Hprompt Hfresh)
    as (replay & r & s' & Hd & -> & Hfresh'); [lia|reflexivity|].
  unfold dispatch_operation in Hd. rewrite prompt_check in Hd by done.
  unfold start_scan in Hd. rewrite Hdisc, Hfind, prompt_check in Hd by done.
  cbn [bv_scans bv_next_scan_id run_workers set_scans] in Hd. rewrite map_size_fmap in Hd.
  destruct (Nat.leb_spec MAX_ACTIVE_SCANS (size (bv_scans (dw_service (cs_world c))))); [lia|].
  unfold run in *. destruct (fp_scan provider mode volume) as [evs fin] eqn:Hrun. injection Hd as <- <-.
  cbn [seen map_err mret St_ret]. cbn [bv_replay] in Hfresh'. specialize (Hfresh' eq_refl).
  apply (scan_loop_direct fuel expired (bv_next_scan_id (dw_service (cs_world c))) (evs, fin) Hexp Hprompt Hsched Hbound
    _ [] (MkScanState [] false (Emitting evs fin) None)); [done|cbn [cs_next_request_id]; lia| | |exact Hfuel].
  - cbn [cs_world dw_service bv_scans]. by rewrite lookup_insert_eq.
  - split; [done|]. split; [done|]. right. split; [done|]. by exists evs.
Qed.

(** C36 (broker-backed changes): let requests be served before their deadline and the request
    identifiers be fresh for the broker's replay window and not exhausted.  Then a page of changes
    through the broker is the provider's page for at most 256 events.  A maximum of zero is refused as
    exhausted; a checkpoint over the limits of the wire is refused as internal without the provider
    being asked; a page whose count is not the one it claims, or over the bound, is refused as
    internal; and a failure of the provider keeps its kind, except that an invalid checkpoint arrives
    as an unsupported operation and an I/O failure as an unavailable source. *)
Theorem broker_read_changes_equiv checkpoint maximum c :
  prompt → fresh_client c → (cs_next_request_id c < 2 ^ 64 - 1)%Z → (0 ≤ maximum)%Z →
  let bound := Z.min maximum MAX_BROKER_PAGE_EVENTS in
  let answer := (client_read_changes direct checkpoint maximum c).1 in
  if decide (maximum = 0)%Z then ∃ e, answer = Err e ∧ pe_kind e = ResourceExhausted
  else if checkpoint_rejected checkpoint then ∃ e, answer = Err e ∧ pe_kind e = Internal
  else
    match fp_read_changes provider checkpoint bound with
    | Ok (es, b) =>
        if decide (cb_emitted_events b = Z.of_nat (length es) ∧ (Z.of_nat (length es) ≤ bound)%Z)
        then answer = Ok (es, b)
        else ∃ e, answer = Err e ∧ pe_kind e = Internal
    | Err e => ∃ e', answer = Err e' ∧ pe_kind e' = broker_kind (pe_kind e)
    end.
Proof.
  intros Hp Hf Hn Hm bound answer. case_decide as H0.
  { unfold answer. subst maximum. by eexists. }
  destruct (checkpoint_rejected checkpoint) eqn:Hc; unfold answer.
  { rewrite client_read_changes_refused by (done || lia). by eexists. }
  rewrite (client_read_changes_eq checkpoint maximum c) by (done || lia). fold bound.
  destruct (fp_read_changes provider checkpoint bound) as [[es b]|e]; simpl.
  - case_decide; [done|by eexists].
  - eexists. split; [reflexivity|]. apply broker_kind_spec.
Qed.

(** A client that connects to a broker that has seen the first identifier before is rejected, and
    the broker's replay window stays as it is, so that every further attempt is rejected too. A
    client counts from 1 whenever it is created. *)
Theorem restarted_client_rejected s count :
  request_id_of 1 ∈ rw_present (bv_replay s) →
  ∃ e c', connect direct (MkDirectWorld s count) = (Err e, c') ∧ pe_kind e = ResourceExhausted ∧
    bv_replay (dw_service (cs_world c')) = bv_replay s.
Proof.
  intros Hin. eexists _, _. split; [|split].
  - unfold connect, mbind, St_bind, invoke, direct. cbn [cs_world cs_next_request_id dw_count dw_service].
    unfold dispatch. change (BrokerRequest_validate _) with (Ok tt : result WireContractError unit).
    cbv iota. unfold replay_admit. cbn [br_request_id run_workers set_scans bv_replay].
    rewrite bool_decide_eq_true_2 by done. cbv iota. reflexivity.
  - reflexivity.
  - reflexivity.
Qed.
End direct.

(** ** Concrete instances *)

Definition at_start : client_state (T := direct_world) := MkClientState 2 (MkDirectWorld
  (MkBrokerService (MkReplayWindow REPLAY_WINDOW_REQUESTS [request_id_of 1] {[request_id_of 1]}) ∅ 1) 0).

Definition always : nat → Probe := λ _, at_once.

Lemma always_prompt : prompt always.
Proof. intros n. split; [done|]. simpl. unfold BROKER_DEADLINE_MS. lia. Qed.

Lemma at_start_fresh : fresh_client at_start.
Proof.
  split; [simpl; lia|]. split; [|split; [done|]].
  - split; [apply NoDup_singleton|]. split; [|simpl; unfold REPLAY_WINDOW_REQUESTS; lia].
    simpl. by rewrite (right_id_L ∅ (∪)).
  - intros id ->%list_elem_of_singleton. exists 1%Z. split; [simpl; lia|done].
Qed.

Lemma broker_scan_equiv_witness :
  ∃ c', client_scan (direct scan_provider (λ _, 1) always) 9 (λ _, false) descriptor InitialScan at_start =
    Some ([observe_dir 1; observe_link 10 1 None "C:"], Ok (MkScanSummary (checkpoint_at 7) 2), c').
Proof.
  apply (broker_scan_equiv scan_provider (λ _, 1) always (λ _, false) [descriptor] descriptor InitialScan
    at_start 9).
  - intros n. reflexivity.
  - exact always_prompt.
  - intros n. lia.
  - exact at_start_fresh.
  - reflexivity.
  - reflexivity.
  - cbn [bv_scans dw_service cs_world at_start]. rewrite map_size_empty. unfold MAX_ACTIVE_SCANS. lia.
  - simpl. unfold u64_max. lia.
  - simpl. lia.
  - cbn [cs_next_request_id at_start]. lia.
Defined.

(** A checkpoint the provider cannot read comes back as an unsupported operation. *)
Lemma broker_read_changes_equiv_witness :
  ∃ e, (client_read_changes (direct scan_provider (λ _, 1) always) (checkpoint_at 7) 100 at_start).1 = Err e ∧
    pe_kind e = Unsupported.
Proof.
  apply (broker_read_changes_equiv scan_provider (λ _, 1) always (checkpoint_at 7) 100 at_start).
  - exact always_prompt.
  - exact at_start_fresh.
  - cbn [cs_next_request_id at_start]. lia.
  - lia.
Defined.

(** A first client connects; the next one, which counts from 1 again, is rejected. *)
Lemma restarted_client_rejected_witness :
  ∃ e c', connect (direct scan_provider (λ _, 1) always)
      (cs_world (connect (direct scan_provider (λ _, 1) always) (MkDirectWorld new_service 0)).2) = (Err e, c') ∧
    pe_kind e = ResourceExhausted.
Proof.
  destruct (restarted_client_rejected scan_provider (λ _, 1) always
    (dw_service (cs_world (connect (direct scan_provider (λ _, 1) always) (MkDirectWorld new_service 0)).2)) 1)
    as (e & c' & Hc & Hk & _).
  - apply (bool_decide_eq_true_1 (request_id_of 1 ∈ _)). vm_compute. reflexivity.
  - exists e, c'. split; [|exact Hk]. exact Hc.
Defined.
