(* ===== verification/JournalLimits.v ===== *)
(** The checkpoint of the journal reader against the limit of the broker.

    A rename leaves an identity in [known_links], and only deleting the file under that name takes
    it out again.  A volume with many renamed files has a checkpoint beyond the 65,536 bytes the
    broker accepts, from where no further changes can be read through it. *)
From Stdlib Require Import Ascii String.
From stdpp Require Import base strings numbers list sets sorting.
From S2P Require Import Prelude Ids Order Models Fixtures Text Frames Usn Platform Journal JournalSpec.
From S2P Require Import JournalFixtures.

(** Files moved into directories [0 .. n-1] under one name. *)
Definition moved (i : nat) : SanitizedUsnRecord :=
  MkSanitizedUsnRecord (N.of_nat i) (N.of_nat i) (Z.of_nat i) REASON_RENAME_NEW_NAME 0 name_old false.

Definition empty_checkpoint : WindowsCheckpoint := MkWindowsCheckpoint 9 0 0 1 [] [] [].

(** Every file can be looked up. *)
Definition readable (lookup : Z → lookup_env) : Prop :=
  ∀ z p n k, ∃ o, lookup_record (lookup z) p n k = Ok (Observed o).

Definition grown (i : nat) (c : WindowsCheckpoint) : Prop :=
  checkpoint_ok c ∧ wc_pending_renames c = [] ∧ length (wc_known_links c) = i ∧
  ∀ k, k ∈ wc_known_links c → (kl_parent_reference k < N.of_nat i)%N.

Lemma remember_known_link_length c p n id :
  checkpoint_ok c → (∀ k, k ∈ wc_known_links c → link_key k ≠ (p, n)) →
  length (wc_known_links (remember_known_link c p n id)) = S (length (wc_known_links c)).
Proof.
  intros [_ Hk] Hne. unfold remember_known_link, sv_upsert. simpl.
  pose proof (sv_search_ok _ _ cmp_ok_link_key compare_link_key_eq (p, n) _ Hk) as Hs.
  destruct (sv_search _ _ _ _) as [i|i].
  - destruct Hs as (k & Hi & Hkey). apply list_elem_of_lookup_2 in Hi. by apply Hne in Hi.
  - rewrite length_app. simpl. rewrite length_take, length_drop. lia.
Qed.

Lemma moved_grows lookup v i c :
  readable lookup → grown i c →
  ∃ es c', canonical_events (lookup (Z.of_nat i)) c v (moved i) = Ok (es, c') ∧ grown (S i) c'.
Proof.
  intros Hr (Hok & Hren & Hlen & Hkeys). unfold canonical_events.
  cbn [ur_had_invalid_utf16 moved ur_reason].
  change (has_reason REASON_RENAME_NEW_NAME REASON_RENAME_OLD_NAME) with false.
  change (has_reason REASON_RENAME_NEW_NAME REASON_FILE_DELETE) with false. cbv iota.
  unfold record_link_id. cbn [ur_reason moved].
  change (has_reason REASON_RENAME_NEW_NAME REASON_RENAME_NEW_NAME) with true. cbv iota.
  unfold take_rename. rewrite Hren.
  cbn [sv_search binary_search_by ur_file_reference ur_parent_reference ur_name moved].
  set (name := string_of_text name_old). set (id := default _ _).
  destruct (Hr (Z.of_nat i) (N.of_nat i) name (file_key v (N.of_nat i))) as [o Ho]. rewrite Ho.
  cbn [mbind result_bind]. eexists _, _. split; [destruct (_ && _); reflexivity|].
  assert (∀ k, k ∈ wc_known_links c → link_key k ≠ (N.of_nat i, name)) as Hne.
  { intros k Hk [= Hp _]. apply Hkeys in Hk. lia. }
  split; [by apply remember_known_link_ok|]. split; [done|].
  split; [rewrite remember_known_link_length by done; lia|].
  intros k. unfold remember_known_link. simpl. destruct Hok as [_ Hk].
  rewrite elem_of_sv_upsert; [|apply cmp_ok_link_key|apply compare_link_key_eq|by intros [] [= <- <-]|done].
  intros [->|[Hin _]]; [simpl; lia|]. apply Hkeys in Hin. lia.
Qed.

Lemma moved_all lookup v n i c :
  readable lookup → grown i c →
  ∃ es c', replay lookup v c (moved <$> seq i n) = Ok (es, c') ∧ grown (i + n) c'.
Proof.
  intros Hr. revert i c. induction n as [|n IH]; intros i c Hg.
  { exists [], c. rewrite Nat.add_0_r. done. }
  simpl. destruct (moved_grows lookup v i c Hr Hg) as (es & d & He & Hd).
  destruct (IH (S i) d Hd) as (es' & c' & Hrun & Hc').
  exists (es ++ es'), c'. change (ur_position (moved i)) with (Z.of_nat i). rewrite He. simpl.
  change (list_fmap _ _ moved (seq (S i) n)) with (moved <$> seq (S i) n).
  rewrite Hrun. simpl. split; [done|]. by replace (i + S n) with (S i + n) by lia.
Qed.

(** Renames into more than 65,536 places leave a well-formed checkpoint that the broker's request
    contract refuses, for any codec that writes at least a byte per known link. *)
Theorem checkpoint_outgrows_broker to_json lookup v n maximum :
  (∀ c, length (wc_known_links c) ≤ length (to_json c)) → readable lookup →
  (65536 < Z.of_nat n)%Z → (0 < maximum ≤ MAX_BROKER_PAGE_EVENTS)%Z →
  ∃ es c, replay lookup v empty_checkpoint (moved <$> seq 0 n) = Ok (es, c) ∧ checkpoint_ok c ∧
    BrokerOperation_validate (ReadChanges (encode to_json v c) maximum) =
      Err (InvalidWireRequest "provider checkpoint exceeds policy").
Proof.
  intros Hjson Hr Hn Hmax.
  destruct (moved_all lookup v n 0 empty_checkpoint Hr) as (es & c & Hrun & Hc & _ & Hlen & _).
  { split_and!; try done; [split; constructor|]. by intros k ?%not_elem_of_nil. }
  exists es, c. split; [done|]. split; [done|]. unfold BrokerOperation_validate, page_rejected, checkpoint_rejected.
  destruct (Z.eqb_spec maximum 0), (Z.ltb_spec MAX_BROKER_PAGE_EVENTS maximum); try lia.
  cbn [orb negb ensure mbind result_bind pc_opaque encode].
  specialize (Hjson c). destruct (Z.ltb_spec 65536 (Z.of_nat (length (to_json c)))); [done|lia].
Qed.

(** A codec that writes a byte per identity. *)
Lemma checkpoint_outgrows_broker_witness :
  ∃ es c, replay (λ _, sample_lookup) vol empty_checkpoint (moved <$> seq 0 (Z.to_nat 65537)) = Ok (es, c) ∧
    checkpoint_ok c ∧
    BrokerOperation_validate (ReadChanges (encode (λ c, (λ _, 0%N) <$> wc_known_links c) vol c) 1) =
      Err (InvalidWireRequest "provider checkpoint exceeds policy").
Proof.
  apply (checkpoint_outgrows_broker (λ c, (λ _, 0%N) <$> wc_known_links c) (λ _, sample_lookup) vol
    (Z.to_nat 65537) 1).
  - intros c. rewrite length_fmap. lia.
  - intros z p n k. exists (MkFileObjectSnapshot k (file_meta 3)). reflexivity.
  - rewrite Z2Nat.id by lia. lia.
  - unfold MAX_BROKER_PAGE_EVENTS. lia.
Defined.
