(* ===== verification/Observation.v ===== *)
(** The observation controller of the agent ([crates/agent/src/observation.rs]).

    [ObservationSource] is the trait of the source: operations on a state of its own that keep
    their effects when they fail.  The broker-backed provider is an instance.  The controller's
    state holds the durable graph and the source with its own fields, and [observation_step] is one
    scheduler quantum. *)
From Stdlib Require Import Ascii String.
From stdpp Require Import base strings numbers gmap list.
From S2P Require Import Prelude Ids Models GraphDomain GraphTables GraphPath GraphMutate.
From S2P Require Import GraphProjection GraphStore Frames Platform Crawl Broker BrokerClient.

(** ** Selection of volumes *)

Inductive ObservationSelection :=
| AllLocalNtfs
| SelectVolumes (selected : gset volume_id)
| SelectVolumesAndMountPoints (volume_ids : gset volume_id) (mount_points : list string).

Definition mount_point_matches (discovered selected : string) : bool :=
  eq_ignore_ascii_case (trim_end_matches [backslash; "/"%char] discovered)
    (trim_end_matches [backslash; "/"%char] selected).

Definition volume_selected (selection : ObservationSelection) (volume : VolumeDescriptor) : bool :=
  vd_local volume
  && match vd_filesystem volume with Some fs => eq_ignore_ascii_case fs "ntfs" | None => false end
  && match selection with
     | AllLocalNtfs => true
     | SelectVolumes selected => bool_decide (vd_volume_id volume ∈ selected)
     | SelectVolumesAndMountPoints volume_ids mount_points =>
         bool_decide (vd_volume_id volume ∈ volume_ids)
         || existsb (λ discovered, existsb (mount_point_matches discovered) mount_points)
              (vd_mount_points volume)
     end.

Definition selected_volumes (discovered : list VolumeDescriptor) (selection : ObservationSelection)
  : list VolumeDescriptor :=
  List.filter (volume_selected selection) discovered.

(** ** Sources *)

Class ObservationSource (W : Type) := {
  src_discover_volumes : St W PlatformError (list VolumeDescriptor);
  src_start_scan : volume_id → ScanMode → St W PlatformError Z;
  src_read_scan_page : Z → Z → St W PlatformError ScanPage;
  src_cancel_scan : Z → St W PlatformError unit;
  src_read_changes : ProviderCheckpoint → Z → St W PlatformError (list FilesystemEvent * ChangeBatch) }.

(** [impl ObservationSource for BrokerFilesystemProvider]. *)
Definition broker_source {T} (transport : BrokerRequest → T → result BrokerTransportError Response * T)
  : ObservationSource (client_state (T := T)) := {|
  src_discover_volumes := client_discover_volumes transport;
  src_start_scan := start_paged_scan transport;
  src_read_scan_page := read_paged_scan transport;
  src_cancel_scan := cancel_paged_scan transport;
  src_read_changes := client_read_changes transport |}.

(** ** Steps *)

Inductive ObservationStep :=
| StepIdle
| StepScanPrepared (v : volume_id)
| StepScanStarted (v : volume_id)
| StepScanPage (v : volume_id) (events : Z) (complete : bool)
| StepFinalized (v : volume_id) (removed : Z) (complete : bool)
| StepIncremental (v : volume_id) (events : Z) (has_more : bool)
| StepReconciliationRequired (v : volume_id)
| StepOffline (v : volume_id).

Inductive ObservationError :=
| ObsGraph (error : GraphError)
| ObsProvider (kind : PlatformErrorKind).

Definition provider (error : PlatformError) : ObservationError := ObsProvider (pe_kind error).

Record ActiveScan := MkActiveScan { as_volume_id : volume_id; as_scan_id : Z }.

Definition broker_scan_mode (mode : ObservationScanMode) : ScanMode :=
  match mode with ScanInitial => InitialScan | ScanReconcile => ReconcileScan end.

Definition scan_reason (mode : ObservationScanMode) : ReconciliationReason :=
  match mode with ScanInitial => ProviderRequested | ScanReconcile => SourceHistoryUnavailable end.

Definition is_reconciliation (e : FilesystemEvent) : bool :=
  match e with ReconciliationRequired _ _ => true | _ => false end.

Section controller.
Context `{E : StoreEnv} {W : Type} `{Src : !ObservationSource W}.

(** The controller with the graph behind its path and its source. *)
Record controller := MkController {
  oc_selection : ObservationSelection;
  oc_volumes : list VolumeDescriptor;
  oc_cursor : nat;
  oc_active_scan : option ActiveScan;
  oc_graph : db;
  oc_source : W }.

Definition with_graph (g : db) (c : controller) : controller :=
  MkController (oc_selection c) (oc_volumes c) (oc_cursor c) (oc_active_scan c) g (oc_source c).
Definition with_source (w : W) (c : controller) : controller :=
  MkController (oc_selection c) (oc_volumes c) (oc_cursor c) (oc_active_scan c) (oc_graph c) w.
Definition with_active (a : option ActiveScan) (c : controller) : controller :=
  MkController (oc_selection c) (oc_volumes c) (oc_cursor c) a (oc_graph c) (oc_source c).
Definition with_cursor (n : nat) (c : controller) : controller :=
  MkController (oc_selection c) (oc_volumes c) n (oc_active_scan c) (oc_graph c) (oc_source c).
Definition with_volumes (vs : list VolumeDescriptor) (c : controller) : controller :=
  MkController (oc_selection c) vs (oc_cursor c) (oc_active_scan c) (oc_graph c) (oc_source c).

Abbreviation Obs := (St controller ObservationError).

(** A transaction on the graph. *)
Definition on_graph {A} (m : GM A) : Obs A := λ c,
  match m (oc_graph c) with
  | Ok (a, g) => (Ok a, with_graph g c)
  | Err e => (Err (ObsGraph e), c)
  end.

(** A read of the graph. *)
Definition read_graph {A} (f : db → result GraphError A) : Obs A := λ c,
  (map_err ObsGraph (f (oc_graph c)), c).

(** A call of the source, whose failure the caller looks at. *)
Definition try_source {A} (m : St W PlatformError A) : Obs (PlatformResult A) := λ c,
  let '(r, w) := m (oc_source c) in (Ok r, with_source w c).

Definition on_source {A} (m : St W PlatformError A) : Obs A :=
  r ← try_source m; st_lift (map_err provider r).

Definition obs_modify (f : controller → controller) : Obs unit := λ c, (Ok tt, f c).

(** What a step finds outside: whether discovery is due, and whether the graph opens. *)
Record quantum := MkQuantum { q_discovery_due : bool; q_open : result GraphError unit }.

Definition new_controller (selection : ObservationSelection) (g : db) (w : W)
  : result ObservationError controller * W :=
  let '(r, w) := src_discover_volumes w in
  (discovered ← map_err provider r;
   Ok (MkController selection (selected_volumes discovered selection) 0 None g w), w).

Definition refresh_discovery_if_due (q : quantum) : Obs unit :=
  if q_discovery_due q then
    discovered ← on_source src_discover_volumes;
    obs_modify (λ c,
      let volumes := selected_volumes discovered (oc_selection c) in
      with_cursor (oc_cursor c `min` (length volumes - 1)) (with_volumes volumes c))
  else mret tt.

Definition read_active_scan (q : quantum) (active : ActiveScan) (maximum_events : Z) : Obs ObservationStep :=
  reply ← try_source (src_read_scan_page (as_scan_id active) maximum_events);
  match reply with
  | Err error =>
      try_source (src_cancel_scan (as_scan_id active)) ;;
      st_fail (provider error)
  | Ok page =>
      st_lift (map_err ObsGraph (q_open q)) ;;
      on_graph (apply_observation_scan_page (as_volume_id active) (sp_events page)) ;;
      (if sp_complete page then
         cp ← st_lift (ok_or (sp_checkpoint page) (ObsProvider Internal));
         on_graph (stage_observation_checkpoint (as_volume_id active) cp)
       else obs_modify (with_active (Some active))) ;;
      mret (StepScanPage (as_volume_id active) (Z.of_nat (length (sp_events page))) (sp_complete page))
  end.

(** Bind a started scan to the graph, or give it back. *)
Definition resume_scan (d : VolumeDescriptor) (mode : ObservationScanMode) (scan_id : Z)
  : Obs ObservationStep := λ c,
  match on_graph (begin_observation_scan d mode (scan_reason mode)) c with
  | (Err error, c) => (try_source (src_cancel_scan scan_id) ;; st_fail error) c
  | (Ok _, c) =>
      (Ok (StepScanStarted (vd_volume_id d)),
       with_active (Some (MkActiveScan (vd_volume_id d) scan_id)) c)
  end.

Definition handle_session (d : VolumeDescriptor) (session : ObservationSession) (maximum_events : Z)
  : Obs ObservationStep :=
  let v := vd_volume_id d in
  match os_phase session with
  | Scanning =>
      scan_id ← on_source (src_start_scan v (broker_scan_mode (os_mode session)));
      resume_scan d (os_mode session) scan_id
  | SweepingLinks | SweepingObjects =>
      summary ← on_graph (finalize_observation_scan v maximum_events);
      mret (StepFinalized v
              (saturating_add u64_max (of_stale_links_removed summary) (of_stale_objects_tombstoned summary))
              (of_completed summary))
  end.

Definition read_incremental (d : VolumeDescriptor) (cp : ProviderCheckpoint) (maximum_events : Z)
  : Obs ObservationStep :=
  let v := vd_volume_id d in
  reply ← try_source (src_read_changes cp maximum_events);
  match reply with
  | Ok (events, batch) =>
      state ← read_graph (λ g, volume_state g v);
      let mutations :=
        (if decide (state = Some VOffline) then [SetVolumeState v VOnline] else [])
        ++ (GraphMutation_from_event <$> events) in
      on_graph (apply_batch (MkGraphMutationBatch v (cb_checkpoint batch) mutations)) ;;
      mret (if existsb is_reconciliation events then StepReconciliationRequired v
            else StepIncremental v (Z.of_nat (length events)) (cb_has_more batch))
  | Err error =>
      match pe_kind error with
      | SourceHistoryGap | InvalidCheckpoint =>
          on_graph (apply_batch (MkGraphMutationBatch v cp [RequireReconciliation v
            match pe_kind error with SourceHistoryGap => SourceHistoryUnavailable | _ => ProviderRequested end])) ;;
          mret (StepReconciliationRequired v)
      | Unavailable =>
          state ← read_graph (λ g, volume_state g v);
          (if decide (state = Some VOffline) then mret tt
           else on_graph (apply_batch (MkGraphMutationBatch v cp [SetVolumeState v VOffline])) ;; mret tt) ;;
          mret (StepOffline v)
      | _ => st_fail (provider error)
      end
  end.

(** [Drop]: an abandoned scan is given back. *)
Definition drop_controller : Obs unit := λ c,
  match oc_active_scan c with
  | Some active => (try_source (src_cancel_scan (as_scan_id active)) ;; mret tt) (with_active None c)
  | None => (Ok tt, c)
  end.

(** The work on the volume the cursor selects. *)
Definition step_volume (q : quantum) (d : VolumeDescriptor) (maximum_events : Z) : Obs ObservationStep :=
  let v := vd_volume_id d in
  st_lift (map_err ObsGraph (q_open q)) ;;
  session ← read_graph (λ g, observation_session g v);
  match session with
  | Some session => handle_session d session maximum_events
  | None =>
      cp ← read_graph (λ g, Ok (checkpoint g v));
      match cp with
      | None =>
          on_graph (begin_observation_scan d ScanInitial (scan_reason ScanInitial)) ;;
          mret (StepScanPrepared v)
      | Some cp =>
          state ← read_graph (λ g, volume_state g v);
          if decide (state = Some VNeedsReconciliation) then
            on_graph (begin_observation_scan d ScanReconcile (scan_reason ScanReconcile)) ;;
            mret (StepScanPrepared v)
          else read_incremental d cp maximum_events
      end
  end.

(** The round-robin turn. *)
Definition step_next (q : quantum) (maximum_events : Z) : Obs ObservationStep := λ c,
  let cursor := if length (oc_volumes c) <=? oc_cursor c then 0 else oc_cursor c in
  match oc_volumes c !! cursor with
  | None => (Ok StepIdle, c)
  | Some d =>
      step_volume q d maximum_events (with_cursor ((cursor + 1) mod length (oc_volumes c)) c)
  end.

(** [BrokerObservationController::step]. *)
Definition observation_step (q : quantum) (maximum_events : Z) : Obs ObservationStep := λ c,
  let maximum_events := Z.max 1 (Z.min maximum_events MAX_BROKER_PAGE_EVENTS) in
  match oc_active_scan c with
  | Some active => read_active_scan q active maximum_events (with_active None c)
  | None => (refresh_discovery_if_due q ;; step_next q maximum_events) c
  end.
End controller.
