(* ===== verification/ObservationSpec.v ===== *)
(** What an observation quantum does to the durable graph.

    Whatever the source answers, a step is a sequence of transactions of the store, so that the
    store's invariants carry over; the incremental branch moves the checkpoint together with the
    events it covers; a gap in the source's history leads to a reconciliation scan; and the volumes
    take turns. *)
From Stdlib Require Import Ascii String.
From stdpp Require Import base strings numbers gmap list relations.
From S2P Require Import Prelude Ids Models GraphDomain GraphTables Fixtures GraphPath GraphMutate.
From S2P Require Import GraphProjection GraphStore GraphInvariant GraphPreserve GraphReach GraphSync GraphConverge.
From S2P Require Import Frames Platform Crawl Broker BrokerSpec BrokerClient BrokerLink Observation.

Section spec.
Context `{E : StoreEnv} {W : Type} `{Src : !ObservationSource W}.
Abbreviation Obs := (St (controller (W := W)) ObservationError).

(** States of the source from which everything it returns has Rust's types. *)
Context (I : W → Prop).

(** A source operation that stays in such states, with results that satisfy [Q]. *)
Definition source_keeps {A} (m : St W PlatformError A) (Q : A → Prop) : Prop :=
  ∀ w r w', I w → m w = (r, w') → I w' ∧ ∀ a, r = Ok a → Q a.

Record source_typed : Prop := {
  sty_discover : source_keeps src_discover_volumes (λ _, True);
  sty_start v mode : source_keeps (src_start_scan v mode) (λ _, True);
  sty_pages id n : source_keeps (src_read_scan_page id n) (λ page, events_typed (sp_events page));
  sty_cancel id : source_keeps (src_cancel_scan id) (λ _, True);
  sty_changes cp n : source_keeps (src_read_changes cp n) (λ r, events_typed r.1) }.

(** The graph moves by transactions, and whose turn it is stays. *)
Definition moved (c c' : controller (W := W)) : Prop :=
  rtc foreign_step (oc_graph c) (oc_graph c') ∧ oc_volumes c' = oc_volumes c ∧ oc_cursor c' = oc_cursor c.

Lemma moved_trans c1 c2 c3 : moved c1 c2 → moved c2 c3 → moved c1 c3.
Proof. intros (H1 & Hv & Hc) (H2 & Hv' & Hc'). split; [by etransitivity|]. split; congruence. Qed.

(** An operation that moves the controller so, with results that satisfy [Q]. *)
Definition moves {A} (m : Obs A) (Q : A → Prop) : Prop :=
  ∀ c r c', I (oc_source c) → m c = (r, c') →
    moved c c' ∧ I (oc_source c') ∧ ∀ a, r = Ok a → Q a.

Lemma moves_bind {A B} (m : Obs A) (f : A → Obs B) Q R :
  moves m Q → (∀ a, Q a → moves (f a) R) → moves (m ≫= f) R.
Proof.
  intros Hm Hf c r c' HI H. unfold mbind, St_bind in H. destruct (m c) as [[a|e] c1] eqn:Hc.
  - destruct (Hm _ _ _ HI Hc) as (H1 & HI1 & HQ). destruct (Hf a (HQ a eq_refl) _ _ _ HI1 H) as (H2 & HI2 & HR).
    split; [by eapply moved_trans|done].
  - simplify_eq. destruct (Hm _ _ _ HI Hc) as (H1 & HI1 & _). by split_and!.
Qed.

Lemma moves_ret {A} (a : A) (Q : A → Prop) : Q a → moves (mret a) Q.
Proof. intros HQ c r c' HI [= <- <-]. split; [done|]. split; [done|]. by intros ? [= <-]. Qed.

Lemma moves_fail {A} e (Q : A → Prop) : moves (st_fail e) Q.
Proof. intros c r c' HI [= <- <-]. by split_and!. Qed.

Lemma moves_lift {A} (r : result ObservationError A) (Q : A → Prop) :
  (∀ a, r = Ok a → Q a) → moves (st_lift r) Q.
Proof. intros HQ c r' c' HI [= <- <-]. by split_and!. Qed.

Lemma moves_read {A} (f : db → result GraphError A) : moves (read_graph f) (λ _, True).
Proof. intros c r c' HI [= <- <-]. by split_and!. Qed.

Lemma moves_source {A} (m : St W PlatformError A) (Q : A → Prop) :
  source_keeps m Q → moves (try_source m) (λ r, ∀ a, r = Ok a → Q a).
Proof.
  intros HQ c r c' HI H. unfold try_source in H. destruct (m (oc_source c)) as [r' w'] eqn:Hm.
  destruct (HQ _ _ _ HI Hm) as [HI' Hr]. injection H as <- <-. split; [done|]. split; [done|].
  intros ? [= <-]. done.
Qed.

Lemma moves_modify f :
  (∀ c, moved c (f c)) → (∀ c, oc_source (f c) = oc_source c) → moves (obs_modify f) (λ _, True).
Proof. intros Hf Hs c r c' HI [= <- <-]. rewrite Hs. by split_and!. Qed.

Lemma moves_graph {A} (m : GM A) (o : op) :
  op_typed o → (∀ c, op_spares c o) → run_op o = discard m → moves (on_graph m) (λ _, True).
Proof.
  intros Hty Hsp Ho c r c' HI H. unfold on_graph in H.
  destruct (m (oc_graph c)) as [[a g]|e] eqn:Hm; injection H as <- <-; [|by split_and!].
  split; [|done]. split; [|done]. simpl. apply rtc_once, (foreign_commit o); [done|done|]. rewrite Ho. unfold discard, mbind, M_bind. by rewrite Hm.
Qed.

Lemma moves_stage v cp : moves (on_graph (stage_observation_checkpoint v cp)) (λ _, True).
Proof.
  intros c r c' HI H. unfold on_graph in H.
  destruct (stage_observation_checkpoint v cp (oc_graph c)) as [[[] g]|e] eqn:Hm; injection H as <- <-; [|by split_and!].
  split; [|done]. split; [|done]. by apply rtc_once, (foreign_commit (OpStageObservationCheckpoint v cp)).
Qed.

Lemma moves_batch v cp ms :
  Forall mutation_typed ms → moves (on_graph (apply_batch (MkGraphMutationBatch v cp ms))) (λ _, True).
Proof. intros Hms. by apply (moves_graph _ (OpApplyBatch (MkGraphMutationBatch v cp ms))). Qed.

Lemma moves_begin d mode reason : moves (on_graph (begin_observation_scan d mode reason)) (λ _, True).
Proof. by apply (moves_graph _ (OpBeginObservationScan d mode reason)). Qed.

Create HintDb moves.
#[local] Hint Resolve moves_fail moves_read moves_stage moves_begin : moves.

Lemma read_active_scan_moves q a n : source_typed → moves (read_active_scan q a n) (λ _, True).
Proof.
  intros Hty. unfold read_active_scan. eapply moves_bind.
  { apply (moves_source _ (λ page, events_typed (sp_events page))), Hty. }
  intros [page|e] Hpage.
  - eapply moves_bind; [by apply (moves_lift _ (λ _, True))|]. intros _ _. eapply moves_bind.
    { apply (moves_graph _ (OpApplyObservationScanPage (as_volume_id a) (sp_events page))); [by apply Hpage|done|done]. }
    intros _ _. eapply (moves_bind _ _ (λ _, True)); [|intros _ _; by apply moves_ret].
    destruct (sp_complete page); [|by apply moves_modify].
    eapply moves_bind; [by apply (moves_lift _ (λ _, True))|]. intros cp _. apply moves_stage.
  - eapply moves_bind; [by apply (moves_source _ (λ _, True)), Hty|]. intros _ _. apply moves_fail.
Qed.

Lemma resume_scan_moves d mode id : source_typed → moves (resume_scan d mode id) (λ _, True).
Proof.
  intros Hty c r c' HI H. unfold resume_scan in H.
  destruct (on_graph _ c) as [[s|e] c1] eqn:Hg; destruct (moves_begin _ _ _ _ _ _ HI Hg) as (Hsteps & HI1 & _).
  - injection H as <- <-. by split_and!.
  -
    assert (moves (try_source (src_cancel_scan id) ;; st_fail e : Obs ObservationStep) (λ _, True)) as Hm.
    { eapply moves_bind; [by apply (moves_source _ (λ _, True)), Hty|]. intros _ _. apply moves_fail. }
    destruct (Hm _ _ _ HI1 H) as (Hm1 & HI2 & _). split; [by eapply moved_trans|done].
Qed.

Lemma handle_session_moves d s n : source_typed → moves (handle_session d s n) (λ _, True).
Proof.
  intros Hty. unfold handle_session. destruct (os_phase s).
  - eapply (moves_bind _ _ (λ _, True)).
    { unfold on_source. eapply moves_bind; [by apply (moves_source _ (λ _, True)), Hty|]. intros r _. by apply moves_lift. }
    intros id _. by apply resume_scan_moves.
  - eapply moves_bind; [by apply (moves_graph _ (OpFinalizeObservationScan (vd_volume_id d) n))|].
    intros sum _. by apply moves_ret.
  - eapply moves_bind; [by apply (moves_graph _ (OpFinalizeObservationScan (vd_volume_id d) n))|].
    intros sum _. by apply moves_ret.
Qed.

Lemma read_incremental_moves d cp n : source_typed → moves (read_incremental d cp n) (λ _, True).
Proof.
  intros Hty. unfold read_incremental. eapply moves_bind.
  { apply (moves_source _ (λ r, events_typed r.1)), Hty. }
  intros [[es b]|e] Hes.
  - eapply moves_bind; [apply moves_read|]. intros state _. eapply moves_bind; [apply moves_batch|].
    + apply Forall_app. split; [destruct (decide _); repeat constructor|]. apply Forall_fmap. by apply (Hes _ eq_refl).
    + intros _ _. by apply moves_ret.
  - destruct (pe_kind e); try apply moves_fail;
      try (eapply moves_bind; [apply moves_batch; repeat constructor|]; intros _ _; by apply moves_ret).
    eapply moves_bind; [apply moves_read|]. intros state _.
    eapply (moves_bind _ _ (λ _, True)); [|intros _ _; by apply moves_ret].
    destruct (decide _); [by apply moves_ret|].
    eapply moves_bind; [apply moves_batch; repeat constructor|]. intros _ _. by apply moves_ret.
Qed.

Lemma step_volume_moves q d n : source_typed → moves (step_volume q d n) (λ _, True).
Proof.
  intros Hty. unfold step_volume. eapply moves_bind; [by apply (moves_lift _ (λ _, True))|]. intros _ _.
  eapply moves_bind; [apply moves_read|]. intros [s|] _; [by apply handle_session_moves|].
  eapply moves_bind; [apply moves_read|]. intros [cp|] _.
  - eapply moves_bind; [apply moves_read|]. intros state _. destruct (decide _); [|by apply read_incremental_moves].
    eapply moves_bind; [apply moves_begin|]. intros _ _. by apply moves_ret.
  - eapply moves_bind; [apply moves_begin|]. intros _ _. by apply moves_ret.
Qed.

(** Discovery replaces the volumes and nothing else. *)
Lemma refresh_discovery_graph q c r c' :
  source_typed → I (oc_source c) → refresh_discovery_if_due q c = (r, c') →
  oc_graph c' = oc_graph c ∧ I (oc_source c') ∧ (q_discovery_due q = false → c' = c ∧ r = Ok tt).
Proof.
  intros Hty HI. unfold refresh_discovery_if_due. destruct (q_discovery_due q); [|by intros [= <- <-]].
  unfold mbind, St_bind, on_source, try_source, mbind, St_bind, st_lift. intros H.
  destruct (src_discover_volumes (oc_source c)) as [r0 w] eqn:Hd.
  destruct (sty_discover Hty _ _ _ HI Hd) as [HI' _].
  destruct r0 as [ds|e]; simpl in H; injection H as _ <-; by split_and!.
Qed.

(** A turn: the cursor goes to the next volume and the rest is the work on this one. *)
Lemma step_next_moved q n c r c' :
  source_typed → I (oc_source c) → step_next q n c = (r, c') → I (oc_source c') ∧
  rtc foreign_step (oc_graph c) (oc_graph c') ∧ oc_volumes c' = oc_volumes c ∧
  (oc_cursor c < length (oc_volumes c) → oc_cursor c' = (oc_cursor c + 1) mod length (oc_volumes c)).
Proof.
  intros Hty HI H. unfold step_next in H.
  destruct (Nat.leb_spec (length (oc_volumes c)) (oc_cursor c)) as [Hle|Hlt].
  - destruct (oc_volumes c !! 0) as [d|]; [|injection H as _ <-; split_and!; done || lia].
    apply (step_volume_moves q d _ Hty) in H as [(Hs & Hv & Hc) [HI' _]]; [|done]. split_and!; try done. simpl. lia.
  - destruct (oc_volumes c !! oc_cursor c) as [d|] eqn:Hd; [|apply lookup_ge_None in Hd; lia].
    apply (step_volume_moves q d _ Hty) in H as [(Hs & Hv & Hc) [HI' _]]; done.
Qed.

Lemma observation_step_moves q n c r c' :
  source_typed → I (oc_source c) → observation_step q n c = (r, c') →
  rtc foreign_step (oc_graph c) (oc_graph c') ∧ I (oc_source c').
Proof.
  intros Hty HI H. unfold observation_step in H. destruct (oc_active_scan c) as [a|].
  { apply (read_active_scan_moves q a _ Hty) in H as [[H _] [HI' _]]; done. }
  unfold mbind, St_bind in H. destruct (refresh_discovery_if_due q c) as [[u|e] c1] eqn:Hr;
    apply refresh_discovery_graph in Hr as (Hg & HI1 & _); try done; rewrite <-Hg.
  - by apply step_next_moved in H as (HI' & H & _).
  - by simplify_eq.
Qed.

(** Whatever a source with Rust's types answers, a quantum of
    the observation controller changes the graph only by transactions of the store, so that the
    store's invariant holds after it. *)
Theorem observation_step_keeps_store `{!StoreLaws E} q n c r c' :
  source_typed → I (oc_source c) → store_wf (oc_graph c) → observation_step q n c = (r, c') →
  store_wf (oc_graph c') ∧ rtc store_step (oc_graph c) (oc_graph c') ∧ I (oc_source c').
Proof.
  intros Hty HI Hwf H. apply (observation_step_moves q n c r c' Hty HI) in H as [Hsteps HI'].
  apply foreign_steps_store in Hsteps. split; [by eapply store_steps_wf|done].
Qed.

(** ** Transactions of the controller *)

(** A batch of one mutation that touches no link. *)
Lemma volume_batch_total g v cp m row g1 jobs :
  volumes g !! v = Some row → in_i64 (v_generation row + 1) → pc_volume_id cp = v →
  validate_mutation_volume m v = Ok tt → collect_affected_links g m = ∅ →
  apply_mutation m (v_generation row + 1) g = Ok (jobs, g1) → is_Some (volumes g1 !! v) →
  ∃ sum row1, volumes g1 !! v = Some row1 ∧
    apply_batch (MkGraphMutationBatch v cp [m]) g =
      Ok (sum, advance_volume v (v_generation row + 1) row1 (checkpoint_row_of cp) g1).
Proof.
  intros Hrow Hgen Hcp Hval Hcol Hm [row1 Hrow1]. eexists _, row1. split; [done|].
  unfold apply_batch, apply_batch_with_outbox_mode, mbind, M_bind.
  unfold lift at 1, batch_validate. cbn [gb_checkpoint gb_volume_id gb_mutations].
  rewrite decide_True by done. cbn [validate_mutations]. rewrite Hval.
  cbn [mbind result_bind]. unfold get_state, guard_m, lift. cbn [ensure].
  unfold generation_or_zero. rewrite Hrow. unfold i64_checked_add. rewrite decide_True by done. cbn [ok_or].
  cbn [apply_mutations]. unfold mbind, M_bind, get_state. rewrite Hm, Hcol, union_empty_l_L.
  cbn [mret M_ret fst snd]. unfold btree_elements. rewrite elements_empty.
  change (sorting.merge_sort N.le []) with (@nil N). cbn [sum_each]. unfold mret, M_ret.
  unfold update_volume. rewrite Hrow1. rewrite (bool_decide_eq_true_2 (1%Z = 1%Z)) by done. cbn [ensure].
  unfold put_checkpoint, check_fk, gets, volume_exists, mbind, M_bind. cbn [volumes set_volumes].
  rewrite lookup_insert_eq, bool_decide_eq_true_2 by done. reflexivity.
Qed.

Lemma require_reconciliation_total g v cp reason row :
  volumes g !! v = Some row → in_i64 (v_generation row + 1) → pc_volume_id cp = v →
  ∃ sum g' row', apply_batch (MkGraphMutationBatch v cp [RequireReconciliation v reason]) g = Ok (sum, g') ∧
    volumes g' !! v = Some row' ∧ v_state row' = volume_state_code VNeedsReconciliation ∧
    v_generation row' = (v_generation row + 1)%Z ∧
    checkpoints g' !! v = Some (checkpoint_row_of cp) ∧ sessions g' = sessions g.
Proof.
  intros Hrow Hgen Hcp.
  destruct (volume_batch_total g v cp (RequireReconciliation v reason) row
    (set_volume_jobs (<[v := VolumeJobRow (v_generation row + 1) None 0]> (volume_jobs g))
      (set_volumes (<[v := set_reason (Some (reconciliation_reason_code reason))
         (set_state (volume_state_code VNeedsReconciliation) row)]> (volumes g)) g)) 1)
    as (sum & row1 & Hrow1 & Hb); try done.
  - unfold validate_mutation_volume. cbn [mutation_volume mbind result_bind]. by rewrite decide_True.
  - cbn [apply_mutation]. unfold update_volume, mbind, M_bind. rewrite Hrow.
    unfold lift, require_single_update. rewrite decide_True by done.
    unfold enqueue_volume_projection_refresh, check_fk, gets, volume_exists, mbind, M_bind.
    cbn [volumes set_volumes]. rewrite lookup_insert_eq, bool_decide_eq_true_2 by done. reflexivity.
  - cbn [volumes set_volumes set_volume_jobs]. rewrite lookup_insert_eq. done.
  - cbn [volumes set_volumes set_volume_jobs] in Hrow1. rewrite lookup_insert_eq in Hrow1. injection Hrow1 as <-.
    eexists sum, _, _. split; [exact Hb|]. cbn [volumes advance_volume set_checkpoints set_volumes checkpoints sessions set_volume_jobs].
    rewrite !lookup_insert_eq. done.
Qed.

Lemma begin_observation_scan_total g d mode reason :
  in_i64 (generation_or_zero (vd_volume_id d) g + 1) →
  ∃ s g', begin_observation_scan d mode reason g = Ok (s, g') ∧
    sessions g' !! vd_volume_id d =
      Some (SessionRow (generation_or_zero (vd_volume_id d) g + 1) (observation_scan_mode_code mode) 0 None None None).
Proof.
  intros Hgen. unfold begin_observation_scan, mbind, M_bind, get_state, lift.
  unfold i64_checked_add. rewrite decide_True by done. cbn [ok_or]. unfold upsert_volume, modify, update_volume.
  cbn [volumes set_volumes]. rewrite lookup_insert_eq.
  unfold enqueue_volume_projection_refresh, check_fk, gets, volume_exists, mbind, M_bind, modify.
  cbn [volumes set_volumes]. rewrite lookup_insert_eq, bool_decide_eq_true_2 by done. cbn [ensure set_volume_jobs volumes].
  eexists _, _. split.
  - unfold mret, M_ret. cbn [volumes set_volumes set_volume_jobs]. rewrite lookup_insert_eq, bool_decide_eq_true_2 by done. reflexivity.
  - cbn [sessions set_sessions]. apply lookup_insert_eq.
Qed.

(** ** Branches of a step *)

(** A volume being followed: no scan in progress, a checkpoint, and no reconciliation pending. *)
Definition followed (g : db) (v : volume_id) (cp : ProviderCheckpoint) (row : volume_row) : Prop :=
  sessions g !! v = None ∧ checkpoint g v = Some cp ∧ volumes g !! v = Some row ∧
  (v_state row = volume_state_code VOnline ∨ v_state row = volume_state_code VOffline).

Lemma followed_step q d n c cp row :
  q_open q = Ok tt → followed (oc_graph c) (vd_volume_id d) cp row →
  step_volume q d n c = read_incremental d cp n c.
Proof.
  intros Hq (Hs & Hcp & Hrow & Hstate). unfold step_volume, mbind, St_bind, st_lift. rewrite Hq.
  cbn [map_err]. unfold read_graph, observation_session. rewrite Hs. cbn [map_err]. rewrite Hcp. cbn [map_err].
  unfold volume_state. rewrite Hrow. destruct Hstate as [-> | ->]; reflexivity.
Qed.

(** A checkpoint the volume's row holds belongs to the volume. *)
Lemma checkpoint_volume g v cp : checkpoint g v = Some cp → pc_volume_id cp = v.
Proof. unfold checkpoint. destruct (checkpoints g !! v); [|done]. by intros [= <-]. Qed.

(** Gaps are repaired: when the source reports a gap in its history, or a checkpoint it
    cannot read, for a volume that is being followed, the quantum marks the volume for
    reconciliation without moving its checkpoint, and the volume's next quantum prepares a
    reconciliation scan. *)
Theorem gap_starts_reconciliation q d n c cp row e w :
  let v := vd_volume_id d in
  q_open q = Ok tt → followed (oc_graph c) v cp row → (0 ≤ v_generation row)%Z →
  (v_generation row + 2 ≤ i64_max)%Z →
  src_read_changes cp n (oc_source c) = (Err e, w) →
  pe_kind e = SourceHistoryGap ∨ pe_kind e = InvalidCheckpoint →
  ∃ c1 c2 session,
    step_volume q d n c = (Ok (StepReconciliationRequired v), c1) ∧ checkpoint (oc_graph c1) v = Some cp ∧
    step_volume q d n c1 = (Ok (StepScanPrepared v), c2) ∧
    observation_session (oc_graph c2) v = Ok (Some session) ∧
    os_mode session = ScanReconcile ∧ os_phase session = Scanning.
Proof.
  intros v Hq Hf Hg0 Hgen Hsrc Hkind. rewrite (followed_step q d n c cp row Hq Hf).
  destruct Hf as (Hs & Hcp & Hrow & _). pose proof (checkpoint_volume _ _ _ Hcp) as Hv.
  destruct (require_reconciliation_total (oc_graph c) v cp
    match pe_kind e with SourceHistoryGap => SourceHistoryUnavailable | _ => ProviderRequested end row
    Hrow) as (sum & g1 & row1 & Hb & Hrow1 & Hstate1 & Hgen1 & Hcp1 & Hs1).
  { unfold in_i64, i64_min, i64_max in *. lia. }
  { done. }
  exists (with_graph g1 (with_source w c)).
  assert (checkpoint g1 v = Some cp) as Hck.
  { unfold checkpoint. rewrite Hcp1. destruct cp. simpl in *. by subst. }
  assert (read_incremental d cp n c =
    (Ok (StepReconciliationRequired v), with_graph g1 (with_source w c))) as ->.
  { unfold read_incremental, mbind, St_bind, try_source. rewrite Hsrc.
    destruct Hkind as [Hk|Hk]; rewrite Hk in Hb |- *; unfold on_graph, mret, St_ret;
      cbn [oc_graph with_source]; fold v; rewrite Hb; reflexivity. }
  destruct (begin_observation_scan_total g1 d ScanReconcile (scan_reason ScanReconcile)) as (s & g2 & Hbegin & Hs2).
  { unfold generation_or_zero. fold v. rewrite Hrow1, Hgen1. unfold in_i64, i64_min, i64_max in *. lia. }
  eexists _, _. split; [done|]. split; [done|]. split; [|split].
  - unfold step_volume, mbind, St_bind, st_lift. rewrite Hq. cbn [map_err].
    unfold read_graph, observation_session. cbn [oc_graph with_graph]. fold v. rewrite Hs1, Hs. cbn [map_err].
    change (oc_graph (with_graph g1 (with_source w c))) with g1.
    rewrite Hck. cbn [map_err]. unfold volume_state. change (oc_graph (with_graph g1 (with_source w c))) with g1. rewrite Hrow1, Hstate1. cbn [volume_state_code volume_state_from_code].
    unfold mbind, result_bind, mret, result_ret. cbn [map_err]. rewrite decide_True by done.
    unfold on_graph. cbn [oc_graph with_graph]. rewrite Hbegin. reflexivity.
  - unfold observation_session. cbn [oc_graph with_graph]. fold v in Hs2. rewrite Hs2. cbn [s_scan_generation s_scan_mode s_phase].
    unfold generation_or_zero. rewrite Hrow1, Hgen1. unfold u64_try_from. rewrite decide_True; [reflexivity|].
    unfold in_u64, u64_max, i64_max in *. lia.
  - done.
Qed.

(** Atomic progress: an incremental page is applied together with its checkpoint in one
    transaction or, when the graph refuses it, not at all. *)
Theorem incremental_atomic d cp n c r c' es batch w :
  let v := vd_volume_id d in
  src_read_changes cp n (oc_source c) = (Ok (es, batch), w) → read_incremental d cp n c = (r, c') →
  (∃ step sum state, r = Ok step ∧ volume_state (oc_graph c) v = Ok state ∧
     apply_batch (MkGraphMutationBatch v (cb_checkpoint batch)
       ((if decide (state = Some VOffline) then [SetVolumeState v VOnline] else [])
        ++ (GraphMutation_from_event <$> es))) (oc_graph c) = Ok (sum, oc_graph c') ∧
     checkpoint (oc_graph c') v = Some (cb_checkpoint batch)) ∨
  (∃ e, r = Err (ObsGraph e) ∧ oc_graph c' = oc_graph c).
Proof.
  intros v Hsrc H. unfold read_incremental, mbind, St_bind, try_source in H. rewrite Hsrc in H.
  unfold read_graph in H. cbn [oc_graph with_source] in H. fold v in H.
  destruct (volume_state (oc_graph c) v) as [state|e] eqn:Hst; cbn [map_err] in H.
  2: { injection H as <- <-. right. eauto. }
  unfold on_graph in H. cbn [oc_graph with_source] in H.
  destruct (apply_batch _ _) as [[sum g']|e] eqn:Hb.
  2: { injection H as <- <-. right. eauto. }
  injection H as <- <-. left. eexists _, sum, state. split; [reflexivity|]. split; [done|]. split; [exact Hb|].
  cbn [oc_graph with_graph].
  apply apply_batch_Ok in Hb as (jobs & A & g1 & g2 & m & row & Hval & _ & _ & _ & _ & _ & -> & _).
  cbn [gb_volume_id gb_checkpoint] in *. unfold checkpoint, advance_volume. cbn [checkpoints set_checkpoints].
  rewrite lookup_insert_eq. simpl. unfold batch_validate in Hval. cbn [gb_volume_id gb_checkpoint] in Hval.
  destruct (decide _) as [Hv|]; [|done]. rewrite <-Hv. by destruct (cb_checkpoint batch).
Qed.

(** When the graph refuses a scan page, the controller forgets the scan without cancelling it:
    the source is left as it was after handing out the page. *)
Theorem refused_page_abandons_scan q n c active page w e :
  oc_active_scan c = Some active →
  src_read_scan_page (as_scan_id active) (Z.max 1 (Z.min n MAX_BROKER_PAGE_EVENTS)) (oc_source c) = (Ok page, w) →
  q_open q = Ok tt →
  apply_observation_scan_page (as_volume_id active) (sp_events page) (oc_graph c) = Err e →
  observation_step q n c = (Err (ObsGraph e), with_active None (with_source w c)).
Proof.
  intros Ha Hsrc Hq He. unfold observation_step. rewrite Ha.
  unfold read_active_scan, mbind, St_bind, try_source. cbn [oc_source with_active]. rewrite Hsrc.
  unfold st_lift. rewrite Hq. cbn [map_err]. unfold on_graph. cbn [oc_graph with_active with_source].
  rewrite He. reflexivity.
Qed.

(** ** Turns *)

(** The volumes of the turns in a run of steps; a step that reads a scan page is not a turn. *)
Fixpoint visited (steps : list (quantum * Z)) (c : controller (W := W)) : list VolumeDescriptor :=
  match steps with
  | [] => []
  | (q, n) :: steps =>
      match oc_active_scan c with
      | Some _ => []
      | None => option_list (oc_volumes c !! oc_cursor c)
      end ++ visited steps (observation_step q n c).2
  end.

Lemma observation_step_cursor q n c :
  source_typed → I (oc_source c) → q_discovery_due q = false → oc_cursor c < length (oc_volumes c) →
  I (oc_source (observation_step q n c).2) ∧ oc_volumes (observation_step q n c).2 = oc_volumes c ∧
  oc_cursor (observation_step q n c).2 =
    match oc_active_scan c with
    | Some _ => oc_cursor c
    | None => (oc_cursor c + 1) mod length (oc_volumes c)
    end.
Proof.
  intros Hty HI Hdue Hlt. destruct (observation_step q n c) as [r c'] eqn:H. simpl.
  unfold observation_step in H. destruct (oc_active_scan c) as [a|].
  { apply (read_active_scan_moves q a _ Hty) in H as [(_ & Hv & Hc) [HI' _]]; done. }
  unfold mbind, St_bind in H. destruct (refresh_discovery_if_due q c) as [[u|e] c1] eqn:Hr;
    apply refresh_discovery_graph in Hr as (_ & _ & Hr); try done; destruct (Hr Hdue) as [-> ?]; [|done].
  apply step_next_moved in H as (HI' & _ & Hv & Hc); auto.
Qed.

Lemma visited_lookup steps c i d :
  source_typed → I (oc_source c) → Forall (λ s, q_discovery_due s.1 = false) steps →
  oc_cursor c < length (oc_volumes c) →
  visited steps c !! i = Some d → oc_volumes c !! ((oc_cursor c + i) mod length (oc_volumes c)) = Some d.
Proof.
  intros Hty HI Hdue. revert c i HI. induction Hdue as [|[q n] steps Hq _ IH]; intros c i HI Hlt; simpl; [done|].
  destruct (observation_step_cursor q n c Hty HI Hq Hlt) as (HI' & Hv & Hc).
  specialize (λ i, IH (observation_step q n c).2 i HI'). rewrite Hv, Hc in IH.
  destruct (oc_active_scan c); simpl; [by apply IH|].
  destruct (lookup_lt_is_Some_2 _ _ Hlt) as [d0 Hd0]. rewrite Hd0. simpl.
  destruct i as [|i]; simpl.
  - intros [= <-]. rewrite Nat.add_0_r, Nat.mod_small by lia. done.
  - intros Hi. apply IH in Hi; [|apply Nat.mod_upper_bound; lia].
    rewrite Nat.Div0.add_mod_idemp_l in Hi. by replace (oc_cursor c + S i) with (oc_cursor c + 1 + i) by lia.
Qed.

(** Fair turns: in a run of quanta without discovery, any number of turns that is at least
    the number of volumes visits every volume; quanta that read pages of an active scan are not
    turns. *)
Theorem volumes_take_turns steps c d :
  source_typed → I (oc_source c) → Forall (λ s, q_discovery_due s.1 = false) steps →
  oc_cursor c < length (oc_volumes c) →
  length (oc_volumes c) ≤ length (visited steps c) → d ∈ oc_volumes c → d ∈ visited steps c.
Proof.
  intros Hty HI Hdue Hlt Hlen [j Hj]%list_elem_of_lookup. pose proof (lookup_lt_Some _ _ _ Hj) as Hjl.
  set (len := length (oc_volumes c)) in *.
  set (i := (j + len - oc_cursor c) mod len).
  assert (i < len) as Hi by (apply Nat.mod_upper_bound; lia).
  destruct (lookup_lt_is_Some_2 (visited steps c) i) as [d' Hd']; [lia|].
  pose proof (visited_lookup steps c i d' Hty HI Hdue Hlt Hd') as H. fold len in H. unfold i in H.
  rewrite Nat.Div0.add_mod_idemp_r in H.
  replace (oc_cursor c + (j + len - oc_cursor c)) with (j + 1 * len) in H by lia.
  rewrite Nat.Div0.mod_add, Nat.mod_small in H by lia. rewrite Hj in H. injection H as <-.
  by eapply list_elem_of_lookup_2.
Qed.
End spec.
