(* ===== verification/ObservationLink.v ===== *)
(** The observation controller over the broker: the broker-backed provider is a typed source, so
    that the controller's guarantees hold for it; and what happens when the provider behind the
    broker cannot read its checkpoint. *)
From Stdlib Require Import Ascii String.
From stdpp Require Import base strings numbers gmap list sets relations.
From S2P Require Import Prelude Ids Models GraphDomain GraphTables Fixtures GraphPath GraphMutate.
From S2P Require Import GraphProjection GraphStore GraphInvariant GraphPreserve GraphReach GraphSync.
From S2P Require Import Frames Platform Crawl Broker BrokerSpec BrokerClient BrokerLink.
From S2P Require Import Observation ObservationSpec.

(** ** The broker as a typed source *)

Definition message_typed (m : ScanMessage) : Prop :=
  match m with MEvent e => mutation_typed (GraphMutation_from_event e) | MTerminal _ => True end.
Definition scan_typed (st : ScanState) : Prop :=
  Forall message_typed (st_queue st) ∧
  match st_worker st with Emitting todo _ => events_typed todo | Gone => True end.
Definition scans_typed (scans : gmap Z ScanState) : Prop := map_Forall (λ _ st, scan_typed st) scans.

Record provider_typed (provider : FilesystemProvider) : Prop := {
  pty_scan mode volume : events_typed (fp_scan provider mode volume).1;
  pty_changes cp n es b : fp_read_changes provider cp n = Ok (es, b) → events_typed es }.

Definition payload_typed (p : BrokerPayload) : Prop :=
  match p with
  | PScanPage page => events_typed (sp_events page)
  | PChanges es _ => events_typed es
  | _ => True
  end.

Lemma worker_tick_typed st : scan_typed st → scan_typed (worker_tick st).
Proof.
  intros [Hq Hw]. unfold worker_tick. destruct (st_worker st) as [todo fin|] eqn:Hworker; [|split; [done|]; by rewrite Hworker].
  destruct (st_cancellation st); [by split|].
  destruct (_ <? _); [|split; [done|]; by rewrite Hworker].
  destruct todo as [|e todo]; [split; [apply Forall_app; by repeat constructor|done]|].
  apply Forall_cons in Hw as [He Hw]. split; [|done]. apply Forall_app. split; [done|]. by repeat constructor.
Qed.

Lemma iter_typed k st : scan_typed st → scan_typed (Nat.iter k worker_tick st).
Proof. intros Hst. induction k as [|k IH]; [done|]. by apply worker_tick_typed. Qed.

Lemma receive_typed n q closed :
  Forall message_typed q →
  events_typed (receive n q closed).1.1 ∧ Forall message_typed (receive n q closed).2.
Proof.
  revert q. induction n as [|n IH]; intros q Hq; [split; [constructor|done]|].
  destruct Hq as [|[e|r] q Hm Hq]; simpl.
  - destruct closed; split; constructor.
  - specialize (IH q Hq). destruct (receive n q closed) as [[es t] q']. destruct IH as [He Hq'].
    split; [by constructor|done].
  - split; [constructor|done].
Qed.

Section typed.
Context (provider : FilesystemProvider) (Hprov : provider_typed provider).

Lemma read_scan_page_typed s id n r s' :
  scans_typed (bv_scans s) → read_scan_page s id n = (r, s') →
  scans_typed (bv_scans s') ∧ ∀ p, r = Ok p → payload_typed p.
Proof.
  intros Hs. unfold read_scan_page. destruct (bv_scans s !! id) as [st|] eqn:Hst; [|by intros [= <- <-]].
  destruct (Hs id st Hst) as [Hq Hw].
  pose proof (receive_typed (Z.to_nat n) (st_queue st) (worker_gone (st_worker st)) Hq) as [Hes Hq'].
  set (got := match st_pending_terminal st with Some r => ([], Some r, st_queue st) | None => receive _ _ _ end).
  assert (events_typed got.1.1 ∧ Forall message_typed got.2) as [Hes1 Hq1].
  { unfold got. destruct (st_pending_terminal st); [split; [constructor|done]|done]. }
  clearbody got. destruct got as [[es t] q]. simpl in Hes1, Hq1.
  assert (∀ w, scans_typed (<[id := MkScanState q (st_cancellation st) (st_worker st) w]> (bv_scans s))) as Hins.
  { intros w. apply map_Forall_insert_2; [by split|done]. }
  destruct t as [[summary|e]|]; [destruct (0 <? length es)|destruct (0 <? length es)|]; intros [= <- <-];
    (split; [by apply map_Forall_delete || apply Hins|]); intros p [= <-]; done.
Qed.

Lemma dispatch_typed s rq p0 p1 p2 response s' :
  scans_typed (bv_scans s) → dispatch provider s rq p0 p1 p2 = (response, s') →
  scans_typed (bv_scans s') ∧ ∀ p, bs_result response = Some p → payload_typed p.
Proof using Hprov.
  intros Hs [[-> Hr]|(s1 & r & Hs1 & _ & Hd & Hr)]%dispatch_inv; rewrite Hr.
  { by split. }
  rewrite <-Hs1 in Hs. assert (scans_typed (bv_scans s') ∧ ∀ p, r = Ok p → payload_typed p) as [H1 H2].
  2: { split; [done|]. intros p. destruct r; simpl; [|done]. intros [= <-]. auto. }
  clear Hr Hs1. unfold dispatch_operation in Hd. destruct (check_request _ p1); [|by simplify_eq].
  destruct (br_operation rq) as [| |v mode|id n|id|c n].
  - injection Hd as <- <-. split; [done|]. by intros p [= <-].
  - destruct (fp_discover_volumes provider); injection Hd as <- <-; (split; [done|]); by intros p [= <-].
  - unfold start_scan in Hd. destruct (fp_discover_volumes provider) as [volumes|]; [|by simplify_eq].
    destruct (List.find _ volumes) as [volume|]; [|by simplify_eq].
    destruct (check_request _ p2); [|by simplify_eq]. destruct (_ <=? _); [by simplify_eq|].
    pose proof (pty_scan _ Hprov mode volume) as Hrun.
    destruct (fp_scan provider mode volume) as [evs fin]. injection Hd as <- <-. split; [|by intros p [= <-]].
    apply map_Forall_insert_2; [split; [constructor|done]|done].
  - by eapply read_scan_page_typed.
  - unfold cancel_scan in Hd. destruct (bv_scans s1 !! id); injection Hd as <- <-; split;
      [by apply map_Forall_delete|by intros p [= <-]|done|done].
  - unfold service_read_changes in Hd. destruct (fp_read_changes provider c n) as [[es b]|e] eqn:Hc;
      injection Hd as <- <-; (split; [done|]); intros p [= <-]. by eapply pty_changes.
Qed.

Context (schedule : nat → nat) (probe : nat → Probe).

(** Clients whose broker holds only typed events. *)
Definition client_typed (c : client_state (T := direct_world)) : Prop :=
  scans_typed (bv_scans (dw_service (cs_world c))).

Lemma invoke_typed o : source_keeps client_typed (invoke (direct provider schedule probe) o) payload_typed.
Proof using Hprov.
  intros c r c' HI H. unfold invoke, direct in H.
  destruct (dispatch provider _ _ _ _ _) as [response s'] eqn:Hd.
  apply dispatch_typed in Hd as [Hs Hp].
  2: { cbn [bv_scans run_workers set_scans]. intros id st. rewrite lookup_fmap_Some. intros (st0 & <- & Hst).
       apply iter_typed. by eapply HI. }
  cbn [map_err] in H. injection H as <- <-. split; [done|]. intros p. cbn [mbind result_bind].
  destruct (_ || _); [done|]. destruct (bs_result response) as [p'|], (bs_error response); try done.
  intros [= <-]. by apply Hp.
Qed.

(** A call whose answer is looked at. *)
Lemma source_keeps_bind {A B} (m : St (client_state (T := direct_world)) PlatformError A)
  (f : A → St (client_state (T := direct_world)) PlatformError B) Q R :
  source_keeps client_typed m Q → (∀ a, Q a → ∀ w r w', f a w = (r, w') → w' = w ∧ ∀ b, r = Ok b → R b) →
  source_keeps client_typed (m ≫= f) R.
Proof.
  intros Hm Hf w r w' HI H. unfold mbind, St_bind in H. destruct (m w) as [[a|e] w1] eqn:Hw;
    destruct (Hm _ _ _ HI Hw) as [HI1 HQ].
  - destruct (Hf a (HQ a eq_refl) _ _ _ H) as [-> HR]. done.
  - by injection H as <- <-.
Qed.

#[local] Ltac answered := intros p Hp w r w' H; destruct p; try (injection H as <- <-; by split).

Lemma broker_source_typed :
  source_typed (Src := broker_source (direct provider schedule probe)) client_typed.
Proof using Hprov.
  split.
  - eapply source_keeps_bind; [apply invoke_typed|]. answered.
  - intros v mode. eapply source_keeps_bind; [apply invoke_typed|]. answered.
  - intros id n. cbn [src_read_scan_page broker_source]. unfold read_paged_scan. destruct (_ =? 0)%Z.
    { intros w r w' HI [= <- <-]. by split. }
    eapply source_keeps_bind; [apply invoke_typed|]. answered.
    injection H as <- <-. split; [done|]. by intros ? [= <-].
  - intros id. eapply source_keeps_bind; [apply invoke_typed|]. answered.
    destruct (_ =? _)%Z; injection H as <- <-; by split.
  - intros cp n. cbn [src_read_changes broker_source]. unfold client_read_changes. destruct (_ =? 0)%Z.
    { intros w r w' HI [= <- <-]. by split. }
    eapply source_keeps_bind; [apply invoke_typed|]. answered.
    destruct (_ || _); injection H as <- <-; (split; [done|]); [done|]. by intros ? [= <-].
Qed.
End typed.

(** ** An unreadable checkpoint behind the broker *)

Section stuck.
Context `{E : StoreEnv}.
Context (broker : FilesystemProvider) (schedule : nat → nat) (probe : nat → Probe).
#[local] Instance over_broker : ObservationSource (client_state (T := direct_world)) :=
  broker_source (direct broker schedule probe).

(** Behind the broker, a provider that cannot read its checkpoint stops the observation of the
    volume: the quantum fails as unsupported, and the graph, and with it the checkpoint the next
    quantum reads from, stays as it is. *)
Theorem unreadable_checkpoint_stuck q d n (c : controller (W := client_state)) cp row e :
  q_open q = Ok tt → followed (oc_graph c) (vd_volume_id d) cp row → (0 < n)%Z →
  prompt probe → fresh_client (oc_source c) → (cs_next_request_id (oc_source c) < 2 ^ 64 - 1)%Z →
  checkpoint_rejected cp = false →
  fp_read_changes broker cp (Z.min n MAX_BROKER_PAGE_EVENTS) = Err e → pe_kind e = InvalidCheckpoint →
  ∃ c', step_volume q d n c = (Err (ObsProvider Unsupported), c') ∧ oc_graph c' = oc_graph c ∧
    followed (oc_graph c') (vd_volume_id d) cp row.
Proof.
  intros Hq Hf Hn Hprompt Hfresh Hnext Hck He Hkind. rewrite (followed_step q d n c cp row Hq Hf).
  pose proof (client_read_changes_eq broker schedule probe cp n (oc_source c) Hprompt Hfresh Hnext Hn Hck) as Hread.
  cbn zeta in Hread. rewrite He in Hread. cbn [taken] in Hread.
  destruct (client_read_changes (direct broker schedule probe) cp n (oc_source c)) as [r w] eqn:Hr.
  simpl in Hread. subst r. exists (with_source w c). split; [|by split].
  unfold read_incremental, mbind, St_bind, try_source. cbn [src_read_changes over_broker broker_source].
  rewrite Hr. unfold wire_error. cbn [pe_kind]. rewrite broker_kind_spec, Hkind. reflexivity.
Qed.
End stuck.

(** ** Concrete instances *)

(** A volume that was scanned up to a checkpoint. *)
Definition followed_graph : db := run_ops [OpIngestSnapshot descriptor (checkpoint_at 1) sample_events] empty_db.

Definition gap_provider : FilesystemProvider :=
  MkFilesystemProvider sample_capabilities (Ok [descriptor])
    (λ _ _, ([observe_dir 1; observe_link 10 1 None "C:"], Ok (MkScanSummary (checkpoint_at 7) 2)))
    (λ _ _, Err (MkPlatformError SourceHistoryGap "validate_checkpoint" "gap")).

Definition change_provider : FilesystemProvider :=
  MkFilesystemProvider sample_capabilities (Ok [descriptor])
    (λ _ _, ([observe_dir 1; observe_link 10 1 None "C:"], Ok (MkScanSummary (checkpoint_at 7) 2)))
    (λ _ _, Ok ([observe_file 2 8], MkChangeBatch (checkpoint_at 2) 1 false)).

Definition gap_source := broker_source (direct gap_provider (λ _, 1) always).
Definition change_source := broker_source (direct change_provider (λ _, 1) always).

Definition following : controller (W := client_state) :=
  MkController AllLocalNtfs [descriptor] 0 None followed_graph at_start.
Definition open_quantum : quantum := MkQuantum false (Ok tt).

Lemma followed_sample : ∃ row, followed followed_graph vol (checkpoint_at 1) row ∧ v_generation row = 1%Z.
Proof. eexists. split; [split_and!; [reflexivity|reflexivity|reflexivity|left; reflexivity]|reflexivity]. Qed.

Lemma change_provider_typed : provider_typed change_provider.
Proof.
  split.
  - intros mode volume. repeat (apply Forall_cons; split); try apply Forall_nil; done.
  - intros cp n es b [= <- <-]. apply Forall_singleton. done.
Qed.

Lemma following_typed : client_typed (oc_source following).
Proof. apply map_Forall_empty. Qed.

Lemma observation_step_keeps_store_witness :
  ∃ r c', observation_step (Src := change_source) open_quantum 10 following = (r, c') ∧ store_wf (oc_graph c').
Proof.
  destruct (observation_step (Src := change_source) open_quantum 10 following) as [r c'] eqn:H.
  exists r, c'. split; [reflexivity|].
  apply (observation_step_keeps_store (Src := change_source) client_typed open_quantum 10 following r c').
  - apply (broker_source_typed change_provider change_provider_typed).
  - exact following_typed.
  - apply (store_steps_wf empty_db); [exact store_wf_empty|]. apply run_ops_steps.
    repeat constructor; simpl; unfold in_u64, u64_max, in_u128; lia.
  - exact H.
Defined.

Lemma gap_starts_reconciliation_witness :
  ∃ c1 c2 session,
    step_volume (Src := gap_source) open_quantum descriptor 10 following = (Ok (StepReconciliationRequired vol), c1) ∧
    step_volume (Src := gap_source) open_quantum descriptor 10 c1 = (Ok (StepScanPrepared vol), c2) ∧
    observation_session (oc_graph c2) vol = Ok (Some session) ∧ os_mode session = ScanReconcile.
Proof.
  destruct followed_sample as (row & Hf & Hg).
  destruct (src_read_changes (ObservationSource := gap_source) (checkpoint_at 1) 10 (oc_source following))
    as [r w] eqn:Hr.
  assert (∃ e, r = Err e ∧ pe_kind e = SourceHistoryGap) as (e & -> & Hk).
  { change r with (r, w).1. rewrite <-Hr. vm_compute. eauto. }
  destruct (gap_starts_reconciliation (Src := gap_source) open_quantum descriptor 10 following
    (checkpoint_at 1) row e w eq_refl Hf) as (c1 & c2 & s & H1 & _ & H2 & H3 & H4 & _).
  - rewrite Hg. lia.
  - rewrite Hg. unfold i64_max. lia.
  - exact Hr.
  - by left.
  - exists c1, c2, s. split; [exact H1|]. split; [exact H2|]. split; [exact H3|exact H4].
Defined.

Lemma incremental_atomic_witness :
  ∃ r c', read_incremental (Src := change_source) descriptor (checkpoint_at 1) 10 following = (r, c') ∧
    (checkpoint (oc_graph c') vol = Some (checkpoint_at 2) ∨ oc_graph c' = followed_graph).
Proof.
  destruct (read_incremental (Src := change_source) descriptor (checkpoint_at 1) 10 following) as [r c'] eqn:H.
  destruct (src_read_changes (ObservationSource := change_source) (checkpoint_at 1) 10 (oc_source following))
    as [r0 w] eqn:Hr.
  assert (r0 = Ok ([observe_file 2 8], MkChangeBatch (checkpoint_at 2) 1 false)) as ->.
  { change r0 with (r0, w).1. rewrite <-Hr. vm_compute. reflexivity. }
  exists r, c'. split; [reflexivity|].
  destruct (incremental_atomic (Src := change_source) descriptor (checkpoint_at 1) 10 following r c'
    [observe_file 2 8] (MkChangeBatch (checkpoint_at 2) 1 false) w Hr H)
    as [(st & sum & state & _ & _ & _ & Hcp)|(e & _ & Hg)]; [left; exact Hcp|right; exact Hg].
Defined.

(** A page with an event of another volume. *)
Definition scanning : controller (W := client_state) :=
  MkController AllLocalNtfs [descriptor] 0 (Some (MkActiveScan vol 1))
    (run_ops [OpBeginObservationScan descriptor ScanInitial ProviderRequested] empty_db)
    (MkClientState 3 (MkDirectWorld
       (set_scans (λ _, {[ 1%Z := MkScanState [] false
          (Emitting [ObjectRemoved (MkFileKey 99 1)] (Ok (MkScanSummary (checkpoint_at 7) 1))) None ]}) new_service) 0)).

Lemma refused_page_abandons_scan_witness :
  ∃ e w, observation_step (Src := change_source) open_quantum 10 scanning =
      (Err (ObsGraph e), with_active None (with_source w scanning)) ∧
    bv_scans (dw_service (cs_world w)) !! 1%Z ≠ None.
Proof.
  destruct (src_read_scan_page (ObservationSource := change_source) 1 10 (oc_source scanning)) as [r w] eqn:Hr.
  assert (r = Ok (MkScanPage [ObjectRemoved (MkFileKey 99 1)] None false true)) as ->.
  { change r with (r, w).1. rewrite <-Hr. vm_compute. reflexivity. }
  destruct (apply_observation_scan_page vol [ObjectRemoved (MkFileKey 99 1)] (oc_graph scanning)) as [[sum g]|e] eqn:He.
  { exfalso. revert He. vm_compute. discriminate. }
  exists e, w. split.
  - apply (refused_page_abandons_scan (Src := change_source) open_quantum 10 scanning (MkActiveScan vol 1)
      (MkScanPage [ObjectRemoved (MkFileKey 99 1)] None false true) w e eq_refl Hr eq_refl He).
  - change w with (@pair (PlatformResult ScanPage) _ (Ok (MkScanPage [ObjectRemoved (MkFileKey 99 1)] None false true)) w).2.
    rewrite <-Hr. vm_compute. discriminate.
Defined.

Lemma volumes_take_turns_witness :
  descriptor ∈ visited (Src := change_source) [(open_quantum, 10%Z)] following.
Proof.
  apply (volumes_take_turns (Src := change_source) client_typed [(open_quantum, 10%Z)] following descriptor).
  - apply (broker_source_typed change_provider change_provider_typed).
  - exact following_typed.
  - repeat constructor.
  - simpl. lia.
  - simpl. lia.
  - by left.
Defined.

Lemma unreadable_checkpoint_stuck_witness :
  ∃ c', step_volume (Src := broker_source (direct scan_provider (λ _, 1) always)) open_quantum descriptor 10 following =
      (Err (ObsProvider Unsupported), c') ∧ oc_graph c' = followed_graph.
Proof.
  destruct followed_sample as (row & Hf & _).
  destruct (unreadable_checkpoint_stuck scan_provider (λ _, 1) always open_quantum descriptor 10 following
    (checkpoint_at 1) row (MkPlatformError InvalidCheckpoint "decode_checkpoint" "provider or format mismatch")
    eq_refl Hf) as (c' & Hs & Hg & _).
  - lia.
  - exact always_prompt.
  - exact at_start_fresh.
  - cbn [oc_source following cs_next_request_id at_start]. lia.
  - reflexivity.
  - reflexivity.
  - reflexivity.
  - exists c'. split; [exact Hs|exact Hg].
Defined.
