(* ===== verification/Scheduler.v ===== *)
(** The scheduler thread of the agent process ([crates/agent/src/bin/localsearch-agent.rs]): in each
    round it samples the system, reports to the governor, lets the observation controller make a
    quantum unless background work is paused, and runs maintenance while there is a backlog.

    The controller and the service work on the same graph database, so a round hands the graph from
    one to the other. Not modelled: the printed evidence and the sleep itself. *)
From stdpp Require Import base strings numbers gmap list sets.
From S2P Require Import Prelude Ids Models GraphDomain GraphTables GraphOutbox Text Catalog Governor.
From S2P Require Import Frames Projector Search Agent Platform Broker Observation.

Definition client_authorization (content_enabled : bool) : ClientAuthorization :=
  if content_enabled then v0_2_with_content else v0_1_metadata.

(** The pause before the next round, in milliseconds. *)
Definition maintenance_interval (m : GovernorMode) : Z :=
  match m with Active => 250 | Balanced => 100 | IdleBoost => 25 | Pressure => 500 | Battery => 1000 end.

(** [connect_observation]: which volumes are observed, or why the arguments are refused. *)
Definition observation_selection (enabled : bool) (broker_pipe : option string) (volumes : gset volume_id)
  (roots : list string) (once : bool) : result string (option (string * ObservationSelection)) :=
  if once && enabled then Err "--observe-usn cannot be combined with --once"
  else if negb enabled
          && (bool_decide (is_Some broker_pipe) || bool_decide (volumes ≠ ∅) || bool_decide (roots ≠ []))
  then Err "--broker-pipe/--observe-volume/--observe-root require --observe-usn"
  else if negb enabled then Ok None
  else
    pipe ← ok_or broker_pipe "--observe-usn requires --broker-pipe <name>";
    Ok (Some (pipe,
      if bool_decide (volumes = ∅) && bool_decide (roots = []) then AllLocalNtfs
      else if bool_decide (roots = []) then SelectVolumes volumes
      else SelectVolumesAndMountPoints volumes roots)).

Section scheduler.
Context `{TV : Tantivy} `{T : TextEnv} `{!ContentPort} {W : Type} `{Src : !ObservationSource W}.

Record scheduler := MkScheduler {
  sc_service : AgentService;
  sc_observation : option (controller (W := W));
  sc_maintenance_failed : bool;
  sc_observation_failed : bool }.

(** What a round finds outside: the resource sample, the reads of the graph, the quantum of the
    controller and the maintenance pass. *)
Record round := MkRound {
  rd_sample : option SystemResources;
  rd_opens : nat → result GraphError unit;
  rd_quantum : quantum;
  rd_maintenance : maintenance_env }.

(** The decision of the round. *)
Definition round_decision (r : round) (backlog : result AgentWireError Z)
  : St AgentService AgentWireError GovernorDecision :=
  match rd_sample r with
  | None => service_resource_unavailable
  | Some snapshot =>
      match backlog with
      | Err _ => governor_decision
      | Ok backlog =>
          report_resource_observation (SystemPressure_from_resources snapshot)
            (user_idle_duration_millis snapshot) backlog
      end
  end.

Definition round_events (d : GovernorDecision) : Z :=
  Z.max 1 (Z.min (maximum_batch_mutations (gd_budget d)) MAX_BROKER_PAGE_EVENTS).

(** A quantum of the controller on the graph of the service. *)
Definition observe (r : round) (d : GovernorDecision) (s : scheduler) : scheduler :=
  match sc_observation s with
  | Some c =>
      if background_paused (gd_budget d) then s
      else
        let '(outcome, c) := observation_step (rd_quantum r) (round_events d)
                               (with_graph (as_graph (sc_service s)) c) in
        MkScheduler
          (set_world (MkWorld (oc_graph c) (w_generations (as_world (sc_service s)))) (sc_service s))
          (Some c) (sc_maintenance_failed s) (negb (is_ok outcome))
  | None => s
  end.

(** Maintenance while there is a backlog. *)
Definition maintain (r : round) (s : scheduler) : scheduler :=
  match (projection_backlog (rd_opens r 1) (sc_service s)).1 with
  | Ok backlog =>
      if (backlog =? 0)%Z then MkScheduler (sc_service s) (sc_observation s) false (sc_observation_failed s)
      else
        let '(outcome, service) := maintain_all_projections_scheduled (rd_maintenance r) (sc_service s) in
        MkScheduler service (sc_observation s) (negb (is_ok outcome)) (sc_observation_failed s)
  | Err _ => MkScheduler (sc_service s) (sc_observation s) true (sc_observation_failed s)
  end.

(** One round of the loop. *)
Definition scheduler_round (r : round) (s : scheduler) : scheduler :=
  let backlog := (projection_backlog (rd_opens r 0) (sc_service s)).1 in
  let '(decided, service) := round_decision r backlog (sc_service s) in
  let s := MkScheduler service (sc_observation s) (sc_maintenance_failed s) (sc_observation_failed s) in
  match decided with
  | Ok d => maintain r (observe r d s)
  | Err _ => s
  end.
End scheduler.
