(* ===== verification/SchedulerSpec.v ===== *)
(** Rounds of the scheduler with requests in between: no interleaving loses a catalog change, and
    after telemetry is lost nothing durable changes until recovery was observed long enough. *)
From stdpp Require Import base strings numbers gmap list sets relations.
From S2P Require Import Prelude Ids Models GraphDomain GraphTables Fixtures GraphPath GraphMutate.
From S2P Require Import GraphProjection GraphStore GraphOutbox GraphRefresh GraphInvariant.
From S2P Require Import GraphPreserve GraphReach GraphSync GraphConverge.
From S2P Require Import Text Catalog CatalogSpec CatalogFixtures Projector ProjectorSpec ProjectorRun.
From S2P Require Import Governor Frames Search SearchSpec Agent AgentSpec.
From S2P Require Import Platform Crawl Broker BrokerSpec BrokerClient BrokerLink.
From S2P Require Import Observation ObservationSpec ObservationLink Scheduler.

Section spec.
Context `{TV : Tantivy} `{T : TextEnv} `{!StoreLaws E} `{!TextLaws T} `{TL : !TantivyLaws}.
Context `{CP : !ContentPort} `{CL : !ContentLaws} {W : Type} `{Src : !ObservationSource W}.
Context (I : W → Prop).
Implicit Types (s : scheduler (W := W)).

(** A client's request between two rounds, or a round. *)
Inductive event :=
| Round (r : round)
| Request (env : request_env) (opens : nat → result GraphError unit) (request : AgentRequest).

Definition happen (e : event) s : scheduler :=
  match e with
  | Round r => scheduler_round r s
  | Request env opens request =>
      MkScheduler (dispatch_cancellable env opens request (sc_service s)).2 (sc_observation s)
        (sc_maintenance_failed s) (sc_observation_failed s)
  end.
Definition happens (es : list event) s : scheduler := foldl (λ s e, happen e s) s es.

(** ** The invariant *)

Definition scheduler_ok s : Prop :=
  agent_ok (sc_service s) ∧ ∀ c, sc_observation s = Some c → I (oc_source c).

Lemma round_decision_stays r backlog : world_stays (round_decision r backlog).
Proof.
  unfold round_decision. destruct (rd_sample r); [destruct backlog|]; apply with_governor_stays.
Qed.

Lemma observe_ok r d s : source_typed I → scheduler_ok s → scheduler_ok (observe r d s).
Proof.
  intros Hty Hs. pose proof Hs as [Hok HI]. unfold observe. destruct (sc_observation s) as [c|] eqn:Hc; [|done].
  destruct (background_paused _); [done|].
  destruct (observation_step _ _ _) as [outcome c'] eqn:Hstep.
  apply (observation_step_moves I) in Hstep as [Hsteps HI']; [|done|exact (HI c eq_refl)].
  cbn [oc_graph with_graph] in Hsteps. destruct (foreign_steps_spare _ _ (ao_wf _ Hok) Hsteps) as [Hwf Hsp].
  split; [|by intros ? [= <-]]. by apply (spares_ok (sc_service s)).
Qed.

Lemma maintain_ok r s : scheduler_ok s → scheduler_ok (maintain r s).
Proof.
  intros [Hok HI]. unfold maintain. destruct (projection_backlog _ _).1 as [backlog|e]; [|done].
  destruct (backlog =? 0)%Z; [done|].
  destruct (maintain_all_projections_scheduled _ _) as [outcome service] eqn:Hm. split; [|done].
  by eapply maintain_all_ok.
Qed.

Lemma happen_ok e s : source_typed I → scheduler_ok s → scheduler_ok (happen e s).
Proof.
  intros Hty [Hok HI]. destruct e as [r|env opens request]; simpl.
  - unfold scheduler_round. pose proof (round_decision_stays r (projection_backlog (rd_opens r 0) (sc_service s)).1 (sc_service s)) as Hw.
    destruct (round_decision _ _ _) as [decided service]. simpl in Hw.
    assert (agent_ok service) as Hs by (by apply (agent_ok_world (sc_service s))).
    destruct decided as [d|]; [|by split]. apply maintain_ok, observe_ok; [done|by split].
  - split; [|done]. apply (agent_ok_world (sc_service s)); [|done].
    pose proof (dispatch_durable env opens request (sc_service s)) as Hd. unfold durable in Hd. by injection Hd.
Qed.

(** C3 (no interleaving loses a change): whatever the samples, the source and the clients do, in
    whatever order rounds and requests follow each other, the database stays well-formed, the active
    generation opens, and the unread outbox applied to it yields the desired catalog. *)
Theorem scheduler_keeps_catalog es s :
  source_typed I → scheduler_ok s → scheduler_ok (happens es s).
Proof.
  intros Hty. unfold happens. revert s. induction es as [|e es IH]; intros s Hok; [done|].
  simpl. apply IH. by apply happen_ok.
Qed.

(** ** Rest after telemetry was lost *)

Definition sampled (e : event) : bool :=
  match e with Round r => bool_decide (is_Some (rd_sample r)) | Request _ _ _ => false end.
Definition samples (es : list event) : nat := length (filter (λ e, sampled e = true) es).

Definition at_rest (c : GovernorConfig) (n : Z) s s' : Prop :=
  durable (sc_service s') = durable (sc_service s) ∧ sc_observation s' = sc_observation s ∧
  recovering c n (as_governor (sc_service s')).

Lemma recovering_hears c n g g' :
  recovering c n g → (n < recovery_windows c)%Z → (0 ≤ n)%Z → hears g g' → recovering c n g'.
Proof.
  intros Hr Hn H0 (es & He & ->). pose proof (reports_recovering c n es g Hr) as H. rewrite He, Z.add_0_r in H.
  by apply H.
Qed.

Lemma recovering_paused c n (a : AgentService) : recovering c n (as_governor a) → paused a = true.
Proof. intros [_ _ Hm _]. unfold paused, decision, get_indexing_budget. simpl. by rewrite Hm. Qed.

(** A round in which the governor decides to wait. *)
Lemma waiting_round c n r service s :
  recovering c n (as_governor service) → (n < recovery_windows c)%Z → (0 ≤ n)%Z →
  durable service = durable (sc_service s) →
  let s1 := MkScheduler service (sc_observation s) (sc_maintenance_failed s) (sc_observation_failed s) in
  at_rest c n s (maintain r (observe r (decision (as_governor service)) s1)).
Proof.
  intros Hr Hn H0 Hd s1. pose proof (recovering_paused c n service Hr) as Hp.
  assert (observe r (decision (as_governor service)) s1 = s1) as ->.
  { unfold observe. destruct (sc_observation s1); [|done]. unfold paused in Hp. by rewrite Hp. }
  unfold maintain. cbn [sc_service s1]. destruct (projection_backlog _ _).1 as [backlog|e]; [|done].
  destruct (backlog =? 0)%Z; [done|].
  destruct (maintain_all_rests (rd_maintenance r) service Hp) as (Hd' & _ & Hh).
  destruct (maintain_all_projections_scheduled _ _) as [outcome service']. simpl in *.
  split; [simpl; congruence|]. split; [done|]. by eapply recovering_hears.
Qed.

Lemma happen_rests c n e s :
  recovering c n (as_governor (sc_service s)) → (0 ≤ n)%Z →
  (n + (if sampled e then 1 else 0) < recovery_windows c)%Z →
  at_rest c (n + (if sampled e then 1 else 0)) s (happen e s).
Proof.
  intros Hr H0 Hn. destruct e as [r|env opens request]; simpl in *.
  - unfold scheduler_round, round_decision. destruct (rd_sample r) as [sample|] eqn:Hs.
    + rewrite bool_decide_eq_true_2 in * by done. destruct (projection_backlog _ _).1 as [backlog|e].
      * unfold report_resource_observation, with_governor. cbn zeta. set (g := report_user_idle_duration _ _).
        apply (waiting_round c (n + 1) r (set_governor g (sc_service s))); [|lia|lia|done].
        pose proof (reports_recovering c n [ReportBacklog backlog; ReportSystemPressure (SystemPressure_from_resources sample);
          ReportUserIdleDuration (user_idle_duration_millis sample)] _ Hr) as H.
        change (Z.of_nat (windows _)) with 1%Z in H. apply H; lia.
      * unfold governor_decision, with_governor. cbn zeta.
        apply (waiting_round c (n + 1) r (set_governor (as_governor (sc_service s)) (sc_service s))); [|lia|lia|done].
        destruct Hr as [? ? ? ?]. split; simpl; try done; lia.
    + rewrite bool_decide_eq_false_2 in * by (by intros [? ?]). rewrite Z.add_0_r in *.
      unfold service_resource_unavailable, with_governor. cbn zeta.
      apply (waiting_round c n r (set_governor (report_resource_unavailable (as_governor (sc_service s))) (sc_service s))); [|lia|lia|done].
      pose proof (report_recovering c n ReportResourceUnavailable _ Hr) as H. unfold window_count in H. simpl in H.
      rewrite Z.add_0_r in H. by apply H.
  - rewrite Z.add_0_r in *. split; [apply dispatch_durable|]. split; [done|].
    eapply recovering_hears; [done|done|done|apply dispatch_hears].
Qed.

Lemma happens_rest c es n s0 s :
  at_rest c n s0 s → (0 ≤ n)%Z → (n + Z.of_nat (samples es) < recovery_windows c)%Z →
  at_rest c (n + Z.of_nat (samples es)) s0 (happens es s).
Proof.
  unfold happens, samples. revert n s. induction es as [|e es IH]; intros n s Hs H0 Hn; simpl.
  { by rewrite Z.add_0_r. }
  rewrite filter_cons in *. destruct Hs as (Hd & Ho & Hr).
  pose proof (happen_rests c n e s Hr H0) as He.
  destruct (sampled e); simpl in *; [rewrite Nat2Z.inj_succ in *|];
    destruct He as (Hd' & Ho' & Hr'); try lia.
  - replace (n + Z.succ (Z.of_nat (length (filter (λ e, sampled e = true) es))))%Z with
      (n + 1 + Z.of_nat (length (filter (λ e, sampled e = true) es)))%Z by lia.
    apply IH; [split_and!; [congruence|congruence|done]|lia|lia].
  - rewrite Z.add_0_r in Hr'. apply IH; [split_and!; [congruence|congruence|done]|lia|lia].
Qed.

(** C12 (rest without telemetry): from a round whose resource sample failed on, until as many rounds
    with a sample have passed as the governor requires for recovery, nothing durable changes, whatever
    the clients request meanwhile: not the graph, the generations, the reader or the content
    workspace, and the source is not read. *)
Theorem scheduler_rests_without_telemetry r es s :
  rd_sample r = None →
  (Z.of_nat (samples es) < recovery_windows (config (as_governor (sc_service s))))%Z →
  let s' := happens es (scheduler_round r s) in
  durable (sc_service s') = durable (sc_service s) ∧ sc_observation s' = sc_observation s ∧
  paused (sc_service s') = true.
Proof.
  intros Hs Hn s'. set (c := config (as_governor (sc_service s))) in *.
  assert (at_rest c 0 s (scheduler_round r s)) as H0.
  { unfold scheduler_round, round_decision. rewrite Hs. unfold service_resource_unavailable, with_governor. cbn zeta.
    apply (waiting_round c 0 r (set_governor (report_resource_unavailable (as_governor (sc_service s))) (sc_service s)));
      [|lia|lia|done]. cbn [as_governor set_governor]. unfold report_resource_unavailable. split; gov; done. }
  apply (happens_rest c es) in H0 as (Hd & Ho & Hr); [|lia|lia]. split_and!; [done|done|]. by eapply recovering_paused.
Qed.
(** ** A content side without a checkpoint *)

(** While the content projector cannot tell its backlog, rounds neither report the sampled pressure to
    the governor nor maintain the catalog. *)
Theorem content_backlog_failure_stops_maintenance r s sample :
  rd_sample r = Some sample → as_content_projector (sc_service s) = true →
  (∀ g, ∃ e, content_backlog g (as_workspace (sc_service s)) = Err e) →
  let s' := scheduler_round r s in
  as_governor (sc_service s') = as_governor (sc_service s) ∧
  w_generations (as_world (sc_service s')) = w_generations (as_world (sc_service s)) ∧
  as_catalog_reader (sc_service s') = as_catalog_reader (sc_service s) ∧ sc_maintenance_failed s' = true.
Proof.
  intros Hs Hp Hb s'. subst s'. unfold scheduler_round, round_decision. rewrite Hs.
  destruct (Hb (as_graph (sc_service s))) as [e He].
  destruct (failing_backlog (rd_opens r 0) (sc_service s) e Hp He) as [e' ->].
  unfold governor_decision, with_governor. cbn zeta. set (d := decision _).
  set (s1 := MkScheduler _ _ _ _).
  assert (∃ g c f, observe r d s1 = MkScheduler (set_world (MkWorld g (w_generations (as_world (sc_service s1)))) (sc_service s1)) c
    (sc_maintenance_failed s1) f) as (g & c & f & ->).
  { unfold observe. destruct (sc_observation s1) as [c|] eqn:Hc.
    - destruct (background_paused _); [|destruct (observation_step _ _ _) as [o c']; by eexists _, _, _].
      exists (as_graph (sc_service s1)), (Some c), (sc_observation_failed s1). destruct s1 as [[[] ? ? ? ? ? ?] ? ? ?]. simpl in *. by subst.
    - exists (as_graph (sc_service s1)), None, (sc_observation_failed s1). destruct s1 as [[[] ? ? ? ? ? ?] ? ? ?]. simpl in *. by subst. }
  unfold maintain. cbn [sc_service]. set (a := set_world _ (sc_service s1)).
  destruct (Hb g) as [e2 He2]. destruct (failing_backlog (rd_opens r 1) a e2) as [e3 ->]; done.
Qed.
End spec.

(** ** Concrete rounds *)

Definition sample_resources : SystemResources :=
  (MkSystemResources 8 (Some 16000) (Some 8000) (Some 500) None PowerAc None false (Some 100) (Some 0) [])%Z.
Definition open_round (sample : option SystemResources) : round :=
  MkRound sample (λ _, Ok tt) open_quantum calm_env.

(** The sample agent observing the sample volume through the broker. *)
Definition sample_scheduler (s : AgentService) : scheduler (W := client_state (T := direct_world)) :=
  MkScheduler s (Some (MkController AllLocalNtfs [descriptor] 0 None (as_graph s) at_start)) false false.

Definition busy_day : list event :=
  [Round (open_round (Some sample_resources)); Request sample_env (λ _, Ok tt) (search_for "a.txt");
   Round (open_round (Some sample_resources)); Round (open_round None)].

Lemma sample_scheduler_ok s w' :
  sample_open = (Ok s, w') → scheduler_ok client_typed (sample_scheduler s).
Proof.
  intros H. destruct (open_inv calm_env opened_content true no_files v0_2_with_content fresh_world s w')
    as (_ & Hok & _); [apply sample_db_wf|apply fresh_world_tracks|right; apply fresh_world_synced|exact H|].
  split; [exact Hok|]. intros c [= <-]. exact following_typed.
Qed.

Lemma scheduler_keeps_catalog_witness :
  ∃ s w', sample_open = (Ok s, w') ∧
    scheduler_ok client_typed (happens (Src := change_source) busy_day (sample_scheduler s)).
Proof.
  destruct sample_opens as (s & w' & H). exists s, w'. split; [exact H|].
  apply (scheduler_keeps_catalog (Src := change_source) client_typed busy_day (sample_scheduler s)).
  - apply (broker_source_typed change_provider change_provider_typed).
  - exact (sample_scheduler_ok s w' H).
Defined.

Definition quiet_hour : list event :=
  [Round (open_round (Some sample_resources)); Request sample_env (λ _, Ok tt) (search_for "a.txt")].

Lemma sample_open_config s w' :
  sample_open = (Ok s, w') → config (as_governor s) = GovernorConfig_default.
Proof.
  intros H. assert (match sample_open with
    | (Ok s, _) => config (as_governor s) = GovernorConfig_default | _ => False end) as Hc by (vm_compute; reflexivity).
  by rewrite H in Hc.
Qed.

Lemma scheduler_rests_without_telemetry_witness :
  ∃ s w', sample_open = (Ok s, w') ∧
    let s' := happens (Src := change_source) quiet_hour (scheduler_round (Src := change_source) (open_round None) (sample_scheduler s)) in
    durable (sc_service s') = durable s ∧ paused (sc_service s') = true.
Proof.
  destruct sample_opens as (s & w' & H). exists s, w'. split; [exact H|].
  destruct (scheduler_rests_without_telemetry (Src := change_source) (open_round None) quiet_hour (sample_scheduler s))
    as (Hd & _ & Hp).
  - reflexivity.
  - cbn [sc_service sample_scheduler]. rewrite (sample_open_config s w' H). vm_compute. reflexivity.
  - split; [exact Hd|exact Hp].
Defined.
