(* ===== verification/Mcp.v ===== *)
(** The MCP adapter ([crates/mcp-adapter/src/protocol.rs], [adapter.rs], [stdio.rs]): JSON-RPC requests
    on standard input become bounded requests to the agent, and each gets one answer on standard output.

    A JSON value is a tree; parsing and printing its text, the payloads of the agent, the tool manifest
    (a file compiled into the program) and the agent itself are parameters.  Decoding a value into the
    request types is modelled as serde derives it: an object without unknown fields, or an array of the
    fields in order.  The worker threads of the server are the interleaved steps of [serve_event]. *)
From Stdlib Require Import Ascii String.
From stdpp Require Import base strings numbers gmap list sorting pretty.
From S2P Require Import Prelude Ids Models GraphDomain GraphTables Text Frames Agent.

(** ** JSON values *)

Inductive json :=
| JNull
| JBool (b : bool)
| JInt (z : Z)                         (* an integer that fits u64 or i64 *)
| JFloat (text : string)
| JString (s : string)
| JArray (l : list json)
| JObject (l : list (string * json)).

Definition as_str (v : json) : option string := match v with JString s => Some s | _ => None end.
Definition as_i64 (v : json) : option Z := match v with JInt z => i64_try_from z | _ => None end.
Definition as_object (v : json) : option (list (string * json)) := match v with JObject l => Some l | _ => None end.
Fixpoint assoc (name : string) (l : list (string * json)) : option json :=
  match l with
  | [] => None
  | (k, v) :: l => if bool_decide (k = name) then Some v else assoc name l
  end.
(** [Value::get] of a string. *)
Definition get (name : string) (v : json) : option json := as_object v ≫= assoc name.

(** A derived [Deserialize] with [deny_unknown_fields]: the value of each field, if it is there. *)
Definition struct_fields (names : list string) (v : json) : option (list (option json)) :=
  match v with
  | JObject l => if forallb (λ x, bool_decide (x.1 ∈ names)) l then Some ((λ n, assoc n l) <$> names) else None
  | JArray l => if length l <=? length names then Some ((Some <$> l) ++ replicate (length names - length l) None) else None
  | _ => None
  end.

Definition string_field (v : option json) : option string := v ≫= as_str.
Definition value_field (v : option json) : json := default JNull v.
Definition optional_string_field (v : option json) : option (option string) :=
  match v with
  | None | Some JNull => Some None
  | Some (JString s) => Some (Some s)
  | Some _ => None
  end.
Definition strings_field (v : option json) : option (list string) :=
  match v with
  | None => Some []
  | Some (JArray l) => mapM as_str l
  | Some _ => None
  end.
Definition u16_field (fallback : Z) (v : option json) : option Z :=
  match v with
  | None => Some fallback
  | Some (JInt z) => if (0 <=? z)%Z && (z <=? u16_max)%Z then Some z else None
  | Some _ => None
  end.

(** ** Protocol *)

Definition MCP_PROTOCOL_VERSION : string := "2026-07-28".

Inductive McpId := IdNumber (value : Z) | IdString (value : string).
Global Instance McpId_eq_dec : EqDecision McpId.
Proof. solve_decision. Defined.

Definition id_key (id : McpId) : string :=
  match id with IdNumber value => "n:" +:+ pretty value | IdString value => "s:" +:+ value end.

(** [#[serde(untagged)]]. *)
Definition id_from_value (v : json) : option McpId :=
  match v with
  | JInt z => IdNumber <$> i64_try_from z
  | JString s => Some (IdString s)
  | _ => None
  end.
Definition id_field (v : option json) : option (option McpId) :=
  match v with
  | None | Some JNull => Some None
  | Some v => Some <$> id_from_value v
  end.

Record McpRequest := MkMcpRequest {
  mq_jsonrpc : string;
  mq_id : option McpId;
  mq_method : string;
  mq_params : json }.

Definition request_from_value (v : json) : option McpRequest :=
  fields ← struct_fields ["jsonrpc"; "id"; "method"; "params"] v;
  match fields with
  | [jsonrpc; id; method; params] =>
      jsonrpc ← string_field jsonrpc; id ← id_field id; method ← string_field method;
      Some (MkMcpRequest jsonrpc id method (value_field params))
  | _ => None
  end.

Record McpError := MkMcpError { me_code : Z; me_message : string; me_data : option json }.
Record McpResponse := MkMcpResponse { mr_id : option McpId; mr_result : option json; mr_error : option McpError }.

Definition mcp_success (id : McpId) (result : json) : McpResponse := MkMcpResponse (Some id) (Some result) None.
Definition mcp_error (id : option McpId) (code : Z) (message : string) (data : option json) : McpResponse :=
  MkMcpResponse id None (Some (MkMcpError code message data)).

(** ** Tools *)

Definition AGENT_DEADLINE_MS : Z := 2000.
Definition MCP_SEARCH_MAX_TOP_K : Z := 50.
Definition default_top_k : Z := 10.

Inductive InvokeError := InvokeUnavailable | InvokeCancelled | InvokeIncompatible.

Inductive MetaError := MetaMissing | MetaUnsupported (requested : option string) | MetaInvalidCapabilities.

Definition validate_modern_meta (params : json) : result MetaError unit :=
  match get "_meta" params ≫= as_object with
  | None => Err MetaMissing
  | Some meta =>
      let requested := assoc "io.modelcontextprotocol/protocolVersion" meta ≫= as_str in
      ensure (bool_decide (requested = Some MCP_PROTOCOL_VERSION)) (MetaUnsupported requested) ;;
      ensure (bool_decide (is_Some (assoc "io.modelcontextprotocol/clientCapabilities" meta ≫= as_object)))
        MetaInvalidCapabilities
  end.

Definition supported_versions : json := JArray [JString MCP_PROTOCOL_VERSION].

Definition meta_error (id : McpId) (error : MetaError) : McpResponse :=
  match error with
  | MetaMissing => mcp_error (Some id) (-32602) "modern MCP request metadata is required" None
  | MetaUnsupported requested =>
      mcp_error (Some id) (-32022) "unsupported MCP protocol version"
        (Some (JObject [("supportedVersions", supported_versions);
                        ("requestedVersion", from_option JString JNull requested)]))
  | MetaInvalidCapabilities => mcp_error (Some id) (-32602) "clientCapabilities metadata must be an object" None
  end.

Definition required_capability (name : string) : option Capability :=
  if bool_decide (name = "localsearch.search_files") then Some CapSearchCatalog
  else if bool_decide (name = "localsearch.get_catalog_item") then Some CapReadMetadata
  else if bool_decide (name = "localsearch.get_index_status") then Some CapIndexStatus
  else None.

Record ToolCallParams := MkToolCallParams { tc_name : string; tc_arguments : json }.
Definition tool_call_from_value (v : json) : option ToolCallParams :=
  fields ← struct_fields ["_meta"; "name"; "arguments"] v;
  match fields with
  | [meta; name; arguments] =>
      meta ;; name ← string_field name; Some (MkToolCallParams name (value_field arguments))
  | _ => None
  end.

(** A unit variant is its name, or an object with its name and null. *)
Definition scope_of_name (s : string) : option SearchScope :=
  if bool_decide (s = "all") then Some ScopeAll
  else if bool_decide (s = "files") then Some ScopeFiles
  else if bool_decide (s = "folders") then Some ScopeFolders
  else None.
Definition scope_field (v : option json) : option SearchScope :=
  match v with
  | None => Some ScopeAll
  | Some (JString s) => scope_of_name s
  | Some (JObject [(s, JNull)]) => scope_of_name s
  | Some _ => None
  end.

Record SearchArguments := MkSearchArguments {
  sa_query : string;
  sa_scope : SearchScope;
  sa_extensions : list string;
  sa_directory_filter : option string;
  sa_top_k : Z }.                      (* u16 *)
Definition search_arguments_from_value (v : json) : option SearchArguments :=
  fields ← struct_fields ["query"; "scope"; "extensions"; "directory_filter"; "top_k"] v;
  match fields with
  | [query; scope; extensions; directory; top_k] =>
      query ← string_field query; scope ← scope_field scope; extensions ← strings_field extensions;
      directory ← optional_string_field directory; top_k ← u16_field default_top_k top_k;
      Some (MkSearchArguments query scope extensions directory top_k)
  | _ => None
  end.
Definition item_arguments_from_value (v : json) : option string :=
  fields ← struct_fields ["document_id"] v;
  match fields with [id] => string_field id | _ => None end.

(** The order of strings in a [BTreeSet]. *)
Definition bytes_le (a b : string) : Prop := lex_compare (string_bytes a) (string_bytes b) ≠ Gt.
Global Instance bytes_le_dec : RelDecision bytes_le.
Proof. intros a b. unfold bytes_le. apply _. Defined.

Fixpoint trim_dots (s : string) : string :=
  match s with String "." s' => trim_dots s' | _ => s end.

Section adapter.
Context `{E : StoreEnv} `{T : TextEnv}.

Definition extension_rejected (normalized : string) : bool :=
  (String.length normalized =? 0) || (32 <? String.length normalized) || negb (forallb is_alphanumeric (chars normalized)).
Definition normalize_extensions (values : list string) : result string (list string) :=
  let normalized := (λ v, to_lowercase (trim_dots v)) <$> values in
  if existsb extension_rejected normalized then Err "extension filters must be bounded alphanumeric values"
  else Ok (merge_sort bytes_le (remove_dups normalized)).

Definition map_tool (name : string) (arguments : json) : result string RequestOperation :=
  if bool_decide (name = "localsearch.search_files") then
    args ← ok_or (search_arguments_from_value arguments) "invalid localsearch.search_files arguments";
    ensure (negb ((String.length (sa_query args) =? 0) || (MAX_QUERY_BYTES <? String.length (sa_query args))
                  || (sa_top_k args =? 0)%Z || (MCP_SEARCH_MAX_TOP_K <? sa_top_k args)%Z
                  || (32 <? length (sa_extensions args)))) "search arguments exceed bounded policy" ;;
    extensions ← normalize_extensions (sa_extensions args);
    mret (CatalogSearch (MkSearchRequest (sa_query args) (sa_scope args)
            (MkSearchFilter extensions (sa_directory_filter args) None None) (sa_top_k args)))
  else if bool_decide (name = "localsearch.get_catalog_item") then
    text ← ok_or (item_arguments_from_value arguments) "invalid localsearch.get_catalog_item arguments";
    id ← map_err (λ _, "invalid canonical document_id") (from_str DocumentId (string_bytes text));
    mret (CatalogGetItem id)
  else if bool_decide (name = "localsearch.get_index_status") then
    ensure match arguments with JObject [] => true | _ => false end "localsearch.get_index_status takes no arguments" ;;
    mret IndexGetStatus
  else Err "unknown or unavailable LocalSearch tool".

(** ** The adapter *)

(** What surrounds the adapter: the texts and payloads of JSON, the manifest and the package version. *)
Class McpEnv := {
  mcp_to_string : json → string;
  mcp_payload_value : ResponsePayload → option json;
  mcp_manifest : list json;
  mcp_version : string }.
Context `{ME : !McpEnv}.

(** The identifier counter, and what has been sent to the agent. *)
Record McpAdapter := MkMcpAdapter { ad_next_request_id : Z; ad_sent : list AgentRequest }.
Definition new_adapter : McpAdapter := MkMcpAdapter 1 [].

Definition code_name (c : AgentErrorCode) : string :=
  match c with
  | CodeInvalidRequest => "invalid_request"
  | CodeUnsupportedProtocolVersion => "unsupported_protocol_version"
  | CodeUnsupportedCodecVersion => "unsupported_codec_version"
  | CodeUnsupportedCapability => "unsupported_capability"
  | CodeUnauthorized => "unauthorized"
  | CodeForbidden => "forbidden"
  | CodeQueryPolicyRejected => "query_policy_rejected"
  | CodeDeadlineExceeded => "deadline_exceeded"
  | CodeCancelled => "cancelled"
  | CodeNotFound => "not_found"
  | CodeUnavailable => "unavailable"
  | CodeIndexNotReady => "index_not_ready"
  | CodeResourceExhausted => "resource_exhausted"
  | CodeInternal => "internal"
  end.

Definition discovery : json :=
  JObject [("resultType", JString "complete"); ("supportedVersions", supported_versions);
           ("capabilities", JObject [("tools", JObject [("listChanged", JBool false)])]);
           ("_meta", JObject [("io.modelcontextprotocol/serverInfo",
                               JObject [("name", JString "LocalSearch"); ("version", JString mcp_version)])]);
           ("ttlMs", JInt 300000); ("cacheScope", JString "private")].

Definition tool_result (structured : json) (is_error : bool) : json :=
  JObject [("resultType", JString "complete");
           ("content", JArray [JObject [("type", JString "text"); ("text", JString (mcp_to_string structured))]]);
           ("structuredContent", structured); ("isError", JBool is_error)].

Definition invocation_error (id : McpId) (error : InvokeError) : McpResponse :=
  match error with
  | InvokeCancelled => mcp_error (Some id) (-32800) "request cancelled" None
  | InvokeUnavailable => mcp_error (Some id) (-32603) "LocalSearch Agent is unavailable" None
  | InvokeIncompatible => mcp_error (Some id) (-32603) "LocalSearch Agent response was incompatible" None
  end.

(** The agent behind its transport. *)
Context (agent : AgentRequest → result InvokeError AgentResponse).

(** [McpAdapter::invoke]: [fetch_add] wraps. *)
Definition mcp_invoke (operation : RequestOperation) (a : McpAdapter) : result InvokeError AgentResponse * McpAdapter :=
  let sequence := ad_next_request_id a in
  let request := MkAgentRequest AGENT_API_VERSION AGENT_CODEC_VERSION ("mcp-" +:+ pretty sequence) AGENT_DEADLINE_MS operation in
  (agent request, MkMcpAdapter ((sequence + 1) mod 2 ^ 64) (ad_sent a ++ [request])).

(** The tools of the manifest that the grants cover. *)
Definition tool_granted (grants : gset Capability) (tool : json) : bool :=
  match (get "name" tool ≫= as_str) ≫= required_capability with
  | Some capability => bool_decide (capability ∈ grants)
  | None => false
  end.

Definition list_tools (id : McpId) (a : McpAdapter) : McpResponse * McpAdapter :=
  let '(response, a) := mcp_invoke AgentGetCapabilities a in
  (match response with
   | Err error => invocation_error id error
   | Ok response =>
       match rs_result response with
       | Some (RCapabilities capabilities) =>
           mcp_success id (JObject [("resultType", JString "complete");
             ("tools", JArray (filter (λ tool, tool_granted (cp_granted capabilities) tool = true) mcp_manifest));
             ("ttlMs", JInt 300000); ("cacheScope", JString "private")])
       | _ => mcp_error (Some id) (-32603) "Agent capabilities response was incompatible" None
       end
   end, a).

Definition call_tool (id : McpId) (params : json) (a : McpAdapter) : McpResponse * McpAdapter :=
  match tool_call_from_value params with
  | None => (mcp_error (Some id) (-32602) "invalid tools/call params" None, a)
  | Some call =>
      match map_tool (tc_name call) (tc_arguments call) with
      | Err message => (mcp_error (Some id) (-32602) message None, a)
      | Ok operation =>
          let '(response, a) := mcp_invoke operation a in
          (match response with
           | Err error => invocation_error id error
           | Ok response =>
               match rs_error response, rs_result response with
               | Some error, _ =>
                   mcp_success id (tool_result (JObject [("code", JString (code_name (ae_code error)));
                                                         ("message", JString (ae_message error))]) true)
               | None, None => mcp_error (Some id) (-32603) "Agent response was incompatible" None
               | None, Some payload =>
                   match mcp_payload_value payload with
                   | None => mcp_error (Some id) (-32603) "response encoding failed" None
                   | Some structured => mcp_success id (tool_result structured false)
                   end
               end
           end, a)
      end
  end.

(** [McpAdapter::handle]. *)
Definition mcp_handle (request : McpRequest) (a : McpAdapter) : McpResponse * McpAdapter :=
  match mq_id request with
  | None => (mcp_error None (-32600) "request id is required" None, a)
  | Some id =>
      if negb (bool_decide (mq_jsonrpc request = "2.0")) then
        (mcp_error (Some id) (-32600) "jsonrpc must be 2.0" None, a)
      else if bool_decide (mq_method request = "initialize") then
        (mcp_error (Some id) (-32601) "legacy initialize is not supported; use MCP 2026-07-28 server/discover"
           (Some (JObject [("supportedVersions", supported_versions)])), a)
      else
        match validate_modern_meta (mq_params request) with
        | Err error => (meta_error id error, a)
        | Ok _ =>
            if bool_decide (mq_method request = "server/discover") then (mcp_success id discovery, a)
            else if bool_decide (mq_method request = "tools/list") then list_tools id a
            else if bool_decide (mq_method request = "tools/call") then call_tool id (mq_params request) a
            else (mcp_error (Some id) (-32601) "method not found" None, a)
        end
  end.
End adapter.

(** ** Lines of standard input *)

Definition MAX_STDIO_MESSAGE_BYTES : nat := N.to_nat 1048576.
Definition MAX_IN_FLIGHT : nat := 16.

Inductive Line := LineEof | LineMessage (bytes : list N) | LineOversized.

(** What [fill_buf] gives one after the other: bytes, or a failure.  The end is the end of the list. *)
Abbreviation input := (list (option (list N))).

Definition newline : N := 10.
Definition trim_cr (message : list N) : list N :=
  match last message with Some 13%N => take (pred (length message)) message | _ => message end.

(** The bytes before the first newline, and those behind it. *)
Fixpoint split_line (l : list N) : list N * option (list N) :=
  match l with
  | [] => ([], None)
  | b :: l => if (b =? newline)%N then ([], Some l) else let '(line, rest) := split_line l in (b :: line, rest)
  end.

Definition finish_line (message : list N) (oversized : bool) : Line :=
  if oversized then LineOversized else LineMessage (trim_cr message).

(** [read_bounded_line]: the line, and what is left to read. *)
Fixpoint read_bounded_line (limit : nat) (chunks : input) (message : list N) (oversized : bool) : option Line * input :=
  match chunks with
  | [] | Some [] :: _ =>
      (Some (if bool_decide (message = []) && negb oversized then LineEof else finish_line message oversized), chunks)
  | None :: rest => (None, rest)
  | Some (b :: bytes) :: rest =>
      let '(content, behind) := split_line (b :: bytes) in
      let oversized' := oversized || (limit <? length message + length content) in
      let message' := if oversized' then [] else message ++ content in
      match behind with
      | Some [] => (Some (finish_line message' oversized'), rest)
      | Some others => (Some (finish_line message' oversized'), Some others :: rest)
      | None => read_bounded_line limit rest message' oversized'
      end
  end.

(** ** The server *)

Definition is_cancel_notification (v : json) : bool :=
  bool_decide (get "jsonrpc" v ≫= as_str = Some "2.0") && negb (bool_decide (is_Some (get "id" v)))
  && bool_decide (get "method" v ≫= as_str = Some "notifications/cancelled").

(** The request that a notification names. *)
Definition cancelled_id (v : json) : option McpId :=
  request_id ← get "params" v ≫= get "requestId";
  match as_i64 request_id with
  | Some number => Some (IdNumber number)
  | None => IdString <$> as_str request_id
  end.

(** A worker thread: its request, and how far it is. *)
Inductive worker_stage := Handling | Answered (response : McpResponse) | Sent.
Record worker := MkWorker { wk_key : string; wk_id : McpId; wk_request : McpRequest; wk_stage : worker_stage }.

(** [in_flight] with its cancellation tokens, the workers, and the messages for standard output. *)
Record server := MkServer {
  sv_adapter : McpAdapter;
  sv_in_flight : gmap string bool;
  sv_workers : list worker;
  sv_out : list McpResponse;
  sv_reading : bool }.                 (* the loop of the main thread has not ended *)

Section server.
Context `{E : StoreEnv} `{T : TextEnv} `{ME : !McpEnv}.
Context (parse : list N → option json).          (* [serde_json::from_slice] *)

Definition put_out (r : McpResponse) (s : server) : server :=
  MkServer (sv_adapter s) (sv_in_flight s) (sv_workers s) (sv_out s ++ [r]) (sv_reading s).
Definition set_in_flight (m : gmap string bool) (s : server) : server :=
  MkServer (sv_adapter s) m (sv_workers s) (sv_out s) (sv_reading s).

(** [cancel_request]. *)
Definition cancel_request (v : json) (s : server) : server :=
  match cancelled_id v with
  | Some id =>
      if decide (is_Some (sv_in_flight s !! id_key id)) then set_in_flight (<[id_key id := true]> (sv_in_flight s)) s else s
  | None => s
  end.

(** [handle_message]. *)
Definition handle_message (bytes : list N) (s : server) : server :=
  match parse bytes with
  | None => put_out (mcp_error None (-32700) "invalid JSON" None) s
  | Some v =>
      if is_cancel_notification v then cancel_request v s
      else
        match request_from_value v with
        | None => put_out (mcp_error None (-32600) "invalid JSON-RPC request" None) s
        | Some request =>
            match mq_id request with
            | None => s
            | Some id =>
                let key := id_key id in
                if decide (is_Some (sv_in_flight s !! key)) then
                  put_out (mcp_error (Some id) (-32600) "duplicate in-flight request id" None) s
                else if MAX_IN_FLIGHT <=? size (sv_in_flight s) then
                  put_out (mcp_error (Some id) (-32000) "too many in-flight requests" None) s
                else MkServer (sv_adapter s) (<[key := false]> (sv_in_flight s))
                       (sv_workers s ++ [MkWorker key id request Handling]) (sv_out s) (sv_reading s)
            end
        end
  end.

(** A line of standard input: at its end the loop ends, and every token is set. *)
Definition handle_line (line : Line) (s : server) : server :=
  match line with
  | LineEof => MkServer (sv_adapter s) ((λ _, true) <$> sv_in_flight s) (sv_workers s) (sv_out s) false
  | LineOversized => put_out (mcp_error None (-32600) "MCP stdio message exceeds size limit" None) s
  | LineMessage bytes => handle_message bytes s
  end.

(** What a worker does next: it handles its request, sends the answer unless it was cancelled, and
    leaves the table. *)
Definition worker_turn (agent : AgentRequest → result InvokeError AgentResponse) (w : worker) (s : server)
  : option worker * server :=
  match wk_stage w with
  | Handling =>
      let '(response, a) := mcp_handle agent (wk_request w) (sv_adapter s) in
      (Some (MkWorker (wk_key w) (wk_id w) (wk_request w) (Answered response)),
       MkServer a (sv_in_flight s) (sv_workers s) (sv_out s) (sv_reading s))
  | Answered response =>
      (Some (MkWorker (wk_key w) (wk_id w) (wk_request w) Sent),
       if bool_decide (sv_in_flight s !! wk_key w = Some true) then s else put_out response s)
  | Sent => (None, set_in_flight (delete (wk_key w) (sv_in_flight s)) s)
  end.

Definition put_workers (ws : list worker) (s : server) : server :=
  MkServer (sv_adapter s) (sv_in_flight s) ws (sv_out s) (sv_reading s).

(** What happens: the main thread reads a line, or the worker with an index moves. *)
Inductive server_event :=
| ReadsLine (line : Line)
| WorkerMoves (index : nat) (agent : AgentRequest → result InvokeError AgentResponse).

Definition serve_event (e : server_event) (s : server) : server :=
  match e with
  | ReadsLine line => if sv_reading s then handle_line line s else s
  | WorkerMoves index agent =>
      match sv_workers s !! index with
      | None => s
      | Some w =>
          let '(w', s') := worker_turn agent w s in
          put_workers (take index (sv_workers s) ++ option_list w' ++ drop (S index) (sv_workers s)) s'
      end
  end.
Definition serve (es : list server_event) (s : server) : server := foldl (λ s e, serve_event e s) s es.
End server.

Definition new_server : server := MkServer new_adapter ∅ [] [] true.
