(* ===== verification/McpSpec.v ===== *)
(** What the MCP adapter guarantees: lines are the lines of standard input however it is buffered and
    no longer than the bound, every request that reaches the agent satisfies its contract, tools are
    listed as granted, and every request with an identifier gets exactly one answer. *)
From Stdlib Require Import Ascii String.
From stdpp Require Import base strings numbers gmap list sorting pretty.
From S2P Require Import Prelude Ids Order Models GraphDomain GraphTables Fixtures Text Frames CatalogFixtures Search SearchSpec Agent AgentSpec BrokerLink Mcp.

(** ** Lines *)

(** The bytes of an input without failures. *)
Definition bytes_of (chunks : list (option (list N))) : list N := concat (omap id chunks).
Definition good_input (chunks : list (option (list N))) : Prop := Forall (λ c, ∃ b l, c = Some (b :: l)) chunks.

(** The next line of a byte sequence, and what is behind it. *)
Definition next_line (limit : nat) (bytes : list N) : Line * list N :=
  match bytes with
  | [] => (LineEof, [])
  | _ =>
      let '(line, rest) := split_line bytes in
      (if limit <? length line then LineOversized else LineMessage (trim_cr line), default [] rest)
  end.

Lemma split_line_app a b :
  split_line (a ++ b) =
    match split_line a with
    | (line, Some rest) => (line, Some (rest ++ b))
    | (line, None) => let '(line', rest) := split_line b in (line ++ line', rest)
    end.
Proof.
  induction a as [|x a IH]; simpl; [by destruct (split_line b)|]. destruct (x =? newline)%N; [done|]. rewrite IH.
  destruct (split_line a) as [line [rest|]]; [done|]. by destruct (split_line b).
Qed.

Lemma split_line_None l line : split_line l = (line, None) → line = l.
Proof.
  revert line. induction l as [|x l IH]; intros line; simpl; [by intros [= <-]|]. destruct (x =? newline)%N; [done|].
  destruct (split_line l) as [line' [rest|]]; [done|]. intros [= <-]. by rewrite (IH line' eq_refl).
Qed.

(** Taking in more bytes of a line. *)
Lemma take_in limit (before content : list N) :
  let oversized := limit <? length before in
  let message := if oversized then [] else before in
  let oversized' := oversized || (limit <? length message + length content) in
  oversized' = (limit <? length (before ++ content))
  ∧ (if oversized' then [] else message ++ content) = (if limit <? length (before ++ content) then [] else before ++ content).
Proof.
  simpl. rewrite length_app. destruct (Nat.ltb_spec limit (length before)); simpl.
  - by rewrite (proj2 (Nat.ltb_lt limit (length before + length content))) by lia.
  - by destruct (limit <? length before + length content).
Qed.

Lemma finish_line_eq limit line :
  finish_line (if limit <? length line then [] else line) (limit <? length line)
  = if limit <? length line then LineOversized else LineMessage (trim_cr line).
Proof. unfold finish_line. by destruct (limit <? length line). Qed.

(** Reading with the line so far: [before] are its bytes that were consumed. *)
Lemma read_line_spec limit chunks before :
  good_input chunks →
  let message := if limit <? length before then [] else before in
  ∃ rest, good_input rest ∧
    read_bounded_line limit chunks message (limit <? length before) =
      (Some (if bool_decide (bytes_of chunks = [] ∧ before = []) then LineEof
             else let line := before ++ (split_line (bytes_of chunks)).1 in
                  if limit <? length line then LineOversized else LineMessage (trim_cr line)), rest)
    ∧ bytes_of rest = default [] (split_line (bytes_of chunks)).2.
Proof.
  intros Hgood. revert before. induction Hgood as [|c chunks (b & l & ->) Hgood IH]; intros before message.
  - exists []. split; [constructor|]. split; [|done]. cbn [read_bounded_line bytes_of omap concat split_line fst]. rewrite app_nil_r.
    f_equal. f_equal. destruct before as [|x before]; [done|]. rewrite (bool_decide_false (_ ∧ _)) by naive_solver.
    rewrite <-finish_line_eq. unfold message. destruct (limit <? length (x :: before)); [done|]. by rewrite bool_decide_false.
  - change (bytes_of (Some (b :: l) :: chunks)) with ((b :: l) ++ bytes_of chunks).
    rewrite split_line_app. rewrite (bool_decide_false (_ ∧ _)) by (intros [? _]; done).
    cbn [read_bounded_line]. destruct (split_line (b :: l)) as [content behind] eqn:Hsplit. unfold message.
    destruct (take_in limit before content) as [-> ->]. rewrite finish_line_eq. destruct behind as [[|x others]|].
    + exists chunks. split; [done|]. split; [done|]. done.
    + exists (Some (x :: others) :: chunks). split; [constructor; eauto|]. done.
    + destruct (IH (before ++ content)) as (rest & Hrest & Hread & Hbytes). exists rest. split; [done|].
      destruct (split_line (bytes_of chunks)) as [line' rest'] eqn:Hsl. simpl in Hread, Hbytes |- *. split; [|done]. rewrite Hread.
      f_equal. f_equal. rewrite <-app_assoc. destruct (bool_decide_reflect (bytes_of chunks = [] ∧ before ++ content = [])) as [[Hb Ha]|]; [|done].
      apply app_eq_nil in Ha as [-> ->]. by apply split_line_None in Hsplit.
Qed.

(** The lines up to the end of the input. *)
Fixpoint read_lines (fuel limit : nat) (chunks : list (option (list N))) : list Line :=
  match fuel with
  | O => []
  | S fuel =>
      match read_bounded_line limit chunks [] false with
      | (Some LineEof, _) | (None, _) => []
      | (Some line, rest) => line :: read_lines fuel limit rest
      end
  end.
Fixpoint lines_of (fuel limit : nat) (bytes : list N) : list Line :=
  match fuel with
  | O => []
  | S fuel =>
      match next_line limit bytes with
      | (LineEof, _) => []
      | (line, rest) => line :: lines_of fuel limit rest
      end
  end.

Lemma read_next limit chunks :
  good_input chunks → ∃ rest, good_input rest ∧
    read_bounded_line limit chunks [] false = (Some (next_line limit (bytes_of chunks)).1, rest)
    ∧ bytes_of rest = (next_line limit (bytes_of chunks)).2.
Proof.
  intros Hgood. destruct (read_line_spec limit chunks [] Hgood) as (rest & Hrest & Hread & Hbytes).
  cbn [length] in Hread. assert ((limit <? 0) = false) as Hz by (apply Nat.ltb_ge; lia). rewrite Hz in Hread. simpl in Hread.
  exists rest. split; [done|]. rewrite Hread, Hbytes. unfold next_line. destruct (bytes_of chunks) as [|b l]; [done|].
  rewrite bool_decide_false by naive_solver. by destruct (split_line (b :: l)).
Qed.

(** Every line is one shorter. *)
Lemma next_line_shorter limit bytes : bytes ≠ [] → length (next_line limit bytes).2 < length bytes.
Proof.
  intros Hne. assert (∀ l, length (default [] (split_line l).2) ≤ pred (length l)) as Hs.
  { clear. induction l as [|x l IH]; simpl; [done|]. destruct (x =? newline)%N; [done|]. destruct (split_line l); simpl in *; lia. }
  destruct bytes as [|b l]; [done|]. unfold next_line. specialize (Hs (b :: l)). destruct (split_line (b :: l)). simpl in *. lia.
Qed.

Lemma lines_of_enough f1 f2 limit bytes : length bytes < f1 → length bytes < f2 → lines_of f1 limit bytes = lines_of f2 limit bytes.
Proof.
  revert f2 bytes. induction f1 as [|f1 IH]; intros f2 bytes H1 H2; [lia|]. destruct f2 as [|f2]; [lia|]. cbn [lines_of].
  destruct (decide (bytes = [])) as [->|Hne]; [done|]. pose proof (next_line_shorter limit bytes Hne) as Hs.
  destruct (next_line limit bytes) as [line rest]. simpl in Hs. rewrite (IH f2 rest) by lia. done.
Qed.

(** Lines of standard input: the server sees the lines of standard input, whatever pieces it
    arrives in: each without its newline and one carriage return, a line over the bound as oversized,
    and reading goes on behind it; one round per byte and one more are enough to reach the end. *)
Theorem stdio_lines_exact limit chunks :
  good_input chunks →
  ∀ fuel, length (bytes_of chunks) < fuel →
    read_lines fuel limit chunks = lines_of (S (length (bytes_of chunks))) limit (bytes_of chunks).
Proof.
  intros Hgood fuel Hfuel. rewrite (lines_of_enough _ fuel) by lia. clear Hfuel. revert chunks Hgood. induction fuel as [|fuel IH]; intros chunks Hgood; [done|].
  destruct (read_next limit chunks Hgood) as (rest & Hrest & Hread & Hbytes). cbn [read_lines lines_of]. rewrite Hread.
  destruct (next_line limit (bytes_of chunks)) as [line behind]. simpl in Hbytes |- *. rewrite (IH rest Hrest), Hbytes. by destruct line.
Qed.

Definition sample_chunks : list (option (list N)) :=
  [Some [97; 98]%N; Some [13; 10; 120]%N; Some [120; 120; 120; 120; 10; 99]%N].
Lemma stdio_lines_exact_witness :
  read_lines 12 4 sample_chunks = [LineMessage [97; 98]%N; LineOversized; LineMessage [99]%N].
Proof.
  assert (good_input sample_chunks) as Hgood by (repeat constructor; eauto).
  rewrite (stdio_lines_exact 4 sample_chunks Hgood 12 ltac:(simpl; lia)). vm_compute. reflexivity.
Defined.

(** ** Requests to the agent *)

Section requests.
Context `{E : StoreEnv} `{T : TextEnv} `{ME : !McpEnv}.

(** The operations that the adapter asks for. *)
Definition mcp_operation (o : RequestOperation) : Prop :=
  match o with
  | CatalogSearch request =>
      0 < String.length (sq_query request) ≤ MAX_QUERY_BYTES ∧ (0 < sq_top_k request ≤ MCP_SEARCH_MAX_TOP_K)%Z
      ∧ length (sf_extensions (sq_filters request)) ≤ 32
      ∧ Forall (λ e, extension_rejected e = false) (sf_extensions (sq_filters request))
      ∧ NoDup (sf_extensions (sq_filters request))
  | CatalogGetItem _ | IndexGetStatus | AgentGetCapabilities => True
  | _ => False
  end.

Definition mcp_request (r : AgentRequest) : Prop :=
  AgentRequest_validate r = Ok tt ∧ ar_deadline_ms r = AGENT_DEADLINE_MS ∧ mcp_operation (ar_operation r).

Definition adapter_ok (a : McpAdapter) : Prop := (0 ≤ ad_next_request_id a < 2 ^ 64)%Z ∧ Forall mcp_request (ad_sent a).

Lemma remove_dups_length (l : list string) : length (remove_dups l) ≤ length l.
Proof. induction l as [|x l IH]; simpl; [done|]. destruct (decide_rel _ _ _); simpl; lia. Qed.

Lemma normalize_spec values extensions : normalize_extensions values = Ok extensions →
  length extensions ≤ length values ∧ Forall (λ e, extension_rejected e = false) extensions ∧ NoDup extensions.
Proof.
  unfold normalize_extensions. destruct (existsb _ _) eqn:Hex; [done|]. intros [= <-].
  set (normalized := _ <$> values) in *. pose proof (merge_sort_Permutation bytes_le (remove_dups normalized)) as Hp.
  split; [|split].
  - rewrite Hp. etransitivity; [apply remove_dups_length|]. unfold normalized. by rewrite length_fmap.
  - rewrite Hp. apply Forall_forall. intros e He. rewrite elem_of_remove_dups in He.
    destruct (extension_rejected e) eqn:Hr; [|done]. exfalso. rewrite <-not_true_iff_false in Hex. apply Hex.
    apply existsb_exists. exists e. split; [by apply list_elem_of_In|done].
  - rewrite Hp. apply NoDup_remove_dups.
Qed.

Lemma u16_field_nonneg d v k : (0 ≤ d)%Z → u16_field d v = Some k → (0 ≤ k)%Z.
Proof.
  intros Hd. destruct v as [[| |z| | | |]|]; try done; [|by intros [= <-]].
  unfold u16_field. destruct (_ && _) eqn:Hz; [|done]. intros [= <-]. apply andb_true_iff in Hz as [Hz _]. by apply Z.leb_le.
Qed.

Lemma search_arguments_top_k v args : search_arguments_from_value v = Some args → (0 ≤ sa_top_k args)%Z.
Proof.
  unfold search_arguments_from_value. intros H. apply bind_Some in H as (fields & _ & H).
  destruct fields as [|q [|sc [|e [|d [|k [|]]]]]]; try done.
  repeat (apply bind_Some in H as (? & ? & H)). injection H as <-. simpl. by eapply u16_field_nonneg; [|eassumption].
Qed.

Lemma map_tool_bounded name arguments o : map_tool name arguments = Ok o → mcp_operation o.
Proof.
  unfold map_tool. destruct (bool_decide (name = "localsearch.search_files")).
  - intros (args & Hargs%ok_or_Ok & H)%result_bind_Ok. apply ensure_bind in H as [Hb H].
    apply result_bind_Ok in H as (ext & Hext & [= <-]). apply search_arguments_top_k in Hargs.
    destruct (normalize_spec _ _ Hext) as (Hl & Hall & Hnd).
    rewrite negb_true_iff, !orb_false_iff, Nat.eqb_neq, !Nat.ltb_ge, Z.eqb_neq, Z.ltb_ge in Hb.
    simpl. destruct Hb as ((((? & ?) & ?) & ?) & ?). split_and!; [lia|done|lia|done|lia|done|done].
  - destruct (bool_decide (name = "localsearch.get_catalog_item")).
    { intros (text & _ & H)%result_bind_Ok. apply result_bind_Ok in H as (i & _ & [= <-]). done. }
    destruct (bool_decide (name = "localsearch.get_index_status")); [|done]. intros [_ [= <-]]%ensure_bind. done.
Qed.

Lemma mcp_operation_bounded o : mcp_operation o → operation_bounded o ∧ operation_typed o.
Proof.
  destruct o as [r| | | | | |]; try done. simpl. unfold MCP_SEARCH_MAX_TOP_K, MAX_TOP_K. intros (? & ? & ? & _). split; [|lia].
  split_and!; [lia..|done].
Qed.

Lemma mcp_id_length n : (0 ≤ n < 2 ^ 64)%Z → 0 < String.length ("mcp-" +:+ pretty n) ≤ 64.
Proof.
  intros Hn. rewrite string_length_append. assert (pretty n = pretty (Z.to_N n)) as -> by (destruct n; [done|done|lia]).
  unfold pretty at 1 2, pretty_N. case_decide; [simpl; lia|].
  assert (String.length (pretty_N_go (Z.to_N n) "") ≤ 20 + 0) as Hl.
  { apply pretty_N_go_length. change (10 ^ N.of_nat 20)%N with 100000000000000000000%N.
    change (2 ^ 64)%Z with 18446744073709551616%Z in Hn. lia. }
  revert Hl. generalize (String.length (pretty_N_go (Z.to_N n) "")). simpl. lia.
Qed.

Lemma invoke_valid o a : mcp_operation o → adapter_ok a →
  AgentRequest_validate (MkAgentRequest AGENT_API_VERSION AGENT_CODEC_VERSION ("mcp-" +:+ pretty (ad_next_request_id a))
    AGENT_DEADLINE_MS o) = Ok tt.
Proof.
  intros Ho [Hn _]. destruct (mcp_operation_bounded o Ho) as [Hb Hty].
  apply agent_request_validate_iff; [done|simpl; unfold AGENT_DEADLINE_MS; lia|]. split_and!; [done|done|by apply mcp_id_length..|done|done].
Qed.

Lemma invoke_ok agent o a : mcp_operation o → adapter_ok a → adapter_ok (mcp_invoke agent o a).2.
Proof.
  intros Ho Ha. pose proof (invoke_valid o a Ho Ha) as Hv. destruct Ha as [Hn Hs]. split; [simpl; apply Z.mod_pos_bound; lia|].
  simpl. apply Forall_app. split; [done|]. by apply Forall_singleton.
Qed.

(** One request: the adapter stays in order, asks the agent at most once, and answers under the
    identifier of the request. *)
Lemma invoke_length agent o a : length (ad_sent (mcp_invoke agent o a).2) = S (length (ad_sent a)).
Proof. simpl. rewrite length_app. simpl. lia. Qed.

Definition handled (a a' : McpAdapter) (id : option McpId) (response : McpResponse) : Prop :=
  (adapter_ok a → adapter_ok a') ∧ (length (ad_sent a') ≤ S (length (ad_sent a))) ∧ mr_id response = id.

Lemma handled_unsent a id response : mr_id response = id → handled a a id response.
Proof. intros ?. unfold handled. split; [done|]. split; [lia|done]. Qed.
Local Hint Resolve handled_unsent : core.

Lemma invoke_handled agent o a id response : mcp_operation o → mr_id response = id →
  handled a (mcp_invoke agent o a).2 id response.
Proof. intros Ho Hid. split; [by apply invoke_ok|]. rewrite invoke_length. split; [lia|done]. Qed.

Lemma list_tools_spec agent id a : handled a (list_tools agent id a).2 (Some id) (list_tools agent id a).1.
Proof.
  unfold list_tools. rewrite (surjective_pairing (mcp_invoke _ _ _)). apply invoke_handled; [done|].
  destruct (mcp_invoke _ _ _) as [[r|[]] a1]; [|done..]. simpl. by destruct (rs_result r) as [[]|].
Qed.

Lemma call_tool_spec agent id params a : handled a (call_tool agent id params a).2 (Some id) (call_tool agent id params a).1.
Proof.
  unfold call_tool. destruct (tool_call_from_value _) as [call|]; [|by apply handled_unsent].
  destruct (map_tool _ _) as [o|] eqn:Hm; [|by apply handled_unsent]. rewrite (surjective_pairing (mcp_invoke _ _ _)).
  apply invoke_handled; [by eapply map_tool_bounded|]. destruct (mcp_invoke _ _ _) as [[r|[]] a1]; [|done..]. simpl.
  destruct (rs_error r); [done|]. destruct (rs_result r); [|done]. by destruct (mcp_payload_value _).
Qed.

Lemma handle_spec agent request a :
  handled a (mcp_handle agent request a).2 (mq_id request) (mcp_handle agent request a).1.
Proof.
  unfold mcp_handle. destruct (mq_id request) as [id|]; [|by apply handled_unsent].
  destruct (negb _); [by apply handled_unsent|]. destruct (bool_decide _); [by apply handled_unsent|].
  destruct (validate_modern_meta _) as [u|[]]; [|by apply handled_unsent..].
  destruct (bool_decide _); [by apply handled_unsent|]. destruct (bool_decide _); [apply list_tools_spec|].
  destruct (bool_decide _); [apply call_tool_spec|by apply handled_unsent].
Qed.
End requests.

(** ** The server *)

Lemma string_append_inj (x y z : string) : x +:+ y = x +:+ z → y = z.
Proof. induction x as [|c x IH]; simpl; [done|]. intros [= H]. auto. Qed.

Global Instance id_key_inj : Inj (=) (=) id_key.
Proof.
  intros [x|x] [y|y]; try done; cbn [id_key]; intros ->%string_append_inj%(inj _) || intros H; [done|].
  by rewrite (string_append_inj _ _ _ H).
Qed.

Section server.
Context `{E : StoreEnv} `{T : TextEnv} `{ME : !McpEnv}.
Context (parse : list N → option json).

(** The request that a line carries, if it has an identifier, and the identifier that it cancels. *)
Definition line_request (line : Line) : option McpId :=
  match line with
  | LineMessage bytes => v ← parse bytes; if is_cancel_notification v then None else request_from_value v ≫= mq_id
  | _ => None
  end.
Definition line_cancel (line : Line) : option McpId :=
  match line with
  | LineMessage bytes => v ← parse bytes; if is_cancel_notification v then cancelled_id v else None
  | _ => None
  end.

(** The lines up to the end of standard input. *)
Fixpoint lines_read (es : list server_event) : list Line :=
  match es with
  | [] => []
  | ReadsLine LineEof :: _ => [LineEof]
  | ReadsLine line :: es => line :: lines_read es
  | WorkerMoves _ _ :: es => lines_read es
  end.

Definition unanswered (w : worker) : option McpId := match wk_stage w with Sent => None | _ => Some (wk_id w) end.
Definition answered (s : server) : list McpId := omap mr_id (sv_out s).
Definition pending (s : server) : list McpId := omap unanswered (sv_workers s).

Definition worker_ok (w : worker) : Prop :=
  wk_key w = id_key (wk_id w) ∧ mq_id (wk_request w) = Some (wk_id w) ∧
  match wk_stage w with Answered response => mr_id response = Some (wk_id w) | _ => True end.

(** The table holds the workers, each once, and no more than the bound. *)
Record server_ok (s : server) : Prop := {
  so_adapter : adapter_ok (sv_adapter s);
  so_table : ∀ key, is_Some (sv_in_flight s !! key) ↔ key ∈ wk_key <$> sv_workers s;
  so_once : NoDup (wk_key <$> sv_workers s);
  so_bound : size (sv_in_flight s) ≤ MAX_IN_FLIGHT;
  so_workers : Forall worker_ok (sv_workers s) }.

Lemma new_server_ok : server_ok new_server.
Proof.
  split; simpl; [split; [simpl; lia|by apply Forall_nil]| |by apply NoDup_nil|rewrite map_size_empty; lia|by apply Forall_nil].
  intros key. rewrite lookup_empty. split; [by intros []|by intros ?%elem_of_nil].
Qed.

(** A token that an event sets. *)
Definition sets_token (line : Line) (key : string) : Prop := line = LineEof ∨ id_key <$> line_cancel line = Some key.

(** The books of a step: what was asked for is answered, still to be answered, or dropped. *)
Definition balanced (asked dropped : list McpId) (s s' : server) : Prop :=
  answered s' ++ pending s' ++ dropped ≡ₚ answered s ++ pending s ++ asked.

Lemma balanced_refl s : balanced [] [] s s.
Proof. by unfold balanced. Qed.
Local Hint Resolve balanced_refl : core.

Definition line_step (line : Line) (asked : list McpId) (s s' : server) : Prop :=
  server_ok s' ∧ balanced asked [] s s'
  ∧ (∀ key, sv_in_flight s' !! key = Some true → sv_in_flight s !! key = Some true ∨ sets_token line key)
  ∧ sv_reading s' = match line with LineEof => false | _ => sv_reading s end.

Lemma put_out_step line r s : line ≠ LineEof → server_ok s → line_step line (option_list (mr_id r)) s (put_out r s).
Proof.
  intros Hl [Ha Ht Ho Hb Hw]. split; [by split|]. split; [|split; [by left|by destruct line]].
  unfold balanced, answered, pending, put_out. cbn [sv_out sv_workers]. rewrite omap_app, app_nil_r.
  assert (omap mr_id [r] = option_list (mr_id r)) as -> by (simpl; by destruct (mr_id r)).
  rewrite <-app_assoc. by rewrite (Permutation_app_comm (option_list _)).
Qed.

Lemma set_tokens_step line s m reading : server_ok s → dom m = dom (sv_in_flight s) → size m = size (sv_in_flight s) →
  (∀ key, m !! key = Some true → sv_in_flight s !! key = Some true ∨ sets_token line key) →
  reading = match line with LineEof => false | _ => sv_reading s end →
  line_step line [] s (MkServer (sv_adapter s) m (sv_workers s) (sv_out s) reading).
Proof.
  intros [Ha Ht Ho Hb Hw] Hd Hs Hm ->. split; [|split; [by unfold balanced|by split]]. split; simpl; [done| |done|lia|done].
  intros key. rewrite <-Ht, <-!elem_of_dom. by rewrite Hd.
Qed.

Lemma cancel_request_step line v s : server_ok s → line ≠ LineEof → line_cancel line = cancelled_id v →
  line_step line [] s (cancel_request v s).
Proof.
  intros Hok Hl Hc. unfold cancel_request.
  assert (line_step line [] s s) as Hsame.
  { split; [done|]. split; [done|]. split; [by left|by destruct line]. }
  destruct (cancelled_id v) as [id|] eqn:Hid; [|done]. destruct (decide _) as [Hin|]; [|done].
  apply set_tokens_step; [done| | | |by destruct line].
  - apply dom_insert_lookup_L. by apply Hin.
  - by apply map_size_insert_Some.
  - intros key Hk. destruct (decide (key = id_key id)) as [->|Hne]; [right; right; by rewrite Hc|].
    rewrite lookup_insert_ne in Hk by done. by left.
Qed.

(** A request is admitted: a worker takes it. *)
Lemma admit_step line request id s : server_ok s → line ≠ LineEof → mq_id request = Some id →
  sv_in_flight s !! id_key id = None → size (sv_in_flight s) < MAX_IN_FLIGHT →
  line_step line [id] s
    (MkServer (sv_adapter s) (<[id_key id := false]> (sv_in_flight s))
       (sv_workers s ++ [MkWorker (id_key id) id request Handling]) (sv_out s) (sv_reading s)).
Proof.
  intros [Ha Ht Ho Hb Hw] Hl Hr Hn Hs. split; [|split; [|split; [|by destruct line]]].
  - split; simpl; [done| | | |].
    + intros key. rewrite fmap_app. simpl. rewrite elem_of_app, list_elem_of_singleton, <-Ht, lookup_insert_is_Some. destruct (decide (id_key id = key)); naive_solver.
    + rewrite fmap_app. apply NoDup_app. split; [done|]. split; [|by apply NoDup_singleton].
      intros key Hk. simpl. rewrite list_elem_of_singleton. intros ->. apply Ht in Hk. rewrite Hn in Hk. by destruct Hk.
    + rewrite map_size_insert_None by done. lia.
    + apply Forall_app. split; [done|]. by apply Forall_singleton.
  - unfold balanced, answered, pending. simpl. by rewrite omap_app, app_nil_r.
  - simpl. intros key Hk. destruct (decide (key = id_key id)) as [->|Hne]; [by rewrite lookup_insert_eq in Hk|].
    rewrite lookup_insert_ne in Hk by done. by left.
Qed.

(** What one line does: the books stay balanced, and only a notification or the end sets tokens. *)
Lemma handle_line_step line s : server_ok s → line_step line (option_list (line_request line)) s (handle_line parse line s).
Proof.
  intros Hok. destruct line as [|bytes|]; cbn [handle_line line_request].
  - apply set_tokens_step; [done|by rewrite dom_fmap_L|by rewrite map_size_fmap|by right; left|done].
  - unfold handle_message. destruct (parse bytes) as [v|] eqn:Hp; cbn [mbind option_bind option_list]; [|by apply put_out_step].
    destruct (is_cancel_notification v) eqn:Hc; [apply cancel_request_step; [done..|simpl; by rewrite Hp; simpl; rewrite Hc]|].
    destruct (request_from_value v) as [request|]; cbn [mbind option_bind option_list]; [|by apply put_out_step].
    destruct (mq_id request) as [id|] eqn:Hid; cbn [option_list]; [|split; [done|]; split; [done|]; split; [by left|done]].
    destruct (decide _) as [|Hn]; [by apply put_out_step|]. destruct (Nat.leb_spec MAX_IN_FLIGHT (size (sv_in_flight s))) as [|Hs]; [by apply put_out_step|].
    apply eq_None_not_Some in Hn. by apply admit_step.
  - by apply put_out_step.
Qed.

(** What a worker does: an answer is dropped only if the token is set. *)
Definition move_step (s s' : server) : Prop :=
  server_ok s' ∧ sv_reading s' = sv_reading s
  ∧ (∀ key, sv_in_flight s' !! key = Some true → sv_in_flight s !! key = Some true)
  ∧ ∃ dropped, balanced [] dropped s s' ∧ Forall (λ id, sv_in_flight s !! id_key id = Some true) dropped.

(** A worker goes on to a later stage. *)
Lemma advance_ok s l1 w w' l2 a out :
  server_ok s → sv_workers s = l1 ++ w :: l2 → wk_key w' = wk_key w → worker_ok w' → adapter_ok a →
  server_ok (MkServer a (sv_in_flight s) (l1 ++ w' :: l2) out (sv_reading s)).
Proof.
  intros [Ha Ht Ho Hb Hw] Heq Hkey Hw' Ha'.
  assert (wk_key <$> l1 ++ w' :: l2 = wk_key <$> sv_workers s) as Hkeys by (rewrite Heq, !fmap_app; simpl; by rewrite Hkey).
  split; simpl; [done|by rewrite Hkeys|by rewrite Hkeys|done|]. rewrite Heq in Hw.
  apply Forall_app in Hw as [H1 [_ H2]%Forall_cons]. apply Forall_app. split; [done|]. by apply Forall_cons.
Qed.

(** A worker leaves. *)
Lemma leave_ok s l1 w l2 :
  server_ok s → sv_workers s = l1 ++ w :: l2 →
  server_ok (MkServer (sv_adapter s) (delete (wk_key w) (sv_in_flight s)) (l1 ++ l2) (sv_out s) (sv_reading s)).
Proof.
  intros [Ha Ht Ho Hb Hw] Heq. rewrite Heq, fmap_app in Ht, Ho. simpl in Ht, Ho.
  rewrite <-Permutation_middle in Ho. apply NoDup_cons in Ho as [Hnew Ho].
  split; simpl; [done| |by rewrite fmap_app| |].
  - intros key. rewrite lookup_delete_is_Some, Ht, fmap_app, !elem_of_app, elem_of_cons. rewrite elem_of_app in Hnew.
    split; [naive_solver|]. intros Hk. split; [intros <-; by apply Hnew|naive_solver].
  - rewrite map_size_delete. destruct (_ !! _); simpl; lia.
  - rewrite Heq in Hw. apply Forall_app in Hw as [H1 [_ H2]%Forall_cons]. by apply Forall_app.
Qed.

Lemma pending_middle s l1 w l2 : sv_workers s = l1 ++ w :: l2 →
  pending s ≡ₚ option_list (unanswered w) ++ omap unanswered l1 ++ omap unanswered l2.
Proof.
  intros Heq. unfold pending. rewrite Heq, omap_app. simpl. destruct (unanswered w); simpl; [by rewrite Permutation_middle|done].
Qed.

(** The books, when one worker changes from [w] to [w'] (or is gone) and [sent] is put out. *)
Lemma move_balanced s s' l1 w w' l2 sent dropped :
  sv_workers s = l1 ++ w :: l2 → sv_workers s' = l1 ++ option_list w' ++ l2 → sv_out s' = sv_out s ++ sent →
  option_list (unanswered w) = option_list (w' ≫= unanswered) ++ omap mr_id sent ++ dropped →
  balanced [] dropped s s'.
Proof.
  intros Hw Hw' Ho Hu. unfold balanced, answered. rewrite (pending_middle s l1 w l2 Hw), Hu, Ho, omap_app, app_nil_r.
  assert (pending s' ≡ₚ option_list (w' ≫= unanswered) ++ omap unanswered l1 ++ omap unanswered l2) as ->.
  { destruct w' as [w'|]; [by apply pending_middle|]. unfold pending. by rewrite Hw', omap_app. }
  solve_Permutation.
Qed.

Lemma worker_move_step agent index s w : server_ok s → sv_workers s !! index = Some w →
  move_step s (serve_event parse (WorkerMoves index agent) s).
Proof.
  intros Hok Hi. simpl. rewrite Hi. pose proof (take_drop_middle _ _ _ Hi) as Hmid. symmetry in Hmid.
  set (l1 := take index (sv_workers s)) in *. set (l2 := drop (S index) (sv_workers s)) in *. clearbody l1 l2.
  assert (worker_ok w) as (Hkey & Hid & Hst).
  { pose proof (so_workers _ Hok) as Hall. rewrite Hmid in Hall. apply Forall_app in Hall as [_ [H _]%Forall_cons]. exact H. }
  unfold worker_turn. destruct (wk_stage w) as [|response|] eqn:Hstage.
  - pose proof (handle_spec agent (wk_request w) (sv_adapter s)) as (Hh & _ & Hr).
    destruct (mcp_handle _ _ _) as [response a]. unfold put_workers. simpl in Hh, Hr |- *.
    split; [eapply advance_ok; [done..|split_and!; [done|done|simpl; congruence]|apply Hh, Hok]|].
    split; [done|]. split; [done|]. exists []. split; [|by apply Forall_nil].
    eapply (move_balanced _ _ l1 w (Some _) l2 []); [done|reflexivity|by rewrite app_nil_r|].
    unfold unanswered. by rewrite Hstage.
  - assert (server_ok s → ∀ out, server_ok (MkServer (sv_adapter s) (sv_in_flight s)
      (l1 ++ [MkWorker (wk_key w) (wk_id w) (wk_request w) Sent] ++ l2) out (sv_reading s))) as Hadv.
    { intros _ out. eapply advance_ok; [done..|apply Hok]. }
    case_bool_decide as Htok; unfold put_workers, put_out; simpl; (split; [by apply Hadv|]; split; [done|]; split; [done|]).
    + exists [wk_id w]. rewrite Hkey in Htok. split; [|by apply Forall_singleton].
      eapply (move_balanced _ _ l1 w (Some _) l2 []); [done|reflexivity|by rewrite app_nil_r|].
      unfold unanswered. by rewrite Hstage.
    + exists []. split; [|by apply Forall_nil]. eapply (move_balanced _ _ l1 w (Some _) l2 [response]); [done|reflexivity..|].
      unfold unanswered. rewrite Hstage. simpl. by rewrite Hst.
  - split; [by apply (leave_ok s l1 w l2)|]. split; [done|]. split; [intros key Hk; simpl in Hk; by apply lookup_delete_Some in Hk as [_ ?]|].
    exists []. split; [|by apply Forall_nil]. eapply (move_balanced _ _ l1 w None l2 []); [done|reflexivity|by rewrite app_nil_r|].
    unfold unanswered. by rewrite Hstage.
Qed.

(** ** Whole runs *)

Definition asked (es : list server_event) : list McpId := omap line_request (lines_read es).
(** What may cancel a request: a notification with its identifier, or the end of standard input. *)
Definition cancels (id : McpId) (line : Line) : Prop := line = LineEof ∨ line_cancel line = Some id.

Lemma sets_token_cancels line id : sets_token line (id_key id) → cancels id line.
Proof. intros [->|Hk]; [by left|]. right. apply fmap_Some in Hk as (id' & Hc & Hk). by apply (inj id_key) in Hk as ->. Qed.

Definition serve_step (lines : list Line) (s s' : server) : Prop :=
  server_ok s' ∧ ∃ dropped, balanced (omap line_request lines) dropped s s'
  ∧ Forall (λ id, sv_in_flight s !! id_key id = Some true ∨ Exists (cancels id) lines) dropped.

Lemma serve_step_trans l1 l2 s s1 s2 :
  serve_step l1 s s1 → (∀ key, sv_in_flight s1 !! key = Some true → sv_in_flight s !! key = Some true ∨ Exists (λ l, sets_token l key) l1) →
  serve_step l2 s1 s2 → serve_step (l1 ++ l2) s s2.
Proof.
  intros (_ & d1 & Hb1 & Hd1) Ht (Hok & d2 & Hb2 & Hd2). split; [done|]. exists (d2 ++ d1). unfold balanced in *. split.
  - rewrite omap_app. rewrite (app_assoc (pending s)), (app_assoc (answered s)), <-Hb1.
    transitivity ((answered s2 ++ pending s2 ++ d2) ++ d1); [solve_Permutation|]. rewrite Hb2. solve_Permutation.
  - apply Forall_app. split; (eapply Forall_impl; [eassumption|]); intros id Hid.
    + destruct Hid as [Hid|Hid]; [|right; rewrite Exists_app; by right].
      destruct (Ht _ Hid) as [?|He]; [by left|right]. rewrite Exists_app. left. eapply Exists_impl; [exact He|intros line; apply sets_token_cancels].
    + destruct Hid as [|Hid]; [by left|right]. rewrite Exists_app. by left.
Qed.

Lemma serve_step_refl s : server_ok s → serve_step [] s s.
Proof. intros Hok. split; [done|]. by exists []. Qed.

Lemma serve_run es s : server_ok s → serve_step (if sv_reading s then lines_read es else []) s (serve parse es s).
Proof.
  revert s. induction es as [|e es IH]; intros s Hok; [destruct (sv_reading s); by apply serve_step_refl|].
  change (serve parse (e :: es) s) with (serve parse es (serve_event parse e s)). destruct e as [line|index agent].
  - destruct (sv_reading s) eqn:Hr; simpl; rewrite Hr; [|specialize (IH s Hok); by rewrite Hr in IH].
    destruct (handle_line_step line s Hok) as (Hok' & Hb & Ht & Hr'). specialize (IH _ Hok').
    assert (lines_read (ReadsLine line :: es) = [line] ++ if sv_reading (handle_line parse line s) then lines_read es else []) as Hl.
    { rewrite Hr', Hr. by destruct line. }
    simpl in Hl. rewrite Hl. eapply (serve_step_trans [line]); [|intros key Hk|exact IH].
    + split; [done|]. exists []. split; [|by apply Forall_nil]. simpl. by destruct (line_request line).
    + destruct (Ht key Hk); [by left|right]. by apply Exists_cons_hd.
  - destruct (sv_workers s !! index) as [w|] eqn:Hi; [|simpl; rewrite Hi; by apply IH].
    destruct (worker_move_step agent index s w Hok Hi) as (Hok' & Hr & Ht & dropped & Hb & Hd). specialize (IH _ Hok').
    rewrite Hr in IH. eapply (serve_step_trans []); [|intros key Hk; left; by apply Ht|exact IH].
    split; [done|]. exists dropped. split; [done|]. eapply Forall_impl; [exact Hd|]. by left.
Qed.

(** How many turns the workers still need. *)
Definition turns_of (w : worker) : nat := match wk_stage w with Handling => 3 | Answered _ => 2 | Sent => 1 end.

Lemma first_worker_moves agent s n :
  list_sum (turns_of <$> sv_workers s) ≤ S n →
  list_sum (turns_of <$> sv_workers (serve_event parse (WorkerMoves 0 agent) s)) ≤ n.
Proof.
  simpl. destruct (sv_workers s) as [|w ws] eqn:Hw; simpl; [rewrite Hw; simpl; lia|].
  rewrite drop_0. unfold turns_of at 1, worker_turn. destruct (wk_stage w) as [|response|]; [destruct (mcp_handle _ _ _)|..];
    [|destruct (bool_decide _)|]; simpl; unfold list_sum, fmap; lia.
Qed.

Lemma workers_drain agent n s : list_sum (turns_of <$> sv_workers s) ≤ n →
  sv_workers (serve parse (replicate n (WorkerMoves 0 agent)) s) = [].
Proof.
  revert s. induction n as [|n IH]; intros s Hn.
  - destruct (sv_workers s) as [|w ws] eqn:Hw; [done|]. exfalso. simpl in Hn. unfold turns_of in Hn. destruct (wk_stage w); lia.
  - simpl. apply IH. by apply first_worker_moves.
Qed.

Lemma turns_bounded ws : list_sum (turns_of <$> ws) ≤ 3 * length ws.
Proof.
  induction ws as [|w ws IH]; [simpl; lia|]. rewrite fmap_cons. cbn [list_sum foldr length] in *.
  unfold list_sum in IH. unfold turns_of at 1. destruct (wk_stage w); lia.
Qed.

(** The table has an entry per worker. *)
Lemma table_size s : server_ok s → size (sv_in_flight s) = length (sv_workers s).
Proof.
  intros [_ Ht Ho _ _]. rewrite <-(length_fmap wk_key), <-size_dom, <-(size_list_to_set (C := gset string) _ Ho). f_equal.
  apply set_eq. intros key. by rewrite elem_of_dom, elem_of_list_to_set, Ht.
Qed.

Lemma lines_read_moves es n agent : lines_read (es ++ replicate n (WorkerMoves 0 agent)) = lines_read es.
Proof.
  induction es as [|[[|bytes|]|index agent'] es IH]; simpl; [by induction n|done|by rewrite IH..].
Qed.

(** C34 (bounded requests to the agent): whatever is read from standard input and however the workers
    are interleaved, every request that the agent gets satisfies its contract, has the deadline of the
    adapter, and is a search within the limits of the tool, or asks for one item, the status or the
    capabilities; at most [MAX_IN_FLIGHT] requests are worked on at once, each under its own key. *)
Theorem server_within_contract es :
  let s := serve parse es new_server in
  Forall mcp_request (ad_sent (sv_adapter s)) ∧
  length (sv_workers s) = size (sv_in_flight s) ∧ size (sv_in_flight s) ≤ MAX_IN_FLIGHT ∧ NoDup (wk_key <$> sv_workers s).
Proof.
  intros s. destruct (serve_run es new_server new_server_ok) as [Hok _]. fold s in Hok. pose proof (table_size s Hok) as Hs.
  destruct Hok as [[_ Hsent] _ Hnd Hb _]. by split_and!.
Qed.

Lemma serve_app es es' s : serve parse (es ++ es') s = serve parse es' (serve parse es s).
Proof. apply foldl_app. Qed.

Lemma run_drained es agent n : n = 3 * MAX_IN_FLIGHT →
  let s := serve parse (es ++ replicate n (WorkerMoves 0 agent)) new_server in
  sv_workers s = [] ∧ sv_in_flight s = ∅ ∧
  ∃ dropped, asked es ≡ₚ answered s ++ dropped ∧ Forall (λ id, Exists (cancels id) (lines_read es)) dropped.
Proof.
  intros Hn s. assert (sv_workers s = []) as Hw.
  { unfold s. rewrite serve_app. apply workers_drain. destruct (serve_run es new_server new_server_ok) as [Hok _].
    pose proof (table_size _ Hok) as Hs. destruct Hok as [_ _ _ Hb _]. etransitivity; [apply turns_bounded|]. lia. }
  destruct (serve_run (es ++ replicate n (WorkerMoves 0 agent)) new_server new_server_ok) as (Hok & dropped & Hb & Hd).
  fold s in Hok, Hb. split; [done|]. split; [apply map_size_empty_iff; by rewrite (table_size s Hok), Hw|].
  exists dropped. cbn [sv_reading new_server] in Hb, Hd. rewrite lines_read_moves in Hb, Hd. unfold balanced in Hb.
  split; [|eapply Forall_impl; [exact Hd|]; by intros id [Hid|?]]. unfold pending in Hb. rewrite Hw in Hb. simpl in Hb. by rewrite Hb.
Qed.

(** C33 (one answer each): whatever is read and however the workers are interleaved, once the workers
    had three turns each (they are at most [MAX_IN_FLIGHT]) none is left, and the identifiers of the
    answers written, with those of some dropped ones, are exactly the identifiers of the requests read,
    each as often; a request is dropped only if a notification cancelled it or standard input ended. *)
Theorem requests_answered_once es agent :
  let s := serve parse (es ++ replicate (3 * MAX_IN_FLIGHT) (WorkerMoves 0 agent)) new_server in
  sv_workers s = [] ∧ sv_in_flight s = ∅ ∧
  ∃ dropped, asked es ≡ₚ answered s ++ dropped ∧ Forall (λ id, Exists (cancels id) (lines_read es)) dropped.
Proof.
  apply run_drained. reflexivity.
Qed.
End server.

(** ** The tools of an agent *)

Section tools.
Context `{TV : Tantivy} `{T : TextEnv} `{CP : !ContentPort} `{ME : !McpEnv}.

(** The tools of a listing. *)
Definition listed_tools (response : McpResponse) : list json :=
  match mr_result response ≫= get "tools" with Some (JArray l) => l | _ => [] end.
Definition tool_named (tool : json) : option string := get "name" tool ≫= as_str.

(** The agent as the adapter reaches it. *)
Definition agent_at env opens s (request : AgentRequest) : result InvokeError AgentResponse :=
  Ok (dispatch_cancellable env opens request s).1.

Lemma tool_needs name arguments o : map_tool name arguments = Ok o →
  ∃ c, Mcp.required_capability name = Some c ∧ AgentSpec.required_capability o = Some c.
Proof.
  unfold map_tool, Mcp.required_capability. destruct (bool_decide (name = "localsearch.search_files")).
  { intros (args & _ & H)%result_bind_Ok. apply ensure_bind in H as [_ H]. apply result_bind_Ok in H as (ext & _ & [= <-]). by eexists. }
  destruct (bool_decide (name = "localsearch.get_catalog_item")).
  { intros (text & _ & H)%result_bind_Ok. apply result_bind_Ok in H as (i & _ & [= <-]). by eexists. }
  destruct (bool_decide (name = "localsearch.get_index_status")); [|done]. intros [_ [= <-]]%ensure_bind. by eexists.
Qed.

(** A request of the adapter that the agent refuses for want of a grant. *)
Lemma agent_refuses env opens s request c :
  AgentRequest_validate request = Ok tt → AgentSpec.required_capability (ar_operation request) = Some c →
  permits (as_authorization s) c = false →
  ∃ id, (dispatch_cancellable env opens request s).1 = MkAgentResponse AGENT_API_VERSION id None
    (Some (wire_error CodeForbidden "client capability grant does not permit this method")).
Proof.
  intros Hv Hc Hp. unfold dispatch_cancellable. rewrite Hv.
  destruct (ar_operation request); simpl in Hc |- *; try discriminate Hc; injection Hc as <-; rewrite require_bind, Hp; by eexists.
Qed.

(** C35 (tools as granted): with the agent behind it the adapter lists exactly the tools of its manifest
    whose capability the agent grants, in their order, and a call of a tool that is not granted, with
    acceptable arguments, is answered with the refusal of the agent as an error of the tool. *)
Theorem tools_match_grants env opens s a id :
  adapter_ok a →
  listed_tools (list_tools (agent_at env opens s) id a).1
  = filter (λ tool, from_option (permits (as_authorization s)) false (tool_named tool ≫= Mcp.required_capability) = true) mcp_manifest
  ∧ ∀ params call o, tool_call_from_value params = Some call → map_tool (tc_name call) (tc_arguments call) = Ok o →
      ∃ c, Mcp.required_capability (tc_name call) = Some c ∧
        (permits (as_authorization s) c = false →
         (call_tool (agent_at env opens s) id params a).1 =
         mcp_success id (tool_result (JObject [("code", JString "forbidden");
           ("message", JString "client capability grant does not permit this method")]) true)).
Proof.
  intros Hok. split.
  - assert (AgentRequest_validate (MkAgentRequest AGENT_API_VERSION AGENT_CODEC_VERSION
      ("mcp-" +:+ pretty (ad_next_request_id a)) AGENT_DEADLINE_MS AgentGetCapabilities) = Ok tt) as Hv.
    { by apply invoke_valid. }
    unfold list_tools, mcp_invoke, agent_at, dispatch_cancellable. rewrite Hv. reflexivity.
  - intros params call o Hcall Hmap. destruct (tool_needs _ _ _ Hmap) as (c & Hneed & Hc).
    exists c. split; [done|]. intros Hp. unfold call_tool. rewrite Hcall, Hmap. unfold mcp_invoke, agent_at.
    destruct (agent_refuses env opens s (MkAgentRequest AGENT_API_VERSION AGENT_CODEC_VERSION
      ("mcp-" +:+ pretty (ad_next_request_id a)) AGENT_DEADLINE_MS o) c) as [rid ->]; [|done..|done].
    apply invoke_valid; [by eapply map_tool_bounded|done].
Qed.
End tools.

(** ** A server with an agent *)

Definition tool_entry (name : string) : json := JObject [("name", JString name)].
Global Instance sample_mcp : McpEnv := {|
  mcp_to_string _ := "{}";
  mcp_payload_value _ := Some (JObject []);
  mcp_manifest := tool_entry <$> ["localsearch.search_files"; "localsearch.get_catalog_item"; "localsearch.get_index_status"];
  mcp_version := "0.1.0" |}.

Definition sample_meta : json :=
  JObject [("io.modelcontextprotocol/protocolVersion", JString MCP_PROTOCOL_VERSION);
           ("io.modelcontextprotocol/clientCapabilities", JObject [])].
Definition sample_call : json :=
  JObject [("_meta", sample_meta); ("name", JString "localsearch.search_files");
           ("arguments", JObject [("query", JString "report"); ("extensions", JArray [JString ".TXT"; JString "md"; JString "txt"])])].
Definition call_message (id : json) : json :=
  JObject [("jsonrpc", JString "2.0"); ("id", id); ("method", JString "tools/call"); ("params", sample_call)].
Definition cancel_message (id : json) : json :=
  JObject [("jsonrpc", JString "2.0"); ("method", JString "notifications/cancelled"); ("params", JObject [("requestId", id)])].

(** The sample agent with a grant for single items only. *)
Definition item_agent (s : AgentService) : AgentService :=
  MkAgentService (as_world s) (as_governor s) (as_catalog_reader s) (as_content_reader s)
    (as_content_projector s) (as_workspace s) (MkClientAuthorization {[CapReadMetadata]}).

Lemma tools_match_grants_witness :
  ∃ s, listed_tools (list_tools (agent_at sample_env (λ _, Ok tt) (item_agent s)) (IdNumber 1) new_adapter).1
       = [tool_entry "localsearch.get_catalog_item"]
  ∧ mr_error (call_tool (agent_at sample_env (λ _, Ok tt) (item_agent s)) (IdNumber 1) sample_call new_adapter).1 = None.
Proof.
  destruct sample_opens as (s & w' & H). exists s.
  assert (adapter_ok new_adapter) as Ha by (split; [simpl; lia|by apply Forall_nil]).
  destruct (tools_match_grants sample_env (λ _, Ok tt) (item_agent s) new_adapter (IdNumber 1) Ha) as [Hl Hc].
  split; [rewrite Hl; vm_compute; reflexivity|].
  destruct (Hc sample_call (MkToolCallParams "localsearch.search_files" (default JNull (get "arguments" sample_call)))
    (CatalogSearch (MkSearchRequest "report" ScopeAll (MkSearchFilter ["md"; "txt"] None None None) 10)) eq_refl) as (c & Hcap & Hr);
    [vm_compute; reflexivity|]. vm_compute in Hcap. injection Hcap as <-. rewrite Hr; [reflexivity|]. vm_compute. reflexivity.
Defined.

(** Two calls, of which the first is cancelled while it is worked on; a line that is no JSON between. *)
Definition sample_parse (bytes : list N) : option json :=
  match bytes with
  | [1%N] => Some (call_message (JInt 7))
  | [2%N] => Some (call_message (JString "7"))
  | [3%N] => Some (cancel_message (JInt 7))
  | _ => None
  end.
Definition absent_agent (request : AgentRequest) : result InvokeError AgentResponse := Err InvokeUnavailable.
Definition sample_events : list server_event :=
  [ReadsLine (LineMessage [1%N]); ReadsLine (LineMessage [2%N]); WorkerMoves 0 absent_agent; ReadsLine (LineMessage []);
   ReadsLine (LineMessage [2%N]); ReadsLine (LineMessage [3%N])].

Example sample_server_answers :
  (λ r, (mr_id r, me_code <$> mr_error r)) <$> sv_out (serve sample_parse (sample_events ++ replicate 48 (WorkerMoves 0 absent_agent)) new_server)
  = [(None, Some (-32700)%Z); (Some (IdString "7"), Some (-32600)%Z); (Some (IdString "7"), Some (-32603)%Z)].
Proof. vm_compute. reflexivity. Qed.

(** ** A call without arguments *)

(** A call of the tool for the status without [arguments], which serde reads as null, is refused; the
    schema of the tool, an object without required members, is met by leaving them out. *)
Theorem status_needs_arguments agent id a :
  (call_tool agent id (JObject [("_meta", sample_meta); ("name", JString "localsearch.get_index_status")]) a).1
  = mcp_error (Some id) (-32602) "localsearch.get_index_status takes no arguments" None.
Proof. reflexivity. Qed.
