(* ===== verification/Desktop.v ===== *)
(** The desktop client of the agent ([crates/desktop/src/client.rs]) and the activation metrics of its
    window ([crates/desktop/src/tauri_app.rs]).

    A search is a call on a thread of its own: it takes turns at the accesses to the shared slot of the
    active search and to its cancellation token, and any number of calls are interleaved.  The transport
    and what the file system says about a path are arguments. *)
From Stdlib Require Import String.
From stdpp Require Import base strings numbers gmap list sorting.
From S2P Require Import Prelude Ids Models GraphDomain GraphTables Text Frames Catalog Search Content Agent.

Definition DESKTOP_TOP_K : Z := 50.
Definition AGENT_DEADLINE_MS : Z := 2000.

(** ** Errors *)

Inductive DesktopErrorCode :=
| DesktopInvalidRequest | StaleResponse | DesktopCancelled | DesktopUnavailable | DesktopDeadlineExceeded
| DesktopNotFound | ItemUnavailable | DesktopProtocol | DesktopInternal.
Global Instance DesktopErrorCode_eq_dec : EqDecision DesktopErrorCode.
Proof. solve_decision. Defined.

Record DesktopClientError := MkDesktopClientError { de_code : DesktopErrorCode; de_message : string }.

Definition map_agent_error (code : AgentErrorCode) : DesktopClientError :=
  match code with
  | CodeInvalidRequest | CodeQueryPolicyRejected => MkDesktopClientError DesktopInvalidRequest "Search request was rejected"
  | CodeDeadlineExceeded => MkDesktopClientError DesktopDeadlineExceeded "Search service did not respond in time"
  | CodeCancelled => MkDesktopClientError DesktopCancelled "Search request was cancelled"
  | CodeNotFound => MkDesktopClientError DesktopNotFound "The selected item no longer exists"
  | CodeUnavailable | CodeIndexNotReady | CodeResourceExhausted =>
      MkDesktopClientError DesktopUnavailable "Search service is temporarily unavailable"
  | CodeUnsupportedProtocolVersion | CodeUnsupportedCodecVersion | CodeUnsupportedCapability | CodeUnauthorized
  | CodeForbidden | CodeInternal => MkDesktopClientError DesktopProtocol "Search service could not complete the request"
  end.

Definition item_unavailable : DesktopClientError :=
  MkDesktopClientError ItemUnavailable "The selected item is offline, missing, or no longer accessible".
Definition stale_response : DesktopClientError := MkDesktopClientError StaleResponse "A newer search request is active".
Definition unexpected_response : DesktopClientError :=
  MkDesktopClientError DesktopProtocol "Search service returned an unexpected response".

Definition validate_response_identity (response : AgentResponse) (request_id : string) : result DesktopClientError unit :=
  ensure (bool_decide (rs_protocol_version response = AGENT_API_VERSION) && bool_decide (rs_request_id response = request_id))
    (MkDesktopClientError DesktopProtocol "Search service response identity is invalid") ;;
  map_err (λ _, MkDesktopClientError DesktopProtocol "Search service response is invalid") (AgentResponse_validate response).

(** ** Calls *)

Abbreviation transport := (AgentRequest → result DesktopClientError AgentResponse).

Definition desktop_request (request_id : string) (deadline_ms : Z) (operation : RequestOperation) : AgentRequest :=
  MkAgentRequest AGENT_API_VERSION AGENT_CODEC_VERSION request_id deadline_ms operation.

(** The payload of an answer, as every call takes it. *)
Definition response_payload {A} (select : ResponsePayload → option A) (unexpected : DesktopClientError) (request_id : string)
  (response : AgentResponse) : result DesktopClientError A :=
  validate_response_identity response request_id ;;
  match rs_error response with
  | Some error => Err (map_agent_error (ae_code error))
  | None => ok_or (rs_result response ≫= select) unexpected
  end.

Definition contract_violation (message : string) (request : AgentRequest) : result DesktopClientError unit :=
  map_err (λ _, MkDesktopClientError DesktopInvalidRequest message) (AgentRequest_validate request).

Definition resolve_item (exchange : transport) (request_id : string) (document_id : document_id) : result DesktopClientError CatalogItem :=
  let request := desktop_request request_id AGENT_DEADLINE_MS (CatalogGetItem document_id) in
  contract_violation "Item request violates the public Agent contract" request ;;
  response ← exchange request;
  response_payload (λ p, match p with RCatalogItem item => Some item | _ => None end) unexpected_response request_id response.

(** [Path::try_exists] of the path. *)
Definition ensure_actionable_item (try_exists : string → option bool) (item : CatalogItem) : result DesktopClientError unit :=
  ensure (bool_decide (it_availability item = AOnline)) item_unavailable ;;
  ensure (negb (bool_decide (it_kind item = KSpecial) || bool_decide (it_kind item = KOther)))
    (MkDesktopClientError ItemUnavailable "The selected item type cannot be opened") ;;
  ensure (bool_decide (try_exists (it_resolved_path item) = Some true)) item_unavailable.

Definition resolve_action_target (exchange : transport) (try_exists : string → option bool) (request_id : string)
  (document_id : document_id) : result DesktopClientError CatalogItem :=
  item ← resolve_item exchange request_id document_id;
  ensure_actionable_item try_exists item ;; mret item.

Definition desktop_health (exchange : transport) (request_id : string) : result DesktopClientError bool :=
  let request := desktop_request request_id 1000 AgentGetHealth in
  contract_violation "Health request violates the public Agent contract" request ;;
  response ← exchange request;
  health ← response_payload (λ p, match p with RHealth h => Some h | _ => None end) unexpected_response request_id response;
  mret (sv_service_ready health).

Definition desktop_capabilities (exchange : transport) (request_id : string) : result DesktopClientError Capabilities :=
  let request := desktop_request request_id 1000 AgentGetCapabilities in
  response ← exchange request;
  response_payload (λ p, match p with RCapabilities c => Some c | _ => None end) unexpected_response request_id response.

Definition content_search_available (exchange : transport) (request_id : string) : bool :=
  match desktop_capabilities exchange request_id with
  | Ok capabilities => bool_decide (CapSearchContent ∈ cp_granted capabilities)
  | Err _ => false
  end.

(** ** Searches *)

Record DesktopSearchResult := MkDesktopSearchResult { dr_request_id : string; dr_response : SearchResponse }.
Record DesktopContentSearchResult := MkDesktopContentSearchResult { dc_request_id : string; dc_response : ContentSearchResponse }.

(** [search] and [search_content] differ in the operation and in what they return. *)
Inductive search_kind := CatalogQuery | ContentQuery.
Inductive search_answer := CatalogAnswer (r : DesktopSearchResult) | ContentAnswer (r : DesktopContentSearchResult).

(** How far a call is: called; its token in the slot; waiting for the response; with the response; with
    its token found unset; found in the slot; returned. *)
Inductive search_stage :=
| Called
| Registered
| Exchanging (request : AgentRequest)
| Responded (response : result DesktopClientError AgentResponse)
| Unset (response : result DesktopClientError AgentResponse)
| Current (response : result DesktopClientError AgentResponse)
| Returned (outcome : result DesktopClientError search_answer).

Record search_call := MkSearchCall {
  se_kind : search_kind;
  se_request_id : string;
  se_query : string;
  se_cancelled : bool;                 (* the token *)
  se_stage : search_stage }.

(** The slot ([ActiveSearch]: the identifier and the call whose token it shares), and the calls. *)
Record DesktopAgentClient := MkDesktopAgentClient {
  active_search : option (string * nat);
  dc_calls : list search_call }.
Definition new_client : DesktopAgentClient := MkDesktopAgentClient None [].

Definition set_stage (st : search_stage) (c : search_call) : search_call :=
  MkSearchCall (se_kind c) (se_request_id c) (se_query c) (se_cancelled c) st.
Definition set_cancelled (c : search_call) : search_call :=
  MkSearchCall (se_kind c) (se_request_id c) (se_query c) true (se_stage c).

Section client.
Context `{TV : Tantivy} `{T : TextEnv} `{CE : !ContentEnv}.

Definition search_operation (kind : search_kind) (query : string) : RequestOperation :=
  match kind with
  | CatalogQuery => CatalogSearch (MkSearchRequest query ScopeAll (MkSearchFilter [] None None None) DESKTOP_TOP_K)
  | ContentQuery => ContentSearch query DESKTOP_TOP_K
  end.

Definition empty_query (kind : search_kind) : DesktopClientError :=
  MkDesktopClientError DesktopInvalidRequest
    match kind with CatalogQuery => "Search query must not be empty" | ContentQuery => "Content query must not be empty" end.
Definition violation_message (kind : search_kind) : string :=
  match kind with
  | CatalogQuery => "Search request violates the public Agent contract"
  | ContentQuery => "Content query violates the public Agent contract"
  end.

(** What the call returns for a response, once it was found current. *)
Definition search_outcome (kind : search_kind) (request_id : string) (response : result DesktopClientError AgentResponse)
  : result DesktopClientError search_answer :=
  response ← response;
  match kind with
  | CatalogQuery =>
      r ← response_payload (λ p, match p with RSearch r => Some r | _ => None end) unexpected_response request_id response;
      mret (CatalogAnswer (MkDesktopSearchResult request_id r))
  | ContentQuery =>
      r ← response_payload (λ p, match p with RContentSearch r => Some r | _ => None end)
            (MkDesktopClientError DesktopProtocol "Search service returned an unexpected content response") request_id response;
      mret (ContentAnswer (MkDesktopContentSearchResult request_id r))
  end.

(** The slot holds the identifier. *)
Definition active_is (s : DesktopAgentClient) (request_id : string) : bool := bool_decide (fst <$> active_search s = Some request_id).

Definition stage_call (i : nat) (st : search_stage) (s : DesktopAgentClient) : DesktopAgentClient :=
  MkDesktopAgentClient (active_search s) (alter (set_stage st) i (dc_calls s)).

(** The call puts itself into the slot and sets the token of the call before it. *)
Definition register (i : nat) (request_id : string) (s : DesktopAgentClient) : DesktopAgentClient :=
  MkDesktopAgentClient (Some (request_id, i))
    (alter (set_stage Registered) i
       match active_search s with Some (_, previous) => alter set_cancelled previous (dc_calls s) | None => dc_calls s end).

Definition clear_if_current (request_id : string) (s : DesktopAgentClient) : DesktopAgentClient :=
  if active_is s request_id then MkDesktopAgentClient None (dc_calls s) else s.

(** The next turn of a call. *)
Definition search_turn (exchange : transport) (i : nat) (c : search_call) (s : DesktopAgentClient) : DesktopAgentClient :=
  match se_stage c with
  | Called =>
      if bool_decide (trim (chars (se_query c)) = []) then stage_call i (Returned (Err (empty_query (se_kind c)))) s
      else register i (se_request_id c) s
  | Registered =>
      let request := desktop_request (se_request_id c) AGENT_DEADLINE_MS (search_operation (se_kind c) (se_query c)) in
      match contract_violation (violation_message (se_kind c)) request with
      | Err e => stage_call i (Returned (Err e)) s
      | Ok _ => stage_call i (Exchanging request) s
      end
  | Exchanging request => stage_call i (Responded (exchange request)) s
  | Responded response =>
      if se_cancelled c then stage_call i (Returned (Err stale_response)) s else stage_call i (Unset response) s
  | Unset response =>
      if active_is s (se_request_id c) then stage_call i (Current response) s
      else stage_call i (Returned (Err stale_response)) s
  | Current response =>
      stage_call i (Returned (search_outcome (se_kind c) (se_request_id c) response)) (clear_if_current (se_request_id c) s)
  | Returned _ => s
  end.

(** [cancel]. *)
Definition desktop_cancel (request_id : string) (s : DesktopAgentClient) : bool * DesktopAgentClient :=
  match active_search s with
  | Some (id, i) =>
      if bool_decide (id = request_id) then (true, MkDesktopAgentClient (active_search s) (alter set_cancelled i (dc_calls s)))
      else (false, s)
  | None => (false, s)
  end.

(** What happens: a call begins, a call takes a turn (with the transport as it then is), a
    cancellation. *)
Inductive client_event :=
| CallsSearch (kind : search_kind) (request_id query : string)
| TakesTurn (call : nat) (exchange : transport)
| CallsCancel (request_id : string).

Definition client_step (s : DesktopAgentClient) (e : client_event) : DesktopAgentClient :=
  match e with
  | CallsSearch kind request_id query =>
      MkDesktopAgentClient (active_search s) (dc_calls s ++ [MkSearchCall kind request_id query false Called])
  | TakesTurn i exchange => match dc_calls s !! i with Some c => search_turn exchange i c s | None => s end
  | CallsCancel request_id => (desktop_cancel request_id s).2
  end.
Definition client_run (es : list client_event) (s : DesktopAgentClient) : DesktopAgentClient := foldl client_step s es.
End client.

(** ** Activations of the window *)

Definition ACTIVATION_SAMPLE_CAPACITY : nat := 512.

Record ActivationMetrics := MkActivationMetrics {
  am_next_token : Z;                   (* u64 *)
  am_pending : gmap Z Z;               (* token to the instant, in microseconds *)
  am_samples_micros : list Z }.        (* u64, oldest first *)
Definition ActivationMetrics_default : ActivationMetrics := MkActivationMetrics 0 ∅ [].

Record ActivationSummary := MkActivationSummary { av_samples : Z; av_p50_micros : option Z; av_p95_micros : option Z }.

(** [begin]: [fetch_add] wraps, the token saturates. *)
Definition activation_begin (now : Z) (a : ActivationMetrics) : Z * ActivationMetrics :=
  let token := Z.min (am_next_token a + 1) u64_max in
  (token, MkActivationMetrics ((am_next_token a + 1) mod 2 ^ 64) (<[token := now]> (am_pending a)) (am_samples_micros a)).

Definition activation_discard (token : Z) (a : ActivationMetrics) : ActivationMetrics :=
  MkActivationMetrics (am_next_token a) (delete token (am_pending a)) (am_samples_micros a).

(** [acknowledge] at an instant. *)
Definition activation_acknowledge (now token : Z) (a : ActivationMetrics) : option Z * ActivationMetrics :=
  match am_pending a !! token with
  | None => (None, a)
  | Some started =>
      let micros := Z.min (Z.max 0 (now - started)) u64_max in
      let samples :=
        if length (am_samples_micros a) =? ACTIVATION_SAMPLE_CAPACITY then drop 1 (am_samples_micros a) else am_samples_micros a in
      (Some micros, MkActivationMetrics (am_next_token a) (delete token (am_pending a)) (samples ++ [micros]))
  end.

(** Lengths of lists are far below the bound of [usize], so nothing saturates. *)
Definition percentile (sorted : list Z) (percentile : nat) : option Z :=
  match sorted with
  | [] => None
  | _ => sorted !! Nat.min (pred ((length sorted * percentile + 99) / 100)) (length sorted - 1)
  end.

Definition activation_summary (a : ActivationMetrics) : ActivationSummary :=
  let samples := merge_sort Z.le (am_samples_micros a) in
  MkActivationSummary (Z.min (Z.of_nat (length samples)) u32_max) (percentile samples 50) (percentile samples 95).

Inductive activation_event := Begins (now : Z) | Discards (token : Z) | Acknowledges (now token : Z).
Definition activation_step (a : ActivationMetrics) (e : activation_event) : ActivationMetrics :=
  match e with
  | Begins now => (activation_begin now a).2
  | Discards token => activation_discard token a
  | Acknowledges now token => (activation_acknowledge now token a).2
  end.
