(* ===== verification/DesktopSpec.v ===== *)
(** What the desktop client guarantees: a search that a later one superseded never shows its result, the
    latest one does, and an action is taken only on an item as the graph has it now. *)
From Stdlib Require Import Ascii String.
From stdpp Require Import base strings numbers gmap list sorting.
From S2P Require Import Prelude Ids Models GraphDomain GraphTables GraphProjection Fixtures Text Frames Catalog CatalogFixtures.
From S2P Require Import Search SearchSpec Content ContentFixtures Agent AgentSpec Desktop.

Section client.
Context `{TV : Tantivy} `{T : TextEnv} `{CE : !ContentEnv}.
Implicit Types (s : DesktopAgentClient) (c : search_call).

(** The identifiers of the calls of a run. *)
Definition called (e : client_event) : option string :=
  match e with CallsSearch _ request_id _ => Some request_id | _ => None end.

Definition past_call c : Prop := se_stage c ≠ Called.
(** The call has not looked at its token yet. *)
Definition waiting c : Prop :=
  match se_stage c with Registered | Exchanging _ | Responded _ => True | _ => False end.

(** The slot holds a call under its identifier, identifiers are not reused, and a waiting call whose
    token is unset is the one in the slot. *)
Record client_ok s : Prop := {
  co_active : ∀ id i, active_search s = Some (id, i) → ∃ c, dc_calls s !! i = Some c ∧ se_request_id c = id ∧ past_call c;
  co_ids : NoDup (se_request_id <$> dc_calls s);
  co_live : ∀ i c, dc_calls s !! i = Some c → waiting c → se_cancelled c = false → active_search s = Some (se_request_id c, i) }.

Lemma ids_alter f i (l : list search_call) : (∀ c, se_request_id (f c) = se_request_id c) →
  se_request_id <$> alter f i l = se_request_id <$> l.
Proof.
  intros Hf. apply list_eq. intros k. rewrite !list_lookup_fmap. destruct (decide (i = k)) as [->|Hne].
  - rewrite list_lookup_alter_eq. by destruct (l !! k); simpl; [rewrite Hf|].
  - by rewrite list_lookup_alter_ne.
Qed.

Lemma step_ids s e : se_request_id <$> dc_calls (client_step s e) = (se_request_id <$> dc_calls s) ++ option_list (called e).
Proof.
  assert (∀ i st s, se_request_id <$> dc_calls (stage_call i st s) = se_request_id <$> dc_calls s) as Hst.
  { intros i st s0. by apply ids_alter. }
  destruct e as [kind id query|i exchange|id]; simpl; [by rewrite fmap_app|rewrite app_nil_r..].
  - destruct (dc_calls s !! i) as [c|]; [|done]. unfold search_turn, register, clear_if_current.
    destruct (se_stage c); repeat case_match; simpl; rewrite ?ids_alter; done.
  - unfold desktop_cancel. destruct (active_search s) as [[id' i]|]; [|done]. case_bool_decide; [by apply ids_alter|done].
Qed.

Lemma run_ids es s : se_request_id <$> dc_calls (client_run es s) = (se_request_id <$> dc_calls s) ++ omap called es.
Proof.
  revert s. induction es as [|e es IH]; intros s; [by rewrite app_nil_r|].
  change (client_run (e :: es) s) with (client_run es (client_step s e)).
  rewrite IH, step_ids, <-app_assoc. f_equal. simpl. by destruct (called e).
Qed.

Lemma same_id s i j c d : client_ok s → dc_calls s !! i = Some c → dc_calls s !! j = Some d →
  se_request_id c = se_request_id d → i = j.
Proof.
  intros Hok Hi Hj Heq. apply (NoDup_lookup _ _ _ (se_request_id c) (co_ids s Hok)); rewrite list_lookup_fmap.
  - by rewrite Hi.
  - by rewrite Hj, Heq.
Qed.

(** A call goes on without touching the slot. *)
Lemma stage_call_ok s i c st : client_ok s → dc_calls s !! i = Some c → st ≠ Called →
  (waiting (set_stage st c) → waiting c) → client_ok (stage_call i st s).
Proof.
  intros Hok Hi Hst Hw. split; simpl.
  - intros id j Hact. destruct (co_active s Hok _ _ Hact) as (d & Hj & Hid & Hp).
    destruct (decide (i = j)) as [->|Hne]; [|rewrite list_lookup_alter_ne by done; eauto].
    rewrite list_lookup_alter_eq, Hj. simpl. eexists. split_and!; [done|done|done].
  - rewrite ids_alter by done. apply Hok.
  - intros j d Hj Hwait Htok. destruct (decide (i = j)) as [->|Hne].
    + rewrite list_lookup_alter_eq, Hi in Hj. injection Hj as <-. apply (co_live s Hok j c Hi); [by apply Hw|done].
    + rewrite list_lookup_alter_ne in Hj by done. by apply (co_live s Hok).
Qed.

(** Registering sets the token of the call in the slot and leaves the others alone. *)
Lemma register_lookup s i c j : client_ok s → dc_calls s !! i = Some c → se_stage c = Called →
  dc_calls (register i (se_request_id c) s) !! j =
  if decide (j = i) then Some (set_stage Registered c)
  else if decide (snd <$> active_search s = Some j) then set_cancelled <$> dc_calls s !! j else dc_calls s !! j.
Proof.
  intros Hok Hi Hst. simpl. destruct (active_search s) as [[id p]|] eqn:Hact; simpl.
  - assert (p ≠ i) as Hpi.
    { destruct (co_active s Hok _ _ Hact) as (d & Hd & _ & Hp). intros ->. rewrite Hi in Hd. injection Hd as <-. by apply Hp. }
    destruct (decide (j = i)) as [->|Hji]; [by rewrite list_lookup_alter_eq, list_lookup_alter_ne, Hi|].
    rewrite list_lookup_alter_ne by done. destruct (decide (Some p = Some j)) as [[= ->]|Hpj]; [by rewrite list_lookup_alter_eq|].
    by rewrite list_lookup_alter_ne by congruence.
  - destruct (decide (j = i)) as [->|Hji]; [by rewrite list_lookup_alter_eq, Hi|]. by rewrite list_lookup_alter_ne.
Qed.

Lemma register_ok s i c : client_ok s → dc_calls s !! i = Some c → se_stage c = Called → client_ok (register i (se_request_id c) s).
Proof.
  intros Hok Hi Hst. split.
  - intros id j Hact. change (Some (se_request_id c, i) = Some (id, j)) in Hact. injection Hact as <- <-. exists (set_stage Registered c). split; [|done].
    rewrite (register_lookup s i c i Hok Hi Hst). by rewrite decide_True.
  - simpl. rewrite ids_alter by done. destruct (active_search s) as [[id p]|]; [rewrite ids_alter by done|]; apply Hok.
  - intros j d Hj Hw Htok. rewrite (register_lookup s i c j Hok Hi Hst) in Hj.
    destruct (decide (j = i)) as [->|Hji]; [by injection Hj as <-|]. exfalso.
    destruct (decide _) as [Ha|Ha]; [apply fmap_Some in Hj as (d' & _ & ->); done|].
    apply Ha. by rewrite (co_live s Hok j d Hj Hw Htok).
Qed.

Lemma clear_ok s i c response : client_ok s → dc_calls s !! i = Some c → se_stage c = Current response →
  client_ok (clear_if_current (se_request_id c) s).
Proof.
  intros Hok Hi Hst. unfold clear_if_current, active_is. case_bool_decide as Ha; [|done]. split; [done|apply Hok|].
  simpl. intros j d Hj Hw Htok. exfalso. pose proof (co_live s Hok j d Hj Hw Htok) as Hact. rewrite Hact in Ha. injection Ha as Ha.
  assert (j = i) as -> by (by eapply same_id). rewrite Hi in Hj. injection Hj as <-. unfold waiting in Hw. by rewrite Hst in Hw.
Qed.

Lemma cancel_ok s id : client_ok s → client_ok (desktop_cancel id s).2.
Proof.
  intros Hok. unfold desktop_cancel. destruct (active_search s) as [[id' i]|] eqn:Hact; [|done]. case_bool_decide; [|done].
  destruct (co_active s Hok _ _ Hact) as (c & Hi & Hid & Hp). split; simpl.
  - intros id0 j Hj. injection Hj as <- <-. rewrite list_lookup_alter_eq, Hi. simpl. eexists. by split_and!.
  - rewrite ids_alter by done. apply Hok.
  - intros j d Hj Hw Htok. destruct (decide (i = j)) as [->|Hne].
    + rewrite list_lookup_alter_eq, Hi in Hj. by injection Hj as <-.
    + rewrite list_lookup_alter_ne in Hj by done. rewrite <-Hact. by apply (co_live s Hok).
Qed.

Lemma step_ok s e : client_ok s → NoDup ((se_request_id <$> dc_calls s) ++ option_list (called e)) → client_ok (client_step s e).
Proof.
  intros Hok Hids. destruct e as [kind id query|i exchange|id]; simpl; [| |by apply cancel_ok].
  - split; simpl; [| by rewrite fmap_app|].
    + intros id0 j Hact. destruct (co_active s Hok _ _ Hact) as (c & Hj & ?). exists c. split; [|done]. by apply lookup_app_l_Some.
    + intros j d Hj Hw Htok. apply lookup_app_Some in Hj as [Hj|[_ Hj]]; [by apply (co_live s Hok)|].
      by apply list_lookup_singleton_Some in Hj as [_ <-].
  - destruct (dc_calls s !! i) as [c|] eqn:Hi; [|done]. unfold search_turn. destruct (se_stage c) as [| |request|r|r|r|o] eqn:Hst.
    + case_bool_decide; [by eapply stage_call_ok|by apply register_ok].
    + destruct (contract_violation _ _); (eapply stage_call_ok; [done|done|done|]; unfold waiting; by rewrite Hst).
    + eapply stage_call_ok; [done|done|done|]. unfold waiting. by rewrite Hst.
    + destruct (se_cancelled c); (eapply stage_call_ok; [done|done|done|]; unfold waiting; by rewrite Hst).
    + destruct (active_is s _); by eapply stage_call_ok.
    + eapply (stage_call_ok _ _ c); [by eapply clear_ok| |done|done]. unfold clear_if_current. by destruct (active_is s _).
    + done.
Qed.

Lemma run_ok es s : client_ok s → NoDup ((se_request_id <$> dc_calls s) ++ omap called es) → client_ok (client_run es s).
Proof.
  revert s. induction es as [|e es IH]; intros s Hok Hids; [done|].
  change (client_run (e :: es) s) with (client_run es (client_step s e)).
  assert (omap called (e :: es) = option_list (called e) ++ omap called es) as Hc by (simpl; by destruct (called e)).
  rewrite Hc, app_assoc in Hids. apply IH; [|by rewrite step_ids]. apply step_ok; [done|]. by apply NoDup_app in Hids as [? _].
Qed.

Lemma new_client_ok : client_ok new_client.
Proof. split; [done|by apply NoDup_nil|done]. Qed.

(** ** Superseded calls *)

(** The call can no longer show a result: its token is set before it looked at it, it looked before and
    is not in the slot any more, or it failed. *)
Definition superseded s c : Prop :=
  match se_stage c with
  | Registered | Exchanging _ | Responded _ => se_cancelled c = true
  | Unset _ => active_is s (se_request_id c) = false
  | Returned (Err _) => True
  | Called | Current _ | Returned (Ok _) => False
  end.

(** What an event does to a call that does not take the turn. *)
Definition bystander s e i : Prop := match e with TakesTurn j _ => j ≠ i | _ => True end.

Lemma bystander_call s e i c : client_ok s → bystander s e i → dc_calls s !! i = Some c →
  dc_calls (client_step s e) !! i = Some c ∨
  snd <$> active_search s = Some i ∧ dc_calls (client_step s e) !! i = Some (set_cancelled c).
Proof.
  intros Hok Hb Hi. destruct e as [kind id query|j exchange|id]; simpl.
  - left. by apply lookup_app_l_Some.
  - simpl in Hb. destruct (dc_calls s !! j) as [d|] eqn:Hj; [|by left]. unfold search_turn.
    assert (∀ st s', dc_calls s' = dc_calls s → dc_calls (stage_call j st s') !! i = Some c) as Hst.
    { intros st s' Heq. simpl. by rewrite list_lookup_alter_ne, Heq. }
    destruct (se_stage d) as [| |request|r|r|r|o] eqn:Hd; repeat case_match; try (left; by apply Hst).
    + rewrite (register_lookup s j d i Hok Hj Hd). rewrite decide_False by done.
      destruct (decide _) as [Ha|Ha]; [right|by left]. by rewrite Hi.
    + left. apply Hst. unfold clear_if_current. by destruct (active_is s _).
    + by left.
  - unfold desktop_cancel. destruct (active_search s) as [[id' j]|]; [|by left]. case_bool_decide; [|by left].
    simpl. destruct (decide (j = i)) as [->|Hne]; [right|left; by rewrite list_lookup_alter_ne].
    split; [done|]. by rewrite list_lookup_alter_eq, Hi.
Qed.

(** Another call never puts the identifier of this one into the slot. *)
Lemma bystander_slot s e i c : client_ok s → bystander s e i → dc_calls s !! i = Some c →
  active_is s (se_request_id c) = false → active_is (client_step s e) (se_request_id c) = false.
Proof.
  intros Hok Hb Hi Ha. destruct e as [kind id query|j exchange|id]; [done| |].
  - simpl in Hb |- *. destruct (dc_calls s !! j) as [d|] eqn:Hj; [|done]. unfold search_turn.
    destruct (se_stage d); repeat case_match; try done.
    + unfold active_is. simpl. apply bool_decide_eq_false. intros [= Hid]. by apply Hb, (same_id s j i d c).
    + unfold clear_if_current. by destruct (active_is s (se_request_id d)).
  - simpl. unfold desktop_cancel. destruct (active_search s) as [[id' j]|] eqn:Hact; [|done]. case_bool_decide; [|done].
    unfold active_is in *. by rewrite Hact in Ha.
Qed.

Lemma superseded_step s e i c : client_ok s → dc_calls s !! i = Some c → superseded s c →
  ∃ c', dc_calls (client_step s e) !! i = Some c' ∧ superseded (client_step s e) c'.
Proof.
  intros Hok Hi Hs.
  assert (bystander s e i ∨ ∃ exchange, e = TakesTurn i exchange) as [Hb|[exchange ->]].
  { destruct e as [|j exchange|]; [by left| |by left]. destruct (decide (j = i)) as [->|]; [right; by eexists|by left]. }
  - assert (superseded (client_step s e) c) as Hsame.
    { unfold superseded in *. destruct (se_stage c); try done. by eapply bystander_slot. }
    destruct (bystander_call s e i c Hok Hb Hi) as [Hc|[_ Hc]]; eexists; (split; [exact Hc|]); [done|].
    unfold superseded in *. simpl. destruct (se_stage c); done.
  - simpl. rewrite Hi. unfold superseded in Hs.
    assert (∀ st s', dc_calls s' = dc_calls s → dc_calls (stage_call i st s') !! i = Some (set_stage st c)) as Hst.
    { intros st s' Heq. simpl. by rewrite list_lookup_alter_eq, Heq, Hi. }
    unfold search_turn. destruct (se_stage c) as [| |request|r|r|r|o] eqn:Hc; try done.
    + destruct (contract_violation _ _); eexists; (split; [by apply Hst|done]).
    + eexists; (split; [by apply Hst|done]).
    + rewrite Hs. eexists; (split; [by apply Hst|done]).
    + rewrite Hs. eexists; (split; [by apply Hst|done]).
    + exists c. split; [done|]. unfold superseded. by rewrite Hc.
Qed.

Lemma superseded_run es s i c : client_ok s → NoDup ((se_request_id <$> dc_calls s) ++ omap called es) →
  dc_calls s !! i = Some c → superseded s c →
  ∃ c', dc_calls (client_run es s) !! i = Some c' ∧ superseded (client_run es s) c'.
Proof.
  revert s c. induction es as [|e es IH]; intros s c Hok Hids Hi Hs; [by exists c|].
  change (client_run (e :: es) s) with (client_run es (client_step s e)).
  assert (omap called (e :: es) = option_list (called e) ++ omap called es) as Hc by (simpl; by destruct (called e)).
  rewrite Hc, app_assoc in Hids. destruct (superseded_step s e i c Hok Hi Hs) as (c' & Hc' & Hs').
  eapply IH; [|by rewrite step_ids|done..]. apply step_ok; [done|]. by apply NoDup_app in Hids as [? _].
Qed.

(** The event supersedes a call: another search enters the slot before the call was found in it, or it
    is cancelled before it looked at its token. *)
Definition displaces s e i c : Prop :=
  match e with
  | TakesTurn j _ =>
      (∃ d, dc_calls s !! j = Some d ∧ se_stage d = Called ∧ trim (chars (se_query d)) ≠ [])
      ∧ j ≠ i ∧ (waiting c ∨ ∃ response, se_stage c = Unset response)
  | CallsCancel id => id = se_request_id c ∧ waiting c
  | CallsSearch _ _ _ => False
  end.

Lemma displaced s e i c : client_ok s → dc_calls s !! i = Some c → displaces s e i c →
  ∃ c', dc_calls (client_step s e) !! i = Some c' ∧ superseded (client_step s e) c'.
Proof.
  intros Hok Hi Hd. destruct e as [|j exchange|id]; [done| |].
  - destruct Hd as ((d & Hj & Hst & Hq) & Hne & Hw). simpl. rewrite Hj. unfold search_turn. rewrite Hst, bool_decide_false by done.
    rewrite (register_lookup s j d i Hok Hj Hst), decide_False by done. rewrite Hi.
    destruct Hw as [Hw|[response Hw]].
    + destruct (decide _) as [Ha|Ha]; simpl; eexists; (split; [reflexivity|]).
      * unfold superseded, waiting in *. simpl. by destruct (se_stage c).
      * assert (se_cancelled c = true) as Htok.
        { destruct (se_cancelled c) eqn:Htok; [done|]. exfalso. apply Ha. by rewrite (co_live s Hok i c Hi Hw Htok). }
        unfold superseded, waiting in *. by destruct (se_stage c).
    + assert (active_is (register j (se_request_id d) s) (se_request_id c) = false) as Hact.
      { unfold active_is. simpl. apply bool_decide_eq_false. intros [= Hid]. by apply Hne, (same_id s j i d c). }
      destruct (decide _) as [Ha|Ha]; simpl; eexists; (split; [reflexivity|]); unfold superseded; simpl; by rewrite Hw.
  - destruct Hd as [-> Hw]. simpl. destruct (se_cancelled c) eqn:Htok.
    + assert (superseded s c) as Hs by (unfold superseded, waiting in *; by destruct (se_stage c)).
      by apply (superseded_step s (CallsCancel (se_request_id c)) i c).
    + unfold desktop_cancel. rewrite (co_live s Hok i c Hi Hw Htok), bool_decide_true by done. simpl.
      rewrite list_lookup_alter_eq, Hi. eexists. split; [reflexivity|]. unfold superseded, waiting in *. simpl. by destruct (se_stage c).
Qed.

(** C28 (no stale results): whatever the interleaving of searches and cancellations under fresh request
    identifiers, a search that has not been found current when another one enters the slot, or that has
    not looked at its token when it is cancelled, never returns a result, whatever happens later and
    whatever the transport answers. *)
Theorem superseded_search_shows_nothing es e es' i c :
  NoDup (omap called (es ++ e :: es')) →
  dc_calls (client_run es new_client) !! i = Some c → displaces (client_run es new_client) e i c →
  ∃ c', dc_calls (client_run (es ++ e :: es') new_client) !! i = Some c' ∧ ∀ answer, se_stage c' ≠ Returned (Ok answer).
Proof.
  intros Hids Hi Hd. rewrite omap_app in Hids.
  assert (omap called (e :: es') = option_list (called e) ++ omap called es') as Hc by (simpl; by destruct (called e)).
  rewrite Hc in Hids. unfold client_run. rewrite foldl_app. simpl. fold (client_run es new_client).
  set (s := client_run es new_client) in *.
  assert (se_request_id <$> dc_calls s = omap called es) as Hs by apply run_ids.
  assert (client_ok s) as Hok by (apply run_ok; [apply new_client_ok|by apply NoDup_app in Hids as [? _]]).
  destruct (displaced s e i c Hok Hi Hd) as (c1 & Hc1 & Hsup). rewrite <-Hs, app_assoc in Hids.
  destruct (superseded_run es' (client_step s e) i c1) as (c' & Hc' & Hsup'); [| |done..|].
  - apply step_ok; [done|]. by apply NoDup_app in Hids as [? _].
  - by rewrite step_ids.
  - exists c'. split; [done|]. intros answer Heq. unfold superseded in Hsup'. by rewrite Heq in Hsup'.
Qed.

(** ** The latest call *)

Definition request_of c : AgentRequest :=
  desktop_request (se_request_id c) AGENT_DEADLINE_MS (search_operation (se_kind c) (se_query c)).

(** The call [c] is under way in a state, with at most [left] turns to go, and what it has so far is what
    [exchange] answers; it is in the slot until it has returned. *)
Definition on_course (exchange : transport) (c0 : search_call) (i left : nat) s : Prop :=
  let request := request_of c0 in
  ∃ st cancelled,
    dc_calls s !! i = Some (MkSearchCall (se_kind c0) (se_request_id c0) (se_query c0) cancelled st)
    ∧ match st with
      | Called => False
      | Registered => 5 ≤ left ∧ cancelled = false
      | Exchanging r => 4 ≤ left ∧ r = request ∧ cancelled = false
      | Responded r => 3 ≤ left ∧ r = exchange request ∧ cancelled = false
      | Unset r => 2 ≤ left ∧ r = exchange request
      | Current r => 1 ≤ left ∧ r = exchange request
      | Returned o => o = search_outcome (se_kind c0) (se_request_id c0) (exchange request)
      end
    ∧ match st with Returned _ => True | _ => active_search s = Some (se_request_id c0, i) end.

(** Events that leave the call alone: no call from [bound] on takes a turn, its own turns meet the
    transport, and it is not cancelled. *)
Definition quiet (exchange : transport) (c0 : search_call) (i bound : nat) (e : client_event) : Prop :=
  match e with
  | TakesTurn j exchange' => j < bound ∧ (j = i → exchange' (request_of c0) = exchange (request_of c0))
  | CallsCancel id => id ≠ se_request_id c0
  | CallsSearch _ _ _ => True
  end.
Definition own_turn (i : nat) (e : client_event) : bool := match e with TakesTurn j _ => bool_decide (j = i) | _ => false end.

Definition all_past (bound : nat) s : Prop := ∀ j d, j < bound → dc_calls s !! j = Some d → past_call d.

Lemma all_past_step bound s e : client_ok s → bound ≤ length (dc_calls s) → all_past bound s →
  all_past bound (client_step s e) ∧ bound ≤ length (dc_calls (client_step s e)).
Proof.
  intros Hok Hlen Hall. split.
  - intros j d Hj Hd. assert (bystander s e j ∨ ∃ exchange, e = TakesTurn j exchange) as [Hb|[exchange ->]].
    { destruct e as [|k exchange|]; [by left| |by left]. destruct (decide (k = j)) as [->|]; [right; by eexists|by left]. }
    + destruct (dc_calls s !! j) as [c|] eqn:Hc; [|apply lookup_ge_None in Hc; lia].
      destruct (bystander_call s e j c Hok Hb Hc) as [Hc'|[_ Hc']]; rewrite Hc' in Hd; injection Hd as <-; by apply (Hall j c).
    + simpl in Hd. destruct (dc_calls s !! j) as [c|] eqn:Hc; [|apply lookup_ge_None in Hc; lia].
      pose proof (Hall j c Hj Hc) as Hp. unfold search_turn, past_call in *.
      destruct (se_stage c) eqn:Hst; try done; repeat case_match; simpl in Hd;
        try (unfold clear_if_current in Hd; case_match); simpl in Hd; try (rewrite list_lookup_alter_eq, Hc in Hd; by injection Hd as <-).
      rewrite Hc in Hd. injection Hd as <-. by rewrite Hst.
  - rewrite <-(length_fmap se_request_id (dc_calls (client_step s e))), step_ids, length_app, length_fmap. lia.
Qed.

Lemma quiet_bystander exchange c0 i bound s e c :
  client_ok s → all_past bound s → quiet exchange c0 i bound e → own_turn i e = false →
  dc_calls s !! i = Some c → se_request_id c = se_request_id c0 → active_search s = Some (se_request_id c0, i) →
  dc_calls (client_step s e) !! i = Some c ∧ active_search (client_step s e) = active_search s.
Proof.
  intros Hok Hall Hq Hown Hi Hid Hact. destruct e as [kind id query|j exchange'|id]; simpl.
  - split; [by apply lookup_app_l_Some|done].
  - simpl in Hq, Hown. apply bool_decide_eq_false in Hown. destruct Hq as [Hj _].
    destruct (dc_calls s !! j) as [d|] eqn:Hd; [|done]. pose proof (Hall j d Hj Hd) as Hp. unfold search_turn, past_call in *.
    assert (∀ st, dc_calls (stage_call j st s) !! i = Some c ∧ active_search (stage_call j st s) = active_search s) as Hst.
    { intros st. simpl. by rewrite list_lookup_alter_ne. }
    assert (clear_if_current (se_request_id d) s = s) as Hclear.
    { unfold clear_if_current, active_is. rewrite Hact, bool_decide_false; [done|]. intros [= Heq].
      by apply Hown, (same_id s j i d c); [..|congruence]. }
    destruct (se_stage d); try done; repeat case_match; rewrite ?Hclear; by apply Hst.
  - simpl in Hq. unfold desktop_cancel. rewrite Hact. by rewrite bool_decide_false by done.
Qed.

Lemma course_own exchange exchange' c0 i left s :
  AgentRequest_validate (request_of c0) = Ok tt → exchange' (request_of c0) = exchange (request_of c0) →
  on_course exchange c0 i left s → on_course exchange c0 i (pred left) (client_step s (TakesTurn i exchange')).
Proof.
  intros Hv Hex (st & cancelled & Hi & Hst & Hslot). simpl. rewrite Hi. unfold search_turn. simpl.
  assert (∀ st' s', dc_calls s' = dc_calls s → dc_calls (stage_call i st' s') !! i =
    Some (MkSearchCall (se_kind c0) (se_request_id c0) (se_query c0) cancelled st')) as Hset.
  { intros st' s' Heq. simpl. by rewrite list_lookup_alter_eq, Heq, Hi. }
  destruct st as [| |request|r|r|r|o]; [done|..].
  - fold (request_of c0). unfold contract_violation. rewrite Hv. simpl. destruct Hst as [Hl ->].
    eexists _, _. split; [by apply Hset|]. simpl. split; [split_and!; [lia|done|done]|done].
  - destruct Hst as (Hl & -> & ->). eexists _, _. split; [by apply Hset|]. simpl. split; [split_and!; [lia|done|done]|done].
  - destruct Hst as (Hl & -> & ->). eexists _, _. split; [by apply Hset|]. simpl. split; [split; [lia|done]|done].
  - destruct Hst as (Hl & ->). unfold active_is. rewrite Hslot, bool_decide_true by done.
    eexists _, _. split; [by apply Hset|]. simpl. split; [split; [lia|done]|done].
  - destruct Hst as (Hl & ->). eexists _, _. split; [apply Hset; unfold clear_if_current; by destruct (active_is s _)|]. done.
  - eexists _, _. by split.
Qed.

Lemma course_step exchange c0 i bound left s e :
  client_ok s → AgentRequest_validate (request_of c0) = Ok tt → all_past bound s →
  quiet exchange c0 i bound e → on_course exchange c0 i left s →
  on_course exchange c0 i (if own_turn i e then pred left else left) (client_step s e).
Proof.
  intros Hok Hv Hall Hq Hc. destruct (own_turn i e) eqn:Hown.
  { destruct e as [|j exchange'|]; try done. simpl in Hown, Hq. apply bool_decide_eq_true in Hown as ->. by apply course_own; [|apply Hq|]. }
  destruct Hc as (st & cancelled & Hi & Hst & Hslot).
  assert (bystander s e i) as Hb by (destruct e; [done| |done]; by apply bool_decide_eq_false in Hown).
  destruct st; try (destruct (quiet_bystander _ c0 i bound s e _ Hok Hall Hq Hown Hi) as [Hi' Hs'];
    [done|done|]; eexists _, _; split; [exact Hi'|]; split; [exact Hst|]; by rewrite Hs').
  destruct (bystander_call s e i _ Hok Hb Hi) as [Hi'|[_ Hi']]; eexists _, _; (split; [exact Hi'|]); by split.
Qed.

Lemma course_run exchange c0 i bound left es s :
  client_ok s → NoDup ((se_request_id <$> dc_calls s) ++ omap called es) → AgentRequest_validate (request_of c0) = Ok tt →
  bound ≤ length (dc_calls s) → all_past bound s → Forall (quiet exchange c0 i bound) es → on_course exchange c0 i left s →
  on_course exchange c0 i (left - length (filter (λ e, own_turn i e = true) es)) (client_run es s).
Proof.
  revert left s. induction es as [|e es IH]; intros left s Hok Hids Hv Hlen Hall Hq Hc; [by rewrite Nat.sub_0_r|].
  change (client_run (e :: es) s) with (client_run es (client_step s e)). apply Forall_cons in Hq as [Hqe Hq].
  assert (omap called (e :: es) = option_list (called e) ++ omap called es) as Hce by (simpl; by destruct (called e)).
  rewrite Hce, app_assoc in Hids. destruct (all_past_step bound s e Hok Hlen Hall) as [Hall' Hlen'].
  assert (client_ok (client_step s e)) as Hok' by (apply step_ok; [done|]; by apply NoDup_app in Hids as [? _]).
  pose proof (course_step exchange c0 i bound left s e Hok Hv Hall Hqe Hc) as Hc'. rewrite <-step_ids in Hids.
  specialize (IH _ _ Hok' Hids Hv Hlen' Hall' Hq Hc'). rewrite filter_cons.
  destruct (own_turn i e); [rewrite decide_True by done|by rewrite decide_False by done]. simpl.
  by replace (left - S (length (filter (λ e, own_turn i e = true) es))) with (pred left - length (filter (λ e, own_turn i e = true) es)) by lia.
Qed.

(** C29 (the latest search returns): the search that entered the slot last, with a request that the agent
    accepts, returns what the transport answers it once it had five turns, however the turns of the
    earlier calls, new calls that have not begun and cancellations of other identifiers are interleaved:
    nothing but a later search or its own cancellation makes it stale. *)
Theorem latest_search_returns es es' exchange i c :
  let s := client_run es new_client in
  NoDup (omap called (es ++ es')) →
  dc_calls s !! i = Some c → se_stage c = Registered → active_search s = Some (se_request_id c, i) → se_cancelled c = false →
  AgentRequest_validate (request_of c) = Ok tt →
  (∀ j d, dc_calls s !! j = Some d → past_call d) →
  Forall (quiet exchange c i (length (dc_calls s))) es' → 5 ≤ length (filter (λ e, own_turn i e = true) es') →
  ∃ c', dc_calls (client_run es' s) !! i = Some c' ∧
    se_stage c' = Returned (search_outcome (se_kind c) (se_request_id c) (exchange (request_of c))).
Proof.
  intros s Hids Hi Hst Hslot Htok Hv Hall Hq Hturns. rewrite omap_app in Hids.
  assert (se_request_id <$> dc_calls s = omap called es) as Hs by apply run_ids.
  assert (client_ok s) as Hok by (apply run_ok; [apply new_client_ok|by apply NoDup_app in Hids as [? _]]).
  destruct (course_run exchange c i (length (dc_calls s)) 5 es' s) as (st & cancelled & Hi' & Hst' & _);
    [done|by rewrite Hs|done|done|by intros j d _; apply Hall|done| |].
  - exists Registered, false. split; [|done]. rewrite Hi. destruct c; simpl in *. by subst.
  - eexists. split; [exact Hi'|]. destruct st; simpl; try (exfalso; simpl in Hst'; lia). by rewrite Hst'.
Qed.
End client.

(** ** Actions *)

Section actions.
Context `{TV : Tantivy} `{T : TextEnv} `{CP : !ContentPort}.

(** The agent behind the transport. *)
Definition to_agent env opens s : transport := λ request, Ok (dispatch_cancellable env opens request s).1.

Lemma response_payload_Ok {A} (select : ResponsePayload → option A) unexpected request_id response a :
  response_payload select unexpected request_id response = Ok a →
  rs_request_id response = request_id ∧ rs_error response = None ∧ ∃ p, rs_result response = Some p ∧ select p = Some a.
Proof.
  unfold response_payload, validate_response_identity. intros (u & Hid & H)%result_bind_Ok. apply ensure_bind in Hid as [Hid _].
  apply andb_true_iff in Hid as [_ Hid%bool_decide_eq_true]. destruct (rs_error response); [done|].
  apply ok_or_Ok, bind_Some in H as (p & Hp & Hs). split; [done|]. split; [done|]. by exists p.
Qed.

(** An item that the agent answers is a desired document of the graph. *)
Lemma item_answer env opens request s id item :
  ar_operation request = CatalogGetItem id → rs_result (dispatch_cancellable env opens request s).1 = Some (RCatalogItem item) →
  permits (as_authorization s) CapReadMetadata = true ∧
  ∃ d, desired_catalog_document (as_graph s) id = Ok (Some d) ∧ item = item_from_document d.
Proof.
  intros Hop. unfold dispatch_cancellable. destruct (AgentRequest_validate request); [|done]. rewrite Hop. simpl.
  rewrite require_bind. destruct (permits _ _); [|done].
  unfold get_catalog_item, open_graph, read_graph, st_lift, fmap, St_fmap, mbind, St_bind, mret, St_ret.
  destruct (opens 0); simpl; [|done]. destruct (desired_catalog_document (as_graph s) id) as [[d|]|]; simpl; [|done..].
  intros [= <-]. split; [done|]. by exists d.
Qed.

End actions.

(** ** Activations *)

Lemma filter_nothing {A} (P : A → Prop) `{∀ x, Decision (P x)} l : Forall (λ x, ¬ P x) l → filter P l = [].
Proof. induction 1 as [|x l Hx _ IH]; [done|]. by rewrite filter_cons, decide_False. Qed.

(** The percentile is the nearest rank: at least so many of a hundred samples are at most the value, and
    fewer are below it. *)
Theorem percentile_rank l p : StronglySorted Z.le l → l ≠ [] → 0 < p ≤ 100 →
  ∃ v, percentile l p = Some v ∧ p * length l ≤ 100 * length (filter (λ x, x ≤ v)%Z l)
    ∧ 100 * length (filter (λ x, x < v)%Z l) < p * length l.
Proof.
  intros Hs Hne Hp. assert (0 < length l) as Hlen by (destruct l; [done|simpl; lia]).
  set (q := (length l * p + 99) / 100). assert (length l * p ≤ 100 * q ∧ 100 * q ≤ length l * p + 99) as [Hq1 Hq2].
  { unfold q. pose proof (Nat.div_mod (length l * p + 99) 100). pose proof (Nat.mod_upper_bound (length l * p + 99) 100). lia. }
  assert (0 < q ≤ length l) as Hq by nia. assert (percentile l p = l !! pred q) as ->.
  { unfold percentile. destruct l as [|x l']; [done|]. f_equal. fold q. simpl in *. lia. }
  destruct (lookup_lt_is_Some_2 l (pred q) ltac:(lia)) as [v Hv]. exists v. split; [done|].
  pose proof (take_drop_middle _ _ _ Hv) as Hmid. rewrite <-Hmid in Hs.
  assert (Forall (λ x, x ≤ v)%Z (take (pred q) l)) as Hlow.
  { clear -Hs. induction (take (pred q) l) as [|x l' IH]; [done|]. simpl in Hs. apply StronglySorted_inv in Hs as [Hs Hx].
    apply Forall_cons. split; [|by apply IH]. by apply Forall_app in Hx as [_ [Hx _]%Forall_cons]. }
  assert (Forall (λ x, v ≤ x)%Z (drop (S (pred q)) l)) as Hhigh.
  { clear -Hs. induction (take (pred q) l) as [|x l' IH]; simpl in Hs; apply StronglySorted_inv in Hs as [Hs Hx]; [done|by apply IH]. }
  assert (length (take (pred q) l) = pred q) as Htake by (rewrite length_take; lia).
  rewrite <-Hmid at 2 3. rewrite !filter_app, !filter_cons, (decide_True (P := (v ≤ v)%Z)), (decide_False (P := (v < v)%Z)) by lia.
  rewrite (filter_all _ _ Hlow), (filter_nothing (λ x, x < v)%Z (drop _ l)) by (eapply Forall_impl; [exact Hhigh|]; simpl; lia).
  pose proof (length_filter (λ x, x < v)%Z (take (pred q) l)) as Hf. rewrite !length_app, Htake. simpl. split; nia.
Qed.

(** The samples stay bounded, and a token counts once. *)
Theorem activations_bounded es now token :
  let a := foldl activation_step ActivationMetrics_default es in
  length (am_samples_micros a) ≤ ACTIVATION_SAMPLE_CAPACITY
  ∧ (activation_acknowledge now token (activation_acknowledge now token a).2).1 = None.
Proof.
  intros a. split.
  - unfold a. assert (∀ es a, length (am_samples_micros a) ≤ ACTIVATION_SAMPLE_CAPACITY →
      length (am_samples_micros (foldl activation_step a es)) ≤ ACTIVATION_SAMPLE_CAPACITY) as Hind.
    { clear. intros es. induction es as [|e es IH]; intros a Ha; [done|]. simpl. apply IH.
      destruct e as [now|token|now token]; [done|done|]. simpl. unfold activation_acknowledge.
      destruct (am_pending a !! token); [|done]. cbn [am_samples_micros snd]. rewrite length_app. cbn [length].
      destruct (Nat.eqb_spec (length (am_samples_micros a)) ACTIVATION_SAMPLE_CAPACITY); [rewrite length_drop|]; unfold ACTIVATION_SAMPLE_CAPACITY in *; lia. }
    apply Hind. simpl. unfold ACTIVATION_SAMPLE_CAPACITY. lia.
  - unfold activation_acknowledge at 2. destruct (am_pending a !! token) eqn:Hp; simpl; unfold activation_acknowledge; simpl.
    + by rewrite lookup_delete_eq.
    + by rewrite Hp.
Qed.

(** ** Concrete runs *)

Definition no_hits : SearchResponse := MkSearchResponse 1 10 [].
(** A transport that finds nothing. *)
Definition answers (request : AgentRequest) : result DesktopClientError AgentResponse :=
  Ok (response_success (ar_request_id request) (RSearch no_hits)).

(** Two searches; the second begins while the first waits for its response. *)
Definition first_waits : list client_event :=
  [CallsSearch CatalogQuery "q-1" "rep"; TakesTurn 0 answers; TakesTurn 0 answers; CallsSearch CatalogQuery "q-2" "report"].
Definition rest_of_run : list client_event :=
  [TakesTurn 0 answers; TakesTurn 1 answers; TakesTurn 0 answers; TakesTurn 1 answers; CallsCancel "q-1"; TakesTurn 1 answers;
   TakesTurn 1 answers; TakesTurn 1 answers].

Lemma superseded_search_shows_nothing_witness :
  ∃ c', dc_calls (client_run (first_waits ++ TakesTurn 1 answers :: rest_of_run) new_client) !! 0 = Some c'
    ∧ se_stage c' = Returned (Err stale_response) ∧ ∀ answer, se_stage c' ≠ Returned (Ok answer).
Proof.
  assert (∃ c, dc_calls (client_run first_waits new_client) !! 0 = Some c
    ∧ displaces (client_run first_waits new_client) (TakesTurn 1 answers) 0 c) as (c & Hc & Hd).
  { eexists. split; [vm_compute; reflexivity|]. split; [eexists; split; [vm_compute; reflexivity|split; [reflexivity|vm_compute; discriminate]]|].
    split; [lia|left; exact I]. }
  assert (NoDup (omap called (first_waits ++ TakesTurn 1 answers :: rest_of_run))) as Hids by (apply (bool_decide_unpack _); vm_compute; exact I).
  destruct (superseded_search_shows_nothing first_waits (TakesTurn 1 answers) rest_of_run 0 c Hids Hc Hd) as (c' & Hc' & Hno).
  exists c'. split; [exact Hc'|]. split; [|exact Hno].
  assert (se_stage <$> dc_calls (client_run (first_waits ++ TakesTurn 1 answers :: rest_of_run) new_client) !! 0
    = Some (Returned (Err stale_response))) as Hst by (vm_compute; reflexivity).
  rewrite Hc' in Hst. injection Hst as ->. reflexivity.
Defined.

Lemma latest_search_returns_witness :
  ∃ c', dc_calls (client_run rest_of_run (client_run (first_waits ++ [TakesTurn 1 answers]) new_client)) !! 1 = Some c'
    ∧ se_stage c' = Returned (Ok (CatalogAnswer (MkDesktopSearchResult "q-2" no_hits))).
Proof.
  assert (∃ c, dc_calls (client_run (first_waits ++ [TakesTurn 1 answers]) new_client) !! 1 = Some c
    ∧ c = MkSearchCall CatalogQuery "q-2" "report" false Registered) as (c & Hc & ->).
  { eexists. split; [vm_compute; reflexivity|reflexivity]. }
  assert (NoDup (omap called ((first_waits ++ [TakesTurn 1 answers]) ++ rest_of_run))) as Hids by (apply (bool_decide_unpack _); vm_compute; exact I).
  destruct (latest_search_returns (first_waits ++ [TakesTurn 1 answers]) rest_of_run answers 1 _ Hids Hc) as (c' & Hc' & Hst).
  - reflexivity.
  - vm_compute. reflexivity.
  - reflexivity.
  - vm_compute. reflexivity.
  - intros [|[|j]] d Hd; vm_compute in Hd; try discriminate Hd; injection Hd as <-; discriminate.
  - repeat (apply List.Forall_cons; [simpl; repeat split; (lia || discriminate)|]). apply List.Forall_nil.
  - vm_compute. lia.
  - exists c'. split; [exact Hc'|]. rewrite Hst. vm_compute. reflexivity.
Defined.

(** The file of the sample agent; its path exists. *)
Definition path_exists (path : string) : option bool := Some (bool_decide (path = "docs/a.TXT")).
Definition sample_target (s : AgentService) : result DesktopClientError CatalogItem :=
  resolve_action_target (to_agent sample_env (λ _, Ok tt) s) path_exists "action-1" 20.

Lemma sample_target_resolves s w' : sample_open = (Ok s, w') →
  ∃ item, sample_target s = Ok item ∧ it_resolved_path item = "docs/a.TXT".
Proof.
  intros H. assert (match sample_open with
    | (Ok s, _) => match sample_target s with Ok item => it_resolved_path item = "docs/a.TXT" | Err _ => False end
    | _ => False end) as Ht by (vm_compute; reflexivity).
  rewrite H in Ht. destruct (sample_target s) as [item|e]; [exists item; split; [reflexivity|exact Ht]|destruct Ht].
Qed.


(** ** A query that the contract refuses *)

(** A search whose query is too long takes the place of the running one, is refused, and stays in the
    slot: the running search comes back as stale although no newer search is active, and cancelling the
    refused one reports that it was in flight. *)
Definition long_query (n : nat) : string := string_of_list_ascii (replicate n "x"%char).
Definition refused_run : list client_event :=
  [CallsSearch CatalogQuery "q-1" "report"; TakesTurn 0 answers; TakesTurn 0 answers;
   CallsSearch CatalogQuery "q-2" (long_query 1025); TakesTurn 1 answers; TakesTurn 1 answers;
   TakesTurn 0 answers; TakesTurn 0 answers].
Theorem refused_search_keeps_slot :
  let s := client_run refused_run new_client in
  (se_stage <$> dc_calls s) =
    [Returned (Err stale_response);
     Returned (Err (MkDesktopClientError DesktopInvalidRequest "Search request violates the public Agent contract"))]
  ∧ active_search s = Some ("q-2", 1) ∧ (desktop_cancel "q-2" s).1 = true.
Proof. vm_compute. split; [|split]; reflexivity. Qed.
