(* ===== verification/Pipe.v ===== *)
(** The local transport ([crates/local-transport/src/windows_pipe.rs]): one authenticated exchange of
    bounded frames over a named pipe.

    An endpoint is a program that connects, reads exactly so many bytes or writes all of some; the loops
    of [read_exact] and [write_all] take turns, and at each turn the clock, the caller and the operating
    system decide whether it is cancelled, late, waiting, failing, or how many bytes are transferred.
    The two directions of the pipe are queues of bytes, and the turns of both ends are interleaved. *)
From Stdlib Require Import Ascii String.
From stdpp Require Import base strings numbers list.
From S2P Require Import Prelude Ids Models GraphDomain Frames Agent.

Definition RESPONSE_ACK : N := 172.
Definition MAX_TRANSPORT_FRAME_BYTES : N := 1048576.

Inductive TransportFrameError := TooLarge | Incomplete.
Inductive WindowsPipeError :=
| PipeIo (operation : string) (code : Z)
| PipeFrame (e : TransportFrameError)
| PipeUnauthorized
| PipeDeadlineExceeded
| PipeCancelled
| PipeInvalidEndpoint
| PipeProtocol (message : string).

(** ** Checks *)

Definition validate_pipe_name (pipe_name : string) : result WindowsPipeError unit :=
  ensure ((String.prefix "\\.\pipe\LocalSearch\Agent\v1\" pipe_name || String.prefix "\\.\pipe\LocalSearch\WinFS\v1\" pipe_name)
          && (String.length pipe_name <=? 256) && negb (bool_decide (zero ∈ list_ascii_of_string pipe_name)))
    PipeInvalidEndpoint.

(** The identity that [bind_authorized_logon_sid] accepts. *)
Definition validate_logon_sid (sid : string) : result WindowsPipeError unit :=
  ensure (negb (String.length sid =? 0) && (String.length sid <=? 184)
          && forallb (λ c, negb (bool_decide (c ∈ [zero; ")"%char; "("%char]))) (list_ascii_of_string sid)) PipeInvalidEndpoint.

Definition validate_encoded_frame (frame : list N) : result WindowsPipeError unit :=
  ensure (4 <=? length frame) (PipeFrame Incomplete) ;;
  let length := from_le_bytes (take 4 frame) in
  ensure (length <=? MAX_TRANSPORT_FRAME_BYTES)%N (PipeFrame TooLarge) ;;
  ensure (N.of_nat (List.length frame - 4) =? length)%N (PipeFrame Incomplete).

(** What the operating system says of the client: impersonation fails, its identity cannot be read, or
    its identity. *)
Definition verify_client_logon_sid (identity : result WindowsPipeError string) (expected : string) : result WindowsPipeError unit :=
  actual ← identity; ensure (bool_decide (actual = expected)) PipeUnauthorized.

(** ** Endpoints *)

Inductive endpoint (R : Type) :=
| Finished (r : result WindowsPipeError R)
| Connecting (as_client : bool) (k : endpoint R)
| ReadExact (missing : nat) (got : list N) (k : list N → endpoint R)
| WriteAll (rest : list N) (k : endpoint R).
Arguments Finished {R} r.
Arguments Connecting {R} as_client k.
Arguments ReadExact {R} missing got k.
Arguments WriteAll {R} rest k.

Definition read_frame {R} (k : list N → endpoint R) : endpoint R :=
  ReadExact 4 [] (λ prefix,
    let length := from_le_bytes prefix in
    if (MAX_TRANSPORT_FRAME_BYTES <? length)%N then Finished (Err (PipeFrame TooLarge))
    else ReadExact (N.to_nat length) prefix k).

(** [serve_frame_cancellable]. *)
Definition serve_frame_cancellable (identity : result WindowsPipeError string) (logon_sid : string)
  (handler : list N → result WindowsPipeError (list N)) : endpoint unit :=
  Connecting false (read_frame (λ frame,
    match (verify_client_logon_sid identity logon_sid ;; encoded ← handler frame; validate_encoded_frame encoded ;; mret encoded) with
    | Err e => Finished (Err e)
    | Ok encoded =>
        WriteAll encoded (ReadExact 1 [] (λ acknowledgement,
          Finished (if bool_decide (acknowledgement = [RESPONSE_ACK]) then Ok tt else Err (PipeFrame Incomplete))))
    end)).

(** [round_trip_frame_cancellable]. *)
Definition round_trip_frame_cancellable (pipe_name : string) (encoded : list N) : endpoint (list N) :=
  match (validate_pipe_name pipe_name ;; validate_encoded_frame encoded) with
  | Err e => Finished (Err e)
  | Ok _ => Connecting true (WriteAll encoded (read_frame (λ frame, WriteAll [RESPONSE_ACK] (Finished (Ok frame)))))
  end.

(** ** Turns *)

(** What a native call answers: so many bytes (a connection is there), nothing yet, a failure; or the
    mode of a new client handle cannot be set. *)
Inductive os_answer := Transfers (bytes : nat) | NotYet | Fails (code : Z) | ModeFails (code : Z).
Record pipe_turn := MkPipeTurn { pt_cancelled : bool; pt_late : bool; pt_answer : os_answer }.

Definition check_transport (t : pipe_turn) : result WindowsPipeError unit :=
  if pt_cancelled t then Err PipeCancelled else if pt_late t then Err PipeDeadlineExceeded else Ok tt.

(** Loops whose buffer is empty are over. *)
Fixpoint settle {R} (p : endpoint R) : endpoint R :=
  match p with
  | ReadExact 0 got k => settle (k got)
  | WriteAll [] k => settle k
  | _ => p
  end.

(** One round of the loop an endpoint is in: the endpoint, what it has read from and written to the pipe. *)
Definition endpoint_turn {R} (t : pipe_turn) (p : endpoint R) (incoming : list N) : endpoint R * list N * list N :=
  match settle p with
  | Finished r => (Finished r, incoming, [])
  | q =>
      match check_transport t with
      | Err e => (Finished (Err e), incoming, [])
      | Ok _ =>
          match q, pt_answer t with
          | Connecting _ k, Transfers _ => (k, incoming, [])
          | Connecting true _, Fails code => (Finished (Err (PipeIo "connect_pipe" code)), incoming, [])
          | Connecting true _, ModeFails code => (Finished (Err (PipeIo "set_client_pipe_mode" code)), incoming, [])
          | Connecting false _, (Fails code | ModeFails code) =>
              (Finished (Err (PipeIo "accept_pipe_client" code)), incoming, [])
          | ReadExact missing got k, Transfers bytes =>
              let count := Nat.min bytes missing in
              (ReadExact (missing - length (take count incoming)) (got ++ take count incoming) k, drop count incoming, [])
          | ReadExact _ _ _, (Fails code | ModeFails code) => (Finished (Err (PipeIo "read_pipe" code)), incoming, [])
          | WriteAll rest k, Transfers bytes => (WriteAll (drop bytes rest) k, incoming, take bytes rest)
          | WriteAll _ _, (Fails code | ModeFails code) => (Finished (Err (PipeIo "write_pipe" code)), incoming, [])
          | q, _ => (q, incoming, [])
          end
      end
  end.

(** Both ends and the bytes under way. *)
Record exchange := MkExchange {
  ex_client : endpoint (list N);
  ex_server : endpoint unit;
  ex_to_server : list N;
  ex_to_client : list N }.

Inductive exchange_event := ClientTurn (t : pipe_turn) | ServerTurn (t : pipe_turn).

Definition exchange_step (x : exchange) (e : exchange_event) : exchange :=
  match e with
  | ClientTurn t =>
      let '(p, incoming, written) := endpoint_turn t (ex_client x) (ex_to_client x) in
      MkExchange p (ex_server x) (ex_to_server x ++ written) incoming
  | ServerTurn t =>
      let '(p, incoming, written) := endpoint_turn t (ex_server x) (ex_to_server x) in
      MkExchange (ex_client x) p incoming (ex_to_client x ++ written)
  end.
Definition exchange_run (es : list exchange_event) (x : exchange) : exchange := foldl exchange_step x es.

(** ** Requests of the agent *)

Section agent_wire.
Context (request_to_json : AgentRequest → list N) (request_from_json : list N → option AgentRequest).
Context (response_to_json : AgentResponse → list N) (response_from_json : list N → option AgentResponse).

(** The handler that [serve_one] puts around the service. *)
Definition serve_one (handler : AgentRequest → AgentResponse) (frame : list N) : result WindowsPipeError (list N) :=
  request ← map_err (λ _, PipeProtocol "Agent request frame rejected") (decode_frame request_from_json frame);
  map_err (λ _, PipeProtocol "Agent response encoding failed") (encode_frame response_to_json (handler request)).

(** [round_trip_cancellable]: the endpoint, and what is made of its frame. *)
Definition round_trip_cancellable (pipe_name : string) (request : AgentRequest) : endpoint (list N) :=
  match encode_frame request_to_json request with
  | Err _ => Finished (Err (PipeProtocol "Agent request encoding failed"))
  | Ok encoded => round_trip_frame_cancellable pipe_name encoded
  end.
Definition round_trip_response (frame : result WindowsPipeError (list N)) : result WindowsPipeError AgentResponse :=
  frame ← frame;
  response ← map_err (λ _, PipeProtocol "Agent response frame rejected") (decode_frame response_from_json frame);
  map_err (λ _, PipeProtocol "Agent response contract rejected") (AgentResponse_validate response) ;; mret response.
End agent_wire.
