(* ===== verification/PipeSpec.v ===== *)
(** What the local transport guarantees: however the turns of both ends are interleaved and the bytes are
    cut, a client that gets a frame gets the answer of the handler to the frame it sent, from a server
    that verified it; and without failures both ends finish.

    An endpoint is a function from the bytes it is fed to the bytes it writes ([feed]), and a run of both
    ends cuts that function into pieces; so the outcome does not depend on the interleaving. *)
From Stdlib Require Import Ascii String.
From stdpp Require Import base strings numbers list.
From S2P Require Import Prelude Ids Models GraphDomain Frames Agent Pipe.

(** What becomes of an endpoint that is fed bytes and meets no failure: the endpoint, what it wrote, and
    the bytes it left. *)
Fixpoint feed {R} (p : endpoint R) (input : list N) : endpoint R * list N * list N :=
  match p with
  | Finished r => (Finished r, [], input)
  | Connecting _ k => feed k input
  | ReadExact missing got k =>
      if length input <? missing then (ReadExact (missing - length input) (got ++ input) k, [], [])
      else feed (k (got ++ take missing input)) (drop missing input)
  | WriteAll rest k => let '(q, out, left_over) := feed k input in (q, rest ++ out, left_over)
  end.
Abbreviation fed p input := (feed p input).1.1.
Abbreviation output p input := (feed p input).1.2.
Abbreviation unread p input := (feed p input).2.

(** Feeding in two portions. *)
Lemma feed_portions {R} (p : endpoint R) x y :
  feed p (x ++ y) = (fed (fed p x) (unread p x ++ y), output p x ++ output (fed p x) (unread p x ++ y), unread (fed p x) (unread p x ++ y)).
Proof.
  revert x. induction p as [r|b k IH|missing got k IH|rest k IH]; intros x; simpl.
  - done.
  - apply IH.
  - destruct (Nat.ltb_spec (length x) missing) as [Hlt|Hge]; simpl.
    + rewrite length_app. destruct (Nat.ltb_spec (length x + length y) missing), (Nat.ltb_spec (length y) (missing - length x)); try lia; simpl.
      * f_equal. f_equal. f_equal; [lia|by rewrite app_assoc].
      * rewrite take_app_ge, drop_app_ge, app_assoc by lia. by rewrite <-!surjective_pairing.
    + rewrite length_app. destruct (Nat.ltb_spec (length x + length y) missing); [lia|].
      rewrite take_app_le, drop_app_le by lia. apply IH.
  - specialize (IH x). destruct (feed k x) as [[q o] l]. rewrite IH. simpl. destruct (feed q (l ++ y)) as [[q' o'] l']. simpl.
    by rewrite app_assoc.
Qed.

Lemma feed_settle {R} (p : endpoint R) input : feed (settle p) input = feed p input.
Proof.
  induction p as [r|b k IH|[|missing] got k IH|[|byte rest] k IH]; simpl; try done.
  - rewrite IH. by rewrite take_0, drop_0, app_nil_r.
  - rewrite IH. by destruct (feed k input) as [[q o] l].
Qed.

Definition failed {R} (p : endpoint R) : Prop := ∃ e, p = Finished (Err e).

(** Reading a part of what is missing. *)
Lemma feed_read {R} missing got (k : list N → endpoint R) count input : count ≤ missing →
  feed (ReadExact missing got k) input =
  feed (ReadExact (missing - length (take count input)) (got ++ take count input) k) (drop count input).
Proof.
  intros Hc. simpl. rewrite length_take, length_drop.
  destruct (Nat.ltb_spec (length input) missing), (Nat.ltb_spec (length input - count) (missing - Nat.min count (length input))); try lia.
  - rewrite <-app_assoc, take_drop. f_equal. f_equal. f_equal. lia.
  - rewrite Nat.min_l by lia. rewrite <-app_assoc, drop_drop.
    replace (count + (missing - count)) with missing by lia. f_equal. f_equal. f_equal.
    rewrite <-(take_drop count (take missing input)) at 1. rewrite take_take, Nat.min_l by lia. f_equal. apply skipn_firstn_comm.
Qed.

(** A turn fails, or does a piece of what feeding does. *)
Lemma turn_feeds {R} t (p : endpoint R) incoming :
  let '(q, incoming', written) := endpoint_turn t p incoming in
  failed q ∧ written = [] ∧ incoming' = incoming
  ∨ feed p incoming = (fed q incoming', written ++ output q incoming', unread q incoming').
Proof.
  unfold endpoint_turn. rewrite <-(feed_settle p).
  assert (∀ q : endpoint R, feed q incoming = (fed q incoming, [] ++ output q incoming, unread q incoming)) as Hsame.
  { intros q. by rewrite <-!surjective_pairing. }
  assert (∀ e, failed (Finished (R := R) (Err e))) as Hfail by (intros e; by eexists).
  destruct (settle p) as [r|b k|missing got k|rest k] eqn:Hset; [by right|..];
    (destruct (check_transport t); [|left; by split]); destruct (pt_answer t) as [bytes| |code|code];
    try (left; by split); try (right; apply Hsame); try (destruct b; (left; by split) || (right; apply Hsame)).
  - destruct b; right; exact (Hsame k).
  - right. rewrite (feed_read missing got k (Nat.min bytes missing)) by lia. by rewrite <-!surjective_pairing.
  - right. simpl. destruct (feed k incoming) as [[q o] l]. simpl. by rewrite app_assoc, take_drop.
Qed.

(** ** Runs *)

(** The pieces that both ends have done so far, [sent] and [answered] all the bytes that they wrote: an
    endpoint that has not failed is where feeding it leads, a failed one stopped on the way. *)
Definition piece {R} (p0 p : endpoint R) (input queue out : list N) : Prop :=
  ∃ q, (p = q ∨ failed p) ∧ feed p0 input = (fed q queue, out ++ output q queue, unread q queue).

Lemma piece_turn {R} t (p0 p : endpoint R) input queue out :
  piece p0 p input queue out →
  let '(p', queue', written) := endpoint_turn t p queue in piece p0 p' input queue' (out ++ written).
Proof.
  intros (q & [->|[e ->]] & Hf).
  - pose proof (turn_feeds t q queue) as Ht. destruct (endpoint_turn t q queue) as [[p' queue'] written].
    destruct Ht as [(Hfail & -> & ->)|Ht].
    + exists q. rewrite app_nil_r. split; [by right|done].
    + exists p'. split; [by left|]. rewrite Hf, Ht. simpl. by rewrite app_assoc.
  - simpl. exists q. rewrite app_nil_r. split; [right; by eexists|done].
Qed.

Lemma piece_more {R} (p0 p : endpoint R) input queue out more :
  piece p0 p input queue out → piece p0 p (input ++ more) (queue ++ more) out.
Proof.
  intros (q & Hp & Hf). exists q. split; [done|]. rewrite feed_portions, Hf. simpl. rewrite (feed_portions q queue more). simpl.
  by rewrite app_assoc.
Qed.

Definition exchanging (x0 x : exchange) (sent answered : list N) : Prop :=
  piece (ex_client x0) (ex_client x) answered (ex_to_client x) sent ∧ piece (ex_server x0) (ex_server x) sent (ex_to_server x) answered.

Lemma exchanging_step x0 x sent answered e : exchanging x0 x sent answered →
  ∃ sent' answered', exchanging x0 (exchange_step x e) sent' answered'.
Proof.
  intros [Hc Hs]. destruct e as [t|t]; simpl.
  - apply (piece_turn t) in Hc. destruct (endpoint_turn t _ _) as [[p queue] written].
    exists (sent ++ written), answered. split; [done|]. by apply piece_more.
  - apply (piece_turn t) in Hs. destruct (endpoint_turn t _ _) as [[p queue] written].
    exists sent, (answered ++ written). split; [|done]. by apply piece_more.
Qed.

Definition start (client : endpoint (list N)) (server : endpoint unit) : exchange := MkExchange client server [] [].

Lemma exchanging_run es client server : ∃ sent answered, exchanging (start client server) (exchange_run es (start client server)) sent answered.
Proof.
  assert (∀ x sent answered, exchanging (start client server) x sent answered →
    ∃ sent' answered', exchanging (start client server) (exchange_run es x) sent' answered') as Hrun.
  { induction es as [|e es IH]; intros x sent answered Hx; [by eauto|]. simpl.
    destruct (exchanging_step _ _ _ _ e Hx) as (s' & a' & Hx'). by eapply IH. }
  apply (Hrun _ [] []). split; (eexists; split; [by left|]; simpl; by rewrite <-!surjective_pairing).
Qed.

(** ** Frames *)

Definition frame_ok (frame : list N) : Prop := validate_encoded_frame frame = Ok tt.

Lemma frame_ok_iff frame :
  frame_ok frame ↔ 4 ≤ length frame ∧ (from_le_bytes (take 4 frame) ≤ MAX_TRANSPORT_FRAME_BYTES)%N
    ∧ N.of_nat (length frame - 4) = from_le_bytes (take 4 frame).
Proof.
  unfold frame_ok, validate_encoded_frame. rewrite !ensure_bind, ensure_Ok, Nat.leb_le, N.leb_le, N.eqb_eq. naive_solver.
Qed.

(** The prefix of a frame says where it ends. *)
Lemma frame_prefix_unique f1 f2 l : frame_ok f1 → frame_ok f2 → f1 `prefix_of` l → f2 `prefix_of` l → f1 = f2.
Proof.
  intros (H1 & _ & Hl1)%frame_ok_iff (H2 & _ & Hl2)%frame_ok_iff [r1 ->] [r2 Heq].
  assert (take 4 f1 = take 4 f2) as Ht.
  { rewrite <-(take_app_le f1 r1), Heq, take_app_le by lia. done. }
  rewrite Ht, <-Hl2 in Hl1. apply (app_inj_1 f1 f2 r1 r2); [lia|done].
Qed.

(** What reading a frame makes of its input: not enough yet, refused, or a frame and the rest. *)
Lemma feed_read_frame {R} (k : list N → endpoint R) input :
  (∃ missing got k', feed (read_frame k) input = (ReadExact (S missing) got k', [], []))
  ∨ fed (read_frame k) input = Finished (Err (PipeFrame TooLarge)) ∧ output (read_frame k) input = []
  ∨ ∃ frame rest, input = frame ++ rest ∧ frame_ok frame ∧ feed (read_frame k) input = feed (k frame) rest.
Proof.
  unfold read_frame. cbn [feed]. destruct (Nat.ltb_spec (length input) 4) as [Hlt|Hge].
  { left. exists (3 - length input). by replace (4 - length input) with (S (3 - length input)) by lia; eauto. }
  rewrite app_nil_l. set (len := from_le_bytes (take 4 input)).
  destruct (N.ltb_spec MAX_TRANSPORT_FRAME_BYTES len) as [Hbig|Hlen]; [right; left; done|]. cbn [feed].
  destruct (Nat.ltb_spec (length (drop 4 input)) (N.to_nat len)) as [Hmore|Henough].
  { left. exists (pred (N.to_nat len - length (drop 4 input))). eexists _, _.
    by replace (S (pred (N.to_nat len - length (drop 4 input)))) with (N.to_nat len - length (drop 4 input)) by lia. }
  right. right. exists (take 4 input ++ take (N.to_nat len) (drop 4 input)), (drop (N.to_nat len) (drop 4 input)).
  rewrite length_drop in Henough. split; [by rewrite <-app_assoc, !take_drop|]. split; [|done]. apply frame_ok_iff.
  rewrite length_app, !length_take, length_drop, take_app_le, take_take by (rewrite length_take; lia). rewrite Nat.min_id. fold len. clearbody len. split_and!; [lia|done|lia].
Qed.

Lemma feed_frame {R} (k : list N → endpoint R) frame rest : frame_ok frame →
  feed (read_frame k) (frame ++ rest) = feed (k frame) rest.
Proof.
  intros (H4 & Hmax & Hlen)%frame_ok_iff. unfold read_frame. cbn [feed]. rewrite length_app.
  destruct (Nat.ltb_spec (length frame + length rest) 4); [lia|]. rewrite app_nil_l, take_app_le by lia.
  destruct (N.ltb_spec MAX_TRANSPORT_FRAME_BYTES (from_le_bytes (take 4 frame))); [lia|]. cbn [feed].
  rewrite drop_app_le by lia. rewrite <-Hlen, Nat2N.id. destruct (Nat.ltb_spec (length (drop 4 frame ++ rest)) (length frame - 4)) as [Hl|_].
  { rewrite length_app, length_drop in Hl. lia. }
  rewrite (take_app_length' (drop 4 frame)), (drop_app_length' (drop 4 frame)) by (rewrite length_drop; lia). by rewrite take_drop.
Qed.

(** ** One exchange *)

Section exchange.
Context (pipe_name : string) (request : list N).
Context (identity : result WindowsPipeError string) (logon_sid : string) (handler : list N → result WindowsPipeError (list N)).
Context (Hname : validate_pipe_name pipe_name = Ok tt) (Hrequest : frame_ok request).

Definition the_client : endpoint (list N) := round_trip_frame_cancellable pipe_name request.
Definition the_server : endpoint unit := serve_frame_cancellable identity logon_sid handler.
(** What the server answers to a frame. *)
Definition reply (frame : list N) : result WindowsPipeError (list N) :=
  verify_client_logon_sid identity logon_sid ;; encoded ← handler frame; validate_encoded_frame encoded ;; mret encoded.

Lemma reply_Ok frame encoded : reply frame = Ok encoded ↔
  verify_client_logon_sid identity logon_sid = Ok tt ∧ handler frame = Ok encoded ∧ frame_ok encoded.
Proof.
  unfold reply, frame_ok. split.
  - intros ([] & Hv & H)%result_bind_Ok. apply result_bind_Ok in H as (e & He & H). apply result_bind_Ok in H as ([] & Hf & [= <-]). done.
  - intros (Hv & Hh & Hf). rewrite Hv. simpl. rewrite Hh. simpl. by rewrite Hf.
Qed.

(** The client fed with bytes: it has written its request, and with a frame it acknowledges it. *)
Lemma client_fed input :
  (output the_client input = request ∧ ∀ frame, fed the_client input ≠ Finished (Ok frame))
  ∨ ∃ frame rest, input = frame ++ rest ∧ frame_ok frame ∧
      feed the_client input = (Finished (Ok frame), request ++ [RESPONSE_ACK], rest).
Proof.
  unfold the_client, round_trip_frame_cancellable. rewrite Hname. change (Ok () ≫= λ _, ?x) with x. rewrite Hrequest. cbn [feed].
  destruct (feed_read_frame (λ frame, WriteAll [RESPONSE_ACK] (Finished (Ok frame))) input)
    as [(missing & got & k & ->)|[[Hf Ho]|(frame & rest & -> & Hok & ->)]].
  - left. by rewrite app_nil_r.
  - left. destruct (feed _ input) as [[q o] l]. simpl in *. subst. by rewrite app_nil_r.
  - right. by exists frame, rest.
Qed.

(** The server fed with bytes: it writes the reply to the first frame, or nothing. *)
Lemma server_fed input :
  output the_server input = [] ∧ fed the_server input ≠ Finished (Ok tt)
  ∨ ∃ frame rest encoded, input = frame ++ rest ∧ frame_ok frame ∧ reply frame = Ok encoded ∧ output the_server input = encoded.
Proof.
  unfold the_server, serve_frame_cancellable. cbn [feed].
  match goal with |- context [read_frame ?k] => destruct (feed_read_frame k input)
    as [(missing & got & k' & ->)|[[Hf Ho]|(frame & rest & -> & Hok & ->)]] end.
  - by left.
  - left. by rewrite Hf, Ho.
  - fold (reply frame). destruct (reply frame) as [encoded|e] eqn:Hr; [|by left]. right. exists frame, rest, encoded.
    split_and!; [done|done|done|]. cbn [feed]. destruct (length rest <? 1); simpl; by rewrite app_nil_r.
Qed.

Lemma client_writes sent answered queue p : piece the_client p answered queue sent → sent `prefix_of` request ++ [RESPONSE_ACK].
Proof.
  intros (q & _ & Hf). assert (sent `prefix_of` output the_client answered) as Hp by (rewrite Hf; simpl; by eexists).
  destruct (client_fed answered) as [[Ho _]|(frame & rest & _ & _ & Hfe)]; [rewrite Ho in Hp|by rewrite Hfe in Hp].
  etransitivity; [exact Hp|by eexists].
Qed.

Lemma server_writes sent answered queue p : sent `prefix_of` request ++ [RESPONSE_ACK] → piece the_server p sent queue answered →
  answered = [] ∨ ∃ encoded, reply request = Ok encoded ∧ answered `prefix_of` encoded.
Proof.
  intros Hsent (q & _ & Hf). assert (answered `prefix_of` output the_server sent) as Hp by (rewrite Hf; simpl; by eexists).
  destruct (server_fed sent) as [[Ho _]|(frame & rest & encoded & -> & Hok & Hr & Ho)]; rewrite Ho in Hp.
  - left. by apply prefix_nil_inv.
  - right. exists encoded. split; [|done].
    by rewrite (frame_prefix_unique request frame (request ++ [RESPONSE_ACK])) by (done || (etransitivity; [|exact Hsent]; by eexists) || by eexists).
Qed.

(** One exact exchange: however the turns of both ends are interleaved, cut, delayed or failing, a
    client that returns a frame returns the answer of the handler to exactly the frame that it sent, from
    a server that verified its identity, and a server that succeeds has answered that frame. *)
Theorem exchange_exact es :
  let x := exchange_run es (start the_client the_server) in
  (∀ frame, settle (ex_client x) = Finished (Ok frame) →
     verify_client_logon_sid identity logon_sid = Ok tt ∧ handler request = Ok frame ∧ frame_ok frame)
  ∧ (settle (ex_server x) = Finished (Ok tt) →
     verify_client_logon_sid identity logon_sid = Ok tt ∧ ∃ frame, handler request = Ok frame ∧ frame_ok frame).
Proof.
  intros x. destruct (exchanging_run es the_client the_server) as (sent & answered & Hc & Hs). fold x in Hc, Hs. simpl in Hc, Hs.
  pose proof (client_writes _ _ _ _ Hc) as Hsent. pose proof (server_writes _ _ _ _ Hsent Hs) as Hans. split.
  - intros frame Hf. destruct Hc as (q & [Hq|[e He]] & Hfeed); [|by rewrite He in Hf].
    assert (feed q (ex_to_client x) = (Finished (Ok frame), [], ex_to_client x)) as Hq' by (by rewrite <-feed_settle, <-Hq, Hf).
    rewrite Hq' in Hfeed. destruct (client_fed answered) as [[_ Hno]|(f & rest & -> & Hok & Hfe)]; [by rewrite Hfeed in Hno; destruct (Hno frame)|].
    rewrite Hfe in Hfeed. injection Hfeed as -> _ _.
    destruct Hans as [Hnil|(encoded & (Hv & Hh & Hok')%reply_Ok & Hpre)]; [apply frame_ok_iff in Hok; destruct frame; simpl in *; [lia|done]|].
    assert (frame = encoded) as ->.
    { apply (frame_prefix_unique frame encoded encoded); [done|done| |done]. etransitivity; [|exact Hpre]. by eexists. }
    done.
  - intros Hf. destruct Hs as (q & [Hq|[e He]] & Hfeed); [|by rewrite He in Hf].
    assert (feed q (ex_to_server x) = (Finished (Ok tt), [], ex_to_server x)) as Hq' by (by rewrite <-feed_settle, <-Hq, Hf).
    rewrite Hq' in Hfeed. destruct (server_fed sent) as [[_ Hno]|(f & rest & encoded & -> & Hok & Hr & _)]; [by rewrite Hfeed in Hno|].
    assert (f = request) as -> by (apply (frame_prefix_unique f request (request ++ [RESPONSE_ACK])); [done|done| |by eexists];
      etransitivity; [|exact Hsent]; by eexists).
    apply reply_Ok in Hr as (Hv & Hh & Hok'). split; [done|]. by exists encoded.
Qed.

(** ** Progress *)

(** A turn that is not cancelled, not late, and transfers something if there is something. *)
Definition productive (t : pipe_turn) : Prop :=
  pt_cancelled t = false ∧ pt_late t = false ∧ ∃ bytes, pt_answer t = Transfers (S bytes).

(** The endpoint can do nothing: it is finished, or it waits for bytes that are not there. *)
Definition idle {R} (p : endpoint R) (queue : list N) : Prop :=
  (∃ r, settle p = Finished r) ∨ ∃ missing got k, settle p = ReadExact (S missing) got k ∧ queue = [].

(** Endpoints that connect at most once, at the beginning. *)
Fixpoint no_connect {R} (p : endpoint R) : Prop :=
  match p with
  | Finished _ => True
  | Connecting _ _ => False
  | ReadExact _ _ k => ∀ got, no_connect (k got)
  | WriteAll _ k => no_connect k
  end.
Definition ready {R} (p : endpoint R) : Prop := match p with Connecting _ k => no_connect k | _ => no_connect p end.
Definition connects {R} (p : endpoint R) : nat := match p with Connecting _ _ => 1 | _ => 0 end.

Lemma no_connect_ready {R} (p : endpoint R) : no_connect p → ready p ∧ connects p = 0.
Proof. by destruct p. Qed.

Lemma settle_no_connect {R} (p : endpoint R) : no_connect p →
  (∃ r, settle p = Finished r) ∨ (∃ missing got k, settle p = ReadExact (S missing) got k ∧ ∀ got, no_connect (k got))
  ∨ ∃ byte rest k, settle p = WriteAll (byte :: rest) k ∧ no_connect k.
Proof. induction p as [r|b k IH|[|missing] got k IH|[|byte rest] k IH]; simpl; intros H; try done; eauto 8. Qed.

(** A productive turn does a piece of what feeding does; if the endpoint is not idle, it transfers or
    connects. *)
Lemma productive_turn {R} t (p : endpoint R) queue : productive t → ready p →
  let '(q, queue', written) := endpoint_turn t p queue in
  feed p queue = (fed q queue', written ++ output q queue', unread q queue') ∧ ready q ∧ connects q ≤ connects p
  ∧ (idle p queue ∧ settle q = settle p ∧ queue' = queue ∧ written = []
     ∨ length queue' + connects q < length queue + connects p + length written) ∧ length queue' ≤ length queue.
Proof.
  intros (Hc & Hl & bytes & Ha) Hready. unfold endpoint_turn, check_transport. rewrite Hc, Hl, Ha, <-(feed_settle p).
  assert (∀ q : endpoint R, feed q queue = (fed q queue, [] ++ output q queue, unread q queue)) as Hsame.
  { intros q. by rewrite <-!surjective_pairing. }
  destruct (decide (connects p = 0)) as [Hp|Hp].
  - assert (no_connect p) as Hno by (by destruct p).
    destruct (settle_no_connect p Hno) as [[r Hs]|[(missing & got & k & Hs & Hk)|(byte & rest & k & Hs & Hk)]]; rewrite Hs.
    + split; [done|]. split; [done|]. split; [simpl; lia|]. split; [left|lia]. split; [left; by eexists|done].
    + split; [rewrite (feed_read (S missing) got k (Nat.min (S bytes) (S missing))) by lia; by rewrite <-!surjective_pairing|].
      split; [done|]. split; [simpl; lia|]. rewrite length_drop. split; [|lia]. destruct queue as [|c queue].
      * left. split; [right; by eexists _, _, _|]. rewrite take_nil, drop_nil. simpl. by rewrite app_nil_r.
      * right. simpl. lia.
    + split; [simpl; destruct (feed k queue) as [[q o] l]; simpl; by rewrite app_assoc, take_drop|].
      split; [done|]. split; [simpl; lia|]. split; [right; simpl; lia|lia].
  - destruct p as [|b k| |]; [done| |done|done]. simpl in Hready. destruct (no_connect_ready k Hready) as [Hr Hk].
    assert ((if b then (k, queue, @nil N) else (k, queue, [])) = (k, queue, [])) as Hb by (by destruct b).
    cbn [settle]. rewrite Hb. split; [exact (Hsame k)|]. split; [done|]. simpl. rewrite Hk. split; [lia|]. split; [right; lia|lia].
Qed.

(** Where the pieces of an exchange without failures are. *)
Definition track {R} (p0 p : endpoint R) (input queue out : list N) : Prop :=
  feed p0 input = (fed p queue, out ++ output p queue, unread p queue).

Definition tracking (x : exchange) (sent answered : list N) : Prop :=
  (track the_client (ex_client x) answered (ex_to_client x) sent ∧ ready (ex_client x))
  ∧ track the_server (ex_server x) sent (ex_to_server x) answered ∧ ready (ex_server x).

Lemma track_piece {R} (p0 p : endpoint R) input queue out : track p0 p input queue out → piece p0 p input queue out.
Proof. intros H. exists p. split; [by left|done]. Qed.
Lemma track_more {R} (p0 p : endpoint R) input queue out more :
  track p0 p input queue out → track p0 p (input ++ more) (queue ++ more) out.
Proof.
  unfold track. intros Hf. rewrite feed_portions, Hf. simpl. rewrite (feed_portions p queue more). simpl. by rewrite app_assoc.
Qed.

Lemma idle_fed {R} (p : endpoint R) queue : idle p queue → fed p queue = settle p ∧ output p queue = [].
Proof.
  intros [[r Hs]|(missing & got & k & Hs & ->)]; rewrite <-feed_settle, Hs; simpl; [done|]. by rewrite app_nil_r.
Qed.

Context (answer : list N) (Hreply : reply request = Ok answer).

(** What is left to do. *)
Definition work (x : exchange) (sent answered : list N) : nat :=
  2 * (length request + 1 - length sent) + 2 * (length answer - length answered)
  + length (ex_to_server x) + length (ex_to_client x) + connects (ex_client x) + connects (ex_server x).

Lemma tracking_bounds x sent answered : tracking x sent answered →
  length sent ≤ length request + 1 ∧ length answered ≤ length answer.
Proof.
  intros [[Hc _] [Hs _]]. pose proof (client_writes _ _ _ _ (track_piece _ _ _ _ _ Hc)) as Hsent.
  pose proof (server_writes _ _ _ _ Hsent (track_piece _ _ _ _ _ Hs)) as Hans.
  apply prefix_length in Hsent. rewrite length_app in Hsent. simpl in Hsent. split; [done|].
  destruct Hans as [->|(e & He & Hp)]; [simpl; lia|]. rewrite Hreply in He. injection He as <-. by apply prefix_length.
Qed.

(** When both ends are idle, both are done. *)
Lemma idle_done x sent answered : tracking x sent answered → idle (ex_client x) (ex_to_client x) → idle (ex_server x) (ex_to_server x) →
  settle (ex_client x) = Finished (Ok answer) ∧ settle (ex_server x) = Finished (Ok tt).
Proof.
  intros [[Hc _] [Hs _]] Hic His. unfold track in Hc, Hs. destruct (idle_fed _ _ Hic) as [Hfc Hoc]. destruct (idle_fed _ _ His) as [Hfs Hos].
  rewrite Hfc, Hoc, app_nil_r in Hc. rewrite Hfs, Hos, app_nil_r in Hs.
  assert (frame_ok answer) as Hans by (by apply reply_Ok in Hreply as (_ & _ & ?)).
  assert (∀ rest, feed the_server (request ++ rest) = feed (WriteAll answer (ReadExact 1 [] (λ acknowledgement,
    Finished (if bool_decide (acknowledgement = [RESPONSE_ACK]) then Ok tt else Err (PipeFrame Incomplete))))) rest) as Hserve.
  { intros rest. unfold the_server, serve_frame_cancellable. cbn [feed]. rewrite feed_frame by done. fold (reply request). by rewrite Hreply. }
  assert (∃ rest, sent = request ++ rest) as [rest Hrest].
  { destruct (client_fed answered) as [[Ho _]|(f & r & _ & _ & Hfe)].
    - rewrite Hc in Ho. exists []. by rewrite app_nil_r.
    - rewrite Hfe in Hc. injection Hc as _ <- _. by eexists. }
  assert (answered = answer) as ->.
  { rewrite Hrest, Hserve in Hs. cbn [feed] in Hs. destruct (length rest <? 1); simpl in Hs; injection Hs as _ <- _; by rewrite app_nil_r. }
  assert (feed the_client answer = (Finished (Ok answer), request ++ [RESPONSE_ACK], [])) as Hfin.
  { unfold the_client, round_trip_frame_cancellable. rewrite Hname. change (Ok () ≫= λ _, ?x) with x. rewrite Hrequest. cbn [feed].
    pose proof (feed_frame (λ frame, WriteAll [RESPONSE_ACK] (Finished (Ok frame))) answer [] Hans) as Hff. rewrite app_nil_r in Hff. by rewrite Hff. }
  rewrite Hfin in Hc. injection Hc as Hcl Hsent _. rewrite <-Hsent, Hserve in Hs. injection Hs as Hsv _ _. split; [done|]. by rewrite <-Hsv.
Qed.

Definition both_done (x : exchange) : Prop := settle (ex_client x) = Finished (Ok answer) ∧ settle (ex_server x) = Finished (Ok tt).

Lemma turn_finished {R} t (p : endpoint R) queue r : settle p = Finished r → endpoint_turn t p queue = (Finished r, queue, []).
Proof. intros Hs. unfold endpoint_turn. by rewrite Hs. Qed.

Lemma both_done_step x e : both_done x → both_done (exchange_step x e).
Proof.
  intros [Hc Hs]. destruct e as [t|t]; simpl; [rewrite (turn_finished t _ _ _ Hc)|rewrite (turn_finished t _ _ _ Hs)]; by split.
Qed.

(** A productive turn of one end gets work done, or the end is idle and nothing changes. *)
Lemma client_turn_works x sent answered t : tracking x sent answered → productive t →
  let x' := exchange_step x (ClientTurn t) in
  ∃ sent', tracking x' sent' answered ∧
    (work x' sent' answered < work x sent answered
     ∨ work x' sent' answered ≤ work x sent answered ∧ idle (ex_client x) (ex_to_client x)
       ∧ settle (ex_client x') = settle (ex_client x) ∧ ex_to_client x' = ex_to_client x).
Proof.
  intros Htr Ht. pose proof Htr as [[Hc Hrc] [Hs Hrs]]. simpl. pose proof (productive_turn t (ex_client x) (ex_to_client x) Ht Hrc) as Hp.
  destruct (endpoint_turn t _ _) as [[q queue] written]. destruct Hp as (Hfeed & Hq & Hcon & Hprog & Hqueue).
  set (x' := MkExchange _ _ _ _). exists (sent ++ written).
  assert (tracking x' (sent ++ written) answered) as Htr'.
  { split; (split; [|done]); [|by apply track_more]. unfold track in *. rewrite Hc, Hfeed. simpl. by rewrite app_assoc. }
  split; [done|]. destruct (tracking_bounds _ _ _ Htr') as [Hb _]. rewrite length_app in Hb. unfold work, x'. simpl.
  destruct Hprog as [(Hidle & Hset & -> & ->)|Hlt]; [right; rewrite !app_nil_r; split; [lia|done]|left; rewrite !length_app; lia].
Qed.

Lemma server_turn_works x sent answered t : tracking x sent answered → productive t →
  let x' := exchange_step x (ServerTurn t) in
  ∃ answered', tracking x' sent answered' ∧
    (work x' sent answered' < work x sent answered
     ∨ work x' sent answered' ≤ work x sent answered ∧ idle (ex_server x) (ex_to_server x)
       ∧ settle (ex_server x') = settle (ex_server x)).
Proof.
  intros Htr Ht. pose proof Htr as [[Hc Hrc] [Hs Hrs]]. simpl. pose proof (productive_turn t (ex_server x) (ex_to_server x) Ht Hrs) as Hp.
  destruct (endpoint_turn t _ _) as [[q queue] written]. destruct Hp as (Hfeed & Hq & Hcon & Hprog & Hqueue).
  set (x' := MkExchange _ _ _ _). exists (answered ++ written).
  assert (tracking x' sent (answered ++ written)) as Htr'.
  { split; (split; [|done]); [by apply track_more|]. unfold track in *. rewrite Hs, Hfeed. simpl. by rewrite app_assoc. }
  split; [done|]. destruct (tracking_bounds _ _ _ Htr') as [_ Hb]. rewrite length_app in Hb. unfold work, x'. simpl.
  destruct Hprog as [(Hidle & Hset & -> & ->)|Hlt]; [right; rewrite !app_nil_r; split; [lia|done]|left; rewrite !length_app; lia].
Qed.

(** A round: a turn of the client and a turn of the server. *)
Definition round (x : exchange) (ts : pipe_turn * pipe_turn) : exchange := exchange_run [ClientTurn ts.1; ServerTurn ts.2] x.

Lemma round_works x sent answered ts : tracking x sent answered → productive ts.1 → productive ts.2 →
  both_done (round x ts) ∨ ∃ sent' answered', tracking (round x ts) sent' answered' ∧ work (round x ts) sent' answered' < work x sent answered.
Proof.
  intros Htr H1 H2. destruct (client_turn_works x sent answered ts.1 Htr H1) as (sent' & Htr1 & Hw1).
  set (x1 := exchange_step x (ClientTurn ts.1)) in *. change (round x ts) with (exchange_step x1 (ServerTurn ts.2)).
  destruct (server_turn_works x1 sent' answered ts.2 Htr1 H2) as (answered' & Htr2 & Hw2).
  destruct Hw1 as [Hw1|(Hw1 & Hidle & Hset & Hqueue)]; [right; exists sent', answered'; split; [done|]; destruct Hw2 as [|[? _]]; lia|].
  destruct Hw2 as [Hw2|(Hw2 & Hidle' & Hset')]; [right; exists sent', answered'; split; [done|lia]|]. left. apply both_done_step.
  apply (idle_done x1 sent' answered Htr1); [|done]. unfold idle in *. by rewrite Hset, Hqueue.
Qed.

Lemma rounds_finish n rounds x sent answered :
  tracking x sent answered ∨ both_done x → (both_done x ∨ work x sent answered < n) → n ≤ length rounds →
  Forall (λ ts, productive ts.1 ∧ productive ts.2) rounds → both_done (foldl round x rounds).
Proof.
  revert n x sent answered. induction rounds as [|ts rounds IH]; intros n x sent answered Hx Hn Hlen Hp; simpl.
  { destruct Hn; [done|simpl in Hlen; lia]. }
  apply Forall_cons in Hp as [[H1 H2] Hp].
  assert (both_done x → both_done (foldl round (round x ts) rounds)) as Hdone.
  { intros Hd. apply (IH (length rounds) _ [] []); [right; by repeat apply both_done_step|left; by repeat apply both_done_step|done|done]. }
  destruct Hn as [Hd|Hn]; [by apply Hdone|]. destruct Hx as [Hx|Hd]; [|by apply Hdone].
  destruct (round_works x sent answered ts Hx H1 H2) as [Hd|(s' & a' & Htr & Hw)].
  - apply (IH (length rounds) _ [] []); [by right|by left|done|done].
  - apply (IH (pred n) _ s' a'); [by left|right; lia|simpl in Hlen; lia|done].
Qed.

(** C32 (exchanges complete): when the server accepts the client and the handler answers the request, both
    ends succeed, the client with that answer, after so many rounds in which each end has a turn that is
    neither cancelled nor late and moves at least one byte if one can be moved: twice the bytes of both
    frames and five more. *)
Theorem exchange_completes rounds :
  2 * (length request + length answer) + 5 ≤ length rounds → Forall (λ ts, productive ts.1 ∧ productive ts.2) rounds →
  let x := foldl round (start the_client the_server) rounds in
  settle (ex_client x) = Finished (Ok answer) ∧ settle (ex_server x) = Finished (Ok tt).
Proof.
  intros Hlen Hp x. apply (rounds_finish (length rounds) rounds (start the_client the_server) [] []); [left|right|done|done].
  - assert (∀ {R} (p : endpoint R), track p p [] [] []) as Htrack by (intros R p; unfold track; by rewrite <-!surjective_pairing).
    split; (split; [apply Htrack|]).
    + unfold start, the_client, round_trip_frame_cancellable. simpl. rewrite Hname. change (Ok () ≫= λ _, ?x) with x. rewrite Hrequest. simpl.
      intros prefix. by destruct (_ <? _)%N.
    + simpl. intros prefix. destruct (_ <? _)%N; [done|]. simpl. intros frame. by destruct (_ ≫= _).
  - unfold work, start. simpl. assert (connects the_client ≤ 1 ∧ connects the_server ≤ 1) as [? ?] by (split; [destruct the_client|destruct the_server]; simpl; lia).
    simpl in *. lia.
Qed.
End exchange.

(** ** Requests of the agent *)

Section wire.
Context (request_to_json : AgentRequest → list N) (request_from_json : list N → option AgentRequest).
Context (response_to_json : AgentResponse → list N) (response_from_json : list N → option AgentResponse).

Lemma encode_frame_ok {A} (to_json : A → list N) v frame : encode_frame to_json v = Ok frame → frame_ok frame.
Proof.
  unfold encode_frame. destruct (N.ltb_spec MAX_FRAME_BYTES (N.of_nat (length (to_json v)))) as [|Hmax]; [done|].
  destruct (_ <=? _)%N; [done|]. intros H. assert (to_le_bytes 4 (N.of_nat (length (to_json v))) ++ to_json v = frame) as <- by congruence. clear H. apply frame_ok_iff.
  pose proof (to_le_bytes_length 4 (N.of_nat (length (to_json v)))) as H4. rewrite take_app_length' by done.
  unfold MAX_FRAME_BYTES, MAX_TRANSPORT_FRAME_BYTES in *.
  rewrite from_to_le_bytes by (change (256 ^ N.of_nat 4)%N with 4294967296%N; lia). rewrite length_app, H4. split_and!; lia.
Qed.

Lemma decode_encoded {A} (to_json : A → list N) (from_json : list N → option A) v frame :
  from_json (to_json v) = Some v → encode_frame to_json v = Ok frame → decode_frame from_json frame = Ok v.
Proof.
  intros Hjson. unfold encode_frame. destruct (N.ltb_spec MAX_FRAME_BYTES (N.of_nat (length (to_json v)))) as [|Hmax]; [done|].
  destruct (_ <=? _)%N; [done|]. intros H. assert (to_le_bytes 4 (N.of_nat (length (to_json v))) ++ to_json v = frame) as <- by congruence. clear H. rewrite decode_prefixed by done. by rewrite Hjson.
Qed.

(** C31 (answers over the pipe): however the turns of client and server are interleaved, cut, delayed or
    failing, a client that gets a response gets what the service answers to exactly its request, and only
    from a server that found the client in the logon session it serves. *)
Theorem agent_round_trip_exact pipe_name request identity logon_sid service es frame response :
  let x := exchange_run es (start (round_trip_cancellable request_to_json pipe_name request)
             (serve_frame_cancellable identity logon_sid (serve_one request_from_json response_to_json service))) in
  request_from_json (request_to_json request) = Some request →
  response_from_json (response_to_json (service request)) = Some (service request) →
  settle (ex_client x) = Finished frame → round_trip_response response_from_json frame = Ok response →
  response = service request ∧ identity = Ok logon_sid.
Proof.
  intros x request_json response_json Hf Hr. destruct frame as [frame|e]; [|done]. unfold x in Hf. clear x. unfold round_trip_cancellable in Hf.
  assert (∀ e client, client = Finished (R := list N) (Err e) → ∀ server es, settle (ex_client (exchange_run es (start client server))) ≠ Finished (Ok frame)) as Hfailed.
  { clear. intros e client -> server es. assert (∀ x, ex_client x = Finished (Err e) → ex_client (exchange_run es x) = Finished (Err e)) as Hrun.
    { induction es as [|ev es IH]; intros x Hx; [done|]. simpl. apply IH. destruct ev; simpl; [by rewrite Hx|by destruct (endpoint_turn _ _ _) as [[? ?] ?]]. }
    by rewrite (Hrun (start _ server)). }
  destruct (encode_frame request_to_json request) as [encoded|e] eqn:Henc; [|by eapply Hfailed in Hf].
  pose proof (encode_frame_ok _ _ _ Henc) as Hok.
  destruct (validate_pipe_name pipe_name) as [[]|e] eqn:Hname.
  2: { eapply Hfailed in Hf; [done|]. unfold round_trip_frame_cancellable. by rewrite Hname. }
  destruct (exchange_exact pipe_name encoded identity logon_sid (serve_one request_from_json response_to_json service) Hname Hok es) as [Hex _].
  destruct (Hex frame Hf) as (Hv & Hh & _). unfold serve_one in Hh. rewrite (decode_encoded _ _ _ _ request_json Henc) in Hh.
  apply map_err_Ok in Hh. unfold round_trip_response in Hr. simpl in Hr. rewrite (decode_encoded _ _ _ _ response_json Hh) in Hr.
  apply result_bind_Ok in Hr as (response' & Hd & Hr). injection Hd as <-. apply result_bind_Ok in Hr as (u & _ & [= <-]). split; [done|].
  unfold verify_client_logon_sid in Hv. apply result_bind_Ok in Hv as (actual & -> & Hv). apply ensure_Ok in Hv as [Ha _].
  by apply bool_decide_eq_true in Ha as ->.
Qed.
End wire.

(** ** A small exchange *)

Definition moves (bytes : nat) : pipe_turn := MkPipeTurn false false (Transfers bytes).
Definition waits : pipe_turn := MkPipeTurn false false NotYet.
Definition sample_pipe : string := "\\.\pipe\LocalSearch\Agent\v1\S-1-5".
Definition small_frame : list N := [2; 0; 0; 0; 7; 9]%N.

Lemma exchange_completes_witness :
  let x := foldl round (start (the_client sample_pipe small_frame) (the_server (Ok "S-1-5") "S-1-5" Ok)) (replicate 29 (moves 1, moves 3)) in
  settle (ex_client x) = Finished (Ok small_frame) ∧ settle (ex_server x) = Finished (Ok tt).
Proof.
  apply (exchange_completes sample_pipe small_frame (Ok "S-1-5") "S-1-5" Ok).
  - vm_compute. reflexivity.
  - vm_compute. reflexivity.
  - vm_compute. reflexivity.
  - simpl. lia.
  - apply Forall_replicate. split; (split; [reflexivity|]; split; [reflexivity|]; eexists; reflexivity).
Defined.

Definition small_request : AgentRequest := MkAgentRequest AGENT_API_VERSION AGENT_CODEC_VERSION "r-1" 0 AgentGetHealth.
Definition small_response : AgentResponse := response_success "r-1" (RHealth (MkServiceHealth true true true)).
(** JSON that knows one request and one response. *)
Definition one_json {A} (a : A) (bytes : list N) : option A := if decide (bytes = [1; 2; 3]%N) then Some a else None.
Definition small_exchange : exchange :=
  exchange_run ([ServerTurn waits; ClientTurn (moves 1); ServerTurn (moves 1); ClientTurn (moves 3); ServerTurn (moves 9); ClientTurn (moves 9);
                 ServerTurn (moves 2); ServerTurn (moves 9); ServerTurn (moves 9); ServerTurn (moves 5)]
                ++ replicate 4 (ClientTurn (moves 2)) ++ [ServerTurn (moves 9)] ++ replicate 3 (ClientTurn (moves 2)) ++ [ServerTurn (moves 1)])
    (start (round_trip_cancellable (λ _, [1; 2; 3]%N) sample_pipe small_request)
       (serve_frame_cancellable (Ok "S-1-5") "S-1-5" (serve_one (one_json small_request) (λ _, [1; 2; 3]%N) (λ _, small_response)))).

Lemma agent_round_trip_exact_witness :
  ∃ frame, settle (ex_client small_exchange) = Finished frame ∧
    round_trip_response (one_json small_response) frame = Ok small_response ∧ settle (ex_server small_exchange) = Finished (Ok tt).
Proof.
  assert (settle (ex_client small_exchange) = Finished (Ok [3; 0; 0; 0; 1; 2; 3]%N)) as Hf by (vm_compute; reflexivity).
  assert (is_ok (round_trip_response (one_json small_response) (Ok [3; 0; 0; 0; 1; 2; 3]%N)) = true) as Hr by (vm_compute; reflexivity).
  destruct (round_trip_response (one_json small_response) (Ok [3; 0; 0; 0; 1; 2; 3]%N)) as [response|e] eqn:Hresp; [|discriminate Hr].
  destruct (agent_round_trip_exact (λ _, [1; 2; 3]%N) (one_json small_request) (λ _, [1; 2; 3]%N) (one_json small_response) sample_pipe small_request
    (Ok "S-1-5") "S-1-5" (λ _, small_response) _ _ response eq_refl eq_refl Hf Hresp) as [-> _].
  exists (Ok [3; 0; 0; 0; 1; 2; 3]%N). split; [exact Hf|]. split; [exact Hresp|]. vm_compute. reflexivity.
Defined.
